(* ===== verification/_CoqProject ===== *)
-Q . S2P
Prelude.v
RustStd.v
Bfs.v
PathSearch.v
Collections.v
StrLemmas.v
UuidText.v
F32.v
FloatOrder.v
FloatRound.v
TopK.v
HnswIndex.v
Similarity.v
ProductQuantization.v
TextIndex.v
Types.v
VectorTypes.v
VectorDb.v
VectorDbGraph.v
VectorDbData.v
VectorDbThms.v
VectorDbSearch.v
Petgraph.v
EntityGraph.v
GraphAnalytics.v
EntityGraphWf.v
EntityGraphInv.v
EntityGraphSpec.v
EntityGraphThms.v
EntityQueries.v
EntityQueriesThms.v
ContextAssembly.v
ContextAssemblyThms.v
GraphSerde.v
HotContext.v
Session.v
SessionThms.v
SessionInv.v
CircuitBreaker.v
Workspace.v
QueryCache.v
QueryCacheThms.v
JsonPath.v
JsonPathThms.v
Persister.v
PersisterInv.v
PersisterWaiters.v
PersisterDrain.v
PersisterThms.v
LruCache.v
LruCacheThms.v
Temporal.v
SearchResults.v
RetrievalGraph.v
SearchResultsThms.v
GraphCache.v
AssemblyScope.v
RecordCodecs.v
GraphViews.v
GraphViewsThms.v
RequestValidation.v
Rocks.v
RocksThms.v
RocksMessages.v
RocksCards.v
RocksFreshness.v
RocksFreshnessThms.v
RocksCascade.v
RocksWorkspaces.v
RocksLegacy.v
RocksSessions.v
RocksSessionsThms.v
RocksSessionsRuns.v
RocksMigration.v
RocksDeletion.v
RocksSessionsDemo.v
RocksGraph.v
RocksGraphThms.v
RocksVectors.v
RocksVectorsThms.v
