(* ===== verification/Prelude.v ===== *)
(** * A verification development for post-cortex

    post-cortex is a conversation memory: a daemon records context updates in
    sessions, keeps an entity graph per session, answers searches over it and
    stores everything in RocksDB or SurrealDB.  This library models the core
    that decides what a session remembers and answers: the entity graph, the
    session with its tiers, their stored forms, the components of the memory
    system that guard and cache access to them, and the RocksDB backend that
    stores sessions, messages, cards, source references, workspaces, the
    entity graph and embeddings, and the in-memory vector database that
    answers searches.

    The model is a shallow embedding: a Rust [&mut self] method is a function
    from the state to the new state (and its result), a fallible one returns
    [result], a panic is [None].  Paths below are relative to
    [src/crates/]; [core] is [post-cortex-core/src], [memory] is
    [post-cortex-memory/src], [rocksdb] is
    [post-cortex-storage/src/rocksdb_storage], [vector_db] is
    [post-cortex-embeddings/src/vector_db].

    ** Files

    - [Prelude]: results, worklists with fuel ([while_pop]), [Vec] operations,
      machine integers ([u32_add], [u64_add], [u64_sub] wrap, as release
      builds do), generic lemmas, the hint database [pcx].
    - [RustStd]: bytes, UTF-8 and the string functions the source uses.
      [Unicode] is the class of what [char::to_lowercase] and the like do.
    - [StrLemmas]: decoding inverts encoding, trimming, decimal round trips.
    - [Bfs]: breadth-first search over a worklist, equal to bounded
      reachability; shared by the graph traversals.  [PathSearch]: the search
      for a shortest path and the level-by-level search of the stored graph.
    - [Collections]: [sort_by], [select_nth_unstable_by] ([SelectNth]), the
      unspecified iteration order of hash maps ([MapOrder]), sorted B-tree
      iteration.
    - [F32]: IEEE single precision as the source uses it; [Libm] is the class
      of the logarithms.  [FloatOrder] has the facts on non-negative floats
      that scores need, and sorting by comparators that agree on a list;
      [FloatRound] what rounding guarantees of a result.  [f64] likewise.
    - [TopK]: bounded heaps that keep the best candidates.
    - [Similarity]: [vector_db/similarity.rs], the eight-lane kernels;
      [VectorTypes]: [vector_db/types.rs].
    - [HnswIndex], [ProductQuantization], [TextIndex]: the files of the same
      names of [vector_db], the adjacency lists with their entry point, the
      codebooks, and the word statistics with BM25.
    - [VectorDb]: [vector_db/core.rs] with [config.rs] and [common.rs], the
      in-memory vector database over these.  [VectorDbGraph]: its graph stays
      well-formed and walks over it end; [VectorDbData]: the indexes by source
      and content id, adding and removing; [VectorDbThms]: the
      specification, each operation, and the lookups; [VectorDbSearch]: the
      searches, and the refinement of all operations.
    - [UuidText]: [Display] and [parse_str] of the uuid crate, as a class.
    - [Types]: [core/core/context_update.rs] and [structured_context.rs].
    - [Petgraph]: the interface of the petgraph graph the source calls, with
      the documented behaviour of each call as laws ([PetgraphLaws]: a removed
      node is replaced by the last one) and an implementation that satisfies
      them ([list_graph]).
    - [EntityGraph], [EntityQueries], [GraphSerde]:
      [core/graph/entity_graph.rs].  The first has every mutating method of
      [SimpleEntityGraph], the second its traversals and lookups, the third
      serialization.  [EntityGraphWf] and [EntityGraphInv] hold the
      invariant [graph_wf] and its preservation, [EntityGraphSpec] the
      abstract view of a graph as its relations, [EntityGraphThms] and
      [EntityQueriesThms] the theorems.
    - [GraphAnalytics]: [core/graph/analytics.rs], importance and topic
      communities.  [RetrievalGraph]: [core/graph/retrieval_graph.rs], records
      joined by terms, entities and relations, and their ranking for a query.
    - [Temporal]: [core/graph/temporal.rs], the validity
      intervals of records.
    - [ContextAssembly], [ContextAssemblyThms]: [memory/context_assembly.rs],
      the context put together for a query.
    - [SearchResults], [SearchResultsThms]: [core/core/message.rs] and the
      completion of search hits ([memory/memory_system/neighbours.rs],
      [messages.rs]).
    - [GraphViews], [GraphViewsThms]: [memory/graph_views.rs], the views of a
      scope that every transport renders: graph, entity, impact, timeline,
      topics, lineage, file and radar, and the parser of their requests.
    - [AssemblyScope]: [assembly_scope.rs] of
      [post-cortex-daemon/src/daemon], which reads cards, excerpts, records
      and graph for an assembly and divides the token budget.
    - [RequestValidation]: [validate.rs], [coerce.rs] and [host_allowlist.rs]
      of the same directory: the checks of tool arguments, their coercion, the
      errors, and the policy on [Host] headers.
    - [GraphCache]: the caches of that file and of [neighbours.rs] that compare
      [Arc] addresses, over a heap whose addresses are reused.
    - [HotContext]: [core/session/session_components.rs], the
      bounded queue of recent updates ([HotContext]) and the session's small
      entity graph (Module [LockFree], definitions only).
    - [Session], [SessionThms], [SessionInv]:
      [core/session/active_session.rs].  [op] is a method that may fail
      half-way and keeps what it had done; [Tokio] is [tokio::time::timeout].
    - [CircuitBreaker]: [memory/memory_system/circuit_breaker.rs] and the gate
      of [system.rs], sequentially and as a step relation of atomic accesses.
    - [Workspace]: [core/workspace/mod.rs].
    - [QueryCache], [QueryCacheThms]: [memory/query_cache.rs].
    - [JsonPath], [JsonPathThms]: [memory/jsonpath.rs], the [select] parameter
      of the context assembly: parser, executor, selection.
    - [LruCache], [LruCacheThms]: [core/core/cache.rs], over [f64].
    - [Persister]: [memory/memory_system/persister.rs], the write queue of a
      session, as tasks of a step relation.  [PersisterInv] shows who holds
      which lock, [PersisterWaiters] where each request is, [PersisterDrain]
      that the tasks run to their end, [PersisterThms] in which order the
      storage is called, and it plays concrete schedules.

    - [Rocks], [RocksThms]: the interface of the RocksDB crate
      with its laws, [rocksdb/core.rs] (prefix bounds, scans, number keys),
      and [stored_map]: a family of keys as a finite map.  [RecordCodecs] has
      codecs to evaluate with.
    - [RocksMessages], [RocksCards], [RocksFreshness], [RocksCascade],
      [RocksWorkspaces], [RocksLegacy], [RocksSessions], [RocksGraph],
      [RocksVectors]: the files of the same names of [rocksdb] ([RocksCascade]
      is the dependency cascade of [freshness.rs]); the files that end in
      [Thms] hold the theorems.  [RocksSessionsRuns] is about sequences of
      saves and listings, [RocksMigration] about stores of older versions,
      [RocksDeletion] about deleting a session, [RocksSessionsDemo] has the
      instances.

    ** How the parts interact

    A session ([Session.ActiveSession]) owns a hot tier
    ([HotContext.HotContext]), an entity graph
    ([EntityGraph.SimpleEntityGraph]) and a structured context
    ([Types.StructuredContext]); [add_incremental_update] cuts the update
    ([limit_update]) and then changes each of them in the order of the source.
    The theorems on a session use the components' lemmas only
    ([apply_update_wf], [push_entries], [from_updates_last], ...).  The entity
    graph is proved against [PetgraphLaws], never against the list
    implementation; the concrete one is used to evaluate instances.

    The storage theorems relate the database to finite maps ([stored_map] per
    kind of record) and are proved against [RocksDBLaws] and [BincodeLaws]:
    each operation acts on its maps, and [only_in] says which families of
    keys it touches, so that the parts of the store compose.

    The vector database ([VectorDb.VectorDB]) calls its parts through their
    invariants: [hnsw_wf], [text_wf] and [index_ok] are kept by the operations
    of [HnswIndex], [TextIndex] and the indexes, [graph_ok] and [data_ok] put
    them together, and [db_ok] adds which vectors are in the graph.

    ** What the theorems show

    - Entity graph: no sequence of calls panics or breaks [graph_wf]; removal
      and merging change exactly what they should although petgraph renumbers
      nodes; [add_relationship] is an upsert.
    - Queries: the traversals terminate and compute bounded reachability
      ([Bfs.within]); the bounded network honours its limits; the listing
      functions are exact.
    - Analytics: communities are found without a panic, are connected and are
      numbered by size; the ranking of the retrieval graph never panics and
      finds only records that the query reaches.
    - Views: the timeline, the lineage and the alias candidates are exact, and
      so is the impact analysis for the relations it follows, "required by"
      from both ends; every request is answered within its limits, and what
      the parser accepts is in range.
    - Requests: only listed hosts reach the endpoints, and a configuration with
      a malformed entry is refused; a code reference reads as what it denotes;
      coercion settles, reads each loose value as its text and leaves typed
      fields alone; limits are exact.
    - Stored forms: graphs and sessions read back as what was written.  A
      session is written with its graph by names and read through the graph's
      deserializer, which renumbers the nodes and rebuilds the alias index;
      entities whose names share a key are merged by that, so equality is for
      graphs without such.
    - Sessions: recording reaches every view once, a failure publishes
      nothing, removing undoes recording but for the clock, a periodic summary
      and an evicted hot entry, retiring is idempotent, the tiers stay within
      their bounds; [truncate_safe] is the longest prefix.
    - Validity intervals: the indexed scan equals a record-by-record reference,
      does not depend on the order of its input, and its intervals are
      well-formed.
    - Context assembly: the neighbourhood is bounded reachability, the impact
      analysis is exact (and what it reports backwards), the budget is kept
      and used, the rendered text is bounded by the token count.
    - Search results: completing hits fails never, repeats nothing, loses no
      hit; the caches under it are transparent in every interleaving.
    - Query cache: exact counters, bounded size, no stale hits, what is
      inserted is found.
    - LRU cache: it refines a bounded map that loses one entry when a new key
      enters a full one; what an eviction picks, and that every entry comes
      into the sample.
    - JSONPath: the parser returns, accepts no forbidden construct and inverts
      the canonical text; the executor never panics and equals the
      denotation of the path.
    - Persister: in every interleaving no request is lost or answered twice,
      no deadlock or endless loop, writes do not race or go back, and a
      deleted handle is never written after its deletion; the two schedules
      in which a comment of the source is not kept.
    - Circuit breaker: when it opens, what it rejects, and the race between
      successes.
    - RocksDB: messages, cards, references, workspaces, graph and embeddings
      are maps and logs; saves of a session lose no update, whatever was
      stored; loading migrates older layouts; deletion removes everything of
      a session and nothing else; seeks, cascades and path searches end;
      a cascade reaches the dependents recorded, for each symbol those of its
      name in any file; searches over embeddings are exact.
    - Vector database: every sequence of operations refines a map from ids to
      vectors with metadata, indexes, word statistics and graph being those of
      the map, and searches answering soundly over it; lookups agree with it;
      scans return the best [k], graph walks
      end and return genuine matches, filtered searches are never short, word
      searches rank by BM25.
    - Similarity: the fused kernel equals the one in three passes bit for bit.
    - Workspaces: index and counter agree with the store, and the two
      sequences of calls after which they do not.

    ** Fuel

    Few loops need fuel.  The parser's takes the number of bytes
    left, and every turn consumes one.  The seek loop of the session listing
    takes a step per key ([list_fuel]), the cascade one per symbol a
    dependency row names ([cascade_fuel]), the path search one per end of a
    stored relation ([path_fuel]), a walk over the vector graph one per stored
    vector and one for the entry point ([walk_fuel]), [communities_loop] one per
    node left, the lineage one per end of a relation ([lineage_fuel]); choosing a new entry
    point takes two turns.  [while_pop] gives [None] when it runs out;
    the traversals are called with the number of nodes, and the termination
    part of each theorem shows that this is enough, since a node enters the
    queue at most once.  Everything else is structural.  The steps of the
    persister need no fuel: [PersisterDrain.remaining] bounds them.

    ** Conventions and limits

    Clocks and fresh ids are arguments: [now i] (or [clock e i]) is the i-th
    reading a call takes, [fresh_id e i] the i-th id it draws.  [DateTime] is a
    [Z], [Uuid] an [N].  Hash maps are [gmap]s, iterated through [MapOrder].
    Lock-free structures are modelled by their sequential behaviour except
    where interleaving is the point ([CircuitBreaker.step]).  A parallel
    iterator is a sequence in an order that is an argument.  Sharing through
    [Arc] is immutable in the modelled code and therefore not represented,
    except where the code compares identities: [cq_arc] of the query cache,
    and [GraphCache].  Lengths and
    sizes that cannot reach [2^64] in memory are [nat].

    Not modelled: the enrichment of search results by the graph around them
    ([graph_rag.rs]), export and import, the SurrealDB backend (queries sent to a
    server), embedding models and reranking (inference libraries), the
    asynchronous orchestration in [memory_system], and the transports (MCP,
    gRPC, REST, command line). *)

From stdpp Require Export base gmap strings list sorting fin_maps.
From Stdlib Require Export ZArith NArith Lia.

#[global] Set Default Goal Selector "!".
#[global] Set Warnings "-clear-no-such-hyp".

(** ** Results

    [Result<T, E>] of the source. *)

Inductive result (A E : Type) : Type :=
| Ok (a : A)
| Err (e : E).
Arguments Ok {A E} _.
Arguments Err {A E} _.

Definition is_ok {A E} (r : result A E) : bool :=
  match r with Ok _ => true | Err _ => false end.

Definition result_bind {A B E} (r : result A E) (f : A → result B E) : result B E :=
  match r with Ok a => f a | Err e => Err e end.

Declare Scope pcx_scope.
Delimit Scope pcx_scope with pcx.

Notation "'try' x <- r ; k" := (result_bind r (λ x, k))
  (at level 100, x pattern, r at next level, right associativity) : pcx_scope.

(** ** Iteration

    [for (i, x) in xs.enumerate() { s = f(i, x, s) }]: the index lets a loop
    body read the clock once per iteration. *)

Fixpoint foldi {A S} (f : nat → A → S → S) (i : nat) (xs : list A) (s : S) : S :=
  match xs with
  | [] => s
  | x :: xs => foldi f (i + 1) xs (f i x s)
  end.

Section foldi.
Context {A S : Type}.
Implicit Types (f : nat → A → S → S) (P : S → Prop).

Lemma foldi_app f i xs ys s :
  foldi f i (xs ++ ys) s = foldi f (i + length xs) ys (foldi f i xs s).
Proof.
  revert i s. induction xs as [|x xs IH]; intros i s; simpl.
  - by rewrite Nat.add_0_r.
  - rewrite IH. f_equal. lia.
Qed.

Lemma foldi_inv f P xs :
  (∀ i x s, x ∈ xs → P s → P (f i x s)) →
  ∀ i s, P s → P (foldi f i xs s).
Proof.
  induction xs as [|x xs IH]; intros Hf i s Hs; simpl; [done|].
  apply IH.
  - intros j y t Hy. apply Hf. by right.
  - apply Hf; [by left|done].
Qed.
End foldi.

Lemma foldl_inv {A S} (f : S → A → S) (P : S → Prop) xs :
  (∀ s x, x ∈ xs → P s → P (f s x)) → ∀ s, P s → P (foldl f s xs).
Proof.
  induction xs as [|x xs IH]; intros Hf s Hs; simpl; [done|].
  apply IH.
  - intros t y Hy. apply Hf. by right.
  - apply Hf; [by left|done].
Qed.

(** A loop whose body may fail. *)
Fixpoint try_fold {A S} (f : S → A → option S) (s : S) (xs : list A) : option S :=
  match xs with
  | [] => Some s
  | x :: xs => s ← f s x; try_fold f s xs
  end.

Lemma try_fold_total {A S} (f : S → A → option S) (P : S → Prop) xs :
  (∀ s x, x ∈ xs → P s → ∃ s', f s x = Some s' ∧ P s') →
  ∀ s, P s → ∃ s', try_fold f s xs = Some s' ∧ P s'.
Proof.
  induction xs as [|x xs IH]; intros Hf s Hs; simpl; [eauto|].
  destruct (Hf s x) as (s' & -> & Hs'); [by left|done|]. simpl.
  apply IH; [|done]. intros t y Hy. apply Hf. by right.
Qed.

Lemma try_fold_None {A S} (f : S → A → option S) xs x s :
  x ∈ xs → (∀ t, f t x = None) → try_fold f s xs = None.
Proof.
  intros Hx Hf. revert s.
  induction xs as [|y xs IH]; intros s; [by apply not_elem_of_nil in Hx|]. simpl.
  apply elem_of_cons in Hx as [<-|Hx]; [by rewrite Hf|].
  destruct (f s y); simpl; [by apply IH|done].
Qed.

(** ** Worklists

    [while let Some(x) = queue.pop_front() { body }]: the body gets the state
    and returns it with the elements it pushed, or stops the loop.  [None]
    means the fuel ran out. *)

Inductive flow (Q S : Type) : Type :=
| Continue (s : S) (pushed : list Q)
| Break (s : S).
Arguments Continue {Q S} _ _.
Arguments Break {Q S} _.

Fixpoint while_pop {Q S} (body : Q → S → flow Q S) (fuel : nat)
    (queue : list Q) (s : S) : option S :=
  match queue with
  | [] => Some s
  | x :: queue =>
    match fuel with
    | O => None
    | S fuel =>
      match body x s with
      | Continue s pushed => while_pop body fuel (queue ++ pushed) s
      | Break s => Some s
      end
    end
  end.

Section while_pop.
Context {Q S : Type} (body : Q → S → flow Q S).

(** A measure that pays for every push bounds the number of iterations. *)
Lemma while_pop_terminates (P : list Q → S → Prop) (m : S → nat) :
  (∀ x q s s' ps, P (x :: q) s → body x s = Continue s' ps →
                  length ps + m s' ≤ m s ∧ P (q ++ ps) s') →
  ∀ fuel q s, P q s → length q + m s ≤ fuel → is_Some (while_pop body fuel q s).
Proof.
  intros Hbody fuel. induction fuel as [|fuel IH]; intros [|x q] s HP Hf;
    simpl in *; [done|lia|done|].
  destruct (body x s) as [s' ps|s'] eqn:Hb; [|done].
  destruct (Hbody _ _ _ _ _ HP Hb) as [Hm HP'].
  apply IH; [done|]. rewrite length_app. lia.
Qed.

Lemma while_pop_inv (P : list Q → S → Prop) (R : S → Prop) :
  (∀ s, P [] s → R s) →
  (∀ x q s s' ps, P (x :: q) s → body x s = Continue s' ps → P (q ++ ps) s') →
  (∀ x q s s', P (x :: q) s → body x s = Break s' → R s') →
  ∀ fuel q s s', P q s → while_pop body fuel q s = Some s' → R s'.
Proof.
  intros Hnil Hcont Hbreak fuel.
  induction fuel as [|fuel IH]; intros [|x q] s s' HP Hw; simplify_eq/=; eauto.
  destruct (body x s) as [t ps|t] eqn:Hb; simplify_eq; eauto.
Qed.
End while_pop.

(** Projecting the state of a loop. *)
Definition flow_map {Q S T} (f : S → T) (r : flow Q S) : flow Q T :=
  match r with Continue s ps => Continue (f s) ps | Break s => Break (f s) end.

Lemma while_pop_map {Q S T} (body : Q → S → flow Q S) (body' : Q → T → flow Q T)
    (f : S → T) (P : Q → Prop) :
  (∀ x s, P x → body' x (f s) = flow_map f (body x s)
                ∧ ∀ s' ps, body x s = Continue s' ps → ∀ y, y ∈ ps → P y) →
  ∀ fuel q s, (∀ x, x ∈ q → P x) →
  while_pop body' fuel q (f s) = f <$> while_pop body fuel q s.
Proof.
  intros Hb fuel. induction fuel as [|fuel IH]; intros [|x q] s Hq; simpl; [done..|].
  destruct (Hb x s) as [-> Hps]; [apply Hq; by left|].
  destruct (body x s) as [s' ps|s']; simpl; [|done]. apply IH.
  intros y [Hy|Hy]%elem_of_app; [apply Hq; by right|by eapply Hps].
Qed.

(** ** Fixed-width unsigned integers

    [u32]/[u64] arithmetic of a release build wraps around (the workspace
    sets no [overflow-checks]); [saturating_sub] stops at zero. *)

Definition u32_mod : N := 4294967296.
Definition u64_mod : N := 18446744073709551616.

Definition u32_add (a b : N) : N := (a + b) `mod` u32_mod.
Definition u64_add (a b : N) : N := (a + b) `mod` u64_mod.
Definition u64_sub (a b : N) : N := (a + u64_mod - b `mod` u64_mod) `mod` u64_mod.

(** [usize] counts the elements of live collections and byte lengths, so it
    is a [nat]; [nat] subtraction is [saturating_sub]. *)

(** [v.drain(..n)], [v.remove(i)], [v.swap_remove(i)]. *)

Definition vec_remove {A} (i : nat) (v : list A) : list A := delete i v.

Definition swap_remove {A} (i : nat) (v : list A) : list A :=
  match last v with
  | Some x => if decide (i + 1 = length v) then take i v
              else <[i := x]> (take (length v - 1) v)
  | None => v
  end.

(** [slice.iter().position(p)]. *)
Fixpoint position {A} (p : A → bool) (v : list A) : option nat :=
  match v with
  | [] => None
  | x :: v => if p x then Some 0 else S <$> position p v
  end.

(** [iter.find(p)]. *)
Fixpoint find_first {A} (p : A → bool) (v : list A) : option A :=
  match v with
  | [] => None
  | x :: v => if p x then Some x else find_first p v
  end.

(** [vec.retain(p)]. *)
Definition retain {A} (p : A → bool) (v : list A) : list A := filter (λ x, p x = true) v.

Lemma position_Some {A} (p : A → bool) v i :
  position p v = Some i →
  ∃ x, v !! i = Some x ∧ p x = true ∧ ∀ j y, j < i → v !! j = Some y → p y = false.
Proof.
  revert i. induction v as [|x v IH]; intros i; simpl; [done|].
  destruct (p x) eqn:Hp.
  - intros [= <-]. exists x. split_and!; [done|done|lia].
  - intros (i' & Hi & ->)%fmap_Some. destruct (IH _ Hi) as (y & Hy & Hpy & Hmin).
    exists y. split_and!; [done|done|]. intros [|j] z Hj; simpl; [by intros [= <-]|].
    apply Hmin. lia.
Qed.

Lemma position_None {A} (p : A → bool) v :
  position p v = None ↔ ∀ x, x ∈ v → p x = false.
Proof.
  induction v as [|x v IH]; simpl.
  - split; [|done]. intros _ x Hx. by apply not_elem_of_nil in Hx.
  - destruct (p x) eqn:Hp.
    + split; [done|]. intros H. specialize (H x (list_elem_of_here _ _)). congruence.
    + transitivity (position p v = None); [by destruct (position p v)|].
      rewrite IH. split.
      * intros H y [->|Hy]%elem_of_cons; auto.
      * intros H y Hy. apply H. by right.
Qed.

Lemma find_first_Some {A} (p : A → bool) v x :
  find_first p v = Some x → x ∈ v ∧ p x = true.
Proof.
  induction v as [|y v IH]; simpl; [done|].
  destruct (p y) eqn:Hp.
  - intros [= ->]. split; [by left|done].
  - intros H. destruct (IH H). split; [by right|done].
Qed.

Lemma find_first_None {A} (p : A → bool) v :
  find_first p v = None ↔ ∀ x, x ∈ v → p x = false.
Proof.
  induction v as [|x v IH]; simpl.
  - split; [|done]. intros _ x Hx. by apply not_elem_of_nil in Hx.
  - destruct (p x) eqn:Hp.
    + split; [done|]. intros H. specialize (H x (list_elem_of_here _ _)). congruence.
    + rewrite IH. split.
      * intros H y [->|Hy]%elem_of_cons; auto.
      * intros H y Hy. apply H. by right.
Qed.

Lemma elem_of_retain {A} (p : A → bool) v x : x ∈ retain p v ↔ x ∈ v ∧ p x = true.
Proof. unfold retain. rewrite list_elem_of_filter. tauto. Qed.

Lemma filter_keep_all {A} (P : A → Prop) `{!∀ x, Decision (P x)} (l : list A) :
  (∀ x, x ∈ l → P x) → filter P l = l.
Proof.
  induction l as [|x l IH]; intros Hl; [done|].
  rewrite filter_cons_True by (apply Hl; by left). f_equal. apply IH.
  intros y Hy. apply Hl. by right.
Qed.

(** ** Tactics and hints *)

(** Case analysis on the outermost [match]/[if] of the goal or hypotheses,
    keeping the equation. *)
Ltac case_step :=
  match goal with
  | |- context [match ?x with _ => _ end] => destruct x eqn:?
  | H : context [match ?x with _ => _ end] |- _ => destruct x eqn:?
  end; simplify_eq/=.

Ltac case_steps := repeat case_step.

Create HintDb pcx discriminated.
#[export] Hint Constants Opaque : pcx.
#[export] Hint Resolve list_elem_of_here : pcx.
#[export] Hint Extern 3 (_ < _) => lia : pcx.
#[export] Hint Extern 3 (_ ≤ _) => lia : pcx.
