(* ===== verification/RustStd.v ===== *)
(** * The parts of Rust's standard library the modelled code uses

    Strings are their UTF-8 bytes ([string], one [ascii] per byte), so [len],
    slicing and [Ord] are the byte-wise ones of [str]; [chars] decodes the
    scalar values.  Hash-map iteration order and [select_nth_unstable_by],
    which the standard library leaves unspecified, are type classes with the
    documented laws and one concrete instance each, used by the witnesses.
    [f32] is the IEEE binary32 format of [SpecFloat]. *)

From S2P Require Import Prelude.
From Stdlib Require Strings.Ascii Strings.String.
From Stdlib Require Import Floats.SpecFloat.

Local Open Scope N_scope.

(** ** Bytes and UTF-8 *)

Definition str_bytes (s : string) : list N :=
  Ascii.N_of_ascii <$> String.list_ascii_of_string s.
Definition str_of_bytes (bs : list N) : string :=
  String.string_of_list_ascii (Ascii.ascii_of_N <$> bs).

Definition str_len (s : string) : nat := length (str_bytes s).

Definition byte_ok (b : N) : Prop := b < 256.

(** Continuation bytes are [0b10xx_xxxx], i.e. [(b as i8) < -0x40]. *)
Definition is_continuation (b : N) : bool := (128 <=? b) && (b <? 192).

(** [str::is_char_boundary]. *)
Definition is_char_boundary (s : string) (i : nat) : bool :=
  if Nat.eqb i 0 then true
  else match str_bytes s !! i with
       | Some b => negb (is_continuation b)
       | None => Nat.eqb i (str_len s)
       end.

(** [String::truncate] (the caller is on a boundary). *)
Definition str_truncate (n : nat) (s : string) : string :=
  str_of_bytes (take n (str_bytes s)).

(** The UTF-8 encoding of one scalar value. *)
Definition utf8_encode (c : N) : list N :=
  if c <? 128 then [c]
  else if c <? 2048 then [192 + c / 64; 128 + c `mod` 64]
  else if c <? 65536 then
    [224 + c / 4096; 128 + (c / 64) `mod` 64; 128 + c `mod` 64]
  else
    [240 + c / 262144; 128 + (c / 4096) `mod` 64; 128 + (c / 64) `mod` 64;
     128 + c `mod` 64].

(** Decoding of well-formed UTF-8; a stray byte stands for itself. *)
Fixpoint utf8_decode (bs : list N) : list N :=
  match bs with
  | [] => []
  | b :: r =>
    if b <? 192 then b :: utf8_decode r
    else match r with
    | [] => [b]
    | b1 :: r1 =>
      if b <? 224 then ((b - 192) * 64 + (b1 - 128)) :: utf8_decode r1
      else match r1 with
      | [] => [b; b1]
      | b2 :: r2 =>
        if b <? 240 then
          ((b - 224) * 4096 + (b1 - 128) * 64 + (b2 - 128)) :: utf8_decode r2
        else match r2 with
        | [] => [b; b1; b2]
        | b3 :: r3 =>
          ((b - 240) * 262144 + (b1 - 128) * 4096 + (b2 - 128) * 64 + (b3 - 128))
            :: utf8_decode r3
        end
      end
    end
  end.

Definition str_chars (s : string) : list N := utf8_decode (str_bytes s).
Definition str_of_chars (cs : list N) : string := str_of_bytes (cs ≫= utf8_encode).

(** A Unicode scalar value, Rust's [char]. *)
Definition is_scalar (c : N) : Prop := c < 1114112.

(** A well-formed [str]. *)
Definition utf8_valid (s : string) : Prop :=
  ∃ cs, Forall is_scalar cs ∧ s = str_of_chars cs.

(** [char::is_whitespace]: the 25 code points of [White_Space]. *)
Definition is_whitespace (c : N) : bool :=
  ((9 <=? c) && (c <=? 13)) || (c =? 32) || (c =? 133) || (c =? 160)
  || (c =? 5760) || ((8192 <=? c) && (c <=? 8202)) || (c =? 8232)
  || (c =? 8233) || (c =? 8239) || (c =? 8287) || (c =? 12288).

Fixpoint skip_while (p : N → bool) (cs : list N) : list N :=
  match cs with
  | [] => []
  | c :: r => if p c then skip_while p r else cs
  end.

(** [str::trim]. *)
Definition str_trim (s : string) : string :=
  str_of_chars
    (reverse (skip_while is_whitespace
       (reverse (skip_while is_whitespace (str_chars s))))).

(** ** Case mapping

    Unicode's lowercase tables are data of the standard library, kept
    abstract: [char::to_lowercase] and [str::to_lowercase] (which differs
    from the former on the final sigma only). *)
Class Unicode := {
  char_to_lowercase : N → list N;
  str_to_lowercase : string → string;
}.

(** The ASCII part of the tables, as an instance to compute with. *)
Definition ascii_lower (c : N) : N :=
  if (65 <=? c) && (c <=? 90) then c + 32 else c.

Definition ascii_unicode : Unicode := {|
  char_to_lowercase := λ c, [ascii_lower c];
  str_to_lowercase := λ s, str_of_chars (ascii_lower <$> str_chars s);
|}.

(** [char::is_alphanumeric] and [char::is_uppercase]: tables of the standard
    library, kept abstract too. *)
Class Alphanumeric := { is_alphanumeric : N → bool }.
Class Uppercase := { is_uppercase : N → bool }.

Definition ascii_alnum : Alphanumeric := {|
  is_alphanumeric := λ c, ((48 <=? c) && (c <=? 57) || (65 <=? c) && (c <=? 90)
                           || (97 <=? c) && (c <=? 122))%N
|}.
Definition ascii_upper : Uppercase := {| is_uppercase := λ c, (65 <=? c) && (c <=? 90) |}.

(** [str::split] at the characters that satisfy [p]. *)
Fixpoint split_chars (p : N → bool) (cs : list N) : list (list N) :=
  match cs with
  | [] => [[]]
  | c :: cs =>
    if p c then [] :: split_chars p cs
    else match split_chars p cs with
         | w :: ws => (c :: w) :: ws
         | [] => [[c]]
         end
  end.

(** ** Lemmas on bytes *)

Lemma str_of_bytes_bytes s : str_of_bytes (str_bytes s) = s.
Proof.
  unfold str_of_bytes, str_bytes. rewrite <-list_fmap_compose.
  rewrite (list_fmap_ext _ id).
  - rewrite list_fmap_id. apply String.string_of_list_ascii_of_string.
  - intros ? c _. apply Ascii.ascii_N_embedding.
Qed.

Lemma str_bytes_of_bytes bs : Forall byte_ok bs → str_bytes (str_of_bytes bs) = bs.
Proof.
  intros Hbs. unfold str_of_bytes, str_bytes.
  rewrite String.list_ascii_of_string_of_list_ascii, <-list_fmap_compose.
  induction Hbs as [|b bs Hb _ IH]; csimpl; [done|]. f_equal; [|exact IH].
  by apply Ascii.N_ascii_embedding.
Qed.

#[global] Instance str_bytes_inj : Inj (=) (=) str_bytes.
Proof. intros s t H. by rewrite <-(str_of_bytes_bytes s), H, str_of_bytes_bytes. Qed.

Lemma str_bytes_ok s : Forall byte_ok (str_bytes s).
Proof.
  unfold str_bytes. apply Forall_fmap, Forall_true. intros c. apply Ascii.N_ascii_bounded.
Qed.

Lemma byte_ok_take n s : Forall byte_ok (take n (str_bytes s)).
Proof. apply Forall_take, str_bytes_ok. Qed.

Lemma str_truncate_bytes n s : str_bytes (str_truncate n s) = take n (str_bytes s).
Proof. apply str_bytes_of_bytes, byte_ok_take. Qed.

Lemma str_bytes_app s t : str_bytes (s +:+ t) = str_bytes s ++ str_bytes t.
Proof.
  unfold str_bytes. rewrite <-fmap_app. f_equal.
  induction s as [|c s IH]; simpl; [done|by f_equal].
Qed.

Lemma str_len_app a b : str_len (a +:+ b) = (str_len a + str_len b)%nat.
Proof. unfold str_len. by rewrite str_bytes_app, length_app. Qed.

Lemma utf8_encode_ok c : is_scalar c → Forall byte_ok (utf8_encode c).
Proof.
  unfold is_scalar, utf8_encode, byte_ok. intros Hc.
  pose proof (N.mod_lt c 64 ltac:(lia)). pose proof (N.mod_lt (c / 64) 64 ltac:(lia)).
  pose proof (N.mod_lt (c / 4096) 64 ltac:(lia)).
  destruct (N.ltb_spec c 128); [repeat constructor; lia|].
  destruct (N.ltb_spec c 2048).
  { assert (c / 64 < 32) by (apply N.Div0.div_lt_upper_bound; lia).
    repeat constructor; lia. }
  destruct (N.ltb_spec c 65536).
  { assert (c / 4096 < 16) by (apply N.Div0.div_lt_upper_bound; lia).
    repeat constructor; lia. }
  assert (c / 262144 < 5) by (apply N.Div0.div_lt_upper_bound; lia).
  repeat constructor; lia.
Qed.

(** The first byte of a character is not a continuation byte, the others are. *)
Lemma utf8_encode_shape c :
  is_scalar c →
  ∃ b r, utf8_encode c = b :: r ∧ is_continuation b = false
         ∧ Forall (λ x, is_continuation x = true) r ∧ (length r ≤ 3)%nat.
Proof.
  unfold is_scalar, utf8_encode, is_continuation. intros Hc.
  assert (∀ x, (128 <=? 128 + x `mod` 64) && (128 + x `mod` 64 <? 192) = true) as Hcont.
  { intros x. pose proof (N.mod_lt x 64 ltac:(lia)).
    apply andb_true_iff. rewrite N.leb_le, N.ltb_lt.
    generalize dependent (x `mod` 64). lia. }
  destruct (N.ltb_spec c 128) as [H1|H1];
    [|destruct (N.ltb_spec c 2048) as [H2|H2];
      [|destruct (N.ltb_spec c 65536) as [H3|H3]]];
    eexists _, _; (split_and!; [reflexivity| |by repeat constructor|simpl; lia]).
  - apply andb_false_iff. left. apply N.leb_gt. lia.
  - apply andb_false_iff. right. apply N.ltb_ge. generalize (c / 64). lia.
  - apply andb_false_iff. right. apply N.ltb_ge. generalize (c / 4096). lia.
  - apply andb_false_iff. right. apply N.ltb_ge. generalize (c / 262144). lia.
Qed.

Lemma str_bytes_of_chars cs :
  Forall is_scalar cs → str_bytes (str_of_chars cs) = cs ≫= utf8_encode.
Proof.
  intros Hcs. apply str_bytes_of_bytes.
  induction Hcs as [|c cs Hc _ IH]; csimpl; [constructor|].
  apply Forall_app; split; [by apply utf8_encode_ok|done].
Qed.

(** ** Decimal integers *)

Definition is_digit (b : N) : bool := (48 <=? b) && (b <=? 57).

(** The value of a digit string, most significant digit first. *)
Fixpoint digits_value (acc : Z) (bs : list N) : option Z :=
  match bs with
  | [] => Some acc
  | b :: r => if is_digit b then digits_value (10 * acc + Z.of_N (b - 48)) r else None
  end.

Definition isize_min : Z := -9223372036854775808.
Definition isize_max : Z := 9223372036854775807.

(** [str::parse::<isize>] (64-bit): an optional sign, at least one digit,
    nothing else, in range. *)
Definition parse_isize_bytes (bs : list N) : option Z :=
  let digits neg ds :=
    match ds with
    | [] => None
    | _ => match digits_value 0 ds with
           | Some v => let z := if neg : bool then (- v)%Z else v in
                       if ((isize_min <=? z) && (z <=? isize_max))%Z then Some z else None
           | None => None
           end
    end in
  match bs with
  | b :: r => if b =? 45 then digits true r
              else if b =? 43 then digits false r
              else digits false bs
  | [] => None
  end.

Definition parse_isize (s : string) : option Z := parse_isize_bytes (str_bytes s).

(** [u32::to_string] and the like: decimal digits, no leading zeros. *)
Fixpoint decimal_digits (fuel : nat) (n : N) (acc : list N) : list N :=
  match fuel with
  | O => acc
  | S fuel => let acc := (48 + n `mod` 10) :: acc in
              if n <? 10 then acc else decimal_digits fuel (n / 10) acc
  end.

Definition decimal_N (n : N) : list N := decimal_digits (S (N.to_nat (N.size n))) n [].

Definition decimal_Z (z : Z) : list N :=
  if (z <? 0)%Z then 45 :: decimal_N (Z.abs_N z) else decimal_N (Z.abs_N z).

Definition Z_to_string (z : Z) : string := str_of_bytes (decimal_Z z).

Example parse_isize_ex :
  (parse_isize "-42", parse_isize "+7", parse_isize "", parse_isize "-",
   parse_isize "9223372036854775808", parse_isize "1x", Z_to_string (-120))
  = (Some (-42)%Z, Some 7%Z, None, None, None, None, "-120"%string).
Proof. vm_compute. reflexivity. Qed.

(** Byte-level tests and splits used on ASCII delimiters. *)
Definition bytes_contain (b : N) (bs : list N) : bool := existsb (N.eqb b) bs.

Definition bytes_end_with (suffix bs : list N) : bool :=
  bool_decide (drop (length bs - length suffix) bs = suffix).

(** [str::split(c)]: always at least one part. *)
Fixpoint bytes_split (sep : N) (bs : list N) : list (list N) :=
  match bs with
  | [] => [[]]
  | b :: r =>
    if b =? sep then [] :: bytes_split sep r
    else match bytes_split sep r with
         | p :: ps => (b :: p) :: ps
         | [] => [[b]]
         end
  end.

(** [str::contains(&str)]. *)
Fixpoint bytes_infix (needle hay : list N) : bool :=
  bool_decide (take (length needle) hay = needle)
  || match hay with [] => false | _ :: r => bytes_infix needle r end.
Definition str_contains (hay needle : string) : bool :=
  bytes_infix (str_bytes needle) (str_bytes hay).

(** [Ord for str]: byte-wise lexicographic. *)
Definition str_cmp (a b : string) : comparison := String.compare a b.
Definition str_lt (a b : string) : bool := bool_decide (String.le a b ∧ a ≠ b).
