(* ===== verification/Bfs.v ===== *)
(** * Breadth-first search with a depth limit

    The loop shared by [trace_entity_relationships] and [get_entity_network]:
    pop a node, and unless it is at the depth limit mark and enqueue its
    unvisited neighbours.  [bfs_visited] is the reference result: the nodes
    within the limit of the start. *)

From S2P Require Import Prelude.
From stdpp Require Import gmap.

Lemma size_list_to_set_le (l : list string) : (size (list_to_set l : gset string) ≤ length l)%nat.
Proof.
  induction l as [|x l IH]; [done|]. cbn [list_to_set length].
  rewrite size_union_alt, size_singleton.
  pose proof (subseteq_size (list_to_set l ∖ {[x]}) (list_to_set l : gset string) ltac:(set_solver)). lia.
Qed.

Section bfs.
Context {A : Type} `{Countable A}.
Context (nbrs : A → list A) (max_depth : nat).

Definition bfs_visit (d : nat) (st : gset A * list (A * nat)) (y : A) :=
  if decide (y ∈ st.1) then st else ({[y]} ∪ st.1, st.2 ++ [(y, d + 1)]).

Definition bfs_body (p : A * nat) (V : gset A) : flow (A * nat) (gset A) :=
  if decide (max_depth ≤ p.2) then Continue V []
  else let '(V, pushed) := foldl (bfs_visit p.2) (V, []) (nbrs p.1) in Continue V pushed.

Definition bfs (fuel : nat) (start : A) : option (gset A) :=
  while_pop bfs_body fuel [(start, 0)] {[start]}.

Inductive within (start : A) : nat → A → Prop :=
| within_start k : within start k start
| within_step k x y : within start k x → y ∈ nbrs x → within start (S k) y.

Lemma within_mono start k k' y : within start k y → k ≤ k' → within start k' y.
Proof.
  intros Hw. revert k'. induction Hw as [|k x y _ IH Hy]; intros k' Hk; [constructor|].
  destruct k' as [|k']; [lia|]. econstructor; [apply IH; lia|done].
Qed.

(** ** One node *)

Lemma bfs_visit_fold d ys V ps :
  ∃ new, foldl (bfs_visit d) (V, ps) ys
         = (list_to_set new ∪ V, ps ++ ((λ y, (y, d + 1)) <$> new))
         ∧ NoDup new ∧ ∀ y, y ∈ new ↔ y ∈ ys ∧ y ∉ V.
Proof.
  revert V ps. induction ys as [|y ys IH]; intros V ps; simpl.
  - exists []. split_and!; [|constructor|].
    + rewrite app_nil_r. f_equal. simpl. clear. set_solver.
    + intros y. rewrite elem_of_nil. tauto.
  - unfold bfs_visit at 2. simpl. case_decide as Hy.
    + destruct (IH V ps) as (new & -> & Hnd & Hnew). exists new.
      split_and!; [done|done|]. intros z. rewrite Hnew, elem_of_cons.
      split; [tauto|]. intros [[->|?] ?]; tauto.
    + destruct (IH ({[y]} ∪ V) (ps ++ [(y, d + 1)])) as (new & -> & Hnd & Hnew).
      exists (y :: new). split_and!.
      * f_equal; [simpl; clear; set_solver|]. by rewrite <-app_assoc.
      * constructor; [|done]. rewrite Hnew, elem_of_union, elem_of_singleton. tauto.
      * intros z. rewrite !elem_of_cons, Hnew, elem_of_union, elem_of_singleton.
        destruct (decide (z = y)) as [->|]; tauto.
Qed.

(** ** Termination *)

Lemma bfs_terminates (nodes : gset A) start fuel :
  start ∈ nodes → (∀ x y, x ∈ nodes → y ∈ nbrs x → y ∈ nodes) →
  size nodes ≤ fuel → is_Some (bfs fuel start).
Proof.
  intros Hs Hclosed Hfuel. unfold bfs.
  apply (while_pop_terminates bfs_body
    (λ q V, V ⊆ nodes ∧ ∀ p, p ∈ q → p.1 ∈ nodes) (λ V, size (nodes ∖ V))).
  - intros [x d] q V V' ps [HV Hq] Hb. unfold bfs_body in Hb. simpl in Hb.
    assert (x ∈ nodes) as Hx by (apply (Hq (x, d)); by left).
    case_decide.
    { injection Hb as <- <-. simpl. split; [lia|]. rewrite app_nil_r.
      split; [done|]. intros p Hp. apply Hq. by right. }
    destruct (bfs_visit_fold d (nbrs x) V []) as (new & Heq & Hnd & Hnew).
    rewrite Heq in Hb. injection Hb as <- <-. simpl.
    assert (list_to_set new ⊆ nodes ∖ V) as Hsub.
    { intros y. rewrite elem_of_list_to_set, Hnew, elem_of_difference. intros [Hy ?].
      split; [by eapply Hclosed|done]. }
    split.
    + rewrite length_fmap.
      replace (nodes ∖ (list_to_set new ∪ V)) with ((nodes ∖ V) ∖ list_to_set new)
        by (clear; set_solver).
      rewrite size_difference by done.
      pose proof (subseteq_size _ _ Hsub) as Hle.
      rewrite size_list_to_set in * by done. lia.
    + split; [clear -HV Hsub; set_solver|].
      intros p [Hp|Hp]%elem_of_app; [apply Hq; by right|].
      apply list_elem_of_fmap in Hp as (y & -> & Hy). simpl.
      apply (Hclosed x); [done|]. by apply Hnew.
  - split; [clear -Hs; set_solver|]. intros p ->%list_elem_of_singleton. done.
  - simpl. rewrite size_difference by (clear -Hs; set_solver). rewrite size_singleton.
    assert (size ({[start]} : gset A) ≤ size nodes) by (apply subseteq_size; clear -Hs; set_solver).
    rewrite size_singleton in *. lia.
Qed.

(** ** What is visited *)

(** [D] is the depth a visited node was enqueued with. *)
Record bfs_inv (start : A) (D : A → nat) (q : list (A * nat)) (V : gset A) : Prop := {
  inv_start : start ∈ V ∧ D start = 0;
  inv_queue x d : (x, d) ∈ q → x ∈ V ∧ D x = d;
  inv_sound y : y ∈ V → within start (D y) y ∧ D y ≤ max_depth;
  inv_done y z : y ∈ V → D y < max_depth → (∀ d, (y, d) ∉ q) → z ∈ nbrs y →
                 z ∈ V ∧ D z ≤ D y + 1;
  inv_sorted : StronglySorted (λ p p', p.2 ≤ p'.2) q;
  inv_near p q' y : q = p :: q' → y ∈ V → D y ≤ p.2 + 1;
}.

Lemma sorted_snoc_const (q : list (A * nat)) (l : list A) c :
  StronglySorted (λ p p', p.2 ≤ p'.2) q → (∀ p, p ∈ q → p.2 ≤ c) →
  StronglySorted (λ p p', p.2 ≤ p'.2) (q ++ ((λ y, (y, c)) <$> l)).
Proof.
  induction 1 as [|p q Hs IH Hp]; intros Hc; simpl.
  - induction l as [|y l IH]; simpl; constructor; [done|].
    rewrite Forall_forall. intros z (w & -> & _)%list_elem_of_fmap. done.
  - constructor; [apply IH; intros; apply Hc; by right|].
    rewrite Forall_forall in *. intros z [Hz|Hz]%elem_of_app; [by apply Hp|].
    apply list_elem_of_fmap in Hz as (w & -> & _). apply Hc. by left.
Qed.

Lemma bfs_inv_step start D x d q V V' ps :
  bfs_inv start D ((x, d) :: q) V → bfs_body (x, d) V = Continue V' ps →
  ∃ D', bfs_inv start D' (q ++ ps) V'.
Proof.
  intros [Hs Hq Hsound Hdone Hsort Hnear] Hb. unfold bfs_body in Hb. simpl in Hb.
  destruct (Hq x d) as [Hx HDx]; [by left|].
  apply StronglySorted_inv in Hsort as [Hsort Hhd].
  rewrite Forall_forall in Hhd. simpl in Hhd.
  assert (∀ y, y ∈ V → D y ≤ d + 1) as Hmax by (intros y; by apply (Hnear (x, d) q)).
  case_decide as Hd.
  { injection Hb as <- <-. rewrite app_nil_r. exists D. split; auto.
    - intros y e Hy. apply Hq. by right.
    - intros y z Hy Hlt Hnq. apply Hdone; [done|done|].
      intros e [[= -> ->]|He]%elem_of_cons; [lia|by eapply Hnq].
    - intros p q' y -> Hy. pose proof (Hhd p (list_elem_of_here _ _)).
      pose proof (Hmax y Hy). lia. }
  destruct (bfs_visit_fold d (nbrs x) V []) as (new & Heq & Hnd & Hnew).
  rewrite Heq in Hb. injection Hb as <- <-. simpl.
  set (D' := λ y, if decide (y ∈ V) then D y else d + 1).
  assert (∀ y, y ∈ V → D' y = D y) as Hold by (intros y ?; unfold D'; by case_decide).
  assert (∀ y, y ∈ new → D' y = d + 1) as HnewD.
  { intros y [_ Hy]%Hnew. unfold D'. by rewrite decide_False. }
  assert (∀ y, y ∈ list_to_set new ∪ V → D' y ≤ d + 1) as Hmax'.
  { intros y. rewrite elem_of_union, elem_of_list_to_set. intros [Hy|Hy].
    - by rewrite HnewD.
    - rewrite Hold by done. by apply Hmax. }
  assert (∀ p, p ∈ q → p.2 ≤ d + 1) as Hqmax.
  { intros [y e] Hp. simpl. destruct (Hq y e) as [Hy <-]; [by right|]. by apply Hmax. }
  exists D'. split.
  - destruct Hs as [Hs HD]. rewrite Hold by done. split; [|done].
    apply elem_of_union. by right.
  - intros y e [Hy|Hy]%elem_of_app.
    + destruct (Hq y e) as [HyV <-]; [by right|]. rewrite Hold by done.
      split; [|done]. apply elem_of_union. by right.
    + apply list_elem_of_fmap in Hy as (z & [= -> ->] & Hz).
      rewrite HnewD, elem_of_union, elem_of_list_to_set by done. tauto.
  - intros y. rewrite elem_of_union, elem_of_list_to_set. intros [Hy|Hy].
    + rewrite HnewD by done. split; [|lia]. rewrite Nat.add_1_r.
      apply Hnew in Hy as [Hy _]. apply within_step with x; [|done].
      rewrite <-HDx. by apply Hsound.
    + rewrite Hold by done. by apply Hsound.
  - intros y z. rewrite elem_of_union, elem_of_list_to_set. intros [Hy|Hy] Hlt Hnq Hz.
    { exfalso. apply (Hnq (d + 1)). apply elem_of_app. right.
      apply list_elem_of_fmap. by exists y. }
    destruct (decide (y = x)) as [->|Hyx].
    + rewrite (Hold x), HDx by done. assert (z ∈ list_to_set new ∪ V) as HzV.
      { rewrite elem_of_union, elem_of_list_to_set, Hnew. destruct (decide (z ∈ V)); tauto. }
      split; [done|by apply Hmax'].
    + rewrite (Hold y) in * by done. destruct (Hdone y z) as [HzV Hle]; [done|done| |done|].
      { intros e [[= -> ->]|He]%elem_of_cons; [done|]. apply (Hnq e). apply elem_of_app.
        by left. }
      rewrite (Hold z), elem_of_union by done. tauto.
  - by apply sorted_snoc_const.
  - intros p q' y Heq' Hy. pose proof (Hmax' y Hy). enough (d ≤ p.2) by lia.
    assert (p ∈ q ++ ((λ y, (y, d + 1)) <$> new)) as Hp by (rewrite Heq'; by left).
    apply elem_of_app in Hp as [Hp|Hp]; [by apply Hhd|].
    apply list_elem_of_fmap in Hp as (z & -> & _). simpl. lia.
Qed.

Lemma bfs_visited fuel start V y :
  bfs fuel start = Some V → y ∈ V ↔ within start max_depth y.
Proof.
  intros Hb.
  apply (while_pop_inv bfs_body (λ q V, ∃ D, bfs_inv start D q V)
           (λ V, y ∈ V ↔ within start max_depth y)) in Hb; [done|..].
  - intros W [D [Hs _ Hsound Hdone _ _]]. split.
    { intros [Hy Hle]%Hsound. by eapply within_mono. }
    assert (∀ k z, within start k z → k ≤ max_depth → z ∈ W ∧ D z ≤ k) as Hall.
    { induction 1 as [k|k x z _ IH Hz]; intros Hk; [destruct Hs as [? ->]; split; [done|lia]|].
      destruct IH as [Hx HD]; [lia|]. destruct (Hdone x z) as [? ?]; [done|lia| |done|].
      - intros d Hd. by apply not_elem_of_nil in Hd.
      - split; [done|lia]. }
    intros Hw. by apply (Hall max_depth).
  - intros [x d] q W W' ps [D HD] Hbody. by eapply bfs_inv_step.
  - intros [x d] q W W' _ Hbody. unfold bfs_body in Hbody. repeat case_match; done.
  - exists (λ _, 0). split.
    + by rewrite elem_of_singleton.
    + intros x d [= -> ->]%list_elem_of_singleton. by rewrite elem_of_singleton.
    + intros z ->%elem_of_singleton. split; [constructor|lia].
    + intros z w ->%elem_of_singleton _ Hnq. exfalso. apply (Hnq 0). by left.
    + repeat constructor.
    + intros; lia.
Qed.
End bfs.
