(* ===== verification/PathSearch.v ===== *)
(** * Breadth-first search for a path

    The loop of [find_shortest_path]: pop a node with the path that led to it,
    return when a neighbour is the goal, otherwise mark and enqueue the
    unvisited neighbours.  The path returned is a shortest one. *)

From S2P Require Import Prelude Bfs.
From stdpp Require Import gmap.

Section search.
Context {A : Type} `{Countable A}.
Context (nbrs : A → list A) (goal : A).
Implicit Types (V : gset A) (p : list A).

(** The loop over the neighbours of one node: the path, or what is marked and
    pushed. *)
Fixpoint visit_neighbors p (ys : list A) V (pushed : list (A * list A))
    : list A + gset A * list (A * list A) :=
  match ys with
  | [] => inr (V, pushed)
  | y :: ys =>
    if decide (y = goal) then inl (p ++ [y])
    else if decide (y ∈ V) then visit_neighbors p ys V pushed
    else visit_neighbors p ys ({[y]} ∪ V) (pushed ++ [(y, p ++ [y])])
  end.

Definition path_body (e : A * list A) (st : gset A * option (list A))
    : flow (A * list A) (gset A * option (list A)) :=
  match visit_neighbors e.2 (nbrs e.1) st.1 [] with
  | inl path => Break (st.1, Some path)
  | inr (V, pushed) => Continue (V, st.2) pushed
  end.

Definition path_search (fuel : nat) (start : A) : option (option (list A)) :=
  snd <$> while_pop path_body fuel [(start, [start])] ({[start]}, None).

(** Every node of the list is a neighbour of the one before. *)
Definition walk p : Prop := ∀ i x y, p !! i = Some x → p !! S i = Some y → y ∈ nbrs x.

Definition path_to (start : A) (x : A) p : Prop := head p = Some start ∧ last p = Some x ∧ walk p.

Lemma walk_snoc p x y : walk p → last p = Some x → y ∈ nbrs x → walk (p ++ [y]).
Proof.
  intros Hw Hl Hy i a b Ha Hb. apply lookup_app_Some in Hb as [Hb|[Hlen Hb]].
  - rewrite lookup_app_l in Ha; [by eapply Hw|]. apply lookup_lt_Some in Hb. lia.
  - rewrite lookup_app_l in Ha by (destruct (decide (i < length p)); [done|];
      destruct (S i - length p) eqn:?; [|by destruct n]; assert (S i = length p) by lia; lia).
    destruct (S i - length p) as [|n] eqn:Hn; [|by destruct n]. simpl in Hb. injection Hb as <-.
    rewrite last_lookup in Hl. replace (pred (length p)) with i in Hl by lia. congruence.
Qed.

Lemma path_to_snoc start x y p : path_to start x p → y ∈ nbrs x → path_to start y (p ++ [y]).
Proof.
  intros (Hh & Hl & Hw) Hy. split_and!; [by destruct p|apply last_snoc|by eapply walk_snoc].
Qed.

Lemma path_within start x p : path_to start x p → within nbrs start (pred (length p)) x.
Proof.
  revert x. induction p as [|y p IH] using rev_ind; intros x (Hh & Hl & Hw); [done|].
  rewrite last_snoc in Hl. injection Hl as ->. rewrite length_app. simpl.
  destruct (last p) as [z|] eqn:Hz.
  - assert (p ≠ []) as Hne by (by intros ->). assert (0 < length p) by (destruct p; [done|simpl; lia]).
    replace (pred (length p + 1)) with (S (pred (length p))) by lia. econstructor; [apply (IH z)|].
    + split_and!; [by destruct p|done|]. intros i a b Ha Hb. eapply Hw; by apply lookup_app_l_Some.
    + rewrite last_lookup in Hz. apply (Hw (pred (length p))); [by apply lookup_app_l_Some|].
      rewrite lookup_app_r by lia. replace (S (pred (length p)) - length p) with 0 by lia. done.
  - apply last_None in Hz as ->. simpl in *. injection Hh as ->. constructor.
Qed.

Lemma within_path start k x : within nbrs start k x ↔ ∃ p, path_to start x p ∧ length p ≤ S k.
Proof.
  split.
  - induction 1 as [k|k y z _ (p & Hp & Hlen) Hz].
    + exists [start]. split; [|simpl; lia]. split_and!; [done..|]. by intros [|i] a b.
    + exists (p ++ [z]). split; [by apply (path_to_snoc _ y)|]. rewrite length_app. simpl. lia.
  - intros (p & Hp%path_within & Hlen). apply (within_mono _ _ (pred (length p))); [done|lia].
Qed.

(** ** One node *)

Lemma visit_neighbors_spec p ys V pushed :
  match visit_neighbors p ys V pushed with
  | inl path => goal ∈ ys ∧ path = p ++ [goal]
  | inr (V', pushed') => (goal ∉ ys)
    ∧ ∃ new, V' = list_to_set new ∪ V ∧ pushed' = pushed ++ ((λ y, (y, p ++ [y])) <$> new)
      ∧ NoDup new ∧ ∀ y, y ∈ new ↔ y ∈ ys ∧ (y ∉ V)
  end.
Proof.
  revert V pushed. induction ys as [|y ys IH]; intros V pushed; cbn [visit_neighbors].
  { split; [apply not_elem_of_nil|]. exists []. rewrite app_nil_r. split_and!; [|done|constructor|].
    - simpl. clear. set_solver.
    - intros y. rewrite elem_of_nil. tauto. }
  destruct (decide (y = goal)) as [->|Hne]; [split; [by left|done]|].
  destruct (decide (y ∈ V)) as [Hy|Hy].
  - specialize (IH V pushed). destruct (visit_neighbors p ys V pushed) as [path|[V' pushed']].
    + destruct IH as [Hg ->]. split; [by right|done].
    + destruct IH as (Hg & new & -> & -> & Hnd & Hnew). split; [by intros [->|?]%elem_of_cons|].
      exists new. split_and!; [done..|]. intros z. rewrite Hnew, elem_of_cons.
      split; [tauto|]. intros [[->|?] ?]; tauto.
  - specialize (IH ({[y]} ∪ V) (pushed ++ [(y, p ++ [y])])).
    destruct (visit_neighbors p ys _ _) as [path|[V' pushed']].
    + destruct IH as [Hg ->]. split; [by right|done].
    + destruct IH as (Hg & new & -> & -> & Hnd & Hnew). split; [by intros [->|?]%elem_of_cons|].
      exists (y :: new). split_and!.
      * simpl. clear. set_solver.
      * by rewrite <-app_assoc.
      * constructor; [|done]. rewrite Hnew, elem_of_union, elem_of_singleton. tauto.
      * intros z. rewrite !elem_of_cons, Hnew, elem_of_union, elem_of_singleton.
        destruct (decide (z = y)) as [->|]; tauto.
Qed.

(** ** The invariant *)

(** [D] is the number of relations from the start to a marked node. *)
Record search_inv (start : A) (D : A → nat) (q : list (A * list A)) V : Prop := {
  si_start : start ∈ V ∧ D start = 0;
  si_goal : goal ∉ V;
  si_queue x p : (x, p) ∈ q → x ∈ V ∧ length p = D x + 1 ∧ path_to start x p;
  si_done y z : y ∈ V → (∀ p, (y, p) ∉ q) → z ∈ nbrs y → z ∈ V ∧ D z ≤ D y + 1;
  si_sorted : StronglySorted (λ e e', length e.2 ≤ length e'.2) q;
  si_near e q' y : q = e :: q' → y ∈ V → D y ≤ length e.2;
}.

Lemma search_inv_start start : start ≠ goal → search_inv start (λ _, 0) [(start, [start])] {[start]}.
Proof.
  intros Hne. split.
  - by rewrite elem_of_singleton.
  - by rewrite elem_of_singleton.
  - intros x p [= -> ->]%list_elem_of_singleton. rewrite elem_of_singleton. split_and!; [done..|].
    split_and!; [done..|]. by intros [|i] x y.
  - intros y z ->%elem_of_singleton Hnq. exfalso. apply (Hnq [start]). by left.
  - repeat constructor.
  - intros; lia.
Qed.

(** Nodes nearer than the head of the queue are marked, at their distance. *)
Lemma search_inv_near start D x p q V k z :
  search_inv start D ((x, p) :: q) V → within nbrs start k z → k < length p → z ∈ V ∧ D z ≤ k.
Proof.
  intros [[Hs HD] _ Hq Hdone Hsort _] Hw. induction Hw as [k|k y z _ IH Hz]; intros Hk; [split; [done|lia]|].
  destruct IH as [Hy HDy]; [lia|]. destruct (Hdone y z) as [Hzv HDz]; [done| |done|split; [done|lia]].
  intros p' Hin. destruct (Hq y p' Hin) as (_ & Hlen & _).
  apply StronglySorted_inv in Hsort as [_ Hhd]. rewrite Forall_forall in Hhd.
  apply elem_of_cons in Hin as [[= -> ->]|Hin]; [lia|]. apply Hhd in Hin. simpl in Hin. lia.
Qed.

Lemma search_inv_step start D x p q V V' pushed :
  search_inv start D ((x, p) :: q) V → visit_neighbors p (nbrs x) V [] = inr (V', pushed) →
  ∃ D', search_inv start D' (q ++ pushed) V'.
Proof.
  intros [[Hs HD] Hgoal Hq Hdone Hsort Hnear] Hv.
  destruct (Hq x p) as (Hx & Hlen & Hpath); [by left|].
  apply StronglySorted_inv in Hsort as [Hsort Hhd]. rewrite Forall_forall in Hhd.
  pose proof (visit_neighbors_spec p (nbrs x) V []) as Hspec. rewrite Hv in Hspec.
  destruct Hspec as (Hno & new & -> & -> & Hnd & Hnew). simpl.
  set (D' := λ y, if decide (y ∈ V) then D y else length p).
  assert (∀ y, y ∈ V → D' y = D y) as Hold by (intros y ?; unfold D'; by case_decide).
  assert (∀ y, y ∈ new → D' y = length p) as HnewD.
  { intros y [_ Hy]%Hnew. unfold D'. by rewrite decide_False. }
  assert (∀ y, y ∈ V → D y ≤ length p) as Hmax by (intros y; by apply (Hnear (x, p) q)).
  assert (∀ y, y ∈ list_to_set new ∪ V → D' y ≤ length p) as Hmax'.
  { intros y. rewrite elem_of_union, elem_of_list_to_set.
    intros [Hy|Hy]; [by rewrite HnewD|rewrite Hold by done; by apply Hmax]. }
  assert (∀ y, y ∈ nbrs x → y ∈ list_to_set new ∪ V) as Hnbr.
  { intros y Hy. rewrite elem_of_union, elem_of_list_to_set, Hnew. destruct (decide (y ∈ V)); tauto. }
  assert (∀ e, e ∈ (λ y, (y, p ++ [y])) <$> new → length e.2 = length p + 1) as Hpushed.
  { intros e (y & -> & _)%list_elem_of_fmap. simpl. rewrite length_app. done. }
  exists D'. split.
  - rewrite Hold, elem_of_union by done. tauto.
  - rewrite elem_of_union, elem_of_list_to_set, Hnew. tauto.
  - intros y p' [Hy|Hy]%elem_of_app.
    + destruct (Hq y p') as (Hyv & ? & ?); [by right|]. rewrite Hold, elem_of_union by done. tauto.
    + apply list_elem_of_fmap in Hy as (z & [= -> ->] & Hz). rewrite HnewD by done.
      rewrite elem_of_union, elem_of_list_to_set, length_app. split_and!; [by left|done|].
      apply (path_to_snoc _ x); [done|]. by apply Hnew.
  - intros y z. rewrite elem_of_union, elem_of_list_to_set. intros [Hy|Hy] Hnq Hz.
    { exfalso. apply (Hnq (p ++ [y])). apply elem_of_app. right. apply list_elem_of_fmap. by exists y. }
    destruct (decide (y = x)) as [->|Hyx].
    + split; [by apply Hnbr|]. rewrite (Hold x) by done. pose proof (Hmax' z (Hnbr z Hz)). lia.
    + rewrite (Hold y) by done. destruct (Hdone y z) as [Hzv Hle]; [done| |done|].
      { intros p' [[= -> ->]|Hin]%elem_of_cons; [done|]. apply (Hnq p'). apply elem_of_app. by left. }
      rewrite (Hold z), elem_of_union by done. tauto.
  - apply StronglySorted_app. split_and!; [|done|].
    + intros [y p'] e' Hin He'. destruct (Hq y p') as (Hy & Hp' & _); [by right|].
      simpl. rewrite (Hpushed e' He'). pose proof (Hmax y Hy). lia.
    + clear -Hpushed. induction new as [|y new IH]; csimpl in *; [constructor|].
      constructor; [apply IH; intros e He; apply Hpushed; by right|].
      apply Forall_forall. intros e He. rewrite (Hpushed e) by by right. simpl. rewrite length_app. simpl. lia.
  - intros [y p'] q' z Heq Hz. pose proof (Hmax' z Hz). enough (length p ≤ length p') by (simpl; lia).
    assert ((y, p') ∈ q ++ ((λ y, (y, p ++ [y])) <$> new)) as Hin by (rewrite Heq; by left).
    apply elem_of_app in Hin as [Hin|Hin]; [by apply (Hhd (y, p'))|].
    apply Hpushed in Hin. simpl in Hin. lia.
Qed.

(** ** The search *)

(** A path with fewer relations than any other: [within] counts relations. *)
Definition shortest (start : A) p : Prop :=
  path_to start goal p ∧ ∀ p', path_to start goal p' → length p ≤ length p'.

Lemma path_search_sound fuel start r :
  start ≠ goal → path_search fuel start = Some r →
  match r with
  | Some p => shortest start p
  | None => ∀ p, ¬ path_to start goal p
  end.
Proof.
  intros Hne Hr. unfold path_search in Hr. apply fmap_Some in Hr as ([V o] & Hr & ->). simpl.
  apply (while_pop_inv path_body (λ q st, st.2 = None ∧ ∃ D, search_inv start D q st.1)
    (λ st, match st.2 with Some p => shortest start p | None => ∀ p, ¬ path_to start goal p end)) in Hr; [done|..].
  - intros [W o'] [Ho (D & [[Hs HD] Hgoal Hq Hdone _ _])]. simpl in *. subst o'. intros p Hp%path_within.
    apply Hgoal. clear -Hp Hs Hdone. induction Hp as [k|k y z _ IH Hz]; [done|].
    destruct (Hdone y z) as [? _]; [by apply IH| |done|done]. intros p'. apply not_elem_of_nil.
  - intros [x p] q [W o'] [W' o''] ps [Ho (D & HD)] Hb. unfold path_body in Hb. simpl in *. subst o'.
    destruct (visit_neighbors p (nbrs x) W []) as [path|[V' pushed]] eqn:Hv; [done|].
    injection Hb as <- <- <-. split; [done|]. by eapply search_inv_step.
  - intros [x p] q [W o'] [W' o''] [Ho (D & HD)] Hb. unfold path_body in Hb. simpl in *. subst o'.
    pose proof (visit_neighbors_spec p (nbrs x) W []) as Hspec.
    destruct (visit_neighbors p (nbrs x) W []) as [path|[V' pushed]]; [|done].
    injection Hb as <- <-. destruct Hspec as [Hg ->].
    destruct (si_queue _ _ _ _ HD x p) as (Hx & Hlen & Hpath); [by left|].
    split; [by apply (path_to_snoc _ x)|]. intros p' Hp'. rewrite length_app. simpl.
    destruct (decide (length p' < length p + 1)) as [Hlt|]; [|lia]. exfalso.
    destruct Hp' as (Hh & Hp'). assert (0 < length p') by (destruct p'; [done|simpl; lia]).
    assert (path_to start goal p') as Hw%path_within by done.
    destruct (search_inv_near start D x p q W (pred (length p')) goal HD Hw) as [Hin _]; [lia|].
    by apply (si_goal _ _ _ _ HD).
  - split; [done|]. exists (λ _, 0). by apply search_inv_start.
Qed.

(** Each node enters the queue once. *)
Lemma path_search_terminates (nodes : gset A) start fuel :
  start ∈ nodes → (∀ x y, x ∈ nodes → y ∈ nbrs x → y ∈ nodes) →
  size nodes ≤ fuel → is_Some (path_search fuel start).
Proof.
  intros Hs Hclosed Hfuel. unfold path_search. apply fmap_is_Some.
  apply (while_pop_terminates path_body
    (λ q st, st.1 ⊆ nodes ∧ ∀ e, e ∈ q → e.1 ∈ nodes) (λ st, size (nodes ∖ st.1))).
  - intros [x p] q [W o] [W' o'] ps [HW Hq] Hb. unfold path_body in Hb. simpl in *.
    assert (x ∈ nodes) as Hx by (apply (Hq (x, p)); by left).
    pose proof (visit_neighbors_spec p (nbrs x) W []) as Hspec.
    destruct (visit_neighbors p (nbrs x) W []) as [path|[V' pushed]]; [done|].
    injection Hb as <- <- <-. destruct Hspec as (_ & new & -> & -> & Hnd & Hnew). simpl.
    assert (list_to_set new ⊆ nodes ∖ W) as Hsub.
    { intros y. rewrite elem_of_list_to_set, Hnew, elem_of_difference. intros [Hy ?].
      split; [by eapply Hclosed|done]. }
    split.
    + rewrite length_fmap.
      replace (nodes ∖ (list_to_set new ∪ W)) with ((nodes ∖ W) ∖ list_to_set new)
        by (clear; set_solver).
      rewrite size_difference by done. pose proof (subseteq_size _ _ Hsub) as Hle.
      rewrite size_list_to_set in * by done. lia.
    + split; [clear -HW Hsub; set_solver|].
      intros e [He|He]%elem_of_app; [apply Hq; by right|].
      apply list_elem_of_fmap in He as (y & -> & Hy). simpl. apply (Hclosed x); [done|]. by apply Hnew.
  - split; [clear -Hs; set_solver|]. by intros e ->%list_elem_of_singleton.
  - simpl. rewrite size_difference by (clear -Hs; set_solver). rewrite size_singleton.
    assert (size ({[start]} : gset A) ≤ size nodes) by (apply subseteq_size; clear -Hs; set_solver).
    rewrite size_singleton in *. lia.
Qed.
End search.

(** * Search level by level

    The loop of the storage's [get_entity_network]: all unvisited neighbours
    of one level are the next one, for a number of levels or until one is
    empty. *)

Section levels.
Context {A : Type} `{Countable A}.
Context (nbrs : A → list A).
Implicit Types (V : gset A) (level : list A).

Definition visit_level (st : gset A * list A) (y : A) : gset A * list A :=
  if decide (y ∈ st.1) then st else ({[y]} ∪ st.1, st.2 ++ [y]).

Fixpoint level_search (depth : nat) V level : gset A :=
  match depth with
  | O => V
  | S depth =>
    let '(V, next) := foldl (λ st x, foldl visit_level st (nbrs x)) (V, []) level in
    match next with [] => V | _ => level_search depth V next end
  end.

Lemma visit_level_fold ys V next :
  ∃ new, foldl visit_level (V, next) ys = (list_to_set new ∪ V, next ++ new)
    ∧ ∀ y, y ∈ new ↔ y ∈ ys ∧ (y ∉ V).
Proof.
  revert V next. induction ys as [|y ys IH]; intros V next; cbn [foldl].
  { exists []. rewrite app_nil_r. split; [f_equal; simpl; clear; set_solver|].
    intros y. rewrite elem_of_nil. tauto. }
  unfold visit_level at 2. simpl. case_decide as Hy.
  - destruct (IH V next) as (new & -> & Hnew). exists new. split; [done|].
    intros z. rewrite Hnew, elem_of_cons. split; [tauto|]. intros [[->|?] ?]; tauto.
  - destruct (IH ({[y]} ∪ V) (next ++ [y])) as (new & -> & Hnew). exists (y :: new). split.
    + f_equal; [simpl; clear; set_solver|]. by rewrite <-app_assoc.
    + intros z. rewrite !elem_of_cons, Hnew, elem_of_union, elem_of_singleton.
      destruct (decide (z = y)) as [->|]; tauto.
Qed.

Lemma level_fold level V next :
  ∃ new, foldl (λ st x, foldl visit_level st (nbrs x)) (V, next) level
         = (list_to_set new ∪ V, next ++ new)
    ∧ ∀ y, y ∈ new ↔ (∃ x, x ∈ level ∧ y ∈ nbrs x) ∧ (y ∉ V).
Proof.
  revert V next. induction level as [|x level IH]; intros V next; cbn [foldl].
  { exists []. rewrite app_nil_r. split; [f_equal; simpl; clear; set_solver|].
    intros y. rewrite elem_of_nil. split; [done|]. by intros [(x & ?%elem_of_nil & _) _]. }
  destruct (visit_level_fold (nbrs x) V next) as (new & -> & Hnew).
  destruct (IH (list_to_set new ∪ V) (next ++ new)) as (new' & -> & Hnew').
  exists (new ++ new'). split.
  { f_equal; [rewrite list_to_set_app_L; clear; set_solver|]. by rewrite <-app_assoc. }
  intros y. rewrite elem_of_app, Hnew, Hnew', not_elem_of_union, elem_of_list_to_set, Hnew. split.
  - intros [[? ?]|[(z & ? & ?) [? ?]]]; (split; [|done]); [exists x|exists z]; (split; [by constructor|done]).
  - intros [(z & [->|Hz]%elem_of_cons & Hy) Hno]; [by left|].
    destruct (decide (y ∈ nbrs x)); [by left|right]. split; [by exists z|tauto].
Qed.

(** What is visited after [k] levels, and the last level. *)
Record level_inv (start : A) (k : nat) V level : Prop := {
  li_visited y : y ∈ V ↔ within nbrs start k y;
  li_level y : y ∈ level → y ∈ V;
  li_inner y z : y ∈ V → (y ∉ level) → z ∈ nbrs y → z ∈ V;
}.

Lemma level_inv_step start k V level new :
  level_inv start k V level → (∀ y, y ∈ new ↔ (∃ x, x ∈ level ∧ y ∈ nbrs x) ∧ (y ∉ V)) →
  level_inv start (S k) (list_to_set new ∪ V) new.
Proof.
  intros [Hv Hl Hi] Hnew. split.
  - intros y. rewrite elem_of_union, elem_of_list_to_set, Hnew, Hv. split.
    + intros [[(x & Hx & Hy) _]|Hy]; [|apply (within_mono _ _ k); [done|lia]].
      econstructor; [by apply Hv, Hl|done].
    + intros Hw. destruct (decide (y ∈ V)) as [Hy|Hy]; [right; by apply Hv|left].
      split; [|by rewrite <-Hv]. inversion Hw as [|k' x y' Hx Hxy]; subst.
      * destruct Hy. apply Hv. constructor.
      * apply Hv in Hx. exists x. split; [|done].
        destruct (decide (x ∈ level)) as [|Hx']; [done|]. exfalso. by apply Hy, (Hi x).
  - intros y Hy. rewrite elem_of_union, elem_of_list_to_set. by left.
  - intros y z. rewrite !elem_of_union, !elem_of_list_to_set. intros [Hy|Hy] Hno Hz; [done|].
    destruct (decide (z ∈ V)) as [|Hzv]; [by right|left]. rewrite Hnew. split; [|done].
    exists y. split; [|done]. destruct (decide (y ∈ level)) as [|Hyl]; [done|]. exfalso. by apply Hzv, (Hi y).
Qed.

Lemma closed_within start k V : start ∈ V → (∀ y z, y ∈ V → z ∈ nbrs y → z ∈ V) →
  ∀ y, within nbrs start k y → y ∈ V.
Proof. intros Hs Hc y. induction 1 as [|j x z _ IH Hz]; [done|]. by eapply Hc. Qed.

Lemma level_search_inv start k V level depth :
  level_inv start k V level →
  ∀ y, y ∈ level_search depth V level ↔ within nbrs start (k + depth) y.
Proof.
  revert k V level. induction depth as [|depth IH]; intros k V level Hinv; cbn [level_search].
  { rewrite Nat.add_0_r. apply (li_visited _ _ _ _ Hinv). }
  destruct (level_fold level V []) as (new & -> & Hnew). simpl.
  pose proof (level_inv_step start k V level new Hinv Hnew) as Hinv'.
  destruct new as [|x new].
  - intros y. pose proof (li_visited _ _ _ _ Hinv) as Hv. simpl. rewrite (left_id_L ∅ (∪)). split.
    + intros Hy%Hv. apply (within_mono _ _ k); [done|lia].
    + apply closed_within; [apply Hv; constructor|]. intros x z Hx Hz.
      destruct (decide (x ∈ level)) as [Hl|Hl]; [|by apply (li_inner _ _ _ _ Hinv x)].
      destruct (decide (z ∈ V)) as [|Hzv]; [done|]. exfalso. apply (not_elem_of_nil z), Hnew.
      split; [by exists x|done].
  - intros y. rewrite (IH (S k)) by done. by replace (S k + depth) with (k + S depth) by lia.
Qed.

(** The nodes visited are those within the number of levels. *)
Lemma level_search_within start depth y :
  y ∈ level_search depth {[start]} [start] ↔ within nbrs start depth y.
Proof.
  apply (level_search_inv start 0). split.
  - intros z. rewrite elem_of_singleton. split; [intros ->; constructor|]. by inversion 1.
  - intros z ->%list_elem_of_singleton. by apply elem_of_singleton.
  - intros z w ->%elem_of_singleton Hno. destruct Hno. by left.
Qed.
End levels.
