(* ===== verification/Collections.v ===== *)
(** * Ordered and unordered collections

    [BTreeMap<String, _>] iterates in key order; [HashMap]/[DashMap] in an
    unspecified order ([MapOrder]); [sort_by] is a stable merge sort and
    [select_nth_unstable_by] a partial one ([SelectNth]). *)

From S2P Require Import Prelude.

(** ** Comparators *)

Definition cmp_le {A} (cmp : A → A → comparison) (x y : A) : Prop := cmp x y ≠ Gt.

#[global] Instance cmp_le_dec {A} (cmp : A → A → comparison) : RelDecision (cmp_le cmp).
Proof. intros x y. unfold cmp_le. destruct (cmp x y); [left|left|right]; congruence. Defined.

(** A comparator the sorting functions accept: a total preorder. *)
Class TotalPreorder {A} (cmp : A → A → comparison) : Prop := {
  cmp_le_total :: Total (cmp_le cmp);
  cmp_le_trans :: Transitive (cmp_le cmp);
}.

(** [Ordering::then_with]. *)
Definition then_with (a b : comparison) : comparison :=
  match a with Eq => b | _ => a end.

Definition sort_by {A} (cmp : A → A → comparison) (xs : list A) : list A :=
  merge_sort (cmp_le cmp) xs.

Lemma sort_by_perm {A} (cmp : A → A → comparison) xs : sort_by cmp xs ≡ₚ xs.
Proof. apply merge_sort_Permutation. Qed.

Lemma sort_by_sorted {A} (cmp : A → A → comparison) `{!TotalPreorder cmp} xs :
  StronglySorted (cmp_le cmp) (sort_by cmp xs).
Proof. apply StronglySorted_merge_sort; apply _. Qed.

(** [vec.dedup()]: one of each run of equal elements. *)
Fixpoint dedup {A} `{EqDecision A} (xs : list A) : list A :=
  match xs with
  | [] => []
  | x :: xs => match dedup xs with
               | y :: ys => if decide (x = y) then y :: ys else x :: y :: ys
               | [] => [x]
               end
  end.

Lemma elem_of_dedup `{EqDecision A} (xs : list A) x : x ∈ dedup xs ↔ x ∈ xs.
Proof.
  induction xs as [|y xs IH]; [done|]. cbn [dedup]. rewrite (elem_of_cons xs), <-IH.
  destruct (dedup xs) as [|z zs]; [by rewrite elem_of_cons|].
  case_decide as Hyz; [subst z|]; rewrite !elem_of_cons; tauto.
Qed.

Lemma dedup_sorted `{EqDecision A} (R : relation A) `{!AntiSymm (=) R} (xs : list A) :
  StronglySorted R xs → StronglySorted R (dedup xs) ∧ NoDup (dedup xs).
Proof.
  induction xs as [|x xs IH]; [split; constructor|]. intros [Hs Hx]%StronglySorted_inv.
  destruct (IH Hs) as [Hds Hnd]. cbn [dedup]. pose proof (elem_of_dedup xs) as Hel.
  rewrite Forall_forall in Hx. destruct (dedup xs) as [|y ys] eqn:Hd; [split; repeat constructor; apply not_elem_of_nil|].
  case_decide as Hxy; [by subst|].
  assert (Forall (R x) (y :: ys)) as Hall by (apply Forall_forall; intros z Hz; by apply Hx, Hel).
  split; constructor; [done|done| |done]. intros Hin. apply Hxy.
  apply elem_of_cons in Hin as [->|Hin]; [done|].
  apply StronglySorted_inv in Hds as [_ Hy]. rewrite Forall_forall in Hy, Hall.
  apply (anti_symm R); [apply Hall; by left|by apply Hy].
Qed.

(** ** [select_nth_unstable_by] *)

Class SelectNth := {
  select_nth_unstable_by : ∀ {A}, (A → A → comparison) → nat → list A → list A;
}.

(** What the standard library documents: a permutation in which nothing
    before index [k] is greater, and nothing after it smaller, than the
    element at [k]. *)
Class SelectNthLaws `{SelectNth} : Prop := {
  select_nth_perm {A} (cmp : A → A → comparison) k xs :
    k < length xs → select_nth_unstable_by cmp k xs ≡ₚ xs;
  select_nth_split {A} (cmp : A → A → comparison) `{!TotalPreorder cmp} k xs i j x y :
    k < length xs → i ≤ k → k ≤ j →
    select_nth_unstable_by cmp k xs !! i = Some x →
    select_nth_unstable_by cmp k xs !! j = Some y → cmp_le cmp x y;
}.

Definition sorting_select : SelectNth := {|
  select_nth_unstable_by := λ A cmp _ xs, sort_by cmp xs
|}.

Lemma StronglySorted_lookup {A} (R : relation A) `{!Reflexive R} xs i j x y :
  StronglySorted R xs → i ≤ j → xs !! i = Some x → xs !! j = Some y → R x y.
Proof.
  intros Hs. revert i j. induction Hs as [|z xs Hs IH Hz]; intros i j Hij Hx Hy; [done|].
  destruct i as [|i], j as [|j]; simplify_eq/=; [done| |lia|].
  - eapply Forall_lookup_1; eauto.
  - apply (IH i j); [lia|done|done].
Qed.

Lemma sorting_select_laws : @SelectNthLaws sorting_select.
Proof.
  split; simpl.
  - intros. apply sort_by_perm.
  - intros A cmp ? k xs i j x y _ Hi Hj Hx Hy.
    eapply (StronglySorted_lookup _ _ i j); [by apply sort_by_sorted|lia|done|done].
    Unshelve. intros z. destruct (total (cmp_le cmp) z z); done.
Qed.

(** [xs.iter().enumerate().map(|(i, x)| (key(x), i)).collect::<HashMap<_, _>>()]:
    the last index wins. *)
Definition index_by {A K} `{Countable K} (key : A → K) (xs : list A) : gmap K nat :=
  foldi (λ i x m, <[key x := i]> m) 0 xs ∅.

Section index_by.
Context {A K : Type} `{Countable K} (key : A → K).

Lemma index_fold_Some xs n (m : gmap K nat) k i :
  foldi (λ i x m, <[key x := i]> m) n xs m !! k = Some i →
  (∃ j x, xs !! j = Some x ∧ i = n + j ∧ key x = k) ∨ m !! k = Some i.
Proof.
  revert n m. induction xs as [|x xs IH]; intros n m; simpl; [by right|].
  intros [(j & y & Hj & -> & Hk)|Hm]%IH.
  - left. exists (S j), y. split_and!; [done|lia|done].
  - apply lookup_insert_Some in Hm as [[Hk <-]|[_ Hm]]; [|by right].
    left. exists 0, x. split_and!; [done|lia|done].
Qed.

Lemma index_fold_is_Some xs n (m : gmap K nat) k :
  is_Some (m !! k) ∨ k ∈ key <$> xs →
  is_Some (foldi (λ i x m, <[key x := i]> m) n xs m !! k).
Proof.
  revert n m. induction xs as [|x xs IH]; intros n m; simpl.
  { intros [?|[]%elem_of_nil]. done. }
  intros Hk. apply IH. destruct (decide (key x = k)) as [->|Hne].
  - left. rewrite lookup_insert_eq. by eexists.
  - rewrite lookup_insert_ne by done. destruct Hk as [?|[->|?]%elem_of_cons]; [by left|done|by right].
Qed.

Lemma index_by_Some xs k i : index_by key xs !! k = Some i → ∃ x, xs !! i = Some x ∧ key x = k.
Proof.
  unfold index_by. intros [(j & x & Hj & -> & Hk)|Hm]%index_fold_Some; [by exists x|].
  by rewrite lookup_empty in Hm.
Qed.

Lemma index_by_is_Some xs k : is_Some (index_by key xs !! k) ↔ k ∈ key <$> xs.
Proof.
  split.
  - intros [i (x & Hx & <-)%index_by_Some]. apply list_elem_of_fmap_2. by eapply list_elem_of_lookup_2.
  - intros Hk. apply index_fold_is_Some. by right.
Qed.
End index_by.

(** ** Map iteration *)

Class MapOrder := {
  iter_order : ∀ {K A} `{Countable K}, gmap K A → list (K * A);
}.
Class MapOrderLaws `{MapOrder} : Prop := {
  iter_order_perm {K A} `{Countable K} (m : gmap K A) : iter_order m ≡ₚ map_to_list m;
}.

Definition key_order : MapOrder := {| iter_order := λ K A _ _ m, map_to_list m |}.
Lemma key_order_laws : @MapOrderLaws key_order.
Proof. by split. Qed.

Lemma elem_of_iter_order `{MapOrderLaws} {K A} `{Countable K} (m : gmap K A) k x :
  (k, x) ∈ iter_order m ↔ m !! k = Some x.
Proof. by rewrite iter_order_perm, elem_of_map_to_list. Qed.

(** Parts of lists without repeats, and of sorted ones. *)
Lemma NoDup_fmap_filter {A B} (f : A → B) (P : A → Prop) `{!∀ x, base.Decision (P x)} l :
  NoDup (f <$> l) → NoDup (f <$> filter P l).
Proof.
  intros Hnd. eapply sublist_NoDup; [exact Hnd|]. apply fmap_sublist, sublist_filter.
Qed.

Lemma StronglySorted_sublist {A} (R : relation A) (xs ys : list A) :
  sublist xs ys → StronglySorted R ys → StronglySorted R xs.
Proof.
  induction 1 as [|x xs ys Hsub IH|x xs ys Hsub IH]; intros Hs; [done|..];
    apply StronglySorted_inv in Hs as [Hs Hx]; [|by apply IH].
  constructor; [by apply IH|]. rewrite Forall_forall in *. intros y Hy.
  by apply Hx, (sublist_subseteq _ _ Hsub).
Qed.

Lemma filter_drop_all {A} (P : A → Prop) `{!∀ x, base.Decision (P x)} l :
  (∀ x, x ∈ l → ¬ P x) → filter P l = [].
Proof.
  intros Hl. destruct (filter P l) as [|x r] eqn:Hf; [done|]. exfalso.
  assert (x ∈ filter P l) as [Hx Hin]%list_elem_of_filter by (rewrite Hf; by left).
  by apply (Hl x).
Qed.

(** A downward closed part of a sorted list is its beginning. *)
Lemma sorted_filter_split {A} (R : relation A) (Q : A → Prop) `{!∀ x, base.Decision (Q x)} xs :
  StronglySorted R xs → (∀ x y, R x y → Q y → Q x) →
  xs = (filter Q xs ++ filter (λ x, ¬ Q x) xs)%list.
Proof.
  intros Hs HR. induction Hs as [|x xs Hs IH Hx]; [done|].
  rewrite !filter_cons. destruct (decide (Q x)) as [Hq|Hq].
  - rewrite (decide_False (P := ¬ Q x)) by tauto. simpl. by f_equal.
  - rewrite decide_True by done. rewrite Forall_forall in Hx.
    assert (filter Q xs = []) as HQ.
    { apply filter_drop_all. intros y Hin Hy. by apply Hq, (HR x y); [apply Hx|]. }
    rewrite HQ in IH |- *. simpl. by f_equal.
Qed.

Lemma StronglySorted_filter {A} (R : relation A) (P : A → Prop) `{!∀ x, base.Decision (P x)} l :
  StronglySorted R l → StronglySorted R (filter P l).
Proof. apply StronglySorted_sublist, sublist_filter. Qed.

Lemma omap_fmap_comp {A B C} (f : A → B) (h : B → option C) (l : list A) :
  omap h (f <$> l) = omap (h ∘ f) l.
Proof. induction l as [|x l IH]; [done|]. csimpl. by rewrite IH. Qed.

Lemma omap_filter {A B} (f : A → option B) (Q : A → Prop) `{!∀ x, base.Decision (Q x)} (l : list A) :
  (∀ x, x ∈ l → ¬ Q x → f x = None) → omap f l = omap f (filter Q l).
Proof.
  induction l as [|x l IH]; intros Hl; [done|].
  rewrite filter_cons. assert (omap f l = omap f (filter Q l)) as Heq.
  { apply IH. intros y Hy. apply Hl. by right. }
  destruct (decide (Q x)) as [|Hq]; csimpl; [by rewrite Heq|].
  rewrite (Hl x) by (done || by left). done.
Qed.

(** A list whose elements are all images is an image. *)
Lemma elements_image {A B} (f : A → B) (P : A → Prop) (es : list B) :
  (∀ e, e ∈ es → ∃ x, e = f x ∧ P x) → ∃ xs, es = f <$> xs ∧ Forall P xs.
Proof.
  induction es as [|e es IH]; intros Hes; [by exists []|].
  destruct (Hes e ltac:(by left)) as (x & -> & Hx).
  destruct IH as (xs & -> & Hxs); [intros e He; apply Hes; by right|].
  exists (x :: xs). split; [done|by constructor].
Qed.

Definition key_le {A} (p q : string * A) : Prop := String.le p.1 q.1.
#[global] Instance key_le_dec {A} : RelDecision (@key_le A).
Proof. intros p q. unfold key_le. apply _. Defined.
#[global] Instance key_le_total {A} : Total (@key_le A).
Proof. intros p q. apply (total String.le). Qed.
#[global] Instance key_le_trans {A} : Transitive (@key_le A).
Proof. intros p q r. unfold key_le. intros. by transitivity q.1. Qed.

(** [BTreeMap::iter]. *)
Definition btree_iter {A} (m : gmap string A) : list (string * A) :=
  merge_sort key_le (map_to_list m).
Definition btree_values {A} (m : gmap string A) : list A := (btree_iter m).*2.
Definition btree_keys {A} (m : gmap string A) : list string := (btree_iter m).*1.

Lemma btree_iter_perm {A} (m : gmap string A) : btree_iter m ≡ₚ map_to_list m.
Proof. apply merge_sort_Permutation. Qed.

Lemma elem_of_btree_iter {A} (m : gmap string A) k x :
  (k, x) ∈ btree_iter m ↔ m !! k = Some x.
Proof. by rewrite btree_iter_perm, elem_of_map_to_list. Qed.

Lemma btree_iter_sorted {A} (m : gmap string A) : StronglySorted key_le (btree_iter m).
Proof. apply StronglySorted_merge_sort; apply _. Qed.

Lemma btree_iter_keys_NoDup {A} (m : gmap string A) : NoDup (btree_iter m).*1.
Proof. rewrite btree_iter_perm. apply NoDup_fst_map_to_list. Qed.

Lemma elem_of_btree_values {A} (m : gmap string A) x :
  x ∈ btree_values m ↔ ∃ k, m !! k = Some x.
Proof.
  unfold btree_values. rewrite list_elem_of_fmap. split.
  - intros ([k y] & -> & Hk%elem_of_btree_iter). by exists k.
  - intros [k Hk%elem_of_btree_iter]. by exists (k, x).
Qed.

(** [BTreeSet<String>] from the elements inserted: ascending, no repeats. *)
Definition btree_set (xs : list string) : list string :=
  merge_sort String.le (elements (list_to_set xs : gset string)).

Lemma elem_of_btree_set xs x : x ∈ btree_set xs ↔ x ∈ xs.
Proof.
  unfold btree_set. rewrite merge_sort_Permutation, elem_of_elements.
  apply elem_of_list_to_set.
Qed.

Lemma btree_set_NoDup xs : NoDup (btree_set xs).
Proof. unfold btree_set. rewrite merge_sort_Permutation. apply NoDup_elements. Qed.

Lemma btree_set_sorted xs : StronglySorted String.le (btree_set xs).
Proof. apply StronglySorted_merge_sort; apply _. Qed.
