(* ===== verification/StrLemmas.v ===== *)
(** * Lemmas on UTF-8, trimming and decimal numbers

    Decoding inverts encoding, a valid byte string may be cut at an ASCII
    byte, [trim] removes whitespace only, and [parse::<isize>] inverts
    [to_string]. *)

From S2P Require Import Prelude RustStd Collections.

Local Open Scope N_scope.

(** ** Decoding *)

Lemma utf8_decode_char c r :
  is_scalar c → utf8_decode (utf8_encode c ++ r) = c :: utf8_decode r.
Proof.
  unfold is_scalar, utf8_encode. intros Hc.
  pose proof (N.div_mod c 64 ltac:(lia)) as H1.
  pose proof (N.mod_lt c 64 ltac:(lia)) as L1.
  assert (c / 4096 = c / 64 / 64) as D2 by (rewrite N.Div0.div_div; done).
  assert (c / 262144 = c / 64 / 64 / 64) as D3 by (rewrite !N.Div0.div_div; done).
  pose proof (N.div_mod (c / 64) 64 ltac:(lia)) as H2.
  pose proof (N.mod_lt (c / 64) 64 ltac:(lia)) as L2.
  pose proof (N.div_mod (c / 64 / 64) 64 ltac:(lia)) as H3.
  pose proof (N.mod_lt (c / 64 / 64) 64 ltac:(lia)) as L3.
  rewrite D3, D2. revert H1 L1 H2 L2 H3 L3.
  generalize (c mod 64) (c / 64 / 64 / 64) ((c / 64 / 64) mod 64) ((c / 64) mod 64).
  intros a1 a4 a3 a2. generalize (c / 64 / 64). intros d2 H1 L1.
  generalize dependent (c / 64). intros d1 _ _ H1 H2 L2 H3 L3.
  destruct (N.ltb_spec c 128); [simpl; by destruct (N.ltb_spec c 192); [|lia]|].
  destruct (N.ltb_spec c 2048).
  { simpl. destruct (N.ltb_spec (192 + d1) 192); [lia|].
    destruct (N.ltb_spec (192 + d1) 224); [f_equal; lia|lia]. }
  destruct (N.ltb_spec c 65536).
  { simpl. destruct (N.ltb_spec (224 + d2) 192); [lia|].
    destruct (N.ltb_spec (224 + d2) 224); [lia|].
    destruct (N.ltb_spec (224 + d2) 240); [f_equal; lia|lia]. }
  simpl. destruct (N.ltb_spec (240 + a4) 192); [lia|].
  destruct (N.ltb_spec (240 + a4) 224); [lia|].
  destruct (N.ltb_spec (240 + a4) 240); [lia|]. f_equal. lia.
Qed.

Lemma utf8_decode_encode cs :
  Forall is_scalar cs → utf8_decode (cs ≫= utf8_encode) = cs.
Proof.
  induction 1 as [|c cs Hc _ IH]; csimpl; [done|]. by rewrite utf8_decode_char, IH.
Qed.

Lemma str_chars_of_chars cs : Forall is_scalar cs → str_chars (str_of_chars cs) = cs.
Proof.
  intros Hcs. unfold str_chars. rewrite str_bytes_of_chars by done.
  by apply utf8_decode_encode.
Qed.

(** ** Cutting at an ASCII byte *)

Definition utf8_bytes (bs : list N) : Prop :=
  ∃ cs, Forall is_scalar cs ∧ bs = cs ≫= utf8_encode.

Lemma utf8_bytes_nil : utf8_bytes [].
Proof. by exists []. Qed.

Lemma utf8_encode_high c b : is_scalar c → 128 ≤ c → b ∈ utf8_encode c → 128 ≤ b.
Proof.
  unfold utf8_encode. intros Hs Hc. destruct (N.ltb_spec c 128); [lia|].
  repeat case_match; rewrite ?elem_of_cons, elem_of_nil; intros Hb.
  all: destruct_or?; try done; subst.
  all: match goal with |- _ <= _ + ?x => generalize x end; intros; lia.
Qed.

Lemma utf8_encode_ascii c : c < 128 → utf8_encode c = [c].
Proof. intros Hc. unfold utf8_encode. by destruct (N.ltb_spec c 128); [|lia]. Qed.

Lemma utf8_cut a b r : utf8_bytes (a ++ b :: r) → b < 128 → utf8_bytes a ∧ utf8_bytes r.
Proof.
  intros (cs & Hcs & Heq) Hb. revert a Heq.
  induction Hcs as [|c cs Hc Hcs IH]; intros a Heq; csimpl in Heq.
  { by destruct a. }
  destruct (N.lt_ge_cases c 128) as [Hlt|Hge].
  - rewrite utf8_encode_ascii in Heq by done. destruct a as [|x a]; simplify_eq/=.
    { split; [apply utf8_bytes_nil|]. by exists cs. }
    destruct (IH a) as [(cs' & Hcs' & ->) Hr]; [done|]. split; [|done].
    exists (c :: cs'). split; [by constructor|]. csimpl. by rewrite utf8_encode_ascii.
  - assert (∃ k, a = utf8_encode c ++ k ∧ cs ≫= utf8_encode = k ++ b :: r) as (k & -> & Hk).
    { apply app_eq_inv in Heq as [(k & Hk & Ha)|(k & Ha & Hk)]; [by exists k|].
      destruct k as [|x k]; simplify_eq/=.
      - exists []. rewrite app_nil_r in *. by subst.
      - assert (128 ≤ x); [|lia].
        apply (utf8_encode_high c); [done|done|]. rewrite Ha. set_solver. }
    destruct (IH k) as [(cs' & Hcs' & ->) Hr]; [done|]. split; [|done].
    exists (c :: cs'). split; [by constructor|]. done.
Qed.

Lemma utf8_valid_bytes s : utf8_bytes (str_bytes s) ↔ utf8_valid s.
Proof.
  split; intros (cs & Hcs & Heq); exists cs; (split; [done|]).
  - by rewrite <-(str_of_bytes_bytes s), Heq.
  - subst s. by apply str_bytes_of_chars.
Qed.

Lemma utf8_bytes_valid bs : utf8_bytes bs → utf8_valid (str_of_bytes bs).
Proof. intros (cs & Hcs & ->). by exists cs. Qed.

Lemma utf8_bytes_ok bs : utf8_bytes bs → Forall byte_ok bs.
Proof.
  intros (cs & Hcs & ->). induction Hcs as [|c cs Hc _ IH]; csimpl; [done|].
  apply Forall_app. split; [by apply utf8_encode_ok|done].
Qed.

(** ** Trimming *)

Lemma skip_while_split p cs :
  ∃ w, cs = w ++ skip_while p cs ∧ Forall (λ c, p c = true) w.
Proof.
  induction cs as [|c cs (w & Heq & Hw)]; simpl; [by exists []|].
  destruct (p c) eqn:Hp; [|by exists []].
  exists (c :: w). simpl. split; [by f_equal|by constructor].
Qed.

Lemma str_trim_split s :
  utf8_valid s →
  ∃ w1 cs w2, s = str_of_chars (w1 ++ cs ++ w2) ∧ str_trim s = str_of_chars cs
    ∧ Forall is_scalar (w1 ++ cs ++ w2)
    ∧ Forall (λ c, is_whitespace c = true) w1 ∧ Forall (λ c, is_whitespace c = true) w2.
Proof.
  intros (cs & Hcs & ->). unfold str_trim. rewrite str_chars_of_chars by done.
  destruct (skip_while_split is_whitespace cs) as (w1 & H1 & Hw1).
  set (m := skip_while is_whitespace cs) in *.
  destruct (skip_while_split is_whitespace (reverse m)) as (w2 & H2 & Hw2).
  set (k := skip_while is_whitespace (reverse m)) in *.
  assert (m = reverse k ++ reverse w2) as Hm.
  { rewrite <-reverse_app, <-H2. by rewrite reverse_involutive. }
  exists w1, (reverse k), (reverse w2). rewrite <-Hm, <-H1. split_and!; try done.
  by apply Forall_reverse.
Qed.

Lemma str_trim_valid s : utf8_valid s → utf8_valid (str_trim s).
Proof.
  intros Hs. destruct (str_trim_split s Hs) as (w1 & cs & w2 & _ & -> & Hcs & _).
  exists cs. split; [|done]. rewrite !Forall_app in Hcs. tauto.
Qed.

(** What holds of every byte of the trimmed string and of whitespace holds of
    every byte. *)
Lemma str_trim_bytes (Q : N → Prop) s :
  utf8_valid s → (∀ c b, is_whitespace c = true → b ∈ utf8_encode c → Q b) →
  Forall Q (str_bytes (str_trim s)) → Forall Q (str_bytes s).
Proof.
  intros Hs Hw. destruct (str_trim_split s Hs) as (w1 & cs & w2 & -> & -> & Hcs & Hw1 & Hw2).
  pose proof Hcs as Hall. rewrite !Forall_app in Hall. destruct Hall as (H1 & H2 & H3).
  rewrite !str_bytes_of_chars by done. rewrite !bind_app.
  assert (∀ w, Forall (λ c, is_whitespace c = true) w → Forall Q (w ≫= utf8_encode)) as Hq.
  { intros w. induction 1 as [|c w Hc _ IH]; csimpl; [constructor|].
    apply Forall_app. split; [|done]. apply Forall_forall. eauto. }
  intros Hmid. rewrite !Forall_app. auto.
Qed.

Lemma skip_while_false p cs : Forall (λ c, p c = false) cs → skip_while p cs = cs.
Proof. destruct 1 as [|c cs Hc _]; simpl; [done|]. by rewrite Hc. Qed.

Lemma utf8_decode_ascii bs : Forall (λ b, b < 128) bs → utf8_decode bs = bs.
Proof.
  induction 1 as [|b bs Hb _ IH]; simpl; [done|].
  destruct (N.ltb_spec b 192); [|lia]. by rewrite IH.
Qed.

Lemma utf8_encode_all_ascii bs : Forall (λ b, b < 128) bs → bs ≫= utf8_encode = bs.
Proof.
  induction 1 as [|b bs Hb _ IH]; csimpl; [done|]. rewrite utf8_encode_ascii by done.
  by rewrite IH.
Qed.

(** ASCII text without whitespace. *)
Definition solid (b : N) : Prop := b < 128 ∧ is_whitespace b = false.

Lemma solid_ascii bs : Forall solid bs → Forall (λ b, b < 128) bs.
Proof. intros Hbs. eapply Forall_impl; [exact Hbs|]. by intros b [? _]. Qed.

Lemma ascii_bytes_ok bs : Forall (λ b, b < 128) bs → Forall byte_ok bs.
Proof. intros Hbs. eapply Forall_impl; [exact Hbs|]. unfold byte_ok. lia. Qed.

Lemma str_trim_solid bs :
  Forall solid bs → str_trim (str_of_bytes bs) = str_of_bytes bs.
Proof.
  intros Hbs. pose proof (solid_ascii _ Hbs) as Ha. unfold str_trim, str_chars.
  rewrite str_bytes_of_bytes by by apply ascii_bytes_ok.
  rewrite utf8_decode_ascii by done.
  assert (Forall (λ c, is_whitespace c = false) bs) as Hw.
  { eapply Forall_impl; [exact Hbs|]. by intros b [_ ?]. }
  rewrite (skip_while_false _ bs) by done.
  rewrite skip_while_false by by apply Forall_reverse.
  unfold str_of_chars. by rewrite reverse_involutive, utf8_encode_all_ascii.
Qed.

(** ** Decimal numbers *)

Lemma digits_value_app a ds r :
  digits_value a (ds ++ r) = digits_value a ds ≫= λ v, digits_value v r.
Proof.
  revert a. induction ds as [|d ds IH]; intros a; simpl; [done|].
  destruct (is_digit d); [apply IH|done].
Qed.

Lemma decimal_digits_spec fuel n acc :
  n < 2 ^ N.of_nat fuel → (0 < fuel)%nat →
  ∃ ds, decimal_digits fuel n acc = ds ++ acc ∧ ds ≠ [] ∧ Forall (λ d, is_digit d = true) ds
        ∧ digits_value 0 ds = Some (Z.of_N n).
Proof.
  revert n acc. induction fuel as [|fuel IH]; intros n acc Hn Hf; [lia|].
  assert (∀ d, d < 10 → is_digit (48 + d) = true) as Hd.
  { intros d Hlt. unfold is_digit. apply andb_true_iff. rewrite !N.leb_le. lia. }
  cbn [decimal_digits]. destruct (N.ltb_spec n 10).
  - exists [48 + n mod 10]. rewrite N.mod_small by done. split_and!; try done.
    + by repeat constructor; apply Hd.
    + simpl. rewrite Hd by done. f_equal. lia.
  - rewrite Nat2N.inj_succ, N.pow_succ_r' in Hn.
    assert (fuel ≠ O) by (intros ->; simpl in Hn; lia).
    pose proof (N.div_mod n 10 ltac:(lia)) as Hdm. pose proof (N.mod_lt n 10 ltac:(lia)) as Hm.
    destruct (IH (n / 10) ((48 + n mod 10) :: acc)) as (ds & -> & Hne & Hds & Hval); [|lia|].
    { revert Hn Hdm. generalize (n / 10) (n mod 10) (2 ^ N.of_nat fuel). lia. }
    exists (ds ++ [48 + n mod 10]). rewrite <-app_assoc. split_and!; [done| | |].
    + by destruct ds.
    + apply Forall_app. split; [done|]. by repeat constructor; apply Hd.
    + rewrite digits_value_app, Hval. cbn [mbind option_bind digits_value].
      rewrite Hd by done. f_equal. revert Hdm. generalize (n / 10) (n mod 10). lia.
Qed.

Lemma decimal_N_spec n :
  decimal_N n ≠ [] ∧ Forall (λ d, is_digit d = true) (decimal_N n)
  ∧ digits_value 0 (decimal_N n) = Some (Z.of_N n).
Proof.
  unfold decimal_N.
  destruct (decimal_digits_spec (S (N.to_nat (N.size n))) n []) as (ds & -> & H);
    [|lia|by rewrite app_nil_r].
  rewrite Nat2N.inj_succ, N2Nat.id, N.pow_succ_r'. pose proof (N.size_gt n). lia.
Qed.

Lemma is_digit_range d : is_digit d = true ↔ 48 ≤ d ≤ 57.
Proof. unfold is_digit. by rewrite andb_true_iff, !N.leb_le. Qed.

Lemma parse_decimal_Z z :
  (isize_min ≤ z ≤ isize_max)%Z → parse_isize_bytes (decimal_Z z) = Some z.
Proof.
  intros [Hmin Hmax]. unfold decimal_Z.
  destruct (decimal_N_spec (Z.abs_N z)) as (Hne & Hds & Hval).
  assert ((isize_min <=? z)%Z && (z <=? isize_max)%Z = true) as Hr.
  { apply andb_true_iff. by rewrite !Z.leb_le. }
  destruct (Z.ltb_spec z 0).
  - simpl. destruct (decimal_N (Z.abs_N z)); [done|]. rewrite Hval.
    replace (- Z.of_N (Z.abs_N z))%Z with z by lia. by rewrite Hr.
  - unfold parse_isize_bytes. destruct (decimal_N (Z.abs_N z)) as [|d ds]; [done|].
    apply Forall_cons in Hds as [Hd _]. apply is_digit_range in Hd.
    destruct (N.eqb_spec d 45); [lia|]. destruct (N.eqb_spec d 43); [lia|].
    rewrite Hval. replace (Z.of_N (Z.abs_N z)) with z by lia. by rewrite Hr.
Qed.

(** The bytes of a number: digits and a sign. *)
Definition number_byte (b : N) : Prop := is_digit b = true ∨ b = 45 ∨ b = 43.

Lemma number_byte_range b : number_byte b → 43 ≤ b ≤ 57 ∧ b ≠ 44 ∧ b ≠ 46.
Proof. intros [?%is_digit_range|[->| ->]]; lia. Qed.

Lemma digits_value_digits a ds v :
  digits_value a ds = Some v → Forall (λ d, is_digit d = true) ds.
Proof.
  revert a. induction ds as [|d ds IH]; intros a; simpl; [constructor|].
  destruct (is_digit d) eqn:Hd; [|done]. intros Hv. constructor; eauto.
Qed.

Lemma parse_isize_bytes_ok bs z :
  parse_isize_bytes bs = Some z →
  Forall number_byte bs ∧ (isize_min ≤ z ≤ isize_max)%Z.
Proof.
  assert (∀ neg ds, match ds with
            | [] => None
            | _ => match digits_value 0 ds with
                   | Some v => let z := if neg : bool then (- v)%Z else v in
                               if ((isize_min <=? z) && (z <=? isize_max))%Z then Some z else None
                   | None => None
                   end
            end = Some z → Forall number_byte ds ∧ (isize_min ≤ z ≤ isize_max)%Z) as Hds.
  { intros neg ds Hz. destruct ds as [|d ds]; [done|].
    destruct (digits_value 0 (d :: ds)) as [v|] eqn:Hv; [|done].
    apply digits_value_digits in Hv. cbv zeta in Hz.
    destruct (_ && _) eqn:Hr in Hz; [|done]. injection Hz as <-.
    apply andb_true_iff in Hr. rewrite !Z.leb_le in Hr. split; [|done].
    eapply Forall_impl; [exact Hv|]. intros x Hx. by left. }
  unfold parse_isize_bytes. destruct bs as [|b r]; [done|].
  destruct (N.eqb_spec b 45) as [->|]; [|destruct (N.eqb_spec b 43) as [->|]].
  - intros [? ?]%(Hds true). split; [|done]. constructor; [right; by left|done].
  - intros [? ?]%(Hds false). split; [|done]. constructor; [by right; right|done].
  - apply (Hds false (b :: r)).
Qed.

(** ** Splitting *)

Lemma bytes_split_one sep bs : Forall (λ b, b ≠ sep) bs → bytes_split sep bs = [bs].
Proof.
  induction 1 as [|b bs Hb _ IH]; simpl; [done|].
  destruct (N.eqb_spec b sep); [done|]. by rewrite IH.
Qed.

Lemma bytes_split_sep sep a r :
  Forall (λ b, b ≠ sep) a → bytes_split sep (a ++ sep :: r) = a :: bytes_split sep r.
Proof.
  induction 1 as [|b a Hb _ IH]; simpl; [by rewrite N.eqb_refl|].
  destruct (N.eqb_spec b sep); [done|]. by rewrite IH.
Qed.

Lemma bytes_split_ne sep bs : bytes_split sep bs ≠ [].
Proof. destruct bs; simpl; repeat case_match; done. Qed.

(** A property of the parts and of the separator is one of the whole. *)
Lemma bytes_split_Forall (Q : N → Prop) sep bs :
  Q sep → Forall (Forall Q) (bytes_split sep bs) → Forall Q bs.
Proof.
  intros Hsep. induction bs as [|b bs IH]; simpl; [constructor|].
  destruct (N.eqb_spec b sep) as [->|].
  - intros [_ H]%Forall_cons. constructor; auto.
  - pose proof (bytes_split_ne sep bs). destruct (bytes_split sep bs) as [|p ps]; [done|].
    intros [[Hb Hp]%Forall_cons Hps]%Forall_cons. constructor; [done|]. apply IH.
    by constructor.
Qed.

Lemma bytes_split_utf8 sep bs :
  sep < 128 → utf8_bytes bs → Forall utf8_bytes (bytes_split sep bs).
Proof.
  intros Hsep. induction bs as [bs IH] using (induction_ltof1 _ (@length N)). intros Hbs.
  destruct (decide (sep ∈ bs)) as [Hin|Hnot].
  - apply list_elem_of_split_l in Hin as (a & r & -> & Ha).
    destruct (utf8_cut _ _ _ Hbs Hsep) as [Hva Hvr].
    rewrite bytes_split_sep by (apply Forall_forall; by intros b Hb ->).
    constructor; [done|]. apply IH; [unfold ltof; rewrite length_app; simpl; lia|done].
  - rewrite bytes_split_one; [by repeat constructor|].
    apply Forall_forall. by intros b Hb ->.
Qed.

Lemma bytes_contain_true b bs : bytes_contain b bs = true ↔ b ∈ bs.
Proof.
  unfold bytes_contain. rewrite existsb_exists. setoid_rewrite <-list_elem_of_In.
  split; [intros (x & ? & ->%N.eqb_eq); done|]. intros ?. exists b. by rewrite N.eqb_refl.
Qed.

(** ** Sorted texts *)

Lemma str_cmp_le a b : cmp_le str_cmp a b ↔ String.le a b.
Proof. unfold cmp_le, str_cmp, String.le, String.leb. destruct (String.compare a b); simpl; naive_solver. Qed.

#[global] Instance str_cmp_preorder : TotalPreorder str_cmp.
Proof.
  split.
  - intros a b. rewrite !str_cmp_le. apply total, _.
  - intros a b c. rewrite !str_cmp_le. apply transitivity.
Qed.

(** [sort] and [dedup]: the same texts, in order, once each. *)
Lemma sort_dedup_spec (xs : list string) :
  StronglySorted String.le (dedup (sort_by str_cmp xs)) ∧ NoDup (dedup (sort_by str_cmp xs))
  ∧ ∀ x, x ∈ dedup (sort_by str_cmp xs) ↔ x ∈ xs.
Proof.
  assert (StronglySorted String.le (sort_by str_cmp xs)) as Hs.
  { pose proof (sort_by_sorted str_cmp xs) as Hs. induction Hs as [|x l Hs IH Hx]; constructor; [done|].
    eapply Forall_impl; [exact Hx|]. intros y. apply str_cmp_le. }
  destruct (dedup_sorted String.le _ Hs) as [Hds Hnd]. split_and!; [done..|].
  intros x. rewrite elem_of_dedup. by rewrite sort_by_perm.
Qed.
