(* ===== verification/UuidText.v ===== *)
(** * The text of a [Uuid]

    The uuid crate's [Display] and [parse_str], as a class with the
    documented behaviour the source relies on: 36 bytes of hexadecimal digits
    and dashes that read back.  [hex_uuid] is an instance that satisfies the
    laws, to evaluate with; [parse_str] accepts more forms than it does. *)

From S2P Require Import Prelude RustStd.

Local Open Scope N_scope.

Class UuidText := {
  Uuid_to_string : N → string;
  Uuid_parse : string → option N;
}.

Definition uuid_bound : N := 2 ^ 128.

(** A lowercase hexadecimal digit or a dash. *)
Definition uuid_byte (b : N) : bool :=
  is_digit b || ((97 <=? b) && (b <=? 102)) || (b =? 45).

Class UuidTextLaws `{UuidText} : Prop := {
  Uuid_parse_to_string u : u < uuid_bound → Uuid_parse (Uuid_to_string u) = Some u;
  Uuid_to_string_len u : length (str_bytes (Uuid_to_string u)) = 36%nat;
  Uuid_to_string_bytes u : Forall (λ b, uuid_byte b = true) (str_bytes (Uuid_to_string u));
}.

Lemma Uuid_to_string_inj `{UuidTextLaws} u v :
  u < uuid_bound → v < uuid_bound → Uuid_to_string u = Uuid_to_string v → u = v.
Proof.
  intros Hu Hv Heq. apply (f_equal Uuid_parse) in Heq.
  rewrite !Uuid_parse_to_string in Heq by done. congruence.
Qed.

(** ** An instance *)

Definition hex_digit (d : N) : N := if d <? 10 then 48 + d else 87 + d.

Definition hex_value (b : N) : option N :=
  if is_digit b then Some (b - 48)
  else if (97 <=? b) && (b <=? 102) then Some (b - 87) else None.

(** [n] digits, least significant first. *)
Fixpoint hex_digits (n : nat) (u : N) : list N :=
  match n with
  | O => []
  | S n => hex_digit (u `mod` 16) :: hex_digits n (u / 16)
  end.

Fixpoint hex_number (ds : list N) : option N :=
  match ds with
  | [] => Some 0
  | d :: ds => v ← hex_value d; r ← hex_number ds; Some (v + 16 * r)
  end.

(** Dashes after the digits 8, 12, 16 and 20 (written, most significant
    first). *)
Definition dashed (ds : list N) : list N :=
  (take 8 ds ++ [45] ++ take 4 (drop 8 ds) ++ [45] ++ take 4 (drop 12 ds) ++ [45]
   ++ take 4 (drop 16 ds) ++ [45] ++ drop 20 ds)%list.

Definition hex_uuid : UuidText := {|
  Uuid_to_string := λ u, str_of_bytes (dashed (reverse (hex_digits 32 u)));
  Uuid_parse := λ s, hex_number (reverse (filter (λ b, b ≠ 45) (str_bytes s)));
|}.

Lemma hex_digit_spec d :
  d < 16 → hex_value (hex_digit d) = Some d ∧ hex_digit d ≠ 45 ∧ uuid_byte (hex_digit d) = true
    ∧ byte_ok (hex_digit d).
Proof.
  intros Hd. unfold hex_digit, hex_value, uuid_byte, is_digit, byte_ok.
  destruct (N.ltb_spec d 10).
  - rewrite !(proj2 (N.leb_le _ _)) by lia. simpl. split_and!; [f_equal; lia|lia|done|lia].
  - rewrite (proj2 (N.leb_gt (87 + d) 57)) by lia.
    rewrite !(proj2 (N.leb_le _ _)) by lia. simpl. split_and!; [f_equal; lia|lia| |lia].
    done.
Qed.

Lemma hex_digits_spec n u :
  u < 16 ^ N.of_nat n →
  hex_number (hex_digits n u) = Some u.
Proof.
  revert u. induction n as [|n IH]; intros u Hu; simpl.
  - simpl in Hu. f_equal. lia.
  - pose proof (N.mod_lt u 16 ltac:(done)) as Hm.
    rewrite (proj1 (hex_digit_spec _ Hm)). simpl. rewrite IH.
    + simpl. f_equal. pose proof (N.div_mod u 16). lia.
    + apply N.Div0.div_lt_upper_bound. replace (N.of_nat (S n)) with (N.succ (N.of_nat n)) in Hu by lia.
      by rewrite N.pow_succ_r' in Hu.
Qed.

Lemma hex_digits_bytes n u : Forall (λ b, b ≠ 45 ∧ uuid_byte b = true ∧ byte_ok b) (hex_digits n u).
Proof.
  revert u. induction n as [|n IH]; intros u; simpl; constructor; [|done].
  pose proof (hex_digit_spec (u `mod` 16) (N.mod_lt u 16 ltac:(done))). tauto.
Qed.

Lemma length_hex_digits n u : length (hex_digits n u) = n.
Proof. revert u. induction n; intros u; simpl; congruence. Qed.

Lemma dashed_Forall (Q : N → Prop) ds : Q 45 → Forall Q ds → Forall Q (dashed ds).
Proof.
  intros H45 Hds. unfold dashed. rewrite !Forall_app.
  split_and!; try by apply Forall_singleton.
  - by apply Forall_take.
  - by apply Forall_take, Forall_drop.
  - by apply Forall_take, Forall_drop.
  - by apply Forall_take, Forall_drop.
  - by apply Forall_drop.
Qed.

Lemma filter_Forall_id {A} (P : A → Prop) `{!∀ x, base.Decision (P x)} l :
  Forall P l → filter P l = l.
Proof. intros Hl. apply filter_keep_all. by apply Forall_forall. Qed.

Lemma dashed_filter ds :
  Forall (λ b, b ≠ 45) ds → filter (λ b, b ≠ 45) (dashed ds) = ds.
Proof.
  intros Hds.
  assert (∀ n m, filter (λ b, b ≠ 45) (take n (drop m ds)) = take n (drop m ds)) as Hmid.
  { intros n m. by apply filter_Forall_id, Forall_take, Forall_drop. }
  assert (∀ n, filter (λ b, b ≠ 45) (take n ds) = take n ds) as Htake.
  { intros n. by apply filter_Forall_id, Forall_take. }
  assert (∀ n, filter (λ b, b ≠ 45) (drop n ds) = drop n ds) as Hdrop.
  { intros n. by apply filter_Forall_id, Forall_drop. }
  unfold dashed. rewrite !filter_app, Htake, Hdrop, !Hmid.
  assert (filter (λ b, b ≠ 45) [45] = []) as -> by done. rewrite !app_nil_l.
  assert (∀ m, take 4 (drop m ds) ++ drop (4 + m) ds = drop m ds)%list as Hjoin.
  { intros m. rewrite Nat.add_comm, <-drop_drop. apply take_drop. }
  pose proof (Hjoin 16%nat) as H16. pose proof (Hjoin 12%nat) as H12.
  pose proof (Hjoin 8%nat) as H8. simpl Nat.add in *.
  rewrite H16, H12, H8. apply take_drop.
Qed.

Lemma length_dashed ds : length ds = 32%nat → length (dashed ds) = 36%nat.
Proof. intros Hds. unfold dashed. by rewrite !length_app, !length_take, !length_drop, Hds. Qed.

Lemma hex_uuid_laws : @UuidTextLaws hex_uuid.
Proof.
  assert (∀ u, str_bytes (str_of_bytes (dashed (reverse (hex_digits 32 u))))
               = dashed (reverse (hex_digits 32 u))) as Hb.
  { intros u. apply str_bytes_of_bytes, dashed_Forall; [done|]. apply Forall_reverse.
    eapply Forall_impl; [apply hex_digits_bytes|]. by intros b (? & ? & ?). }
  split; cbn [Uuid_to_string Uuid_parse hex_uuid].
  - intros u Hu. rewrite Hb, dashed_filter, reverse_involutive; [by apply hex_digits_spec|].
    apply Forall_reverse. eapply Forall_impl; [apply hex_digits_bytes|]. by intros b (? & ? & ?).
  - intros u. rewrite Hb. apply length_dashed. by rewrite length_reverse, length_hex_digits.
  - intros u. rewrite Hb. apply dashed_Forall; [done|]. apply Forall_reverse.
    eapply Forall_impl; [apply hex_digits_bytes|]. by intros b (? & ? & ?).
Qed.

Example hex_uuid_ex : @Uuid_to_string hex_uuid 255 = "00000000-0000-0000-0000-0000000000ff"%string.
Proof. vm_compute. reflexivity. Qed.
