(* ===== verification/F32.v ===== *)
(** * [f32]: IEEE 754 binary32

    Values and arithmetic are [SpecFloat]'s at precision 24 and maximal
    exponent 128 (round to nearest, ties to even), so they compute inside the
    kernel.  [log2] and [ln] are libm functions and stay abstract. *)

From Stdlib Require Import Floats.SpecFloat.
From S2P Require Import Prelude Collections.

Local Open Scope Z_scope.

Definition f32 : Type := spec_float.

#[global] Instance f32_eq_dec : EqDecision f32.
Proof. solve_decision. Defined.

Definition f32_add : f32 → f32 → f32 := SFadd 24 128.
Definition f32_sub : f32 → f32 → f32 := SFsub 24 128.
Definition f32_mul : f32 → f32 → f32 := SFmul 24 128.
Definition f32_div : f32 → f32 → f32 := SFdiv 24 128.

(** [n as f32], rounding to nearest. *)
Definition f32_of_N (n : N) : f32 := binary_normalize 24 128 (Z.of_N n) 0 false.

Definition f32_is_nan (x : f32) : bool :=
  match x with S754_nan => true | _ => false end.

(** IEEE comparisons: every test with a NaN is false. *)
Definition f32_lt (x y : f32) : bool :=
  match SFcompare x y with Some Lt => true | _ => false end.
Definition f32_le (x y : f32) : bool :=
  match SFcompare x y with Some Lt | Some Eq => true | _ => false end.

(** [f32::max]: the other operand when one is a NaN. *)
Definition f32_max (x y : f32) : f32 :=
  if f32_is_nan x then y else if f32_is_nan y then x
  else if f32_lt x y then y else x.

(** [f32::clamp]: a NaN stays a NaN. *)
Definition f32_clamp (x lo hi : f32) : f32 :=
  let x := if f32_lt x lo then lo else x in
  if f32_lt hi x then hi else x.

Definition f32_zero : f32 := S754_zero false.
Definition f32_half : f32 := S754_finite false 8388608 (-24).
Definition f32_one : f32 := S754_finite false 8388608 (-23).
(** The nearest binary32 values of 0.4, 0.6 and 0.8. *)
Definition f32_0_4 : f32 := S754_finite false 13421773 (-25).
Definition f32_0_6 : f32 := S754_finite false 10066330 (-24).
Definition f32_0_8 : f32 := S754_finite false 13421773 (-24).

Example f32_constants :
  (f32_div (f32_of_N 4) (f32_of_N 10), f32_div (f32_of_N 6) (f32_of_N 10),
   f32_div (f32_of_N 8) (f32_of_N 10), f32_div (f32_of_N 1) (f32_of_N 2), f32_of_N 1)
  = (f32_0_4, f32_0_6, f32_0_8, f32_half, f32_one).
Proof. vm_compute. reflexivity. Qed.

(** [f32::total_cmp]: the order of the bit patterns.  Finite values scale to
    integers by 2^149 (the smallest subnormal is 2^-149); [S754_nan] is the
    positive quiet NaN. *)
Definition f32_key (x : f32) : Z :=
  match x with
  | S754_zero false => 0
  | S754_zero true => -1
  | S754_finite false m e => Z.shiftl (Z.pos m) (e + 149)
  | S754_finite true m e => - 1 - Z.shiftl (Z.pos m) (e + 149)
  | S754_infinity false => 2 ^ 300
  | S754_infinity true => - 2 ^ 300
  | S754_nan => 2 ^ 301
  end.

Definition f32_total_cmp (x y : f32) : comparison := f32_key x ?= f32_key y.

#[global] Instance compare_key_preorder {A} (key : A → Z) :
  TotalPreorder (λ x y, key x ?= key y).
Proof.
  split.
  - intros x y. unfold cmp_le. rewrite !Z.compare_le_iff. lia.
  - intros x y z. unfold cmp_le. rewrite !Z.compare_le_iff. lia.
Qed.

#[global] Instance f32_total_cmp_preorder : TotalPreorder f32_total_cmp.
Proof. apply compare_key_preorder. Qed.

(** libm. *)
Class Libm := {
  f32_log2 : f32 → f32;
  f32_ln : f32 → f32;
}.

(** An instance, to evaluate with. *)
Definition demo_libm : Libm := {| f32_log2 := id; f32_ln := id |}.

(** [x as u8] and [x as u32], for [max] the largest value: towards zero,
    saturating, a NaN is 0. *)
Definition f32_to_uint (max : N) (x : f32) : N :=
  match x with
  | S754_finite false m e => N.min max (Z.to_N (Z.shiftl (Z.pos m) e))
  | S754_infinity false => max
  | _ => 0%N
  end.

Example f32_to_uint_ex :
  (f32_to_uint 255 (f32_div (f32_of_N 7) (f32_of_N 2)), f32_to_uint 255 (f32_of_N 300),
   f32_to_uint 255 S754_nan) = (3, 255, 0)%N.
Proof. vm_compute. reflexivity. Qed.

(** ** [f64]: IEEE 754 binary64

    As [F32], at precision 53 and maximal exponent 1024. *)

Definition f64 : Type := spec_float.

Definition f64_add : f64 → f64 → f64 := SFadd 53 1024.
Definition f64_sub : f64 → f64 → f64 := SFsub 53 1024.
Definition f64_mul : f64 → f64 → f64 := SFmul 53 1024.
Definition f64_div : f64 → f64 → f64 := SFdiv 53 1024.

(** [n as f64], rounding to nearest. *)
Definition f64_of_N (n : N) : f64 := binary_normalize 53 1024 (Z.of_N n) 0 false.

(** False with a NaN. *)
Definition f64_lt (x y : f64) : bool :=
  match SFcompare x y with Some Lt => true | _ => false end.

(** The literal [n/10]: the nearest value. *)
Definition f64_tenths (n : N) : f64 := f64_div (f64_of_N n) (f64_of_N 10).

Definition f64_zero : f64 := S754_zero false.
Definition f64_one : f64 := f64_of_N 1.

Example f64_tenths_ex :
  (f64_tenths 3, f64_tenths 5)
  = (S754_finite false 5404319552844595 (-54), S754_finite false 4503599627370496 (-53)).
Proof. vm_compute. reflexivity. Qed.

Definition f64_is_zero (x : f64) : bool := match x with S754_zero _ => true | _ => false end.
Definition f64_is_nan (x : f64) : bool := match x with S754_nan => true | _ => false end.
Definition f64_abs : f64 → f64 := SFabs.

(** [f64::MIN]: the least finite value. *)
Definition f64_min_value : f64 := S754_finite true (2 ^ 53 - 1) 971.

(** [f64::max]: the other operand when one is a NaN. *)
Definition f64_max (x y : f64) : f64 :=
  if f64_is_nan x then y else if f64_is_nan y then x else if f64_lt x y then y else x.

(** [iter().sum::<f64>()]. *)
Definition f64_sum (xs : list f64) : f64 := foldl f64_add (S754_zero true) xs.

(** [f64::from] an [f32] is exact, [as f32] rounds. *)
Definition f64_of_f32 (x : f32) : f64 :=
  match x with
  | S754_finite s m e => binary_normalize 53 1024 (if s then Z.neg m else Z.pos m) e s
  | _ => x
  end.
Definition f32_of_f64 (x : f64) : f32 :=
  match x with
  | S754_finite s m e => binary_normalize 24 128 (if s then Z.neg m else Z.pos m) e s
  | _ => x
  end.

Example f64_conversions :
  (f32_of_f64 (f64_div f64_one (f64_of_N 10)), f64_of_f32 f32_half,
   f32_of_f64 (f64_of_f32 f32_0_4))
  = (S754_finite false 13421773 (-27), f64_div f64_one (f64_of_N 2), f32_0_4).
Proof. vm_compute. reflexivity. Qed.

(** libm. *)
Class Libm64 := {
  f64_ln_1p : f64 → f64;
  f64_powf : f64 → f64 → f64;
}.

(** An instance, to evaluate with. *)
Definition demo_libm64 : Libm64 := {| f64_ln_1p := id; f64_powf := λ x _, x |}.
