(* ===== verification/FloatOrder.v ===== *)
(** * Non-negative floats

    Sums, products and quotients of non-negative binary floats are
    non-negative and never NaN, at any precision; among such floats
    [partial_cmp] is a total preorder.  Used for the scores of [F32] and
    [f64]. *)

From S2P Require Import Prelude Collections.
From Stdlib Require Import Floats.SpecFloat.

Local Open Scope Z_scope.

(** Neither NaN nor a negative sign (so not [-0.0] either). *)
Definition nonneg (x : spec_float) : Prop :=
  match x with
  | S754_zero s | S754_infinity s | S754_finite s _ _ => s = false
  | S754_nan => False
  end.

#[global] Instance nonneg_dec x : base.Decision (nonneg x).
Proof. destruct x; simpl; apply _. Defined.

(** Finite and above zero. *)
Definition positive_finite (x : spec_float) : Prop :=
  match x with S754_finite s _ _ => s = false | _ => False end.

Section rounding.
Context (prec emax : Z).

Lemma iter_pos_inv {A} (f : A → A) (Q : A → Prop) p x :
  (∀ y, Q y → Q (f y)) → Q x → Q (iter_pos f p x).
Proof. intros Hf. revert x. induction p; intros x Hx; simpl; auto. Qed.

Lemma shr_1_nonneg r : 0 <= shr_m r → 0 <= shr_m (shr_1 r).
Proof. destruct r as [[|[]|[]] ? ?]; simpl; lia. Qed.

Lemma shr_fexp_nonneg m e l : 0 <= m → 0 <= shr_m (shr_fexp prec emax m e l).1.
Proof.
  intros Hm. unfold shr_fexp, shr.
  assert (0 <= shr_m (shr_record_of_loc m l)) as H0 by (destruct l as [|[]]; done).
  case_match; [done| |done]. simpl. apply iter_pos_inv; [apply shr_1_nonneg|done].
Qed.

Lemma round_nearest_even_nonneg m l : 0 <= m → 0 <= round_nearest_even m l.
Proof. destruct l as [|[]]; simpl; [..|case_match| |]; lia. Qed.

Lemma binary_round_aux_nonneg m e l :
  0 <= m → nonneg (binary_round_aux prec emax false m e l).
Proof.
  intros Hm. unfold binary_round_aux.
  destruct (shr_fexp prec emax m e l) as [r e'] eqn:H1.
  pose proof (shr_fexp_nonneg m e l Hm) as Hr. rewrite H1 in Hr. simpl in Hr.
  destruct (shr_fexp prec emax _ e' loc_Exact) as [r' e''] eqn:H2.
  pose proof (shr_fexp_nonneg _ e' loc_Exact
    (round_nearest_even_nonneg _ (loc_of_shr_record r) Hr)) as Hr'.
  rewrite H2 in Hr'. simpl in Hr'. destruct (shr_m r') eqn:Hm'; [done| |lia].
  by case_match.
Qed.

Lemma binary_normalize_nonneg m e : 0 <= m → nonneg (binary_normalize prec emax m e false).
Proof.
  intros Hm. unfold binary_normalize, binary_round. destruct m; [done| |lia].
  destruct (shl_align _ _ _). by apply binary_round_aux_nonneg.
Qed.

Lemma SFadd_nonneg x y : nonneg x → nonneg y → nonneg (SFadd prec emax x y).
Proof.
  destruct x as [[]|[]| |[] m1 e1], y as [[]|[]| |[] m2 e2]; try done.
  intros _ _. cbn [SFadd cond_Zopp]. apply binary_normalize_nonneg. lia.
Qed.

(** A constant factor cannot be infinite, so no [0 * inf] arises. *)
Lemma SFmul_nonneg x y : nonneg x → positive_finite y → nonneg (SFmul prec emax x y).
Proof.
  destruct x as [[]|[]| |[] m1 e1], y as [[]|[]| |[] m2 e2]; try done.
  intros _ _. cbn [SFmul xorb]. apply binary_round_aux_nonneg. lia.
Qed.

Lemma SFdiv_core_nonneg m1 e1 m2 e2 :
  0 <= m1 → 0 < m2 → 0 <= (SFdiv_core_binary prec emax m1 e1 m2 e2).1.1.
Proof.
  intros H1 H2. unfold SFdiv_core_binary.
  match goal with |- context [Z.div_eucl ?a ?b] => set (m' := a) end.
  assert (0 <= m').
  { subst m'. case_match; [done|by apply Z.shiftl_nonneg|done]. }
  pose proof (Z_div_mod m' m2) as Hd.
  destruct (Z.div_eucl m' m2) as [q r]. simpl. destruct Hd as [Hq Hr]; [lia|]. nia.
Qed.

Lemma SFdiv_nonneg x y :
  nonneg x → nonneg y → positive_finite x ∨ positive_finite y →
  nonneg (SFdiv prec emax x y).
Proof.
  destruct x as [[]|[]| |[] m1 e1], y as [[]|[]| |[] m2 e2]; simpl; try done;
    try by intros _ _ [].
  intros _ _ _. pose proof (SFdiv_core_nonneg (Zpos m1) e1 (Zpos m2) e2) as Hq.
  destruct (SFdiv_core_binary _ _ _ _ _ _) as [[q e'] l]. simpl in Hq.
  apply binary_round_aux_nonneg. lia.
Qed.
End rounding.

(** ** The order *)

(** The order of [partial_cmp] on non-negative floats as integers: exponent,
    then mantissa (fewer than 2^64 for every format used). *)
Definition rank (x : spec_float) : Z * Z * Z :=
  match x with
  | S754_zero _ | S754_nan => (0, 0, 0)
  | S754_finite _ m e => (1, e, Z.pos m)
  | S754_infinity _ => (2, 0, 0)
  end.

Definition rank_cmp (a b : Z * Z * Z) : comparison :=
  then_with (a.1.1 ?= b.1.1) (then_with (a.1.2 ?= b.1.2) (a.2 ?= b.2)).

Lemma rank_cmp_le a b :
  cmp_le rank_cmp a b ↔
  a.1.1 < b.1.1 ∨ a.1.1 = b.1.1 ∧ (a.1.2 < b.1.2 ∨ a.1.2 = b.1.2 ∧ a.2 <= b.2).
Proof.
  unfold cmp_le, rank_cmp, then_with.
  destruct (Z.compare_spec a.1.1 b.1.1); simpl; [|split; [lia|done]|split; [done|lia]].
  destruct (Z.compare_spec a.1.2 b.1.2); simpl; [|split; [lia|done]|split; [done|lia]].
  rewrite Z.compare_le_iff. lia.
Qed.

#[global] Instance rank_cmp_preorder : TotalPreorder rank_cmp.
Proof.
  split.
  - intros a b. rewrite !rank_cmp_le. lia.
  - intros a b c. rewrite !rank_cmp_le. lia.
Qed.

Lemma SFcompare_rank x y :
  nonneg x → nonneg y → SFcompare x y = Some (rank_cmp (rank x) (rank y)).
Proof.
  destruct x as [[]|[]| |[] m1 e1], y as [[]|[]| |[] m2 e2]; simpl; try done.
  intros _ _. unfold rank_cmp, then_with. simpl.
  destruct (e1 ?= e2); done.
Qed.

(** A comparator pulled back along a function. *)
#[global] Instance pulled_preorder {A B} (cmp : B → B → comparison) (f : A → B)
    `{!TotalPreorder cmp} : TotalPreorder (λ x y, cmp (f x) (f y)).
Proof.
  split.
  - intros x y. apply (cmp_le_total (f x) (f y)).
  - intros x y z. apply (cmp_le_trans (f x) (f y) (f z)).
Qed.

(** The reverse of a comparator. *)
#[global] Instance reversed_preorder {A} (cmp : A → A → comparison)
    `{!TotalPreorder cmp} : TotalPreorder (λ x y, cmp y x).
Proof.
  split.
  - intros x y. destruct (cmp_le_total y x) as [H|H]; [by left|by right].
  - intros x y z Hxy Hyz. exact (cmp_le_trans z y x Hyz Hxy).
Qed.

(** ** Sorting by comparators that agree on the list *)

Section agree.
Context {A : Type} (c1 c2 : A → A → comparison) (Q : A → Prop).
Hypothesis Hagree : ∀ x y, Q x → Q y → c1 x y = c2 x y.

Let R1 := cmp_le c1.
Let R2 := cmp_le c2.

Lemma list_merge_agree l1 l2 :
  Forall Q l1 → Forall Q l2 →
  list_merge R1 l1 l2 = list_merge R2 l1 l2 ∧ Forall Q (list_merge R1 l1 l2).
Proof.
  revert l2. induction l1 as [|x l1 IH1]; intros l2 H1 H2.
  { by rewrite !list_merge_nil_l. }
  induction l2 as [|y l2 IH2].
  { by rewrite !list_merge_nil_r. }
  apply Forall_cons in H1 as [Hx Hl1]. pose proof H2 as H2'.
  apply Forall_cons in H2 as [Hy Hl2]. rewrite !list_merge_cons.
  destruct (IH1 (y :: l2) Hl1 H2') as [E1 F1], (IH2 Hl2) as [E2 F2].
  assert (R1 x y ↔ R2 x y) as HR by (unfold R1, R2, cmp_le; by rewrite (Hagree x y)).
  destruct (decide (R1 x y)), (decide (R2 x y)); try tauto.
  - split; [by f_equal|by constructor].
  - split; [by f_equal|by constructor].
Qed.

Definition stack_ok (st : list (option (list A))) : Prop :=
  Forall (λ o, match o with Some l => Forall Q l | None => True end) st.

Lemma merge_list_to_stack_agree st l :
  stack_ok st → Forall Q l →
  merge_list_to_stack R1 st l = merge_list_to_stack R2 st l
  ∧ stack_ok (merge_list_to_stack R1 st l).
Proof.
  revert l. induction st as [|[l'|] st IH]; intros l Hst Hl; simpl.
  - split; [done|]. by repeat constructor.
  - apply Forall_cons in Hst as [Hl' Hst].
    destruct (list_merge_agree l' l Hl' Hl) as [E F].
    destruct (IH (list_merge R1 l' l) Hst F) as [E' F']. rewrite <-E. split; [by f_equal|].
    by constructor.
  - apply Forall_cons in Hst as [_ Hst]. split; [done|]. by constructor.
Qed.

Lemma merge_stack_agree st :
  stack_ok st → merge_stack R1 st = merge_stack R2 st ∧ Forall Q (merge_stack R1 st).
Proof.
  induction st as [|[l|] st IH]; intros Hst; simpl; [by split| |];
    apply Forall_cons in Hst as [Hl Hst]; destruct (IH Hst) as [E F].
  - rewrite <-E. by apply list_merge_agree.
  - done.
Qed.

Lemma sort_by_agree l : Forall Q l → sort_by c1 l = sort_by c2 l.
Proof.
  unfold sort_by, merge_sort. assert (stack_ok []) as Hst by constructor.
  revert Hst. generalize (@nil (option (list A))) as st.
  induction l as [|x l IH]; intros st Hst Hl; simpl.
  - by apply merge_stack_agree.
  - apply Forall_cons in Hl as [Hx Hl].
    destruct (merge_list_to_stack_agree st [x] Hst) as [E F]; [by constructor|].
    fold R1 R2. rewrite <-E. by apply IH.
Qed.
End agree.
