(* ===== verification/FloatRound.v ===== *)
(** * Rounding of binary32

    What rounding guarantees of a result: its exponent is one of the format,
    its mantissa fits, and it is canonical ([valid_binary]); on such values
    [total_cmp] and [partial_cmp] agree, NaN and -0.0 apart. *)

From S2P Require Import Prelude Collections F32.
From Stdlib Require Import Floats.SpecFloat.

Local Open Scope Z_scope.

Abbreviation fexp32 := (fexp 24 128) (only parsing).

Definition f32_neg_zero : f32 := S754_zero true.

(** The values an [f32] has. *)
Definition f32_valid (x : f32) : Prop := valid_binary 24 128 x = true.

(** ** Digits *)

Lemma digits2_bounds p : 2 ^ (Z.pos (digits2_pos p) - 1) <= Z.pos p < 2 ^ Z.pos (digits2_pos p).
Proof.
  induction p as [p IH|p IH|]; cbn [digits2_pos]; [..|done];
    rewrite Pos2Z.inj_succ; replace (Z.succ (Z.pos (digits2_pos p)) - 1) with
      (Z.succ (Z.pos (digits2_pos p) - 1)) by lia; rewrite !Z.pow_succ_r by lia; lia.
Qed.

Lemma digits2_unique p d : 2 ^ (d - 1) <= Z.pos p < 2 ^ d → 0 < d → Z.pos (digits2_pos p) = d.
Proof.
  intros [Hl Hu] Hd. destruct (digits2_bounds p) as [Hl' Hu'].
  apply Z.le_antisymm; apply Z.lt_succ_r.
  - assert (2 ^ (Z.pos (digits2_pos p) - 1) < 2 ^ d) as Hlt by lia.
    apply Z.pow_lt_mono_r_iff in Hlt; lia.
  - assert (2 ^ (d - 1) < 2 ^ Z.pos (digits2_pos p)) as Hlt by lia.
    apply Z.pow_lt_mono_r_iff in Hlt; lia.
Qed.

Lemma digits2_mono p q : Z.pos p <= Z.pos q → Z.pos (digits2_pos p) <= Z.pos (digits2_pos q).
Proof.
  intros Hpq. destruct (digits2_bounds p) as [Hl _], (digits2_bounds q) as [_ Hu].
  assert (2 ^ (Z.pos (digits2_pos p) - 1) < 2 ^ Z.pos (digits2_pos q)) as Hlt by lia.
  apply Z.pow_lt_mono_r_iff in Hlt; lia.
Qed.

Lemma fexp_eq e : fexp32 e = Z.max (e - 24) (-149).
Proof. done. Qed.

(** ** Shifting right *)

Lemma iter_pos_nat {A} (f : A → A) p x : iter_pos f p x = Nat.iter (Pos.to_nat p) f x.
Proof.
  revert x. induction p as [p IH|p IH|]; intros x; cbn [iter_pos]; [..|done].
  - rewrite !IH, <-Nat.iter_add, <-Nat.iter_succ_r. f_equal. lia.
  - rewrite !IH, <-Nat.iter_add. f_equal. lia.
Qed.

Lemma shr_1_div r : 0 <= shr_m r → shr_m (shr_1 r) = shr_m r / 2.
Proof.
  destruct r as [[|[p|p|]|p] b s]; simpl; intros H; [done| | |done|lia].
  - apply Z.div_unique with 1; lia.
  - apply Z.div_unique with 0; lia.
Qed.

Lemma shr_iter_div n r : 0 <= shr_m r → shr_m (Nat.iter n shr_1 r) = shr_m r / 2 ^ Z.of_nat n.
Proof.
  intros Hr. induction n as [|n IH]; [by rewrite Z.div_1_r|].
  change (shr_m (shr_1 (Nat.iter n shr_1 r)) = shr_m r / 2 ^ Z.of_nat (S n)). rewrite shr_1_div.
  - rewrite IH, Z.div_div by lia. f_equal. rewrite Nat2Z.inj_succ, Z.pow_succ_r by lia. lia.
  - rewrite IH. apply Z.div_pos; [done|]. apply Z.pow_pos_nonneg; lia.
Qed.

Lemma shr_record_of_loc_m m l : shr_m (shr_record_of_loc m l) = m.
Proof. by destruct l as [|[]]. Qed.

(** Shifting to the exponent the format asks for. *)
Lemma shr_fexp_spec m e l :
  0 <= m →
  let '(r, e') := shr_fexp 24 128 m e l in
  let n := Z.max 0 (fexp32 (Zdigits2 m + e) - e) in
  shr_m r = m / 2 ^ n ∧ e' = e + n.
Proof.
  intros Hm. unfold shr_fexp, shr. destruct (fexp32 (Zdigits2 m + e) - e) as [|k|k] eqn:Hn.
  - rewrite shr_record_of_loc_m, Z.max_id, Z.div_1_r. lia.
  - rewrite iter_pos_nat, shr_iter_div, shr_record_of_loc_m by (by rewrite shr_record_of_loc_m).
    rewrite Z.max_r by lia. by rewrite positive_nat_Z.
  - rewrite shr_record_of_loc_m, Z.max_l, Z.div_1_r by lia. lia.
Qed.

(** Exponents never go below the least one. *)
Lemma shr_fexp_fine m e l : -149 <= (shr_fexp 24 128 m e l).2.
Proof.
  unfold shr_fexp, shr. pose proof (fexp_eq (Zdigits2 m + e)) as Hf.
  destruct (fexp32 (Zdigits2 m + e) - e) eqn:Hn; simpl; lia.
Qed.

(** Where the exponent is not above what the format asks for, the result has
    exactly the exponent its digits ask for. *)
Lemma shr_fexp_canonical p e l :
  e <= fexp32 (Z.pos (digits2_pos p) + e) →
  let '(r, e') := shr_fexp 24 128 (Z.pos p) e l in
  -149 <= e' ∧ 0 <= shr_m r
  ∧ ∀ p', shr_m r = Z.pos p' → fexp32 (Z.pos (digits2_pos p') + e') = e'.
Proof.
  intros He. pose proof (shr_fexp_spec (Z.pos p) e l ltac:(lia)) as Hs.
  pose proof (shr_fexp_fine (Z.pos p) e l) as Hf.
  destruct (shr_fexp 24 128 (Z.pos p) e l) as [r e']. cbn [Zdigits2] in Hs. destruct Hs as [-> ->].
  rewrite fexp_eq in *. set (d := Z.pos (digits2_pos p)) in *.
  rewrite Z.max_r in * by lia. set (n := Z.max (d + e - 24) (-149) - e) in *.
  assert (0 < 2 ^ n) by (apply Z.pow_pos_nonneg; lia).
  split_and!; [done|apply Z.div_pos; lia|].
  intros p' Hp'. destruct (digits2_bounds p) as [Hl Hu]. fold d in Hl, Hu.
  assert (n < d) as Hnd.
  { destruct (Z.lt_ge_cases n d) as [|Hge]; [done|exfalso].
    rewrite Z.div_small in Hp'; [done|]. split; [lia|].
    assert (2 ^ d <= 2 ^ n) by (apply Z.pow_le_mono_r; lia). lia. }
  assert (Z.pos (digits2_pos p') = d - n) as Hd'.
  { apply digits2_unique; [|lia]. rewrite <-Hp'. split.
    - apply Z.div_le_lower_bound; [done|]. rewrite <-Z.pow_add_r by lia.
      by replace (n + (d - n - 1)) with (d - 1) by lia.
    - apply Z.div_lt_upper_bound; [done|]. rewrite <-Z.pow_add_r by lia.
      by replace (n + (d - n)) with d by lia. }
  rewrite fexp_eq, Hd'. lia.
Qed.

(** ** Results of rounding are valid *)

Lemma round_nearest_even_bounds m l : m <= round_nearest_even m l <= m + 1.
Proof. destruct l as [|[]]; simpl; [..|case_match| |]; lia. Qed.

(** The first shift ends at the exponent asked for, and rounding up does not
    ask for a lower one. *)
Lemma rounded_exponent m e l :
  0 <= m → e <= fexp32 (Zdigits2 m + e) →
  let '(r, e') := shr_fexp 24 128 m e l in
  0 <= shr_m r ∧ ∀ p l', round_nearest_even (shr_m r) l' = Z.pos p → e' <= fexp32 (Z.pos (digits2_pos p) + e').
Proof.
  intros Hm He. destruct m as [|p|p]; [| |lia].
  - pose proof (shr_fexp_spec 0 e l Hm) as Hs. destruct (shr_fexp 24 128 0 e l) as [r e'].
    destruct Hs as [-> ->]. rewrite Z.div_0_l by (apply Z.pow_nonzero; lia). split; [done|].
    intros p' l' _. cbn [Zdigits2] in *. rewrite !fexp_eq in *. lia.
  - pose proof (shr_fexp_canonical p e l He) as Hc. pose proof (shr_fexp_spec (Z.pos p) e l ltac:(lia)) as Hs.
    destruct (shr_fexp 24 128 (Z.pos p) e l) as [r e']. destruct Hc as (Hf & Hr & Hcan), Hs as [Hdiv Heq].
    split; [done|]. intros p' l' Hp'. destruct (round_nearest_even_bounds (shr_m r) l') as [Hlow _].
    destruct (shr_m r) as [|q|q] eqn:Hq; [| |lia].
    + cbn [Zdigits2] in *. set (d := Z.pos (digits2_pos p)) in *. rewrite fexp_eq in *.
      destruct (digits2_bounds p) as [Hlo _]. fold d in Hlo.
      assert (2 ^ (d - 1) < 2 ^ Z.max 0 (Z.max (d + e - 24) (-149) - e)) as Hlt.
      { apply Z.le_lt_trans with (Z.pos p); [done|].
        symmetry in Hdiv. apply Z.div_small_iff in Hdiv; [lia|]. apply Z.pow_nonzero; lia. }
      apply Z.pow_lt_mono_r_iff in Hlt; lia.
    + rewrite <-(Hcan q eq_refl) at 1. rewrite !fexp_eq.
      pose proof (digits2_mono q p'). lia.
Qed.

Lemma round_aux_valid sx m e l :
  0 <= m → e <= fexp32 (Zdigits2 m + e) → f32_valid (binary_round_aux 24 128 sx m e l).
Proof.
  intros Hm He. unfold binary_round_aux.
  pose proof (rounded_exponent m e l Hm He) as H1.
  destruct (shr_fexp 24 128 m e l) as [r e']. destruct H1 as [Hr H1].
  pose proof (λ p, H1 p (loc_of_shr_record r)) as H1'.
  destruct (round_nearest_even_bounds (shr_m r) (loc_of_shr_record r)) as [Hlow _].
  destruct (round_nearest_even (shr_m r) (loc_of_shr_record r)) as [|p|p]; [| |lia].
  - pose proof (shr_fexp_spec 0 e' loc_Exact ltac:(lia)) as Hs.
    destruct (shr_fexp 24 128 0 e' loc_Exact) as [r' e'']. destruct Hs as [-> _].
    by rewrite Z.div_0_l by (apply Z.pow_nonzero; lia).
  - pose proof (shr_fexp_canonical p e' loc_Exact (H1' p eq_refl)) as Hc.
    destruct (shr_fexp 24 128 (Z.pos p) e' loc_Exact) as [r' e'']. destruct Hc as (_ & Hr' & Hcan).
    destruct (shr_m r') as [|q|q]; [done| |lia]. case_match; [|done].
    unfold f32_valid, valid_binary, bounded, canonical_mantissa.
    rewrite (Hcan q eq_refl), Z.eqb_refl. done.
Qed.

(** ** Quotients *)

Lemma div_core_exponent m1 e1 m2 e2 q e' l :
  SFdiv_core_binary 24 128 (Z.pos m1) e1 (Z.pos m2) e2 = (q, e', l) →
  0 <= q ∧ e' <= fexp32 (Zdigits2 q + e').
Proof.
  unfold SFdiv_core_binary. cbn [Zdigits2].
  set (d1 := Z.pos (digits2_pos m1)). set (d2 := Z.pos (digits2_pos m2)).
  set (e0 := Z.min (fexp32 (d1 + e1 - (d2 + e2))) (e1 - e2)).
  set (s := e1 - e2 - e0). assert (0 <= s) as Hs by lia.
  assert (match s with Z0 => Z.pos m1 | Z.pos _ => Z.shiftl (Z.pos m1) s | Z.neg _ => 0 end
    = Z.pos m1 * 2 ^ s) as ->.
  { destruct s; [lia| |lia]. apply Z.shiftl_mul_pow2. lia. }
  pose proof (Z_div_mod (Z.pos m1 * 2 ^ s) (Z.pos m2) ltac:(lia)) as Hd.
  destruct (Z.div_eucl _ _) as [q' r]. destruct Hd as [Hq Hr]. intros [= <- <- _].
  assert (0 < 2 ^ s) by (apply Z.pow_pos_nonneg; lia).
  assert (0 <= q') as Hq0.
  { assert (0 < Z.pos m1 * 2 ^ s) by lia. destruct (Z.lt_ge_cases q' 0); [|done].
    assert (Z.pos m2 * q' <= Z.pos m2 * (-1)) by (apply Z.mul_le_mono_nonneg_l; lia). lia. }
  split; [done|].
  assert (d1 + s - d2 <= Zdigits2 q') as Hdig.
  { destruct (digits2_bounds m1) as [Hl1 _], (digits2_bounds m2) as [_ Hu2]. fold d1 in Hl1. fold d2 in Hu2.
    destruct q' as [|p|p]; [| |lia].
    - cbn [Zdigits2]. destruct (Z.le_gt_cases (d1 + s - d2) 0) as [|Hgt]; [done|exfalso].
      assert (2 ^ d2 <= 2 ^ (d1 - 1 + s)) as Hle by (apply Z.pow_le_mono_r; lia).
      rewrite Z.pow_add_r in Hle by lia. nia.
    - cbn [Zdigits2]. destruct (digits2_bounds p) as [_ Hup].
      assert (2 ^ (d1 - 1 + s) < 2 ^ (d2 + Z.pos (digits2_pos p))) as Hlt.
      { rewrite !Z.pow_add_r by lia. nia. }
      apply Z.pow_lt_mono_r_iff in Hlt; lia. }
  assert (e0 <= fexp32 (d1 + e1 - (d2 + e2))) as Hle by lia. rewrite fexp_eq in Hle |- *. unfold s in Hdig. lia.
Qed.

Lemma div_valid x y : f32_valid (f32_div x y).
Proof.
  destruct x as [sx|sx| |sx mx ex], y as [sy|sy| |sy my ey]; try done.
  unfold f32_div, SFdiv. destruct (SFdiv_core_binary _ _ _ _ _ _) as [[q e'] l] eqn:Hq.
  apply div_core_exponent in Hq as [Hq He]. by apply round_aux_valid.
Qed.

(** ** The two comparisons *)

Lemma valid_finite s m e :
  f32_valid (S754_finite s m e) →
  Z.pos m < 2 ^ 24 ∧ -149 <= e <= 104 ∧ (e = -149 ∨ 2 ^ 23 <= Z.pos m).
Proof.
  unfold f32_valid, valid_binary, bounded, canonical_mantissa. rewrite andb_true_iff, Z.eqb_eq, Z.leb_le.
  rewrite fexp_eq. intros [Hc He]. destruct (digits2_bounds m) as [Hl Hu].
  set (d := Z.pos (digits2_pos m)) in *. assert (d <= 24) as Hd by lia. split_and!; [|lia|lia|].
  - assert (2 ^ d <= 2 ^ 24) by (apply Z.pow_le_mono_r; lia). lia.
  - destruct (Z.eq_dec e (-149)) as [|Hne]; [by left|right]. by replace 23 with (d - 1) by lia.
Qed.

(** The magnitude in units of the least one. *)
Definition magnitude (m : positive) (e : Z) : Z := Z.shiftl (Z.pos m) (e + 149).

Lemma magnitude_eq m e : -149 <= e → magnitude m e = Z.pos m * 2 ^ (e + 149).
Proof. intros He. apply Z.shiftl_mul_pow2. lia. Qed.

Lemma magnitude_bounds s m e : f32_valid (S754_finite s m e) → 0 < magnitude m e < 2 ^ 299.
Proof.
  intros (Hm & He & _)%valid_finite. rewrite magnitude_eq by lia.
  assert (0 < 2 ^ (e + 149)) by (apply Z.pow_pos_nonneg; lia).
  assert (2 ^ (e + 149) <= 2 ^ 253) by (apply Z.pow_le_mono_r; lia).
  split; [lia|]. apply Z.lt_le_trans with (2 ^ 24 * 2 ^ 253); [nia|].
  rewrite <-Z.pow_add_r by lia. apply Z.pow_le_mono_r; lia.
Qed.

(** A larger exponent is a larger magnitude. *)
Lemma magnitude_exponent s1 m1 e1 s2 m2 e2 :
  f32_valid (S754_finite s1 m1 e1) → f32_valid (S754_finite s2 m2 e2) → e1 < e2 →
  magnitude m1 e1 < magnitude m2 e2.
Proof.
  intros (Hm1 & He1 & _)%valid_finite (Hm2 & He2 & Hn2)%valid_finite Hlt.
  rewrite !magnitude_eq by lia. destruct Hn2 as [->|Hn2]; [lia|].
  replace (e2 + 149) with (e1 + 149 + (e2 - e1)) by lia. rewrite (Z.pow_add_r 2 (e1 + 149) (e2 - e1)) by lia.
  assert (0 < 2 ^ (e1 + 149)) by (apply Z.pow_pos_nonneg; lia).
  assert (2 ^ 1 <= 2 ^ (e2 - e1)) by (apply Z.pow_le_mono_r; lia).
  set (A := 2 ^ (e1 + 149)) in *. set (B := 2 ^ (e2 - e1)) in *. change (2 ^ 1) with 2 in *.
  assert (Z.pos m1 < Z.pos m2 * B) as Hm by (change (2 ^ 24) with (2 ^ 23 * 2) in Hm1; nia).
  apply (Z.mul_lt_mono_pos_r A) in Hm; lia.
Qed.

Lemma magnitude_compare s1 m1 e1 s2 m2 e2 :
  f32_valid (S754_finite s1 m1 e1) → f32_valid (S754_finite s2 m2 e2) →
  (magnitude m1 e1 ?= magnitude m2 e2)
  = match e1 ?= e2 with Lt => Lt | Gt => Gt | Eq => Pos.compare_cont Eq m1 m2 end.
Proof.
  intros H1 H2. destruct (Z.compare_spec e1 e2) as [->|Hlt|Hgt].
  - apply valid_finite in H2 as (_ & He & _). rewrite !magnitude_eq by lia.
    assert (0 < 2 ^ (e2 + 149)) by (apply Z.pow_pos_nonneg; lia).
    change (Pos.compare_cont Eq m1 m2) with (Z.pos m1 ?= Z.pos m2).
    destruct (Z.compare_spec (Z.pos m1) (Z.pos m2)) as [Heq|Hlt|Hgt].
    + rewrite Heq. apply Z.compare_refl.
    + apply Z.compare_lt_iff. nia.
    + apply Z.compare_gt_iff. nia.
  - apply Z.compare_lt_iff. by eapply magnitude_exponent.
  - apply Z.compare_gt_iff. by eapply magnitude_exponent.
Qed.

(** Apart from NaN and -0.0, [total_cmp] is [partial_cmp]. *)
Definition plain (x : f32) : Prop := f32_valid x ∧ x ≠ S754_nan ∧ x ≠ f32_neg_zero.

Lemma total_cmp_partial x y : plain x → plain y → SFcompare x y = Some (f32_total_cmp x y).
Proof.
  intros (Hx & Hnx & Hzx) (Hy & Hny & Hzy). unfold f32_total_cmp.
  destruct x as [[]|[]| |[] m1 e1], y as [[]|[]| |[] m2 e2]; try done; cbn [SFcompare f32_key];
    repeat match goal with |- context [Z.shiftl (Z.pos ?m) (?e + 149)] =>
      change (Z.shiftl (Z.pos m) (e + 149)) with (magnitude m e) end;
    try (pose proof (magnitude_bounds _ _ _ Hx) as Bx); try (pose proof (magnitude_bounds _ _ _ Hy) as By);
    f_equal; symmetry.
  all: assert (2 ^ 299 < 2 ^ 300 - 2) as Hbig by done; set (P9 := 2 ^ 299) in *; set (P0 := 2 ^ 300) in *.
  all: try (apply Z.compare_lt_iff; lia).
  all: try (apply Z.compare_gt_iff; lia).
  - assert (∀ a b : Z, (-1 - a ?= -1 - b) = CompOpp (a ?= b)) as Hopp.
    { intros a b. destruct (Z.compare_spec a b) as [->|?|?]; [apply Z.compare_refl|apply Z.compare_gt_iff|apply Z.compare_lt_iff]; lia. }
    rewrite Hopp, (magnitude_compare _ _ _ _ _ _ Hx Hy). by destruct (e1 ?= e2).
  - by rewrite (magnitude_compare _ _ _ _ _ _ Hx Hy).
Qed.

Lemma f32_lt_total x y : plain x → plain y → f32_lt x y = true ↔ f32_total_cmp x y = Lt.
Proof.
  intros Hx Hy. unfold f32_lt. rewrite total_cmp_partial by done. by destruct (f32_total_cmp x y).
Qed.
