(* ===== verification/TopK.v ===== *)
(** * Bounded top-k collectors

    [BinaryHeap<Reverse<T>>] as its [into_sorted_vec], best element first;
    [peek] and [pop] are at the worst one.  The bounded collectors of
    [vector_db/common.rs] ([TopK]) and of [rocksdb_storage/vectors.rs] offer
    candidates one by one and keep the [k] best. *)

From S2P Require Import Prelude Collections F32 FloatRound.

Local Open Scope list_scope.

(** [Ord]: the comparison is total, and flips with its arguments. *)
Class TotalCmp {A} (cmp : A → A → comparison) : Prop := {
  cmp_preorder :: TotalPreorder cmp;
  cmp_opp x y : cmp y x = CompOpp (cmp x y);
}.

(** [Reverse]. *)
Definition best_first {A} (cmp : A → A → comparison) (x y : A) : comparison := cmp y x.

Section heap.
Context {A : Type} (cmp : A → A → comparison).

Fixpoint heap_push (x : A) (heap : list A) : list A :=
  match heap with
  | [] => [x]
  | y :: heap' => match cmp y x with Lt => x :: heap | _ => y :: heap_push x heap' end
  end.

Definition heap_peek (heap : list A) : option A := last heap.

Definition heap_pop (heap : list A) : list A := take (length heap - 1) heap.

(** Pushes while there is room, else replaces the worst one if [beats]. *)
Definition heap_offer (beats : A → A → bool) (k : nat) (heap : list A) (x : A) : list A :=
  if (length heap <? k)%nat then heap_push x heap
  else match heap_peek heap with
       | Some worst => if beats x worst then heap_push x (heap_pop heap) else heap
       | None => heap
       end.

(** [Ordering::is_gt]. *)
Definition cmp_gt (x y : A) : bool := match cmp x y with Gt => true | _ => false end.

Context `{TC : !TotalCmp cmp}.

Lemma total_le x y : cmp_le cmp x y ∨ cmp_le cmp y x.
Proof. apply (@cmp_le_total _ cmp cmp_preorder). Qed.

Lemma trans_le x y z : cmp_le cmp x y → cmp_le cmp y z → cmp_le cmp x z.
Proof. apply (@cmp_le_trans _ cmp cmp_preorder). Qed.

Lemma best_first_total : TotalCmp (best_first cmp).
Proof.
  split; [split|].
  - intros x y. unfold cmp_le, best_first. destruct (total_le x y) as [H|H]; auto.
  - intros x y z. unfold cmp_le, best_first. intros Hxy Hyz. by apply (trans_le z y x).
  - intros x y. apply (cmp_opp (cmp:=cmp) y x).
Qed.

Lemma cmp_lt_le_trans x y z : cmp x y = Lt → cmp_le cmp y z → cmp x z = Lt.
Proof.
  intros Hxy Hyz. destruct (cmp x z) eqn:Hxz; [exfalso|done|exfalso].
  - assert (cmp_le cmp z x) as Hzx by (unfold cmp_le; rewrite cmp_opp, Hxz; done).
    assert (cmp_le cmp y x) as Hyx by by apply (trans_le y z x). apply Hyx. by rewrite cmp_opp, Hxy.
  - assert (cmp_le cmp z x) as Hzx by (unfold cmp_le; rewrite cmp_opp, Hxz; done).
    assert (cmp_le cmp y x) as Hyx by by apply (trans_le y z x). apply Hyx. by rewrite cmp_opp, Hxy.
Qed.

Lemma cmp_le_lt_trans x y z : cmp_le cmp x y → cmp y z = Lt → cmp x z = Lt.
Proof.
  intros Hxy Hyz. destruct (cmp x z) eqn:Hxz; [exfalso|done|exfalso].
  all: assert (cmp_le cmp z x) as Hzx by (unfold cmp_le; rewrite cmp_opp, Hxz; done).
  all: assert (cmp_le cmp z y) as Hzy by by apply (trans_le z x y).
  all: apply Hzy; by rewrite cmp_opp, Hyz.
Qed.

Abbreviation sorted := (StronglySorted (cmp_le (best_first cmp))) (only parsing).

Lemma heap_push_perm x heap : heap_push x heap ≡ₚ x :: heap.
Proof.
  induction heap as [|y heap IH]; [done|]. simpl. destruct (cmp y x); [|done|];
    by rewrite IH, Permutation_swap.
Qed.

Lemma heap_push_sorted x heap : sorted heap → sorted (heap_push x heap).
Proof.
  induction heap as [|y heap IH]; intros Hs; [by repeat constructor|].
  pose proof Hs as [Hs' Hy]%StronglySorted_inv. simpl.
  assert (cmp y x ≠ Lt → sorted (y :: heap_push x heap)) as Hge.
  { intros Hyx. constructor; [by apply IH|]. rewrite (heap_push_perm x heap). constructor; [|done].
    unfold cmp_le, best_first. rewrite cmp_opp. by destruct (cmp y x). }
  destruct (cmp y x) eqn:Hyx; [by apply Hge| |by apply Hge].
  assert (cmp_le (best_first cmp) x y) as Hle by (unfold cmp_le, best_first; by rewrite Hyx).
  constructor; [done|]. constructor; [done|].
  eapply Forall_impl; [exact Hy|]. intros z Hz. unfold cmp_le, best_first in *. by apply (trans_le z y x).
Qed.

(** ** Offering one candidate *)

Lemma take_heap_push k x heap : take k (heap_push x heap) = take k (heap_push x (take k heap)).
Proof.
  revert heap. induction k as [|k IH]; intros heap; [done|]. destruct heap as [|y heap]; [done|].
  rewrite firstn_cons. cbn [heap_push]. destruct (cmp y x); rewrite !firstn_cons.
  - f_equal. apply IH.
  - f_equal. destruct k as [|k]; [done|]. rewrite !firstn_cons, take_take, Nat.min_l by lia.
    done.
  - f_equal. apply IH.
Qed.

Lemma last_le heap y w : sorted (y :: heap) → last (y :: heap) = Some w → cmp_le cmp w y.
Proof.
  intros [_ Hy]%StronglySorted_inv Hw. destruct heap as [|z heap].
  - injection Hw as ->. unfold cmp_le. pose proof (cmp_opp w w) as H. by destruct (cmp w w).
  - rewrite last_cons_cons in Hw. apply last_Some in Hw as [l Heq]. rewrite Heq, Forall_forall in Hy.
    apply (Hy w), elem_of_app. right. by left.
Qed.

Lemma heap_push_cons x y heap :
  heap_push x (y :: heap) = match cmp y x with Lt => x :: y :: heap | _ => y :: heap_push x heap end.
Proof. done. Qed.

(** A full heap: the new one replaces the worst, or is worse than all. *)
Lemma heap_push_full x heap w :
  sorted heap → last heap = Some w →
  take (length heap) (heap_push x heap)
  = if decide (cmp w x = Lt) then heap_push x (heap_pop heap) else heap.
Proof.
  induction heap as [|y heap IH]; intros Hs Hw; [done|].
  pose proof (last_le _ _ _ Hs Hw) as Hwy. pose proof Hs as [Hs' _]%StronglySorted_inv.
  destruct heap as [|z heap].
  { injection Hw as <-. cbn [heap_push length]. destruct (cmp y x); by case_decide. }
  assert (length (y :: z :: heap) - 1 = S (length (z :: heap) - 1))%nat as Hlen by (simpl; lia).
  unfold heap_pop. rewrite Hlen, firstn_cons, (heap_push_cons x y (z :: heap)), (heap_push_cons x y (take _ _)).
  change (length (y :: z :: heap)) with (S (length (z :: heap))). destruct (cmp y x) eqn:Hyx.
  - rewrite firstn_cons, (IH Hs' Hw). by case_decide.
  - rewrite decide_True by by eapply cmp_le_lt_trans. rewrite firstn_cons.
    change (length (z :: heap)) with (S (length heap)). rewrite firstn_cons. simpl. by rewrite Nat.sub_0_r.
  - rewrite firstn_cons, (IH Hs' Hw). by case_decide.
Qed.

Lemma heap_offer_spec beats k heap seen x :
  (0 < k)%nat → sorted seen → heap = take k seen →
  (∀ w, w ∈ heap → beats x w = cmp_gt x w) →
  heap_offer beats k heap x = take k (heap_push x seen).
Proof.
  intros Hk Hs -> Hb. unfold heap_offer, heap_peek. rewrite take_heap_push.
  destruct (Nat.ltb_spec (length (take k seen)) k) as [Hlt|Hge].
  - symmetry. apply take_ge. rewrite heap_push_perm. simpl. lia.
  - assert (length (take k seen) = k) as Hlen by (rewrite length_take in *; lia).
    assert (sorted (take k seen)) as Hst.
    { apply (StronglySorted_sublist _ _ seen); [apply sublist_take|done]. }
    destruct (last (take k seen)) as [w|] eqn:Hw.
    + trans (take (length (take k seen)) (heap_push x (take k seen))); [|by rewrite Hlen].
      rewrite (heap_push_full x _ w) by done.
      rewrite Hb by by apply last_Some_elem_of. unfold cmp_gt. rewrite (cmp_opp w x).
      destruct (cmp w x); by case_decide.
    + apply last_None in Hw. rewrite Hw in Hlen. simpl in Hlen. lia.
Qed.

(** ** Offering all *)

(** Where the comparison tells all apart, the sorted list is unique. *)
Lemma sorted_perm_eq (l l' : list A) :
  sorted l → sorted l' → l ≡ₚ l' →
  (∀ x y, x ∈ l → y ∈ l → cmp x y = Eq → x = y) → l = l'.
Proof.
  revert l'. induction l as [|x l IH]; intros l' Hs Hs' Hp Hinj; [by apply Permutation_nil in Hp|].
  destruct l' as [|y l']; [by symmetry in Hp; apply Permutation_nil in Hp|].
  pose proof Hs as [Hs1 Hx]%StronglySorted_inv. pose proof Hs' as [Hs1' Hy]%StronglySorted_inv.
  assert (x = y) as <-.
  { assert (y ∈ x :: l) as Hyl by (rewrite Hp; by left).
    assert (x ∈ y :: l') as Hxl by (rewrite <-Hp; by left).
    apply elem_of_cons in Hyl as [->|Hyl]; [done|]. apply elem_of_cons in Hxl as [->|Hxl]; [done|].
    rewrite Forall_forall in Hx. rewrite Forall_forall in Hy.
    specialize (Hx y Hyl). specialize (Hy x Hxl). unfold cmp_le, best_first in Hx, Hy.
    apply Hinj; [by left|by right|]. rewrite cmp_opp in Hx. by destruct (cmp x y). }
  f_equal. apply IH; [done..| |].
  - by apply Permutation_cons_inv in Hp.
  - intros a b Ha Hb. apply Hinj; by right.
Qed.

Definition pushed (xs : list A) : list A := foldl (flip heap_push) [] xs.

Lemma pushed_spec xs acc :
  sorted acc → sorted (foldl (flip heap_push) acc xs) ∧ foldl (flip heap_push) acc xs ≡ₚ xs ++ acc.
Proof.
  revert acc. induction xs as [|x xs IH]; intros acc Hs; [done|]. csimpl.
  destruct (IH (heap_push x acc)) as [Hs' Hp]; [by apply heap_push_sorted|].
  split; [done|]. rewrite Hp, heap_push_perm. symmetry. apply Permutation_middle.
Qed.

Lemma pushed_sort xs :
  (∀ x y, x ∈ xs → y ∈ xs → cmp x y = Eq → x = y) → pushed xs = sort_by (best_first cmp) xs.
Proof.
  intros Hinj. destruct (pushed_spec xs []) as [Hs Hp]; [constructor|]. rewrite app_nil_r in Hp.
  apply sorted_perm_eq; [done|apply sort_by_sorted, best_first_total| |].
  - unfold pushed. by rewrite Hp, sort_by_perm.
  - unfold pushed. intros x y. rewrite Hp. apply Hinj.
Qed.

(** [beats] need only agree for a candidate and the earlier ones. *)
Lemma heap_offers_spec beats k xs :
  (0 < k)%nat → StronglySorted (λ y x, beats x y = cmp_gt x y) xs →
  foldl (heap_offer beats k) [] xs = take k (pushed xs).
Proof.
  intros Hk Hb. unfold pushed.
  assert (∀ seen rest, StronglySorted (λ y x, beats x y = cmp_gt x y) rest →
    (∀ x y, x ∈ rest → y ∈ seen → beats x y = cmp_gt x y) → sorted seen →
    foldl (heap_offer beats k) (take k seen) rest = take k (foldl (flip heap_push) seen rest)) as H.
  { intros seen rest. revert seen. induction rest as [|x rest IH]; intros seen Hr Hd Hs; [done|]. csimpl.
    apply StronglySorted_inv in Hr as [Hr Hx]. rewrite Forall_forall in Hx.
    rewrite (heap_offer_spec beats k (take k seen) seen x); [|done..|].
    - apply IH; [done| |by apply heap_push_sorted].
      intros z y Hz. rewrite heap_push_perm. intros [->|Hy]%elem_of_cons; [by apply Hx|].
      apply Hd; [by right|done].
    - intros w Hw. apply Hd; [by left|]. by eapply subseteq_take. }
  specialize (H [] xs). rewrite take_nil in H. apply H; [done| |constructor]. by intros x y _ ?%elem_of_nil.
Qed.
End heap.

#[global] Existing Instance best_first_total.

(** ** Scores *)

(** The order of both collectors: the similarity, then the lower number. *)
Definition score_cmp {A} (similarity : A → f32) (number : A → N) (x y : A) : comparison :=
  then_with (f32_total_cmp (similarity x) (similarity y)) (N.compare (number y) (number x)).

#[global] Instance score_cmp_total {A} (similarity : A → f32) (number : A → N) :
  TotalCmp (score_cmp similarity number).
Proof.
  assert (∀ x y, score_cmp similarity number y x = CompOpp (score_cmp similarity number x y)) as Hopp.
  { intros x y. unfold score_cmp, f32_total_cmp. rewrite (Z.compare_antisym (f32_key (similarity x))).
    rewrite (N.compare_antisym (number y)). by destruct (_ ?= _)%Z. }
  split; [split|done].
  - intros x y. unfold cmp_le. rewrite (Hopp x y). destruct (score_cmp similarity number x y); auto.
  - intros x y z. unfold cmp_le, score_cmp, f32_total_cmp, then_with.
    destruct (Z.compare_spec (f32_key (similarity x)) (f32_key (similarity y))),
      (Z.compare_spec (f32_key (similarity y)) (f32_key (similarity z))),
      (Z.compare_spec (f32_key (similarity x)) (f32_key (similarity z))); try done; try lia.
    rewrite !N.compare_le_iff. lia.
Qed.

Lemma score_cmp_eq {A} (similarity : A → f32) (number : A → N) x y :
  score_cmp similarity number x y = Eq → number x = number y.
Proof.
  unfold score_cmp, then_with. destruct (f32_total_cmp _ _); [|done..].
  by intros ->%N.compare_eq_iff.
Qed.
