(* ===== verification/HnswIndex.v ===== *)
(** * The adjacency lists of the vector index

    [vector_db/hnsw_index.rs]: single-layer adjacency lists, the layer of each
    node and one packed word with the entry point.  A call runs alone, so its
    compare-and-swap succeeds; the loop of [reselect_entry_point] re-validates
    and therefore takes fuel.  [DashMap]s iterate through [MapOrder]. *)

From stdpp Require Import gmap.
From S2P Require Import Prelude Collections.

Local Open Scope list_scope.

Definition u32_max : N := u32_mod - 1.

Record HnswIndex := mkHnswIndex {
  connections : gmap N (list N);
  entry_state : N;
  layers : gmap N N;
}.

(** [layer as u32] of a [usize]. *)
Definition layer_u32 (layer : N) : N := (layer `mod` u32_mod)%N.

Definition pack_state (entry_point max_layer : N) : N := N.lor (N.shiftl entry_point 32) max_layer.

Definition unpack_state (state : N) : N * N :=
  ((N.shiftr state 32 `mod` u32_mod)%N, N.land state 4294967295).

#[global] Arguments pack_state : simpl never.
#[global] Arguments unpack_state : simpl never.
#[global] Arguments layer_u32 : simpl never.

Definition HnswIndex_new : HnswIndex := mkHnswIndex ∅ (pack_state u32_max 0) ∅.

Definition get_entry_point (h : HnswIndex) : option N :=
  let '(entry_point, _) := unpack_state (entry_state h) in
  if (entry_point =? u32_max)%N then None else Some entry_point.

#[global] Arguments get_entry_point : simpl never.

Definition with_entry (state : N) (h : HnswIndex) : HnswIndex := mkHnswIndex (connections h) state (layers h).

(** [add_vector]: the loop runs once. *)
Definition hnsw_add_vector (vector_id layer : N) (conns : list N) (h : HnswIndex) : HnswIndex :=
  let h := mkHnswIndex (<[vector_id := conns]> (connections h)) (entry_state h) (<[vector_id := layer]> (layers h)) in
  let '(current_ep, current_max) := unpack_state (entry_state h) in
  if (current_ep =? u32_max)%N || (current_max <=? layer_u32 layer)%N
  then with_entry (pack_state vector_id (N.max current_max (layer_u32 layer))) h
  else h.

Section order.
Context `{MO : MapOrder}.

(** One turn of the scan for the best node, as (layer, id). *)
Definition better_node (best : option (N * N)) (entry : N * N) : option (N * N) :=
  let candidate := (layer_u32 entry.2, entry.1) in
  match best with
  | Some (layer, id) =>
    if (candidate.1 <? layer)%N || ((layer =? candidate.1)%N && (id <? candidate.2)%N)
    then Some (layer, id) else Some candidate
  | None => Some candidate
  end.

Definition best_node (h : HnswIndex) : option (N * N) := foldl better_node None (iter_order (layers h)).

Fixpoint reselect_entry_point (fuel : nat) (h : HnswIndex) : option HnswIndex :=
  match fuel with
  | O => None
  | S fuel =>
    let '(current_ep, _) := unpack_state (entry_state h) in
    let settled :=
      if (current_ep =? u32_max)%N then bool_decide (layers h = ∅)
      else bool_decide (is_Some (layers h !! current_ep)) in
    if settled then Some h
    else
      let new_state := match best_node h with
                       | Some (layer, id) => pack_state id layer
                       | None => pack_state u32_max 0
                       end in
      reselect_entry_point fuel (with_entry new_state h)
  end.

(** The fuel that is enough below. *)
Definition reselect (h : HnswIndex) : HnswIndex := default h (reselect_entry_point 2 h).

Definition hnsw_remove_vector (vector_id : N) (h : HnswIndex) : HnswIndex :=
  reselect (mkHnswIndex (filter (λ id, id ≠ vector_id) <$> base.delete vector_id (connections h))
              (entry_state h) (base.delete vector_id (layers h))).

Definition hnsw_remove_vectors (vector_ids : gset N) (h : HnswIndex) : HnswIndex :=
  if decide (vector_ids = ∅) then h
  else
    reselect (mkHnswIndex (filter (λ id, id ∉ vector_ids) <$> filter (λ e, e.1 ∉ vector_ids) (connections h))
                (entry_state h) (filter (λ e, e.1 ∉ vector_ids) (layers h))).

Definition hnsw_clear (h : HnswIndex) : HnswIndex := mkHnswIndex ∅ (pack_state u32_max 0) ∅.

Definition hnsw_len (h : HnswIndex) : nat := size (layers h).

Definition hnsw_contains (vector_id : N) (h : HnswIndex) : bool := bool_decide (is_Some (layers h !! vector_id)).

Definition node_ids (h : HnswIndex) : list N := (iter_order (layers h)).*1.

(** [None] is [false] with [out] cleared. *)
Definition connections_into (vector_id : N) (h : HnswIndex) : option (list N) := connections h !! vector_id.

(** ** The packed word *)

Lemma pack_bounds e l : (e < u32_mod → l < u32_mod → pack_state e l < u64_mod)%N.
Proof.
  intros He Hl. unfold pack_state.
  assert (N.land (N.shiftl e 32) l = 0)%N as Hd.
  { apply N.bits_inj_0. intros i. rewrite N.land_spec. destruct (N.lt_ge_cases i 32) as [Hi|Hi].
    - by rewrite N.shiftl_spec_low.
    - destruct (N.eq_dec l 0) as [->|Hnz]; [by rewrite N.bits_0, andb_false_r|].
      rewrite (N.bits_above_log2 l), andb_false_r; [done|].
      apply N.lt_le_trans with 32%N; [|done]. apply N.log2_lt_pow2; [lia|]. done. }
  rewrite <-N.lxor_lor, <-N.add_nocarry_lxor by done. rewrite N.shiftl_mul_pow2.
  unfold u32_mod, u64_mod in *. change (2 ^ 32)%N with 4294967296%N. lia.
Qed.

Lemma unpack_pack e l : (e < u32_mod → l < u32_mod → unpack_state (pack_state e l) = (e, l))%N.
Proof.
  intros He Hl.
  assert (∀ i, 32 ≤ i → N.testbit l i = false)%N as Hhigh.
  { intros i Hi. destruct (N.eq_dec l 0) as [->|Hnz]; [apply N.bits_0|].
    apply N.bits_above_log2. apply N.lt_le_trans with 32%N; [|done]. apply N.log2_lt_pow2; [lia|]. done. }
  unfold unpack_state, pack_state. f_equal.
  - rewrite N.shiftr_lor, N.shiftr_shiftl_l, N.sub_diag, N.shiftl_0_r by done.
    assert (N.shiftr l 32 = 0)%N as ->.
    { apply N.bits_inj_0. intros i. rewrite N.shiftr_spec'. apply Hhigh. lia. }
    rewrite N.lor_0_r. by apply N.mod_small.
  - change 4294967295%N with (N.ones 32). apply N.bits_inj. intros i. rewrite N.land_spec, N.lor_spec.
    destruct (N.lt_ge_cases i 32) as [Hi|Hi].
    + rewrite N.shiftl_spec_low, N.ones_spec_low by done. by rewrite andb_true_r.
    + rewrite N.ones_spec_high, andb_false_r by done. by rewrite Hhigh.
Qed.

(** ** The entry point *)

(** Nodes are below [u32_max], and the entry point is one of them while there
    are any; edges and layers have the same nodes. *)
Record hnsw_wf (h : HnswIndex) : Prop := {
  hw_word : ∃ ep ml, (ep < u32_mod)%N ∧ (ml < u32_mod)%N ∧ entry_state h = pack_state ep ml;
  hw_nodes id l : layers h !! id = Some l → (id < u32_max)%N;
  hw_dom id : is_Some (connections h !! id) ↔ is_Some (layers h !! id);
  hw_entry : match get_entry_point h with
             | Some ep => is_Some (layers h !! ep)
             | None => layers h = ∅
             end;
}.

Lemma layer_u32_lt l : (layer_u32 l < u32_mod)%N.
Proof. by apply N.mod_lt. Qed.

Lemma get_entry_pack c e l lay :
  (e < u32_mod)%N → (l < u32_mod)%N →
  get_entry_point (mkHnswIndex c (pack_state e l) lay) = if (e =? u32_max)%N then None else Some e.
Proof. intros He Hl. unfold get_entry_point. cbn [entry_state]. by rewrite unpack_pack. Qed.

(** At least as good: a higher layer, or the same and no higher id. *)
Definition beats (p q : N * N) : Prop := (q.1 < p.1 ∨ q.1 = p.1 ∧ p.2 ≤ q.2)%N.

Lemma better_nodes best es :
  foldl better_node best es = best ∧ es = [] ∨
  ∃ p, foldl better_node best es = Some p
    ∧ (best = Some p ∨ ∃ e, e ∈ es ∧ p = (layer_u32 e.2, e.1))
    ∧ (∀ q, best = Some q → beats p q) ∧ (∀ e, e ∈ es → beats p (layer_u32 e.2, e.1)).
Proof.
  revert best. induction es as [|e es IH]; intros best; [by left|]. right. cbn [foldl].
  assert (∃ p, better_node best e = Some p ∧ (best = Some p ∨ p = (layer_u32 e.2, e.1))
    ∧ (∀ q, best = Some q → beats p q) ∧ beats p (layer_u32 e.2, e.1)) as (p & Hp & Hor & Hb & He).
  { unfold better_node. destruct best as [[l id]|].
    - simpl. destruct (N.ltb_spec (layer_u32 e.2) l); [|destruct (N.eqb_spec l (layer_u32 e.2));
        [destruct (N.ltb_spec id e.1)|]]; simpl; eexists; (split; [done|]); unfold beats;
        (split; [by auto|]); (split; [intros q [= <-]|]); simpl; lia.
    - eexists. split; [done|]. split; [by right|]. split; [done|]. unfold beats. simpl. lia. }
  rewrite Hp. destruct (IH (Some p)) as [[-> ->]|(p' & -> & Hor' & Hb' & Hes')].
  - exists p. split; [done|]. split.
    + destruct Hor as [->|Hor]; [by left|]. right. exists e. split; [by left|done].
    + split; [done|]. intros x Hx. apply list_elem_of_singleton in Hx as ->. done.
  - exists p'. split; [done|]. specialize (Hb' p eq_refl). split.
    + destruct Hor' as [[= <-]|(x & Hx & ->)].
      * destruct Hor as [->|Hor]; [by left|]. right. exists e. split; [by left|done].
      * right. exists x. split; [by right|done].
    + split.
      * intros q Hq. specialize (Hb q Hq). unfold beats in *. lia.
      * intros x [->|Hx]%elem_of_cons; [unfold beats in *; lia|by apply Hes'].
Qed.

Context `{OL : !MapOrderLaws}.

(** The best node does not depend on the order of the scan. *)
Lemma best_node_spec h :
  match best_node h with
  | None => layers h = ∅
  | Some p => ∃ l, layers h !! p.2 = Some l ∧ p.1 = layer_u32 l
      ∧ ∀ id l', layers h !! id = Some l' → beats p (layer_u32 l', id)
  end.
Proof.
  unfold best_node. destruct (better_nodes None (iter_order (layers h))) as [[-> Hnil]|(p & -> & Hor & _ & Hes)].
  - apply map_empty. intros id. destruct (layers h !! id) as [l|] eqn:Hl; [|done].
    apply elem_of_iter_order in Hl. by rewrite Hnil, elem_of_nil in Hl.
  - destruct Hor as [?|([id l] & Hin & ->)]; [done|]. apply elem_of_iter_order in Hin. exists l.
    split_and!; [done..|]. intros id' l' Hl'. by apply (Hes (id', l')), elem_of_iter_order.
Qed.

Lemma reselect_spec n h :
  (∃ ep ml, (ep < u32_mod)%N ∧ (ml < u32_mod)%N ∧ entry_state h = pack_state ep ml) →
  (∀ id l, layers h !! id = Some l → (id < u32_max)%N) →
  (∀ id, is_Some (connections h !! id) ↔ is_Some (layers h !! id)) →
  ∃ h', reselect_entry_point (S (S n)) h = Some h' ∧ connections h' = connections h ∧ layers h' = layers h
    ∧ hnsw_wf h'
    ∧ (h' = h ∨ match get_entry_point h' with
                | Some ep => ∃ p, best_node h = Some p ∧ ep = p.2
                | None => layers h = ∅
                end).
Proof.
  intros Hword Hnodes Hdom. pose proof Hword as (ep & ml & Hep & Hml & Hst).
  assert (∀ h0, connections h0 = connections h → layers h0 = layers h →
    (∃ e l, (e < u32_mod)%N ∧ (l < u32_mod)%N ∧ entry_state h0 = pack_state e l
       ∧ (if (e =? u32_max)%N then layers h = ∅ else is_Some (layers h !! e))) →
    ∀ n, reselect_entry_point (S n) h0 = Some h0 ∧ hnsw_wf h0) as Hsettled.
  { intros [c st lay] Hc Hl (e & l & He & Hl' & Hst0 & Hlive) k. simpl in Hc, Hl, Hst0. subst c st lay.
    cbn [reselect_entry_point entry_state layers]. rewrite unpack_pack by done. split.
    - by destruct (e =? u32_max)%N; rewrite bool_decide_eq_true_2.
    - split; [by exists e, l|done..|]. rewrite get_entry_pack by done. simpl. by destruct (e =? u32_max)%N. }
  destruct (if (ep =? u32_max)%N then bool_decide (layers h = ∅) else bool_decide (is_Some (layers h !! ep)))
    eqn:Hset.
  { exists h. destruct (Hsettled h eq_refl eq_refl) with (S n) as [Hr Hw].
    - exists ep, ml. split_and!; [done..|]. by destruct (ep =? u32_max)%N; apply bool_decide_eq_true in Hset.
    - split_and!; [done..|by left]. }
  cbn [reselect_entry_point]. rewrite Hst, unpack_pack, Hset by done.
  pose proof (best_node_spec h) as Hbest.
  set (st' := match best_node h with Some (layer, id) => _ | None => _ end).
  assert (∃ e l, (e < u32_mod)%N ∧ (l < u32_mod)%N ∧ st' = pack_state e l
    ∧ (if (e =? u32_max)%N then layers h = ∅ else is_Some (layers h !! e))
    ∧ match best_node h with Some p => e = p.2 | None => e = u32_max end) as (e & l & He & Hl & Hst' & Hlive & Hbe).
  { destruct (best_node h) as [[l id]|]; simpl in Hbest.
    - destruct Hbest as (l0 & Hl0 & -> & _). pose proof (Hnodes _ _ Hl0) as Hid.
      exists id, (layer_u32 l0). split_and!; [unfold u32_max, u32_mod in *; lia|apply layer_u32_lt|done| |done].
      destruct (N.eqb_spec id u32_max); [lia|by eexists].
    - exists u32_max, 0%N. by split_and!. }
  exists (with_entry st' h). destruct (Hsettled (with_entry st' h) eq_refl eq_refl) with n as [Hr Hw].
  { exists e, l. by split_and!. }
  split_and!; [done..|]. right. unfold with_entry. rewrite Hst', get_entry_pack by done.
  destruct (N.eqb_spec e u32_max) as [->|Hne]; [done|]. destruct (best_node h) as [p|]; [by exists p|done].
Qed.

Lemma reselect_wf h :
  (∃ ep ml, (ep < u32_mod)%N ∧ (ml < u32_mod)%N ∧ entry_state h = pack_state ep ml) →
  (∀ id l, layers h !! id = Some l → (id < u32_max)%N) →
  (∀ id, is_Some (connections h !! id) ↔ is_Some (layers h !! id)) →
  connections (reselect h) = connections h ∧ layers (reselect h) = layers h ∧ hnsw_wf (reselect h).
Proof.
  intros H1 H2 H3. destruct (reselect_spec 0 h H1 H2 H3) as (h' & Hr & Hc & Hl & Hw & _).
  unfold reselect. by rewrite Hr.
Qed.

Lemma hnsw_new_wf : hnsw_wf HnswIndex_new.
Proof.
  split; [by exists u32_max, 0%N|done| |].
  - intros id. simpl. by rewrite !lookup_empty.
  - unfold HnswIndex_new.
    rewrite (get_entry_pack ∅ u32_max 0 ∅).
    + by rewrite N.eqb_refl.
    + done.
    + done.
Qed.

Lemma hnsw_add_wf id l conns h :
  hnsw_wf h → (id < u32_max)%N → hnsw_wf (hnsw_add_vector id l conns h).
Proof.
  intros [(ep & ml & Hep & Hml & Hst) Hnodes Hdom Hentry] Hid. destruct h as [c st lay].
  cbn [connections layers entry_state] in Hst, Hnodes, Hdom, Hentry. subst st.
  rewrite get_entry_pack in Hentry by done.
  assert (∀ id' l', <[id := l]> lay !! id' = Some l' → (id' < u32_max)%N) as Hn.
  { intros id' l' [[<- _]|[_ Hl']]%lookup_insert_Some; [done|by eapply Hnodes]. }
  assert (∀ id', is_Some (<[id := conns]> c !! id') ↔ is_Some (<[id := l]> lay !! id')) as Hd.
  { intros id'. by rewrite !lookup_insert_is_Some', Hdom. }
  assert (id < u32_mod)%N as Hid' by (unfold u32_max, u32_mod in *; lia).
  assert (N.max ml (layer_u32 l) < u32_mod)%N as Hmax by (pose proof (layer_u32_lt l); lia).
  unfold hnsw_add_vector. cbn [entry_state connections layers]. rewrite unpack_pack by done.
  destruct ((ep =? u32_max)%N || (ml <=? layer_u32 l)%N) eqn:Hc.
  - split; [by exists id, (N.max ml (layer_u32 l))|done..|]. unfold with_entry. rewrite get_entry_pack by done.
    destruct (N.eqb_spec id u32_max); [lia|]. simpl. rewrite lookup_insert_eq. by eexists.
  - apply orb_false_iff in Hc as [Hne _]. split; [by exists ep, ml|done..|]. rewrite get_entry_pack by done.
    rewrite Hne in *. simpl. rewrite lookup_insert_is_Some'. by right.
Qed.

Lemma hnsw_remove_wf id h : hnsw_wf h → hnsw_wf (hnsw_remove_vector id h).
Proof.
  intros [Hword Hnodes Hdom _]. apply reselect_wf; simpl; [done| |].
  - intros id' l [_ Hl]%lookup_delete_Some. by eapply Hnodes.
  - intros id'. by rewrite lookup_fmap, fmap_is_Some, !lookup_delete_is_Some, Hdom.
Qed.

Lemma hnsw_remove_many_wf ids h : hnsw_wf h → hnsw_wf (hnsw_remove_vectors ids h).
Proof.
  intros Hw. unfold hnsw_remove_vectors. case_decide; [done|]. destruct Hw as [Hword Hnodes Hdom _].
  apply reselect_wf; simpl; [done| |].
  - intros id' l [Hl _]%map_lookup_filter_Some. by eapply Hnodes.
  - intros id'. rewrite lookup_fmap, fmap_is_Some. unfold is_Some. setoid_rewrite map_lookup_filter_Some. simpl.
    specialize (Hdom id'). unfold is_Some in Hdom. naive_solver.
Qed.

(** What the removals keep. *)
Lemma hnsw_remove_layers id h :
  hnsw_wf h → layers (hnsw_remove_vector id h) = base.delete id (layers h)
    ∧ connections (hnsw_remove_vector id h) = filter (λ x, x ≠ id) <$> base.delete id (connections h).
Proof.
  intros [Hword Hnodes Hdom _]. unfold hnsw_remove_vector.
  match goal with |- context [reselect ?h0] => destruct (reselect_wf h0) as (-> & -> & _) end; simpl; [done| | |done].
  - intros id' l [_ Hl]%lookup_delete_Some. by eapply Hnodes.
  - intros id'. by rewrite lookup_fmap, fmap_is_Some, !lookup_delete_is_Some, Hdom.
Qed.

Lemma hnsw_remove_many_layers ids h :
  hnsw_wf h → layers (hnsw_remove_vectors ids h) = filter (λ e, e.1 ∉ ids) (layers h).
Proof.
  intros Hw. unfold hnsw_remove_vectors. case_decide as Hids.
  - symmetry. apply map_filter_id. subst ids. set_solver.
  - destruct Hw as [Hword Hnodes Hdom _].
    match goal with |- context [reselect ?h0] => destruct (reselect_wf h0) as (_ & -> & _) end; simpl; [done| | |done].
    + intros id' l [Hl _]%map_lookup_filter_Some. by eapply Hnodes.
    + intros id'. rewrite lookup_fmap, fmap_is_Some. unfold is_Some. setoid_rewrite map_lookup_filter_Some. simpl.
      specialize (Hdom id'). unfold is_Some in Hdom. naive_solver.
Qed.

Lemma hnsw_remove_many_connections ids h id l :
  hnsw_wf h → connections (hnsw_remove_vectors ids h) !! id = Some l →
  ∃ l', connections h !! id = Some l' ∧ ∀ x, x ∈ l → x ∈ l' ∧ x ∉ ids.
Proof.
  intros [Hword Hnodes Hdom _]. unfold hnsw_remove_vectors. case_decide as Hids.
  - intros Hl. exists l. split; [done|]. intros x Hx. split; [done|]. subst ids. set_solver.
  - match goal with |- context [reselect ?h0] => destruct (reselect_wf h0) as (-> & _ & _) end; simpl; [done| | |].
    + intros id' l' [Hl' _]%map_lookup_filter_Some. by eapply Hnodes.
    + intros id'. rewrite lookup_fmap, fmap_is_Some. unfold is_Some. setoid_rewrite map_lookup_filter_Some. simpl.
      specialize (Hdom id'). unfold is_Some in Hdom. naive_solver.
    + rewrite lookup_fmap_Some. intros (l' & <- & [Hl' _]%map_lookup_filter_Some). exists l'. split; [done|].
      intros x [? ?]%list_elem_of_filter. done.
Qed.
End order.
