(* ===== verification/Similarity.v ===== *)
(** * Cosine similarity

    [vector_db/similarity.rs] of [post-cortex-embeddings]: the kernels with
    eight accumulators.  [iter().sum::<f32>()] starts from -0.0 and adds from
    the left; a NaN is one value, without sign or payload. *)

From S2P Require Import Prelude F32 FloatRound.
From Stdlib Require Import Floats.SpecFloat.

Local Open Scope list_scope.

Definition LANES : nat := 8.

Definition f32_sqrt : f32 → f32 := SFsqrt 24 128.

(** [x == 0.0]. *)
Definition f32_is_zero (x : f32) : bool := match x with S754_zero _ => true | _ => false end.

(** [iter().sum::<f32>()]. *)
Definition f32_sum (xs : list f32) : f32 := foldl f32_add f32_neg_zero xs.

(** [as_chunks::<LANES>()]: the whole chunks and the remainder. *)
Fixpoint as_chunks (fuel : nat) (v : list f32) : list (list f32) * list f32 :=
  match fuel with
  | O => ([], v)
  | S fuel =>
    if length v <? LANES then ([], v)
    else let '(chunks, rest) := as_chunks fuel (drop LANES v) in (take LANES v :: chunks, rest)
  end.

Definition chunks_of (v : list f32) : list (list f32) * list f32 := as_chunks (length v) v.

(** [acc[i] += x[i] * y[i]] for every lane. *)
Definition lanes_step (acc : list f32) (xy : list f32 * list f32) : list f32 :=
  zip_with f32_add acc (zip_with f32_mul xy.1 xy.2).

Definition lanes_zero : list f32 := replicate LANES f32_zero.

(** Dot product of the common prefix. *)
Definition dot (a b : list f32) : f32 :=
  let n := length a `min` length b in
  let '(ca, ra) := chunks_of (take n a) in
  let '(cb, rb) := chunks_of (take n b) in
  let tail := f32_sum (zip_with f32_mul ra rb) in
  let acc := foldl lanes_step lanes_zero (zip ca cb) in
  f32_add (f32_sum acc) tail.

Definition l2_norm (v : list f32) : f32 := f32_sqrt (dot v v).

Definition cosine_with_norms (a b : list f32) (norm_a norm_b : f32) : f32 :=
  if negb (length a =? length b) || f32_is_zero norm_a || f32_is_zero norm_b then f32_zero
  else f32_div (dot a b) (f32_mul norm_a norm_b).

(** The fused pass: three dot products at once. *)
Definition tail_step (t : f32 * f32 * f32) (xy : f32 * f32) : f32 * f32 * f32 :=
  let '(tab, taa, tbb) := t in
  let '(x, y) := xy in
  (f32_add tab (f32_mul x y), f32_add taa (f32_mul x x), f32_add tbb (f32_mul y y)).

Definition fused_step (acc : list f32 * list f32 * list f32) (xy : list f32 * list f32)
    : list f32 * list f32 * list f32 :=
  let '(ab, aa, bb) := acc in
  let '(x, y) := xy in
  (lanes_step ab (x, y), lanes_step aa (x, x), lanes_step bb (y, y)).

Definition cosine_similarity (a b : list f32) : f32 :=
  if negb (length a =? length b) then f32_zero
  else
    let '(ca, ra) := chunks_of a in
    let '(cb, rb) := chunks_of b in
    let '(tab, taa, tbb) := foldl tail_step (f32_zero, f32_zero, f32_zero) (zip ra rb) in
    let '(ab, aa, bb) := foldl fused_step (lanes_zero, lanes_zero, lanes_zero) (zip ca cb) in
    let norm_a := f32_sqrt (f32_add (f32_sum aa) taa) in
    let norm_b := f32_sqrt (f32_add (f32_sum bb) tbb) in
    if f32_is_zero norm_a || f32_is_zero norm_b then f32_zero
    else f32_div (f32_add (f32_sum ab) tab) (f32_mul norm_a norm_b).

(** ** Sums are never -0.0 *)

(** A result of rounding: an exponent of the format (2^-149 is the least). *)
Definition fine (x : f32) : Prop := match x with S754_finite _ _ e => (-149 ≤ e)%Z | _ => True end.

Definition not_neg_zero (x : f32) : Prop := x ≠ f32_neg_zero.

Section rounding.
Local Open Scope Z_scope.

(** Shifting to the exponent the format asks for keeps a mantissa positive. *)
Lemma shr_fexp_pos m e l :
  1 <= m → -149 <= e →
  1 <= shr_m (shr_fexp 24 128 m e l).1 ∧ -149 <= (shr_fexp 24 128 m e l).2.
Proof.
  intros Hm He. unfold shr_fexp.
  assert (shr_m (shr_record_of_loc m l) = m) as Hr by by destruct l as [|[]].
  destruct m as [|p|p]; [lia| |lia]. cbn [Zdigits2].
  set (n := fexp 24 128 (Z.pos (digits2_pos p) + e) - e).
  assert (n = Z.max (Z.pos (digits2_pos p) - 24) (-149 - e)) as Hn.
  { unfold n, fexp, SpecFloat.emin. lia. }
  unfold shr. destruct n as [|k|k]; simpl; [by rewrite Hr| |by rewrite Hr].
  split; [|lia]. rewrite iter_pos_nat, shr_iter_div, Hr by lia.
  apply Z.div_le_lower_bound; [apply Z.pow_pos_nonneg; lia|].
  rewrite Z.mul_1_r. etrans; [|apply digits2_bounds]. apply Z.pow_le_mono_r; lia.
Qed.

Lemma round_aux_fine sx m e l : fine (binary_round_aux 24 128 sx m e l).
Proof.
  unfold binary_round_aux. destruct (shr_fexp 24 128 m e l) as [r e'].
  destruct (shr_fexp 24 128 _ e' loc_Exact) as [r' e''] eqn:H2.
  pose proof (shr_fexp_fine (round_nearest_even (shr_m r) (loc_of_shr_record r)) e' loc_Exact) as He.
  rewrite H2 in He. simpl in He. destruct (shr_m r'); [done| |done]. by case_match.
Qed.

Lemma round_aux_nonzero sx m e z :
  1 <= m → -149 <= e → binary_round_aux 24 128 sx m e loc_Exact ≠ S754_zero z.
Proof.
  intros Hm He. unfold binary_round_aux.
  destruct (shr_fexp 24 128 m e loc_Exact) as [r e'] eqn:H1.
  destruct (shr_fexp_pos m e loc_Exact Hm He) as [Hr He']. rewrite H1 in Hr, He'. simpl in Hr, He'.
  destruct (shr_fexp 24 128 _ e' loc_Exact) as [r' e''] eqn:H2.
  destruct (shr_fexp_pos (round_nearest_even (shr_m r) (loc_of_shr_record r)) e' loc_Exact) as [Hr' _].
  - destruct (loc_of_shr_record r) as [|[]]; simpl; [..|case_match| |]; lia.
  - done.
  - rewrite H2 in Hr'. simpl in Hr'. destruct (shr_m r'); [lia| |lia]. by case_match.
Qed.

Lemma normalize_not_neg_zero m e : -149 <= e → not_neg_zero (binary_normalize 24 128 m e false).
Proof.
  intros He. assert (∀ sx p, binary_round 24 128 sx p e ≠ f32_neg_zero) as Hr.
  { intros sx p. unfold binary_round, shl_align.
    assert (-149 <= fexp 24 128 (Z.pos (digits2_pos p) + e)) by (unfold fexp, SpecFloat.emin; lia).
    destruct (fexp 24 128 (Z.pos (digits2_pos p) + e) - e); apply round_aux_nonzero; lia. }
  unfold not_neg_zero, binary_normalize. destruct m; [done|apply Hr..].
Qed.

Lemma add_not_neg_zero x y :
  fine x → fine y → not_neg_zero x ∨ not_neg_zero y → not_neg_zero (f32_add x y).
Proof.
  intros Hx Hy Hor. destruct x as [[]|[]| |sx mx ex], y as [[]|[]| |sy my ey]; try done.
  - by destruct Hor.
  - apply normalize_not_neg_zero. simpl in *. lia.
Qed.

Lemma add_fine x y : fine x → fine y → fine (f32_add x y).
Proof.
  intros Hx Hy. destruct x as [[]|[]| |sx mx ex], y as [[]|[]| |sy my ey]; try done.
  unfold f32_add, SFadd, binary_normalize, binary_round, shl_align.
  destruct (_ + _); [done|..]; case_match; apply round_aux_fine.
Qed.

Lemma mul_fine x y : fine (f32_mul x y).
Proof. destruct x as [[]|[]| |sx mx ex], y as [[]|[]| |sy my ey]; try done. apply round_aux_fine. Qed.
End rounding.

(** -0.0 and 0.0 as the start of a sum differ only if all terms are -0.0. *)
Lemma add_zeros x : not_neg_zero x → f32_add x f32_zero = f32_add x f32_neg_zero.
Proof. by destruct x as [[]|[]| |]. Qed.

Lemma sum_starts xs :
  Forall fine xs →
  foldl f32_add f32_zero xs = f32_sum xs
  ∨ foldl f32_add f32_zero xs = f32_zero ∧ f32_sum xs = f32_neg_zero.
Proof.
  unfold f32_sum. intros Hxs. destruct Hxs as [|x xs Hx Hxs]; [by right|]. cbn [foldl].
  assert (x = f32_neg_zero ∨ f32_add f32_zero x = f32_add f32_neg_zero x) as [-> | ->];
    [destruct x as [[]|[]| |]; auto| |by left].
  change (f32_add f32_zero f32_neg_zero) with f32_zero.
  change (f32_add f32_neg_zero f32_neg_zero) with f32_neg_zero.
  revert Hxs. induction xs as [|y xs IH]; intros Hxs; [by right|].
  apply Forall_cons in Hxs as [Hy Hxs]. cbn [foldl].
  assert (y = f32_neg_zero ∨ f32_add f32_zero y = f32_add f32_neg_zero y) as [-> | ->];
    [destruct y as [[]|[]| |]; auto|by apply IH|by left].
Qed.

Lemma sum_not_neg_zero acc xs :
  fine acc → Forall fine xs → not_neg_zero acc ∨ Exists not_neg_zero xs →
  not_neg_zero (foldl f32_add acc xs).
Proof.
  intros Hacc Hxs. revert acc Hacc. induction Hxs as [|x xs Hx Hxs IH]; intros acc Hacc Hor.
  { destruct Hor as [|Hex]; [done|by inversion Hex]. }
  apply IH; [by apply add_fine|]. rewrite Exists_cons in Hor.
  destruct Hor as [Hor|[Hor|Hor]]; [left; apply add_not_neg_zero; auto..|by right].
Qed.

Lemma sum_fine acc xs : fine acc → Forall fine xs → fine (foldl f32_add acc xs).
Proof.
  intros Hacc Hxs. revert acc Hacc. induction Hxs as [|x xs Hx Hxs IH]; intros acc Hacc; [done|].
  apply IH. by apply add_fine.
Qed.

(** ** The lanes *)

Lemma as_chunks_lengths fuel a b :
  length a = length b →
  length (as_chunks fuel a).1 = length (as_chunks fuel b).1
  ∧ length (as_chunks fuel a).2 = length (as_chunks fuel b).2.
Proof.
  revert a b. induction fuel as [|fuel IH]; intros a b Hab; [done|]. cbn [as_chunks].
  rewrite Hab. destruct (length b <? LANES); [done|].
  destruct (IH (drop LANES a) (drop LANES b)) as [H1 H2]; [rewrite !length_drop; lia|].
  destruct (as_chunks fuel (drop LANES a)), (as_chunks fuel (drop LANES b)). simpl in *. by rewrite H1.
Qed.

Lemma as_chunks_full fuel v : Forall (λ c, length c = LANES) (as_chunks fuel v).1.
Proof.
  revert v. induction fuel as [|fuel IH]; intros v; [constructor|]. cbn [as_chunks].
  destruct (Nat.ltb_spec (length v) LANES) as [|Hv]; [constructor|].
  specialize (IH (drop LANES v)). destruct (as_chunks fuel (drop LANES v)). simpl in *.
  constructor; [|done]. rewrite length_take. lia.
Qed.

Definition lane_ok (acc : list f32) : Prop :=
  length acc = LANES ∧ Forall (λ x, fine x ∧ not_neg_zero x) acc.

Lemma products_fine a b : Forall fine (zip_with f32_mul a b).
Proof.
  revert b. induction a as [|x a IH]; intros [|y b]; constructor; [apply mul_fine|apply IH].
Qed.

Lemma lanes_step_ok acc xy :
  lane_ok acc → length xy.1 = LANES → length xy.2 = LANES → lane_ok (lanes_step acc xy).
Proof.
  intros [Hlen Hacc] Hx Hy. unfold lanes_step. split.
  - rewrite !length_zip_with. unfold LANES in *. lia.
  - pose proof (products_fine xy.1 xy.2) as Hps. revert Hacc Hps. clear.
    generalize (zip_with f32_mul xy.1 xy.2). induction acc as [|x acc IH]; intros [|y ps] Hacc Hps;
      [constructor..|]. apply Forall_cons in Hacc as [[Hx Hnz] Hacc]. apply Forall_cons in Hps as [Hy Hps].
    constructor; [|by apply IH]. split; [by apply add_fine|]. apply add_not_neg_zero; auto.
Qed.

Lemma lanes_ok acc xys :
  lane_ok acc → Forall (λ xy, length xy.1 = LANES ∧ length xy.2 = LANES) xys →
  lane_ok (foldl lanes_step acc xys).
Proof.
  intros Hacc Hxys. revert acc Hacc. induction Hxys as [|xy xys [Hx Hy] Hxys IH]; intros acc Hacc; [done|].
  apply IH. by apply lanes_step_ok.
Qed.

Lemma lanes_zero_ok : lane_ok lanes_zero.
Proof. split; [done|]. by repeat constructor. Qed.

Lemma lane_sum_not_neg_zero acc : lane_ok acc → not_neg_zero (f32_sum acc).
Proof.
  intros [Hlen Hacc]. apply sum_not_neg_zero; [done| |].
  - by eapply Forall_impl; [exact Hacc|intros x []].
  - right. destruct acc as [|x acc]; [done|]. apply Forall_cons in Hacc as [[_ Hx] _]. by left.
Qed.

(** Pairs of whole chunks. *)
Lemma chunk_pairs_full fuel fuel' a b :
  Forall (λ xy, length xy.1 = LANES ∧ length xy.2 = LANES)
    (zip (as_chunks fuel a).1 (as_chunks fuel' b).1).
Proof.
  pose proof (as_chunks_full fuel a) as Ha. pose proof (as_chunks_full fuel' b) as Hb.
  revert Hb. generalize (as_chunks fuel' b).1. induction Ha as [|x l Hx Ha IH]; intros l' Hb; [constructor|].
  destruct l' as [|y l']; [constructor|]. apply Forall_cons in Hb as [Hy Hb]. constructor; [done|by apply IH].
Qed.

Lemma fused_lanes xys A B C :
  foldl fused_step (A, B, C) xys
  = (foldl lanes_step A xys, foldl lanes_step B ((λ xy, (xy.1, xy.1)) <$> xys),
     foldl lanes_step C ((λ xy, (xy.2, xy.2)) <$> xys)).
Proof.
  revert A B C. induction xys as [|[x y] xys IH]; intros A B C; [done|]. csimpl. apply IH.
Qed.

Lemma fused_tail xys a b c :
  foldl tail_step (a, b, c) xys
  = (foldl f32_add a ((λ xy, f32_mul xy.1 xy.2) <$> xys), foldl f32_add b ((λ xy, f32_mul xy.1 xy.1) <$> xys),
     foldl f32_add c ((λ xy, f32_mul xy.2 xy.2) <$> xys)).
Proof.
  revert a b c. induction xys as [|[x y] xys IH]; intros a b c; [done|]. csimpl. apply IH.
Qed.

Lemma zip_fst_fst {A} (l l' : list A) :
  length l = length l' → (λ xy, (xy.1, xy.1)) <$> zip l l' = zip l l.
Proof.
  revert l'. induction l as [|x l IH]; intros [|y l'] Hl; csimpl; try done. f_equal. apply IH. by injection Hl.
Qed.

Lemma zip_snd_snd {A} (l l' : list A) :
  length l = length l' → (λ xy, (xy.2, xy.2)) <$> zip l l' = zip l' l'.
Proof.
  revert l'. induction l as [|x l IH]; intros [|y l'] Hl; csimpl; try done. f_equal. apply IH. by injection Hl.
Qed.

Lemma fmap_zip {A B} (f : A → A → B) (l l' : list A) :
  (λ xy, f xy.1 xy.2) <$> zip l l' = zip_with f l l'.
Proof. revert l'. induction l as [|x l IH]; intros [|y l']; csimpl; [done..|]. by rewrite IH. Qed.

Lemma fmap_zip_fst {A B} (f : A → A → B) (l l' : list A) :
  length l = length l' → (λ xy, f xy.1 xy.1) <$> zip l l' = zip_with f l l.
Proof.
  revert l'. induction l as [|x l IH]; intros [|y l'] Hl; csimpl; try done. f_equal. apply IH. by injection Hl.
Qed.

Lemma fmap_zip_snd {A B} (f : A → A → B) (l l' : list A) :
  length l = length l' → (λ xy, f xy.2 xy.2) <$> zip l l' = zip_with f l' l'.
Proof.
  revert l'. induction l as [|x l IH]; intros [|y l'] Hl; csimpl; try done. f_equal. apply IH. by injection Hl.
Qed.

(** A sum of the lanes absorbs the start of the tail's sum. *)
Lemma lanes_and_tail acc xs :
  lane_ok acc → Forall fine xs →
  f32_add (f32_sum acc) (foldl f32_add f32_zero xs) = f32_add (f32_sum acc) (f32_sum xs).
Proof.
  intros Hacc Hxs. destruct (sum_starts xs Hxs) as [->|[-> ->]]; [done|].
  by apply add_zeros, lane_sum_not_neg_zero.
Qed.

(** The dot product of vectors of one length. *)
Lemma dot_same_length a b :
  length a = length b →
  dot a b = f32_add (f32_sum (foldl lanes_step lanes_zero (zip (chunks_of a).1 (chunks_of b).1)))
              (f32_sum (zip_with f32_mul (chunks_of a).2 (chunks_of b).2)).
Proof.
  intros Hab. unfold dot. rewrite (take_ge a), (take_ge b) by lia.
  destruct (chunks_of a), (chunks_of b). done.
Qed.

Lemma lanes_of_chunks a b :
  lane_ok (foldl lanes_step lanes_zero (zip (chunks_of a).1 (chunks_of b).1)).
Proof. apply lanes_ok; [apply lanes_zero_ok|apply chunk_pairs_full]. Qed.

Lemma f32_mul_comm x y : f32_mul x y = f32_mul y x.
Proof.
  destruct x as [sx|sx| |sx mx ex], y as [sy|sy| |sy my ey]; cbn [f32_mul SFmul];
    try reflexivity; unfold f32_mul, SFmul; rewrite (xorb_comm sx sy); [reflexivity..|].
  by rewrite (Pos.mul_comm mx my), (Z.add_comm ex ey).
Qed.

Lemma zip_with_mul_comm a b : zip_with f32_mul a b = zip_with f32_mul b a.
Proof.
  revert b. induction a as [|x a IH]; intros [|y b]; [done..|]. cbn [zip_with].
  by rewrite IH, f32_mul_comm.
Qed.

Lemma lanes_comm ca cb acc : foldl lanes_step acc (zip ca cb) = foldl lanes_step acc (zip cb ca).
Proof.
  revert cb acc. induction ca as [|x ca IH]; intros [|y cb] acc; [done..|]. cbn [zip zip_with foldl].
  rewrite IH. unfold lanes_step at 2 4. simpl. by rewrite zip_with_mul_comm.
Qed.

Lemma dot_comm a b : dot a b = dot b a.
Proof.
  unfold dot. rewrite (Nat.min_comm (length b)). destruct (chunks_of (take _ a)), (chunks_of (take _ b)).
  by rewrite lanes_comm, zip_with_mul_comm.
Qed.

(** C40: The fused cosine similarity is, bit for bit, the one computed from the
    dot product and the two norms one after the other, for vectors of any
    length and any values (infinities and NaN included), although its sums
    start from another zero; and it is symmetric. *)
Theorem cosine_fused a b :
  cosine_similarity a b = cosine_with_norms a b (l2_norm a) (l2_norm b)
  ∧ cosine_similarity a b = cosine_similarity b a.
Proof.
  assert (∀ a b, cosine_similarity a b = cosine_with_norms a b (l2_norm a) (l2_norm b)) as Hfused.
  { clear a b. intros a b. unfold cosine_similarity, cosine_with_norms.
    destruct (Nat.eqb_spec (length a) (length b)) as [Hab|Hab]; [|done]. cbn [negb orb].
    destruct (as_chunks_lengths (length a) a b Hab) as [Hc Hr].
    unfold l2_norm. rewrite !dot_same_length by done.
    pose proof (lanes_of_chunks a b) as Hlab. pose proof (lanes_of_chunks a a) as Hlaa.
    pose proof (lanes_of_chunks b b) as Hlbb. unfold chunks_of in *. rewrite <-Hab in *.
    destruct (as_chunks (length a) a) as [ca ra], (as_chunks (length a) b) as [cb rb]. simpl in *.
    rewrite fused_tail, fused_lanes, zip_fst_fst, zip_snd_snd by done.
    rewrite fmap_zip, fmap_zip_fst, fmap_zip_snd by done.
    by rewrite !lanes_and_tail by (done || apply products_fine). }
  split; [apply Hfused|]. rewrite !Hfused. unfold cosine_with_norms.
  rewrite (Nat.eqb_sym (length b)), (dot_comm b), (f32_mul_comm (l2_norm b)).
  by destruct (length a =? length b), (f32_is_zero (l2_norm a)), (f32_is_zero (l2_norm b)).
Qed.
