(* ===== verification/ProductQuantization.v ===== *)
(** * Product quantization

    [vector_db/product_quantization.rs] and [euclidean_distance] of
    [vector_db/common.rs].  [rand::random] is a stream of draws; a slice out
    of range is a panic ([None]).  [x.powi(2)] is [x * x]. *)

From S2P Require Import Prelude F32 FloatRound Collections Similarity.

Local Open Scope list_scope.

Definition euclidean_distance (a b : list f32) : f32 :=
  f32_sqrt (f32_sum (zip_with (λ x y, let d := f32_sub x y in f32_mul d d) a b)).

Record ProductQuantizationCodebook := mkCodebook {
  pq_subvectors : nat;
  pq_bits : nat;
  pq_dimension : nat;
  pq_centroids : list (list (list f32));
}.

(** [&v[start..end]]. *)
Definition slice (start stop : nat) (v : list f32) : option (list f32) :=
  if (start <=? stop)%nat && (stop <=? length v)%nat then Some (take (stop - start) (drop start v)) else None.

Definition f32_two : f32 := f32_of_N 2.

(** Draws in [0, 1) scaled to a centroid of unit length. *)
Definition random_centroid (draws : list f32) : list f32 :=
  let centroid := (λ r, f32_sub (f32_mul r f32_two) f32_one) <$> draws in
  let magnitude := f32_sqrt (f32_sum ((λ x, f32_mul x x) <$> centroid)) in
  if f32_lt f32_zero magnitude then (λ x, f32_div x magnitude) <$> centroid else centroid.

(** [ProductQuantizationCodebook::new]; [draw i j n] is the [n]-th draw for
    centroid [j] of subvector [i].  The outer [None] is a division by zero. *)
Definition codebook_new (draw : nat → nat → nat → f32) (dimension subvectors bits : nat)
    : option (result ProductQuantizationCodebook string) :=
  if negb (if (subvectors =? 0)%nat then (dimension =? 0)%nat else (dimension mod subvectors =? 0)%nat)
  then Some (Err "Dimension must be divisible by subvectors"%string)
  else if (subvectors =? 0)%nat then None
  else
    let subvec_dim := (dimension / subvectors)%nat in
    Some (Ok (mkCodebook subvectors bits dimension
      ((λ i, (λ j, random_centroid (draw i j <$> seq 0 subvec_dim)) <$> seq 0 (2 ^ bits)) <$> seq 0 subvectors))).

Definition subvec_dim (cb : ProductQuantizationCodebook) : nat := (pq_dimension cb / pq_subvectors cb)%nat.

(** One turn of the loop: the code as an [u8], the distance. *)
Definition nearer (subvec : list f32) (best : N * f32) (entry : nat * list f32) : N * f32 :=
  let dist := euclidean_distance subvec entry.2 in
  if f32_lt dist best.2 then ((N.of_nat entry.1 `mod` 256)%N, dist) else best.

Definition f32_infinity : f32 := SpecFloat.S754_infinity false.

Definition find_nearest_centroid (centroids : list (list f32)) (subvec : list f32) : N :=
  (foldl (nearer subvec) (0%N, f32_infinity) (imap pair centroids)).1.

Definition encode_part (cb : ProductQuantizationCodebook) (vector : list f32) (i : nat) : option N :=
  subvec ← slice (i * subvec_dim cb) (i * subvec_dim cb + subvec_dim cb) vector;
  centroids ← pq_centroids cb !! i;
  Some (find_nearest_centroid centroids subvec).

Definition pq_encode (cb : ProductQuantizationCodebook) (vector : list f32) : option (list N) :=
  mapM (encode_part cb vector) (seq 0 (pq_subvectors cb)).

(** The loop of [decode] from part [i] on. *)
Fixpoint decode_loop (cb : ProductQuantizationCodebook) (i : nat) (codes : list N) : option (list f32) :=
  match codes with
  | [] => Some []
  | code :: codes =>
    if (pq_subvectors cb <=? i)%nat then Some []
    else
      centroids ← pq_centroids cb !! i;
      rest ← decode_loop cb (S i) codes;
      Some (default (replicate (subvec_dim cb) f32_zero) (centroids !! N.to_nat code) ++ rest)
  end.

Definition pq_decode (cb : ProductQuantizationCodebook) (codes : list N) : option (list f32) := decode_loop cb 0 codes.

Fixpoint distance_loop (cb : ProductQuantizationCodebook) (query : list f32) (i : nat) (codes : list N) (total : f32)
    : option f32 :=
  match codes with
  | [] => Some total
  | code :: codes =>
    query_subvec ← slice (i * subvec_dim cb) (i * subvec_dim cb + subvec_dim cb) query;
    centroids ← pq_centroids cb !! i;
    distance_loop cb query (S i) codes
      (match centroids !! N.to_nat code with
       | Some centroid => let dist := euclidean_distance query_subvec centroid in f32_add total (f32_mul dist dist)
       | None => total
       end)
  end.

Definition approximate_distance (cb : ProductQuantizationCodebook) (query : list f32) (codes : list N) : option f32 :=
  f32_sqrt <$> distance_loop cb query 0 (take (pq_subvectors cb) codes) f32_zero.

Definition compression_info (cb : ProductQuantizationCodebook) : nat * nat * f32 :=
  let original_size := (pq_dimension cb * 4)%nat in
  let compressed_size := (pq_subvectors cb * ((pq_bits cb + 7) / 8))%nat in
  (original_size, compressed_size,
   f32_div (f32_of_N (N.of_nat original_size)) (f32_of_N (N.of_nat compressed_size))).

(** ** Theorems *)

(** A codebook as [new] makes it. *)
Record codebook_wf (cb : ProductQuantizationCodebook) : Prop := {
  cb_parts : (0 < pq_subvectors cb)%nat;
  cb_divides : pq_dimension cb = (pq_subvectors cb * subvec_dim cb)%nat;
  cb_count : length (pq_centroids cb) = pq_subvectors cb;
  cb_centroids i cs : pq_centroids cb !! i = Some cs → length cs = (2 ^ pq_bits cb)%nat;
  cb_dims i j cs c : pq_centroids cb !! i = Some cs → cs !! j = Some c → length c = subvec_dim cb;
}.

Lemma random_centroid_length draws : length (random_centroid draws) = length draws.
Proof. unfold random_centroid. case_match; by rewrite ?length_fmap. Qed.

Lemma codebook_new_wf draw dimension subvectors bits cb :
  codebook_new draw dimension subvectors bits = Some (Ok cb) → codebook_wf cb ∧ pq_dimension cb = dimension.
Proof.
  unfold codebook_new. intros Hnew. destruct (Nat.eqb_spec subvectors 0) as [|Hs]; [by case_match|].
  destruct (Nat.eqb_spec (dimension mod subvectors) 0) as [Hm|]; [|done]. simpl in Hnew. injection Hnew as <-.
  split; [|done]. split; unfold subvec_dim; simpl.
  - lia.
  - by apply Nat.Div0.div_exact.
  - by rewrite length_fmap, length_seq.
  - intros i cs (x & -> & _)%list_lookup_fmap_Some. by rewrite length_fmap, length_seq.
  - intros i j cs c (x & -> & _)%list_lookup_fmap_Some (y & -> & _)%list_lookup_fmap_Some.
    by rewrite random_centroid_length, length_fmap, length_seq.
Qed.

(** The scan for the nearest centroid: the code of a centroid no other one is
    closer than; the least such code by the strict test. *)
Lemma nearest_loop subvec cs n best :
  (∀ j c, cs !! j = Some c → (n + j < 256)%nat) →
  let r := foldl (nearer subvec) best (imap (λ j c, (n + j, c)%nat) cs) in
  r = best ∨ ∃ j c, cs !! j = Some c ∧ r = (N.of_nat (n + j), euclidean_distance subvec c).
Proof.
  revert n best. induction cs as [|c cs IH]; intros n best Hn; [by left|]. cbn [imap foldl].
  assert (imap ((λ j c, (n + j, c)%nat) ∘ S) cs = imap (λ j c, (S n + j, c)%nat) cs) as ->.
  { apply imap_ext. intros i x _. simpl. by rewrite Nat.add_succ_r. }
  destruct (IH (S n) (nearer subvec best (n + 0, c)%nat)) as [Hr|(j & c' & Hj & Hr)].
  - intros j c' Hj. specialize (Hn (S j) c' Hj). lia.
  - simpl in *. rewrite Hr. unfold nearer. simpl. destruct (f32_lt _ _); [|by left].
    right. exists 0%nat, c. split; [done|]. rewrite N.mod_small; [done|]. specialize (Hn 0%nat c eq_refl). lia.
  - right. exists (S j), c'. split; [done|]. simpl in *. rewrite Hr. by rewrite Nat.add_succ_r.
Qed.

Lemma nearest_code cs subvec :
  cs ≠ [] → (length cs ≤ 256)%nat → (find_nearest_centroid cs subvec < N.of_nat (length cs))%N.
Proof.
  intros Hne Hlen. unfold find_nearest_centroid.
  destruct (nearest_loop subvec cs 0 (0%N, f32_infinity)) as [Hr|(j & c & Hj & Hr)].
  - intros j c Hj%lookup_lt_Some. lia.
  - change (imap (λ j c, (0 + j, c)%nat) cs) with (imap pair cs) in Hr. rewrite Hr. destruct cs; [done|]. simpl. lia.
  - change (imap (λ j c, (0 + j, c)%nat) cs) with (imap pair cs) in Hr. rewrite Hr. simpl.
    apply lookup_lt_Some in Hj. lia.
Qed.

Lemma slice_some start n (v : list f32) :
  (start + n ≤ length v)%nat → slice start (start + n) v = Some (take n (drop start v)).
Proof.
  intros H. unfold slice. replace (start <=? start + n)%nat with true by (symmetry; apply Nat.leb_le; lia).
  replace (start + n <=? length v)%nat with true by (symmetry; apply Nat.leb_le; lia). simpl.
  by rewrite Nat.add_comm, Nat.add_sub.
Qed.

(** A vector of the codebook's dimension encodes without panic, to one code
    per part, each the number of a centroid. *)
Lemma pq_encode_ok cb v :
  codebook_wf cb → (2 ^ pq_bits cb ≤ 256)%nat → length v = pq_dimension cb →
  ∃ codes, pq_encode cb v = Some codes ∧ length codes = pq_subvectors cb
    ∧ Forall (λ code, code < N.of_nat (2 ^ pq_bits cb))%N codes.
Proof.
  intros [Hparts Hdiv Hcount Hcs _] Hbits Hlen. unfold pq_encode.
  assert (∀ i, i ∈ seq 0 (pq_subvectors cb) →
    ∃ code, encode_part cb v i = Some code ∧ (code < N.of_nat (2 ^ pq_bits cb))%N) as Hpart.
  { intros i [_ Hi]%elem_of_seq. simpl in Hi. unfold encode_part. rewrite slice_some by nia. simpl.
    destruct (lookup_lt_is_Some_2 (pq_centroids cb) i) as [cs Hcsi]; [lia|]. rewrite Hcsi. simpl.
    pose proof (Hcs _ _ Hcsi) as Hlc. eexists. split; [done|]. rewrite <-Hlc. apply nearest_code; [|lia].
    intros ->. simpl in Hlc. pose proof (Nat.pow_nonzero 2 (pq_bits cb)). lia. }
  assert (∀ parts, (∀ i, i ∈ parts → ∃ code, encode_part cb v i = Some code ∧ (code < N.of_nat (2 ^ pq_bits cb))%N) →
    ∃ codes, mapM (encode_part cb v) parts = Some codes ∧ length codes = length parts
      ∧ Forall (λ code, code < N.of_nat (2 ^ pq_bits cb))%N codes) as Hall.
  { intros parts. induction parts as [|i parts IH]; intros His; [by exists []|].
    destruct (His i) as (code & Hc & Hlt); [by left|]. destruct IH as (codes & Hcodes & Hl & Hf).
    { intros j Hj. apply His. by right. }
    exists (code :: codes). simpl. rewrite Hc. simpl. rewrite Hcodes. simpl. rewrite Hl. auto. }
  destruct (Hall _ Hpart) as (codes & -> & Hl & Hf). exists codes. rewrite Hl, length_seq. done.
Qed.

(** Decoding as many codes gives a vector of the dimension: the centroids with
    these numbers, zeros for a number without centroid. *)
Lemma pq_decode_ok cb codes :
  codebook_wf cb → length codes = pq_subvectors cb →
  ∃ v, pq_decode cb codes = Some v ∧ length v = pq_dimension cb.
Proof.
  intros [Hparts Hdiv Hcount _ Hdims] Hlen. unfold pq_decode.
  assert (∀ i codes, (i + length codes ≤ pq_subvectors cb)%nat →
    ∃ v, decode_loop cb i codes = Some v ∧ length v = (length codes * subvec_dim cb)%nat) as H.
  { intros i cs. revert i. induction cs as [|code cs IH]; intros i Hi; [by exists []|].
    cbn [decode_loop]. simpl in Hi. destruct (Nat.leb_spec (pq_subvectors cb) i); [lia|].
    destruct (lookup_lt_is_Some_2 (pq_centroids cb) i) as [cents Hc]; [lia|]. rewrite Hc. simpl.
    destruct (IH (S i)) as (rest & Hr & Hl); [lia|]. rewrite Hr. simpl. eexists. split; [done|].
    rewrite length_app, Hl. destruct (cents !! N.to_nat code) as [c|] eqn:Hcc; simpl.
    - by rewrite (Hdims _ _ _ _ Hc Hcc).
    - by rewrite length_replicate. }
  destruct (H 0%nat codes) as (v & Hv & Hl); [lia|]. exists v. split; [done|]. by rewrite Hl, Hlen, Hdiv at 1.
Qed.

(** More than eight bits: a code is cut to a byte, so the codes of centroids
    256 apart coincide. *)
Example wide_code_truncates :
  find_nearest_centroid (replicate 256 [f32_one] ++ [[f32_zero]]) [f32_zero] = 0%N.
Proof. vm_compute. reflexivity. Qed.
