(* ===== verification/TextIndex.v ===== *)
(** * Word statistics and BM25

    [text.rs] and [vector_db/text_index.rs] of [post-cortex-embeddings].  A
    call holds the lock of the index, so it is one step; [HashMap]s iterate
    through [MapOrder].  Counters wrap, as release builds do. *)

From stdpp Require Import gmap.
From S2P Require Import Prelude RustStd Collections StrLemmas F32 TopK Similarity.

Local Open Scope string_scope.
Local Open Scope list_scope.

(** [text::tokens]. *)
Definition tokens `{Unicode} `{Alphanumeric} (text : string) : list string :=
  filter (λ t, t ≠ "")
    (str_of_chars <$> split_chars (λ c, negb (is_alphanumeric c)) (str_chars (str_to_lowercase text))).

Definition BM25_K1 : f32 := f32_div (f32_of_N 12) (f32_of_N 10).
Definition BM25_B : f32 := f32_div (f32_of_N 3) (f32_of_N 4).
Definition MAX_QUERY_DF_SHARE : f32 := f32_div (f32_of_N 2) (f32_of_N 10).
Definition MIN_PRUNED_DF : N := 10.

(** [keeps_postings] is the field [postings] of [TextIndex], the others are
    those of [Inner]. *)
Record TextIndex := mkTextIndex {
  keeps_postings : bool;
  df : gmap string N;
  docs : N;
  postings : gmap string (list (N * N));
  lengths : gmap N N;
  total_length : N;
}.

Definition TextIndex_new (postings : bool) : TextIndex := mkTextIndex postings ∅ 0 ∅ ∅ 0.

Definition text_clear (ti : TextIndex) : TextIndex := TextIndex_new (keeps_postings ti).

(** [*n -= 1] on a [u32]. *)
Definition u32_pred (n : N) : N := ((n + (u32_mod - 1)) `mod` u32_mod)%N.

Section index.
Context `{U : Unicode} `{AN : Alphanumeric} `{MO : MapOrder} `{L : Libm}.

Definition count_word (counts : gmap string N) (t : string) : gmap string N :=
  <[t := u32_add (default 0%N (counts !! t)) 1]> counts.

Definition term_counts (text : string) : gmap string N := foldl count_word ∅ (tokens text).

Definition push_posting (id : N) (ps : gmap string (list (N * N))) (entry : string * N)
    : gmap string (list (N * N)) :=
  <[entry.1 := default [] (ps !! entry.1) ++ [(id, entry.2)]]> ps.

Definition text_add (id : N) (text : string) (ti : TextIndex) : TextIndex :=
  let counts := term_counts text in
  let entries := iter_order counts in
  let ti := mkTextIndex (keeps_postings ti) (foldl count_word (df ti) entries.*1) (u32_add (docs ti) 1)
              (postings ti) (lengths ti) (total_length ti) in
  if negb (keeps_postings ti) then ti
  else
    let length := foldl u32_add 0%N entries.*2 in
    let total := match lengths ti !! id with
                 | Some old => u64_sub (total_length ti) old
                 | None => total_length ti
                 end in
    mkTextIndex (keeps_postings ti) (df ti) (docs ti) (foldl (push_posting id) (postings ti) entries)
      (<[id := length]> (lengths ti)) (u64_add total length).

Definition uncount_word (df : gmap string N) (t : string) : gmap string N :=
  match df !! t with
  | Some n => if (u32_pred n =? 0)%N then base.delete t df else <[t := u32_pred n]> df
  | None => df
  end.

Definition drop_posting (id : N) (ps : gmap string (list (N * N))) (t : string) : gmap string (list (N * N)) :=
  match ps !! t with
  | Some l =>
    match filter (λ p, p.1 ≠ id) l with
    | [] => base.delete t ps
    | l => <[t := l]> ps
    end
  | None => ps
  end.

Definition text_remove (id : N) (text : string) (ti : TextIndex) : TextIndex :=
  let terms := (iter_order (term_counts text)).*1 in
  mkTextIndex (keeps_postings ti) (foldl uncount_word (df ti) terms) (docs ti - 1)
    (foldl (drop_posting id) (postings ti) terms) (base.delete id (lengths ti))
    (match lengths ti !! id with Some old => u64_sub (total_length ti) old | None => total_length ti end).

Definition max_df (ti : TextIndex) : N :=
  N.max (f32_to_uint (u32_mod - 1) (f32_mul MAX_QUERY_DF_SHARE (f32_of_N (docs ti)))) MIN_PRUNED_DF.

Definition query_terms (query : string) (ti : TextIndex) : list string :=
  filter (λ t, default 0 (df ti !! t) ≤ max_df ti)%N (dedup (sort_by str_cmp (tokens query))).

(** ** BM25 *)

Definition bm25_idf (docs df : f32) : f32 :=
  f32_ln (f32_add (f32_div (f32_add (f32_sub docs df) f32_half) (f32_add df f32_half)) f32_one).

Definition bm25_norm (tf length avg_length : f32) : f32 :=
  f32_div (f32_mul tf (f32_add BM25_K1 f32_one))
    (f32_add tf (f32_mul BM25_K1
       (f32_add (f32_sub f32_one BM25_B) (f32_div (f32_mul BM25_B length) avg_length)))).

(** [*scores.entry(id).or_default() += x]. *)
Definition add_score (id : N) (x : f32) (scores : gmap N f32) : gmap N f32 :=
  <[id := f32_add (default f32_zero (scores !! id)) x]> scores.

(** What a posting adds to the score of its text. *)
Definition posting_weight (ti : TextIndex) (docs avg_length : f32) (list_len : nat) (p : N * N) : f32 :=
  f32_mul (bm25_idf docs (f32_of_N (N.of_nat list_len)))
    (bm25_norm (f32_of_N p.2) (f32_of_N (default 0%N (lengths ti !! p.1))) avg_length).

Definition score_term (ti : TextIndex) (docs avg_length : f32) (keep : N → bool) (scores : gmap N f32)
    (term : string) : gmap N f32 :=
  match postings ti !! term with
  | None => scores
  | Some l =>
    foldl (λ scores p, if keep p.1 then add_score p.1 (posting_weight ti docs avg_length (length l) p) scores
                       else scores) scores l
  end.

Definition text_search (terms : list string) (k : nat) (keep : N → bool) (ti : TextIndex) : list (N * f32) :=
  let docs := f32_of_N (N.of_nat (size (lengths ti))) in
  if bool_decide (terms = []) || (k =? 0)%nat || f32_is_zero docs then []
  else
    let avg_length := f32_div (f32_of_N (total_length ti)) docs in
    let scores := foldl (score_term ti docs avg_length keep) ∅ terms in
    take k (sort_by (best_first (score_cmp snd fst)) (iter_order scores)).
End index.

(** ** Word statistics and BM25: theorems

    [text_wf] says that the index holds exactly the statistics of the texts
    indexed under their ids.  Adding and removing keep it, and the words of a
    query and its ranking are those computed from the texts. *)

(** ** Folds that change one entry at a time *)

Lemma fold_local {K A B} `{Countable K} (f : gmap K A → K * B → gmap K A) (g : K → B → option A → option A)
    (l : list (K * B)) (m : gmap K A) t :
  (∀ m e, f m e !! e.1 = g e.1 e.2 (m !! e.1)) → (∀ m e t, t ≠ e.1 → f m e !! t = m !! t) → NoDup l.*1 →
  foldl f m l !! t = match (list_to_map l : gmap K B) !! t with Some b => g t b (m !! t) | None => m !! t end.
Proof.
  intros Hkey Hother. revert m. induction l as [|[k b] l IH]; intros m Hnd; [done|]. csimpl.
  apply NoDup_cons in Hnd as [Hk Hnd]. rewrite IH by done. destruct (decide (t = k)) as [->|Hne].
  - rewrite lookup_insert_eq. rewrite (not_elem_of_list_to_map_1 l k) by done.
    exact (Hkey m (k, b)).
  - rewrite lookup_insert_ne by done. by rewrite (Hother m (k, b)) by done.
Qed.

(** Counting the entries with a property. *)
Section counts.
Context {K A : Type} `{Countable K} (P : K * A → Prop) `{!∀ e, base.Decision (P e)}.

Lemma filter_size_insert (m : gmap K A) k x :
  m !! k = None → size (filter P (<[k := x]> m)) = (size (filter P m) + if decide (P (k, x)) then 1 else 0)%nat.
Proof.
  intros Hk. rewrite map_filter_insert. case_decide as HP.
  - rewrite map_size_insert_None; [lia|]. apply map_lookup_filter_None. by left.
  - rewrite delete_id by done. lia.
Qed.

Lemma filter_size_delete (m : gmap K A) k x :
  m !! k = Some x →
  size (filter P m) = (size (filter P (base.delete k m)) + if decide (P (k, x)) then 1 else 0)%nat.
Proof.
  intros Hk. rewrite <-(insert_delete_id m k x) at 1 by done. apply filter_size_insert, lookup_delete_eq.
Qed.
End counts.

Section thms.
Context `{U : Unicode} `{AN : Alphanumeric} `{MOL : MapOrderLaws} `{L : Libm}.

Lemma iter_to_map {K A} `{Countable K} (m : gmap K A) : NoDup (iter_order m).*1 ∧ (list_to_map (iter_order m) : gmap K A) = m.
Proof.
  pose proof (iter_order_perm m) as Hp. split.
  - rewrite Hp. apply NoDup_fst_map_to_list.
  - rewrite <-(list_to_map_to_list m) at 2. apply list_to_map_proper; [|done].
    rewrite Hp. apply NoDup_fst_map_to_list.
Qed.

(** The same for a map iterated in the unspecified order, and for its keys. *)
Lemma iter_local {K A B} `{Countable K} (f : gmap K A → K * B → gmap K A) (g : K → B → option A → option A)
    (counts : gmap K B) (m : gmap K A) t :
  (∀ m e, f m e !! e.1 = g e.1 e.2 (m !! e.1)) → (∀ m e t, t ≠ e.1 → f m e !! t = m !! t) →
  foldl f m (iter_order counts) !! t = match counts !! t with Some b => g t b (m !! t) | None => m !! t end.
Proof.
  intros Hkey Hother. destruct (iter_to_map counts) as [Hnd Heq].
  rewrite (fold_local f g) by done. by rewrite Heq.
Qed.

Lemma keys_local {A} (f : gmap string A → string → gmap string A) (g : option A → option A)
    (counts : gmap string N) (m : gmap string A) t :
  (∀ m k, f m k !! k = g (m !! k)) → (∀ m k t, t ≠ k → f m k !! t = m !! t) →
  foldl f m (iter_order counts).*1 !! t = match counts !! t with Some _ => g (m !! t) | None => m !! t end.
Proof.
  intros Hkey Hother. rewrite foldl_fmap. apply (iter_local (λ m e, f m e.1) (λ _ _, g)).
  - intros m' e. apply Hkey.
  - intros m' e t'. apply Hother.
Qed.

(** ** The invariant *)

Definition has_word (t text : string) : Prop := is_Some (term_counts text !! t).

(** How many texts have the word. *)
Definition word_df (M : gmap N string) (t : string) : nat := size (filter (λ e, has_word t e.2) M).

(** Words of a text, with repeats. *)
Definition word_count (text : string) : N := foldl u32_add 0%N (iter_order (term_counts text)).*2.

Definition sum_lengths (lens : gmap N N) : N := map_fold (λ _ n s, n + s)%N 0%N lens.

(** The texts with postings. *)
Definition posted (ti : TextIndex) (M : gmap N string) : gmap N string := if keeps_postings ti then M else ∅.

Record text_wf (M : gmap N string) (ti : TextIndex) : Prop := {
  tw_docs : docs ti = N.of_nat (size M);
  tw_df t : df ti !! t = if (word_df M t =? 0)%nat then None else Some (N.of_nat (word_df M t));
  tw_postings t id tf : (id, tf) ∈ default [] (postings ti !! t) ↔
    ∃ text, posted ti M !! id = Some text ∧ term_counts text !! t = Some tf;
  tw_nodup t : NoDup (default [] (postings ti !! t)).*1;
  tw_nonempty t : postings ti !! t ≠ Some [];
  tw_lengths : lengths ti = word_count <$> posted ti M;
  tw_total : total_length ti = (sum_lengths (lengths ti) `mod` u64_mod)%N;
}.

Lemma text_new_wf on : text_wf ∅ (TextIndex_new on).
Proof.
  split; [done|..].
  - intros t. simpl. unfold word_df. by rewrite map_filter_empty, lookup_empty.
  - intros t id tf. simpl. rewrite lookup_empty. simpl. rewrite elem_of_nil. split; [done|].
    intros (text & Ht & _). unfold posted in Ht. simpl in Ht. destruct on; by rewrite lookup_empty in Ht.
  - intros t. simpl. rewrite lookup_empty. constructor.
  - intros t. simpl. by rewrite lookup_empty.
  - unfold posted. simpl. by destruct on; rewrite fmap_empty.
  - done.
Qed.

Lemma word_df_insert (M : gmap N string) id text t :
  M !! id = None → word_df (<[id := text]> M) t = word_df M t + (if decide (has_word t text) then 1 else 0).
Proof.
  intros Hid. unfold word_df. by rewrite filter_size_insert.
Qed.

Lemma word_df_delete (M : gmap N string) id text t :
  M !! id = Some text → word_df M t = word_df (base.delete id M) t + (if decide (has_word t text) then 1 else 0).
Proof.
  intros Hid. unfold word_df. by rewrite (filter_size_delete _ M id text Hid).
Qed.

Lemma word_df_le M t : (word_df M t ≤ size M)%nat.
Proof. unfold word_df. apply map_size_filter. Qed.

(** ** Adding *)

Lemma count_words (m counts : gmap string N) t :
  foldl count_word m (iter_order counts).*1 !! t
  = match counts !! t with Some _ => Some (u32_add (default 0%N (m !! t)) 1) | None => m !! t end.
Proof.
  apply (keys_local count_word (λ o, Some (u32_add (default 0%N o) 1))).
  - intros m' k. apply lookup_insert_eq.
  - intros m' k t' Hne. by apply lookup_insert_ne.
Qed.

Lemma push_postings (ps : gmap string (list (N * N))) id (counts : gmap string N) t :
  foldl (push_posting id) ps (iter_order counts) !! t
  = match counts !! t with Some tf => Some (default [] (ps !! t) ++ [(id, tf)]) | None => ps !! t end.
Proof.
  apply (iter_local (push_posting id) (λ _ tf o, Some (default [] o ++ [(id, tf)]))).
  - intros m' e. apply lookup_insert_eq.
  - intros m' e t' Hne. by apply lookup_insert_ne.
Qed.

Lemma sum_lengths_insert (lens : gmap N N) id n :
  lens !! id = None → sum_lengths (<[id := n]> lens) = (n + sum_lengths lens)%N.
Proof. intros Hid. unfold sum_lengths. rewrite map_fold_insert_L; [done|intros; lia|done]. Qed.

Lemma sum_lengths_delete (lens : gmap N N) id n :
  lens !! id = Some n → sum_lengths lens = (n + sum_lengths (base.delete id lens))%N.
Proof.
  intros Hid. rewrite <-(insert_delete_id lens id n) at 1 by done. apply sum_lengths_insert, lookup_delete_eq.
Qed.

Lemma text_add_wf M ti id text :
  text_wf M ti → M !! id = None → (N.of_nat (S (size M)) < u32_mod)%N →
  text_wf (<[id := text]> M) (text_add id text ti) ∧ keeps_postings (text_add id text ti) = keeps_postings ti.
Proof.
  intros [Hdocs Hdf Hps Hnd Hne Hlen Htot] Hid Hsz.
  assert (u32_add (docs ti) 1 = N.of_nat (size (<[id := text]> M))) as Hdocs'.
  { rewrite map_size_insert_None, Hdocs by done. unfold u32_add. rewrite N.mod_small; lia. }
  assert (∀ t, foldl count_word (df ti) (iter_order (term_counts text)).*1 !! t
    = if (word_df (<[id := text]> M) t =? 0)%nat then None else Some (N.of_nat (word_df (<[id := text]> M) t))) as Hdf'.
  { intros t. rewrite count_words, word_df_insert, Hdf by done. pose proof (word_df_le M t).
    unfold has_word. destruct (term_counts text !! t) as [n|].
    - rewrite decide_True by by eexists. rewrite Nat.add_comm. simpl. f_equal.
      destruct (word_df M t); [done|]. simpl. unfold u32_add. rewrite N.mod_small; lia.
    - rewrite decide_False by by intros [? ?]. by rewrite Nat.add_0_r. }
  unfold posted in *. unfold text_add. destruct (keeps_postings ti) eqn:Hk; cbn [keeps_postings negb df docs postings lengths total_length].
  - split; [|done]. rewrite Hlen. rewrite lookup_fmap, Hid. cbn [fmap option_fmap option_map].
    split; unfold posted; simpl; rewrite ?Hk; [done|done| | | | |].
    + intros t id' tf. rewrite push_postings. destruct (term_counts text !! t) as [n|] eqn:Hc; simpl.
      * rewrite elem_of_app, list_elem_of_singleton, Hps. split.
        -- intros [(text' & Ht & Htf)|[= -> ->]]; [|exists text; by rewrite lookup_insert_eq].
           exists text'. split; [|done]. rewrite lookup_insert_ne; [done|]. by intros ->; rewrite Hid in Ht.
        -- intros (text' & [[<- <-]|[_ Ht]]%lookup_insert_Some & Htf); [right; congruence|left; by exists text'].
      * rewrite Hps. split.
        -- intros (text' & Ht & Htf). exists text'. split; [|done]. rewrite lookup_insert_ne; [done|].
           by intros ->; rewrite Hid in Ht.
        -- intros (text' & [[<- <-]|[_ Ht]]%lookup_insert_Some & Htf); [congruence|by exists text'].
    + intros t. rewrite push_postings. destruct (term_counts text !! t) as [n|]; [|done]. simpl.
      rewrite fmap_app. apply NoDup_app. split; [done|]. split; [|apply NoDup_singleton].
      intros x ([x' tf] & Heq & Hx)%list_elem_of_fmap Hx'%list_elem_of_singleton. simpl in *. subst x x'.
      apply Hps in Hx as (text' & Ht & _). by rewrite Hid in Ht.
    + intros t. rewrite push_postings. destruct (term_counts text !! t) as [n|]; [|done].
      by destruct (default [] (postings ti !! t)).
    + by rewrite fmap_insert.
    + rewrite sum_lengths_insert by by rewrite lookup_fmap, Hid. unfold word_count, u64_add.
      rewrite Htot, Hlen, N.add_comm. by rewrite N.Div0.add_mod_idemp_r.
  - split; [|done]. by split; unfold posted; simpl; rewrite ?Hk.
Qed.
(** ** Removing *)

Lemma uncount_words (m counts : gmap string N) t :
  foldl uncount_word m (iter_order counts).*1 !! t
  = match counts !! t, m !! t with
    | Some _, Some n => if (u32_pred n =? 0)%N then None else Some (u32_pred n)
    | _, o => o
    end.
Proof.
  rewrite (keys_local uncount_word
    (λ o, match o with Some n => if (u32_pred n =? 0)%N then None else Some (u32_pred n) | None => None end)).
  - by destruct (counts !! t), (m !! t).
  - intros m' k. unfold uncount_word. destruct (m' !! k) as [n|] eqn:Hn; [|done].
    destruct (u32_pred n =? 0)%N; [apply lookup_delete_eq|apply lookup_insert_eq].
  - intros m' k t' Hne. unfold uncount_word. destruct (m' !! k); [|done].
    destruct (u32_pred n =? 0)%N; [by apply lookup_delete_ne|by apply lookup_insert_ne].
Qed.

Lemma drop_postings (ps : gmap string (list (N * N))) id (counts : gmap string N) t :
  foldl (drop_posting id) ps (iter_order counts).*1 !! t
  = match counts !! t, ps !! t with
    | Some _, Some l => match filter (λ p, p.1 ≠ id) l with [] => None | l => Some l end
    | _, o => o
    end.
Proof.
  rewrite (keys_local (drop_posting id)
    (λ o, match o with Some l => match filter (λ p, p.1 ≠ id) l with [] => None | l => Some l end | None => None end)).
  - by destruct (counts !! t), (ps !! t).
  - intros m' k. unfold drop_posting. destruct (m' !! k) as [l|] eqn:Hn; [|done].
    destruct (filter _ l); [apply lookup_delete_eq|apply lookup_insert_eq].
  - intros m' k t' Hne. unfold drop_posting. destruct (m' !! k) as [l|]; [|done].
    destruct (filter _ l); [by apply lookup_delete_ne|by apply lookup_insert_ne].
Qed.

(** The postings that are left of a list. *)
Lemma drop_postings_default (ps : gmap string (list (N * N))) id (counts : gmap string N) t :
  default [] (foldl (drop_posting id) ps (iter_order counts).*1 !! t)
  = match counts !! t with
    | Some _ => filter (λ p, p.1 ≠ id) (default [] (ps !! t))
    | None => default [] (ps !! t)
    end.
Proof.
  rewrite drop_postings. destruct (counts !! t), (ps !! t) as [l|]; simpl; [|done..].
  by destruct (filter _ l).
Qed.

Lemma fold_u32_lt xs n : (n < u32_mod → foldl u32_add n xs < u32_mod)%N.
Proof.
  revert n. induction xs as [|x xs IH]; intros n Hn; [done|]. csimpl. apply IH. by apply N.mod_lt.
Qed.

Lemma u64_sub_sum a b : (a < u64_mod)%N → u64_sub ((a + b) `mod` u64_mod) a = (b `mod` u64_mod)%N.
Proof.
  intros Ha. unfold u64_sub. rewrite (N.mod_small a) by done.
  rewrite <-N.add_sub_assoc, N.Div0.add_mod_idemp_l by lia.
  replace (a + b + (u64_mod - a))%N with (b + 1 * u64_mod)%N by lia. apply N.Div0.mod_add.
Qed.

Lemma text_remove_wf M ti id text :
  text_wf M ti → M !! id = Some text → (N.of_nat (size M) < u32_mod)%N →
  text_wf (base.delete id M) (text_remove id text ti) ∧ keeps_postings (text_remove id text ti) = keeps_postings ti.
Proof.
  intros [Hdocs Hdf Hps Hnd Hne Hlen Htot] Hid Hsz. split; [|done].
  assert (posted (text_remove id text ti) (base.delete id M) = base.delete id (posted ti M)) as Hposted.
  { unfold posted. simpl. destruct (keeps_postings ti); [done|]. by rewrite delete_empty. }
  assert (∀ t x, x ∈ default [] (foldl (drop_posting id) (postings ti) (iter_order (term_counts text)).*1 !! t)
    ↔ x ∈ default [] (postings ti !! t) ∧ x.1 ≠ id) as Hin.
  { intros t [x tf]. rewrite drop_postings_default. destruct (term_counts text !! t) as [n|] eqn:Hc.
    - rewrite list_elem_of_filter. tauto.
    - split; [|tauto]. intros Hx. split; [done|]. intros Hxid. simpl in Hxid. subst x. apply Hps in Hx as (text' & Ht & Htf).
      unfold posted in Ht. destruct (keeps_postings ti); [congruence|by rewrite lookup_empty in Ht]. }
  split.
  - simpl. rewrite Hdocs, map_size_delete_Some; [lia|by eexists].
  - intros t. simpl. rewrite uncount_words, Hdf. pose proof (word_df_le M t) as Hle.
    rewrite (word_df_delete M id text t Hid) in *. unfold has_word in *.
    destruct (term_counts text !! t) as [n|].
    + rewrite decide_True in * by by eexists. rewrite Nat.add_comm in *. simpl.
      assert (u32_pred (N.of_nat (S (word_df (base.delete id M) t))) = N.of_nat (word_df (base.delete id M) t)) as Hp.
      { unfold u32_pred. replace (N.of_nat (S (word_df (base.delete id M) t)) + (u32_mod - 1))%N with
          (N.of_nat (word_df (base.delete id M) t) + 1 * u32_mod)%N by (unfold u32_mod in *; lia).
        rewrite N.Div0.mod_add. apply N.mod_small. lia. }
      change (N.pos (Pos.of_succ_nat (word_df (base.delete id M) t))) with (N.of_nat (S (word_df (base.delete id M) t))).
      rewrite Hp. by destruct (word_df (base.delete id M) t).
    + rewrite decide_False by by intros [? ?]. rewrite Nat.add_0_r. by destruct (word_df _ t).
  - intros t id' tf. rewrite Hposted. change (postings (text_remove id text ti)) with
      (foldl (drop_posting id) (postings ti) (iter_order (term_counts text)).*1).
    rewrite Hin, Hps. simpl. setoid_rewrite lookup_delete_Some. naive_solver.
  - intros t. simpl. rewrite drop_postings_default. destruct (term_counts text !! t); [|done].
    by apply NoDup_fmap_filter.
  - intros t. simpl. rewrite drop_postings. destruct (term_counts text !! t); [|by apply Hne].
    destruct (postings ti !! t) as [l|]; [|done]. by destruct (filter _ l).
  - rewrite Hposted, fmap_delete, <-Hlen. done.
  - simpl. rewrite Hlen, lookup_fmap, Htot, Hlen. unfold posted. destruct (keeps_postings ti).
    + rewrite Hid. simpl. rewrite (sum_lengths_delete (word_count <$> M) id (word_count text))
        by by rewrite lookup_fmap, Hid.
      rewrite u64_sub_sum; [done|]. unfold word_count. apply N.lt_trans with u32_mod; [by apply fold_u32_lt|done].
    + by rewrite lookup_empty, fmap_empty, delete_empty.
Qed.

(** ** Queries *)

(** The words worth searching for: those of the query that are rare enough,
    in order, once each. *)
Lemma query_terms_spec M ti query :
  text_wf M ti →
  StronglySorted String.le (query_terms query ti) ∧ NoDup (query_terms query ti)
  ∧ ∀ t, t ∈ query_terms query ti ↔ t ∈ tokens query ∧ (N.of_nat (word_df M t) ≤ max_df ti)%N.
Proof.
  intros [_ Hdf _ _ _ _ _]. unfold query_terms. destruct (sort_dedup_spec (tokens query)) as (Hs & Hnd & Hin).
  split_and!; [by apply StronglySorted_filter|by apply NoDup_filter|].
  intros t. rewrite list_elem_of_filter, Hin, Hdf.
  destruct (Nat.eqb_spec (word_df M t) 0) as [->|_]; [|simpl; tauto].
  assert (0 ≤ max_df ti)%N by apply N.le_0_l. simpl. tauto.
Qed.
(** ** Ranking *)

(** Texts with postings and their term frequencies. *)
Definition frequency (M : gmap N string) (t : string) (id : N) : option N :=
  M !! id ≫= λ text, term_counts text !! t.

Lemma postings_of M ti t l :
  text_wf M ti → postings ti !! t = Some l →
  (∀ id, (list_to_map l : gmap N N) !! id = frequency (posted ti M) t id) ∧ length l = word_df (posted ti M) t.
Proof.
  intros [_ _ Hps Hnd _ _ _] Hl. specialize (Hps t). specialize (Hnd t). rewrite Hl in Hps, Hnd. simpl in Hps, Hnd.
  assert (∀ id tf, (id, tf) ∈ l ↔ frequency (posted ti M) t id = Some tf) as Hin.
  { intros id tf. rewrite Hps. unfold frequency. destruct (posted ti M !! id); simpl; [|naive_solver]. naive_solver. }
  split.
  - intros id. apply option_eq. intros tf. by rewrite <-elem_of_list_to_map, Hin.
  - transitivity (length l.*1); [by rewrite length_fmap|]. unfold word_df. rewrite <-size_dom.
    rewrite <-(size_list_to_set (C := gset N) l.*1) by done. f_equal. apply set_eq. intros id.
    rewrite elem_of_list_to_set, list_elem_of_fmap, elem_of_dom. unfold is_Some.
    setoid_rewrite map_lookup_filter_Some. unfold has_word, is_Some. simpl. split.
    + intros ([id' tf] & -> & Hx%Hps). naive_solver.
    + intros (text & Ht & tf & Htf). exists (id, tf). split; [done|]. apply Hps. by exists text.
Qed.

Lemma no_postings M ti t : text_wf M ti → postings ti !! t = None → ∀ id, frequency (posted ti M) t id = None.
Proof.
  intros [_ _ Hps _ _ _ _] Hl id. unfold frequency. destruct (posted ti M !! id) as [text|] eqn:Ht; [|done]. simpl.
  destruct (term_counts text !! t) as [tf|] eqn:Hc; [|done].
  assert ((id, tf) ∈ default [] (postings ti !! t)) as Hin by (apply Hps; by exists text).
  rewrite Hl in Hin. by apply elem_of_nil in Hin.
Qed.

(** The weight of a term for a text, and the score of a text, from the texts. *)
Definition bm25_weight (M : gmap N string) (docs avg : f32) (t : string) (id : N) : option f32 :=
  tf ← frequency M t id;
  Some (f32_mul (bm25_idf docs (f32_of_N (N.of_nat (word_df M t))))
    (bm25_norm (f32_of_N tf) (f32_of_N (default 0%N (word_count <$> M !! id))) avg)).

Definition bm25_weights (M : gmap N string) (docs avg : f32) (terms : list string) (id : N) : list f32 :=
  omap (λ t, bm25_weight M docs avg t id) terms.

Definition add_weight (o : option f32) (w : f32) : option f32 := Some (f32_add (default f32_zero o) w).

Lemma score_term_lookup M ti docs avg keep scores t id :
  text_wf M ti →
  score_term ti docs avg keep scores t !! id
  = match bm25_weight (posted ti M) docs avg t id with
    | Some w => if keep id then add_weight (scores !! id) w else scores !! id
    | None => scores !! id
    end.
Proof.
  intros Hw. unfold score_term, bm25_weight. destruct (postings ti !! t) as [l|] eqn:Hl.
  - destruct (postings_of M ti t l Hw Hl) as [Hmap Hlen].
    assert (NoDup l.*1) as Hnd by (pose proof (tw_nodup _ _ Hw t) as Hn; by rewrite Hl in Hn).
    rewrite (fold_local _ (λ i tf o, if keep i then add_weight o (posting_weight ti docs avg (length l) (i, tf)) else o));
      [|..|done].
    + rewrite Hmap. destruct (frequency (posted ti M) t id) as [tf|]; [|done]. cbn [mbind option_bind].
      unfold posting_weight. cbn [fst snd]. rewrite Hlen, (tw_lengths _ _ Hw), lookup_fmap. done.
    + intros m [i tf]. cbn [fst snd]. destruct (keep i); [|done]. unfold add_score. by rewrite lookup_insert_eq.
    + intros m [i tf] id' Hne. cbn [fst snd] in *. destruct (keep i); [|done]. unfold add_score. by rewrite lookup_insert_ne.
  - by rewrite (no_postings M ti t Hw Hl id).
Qed.

Lemma score_terms_lookup M ti docs avg keep terms scores id :
  text_wf M ti →
  foldl (score_term ti docs avg keep) scores terms !! id
  = if keep id then foldl add_weight (scores !! id) (bm25_weights (posted ti M) docs avg terms id) else scores !! id.
Proof.
  intros Hw. revert scores. induction terms as [|t terms IH]; intros scores; [by destruct (keep id)|].
  cbn [foldl]. rewrite IH, (score_term_lookup M) by done. unfold bm25_weights. cbn [omap list_omap].
  destruct (bm25_weight (posted ti M) docs avg t id); by destruct (keep id).
Qed.

Lemma add_weights o ws :
  foldl add_weight o ws = match ws with [] => o | _ => Some (foldl f32_add (default f32_zero o) ws) end.
Proof. revert o. induction ws as [|w ws IH]; intros o; [done|]. cbn [foldl]. rewrite IH. by destruct ws. Qed.

Lemma of_N_nonzero n : (n ≠ 0)%N → f32_is_zero (f32_of_N n) = false.
Proof.
  intros Hn. destruct n as [|p]; [done|]. unfold f32_of_N, SpecFloat.binary_normalize. simpl Z.of_N.
  unfold SpecFloat.binary_round, SpecFloat.shl_align.
  assert (-149 <= SpecFloat.fexp 24 128 (Z.pos (SpecFloat.digits2_pos p) + 0))%Z
    by (unfold SpecFloat.fexp, SpecFloat.emin; lia).
  assert (∀ m e, (1 <= m)%Z → (-149 <= e)%Z →
    f32_is_zero (SpecFloat.binary_round_aux 24 128 false m e SpecFloat.loc_Exact) = false) as Hr.
  { intros m e Hm He. pose proof (round_aux_nonzero false m e) as Hz.
    destruct (SpecFloat.binary_round_aux _ _ _ _ _ _) as [z| | |]; [|done..]. by destruct (Hz z). }
  destruct (SpecFloat.fexp 24 128 (Z.pos (SpecFloat.digits2_pos p) + 0) - 0)%Z; apply Hr; lia.
Qed.

(** The ranking a search returns the head of. *)
Definition bm25_ranking (M : gmap N string) (ti : TextIndex) (terms : list string) (keep : N → bool)
    (ranked : list (N * f32)) : Prop :=
  let docs := f32_of_N (N.of_nat (size M)) in
  let avg := f32_div (f32_of_N (total_length ti)) docs in
  NoDup ranked.*1 ∧ StronglySorted (cmp_le (best_first (score_cmp snd fst))) ranked
  ∧ ∀ id x, (id, x) ∈ ranked ↔
      keep id = true ∧ bm25_weights M docs avg terms id ≠ []
      ∧ x = foldl f32_add f32_zero (bm25_weights M docs avg terms id).

Lemma text_search_spec M ti terms k keep :
  text_wf M ti →
  ∃ ranked, text_search terms k keep ti = take k ranked ∧ bm25_ranking (posted ti M) ti terms keep ranked.
Proof.
  intros Hw. set (docs := f32_of_N (N.of_nat (size (posted ti M)))).
  set (avg := f32_div (f32_of_N (total_length ti)) docs).
  set (scores := foldl (score_term ti docs avg keep) ∅ terms).
  assert (size (lengths ti) = size (posted ti M)) as Hsize by by rewrite (tw_lengths _ _ Hw), map_size_fmap.
  exists (sort_by (best_first (score_cmp snd fst)) (iter_order scores)).
  assert (∀ id, scores !! id = if keep id then
      match bm25_weights (posted ti M) docs avg terms id with
      | [] => None | ws => Some (foldl f32_add f32_zero ws) end else None) as Hscores.
  { intros id. unfold scores. rewrite (score_terms_lookup M) by done. rewrite add_weights, lookup_empty.
    destruct (keep id); [|done]. by destruct (bm25_weights _ _ _ _ _). }
  split.
  - unfold text_search. rewrite Hsize. fold docs. destruct (bool_decide (terms = [])) eqn:Ht.
    { apply bool_decide_eq_true in Ht as ->. unfold scores. simpl.
      assert (iter_order (∅ : gmap N f32) = []) as ->; [|by destruct k].
      apply Permutation_nil_r. by rewrite iter_order_perm, map_to_list_empty. }
    destruct (Nat.eqb_spec k 0) as [->|Hk]; [done|]. cbn [orb].
    destruct (f32_is_zero docs) eqn:Hz; [|done].
    assert (size (posted ti M) = 0%nat) as Hs0.
    { destruct (decide (size (posted ti M) = 0%nat)) as [|Hne]; [done|]. unfold docs in Hz.
      rewrite of_N_nonzero in Hz by lia. done. }
    apply map_size_empty_iff in Hs0. assert (scores = ∅) as ->.
    { apply map_empty. intros id. rewrite Hscores, Hs0. destruct (keep id); [|done].
      assert (bm25_weights ∅ docs avg terms id = []) as ->; [|done]. unfold bm25_weights.
      clear. induction terms as [|t ts IH]; [done|]. cbn [omap list_omap]. rewrite IH.
      unfold bm25_weight, frequency. by rewrite lookup_empty. }
    assert (iter_order (∅ : gmap N f32) = []) as ->; [|by destruct k].
    apply Permutation_nil_r. by rewrite iter_order_perm, map_to_list_empty.
  - unfold bm25_ranking. fold docs avg. split_and!.
    + rewrite sort_by_perm. apply iter_to_map.
    + apply sort_by_sorted, _.
    + intros id x. rewrite sort_by_perm, elem_of_iter_order, Hscores. destruct (keep id); [|naive_solver].
      destruct (bm25_weights _ _ _ _ _); naive_solver.
Qed.
End thms.
