(* ===== verification/Types.v ===== *)
(** * Core data types

    [core/context_update.rs] and [core/structured_context.rs]: the records a
    session is made of, their wire names, and the bounded conversation flow.
    Timestamps ([DateTime<Utc>]) are nanoseconds, ids 128-bit naturals. *)

From S2P Require Import Prelude RustStd F32.

Local Open Scope string_scope.

Abbreviation DateTime := Z (only parsing).
Abbreviation Uuid := N (only parsing).

(** ** Updates, entities, relations *)

Inductive UpdateType :=
  | QuestionAnswered | ProblemSolved | CodeChanged | DecisionMade
  | ConceptDefined | RequirementAdded.

Inductive EntityType :=
  | Technology | Concept | Problem | Solution | Decision_ | CodeComponent.

Inductive RelationType :=
  | RequiredBy | LeadsTo | RelatedTo | ConflictsWith | DependsOn | Implements
  | CausedBy | Solves.

#[global] Instance update_type_eq_dec : EqDecision UpdateType.
Proof. solve_decision. Defined.
#[global] Instance entity_type_eq_dec : EqDecision EntityType.
Proof. solve_decision. Defined.
#[global] Instance relation_type_eq_dec : EqDecision RelationType.
Proof. solve_decision. Defined.

Record TypedEntity := mkTypedEntity {
  te_name : string;
  te_entity_type : EntityType;
}.

Record UpdateMeta := mkUpdateMeta {
  valid_from : option DateTime;
  supersedes : list Uuid;
  um_confidence : option f32;
  retired_at : option DateTime;
}.

(** [UpdateMeta::default] (derived). *)
Definition UpdateMeta_default : UpdateMeta := mkUpdateMeta None [] None None.

Record UpdateContent := mkUpdateContent {
  uc_title : string;
  uc_description : string;
  uc_details : list string;
  uc_examples : list string;
  uc_implications : list string;
}.

Record CodeReference := mkCodeReference {
  file_path : string;
  start_line : N;
  end_line : N;
  code_snippet : string;
  commit_hash : option string;
  branch : option string;
  change_description : string;
}.

Record EntityRelationship := mkEntityRelationship {
  from_entity : string;
  to_entity : string;
  er_relation_type : RelationType;
  er_context : string;
}.

Record ContextUpdate := mkContextUpdate {
  cu_id : Uuid;
  cu_timestamp : DateTime;
  cu_update_type : UpdateType;
  cu_content : UpdateContent;
  related_code : option CodeReference;
  parent_update : option Uuid;
  user_marked_important : bool;
  creates_entities : list string;
  creates_relationships : list EntityRelationship;
  references_entities : list string;
  typed_entities : list TypedEntity;
  cu_author : option string;
  derived_from : list string;
  cu_meta : UpdateMeta;
}.

Record EntityData := mkEntityData {
  ed_name : string;
  ed_entity_type : EntityType;
  first_mentioned : DateTime;
  last_mentioned : DateTime;
  mention_count : N;
  importance_score : f32;
  ed_description : option string;
  aliases : list string;
}.

#[global] Instance entity_relationship_eq_dec : EqDecision EntityRelationship.
Proof. solve_decision. Defined.
#[global] Instance typed_entity_eq_dec : EqDecision TypedEntity.
Proof. solve_decision. Defined.
#[global] Instance code_reference_eq_dec : EqDecision CodeReference.
Proof. solve_decision. Defined.
#[global] Instance update_content_eq_dec : EqDecision UpdateContent.
Proof. solve_decision. Defined.
#[global] Instance update_meta_eq_dec : EqDecision UpdateMeta.
Proof. solve_decision. Defined.
#[global] Instance context_update_eq_dec : EqDecision ContextUpdate.
Proof. solve_decision. Defined.
#[global] Instance entity_data_eq_dec : EqDecision EntityData.
Proof. solve_decision. Defined.

(** ** Wire names *)

Definition UpdateType_as_str (t : UpdateType) : string :=
  match t with
  | QuestionAnswered => "qa"
  | ProblemSolved => "problem_solved"
  | CodeChanged => "code_change"
  | DecisionMade => "decision_made"
  | ConceptDefined => "concept_defined"
  | RequirementAdded => "requirement_added"
  end.

Definition EntityType_as_str (t : EntityType) : string :=
  match t with
  | Technology => "technology"
  | Concept => "concept"
  | Problem => "problem"
  | Solution => "solution"
  | Decision_ => "decision"
  | CodeComponent => "code_component"
  end.

Definition RelationType_as_str (t : RelationType) : string :=
  match t with
  | RequiredBy => "required_by"
  | LeadsTo => "leads_to"
  | RelatedTo => "related_to"
  | ConflictsWith => "conflicts_with"
  | DependsOn => "depends_on"
  | Implements => "implements"
  | CausedBy => "caused_by"
  | Solves => "solves"
  end.

(** Derived [Debug] of the unit variants, also their serde names. *)
Definition UpdateType_debug (t : UpdateType) : string :=
  match t with
  | QuestionAnswered => "QuestionAnswered"
  | ProblemSolved => "ProblemSolved"
  | CodeChanged => "CodeChanged"
  | DecisionMade => "DecisionMade"
  | ConceptDefined => "ConceptDefined"
  | RequirementAdded => "RequirementAdded"
  end.

Definition RelationType_debug (t : RelationType) : string :=
  match t with
  | RequiredBy => "RequiredBy"
  | LeadsTo => "LeadsTo"
  | RelatedTo => "RelatedTo"
  | ConflictsWith => "ConflictsWith"
  | DependsOn => "DependsOn"
  | Implements => "Implements"
  | CausedBy => "CausedBy"
  | Solves => "Solves"
  end.

(** [impl FromStr for RelationType]. *)
Definition RelationType_from_str (s : string) : result RelationType string :=
  if String.eqb s "RequiredBy" then Ok RequiredBy
  else if String.eqb s "LeadsTo" then Ok LeadsTo
  else if String.eqb s "RelatedTo" then Ok RelatedTo
  else if String.eqb s "ConflictsWith" then Ok ConflictsWith
  else if String.eqb s "DependsOn" then Ok DependsOn
  else if String.eqb s "Implements" then Ok Implements
  else if String.eqb s "CausedBy" then Ok CausedBy
  else if String.eqb s "Solves" then Ok Solves
  else Err ("Unknown RelationType: " +:+ s).

(** Derived [Ord]: declaration order. *)
Definition RelationType_index (t : RelationType) : Z :=
  match t with
  | RequiredBy => 0 | LeadsTo => 1 | RelatedTo => 2 | ConflictsWith => 3
  | DependsOn => 4 | Implements => 5 | CausedBy => 6 | Solves => 7
  end.

Definition RelationType_cmp (a b : RelationType) : comparison :=
  Z.compare (RelationType_index a) (RelationType_index b).

Definition weight (t : RelationType) : f32 :=
  match t with
  | DependsOn | Implements | Solves | CausedBy => f32_one
  | RequiredBy | LeadsTo => f32_0_8
  | ConflictsWith => f32_0_6
  | RelatedTo => f32_0_4
  end.

(** ** Structured context *)

Definition MAX_FLOW_ITEMS : nat := 500.

Inductive QuestionStatus := Open | InProgress | Answered | Deferred.

#[global] Instance question_status_eq_dec : EqDecision QuestionStatus.
Proof. solve_decision. Defined.

Record DecisionItem := mkDecisionItem {
  di_description : string;
  di_context : string;
  alternatives : list string;
  di_confidence : f32;
  di_timestamp : DateTime;
}.

Record QuestionItem := mkQuestionItem {
  question : string;
  qi_context : string;
  qi_status : QuestionStatus;
  qi_timestamp : DateTime;
  qi_last_updated : DateTime;
}.

Record ConceptItem := mkConceptItem {
  ci_name : string;
  definition : string;
  ci_examples : list string;
  related_concepts : list string;
  ci_timestamp : DateTime;
}.

Record SpecItem := mkSpecItem {
  si_title : string;
  si_description : string;
  requirements : list string;
  constraints : list string;
  si_timestamp : DateTime;
}.

Record FlowItem := mkFlowItem {
  step_description : string;
  fi_timestamp : DateTime;
  related_updates : list Uuid;
  outcome : option string;
}.

Record StructuredContext := mkStructuredContext {
  key_decisions : list DecisionItem;
  open_questions : list QuestionItem;
  key_concepts : list ConceptItem;
  technical_specifications : list SpecItem;
  conversation_flow : list FlowItem;
}.

(** [DecisionItem::new] clamps the confidence into [0, 1]. *)
Definition DecisionItem_new (description context : string) (alts : list string)
    (confidence : f32) (timestamp : DateTime) : DecisionItem :=
  mkDecisionItem description context alts
    (f32_clamp confidence f32_zero f32_one) timestamp.

Definition StructuredContext_new : StructuredContext :=
  mkStructuredContext [] [] [] [] [].

Definition with_flow (f : list FlowItem → list FlowItem) (c : StructuredContext) :=
  mkStructuredContext (key_decisions c) (open_questions c) (key_concepts c)
    (technical_specifications c) (f (conversation_flow c)).

Definition add_flow_item (item : FlowItem) (c : StructuredContext) : StructuredContext :=
  with_flow (λ flow,
    (if Nat.leb MAX_FLOW_ITEMS (length flow)
     then drop (MAX_FLOW_ITEMS / 10) flow else flow) ++ [item])%list c.

Definition total_items (c : StructuredContext) : nat :=
  length (key_decisions c) + length (open_questions c) + length (key_concepts c)
  + length (technical_specifications c) + length (conversation_flow c).

Definition context_is_empty (c : StructuredContext) : bool := Nat.eqb (total_items c) 0.

(** ** Lemmas *)

Lemma RelationType_from_str_debug t : RelationType_from_str (RelationType_debug t) = Ok t.
Proof. by destruct t. Qed.

Lemma RelationType_from_str_inv s t :
  RelationType_from_str s = Ok t → s = RelationType_debug t.
Proof.
  unfold RelationType_from_str. intros H.
  repeat match type of H with
  | (if String.eqb s ?x then _ else _) = _ =>
      destruct (String.eqb_spec s x); [by simplify_eq|]
  end. done.
Qed.

#[global] Instance RelationType_index_inj : Inj (=) (=) RelationType_index.
Proof. intros [] []; simpl; congruence. Qed.
