(* ===== verification/VectorTypes.v ===== *)
(** * Vectors and what is known about them

    [vector_db/types.rs] of [post-cortex-embeddings].  [HashMap] fields are
    finite maps; the counters of [VectorDbStats] are [usize] and [u64]
    atomics, read and written one call at a time.  [size_of::<StoredVector>()]
    is fixed by the compiler and stays a parameter of its users. *)

From stdpp Require Import gmap.
From S2P Require Import Prelude RustStd Types F32 FloatRound Similarity.

Local Open Scope string_scope.
Local Open Scope list_scope.

Record StoredVector := mkStoredVector {
  sv_id : N;
  sv_vector : list f32;
  sv_quantized : option (list N);
  sv_pq_codes : option (list N);
  sv_magnitude : f32;
}.

(** [v.iter().map(|x| x * x).sum::<f32>().sqrt()]. *)
Definition StoredVector_new (id : N) (vector : list f32) (quantized pq_codes : option (list N))
    : StoredVector :=
  mkStoredVector id vector quantized pq_codes
    (f32_sqrt (f32_sum ((λ x, f32_mul x x) <$> vector))).

Definition MESSAGE_CONTENT_TYPE : string := "Message".

Inductive Corpus := CorpusRecords | CorpusMessages | CorpusAll.

#[global] Instance Corpus_eq_dec : EqDecision Corpus.
Proof. solve_decision. Defined.

Definition admits (c : Corpus) (content_type : string) : bool :=
  match c with
  | CorpusAll => true
  | CorpusRecords => negb (String.eqb content_type MESSAGE_CONTENT_TYPE)
  | CorpusMessages => String.eqb content_type MESSAGE_CONTENT_TYPE
  end.

Definition Corpus_parse (s : string) : option Corpus :=
  if String.eqb s "records" then Some CorpusRecords
  else if String.eqb s "messages" then Some CorpusMessages
  else if String.eqb s "all" then Some CorpusAll
  else None.

Record VectorMetadata := mkVectorMetadata {
  vm_id : string;
  vm_text : string;
  vm_source : string;
  vm_content_type : string;
  vm_timestamp : DateTime;
  vm_metadata : gmap string string;
}.

(** [now] is the clock's reading. *)
Definition VectorMetadata_new (now : DateTime) (id text source content_type : string) : VectorMetadata :=
  mkVectorMetadata id text source content_type now ∅.

Definition with_timestamp (timestamp : DateTime) (m : VectorMetadata) : VectorMetadata :=
  mkVectorMetadata (vm_id m) (vm_text m) (vm_source m) (vm_content_type m) timestamp (vm_metadata m).

Definition with_metadata (key value : string) (m : VectorMetadata) : VectorMetadata :=
  mkVectorMetadata (vm_id m) (vm_text m) (vm_source m) (vm_content_type m) (vm_timestamp m)
    (<[key := value]> (vm_metadata m)).

Record SearchMatch := mkSearchMatch {
  mt_vector_id : N;
  mt_similarity : f32;
  mt_metadata : VectorMetadata;
}.

(** ** Statistics *)

Record VectorDbStats := mkVectorDbStats {
  total_vectors : N;
  is_built : bool;
  memory_usage_bytes : N;
  total_searches : N;
  total_search_time_us : N;
  search_hit_rate : f64;
  index_efficiency : f64;
  quantization_ratio : f64;
}.

Definition VectorDbStats_new : VectorDbStats :=
  mkVectorDbStats 0 false 0 0 0 f64_zero f64_zero f64_zero.

Definition with_vector_counts (total bytes : N) (built : bool) (s : VectorDbStats) : VectorDbStats :=
  mkVectorDbStats total built bytes (total_searches s) (total_search_time_us s)
    (search_hit_rate s) (index_efficiency s) (quantization_ratio s).

(** [fetch_add] wraps around. *)
Definition record_vector_added (vector_size_bytes : N) (s : VectorDbStats) : VectorDbStats :=
  with_vector_counts (u64_add (total_vectors s) 1) (u64_add (memory_usage_bytes s) vector_size_bytes)
    (is_built s) s.

(** [saturating_sub]. *)
Definition record_vector_removed (vector_size_bytes : N) (s : VectorDbStats) : VectorDbStats :=
  with_vector_counts (total_vectors s - 1) (memory_usage_bytes s - vector_size_bytes) (is_built s) s.

Definition record_search (duration_us : N) (s : VectorDbStats) : VectorDbStats :=
  mkVectorDbStats (total_vectors s) (is_built s) (memory_usage_bytes s)
    (u64_add (total_searches s) 1) (u64_add (total_search_time_us s) duration_us)
    (search_hit_rate s) (index_efficiency s) (quantization_ratio s).

Definition avg_search_time_us (s : VectorDbStats) : f64 :=
  if (0 <? total_searches s)%N
  then f64_div (f64_of_N (total_search_time_us s)) (f64_of_N (total_searches s))
  else f64_zero.

Record VectorDbStatsSnapshot := mkVectorDbStatsSnapshot {
  sn_total_vectors : N;
  sn_is_built : bool;
  sn_memory_usage_bytes : N;
  sn_avg_search_time_us : f64;
  sn_search_hit_rate : f64;
  sn_index_efficiency : f64;
  sn_quantization_ratio : f64;
}.

Definition snapshot (s : VectorDbStats) : VectorDbStatsSnapshot :=
  mkVectorDbStatsSnapshot (total_vectors s) (is_built s) (memory_usage_bytes s) (avg_search_time_us s)
    (search_hit_rate s) (index_efficiency s) (quantization_ratio s).

(** What a name parses to is a corpus with that name. *)
Lemma Corpus_parse_some s c :
  Corpus_parse s = Some c ↔
  s = match c with CorpusRecords => "records" | CorpusMessages => "messages" | CorpusAll => "all" end.
Proof.
  split.
  - unfold Corpus_parse. repeat (case_match; [by intros [= <-]; apply String.eqb_eq|]). done.
  - by intros ->; destruct c.
Qed.

(** The two proper corpora share out all content types. *)
Lemma admits_split ct : admits CorpusRecords ct = negb (admits CorpusMessages ct).
Proof. done. Qed.
