(* ===== verification/VectorDb.v ===== *)
(** * The in-memory vector database

    [vector_db/core.rs] of [post-cortex-embeddings], one call at a time: the
    vectors with their metadata, the indexes by source and content id, word
    statistics, and the adjacency lists for approximate search.  [TopK] is
    that of [vector_db/common.rs].  The durations a search records are
    arguments, the random layers are [draw], and [DashMap]s and [HashSet]s
    iterate through [MapOrder].  A rebuild inserts its nodes in parallel after
    a seed; here they are inserted one after the other, in the order
    [par_order] gives.  [size_of_stored] is [size_of::<StoredVector>()]. *)

From stdpp Require Import gmap.
From S2P Require Import Prelude RustStd F32 Collections TopK HnswIndex Similarity ProductQuantization TextIndex Types VectorTypes.

Local Open Scope string_scope.
Local Open Scope list_scope.

(** ** [config.rs] *)

Inductive SearchMode := Exact | Approximate | Balanced.
Inductive SearchQualityPreset := PresetFast | PresetBalanced | PresetAccurate | PresetMaximum.

Definition preset_ef_search (p : SearchQualityPreset) : nat :=
  match p with PresetFast => 32 | PresetBalanced => 64 | PresetAccurate => 128 | PresetMaximum => 256 end.

(** The fields the database reads. *)
Record VectorDbConfig := mkVectorDbConfig {
  dimension : nat;
  max_connections : nat;
  ef_construction : nat;
  ef_search : nat;
  num_layers : N;
  enable_quantization : bool;
  quantization_buckets : N;
  enable_hnsw_index : bool;
  exact_search_threshold : nat;
  max_vectors : nat;
  enable_product_quantization : bool;
  vc_pq_subvectors : nat;
  vc_pq_bits : nat;
  full_text_index : bool;
}.

Definition default_config : VectorDbConfig :=
  mkVectorDbConfig 384 16 200 50 4 false 256 true (N.to_nat 10000) (N.to_nat 100000) false 8 8 false.

(** ** [common.rs] *)

Record SearchResult := mkSearchResult { res_id : N; res_similarity : f32 }.

(** [SearchResult::cmp]. *)
Definition result_cmp : SearchResult → SearchResult → comparison := score_cmp res_similarity res_id.

(** [TopK::push]. *)
Definition topk_push (k : nat) (heap : list SearchResult) (r : SearchResult) : list SearchResult :=
  if (k =? 0)%nat || f32_is_nan (res_similarity r) then heap
  else heap_offer result_cmp (cmp_gt result_cmp) k heap r.

(** ** State *)

Definition ENTITY_DESCRIPTION : string := "EntityDescription".

Definition is_update (content_type : string) : bool :=
  negb (String.eqb content_type ENTITY_DESCRIPTION) && negb (String.eqb content_type MESSAGE_CONTENT_TYPE).

Record SourceIds := mkSourceIds { src_ids : gset N; update_count : nat }.

Record VectorDB := mkVectorDB {
  vectors : gmap N StoredVector;
  vector_metadata : gmap N VectorMetadata;
  by_source : gmap string SourceIds;
  by_content_id : gmap string (list N);
  message_vectors : N;
  next_id : N;
  db_stats : VectorDbStats;
  hnsw : HnswIndex;
  hnsw_active : bool;
  text_index : TextIndex;
}.

Definition with_maps (vs : gmap N StoredVector) (ms : gmap N VectorMetadata) (db : VectorDB) : VectorDB :=
  mkVectorDB vs ms (by_source db) (by_content_id db) (message_vectors db) (next_id db) (db_stats db)
    (hnsw db) (hnsw_active db) (text_index db).

Definition with_indexes (src : gmap string SourceIds) (content : gmap string (list N)) (messages : N)
    (ti : TextIndex) (db : VectorDB) : VectorDB :=
  mkVectorDB (vectors db) (vector_metadata db) src content messages (next_id db) (db_stats db)
    (hnsw db) (hnsw_active db) ti.

Definition with_next_id (n : N) (db : VectorDB) : VectorDB :=
  mkVectorDB (vectors db) (vector_metadata db) (by_source db) (by_content_id db) (message_vectors db) n
    (db_stats db) (hnsw db) (hnsw_active db) (text_index db).

Definition with_stats (f : VectorDbStats → VectorDbStats) (db : VectorDB) : VectorDB :=
  mkVectorDB (vectors db) (vector_metadata db) (by_source db) (by_content_id db) (message_vectors db) (next_id db)
    (f (db_stats db)) (hnsw db) (hnsw_active db) (text_index db).

Definition with_graph (h : HnswIndex) (active : bool) (db : VectorDB) : VectorDB :=
  mkVectorDB (vectors db) (vector_metadata db) (by_source db) (by_content_id db) (message_vectors db) (next_id db)
    (db_stats db) h active (text_index db).

Definition set_hnsw (h : HnswIndex) (db : VectorDB) : VectorDB := with_graph h (hnsw_active db) db.

Section db.
Context `{U : Unicode} `{AN : Alphanumeric} `{MO : MapOrder} `{L : Libm}.
Variable config : VectorDbConfig.
(** What [new] makes of the configuration, and [quantization_params]: [None]
    since [new], for nothing stores any. *)
Variable pq_codebook : option ProductQuantizationCodebook.
Variable quantization_params : option (list f32 * list f32).
Variable size_of_stored : N.

(** Iteration over a [HashSet<u32>]. *)
Definition set_order (X : gset N) : list N := (iter_order (set_to_map (λ x, (x, tt)) X : gmap N ())).*1.

Definition VectorDB_new : VectorDB :=
  mkVectorDB ∅ ∅ ∅ ∅ 0 0 VectorDbStats_new HnswIndex_new false (TextIndex_new (full_text_index config)).

Definition stored_vector_size (stored : StoredVector) : N :=
  (size_of_stored + N.of_nat (length (sv_vector stored)) * 4
   + N.of_nat (length (default [] (sv_quantized stored))) + N.of_nat (length (default [] (sv_pq_codes stored))))%N.

Definition at_capacity (db : VectorDB) : bool := (max_vectors config <=? size (vectors db))%nat.

(** [n as u8]. *)
Definition as_u8 (n : N) : N := (n `mod` 256)%N.

Definition quantize_value (min_vals max_vals : list f32) (i : nat) (value : f32) : N :=
  match min_vals !! i, max_vals !! i with
  | Some min_val, Some max_val =>
    let bucket :=
      if f32_lt min_val max_val
      then f32_to_uint 255 (f32_mul (f32_div (f32_sub value min_val) (f32_sub max_val min_val))
                              (f32_of_N (quantization_buckets config - 1)))
      else as_u8 (quantization_buckets config / 2) in
    N.min bucket (as_u8 (as_u8 (quantization_buckets config) + 255))
  | _, _ => 0%N
  end.

(** Without parameters [-1, 1] maps to [0, 255]. *)
Definition quantize_raw (x : f32) : N :=
  f32_to_uint 255 (f32_clamp (f32_mul (f32_add x f32_one) (f32_div (f32_of_N 255) (f32_of_N 2))) f32_zero (f32_of_N 255)).

Definition quantize_vector (vector : list f32) : list N :=
  match quantization_params with
  | Some (min_vals, max_vals) => imap (quantize_value min_vals max_vals) vector
  | None => quantize_raw <$> vector
  end.

(** ** The secondary indexes *)

Definition index_metadata (id : N) (md : VectorMetadata) (db : VectorDB) : VectorDB :=
  let entry := default (mkSourceIds ∅ 0) (by_source db !! vm_source md) in
  let '(entry, messages) :=
    if decide (id ∈ src_ids entry) then (entry, message_vectors db)
    else
      let ids := {[id]} ∪ src_ids entry in
      if is_update (vm_content_type md) then (mkSourceIds ids (S (update_count entry)), message_vectors db)
      else if String.eqb (vm_content_type md) MESSAGE_CONTENT_TYPE
      then (mkSourceIds ids (update_count entry), u64_add (message_vectors db) 1)
      else (mkSourceIds ids (update_count entry), message_vectors db) in
  with_indexes (<[vm_source md := entry]> (by_source db))
    (<[vm_id md := default [] (by_content_id db !! vm_id md) ++ [id]]> (by_content_id db))
    messages (text_add id (vm_text md) (text_index db)) db.

Definition unindex_source (id : N) (md : VectorMetadata) (db : VectorDB) : gmap string SourceIds * N :=
  match by_source db !! vm_source md with
  | None => (by_source db, message_vectors db)
  | Some entry =>
    let '(entry, messages) :=
      if decide (id ∈ src_ids entry) then
        let ids := src_ids entry ∖ {[id]} in
        if is_update (vm_content_type md) then (mkSourceIds ids (update_count entry - 1), message_vectors db)
        else if String.eqb (vm_content_type md) MESSAGE_CONTENT_TYPE
        then (mkSourceIds ids (update_count entry), u64_sub (message_vectors db) 1)
        else (mkSourceIds ids (update_count entry), message_vectors db)
      else (entry, message_vectors db) in
    (if decide (src_ids entry = ∅) then base.delete (vm_source md) (by_source db)
     else <[vm_source md := entry]> (by_source db), messages)
  end.

Definition unindex_content (id : N) (md : VectorMetadata) (db : VectorDB) : gmap string (list N) :=
  match by_content_id db !! vm_id md with
  | None => by_content_id db
  | Some ids =>
    match filter (λ v, v ≠ id) ids with
    | [] => base.delete (vm_id md) (by_content_id db)
    | ids => <[vm_id md := ids]> (by_content_id db)
    end
  end.

Definition unindex_metadata (id : N) (md : VectorMetadata) (db : VectorDB) : VectorDB :=
  let '(src, messages) := unindex_source id md db in
  with_indexes src (unindex_content id md db) messages (text_remove id (vm_text md) (text_index db)) db.

(** ** Scoring *)

Definition similarity_to (query_vector : list f32) (query_norm : f32) (vector_id : N) (db : VectorDB) : option f32 :=
  (λ stored, cosine_with_norms query_vector (sv_vector stored) query_norm (sv_magnitude stored))
    <$> vectors db !! vector_id.

Definition passes (filter : option (VectorMetadata → bool)) (id : N) (db : VectorDB) : bool :=
  match filter with
  | None => true
  | Some f => match vector_metadata db !! id with Some m => f m | None => false end
  end.

Definition offer_id (query_vector : list f32) (query_norm : f32) (k : nat) (filter : option (VectorMetadata → bool))
    (db : VectorDB) (heap : list SearchResult) (id : N) : list SearchResult :=
  if passes filter id db then
    match similarity_to query_vector query_norm id db with
    | Some s => topk_push k heap (mkSearchResult id s)
    | None => heap
    end
  else heap.

Definition scan_ids (ids : list N) (query_vector : list f32) (query_norm : f32) (k : nat)
    (filter : option (VectorMetadata → bool)) (db : VectorDB) : list SearchResult :=
  foldl (offer_id query_vector query_norm k filter db) [] ids.

(** The entries of [vectors] are scored as they are read. *)
Definition scan_all (query_vector : list f32) (query_norm : f32) (k : nat)
    (filter : option (VectorMetadata → bool)) (db : VectorDB) : list SearchResult :=
  foldl (λ heap entry,
    if passes filter entry.1 db
    then topk_push k heap (mkSearchResult entry.1
           (cosine_with_norms query_vector (sv_vector entry.2) query_norm (sv_magnitude entry.2)))
    else heap) [] (iter_order (vectors db)).

Fixpoint to_matches (results : list SearchResult) (k : nat) (filter : option (VectorMetadata → bool))
    (db : VectorDB) : list SearchMatch :=
  match k, results with
  | O, _ | _, [] => []
  | S k', r :: results =>
    match vector_metadata db !! res_id r with
    | None => to_matches results k filter db
    | Some m =>
      if match filter with Some f => negb (f m) | None => false end then to_matches results k filter db
      else mkSearchMatch (res_id r) (res_similarity r) m :: to_matches results k' filter db
    end
  end.

(** ** The graph walk *)

Record Walk := mkWalk {
  candidates : list SearchResult;
  results : list SearchResult;
  visited : gset N;
}.

Definition visit_neighbour (query_vector : list f32) (query_norm : f32) (ef : nat) (db : VectorDB)
    (w : Walk) (id : N) : Walk :=
  if decide (id ∈ visited w) then w
  else
    let seen := {[id]} ∪ visited w in
    match similarity_to query_vector query_norm id db with
    | None => mkWalk (candidates w) (results w) seen
    | Some s =>
      let r := mkSearchResult id s in
      let kept := heap_push result_cmp r (results w) in
      mkWalk (heap_push result_cmp r (candidates w))
        (if (ef <? length kept)%nat then heap_pop kept else kept) seen
    end.

(** [None]: the fuel ran out. *)
Fixpoint walk_loop (query_vector : list f32) (query_norm : f32) (ef : nat) (db : VectorDB) (fuel : nat)
    (w : Walk) : option (list SearchResult) :=
  match candidates w with
  | [] => Some (results w)
  | current :: rest =>
    match fuel with
    | O => None
    | S fuel =>
      let stop := (ef <=? length (results w))%nat
                  && match heap_peek (results w) with
                     | Some worst => f32_lt (res_similarity current) (res_similarity worst)
                     | None => false
                     end in
      if stop then Some (results w)
      else
        let w := mkWalk rest (results w) (visited w) in
        walk_loop query_vector query_norm ef db fuel
          (match connections_into (res_id current) (hnsw db) with
           | None => w
           | Some neighbours => foldl (visit_neighbour query_vector query_norm ef db) w neighbours
           end)
    end
  end.

(** One step per stored vector and one for the entry point are enough. *)
Definition walk_fuel (db : VectorDB) : nat := S (size (vectors db)).

Definition graph_candidates (query_vector : list f32) (query_norm : f32) (ef : nat) (db : VectorDB)
    : option (list SearchResult) :=
  entry_point ← get_entry_point (hnsw db);
  s ← similarity_to query_vector query_norm entry_point db;
  let start := mkSearchResult entry_point s in
  walk_loop query_vector query_norm ef db (walk_fuel db) (mkWalk [start] [start] {[entry_point]}).

Definition graph_search (query_vector : list f32) (query_norm : f32) (k ef : nat) (db : VectorDB)
    : option (list SearchResult) :=
  if negb (hnsw_active db) then None
  else take k <$> graph_candidates query_vector query_norm (ef `max` k) db.

(** ** Inserting into the graph *)

Definition random_layer (draw : N) : N := N.min draw (num_layers config - 1).

Definition nearest_graph_nodes (query_vector : list f32) (query_norm : f32) (k : nat) (db : VectorDB)
    : list SearchResult :=
  scan_ids (node_ids (hnsw db)) query_vector query_norm k None db.

Definition add_connection (from_id to_id : N) (h : HnswIndex) : HnswIndex :=
  mkHnswIndex (<[from_id := default [] (connections h !! from_id) ++ [to_id]]> (connections h))
    (entry_state h) (layers h).

Definition prune_connections (vector_id : N) (max : nat) (db : VectorDB) : VectorDB :=
  match vectors db !! vector_id with
  | None => db
  | Some v =>
    match connections (hnsw db) !! vector_id with
    | None => db
    | Some conns =>
      if (length conns <=? max)%nat then db
      else
        let top := foldl (offer_id (sv_vector v) (sv_magnitude v) max None db) [] conns in
        set_hnsw (mkHnswIndex (<[vector_id := res_id <$> top]> (connections (hnsw db)))
                    (entry_state (hnsw db)) (layers (hnsw db))) db
    end
  end.

Definition connect_back (vector_id : N) (db : VectorDB) (neighbor_id : N) : VectorDB :=
  prune_connections neighbor_id (max_connections config) (set_hnsw (add_connection neighbor_id vector_id (hnsw db)) db).

Definition insert_into_graph (draw : N → N) (vector_id : N) (db : VectorDB) : VectorDB :=
  match vectors db !! vector_id with
  | None => db
  | Some v =>
    let query_vector := sv_vector v in
    let query_norm := sv_magnitude v in
    let ef := (ef_construction config `max` (max_connections config * 2))%nat in
    let nearest := nearest_graph_nodes query_vector query_norm (max_connections config) db in
    let neighbors :=
      if (hnsw_len (hnsw db) <=? ef)%nat then nearest
      else default nearest (graph_candidates query_vector query_norm ef db) in
    let selected := res_id <$> take (max_connections config) (filter (λ r, res_id r ≠ vector_id) neighbors) in
    foldl (connect_back vector_id)
      (set_hnsw (hnsw_add_vector vector_id (random_layer (draw vector_id)) selected (hnsw db)) db) selected
  end.

Definition insert_missing (draw : N → N) (db : VectorDB) (vector_id : N) : VectorDB :=
  if hnsw_contains vector_id (hnsw db) then db else insert_into_graph draw vector_id db.

Definition build_graph_locked (draw : N → N) (par_order : list N → list N) (db : VectorDB) : VectorDB :=
  let db := with_graph (hnsw_clear (hnsw db)) true db in
  let vector_ids := sort_by N.compare (iter_order (vectors db)).*1 in
  let seed := (length vector_ids `min` ((ef_construction config `max` (max_connections config * 2)) + 1))%nat in
  let db := foldl (insert_missing draw) db (take seed vector_ids) in
  let db := foldl (insert_missing draw) db (par_order (drop seed vector_ids)) in
  with_stats (λ s, with_vector_counts (total_vectors s) (memory_usage_bytes s) true s) db.

Definition index_new_vectors (draw : N → N) (par_order : list N → list N) (ids : list N) (db : VectorDB) : VectorDB :=
  if hnsw_active db then foldl (insert_missing draw) db ids
  else if negb (enable_hnsw_index config) || (size (vectors db) <=? exact_search_threshold config)%nat then db
  else build_graph_locked draw par_order db.

(** ** Adding *)

Definition insert_unindexed (vector : list f32) (md : VectorMetadata) (db : VectorDB) : VectorDB * result N string :=
  if negb (length vector =? dimension config)%nat
  then (db, Err ("Vector dimension " +:+ Z_to_string (Z.of_nat (length vector)) +:+ " does not match expected "
                 +:+ Z_to_string (Z.of_nat (dimension config))))
  else if at_capacity db
  then (db, Err ("Vector DB is full: max_vectors = " +:+ Z_to_string (Z.of_nat (max_vectors config)) +:+ " reached"))
  else
    let id := next_id db in
    let db := with_next_id (u32_add id 1) db in
    let quantized := if enable_quantization config then Some (quantize_vector vector) else None in
    (* [encode] does not panic: the codebook has the same dimension. *)
    let pq_codes := codebook ← pq_codebook; pq_encode codebook vector in
    let stored := StoredVector_new id vector quantized pq_codes in
    let db := index_metadata id md db in
    let db := with_maps (<[id := stored]> (vectors db)) (<[id := md]> (vector_metadata db)) db in
    (with_stats (record_vector_added (stored_vector_size stored)) db, Ok id).

Definition add_vector (draw : N → N) (par_order : list N → list N) (vector : list f32) (md : VectorMetadata)
    (db : VectorDB) : VectorDB * result N string :=
  match insert_unindexed vector md db with
  | (db, Ok id) => (index_new_vectors draw par_order [id] db, Ok id)
  | (db, Err e) => (db, Err e)
  end.

(** The loop of [add_vectors_bulk]: the ids, and how many were dropped. *)
Fixpoint bulk_loop (items : list (list f32 * VectorMetadata)) (ids : list N) (dropped : nat) (db : VectorDB)
    : VectorDB * list N :=
  match items with
  | [] => (db, ids)
  | (vector, md) :: items =>
    if (0 <? dropped)%nat || at_capacity db then bulk_loop items ids (S dropped) db
    else match insert_unindexed vector md db with
         | (db, Ok id) => bulk_loop items (ids ++ [id]) dropped db
         | (db, Err _) => bulk_loop items ids dropped db
         end
  end.

Definition add_vectors_bulk (draw : N → N) (par_order : list N → list N) (items : list (list f32 * VectorMetadata))
    (db : VectorDB) : VectorDB * result (list N) string :=
  let '(db, ids) := bulk_loop items [] 0 db in
  (index_new_vectors draw par_order ids db, Ok ids).

(** ** Removing *)

Definition remove_metadata (vector_id : N) (db : VectorDB) : VectorDB :=
  match vector_metadata db !! vector_id with
  | Some md =>
    unindex_metadata vector_id md (with_maps (vectors db) (base.delete vector_id (vector_metadata db)) db)
  | None => db
  end.

Definition remove_vector (vector_id : N) (db : VectorDB) : VectorDB * result bool string :=
  let removed_vector := vectors db !! vector_id in
  let db := with_maps (base.delete vector_id (vectors db)) (vector_metadata db) db in
  let db := remove_metadata vector_id db in
  match removed_vector with
  | Some removed =>
    let db := with_stats (record_vector_removed (stored_vector_size removed)) db in
    (set_hnsw (hnsw_remove_vector vector_id (hnsw db)) db, Ok true)
  | None => (db, Ok false)
  end.

(** One turn of the loop of [remove_vectors]. *)
Definition remove_one (st : VectorDB * gset N) (vector_id : N) : VectorDB * gset N :=
  let db := remove_metadata vector_id st.1 in
  match vectors db !! vector_id with
  | Some removed =>
    (with_stats (record_vector_removed (stored_vector_size removed))
       (with_maps (base.delete vector_id (vectors db)) (vector_metadata db) db), {[vector_id]} ∪ st.2)
  | None => (db, st.2)
  end.

Definition remove_vectors (vector_ids : list N) (db : VectorDB) : VectorDB * nat :=
  let '(db, removed_ids) := foldl remove_one (db, ∅) vector_ids in
  (set_hnsw (hnsw_remove_vectors removed_ids (hnsw db)) db, size removed_ids).

Definition find_vector_ids_by_content_id (content_id : string) (db : VectorDB) : list N :=
  default [] (by_content_id db !! content_id).

Definition source_vector_ids (source : string) (db : VectorDB) : list N :=
  match by_source db !! source with Some entry => set_order (src_ids entry) | None => [] end.

Definition remove_by_content_id (content_id : string) (db : VectorDB) : VectorDB * nat :=
  remove_vectors (find_vector_ids_by_content_id content_id db) db.

Definition remove_source (source : string) (db : VectorDB) : VectorDB * nat :=
  remove_vectors (source_vector_ids source db) db.

Definition build_index (draw : N → N) (par_order : list N → list N) (db : VectorDB) : VectorDB * result unit string :=
  (build_graph_locked draw par_order db, Ok tt).

Definition db_clear (db : VectorDB) : VectorDB * result unit string :=
  (mkVectorDB ∅ ∅ ∅ ∅ 0 0 (with_vector_counts 0 0 false (db_stats db)) (hnsw_clear (hnsw db)) false
     (text_clear (text_index db)), Ok tt).

(** ** Lookups *)

Definition get_metadata (vector_id : N) (db : VectorDB) : option VectorMetadata := vector_metadata db !! vector_id.

Definition get_db_stats (db : VectorDB) : VectorDbStatsSnapshot := snapshot (db_stats db).

Definition db_len (db : VectorDB) : nat := size (vectors db).

Definition has_source_embeddings (session_id : string) (db : VectorDB) : bool :=
  match by_source db !! session_id with Some entry => negb (bool_decide (src_ids entry = ∅)) | None => false end.

Definition count_session_embeddings (session_id : string) (db : VectorDB) : nat :=
  match by_source db !! session_id with Some entry => size (src_ids entry) | None => 0 end.

Definition has_session_update_embeddings (session_id : string) (db : VectorDB) : bool :=
  match by_source db !! session_id with Some entry => (0 <? update_count entry)%nat | None => false end.

Definition has_update_embedding (update_id : string) (db : VectorDB) : bool :=
  bool_decide (is_Some (by_content_id db !! update_id)).

Definition find_vector_id_by_content_id (content_id : string) (db : VectorDB) : option N :=
  by_content_id db !! content_id ≫= head.

Definition get_vectorized_update_ids (session_id : string) (db : VectorDB) : list string :=
  omap (λ id, m ← vector_metadata db !! id; if is_update (vm_content_type m) then Some (vm_id m) else None)
    (source_vector_ids session_id db).

Definition needs_corpus_filter (corpus : Corpus) (db : VectorDB) : bool :=
  match corpus with
  | CorpusAll => false
  | CorpusRecords => (0 <? message_vectors db)%N
  | CorpusMessages => true
  end.

(** ** Searches *)

Definition check_query (query_vector : list f32) : result unit string :=
  if (length query_vector =? dimension config)%nat then Ok tt
  else Err ("Query vector dimension " +:+ Z_to_string (Z.of_nat (length query_vector)) +:+ " does not match expected "
            +:+ Z_to_string (Z.of_nat (dimension config))).

Definition ranked (query_vector : list f32) (query_norm : f32) (k : nat) (mode : SearchMode)
    (ef_search_override : option nat) (db : VectorDB) : list SearchResult :=
  match mode with
  | Exact => scan_all query_vector query_norm k None db
  | Approximate | Balanced =>
    let ef := default (match mode with
                       | Approximate => preset_ef_search PresetFast
                       | Balanced => preset_ef_search PresetBalanced
                       | Exact => ef_search config
                       end) ef_search_override in
    match graph_search query_vector query_norm k ef db with
    | Some results => results
    | None => scan_all query_vector query_norm k None db
    end
  end.

(** [us] is the measured duration. *)
Definition search_with_mode (us : N) (query_vector : list f32) (k : nat) (mode : SearchMode)
    (ef_search_override : option nat) (db : VectorDB) : VectorDB * result (list SearchMatch) string :=
  match check_query query_vector with
  | Err e => (db, Err e)
  | Ok _ =>
    let results := ranked query_vector (l2_norm query_vector) k mode ef_search_override db in
    (with_stats (record_search us) db, Ok (to_matches results k None db))
  end.

Definition search (us : N) (query_vector : list f32) (k : nat) (db : VectorDB)
    : VectorDB * result (list SearchMatch) string :=
  let mode := if (size (vectors db) <=? exact_search_threshold config)%nat then Exact else Balanced in
  search_with_mode us query_vector k mode None db.

Definition search_with_filter (us : N) (query_vector : list f32) (k : nat) (filter : VectorMetadata → bool)
    (db : VectorDB) : VectorDB * result (list SearchMatch) string :=
  match check_query query_vector with
  | Err e => (db, Err e)
  | Ok _ =>
    let query_norm := l2_norm query_vector in
    let total_vectors := size (vectors db) in
    let graph :=
      if (exact_search_threshold config <? total_vectors)%nat then
        let search_k := (k * 10 `min` total_vectors)%nat in
        let ef := (ef_search config `max` (search_k * 2))%nat in
        graph_search query_vector query_norm search_k ef db
      else None in
    let from_graph :=
      candidates ← graph;
      let matches := to_matches candidates k (Some filter) db in
      if (k <=? length matches)%nat then Some matches else None in
    let matches :=
      match from_graph with
      | Some matches => matches
      | None => to_matches (scan_all query_vector query_norm k (Some filter) db) k None db
      end in
    (with_stats (record_search us) db, Ok matches)
  end.

(** The ids of the distinct sources. *)
Fixpoint collect_sources (sources : list string) (seen : gset string) (db : VectorDB) : list N :=
  match sources with
  | [] => []
  | source :: sources =>
    if decide (source ∈ seen) then collect_sources sources seen db
    else source_vector_ids source db ++ collect_sources sources ({[source]} ∪ seen) db
  end.

Definition search_sources_inner (us : N) (query_vector : list f32) (k : nat) (sources : list string)
    (filter : option (VectorMetadata → bool)) (db : VectorDB) : VectorDB * result (list SearchMatch) string :=
  match check_query query_vector with
  | Err e => (db, Err e)
  | Ok _ =>
    let ids := collect_sources sources ∅ db in
    let ranked := scan_ids ids query_vector (l2_norm query_vector) k filter db in
    (with_stats (record_search us) db, Ok (to_matches ranked k None db))
  end.

Definition search_in_sources (us : N) (query_vector : list f32) (k : nat) (sources : list string) :=
  search_sources_inner us query_vector k sources None.

Definition search_in_sources_with_filter (us : N) (query_vector : list f32) (k : nat) (sources : list string)
    (filter : VectorMetadata → bool) :=
  search_sources_inner us query_vector k sources (Some filter).

Definition search_in_source (us : N) (query_vector : list f32) (k : nat) (source : string) :=
  search_in_sources us query_vector k [source].

Definition search_by_content_type (us : N) (query_vector : list f32) (k : nat) (content_type : string) :=
  search_with_filter us query_vector k (λ m, String.eqb (vm_content_type m) content_type).

Definition db_query_terms (query : string) (db : VectorDB) : list string := query_terms query (text_index db).

Definition search_text (terms : list string) (query_vector : list f32) (k : nat) (sources : list string)
    (corpus : Corpus) (db : VectorDB) : option (list SearchMatch) :=
  if negb (keeps_postings (text_index db)) then None
  else
    let keep id :=
      match vector_metadata db !! id with
      | Some m => admits corpus (vm_content_type m)
                  && (bool_decide (sources = []) || bool_decide (vm_source m ∈ sources))
      | None => false
      end in
    let query_norm := l2_norm query_vector in
    Some (omap (λ p, m ← vector_metadata db !! p.1;
                     Some (mkSearchMatch p.1 (default f32_zero (similarity_to query_vector query_norm p.1 db)) m))
            (text_search terms k keep (text_index db))).
End db.
