(* ===== verification/VectorDbGraph.v ===== *)
(** * The graph of the vector database

    Searching it ends and finds stored nodes only; inserting into it keeps it
    well-formed: the entry point is a node, nodes are stored vectors, and
    edges lead to nodes. *)

From stdpp Require Import gmap.
From S2P Require Import Prelude RustStd F32 Collections TopK HnswIndex Similarity ProductQuantization TextIndex Types VectorTypes VectorDb.

Local Open Scope list_scope.

Section graph.
Context `{MO : MapOrder} {MOL : MapOrderLaws}.
Variable config : VectorDbConfig.

Abbreviation is_node h id := (is_Some (layers h !! id)) (only parsing).

(** ** Elements of the heaps *)

Lemma heap_offer_elem beats k heap (r x : SearchResult) :
  x ∈ heap_offer result_cmp beats k heap r → x ∈ heap ∨ x = r.
Proof.
  unfold heap_offer. intros Hx.
  assert (∀ h, x ∈ heap_push result_cmp r h → x ∈ h ∨ x = r) as Hpush.
  { intros h. rewrite heap_push_perm, elem_of_cons. tauto. }
  case_match; [by apply Hpush|]. case_match; [|by left]. case_match; [|by left].
  apply Hpush in Hx as [Hx|]; [left|by right]. unfold heap_pop in Hx. by apply subseteq_take in Hx.
Qed.

Lemma topk_push_elem k heap r x : x ∈ topk_push k heap r → x ∈ heap ∨ x = r.
Proof. unfold topk_push. case_match; [by left|apply heap_offer_elem]. Qed.

Lemma scan_ids_elem qv qn k f db ids heap r :
  r ∈ foldl (offer_id qv qn k f db) heap ids →
  r ∈ heap ∨ res_id r ∈ ids ∧ similarity_to qv qn (res_id r) db = Some (res_similarity r).
Proof.
  revert heap. induction ids as [|id ids IH]; intros heap Hr; [by left|]. cbn [foldl] in Hr.
  apply IH in Hr as [Hr|[Hr Hs]]; [|right; split; [by right|done]].
  unfold offer_id in Hr. case_match; [|by left]. case_match eqn:Hsim; [|by left].
  apply topk_push_elem in Hr as [Hr| ->]; [by left|]. right. split; [by left|done].
Qed.

(** ** The walk *)

Section walk.
Context (qv : list f32) (qn : f32) (ef : nat) (db : VectorDB).

Definition scored (r : SearchResult) : Prop := similarity_to qv qn (res_id r) db = Some (res_similarity r).

(** Unvisited vectors. *)
Definition unvisited (seen : gset N) : gset N := dom (vectors db) ∖ seen.

Record walk_inv (w : Walk) : Prop := {
  wi_candidates r : r ∈ candidates w → scored r ∧ is_node (hnsw db) (res_id r);
  wi_results r : r ∈ results w → scored r ∧ is_node (hnsw db) (res_id r) ∧ res_id r ∈ visited w;
  wi_nodup : NoDup (res_id <$> results w);
  wi_sorted : StronglySorted (cmp_le (best_first result_cmp)) (results w);
  wi_length : (length (results w) ≤ ef `max` 1)%nat;
}.

Lemma heap_pop_sublist (h : list SearchResult) : sublist (heap_pop h) h.
Proof. apply sublist_take. Qed.

Lemma visit_neighbour_inv w id :
  walk_inv w → is_node (hnsw db) id → walk_inv (visit_neighbour qv qn ef db w id).
Proof.
  intros [Hc Hr Hnd Hs Hl] Hid. unfold visit_neighbour. case_decide as Hv; [by split|].
  destruct (similarity_to qv qn id db) as [s|] eqn:Hsim.
  2:{ split; [done| |done..]. intros r Hin. simpl. destruct (Hr r Hin) as (? & ? & ?). split_and!; [done..|set_solver]. }
  set (r0 := mkSearchResult id s).
  assert (NoDup (res_id <$> heap_push result_cmp r0 (results w))) as Hnd'.
  { rewrite heap_push_perm. csimpl. apply NoDup_cons. split; [|done].
    intros (r & Heq & Hin)%list_elem_of_fmap. apply Hv. rewrite Heq. by apply Hr. }
  pose proof (heap_push_sorted result_cmp r0 _ Hs) as Hs'.
  assert (length (heap_push result_cmp r0 (results w)) = S (length (results w))) as Hlen.
  { by rewrite heap_push_perm. }
  split; cbn [candidates results visited].
  - intros r. rewrite heap_push_perm. intros [->|Hin]%elem_of_cons; [done|by apply Hc].
  - intros r Hin. assert (r ∈ heap_push result_cmp r0 (results w)) as Hin'.
    { case_match; [|done]. by eapply sublist_subseteq; [apply heap_pop_sublist|]. }
    rewrite heap_push_perm in Hin'. apply elem_of_cons in Hin' as [->|Hin']; [split_and!; [done..|set_solver]|].
    destruct (Hr r Hin') as (? & ? & ?). split_and!; [done..|set_solver].
  - case_match; [|done]. eapply sublist_NoDup; [exact Hnd'|]. apply fmap_sublist, heap_pop_sublist.
  - case_match; [|done]. by apply (StronglySorted_sublist _ _ (heap_push result_cmp r0 (results w))); [apply heap_pop_sublist|].
  - rewrite Hlen. destruct (Nat.ltb_spec ef (S (length (results w)))); [|lia].
    unfold heap_pop. rewrite length_take, Hlen. lia.
Qed.

Lemma visit_neighbours_inv w ids :
  walk_inv w → (∀ id, id ∈ ids → is_node (hnsw db) id) → walk_inv (foldl (visit_neighbour qv qn ef db) w ids).
Proof.
  revert w. induction ids as [|id ids IH]; intros w Hw Hids; [done|]. cbn [foldl]. apply IH.
  - apply visit_neighbour_inv; [done|]. apply Hids. by left.
  - intros id' Hid'. apply Hids. by right.
Qed.

(** Work left: the candidates and the vectors not yet seen. *)
Definition walk_measure (w : Walk) : nat := (length (candidates w) + size (unvisited (visited w)))%nat.

Lemma visit_neighbour_measure w id : (walk_measure (visit_neighbour qv qn ef db w id) ≤ walk_measure w)%nat.
Proof.
  unfold visit_neighbour, walk_measure. case_decide as Hv; [done|].
  assert (unvisited ({[id]} ∪ visited w) ⊆ unvisited (visited w)) as Hsub by (unfold unvisited; set_solver).
  destruct (similarity_to qv qn id db) as [s|] eqn:Hsim; cbn [candidates visited].
  - assert (length (heap_push result_cmp (mkSearchResult id s) (candidates w)) = S (length (candidates w))) as ->
      by by rewrite heap_push_perm.
    assert (id ∈ dom (vectors db)) as Hid.
    { apply elem_of_dom. unfold similarity_to in Hsim. destruct (vectors db !! id); [by eexists|done]. }
    assert (unvisited ({[id]} ∪ visited w) ⊂ unvisited (visited w)) as Hsub'.
    { split; [done|]. intros Hcontra. specialize (Hcontra id). unfold unvisited in Hcontra. set_solver. }
    apply subset_size in Hsub'. lia.
  - apply subseteq_size in Hsub. lia.
Qed.

Lemma visit_neighbours_measure w ids :
  (walk_measure (foldl (visit_neighbour qv qn ef db) w ids) ≤ walk_measure w)%nat.
Proof.
  revert w. induction ids as [|id ids IH]; intros w; [done|]. cbn [foldl]. etrans; [apply IH|apply visit_neighbour_measure].
Qed.

Definition closed (h : HnswIndex) : Prop :=
  ∀ id l x, connections h !! id = Some l → x ∈ l → is_node h x.

Lemma walk_loop_spec fuel w :
  closed (hnsw db) → walk_inv w → (walk_measure w ≤ fuel)%nat →
  ∃ rs w', walk_loop qv qn ef db fuel w = Some rs ∧ rs = results w' ∧ walk_inv w'.
Proof.
  intros Hclosed. revert w. induction fuel as [|fuel IH]; intros w Hw Hf.
  - exists (results w), w. destruct w as [[|c cs] rs vs]; [done|]. unfold walk_measure in Hf. simpl in Hf. lia.
  - destruct w as [[|c cs] rs vs]; [by exists rs, (mkWalk [] rs vs)|]. cbn [walk_loop candidates results visited].
    case_match; [by exists rs, (mkWalk (c :: cs) rs vs)|]. apply IH.
    + assert (walk_inv (mkWalk cs rs vs)) as Hw'.
      { destruct Hw as [Hc Hr Hnd Hs Hl]. split; [|done..]. intros r Hin. apply Hc. by right. }
      destruct (connections_into (res_id c) (hnsw db)) as [ns|] eqn:Hns; [|done].
      apply visit_neighbours_inv; [done|]. intros id Hid. by eapply Hclosed.
    + unfold walk_measure in Hf. simpl in Hf.
      assert (walk_measure (mkWalk cs rs vs) ≤ fuel)%nat as Hm by (unfold walk_measure; simpl; lia).
      destruct (connections_into (res_id c) (hnsw db)) as [ns|]; [|done].
      etrans; [apply visit_neighbours_measure|done].
Qed.
End walk.

(** The graph of a database: its nodes are vectors, its edges lead to nodes. *)
Record graph_ok (db : VectorDB) : Prop := {
  go_hnsw : hnsw_wf (hnsw db);
  go_nodes id : is_node (hnsw db) id → is_Some (vectors db !! id);
  go_closed : closed (hnsw db);
}.

Lemma similarity_to_some qv qn id db : is_Some (vectors db !! id) → is_Some (similarity_to qv qn id db).
Proof. intros [v Hv]. unfold similarity_to. rewrite Hv. by eexists. Qed.

(** A walk starts if there is a node, ends, and finds each node at most once. *)
Lemma graph_candidates_spec qv qn ef db :
  graph_ok db →
  match graph_candidates qv qn ef db with
  | None => layers (hnsw db) = ∅
  | Some rs =>
    NoDup (res_id <$> rs) ∧ (length rs ≤ ef `max` 1)%nat ∧ StronglySorted (cmp_le (best_first result_cmp)) rs
    ∧ ∀ r, r ∈ rs → is_node (hnsw db) (res_id r) ∧ similarity_to qv qn (res_id r) db = Some (res_similarity r)
  end.
Proof.
  intros [Hh Hn Hc]. unfold graph_candidates. pose proof (hw_entry _ Hh) as He.
  destruct (get_entry_point (hnsw db)) as [ep|]; [|done].
  destruct (similarity_to_some qv qn ep db (Hn _ He)) as [s Hs].
  cbn [mbind option_bind]. rewrite Hs. cbn [mbind option_bind].
  set (start := mkSearchResult ep s).
  assert (walk_inv qv qn ef db (mkWalk [start] [start] {[ep]})) as Hw.
  { split; cbn [candidates results visited].
    - intros r ->%list_elem_of_singleton. done.
    - intros r ->%list_elem_of_singleton. split_and!; [done..|set_solver].
    - apply NoDup_singleton.
    - by repeat constructor.
    - simpl. lia. }
  destruct (walk_loop_spec qv qn ef db (walk_fuel db) _ Hc Hw) as (rs & w' & -> & -> & [_ Hr Hnd Hsort Hlen]).
  - unfold walk_measure, walk_fuel, unvisited. simpl.
    pose proof (subseteq_size (dom (vectors db) ∖ {[ep]}) (dom (vectors db)) ltac:(set_solver)) as Hsz.
    rewrite size_dom in Hsz. lia.
  - split_and!; [done..|]. intros r Hin. destruct (Hr r Hin) as (? & ? & ?). done.
Qed.

(** ** Inserting *)

(** [db'] differs from [db] in its graph only. *)
Definition graph_only (db db' : VectorDB) : Prop := db' = with_graph (hnsw db') (hnsw_active db') db.

Lemma graph_only_refl db : graph_only db db.
Proof. by destruct db. Qed.

Lemma graph_only_trans db1 db2 db3 : graph_only db1 db2 → graph_only db2 db3 → graph_only db1 db3.
Proof. unfold graph_only. intros H1 H2. rewrite H1 in H2. by destruct db3. Qed.

Lemma graph_only_vectors db db' : graph_only db db' → vectors db' = vectors db.
Proof. unfold graph_only. by intros ->. Qed.

(** One step of an insertion: other fields and nodes stay. *)
Definition graph_step (db db' : VectorDB) : Prop :=
  graph_only db db' ∧ hnsw_active db' = hnsw_active db ∧ layers (hnsw db') = layers (hnsw db).

Lemma graph_step_trans db1 db2 db3 : graph_step db1 db2 → graph_step db2 db3 → graph_step db1 db3.
Proof.
  intros (Ho1 & Ha1 & Hl1) (Ho2 & Ha2 & Hl2). split; [exact (graph_only_trans _ _ _ Ho1 Ho2)|].
  split; [exact (eq_trans Ha2 Ha1)|exact (eq_trans Hl2 Hl1)].
Qed.

Lemma add_connection_ok db n id :
  graph_ok db → is_node (hnsw db) n → is_node (hnsw db) id →
  graph_ok (set_hnsw (add_connection n id (hnsw db)) db) ∧ graph_step db (set_hnsw (add_connection n id (hnsw db)) db).
Proof.
  intros [[Hword Hnodes Hdom Hentry] Hn Hc] Hnode Hid. split; [|by split_and!].
  split; [split; [done..| |done]|done|].
  - intros x. simpl. rewrite lookup_insert_is_Some', Hdom. split; [|by right]. by intros [<-|].
  - intros x l y. simpl. intros [[<- <-]|[_ Hl]]%lookup_insert_Some Hy; [|exact (Hc _ _ _ Hl Hy)].
    apply elem_of_app in Hy as [Hy|Hy%list_elem_of_singleton]; [|by subst].
    destruct (connections (hnsw db) !! n) eqn:Hconn; [|destruct (not_elem_of_nil _ Hy)].
    exact (Hc _ _ _ Hconn Hy).
Qed.

Lemma prune_connections_ok db n max :
  graph_ok db → graph_ok (prune_connections n max db) ∧ graph_step db (prune_connections n max db).
Proof.
  intros Hok. unfold prune_connections. assert (graph_step db db) as Hrefl by (split_and!; [apply graph_only_refl|done..]).
  destruct (vectors db !! n) as [v|]; [|done]. destruct (connections (hnsw db) !! n) as [conns|] eqn:Hconn; [|done].
  case_match; [done|]. destruct Hok as [[Hword Hnodes Hdom Hentry] Hn Hc]. split; [|by split_and!].
  split; [split; [done..| |done]|done|].
  - intros x. simpl. rewrite lookup_insert_is_Some', Hdom. split; [|by right]. intros [<-|]; [|done].
    apply Hdom. by eexists.
  - intros x l y. simpl. intros [[<- <-]|[_ Hl]]%lookup_insert_Some Hy; [|exact (Hc _ _ _ Hl Hy)].
    apply list_elem_of_fmap in Hy as (r & -> & Hr). apply scan_ids_elem in Hr as [Hr|[Hr _]]; [destruct (not_elem_of_nil _ Hr)|].
    exact (Hc _ _ _ Hconn Hr).
Qed.

Lemma connect_back_ok id db n :
  graph_ok db → is_node (hnsw db) n → is_node (hnsw db) id →
  graph_ok (connect_back config id db n) ∧ graph_step db (connect_back config id db n).
Proof.
  intros Hok Hn Hid. destruct (add_connection_ok db n id Hok Hn Hid) as [Hok1 H1].
  destruct (prune_connections_ok _ n (max_connections config) Hok1) as [Hok2 H2].
  split; [done|]. exact (graph_step_trans _ _ _ H1 H2).
Qed.

Lemma connect_all_ok id ns db :
  graph_ok db → (∀ n, n ∈ ns → is_node (hnsw db) n) → is_node (hnsw db) id →
  graph_ok (foldl (connect_back config id) db ns) ∧ graph_step db (foldl (connect_back config id) db ns).
Proof.
  revert db. induction ns as [|n ns IH]; intros db Hok Hns Hid.
  { split; [done|]. split_and!; [apply graph_only_refl|done..]. }
  cbn [foldl]. destruct (connect_back_ok id db n Hok) as [Hok1 H1]; [apply Hns; by left|done|].
  pose proof H1 as (_ & _ & Hl1).
  destruct (IH (connect_back config id db n) Hok1) as [Hok2 H2].
  - intros x Hx. rewrite Hl1. apply Hns. by right.
  - by rewrite Hl1.
  - split; [done|]. exact (graph_step_trans _ _ _ H1 H2).
Qed.

Lemma node_ids_spec h id : id ∈ node_ids h ↔ is_node h id.
Proof.
  unfold node_ids. rewrite list_elem_of_fmap. split.
  - intros ([x l] & -> & Hx%elem_of_iter_order). by eexists.
  - intros [l Hl]. exists (id, l). split; [done|]. by apply elem_of_iter_order.
Qed.

(** The neighbours an insertion considers are nodes. *)
Lemma neighbours_are_nodes db qv qn ef :
  graph_ok db →
  ∀ r, r ∈ (if (hnsw_len (hnsw db) <=? ef)%nat
            then nearest_graph_nodes qv qn (max_connections config) db
            else default (nearest_graph_nodes qv qn (max_connections config) db) (graph_candidates qv qn ef db)) →
       is_node (hnsw db) (res_id r).
Proof.
  intros Hok r Hr.
  assert (r ∈ nearest_graph_nodes qv qn (max_connections config) db → is_node (hnsw db) (res_id r)) as Hnear.
  { intros Hin. apply scan_ids_elem in Hin as [Hin|[Hin _]]; [destruct (not_elem_of_nil _ Hin)|]. by apply node_ids_spec. }
  case_match; [by apply Hnear|]. pose proof (graph_candidates_spec qv qn ef db Hok) as Hgc.
  destruct (graph_candidates qv qn ef db) as [rs|]; [|by apply Hnear].
  destruct Hgc as (_ & _ & _ & Hgc). by apply Hgc.
Qed.

Lemma insert_into_graph_ok draw id db :
  graph_ok db → (id < u32_max)%N →
  graph_ok (insert_into_graph config draw id db)
  ∧ graph_only db (insert_into_graph config draw id db)
  ∧ hnsw_active (insert_into_graph config draw id db) = hnsw_active db
  ∧ ∀ x, is_node (hnsw (insert_into_graph config draw id db)) x
      ↔ is_node (hnsw db) x ∨ x = id ∧ is_Some (vectors db !! id).
Proof.
  intros Hok Hid. unfold insert_into_graph. destruct (vectors db !! id) as [v|] eqn:Hv.
  2:{ split_and!; [done|apply graph_only_refl|done|]. intros x. split; [by left|]. by intros [?|[_ [? ?]]]. }
  set (neighbors := if (_ <=? _)%nat then _ else _).
  set (selected := res_id <$> take _ (filter _ neighbors)).
  assert (∀ n, n ∈ selected → is_node (hnsw db) n) as Hsel.
  { intros n (r & -> & Hr)%list_elem_of_fmap. apply subseteq_take in Hr. apply list_elem_of_filter in Hr as [_ Hr].
    by eapply neighbours_are_nodes. }
  set (h1 := hnsw_add_vector id (random_layer config (draw id)) selected (hnsw db)).
  destruct Hok as [Hh Hn Hc].
  assert (layers h1 = <[id := random_layer config (draw id)]> (layers (hnsw db))
    ∧ connections h1 = <[id := selected]> (connections (hnsw db))) as [Hl1 Hc1].
  { unfold h1, hnsw_add_vector. cbn [entry_state]. destruct (unpack_state _). by case_match. }
  assert (hnsw_wf h1) as Hh1 by exact (hnsw_add_wf _ _ _ _ Hh Hid). clearbody h1.
  assert (graph_ok (set_hnsw h1 db)) as Hok1.
  { split; simpl.
    - done.
    - intros x. rewrite Hl1, lookup_insert_is_Some'. intros [<-|Hx]; [by eexists|by apply Hn].
    - intros x l y. rewrite Hc1, Hl1, lookup_insert_is_Some'. intros [[<- <-]|[_ Hl]]%lookup_insert_Some Hy; right.
      + by apply Hsel.
      + exact (Hc _ _ _ Hl Hy). }
  destruct (connect_all_ok id selected (set_hnsw h1 db) Hok1) as [Hok2 (Ho2 & Ha2 & Hl2)].
  - intros n Hin. simpl. rewrite Hl1, lookup_insert_is_Some'. right. by apply Hsel.
  - simpl. rewrite Hl1, lookup_insert_is_Some'. by left.
  - split_and!; [done| |done|].
    + eapply graph_only_trans; [|exact Ho2]. done.
    + intros x. rewrite Hl2. simpl. rewrite Hl1, lookup_insert_is_Some'. split.
      * intros [<-|Hx]; [right; split; [done|by eexists]|by left].
      * intros [Hx|[-> _]]; [by right|by left].
Qed.

Lemma insert_missing_all_ok draw ids db :
  graph_ok db → (∀ id, id ∈ ids → (id < u32_max)%N) →
  let db' := foldl (insert_missing config draw) db ids in
  graph_ok db' ∧ graph_only db db' ∧ hnsw_active db' = hnsw_active db
  ∧ ∀ x, is_node (hnsw db') x ↔ is_node (hnsw db) x ∨ x ∈ ids ∧ is_Some (vectors db !! x).
Proof.
  revert db. induction ids as [|id ids IH]; intros db Hok Hids.
  { simpl. split_and!; [done|apply graph_only_refl|done|]. intros x. rewrite elem_of_nil. tauto. }
  cbn [foldl].
  assert (∃ db1, db1 = insert_missing config draw db id ∧ graph_ok db1 ∧ graph_only db db1
    ∧ hnsw_active db1 = hnsw_active db
    ∧ ∀ x, is_node (hnsw db1) x ↔ is_node (hnsw db) x ∨ x = id ∧ is_Some (vectors db !! id))
    as (db1 & <- & Hok1 & Ho1 & Ha1 & Hn1).
  { eexists. split; [done|]. unfold insert_missing, hnsw_contains. case_bool_decide as Hin.
    - split_and!; [done|apply graph_only_refl|done|]. intros x. split; [by left|]. by intros [?|[-> _]].
    - apply insert_into_graph_ok; [done|]. apply Hids. by left. }
  destruct (IH db1 Hok1) as (Hok2 & Ho2 & Ha2 & Hn2).
  { intros x Hx. apply Hids. by right. }
  split_and!; [done|exact (graph_only_trans _ _ _ Ho1 Ho2)|by rewrite Ha2|].
  intros x. rewrite Hn2, Hn1, (graph_only_vectors _ _ Ho1), elem_of_cons. naive_solver.
Qed.

(** A rebuild makes every stored vector a node. *)
Lemma build_graph_ok draw par_order db :
  (∀ l, par_order l ≡ₚ l) → (∀ id, is_Some (vectors db !! id) → (id < u32_max)%N) →
  let db' := build_graph_locked config draw par_order db in
  graph_ok db' ∧ hnsw_active db' = true
  ∧ db' = with_stats (λ s, with_vector_counts (total_vectors s) (memory_usage_bytes s) true s)
            (with_graph (hnsw db') true db)
  ∧ ∀ x, is_node (hnsw db') x ↔ is_Some (vectors db !! x).
Proof.
  intros Hpar Hids. unfold build_graph_locked. set (db0 := with_graph (hnsw_clear (hnsw db)) true db).
  set (vector_ids := sort_by N.compare (iter_order (vectors db0)).*1). set (seed := (length vector_ids `min` _)%nat).
  assert (∀ id, id ∈ vector_ids ↔ is_Some (vectors db !! id)) as Hv.
  { intros id. unfold vector_ids. rewrite sort_by_perm, list_elem_of_fmap. split.
    - intros ([x v] & -> & Hx%elem_of_iter_order). by eexists.
    - intros [v Hv]. exists (id, v). split; [done|]. by apply elem_of_iter_order. }
  assert (graph_ok db0) as Hok0.
  { split; simpl; [exact hnsw_new_wf|..].
    - by intros id [? ?].
    - by intros id l x ?. }
  destruct (insert_missing_all_ok draw (take seed vector_ids) db0 Hok0) as (Hok1 & Ho1 & Ha1 & Hn1).
  { intros id Hid. apply subseteq_take in Hid. by apply Hids, Hv. }
  set (db1 := foldl _ db0 _) in *.
  destruct (insert_missing_all_ok draw (par_order (drop seed vector_ids)) db1 Hok1) as (Hok2 & Ho2 & Ha2 & Hn2).
  { intros id. rewrite Hpar. intros Hid. apply subseteq_drop in Hid. by apply Hids, Hv. }
  set (db2 := foldl _ db1 _) in *. split_and!.
  - destruct Hok2 as [H1 H2 H3]. by split.
  - simpl. by rewrite Ha2, Ha1.
  - pose proof (graph_only_trans _ _ _ Ho1 Ho2) as Ho. unfold graph_only in Ho.
    assert (hnsw_active db2 = true) as Ha by by rewrite Ha2, Ha1. rewrite Ha in Ho. unfold db0 in Ho.
    rewrite Ho at 1. done.
  - intros x. change (is_node (hnsw db2) x ↔ is_Some (vectors db !! x)).
    rewrite Hn2, Hn1, (graph_only_vectors _ _ Ho1), Hpar. change (vectors db0) with (vectors db).
    assert (¬ is_node (hnsw db0) x) as Hempty by by intros [? ?].
    assert (x ∈ vector_ids ↔ x ∈ take seed vector_ids ∨ x ∈ drop seed vector_ids) as Hsplit.
    { rewrite <-elem_of_app, take_drop. done. }
    rewrite Hv in Hsplit. tauto.
Qed.
End graph.
