(* ===== verification/VectorDbData.v ===== *)
(** * The indexes of the vector database

    [index_ok]: the indexes by source and content id and the number of
    messages are those of the metadata.  Indexing and unindexing an entry
    keep it. *)

From stdpp Require Import gmap.
From S2P Require Import Prelude RustStd Collections F32 TopK HnswIndex Similarity ProductQuantization TextIndex Types VectorTypes VectorDb.

Local Open Scope string_scope.
Local Open Scope list_scope.

Abbreviation metadata_map := (gmap N VectorMetadata) (only parsing).

Definition in_source (M : metadata_map) (s : string) : metadata_map := filter (λ e, vm_source e.2 = s) M.

Definition updates_in (M : metadata_map) (s : string) : metadata_map :=
  filter (λ e, vm_source e.2 = s ∧ is_update (vm_content_type e.2) = true) M.

Definition messages_in (M : metadata_map) : metadata_map :=
  filter (λ e, vm_content_type e.2 = MESSAGE_CONTENT_TYPE) M.

(** What the index has for a source. *)
Definition source_entry (M : metadata_map) (s : string) : option SourceIds :=
  if decide (in_source M s = ∅) then None
  else Some (mkSourceIds (dom (in_source M s)) (size (updates_in M s))).

Record index_ok (M : metadata_map) (src : gmap string SourceIds) (content : gmap string (list N)) (messages : N)
    : Prop := {
  ix_source s : src !! s = source_entry M s;
  ix_content c id : id ∈ default [] (content !! c) ↔ ∃ md, M !! id = Some md ∧ vm_id md = c;
  ix_sorted c : StronglySorted N.lt (default [] (content !! c));
  ix_nonempty c : content !! c ≠ Some [];
  ix_messages : messages = N.of_nat (size (messages_in M));
}.

Lemma index_new_ok : index_ok ∅ ∅ ∅ 0.
Proof.
  split.
  - intros s. by vm_compute.
  - intros c id. rewrite lookup_empty. simpl. rewrite elem_of_nil. split; [done|].
    intros (md & Hmd & _). by rewrite lookup_empty in Hmd.
  - intros c. rewrite lookup_empty. constructor.
  - intros c. by rewrite lookup_empty.
  - done.
Qed.

Lemma source_entry_ids M s : src_ids (default (mkSourceIds ∅ 0) (source_entry M s)) = dom (in_source M s).
Proof.
  unfold source_entry. case_decide as He; [|done]. rewrite He. simpl. by rewrite dom_empty_L.
Qed.

Lemma source_entry_count M s : update_count (default (mkSourceIds ∅ 0) (source_entry M s)) = size (updates_in M s).
Proof.
  unfold source_entry. case_decide as He; [|done]. simpl. symmetry. apply map_size_empty_iff.
  apply map_empty_filter_2. intros id md Hmd [Hs _]. by apply (map_filter_empty_not_lookup _ _ id md He).
Qed.

Lemma elem_of_in_source M s id : id ∈ dom (in_source M s) ↔ ∃ md, M !! id = Some md ∧ vm_source md = s.
Proof. rewrite elem_of_dom. unfold is_Some, in_source. by setoid_rewrite map_lookup_filter_Some. Qed.

Lemma in_source_insert M id md s :
  M !! id = None →
  dom (in_source (<[id := md]> M) s) = if decide (vm_source md = s) then {[id]} ∪ dom (in_source M s) else dom (in_source M s).
Proof.
  intros Hid. unfold in_source. rewrite map_filter_insert. simpl. case_decide.
  - by rewrite dom_insert_L.
  - by rewrite delete_id.
Qed.

Lemma in_source_empty M s : in_source M s = ∅ ↔ dom (in_source M s) = ∅.
Proof. split; [intros ->; apply dom_empty_L|apply dom_empty_inv_L]. Qed.

(** Entries of other sources stay. *)
Lemma source_entry_other M id md s : M !! id = None → vm_source md ≠ s → source_entry (<[id := md]> M) s = source_entry M s.
Proof.
  intros Hid Hne. unfold source_entry, in_source, updates_in. rewrite !map_filter_insert. csimpl.
  rewrite (decide_False (P := vm_source md = s)) by done.
  rewrite (decide_False (P := vm_source md = s ∧ _)) by by intros [].
  by rewrite !delete_id.
Qed.

Lemma is_update_not_message ct : is_update ct = true → String.eqb ct MESSAGE_CONTENT_TYPE = false.
Proof. unfold is_update. intros [_ H]%andb_true_iff. by apply negb_true_iff. Qed.

Lemma filter_all {A} (P : A → Prop) `{∀ x, Decision (P x)} (l : list A) : (∀ x, x ∈ l → P x) → filter P l = l.
Proof.
  induction l as [|x l IH]; intros Hl; [done|]. rewrite filter_cons_True by (apply Hl; by left).
  rewrite IH; [done|]. intros y Hy. apply Hl. by right.
Qed.

Section index.
Context `{U : Unicode} `{AN : Alphanumeric} `{MO : MapOrder} {MOL : MapOrderLaws}.

Definition db_index_ok (db : VectorDB) (M : metadata_map) : Prop :=
  index_ok M (by_source db) (by_content_id db) (message_vectors db).

(** The entry of its source after indexing a new id. *)
Lemma source_entry_insert M id md :
  M !! id = None →
  source_entry (<[id := md]> M) (vm_source md)
  = Some (mkSourceIds ({[id]} ∪ dom (in_source M (vm_source md)))
            (size (updates_in M (vm_source md)) + if is_update (vm_content_type md) then 1 else 0)).
Proof.
  intros Hid. unfold source_entry. rewrite decide_False.
  - rewrite in_source_insert, decide_True by done. do 2 f_equal. unfold updates_in. rewrite filter_size_insert by done.
    f_equal. simpl. destruct (is_update (vm_content_type md)); [by rewrite decide_True|rewrite decide_False; naive_solver].
  - rewrite in_source_empty, in_source_insert, decide_True by done. set_solver.
Qed.

Lemma messages_insert M id md :
  M !! id = None →
  size (messages_in (<[id := md]> M))
  = (size (messages_in M) + if String.eqb (vm_content_type md) MESSAGE_CONTENT_TYPE then 1 else 0)%nat.
Proof.
  intros Hid. unfold messages_in. rewrite filter_size_insert by done. f_equal. simpl.
  destruct (String.eqb_spec (vm_content_type md) MESSAGE_CONTENT_TYPE); [by rewrite decide_True|by rewrite decide_False].
Qed.

Lemma index_metadata_ok db M id md :
  db_index_ok db M → M !! id = None → (∀ id', is_Some (M !! id') → (id' < id)%N) → (N.of_nat (S (size M)) < u64_mod)%N →
  db_index_ok (index_metadata id md db) (<[id := md]> M).
Proof.
  intros [Hs Hc Hsort Hne Hmsg] Hid Hlt Hsz. unfold db_index_ok, index_metadata.
  rewrite Hs. set (entry := default (mkSourceIds ∅ 0) (source_entry M (vm_source md))).
  assert (src_ids entry = dom (in_source M (vm_source md))) as Hids by apply source_entry_ids.
  assert (update_count entry = size (updates_in M (vm_source md))) as Hcount by apply source_entry_count.
  assert (id ∉ src_ids entry) as Hnot.
  { rewrite Hids, elem_of_in_source. intros (md' & Hmd' & _). by rewrite Hid in Hmd'. }
  rewrite decide_False by done.
  assert (size (messages_in M) ≤ size M)%nat as Hle by apply map_size_filter.
  pose proof (source_entry_insert M id md Hid) as Hentry. pose proof (messages_insert M id md Hid) as Hmessages.
  set (pair := if is_update (vm_content_type md) then _ else _).
  assert (pair = (default (mkSourceIds ∅ 0) (source_entry (<[id := md]> M) (vm_source md)),
                  N.of_nat (size (messages_in (<[id := md]> M))))) as ->.
  { unfold pair. rewrite Hentry, Hmessages, Hids, Hcount, Hmsg. simpl.
    destruct (is_update (vm_content_type md)) eqn:Hup.
    - rewrite (is_update_not_message _ Hup), Nat.add_0_r, Nat.add_1_r. done.
    - rewrite Nat.add_0_r. destruct (String.eqb _ _); [|by rewrite Nat.add_0_r]. f_equal.
      unfold u64_add. rewrite N.mod_small; lia. }
  split; cbn [with_indexes by_source by_content_id message_vectors]; [..|done].
  - intros s. destruct (decide (vm_source md = s)) as [<-|Hns].
    + by rewrite lookup_insert_eq, Hentry.
    + rewrite lookup_insert_ne by done. by rewrite Hs, source_entry_other.
  - intros c x. destruct (decide (vm_id md = c)) as [<-|Hnc].
    + rewrite lookup_insert_eq. simpl. rewrite elem_of_app, Hc, list_elem_of_singleton.
      setoid_rewrite lookup_insert_Some. split.
      * intros [(md' & Hmd' & Heq)| ->]; [|by exists md; auto]. exists md'. split; [|done]. right. split; [|done].
        intros ->. by rewrite Hid in Hmd'.
      * intros (md' & [[<- <-]|[_ Hmd']] & Heq); [by right|left; by exists md'].
    + rewrite lookup_insert_ne, Hc by done. setoid_rewrite lookup_insert_Some. split.
      * intros (md' & Hmd' & Heq). exists md'. split; [|done]. right. split; [|done]. intros ->. by rewrite Hid in Hmd'.
      * intros (md' & [[<- <-]|[_ Hmd']] & Heq); [done|by exists md'].
  - intros c. destruct (decide (vm_id md = c)) as [<-|Hnc]; [|by rewrite lookup_insert_ne].
    rewrite lookup_insert_eq. simpl.
    assert (∀ x, x ∈ default [] (by_content_id db !! vm_id md) → (x < id)%N) as Hbelow.
    { intros x (md' & Hmd' & _)%Hc. apply Hlt. by eexists. }
    specialize (Hsort (vm_id md)). clear -Hsort Hbelow.
    induction Hsort as [|x l Hs IH Hx]; simpl; [by repeat constructor|]. constructor.
    + apply IH. intros y Hy. apply Hbelow. by right.
    + apply Forall_app. split; [done|]. apply Forall_singleton. apply Hbelow. by left.
  - intros c. destruct (decide (vm_id md = c)) as [<-|Hnc]; [|by rewrite lookup_insert_ne].
    rewrite lookup_insert_eq. by destruct (default [] _).
Qed.

(** ** Unindexing *)

Lemma unindex_metadata_ok db M id md :
  db_index_ok db M → M !! id = Some md → (N.of_nat (size M) < u64_mod)%N →
  db_index_ok (unindex_metadata id md db) (base.delete id M).
Proof.
  intros [Hs Hc Hsort Hne Hmsg] Hid Hsz. set (M' := base.delete id M).
  assert (M' !! id = None) as Hid' by apply lookup_delete_eq.
  assert (M = <[id := md]> M') as HM by (symmetry; by apply insert_delete_id).
  pose proof (source_entry_insert M' id md Hid') as Hentry. pose proof (messages_insert M' id md Hid') as Hmessages.
  rewrite <-HM in Hentry, Hmessages.
  assert (unindex_source id md db
    = (if decide (dom (in_source M' (vm_source md)) = ∅) then base.delete (vm_source md) (by_source db)
       else <[vm_source md := mkSourceIds (dom (in_source M' (vm_source md))) (size (updates_in M' (vm_source md)))]> (by_source db),
       N.of_nat (size (messages_in M')))) as Hsrc.
  { assert (id ∉ dom (in_source M' (vm_source md))) as Hnot.
    { rewrite elem_of_in_source. intros (md' & Hmd' & _). by rewrite Hid' in Hmd'. }
    unfold unindex_source. rewrite Hs, Hentry. cbn [src_ids update_count]. rewrite decide_True by set_solver.
    assert (({[id]} ∪ dom (in_source M' (vm_source md))) ∖ {[id]} = dom (in_source M' (vm_source md))) as -> by set_solver.
    assert (size (messages_in M) ≤ size M)%nat as Hle by apply map_size_filter.
    rewrite Hmsg, Hmessages in *. destruct (is_update (vm_content_type md)) eqn:Hup.
    - rewrite (is_update_not_message _ Hup), Nat.add_0_r, Nat.add_sub. done.
    - rewrite Nat.add_0_r. destruct (String.eqb _ _); [|by rewrite Nat.add_0_r]. cbn [src_ids]. f_equal.
      unfold u64_sub. rewrite (N.mod_small 1) by done.
      replace (N.of_nat (size (messages_in M') + 1) + u64_mod - 1)%N with (N.of_nat (size (messages_in M')) + 1 * u64_mod)%N by lia.
      rewrite N.Div0.mod_add. apply N.mod_small. lia. }
  unfold unindex_metadata. rewrite Hsrc.
  assert (∀ c, default [] (unindex_content id md db !! c) = filter (λ v, v ≠ id) (default [] (by_content_id db !! c))
    ∧ unindex_content id md db !! c ≠ Some []) as Hcontent.
  { intros c. unfold unindex_content.
    assert (c ≠ vm_id md → filter (λ v, v ≠ id) (default [] (by_content_id db !! c)) = default [] (by_content_id db !! c)) as Hother.
    { intros Hc'. apply filter_all. intros x Hx ->. apply Hc in Hx as (md' & Hmd' & Heq). congruence. }
    destruct (by_content_id db !! vm_id md) as [ids|] eqn:Hids.
    - destruct (decide (c = vm_id md)) as [->|Hc'].
      + rewrite Hids. simpl. destruct (filter _ ids) as [|y ys]; [by rewrite lookup_delete_eq|by rewrite lookup_insert_eq].
      + rewrite Hother by done. destruct (filter _ ids) as [|y ys];
          [by rewrite lookup_delete_ne by done|by rewrite lookup_insert_ne by done].
    - split; [|apply Hne]. destruct (decide (c = vm_id md)) as [->|Hc']; [by rewrite Hids|by rewrite Hother]. }
  split; cbn [with_indexes by_source by_content_id message_vectors]; [..|done].
  - intros s. destruct (decide (vm_source md = s)) as [<-|Hns].
    + unfold source_entry. destruct (decide (in_source M' (vm_source md) = ∅)) as [He|He].
      * rewrite decide_True by by apply in_source_empty. apply lookup_delete_eq.
      * rewrite decide_False by by rewrite <-in_source_empty. apply lookup_insert_eq.
    + rewrite <-(source_entry_other M' id md s Hid' Hns), <-HM, <-Hs.
      case_decide; [by apply lookup_delete_ne|by apply lookup_insert_ne].
  - intros c x. rewrite (proj1 (Hcontent c)), list_elem_of_filter, Hc. unfold M'. setoid_rewrite lookup_delete_Some.
    naive_solver.
  - intros c. rewrite (proj1 (Hcontent c)). by apply StronglySorted_filter.
  - intros c. apply Hcontent.
Qed.
End index.

(** ** The contents of the vector database

    [data_ok] relates the maps, indexes, word statistics and counters of a
    database to its contents, a map from ids to vectors and metadata, and the
    next id.  Adding and removing a vector, the graph aside, keep it. *)

Abbreviation contents := (gmap N (list f32 * VectorMetadata)) (only parsing).

(** The norm stored with a vector. *)
Definition magnitude (v : list f32) : f32 := sv_magnitude (StoredVector_new 0 v None None).

(** The graph and whether it counts as built stay. *)
Definition same_graph (db db' : VectorDB) : Prop :=
  hnsw db' = hnsw db ∧ hnsw_active db' = hnsw_active db ∧ is_built (db_stats db') = is_built (db_stats db).

Lemma same_graph_refl db : same_graph db db.
Proof. done. Qed.

Lemma same_graph_trans db1 db2 db3 : same_graph db1 db2 → same_graph db2 db3 → same_graph db1 db3.
Proof.
  intros (H1 & H2 & H3) (H4 & H5 & H6).
  split_and!; [exact (eq_trans H4 H1)|exact (eq_trans H5 H2)|exact (eq_trans H6 H3)].
Qed.

Section data.
Context `{U : Unicode} `{AN : Alphanumeric} `{MO : MapOrder} {MOL : MapOrderLaws} `{L : Libm}.
Variable config : VectorDbConfig.
Variable pq_codebook : option ProductQuantizationCodebook.
Variable quantization_params : option (list f32 * list f32).
Variable size_of_stored : N.

Abbreviation insert_unindexed := (insert_unindexed config pq_codebook quantization_params size_of_stored).
Abbreviation bulk_loop := (bulk_loop config pq_codebook quantization_params size_of_stored).
Abbreviation remove_one := (remove_one size_of_stored).

Record data_ok (A : contents) (next : N) (db : VectorDB) : Prop := {
  do_vectors : sv_vector <$> vectors db = fst <$> A;
  do_stored id v : vectors db !! id = Some v → sv_id v = id ∧ sv_magnitude v = magnitude (sv_vector v);
  do_metadata : vector_metadata db = snd <$> A;
  do_dimension id vm : A !! id = Some vm → length vm.1 = dimension config;
  do_capacity : (size A ≤ max_vectors config)%nat;
  do_next : next_id db = next;
  do_fresh id : is_Some (A !! id) → (id < next)%N;
  do_size : (N.of_nat (size A) ≤ next)%N;
  do_bound : (next ≤ u32_max)%N;
  do_index : db_index_ok db (snd <$> A);
  do_text : text_wf (vm_text <$> (snd <$> A)) (text_index db);
  do_keeps : keeps_postings (text_index db) = full_text_index config;
  do_total : total_vectors (db_stats db) = N.of_nat (size A);
}.

Lemma data_new_ok : data_ok ∅ 0 (VectorDB_new config).
Proof.
  split; rewrite ?fmap_empty, ?map_size_empty; try done; try lia.
  - by intros id [? ?].
  - exact index_new_ok.
  - exact (text_new_wf _).
Qed.

Lemma data_size A next db : data_ok A next db → size (vectors db) = size A.
Proof. intros Hd. by rewrite <-(map_size_fmap sv_vector), (do_vectors _ _ _ Hd), map_size_fmap. Qed.

Lemma data_lookup A next db id :
  data_ok A next db → is_Some (vectors db !! id) ↔ is_Some (A !! id).
Proof.
  intros Hd. rewrite <-(fmap_is_Some sv_vector), <-lookup_fmap, (do_vectors _ _ _ Hd), lookup_fmap. apply fmap_is_Some.
Qed.

(** What the counters and the graph contribute does not matter. *)
Lemma data_graph A next db h a : data_ok A next db → data_ok A next (with_graph h a db).
Proof. intros []. by split. Qed.

Lemma data_stats A next db f :
  (∀ s, total_vectors (f s) = total_vectors s) → data_ok A next db → data_ok A next (with_stats f db).
Proof. intros Hf []. split; try done. simpl. by rewrite Hf. Qed.

(** ** Adding *)

(** Why a vector is refused. *)
Definition add_error (A : contents) (v : list f32) : option string :=
  if negb (length v =? dimension config)%nat
  then Some ("Vector dimension " +:+ Z_to_string (Z.of_nat (length v)) +:+ " does not match expected "
             +:+ Z_to_string (Z.of_nat (dimension config)))
  else if (max_vectors config <=? size A)%nat
  then Some ("Vector DB is full: max_vectors = " +:+ Z_to_string (Z.of_nat (max_vectors config)) +:+ " reached")
  else None.

Lemma insert_unindexed_data A next db v md :
  data_ok A next db → (next < u32_max)%N →
  match add_error A v with
  | Some e => insert_unindexed v md db = (db, Err e)
  | None => ∃ db', insert_unindexed v md db = (db', Ok next)
      ∧ data_ok (<[next := (v, md)]> A) (next + 1) db' ∧ same_graph db db'
  end.
Proof.
  intros Hd Hn. pose proof (data_size _ _ _ Hd) as Hsize. unfold add_error, VectorDb.insert_unindexed, at_capacity.
  rewrite Hsize. destruct (Nat.eqb_spec (length v) (dimension config)) as [Hdim|]; [|done]. simpl negb.
  destruct (Nat.leb_spec (max_vectors config) (size A)) as [|Hcap]; [done|].
  destruct Hd as [Hv Hst Hm Hdims _ Hnext Hfresh Hsz Hb Hix Htx Hkeep Htot]. rewrite Hnext.
  assert (A !! next = None) as HA.
  { apply eq_None_not_Some. intros Hs%Hfresh. lia. }
  set (db1 := with_next_id _ _). set (stored := StoredVector_new next v _ _).
  eexists. split; [reflexivity|].
  assert ((snd <$> A) !! next = None) as HM by by rewrite lookup_fmap, HA.
  assert (size (snd <$> A) = size A) as HMs by apply map_size_fmap.
  assert (u32_max < u32_mod ∧ u32_mod < u64_mod)%N as [Hu32 Hu64] by done.
  assert (size (<[next:=(v, md)]> A) = S (size A)) as Hsz' by by apply map_size_insert_None.
  assert (db_index_ok (index_metadata next md db1) (<[next := md]> (snd <$> A))) as Hix'.
  { apply index_metadata_ok; [exact Hix|done| |].
    - intros id Hid. rewrite lookup_fmap, fmap_is_Some in Hid. by apply Hfresh.
    - rewrite HMs. lia. }
  assert (∃ src content messages, index_metadata next md db1
    = with_indexes src content messages (text_add next (vm_text md) (text_index db)) db1) as (src & ct & msg & Heq).
  { unfold index_metadata. case_match. by repeat eexists. }
  destruct (text_add_wf _ _ next (vm_text md) Htx) as [Htx' Hkeep'].
  { by rewrite lookup_fmap, HM. }
  { rewrite map_size_fmap, HMs. lia. }
  rewrite Heq in *. split; [|done].
  split; cbn [with_stats with_maps with_indexes vectors vector_metadata next_id text_index db_stats].
  - rewrite !fmap_insert. f_equal. exact Hv.
  - intros id w [[<- <-]|[_ Hw]]%lookup_insert_Some; [done|by apply Hst].
  - rewrite fmap_insert. f_equal. exact Hm.
  - intros id vm [[<- <-]|[_ Hw]]%lookup_insert_Some; [done|by eapply Hdims].
  - lia.
  - simpl. unfold u32_add. rewrite N.mod_small; lia.
  - intros id Hid. rewrite lookup_insert_is_Some' in Hid. destruct Hid as [<-|Hid%Hfresh]; lia.
  - lia.
  - lia.
  - rewrite fmap_insert. exact Hix'.
  - rewrite !fmap_insert. exact Htx'.
  - by rewrite Hkeep'.
  - simpl. unfold u64_add. rewrite Htot, N.mod_small; lia.
Qed.

(** Additions in a row: those refused are passed over. *)
Definition add_item (st : contents * N * list N) (item : list f32 * VectorMetadata) : contents * N * list N :=
  let '(A, next, ids) := st in
  match add_error A item.1 with
  | Some _ => st
  | None => (<[next := item]> A, (next + 1)%N, ids ++ [next])
  end.

Lemma full_skips items A next ids :
  (max_vectors config ≤ size A)%nat → foldl add_item (A, next, ids) items = (A, next, ids).
Proof.
  intros Hfull. induction items as [|it items IH]; [done|]. cbn [foldl]. rewrite <-IH at 2. f_equal.
  unfold add_item, add_error. rewrite (proj2 (Nat.leb_le _ _) Hfull). by case_match; case_match.
Qed.

Lemma bulk_dropped items ids dropped db : (0 < dropped)%nat → bulk_loop items ids dropped db = (db, ids).
Proof.
  revert dropped. induction items as [|[v md] items IH]; intros dropped Hd; [done|]. simpl.
  destruct (Nat.ltb_spec 0 dropped); [|lia]. apply IH. lia.
Qed.

Lemma bulk_loop_data items A next ids db :
  data_ok A next db → (next + N.of_nat (length items) ≤ u32_max)%N → (∀ id, id ∈ ids → is_Some (A !! id)) →
  ∃ A' next' ids' db', foldl add_item (A, next, ids) items = (A', next', ids')
    ∧ bulk_loop items ids 0 db = (db', ids') ∧ data_ok A' next' db' ∧ same_graph db db'
    ∧ (next' ≤ next + N.of_nat (length items))%N
    ∧ (∀ id, is_Some (A' !! id) ↔ is_Some (A !! id) ∨ id ∈ ids') ∧ ids ⊆ ids'.
Proof.
  revert A next ids db. induction items as [|[v md] items IH]; intros A next ids db Hd Hb Hids.
  { exists A, next, ids, db. split_and!; try done; [simpl; lia|]. intros id. specialize (Hids id). tauto. }
  simpl length in Hb. cbn [VectorDb.bulk_loop]. unfold at_capacity. rewrite (data_size _ _ _ Hd). simpl (0 <? 0)%nat. cbn [orb].
  destruct (Nat.leb_spec (max_vectors config) (size A)) as [Hfull|Hroom].
  { exists A, next, ids, db. rewrite full_skips by done. rewrite bulk_dropped by lia.
    split_and!; try done; [lia|]. intros id. specialize (Hids id). tauto. }
  cbn [foldl]. pose proof (insert_unindexed_data A next db v md Hd ltac:(lia)) as Hins.
  unfold add_item at 2. cbn [fst]. destruct (add_error A v) as [e|].
  { rewrite Hins. destruct (IH A next ids db Hd ltac:(lia) Hids) as (A' & next' & ids' & db' & ? & ? & ? & ? & ? & ? & ?).
    exists A', next', ids', db'. split_and!; try done. simpl length. lia. }
  destruct Hins as (db1 & Heq & Hd1 & Hg1). rewrite Heq.
  destruct (IH _ _ (ids ++ [next]) db1 Hd1 ltac:(lia)) as (A' & next' & ids' & db' & ? & ? & ? & Hg & ? & Hin & Hsub).
  { intros id. rewrite elem_of_app, list_elem_of_singleton, lookup_insert_is_Some'. intros [Hid| ->]; [|by left].
    right. by apply Hids. }
  exists A', next', ids', db'. split_and!; try done.
  - exact (same_graph_trans _ _ _ Hg1 Hg).
  - simpl length. lia.
  - intros id. rewrite Hin, lookup_insert_is_Some'. assert (next ∈ ids') by (apply Hsub; set_solver). naive_solver.
  - intros x Hx. apply Hsub. set_solver.
Qed.

(** ** Removing *)

Lemma remove_absent A next db X id : data_ok A next db → A !! id = None → remove_one (db, X) id = (db, X).
Proof.
  intros Hd Hid. unfold VectorDb.remove_one, remove_metadata. cbn [fst snd].
  rewrite (do_metadata _ _ _ Hd), lookup_fmap, Hid. cbn [fmap option_fmap option_map].
  destruct (vectors db !! id) eqn:Hv; [|done].
  destruct (proj1 (data_lookup A next db id Hd)) as [? ?]; [by eexists|congruence].
Qed.

Lemma remove_data A next db X id vm :
  data_ok A next db → A !! id = Some vm →
  ∃ db', remove_one (db, X) id = (db', {[id]} ∪ X) ∧ data_ok (base.delete id A) next db' ∧ same_graph db db'
    ∧ vectors db' = base.delete id (vectors db).
Proof.
  intros Hd Hid. destruct vm as [v md].
  destruct (proj2 (data_lookup A next db id Hd)) as [stored Hstored]; [by eexists|].
  destruct Hd as [Hv Hst Hm Hdims Hcap Hnext Hfresh Hsz Hb Hix Htx Hkeep Htot].
  assert ((snd <$> A) !! id = Some md) as HM by by rewrite lookup_fmap, Hid.
  assert (size (snd <$> A) = size A) as HMs by apply map_size_fmap.
  assert (u32_max < u32_mod ∧ u32_mod < u64_mod)%N as [Hu32 Hu64] by done.
  assert (size A = S (size (base.delete id A))) as Hsize.
  { rewrite <-(insert_delete_id A id (v, md)) at 1 by done. apply map_size_insert_None, lookup_delete_eq. }
  set (db1 := with_maps (vectors db) (base.delete id (vector_metadata db)) db).
  assert (db_index_ok (unindex_metadata id md db1) (base.delete id (snd <$> A))) as Hix'.
  { apply unindex_metadata_ok; [exact Hix|done|rewrite HMs; lia]. }
  assert (∃ src content messages, unindex_metadata id md db1
    = with_indexes src content messages (text_remove id (vm_text md) (text_index db)) db1) as (src & ct & msg & Heq).
  { unfold unindex_metadata. case_match. by repeat eexists. }
  destruct (text_remove_wf _ _ id (vm_text md) Htx) as [Htx' Hkeep'].
  { by rewrite lookup_fmap, HM. }
  { rewrite map_size_fmap, HMs. lia. }
  unfold VectorDb.remove_one, remove_metadata. cbn [fst snd]. rewrite Hm, HM. rewrite <-Hm. fold db1.
  rewrite Heq in *. cbn [with_indexes vectors]. change (vectors db1) with (vectors db). rewrite Hstored.
  eexists. split; [reflexivity|]. split; [|done].
  split; cbn [with_stats with_maps with_indexes vectors vector_metadata next_id text_index db_stats].
  - rewrite !fmap_delete. f_equal. exact Hv.
  - intros x w [_ Hw]%lookup_delete_Some. by apply Hst.
  - rewrite fmap_delete, <-Hm. done.
  - intros x vm [_ Hw]%lookup_delete_Some. by eapply Hdims.
  - lia.
  - done.
  - intros x [vm [_ Hw]%lookup_delete_Some]. apply Hfresh. by eexists.
  - lia.
  - done.
  - rewrite fmap_delete. exact Hix'.
  - rewrite !fmap_delete. exact Htx'.
  - by rewrite Hkeep'.
  - simpl. rewrite Htot. lia.
Qed.

(** The ids of a list that are there are removed. *)
Lemma remove_all_data ids A next db X :
  data_ok A next db →
  ∃ db', foldl remove_one (db, X) ids = (db', X ∪ (list_to_set ids ∩ dom A))
    ∧ data_ok (filter (λ e, e.1 ∉ ids) A) next db' ∧ same_graph db db'
    ∧ vectors db' = filter (λ e, e.1 ∉ ids) (vectors db).
Proof.
  revert A db X. induction ids as [|id ids IH]; intros A db X Hd.
  { exists db. assert (∀ {B} (m : gmap N B), filter (λ e, e.1 ∉ ([] : list N)) m = m) as Hall.
    { intros B m. apply map_filter_id. intros. apply not_elem_of_nil. }
    rewrite !Hall. split_and!; try done. simpl. f_equal. set_solver. }
  assert (∀ {B} (m : gmap N B), filter (λ e, e.1 ∉ id :: ids) m = filter (λ e, e.1 ∉ ids) (base.delete id m)) as Hcons.
  { intros B m. apply map_eq. intros x. apply option_eq. intros b.
    rewrite !map_lookup_filter_Some, lookup_delete_Some, not_elem_of_cons. simpl. naive_solver. }
  cbn [foldl]. rewrite !Hcons. destruct (A !! id) as [vm|] eqn:Hid.
  - destruct (remove_data A next db X id vm Hd Hid) as (db1 & -> & Hd1 & Hg1 & Hv1).
    destruct (IH _ db1 ({[id]} ∪ X) Hd1) as (db2 & -> & Hd2 & Hg2 & Hv2).
    exists db2. split_and!; [|done|exact (same_graph_trans _ _ _ Hg1 Hg2)|by rewrite Hv2, Hv1].
    f_equal. assert (id ∈ dom A) by (apply elem_of_dom; by eexists). rewrite dom_delete_L. cbn [list_to_set].
    apply set_eq. intros x. destruct (decide (x = id)); set_solver.
  - rewrite (remove_absent A next db X id Hd Hid). rewrite delete_id by done.
    rewrite (delete_id (vectors db)).
    2:{ apply eq_None_not_Some. intros Hs%(data_lookup A next db id Hd). by destruct Hs; congruence. }
    destruct (IH A db X Hd) as (db2 & -> & Hd2 & Hg2 & Hv2). exists db2. split_and!; [|done..].
    f_equal. assert (id ∉ dom A) by by apply not_elem_of_dom. set_solver.
Qed.
End data.
