(* ===== verification/VectorDbThms.v ===== *)
(** * The vector database: operations

    [db_ok]: the database holds its contents and its graph is over them.
    [db_spec] says what each operation does to the contents and which answers
    are right; the lemmas here, that each keeps [db_ok]. *)

From stdpp Require Import gmap.
From S2P Require Import Prelude RustStd F32 Collections TopK HnswIndex Similarity ProductQuantization TextIndex Types VectorTypes VectorDb VectorDbGraph VectorDbData.

Local Open Scope string_scope.
Local Open Scope list_scope.

(** ** What searches return *)

(** The similarity of a stored vector to a query. *)
Definition cosine_to (q v : list f32) : f32 := cosine_with_norms q v (l2_norm q) (magnitude v).

Abbreviation ordered := (StronglySorted (cmp_le (best_first result_cmp))) (only parsing).

(** Best first, equally similar ones by id. *)
Definition match_cmp : SearchMatch → SearchMatch → comparison := score_cmp mt_similarity mt_vector_id.

Abbreviation ordered_matches := (StronglySorted (cmp_le (best_first match_cmp))) (only parsing).

(** A match is a stored vector and its similarity. *)
Definition genuine (A : contents) (q : list f32) (m : SearchMatch) : Prop :=
  ∃ v, A !! mt_vector_id m = Some (v, mt_metadata m) ∧ mt_similarity m = cosine_to q v.

(** The ranking of the vectors that [P] admits, those without a similarity
    left out. *)
Definition ranking (A : contents) (q : list f32) (P : VectorMetadata → bool) (ranked : list SearchMatch) : Prop :=
  NoDup (mt_vector_id <$> ranked) ∧ ordered_matches ranked
  ∧ ∀ m, m ∈ ranked ↔ genuine A q m ∧ P (mt_metadata m) = true ∧ f32_is_nan (mt_similarity m) = false.

(** What every search of a database returns: no vector twice, best first, at
    most [k], each stored and admitted with its similarity. *)
Definition sound_matches (A : contents) (q : list f32) (P : VectorMetadata → bool) (k : nat) (ms : list SearchMatch)
    : Prop :=
  NoDup (mt_vector_id <$> ms) ∧ ordered_matches ms ∧ (length ms ≤ k)%nat
  ∧ ∀ m, m ∈ ms → genuine A q m ∧ P (mt_metadata m) = true.

(** Which vectors are in the graph: all but [ids] if it is active, else none. *)
Definition in_graph_but (ids : list N) (db : VectorDB) : Prop :=
  if hnsw_active db
  then ∀ id, is_Some (vectors db !! id) → is_Some (layers (hnsw db) !! id) ∨ id ∈ ids
  else layers (hnsw db) = ∅.

(** What an operation draws from its environment: the random layers, the
    order of a parallel rebuild, and the time a search takes. *)
Record DbEnv := mkDbEnv { env_draw : N → N; env_par_order : list N → list N; env_us : N }.

Inductive DbOp :=
| OpAdd (vector : list f32) (md : VectorMetadata)
| OpAddBulk (items : list (list f32 * VectorMetadata))
| OpRemove (vector_id : N)
| OpRemoveMany (vector_ids : list N)
| OpRemoveContent (content_id : string)
| OpRemoveSource (source : string)
| OpBuild
| OpClear
| OpSearch (query_vector : list f32) (k : nat).

Inductive DbAnswer :=
| AnsAdded (r : result N string)
| AnsBulk (r : result (list N) string)
| AnsRemoved (r : result bool string)
| AnsCount (n : nat)
| AnsDone (r : result unit string)
| AnsSearched (r : result (list SearchMatch) string).

(** Ids an operation may hand out. *)
Definition op_adds (op : DbOp) : N :=
  match op with OpAdd _ _ => 1 | OpAddBulk items => N.of_nat (length items) | _ => 0 end.

Section ops.
Context `{U : Unicode} `{AN : Alphanumeric} `{MO : MapOrder} {MOL : MapOrderLaws} `{L : Libm}.
Variable config : VectorDbConfig.
Variable pq_codebook : option ProductQuantizationCodebook.
Variable quantization_params : option (list f32 * list f32).
Variable size_of_stored : N.

Abbreviation data_ok := (data_ok config).
Abbreviation add_vector := (add_vector config pq_codebook quantization_params size_of_stored).
Abbreviation add_vectors_bulk := (add_vectors_bulk config pq_codebook quantization_params size_of_stored).
Abbreviation remove_vector := (remove_vector size_of_stored).
Abbreviation remove_vectors := (remove_vectors size_of_stored).
Abbreviation remove_one := (remove_one size_of_stored).

Definition run_db_op (env : DbEnv) (op : DbOp) (db : VectorDB) : VectorDB * DbAnswer :=
  match op with
  | OpAdd v md => let '(db, r) := add_vector (env_draw env) (env_par_order env) v md db in (db, AnsAdded r)
  | OpAddBulk items => let '(db, r) := add_vectors_bulk (env_draw env) (env_par_order env) items db in (db, AnsBulk r)
  | OpRemove id => let '(db, r) := remove_vector id db in (db, AnsRemoved r)
  | OpRemoveMany ids => let '(db, n) := remove_vectors ids db in (db, AnsCount n)
  | OpRemoveContent c => let '(db, n) := remove_by_content_id size_of_stored c db in (db, AnsCount n)
  | OpRemoveSource s => let '(db, n) := remove_source size_of_stored s db in (db, AnsCount n)
  | OpBuild => let '(db, r) := build_index config (env_draw env) (env_par_order env) db in (db, AnsDone r)
  | OpClear => let '(db, r) := db_clear db in (db, AnsDone r)
  | OpSearch q k => let '(db, r) := search config (env_us env) q k db in (db, AnsSearched r)
  end.

Definition run_db_ops (ops : list (DbEnv * DbOp)) (db : VectorDB) : VectorDB * list DbAnswer :=
  foldl (λ st eo, let '(db, a) := run_db_op eo.1 eo.2 st.1 in (db, st.2 ++ [a])) (db, []) ops.

(** ** The specification

    A map from ids to vectors with metadata, and the next id.  An operation
    changes them and says which answers are right: one, but for a search, which
    may be approximate above the threshold. *)

Definition remaining (P : N → VectorMetadata → bool) (A : contents) : contents := filter (λ e, P e.1 e.2.2 = false) A.

Definition removal (P : N → VectorMetadata → bool) (A : contents) (next : N)
    : contents * N * (DbAnswer → Prop) :=
  (remaining P A, next, eq (AnsCount (size A - size (remaining P A)))).

(** The right answers of a search: matches that are sound, and the [k] most
    similar vectors exactly while the database is small; a query of another
    dimension is refused. *)
Definition search_answer (A : contents) (q : list f32) (k : nat) (a : DbAnswer) : Prop :=
  if decide (length q = dimension config)
  then ∃ ms, a = AnsSearched (Ok ms) ∧ sound_matches A q (λ _, true) k ms
       ∧ ((size A ≤ exact_search_threshold config)%nat →
          ∃ ranked, ranking A q (λ _, true) ranked ∧ ms = take k ranked)
  else ∃ e, a = AnsSearched (Err e).

Definition db_spec (op : DbOp) (A : contents) (next : N) : contents * N * (DbAnswer → Prop) :=
  match op with
  | OpAdd v md =>
    match add_error config A v with
    | Some e => (A, next, eq (AnsAdded (Err e)))
    | None => (<[next := (v, md)]> A, (next + 1)%N, eq (AnsAdded (Ok next)))
    end
  | OpAddBulk items =>
    let '(A, next, ids) := foldl (add_item config) (A, next, []) items in (A, next, eq (AnsBulk (Ok ids)))
  | OpRemove id => (base.delete id A, next, eq (AnsRemoved (Ok (bool_decide (is_Some (A !! id))))))
  | OpRemoveMany ids => removal (λ id _, bool_decide (id ∈ ids)) A next
  | OpRemoveContent c => removal (λ _ md, String.eqb (vm_id md) c) A next
  | OpRemoveSource s => removal (λ _ md, String.eqb (vm_source md) s) A next
  | OpBuild => (A, next, eq (AnsDone (Ok tt)))
  | OpClear => (∅, 0%N, eq (AnsDone (Ok tt)))
  | OpSearch q k => (A, next, search_answer A q k)
  end.

Definition db_specs (ops : list DbOp) (A : contents) (next : N) : contents * N * list (DbAnswer → Prop) :=
  foldl (λ st op, let '(A, next, specs) := st in
    let '(A, next, P) := db_spec op A next in (A, next, specs ++ [P])) (A, next, []) ops.

(** ** The invariant *)

Record db_ok (A : contents) (next : N) (db : VectorDB) : Prop := {
  db_data : data_ok A next db;
  db_graph : graph_ok db;
  db_built : is_built (db_stats db) = hnsw_active db;
  db_nodes : in_graph_but [] db;
}.

Lemma db_new_ok : db_ok ∅ 0 (VectorDB_new config).
Proof.
  split; [apply data_new_ok| |done|done]. split; [exact hnsw_new_wf|..].
  - by intros id [? ?].
  - by intros id l x ?.
Qed.

(** What new vectors do to the graph's part. *)
Lemma same_graph_ok db db' ids :
  same_graph db db' → (∀ id, is_Some (vectors db' !! id) ↔ is_Some (vectors db !! id) ∨ id ∈ ids) →
  graph_ok db → in_graph_but [] db → graph_ok db' ∧ in_graph_but ids db'.
Proof.
  intros (Hh & Ha & _) Hv [H1 H2 H3] Hn. split.
  - split; rewrite Hh; [done| |done]. intros id Hid. apply Hv. left. by apply H2.
  - unfold in_graph_but in *. rewrite Hh, Ha. destruct (hnsw_active db); [|done].
    intros id [Hid|Hid]%Hv; [|by right]. destruct (Hn id Hid) as [?|Hin]; [by left|by destruct (not_elem_of_nil _ Hin)].
Qed.

Lemma graph_only_data A next db db' : graph_only db db' → data_ok A next db → data_ok A next db'.
Proof. unfold graph_only. intros -> Hd. by apply data_graph. Qed.

Lemma build_ok draw par_order A next db :
  (∀ l, par_order l ≡ₚ l) → data_ok A next db → db_ok A next (build_graph_locked config draw par_order db).
Proof.
  intros Hpar Hd. destruct (build_graph_ok config draw par_order db Hpar) as (Hok & Ha & Heq & Hn).
  { intros id Hid%(data_lookup config A next db id Hd). pose proof (do_fresh _ _ _ _ Hd id Hid).
    pose proof (do_bound _ _ _ _ Hd). lia. }
  set (db' := build_graph_locked _ _ _ _) in *.
  assert (data_ok A next db') as Hd' by (rewrite Heq; by apply data_stats, data_graph).
  split; [done..| |].
  - rewrite Ha, Heq. done.
  - unfold in_graph_but. rewrite Ha. intros id Hid. left. apply Hn. rewrite Heq in Hid. exact Hid.
Qed.

(** Indexing the new vectors makes the graph complete. *)
Lemma new_vectors_indexed_ok draw par_order A next db ids :
  (∀ l, par_order l ≡ₚ l) → data_ok A next db → graph_ok db → is_built (db_stats db) = hnsw_active db →
  in_graph_but ids db → (∀ id, id ∈ ids → is_Some (vectors db !! id)) →
  db_ok A next (index_new_vectors config draw par_order ids db).
Proof.
  intros Hpar Hd Hg Hb Hm Hids. unfold index_new_vectors, in_graph_but in *.
  destruct (hnsw_active db) eqn:Ha.
  - destruct (insert_missing_all_ok config draw ids db Hg) as (Hok & Ho & Ha' & Hn).
    { intros id Hid%Hids%(data_lookup config A next db id Hd). pose proof (do_fresh _ _ _ _ Hd id Hid).
      pose proof (do_bound _ _ _ _ Hd). lia. }
    set (db' := foldl _ db ids) in *. rewrite Ha in Ha'.
    split; [exact (graph_only_data _ _ _ _ Ho Hd)|done| |].
    + unfold graph_only in Ho. rewrite Ha', Ho. exact Hb.
    + unfold in_graph_but. rewrite Ha', (graph_only_vectors _ _ Ho). intros id Hid. left. apply Hn.
      destruct (Hm id Hid) as [?|?]; [by left|right; by split].
  - case_match; [|by apply build_ok]. split; [done..|by rewrite Ha|]. unfold in_graph_but. by rewrite Ha.
Qed.

Lemma add_vector_ok draw par_order A next db v md :
  (∀ l, par_order l ≡ₚ l) → db_ok A next db → (next < u32_max)%N →
  match add_error config A v with
  | Some e => add_vector draw par_order v md db = (db, Err e)
  | None => ∃ db', add_vector draw par_order v md db = (db', Ok next) ∧ db_ok (<[next := (v, md)]> A) (next + 1) db'
  end.
Proof.
  intros Hpar [Hd Hg Hb Hm] Hn. unfold VectorDb.add_vector.
  pose proof (insert_unindexed_data config pq_codebook quantization_params size_of_stored A next db v md Hd Hn) as Hins.
  destruct (add_error config A v); [by rewrite Hins|]. destruct Hins as (db' & -> & Hd' & Hsame).
  eexists. split; [done|].
  assert (∀ id, is_Some (vectors db' !! id) ↔ is_Some (vectors db !! id) ∨ id ∈ [next]) as Hv.
  { intros id. rewrite (data_lookup config _ _ _ id Hd), (data_lookup config _ _ _ id Hd'), lookup_insert_is_Some'.
    rewrite list_elem_of_singleton. naive_solver. }
  destruct (same_graph_ok db db' [next] Hsame Hv Hg Hm) as [Hg' Hm'].
  apply new_vectors_indexed_ok; [done..| |done|].
  - destruct Hsame as (_ & -> & ->). done.
  - intros id Hid. apply Hv. by right.
Qed.

Lemma add_bulk_ok draw par_order A next db items :
  (∀ l, par_order l ≡ₚ l) → db_ok A next db → (next + N.of_nat (length items) ≤ u32_max)%N →
  ∃ A' next' ids db', foldl (add_item config) (A, next, []) items = (A', next', ids)
    ∧ add_vectors_bulk draw par_order items db = (db', Ok ids) ∧ db_ok A' next' db'
    ∧ (next' ≤ next + N.of_nat (length items))%N.
Proof.
  intros Hpar [Hd Hg Hb Hm] Hn.
  destruct (bulk_loop_data config pq_codebook quantization_params size_of_stored items A next [] db Hd Hn)
    as (A' & next' & ids & db' & Hspec & Hrun & Hd' & Hsame & Hle & Hin & _).
  { intros id Hid. by destruct (not_elem_of_nil _ Hid). }
  exists A', next', ids, (index_new_vectors config draw par_order ids db'). unfold VectorDb.add_vectors_bulk.
  rewrite Hrun. split_and!; [done..| |done].
  assert (∀ id, is_Some (vectors db' !! id) ↔ is_Some (vectors db !! id) ∨ id ∈ ids) as Hv.
  { intros id. by rewrite (data_lookup config _ _ _ id Hd), (data_lookup config _ _ _ id Hd'), Hin. }
  destruct (same_graph_ok db db' ids Hsame Hv Hg Hm) as [Hg' Hm'].
  apply new_vectors_indexed_ok; [done..| |done|].
  - destruct Hsame as (_ & -> & ->). done.
  - intros id Hid. apply Hv. by right.
Qed.

(** ** Removals *)

(** Removing the vectors of a set from the data and from the graph. *)
Lemma removed_ok A A' next db db' h (P : N → Prop) :
  db_ok A next db → data_ok A' next db' → same_graph db db' →
  (∀ id, is_Some (vectors db' !! id) ↔ is_Some (vectors db !! id) ∧ ¬ P id) →
  hnsw_wf h → (∀ id, is_Some (layers h !! id) ↔ is_Some (layers (hnsw db) !! id) ∧ ¬ P id) →
  (∀ id l, connections h !! id = Some l →
     ∃ l', connections (hnsw db) !! id = Some l' ∧ ∀ x, x ∈ l → x ∈ l' ∧ ¬ P x) →
  db_ok A' next (set_hnsw h db').
Proof.
  intros [Hd [H1 H2 H3] Hb Hn] Hd' (_ & Ha & Hb') Hv Hw Hl Hc. split.
  - by apply data_graph.
  - split; [exact Hw| |].
    + intros id [Hid Hp]%Hl. apply Hv. split; [by apply H2|done].
    + intros id l x Hl' Hx. simpl. destruct (Hc id l Hl') as (l' & Hl'' & Hin). apply Hl.
      destruct (Hin x Hx) as [Hx' Hp]. split; [exact (H3 _ _ _ Hl'' Hx')|done].
  - simpl. by rewrite Hb', Ha.
  - unfold in_graph_but in *. simpl. rewrite Ha. destruct (hnsw_active db).
    + intros id [Hid Hp]%Hv. destruct (Hn id Hid) as [?|Hin]; [left; by apply Hl|by destruct (not_elem_of_nil _ Hin)].
    + apply map_empty. intros id. apply eq_None_not_Some. intros [[? Hid] _]%Hl. by rewrite Hn in Hid.
Qed.

Lemma remove_vectors_ok ids A next db :
  db_ok A next db →
  ∃ db', remove_vectors ids db = (db', size (filter (λ e, e.1 ∈ ids) A)) ∧ db_ok (filter (λ e, e.1 ∉ ids) A) next db'.
Proof.
  intros Hok. pose proof Hok as [Hd Hg _ _].
  destruct (remove_all_data config size_of_stored ids A next db ∅ Hd) as (db1 & Hrun & Hd1 & Hsame & Hv).
  unfold VectorDb.remove_vectors. rewrite Hrun. set (X := (∅ ∪ list_to_set ids ∩ dom A : gset N)).
  assert (∀ id, id ∈ X ↔ id ∈ ids ∧ is_Some (A !! id)) as HX.
  { intros id. unfold X. rewrite elem_of_union, elem_of_intersection, elem_of_list_to_set, elem_of_dom. set_solver. }
  eexists. split.
  - do 2 f_equal. rewrite <-size_dom. f_equal. apply set_eq. intros id. rewrite HX, elem_of_dom.
    unfold is_Some. setoid_rewrite map_lookup_filter_Some. simpl. naive_solver.
  - assert (∀ id, is_Some (layers (hnsw db) !! id) → is_Some (A !! id)) as Hnode.
    { intros id Hid%(go_nodes _ Hg). by apply (data_lookup config _ _ _ _ Hd). }
    assert (∀ id, is_Some (vectors db !! id) → is_Some (A !! id)) as HvA.
    { intros id. apply (data_lookup config _ _ _ _ Hd). }
    rewrite (proj1 Hsame).
    apply (removed_ok A _ next db db1 _ (λ id, id ∈ X) Hok Hd1 Hsame).
    + intros id. rewrite Hv. specialize (HvA id). unfold is_Some in *. setoid_rewrite map_lookup_filter_Some. simpl.
      setoid_rewrite HX. naive_solver.
    + apply hnsw_remove_many_wf, Hg.
    + intros id. rewrite hnsw_remove_many_layers by apply Hg. unfold is_Some.
      setoid_rewrite map_lookup_filter_Some. simpl. naive_solver.
    + intros id l. apply hnsw_remove_many_connections, Hg.
Qed.

Lemma remove_vector_ok id A next db :
  db_ok A next db →
  ∃ db', remove_vector id db = (db', Ok (bool_decide (is_Some (A !! id)))) ∧ db_ok (base.delete id A) next db'.
Proof.
  intros Hok. pose proof Hok as [Hd Hg _ _]. destruct (A !! id) as [vm|] eqn:Hid.
  - destruct (remove_data config size_of_stored A next db ∅ id vm Hd Hid) as (db1 & Hrun & Hd1 & Hsame & Hv).
    assert (remove_vector id db = (set_hnsw (hnsw_remove_vector id (hnsw db)) db1, Ok true)) as ->.
    { revert Hrun. unfold VectorDb.remove_one, VectorDb.remove_vector. cbn [fst snd].
      destruct (proj2 (data_lookup config A next db id Hd)) as [stored Hs]; [by eexists|].
      unfold remove_metadata. cbn [vector_metadata with_maps vectors]. rewrite (do_metadata _ _ _ _ Hd), lookup_fmap, Hid.
      cbn [fmap option_fmap option_map]. unfold unindex_metadata.
      assert (∀ vs ms db0, unindex_source id vm.2 (with_maps vs ms db0) = unindex_source id vm.2 db0) as Hus by done.
      rewrite !Hus. destruct (unindex_source id vm.2 db) as [src messages]. cbn [with_indexes vectors with_maps]. rewrite Hs.
      intros Hq. apply (f_equal fst) in Hq. cbn [fst] in Hq. rewrite <-Hq. reflexivity. }
    eexists. rewrite bool_decide_eq_true_2 by by eexists. split; [done|].
    destruct (hnsw_remove_layers id (hnsw db)) as [Hl Hc]; [apply Hg|].
    apply (removed_ok A _ next db db1 _ (λ x, x = id) Hok Hd1 Hsame).
    + intros x. rewrite Hv, lookup_delete_is_Some. clear. split; intros [? ?]; by split.
    + apply hnsw_remove_wf, Hg.
    + intros x. rewrite Hl, lookup_delete_is_Some. clear. split; intros [? ?]; by split.
    + intros x l. rewrite Hc, lookup_fmap_Some. intros (l' & <- & [_ Hl']%lookup_delete_Some). exists l'.
      split; [done|]. intros y [? ?]%list_elem_of_filter. done.
  - exists db. rewrite (delete_id A) by exact Hid. rewrite bool_decide_eq_false_2 by by intros [? ?]. split; [|done].
    assert (vectors db !! id = None) as Hv.
    { apply eq_None_not_Some. intros Hs%(data_lookup config A next db id Hd). rewrite Hid in Hs. by destruct Hs. }
    unfold VectorDb.remove_vector, remove_metadata. cbn [vector_metadata with_maps].
    rewrite Hv, (do_metadata _ _ _ _ Hd), lookup_fmap, Hid. cbn [fmap option_fmap option_map].
    rewrite <-(do_metadata _ _ _ _ Hd). rewrite delete_id by done. by destruct db.
Qed.

Lemma set_order_elem X id : id ∈ set_order X ↔ id ∈ X.
Proof.
  unfold set_order. rewrite list_elem_of_fmap. split.
  - intros ([x []] & -> & Hx%elem_of_iter_order). apply lookup_set_to_map in Hx as (y & Hy & [= <-]); [done|].
    by intros ? ? ? ? [= <-].
  - intros Hid. exists (id, ()). split; [done|]. apply elem_of_iter_order, lookup_set_to_map; [by intros ? ? ? ? [= <-]|].
    by exists id.
Qed.

Lemma nonempty_iff (X : gset N) : X ≠ ∅ ↔ ∃ x, x ∈ X.
Proof. split; [apply set_choose_L|]. intros [x Hx] ->. set_solver. Qed.

Lemma in_source_fmap (A : contents) s : in_source (snd <$> A) s = snd <$> filter (λ e, vm_source e.2.2 = s) A.
Proof. unfold in_source. by rewrite map_filter_fmap. Qed.

(** The ids a source or content id has. *)
Lemma source_ids_spec A next db s :
  data_ok A next db →
  NoDup (source_vector_ids s db)
  ∧ ∀ id, id ∈ source_vector_ids s db ↔ ∃ v, A !! id = Some v ∧ vm_source v.2 = s.
Proof.
  intros Hd. pose proof (ix_source _ _ _ _ (do_index _ _ _ _ Hd) s) as Hs. unfold source_vector_ids. rewrite Hs.
  pose proof (elem_of_in_source (snd <$> A) s) as Hin.
  assert (∀ id, (∃ md, (snd <$> A) !! id = Some md ∧ vm_source md = s)
    ↔ ∃ v, A !! id = Some v ∧ vm_source v.2 = s) as Hmd.
  { intros id. setoid_rewrite lookup_fmap_Some. naive_solver. }
  unfold source_entry. case_decide as He; simpl.
  - split; [constructor|]. intros id. rewrite <-Hmd, <-Hin, He, dom_empty_L. set_solver.
  - split; [apply iter_to_map|]. intros id. by rewrite <-Hmd, <-Hin, set_order_elem.
Qed.

Lemma content_ids_spec A next db c :
  data_ok A next db →
  StronglySorted N.lt (find_vector_ids_by_content_id c db)
  ∧ ∀ id, id ∈ find_vector_ids_by_content_id c db ↔ ∃ v, A !! id = Some v ∧ vm_id v.2 = c.
Proof.
  intros Hd. destruct (do_index _ _ _ _ Hd) as [_ Hc Hs _ _]. split; [apply Hs|].
  intros id. unfold find_vector_ids_by_content_id. rewrite Hc. setoid_rewrite lookup_fmap_Some. naive_solver.
Qed.

(** Removing the vectors a predicate picks. *)
Lemma removal_ok (P : N → VectorMetadata → bool) ids A next db :
  db_ok A next db → (∀ id, id ∈ ids → is_Some (A !! id) → ∃ v, A !! id = Some v ∧ P id v.2 = true) →
  (∀ id v, A !! id = Some v → P id v.2 = true → id ∈ ids) →
  ∃ db', remove_vectors ids db = (db', size A - size (remaining P A))%nat ∧ db_ok (remaining P A) next db'.
Proof.
  intros Hok H1 H2. destruct (remove_vectors_ok ids A next db Hok) as (db' & Hrun & Hok'). exists db'.
  assert (∀ id v, A !! id = Some v → (id ∈ ids ↔ P id v.2 = true)) as Hin.
  { intros id v Hv. split; [|by apply H2]. intros Hid. destruct (H1 id Hid) as (v' & Hv' & Hp); [by eexists|]. congruence. }
  assert (filter (λ e, e.1 ∉ ids) A = remaining P A) as Hrem.
  { apply map_filter_ext. intros id v Hv. simpl. rewrite (Hin id v Hv). by destruct (P id v.2). }
  rewrite Hrem in Hok'. split; [|done]. rewrite Hrun. f_equal. rewrite <-Hrem.
  pose proof (map_filter_union_complement (λ e, e.1 ∈ ids) A) as Hu.
  pose proof (map_disjoint_filter_complement (λ e, e.1 ∈ ids) A) as Hdis.
  apply (f_equal size) in Hu. rewrite map_size_disj_union in Hu by done. rewrite <-Hu. lia.
Qed.

(** ** All operations *)

Lemma stats_ok A next db us : db_ok A next db → db_ok A next (with_stats (record_search us) db).
Proof. intros [Hd [H1 H2 H3] Hb Hn]. split; [by apply data_stats|by split|exact Hb|exact Hn]. Qed.

Lemma db_clear_ok A next db : db_ok A next db → db_ok ∅ 0 (db_clear db).1.
Proof.
  intros [Hd _ _ _]. unfold db_clear. cbn [fst]. split; [|split; [exact hnsw_new_wf|..]|done|done].
  - destruct (data_new_ok config). destruct Hd as [_ _ _ _ _ _ _ _ _ _ _ Hkeep _].
    split; try done. unfold text_clear. by rewrite Hkeep.
  - by intros id [? ?].
  - by intros id l x ?.
Qed.

Lemma search_ok us q k A next db : db_ok A next db → db_ok A next (search config us q k db).1.
Proof.
  intros Hok. unfold search, search_with_mode. destruct (check_query config q); [by apply stats_ok|done].
Qed.

(** The lookups of a database that an operation sequence leaves: those by
    id, content id and source give the vectors that have them, [update]
    lookups leave messages and entity descriptions out, counts are exact, and
    a corpus needs a filter when some stored vector may not be in it. *)
Theorem vector_lookups_exact A next db s c id :
  db_ok A next db →
  get_metadata id db = snd <$> A !! id ∧ db_len db = size A ∧ sn_total_vectors (get_db_stats db) = N.of_nat (size A)
  ∧ StronglySorted N.lt (find_vector_ids_by_content_id c db)
  ∧ (id ∈ find_vector_ids_by_content_id c db ↔ ∃ v, A !! id = Some v ∧ vm_id v.2 = c)
  ∧ (has_update_embedding c db = true ↔ ∃ i v, A !! i = Some v ∧ vm_id v.2 = c)
  ∧ count_session_embeddings s db = size (filter (λ e, vm_source e.2.2 = s) A)
  ∧ (has_source_embeddings s db = true ↔ ∃ i v, A !! i = Some v ∧ vm_source v.2 = s)
  ∧ (has_session_update_embeddings s db = true ↔
      ∃ i v, A !! i = Some v ∧ vm_source v.2 = s ∧ is_update (vm_content_type v.2) = true)
  ∧ (c ∈ get_vectorized_update_ids s db ↔
      ∃ i v, A !! i = Some v ∧ vm_source v.2 = s ∧ is_update (vm_content_type v.2) = true ∧ vm_id v.2 = c)
  ∧ (∀ corpus, needs_corpus_filter corpus db = false →
      ∀ i v, A !! i = Some v → admits corpus (vm_content_type v.2) = true).
Proof.
  intros [Hd _ _ _]. destruct (content_ids_spec A next db c Hd) as [Hsort Hcontent].
  destruct (source_ids_spec A next db s Hd) as [_ Hsource].
  destruct (do_index _ _ _ _ Hd) as [Hs Hc _ Hne Hmsg].
  split_and!; [| | |done|done|..].
  - unfold get_metadata. by rewrite (do_metadata _ _ _ _ Hd), lookup_fmap.
  - exact (data_size _ _ _ _ Hd).
  - exact (do_total _ _ _ _ Hd).
  - unfold has_update_embedding. rewrite bool_decide_eq_true. specialize (Hne c). specialize (Hc c).
    assert (∀ i, (∃ md, (snd <$> A) !! i = Some md ∧ vm_id md = c) ↔ ∃ v, A !! i = Some v ∧ vm_id v.2 = c) as Hmd.
    { intros i. setoid_rewrite lookup_fmap_Some. naive_solver. }
    setoid_rewrite <-Hmd. setoid_rewrite <-Hc. destruct (by_content_id db !! c) as [[|i ids]|]; simpl.
    + done.
    + split; [|by eexists]. intros _. exists i. by left.
    + split; [by intros [? ?]|]. intros [i Hi]. by destruct (not_elem_of_nil _ Hi).
  - unfold count_session_embeddings. rewrite Hs, <-(map_size_fmap snd), <-in_source_fmap.
    pose proof (source_entry_ids (snd <$> A) s) as Hids. destruct (source_entry _ _) as [e|]; simpl in *.
    + by rewrite Hids, size_dom.
    + symmetry in Hids. apply dom_empty_inv_L in Hids. by rewrite Hids.
  - setoid_rewrite <-Hsource. unfold has_source_embeddings, source_vector_ids. destruct (by_source db !! s) as [e|].
    + rewrite negb_true_iff, bool_decide_eq_false, nonempty_iff. by setoid_rewrite set_order_elem.
    + split; [done|]. intros [i Hi]. by destruct (not_elem_of_nil _ Hi).
  - transitivity (∃ i, i ∈ dom (updates_in (snd <$> A) s)).
    + rewrite <-nonempty_iff, <-leibniz_equiv_iff, <-size_empty_iff, size_dom, <-source_entry_count, <-Hs.
      unfold has_session_update_embeddings. destruct (by_source db !! s) as [e|]; simpl; [|done].
      rewrite Nat.ltb_lt. lia.
    + setoid_rewrite elem_of_dom. unfold is_Some, updates_in. setoid_rewrite map_lookup_filter_Some.
      setoid_rewrite lookup_fmap_Some. naive_solver.
  - unfold get_vectorized_update_ids. rewrite list_elem_of_omap. setoid_rewrite Hsource.
    setoid_rewrite (do_metadata _ _ _ _ Hd). setoid_rewrite lookup_fmap. split.
    + intros (i & (v & Hv & <-) & Hq). rewrite Hv in Hq. cbn [fmap option_fmap option_map mbind option_bind] in Hq.
      destruct (is_update _) eqn:Hup; [|done]. injection Hq as <-. by exists i, v.
    + intros (i & v & Hv & Hsv & Hup & <-). exists i. split; [by exists v|]. rewrite Hv.
      cbn [fmap option_fmap option_map mbind option_bind]. by rewrite Hup.
  - intros corpus Hf i v Hv. destruct corpus; [|done..]. simpl in Hf. apply N.ltb_ge in Hf.
    assert (messages_in (snd <$> A) = ∅) as He by (apply map_size_empty_iff; lia).
    simpl. destruct (String.eqb_spec (vm_content_type v.2) MESSAGE_CONTENT_TYPE) as [Heq|]; [|done]. exfalso.
    apply (map_filter_empty_not_lookup _ _ i v.2 He); [done|by rewrite lookup_fmap, Hv].
Qed.
End ops.
