(* ===== verification/VectorDbSearch.v ===== *)
(** * The vector database: searches

    What scans, graph walks, filters and word searches return, from the
    contents of the database; and the refinement of all its operations. *)

From stdpp Require Import gmap.
From S2P Require Import Prelude RustStd F32 Collections TopK HnswIndex Similarity ProductQuantization TextIndex Types VectorTypes VectorDb VectorDbGraph VectorDbData VectorDbThms.

Local Open Scope string_scope.
Local Open Scope list_scope.

Section search.
Context `{U : Unicode} `{AN : Alphanumeric} `{MO : MapOrder} {MOL : MapOrderLaws} `{L : Libm}.
Variable config : VectorDbConfig.

Abbreviation data_ok := (data_ok config).
Abbreviation db_ok := (db_ok config).

(** ** Scans *)

Definition accepts (f : option (VectorMetadata → bool)) (md : VectorMetadata) : bool :=
  match f with Some f => f md | None => true end.

Lemma similarity_cosine A next db q id :
  data_ok A next db → similarity_to q (l2_norm q) id db = (λ vm, cosine_to q vm.1) <$> A !! id.
Proof.
  intros Hd. unfold similarity_to.
  assert (sv_vector <$> vectors db !! id = fst <$> A !! id) as Heq.
  { by rewrite <-!lookup_fmap, (do_vectors _ _ _ _ Hd). }
  destruct (vectors db !! id) as [stored|] eqn:Hs, (A !! id) as [vm|]; try done.
  injection Heq as Heq. csimpl. f_equal. destruct (do_stored _ _ _ _ Hd id stored Hs) as [_ Hm].
  unfold cosine_to. by rewrite Hm, Heq.
Qed.

(** The candidates a scan offers. *)
Definition scan_candidates (q : list f32) (f : option (VectorMetadata → bool)) (A : contents) (ids : list N)
    : list SearchResult :=
  filter (λ r, f32_is_nan (res_similarity r) = false)
    (omap (λ id, vm ← A !! id; if accepts f vm.2 then Some (mkSearchResult id (cosine_to q vm.1)) else None) ids).

Lemma offers_foldl A next db q k f ids heap :
  data_ok A next db →
  foldl (offer_id q (l2_norm q) k f db) heap ids = foldl (topk_push k) heap (scan_candidates q f A ids).
Proof.
  intros Hd. revert heap. induction ids as [|id ids IH]; intros heap; [done|]. cbn [foldl]. rewrite IH.
  unfold offer_id, passes. rewrite (similarity_cosine A next) by done.
  rewrite (do_metadata _ _ _ _ Hd), lookup_fmap. unfold scan_candidates. cbn [omap list_omap].
  assert (∀ r rest, filter (λ r, f32_is_nan (res_similarity r) = false) (r :: rest)
    = if f32_is_nan (res_similarity r) then filter (λ r, f32_is_nan (res_similarity r) = false) rest
      else r :: filter (λ r, f32_is_nan (res_similarity r) = false) rest) as Hfilter.
  { intros r rest. rewrite filter_cons. by destruct (f32_is_nan _). }
  destruct (A !! id) as [vm|]; cbn [fmap option_fmap option_map mbind option_bind].
  - change (match f with Some f => f vm.2 | None => true end) with (accepts f vm.2).
    destruct (accepts f vm.2); [|done]. rewrite Hfilter. cbn [res_similarity].
    destruct (f32_is_nan (cosine_to q vm.1)) eqn:Hnan; [|done].
    unfold topk_push at 2. cbn [res_similarity]. by rewrite Hnan, orb_true_r.
  - by destruct f.
Qed.

Lemma topk_foldl k rs :
  Forall (λ r, f32_is_nan (res_similarity r) = false) rs → NoDup (res_id <$> rs) →
  foldl (topk_push k) [] rs = take k (sort_by (best_first result_cmp) rs).
Proof.
  intros Hnan Hnd. destruct k as [|k].
  { rewrite take_0. clear. induction rs as [|r rs IH]; [done|exact IH]. }
  assert (∀ heap, foldl (topk_push (S k)) heap rs = foldl (heap_offer result_cmp (cmp_gt result_cmp) (S k)) heap rs) as ->.
  { clear Hnd. induction Hnan as [|r rs Hr _ IH]; intros heap; [done|]. cbn [foldl]. rewrite IH. unfold topk_push.
    by rewrite Hr. }
  rewrite (heap_offers_spec result_cmp); [|lia|].
  - rewrite (pushed_sort result_cmp); [done|]. intros x y Hx Hy Heq%score_cmp_eq.
    apply list_elem_of_lookup in Hx as [i Hi]. apply list_elem_of_lookup in Hy as [j Hj].
    assert (i = j) as <-; [|congruence].
    eapply (NoDup_lookup _ i j (res_id x) Hnd); rewrite list_lookup_fmap, ?Hi, ?Hj; [done|]. simpl. by rewrite Heq.
  - clear. induction rs; constructor; [done|]. by apply Forall_forall.
Qed.

Lemma elem_of_scan_candidates q f A ids r :
  r ∈ scan_candidates q f A ids ↔
  res_id r ∈ ids ∧ f32_is_nan (res_similarity r) = false
  ∧ ∃ vm, A !! res_id r = Some vm ∧ accepts f vm.2 = true ∧ res_similarity r = cosine_to q vm.1.
Proof.
  unfold scan_candidates. rewrite list_elem_of_filter, list_elem_of_omap. split.
  - intros (Hnan & id & Hid & Hr). destruct (A !! id) as [vm|] eqn:Hv; [|done]. cbn [mbind option_bind] in Hr.
    destruct (accepts f vm.2) eqn:Ha; [|done]. injection Hr as <-. split_and!; [done..|]. by exists vm.
  - intros (Hid & Hnan & vm & Hv & Ha & Hs). split; [done|]. exists (res_id r). split; [done|]. rewrite Hv.
    cbn [mbind option_bind]. rewrite Ha. destruct r. simpl in *. by rewrite Hs.
Qed.

Lemma candidates_nodup q f A ids : NoDup ids → NoDup (res_id <$> scan_candidates q f A ids).
Proof.
  intros Hnd. unfold scan_candidates. apply NoDup_fmap_filter.
  induction Hnd as [|id ids Hid Hnd IH]; [constructor|]. cbn [omap list_omap].
  destruct (A !! id) as [vm|]; cbn [mbind option_bind]; [|done]. destruct (accepts f vm.2); [|done].
  csimpl. constructor; [|done]. intros (r & Heq & (x & Hx & Hr)%list_elem_of_omap)%list_elem_of_fmap. apply Hid.
  destruct (A !! x) as [vm'|]; [|done]. cbn [mbind option_bind] in Hr. destruct (accepts f vm'.2); [|done].
  injection Hr as <-. simpl in Heq. by subst.
Qed.

Lemma scan_ids_spec A next db q k f ids :
  data_ok A next db → NoDup ids →
  scan_ids ids q (l2_norm q) k f db = take k (sort_by (best_first result_cmp) (scan_candidates q f A ids)).
Proof.
  intros Hd Hnd. unfold scan_ids. rewrite (offers_foldl A next) by done. apply topk_foldl; [|by apply candidates_nodup].
  apply Forall_forall. intros r Hr. by apply elem_of_scan_candidates in Hr as (_ & ? & _).
Qed.

Lemma scan_all_ids A next db q k f :
  data_ok A next db → scan_all q (l2_norm q) k f db = scan_ids (iter_order (vectors db)).*1 q (l2_norm q) k f db.
Proof.
  intros Hd. unfold scan_all, scan_ids.
  assert (∀ e, e ∈ iter_order (vectors db) → vectors db !! e.1 = Some e.2) as Hin.
  { intros [id v]. apply elem_of_iter_order. }
  generalize (@nil SearchResult) as heap. revert Hin. generalize (iter_order (vectors db)) as es.
  induction es as [|e es IH]; intros Hin heap; [done|]. csimpl. rewrite IH by (intros e' He'; apply Hin; by right).
  f_equal. unfold offer_id, similarity_to. rewrite (Hin e) by by left. done.
Qed.

(** ** Matches *)

Definition to_match (A : contents) (r : SearchResult) : option SearchMatch :=
  vm ← A !! res_id r; Some (mkSearchMatch (res_id r) (res_similarity r) vm.2).

Lemma to_matches_spec A next db f rs k :
  data_ok A next db →
  to_matches rs k f db = take k (filter (λ m, accepts f (mt_metadata m) = true) (omap (to_match A) rs)).
Proof.
  intros Hd. revert k. induction rs as [|r rs IH]; intros k; [by destruct k|].
  destruct k as [|k]; [done|]. cbn [to_matches omap list_omap]. unfold to_match at 1.
  rewrite (do_metadata _ _ _ _ Hd), lookup_fmap. destruct (A !! res_id r) as [vm|];
    cbn [fmap option_fmap option_map mbind option_bind]; [|apply IH].
  rewrite filter_cons. cbn [mt_metadata].
  assert (match f with Some f => negb (f vm.2) | None => false end = negb (accepts f vm.2)) as -> by by destruct f.
  destruct (accepts f vm.2); cbn [negb]; [|apply IH].
  rewrite decide_True by done. rewrite firstn_cons. by rewrite IH.
Qed.

(** Scored results of a well-scored list become genuine matches in order. *)
Lemma to_match_all A q rs :
  NoDup (res_id <$> rs) → ordered rs →
  (∀ r, r ∈ rs → ∃ vm, A !! res_id r = Some vm ∧ res_similarity r = cosine_to q vm.1) →
  let ms := omap (to_match A) rs in
  NoDup (mt_vector_id <$> ms) ∧ ordered_matches ms ∧ length ms = length rs
  ∧ ∀ m, m ∈ ms ↔ genuine A q m ∧ mkSearchResult (mt_vector_id m) (mt_similarity m) ∈ rs.
Proof.
  intros Hnd Hs Hr.
  assert (∀ m, m ∈ omap (to_match A) rs → mkSearchResult (mt_vector_id m) (mt_similarity m) ∈ rs ∧ genuine A q m) as Hin.
  { intros m (r & Hrs & Hm)%list_elem_of_omap. destruct (Hr r Hrs) as (vm & Hvm & Hsim). unfold to_match in Hm.
    rewrite Hvm in Hm. injection Hm as <-. destruct r as [id s]. split; [done|]. exists vm.1. simpl in *.
    split; [|done]. rewrite Hvm. by destruct vm. }
  assert (mt_vector_id <$> omap (to_match A) rs = res_id <$> rs) as Hids.
  { clear Hnd Hs Hin. induction rs as [|r rs IH]; [done|]. cbn [omap list_omap].
    destruct (Hr r) as (vm & Hvm & _); [by left|]. unfold to_match at 1. rewrite Hvm. csimpl. f_equal. apply IH.
    intros r' Hr'. apply Hr. by right. }
  split_and!.
  - by rewrite Hids.
  - clear Hnd Hr Hin Hids. induction Hs as [|r rs Hs IH Hr]; [constructor|]. cbn [omap list_omap].
    unfold to_match at 1. destruct (A !! res_id r); [|done]. cbn [mbind option_bind]. constructor; [done|].
    apply Forall_forall. intros m (r' & Hr' & Hm)%list_elem_of_omap. rewrite Forall_forall in Hr.
    specialize (Hr r' Hr'). unfold to_match in Hm. destruct (A !! res_id r'); [|done]. by injection Hm as <-.
  - by rewrite <-(length_fmap mt_vector_id), Hids, length_fmap.
  - intros m. split; [intros Hm; by apply and_comm, Hin|]. intros [(v & Hv & _) Hrs]. apply list_elem_of_omap.
    eexists. split; [exact Hrs|]. unfold to_match. cbn [res_id res_similarity]. rewrite Hv. by destruct m.
Qed.

Definition well_scored (A : contents) (q : list f32) (r : SearchResult) : Prop :=
  ∃ vm, A !! res_id r = Some vm ∧ res_similarity r = cosine_to q vm.1.

Lemma omap_take A q k rs :
  (∀ r, r ∈ rs → well_scored A q r) → omap (to_match A) (take k rs) = take k (omap (to_match A) rs).
Proof.
  revert k. induction rs as [|r rs IH]; intros k Hr; [by destruct k|]. destruct k as [|k]; [done|].
  rewrite firstn_cons. cbn [omap list_omap]. destruct (Hr r) as (vm & Hvm & _); [by left|].
  assert (to_match A r = Some (mkSearchMatch (res_id r) (res_similarity r) vm.2)) as ->.
  { unfold to_match. by rewrite Hvm. }
  rewrite firstn_cons, <-IH; [done|].
  intros r' Hr'. apply Hr. by right.
Qed.

(** The matches of a scan. *)
Lemma scan_matches A next db q k f ids :
  data_ok A next db → NoDup ids →
  ∃ ranked, to_matches (scan_ids ids q (l2_norm q) k f db) k None db = take k ranked
    ∧ NoDup (mt_vector_id <$> ranked) ∧ ordered_matches ranked
    ∧ ∀ m, m ∈ ranked ↔ genuine A q m ∧ mt_vector_id m ∈ ids ∧ accepts f (mt_metadata m) = true
                        ∧ f32_is_nan (mt_similarity m) = false.
Proof.
  intros Hd Hnd. set (rs := sort_by (best_first result_cmp) (scan_candidates q f A ids)).
  assert (∀ r, r ∈ rs ↔ r ∈ scan_candidates q f A ids) as Hin by (intros r; unfold rs; by rewrite sort_by_perm).
  assert (∀ r, r ∈ rs → well_scored A q r) as Hr.
  { intros r (_ & _ & vm & Hv & _ & Hs)%Hin%elem_of_scan_candidates. by exists vm. }
  destruct (to_match_all A q rs) as (H1 & H2 & _ & H3).
  - unfold rs. rewrite sort_by_perm. by apply candidates_nodup.
  - apply sort_by_sorted, _.
  - exact Hr.
  - exists (omap (to_match A) rs). split_and!; [|done..|].
    + rewrite (scan_ids_spec A next) by done. fold rs. rewrite (to_matches_spec A next) by done.
      rewrite filter_all by done. rewrite (omap_take A q) by done. by rewrite take_take, Nat.min_id.
    + intros m. rewrite H3, Hin, elem_of_scan_candidates. cbn [res_id res_similarity]. split.
      * intros (Hg & Hid & Hnan & vm & Hvm & Hacc & _). split_and!; [done..| |done].
        destruct Hg as (v & Hv & _). rewrite Hv in Hvm. by injection Hvm as <-.
      * intros (Hg & Hid & Hacc & Hnan). split_and!; [done..|]. destruct Hg as (v & Hv & Hs). by exists (v, mt_metadata m).
Qed.

Lemma scan_all_matches A next db q k f :
  data_ok A next db →
  ∃ ranked, to_matches (scan_all q (l2_norm q) k f db) k None db = take k ranked ∧ ranking A q (accepts f) ranked.
Proof.
  intros Hd. rewrite (scan_all_ids A next) by done.
  destruct (scan_matches A next db q k f (iter_order (vectors db)).*1 Hd) as (ranked & Heq & Hnd & Hs & Hin);
    [apply iter_to_map|].
  exists ranked. split; [done|]. unfold ranking. split_and!; [done..|]. intros m. rewrite Hin. split; [tauto|]. intros (Hg & Hacc & Hnan).
  split_and!; [done| |done..]. destruct Hg as (v & Hv & _).
  destruct (proj2 (data_lookup config A next db (mt_vector_id m) Hd)) as [stored Hst]; [by eexists|].
  apply list_elem_of_fmap. exists (mt_vector_id m, stored). split; [done|]. by apply elem_of_iter_order.
Qed.

(** The ids of the distinct sources. *)
Lemma collect_sources_spec A next db sources seen :
  data_ok A next db →
  NoDup (collect_sources sources seen db)
  ∧ ∀ id, id ∈ collect_sources sources seen db ↔
      ∃ v, A !! id = Some v ∧ vm_source v.2 ∈ sources ∧ vm_source v.2 ∉ seen.
Proof.
  intros Hd. revert seen. induction sources as [|s sources IH]; intros seen.
  { split; [constructor|]. intros id. simpl. split; [intros H; by destruct (not_elem_of_nil _ H)|].
    intros (v & _ & H & _). by destruct (not_elem_of_nil _ H). }
  cbn [collect_sources]. case_decide as Hseen.
  - destruct (IH seen) as [Hnd Hin]. split; [done|]. intros id. rewrite Hin. setoid_rewrite elem_of_cons.
    split; [naive_solver|]. intros (v & Hv & [->|Hs] & Hns); [done|by exists v].
  - destruct (IH ({[s]} ∪ seen)) as [Hnd Hin]. destruct (source_ids_spec config A next db s Hd) as [Hnds Hins].
    split.
    + apply NoDup_app. split_and!; [done| |done]. intros id (v & Hv & <-)%Hins (v' & Hv' & _ & Hns)%Hin.
      rewrite Hv in Hv'. injection Hv' as <-. set_solver.
    + intros id. rewrite elem_of_app, Hins, Hin. setoid_rewrite elem_of_cons. split.
      * intros [(v & Hv & <-)|(v & Hv & Hs & Hns)]; exists v; [by auto|]. split_and!; [done|by right|set_solver].
      * intros (v & Hv & [Heq|Hs] & Hns); [left; by exists v|]. destruct (decide (vm_source v.2 = s)) as [Heq|Hne].
        -- left. by exists v.
        -- right. exists v. split_and!; [done..|set_solver].
Qed.

(** ** Searches by source *)

Lemma search_sources_spec us A next db q k sources f :
  data_ok A next db → length q = dimension config →
  ∃ ranked, search_sources_inner config us q k sources f db
      = (with_stats (record_search us) db, Ok (take k ranked))
    ∧ ranking A q (λ md, bool_decide (vm_source md ∈ sources) && accepts f md) ranked.
Proof.
  intros Hd Hq. unfold search_sources_inner, check_query. rewrite Hq, Nat.eqb_refl.
  destruct (collect_sources_spec A next db sources ∅ Hd) as [Hnd Hids].
  destruct (scan_matches A next db q k f (collect_sources sources ∅ db) Hd Hnd) as (ranked & -> & Hr1 & Hr2 & Hin).
  exists ranked. split; [done|]. unfold ranking. split_and!; [done..|]. intros m.
  rewrite Hin, Hids, andb_true_iff, bool_decide_eq_true. split.
  - intros ((v & Hv & Hs) & (v' & Hv' & Hsrc & _) & Hacc & Hnan). rewrite Hv in Hv'. injection Hv' as <-.
    split_and!; [by exists v|done..].
  - intros ((v & Hv & Hs) & (Hsrc & Hacc) & Hnan). split_and!; [by exists v| |done..].
    exists (v, mt_metadata m). split_and!; [done..|set_solver].
Qed.

(** ** Searches over the graph *)

Lemma graph_search_spec A next db q k ef rs :
  db_ok A next db → graph_search q (l2_norm q) k ef db = Some rs →
  NoDup (res_id <$> rs) ∧ (length rs ≤ k)%nat ∧ ordered rs ∧ ∀ r, r ∈ rs → well_scored A q r.
Proof.
  intros [Hd Hg _ _]. unfold graph_search. case_match; [done|]. intros Hrs.
  pose proof (graph_candidates_spec q (l2_norm q) (ef `max` k) db Hg) as Hspec.
  destruct (graph_candidates _ _ _ db) as [all|]; [|done]. injection Hrs as <-. destruct Hspec as (Hnd & _ & Hs & Hin).
  split_and!.
  - eapply sublist_NoDup; [exact Hnd|]. apply fmap_sublist, sublist_take.
  - rewrite length_take. lia.
  - apply (StronglySorted_sublist _ _ all); [apply sublist_take|done].
  - intros r Hr%subseteq_take. destruct (Hin r Hr) as [_ Hsim].
    rewrite (similarity_cosine A next) in Hsim by done. unfold well_scored.
    destruct (A !! res_id r) as [vm|]; [|done]. injection Hsim as Hsim. by exists vm.
Qed.

(** The matches of a graph search that [f] accepts. *)
Lemma graph_matches A next db q k k' ef f rs :
  db_ok A next db → graph_search q (l2_norm q) k' ef db = Some rs →
  let ms := to_matches rs k f db in
  NoDup (mt_vector_id <$> ms) ∧ ordered_matches ms ∧ (length ms ≤ k)%nat
  ∧ ∀ m, m ∈ ms → genuine A q m ∧ accepts f (mt_metadata m) = true.
Proof.
  intros Hok Hrs. destruct (graph_search_spec A next db q k' ef rs Hok Hrs) as (Hnd & _ & Hs & Hr).
  destruct (to_match_all A q rs Hnd Hs Hr) as (H1 & H2 & _ & H3).
  cbv zeta. rewrite (to_matches_spec A next) by apply Hok.
  set (ms := filter _ (omap _ rs)).
  assert (sublist ms (omap (to_match A) rs)) as Hsub by apply sublist_filter. split_and!.
  - eapply sublist_NoDup; [exact H1|]. apply fmap_sublist. etrans; [apply sublist_take|exact Hsub].
  - eapply StronglySorted_sublist; [|exact H2]. etrans; [apply sublist_take|exact Hsub].
  - rewrite length_take. lia.
  - intros m Hm%subseteq_take. apply list_elem_of_filter in Hm as [Hacc Hm]. split; [|done]. by apply H3.
Qed.

Lemma ranking_sound A q P k ranked : ranking A q P ranked → sound_matches A q P k (take k ranked).
Proof.
  intros (Hnd & Hs & Hin). unfold sound_matches. split_and!.
  - eapply sublist_NoDup; [exact Hnd|]. apply fmap_sublist, sublist_take.
  - eapply StronglySorted_sublist; [apply sublist_take|exact Hs].
  - rewrite length_take. lia.
  - intros m Hm%subseteq_take. apply Hin in Hm as (? & ? & _). done.
Qed.

Lemma search_mode_spec us A next db q k mode ef :
  db_ok A next db → length q = dimension config →
  ∃ ms, search_with_mode config us q k mode ef db = (with_stats (record_search us) db, Ok ms)
    ∧ sound_matches A q (λ _, true) k ms
    ∧ (mode = Exact ∨ hnsw_active db = false →
       ∃ ranked, ranking A q (λ _, true) ranked ∧ ms = take k ranked).
Proof.
  intros Hok Hq. unfold search_with_mode, check_query. rewrite Hq, Nat.eqb_refl.
  destruct (scan_all_matches A next db q k None) as (ranked & Hscan & Hranked); [apply Hok|].
  eexists. split; [done|].
  assert (∀ ef, mode ≠ Exact →
    let rs := match graph_search q (l2_norm q) k ef db with
              | Some results => results | None => scan_all q (l2_norm q) k None db end in
    sound_matches A q (λ _, true) k (to_matches rs k None db)
    ∧ (hnsw_active db = false → to_matches rs k None db = take k ranked)) as Hgraph.
  { intros ef' _. destruct (graph_search q (l2_norm q) k ef' db) as [rs|] eqn:Hrs.
    - split; [exact (graph_matches A next db q k k ef' None rs Hok Hrs)|]. intros Ha. unfold graph_search in Hrs.
      by rewrite Ha in Hrs.
    - cbv zeta. rewrite Hscan. split; [by apply ranking_sound|done]. }
  assert (∀ P : Prop, (P → hnsw_active db = false) → ∀ ms,
    sound_matches A q (λ _, true) k ms ∧ (hnsw_active db = false → ms = take k ranked) →
    sound_matches A q (λ _, true) k ms ∧ (P → ∃ ranked, ranking A q (λ _, true) ranked ∧ ms = take k ranked)) as Hmode.
  { intros P HP ms [H1 H2]. split; [done|]. intros Hp. exists ranked. split; [exact Hranked|by apply H2, HP]. }
  destruct mode; cbn [VectorDb.ranked].
  - rewrite Hscan. split; [by apply ranking_sound|]. intros _. by exists ranked.
  - apply Hmode; [by intros [?|?]|]. by apply Hgraph.
  - apply Hmode; [by intros [?|?]|]. by apply Hgraph.
Qed.

Lemma wrong_dimension q :
  length q ≠ dimension config → check_query config q = Err ("Query vector dimension "
    +:+ Z_to_string (Z.of_nat (length q)) +:+ " does not match expected " +:+ Z_to_string (Z.of_nat (dimension config))).
Proof. unfold check_query. by intros Hq%Nat.eqb_neq; rewrite Hq. Qed.

(** C26: Searching some sources is exact: of the vectors whose source is among
    them and that the filter admits, the [k] most similar to the query are
    returned, best first, equally similar ones by id, with their similarity
    and metadata; a similarity that is NaN is left out.  A query of another
    dimension is an error. *)
Theorem source_search_exact us A next db q k sources f :
  db_ok A next db →
  if decide (length q = dimension config)
  then ∃ ranked, search_sources_inner config us q k sources f db
         = (with_stats (record_search us) db, Ok (take k ranked))
       ∧ ranking A q (λ md, bool_decide (vm_source md ∈ sources) && accepts f md) ranked
  else ∃ e, search_sources_inner config us q k sources f db = (db, Err e).
Proof.
  intros Hok. case_decide as Hq; [apply (search_sources_spec us A next); [apply Hok|done]|].
  eexists. unfold search_sources_inner. by rewrite wrong_dimension.
Qed.

(** C27: A search in any mode ends and is sound: its matches are stored vectors
    with their exact similarity, none twice, best first, at most [k]; in exact
    mode, or while there is no graph, they are the [k] most similar ones.  The
    plain search is exact up to the threshold. *)
Theorem search_modes_sound us A next db q k mode ef :
  db_ok A next db → length q = dimension config →
  (∃ ms, search_with_mode config us q k mode ef db = (with_stats (record_search us) db, Ok ms)
     ∧ sound_matches A q (λ _, true) k ms
     ∧ (mode = Exact ∨ hnsw_active db = false → ∃ ranked, ranking A q (λ _, true) ranked ∧ ms = take k ranked))
  ∧ ∃ ms, search config us q k db = (with_stats (record_search us) db, Ok ms)
     ∧ sound_matches A q (λ _, true) k ms
     ∧ ((size A ≤ exact_search_threshold config)%nat ∨ hnsw_active db = false →
        ∃ ranked, ranking A q (λ _, true) ranked ∧ ms = take k ranked).
Proof.
  intros Hok Hq. split; [by apply (search_mode_spec us A next)|]. unfold search.
  rewrite (data_size _ _ _ _ (db_data _ _ _ _ Hok)).
  destruct (search_mode_spec us A next db q k (if (size A <=? exact_search_threshold config)%nat then Exact else Balanced)
              None Hok Hq) as (ms & Heq & Hs & He).
  exists ms. split_and!; [exact Heq|exact Hs|]. intros [Hsz|Ha]; apply He; [left|by right].
  by rewrite (proj2 (Nat.leb_le _ _) Hsz).
Qed.

(** A filtered search is sound, and never short: if fewer than [k] vectors
    are returned, all that the filter admits and that have a similarity are
    among them, although the graph is asked for candidates regardless of the
    filter. *)
Theorem filtered_search_complete us A next db q k f :
  db_ok A next db → length q = dimension config →
  ∃ ms ranked, search_with_filter config us q k f db = (with_stats (record_search us) db, Ok ms)
    ∧ sound_matches A q f k ms ∧ ranking A q f ranked
    ∧ (length ms = k ∨ ms = ranked)
    ∧ ((size A ≤ exact_search_threshold config)%nat ∨ hnsw_active db = false → ms = take k ranked).
Proof.
  intros Hok Hq. unfold search_with_filter, check_query. rewrite Hq, Nat.eqb_refl.
  rewrite (data_size _ _ _ _ (db_data _ _ _ _ Hok)).
  destruct (scan_all_matches A next db q k (Some f)) as (ranked & Hscan & Hranked); [apply Hok|].
  rewrite Hscan. cbv zeta.
  assert (sound_matches A q f k (take k ranked) ∧ (length (take k ranked) = k ∨ take k ranked = ranked)) as [Hsound Hlen].
  { split; [by apply ranking_sound|]. destruct (Nat.leb_spec (length ranked) k); [right; by apply take_ge|].
    left. rewrite length_take. lia. }
  destruct (if (exact_search_threshold config <? size A)%nat then _ else None) as [rs|] eqn:Hg.
  2:{ exists (take k ranked), ranked. by split_and!. }
  cbn [mbind option_bind]. destruct (Nat.leb_spec k (length (to_matches rs k (Some f) db))).
  2:{ exists (take k ranked), ranked. by split_and!. }
  destruct (Nat.ltb_spec (exact_search_threshold config) (size A)) as [Hbig|]; [|done].
  destruct (graph_matches A next db q k _ _ (Some f) rs Hok Hg) as (H1 & H2 & H3 & H4).
  exists (to_matches rs k (Some f) db), ranked. split_and!; [done|by split_and!|done|left; lia|].
  intros [?|Ha]; [lia|]. unfold graph_search in Hg. by rewrite Ha in Hg.
Qed.

(** ** Searching for words *)

(** A text match and its similarity. *)
Definition text_match (A : contents) (q : list f32) (p : N * f32) : option SearchMatch :=
  vm ← A !! p.1; Some (mkSearchMatch p.1 (cosine_to q vm.1) vm.2).

(** C28: A word search ranks by BM25: over the stored texts that the corpus and
    the sources admit and that have one of the words, the [k] with the highest
    weight sums are returned, best first, each with its similarity to the
    query vector; without postings there is no answer.  The words of a query
    are its distinct tokens that few enough texts have. *)
Theorem text_search_exact A next db terms q k sources corpus query :
  db_ok A next db →
  (∃ ranked, search_text terms q k sources corpus db
     = (if full_text_index config then Some (omap (text_match A q) (take k ranked)) else None)
   ∧ bm25_ranking (if full_text_index config then vm_text <$> (snd <$> A) else ∅) (text_index db) terms
       (λ id, match A !! id with
              | Some vm => admits corpus (vm_content_type vm.2)
                           && (bool_decide (sources = []) || bool_decide (vm_source vm.2 ∈ sources))
              | None => false
              end) ranked)
  ∧ StronglySorted String.le (db_query_terms query db) ∧ NoDup (db_query_terms query db)
  ∧ ∀ t, t ∈ db_query_terms query db ↔
      t ∈ tokens query ∧ (N.of_nat (word_df (vm_text <$> (snd <$> A)) t) ≤ max_df (text_index db))%N.
Proof.
  intros Hok. pose proof (db_data _ _ _ _ Hok) as Hd. pose proof (do_text _ _ _ _ Hd) as Ht.
  split; [|by apply query_terms_spec]. unfold search_text. rewrite (do_metadata _ _ _ _ Hd).
  set (keep := λ id, match (snd <$> A) !! id with Some m => _ | None => false end).
  destruct (text_search_spec (vm_text <$> (snd <$> A)) (text_index db) terms k keep Ht) as (ranked & Heq & Hr).
  exists ranked. unfold posted in Hr. rewrite (do_keeps _ _ _ _ Hd) in *. split.
  - destruct (full_text_index config); [|done]. cbn [negb]. f_equal. rewrite Heq. clear -Hd MOL.
    induction (take k ranked) as [|p ps IH]; [done|]. cbn [omap list_omap]. rewrite IH.
    rewrite (similarity_cosine A next) by done. rewrite lookup_fmap.
    assert (text_match A q p = vm ← A !! p.1; Some (mkSearchMatch p.1 (cosine_to q vm.1) vm.2)) as -> by done.
    by destruct (A !! p.1) as [[v m]|].
  - destruct Hr as (H1 & H2 & H3). split_and!; [done..|]. intros id x. rewrite H3. unfold keep. rewrite lookup_fmap.
    by destruct (A !! id).
Qed.
End search.

(** ** All operations *)

Section ops.
Context `{U : Unicode} `{AN : Alphanumeric} `{MO : MapOrder} {MOL : MapOrderLaws} `{L : Libm}.
Variable config : VectorDbConfig.
Variable pq_codebook : option ProductQuantizationCodebook.
Variable quantization_params : option (list f32 * list f32).
Variable size_of_stored : N.

Abbreviation db_ok := (db_ok config).
Abbreviation db_spec := (db_spec config).
Abbreviation db_specs := (db_specs config).
Abbreviation run_db_op := (run_db_op config pq_codebook quantization_params size_of_stored).
Abbreviation run_db_ops := (run_db_ops config pq_codebook quantization_params size_of_stored).

(** A search answers as the specification says. *)
Lemma search_right us q k A next db :
  db_ok A next db →
  db_ok A next (search config us q k db).1
  ∧ search_answer config A q k (AnsSearched (search config us q k db).2).
Proof.
  intros Hok. split; [by apply search_ok|]. unfold search_answer, search. case_decide as Hq.
  - rewrite (data_size _ _ _ _ (db_data _ _ _ _ Hok)).
    destruct (search_mode_spec config us A next db q k
                (if (size A <=? exact_search_threshold config)%nat then Exact else Balanced) None Hok Hq)
      as (ms & -> & Hs & He).
    exists ms. split_and!; [done|exact Hs|]. intros Hsz. apply He. left. by rewrite (proj2 (Nat.leb_le _ _) Hsz).
  - eexists. unfold search_with_mode. by rewrite (wrong_dimension config q Hq).
Qed.

(** An operation does what the specification says. *)
Lemma run_db_op_spec env op A next db :
  (∀ l, env_par_order env l ≡ₚ l) → db_ok A next db → (next + op_adds op ≤ u32_max)%N →
  ∃ A' next' P a db', db_spec op A next = (A', next', P) ∧ run_db_op env op db = (db', a) ∧ P a ∧ db_ok A' next' db'
    ∧ (next' ≤ next + op_adds op)%N.
Proof.
  intros Hpar Hok Hn. pose proof (db_data _ _ _ _ Hok) as Hd.
  destruct op as [v md|items|id|ids|c|s| | |q k]; cbn [VectorDbThms.run_db_op VectorDbThms.db_spec op_adds] in *.
  - pose proof (add_vector_ok config pq_codebook quantization_params size_of_stored (env_draw env) (env_par_order env)
      A next db v md Hpar Hok ltac:(lia)) as H.
    destruct (add_error config A v).
    + rewrite H. do 5 eexists. split_and!; [done..|exact Hok|lia].
    + destruct H as (db' & -> & Hok'). do 5 eexists. split_and!; [done..|exact Hok'|lia].
  - destruct (add_bulk_ok config pq_codebook quantization_params size_of_stored (env_draw env) (env_par_order env)
      A next db items Hpar Hok Hn) as (A' & next' & ids & db' & -> & -> & Hok' & Hle).
    do 5 eexists. split_and!; [done..|exact Hok'|exact Hle].
  - destruct (remove_vector_ok config size_of_stored id A next db Hok) as (db' & -> & Hok').
    do 5 eexists. split_and!; [done..|exact Hok'|lia].
  - destruct (removal_ok config size_of_stored (λ id _, bool_decide (id ∈ ids)) ids A next db Hok) as (db' & -> & Hok').
    + intros id Hid [v Hv]. exists v. split; [done|by apply bool_decide_eq_true].
    + intros id v _. apply bool_decide_eq_true.
    + do 5 eexists. split_and!; [done..|exact Hok'|lia].
  - destruct (content_ids_spec config A next db c Hd) as [_ Hin]. unfold remove_by_content_id.
    destruct (removal_ok config size_of_stored (λ _ md, String.eqb (vm_id md) c) (find_vector_ids_by_content_id c db)
      A next db Hok) as (db' & -> & Hok').
    + intros id Hid _. setoid_rewrite String.eqb_eq. by apply Hin.
    + intros id v Hv Hp%String.eqb_eq. apply Hin. by exists v.
    + do 5 eexists. split_and!; [done..|exact Hok'|lia].
  - destruct (source_ids_spec config A next db s Hd) as [_ Hin]. unfold remove_source.
    destruct (removal_ok config size_of_stored (λ _ md, String.eqb (vm_source md) s) (source_vector_ids s db)
      A next db Hok) as (db' & -> & Hok').
    + intros id Hid _. setoid_rewrite String.eqb_eq. by apply Hin.
    + intros id v Hv Hp%String.eqb_eq. apply Hin. by exists v.
    + do 5 eexists. split_and!; [done..|exact Hok'|lia].
  - do 5 eexists. split_and!; [done..|by apply build_ok|lia].
  - do 5 eexists. split_and!; [done..|exact (db_clear_ok config A next db Hok)|lia].
  - destruct (search_right (env_us env) q k A next db Hok) as [Hok' Hans].
    destruct (search config _ q k db) as [db' r]. do 5 eexists. split_and!; [done..|exact Hans|exact Hok'|lia].
Qed.

Lemma run_db_ops_snoc ops eo db :
  run_db_ops (ops ++ [eo]) db
  = let '(db, answers) := run_db_ops ops db in
    let '(db, a) := run_db_op eo.1 eo.2 db in (db, answers ++ [a]).
Proof. unfold run_db_ops. rewrite foldl_app. simpl. by destruct (foldl _ _ ops). Qed.

Lemma db_specs_snoc ops op A next :
  db_specs (ops ++ [op]) A next
  = let '(A, next, specs) := db_specs ops A next in
    let '(A, next, P) := db_spec op A next in (A, next, specs ++ [P]).
Proof. unfold db_specs. by rewrite foldl_app. Qed.

Lemma run_db_ops_spec ops :
  Forall (λ eo, ∀ l, env_par_order eo.1 l ≡ₚ l) ops → (foldr N.add 0 (op_adds <$> ops.*2) ≤ u32_max)%N →
  ∃ A next specs answers db, db_specs ops.*2 ∅ 0 = (A, next, specs)
    ∧ run_db_ops ops (VectorDB_new config) = (db, answers) ∧ Forall2 (λ P a, P a) specs answers ∧ db_ok A next db
    ∧ (next ≤ foldr N.add 0 (op_adds <$> ops.*2))%N.
Proof.
  induction ops as [|[env op] ops IH] using rev_ind; intros Hp Hn.
  { do 5 eexists. split_and!; [done..|constructor|apply db_new_ok|done]. }
  apply Forall_app in Hp as [Hp Hpar]. apply Forall_cons in Hpar as [Hpar _]. cbn [fst] in Hpar.
  assert (foldr N.add 0 (op_adds <$> (ops ++ [(env, op)]).*2)
    = foldr N.add 0 (op_adds <$> ops.*2) + op_adds op)%N as Hsum.
  { rewrite !fmap_app, foldr_app. csimpl. rewrite N.add_0_r. clear. generalize (op_adds op) as n. intros n.
    induction (op_adds <$> ops.*2) as [|x xs IH]; csimpl; [lia|]. rewrite IH. lia. }
  rewrite Hsum in *. destruct IH as (A & next & specs & answers & db & Hspec & Hrun & Hans & Hok & Hle); [done|lia|].
  destruct (run_db_op_spec env op A next db Hpar Hok ltac:(lia)) as (A' & next' & P & a & db' & Hs' & Hr' & Ha & Hok' & Hle').
  exists A', next', (specs ++ [P]), (answers ++ [a]), db'. split_and!.
  - rewrite fmap_app. csimpl. by rewrite db_specs_snoc, Hspec, Hs'.
  - by rewrite run_db_ops_snoc, Hrun; cbn [fst snd]; rewrite Hr'.
  - apply Forall2_app; [done|]. by repeat constructor.
  - done.
  - lia.
Qed.

(** C25: The vector database refines its specification: started empty, every
    sequence of additions, removals, rebuilds, clears and searches answers
    right by the specification, which keeps just a map from ids to vectors with
    metadata and the next id, as long as the ids it may hand out fit below
    [u32::MAX].  A search answers sound matches over the map, and while the
    map is small exactly the most similar ones.  Afterwards the vectors and
    their metadata are that map, the indexes and word statistics are those of
    it, and the graph, when it is active, has exactly the stored vectors as
    nodes, its entry point and edges among them. *)
Theorem vector_db_refines ops :
  Forall (λ eo, ∀ l, env_par_order eo.1 l ≡ₚ l) ops → (foldr N.add 0 (op_adds <$> ops.*2) ≤ u32_max)%N →
  ∃ A next specs answers db, db_specs ops.*2 ∅ 0 = (A, next, specs)
    ∧ run_db_ops ops (VectorDB_new config) = (db, answers) ∧ Forall2 (λ P a, P a) specs answers
    ∧ sv_vector <$> vectors db = fst <$> A ∧ vector_metadata db = snd <$> A ∧ next_id db = next
    ∧ total_vectors (db_stats db) = N.of_nat (size A) ∧ (size A ≤ max_vectors config)%nat
    ∧ db_index_ok db (snd <$> A) ∧ text_wf (vm_text <$> (snd <$> A)) (text_index db)
    ∧ hnsw_wf (hnsw db)
    ∧ (∀ id, is_Some (layers (hnsw db) !! id) ↔ hnsw_active db = true ∧ is_Some (A !! id))
    ∧ (∀ id l x, connections (hnsw db) !! id = Some l → x ∈ l → is_Some (A !! x)).
Proof.
  intros Hp Hn. destruct (run_db_ops_spec ops Hp Hn) as (A & next & specs & answers & db & Hs & Hr & Hans & [Hd Hg Hb Hm] & _).
  exists A, next, specs, answers, db. pose proof Hd as []. destruct Hg as [H1 H2 H3].
  assert (∀ id, is_Some (layers (hnsw db) !! id) → is_Some (A !! id)) as Hnode.
  { intros id Hid%H2. by apply (data_lookup config _ _ _ _ Hd). }
  split_and!; try done.
  - intros id. split.
    + intros Hid. split; [|by apply Hnode]. unfold in_graph_but in Hm. destruct (hnsw_active db); [done|].
      destruct Hid as [? Hid]. by rewrite Hm in Hid.
    + intros [Ha Hid]. unfold in_graph_but in Hm. rewrite Ha in Hm.
      destruct (Hm id) as [?|Hin]; [by apply (data_lookup config _ _ _ _ Hd)|done|by destruct (not_elem_of_nil _ Hin)].
  - intros id l x Hl Hx. apply Hnode. exact (H3 id l x Hl Hx).
Qed.
End ops.

(** ** Examples *)

#[local] Existing Instances key_order key_order_laws ascii_unicode ascii_alnum demo_libm.

(** A database of at most three vectors of the plane, with a graph from the
    second on. *)
Definition demo_config : VectorDbConfig := mkVectorDbConfig 2 2 2 2 4 true 256 true 1 3 false 1 8 true.

Definition demo_env : DbEnv := mkDbEnv id id 5.

Definition demo_md (id source text : string) : VectorMetadata := mkVectorMetadata id text source "Note" 0%Z ∅.

Definition demo_db_ops : list (DbEnv * DbOp) :=
  pair demo_env <$>
  [OpAddBulk [([f32_one; f32_zero], demo_md "a" "s" "red fish");
              ([f32_one], demo_md "b" "s" "too short");
              ([f32_zero; f32_one], demo_md "c" "t" "blue fish");
              ([f32_one; f32_one], demo_md "d" "s" "one fish");
              ([f32_half; f32_one], demo_md "e" "s" "too many")];
   OpAdd [f32_one; f32_one] (demo_md "f" "s" "full");
   OpRemoveContent "d";
   OpAdd [f32_one; f32_half] (demo_md "g" "t" "two fish");
   OpSearch [f32_one; f32_zero] 2].

Lemma demo_ops_ok :
  Forall (λ eo : DbEnv * DbOp, ∀ l, env_par_order eo.1 l ≡ₚ l) demo_db_ops
  ∧ (foldr N.add 0 (op_adds <$> demo_db_ops.*2) ≤ u32_max)%N.
Proof. split; [|by vm_compute]. unfold demo_db_ops. csimpl. by repeat constructor. Qed.

Lemma vector_db_refines_witness :
  ∃ A specs answers db, (db_specs demo_config demo_db_ops.*2 ∅ 0).1.1 = A
    ∧ run_db_ops demo_config None None 64 demo_db_ops (VectorDB_new demo_config) = (db, answers)
    ∧ Forall2 (λ P a, P a) specs answers
    ∧ vector_metadata db = snd <$> A
    ∧ map (λ a, match a with AnsSearched (Ok ms) => Some (mt_vector_id <$> ms) | _ => None end) answers
      = [None; None; None; None; Some [0; 3]%N].
Proof.
  destruct demo_ops_ok as [H1 H2].
  destruct (vector_db_refines demo_config None None 64 demo_db_ops H1 H2)
    as (A & next & specs & answers & db & Hs & Hr & Ha & _ & Hm & _).
  exists A, specs, answers, db. split_and!; [by rewrite Hs|exact Hr|exact Ha|exact Hm|].
  assert ((run_db_ops demo_config None None 64 demo_db_ops (VectorDB_new demo_config)).2 = answers) as <- by by rewrite Hr.
  vm_compute. reflexivity.
Defined.

(** The database these operations leave. *)
Definition demo_vector_db : VectorDB := (run_db_ops demo_config None None 64 demo_db_ops (VectorDB_new demo_config)).1.
Definition demo_contents : gmap N (list f32 * VectorMetadata) := (db_specs demo_config demo_db_ops.*2 ∅ 0).1.1.

Lemma demo_vector_db_ok : db_ok demo_config demo_contents (next_id demo_vector_db) demo_vector_db.
Proof.
  destruct demo_ops_ok as [H1 H2].
  destruct (run_db_ops_spec demo_config None None 64 demo_db_ops H1 H2) as (A & next & specs & answers & db & Hs & Hr & _ & Hok & _).
  unfold demo_vector_db, demo_contents. rewrite Hs, Hr. cbn [fst].
  by rewrite (do_next _ _ _ _ (db_data _ _ _ _ Hok)).
Qed.

Lemma vector_lookups_exact_witness :
  count_session_embeddings "t" demo_vector_db = 2%nat ∧ db_len demo_vector_db = 3%nat.
Proof.
  destruct (vector_lookups_exact demo_config demo_contents (next_id demo_vector_db) demo_vector_db "t" "a" 0 demo_vector_db_ok)
    as (_ & Hlen & _ & _ & _ & _ & Hcount & _).
  split; [rewrite Hcount|rewrite Hlen]; vm_compute; reflexivity.
Defined.

Lemma source_search_exact_witness :
  ∃ ranked, (search_in_sources demo_config 5 [f32_one; f32_zero] 1 ["t"; "t"] demo_vector_db).2 = Ok (take 1 ranked)
    ∧ ranking demo_contents [f32_one; f32_zero] (λ md, bool_decide (vm_source md ∈ ["t"; "t"]) && true) ranked.
Proof.
  pose proof (source_search_exact demo_config 5 demo_contents (next_id demo_vector_db) demo_vector_db
    [f32_one; f32_zero] 1 ["t"; "t"] None demo_vector_db_ok) as H.
  rewrite decide_True in H by reflexivity. destruct H as (ranked & Heq & Hr). exists ranked.
  split; [|exact Hr]. unfold search_in_sources. rewrite Heq. reflexivity.
Defined.

Lemma search_modes_sound_witness :
  ∃ ms, (search_with_mode demo_config 5 [f32_one; f32_zero] 2 Approximate None demo_vector_db).2 = Ok ms
    ∧ sound_matches demo_contents [f32_one; f32_zero] (λ _, true) 2 ms ∧ mt_vector_id <$> ms = [0; 3]%N.
Proof.
  destruct (search_modes_sound demo_config 5 demo_contents (next_id demo_vector_db) demo_vector_db
    [f32_one; f32_zero] 2 Approximate None demo_vector_db_ok eq_refl) as [(ms & Heq & Hs & _) _].
  exists ms. split; [by rewrite Heq|]. split; [exact Hs|]. apply (f_equal snd) in Heq. vm_compute in Heq.
  injection Heq as <-. reflexivity.
Defined.

Lemma filtered_search_complete_witness :
  ∃ ms, (search_with_filter demo_config 5 [f32_one; f32_zero] 2 (λ md, String.eqb (vm_id md) "c") demo_vector_db).2 = Ok ms
    ∧ sound_matches demo_contents [f32_one; f32_zero] (λ md, String.eqb (vm_id md) "c") 2 ms.
Proof.
  destruct (filtered_search_complete demo_config 5 demo_contents (next_id demo_vector_db) demo_vector_db
    [f32_one; f32_zero] 2 (λ md, String.eqb (vm_id md) "c") demo_vector_db_ok eq_refl) as (ms & ranked & Heq & Hs & _).
  exists ms. split; [by rewrite Heq|exact Hs].
Defined.

Lemma text_search_exact_witness :
  ∃ ranked, search_text ["fish"] [f32_one; f32_zero] 3 ["t"] CorpusRecords demo_vector_db
    = Some (omap (text_match demo_contents [f32_one; f32_zero]) (take 3 ranked))
    ∧ "fish" ∈ db_query_terms "red fish" demo_vector_db.
Proof.
  destruct (text_search_exact demo_config demo_contents (next_id demo_vector_db) demo_vector_db ["fish"]
    [f32_one; f32_zero] 3 ["t"] CorpusRecords "red fish" demo_vector_db_ok) as [(ranked & Heq & _) (_ & _ & Hin)].
  exists ranked. split; [exact Heq|]. apply Hin. split.
  - refine (bool_decide_unpack _ _). vm_compute. exact I.
  - apply (bool_decide_unpack _). vm_compute. exact I.
Defined.
