(* ===== verification/Petgraph.v ===== *)
(** * Interface to petgraph's [DiGraph<String, EdgeData>]

    petgraph is a dependency, so the graph type is a parameter: a class of
    the operations the source calls and a class of the laws petgraph
    documents for them.  Nodes have indices [0..n-1]; removing one moves the
    last node into its slot; the order in which incident edges are visited
    is not specified, so those laws are permutations.  [list_graph] is a
    concrete implementation, used to instantiate the theorems. *)

From S2P Require Import Prelude RustStd Types.

Record EdgeData := mkEdgeData {
  relation_type : RelationType;
  context : string;
}.

#[global] Instance edge_data_eq_dec : EqDecision EdgeData.
Proof. solve_decision. Defined.

(** petgraph's [EdgeReference]. *)
Record EdgeReference := mkEdgeReference {
  edge_id : nat;
  source : nat;
  target : nat;
  edge_weight : EdgeData;
}.

#[global] Instance edge_reference_eq_dec : EqDecision EdgeReference.
Proof. solve_decision. Defined.

Inductive Direction := Outgoing | Incoming.

(** Endpoints and weight, without the index. *)
Definition edge_triple (e : EdgeReference) : nat * nat * EdgeData :=
  (source e, target e, edge_weight e).

Class Petgraph := {
  DiGraph : Type;
  graph_new : DiGraph;
  node_weights : DiGraph → list string;
  edge_references : DiGraph → list EdgeReference;
  add_node : DiGraph → string → DiGraph * nat;
  remove_node : DiGraph → nat → DiGraph;
  add_edge : DiGraph → nat → nat → EdgeData → DiGraph;
  set_edge_weight : DiGraph → nat → EdgeData → DiGraph;
  edges_directed : DiGraph → nat → Direction → list EdgeReference;
  edges_connecting : DiGraph → nat → nat → list EdgeReference;
}.

Definition node_weight `{Petgraph} (g : DiGraph) (i : nat) : option string :=
  node_weights g !! i.
Definition node_count `{Petgraph} (g : DiGraph) : nat := length (node_weights g).
Definition graph_edge_count `{Petgraph} (g : DiGraph) : nat := length (edge_references g).

(** The index a node has after [remove_node i] in a graph of [n] nodes. *)
Definition moved_index (i n j : nat) : nat := if decide (j + 1 = n) then i else j.

Definition touches (i : nat) (e : nat * nat * EdgeData) : Prop := e.1.1 = i ∨ e.1.2 = i.
#[global] Instance touches_dec i e : Decision (touches i e).
Proof. unfold touches. apply _. Defined.

Definition rename_ends (f : nat → nat) (e : nat * nat * EdgeData) : nat * nat * EdgeData :=
  (f e.1.1, f e.1.2, e.2).

Definition graph_triples `{Petgraph} (g : DiGraph) : list (nat * nat * EdgeData) :=
  edge_triple <$> edge_references g.

Class PetgraphLaws `{Petgraph} : Prop := {
  new_nodes : node_weights graph_new = [];
  new_edges : edge_references graph_new = [];
  add_node_index g w : (add_node g w).2 = length (node_weights g);
  add_node_nodes g w : node_weights (add_node g w).1 = node_weights g ++ [w];
  add_node_edges g w : edge_references (add_node g w).1 = edge_references g;
  remove_node_nodes g i :
    i < node_count g → node_weights (remove_node g i) = swap_remove i (node_weights g);
  remove_node_edges g i :
    i < node_count g →
    graph_triples (remove_node g i)
    ≡ₚ rename_ends (moved_index i (node_count g)) <$>
         filter (λ e, ¬ touches i e) (graph_triples g);
  add_edge_nodes g a b w :
    a < node_count g → b < node_count g →
    node_weights (add_edge g a b w) = node_weights g;
  add_edge_edges g a b w :
    a < node_count g → b < node_count g →
    graph_triples (add_edge g a b w) ≡ₚ (a, b, w) :: graph_triples g;
  set_weight_nodes g k w : node_weights (set_edge_weight g k w) = node_weights g;
  set_weight_edges g k w :
    edge_references (set_edge_weight g k w)
    = (λ e, if decide (edge_id e = k)
            then mkEdgeReference (edge_id e) (source e) (target e) w else e)
      <$> edge_references g;
  edge_ids_distinct g : NoDup (edge_id <$> edge_references g);
  edge_ends_in_range g e :
    e ∈ edge_references g → source e < node_count g ∧ target e < node_count g;
  edges_directed_out g n :
    edges_directed g n Outgoing ≡ₚ filter (λ e, source e = n) (edge_references g);
  edges_directed_in g n :
    edges_directed g n Incoming ≡ₚ filter (λ e, target e = n) (edge_references g);
  edges_connecting_spec g a b :
    edges_connecting g a b
    ≡ₚ filter (λ e, source e = a ∧ target e = b) (edge_references g);
}.

(** ** A list implementation *)

Record list_digraph := mkListDigraph {
  lg_nodes : list string;
  lg_edges : list (nat * nat * EdgeData);
}.

(** Edge indices are positions. *)
Definition index_edges (es : list (nat * nat * EdgeData)) : list EdgeReference :=
  imap (λ k e, mkEdgeReference k e.1.1 e.1.2 e.2) es.

Definition in_range (n : nat) (e : nat * nat * EdgeData) : bool :=
  Nat.ltb e.1.1 n && Nat.ltb e.1.2 n.

(** Only edges between existing nodes are ever stored. *)
Definition lg_refs (g : list_digraph) : list EdgeReference :=
  index_edges (retain (in_range (length (lg_nodes g))) (lg_edges g)).

Definition list_graph : Petgraph := {|
  DiGraph := list_digraph;
  graph_new := mkListDigraph [] [];
  node_weights := lg_nodes;
  edge_references := lg_refs;
  add_node := λ g w,
    (mkListDigraph (lg_nodes g ++ [w])
       (retain (in_range (length (lg_nodes g))) (lg_edges g)), length (lg_nodes g));
  remove_node := λ g i,
    mkListDigraph (swap_remove i (lg_nodes g))
      (rename_ends (moved_index i (length (lg_nodes g))) <$>
         filter (λ e, ¬ touches i e)
           (retain (in_range (length (lg_nodes g))) (lg_edges g)));
  add_edge := λ g a b w,
    mkListDigraph (lg_nodes g)
      (retain (in_range (length (lg_nodes g))) (lg_edges g) ++ [(a, b, w)]);
  set_edge_weight := λ g k w,
    mkListDigraph (lg_nodes g)
      (imap (λ j e, if decide (j = k) then (e.1, w) else e)
         (retain (in_range (length (lg_nodes g))) (lg_edges g)));
  edges_directed := λ g n d,
    match d with
    | Outgoing => filter (λ e, source e = n) (lg_refs g)
    | Incoming => filter (λ e, target e = n) (lg_refs g)
    end;
  edges_connecting := λ g a b,
    filter (λ e, source e = a ∧ target e = b) (lg_refs g);
|}.

Section list_graph.
Implicit Types (g : list_digraph) (es : list (nat * nat * EdgeData)).

Lemma index_edges_triples es : edge_triple <$> index_edges es = es.
Proof.
  unfold index_edges. rewrite fmap_imap.
  apply list_eq. intros i. rewrite list_lookup_imap.
  by destruct (es !! i) as [[[a b] w]|].
Qed.

Lemma index_edges_ids es : edge_id <$> index_edges es = seq 0 (length es).
Proof. unfold index_edges. rewrite fmap_imap. etransitivity;
  [apply (imap_seq_0 es id)|apply list_fmap_id]. Qed.

Lemma retain_all es n :
  Forall (λ e, in_range n e = true) es → retain (in_range n) es = es.
Proof.
  induction 1 as [|e es He _ IH]; unfold retain in *; [done|].
  by rewrite filter_cons_True, IH.
Qed.

Lemma retain_in_range n es : Forall (λ e, in_range n e = true) (retain (in_range n) es).
Proof. apply Forall_forall. intros e He. by apply elem_of_retain in He as [_ ?]. Qed.

Lemma retain_idem n es :
  retain (in_range n) (retain (in_range n) es) = retain (in_range n) es.
Proof. apply retain_all, retain_in_range. Qed.

Lemma in_range_true n e : in_range n e = true ↔ e.1.1 < n ∧ e.1.2 < n.
Proof. unfold in_range. by rewrite andb_true_iff, !Nat.ltb_lt. Qed.

Lemma in_range_mono n m es :
  n ≤ m → Forall (λ e, in_range n e = true) es → Forall (λ e, in_range m e = true) es.
Proof.
  intros Hnm H. eapply Forall_impl; [exact H|]. intros e. rewrite !in_range_true. lia.
Qed.

Lemma length_swap_remove {A} i (v : list A) :
  i < length v → length (swap_remove i v) = length v - 1.
Proof.
  intros Hi. unfold swap_remove. destruct (last v) as [x|] eqn:Hl.
  - case_decide; rewrite ?length_insert, length_take; lia.
  - apply last_None in Hl as ->. simpl in *. lia.
Qed.

Lemma rename_in_range i n es :
  i < n → Forall (λ e, in_range n e = true) es →
  Forall (λ e, in_range (n - 1) e = true)
    (rename_ends (moved_index i n) <$> filter (λ e, ¬ touches i e) es).
Proof.
  intros Hi Hes. apply Forall_fmap, Forall_forall.
  intros e [Ht He]%list_elem_of_filter.
  rewrite Forall_forall in Hes. apply Hes, in_range_true in He as [Ha Hb].
  apply in_range_true. unfold rename_ends, moved_index, touches in *. simpl.
  repeat case_decide; lia.
Qed.

Lemma lg_refs_triples g :
  edge_triple <$> lg_refs g = retain (in_range (length (lg_nodes g))) (lg_edges g).
Proof. apply index_edges_triples. Qed.

Lemma list_graph_laws : @PetgraphLaws list_graph.
Proof.
  split; try done; unfold graph_triples, node_count in *; simpl.
  - intros g w. unfold lg_refs. simpl. rewrite length_app; simpl.
    rewrite retain_all; [done|]. eapply in_range_mono, retain_in_range. lia.
  - intros g i Hi. rewrite !lg_refs_triples. simpl. rewrite retain_all; [done|].
    rewrite length_swap_remove by done. apply rename_in_range, retain_in_range. done.
  - intros g a b w Ha Hb. rewrite !lg_refs_triples. simpl.
    rewrite retain_all.
    { symmetry. apply Permutation_cons_append. }
    apply Forall_app. split; [apply retain_in_range|].
    repeat constructor. by apply in_range_true.
  - intros g k w. unfold lg_refs; simpl.
    rewrite (retain_all (imap _ _)).
    + unfold index_edges. apply list_eq. intros j.
      rewrite list_lookup_fmap, !list_lookup_imap.
      destruct (retain _ _ !! j) as [[[a b] x]|]; simpl; [by case_decide|done].
    + apply Forall_lookup_2. intros j e. rewrite list_lookup_imap.
      intros (x & Hx & ->)%fmap_Some.
      pose proof (Forall_lookup_1 _ _ _ _ (retain_in_range _ _) Hx) as Hr.
      case_decide; [|done]. rewrite in_range_true in *. done.
  - intros g. unfold lg_refs. rewrite index_edges_ids. apply NoDup_seq.
  - intros g e He. apply (list_elem_of_fmap_2 edge_triple) in He.
    rewrite lg_refs_triples in He. apply elem_of_retain in He as [_ Hr].
    by apply in_range_true in Hr.
Qed.
End list_graph.
