(* ===== verification/EntityGraph.v ===== *)
(** * The entity graph

    [core/.../graph/entity_graph.rs]: entities by name, their record
    mentions, and a petgraph of typed relations whose node indices are
    mirrored in two maps.  Names are resolved through an alias index keyed by
    [entity_key].  Every operation of [SimpleEntityGraph] that changes state
    is here, and its queries except those built on [analytics] or on
    petgraph's algorithms.

    [Utc::now()] is an argument: a loop reads it as [now i] in iteration
    [i].  A method that indexes a map ([self.entities[&k]]) returns [None]
    where the source would panic. *)

From S2P Require Import Prelude RustStd Collections F32 Types Petgraph.

Local Open Scope string_scope.

(** ** Names *)

Definition is_name_separator (c : N) : bool :=
  is_whitespace c || N.eqb c 45 || N.eqb c 95.

Definition entity_key `{Unicode} (name : string) : string :=
  let key := str_of_chars
    (retain (λ c, negb (is_name_separator c)) (str_chars name) ≫= char_to_lowercase) in
  if String.eqb key "" then str_to_lowercase name else key.

Definition mentioned_names (update : ContextUpdate) : list string :=
  ((te_name <$> typed_entities update) ++ creates_entities update
   ++ references_entities update
   ++ (creates_relationships update ≫= λ r, [from_entity r; to_entity r]))%list.

(** [ids.extend(mentions.filter(|id| seen.insert(id)))] with [seen] starting
    as the set of [ids]. *)
Definition extend_new (ids new : list Uuid) : list Uuid :=
  foldl (λ ids id, if decide (id ∈ ids) then ids else (ids ++ [id])%list) ids new.

(** [top_k_by]: the [limit] smallest elements, sorted. *)
Definition top_k_by `{SelectNth} {A} (items : list A) (limit : nat)
    (cmp : A → A → comparison) : list A :=
  if Nat.eqb limit 0 then []
  else
    let items := if Nat.ltb limit (length items)
                 then take limit (select_nth_unstable_by cmp (limit - 1) items)
                 else items in
    sort_by cmp items.

(** ** State *)

Record SimpleEntityGraph `{Petgraph} := mkGraph {
  entities : gmap string EntityData;
  entity_mentions : gmap string (list Uuid);
  graph : DiGraph;
  entity_to_node : gmap string nat;
  node_to_entity : gmap nat string;
  alias_index : gmap string string;
}.

Section setters.
Context `{Petgraph}.
Definition with_entities f (g : SimpleEntityGraph) :=
  mkGraph _ (f (entities g)) (entity_mentions g) (graph g) (entity_to_node g)
    (node_to_entity g) (alias_index g).
Definition with_mentions f (g : SimpleEntityGraph) :=
  mkGraph _ (entities g) (f (entity_mentions g)) (graph g) (entity_to_node g)
    (node_to_entity g) (alias_index g).
Definition with_graph gr (g : SimpleEntityGraph) :=
  mkGraph _ (entities g) (entity_mentions g) gr (entity_to_node g)
    (node_to_entity g) (alias_index g).
Definition with_alias_index f (g : SimpleEntityGraph) :=
  mkGraph _ (entities g) (entity_mentions g) (graph g) (entity_to_node g)
    (node_to_entity g) (f (alias_index g)).
End setters.

(** Borrowed view of one edge. *)
Record RelationRef := mkRelationRef {
  rr_from : string;
  rr_to : string;
  rr_relation_type : RelationType;
  rr_context : string;
}.

Definition to_relationship (r : RelationRef) : EntityRelationship :=
  mkEntityRelationship (rr_from r) (rr_to r) (rr_relation_type r) (rr_context r).

(** [entry(k).or_insert(v)]. *)
Definition or_insert (k v : string) (m : gmap string string) : gmap string string :=
  match m !! k with Some _ => m | None => <[k := v]> m end.

(** Names of an entity: its own, then its aliases. *)
Definition entity_names (e : EntityData) : list string := ed_name e :: aliases e.

Definition push_alias (written : string) (e : EntityData) : EntityData :=
  mkEntityData (ed_name e) (ed_entity_type e) (first_mentioned e) (last_mentioned e)
    (mention_count e) (importance_score e) (ed_description e) (aliases e ++ [written])%list.

(** [if name != e.name && !e.aliases.contains(&name) { e.aliases.push(name) }]. *)
Definition add_alias (written : string) (e : EntityData) : EntityData :=
  if decide (written ≠ ed_name e ∧ written ∉ aliases e) then push_alias written e else e.

Section EntityGraph.
Context `{U : Unicode} `{P : Petgraph}.
Implicit Types (g : SimpleEntityGraph).

Definition SimpleEntityGraph_new : SimpleEntityGraph :=
  mkGraph _ ∅ ∅ graph_new ∅ ∅ ∅.

Definition clear (g : SimpleEntityGraph) : SimpleEntityGraph :=
  mkGraph _ ∅ ∅ graph_new ∅ ∅ ∅.

(** ** Resolution and removal *)

Definition resolve (g : SimpleEntityGraph) (name : string) : option string :=
  match entities g !! name with
  | Some _ => Some name
  | None => alias_index g !! entity_key name
  end.

Definition remove_entity (name : string) (g : SimpleEntityGraph)
    : SimpleEntityGraph * bool :=
  match entity_to_node g !! name with
  | None => (g, false)
  | Some node_idx =>
    let gr := remove_node (graph g) node_idx in
    let e2n := delete name (entity_to_node g) in
    let n2e := delete node_idx (node_to_entity g) in
    let '(e2n, n2e) :=
      match node_weight gr node_idx with
      | Some swapped_name =>
        let n2e := match e2n !! swapped_name with
                   | Some old_idx => delete old_idx n2e
                   | None => n2e
                   end in
        (<[swapped_name := node_idx]> e2n, <[node_idx := swapped_name]> n2e)
      | None => (e2n, n2e)
      end in
    (mkGraph _ (delete name (entities g)) (delete name (entity_mentions g)) gr e2n n2e
       (filter (λ kv, kv.2 ≠ name) (alias_index g)), true)
  end.

Definition note_alias (name alias : string) (g : SimpleEntityGraph) : SimpleEntityGraph :=
  match resolve g name with
  | None => g
  | Some canonical =>
    with_alias_index (or_insert (entity_key alias) canonical)
      (with_entities (alter (add_alias alias) canonical) g)
  end.

Definition index_names (canonical : string) (g : SimpleEntityGraph) : SimpleEntityGraph :=
  match entities g !! canonical with
  | None => g
  | Some entity =>
    with_alias_index
      (λ m, foldl (λ m key, or_insert key canonical m) m (entity_key <$> entity_names entity)) g
  end.

(** ** Relations *)

Definition relation_ref (g : SimpleEntityGraph) (e : EdgeReference) : option RelationRef :=
  from ← node_weight (graph g) (source e);
  to ← node_weight (graph g) (target e);
  Some (mkRelationRef from to (relation_type (edge_weight e)) (context (edge_weight e))).

Definition relationships (g : SimpleEntityGraph) : list RelationRef :=
  omap (relation_ref g) (edge_references (graph g)).

Definition relationships_of (g : SimpleEntityGraph) (entity : string) : list RelationRef :=
  match entity_to_node g !! entity with
  | None => []
  | Some node =>
    let outgoing := edges_directed (graph g) node Outgoing in
    let incoming := filter (λ e, source e ≠ node) (edges_directed (graph g) node Incoming) in
    omap (relation_ref g) (outgoing ++ incoming)%list
  end.

Definition relation_between (g : SimpleEntityGraph) (a b : string) : list RelationRef :=
  match entity_to_node g !! a, entity_to_node g !! b with
  | Some na, Some nb =>
    let found := omap (relation_ref g) (edges_connecting (graph g) na nb) in
    if decide (na = nb) then found
    else (found ++ omap (relation_ref g) (edges_connecting (graph g) nb na))%list
  | _, _ => []
  end.

(** ** Recording entities *)

(** [self.graph.add_node(name)] and both index maps. *)
Definition add_graph_node (name : string) (g : SimpleEntityGraph) : SimpleEntityGraph :=
  let '(gr, node_index) := add_node (graph g) name in
  mkGraph _ (entities g) (entity_mentions g) gr
    (<[name := node_index]> (entity_to_node g))
    (<[node_index := name]> (node_to_entity g)) (alias_index g).

Definition ensure_graph_node (name : string) (g : SimpleEntityGraph) : SimpleEntityGraph :=
  match entity_to_node g !! name with
  | Some _ => g
  | None => add_graph_node name g
  end.

Definition opt_description (description : string) : option string :=
  if String.eqb description "" then None else Some description.

(** What a further mention changes in an existing entity. *)
Definition mention_again (timestamp : DateTime) (description written : string)
    (e : EntityData) : EntityData :=
  add_alias written
    (mkEntityData (ed_name e) (ed_entity_type e) (first_mentioned e) timestamp
       (u32_add (mention_count e) 1) (importance_score e)
       (match ed_description e with
        | None => opt_description description
        | Some d => Some d
        end) (aliases e)).

Definition new_entity (name : string) (entity_type : EntityType) (timestamp : DateTime)
    (description : string) : EntityData :=
  mkEntityData name entity_type timestamp timestamp 1 f32_one
    (opt_description description) [].

Definition add_or_update_entity (name : string) (entity_type : EntityType)
    (timestamp : DateTime) (description : string) (g : SimpleEntityGraph)
    : SimpleEntityGraph :=
  let written := name in
  let name := default written (resolve g written) in
  match entities g !! name with
  | Some entity =>
    ensure_graph_node name
      (with_entities (<[name := mention_again timestamp description written entity]>) g)
  | None =>
    index_names name
      (add_graph_node name
         (with_entities (<[name := new_entity name entity_type timestamp description]>) g))
  end.

Definition get_or_create_node (name : string) (entity_type : EntityType)
    (timestamp : DateTime) (g : SimpleEntityGraph) : SimpleEntityGraph * nat :=
  let name := default name (resolve g name) in
  match entity_to_node g !! name with
  | Some node_idx => (g, node_idx)
  | None =>
    let g := add_or_update_entity name entity_type timestamp "" g in
    match entity_to_node g !! name with
    | Some node_idx => (g, node_idx)
    | None => (add_graph_node name g, (add_node (graph g) name).2)
    end
  end.

Definition add_relationship (now : DateTime) (relationship : EntityRelationship)
    (g : SimpleEntityGraph) : SimpleEntityGraph :=
  let '(g, from_node) := get_or_create_node (from_entity relationship) Concept now g in
  let '(g, to_node) := get_or_create_node (to_entity relationship) Concept now g in
  if decide (from_node = to_node ∧ from_entity relationship ≠ to_entity relationship)
  then g
  else
    let existing :=
      find_first (λ e, bool_decide (relation_type (edge_weight e)
                                    = er_relation_type relationship))
        (edges_connecting (graph g) from_node to_node) in
    match existing with
    | Some e =>
      with_graph (set_edge_weight (graph g) (edge_id e)
        (mkEdgeData (relation_type (edge_weight e)) (er_context relationship))) g
    | None =>
      with_graph (add_edge (graph g) from_node to_node
        (mkEdgeData (er_relation_type relationship) (er_context relationship))) g
    end.

(** ** Merging *)

Definition absorb (gone target : EntityData) : EntityData :=
  foldl (λ t name, add_alias name t)
    (mkEntityData (ed_name target) (ed_entity_type target)
       (Z.min (first_mentioned target) (first_mentioned gone))
       (Z.max (last_mentioned target) (last_mentioned gone))
       (u32_add (mention_count target) (mention_count gone))
       (f32_max (importance_score target) (importance_score gone))
       (match ed_description target with
        | None => ed_description gone
        | Some d => Some d
        end)
       (aliases target))
    (entity_names gone).

(** Point every name of [into] at it. *)
Definition claim_names (into : string) (g : SimpleEntityGraph) : SimpleEntityGraph :=
  match entities g !! into with
  | None => g
  | Some e =>
    with_alias_index
      (λ m, foldl (λ m key, <[key := into]> m) m (entity_key <$> entity_names e)) g
  end.

Definition adopt_mentions (into : string) (mentions : list Uuid) (g : SimpleEntityGraph)
    : SimpleEntityGraph :=
  match mentions with
  | [] => g
  | _ => with_mentions
           (λ m, <[into := extend_new (default [] (m !! into)) mentions]> m) g
  end.

(** A relation of the merged entity, moved to [into]. *)
Definition redirect (alias into : string) (rel : EntityRelationship) : EntityRelationship :=
  let move n := if decide (n = alias) then into else n in
  mkEntityRelationship (move (from_entity rel)) (move (to_entity rel))
    (er_relation_type rel) (er_context rel).

Definition adopt_relation (alias into : string) (now : DateTime)
    (rel : EntityRelationship) (g : SimpleEntityGraph) : SimpleEntityGraph :=
  let rel := redirect alias into rel in
  if decide (from_entity rel ≠ to_entity rel) then add_relationship now rel g else g.

Definition merge_entities (now : nat → DateTime) (alias into : string)
    (g : SimpleEntityGraph) : SimpleEntityGraph * bool :=
  match resolve g alias, resolve g into with
  | Some alias, Some into =>
    if decide (alias = into) then (g, false)
    else match entities g !! alias with
    | None => (g, false)
    | Some gone =>
      let relations := to_relationship <$> relationships_of g alias in
      let mentions := default [] (entity_mentions g !! alias) in
      let g := (remove_entity alias g).1 in
      let g := with_entities (alter (absorb gone) into) g in
      let g := claim_names into g in
      let g := adopt_mentions into mentions g in
      (foldi (λ i rel g, adopt_relation alias into (now i) rel g) 0 relations g, true)
    end
  | _, _ => (g, false)
  end.

(** One step of the scan in [rebuild_alias_index]: claim the key or note
    the merge. *)
Definition scan_name (name alias : string)
    (st : gmap string string * list (string * string)) :=
  match st.1 !! entity_key alias with
  | None => (<[entity_key alias := name]> st.1, st.2)
  | Some slot => if decide (slot = name) then st
                 else (st.1, (st.2 ++ [(name, slot)])%list)
  end.

Definition scan_entity (g : SimpleEntityGraph)
    (st : gmap string string * list (string * string)) (p : DateTime * string)
    : option (gmap string string * list (string * string)) :=
  entity ← entities g !! p.2;
  Some (foldl (λ st alias, scan_name p.2 alias st) st (entity_names entity)).

Definition mention_order (p q : DateTime * string) : comparison :=
  match Z.compare p.1 q.1 with Eq => str_cmp p.2 q.2 | c => c end.

(** The scan over the entities, earliest mentioned first; indexing
    [self.entities[name]] panics ([None]) when a stored name is not a key. *)
Definition scan_entities (g : SimpleEntityGraph)
    : option (gmap string string * list (string * string)) :=
  let order := sort_by mention_order
    ((λ e, (first_mentioned e, ed_name e)) <$> btree_values (entities g)) in
  try_fold (scan_entity g) (∅, []) order.

Definition rebuild_alias_index (now : nat → nat → DateTime) (g : SimpleEntityGraph)
    : option SimpleEntityGraph :=
  '(index, merges) ← scan_entities g;
  Some (foldi (λ i m g, (merge_entities (now i) m.1 m.2 g).1) 0 merges
          (with_alias_index (λ _, index) g)).

Definition explicit_aliases (g : SimpleEntityGraph) : list (string * string) :=
  btree_values (entities g) ≫= λ e,
    let key := entity_key (ed_name e) in
    (λ a, (a, ed_name e)) <$> retain (λ a, negb (String.eqb (entity_key a) key)) (aliases e).

(** [(first_mentioned, &name) < (first_mentioned, &name)]. *)
Definition mentioned_before (a : DateTime * string) (b : DateTime * string) : bool :=
  Z.ltb a.1 b.1 || (Z.eqb a.1 b.1 && str_lt a.2 b.2).

Definition insert_entity (now : nat → DateTime) (entity : EntityData)
    (g : SimpleEntityGraph) : option SimpleEntityGraph :=
  let name := ed_name entity in
  let other := head (omap (λ n, match resolve g n with
                                | Some other => if decide (other ≠ name)
                                                then Some other else None
                                | None => None
                                end) (entity_names entity)) in
  let g := ensure_graph_node name g in
  let g := with_entities (<[name := entity]>) g in
  let g := index_names name g in
  match other with
  | None => Some g
  | Some other =>
    mine ← entities g !! name;
    theirs ← entities g !! other;
    let '(alias, into) :=
      if mentioned_before (first_mentioned mine, name) (first_mentioned theirs, other)
      then (other, name) else (name, other) in
    Some (merge_entities now alias into g).1
  end.

(** ** Mentions *)

Definition link_mentions (update : ContextUpdate) (g : SimpleEntityGraph)
    : SimpleEntityGraph :=
  (foldl (λ '(g, linked) name,
      match resolve g name with
      | None => (g, linked)
      | Some canonical =>
        if decide (canonical ∈ linked) then (g, linked)
        else
          let ids := default [] (entity_mentions g !! canonical) in
          let ids := if decide (cu_id update ∈ ids) then ids
                     else (ids ++ [cu_id update])%list in
          (with_mentions (<[canonical := ids]>) g, {[canonical]} ∪ linked)
      end) (g, ∅ : gset string) (mentioned_names update)).1.

Definition relink_mentions (updates : list ContextUpdate) (g : SimpleEntityGraph)
    : SimpleEntityGraph :=
  foldl (λ g update,
    foldl (λ g name,
      match resolve g name with
      | None => g
      | Some canonical =>
        let ids := default [] (entity_mentions g !! canonical) in
        let ids := if decide (last ids ≠ Some (cu_id update) ∧ cu_id update ∉ ids)
                   then (ids ++ [cu_id update])%list else ids in
        with_mentions (<[canonical := ids]>) g
      end) g (mentioned_names update))
    (with_mentions (λ _, ∅) g) updates.

Definition apply_update (now : nat → DateTime) (update : ContextUpdate)
    (g : SimpleEntityGraph) : SimpleEntityGraph :=
  let title := uc_title (cu_content update) in
  let g :=
    match typed_entities update with
    | [] =>
      foldl (λ g name, add_or_update_entity name Concept (cu_timestamp update)
                         ("From update: " +:+ title) g) g (creates_entities update)
    | typed =>
      foldl (λ g t, add_or_update_entity (te_name t) (te_entity_type t)
                      (cu_timestamp update) ("Provided by caller: " +:+ title) g) g typed
    end in
  let g := foldi (λ i rel g, add_relationship (now i) rel g) 0
             (creates_relationships update) g in
  link_mentions update g.

Definition has_entity (g : SimpleEntityGraph) (name : string) : bool :=
  bool_decide (is_Some (entities g !! name)).

Definition entity_count (g : SimpleEntityGraph) : nat := size (entities g).

Definition touch (timestamp : DateTime) (e : EntityData) : EntityData :=
  mkEntityData (ed_name e) (ed_entity_type e) (first_mentioned e) timestamp
    (u32_add (mention_count e) 1) (importance_score e) (ed_description e) (aliases e).

Definition update_entity_timestamp (name : string) (timestamp : DateTime)
    (g : SimpleEntityGraph) : SimpleEntityGraph :=
  with_entities (alter (touch timestamp) name) g.

Definition score_mentions `{Libm} (e : EntityData) : EntityData :=
  mkEntityData (ed_name e) (ed_entity_type e) (first_mentioned e) (last_mentioned e)
    (mention_count e) (f32_max (f32_log2 (f32_of_N (mention_count e))) f32_one)
    (ed_description e) (aliases e).

Definition mention_entity `{Libm} (name : string) (update_id : Uuid)
    (timestamp : DateTime) (g : SimpleEntityGraph) : SimpleEntityGraph :=
  with_mentions (λ m, <[name := (default [] (m !! name) ++ [update_id])%list]> m)
    (with_entities (alter (λ e, score_mentions (touch timestamp e)) name) g).

(** ** Merging another graph *)

Definition merge_entity_from (data : EntityData) (name : string)
    (g : SimpleEntityGraph) : SimpleEntityGraph :=
  foldl (λ g alias, note_alias name alias g)
    (add_or_update_entity name (ed_entity_type data) (last_mentioned data)
       (default "" (ed_description data)) g)
    (aliases data).

Definition merge_mentions_from (name : string) (mentions : list Uuid)
    (g : SimpleEntityGraph) : SimpleEntityGraph :=
  let name := default name (resolve g name) in
  with_mentions (λ m, <[name := extend_new (default [] (m !! name)) mentions]> m) g.

Definition merge_from (now : nat → DateTime) (other g : SimpleEntityGraph)
    : SimpleEntityGraph :=
  let g := foldl (λ g kv, merge_entity_from kv.2 kv.1 g) g (btree_iter (entities other)) in
  let g := foldl (λ g kv, merge_mentions_from kv.1 kv.2 g) g
             (btree_iter (entity_mentions other)) in
  foldi (λ i e g,
      match relation_ref other e with
      | Some r => add_relationship (now i) (to_relationship r) g
      | None => g
      end) 0 (edge_references (graph other)) g.
End EntityGraph.
