(* ===== verification/GraphAnalytics.v ===== *)
(** * Whole-graph analytics

    [core/graph/analytics.rs]: importance by weighted PageRank and topic
    communities by Louvain's method, over the graph as undirected.  Indexing a
    [Vec] out of range is a panic, [None]. *)

From stdpp Require Import gmap.
From S2P Require Import Prelude RustStd Collections F32 Types Petgraph EntityGraph.

Local Open Scope list_scope.

Definition DAMPING : f64 := f64_div (f64_of_N 85) (f64_of_N 100).
Definition PAGERANK_ITERATIONS : nat := 100.
Definition PAGERANK_TOLERANCE : f64 := f64_div f64_one (f64_of_N 1000000000).
Definition RECENCY_HALF_LIFE_DAYS : f64 := f64_of_N 90.
Definition LOUVAIN_PASSES : nat := 32.

(** ** Ordered maps over indexes *)

(** [BTreeMap::into_iter]. *)
Definition map_iter {K A} `{Countable K} (cmp : K → K → comparison) (m : gmap K A) : list (K * A) :=
  sort_by (λ p q, cmp p.1 q.1) (map_to_list m).

Definition pair_cmp (p q : nat * nat) : comparison := then_with (Nat.compare p.1 q.1) (Nat.compare p.2 q.2).

(** [*m.entry(k).or_default() += w]. *)
Definition add_weight_at {K} `{Countable K} (k : K) (w : f64) (m : gmap K f64) : gmap K f64 :=
  <[k := f64_add (default f64_zero (m !! k)) w]> m.

(** [v[i].push(x)]. *)
Definition push_at {A} (i : nat) (x : A) (v : list (list A)) : option (list (list A)) :=
  l ← v !! i; Some (<[i := l ++ [x]]> v).

Definition push_pair {W} (adjacency : list (list (nat * W))) (pair : nat * nat * W)
    : option (list (list (nat * W))) :=
  let '(a, b, w) := pair in
  adjacency ← push_at a (b, w) adjacency;
  push_at b (a, w) adjacency.

(** ** The undirected graph *)

Record Undirected := mkUndirected {
  un_names : list string;
  un_adjacency : list (list (nat * f64));
}.

Section analytics.
Context `{P : Petgraph} `{L : Libm64}.

Definition add_pair (index : gmap string nat) (pairs : gmap (nat * nat) f64) (rel : RelationRef)
    : gmap (nat * nat) f64 :=
  match index !! rr_from rel, index !! rr_to rel with
  | Some a, Some b =>
    if (a =? b)%nat then pairs
    else add_weight_at (a `min` b, a `max` b)%nat (f64_of_f32 (weight (rr_relation_type rel))) pairs
  | _, _ => pairs
  end.

Definition Undirected_new (g : SimpleEntityGraph) : option Undirected :=
  let names := btree_keys (entities g) in
  let index : gmap string nat := list_to_map (zip names (seq 0 (length names))) in
  let pairs := foldl (add_pair index) ∅ (relationships g) in
  adjacency ← try_fold push_pair (replicate (length names) []) (map_iter pair_cmp pairs);
  Some (mkUndirected names adjacency).

Definition strength (neighbours : list (nat * f64)) : f64 := f64_sum neighbours.*2.

(** ** Importance *)

Definition mentions (g : SimpleEntityGraph) (name : string) : f64 :=
  let linked := N.of_nat (length (default [] (entity_mentions g !! name))) in
  let counted := default 0%N (mention_count <$> entities g !! name) in
  f64_of_N (N.max linked counted).

(** [next[j] += share * w] for the neighbours of a node. *)
Definition spread (next : list f64) (node : f64 * f64 * list (nat * f64)) : option (list f64) :=
  let '(strength, rank, neighbours) := node in
  if f64_is_zero strength then Some next
  else
    let share := f64_div (f64_mul DAMPING rank) strength in
    try_fold (λ next jw, x ← next !! jw.1; Some (<[jw.1 := f64_add x (f64_mul share jw.2)]> next)) next neighbours.

Definition pagerank_step (u : Undirected) (teleport strengths rank : list f64) : option (list f64) :=
  let dangling := f64_sum (filter (λ p, f64_is_zero p.1 = true) (zip strengths rank)).*2 in
  let next := (λ t, f64_mul (f64_add (f64_sub f64_one DAMPING) (f64_mul DAMPING dangling)) t) <$> teleport in
  try_fold spread next (zip (zip strengths rank) (un_adjacency u)).

Fixpoint pagerank (u : Undirected) (teleport strengths : list f64) (iterations : nat) (rank : list f64)
    : option (list f64) :=
  match iterations with
  | O => Some rank
  | S iterations =>
    next ← pagerank_step u teleport strengths rank;
    let delta := f64_sum (zip_with (λ a b, f64_abs (f64_sub a b)) next rank) in
    if f64_lt delta PAGERANK_TOLERANCE then Some next else pagerank u teleport strengths iterations next
  end.

Definition recency (last latest : DateTime) : f64 :=
  let seconds := Z.max 0 (Z.quot (latest - last) 1000000000) in
  let days := f64_div (f64_of_N (Z.to_N seconds)) (f64_of_N 86400) in
  f64_powf (f64_div f64_one (f64_of_N 2)) (f64_div days RECENCY_HALF_LIFE_DAYS).

(** The latest of some times. *)
Definition latest_of (times : list DateTime) : option DateTime :=
  foldl (λ m t, Some (match m with Some m => Z.max m t | None => t end)) None times.

Definition importance (g : SimpleEntityGraph) : option (gmap string f32) :=
  u ← Undirected_new g;
  if bool_decide (un_names u = []) then Some ∅
  else
    let raw := (λ n, f64_add f64_one (f64_ln_1p (mentions g n))) <$> un_names u in
    let total := f64_sum raw in
    let teleport := (λ t, f64_div t total) <$> raw in
    rank ← pagerank u teleport (strength <$> un_adjacency u) PAGERANK_ITERATIONS teleport;
    let top := foldl f64_max f64_min_value rank in
    let latest := latest_of (last_mentioned <$> btree_values (entities g)) in
    let half := f64_div f64_one (f64_of_N 2) in
    Some (list_to_map (zip_with (λ name r,
      let fade := match latest, entities g !! name with
                  | Some latest, Some e => recency (last_mentioned e) latest
                  | _, _ => f64_one
                  end in
      (name, f32_of_f64 (f64_mul (f64_div r top) (f64_add half (f64_mul half fade))))) (un_names u) rank)).

(** ** Communities *)

Definition degree (i : nat) (neighbours : list (nat * f64)) : f64 :=
  f64_sum ((λ jw, if (jw.1 =? i)%nat then f64_mul (f64_of_N 2) jw.2 else jw.2) <$> neighbours).

Record Louvain := mkLouvain { community : list nat; total : list f64; moved : bool }.

Definition EPSILON : f64 := f64_div f64_one (f64_of_N 1000000000000).

(** Weight from node [i] to each neighbouring community. *)
Definition links_of (community : list nat) (i : nat) (neighbours : list (nat * f64)) : option (gmap nat f64) :=
  try_fold (λ links jw,
    if (jw.1 =? i)%nat then Some links
    else c ← community !! jw.1; Some (add_weight_at c jw.2 links)) ∅ neighbours.

Definition gain (total : list f64) (degree m2 : f64) (c : nat) (k_in : f64) : option f64 :=
  t ← total !! c; Some (f64_sub k_in (f64_div (f64_mul t degree) m2)).

(** The turn of node [i] in a pass. *)
Definition louvain_node (adjacency : list (list (nat * f64))) (degrees : list f64) (m2 : f64) (st : Louvain) (i : nat)
    : option Louvain :=
  own ← community st !! i;
  d ← degrees !! i;
  t ← total st !! own;
  let total := <[own := f64_sub t d]> (total st) in
  neighbours ← adjacency !! i;
  links ← links_of (community st) i neighbours;
  g0 ← gain total d m2 own (default f64_zero (links !! own));
  best ← try_fold (λ best ck,
    g ← gain total d m2 ck.1 ck.2;
    Some (if f64_lt (f64_add best.2 EPSILON) g then (ck.1, g) else best)) (own, g0) (map_iter Nat.compare links);
  t ← total !! best.1;
  Some (mkLouvain (<[i := best.1]> (community st)) (<[best.1 := f64_add t d]> total)
          (moved st || negb (best.1 =? own)%nat)).

Fixpoint louvain_passes (adjacency : list (list (nat * f64))) (degrees : list f64) (m2 : f64) (passes : nat)
    (st : Louvain) : option Louvain :=
  match passes with
  | O => Some st
  | S passes =>
    st ← try_fold (louvain_node adjacency degrees m2) (mkLouvain (community st) (total st) false)
           (seq 0 (length adjacency));
    if moved st then louvain_passes adjacency degrees m2 passes st else Some st
  end.

Definition louvain_level (adjacency : list (list (nat * f64))) : option (list nat) :=
  let degrees := imap degree adjacency in
  let m2 := f64_sum degrees in
  let start := seq 0 (length adjacency) in
  if f64_is_zero m2 then Some start
  else community <$> louvain_passes adjacency degrees m2 LOUVAIN_PASSES (mkLouvain start degrees false).

Definition renumber_step (st : gmap nat nat * list nat) (c : nat) : gmap nat nat * list nat :=
  match st.1 !! c with
  | Some k => (st.1, st.2 ++ [k])
  | None => (<[c := size st.1]> st.1, st.2 ++ [size st.1])
  end.

Definition renumber (assignment : list nat) : list nat := (foldl renumber_step (∅, []) assignment).2.

Definition add_group_pair (groups : list nat) (i : nat) (pairs : gmap (nat * nat) f64) (jw : nat * f64)
    : option (gmap (nat * nat) f64) :=
  if (i <=? jw.1)%nat then
    a ← groups !! i; b ← groups !! jw.1;
    Some (add_weight_at (a `min` b, a `max` b)%nat jw.2 pairs)
  else Some pairs.

Definition push_group_pair (next : list (list (nat * f64))) (pair : nat * nat * f64)
    : option (list (list (nat * f64))) :=
  let '(a, b, w) := pair in
  next ← push_at a (b, w) next;
  if (a =? b)%nat then Some next else push_at b (a, w) next.

(** One node per community, edges summed. *)
Definition aggregate (groups : list nat) (count : nat) (level : list (list (nat * f64)))
    : option (list (list (nat * f64))) :=
  pairs ← try_fold (λ pairs e, try_fold (add_group_pair groups e.1) pairs e.2) ∅ (imap pair level);
  try_fold push_group_pair (replicate count []) (map_iter pair_cmp pairs).

(** The fuel is the number of nodes left. *)
Fixpoint communities_loop (fuel : nat) (membership : list nat) (level : list (list (nat * f64))) : option (list nat) :=
  assignment ← louvain_level level;
  let groups := renumber assignment in
  let count := foldr (λ m n, S m `max` n)%nat 0%nat groups in
  if (count =? length level)%nat then Some membership
  else
    match fuel with
    | O => None
    | S fuel =>
      membership ← mapM (λ c, groups !! c) membership;
      next ← aggregate groups count level;
      communities_loop fuel membership next
    end.

(** [members.entry(c).or_default().push(node)]. *)
Definition add_group_member (members : gmap nat (list nat)) (nc : nat * nat) : gmap nat (list nat) :=
  <[nc.2 := default [] (members !! nc.2) ++ [nc.1]]> members.

(** Larger first, then by the first member; [a[0]] is there. *)
Definition group_cmp (a b : list nat) : comparison :=
  then_with (Nat.compare (length b) (length a)) (Nat.compare (default 0%nat (head a)) (default 0%nat (head b))).

Definition label_group (names : list string) (out : gmap string nat) (group : nat * list nat)
    : option (gmap string nat) :=
  try_fold (λ out node, name ← names !! node; Some (<[name := group.1]> out)) out group.2.

Definition communities (g : SimpleEntityGraph) : option (gmap string nat) :=
  u ← Undirected_new g;
  let n := length (un_names u) in
  membership ← communities_loop n (seq 0 n) (un_adjacency u);
  let members := foldl add_group_member ∅ (imap pair membership) in
  let groups := sort_by group_cmp (filter (λ m, 1 < length m)%nat (map_iter Nat.compare members).*2) in
  try_fold (label_group (un_names u)) ∅ (imap pair groups).
End analytics.

(** ** Ordered iteration *)

Lemma map_iter_perm {K A} `{Countable K} (cmp : K → K → comparison) (m : gmap K A) : map_iter cmp m ≡ₚ map_to_list m.
Proof. apply sort_by_perm. Qed.

Lemma elem_of_map_iter {K A} `{Countable K} (cmp : K → K → comparison) (m : gmap K A) k x :
  (k, x) ∈ map_iter cmp m ↔ m !! k = Some x.
Proof. by rewrite map_iter_perm, elem_of_map_to_list. Qed.

Lemma add_weight_dom {K} `{Countable K} (k : K) w m k' : is_Some (add_weight_at k w m !! k') ↔ k' = k ∨ is_Some (m !! k').
Proof. unfold add_weight_at. rewrite lookup_insert_is_Some'. naive_solver. Qed.

(** ** Adjacency lists *)

Abbreviation adjacency_lists := (list (list (nat * f64))) (only parsing).

Definition adj_edge {W} (adj : list (list (nat * W))) (i j : nat) : Prop := ∃ nb w, adj !! i = Some nb ∧ (j, w) ∈ nb.

Definition adj_wf {W} (adj : list (list (nat * W))) : Prop := ∀ i j, adj_edge adj i j → (j < length adj)%nat.

Lemma push_at_spec {A} i (x : A) v :
  (i < length v)%nat →
  ∃ v', push_at i x v = Some v' ∧ length v' = length v
    ∧ ∀ k l y, v' !! k = Some l → y ∈ l → (k = i ∧ y = x) ∨ ∃ l', v !! k = Some l' ∧ y ∈ l'.
Proof.
  intros [l Hl]%lookup_lt_is_Some. unfold push_at. rewrite Hl. eexists. split; [done|].
  split; [apply length_insert|]. intros k l' y Hk Hy. apply list_lookup_insert_Some in Hk as [(<- & <- & _)|[_ Hk]].
  - apply elem_of_app in Hy as [Hy|Hy%list_elem_of_singleton]; [right; by exists l|by left].
  - right. by exists l'.
Qed.

(** Lists built by pushing pairs have their edges. *)
Lemma pushes_spec {W} (push : list (list (nat * W)) → nat * nat * W → option (list (list (nat * W)))) (Q : nat → nat → Prop) n pairs :
  (∀ adj a b w, (a, b, w) ∈ pairs → length adj = n →
     ∃ adj', push adj (a, b, w) = Some adj' ∧ length adj' = n
       ∧ ∀ i j, adj_edge adj' i j → (i = a ∧ j = b) ∨ (i = b ∧ j = a) ∨ adj_edge adj i j) →
  (∀ a b w, (a, b, w) ∈ pairs → (a < n ∧ b < n)%nat ∧ Q a b ∧ Q b a) →
  ∃ adj, try_fold push (replicate n []) pairs = Some adj ∧ length adj = n ∧ adj_wf adj
    ∧ ∀ i j, adj_edge adj i j → Q i j.
Proof.
  intros Hpush Hpairs.
  destruct (try_fold_total push (λ adj, length adj = n ∧ ∀ i j, adj_edge adj i j → (i < n ∧ j < n)%nat ∧ Q i j) pairs)
    with (s := replicate n ([] : list (nat * W))) as (adj & Heq & Hlen & Hedge).
  - intros adj [[a b] w] Hin [Hlen Hedge]. destruct (Hpush adj a b w Hin Hlen) as (adj' & Heq & Hlen' & Hedge').
    destruct (Hpairs a b w Hin) as ((Ha & Hb) & Hq & Hq'). exists adj'. split_and!; [done..|].
    intros i j [[-> ->]|[[-> ->]|Hij]]%Hedge'; [by split_and!|by split_and!|by apply Hedge].
  - split; [apply length_replicate|]. intros i j (nb & w & Hnb & Hin).
    apply lookup_replicate in Hnb as [-> _]. by destruct (not_elem_of_nil _ Hin).
  - exists adj. split_and!; [done..| |].
    + intros i j Hij. rewrite Hlen. by destruct (Hedge i j Hij) as [[_ ?] _].
    + intros i j Hij. by apply Hedge.
Qed.

Lemma push_pair_spec {W} (adj : list (list (nat * W))) a b w :
  (a < length adj)%nat → (b < length adj)%nat →
  ∃ adj', push_pair adj (a, b, w) = Some adj' ∧ length adj' = length adj
    ∧ ∀ i j, adj_edge adj' i j → (i = a ∧ j = b) ∨ (i = b ∧ j = a) ∨ adj_edge adj i j.
Proof.
  intros Ha Hb. unfold push_pair. destruct (push_at_spec a (b, w) adj Ha) as (adj1 & -> & Hl1 & H1). simpl.
  destruct (push_at_spec b (a, w) adj1) as (adj2 & -> & Hl2 & H2); [by rewrite Hl1|].
  exists adj2. split_and!; [done|by rewrite Hl2|]. intros i j (nb & w' & Hnb & Hin).
  destruct (H2 i nb _ Hnb Hin) as [[-> [= -> ->]]|(nb' & Hnb' & Hin')]; [by right; left|].
  destruct (H1 i nb' _ Hnb' Hin') as [[-> [= -> ->]]|(nb'' & Hnb'' & Hin'')]; [by left|].
  right. right. by exists nb'', w'.
Qed.

Lemma push_group_pair_spec adj a b w :
  (a < length adj)%nat → (b < length adj)%nat →
  ∃ adj', push_group_pair adj (a, b, w) = Some adj' ∧ length adj' = length adj
    ∧ ∀ i j, adj_edge adj' i j → (i = a ∧ j = b) ∨ (i = b ∧ j = a) ∨ adj_edge adj i j.
Proof.
  intros Ha Hb. unfold push_group_pair. destruct (Nat.eqb_spec a b) as [<-|Hne]; [|by apply push_pair_spec].
  destruct (push_at_spec a (a, w) adj Ha) as (adj1 & -> & Hl1 & H1). exists adj1. split_and!; [done..|].
  intros i j (nb & w' & Hnb & Hin). destruct (H1 i nb _ Hnb Hin) as [[-> [= -> ->]]|(nb' & Hnb' & Hin')]; [by left|].
  right. right. by exists nb', w'.
Qed.

(** ** The undirected graph *)

Section analytics.
Context `{P : Petgraph}.

(** A relation of the graph between two names. *)
Definition asserted (g : SimpleEntityGraph) (a b : string) : Prop :=
  ∃ r, r ∈ relationships g ∧ ((rr_from r = a ∧ rr_to r = b) ∨ (rr_from r = b ∧ rr_to r = a)).

Lemma zip_index_from n (names : list string) k i :
  (list_to_map (zip names (seq n (length names))) : gmap string nat) !! k = Some i → (n ≤ i)%nat ∧ names !! (i - n)%nat = Some k.
Proof.
  intros Hi%elem_of_list_to_map_2. apply list_elem_of_lookup in Hi as [j Hj].
  apply lookup_zip_Some in Hj as [Hk [-> _]%lookup_seq]. split; [lia|]. by replace (n + j - n)%nat with j by lia.
Qed.

Lemma zip_index (names : list string) k i :
  (list_to_map (zip names (seq 0 (length names))) : gmap string nat) !! k = Some i → names !! i = Some k.
Proof. intros [_ Hk]%zip_index_from. by rewrite Nat.sub_0_r in Hk. Qed.

Lemma undirected_spec g :
  ∃ u, Undirected_new g = Some u ∧ un_names u = btree_keys (entities g)
    ∧ length (un_adjacency u) = length (un_names u) ∧ adj_wf (un_adjacency u)
    ∧ ∀ i j, adj_edge (un_adjacency u) i j →
        ∃ a b, un_names u !! i = Some a ∧ un_names u !! j = Some b ∧ asserted g a b.
Proof.
  unfold Undirected_new. set (names := btree_keys (entities g)). set (index := list_to_map _ : gmap string nat).
  set (pairs := foldl (add_pair index) ∅ (relationships g)).
  set (Q := λ i j, ∃ a b, names !! i = Some a ∧ names !! j = Some b ∧ asserted g a b).
  assert (∀ ab, is_Some (pairs !! ab) → Q ab.1 ab.2 ∧ Q ab.2 ab.1) as Hpairs.
  { unfold pairs. apply (foldl_inv _ (λ ps, ∀ ab, is_Some (ps !! ab) → Q ab.1 ab.2 ∧ Q ab.2 ab.1)).
    - intros ps r Hr IH ab. unfold add_pair. destruct (index !! rr_from r) as [i|] eqn:Hi; [|apply IH].
      destruct (index !! rr_to r) as [j|] eqn:Hj; [|apply IH]. case_match; [apply IH|].
      apply zip_index in Hi, Hj. rewrite add_weight_dom. intros [->|Hab]; [|by apply IH].
      assert (Q i j ∧ Q j i) as [Hij Hji].
      { split; [exists (rr_from r), (rr_to r)|exists (rr_to r), (rr_from r)]; split_and!; try done; exists r; auto. }
      simpl. destruct (Nat.min_spec i j) as [[? ->]|[? ->]], (Nat.max_spec i j) as [[? ->]|[? ->]]; try lia; try done.
    - intros ab [? Hab]. by rewrite lookup_empty in Hab. }
  destruct (pushes_spec push_pair Q (length names) (map_iter pair_cmp pairs)) as (adj & -> & Hlen & Hwf & Hedge).
  - intros adj a b w Hin Hlen. apply elem_of_map_iter in Hin.
    destruct (Hpairs (a, b)) as [(x & y & Hx%lookup_lt_Some & Hy%lookup_lt_Some & _) _]; [by eexists|].
    destruct (push_pair_spec adj a b w) as (adj' & ? & Hl & ?); [by rewrite Hlen..|].
    exists adj'. split_and!; [done|by rewrite Hl|done].
  - intros a b w Hin%elem_of_map_iter. destruct (Hpairs (a, b)) as [Hq Hq']; [by eexists|].
    pose proof Hq as (x & y & Hx%lookup_lt_Some & Hy%lookup_lt_Some & _). by split_and!.
  - simpl. eexists. split; [done|]. by split_and!.
Qed.
End analytics.

(** ** One Louvain level *)

(** Connected by edges, either way. *)
Abbreviation connected adj := (rtsc (adj_edge adj)) (only parsing).

Section level.
Context (adj : adjacency_lists) (Hwf : adj_wf adj).

Definition labels_ok (community : list nat) : Prop :=
  length community = length adj ∧ ∀ i c, community !! i = Some c → (c < length adj)%nat ∧ connected adj i c.

Lemma links_spec community i nb :
  labels_ok community → adj !! i = Some nb →
  ∃ links, links_of community i nb = Some links
    ∧ ∀ c, is_Some (links !! c) → (c < length adj)%nat ∧ connected adj i c.
Proof.
  intros [Hlen Hlab] Hnb. unfold links_of.
  apply (try_fold_total _ (λ links, ∀ c, is_Some (links !! c) → (c < length adj)%nat ∧ connected adj i c)).
  - intros links [j w] Hin IH. simpl. case_match; [by eexists|].
    assert (adj_edge adj i j) as Hij by by exists nb, w.
    destruct (lookup_lt_is_Some_2 community j) as [c Hc]; [rewrite Hlen; by apply Hwf in Hij|].
    rewrite Hc. simpl. eexists. split; [done|]. intros c'. rewrite add_weight_dom. intros [->|Hc']; [|by apply IH].
    destruct (Hlab j c Hc) as [Hlt Hconn]. split; [done|]. etrans; [|exact Hconn]. apply rtc_once. by left.
  - intros c [? Hc]. by rewrite lookup_empty in Hc.
Qed.

Definition state_ok (st : Louvain) : Prop := labels_ok (community st) ∧ length (total st) = length adj.

Lemma louvain_node_ok degrees m2 st i :
  length degrees = length adj → state_ok st → (i < length adj)%nat →
  ∃ st', louvain_node adj degrees m2 st i = Some st' ∧ state_ok st'.
Proof.
  intros Hdeg [Hlab Htot] Hi. pose proof Hlab as [Hlen Hlabs]. unfold louvain_node.
  destruct (lookup_lt_is_Some_2 (community st) i) as [own Hown]; [by rewrite Hlen|]. rewrite Hown. simpl.
  destruct (Hlabs i own Hown) as [Holt Hoconn].
  destruct (lookup_lt_is_Some_2 degrees i) as [d Hd]; [by rewrite Hdeg|]. rewrite Hd. simpl.
  destruct (lookup_lt_is_Some_2 (total st) own) as [t Ht]; [by rewrite Htot|]. rewrite Ht. simpl.
  set (tot := <[own := f64_sub t d]> (total st)). assert (length tot = length adj) as Htl by (unfold tot; by rewrite length_insert).
  destruct (lookup_lt_is_Some_2 adj i Hi) as [nb Hnb]. rewrite Hnb. simpl.
  destruct (links_spec (community st) i nb Hlab Hnb) as (links & -> & Hlinks). simpl.
  assert (∀ c k, (c < length adj)%nat → ∃ g, gain tot d m2 c k = Some g) as Hgain.
  { intros c k Hc. unfold gain. destruct (lookup_lt_is_Some_2 tot c) as [x Hx]; [by rewrite Htl|]. rewrite Hx. by eexists. }
  destruct (Hgain own (default f64_zero (links !! own)) Holt) as [g0 ->]. simpl.
  destruct (try_fold_total (λ best ck,
    g ← gain tot d m2 ck.1 ck.2; Some (if f64_lt (f64_add best.2 EPSILON) g then (ck.1, g) else best))
    (λ best, (best.1 < length adj)%nat ∧ connected adj i best.1) (map_iter Nat.compare links))
    with (s := (own, g0)) as (best & -> & Hblt & Hbconn).
  - intros best [c k] Hin%elem_of_map_iter Hbest. destruct (Hlinks c) as [Hc Hconn]; [by eexists|].
    simpl. destruct (Hgain c k Hc) as [g ->]. simpl. eexists. split; [done|]. by case_match.
  - by split.
  - simpl. destruct (lookup_lt_is_Some_2 tot best.1) as [tb Htb]; [by rewrite Htl|]. rewrite Htb. simpl.
    eexists. split; [done|]. split; [split|]; simpl; rewrite ?length_insert; [done| |done].
    intros i' c [(<- & <- & _)|[_ Hc]]%list_lookup_insert_Some; [done|by apply Hlabs].
Qed.

Lemma louvain_passes_ok degrees m2 passes st :
  length degrees = length adj → state_ok st →
  ∃ st', louvain_passes adj degrees m2 passes st = Some st' ∧ state_ok st'.
Proof.
  intros Hdeg. revert st. induction passes as [|passes IH]; intros st Hst; [by exists st|]. simpl.
  destruct (try_fold_total (louvain_node adj degrees m2) state_ok (seq 0 (length adj)))
    with (s := mkLouvain (community st) (total st) false) as (st' & -> & Hst'); [|exact Hst|].
  - intros s i [_ Hi]%elem_of_seq Hs. by apply louvain_node_ok.
  - simpl. case_match; [by apply IH|by exists st'].
Qed.

Lemma louvain_level_ok : ∃ community, louvain_level adj = Some community ∧ labels_ok community.
Proof.
  assert (labels_ok (seq 0 (length adj))) as Hstart.
  { split; [apply length_seq|]. intros i c [-> Hi]%lookup_seq. by split. }
  unfold louvain_level. case_match; [by eexists|].
  destruct (louvain_passes_ok (imap degree adj) (f64_sum (imap degree adj)) LOUVAIN_PASSES
    (mkLouvain (seq 0 (length adj)) (imap degree adj) false)) as (st & -> & [Hst _]);
    [by rewrite length_imap|split; [done|simpl; by rewrite length_imap]|].
  by eexists.
Qed.
End level.

(** ** Renumbering *)

(** The numbers given so far: one per label, without gaps. *)
Record numbering (m : gmap nat nat) (assignment out : list nat) : Prop := {
  nb_out i : out !! i = assignment !! i ≫= λ c, m !! c;
  nb_length : length out = length assignment;
  nb_inj c c' k : m !! c = Some k → m !! c' = Some k → c = c';
  nb_dom c : is_Some (m !! c) → c ∈ assignment;
  nb_range c k : m !! c = Some k → (k < size m)%nat;
  nb_onto k : (k < size m)%nat → ∃ c, m !! c = Some k;
  nb_size : (size m ≤ length assignment)%nat;
}.

Lemma renumber_step_ok m assignment out c :
  numbering m assignment out →
  let st := renumber_step (m, out) c in numbering st.1 (assignment ++ [c]) st.2.
Proof.
  intros [Hout Hlen Hinj Hdom Hrange Honto Hsize]. unfold renumber_step. cbn [fst snd].
  assert (∀ m', m ⊆ m' → (∀ i, (i < length out)%nat →
    out !! i = (assignment ++ [c]) !! i ≫= λ c, m' !! c)) as Hold.
  { intros m' Hsub i Hi. rewrite lookup_app_l by lia. rewrite Hout.
    destruct (assignment !! i) as [a|] eqn:Ha; [|done]. simpl.
    assert (is_Some (out !! i)) as [k Hk] by by apply lookup_lt_is_Some. rewrite Hout, Ha in Hk. simpl in Hk.
    rewrite Hk. symmetry. by eapply lookup_weaken. }
  assert (∀ m' k, m ⊆ m' → m' !! c = Some k →
    ∀ i, (out ++ [k]) !! i = (assignment ++ [c]) !! i ≫= λ c, m' !! c) as Hnew.
  { intros m' k Hsub Hk i. destruct (Nat.lt_trichotomy i (length out)) as [Hi|[->|Hi]].
    - rewrite lookup_app_l by done. by apply Hold.
    - rewrite Hlen at 2. by rewrite !list_lookup_middle.
    - rewrite !lookup_ge_None_2; [done|..]; rewrite length_app; simpl; lia. }
  destruct (m !! c) as [k|] eqn:Hc; cbn [fst snd].
  - split; [by apply Hnew| |done| |done|done|].
    + rewrite !length_app. simpl. lia.
    + intros c' Hc'. apply elem_of_app. left. by apply Hdom.
    + rewrite length_app. lia.
  - assert (m ⊆ <[c := size m]> m) as Hsub by by apply insert_subseteq.
    assert (size (<[c := size m]> m) = S (size m)) as Hsz by by apply map_size_insert_None.
    split.
    + apply Hnew; [done|]. by rewrite lookup_insert_eq.
    + rewrite !length_app. simpl. lia.
    + intros c1 c2 k [[<- <-]|[_ H1]]%lookup_insert_Some [[<- Hk]|[_ H2]]%lookup_insert_Some; [done|..|by eapply Hinj].
      * apply Hrange in H2. lia.
      * apply Hrange in H1. lia.
    + intros c'. rewrite lookup_insert_is_Some', elem_of_app, list_elem_of_singleton.
      intros [<-|Hc']; [by right|left; by apply Hdom].
    + intros c' k [[<- <-]|[_ Hk]]%lookup_insert_Some; rewrite Hsz; [lia|]. apply Hrange in Hk. lia.
    + intros k Hk. rewrite Hsz in Hk. destruct (decide (k = size m)) as [->|Hne].
      * exists c. by rewrite lookup_insert_eq.
      * destruct (Honto k) as [c' Hc']; [lia|]. exists c'. rewrite lookup_insert_ne; [done|]. intros <-. by rewrite Hc in Hc'.
    + rewrite Hsz, length_app. simpl. lia.
Qed.

Lemma renumber_numbering assignment :
  ∃ m, numbering m assignment (renumber assignment).
Proof.
  unfold renumber. exists (foldl renumber_step (∅, []) assignment).1.
  induction assignment as [|c assignment IH] using rev_ind.
  - cbn [foldl fst snd]. split; try done.
    + intros c [? Hc]. by rewrite lookup_empty in Hc.
    + intros k Hk. rewrite map_size_empty in Hk. lia.
  - rewrite foldl_app. cbn [foldl]. pose proof (renumber_step_ok _ _ _ c IH) as Hstep. cbv zeta in Hstep.
    by destruct (foldl renumber_step (∅, []) assignment).
Qed.

Lemma max_succ (l : list nat) :
  let n := foldr (λ m n, S m `max` n)%nat 0%nat l in (∀ k, k ∈ l → (k < n)%nat) ∧ (n = 0%nat ∨ ∃ k, k ∈ l ∧ n = S k).
Proof.
  induction l as [|x l [IH1 IH2]]; [split; [by intros k ?%elem_of_nil|by left]|]. cbn [foldr]. split.
  - intros k [->|Hk%IH1]%elem_of_cons; lia.
  - right. destruct (Nat.max_spec (S x) (foldr (λ m n, S m `max` n)%nat 0%nat l)) as [[Hlt ->]|[_ ->]].
    + destruct IH2 as [Hz|(k & Hk & Heq)]; [lia|]. exists k. split; [by right|exact Heq].
    + exists x. split; [by left|done].
Qed.

(** Groups are numbered from 0 without gaps, one per label. *)
Lemma renumber_spec assignment :
  let groups := renumber assignment in
  let count := foldr (λ m n, S m `max` n)%nat 0%nat groups in
  length groups = length assignment ∧ (count ≤ length assignment)%nat
  ∧ (∀ i k, groups !! i = Some k → (k < count)%nat)
  ∧ (∀ k, (k < count)%nat → ∃ i, groups !! i = Some k)
  ∧ ∀ i j k, groups !! i = Some k → groups !! j = Some k →
      ∃ c, assignment !! i = Some c ∧ assignment !! j = Some c.
Proof.
  intros groups count. destruct (renumber_numbering assignment) as [m [Hout Hlen Hinj Hdom Hrange Honto Hsize]].
  fold groups in Hout, Hlen.
  assert (∀ i k, groups !! i = Some k → ∃ c, assignment !! i = Some c ∧ m !! c = Some k) as Hg.
  { intros i k Hk. rewrite Hout in Hk. destruct (assignment !! i) as [c|]; [|done]. by exists c. }
  destruct (max_succ groups) as [Hlt Hmax]. fold count in Hlt, Hmax.
  assert (∀ k, k ∈ groups → (k < size m)%nat) as Hsz.
  { intros k [i Hi]%list_elem_of_lookup. destruct (Hg i k Hi) as (c & _ & Hc). by apply Hrange in Hc. }
  assert (count = size m) as Hcount.
  { assert (count ≤ size m)%nat by (destruct Hmax as [->|(k & Hk & ->)]; [lia|by apply Hsz]).
    destruct (decide (count = size m)) as [|Hne]; [done|]. destruct (Honto count) as [c Hc]; [lia|].
    assert (c ∈ assignment) as Hin by (apply Hdom; by eexists). apply list_elem_of_lookup in Hin as [i Hi].
    assert (groups !! i = Some count) as Hi' by by rewrite Hout, Hi.
    apply list_elem_of_lookup_2, Hlt in Hi'. lia. }
  split_and!; [done|lia|..].
  - intros i k Hk. by apply Hlt, list_elem_of_lookup_2 with i.
  - intros k Hk. rewrite Hcount in Hk. destruct (Honto k Hk) as [c Hc]. assert (c ∈ assignment) as Hin by (apply Hdom; by eexists).
    apply list_elem_of_lookup in Hin as [i Hi]. exists i. by rewrite Hout, Hi.
  - intros i j k (c & Hc & Hm)%Hg (c' & Hc' & Hm')%Hg. exists c. split; [done|]. by rewrite (Hinj c c' k Hm Hm').
Qed.

(** ** Aggregating a level *)

Lemma aggregate_spec groups count level :
  length groups = length level → adj_wf level → (∀ i k, groups !! i = Some k → (k < count)%nat) →
  ∃ next, aggregate groups count level = Some next ∧ length next = count ∧ adj_wf next
    ∧ ∀ a b, adj_edge next a b →
        ∃ i j, groups !! i = Some a ∧ groups !! j = Some b ∧ (adj_edge level i j ∨ adj_edge level j i).
Proof.
  intros Hlen Hwf Hlt. unfold aggregate.
  set (Q := λ a b, ∃ i j, groups !! i = Some a ∧ groups !! j = Some b ∧ (adj_edge level i j ∨ adj_edge level j i)).
  assert (∀ a b, Q a b → Q b a) as Hsym by (intros a b (i & j & ? & ? & ?); exists j, i; tauto).
  destruct (try_fold_total (λ pairs e, try_fold (add_group_pair groups e.1) pairs e.2)
    (λ pairs : gmap (nat * nat) f64, ∀ ab, is_Some (pairs !! ab) → Q ab.1 ab.2) (imap pair level))
    with (s := ∅ : gmap (nat * nat) f64) as (pairs & -> & Hpairs).
  - intros pairs [i nb] Hin IH. apply elem_of_lookup_imap in Hin as (i' & nb' & [= -> ->] & Hnb).
    apply (try_fold_total _ (λ pairs : gmap (nat * nat) f64, ∀ ab, is_Some (pairs !! ab) → Q ab.1 ab.2)); [|done].
    clear pairs IH. intros pairs [j w] Hj IH. unfold add_group_pair. cbn [fst snd]. case_match; [|by eexists].
    assert (adj_edge level i' j) as Hij by by exists nb', w.
    destruct (lookup_lt_is_Some_2 groups i') as [a Ha]; [rewrite Hlen; by eapply lookup_lt_Some|].
    destruct (lookup_lt_is_Some_2 groups j) as [b Hb]; [rewrite Hlen; by eapply Hwf|].
    rewrite Ha, Hb. simpl. eexists. split; [done|]. intros ab. rewrite add_weight_dom. intros [->|Hab]; [|by apply IH].
    simpl. assert (Q a b) as Hab by (exists i', j; auto).
    destruct (Nat.min_spec a b) as [[? ->]|[? ->]], (Nat.max_spec a b) as [[? ->]|[? ->]]; try lia; auto.
  - intros ab [? Hab]. by rewrite lookup_empty in Hab.
  - cbn [mbind option_bind].
    destruct (pushes_spec push_group_pair Q count (map_iter pair_cmp pairs)) as (next & -> & Hl & Hw & Hedge).
    + intros adj a b w Hin%elem_of_map_iter Hl. destruct (Hpairs (a, b)) as (i & j & Ha & Hb & _); [by eexists|].
      destruct (push_group_pair_spec adj a b w) as (adj' & ? & Hl' & ?); [rewrite Hl; by eapply Hlt..|].
      exists adj'. split_and!; [done|by rewrite Hl'|done].
    + intros a b w Hin%elem_of_map_iter. assert (Q a b) as Hq by (apply (Hpairs (a, b)); by eexists).
      pose proof Hq as (i & j & Ha & Hb & _). split_and!; [by eapply Hlt..|done|by apply Hsym].
    + exists next. by split_and!.
Qed.

(** ** The loop *)

Section loop.
Context (adj : adjacency_lists).

(** What the members of a level's nodes say about the original graph. *)
Record level_ok (membership : list nat) (level : adjacency_lists) : Prop := {
  lo_length : length membership = length adj;
  lo_wf : adj_wf level;
  lo_range x a : membership !! x = Some a → (a < length level)%nat;
  lo_members a : (a < length level)%nat → ∃ x, membership !! x = Some a;
  lo_same x y a : membership !! x = Some a → membership !! y = Some a → connected adj x y;
  lo_edges a b x y : adj_edge level a b → membership !! x = Some a → membership !! y = Some b → connected adj x y;
}.

Lemma level_paths membership level a b :
  level_ok membership level → connected level a b →
  ∀ x y, membership !! x = Some a → membership !! y = Some b → connected adj x y.
Proof.
  intros [Hlen Hwf Hrange Hmem Hsame Hedge] Hpath.
  induction Hpath as [a|a c b Hac Hpath IH]; intros x y Hx Hy; [by eapply Hsame|].
  assert (c < length level)%nat as Hc.
  { destruct Hac as [Hac|Hca]; [by eapply Hwf|]. destruct Hca as (nb & w & Hnb & _). by eapply lookup_lt_Some. }
  destruct (Hmem c Hc) as [z Hz]. etrans; [|by eapply IH].
  destruct Hac as [Hac|Hca]; [by eapply Hedge|]. symmetry. by eapply Hedge.
Qed.

(** Every turn merges nodes. *)
Lemma communities_loop_spec fuel membership level :
  level_ok membership level → (length level ≤ fuel)%nat →
  ∃ out, communities_loop fuel membership level = Some out ∧ length out = length adj
    ∧ ∀ x y c, out !! x = Some c → out !! y = Some c → connected adj x y.
Proof.
  revert membership level. induction fuel as [|fuel IH]; intros membership level Hok Hf;
    destruct (louvain_level_ok level (lo_wf _ _ Hok)) as (assignment & Has & [Hlen Hlab]);
    destruct (renumber_spec assignment) as (Hgl & Hcount & Hrange & Honto & Hsame);
    pose proof Hok as [Hml Hwf Hmr Hmem Hms Hedge]; cbn [communities_loop]; rewrite Has; cbn [mbind option_bind];
    set (groups := renumber assignment) in *; set (count := foldr _ 0%nat groups) in *.
  { rewrite (proj2 (Nat.eqb_eq count (length level))) by lia. by exists membership. }
  destruct (Nat.eqb_spec count (length level)) as [|Hne]; [by exists membership|].
  destruct (mapM (λ c, groups !! c) membership) as [membership'|] eqn:Hm.
  2:{ exfalso. apply mapM_None_1, Exists_exists in Hm as (c & Hc & Hnone).
      apply list_elem_of_lookup in Hc as [x Hx]. apply Hmr in Hx. apply lookup_ge_None_1 in Hnone. lia. }
  cbn [mbind option_bind]. apply mapM_Some_1 in Hm.
  assert (∀ x k, membership' !! x = Some k → ∃ a, membership !! x = Some a ∧ groups !! a = Some k) as Hm'.
  { intros x k Hk. eapply Forall2_lookup_r in Hm as (a & Ha & Hg); [|exact Hk]. by exists a. }
  assert (∀ x a k, membership !! x = Some a → groups !! a = Some k → membership' !! x = Some k) as Hm2.
  { intros x a k Ha Hk. eapply Forall2_lookup_l in Hm as (k' & Hk' & Hg); [|exact Ha]. by simplify_eq. }
  destruct (aggregate_spec groups count level) as (next & -> & Hnl & Hnw & Hne'); [lia|done|done|].
  cbn [mbind option_bind]. apply IH; [|lia]. split.
  - apply Forall2_length in Hm. lia.
  - done.
  - intros x k (a & _ & Hk)%Hm'. rewrite Hnl. by eapply Hrange.
  - intros k Hk. rewrite Hnl in Hk. destruct (Honto k Hk) as [a Ha].
    destruct (Hmem a) as [x Hx]; [apply lookup_lt_Some in Ha; lia|]. exists x. by eapply Hm2.
  - intros x y k (a & Hx & Ha)%Hm' (b & Hy & Hb)%Hm'. destruct (Hsame a b k Ha Hb) as (c & Hca & Hcb).
    eapply level_paths; [exact Hok| |exact Hx|exact Hy].
    etrans; [by apply Hlab|]. symmetry. by apply Hlab.
  - intros k l x y (i & j & Hi & Hj & Hij)%Hne' (a & Hx & Ha)%Hm' (b & Hy & Hb)%Hm'.
    eapply level_paths; [exact Hok| |exact Hx|exact Hy].
    assert (connected level i j) as Hconn by (destruct Hij; [apply rtc_once; by left|apply rtc_once; by right]).
    destruct (Hsame a i k Ha Hi) as (c & Hca & Hci). destruct (Hsame b j l Hb Hj) as (c' & Hcb & Hcj).
    etrans; [by apply Hlab|]. etrans; [symmetry; by apply Hlab|]. etrans; [exact Hconn|].
    etrans; [by apply Hlab|]. symmetry. by apply Hlab.
Qed.
End loop.

(** ** Labels *)

Lemma members_lookup (xs : list (nat * nat)) c :
  foldl add_group_member ∅ xs !! c = match (filter (λ nc, nc.2 = c) xs).*1 with [] => None | l => Some l end.
Proof.
  induction xs as [|[n c'] xs IH] using rev_ind; [done|]. rewrite foldl_app. cbn [foldl].
  set (m := foldl add_group_member ∅ xs) in *. unfold add_group_member. cbn [fst snd].
  rewrite filter_app, fmap_app. destruct (decide (c = c')) as [->|Hne].
  - rewrite lookup_insert_eq, IH. rewrite filter_cons_True by done. csimpl. by destruct (filter _ xs).*1.
  - rewrite lookup_insert_ne by done. rewrite filter_cons_False by (simpl; congruence). csimpl. by rewrite app_nil_r.
Qed.

#[local] Instance group_cmp_preorder : TotalPreorder group_cmp.
Proof.
  split.
  - intros x y. unfold cmp_le, group_cmp, then_with.
    destruct (Nat.compare_spec (length y) (length x)), (Nat.compare_spec (length x) (length y)); try lia; auto.
    rewrite !Nat.compare_le_iff. lia.
  - intros x y z. unfold cmp_le, group_cmp, then_with.
    destruct (Nat.compare_spec (length y) (length x)), (Nat.compare_spec (length z) (length y)),
      (Nat.compare_spec (length z) (length x)); try lia; try done. rewrite !Nat.compare_le_iff. lia.
Qed.

Lemma label_group_spec names out k grp :
  (∀ node, node ∈ grp → is_Some (names !! node)) →
  ∃ out', label_group names out (k, grp) = Some out'
    ∧ ∀ name, out' !! name = if decide (name ∈ omap (names !!.) grp) then Some k else out !! name.
Proof.
  unfold label_group. cbn [fst snd]. revert out. induction grp as [|node grp IH]; intros out Hn.
  { exists out. split; [done|]. intros name. by rewrite decide_False by apply not_elem_of_nil. }
  destruct (Hn node) as [x Hx]; [by left|]. cbn [try_fold]. rewrite Hx. cbn [mbind option_bind].
  destruct (IH (<[x := k]> out)) as (out' & -> & Hout'); [intros y Hy; apply Hn; by right|].
  exists out'. split; [done|]. intros name. rewrite Hout'. cbn [omap list_omap]. rewrite Hx.
  destruct (decide (name = x)) as [->|Hne].
  - rewrite lookup_insert_eq, (decide_True (P := x ∈ x :: _)) by by left. by case_decide.
  - rewrite lookup_insert_ne by done. apply decide_ext. rewrite elem_of_cons. tauto.
Qed.

Lemma labels_spec names groups :
  NoDup names → NoDup (mjoin groups) → (∀ node, node ∈ mjoin groups → is_Some (names !! node)) →
  ∃ out, try_fold (label_group names) ∅ (imap pair groups) = Some out
    ∧ ∀ name k, out !! name = Some k ↔ ∃ grp, groups !! k = Some grp ∧ name ∈ omap (names !!.) grp.
Proof.
  intros Hnames. induction groups as [|grp groups IH] using rev_ind; intros Hnd Hin.
  { exists ∅. split; [done|]. intros name k. split; [by intros ?%lookup_empty_Some|]. by intros (? & ? & _). }
  rewrite join_app in Hnd, Hin. cbn [mjoin list_join] in Hnd, Hin. rewrite app_nil_r in Hnd, Hin.
  apply NoDup_app in Hnd as (Hnd & Hdis & Hndg).
  destruct IH as (out & Hout & Hspec); [done|intros node Hnode; apply Hin, elem_of_app; by left|].
  rewrite imap_app. cbn [imap]. rewrite Nat.add_0_r.
  destruct (label_group_spec names out (length groups) grp) as (out' & Hout' & Hspec').
  { intros node Hnode. apply Hin, elem_of_app. by right. }
  exists out'. split.
  - clear -Hout Hout'. revert Hout. generalize (imap pair groups) (∅ : gmap string nat). intros l.
    induction l as [|e l IH]; intros m Hm; simpl in *; [injection Hm as ->; by rewrite Hout'|].
    destruct (label_group names m e); [|done]. simpl in *. by apply IH.
  - intros name k. rewrite Hspec'. case_decide as Hname.
    + split.
      * intros [= <-]. exists grp. split; [by apply list_lookup_middle|done].
      * intros (grp' & Hk & Hname'). apply lookup_app_Some in Hk as [Hk|[Hge Hk]].
        -- exfalso. apply list_elem_of_omap in Hname as (n & Hn & Hx), Hname' as (n' & Hn' & Hx').
           assert (n = n') as -> by (eapply NoDup_lookup; [exact Hnames|done..]).
           apply (Hdis n'); [|done]. apply list_elem_of_join. exists grp'. split; [done|]. by eapply list_elem_of_lookup_2.
        -- f_equal. apply list_lookup_singleton_Some in Hk as [Hk _]. lia.
    + rewrite Hspec. split; intros (grp' & Hk & Hname').
      * exists grp'. split; [|done]. by apply lookup_app_l_Some.
      * apply lookup_app_Some in Hk as [Hk|[_ Hk]]; [by exists grp'|].
        by apply list_lookup_singleton_Some in Hk as [_ ->].
Qed.

Lemma member_list membership c l :
  foldl add_group_member ∅ (imap pair membership) !! c = Some l →
  NoDup l ∧ ∀ x, x ∈ l ↔ membership !! x = Some c.
Proof.
  rewrite members_lookup. intros Hl.
  assert (l = (filter (λ nc, nc.2 = c) (imap pair membership)).*1) as ->.
  { destruct (filter _ _).*1; [done|by injection Hl]. }
  split.
  - eapply sublist_NoDup; [|apply fmap_sublist, sublist_filter].
    assert ((imap pair membership).*1 = seq 0 (length membership)) as ->; [|apply NoDup_seq].
    apply list_eq. intros i. rewrite list_lookup_fmap, list_lookup_imap.
    destruct (membership !! i) as [x|] eqn:Hi; simpl.
    + symmetry. apply lookup_seq. apply lookup_lt_Some in Hi. lia.
    + symmetry. apply lookup_seq_ge. by apply lookup_ge_None.
  - intros x. rewrite list_elem_of_fmap. split.
    + intros ([i c'] & -> & [Hc Hin]%list_elem_of_filter). apply elem_of_lookup_imap in Hin as (j & y & [= -> ->] & Hj).
      simpl in *. by subst.
    + intros Hx. exists (x, c). split; [done|]. apply list_elem_of_filter. split; [done|].
      apply elem_of_lookup_imap. by exists x, c.
Qed.

(** The groups: the member lists of at least two nodes, in order. *)
Lemma groups_spec membership :
  let groups := sort_by group_cmp
    (filter (λ m, 1 < length m)%nat (map_iter Nat.compare (foldl add_group_member ∅ (imap pair membership))).*2) in
  NoDup (mjoin groups) ∧ StronglySorted (cmp_le group_cmp) groups
  ∧ ∀ grp, grp ∈ groups → (1 < length grp)%nat ∧ NoDup grp ∧ ∃ c, ∀ x, x ∈ grp ↔ membership !! x = Some c.
Proof.
  cbv zeta. set (M := foldl add_group_member ∅ (imap pair membership)).
  assert (∀ grp, grp ∈ (map_iter Nat.compare M).*2 → ∃ c, M !! c = Some grp) as Hin.
  { intros grp ([c l] & -> & Hc%elem_of_map_iter)%list_elem_of_fmap. by exists c. }
  split_and!.
  - rewrite sort_by_perm.
    assert (NoDup ((map_iter Nat.compare M).*2 ≫= id)) as Hnd.
    { assert (∀ ps : list (nat * list nat), ps.*2 ≫= id = ps ≫= snd) as -> by (by induction ps; csimpl; f_equal).
      apply NoDup_bind.
      - intros [c l] [c' l'] x Hc%elem_of_map_iter Hc'%elem_of_map_iter Hx Hx'. simpl in *.
        apply (member_list membership c l Hc) in Hx. apply (member_list membership c' l' Hc') in Hx'. by simplify_eq.
      - intros [c l] Hc%elem_of_map_iter. by apply (member_list membership c l Hc).
      - apply (NoDup_fmap_1 fst). rewrite map_iter_perm. apply NoDup_fst_map_to_list. }
    eapply sublist_NoDup; [exact Hnd|]. clear. induction (map_iter Nat.compare M).*2 as [|l ls IH]; [done|].
    rewrite filter_cons. csimpl. case_decide; csimpl; [by apply sublist_app|by apply sublist_inserts_l].
  - apply sort_by_sorted, _.
  - intros grp. rewrite sort_by_perm, list_elem_of_filter. intros [Hlen [c Hc]%Hin].
    destruct (member_list membership c grp Hc) as [Hnd Hx]. split_and!; [done..|by exists c].
Qed.

(** The members of a community. *)
Definition community_of (out : gmap string nat) (c : nat) : gset string := dom (filter (λ e, e.2 = c) out).

Section theorems.
Context `{P : Petgraph}.

Lemma asserted_path g u :
  un_names u = btree_keys (entities g) →
  (∀ i j, adj_edge (un_adjacency u) i j →
     ∃ a b, un_names u !! i = Some a ∧ un_names u !! j = Some b ∧ asserted g a b) →
  ∀ i j a b, connected (un_adjacency u) i j → un_names u !! i = Some a → un_names u !! j = Some b → rtc (asserted g) a b.
Proof.
  intros Hnames Hedge i j a b Hpath. revert a. induction Hpath as [i|i k j Hik _ IH]; intros a Ha Hb.
  - simplify_eq. done.
  - assert (∃ x y, un_names u !! i = Some x ∧ un_names u !! k = Some y ∧ asserted g x y) as (x & y & Hx & Hy & Hxy).
    { destruct Hik as [Hik|Hki]; [by apply Hedge|]. destruct (Hedge k i Hki) as (x & y & Hx & Hy & (r & Hr & Hrel)).
      exists y, x. split_and!; [done..|]. exists r. tauto. }
    simplify_eq. eapply rtc_l; [exact Hxy|]. by apply IH.
Qed.

(** What [communities] computes: labels of entities, connected by relations,
    numbered from 0 by size. *)
Record community_labels g (out : gmap string nat) : Prop := {
  cl_entities a c : out !! a = Some c → is_Some (entities g !! a);
  cl_connected a b c : out !! a = Some c → out !! b = Some c → rtc (asserted g) a b;
  cl_sizes a c c' : out !! a = Some c → (c' ≤ c)%nat →
    (1 < size (community_of out c') ∧ size (community_of out c) ≤ size (community_of out c'))%nat;
}.

Lemma label_names_size (names : list string) grp :
  NoDup names → NoDup grp → (∀ node, node ∈ grp → is_Some (names !! node)) →
  size (list_to_set (omap (names !!.) grp) : gset string) = length grp.
Proof.
  intros Hndn Hndg Hall. induction Hndg as [|node grp Hnode Hndg IH]; [done|].
  destruct (Hall node) as [x Hx]; [by left|]. cbn [omap list_omap]. rewrite Hx. cbn [list_to_set length].
  rewrite size_union, size_singleton, IH; [done|intros y Hy; apply Hall; by right|].
  intros y ->%elem_of_singleton (node' & Hn' & Hy)%elem_of_list_to_set%list_elem_of_omap. apply Hnode.
  by rewrite (NoDup_lookup _ node node' x Hndn Hx Hy).
Qed.

Lemma communities_spec g : ∃ out, communities g = Some out ∧ community_labels g out.
Proof.
  destruct (undirected_spec g) as (u & Hu & Hnames & Hlen & Hwf & Hedge). unfold communities. rewrite Hu. cbn [mbind option_bind].
  set (n := length (un_names u)).
  destruct (communities_loop_spec (un_adjacency u) n (seq 0 n) (un_adjacency u)) as (membership & -> & Hml & Hconn); [|unfold n; lia|].
  { split.
    - by rewrite length_seq.
    - done.
    - intros x a [-> Hx]%lookup_seq. rewrite Hlen. done.
    - intros a Ha. exists a. apply lookup_seq. split; [done|]. unfold n. lia.
    - intros x y a [-> _]%lookup_seq [Heq _]%lookup_seq. simpl in Heq. by subst.
    - intros a b x y Hab [-> _]%lookup_seq [-> _]%lookup_seq. apply rtc_once. by left. }
  cbn [mbind option_bind]. set (groups := sort_by group_cmp _).
  destruct (groups_spec membership) as (Hnd & Hsorted & Hgroups). fold groups in Hnd, Hsorted, Hgroups.
  assert (NoDup (un_names u)) as Hndn.
  { rewrite Hnames. apply btree_iter_keys_NoDup. }
  assert (∀ grp node, grp ∈ groups → node ∈ grp → is_Some (un_names u !! node)) as Hnode.
  { intros grp node Hg Hn. destruct (Hgroups grp Hg) as (_ & _ & c & Hc). apply Hc in Hn.
    apply lookup_lt_is_Some. apply lookup_lt_Some in Hn. lia. }
  destruct (labels_spec (un_names u) groups Hndn Hnd) as (out & -> & Hout).
  { intros node (grp & Hn & Hg)%list_elem_of_join. by eapply Hnode. }
  assert (∀ c grp, groups !! c = Some grp → size (community_of out c) = length grp) as Hsize.
  { intros c grp Hc. assert (grp ∈ groups) as Hg by by eapply list_elem_of_lookup_2.
    destruct (Hgroups grp Hg) as (_ & Hndg & _). rewrite <-(label_names_size (un_names u) grp) by eauto. f_equal.
    apply set_eq. intros x. unfold community_of. rewrite elem_of_dom, elem_of_list_to_set. unfold is_Some.
    setoid_rewrite map_lookup_filter_Some. simpl. split.
    - intros (k & Hk & ->). apply Hout in Hk as (grp' & Hk & Hx). by simplify_eq.
    - intros Hx. exists c. split; [|done]. apply Hout. by exists grp. }
  exists out. split; [done|]. split.
  - intros a c (grp & _ & Ha)%Hout. apply list_elem_of_omap in Ha as (node & _ & Ha). apply list_elem_of_lookup_2 in Ha.
    rewrite Hnames in Ha. unfold btree_keys in Ha. apply list_elem_of_fmap in Ha as ([k e] & -> & He%elem_of_btree_iter).
    by eexists.
  - intros a b c (grp & Hc & Ha)%Hout (grp' & Hc' & Hb)%Hout. simplify_eq.
    apply list_elem_of_omap in Ha as (i & Hi & Ha), Hb as (j & Hj & Hb).
    destruct (Hgroups grp) as (_ & _ & k & Hk); [by eapply list_elem_of_lookup_2|].
    eapply asserted_path; [exact Hnames|exact Hedge| |exact Ha|exact Hb]. eapply Hconn; by apply Hk.
  - intros a c c' (grp & Hc & _)%Hout Hle. assert (∃ grp', groups !! c' = Some grp') as [grp' Hc'].
    { apply lookup_lt_is_Some. apply lookup_lt_Some in Hc. lia. }
    rewrite (Hsize c grp Hc), (Hsize c' grp' Hc'). destruct (Hgroups grp') as (Hlt & _); [by eapply list_elem_of_lookup_2|].
    split; [done|]. destruct (decide (c' = c)) as [->|Hne]; [by simplify_eq|].
    assert (cmp_le group_cmp grp' grp) as Hcmp by (unshelve eapply (StronglySorted_lookup _ groups c' c grp' grp Hsorted); [|exact Hle|done..];
      intros x; by destruct (cmp_le_total x x)).
    unfold cmp_le, group_cmp, then_with in Hcmp. destruct (Nat.compare_spec (length grp) (length grp')); [lia|lia|done].
Qed.

(** C34: Topic communities: the computation ends without a panic; only entities
    are labelled, and two entities in the same community are connected by
    relations; every label in use is shared by at least two entities, the
    labels are numbered from 0, larger communities first. *)
Theorem communities_connected g :
  ∃ out, communities g = Some out
    ∧ (∀ a c, out !! a = Some c → is_Some (entities g !! a))
    ∧ (∀ a b c, out !! a = Some c → out !! b = Some c → rtc (asserted g) a b)
    ∧ ∀ a c c', out !! a = Some c → (c' ≤ c)%nat →
        (1 < size (community_of out c') ∧ size (community_of out c) ≤ size (community_of out c'))%nat.
Proof. destruct (communities_spec g) as (out & Hout & []). by exists out. Qed.

(** ** Importance *)

Lemma spread_ok next st r nb :
  (∀ j w, (j, w) ∈ nb → (j < length next)%nat) → ∃ next', spread next (st, r, nb) = Some next' ∧ length next' = length next.
Proof.
  intros Hnb. unfold spread. case_match; [by exists next|].
  apply (try_fold_total _ (λ next', length next' = length next)); [|done].
  intros s [j w] Hin Hs. simpl. destruct (lookup_lt_is_Some_2 s j) as [x ->]; [rewrite Hs; by eapply Hnb|].
  simpl. eexists. split; [done|]. by rewrite length_insert.
Qed.

Lemma pagerank_total u teleport strengths iterations rank :
  adj_wf (un_adjacency u) → length teleport = length (un_adjacency u) → length rank = length teleport →
  ∃ rank', pagerank u teleport strengths iterations rank = Some rank' ∧ length rank' = length teleport.
Proof.
  intros Hwf Hlen. revert rank. induction iterations as [|k IH]; intros rank Hrank; [by exists rank|]. cbn [pagerank].
  assert (∃ next, pagerank_step u teleport strengths rank = Some next ∧ length next = length teleport) as (next & -> & Hnext).
  { unfold pagerank_step. apply (try_fold_total _ (λ next, length next = length teleport)); [|by rewrite length_fmap].
    intros next [[st r] nb] Hin Hnext. destruct (spread_ok next st r nb) as (next' & ? & ?).
    - intros j w Hj. rewrite Hnext, Hlen. apply list_elem_of_lookup in Hin as [i Hi].
      apply lookup_zip_Some in Hi as [_ Hi]. apply (Hwf i). by exists nb, w.
    - exists next'. split; [done|congruence]. }
  cbn [mbind option_bind]. case_match; [by exists next|by apply IH].
Qed.

(** Every entity, and nothing else, has an importance. *)
Lemma importance_total `{L : Libm64} g : ∃ m, importance g = Some m ∧ dom m = dom (entities g).
Proof.
  destruct (undirected_spec g) as (u & Hu & Hnames & Hlen & Hwf & _). unfold importance. rewrite Hu. cbn [mbind option_bind].
  assert (∀ a, a ∈ un_names u ↔ a ∈ dom (entities g)) as Hin.
  { intros a. rewrite Hnames. unfold btree_keys. rewrite list_elem_of_fmap, elem_of_dom. split.
    - intros ([k e] & -> & He%elem_of_btree_iter). by eexists.
    - intros [e He]. exists (a, e). split; [done|]. by apply elem_of_btree_iter. }
  case_bool_decide as He.
  { exists ∅. split; [done|]. apply set_eq. intros a. rewrite <-Hin, He, dom_empty_L. set_solver. }
  set (raw := (λ n, f64_add f64_one (f64_ln_1p (mentions g n))) <$> un_names u).
  set (teleport := (λ t, f64_div t (f64_sum raw)) <$> raw).
  assert (length teleport = length (un_names u)) as Htl by (unfold teleport, raw; by rewrite !length_fmap).
  destruct (pagerank_total u teleport (strength <$> un_adjacency u) PAGERANK_ITERATIONS teleport Hwf)
    as (rank & -> & Hrank); [by rewrite Htl, Hlen|done|].
  cbn [mbind option_bind]. eexists. split; [done|]. apply set_eq. intros a. rewrite <-Hin, dom_list_to_map_L, elem_of_list_to_set.
  assert (∀ (f : string → f64 → string * f32) ns (rs : list f64), (∀ n r, (f n r).1 = n) → length rs = length ns →
    (zip_with f ns rs).*1 = ns) as Hzip.
  { intros f ns. induction ns as [|n ns IH]; intros [|r rs] Hf Hl; try done. simpl. rewrite Hf. f_equal. apply IH; [done|].
    simpl in Hl. lia. }
  rewrite Hzip; [done|done|]. congruence.
Qed.
End theorems.
