(* ===== verification/EntityGraphWf.v ===== *)
(** * Well-formedness of the entity graph

    The two node maps mirror petgraph's node list, every entity has a node
    and is stored under its own name, aliases point at existing entities, and
    no two edges share endpoints and type.  Each mutating operation keeps
    all of this; the swap-remove in [remove_entity] is the delicate case. *)

From S2P Require Import Prelude RustStd Collections F32 Types Petgraph EntityGraph.

(** ** Lists *)

Lemma swap_remove_lookup {A} i (v : list A) j :
  i < length v →
  swap_remove i v !! j
  = if decide (j + 1 < length v) then if decide (j = i) then last v else v !! j else None.
Proof.
  intros Hi. unfold swap_remove. rewrite last_lookup.
  destruct (lookup_lt_is_Some_2 v (length v - 1)) as [x Hx]; [lia|].
  replace (pred (length v)) with (length v - 1) by lia. rewrite Hx.
  repeat case_decide; subst; try lia.
  - rewrite lookup_take_lt by lia. done.
  - rewrite lookup_take_ge by lia. done.
  - rewrite list_lookup_insert_eq; [done|]. rewrite length_take. lia.
  - rewrite list_lookup_insert_ne by done. by rewrite lookup_take_lt by lia.
  - rewrite lookup_ge_None_2; [done|]. rewrite length_insert, length_take. lia.
Qed.

Definition edge_key (e : nat * nat * EdgeData) : nat * nat * RelationType :=
  (e.1.1, e.1.2, relation_type e.2).

(** [filter] commutes with a partial map that reflects the predicate. *)
Lemma omap_filter_strong {A B} (f : A → option B) (P : A → Prop) (Q : B → Prop)
    `{!∀ x, base.Decision (P x), !∀ y, base.Decision (Q y)} (l : list A) :
  (∀ x y, x ∈ l → f x = Some y → P x ↔ Q y) →
  omap f (filter P l) = filter Q (omap f l).
Proof.
  induction l as [|x l IH]; intros Hf; [done|].
  assert (∀ x' y, x' ∈ l → f x' = Some y → P x' ↔ Q y) as Hl.
  { intros x' y Hx'. apply Hf. by right. }
  specialize (IH Hl). specialize (λ y, Hf x y (list_elem_of_here _ _)).
  destruct (f x) as [y|] eqn:Hx.
  - specialize (Hf y eq_refl). rewrite filter_cons. csimpl. rewrite Hx, filter_cons.
    destruct (decide (P x)), (decide (Q y)); try tauto; csimpl; rewrite ?Hx; by f_equal.
  - rewrite filter_cons. csimpl. rewrite Hx. case_decide; csimpl; by rewrite ?Hx.
Qed.

Lemma omap_ext_in {A B} (f h : A → option B) (l : list A) :
  (∀ x, x ∈ l → f x = h x) → omap f l = omap h l.
Proof.
  induction l as [|x l IH]; intros Hf; [done|]. csimpl.
  rewrite (Hf x), IH by (try (intros; apply Hf); by constructor). done.
Qed.

Section wf.
Context `{U : Unicode} `{P : Petgraph} `{L : !PetgraphLaws}.
Implicit Types (g : SimpleEntityGraph) (n : string).

(** The maps mirror the node list. *)
Record index_wf (g : SimpleEntityGraph) : Prop := {
  wf_n2e i n : node_to_entity g !! i = Some n ↔ node_weight (graph g) i = Some n;
  wf_e2n n i : entity_to_node g !! n = Some i ↔ node_weight (graph g) i = Some n;
}.

Record graph_wf (g : SimpleEntityGraph) : Prop := {
  wf_index : index_wf g;
  wf_dom n : is_Some (entities g !! n) ↔ is_Some (entity_to_node g !! n);
  wf_name n e : entities g !! n = Some e → ed_name e = n;
  wf_alias k n : alias_index g !! k = Some n → is_Some (entities g !! n);
  wf_edges : NoDup (edge_key <$> graph_triples (graph g));
}.

Lemma node_weight_unique g i j n :
  index_wf g → node_weight (graph g) i = Some n → node_weight (graph g) j = Some n → i = j.
Proof. intros [_ H] Hi%H Hj%H. congruence. Qed.

Lemma node_in_range g n i :
  index_wf g → entity_to_node g !! n = Some i → i < node_count (graph g).
Proof. intros [_ H] Hi%H. by apply lookup_lt_Some in Hi. Qed.

(** ** Adding a node *)

Lemma add_graph_node_eq name g :
  add_graph_node name g
  = mkGraph _ (entities g) (entity_mentions g) (add_node (graph g) name).1
      (<[name := node_count (graph g)]> (entity_to_node g))
      (<[node_count (graph g) := name]> (node_to_entity g)) (alias_index g).
Proof.
  unfold add_graph_node. destruct (add_node (graph g) name) as [gr i] eqn:Ha.
  pose proof (add_node_index (graph g) name) as Hi. rewrite Ha in Hi. simpl in Hi.
  by subst i.
Qed.

Lemma add_node_weight gr name i :
  node_weight (add_node gr name).1 i
  = if decide (i = node_count gr) then Some name else node_weight gr i.
Proof.
  unfold node_weight. rewrite add_node_nodes. case_decide as Hd.
  - subst. unfold node_count. by rewrite lookup_app_r, Nat.sub_diag by lia.
  - destruct (decide (i < node_count gr)).
    + by rewrite lookup_app_l.
    + unfold node_count in *. rewrite !lookup_ge_None_2; [done|lia|].
      rewrite length_app. simpl. lia.
Qed.

Lemma add_graph_node_index name g :
  index_wf g → entity_to_node g !! name = None → index_wf (add_graph_node name g).
Proof.
  intros Hwf Hnone. pose proof Hwf as [Hn He]. rewrite add_graph_node_eq.
  assert (∀ i, node_weight (graph g) i ≠ Some name) as Hfresh.
  { intros i Hi%He. congruence. }
  assert (node_weight (graph g) (node_count (graph g)) = None) as Hend.
  { apply lookup_ge_None_2. done. }
  split; simpl.
  - intros i n. rewrite add_node_weight. destruct (decide (i = node_count (graph g))) as [->|].
    + by rewrite lookup_insert_eq.
    + rewrite lookup_insert_ne by done. apply Hn.
  - intros n i. rewrite add_node_weight. destruct (decide (n = name)) as [->|].
    + rewrite lookup_insert_eq. case_decide; [by subst|]. split; [congruence|]. by intros ?%Hfresh.
    + rewrite lookup_insert_ne, He by done. case_decide; [|done]. subst.
      rewrite Hend. split; congruence.
Qed.

(** ** Removing a node *)

Lemma remove_node_weight gr i j :
  i < node_count gr →
  node_weight (remove_node gr i) j
  = if decide (j + 1 < node_count gr)
    then if decide (j = i) then node_weight gr (node_count gr - 1) else node_weight gr j
    else None.
Proof.
  intros Hi. unfold node_weight. rewrite remove_node_nodes by done.
  rewrite swap_remove_lookup by done. unfold node_count.
  repeat case_decide; try done. rewrite last_lookup. f_equal. lia.
Qed.

Lemma remove_entity_false name g :
  entity_to_node g !! name = None → remove_entity name g = (g, false).
Proof. unfold remove_entity. by intros ->. Qed.

(** The last node, when it is not the removed one, moves into its slot. *)
Lemma remove_entity_moved name g i last_name :
  index_wf g → entity_to_node g !! name = Some i → i + 1 < node_count (graph g) →
  node_weight (graph g) (node_count (graph g) - 1) = Some last_name →
  (remove_entity name g).1
  = mkGraph _ (delete name (entities g)) (delete name (entity_mentions g))
      (remove_node (graph g) i)
      (<[last_name := i]> (delete name (entity_to_node g)))
      (<[i := last_name]>
         (delete (node_count (graph g) - 1) (delete i (node_to_entity g))))
      (filter (λ kv, kv.2 ≠ name) (alias_index g)).
Proof.
  intros Hwf Hi Hlt Hlast. pose proof Hwf as [_ He].
  unfold remove_entity. rewrite Hi, remove_node_weight by lia.
  rewrite decide_True, decide_True, Hlast by done.
  rewrite lookup_delete_ne.
  - by apply He in Hlast as ->.
  - intros ->. apply He in Hlast. simplify_eq. lia.
Qed.

Lemma remove_entity_last name g i :
  index_wf g → entity_to_node g !! name = Some i → i + 1 = node_count (graph g) →
  (remove_entity name g).1
  = mkGraph _ (delete name (entities g)) (delete name (entity_mentions g))
      (remove_node (graph g) i) (delete name (entity_to_node g))
      (delete i (node_to_entity g))
      (filter (λ kv, kv.2 ≠ name) (alias_index g)).
Proof.
  intros Hwf Hi Hlt. unfold remove_entity. rewrite Hi, remove_node_weight by lia.
  by rewrite decide_False by lia.
Qed.

(** Case analysis on which of the two happened. *)
Lemma remove_entity_cases name g i :
  index_wf g → entity_to_node g !! name = Some i →
  i + 1 = node_count (graph g)
  ∨ i + 1 < node_count (graph g)
    ∧ ∃ last_name, node_weight (graph g) (node_count (graph g) - 1) = Some last_name
                   ∧ last_name ≠ name.
Proof.
  intros Hwf Hi. pose proof (node_in_range _ _ _ Hwf Hi) as Hlt.
  destruct (decide (i + 1 = node_count (graph g))); [by left|right]. split; [lia|].
  destruct (lookup_lt_is_Some_2 (node_weights (graph g)) (node_count (graph g) - 1))
    as [m Hn]; [unfold node_count in *; lia|].
  exists m. split; [done|]. intros ->. apply wf_e2n in Hi; [|done].
  pose proof (node_weight_unique _ _ _ _ Hwf Hi Hn). lia.
Qed.

Lemma remove_entity_index name g i :
  index_wf g → entity_to_node g !! name = Some i → index_wf (remove_entity name g).1.
Proof.
  intros Hwf Hi. pose proof Hwf as [Hn He].
  pose proof (node_in_range _ _ _ Hwf Hi) as Hlt.
  pose proof (proj1 (He _ _) Hi) as Hwi.
  assert (∀ j n, node_weight (graph g) j = Some n → j < node_count (graph g)) as Hrange.
  { intros j n H%lookup_lt_Some. done. }
  destruct (remove_entity_cases _ _ _ Hwf Hi) as [Hl|(Hl & ln & Hln & Hne)].
  - rewrite (remove_entity_last _ _ _ Hwf Hi Hl). split; simpl.
    + intros j n. rewrite remove_node_weight by done. rewrite lookup_delete.
      repeat case_decide; subst; try lia; [done|apply Hn|].
      rewrite Hn. split; [intros ?%Hrange; lia|done].
    + intros n j. rewrite remove_node_weight by done. rewrite lookup_delete.
      destruct (decide (j + 1 < _)); [rewrite (decide_False (P := j = i)) by lia|].
      * case_decide; subst; [|apply He]. split; [done|]. intros H%He. simplify_eq; lia.
      * case_decide; subst; [done|]. rewrite He. split; [|done]. intros Hj.
        pose proof (Hrange _ _ Hj). assert (j = i) by lia. congruence.
  - rewrite (remove_entity_moved _ _ _ _ Hwf Hi Hl Hln). split; simpl.
    + intros j n. rewrite remove_node_weight by done. rewrite lookup_insert, !lookup_delete.
      destruct (decide (i = j)) as [->|].
      { rewrite !decide_True by (done || lia). by rewrite Hln. }
      rewrite (decide_False (P := j = i)) by done.
      specialize (Hn j n). specialize (Hrange j n).
      repeat case_decide; subst; try lia; try done; rewrite Hn.
      split; [intros ?%Hrange; lia|done].
    + intros n j. rewrite remove_node_weight by done. rewrite lookup_insert, lookup_delete.
      assert (∀ m, node_weight (graph g) j = Some m → m = ln ↔ j = node_count (graph g) - 1)
        as Hj.
      { intros m Hm. split; [intros ->|intros ->; congruence].
        by eapply node_weight_unique. }
      assert (∀ m, node_weight (graph g) j = Some m → m = name ↔ j = i) as Hj'.
      { intros m Hm. split; [intros ->|intros ->; congruence].
        by eapply node_weight_unique. }
      specialize (He n j). specialize (Hrange j).
      destruct (node_weight (graph g) j) as [m|] eqn:Hm;
        [specialize (Hj _ eq_refl); specialize (Hj' _ eq_refl);
         specialize (Hrange _ eq_refl)|];
        repeat case_decide; subst; rewrite ?Hln; try rewrite He;
        intuition (try congruence; try lia); simplify_eq; intuition (try congruence; try lia).
      exfalso. assert (j = node_count (graph g) - 1) by lia. intuition congruence.
Qed.

Lemma remove_entity_e2n_dom name g i n :
  index_wf g → entity_to_node g !! name = Some i →
  is_Some (entity_to_node (remove_entity name g).1 !! n)
  ↔ n ≠ name ∧ is_Some (entity_to_node g !! n).
Proof.
  intros Hwf Hi. pose proof Hwf as [_ He].
  destruct (remove_entity_cases _ _ _ Hwf Hi) as [Hl|(Hl & ln & Hln & Hne)].
  - rewrite (remove_entity_last _ _ _ Hwf Hi Hl). simpl. rewrite lookup_delete_is_Some.
    naive_solver.
  - rewrite (remove_entity_moved _ _ _ _ Hwf Hi Hl Hln). simpl.
    rewrite lookup_insert_is_Some, lookup_delete_is_Some. apply He in Hln.
    destruct (decide (ln = n)) as [->|]; [|intuition congruence].
    split; [|by left]. intros _. split; [done|by eexists].
Qed.

(** ** The relations a graph stores, by name *)

Definition triple_ref (gr : DiGraph) (t : nat * nat * EdgeData) : option RelationRef :=
  from ← node_weight gr t.1.1;
  to ← node_weight gr t.1.2;
  Some (mkRelationRef from to (relation_type t.2) (context t.2)).

Definition named_edges (gr : DiGraph) : list RelationRef :=
  omap (triple_ref gr) (graph_triples gr).

Lemma relation_ref_triple g e : relation_ref g e = triple_ref (graph g) (edge_triple e).
Proof. done. Qed.

Lemma relationships_named g : relationships g = named_edges (graph g).
Proof.
  unfold relationships, named_edges, graph_triples.
  induction (edge_references (graph g)) as [|e es IH]; [done|].
  csimpl. rewrite IH. done.
Qed.

Lemma triples_in_range gr t :
  t ∈ graph_triples gr → t.1.1 < node_count gr ∧ t.1.2 < node_count gr.
Proof.
  unfold graph_triples. intros (e & -> & He)%list_elem_of_fmap.
  apply (edge_ends_in_range _ _ He).
Qed.

Lemma triple_ref_is_Some gr t : t ∈ graph_triples gr → is_Some (triple_ref gr t).
Proof.
  intros [Ha Hb]%triples_in_range. unfold triple_ref, node_weight.
  apply lookup_lt_is_Some in Ha as [a ->]. apply lookup_lt_is_Some in Hb as [b ->].
  by eexists.
Qed.

Lemma triple_ref_inv gr t r :
  triple_ref gr t = Some r →
  node_weight gr t.1.1 = Some (rr_from r) ∧ node_weight gr t.1.2 = Some (rr_to r)
  ∧ rr_relation_type r = relation_type t.2 ∧ rr_context r = context t.2.
Proof.
  unfold triple_ref. destruct (node_weight gr t.1.1); simpl; [|done].
  destruct (node_weight gr t.1.2); simpl; [|done]. by intros [= <-].
Qed.

Lemma moved_weight gr i j :
  i < node_count gr → j < node_count gr → j ≠ i →
  node_weight (remove_node gr i) (moved_index i (node_count gr) j) = node_weight gr j.
Proof.
  intros Hi Hj Hne. rewrite remove_node_weight by done. unfold moved_index.
  destruct (decide (j + 1 = node_count gr)).
  - rewrite decide_True, decide_True by (done || lia). f_equal. lia.
  - by rewrite decide_True, decide_False by (done || lia).
Qed.

(** Removing a node removes the relations touching it and no other. *)
Lemma named_edges_remove_node gr i name :
  node_weight gr i = Some name → (∀ j, node_weight gr j = Some name → j = i) →
  named_edges (remove_node gr i)
  ≡ₚ filter (λ r, rr_from r ≠ name ∧ rr_to r ≠ name) (named_edges gr).
Proof.
  intros Hi Huniq. pose proof (lookup_lt_Some _ _ _ Hi) as Hlt.
  unfold named_edges at 1. rewrite (remove_node_edges _ _ Hlt).
  rewrite omap_fmap_comp.
  transitivity (omap (triple_ref gr) (filter (λ e, ¬ touches i e) (graph_triples gr))).
  - erewrite omap_ext_in; [done|]. intros t [Ht Hin]%list_elem_of_filter.
    apply triples_in_range in Hin as [Ha Hb]. unfold touches in Ht.
    unfold triple_ref, rename_ends. simpl. rewrite !moved_weight by tauto. done.
  - unfold named_edges. rewrite (omap_filter_strong _ _
      (λ r, rr_from r ≠ name ∧ rr_to r ≠ name)); [done|].
    intros t r Ht (Ha & Hb & _)%triple_ref_inv. unfold touches.
    split.
    + intros Hn. split; intros Heq; apply Hn; rewrite Heq in *; eauto.
    + intros [Hna Hnb] [Heq|Heq]; rewrite Heq in *; congruence.
Qed.

Lemma remove_entity_fields name g i :
  index_wf g → entity_to_node g !! name = Some i →
  let g' := (remove_entity name g).1 in
  entities g' = delete name (entities g)
  ∧ entity_mentions g' = delete name (entity_mentions g)
  ∧ graph g' = remove_node (graph g) i
  ∧ alias_index g' = filter (λ kv, kv.2 ≠ name) (alias_index g)
  ∧ (remove_entity name g).2 = true.
Proof.
  intros Hwf Hi. split_and!.
  all: try solve [destruct (remove_entity_cases _ _ _ Hwf Hi) as [Hl|(Hl & ln & Hln & _)];
    [by rewrite (remove_entity_last _ _ _ Hwf Hi Hl)
    |by rewrite (remove_entity_moved _ _ _ _ Hwf Hi Hl Hln)]].
  unfold remove_entity. rewrite Hi. by repeat case_match.
Qed.

(** Renaming after a removal keeps distinct edges distinct. *)
Lemma moved_index_inj (i c j k : nat) :
  i < c → j < c → k < c → j ≠ i → k ≠ i → moved_index i c j = moved_index i c k → j = k.
Proof. unfold moved_index. repeat case_decide; lia. Qed.

Lemma remove_node_keys gr i :
  i < node_count gr → NoDup (edge_key <$> graph_triples gr) →
  NoDup (edge_key <$> graph_triples (remove_node gr i)).
Proof.
  intros Hi Hnd. rewrite (remove_node_edges _ _ Hi).
  set (f := moved_index i (node_count gr)).
  assert (edge_key <$> (rename_ends f <$> filter (λ e, ¬ touches i e) (graph_triples gr))
          = (λ k, (f k.1.1, f k.1.2, k.2))
              <$> (edge_key <$> filter (λ e, ¬ touches i e) (graph_triples gr))) as ->.
  { by rewrite <-!list_fmap_compose. }
  apply NoDup_fmap_2_strong; [|by apply NoDup_fmap_filter].
  assert (∀ k, k ∈ edge_key <$> filter (λ e, ¬ touches i e) (graph_triples gr) →
               (k.1.1 ≠ i ∧ k.1.1 < node_count gr) ∧ k.1.2 ≠ i ∧ k.1.2 < node_count gr)
    as Hk.
  { intros k (t & -> & [Ht Hin]%list_elem_of_filter)%list_elem_of_fmap.
    apply triples_in_range in Hin. unfold touches, edge_key in *. simpl. tauto. }
  intros [[a b] r] [[a' b'] r'] [[? ?] [? ?]]%Hk [[? ?] [? ?]]%Hk [= Ha Hb ->]. simpl in *.
  do 2 f_equal; by apply (moved_index_inj i (node_count gr)).
Qed.

Lemma remove_entity_wf name g : graph_wf g → graph_wf (remove_entity name g).1.
Proof.
  intros Hwf. destruct (entity_to_node g !! name) as [i|] eqn:Hi;
    [|by rewrite remove_entity_false].
  pose proof Hwf as [Hidx Hdom Hname Halias Hedges].
  destruct (remove_entity_fields _ _ _ Hidx Hi) as (He & _ & Hg & Ha & _).
  split.
  - by eapply remove_entity_index.
  - intros n. rewrite (remove_entity_e2n_dom _ _ _ _ Hidx Hi), He, lookup_delete_is_Some, Hdom.
    naive_solver.
  - intros n e. rewrite He, lookup_delete_Some. intros [_ ?]. eauto.
  - intros k n. rewrite Ha, He, map_lookup_filter_Some. simpl. intros [Hk Hn].
    rewrite lookup_delete_is_Some. eauto.
  - rewrite Hg. apply remove_node_keys; [|done]. by eapply node_in_range.
Qed.

(** ** Operations on entities and aliases *)

(** Replacing the data of a known entity. *)
Lemma alter_entity_wf f n g :
  (∀ e, ed_name (f e) = ed_name e) → graph_wf g → graph_wf (with_entities (alter f n) g).
Proof.
  intros Hf [[Hn He] Hdom Hname Halias Hedges]. split; simpl; [done| | | |done].
  - intros m. by rewrite lookup_alter_is_Some.
  - intros m e. rewrite lookup_alter_Some. intros [(<- & e' & Hm & ->)|[_ Hm]]; [|eauto].
    rewrite Hf. eauto.
  - intros k m Hk. rewrite lookup_alter_is_Some. eauto.
Qed.

Lemma insert_entity_wf n e e' g :
  entities g !! n = Some e → ed_name e' = n → graph_wf g →
  graph_wf (with_entities (<[n := e']>) g).
Proof.
  intros Hn He' [[Hnn Hee] Hdom Hname Halias Hedges]. split; simpl; [done| | | |done].
  - intros m. rewrite <-Hdom, lookup_insert_is_Some'. split; [|by right].
    intros [<-|?]; [by eexists|done].
  - intros m x. rewrite lookup_insert_Some. intros [[<- <-]|[_ ?]]; eauto.
  - intros k m Hk. rewrite lookup_insert_is_Some'. right. eauto.
Qed.

Lemma or_insert_lookup k v m k' v' :
  or_insert k v m !! k' = Some v' → m !! k' = Some v' ∨ v' = v.
Proof.
  unfold or_insert. destruct (m !! k) eqn:?; [by left|].
  rewrite lookup_insert_Some. naive_solver.
Qed.

Lemma foldl_alias_lookup (step : string → string → gmap string string → gmap string string)
    (keys : list string) v m k' v' :
  (∀ k m k' v', step k v m !! k' = Some v' → m !! k' = Some v' ∨ v' = v) →
  foldl (λ m key, step key v m) m keys !! k' = Some v' → m !! k' = Some v' ∨ v' = v.
Proof.
  intros Hs. revert m. induction keys as [|k keys IH]; intros m; simpl; [by left|].
  intros [H|]%IH; [|by right]. by apply Hs in H.
Qed.

Lemma with_alias_wf f g :
  (∀ k n, f (alias_index g) !! k = Some n → is_Some (entities g !! n)) →
  graph_wf g → graph_wf (with_alias_index f g).
Proof. intros Hf [[Hn He] Hdom Hname Halias Hedges]. by split. Qed.

Lemma with_mentions_wf f g : graph_wf g → graph_wf (with_mentions f g).
Proof. intros [[Hn He] Hdom Hname Halias Hedges]. by split. Qed.

Lemma index_names_wf n g : graph_wf g → graph_wf (index_names n g).
Proof.
  intros Hwf. unfold index_names. destruct (entities g !! n) as [e|] eqn:He; [|done].
  apply with_alias_wf; [|done]. intros k m Hk.
  apply (foldl_alias_lookup or_insert) in Hk as [Hk| ->].
  - by eapply wf_alias.
  - by eexists.
  - intros. by eapply or_insert_lookup.
Qed.

Lemma claim_names_wf n g : graph_wf g → graph_wf (claim_names n g).
Proof.
  intros Hwf. unfold claim_names. destruct (entities g !! n) as [e|] eqn:He; [|done].
  apply with_alias_wf; [|done]. intros k m Hk.
  apply (foldl_alias_lookup (λ k v, <[k := v]>)) in Hk as [Hk| ->].
  - by eapply wf_alias.
  - by eexists.
  - intros ???? [[_ <-]|[_ ?]]%lookup_insert_Some; auto.
Qed.

Lemma resolve_is_Some g n m : graph_wf g → resolve g n = Some m → is_Some (entities g !! m).
Proof.
  intros Hwf. unfold resolve. destruct (entities g !! n) eqn:Hn.
  - intros [= <-]. by eexists.
  - by apply wf_alias.
Qed.

Lemma resolve_default_node g n :
  graph_wf g → entity_to_node g !! default n (resolve g n) = None → resolve g n = None.
Proof.
  intros Hwf Hnone. destruct (resolve g n) as [m|] eqn:Hr; [|done]. simpl in *.
  apply resolve_is_Some, wf_dom in Hr as [??]; [congruence|done|done].
Qed.

Lemma add_alias_name written e : ed_name (add_alias written e) = ed_name e.
Proof. unfold add_alias. by case_decide. Qed.

Lemma note_alias_wf n alias g : graph_wf g → graph_wf (note_alias n alias g).
Proof.
  intros Hwf. unfold note_alias. destruct (resolve g n) as [c|] eqn:Hr; [|done].
  apply with_alias_wf.
  - simpl. intros k m [Hk| ->]%or_insert_lookup; rewrite lookup_alter_is_Some.
    + by eapply wf_alias.
    + by eapply resolve_is_Some.
  - apply alter_entity_wf; [|done]. apply add_alias_name.
Qed.

(** ** Recording entities *)

Lemma add_graph_node_triples name g :
  graph_triples (graph (add_graph_node name g)) = graph_triples (graph g).
Proof.
  rewrite add_graph_node_eq. simpl. unfold graph_triples. by rewrite add_node_edges.
Qed.

Lemma new_node_wf name e g :
  ed_name e = name → entity_to_node g !! name = None → graph_wf g →
  graph_wf (add_graph_node name (with_entities (<[name := e]>) g)).
Proof.
  intros He Hnone [Hidx Hdom Hname Halias Hedges].
  assert (index_wf (with_entities (<[name := e]>) g)) as Hidx'.
  { destruct Hidx. by split. }
  pose proof (add_graph_node_index name _ Hidx' Hnone) as Hidx''.
  split; [done| | | |].
  - intros n. rewrite add_graph_node_eq. simpl.
    by rewrite !lookup_insert_is_Some', Hdom.
  - intros n x. rewrite add_graph_node_eq. simpl.
    rewrite lookup_insert_Some. intros [[<- <-]|[_ ?]]; eauto.
  - intros k n. rewrite add_graph_node_eq. simpl. rewrite lookup_insert_is_Some'. eauto.
  - by rewrite add_graph_node_triples.
Qed.

Lemma ensure_node_wf name e g :
  ed_name e = name → graph_wf g →
  graph_wf (ensure_graph_node name (with_entities (<[name := e]>) g)).
Proof.
  intros He Hwf. unfold ensure_graph_node. simpl.
  destruct (entity_to_node g !! name) as [i|] eqn:Hi; [|by apply new_node_wf].
  destruct (proj2 (wf_dom _ Hwf name)) as [x Hx]; [by eexists|].
  by eapply insert_entity_wf.
Qed.

Lemma mention_again_name t d w e : ed_name (mention_again t d w e) = ed_name e.
Proof. unfold mention_again. by rewrite add_alias_name. Qed.

Lemma add_or_update_wf name ty t d g :
  graph_wf g → graph_wf (add_or_update_entity name ty t d g).
Proof.
  intros Hwf. unfold add_or_update_entity.
  set (c := default name (resolve g name)).
  destruct (entities g !! c) as [e|] eqn:Hc.
  - apply ensure_node_wf; [|done]. rewrite mention_again_name. by eapply wf_name.
  - apply index_names_wf, new_node_wf; [done| |done].
    apply eq_None_not_Some. rewrite <-(wf_dom _ Hwf), Hc. by apply is_Some_None.
Qed.

(** A step that keeps every node where it was and all relations. *)
Record grows (g g' : SimpleEntityGraph) : Prop := {
  grows_node i n : node_weight (graph g) i = Some n → node_weight (graph g') i = Some n;
  grows_edges : graph_triples (graph g') = graph_triples (graph g);
  grows_refs : edge_references (graph g') = edge_references (graph g);
}.

Lemma grows_refl g : grows g g.
Proof. by split. Qed.

Lemma grows_trans g1 g2 g3 : grows g1 g2 → grows g2 g3 → grows g1 g3.
Proof. intros [? H1 H1'] [? H2 H2']. split; [eauto|by rewrite H2|by rewrite H2']. Qed.

Lemma add_graph_node_grows name g : grows g (add_graph_node name g).
Proof.
  split.
  - intros i n Hi. rewrite add_graph_node_eq. simpl. rewrite add_node_weight.
    case_decide; [|done]. subst. apply lookup_lt_Some in Hi. unfold node_count in Hi. lia.
  - apply add_graph_node_triples.
  - rewrite add_graph_node_eq. simpl. by rewrite add_node_edges.
Qed.

Lemma ensure_graph_node_grows name g : grows g (ensure_graph_node name g).
Proof.
  unfold ensure_graph_node. case_match; [apply grows_refl|apply add_graph_node_grows].
Qed.

Lemma index_names_fields n g :
  entities (index_names n g) = entities g ∧ entity_mentions (index_names n g) = entity_mentions g
  ∧ graph (index_names n g) = graph g ∧ entity_to_node (index_names n g) = entity_to_node g.
Proof. unfold index_names. by case_match. Qed.

Lemma add_or_update_grows name ty t d g : grows g (add_or_update_entity name ty t d g).
Proof.
  unfold add_or_update_entity. case_match.
  - pose proof (ensure_graph_node_grows (default name (resolve g name))
      (with_entities (<[default name (resolve g name)
                        := mention_again t d name e]>) g)) as [Ha Hb]. by split.
  - destruct (index_names_fields (default name (resolve g name))
      (add_graph_node (default name (resolve g name))
        (with_entities (<[default name (resolve g name)
           := new_entity (default name (resolve g name)) ty t d]>) g))) as (_ & _ & Hg & _).
    pose proof (add_graph_node_grows (default name (resolve g name))
      (with_entities (<[default name (resolve g name)
         := new_entity (default name (resolve g name)) ty t d]>) g)) as [Ha Hb Hc].
    by split; rewrite Hg.
Qed.

(** The entity recorded under a name has a node. *)
Lemma add_or_update_node name ty t d g :
  graph_wf g →
  is_Some (entity_to_node (add_or_update_entity name ty t d g)
           !! default name (resolve g name)).
Proof.
  intros Hwf. pose proof (add_or_update_wf name ty t d g Hwf) as Hwf'.
  rewrite <-(wf_dom _ Hwf'). unfold add_or_update_entity. case_match.
  - unfold ensure_graph_node. case_match; [|rewrite add_graph_node_eq]; simpl;
      rewrite lookup_insert_eq; by eexists.
  - destruct (index_names_fields (default name (resolve g name))
      (add_graph_node (default name (resolve g name))
        (with_entities (<[default name (resolve g name)
           := new_entity (default name (resolve g name)) ty t d]>) g))) as (-> & _).
    rewrite add_graph_node_eq. simpl. rewrite lookup_insert_eq. by eexists.
Qed.

Lemma get_or_create_node_spec name ty t g :
  graph_wf g →
  let '(g', i) := get_or_create_node name ty t g in
  graph_wf g' ∧ grows g g' ∧ node_weight (graph g') i = Some (default name (resolve g name)).
Proof.
  intros Hwf. unfold get_or_create_node.
  destruct (entity_to_node g !! default name (resolve g name)) as [i|] eqn:Hi.
  { split_and!; [done|apply grows_refl|]. by apply (wf_e2n _ (wf_index _ Hwf)). }
  pose proof (resolve_default_node _ _ Hwf Hi) as Hr. rewrite Hr. simpl.
  pose proof (add_or_update_wf name ty t "" g Hwf) as Hwf'.
  destruct (add_or_update_node name ty t "" g Hwf) as [i Hi'].
  rewrite Hr in Hi'. simpl in Hi'. rewrite Hi'.
  split_and!; [done|apply add_or_update_grows|]. by apply (wf_e2n _ (wf_index _ Hwf')).
Qed.
End wf.
