(* ===== verification/EntityGraphInv.v ===== *)
(** * Relations, merges and reachable graphs

    [add_relationship] upserts by endpoints and type, [merge_entities] folds
    one entity into another, and every graph reachable through the public
    operations is well-formed, so the two methods that index a map never
    panic. *)

From S2P Require Import Prelude RustStd Collections F32 Types Petgraph EntityGraph.
From S2P Require Import EntityGraphWf.

(** Replacing the one edge with key [k]. *)
Lemma upsert_edge (es : list EdgeReference) e w :
  e ∈ es → NoDup (edge_id <$> es) → NoDup (edge_key <$> (edge_triple <$> es)) →
  relation_type w = relation_type (edge_weight e) →
  edge_triple <$> ((λ x, if decide (edge_id x = edge_id e)
                         then mkEdgeReference (edge_id x) (source x) (target x) w else x) <$> es)
  ≡ₚ (source e, target e, w)
     :: filter (λ t, edge_key t ≠ edge_key (edge_triple e)) (edge_triple <$> es).
Proof.
  intros (rest & Hes)%elem_of_Permutation Hids Hkeys Hw. rewrite Hes in *. csimpl.
  csimpl in Hids. csimpl in Hkeys.
  apply NoDup_cons in Hids as [Hid _]. apply NoDup_cons in Hkeys as [Hkey _].
  rewrite decide_True by done. rewrite filter_cons_False by tauto.
  apply Permutation_cons; [done|].
  rewrite filter_keep_all.
  - rewrite <-list_fmap_compose. erewrite list_fmap_ext; [done|].
    intros i x Hx%list_elem_of_lookup_2. simpl. rewrite decide_False; [done|].
    intros Heq. apply Hid. rewrite <-Heq. by apply list_elem_of_fmap_2.
  - intros t Ht Heq. apply Hkey. rewrite <-Heq.
    by apply list_elem_of_fmap_2.
Qed.

Section relations.
Context `{U : Unicode} `{P : Petgraph} `{L : !PetgraphLaws}.
Implicit Types (g : SimpleEntityGraph) (n : string).

(** Two graphs with the same nodes and maps. *)
Lemma with_graph_wf gr g :
  node_weights gr = node_weights (graph g) → NoDup (edge_key <$> graph_triples gr) →
  graph_wf g → graph_wf (with_graph gr g).
Proof.
  intros Hn Hk [[Hne Hen] Hdom Hname Halias Hedges].
  split; [split|..]; simpl; try done; unfold node_weight; by rewrite Hn.
Qed.

(** The nodes [add_relationship] works with. *)
Definition relation_ends (now : DateTime) (r : EntityRelationship) g
    : SimpleEntityGraph * nat * nat :=
  let '(g, a) := get_or_create_node (from_entity r) Concept now g in
  let '(g, b) := get_or_create_node (to_entity r) Concept now g in
  (g, a, b).

(** [add_relationship] on the graph where both ends exist. *)
Definition put_relation (a b : nat) (r : EntityRelationship) g : SimpleEntityGraph :=
  match find_first (λ e, bool_decide (relation_type (edge_weight e) = er_relation_type r))
          (edges_connecting (graph g) a b) with
  | Some e =>
    with_graph (set_edge_weight (graph g) (edge_id e)
      (mkEdgeData (relation_type (edge_weight e)) (er_context r))) g
  | None => with_graph (add_edge (graph g) a b (mkEdgeData (er_relation_type r) (er_context r))) g
  end.

Lemma add_relationship_ends now r g :
  add_relationship now r g
  = let '(g', a, b) := relation_ends now r g in
    if decide (a = b ∧ from_entity r ≠ to_entity r) then g' else put_relation a b r g'.
Proof.
  unfold add_relationship, relation_ends, put_relation. by case_steps.
Qed.

Lemma relation_ends_spec now r g g' a b :
  graph_wf g → relation_ends now r g = (g', a, b) →
  graph_wf g' ∧ grows g g' ∧ a < node_count (graph g') ∧ b < node_count (graph g').
Proof.
  intros Hwf. unfold relation_ends.
  pose proof (get_or_create_node_spec (from_entity r) Concept now g Hwf) as H1.
  destruct (get_or_create_node (from_entity r) Concept now g) as [g1 a1].
  destruct H1 as (Hwf1 & Hg1 & Ha).
  pose proof (get_or_create_node_spec (to_entity r) Concept now g1 Hwf1) as H2.
  destruct (get_or_create_node (to_entity r) Concept now g1) as [g2 b2].
  destruct H2 as (Hwf2 & Hg2 & Hb). intros [= <- <- <-].
  split_and!; [done|by eapply grows_trans| |].
  - eapply (lookup_lt_Some _ _ _), (grows_node _ _ Hg2), Ha.
  - by eapply lookup_lt_Some.
Qed.

Lemma put_relation_triples a b r g :
  graph_wf g → a < node_count (graph g) → b < node_count (graph g) →
  node_weights (graph (put_relation a b r g)) = node_weights (graph g)
  ∧ graph_triples (graph (put_relation a b r g))
    ≡ₚ (a, b, mkEdgeData (er_relation_type r) (er_context r))
       :: filter (λ t, edge_key t ≠ (a, b, er_relation_type r)) (graph_triples (graph g)).
Proof.
  intros Hwf Ha Hb. unfold put_relation.
  destruct (find_first _ _) as [e|] eqn:Hf; simpl.
  - apply find_first_Some in Hf as [Hin Hty%bool_decide_eq_true].
    rewrite edges_connecting_spec in Hin. apply list_elem_of_filter in Hin as [[<- <-] Hin].
    split; [apply set_weight_nodes|]. unfold graph_triples. rewrite set_weight_edges.
    rewrite <-Hty. apply (upsert_edge (edge_references (graph g)) e); simpl.
    + done.
    + apply edge_ids_distinct.
    + apply (wf_edges _ Hwf).
    + done.
  - split; [by apply add_edge_nodes|]. rewrite add_edge_edges by done.
    apply Permutation_cons; [done|]. rewrite filter_keep_all; [done|].
      unfold graph_triples.
    intros t (e & -> & He)%list_elem_of_fmap [= Hs Ht Hty].
    rewrite find_first_None in Hf. specialize (Hf e).
    rewrite edges_connecting_spec, list_elem_of_filter, bool_decide_eq_false in Hf. tauto.
Qed.

Lemma put_relation_wf a b r g :
  graph_wf g → a < node_count (graph g) → b < node_count (graph g) →
  graph_wf (put_relation a b r g).
Proof.
  intros Hwf Ha Hb. destruct (put_relation_triples a b r g Hwf Ha Hb) as [Hn Ht].
  assert (put_relation a b r g = with_graph (graph (put_relation a b r g)) g) as ->.
  { unfold put_relation. by case_match. }
  apply with_graph_wf; [done| |done]. rewrite Ht. simpl.
  apply NoDup_cons. split.
  - intros (t & Heq & [Hne _]%list_elem_of_filter)%list_elem_of_fmap. by apply Hne.
  - apply NoDup_fmap_filter, (wf_edges _ Hwf).
Qed.

Lemma add_relationship_wf now r g : graph_wf g → graph_wf (add_relationship now r g).
Proof.
  intros Hwf. rewrite add_relationship_ends.
  destruct (relation_ends now r g) as [[g' a] b] eqn:He.
  destruct (relation_ends_spec _ _ _ _ _ _ Hwf He) as (Hwf' & _ & Ha & Hb).
  case_decide; [done|]. by apply put_relation_wf.
Qed.

(** ** Mentions and merges *)

Lemma remove_entity_entities name g :
  entities (remove_entity name g).1 = entities g
  ∨ entities (remove_entity name g).1 = delete name (entities g).
Proof. unfold remove_entity. case_steps; auto. Qed.

Lemma adopt_mentions_wf into l g : graph_wf g → graph_wf (adopt_mentions into l g).
Proof. intros Hwf. unfold adopt_mentions. case_match; [done|by apply with_mentions_wf]. Qed.

Lemma absorb_name gone e : ed_name (absorb gone e) = ed_name e.
Proof.
  unfold absorb. apply (foldl_inv _ (λ x, ed_name x = ed_name e)); [|done].
  intros x y _ <-. apply add_alias_name.
Qed.

Lemma adopt_relation_wf alias into now r g :
  graph_wf g → graph_wf (adopt_relation alias into now r g).
Proof.
  intros Hwf. unfold adopt_relation. case_decide; [by apply add_relationship_wf|done].
Qed.

Lemma merge_entities_wf now alias into g :
  graph_wf g → graph_wf (merge_entities now alias into g).1.
Proof.
  intros Hwf. unfold merge_entities. repeat case_match; try done; simpl.
  apply foldi_inv.
  - intros i r g' _. apply adopt_relation_wf.
  - apply adopt_mentions_wf, claim_names_wf, alter_entity_wf; [apply absorb_name|].
    by apply remove_entity_wf.
Qed.

Lemma link_mentions_wf u g : graph_wf g → graph_wf (link_mentions u g).
Proof.
  intros Hwf. unfold link_mentions.
  apply (foldl_inv _ (λ st, graph_wf st.1)); [|done].
  intros [g' linked] n _ Hwf'. simpl. repeat case_match; simpl; try done;
    by apply with_mentions_wf.
Qed.

Lemma relink_mentions_wf us g : graph_wf g → graph_wf (relink_mentions us g).
Proof.
  intros Hwf. unfold relink_mentions. apply foldl_inv; [|by apply with_mentions_wf].
  intros g' u _ Hwf'. apply foldl_inv; [|done]. intros g'' n _ Hwf''.
  case_match; [by apply with_mentions_wf|done].
Qed.

Lemma apply_update_wf now u g : graph_wf g → graph_wf (apply_update now u g).
Proof.
  intros Hwf. unfold apply_update. apply link_mentions_wf.
  apply foldi_inv; [intros i r g' _; apply add_relationship_wf|].
  case_match; (apply foldl_inv; [intros; by apply add_or_update_wf|done]).
Qed.

Lemma merge_from_wf now other g : graph_wf g → graph_wf (merge_from now other g).
Proof.
  intros Hwf. unfold merge_from. apply foldi_inv.
  { intros i e g' _ Hwf'. case_match; [by apply add_relationship_wf|done]. }
  apply foldl_inv; [intros; by apply with_mentions_wf|].
  apply foldl_inv; [|done]. intros g' kv _ Hwf'. unfold merge_entity_from. apply foldl_inv.
  - intros; by apply note_alias_wf.
  - by apply add_or_update_wf.
Qed.

(** ** Inserting a stored entity *)

Lemma insert_entity_total now e g :
  graph_wf g → ∃ g', insert_entity now e g = Some g' ∧ graph_wf g'.
Proof.
  intros Hwf. unfold insert_entity.
  set (other := head _).
  set (g' := index_names _ _).
  assert (g' = index_names (ed_name e)
                 (ensure_graph_node (ed_name e) (with_entities (<[ed_name e := e]>) g))) as Hg'.
  { unfold g', ensure_graph_node. simpl. case_match; [done|].
    f_equal. by rewrite !add_graph_node_eq. }
  assert (graph_wf g') as Hwf'.
  { rewrite Hg'. by apply index_names_wf, ensure_node_wf. }
  assert (entities g' = <[ed_name e := e]> (entities g)) as Hents.
  { rewrite Hg'. rewrite (proj1 (index_names_fields _ _)). unfold ensure_graph_node.
    case_match; [done|]. by rewrite add_graph_node_eq. }
  destruct other as [o|] eqn:Ho; [|by eexists].
  assert (is_Some (entities g !! o)) as [x Hx].
  { apply head_Some_elem_of in Ho. apply list_elem_of_omap in Ho as (m & _ & Hm).
    destruct (resolve g m) as [c|] eqn:Hr; [|done]. case_decide; simplify_eq.
    by eapply resolve_is_Some. }
  rewrite Hents, lookup_insert_eq. simpl.
  assert (is_Some ((<[ed_name e := e]> (entities g)) !! o)) as [y ->].
  { apply lookup_insert_is_Some'. right. by eexists. }
  simpl. case_match. eexists. split; [done|]. by apply merge_entities_wf.
Qed.

(** ** Rebuilding the alias index *)

Lemma scan_name_range (Q : string → Prop) name alias st :
  Q name → (∀ k m, st.1 !! k = Some m → Q m) →
  ∀ k m, (scan_name name alias st).1 !! k = Some m → Q m.
Proof.
  intros Hn Hst k m. unfold scan_name.
  destruct (st.1 !! entity_key alias); [case_decide; apply Hst|].
  simpl. intros [[_ <-]|[_ ?]]%lookup_insert_Some; eauto.
Qed.

Lemma scan_entities_total g :
  graph_wf g →
  ∃ index merges, scan_entities g = Some (index, merges)
                  ∧ ∀ k n, index !! k = Some n → is_Some (entities g !! n).
Proof.
  intros Hwf. unfold scan_entities.
  set (order := sort_by _ _).
  assert (∀ p, p ∈ order → is_Some (entities g !! p.2)) as Horder.
  { intros p. unfold order. rewrite sort_by_perm. intros (e & -> & He)%list_elem_of_fmap.
    apply elem_of_btree_values in He as [k Hk]. simpl.
    rewrite (wf_name _ Hwf _ _ Hk). by eexists. }
  destruct (try_fold_total (scan_entity g)
    (λ st : gmap string string * list (string * string), ∀ k n, st.1 !! k = Some n → is_Some (entities g !! n)) order)
    with (s := (∅ : gmap string string, [] : list (string * string)))
    as ([index merges] & -> & Hok); [| |eauto].
  - intros st p Hp Hst. unfold scan_entity. destruct (Horder p Hp) as [e He]. rewrite He. simpl.
    eexists. split; [done|].
    apply (foldl_inv _ (λ st', ∀ k n, st'.1 !! k = Some n → is_Some (entities g !! n)));
      [|apply scan_name_range; [by eexists|done]].
    intros st' a _ Hst'. apply scan_name_range; [by eexists|done].
  - intros k n. simpl. by rewrite lookup_empty.
Qed.

Lemma rebuild_alias_index_total now g :
  graph_wf g → ∃ g', rebuild_alias_index now g = Some g' ∧ graph_wf g'.
Proof.
  intros Hwf. unfold rebuild_alias_index.
  destruct (scan_entities_total g Hwf) as (index & merges & -> & Hok). simpl.
  eexists. split; [done|]. apply foldi_inv.
  - intros i m g' _. apply merge_entities_wf.
  - by apply with_alias_wf.
Qed.

(** [v] is called something with key [k]. *)
Definition named g (v k : string) : Prop :=
  ∃ e a, entities g !! v = Some e ∧ a ∈ entity_names e ∧ entity_key a = k.

(** No two entities share the key of a name. *)
Definition names_separate g : Prop := ∀ v w k, named g v k → named g w k → v = w.

Lemma names_separate_pairs g :
  map_Forall (λ v e, map_Forall (λ w e', v = w ∨
    Forall (λ a, Forall (λ b, entity_key a ≠ entity_key b) (entity_names e'))
      (entity_names e)) (entities g)) (entities g) ↔ names_separate g.
Proof.
  split.
  - intros Hall v w k (e & a & He & Ha & Hk) (e' & b & He' & Hb & <-).
    destruct (Hall v e He w e' He') as [|Hne]; [done|].
    rewrite Forall_forall in Hne. specialize (Hne a Ha). rewrite Forall_forall in Hne.
    by destruct (Hne b Hb).
  - intros Hsep v e He w e' He'. destruct (decide (v = w)) as [|Hvw]; [by left|right].
    apply Forall_forall. intros a Ha. apply Forall_forall. intros b Hb Hk.
    apply Hvw, (Hsep _ _ (entity_key a)); [by exists e, a|by exists e', b].
Qed.

#[global] Instance names_separate_dec g : base.Decision (names_separate g).
Proof.
  refine (cast_if (decide (map_Forall (λ v e, map_Forall (λ w e', v = w ∨
    Forall (λ a, Forall (λ b, entity_key a ≠ entity_key b) (entity_names e'))
      (entity_names e)) (entities g)) (entities g)))); by rewrite <-names_separate_pairs.
Defined.

Lemma scan_names_separate g n e names (m : gmap string string) :
  names_separate g → entities g !! n = Some e → (∀ a, a ∈ names → a ∈ entity_names e) →
  (∀ k v, m !! k = Some v → named g v k) →
  ∃ m', foldl (λ st a, scan_name n a st) (m, []) names = (m', [])
        ∧ ∀ k v, m' !! k = Some v ↔ m !! k = Some v ∨ (v = n ∧ k ∈ entity_key <$> names).
Proof.
  intros Hsep Hn. revert m. induction names as [|a names IH]; intros m Hin Hm; simpl.
  { exists m. split; [done|]. intros k v. set_solver. }
  assert (named g n (entity_key a)) as Ha.
  { exists e, a. split_and!; [done| |done]. apply Hin. by left. }
  unfold scan_name at 2. simpl. destruct (m !! entity_key a) as [w|] eqn:Hw.
  - rewrite decide_True by (by apply (Hsep _ _ (entity_key a)); [apply Hm|]).
    destruct (IH m) as (m' & -> & Hm'); [intros; apply Hin; by right|done|].
    exists m'. split; [done|]. intros k v. rewrite Hm', elem_of_cons.
    assert (w = n) as -> by (by apply (Hsep _ _ (entity_key a)); [apply Hm|]).
    naive_solver.
  - destruct (IH (<[entity_key a := n]> m)) as (m' & -> & Hm').
    { intros; apply Hin; by right. }
    { intros k v [[<- <-]|[_ ?]]%lookup_insert_Some; [done|by apply Hm]. }
    exists m'. split; [done|]. intros k v. rewrite Hm', elem_of_cons, lookup_insert_Some.
    destruct (decide (k = entity_key a)); naive_solver congruence.
Qed.

(** Without shared keys the scan asks for no merges and indexes every key. *)
Lemma scan_entities_separate g :
  graph_wf g → names_separate g →
  ∃ index, scan_entities g = Some (index, []) ∧ ∀ k v, index !! k = Some v ↔ named g v k.
Proof.
  intros Hwf Hsep. unfold scan_entities. set (order := sort_by _ _).
  assert (∀ v, v ∈ order.*2 ↔ is_Some (entities g !! v)) as Horder.
  { intros v. unfold order. rewrite sort_by_perm, <-list_fmap_compose, list_elem_of_fmap.
    setoid_rewrite elem_of_btree_values. split.
    - intros (e & -> & k & Hk). simpl. rewrite (wf_name _ Hwf _ _ Hk). by eexists.
    - intros [e He]. exists e. simpl. by rewrite (wf_name _ Hwf _ _ He); eauto. }
  assert (∀ l m, (∀ v, v ∈ l.*2 → is_Some (entities g !! v)) →
            (∀ k v, m !! k = Some v → named g v k) →
            ∃ m', try_fold (scan_entity g) (m, []) l = Some (m', [])
                  ∧ ∀ k v, m' !! k = Some v
                           ↔ m !! k = Some v ∨ (v ∈ l.*2 ∧ named g v k)) as Hscan.
  { induction l as [|[t v] l IH]; intros m Hl Hm; simpl.
    { exists m. split; [done|]. intros k v. rewrite elem_of_nil. tauto. }
    destruct (Hl v) as [e He]; [by left|].
    assert (scan_entity g (m, []) (t, v)
            = Some (foldl (λ st a, scan_name v a st) (m, []) (entity_names e))) as ->
      by (unfold scan_entity; simpl; by rewrite He).
    destruct (scan_names_separate g v e (entity_names e) m Hsep He) as (m1 & Hm1 & Hk1);
      [done|done|].
    rewrite Hm1. cbn [mbind option_bind].
    destruct (IH m1) as (m' & -> & Hk').
    { intros w Hw. apply Hl. by right. }
    { intros k w [?|[-> (a & -> & Ha)%list_elem_of_fmap]]%Hk1; [by apply Hm|]. by exists e, a. }
    exists m'. split; [done|]. intros k w. rewrite Hk', Hk1, elem_of_cons, list_elem_of_fmap.
    split.
    - intros [[?|[-> (a & -> & Ha)]]|[Hw ?]]; [by left| |by right; split; [right|]].
      right. split; [by left|by exists e, a].
    - intros [?|[[->|Hw] Hn]]; [by left; left| |by right].
      destruct Hn as (e' & a & He' & Ha & <-). left. right. split; [done|]. exists a.
      rewrite He in He'. by injection He' as <-. }
  destruct (Hscan order ∅) as (index & -> & Hk).
  { intros v. apply Horder. }
  { intros k v. by rewrite lookup_empty. }
  exists index. split; [done|]. intros k v. rewrite Hk, lookup_empty, Horder.
  split; [by intros [?|[_ ?]]|]. intros Hv. right. split; [|done].
  destruct Hv as (e & a & ? & _). by eexists.
Qed.

(** ** The public operations *)

Lemma new_wf : graph_wf SimpleEntityGraph_new.
Proof.
  split; [split|..]; simpl; intros *; rewrite ?lookup_empty.
  - unfold node_weight. by rewrite new_nodes, lookup_nil.
  - unfold node_weight. by rewrite new_nodes, lookup_nil.
  - split; by intros [? ?].
  - done.
  - done.
  - unfold graph_triples. rewrite new_edges. apply NoDup_nil_2.
Qed.
End relations.

(** The operations keep the invariant. *)
#[export] Hint Resolve new_wf with_mentions_wf with_alias_wf alter_entity_wf add_or_update_wf
  remove_entity_wf merge_entities_wf add_relationship_wf apply_update_wf link_mentions_wf
  relink_mentions_wf merge_from_wf insert_entity_total adopt_mentions_wf adopt_relation_wf : pcx.

(** Every public method that changes a graph. *)
Inductive graph_op `{Petgraph} :=
| OpClear
| OpRemoveEntity (name : string)
| OpMergeEntities (alias into : string)
| OpApplyUpdate (update : ContextUpdate)
| OpLinkMentions (update : ContextUpdate)
| OpRelinkMentions (updates : list ContextUpdate)
| OpUpdateTimestamp (name : string) (timestamp : DateTime)
| OpInsertEntity (entity : EntityData)
| OpAddOrUpdate (name : string) (ty : EntityType) (timestamp : DateTime) (description : string)
| OpMentionEntity (name : string) (update_id : Uuid) (timestamp : DateTime)
| OpAddRelationship (relationship : EntityRelationship)
| OpMergeFrom (other : SimpleEntityGraph).

Section ops.
Context `{U : Unicode} `{P : Petgraph} `{M : Libm}.

Definition run_op (now : nat → DateTime) (op : graph_op) (g : SimpleEntityGraph)
    : option SimpleEntityGraph :=
  match op with
  | OpClear => Some (clear g)
  | OpRemoveEntity n => Some (remove_entity n g).1
  | OpMergeEntities a i => Some (merge_entities now a i g).1
  | OpApplyUpdate u => Some (apply_update now u g)
  | OpLinkMentions u => Some (link_mentions u g)
  | OpRelinkMentions us => Some (relink_mentions us g)
  | OpUpdateTimestamp n t => Some (update_entity_timestamp n t g)
  | OpInsertEntity e => insert_entity now e g
  | OpAddOrUpdate n ty t d => Some (add_or_update_entity n ty t d g)
  | OpMentionEntity n u t => Some (mention_entity n u t g)
  | OpAddRelationship r => Some (add_relationship (now 0) r g)
  | OpMergeFrom other => Some (merge_from now other g)
  end.

Fixpoint run_ops (now : nat → nat → DateTime) (i : nat) (ops : list graph_op)
    (g : SimpleEntityGraph) : option SimpleEntityGraph :=
  match ops with
  | [] => Some g
  | op :: ops => g ← run_op (now i) op g; run_ops now (i + 1) ops g
  end.

Context `{L : !PetgraphLaws}.

Lemma run_op_wf now op g : graph_wf g → ∃ g', run_op now op g = Some g' ∧ graph_wf g'.
Proof.
  intros Hwf. destruct op; simpl; try (eexists; split; [reflexivity|]).
  all: eauto 3 with pcx.
  - apply new_wf.
  - by apply alter_entity_wf.
  - unfold mention_entity. by apply with_mentions_wf, alter_entity_wf.
Qed.

Lemma run_ops_wf now ops i g :
  graph_wf g → ∃ g', run_ops now i ops g = Some g' ∧ graph_wf g'.
Proof.
  revert i g. induction ops as [|op ops IH]; intros i g Hwf; simpl; [eauto|].
  destruct (run_op_wf (now i) op g Hwf) as (g' & -> & Hwf'). simpl. by apply IH.
Qed.
End ops.
