(* ===== verification/EntityGraphSpec.v ===== *)
(** * What the graph operations promise

    Stated on the graph a caller sees: the entities and the relations by
    name.  [rel_key] identifies a relation by its endpoints and type, which
    is what the documentation of [add_relationship] promises to keep
    unique. *)

From S2P Require Import Prelude RustStd Collections F32 Types Petgraph EntityGraph.
From S2P Require Import EntityGraphWf EntityGraphInv.

Definition rel_key (r : RelationRef) : string * string * RelationType :=
  (rr_from r, rr_to r, rr_relation_type r).

Definition rel_touches (n : string) (r : RelationRef) : Prop := rr_from r = n ∨ rr_to r = n.
#[global] Instance rel_touches_dec n r : base.Decision (rel_touches n r).
Proof. unfold rel_touches. apply _. Defined.

Lemma filter_or_perm {A} (P Q : A → Prop) `{!∀ x, base.Decision (P x), !∀ x, base.Decision (Q x)}
    (l : list A) :
  filter P l ++ filter (λ x, ¬ P x) (filter Q l) ≡ₚ filter (λ x, P x ∨ Q x) l.
Proof.
  induction l as [|x l IH]; [done|]. rewrite !filter_cons.
  destruct (decide (P x)), (decide (Q x)).
  - rewrite filter_cons, decide_False, decide_True by tauto. simpl. by rewrite IH.
  - rewrite decide_True by tauto. simpl. by rewrite IH.
  - rewrite filter_cons, !decide_True by tauto. by rewrite <-Permutation_middle, IH.
  - by rewrite decide_False, IH by tauto.
Qed.

#[global] Instance omap_proper_perm {A B} (f : A → option B) :
  Proper ((≡ₚ) ==> (≡ₚ)) (omap f : list A → list B).
Proof.
  intros l1 l2. induction 1 as [|x l1 l2 _ IH|x y l|l1 l2 l3 _ IH1 _ IH2]; csimpl.
  - done.
  - destruct (f x); [by rewrite IH|done].
  - destruct (f x), (f y); try done. apply Permutation_swap.
  - by rewrite IH1.
Qed.

Section spec.
Context `{U : Unicode} `{P : Petgraph} `{L : !PetgraphLaws}.
Implicit Types (g : SimpleEntityGraph) (n : string).

(** ** The relations of one entity *)

Lemma relationships_of_perm g n :
  index_wf g → relationships_of g n ≡ₚ filter (rel_touches n) (relationships g).
Proof.
  intros Hidx. unfold relationships_of.
  assert (∀ e r, relation_ref g e = Some r →
    node_weight (graph g) (source e) = Some (rr_from r)
    ∧ node_weight (graph g) (target e) = Some (rr_to r)) as Hends.
  { intros e r Hr. destruct (triple_ref_inv (graph g) (edge_triple e) r Hr) as (? & ? & _).
    done. }
  destruct (entity_to_node g !! n) as [i|] eqn:Hi.
  - rewrite (wf_e2n _ Hidx) in Hi.
    rewrite edges_directed_out, edges_directed_in, filter_or_perm.
    unfold relationships. erewrite omap_filter_strong; [done|].
    intros e r _ (Ha & Hb)%Hends. unfold rel_touches.
    assert (∀ j m, node_weight (graph g) j = Some m → j = i ↔ m = n) as Hiff.
    { intros j m Hj. split; intros ->; [congruence|]. by eapply node_weight_unique. }
    by rewrite (Hiff _ _ Ha), (Hiff _ _ Hb).
  - symmetry. destruct (filter _ _) as [|r l] eqn:Hf; [done|exfalso].
    assert (r ∈ filter (rel_touches n) (relationships g)) as Hr by (rewrite Hf; by left).
    apply list_elem_of_filter in Hr as [Ht Hr].
    apply list_elem_of_omap in Hr as (e & _ & (Ha & Hb)%Hends).
    destruct Ht as [<-|<-]; [apply (wf_e2n _ Hidx) in Ha|apply (wf_e2n _ Hidx) in Hb];
      congruence.
Qed.

(** ** Adding a relation *)

Lemma triple_ref_ext gr gr' t :
  (∀ i, i = t.1.1 ∨ i = t.1.2 → node_weight gr i = node_weight gr' i) →
  triple_ref gr t = triple_ref gr' t.
Proof. intros H. unfold triple_ref. by rewrite !H by tauto. Qed.

Lemma grows_relationships g g' : grows g g' → relationships g' = relationships g.
Proof.
  intros [Hn He _]. rewrite !relationships_named. unfold named_edges. rewrite He.
  apply omap_ext_in. intros t Ht%triples_in_range. apply triple_ref_ext.
  assert (∀ i, i < node_count (graph g) →
               node_weight (graph g') i = node_weight (graph g) i) as Hi.
  { intros i Hi. apply lookup_lt_is_Some in Hi as [m Hm].
    rewrite (Hn _ _ Hm). done. }
  intros i [->| ->]; apply Hi; tauto.
Qed.

Lemma put_relation_relationships a b na nb r g :
  graph_wf g → node_weight (graph g) a = Some na → node_weight (graph g) b = Some nb →
  relationships (put_relation a b r g)
  ≡ₚ mkRelationRef na nb (er_relation_type r) (er_context r)
     :: filter (λ x, rel_key x ≠ (na, nb, er_relation_type r)) (relationships g).
Proof.
  intros Hwf Ha Hb. pose proof (wf_index _ Hwf) as Hidx.
  destruct (put_relation_triples a b r g Hwf (lookup_lt_Some _ _ _ Ha)
              (lookup_lt_Some _ _ _ Hb)) as [Hn Ht].
  rewrite !relationships_named. unfold named_edges. rewrite Ht.
  rewrite (omap_ext_in _ (triple_ref (graph g))).
  2: { intros t _. apply triple_ref_ext. intros i _. unfold node_weight. by rewrite Hn. }
  csimpl. unfold triple_ref at 1. simpl. rewrite Ha, Hb. simpl.
  apply Permutation_cons; [done|]. erewrite omap_filter_strong; [done|].
  intros t x _ (Hx & Hy & Hty & _)%triple_ref_inv. unfold edge_key, rel_key.
  assert (t.1.1 = a ↔ rr_from x = na) as Hxa.
  { split; [congruence|intros Heq; rewrite Heq in *; by eapply node_weight_unique]. }
  assert (t.1.2 = b ↔ rr_to x = nb) as Hyb.
  { split; [congruence|intros Heq; rewrite Heq in *; by eapply node_weight_unique]. }
  rewrite Hty, !pair_equal_spec, Hxa, Hyb. tauto.
Qed.

Lemma relation_ends_weights now r g g' a b :
  graph_wf g → relation_ends now r g = (g', a, b) →
  let g1 := (get_or_create_node (from_entity r) Concept now g).1 in
  node_weight (graph g') a = Some (default (from_entity r) (resolve g (from_entity r)))
  ∧ node_weight (graph g') b = Some (default (to_entity r) (resolve g1 (to_entity r))).
Proof.
  intros Hwf. unfold relation_ends.
  pose proof (get_or_create_node_spec (from_entity r) Concept now g Hwf) as H1.
  destruct (get_or_create_node (from_entity r) Concept now g) as [g1 a1].
  destruct H1 as (Hwf1 & _ & Ha).
  pose proof (get_or_create_node_spec (to_entity r) Concept now g1 Hwf1) as H2.
  destruct (get_or_create_node (to_entity r) Concept now g1) as [g2 b2].
  destruct H2 as (_ & Hg2 & Hb). intros [= <- <- <-]. simpl.
  split; [by apply (grows_node _ _ Hg2)|done].
Qed.

(** Both ends known: nothing is created. *)
Lemma get_or_create_known n ty t g :
  graph_wf g → is_Some (entities g !! n) →
  ∃ i, get_or_create_node n ty t g = (g, i) ∧ node_weight (graph g) i = Some n.
Proof.
  intros Hwf Hn. unfold get_or_create_node, resolve.
  pose proof Hn as [e ->]. simpl. apply (wf_dom _ Hwf) in Hn as [i Hi].
  rewrite Hi. exists i. split; [done|]. by apply (wf_e2n _ (wf_index _ Hwf)).
Qed.

Lemma add_relationship_known now r g :
  graph_wf g → is_Some (entities g !! from_entity r) → is_Some (entities g !! to_entity r) →
  from_entity r ≠ to_entity r →
  ∃ gr, add_relationship now r g = with_graph gr g
        ∧ relationships (with_graph gr g)
          ≡ₚ mkRelationRef (from_entity r) (to_entity r) (er_relation_type r) (er_context r)
             :: filter (λ x, rel_key x ≠ (from_entity r, to_entity r, er_relation_type r))
                  (relationships g).
Proof.
  intros Hwf Hf Ht Hne.
  destruct (get_or_create_known _ Concept now _ Hwf Hf) as (a & Ha & Hwa).
  destruct (get_or_create_known _ Concept now _ Hwf Ht) as (b & Hb & Hwb).
  exists (graph (put_relation a b r g)).
  assert (put_relation a b r g = with_graph (graph (put_relation a b r g)) g) as Heq.
  { unfold put_relation. by case_match. }
  rewrite <-Heq. split; [|by apply put_relation_relationships].
  rewrite add_relationship_ends. unfold relation_ends. rewrite Ha, Hb.
  rewrite decide_False; [done|]. intros [-> _]. congruence.
Qed.

(** The unique relation with a key. *)
Lemma relationships_keys g : graph_wf g → NoDup (rel_key <$> relationships g).
Proof.
  intros Hwf. pose proof (wf_index _ Hwf) as Hidx. pose proof (wf_edges _ Hwf) as Hnd.
  rewrite relationships_named. unfold named_edges.
  induction (graph_triples (graph g)) as [|t ts IH]; [constructor|].
  csimpl in Hnd. apply NoDup_cons in Hnd as [Hnt Hnd]. csimpl.
  destruct (triple_ref (graph g) t) as [r|] eqn:Hr; [|by apply IH].
  csimpl. apply NoDup_cons. split; [|by apply IH].
  intros (r' & Heq & (t' & Ht' & Hr')%list_elem_of_omap)%list_elem_of_fmap.
  apply Hnt, list_elem_of_fmap. exists t'. split; [|done].
  apply triple_ref_inv in Hr as (Ha & Hb & Hty & _).
  apply triple_ref_inv in Hr' as (Ha' & Hb' & Hty' & _).
  injection Heq as H1 H2 H3. rewrite H1 in Ha. rewrite H2 in Hb. unfold edge_key.
  rewrite (node_weight_unique _ _ _ _ Hidx Ha Ha'), (node_weight_unique _ _ _ _ Hidx Hb Hb').
  congruence.
Qed.

(** ** Merging *)

Definition er_key (r : EntityRelationship) : string * string * RelationType :=
  (from_entity r, to_entity r, er_relation_type r).

Lemma with_graph_twice gr gr' g : with_graph gr (with_graph gr' g) = with_graph gr g.
Proof. done. Qed.

Lemma with_graph_self g : with_graph (graph g) g = g.
Proof. by destruct g. Qed.

Lemma rel_key_upsert x l k :
  k ∈ rel_key <$> (x :: filter (λ y, rel_key y ≠ rel_key x) l)
  ↔ k = rel_key x ∨ k ∈ rel_key <$> l.
Proof.
  rewrite fmap_cons, elem_of_cons, !list_elem_of_fmap. split.
  - intros [?|(y & -> & [_ Hy]%list_elem_of_filter)]; eauto.
  - intros [?|(y & -> & Hy)]; [by left|].
    destruct (decide (rel_key y = rel_key x)); [by left|right].
    exists y. by rewrite list_elem_of_filter.
Qed.

Lemma adopt_relation_keys alias into now r g :
  graph_wf g →
  is_Some (entities g !! from_entity (redirect alias into r)) →
  is_Some (entities g !! to_entity (redirect alias into r)) →
  ∃ gr, adopt_relation alias into now r g = with_graph gr g
        ∧ ∀ k, k ∈ rel_key <$> relationships (with_graph gr g)
               ↔ k ∈ rel_key <$> relationships g
                 ∨ k = er_key (redirect alias into r) ∧ k.1.1 ≠ k.1.2.
Proof.
  intros Hwf Hf Ht. unfold adopt_relation. case_decide as Hne.
  - destruct (add_relationship_known now _ _ Hwf Hf Ht Hne) as (gr & Hadd & Hrels).
    exists gr. split; [done|]. intros k. rewrite Hrels.
    rewrite (rel_key_upsert (mkRelationRef (from_entity (redirect alias into r))
      (to_entity (redirect alias into r)) (er_relation_type (redirect alias into r))
      (er_context (redirect alias into r)))).
    unfold rel_key at 1, er_key. simpl. split; [|tauto].
    intros [-> |]; [right|by left]. done.
  - exists (graph g). rewrite with_graph_self. split; [done|]. intros k.
    split; [by left|]. intros [?|[-> Hk]]; [done|]. by destruct Hk.
Qed.

Lemma adopt_relations_keys alias into now rels i g :
  graph_wf g →
  (∀ r, r ∈ rels → is_Some (entities g !! from_entity (redirect alias into r))
                   ∧ is_Some (entities g !! to_entity (redirect alias into r))) →
  ∃ gr, foldi (λ i r g, adopt_relation alias into (now i) r g) i rels g = with_graph gr g
        ∧ ∀ k, k ∈ rel_key <$> relationships (with_graph gr g)
               ↔ k ∈ rel_key <$> relationships g
                 ∨ ∃ r, r ∈ rels ∧ k = er_key (redirect alias into r) ∧ k.1.1 ≠ k.1.2.
Proof.
  revert i g. induction rels as [|r rels IH]; intros i g Hwf Hrels; simpl.
  - exists (graph g). rewrite with_graph_self. split; [done|]. intros k.
    split; [by left|]. intros [?|(r & Hr & _)]; [done|]. by apply not_elem_of_nil in Hr.
  - destruct (Hrels r) as [Hf Ht]; [by left|].
    destruct (adopt_relation_keys alias into (now i) r g Hwf Hf Ht) as (gr & Heq & Hk).
    pose proof (adopt_relation_wf alias into (now i) r g Hwf) as Hwf'. rewrite Heq in Hwf'.
    rewrite Heq. destruct (IH (i + 1) _ Hwf') as (gr' & Heq' & Hk').
    { intros r' Hr'. apply Hrels. by right. }
    exists gr'. split; [done|]. intros k.
    rewrite with_graph_twice in Hk'. rewrite Hk', Hk. split.
    + intros [[?|[-> Hne]]|(r' & Hr' & -> & Hne)]; [by left|right|right].
      * exists r. split_and!; [by left|done|done].
      * exists r'. split_and!; [by right|done|done].
    + intros [?|(r' & [->|Hr']%elem_of_cons & -> & Hne)]; [by do 2 left|left; by right|].
      right. by exists r'.
Qed.

Lemma push_alias_names w e : entity_names (push_alias w e) = (entity_names e ++ [w])%list.
Proof. done. Qed.

Lemma add_alias_names w e x :
  x ∈ entity_names (add_alias w e) ↔ x ∈ entity_names e ∨ x = w.
Proof.
  unfold add_alias. case_decide as Hw.
  - by rewrite push_alias_names, elem_of_app, list_elem_of_singleton.
  - split; [by left|]. intros [?| ->]; [done|]. unfold entity_names.
    rewrite elem_of_cons. destruct (decide (w = ed_name e)); [by left|].
    destruct (decide (w ∈ aliases e)); [by right|]. by destruct Hw.
Qed.

Lemma absorb_names gone e x :
  x ∈ entity_names (absorb gone e) ↔ x ∈ entity_names e ∨ x ∈ entity_names gone.
Proof.
  unfold absorb. set (e' := mkEntityData _ _ _ _ _ _ _ _).
  assert (entity_names e' = entity_names e) as <- by done.
  generalize (entity_names gone) e'. clear e'. intros ns.
  induction ns as [|n ns IH]; intros e'; simpl.
  - split; [by left|]. intros [?|Hx]; [done|]. by apply not_elem_of_nil in Hx.
  - rewrite IH, add_alias_names, elem_of_cons. tauto.
Qed.

Lemma claim_names_lookup into e g n :
  entities g !! into = Some e → n ∈ entity_names e →
  alias_index (claim_names into g) !! entity_key n = Some into.
Proof.
  intros He. unfold claim_names. rewrite He. unfold with_alias_index. cbn [alias_index]. generalize (alias_index g).
  induction (entity_names e) as [|x xs IH] using rev_ind; intros m Hn.
  - by apply not_elem_of_nil in Hn.
  - rewrite fmap_app, foldl_app. simpl. apply elem_of_app in Hn as [Hn|Hn].
    + rewrite lookup_insert_Some. specialize (IH m Hn).
      destruct (decide (entity_key x = entity_key n)); [by left|by right].
    + apply list_elem_of_singleton in Hn as ->. by rewrite lookup_insert_eq.
Qed.

(** [merge_entities] when the two names resolve to different entities. *)
Lemma merge_entities_decompose now alias into a i gone target g :
  graph_wf g → resolve g alias = Some a → resolve g into = Some i → a ≠ i →
  entities g !! a = Some gone → entities g !! i = Some target →
  ∃ g0 gr,
    merge_entities now alias into g = (with_graph gr g0, true)
    ∧ graph_wf g0
    ∧ entities g0 = <[i := absorb gone target]> (delete a (entities g))
    ∧ (∀ n, n ∈ entity_names gone → alias_index g0 !! entity_key n = Some i)
    ∧ graph g0 = graph (remove_entity a g).1
    ∧ ∀ k, k ∈ rel_key <$> relationships (with_graph gr g0)
           ↔ k ∈ rel_key <$> relationships g0
             ∨ ∃ r, r ∈ to_relationship <$> relationships_of g a
                    ∧ k = er_key (redirect a i r) ∧ k.1.1 ≠ k.1.2.
Proof.
  intros Hwf Ha Hi Hne Hgone Htarget. unfold merge_entities.
  rewrite Ha, Hi, decide_False, Hgone by done. cbv zeta.
  set (rels := to_relationship <$> relationships_of g a).
  set (g1 := (remove_entity a g).1).
  set (g2 := with_entities (alter (absorb gone) i) g1).
  set (g0 := adopt_mentions i (default [] (entity_mentions g !! a)) (claim_names i g2)).
  pose proof (proj1 (wf_dom _ Hwf a) (ex_intro _ _ Hgone)) as [node Hnode].
  destruct (remove_entity_fields a g node (wf_index _ Hwf) Hnode) as (He1 & _ & _ & _ & _).
  assert (entities g0 = <[i := absorb gone target]> (delete a (entities g))) as He0.
  { assert (entities g0 = entities g2) as ->.
    { unfold g0, adopt_mentions, claim_names. by repeat case_match. }
    unfold g2. simpl. fold g1 in He1. rewrite He1. apply map_eq. intros n.
    rewrite lookup_alter, lookup_insert, lookup_delete.
    case_decide; [subst|done]. by rewrite decide_False, Htarget. }
  assert (graph_wf g2) as Hwf2.
  { apply alter_entity_wf; [apply absorb_name|]. by apply remove_entity_wf. }
  assert (graph_wf g0) as Hwf0 by by apply adopt_mentions_wf, claim_names_wf.
  assert (entities g2 = entities g0) as He2.
  { unfold g0, adopt_mentions, claim_names. by repeat case_match. }
  destruct (adopt_relations_keys a i now rels 0 g0 Hwf0) as (gr & Heq & Hk).
  { assert (∀ m, is_Some (entities g !! m) →
                 is_Some (entities g0 !! (if decide (m = a) then i else m))) as Hmove.
    { intros m Hm. rewrite He0, lookup_insert_is_Some', lookup_delete_is_Some.
      case_decide; [by left|]. right. split; [congruence|done]. }
    intros r (x & -> & Hx)%list_elem_of_fmap.
    rewrite (relationships_of_perm _ _ (wf_index _ Hwf)) in Hx.
    apply list_elem_of_filter in Hx as [_ Hx]. rewrite relationships_named in Hx.
    apply list_elem_of_omap in Hx as (t & _ & (Hf & Ht & _)%triple_ref_inv).
    apply (wf_e2n _ (wf_index _ Hwf)) in Hf, Ht.
    simpl. split; apply Hmove, (wf_dom _ Hwf); by eexists. }
  exists g0, gr. rewrite Heq. split_and!; try done.
  - intros n Hn. assert (alias_index g0 = alias_index (claim_names i g2)) as ->.
    { unfold g0, adopt_mentions. by case_match. }
    eapply claim_names_lookup; [by rewrite He2, He0, lookup_insert_eq|].
    rewrite absorb_names. by right.
  - unfold g0, adopt_mentions, claim_names. by repeat case_match.
Qed.

(** The graph left by [remove_entity]. *)
Lemma remove_entity_relationships name g :
  graph_wf g →
  relationships (remove_entity name g).1
  ≡ₚ filter (λ r, ¬ rel_touches name r) (relationships g).
Proof.
  intros Hwf. pose proof (wf_index _ Hwf) as Hidx. rewrite !relationships_named.
  destruct (entity_to_node g !! name) as [i|] eqn:Hi.
  - destruct (remove_entity_fields _ _ _ Hidx Hi) as (_ & _ & -> & _).
    apply (wf_e2n _ Hidx) in Hi.
    rewrite (named_edges_remove_node _ i name Hi)
      by (intros j Hj; by eapply node_weight_unique).
    erewrite list_filter_iff; [done|]. intros r. unfold rel_touches. tauto.
  - rewrite remove_entity_false by done. simpl. rewrite filter_keep_all; [done|].
    intros r (t & _ & (Ha & Hb & _)%triple_ref_inv)%list_elem_of_omap.
    apply (wf_e2n _ Hidx) in Ha, Hb. intros [<-|<-]; congruence.
Qed.

Lemma resolve_known g n m : graph_wf g → resolve g n = Some m → resolve g m = Some m.
Proof.
  intros Hwf Hr. apply resolve_is_Some in Hr as [e He]; [|done].
  unfold resolve. by rewrite He.
Qed.
End spec.
