(* ===== verification/EntityGraphThms.v ===== *)
(** * The entity graph: theorems

    The properties of [SimpleEntityGraph], each with an instance on a small
    concrete graph. *)

From S2P Require Import Prelude RustStd Collections F32 Types Petgraph EntityGraph.
From S2P Require Import EntityGraphWf EntityGraphInv EntityGraphSpec.

Local Open Scope string_scope.

(** ** A concrete graph *)

Definition demo_relation (a b : string) (ty : RelationType) : EntityRelationship :=
  mkEntityRelationship a b ty "why".

Definition demo_ops `{Petgraph} : list graph_op :=
  [OpAddOrUpdate "Auth Service" Technology 1%Z "login";
   OpAddRelationship (demo_relation "auth-service" "Database" DependsOn);
   OpAddRelationship (demo_relation "API" "Auth Service" RequiredBy);
   OpAddRelationship (demo_relation "API" "Database" Implements);
   OpAddRelationship (demo_relation "API" "API" RelatedTo)].

Definition demo_now : nat → nat → DateTime := λ i j, Z.of_nat (10 + 10 * i + j).

#[local] Existing Instances ascii_unicode list_graph demo_libm list_graph_laws.

Definition demo : SimpleEntityGraph :=
  default SimpleEntityGraph_new (run_ops demo_now 0 demo_ops SimpleEntityGraph_new).

Lemma demo_wf : graph_wf demo.
Proof.
  unfold demo.
  destruct (run_ops_wf demo_now demo_ops 0 SimpleEntityGraph_new new_wf) as (g & -> & Hg).
  exact Hg.
Qed.

Section theorems.
Context `{U : Unicode} `{P : Petgraph} `{L : !PetgraphLaws}.
Implicit Types (g : SimpleEntityGraph).

(** C1: from an empty graph, no sequence of calls to the public mutating
    methods panics, and the graph it leaves is well-formed: the two node
    maps mirror petgraph's nodes, every entity has a node and is stored
    under its own name, aliases point at entities, and no two relations
    share endpoints and type. *)
Theorem graph_ops_safe `{M : Libm} (now : nat → nat → DateTime) (ops : list graph_op) :
  ∃ g, run_ops now 0 ops SimpleEntityGraph_new = Some g ∧ graph_wf g.
Proof. apply run_ops_wf, new_wf. Qed.

(** [rebuild_alias_index] (run on every loaded graph) never panics on
    the [self.entities[name]] index and keeps the graph well-formed. *)
Theorem rebuild_alias_index_safe now g :
  graph_wf g → ∃ g', rebuild_alias_index now g = Some g' ∧ graph_wf g'.
Proof. apply rebuild_alias_index_total. Qed.

(** [add_relationship] is an upsert.  With both names resolved (the
    second after the first may have created its entity), it drops the
    relation when two different names mean one entity, and otherwise leaves
    exactly one relation with those endpoints and type, carrying the new
    context, next to all the others. *)
Theorem add_relationship_upserts (now : DateTime) (r : EntityRelationship) g :
  graph_wf g →
  let g1 := (get_or_create_node (from_entity r) Concept now g).1 in
  let a := default (from_entity r) (resolve g (from_entity r)) in
  let b := default (to_entity r) (resolve g1 (to_entity r)) in
  relationships (add_relationship now r g)
  ≡ₚ if decide (a = b ∧ from_entity r ≠ to_entity r) then relationships g
     else mkRelationRef a b (er_relation_type r) (er_context r)
          :: filter (λ x, rel_key x ≠ (a, b, er_relation_type r)) (relationships g).
Proof.
  intros Hwf g1 a b. rewrite add_relationship_ends.
  destruct (relation_ends now r g) as [[g' i] j] eqn:He.
  destruct (relation_ends_spec _ _ _ _ _ _ Hwf He) as (Hwf' & Hgrow & _).
  destruct (relation_ends_weights _ _ _ _ _ _ Hwf He) as [Ha Hb]. fold g1 in Hb.
  assert (i = j ↔ a = b) as Hij.
  { split; [intros ->; unfold a, b; congruence|]. intros Hab.
    unfold a, b in Hab. rewrite <-Hab in Hb.
    eapply node_weight_unique; [apply (wf_index _ Hwf')|done|done]. }
  rewrite <-(grows_relationships _ _ Hgrow). repeat case_decide; try tauto; [done|].
  by apply put_relation_relationships.
Qed.

(** [remove_entity] on a known entity returns [true], drops the entity,
    its mentions, every alias of it and exactly the relations it takes part
    in; everything else is kept, although petgraph renumbers a node. *)
Theorem remove_entity_exact name g :
  graph_wf g → is_Some (entities g !! name) →
  let g' := (remove_entity name g).1 in
  (remove_entity name g).2 = true
  ∧ entities g' = delete name (entities g)
  ∧ entity_mentions g' = delete name (entity_mentions g)
  ∧ (∀ k n, alias_index g' !! k = Some n ↔ alias_index g !! k = Some n ∧ n ≠ name)
  ∧ relationships g' ≡ₚ filter (λ r, ¬ rel_touches name r) (relationships g).
Proof.
  intros Hwf [i Hi]%(wf_dom _ Hwf).
  destruct (remove_entity_fields _ _ _ (wf_index _ Hwf) Hi) as (He & Hm & _ & Ha & Ht).
  split_and!; try done.
  - intros k n. by rewrite Ha, map_lookup_filter_Some.
  - by apply remove_entity_relationships.
Qed.

(** [merge_entities] on names of two different entities succeeds, folds
    the data of the first into the second (and touches no other entity),
    removes the first, and from then on its name and every alias it had are
    indexed to the second. *)
Theorem merge_entities_folds now alias into a i gone target g :
  graph_wf g → resolve g alias = Some a → resolve g into = Some i → a ≠ i →
  entities g !! a = Some gone → entities g !! i = Some target →
  let g' := (merge_entities now alias into g).1 in
  (merge_entities now alias into g).2 = true
  ∧ entities g' = <[i := absorb gone target]> (delete a (entities g))
  ∧ resolve g' a = Some i
  ∧ ∀ n, n ∈ entity_names gone → alias_index g' !! entity_key n = Some i.
Proof.
  intros Hwf Ha Hi Hne Hgone Htarget.
  destruct (merge_entities_decompose now _ _ _ _ _ _ _ Hwf Ha Hi Hne Hgone Htarget)
    as (g0 & gr & -> & _ & He & Hal & _). simpl.
  split_and!; [done|done| |done]. unfold resolve. simpl.
  rewrite He, lookup_insert_ne, lookup_delete_eq by done.
  apply Hal. unfold entity_names. rewrite (wf_name _ Hwf _ _ Hgone). by left.
Qed.

(** C2: after [merge_entities] the relations are those of the graph before,
    with the merged entity replaced by the one it was merged into; a
    relation of the merged entity that would connect the target to itself
    is dropped. *)
Theorem merge_entities_relations now alias into a i gone target g k :
  graph_wf g → resolve g alias = Some a → resolve g into = Some i → a ≠ i →
  entities g !! a = Some gone → entities g !! i = Some target →
  k ∈ rel_key <$> relationships (merge_entities now alias into g).1
  ↔ ∃ x, x ∈ relationships g
         ∧ k = er_key (redirect a i (to_relationship x))
         ∧ (rel_touches a x → k.1.1 ≠ k.1.2).
Proof.
  intros Hwf Ha Hi Hne Hgone Htarget.
  destruct (merge_entities_decompose now _ _ _ _ _ _ _ Hwf Ha Hi Hne Hgone Htarget)
    as (g0 & gr & -> & Hwf0 & _ & _ & Hg0 & Hk). simpl. rewrite Hk.
  rewrite relationships_named, Hg0, <-relationships_named.
  rewrite (remove_entity_relationships a g Hwf), list_elem_of_fmap.
  assert (∀ x, ¬ rel_touches a x → er_key (redirect a i (to_relationship x)) = rel_key x)
    as Hkeep.
  { intros x Hx. unfold rel_touches in Hx. unfold er_key, redirect, rel_key. simpl.
    rewrite !decide_False by tauto. done. }
  split.
  - intros [(x & -> & [Hx Hin]%list_elem_of_filter)|(r & Hr & -> & Hd)].
    + exists x. rewrite Hkeep by done. tauto.
    + apply list_elem_of_fmap in Hr as (x & -> & Hx).
      rewrite (relationships_of_perm _ _ (wf_index _ Hwf)) in Hx.
      apply list_elem_of_filter in Hx as [_ Hx]. eauto.
  - intros (x & Hx & -> & Hd). destruct (decide (rel_touches a x)) as [Ht|Ht].
    + right. exists (to_relationship x). split_and!; [|done|by apply Hd].
      apply list_elem_of_fmap_2. rewrite (relationships_of_perm _ _ (wf_index _ Hwf)).
      by apply list_elem_of_filter.
    + left. exists x. rewrite Hkeep by done. split; [done|]. by apply list_elem_of_filter.
Qed.

(** [relationships_of] lists every relation that leaves or enters the
    entity, each exactly once (a self-relation too), although it reads the
    outgoing and the incoming edges separately. *)
Theorem relationships_of_exact n g :
  graph_wf g →
  relationships_of g n ≡ₚ filter (rel_touches n) (relationships g)
  ∧ NoDup (rel_key <$> relationships_of g n).
Proof.
  intros Hwf. pose proof (relationships_of_perm g n (wf_index _ Hwf)) as Hp.
  split; [done|]. rewrite Hp. by apply NoDup_fmap_filter, relationships_keys.
Qed.

(** A resolved name is an entity and resolves to itself, so resolving
    twice changes nothing. *)
Theorem resolve_idempotent g n m :
  graph_wf g → resolve g n = Some m → is_Some (entities g !! m) ∧ resolve g m = Some m.
Proof. intros Hwf Hr. split; [by eapply resolve_is_Some|by eapply resolve_known]. Qed.
End theorems.

(** ** Instances *)

Lemma graph_ops_safe_witness :
  ∃ g, run_ops demo_now 0 demo_ops SimpleEntityGraph_new = Some g ∧ graph_wf g.
Proof. exact (graph_ops_safe demo_now demo_ops). Defined.

Lemma rebuild_alias_index_safe_witness :
  ∃ g', rebuild_alias_index demo_now demo = Some g' ∧ graph_wf g'.
Proof. exact (rebuild_alias_index_safe demo_now demo demo_wf). Defined.

Lemma add_relationship_upserts_witness :
  relationships (add_relationship 5%Z (demo_relation "api" "DATABASE" Implements) demo)
  ≡ₚ mkRelationRef "API" "Database" Implements "why"
     :: filter (λ x, rel_key x ≠ ("API", "Database", Implements)) (relationships demo).
Proof.
  exact (add_relationship_upserts 5%Z (demo_relation "api" "DATABASE" Implements) demo demo_wf).
Defined.

Lemma remove_entity_exact_witness :
  (remove_entity "Auth Service" demo).2 = true
  ∧ length (relationships (remove_entity "Auth Service" demo).1) = 2.
Proof.
  assert (is_Some (entities demo !! "Auth Service")) as Hin by (vm_compute; eauto).
  destruct (remove_entity_exact "Auth Service" demo demo_wf Hin) as (Ht & _ & _ & _ & Hp).
  split; [exact Ht|]. by rewrite Hp.
Defined.

Lemma demo_resolve : resolve demo "api" = Some "API"
  ∧ resolve demo "auth_service" = Some "Auth Service".
Proof. split; vm_compute; reflexivity. Qed.

Lemma demo_known :
  is_Some (entities demo !! "API") ∧ is_Some (entities demo !! "Auth Service").
Proof. split; vm_compute; eauto. Qed.

Lemma merge_entities_folds_witness :
  resolve (merge_entities (λ _, 0%Z) "api" "auth_service" demo).1 "API" = Some "Auth Service".
Proof.
  destruct demo_resolve as [Ha Hi], demo_known as [[gone Hg] [target Ht]].
  exact (proj1 (proj2 (proj2 (merge_entities_folds (λ _, 0%Z) _ _ _ _ gone target demo demo_wf
    Ha Hi ltac:(discriminate) Hg Ht)))).
Defined.

Lemma merge_entities_relations_witness :
  ("Auth Service", "Database", Implements)
    ∈ rel_key <$> relationships (merge_entities (λ _, 0%Z) "api" "auth_service" demo).1.
Proof.
  destruct demo_resolve as [Ha Hi], demo_known as [[gone Hg] [target Ht]].
  apply (merge_entities_relations (λ _, 0%Z) _ _ _ _ gone target demo _ demo_wf
    Ha Hi ltac:(discriminate) Hg Ht).
  exists (mkRelationRef "API" "Database" Implements "why").
  split; [|split; [reflexivity|discriminate]].
  apply (list_elem_of_lookup_2 _ 2). vm_compute. reflexivity.
Defined.

Lemma relationships_of_exact_witness :
  relationships_of demo "API" ≡ₚ filter (rel_touches "API") (relationships demo)
  ∧ length (relationships_of demo "API") = 3.
Proof. split; [apply (relationships_of_exact "API" demo demo_wf)|vm_compute; reflexivity]. Defined.

Lemma resolve_idempotent_witness :
  is_Some (entities demo !! "API") ∧ resolve demo "API" = Some "API".
Proof. exact (resolve_idempotent demo "api" "API" demo_wf (proj1 demo_resolve)). Defined.
