(* ===== verification/EntityQueries.v ===== *)
(** * Queries of the entity graph

    [core/.../graph/entity_graph.rs]: neighbour queries, the top-k and search
    queries over the entities, and the three breadth-first traversals.  The
    traversals return [None] when their fuel runs out, which the theorems
    exclude. *)

From S2P Require Import Prelude RustStd Bfs Collections F32 Types Petgraph EntityGraph.

Local Open Scope string_scope.

Record EntityNetwork := mkEntityNetwork {
  nw_center : string;
  nw_entities : gmap string EntityData;
  nw_relationships : list EntityRelationship;
}.

Section queries.
Context `{U : Unicode} `{P : Petgraph}.
Implicit Types (g : SimpleEntityGraph).

(** ** Neighbours *)

(** Exact name first, then any name equal after lowercasing. *)
Definition find_node `{MapOrder} g (entity_name : string) : option nat :=
  match entity_to_node g !! entity_name with
  | Some node => Some node
  | None =>
    let entity_lower := str_to_lowercase entity_name in
    snd <$> find_first (λ kv, String.eqb (str_to_lowercase kv.1) entity_lower)
              (iter_order (entity_to_node g))
  end.

Definition find_related_entities `{MapOrder} g (entity_name : string) : list string :=
  match find_node g entity_name with
  | None => []
  | Some node =>
    btree_set
      (omap (λ e, node_to_entity g !! target e) (edges_directed (graph g) node Outgoing)
       ++ omap (λ e, node_to_entity g !! source e) (edges_directed (graph g) node Incoming))%list
  end.

Definition find_related_entities_by_type `{MapOrder} g (entity_name : string)
    (ty : RelationType) : list string :=
  match find_node g entity_name with
  | None => []
  | Some node =>
    let typed := λ e, relation_type (edge_weight e) = ty in
    btree_set
      (omap (λ e, node_to_entity g !! target e)
            (filter typed (edges_directed (graph g) node Outgoing))
       ++ omap (λ e, node_to_entity g !! source e)
            (filter typed (edges_directed (graph g) node Incoming)))%list
  end.

Definition get_entity_relationships g (entity_name : string)
    : list (string * RelationType * string) :=
  match entity_to_node g !! entity_name with
  | None => []
  | Some node =>
    let tell (other : EdgeReference → nat) e :=
      n ← node_to_entity g !! other e;
      Some (n, relation_type (edge_weight e), context (edge_weight e)) in
    (omap (tell target) (edges_directed (graph g) node Outgoing)
     ++ omap (tell source) (edges_directed (graph g) node Incoming))%list
  end.

Definition get_all_relationships g : list EntityRelationship :=
  omap (λ e, from ← node_to_entity g !! source e;
             to ← node_to_entity g !! target e;
             Some (mkEntityRelationship from to (relation_type (edge_weight e))
                     (context (edge_weight e))))
    (edge_references (graph g)).

Definition get_all_entities g : list EntityData := btree_values (entities g).
Definition edge_count g : nat := graph_edge_count (graph g).

(** ** Entities *)

Definition get_entities_by_type g (ty : EntityType) : list EntityData :=
  filter (λ e, ed_entity_type e = ty) (btree_values (entities g)).

(** Newest first, ties by name. *)
Definition recency_order (a b : EntityData) : comparison :=
  then_with (Z.compare (last_mentioned b) (last_mentioned a))
    (str_cmp (ed_name a) (ed_name b)).

Definition get_recently_mentioned_entities `{SelectNth} g (limit : nat) : list EntityData :=
  top_k_by (btree_values (entities g)) limit recency_order.

Definition matches_query (query_lower : string) (e : EntityData) : bool :=
  str_contains (str_to_lowercase (ed_name e)) query_lower
  || match ed_description e with
     | Some desc => str_contains (str_to_lowercase desc) query_lower
     | None => false
     end.

Definition search_entities g (query : string) : list EntityData :=
  let query_lower := str_to_lowercase query in
  match entities g !! query with
  | Some entity => [entity]
  | None =>
    match entities g !! query_lower with
    | Some entity => [entity]
    | None => retain (matches_query query_lower) (btree_values (entities g))
    end
  end.

(** ** Traversals *)

Definition trace_entry : Type := string * string * string.

(** One edge of the loop body: [other] is its far end. *)
Definition trace_edge g (depth : nat) (entry : string → EdgeReference → trace_entry)
    (other : EdgeReference → nat)
    (st : (gset nat * list (nat * nat)) * list trace_entry) (e : EdgeReference) :=
  let '((visited, pushed), trace) := st in
  if decide (other e ∈ visited) then st
  else (({[other e]} ∪ visited, (pushed ++ [(other e, depth + 1)])%list),
        match node_to_entity g !! other e with
        | Some n => (trace ++ [entry n e])%list
        | None => trace
        end).

Definition trace_body g (max_depth : nat) (p : nat * nat)
    (st : gset nat * list trace_entry) : flow (nat * nat) (gset nat * list trace_entry) :=
  let '(current_node, depth) := p in
  if decide (max_depth ≤ depth)%nat then Continue st []
  else match node_to_entity g !! current_node with
  | None => Continue st []
  | Some current_name =>
    let out n e := (current_name, RelationType_debug (relation_type (edge_weight e)), n) in
    let inn n e := (n, "inverse_" +:+ RelationType_debug (relation_type (edge_weight e)),
                    current_name) in
    let st := ((st.1, []), st.2) in
    let st := foldl (trace_edge g depth out target) st
                (edges_directed (graph g) current_node Outgoing) in
    let st := foldl (trace_edge g depth inn source) st
                (edges_directed (graph g) current_node Incoming) in
    Continue (st.1.1, st.2) st.1.2
  end.

Definition trace_entity_relationships g (start_entity : string) (max_depth : nat)
    : option (list trace_entry) :=
  match entity_to_node g !! start_entity with
  | None => Some []
  | Some start_node =>
    snd <$> while_pop (trace_body g max_depth) (node_count (graph g)) [(start_node, 0)]
              ({[start_node]}, [])
  end.

(** Network under construction: entities, relations and their keys. *)
Record network_state := mkNetworkState {
  ns_entities : gmap string EntityData;
  ns_relationships : list EntityRelationship;
  ns_seen : list (string * string * RelationType);
}.

Definition network_relation g (current_ends : nat * nat) (e : EdgeReference)
    (ns : network_state) : network_state :=
  match node_to_entity g !! current_ends.1, node_to_entity g !! current_ends.2 with
  | Some from, Some to =>
    let key := (from, to, relation_type (edge_weight e)) in
    if decide (is_Some (ns_entities ns !! from) ∧ is_Some (ns_entities ns !! to)
               ∧ key ∉ ns_seen ns)
    then mkNetworkState (ns_entities ns)
           (ns_relationships ns ++ [mkEntityRelationship from to
              (relation_type (edge_weight e)) (context (edge_weight e))])%list
           (key :: ns_seen ns)
    else ns
  | _, _ => ns
  end.

Definition network_entity g (node : nat) (ns : network_state) : network_state :=
  match n ← node_to_entity g !! node; e ← entities g !! n; Some (n, e) with
  | Some (n, e) => mkNetworkState (<[n := e]> (ns_entities ns)) (ns_relationships ns)
                     (ns_seen ns)
  | None => ns
  end.

Definition network_edge g (depth : nat) (other : EdgeReference → nat)
    (ends : EdgeReference → nat * nat)
    (st : (gset nat * list (nat * nat)) * network_state) (e : EdgeReference) :=
  let '((visited, pushed), ns) := st in
  let '((visited, pushed), ns) :=
    if decide (other e ∈ visited) then st
    else (({[other e]} ∪ visited, (pushed ++ [(other e, depth + 1)])%list),
          network_entity g (other e) ns) in
  ((visited, pushed), network_relation g (ends e) e ns).

Definition network_body g (max_depth : nat) (p : nat * nat)
    (st : gset nat * network_state) : flow (nat * nat) (gset nat * network_state) :=
  let '(current_node, depth) := p in
  if decide (max_depth ≤ depth)%nat then Continue st []
  else
    let st := ((st.1, []), st.2) in
    let st := foldl (network_edge g depth target (λ e, (current_node, target e))) st
                (edges_directed (graph g) current_node Outgoing) in
    let st := foldl (network_edge g depth source (λ e, (source e, current_node))) st
                (edges_directed (graph g) current_node Incoming) in
    Continue (st.1.1, st.2) st.1.2.

Definition get_entity_network g (center_entity : string) (max_depth : nat)
    : option EntityNetwork :=
  match entity_to_node g !! center_entity with
  | None => Some (mkEntityNetwork center_entity ∅ [])
  | Some start_node =>
    match entities g !! center_entity with
    | None => Some (mkEntityNetwork center_entity ∅ [])
    | Some entity =>
      st ← while_pop (network_body g max_depth) (node_count (graph g)) [(start_node, 0)]
             ({[start_node]}, mkNetworkState {[center_entity := entity]} [] []);
      Some (mkEntityNetwork center_entity (ns_entities st.2) (ns_relationships st.2))
    end
  end.

(** One relation of the bounded traversal. *)
Definition bounded_entity g (max_entities : nat) (name : string) (depth : nat)
    (st : (gset string * list (string * nat)) * network_state) (r : RelationRef) :=
  let '((visited, pushed), ns) := st in
  let other := if String.eqb (rr_from r) name then rr_to r else rr_from r in
  if decide (size (ns_entities ns) < max_entities ∧ other ∉ visited)
  then match entities g !! other with
       | Some data =>
         (({[other]} ∪ visited, (pushed ++ [(other, depth + 1)])%list),
          mkNetworkState (<[other := data]> (ns_entities ns)) (ns_relationships ns)
            (ns_seen ns))
       | None => st
       end
  else st.

Definition bounded_relation (max_relationships : nat) (r : RelationRef)
    (ns : network_state) : network_state :=
  let key := (rr_from r, rr_to r, rr_relation_type r) in
  if decide (length (ns_relationships ns) < max_relationships
             ∧ is_Some (ns_entities ns !! rr_from r)
             ∧ is_Some (ns_entities ns !! rr_to r) ∧ key ∉ ns_seen ns)
  then mkNetworkState (ns_entities ns) (ns_relationships ns ++ [to_relationship r])%list
         (key :: ns_seen ns)
  else ns.

Definition bounded_step g (max_entities max_relationships : nat) (name : string)
    (depth : nat) (st : (gset string * list (string * nat)) * network_state)
    (r : RelationRef) :=
  let st := bounded_entity g max_entities name depth st r in
  (st.1, bounded_relation max_relationships r st.2).

Definition bounded_body g (max_depth max_entities max_relationships : nat)
    (p : string * nat) (st : gset string * network_state)
    : flow (string * nat) (gset string * network_state) :=
  let '(name, depth) := p in
  if decide (max_depth ≤ depth)%nat then Continue st []
  else if decide ((max_entities ≤ size (ns_entities st.2))%nat
                  ∧ (max_relationships ≤ length (ns_relationships st.2))%nat) then Break st
  else
    let st := foldl (bounded_step g max_entities max_relationships name depth)
                ((st.1, []), st.2) (relationships_of g name) in
    Continue (st.1.1, st.2) st.1.2.

Definition get_entity_network_bounded g (center : string)
    (max_depth max_entities max_relationships : nat) : option EntityNetwork :=
  match entities g !! center with
  | None => Some (mkEntityNetwork center ∅ [])
  | Some center_data =>
    if decide (max_entities = 0 ∨ entity_to_node g !! center = None)
    then Some (mkEntityNetwork center ∅ [])
    else
      st ← while_pop (bounded_body g max_depth max_entities max_relationships)
             (entity_count g) [(center, 0)]
             ({[center]}, mkNetworkState {[center := center_data]} [] []);
      Some (mkEntityNetwork center (ns_entities st.2) (ns_relationships st.2))
  end.
End queries.
