(* ===== verification/EntityQueriesThms.v ===== *)
(** * Queries of the entity graph: theorems

    Neighbour queries list exactly the neighbours; the traversals never run
    out of fuel and find exactly the entities within the depth limit; the
    bounded traversal honours its limits. *)

From S2P Require Import Prelude RustStd Bfs Collections F32 Types Petgraph EntityGraph StrLemmas.
From S2P Require Import EntityGraphWf EntityGraphInv EntityGraphSpec EntityQueries.
From S2P Require Import EntityGraphThms.

Local Open Scope string_scope.

Section queries.
Context `{U : Unicode} `{P : Petgraph} `{L : !PetgraphLaws} `{O : MapOrder}.
Implicit Types (g : SimpleEntityGraph).

(** ** Neighbours *)

(** A relation between two names, in either direction. *)
Definition related g (n m : string) : Prop :=
  ∃ r, r ∈ relationships g ∧ (rr_from r = n ∧ rr_to r = m ∨ rr_from r = m ∧ rr_to r = n).

Definition node_nbrs g (i : nat) : list nat :=
  ((target <$> edges_directed (graph g) i Outgoing)
   ++ (source <$> edges_directed (graph g) i Incoming))%list.

Lemma elem_of_out g i e :
  e ∈ edges_directed (graph g) i Outgoing ↔ source e = i ∧ e ∈ edge_references (graph g).
Proof. by rewrite edges_directed_out, list_elem_of_filter. Qed.

Lemma elem_of_in g i e :
  e ∈ edges_directed (graph g) i Incoming ↔ target e = i ∧ e ∈ edge_references (graph g).
Proof. by rewrite edges_directed_in, list_elem_of_filter. Qed.

Lemma elem_of_node_nbrs g i j :
  j ∈ node_nbrs g i
  ↔ ∃ e, e ∈ edge_references (graph g)
         ∧ (source e = i ∧ target e = j ∨ target e = i ∧ source e = j).
Proof.
  unfold node_nbrs. rewrite elem_of_app, !list_elem_of_fmap.
  setoid_rewrite elem_of_out. setoid_rewrite elem_of_in. split.
  - intros [(e & -> & ? & ?)|(e & -> & ? & ?)]; exists e; tauto.
  - intros (e & He & [[? <-]|[? <-]]); [left|right]; exists e; tauto.
Qed.

Lemma elem_of_relationships g r :
  r ∈ relationships g
  ↔ ∃ e, e ∈ edge_references (graph g)
         ∧ node_weight (graph g) (source e) = Some (rr_from r)
         ∧ node_weight (graph g) (target e) = Some (rr_to r)
         ∧ rr_relation_type r = relation_type (edge_weight e)
         ∧ rr_context r = context (edge_weight e).
Proof.
  unfold relationships. rewrite list_elem_of_omap. split.
  - intros (e & He & Hr). exists e. split; [done|]. by apply (triple_ref_inv _ (edge_triple e)).
  - intros (e & He & Ha & Hb & Hty & Hc). exists e. split; [done|].
    unfold relation_ref. rewrite Ha, Hb. simpl. rewrite <-Hty, <-Hc. by destruct r.
Qed.

Lemma edge_relationship g e :
  e ∈ edge_references (graph g) →
  ∃ n m, node_weight (graph g) (source e) = Some n
         ∧ node_weight (graph g) (target e) = Some m
         ∧ mkRelationRef n m (relation_type (edge_weight e)) (context (edge_weight e))
             ∈ relationships g.
Proof.
  intros He. destruct (edge_ends_in_range _ _ He) as [Ha Hb].
  apply lookup_lt_is_Some in Ha as [n Hn], Hb as [m Hm]. exists n, m.
  split_and!; [done..|]. apply elem_of_relationships. by exists e.
Qed.

Lemma node_nbrs_related g i j n m :
  index_wf g → node_weight (graph g) i = Some n → node_weight (graph g) j = Some m →
  j ∈ node_nbrs g i ↔ related g n m.
Proof.
  intros Hidx Hi Hj. rewrite elem_of_node_nbrs. unfold related.
  assert (∀ k x y, node_weight (graph g) k = Some x → node_weight (graph g) y = Some x → k = y)
    as Huniq by (intros; by eapply node_weight_unique).
  split.
  - intros (e & He & Hends). destruct (edge_relationship g e He) as (a & b & Ha & Hb & Hr).
    eexists. split; [exact Hr|]. simpl.
    destruct Hends as [[<- <-]|[<- <-]]; [left|right]; split; congruence.
  - intros (r & (e & He & Ha & Hb & _)%elem_of_relationships & Hends). exists e.
    split; [done|]. destruct Hends as [[<- <-]|[<- <-]]; [left|right]; eauto.
Qed.

Lemma elem_of_related g n m :
  graph_wf g → is_Some (entities g !! n) →
  m ∈ find_related_entities g n ↔ related g n m.
Proof.
  intros Hwf [i Hi]%(wf_dom _ Hwf). pose proof (wf_index _ Hwf) as Hidx.
  unfold find_related_entities, find_node. rewrite Hi.
  rewrite elem_of_btree_set, elem_of_app, !list_elem_of_omap.
  apply (wf_e2n _ Hidx) in Hi. setoid_rewrite (wf_n2e _ Hidx).
  setoid_rewrite elem_of_out. setoid_rewrite elem_of_in. split.
  - intros [(e & [Hs He] & Hm)|(e & [Hs He] & Hm)];
      rewrite <-node_nbrs_related by eauto; apply elem_of_node_nbrs; exists e; tauto.
  - intros (r & (e & He & Ha & Hb & _)%elem_of_relationships & [[<- <-]|[<- <-]]);
      [left|right]; exists e; split_and!; try done; by eapply node_weight_unique.
Qed.

Lemma related_known g n m : graph_wf g → related g n m → is_Some (entities g !! m).
Proof.
  intros Hwf (r & (e & _ & Ha & Hb & _)%elem_of_relationships & Hends).
  apply (wf_e2n _ (wf_index _ Hwf)) in Ha, Hb. apply (wf_dom _ Hwf).
  destruct Hends as [[<- <-]|[<- <-]]; by eexists.
Qed.

(** Reachability by node and by name agree. *)
Lemma within_names g i n k :
  graph_wf g → node_weight (graph g) i = Some n →
  ∀ m, within (find_related_entities g) n k m
       ↔ ∃ j, within (node_nbrs g) i k j ∧ node_weight (graph g) j = Some m.
Proof.
  intros Hwf Hi m. pose proof (wf_index _ Hwf) as Hidx.
  assert (∀ j x, node_weight (graph g) j = Some x → is_Some (entities g !! x)) as Hknown.
  { intros j x Hj. apply (wf_dom _ Hwf). apply (wf_e2n _ Hidx) in Hj. by eexists. }
  split.
  - induction 1 as [k|k x y _ (j & Hj & Hx) Hy].
    { exists i. split; [constructor|done]. }
    apply elem_of_related in Hy; [|done|by eapply Hknown].
    destruct (related_known _ _ _ Hwf Hy) as [e He].
    destruct (proj1 (wf_dom _ Hwf y) (ex_intro _ _ He)) as [j' Hj'].
    apply (wf_e2n _ Hidx) in Hj'. exists j'. split; [|done].
    apply within_step with j; [done|]. by apply (node_nbrs_related g j j' x y).
  - intros (j & Hj & Hm). revert m Hm. induction Hj as [k|k x y _ IH Hy]; intros m Hm.
    { assert (m = n) as -> by congruence. constructor. }
    pose proof Hy as Hxy. apply elem_of_node_nbrs in Hy as (e & He & Hends).
    destruct (edge_ends_in_range _ _ He) as [Ha Hb].
    assert (x < node_count (graph g)) as [nx Hx]%lookup_lt_is_Some.
    { destruct Hends as [[<- _]|[<- _]]; done. }
    apply within_step with nx; [by apply IH|].
    apply elem_of_related; [done|by eapply Hknown|].
    by apply (node_nbrs_related g x y).
Qed.

(** ** The traversals walk the same nodes as [bfs] *)

Lemma foldl_bfs {S} (step : (gset nat * list (nat * nat)) * S → EdgeReference →
                            (gset nat * list (nat * nat)) * S) d other st es :
  (∀ st e, (step st e).1 = bfs_visit d st.1 (other e)) →
  (foldl step st es).1 = foldl (bfs_visit d) st.1 (other <$> es).
Proof.
  intros Hs. revert st. induction es as [|e es IH]; intros st; [done|].
  simpl. by rewrite IH, Hs.
Qed.

Lemma node_nbrs_range g i j : j ∈ node_nbrs g i → j < node_count (graph g).
Proof.
  intros (e & He & Hends)%elem_of_node_nbrs.
  destruct (edge_ends_in_range _ _ He). destruct Hends as [[_ <-]|[_ <-]]; done.
Qed.

Lemma bfs_body_range g max p V V' ps q :
  bfs_body (node_nbrs g) max p V = Continue V' ps → q ∈ ps → q.1 < node_count (graph g).
Proof.
  unfold bfs_body. case_decide; [intros [= <- <-] Hq; by apply not_elem_of_nil in Hq|].
  destruct (bfs_visit_fold (node_nbrs g) p.2 (node_nbrs g p.1) V []) as (new & -> & _ & Hnew).
  intros [= <- <-] (y & -> & [Hy _]%Hnew)%list_elem_of_fmap. by eapply node_nbrs_range.
Qed.

(** A body that pushes what [bfs_body] pushes runs as long, and its visited
    set is that of [bfs]. *)
Lemma traversal_runs {S} (body : nat * nat → gset nat * S → flow (nat * nat) (gset nat * S))
    g max i s :
  (∀ p st, p.1 < node_count (graph g) →
           bfs_body (node_nbrs g) max p st.1 = flow_map fst (body p st)) →
  i < node_count (graph g) →
  ∃ st, while_pop body (node_count (graph g)) [(i, 0)] ({[i]}, s) = Some st
        ∧ ∀ j, j ∈ st.1 ↔ within (node_nbrs g) i max j.
Proof.
  intros Hb Hi.
  destruct (bfs_terminates (node_nbrs g) max (set_seq 0 (node_count (graph g))) i
              (node_count (graph g))) as [V HV].
  { apply elem_of_set_seq. lia. }
  { intros x y _ Hy%node_nbrs_range. apply elem_of_set_seq. lia. }
  { by rewrite size_set_seq. }
  assert (bfs (node_nbrs g) max (node_count (graph g)) i
          = fst <$> while_pop body (node_count (graph g)) [(i, 0)] ({[i]}, s)) as Hmap.
  { refine (while_pop_map body (bfs_body (node_nbrs g) max) fst
      (λ p, p.1 < node_count (graph g)) _ _ [(i, 0)] ({[i]}, s) _).
    - intros p st Hp. split; [by apply Hb|]. intros st' ps Hbody q Hq.
      eapply (bfs_body_range g max p st.1 st'.1 ps); [|done]. by rewrite Hb, Hbody.
    - by intros p ->%list_elem_of_singleton. }
  pose proof HV as HV'. rewrite Hmap in HV'. apply fmap_Some in HV' as (st & Hst & ->).
  exists st. split; [done|]. intros j. by eapply bfs_visited.
Qed.

Lemma bfs_body_visited g max p V V' ps :
  bfs_body (node_nbrs g) max p V = Continue V' ps →
  V ⊆ V' ∧ ∀ q, q ∈ ps → q.1 ∈ V'.
Proof.
  unfold bfs_body. case_decide.
  { intros [= <- <-]. split; [done|]. intros q Hq. by apply not_elem_of_nil in Hq. }
  destruct (bfs_visit_fold (node_nbrs g) p.2 (node_nbrs g p.1) V []) as (new & -> & _ & _).
  intros [= <- <-]. split; [by apply union_subseteq_r|].
  intros q (y & -> & Hy)%list_elem_of_fmap. apply elem_of_union_l.
  by apply elem_of_list_to_set.
Qed.

Lemma traversal_inv {S} (body : nat * nat → gset nat * S → flow (nat * nat) (gset nat * S))
    g max (Inv : gset nat → S → Prop) i s st :
  (∀ p st, p.1 < node_count (graph g) →
           bfs_body (node_nbrs g) max p st.1 = flow_map fst (body p st)) →
  (∀ p st st' ps, p.1 ∈ st.1 → p.1 < node_count (graph g) → Inv st.1 st.2 →
                  body p st = Continue st' ps → Inv st'.1 st'.2) →
  i < node_count (graph g) → Inv {[i]} s →
  while_pop body (node_count (graph g)) [(i, 0)] ({[i]}, s) = Some st → Inv st.1 st.2.
Proof.
  intros Hb Hstep Hi HI.
  apply (while_pop_inv body
    (λ q st, (∀ p, p ∈ q → p.1 ∈ st.1 ∧ p.1 < node_count (graph g)) ∧ Inv st.1 st.2)
    (λ st, Inv st.1 st.2)).
  - by intros st' [_ ?].
  - intros p q st1 st2 ps [Hq HInv] Hbody.
    destruct (Hq p (list_elem_of_here _ _)) as [Hp Hlt].
    pose proof (Hb p st1 Hlt) as Hproj. rewrite Hbody in Hproj. simpl in Hproj.
    destruct (bfs_body_visited _ _ _ _ _ _ Hproj) as [Hsub Hps].
    split; [|by eapply Hstep]. intros p' [Hp'|Hp']%elem_of_app.
    + destruct (Hq p') as [? ?]; [by right|]. split; [by apply Hsub|done].
    + split; [by apply Hps|]. by eapply bfs_body_range.
  - intros p q st1 st2 [Hq _] Hbody. destruct (Hq p (list_elem_of_here _ _)) as [_ Hlt].
    pose proof (Hb p st1 Hlt) as Hproj. rewrite Hbody in Hproj. simpl in Hproj.
    unfold bfs_body in Hproj. repeat case_match; done.
  - split; [|done]. intros p ->%list_elem_of_singleton. simpl.
    by rewrite elem_of_singleton.
Qed.

(** ** Traces *)

Definition entry_mentions (n : string) (t : trace_entry) : Prop := t.1.1 = n ∨ t.2 = n.

(** The entry tells a relation of the graph in its direction. *)
Definition entry_true g (t : trace_entry) : Prop :=
  ∃ r, r ∈ relationships g ∧ t.1.1 = rr_from r ∧ t.2 = rr_to r
       ∧ (t.1.2 = RelationType_debug (rr_relation_type r)
          ∨ t.1.2 = "inverse_" +:+ RelationType_debug (rr_relation_type r)).

(** The visited nodes are the start and the entities named in the trace. *)
Record trace_inv g (start : string) (V : gset nat) (tr : list trace_entry) : Prop := {
  tr_named i n : i ∈ V → node_weight (graph g) i = Some n →
                 n = start ∨ ∃ t, t ∈ tr ∧ entry_mentions n t;
  tr_visited t n : t ∈ tr → entry_mentions n t →
                   ∃ i, i ∈ V ∧ node_weight (graph g) i = Some n;
  tr_true t : t ∈ tr → entry_true g t;
}.

Lemma trace_edge_bfs g d entry other st e :
  (trace_edge g d entry other st e).1 = bfs_visit d st.1 (other e).
Proof. destruct st as [[V ps] tr]. unfold trace_edge, bfs_visit. simpl. by case_decide. Qed.

Lemma trace_body_bfs g max p st :
  index_wf g → p.1 < node_count (graph g) →
  bfs_body (node_nbrs g) max p st.1 = flow_map fst (trace_body g max p st).
Proof.
  intros Hidx [n Hn]%lookup_lt_is_Some. destruct p as [x d]. unfold bfs_body, trace_body.
  simpl in *. case_decide; [done|]. apply (wf_n2e _ Hidx) in Hn. rewrite Hn. simpl.
  unfold node_nbrs. rewrite foldl_app.
  rewrite !(foldl_bfs _ d source) by apply trace_edge_bfs.
  rewrite !(foldl_bfs _ d target) by apply trace_edge_bfs. simpl.
  by destruct (foldl (bfs_visit d) _ _).
Qed.

Lemma trace_edge_inv g start cur n d entry other st e :
  index_wf g → cur ∈ st.1.1 → node_weight (graph g) cur = Some n →
  other e < node_count (graph g) →
  (∀ m, node_weight (graph g) (other e) = Some m →
        entry_true g (entry m e) ∧ ∀ x, entry_mentions x (entry m e) ↔ x = n ∨ x = m) →
  trace_inv g start st.1.1 st.2 →
  trace_inv g start (trace_edge g d entry other st e).1.1 (trace_edge g d entry other st e).2
  ∧ cur ∈ (trace_edge g d entry other st e).1.1.
Proof.
  destruct st as [[V ps] tr]. unfold trace_edge. simpl. intros Hidx Hcur Hn Ho Hentry Hinv.
  case_decide; [done|]. simpl.
  apply lookup_lt_is_Some in Ho as [m Hm].
  assert (node_weight (graph g) (other e) = Some m) as Hm' by done.
  apply (wf_n2e _ Hidx) in Hm. rewrite Hm. destruct (Hentry m Hm') as [Htrue Hnames].
  destruct Hinv as [H1 H2 H3]. split; [|by apply elem_of_union_r]. split.
  - intros i x [->%elem_of_singleton|Hi]%elem_of_union Hx.
    + right. exists (entry m e). split; [apply elem_of_app; right; by left|].
      apply Hnames. right. congruence.
    + destruct (H1 i x Hi Hx) as [|(t & Ht & ?)]; [by left|right].
      exists t. split; [apply elem_of_app; by left|done].
  - intros t x [Ht| ->%list_elem_of_singleton]%elem_of_app Hx.
    + destruct (H2 t x Ht Hx) as (i & ? & ?). exists i. by rewrite elem_of_union; auto.
    + apply Hnames in Hx as [->| ->]; [exists cur|exists (other e)];
        (split; [|done]); rewrite elem_of_union, elem_of_singleton; auto.
  - intros t [Ht| ->%list_elem_of_singleton]%elem_of_app; [by apply H3|done].
Qed.

Lemma trace_body_inv g start max p st st' ps :
  graph_wf g → p.1 ∈ st.1 → p.1 < node_count (graph g) →
  trace_inv g start st.1 st.2 → trace_body g max p st = Continue st' ps →
  trace_inv g start st'.1 st'.2.
Proof.
  intros Hwf Hp [n Hn]%lookup_lt_is_Some Hinv. pose proof (wf_index _ Hwf) as Hidx.
  change (node_weight (graph g) p.1 = Some n) in Hn.
  destruct p as [x d], st as [V tr]. unfold trace_body. simpl in *.
  case_decide; [by intros [= <- <-]|].
  pose proof Hn as Hn'. apply (wf_n2e _ Hidx) in Hn'. rewrite Hn'. intros [= <- <-]. simpl.
  set (I := λ st : (gset nat * list (nat * nat)) * list trace_entry,
              trace_inv g start st.1.1 st.2 ∧ x ∈ st.1.1).
  match goal with |- trace_inv _ _ ?st.1.1 _ => enough (I st) as [HI _]; [exact HI|] end.
  apply foldl_inv; [|apply foldl_inv; [|done]]; intros st e He [Hst Hx].
  - apply elem_of_in in He as [He1 He]. destruct (edge_ends_in_range _ _ He).
    unfold I. apply (trace_edge_inv g start x n); try done. intros m Hm.
    split; [|intros y; unfold entry_mentions; simpl; naive_solver].
    destruct (edge_relationship g e He) as (a & b & Ha & Hb & Hr).
    eexists. split; [exact Hr|]. simpl. subst x.
    split_and!; [congruence|congruence|by right].
  - apply elem_of_out in He as [He1 He]. destruct (edge_ends_in_range _ _ He).
    unfold I. apply (trace_edge_inv g start x n); try done. intros m Hm.
    split; [|intros y; unfold entry_mentions; simpl; naive_solver].
    destruct (edge_relationship g e He) as (a & b & Ha & Hb & Hr).
    eexists. split; [exact Hr|]. simpl. subst x.
    split_and!; [congruence|congruence|by left].
Qed.

(** ** Networks *)

(** The relations kept are distinct relations of the graph between
    entities kept. *)
Record rels_inv g (ns : network_state) : Prop := {
  nw_true r : r ∈ ns_relationships ns →
              (∃ x, x ∈ relationships g ∧ to_relationship x = r)
              ∧ is_Some (ns_entities ns !! from_entity r)
              ∧ is_Some (ns_entities ns !! to_entity r);
  nw_seen k : k ∈ er_key <$> ns_relationships ns → k ∈ ns_seen ns;
  nw_distinct : NoDup (er_key <$> ns_relationships ns);
}.

(** The network under construction holds the visited entities and
    relations between them. *)
Record network_inv g (V : gset nat) (ns : network_state) : Prop := {
  nw_known n e : ns_entities ns !! n = Some e
                 ↔ entities g !! n = Some e ∧ ∃ i, i ∈ V ∧ node_weight (graph g) i = Some n;
  nw_rels : rels_inv g ns;
}.

Lemma network_edge_bfs g d other ends st e :
  (network_edge g d other ends st e).1 = bfs_visit d st.1 (other e).
Proof.
  destruct st as [[V ps] ns]. unfold network_edge, bfs_visit. simpl. by case_decide.
Qed.

Lemma network_body_bfs g max p st :
  bfs_body (node_nbrs g) max p st.1 = flow_map fst (network_body g max p st).
Proof.
  destruct p as [x d]. unfold bfs_body, network_body. simpl in *. case_decide; [done|].
  unfold node_nbrs. rewrite foldl_app. simpl.
  rewrite !(foldl_bfs _ d source) by apply network_edge_bfs.
  rewrite !(foldl_bfs _ d target) by apply network_edge_bfs. simpl.
  by destruct (foldl (bfs_visit d) _ _).
Qed.

(** Adding a relation already in the graph. *)
Lemma add_network_relation g ns r :
  r ∈ relationships g → is_Some (ns_entities ns !! rr_from r) →
  is_Some (ns_entities ns !! rr_to r) → rel_key r ∉ ns_seen ns → rels_inv g ns →
  rels_inv g (mkNetworkState (ns_entities ns)
    (ns_relationships ns ++ [to_relationship r])%list (rel_key r :: ns_seen ns)).
Proof.
  intros Hr Hf Ht Hk [H2 H3 H4]. split; simpl.
  - intros x [Hx| ->%list_elem_of_singleton]%elem_of_app; [by apply H2|].
    split_and!; [by exists r|done|done].
  - intros k. rewrite fmap_app, elem_of_app, elem_of_cons. intros [?|Hk'].
    + right. by apply H3.
    + left. apply list_elem_of_fmap in Hk' as (x & -> & ->%list_elem_of_singleton). done.
  - rewrite fmap_app. apply NoDup_app. split_and!; [done| |by apply NoDup_singleton].
    intros k Hk' (x & -> & ->%list_elem_of_singleton)%list_elem_of_fmap.
    by apply Hk, H3.
Qed.

Lemma network_relation_inv g V ends e ns :
  index_wf g → e ∈ edge_references (graph g) → ends = (source e, target e) →
  network_inv g V ns → network_inv g V (network_relation g ends e ns).
Proof.
  intros Hidx He -> Hinv. unfold network_relation. simpl.
  destruct (edge_relationship g e He) as (a & b & Ha & Hb & Hr).
  rewrite (proj2 (wf_n2e _ Hidx _ _) Ha), (proj2 (wf_n2e _ Hidx _ _) Hb).
  case_decide as Hd; [|done]. destruct Hd as (Hf & Ht & Hk).
  destruct Hinv as [H1 Hrels].
  split; [done|]. by apply (add_network_relation g ns _ Hr).
Qed.

Lemma insert_network_entity g ns n e :
  rels_inv g ns →
  rels_inv g (mkNetworkState (<[n := e]> (ns_entities ns)) (ns_relationships ns) (ns_seen ns)).
Proof.
  intros [H2 H3 H4]. split; simpl; [|done|done]. intros r Hr.
  destruct (H2 r Hr) as (? & ? & ?).
  split_and!; [done|..]; apply lookup_insert_is_Some'; by right.
Qed.

Lemma network_entity_inv g V i ns :
  graph_wf g → i < node_count (graph g) → network_inv g V ns →
  network_inv g ({[i]} ∪ V) (network_entity g i ns).
Proof.
  intros Hwf [n Hn]%lookup_lt_is_Some [H1 Hrels]. pose proof (wf_index _ Hwf) as Hidx.
  change (node_weight (graph g) i = Some n) in Hn. unfold network_entity.
  pose proof Hn as Hn'. apply (wf_n2e _ Hidx) in Hn'. rewrite Hn'. simpl.
  destruct (proj2 (wf_dom _ Hwf n)) as [e He].
  { exists i. by apply (wf_e2n _ Hidx). }
  rewrite He. simpl. split; simpl; [|by apply insert_network_entity].
  intros m x. rewrite lookup_insert. case_decide as Hm.
  - subst m. split.
    + intros [= <-]. split; [done|]. exists i. split; [|done].
      by apply elem_of_union_l, elem_of_singleton.
    + intros [Hx _]. congruence.
  - rewrite H1. split; intros [Hx (j & Hj & Hw)]; (split; [done|]); exists j;
      (split; [|done]); [by apply elem_of_union_r|].
    apply elem_of_union in Hj as [->%elem_of_singleton|?]; [congruence|done].
Qed.

Lemma network_edge_inv g d other ends st e :
  graph_wf g → e ∈ edge_references (graph g) → ends e = (source e, target e) →
  other e < node_count (graph g) → network_inv g st.1.1 st.2 →
  network_inv g (network_edge g d other ends st e).1.1 (network_edge g d other ends st e).2.
Proof.
  intros Hwf He Hends Ho Hinv. destruct st as [[V ps] ns]. unfold network_edge. simpl in *.
  case_decide; simpl; apply network_relation_inv; try done; try apply (wf_index _ Hwf).
  by apply network_entity_inv.
Qed.

Lemma network_body_inv g max p st st' ps :
  graph_wf g → network_inv g st.1 st.2 → network_body g max p st = Continue st' ps →
  network_inv g st'.1 st'.2.
Proof.
  intros Hwf Hinv. destruct p as [x d], st as [V ns]. unfold network_body. simpl in *.
  case_decide; [by intros [= <- <-]|]. intros [= <- <-]. simpl.
  apply (foldl_inv _ (λ st : (gset nat * list (nat * nat)) * network_state,
                        network_inv g st.1.1 st.2));
    [|apply (foldl_inv _ (λ st : (gset nat * list (nat * nat)) * network_state,
                            network_inv g st.1.1 st.2)); [|done]]; intros st e He Hst.
  - apply elem_of_in in He as [<- He]. destruct (edge_ends_in_range _ _ He).
    by apply network_edge_inv.
  - apply elem_of_out in He as [<- He]. destruct (edge_ends_in_range _ _ He).
    by apply network_edge_inv.
Qed.

(** ** Bounded networks *)

(** Within the limits; the entities kept are the visited ones. *)
Record bounded_inv g (me mr : nat) (V : gset string) (ns : network_state) : Prop := {
  bd_entities : (size (ns_entities ns) ≤ me)%nat;
  bd_relations : (length (ns_relationships ns) ≤ mr)%nat;
  bd_visited : V = dom (ns_entities ns);
  bd_known : ns_entities ns ⊆ entities g;
  bd_rels : rels_inv g ns;
}.

Lemma bounded_relation_inv g me mr V ns r :
  r ∈ relationships g → bounded_inv g me mr V ns →
  bounded_inv g me mr V (bounded_relation mr r ns).
Proof.
  intros Hr [H1 H2 H3 H4 H5]. unfold bounded_relation.
  case_decide as Hd; [|done]. destruct Hd as (Hlt & Hf & Ht & Hk).
  split; simpl; try done; [rewrite length_app; simpl; lia|].
  by apply (add_network_relation g ns r).
Qed.

(** What one relation adds to the queue it adds to the visited set. *)
Lemma bounded_entity_inv g me mr name d st r :
  bounded_inv g me mr st.1.1 st.2 →
  let st' := bounded_entity g me name d st r in
  bounded_inv g me mr st'.1.1 st'.2
  ∧ size st'.1.1 + length st.1.2 = size st.1.1 + length st'.1.2.
Proof.
  destruct st as [[V ps] ns]. unfold bounded_entity. simpl. intros [H1 H2 H3 H4 H5].
  set (other := if String.eqb _ _ then _ else _). case_decide as Hd; [|done].
  destruct Hd as [Hsize Hnew].
  destruct (entities g !! other) as [e|] eqn:He; [|done]. simpl.
  assert (ns_entities ns !! other = None) as Hnone.
  { apply not_elem_of_dom. by subst V. }
  split; [split; simpl|].
  - rewrite map_size_insert_None by done. lia.
  - done.
  - subst V. by rewrite dom_insert_L.
  - by apply insert_subseteq_l.
  - by apply insert_network_entity.
  - rewrite size_union, size_singleton, length_app by set_solver. simpl. lia.
Qed.

Lemma bounded_fold g me mr name d rels st :
  (∀ r, r ∈ rels → r ∈ relationships g) → bounded_inv g me mr st.1.1 st.2 →
  let st' := foldl (bounded_step g me mr name d) st rels in
  bounded_inv g me mr st'.1.1 st'.2
  ∧ size st'.1.1 + length st.1.2 = size st.1.1 + length st'.1.2.
Proof.
  intros Hrels Hinv. simpl.
  apply (foldl_inv _ (λ st', bounded_inv g me mr st'.1.1 st'.2
    ∧ size st'.1.1 + length st.1.2 = size st.1.1 + length st'.1.2)); [|done].
  intros st' r Hr [Hst Hlen]. unfold bounded_step.
  destruct (bounded_entity_inv g me mr name d st' r Hst) as [Hst' Hlen'].
  simpl. split; [apply bounded_relation_inv; [by apply Hrels|done]|]. lia.
Qed.

Lemma relationships_of_true g n r :
  graph_wf g → r ∈ relationships_of g n → r ∈ relationships g.
Proof.
  intros Hwf. rewrite (relationships_of_perm _ _ (wf_index _ Hwf)).
  by intros [_ ?]%list_elem_of_filter.
Qed.

Lemma bounded_body_inv g md me mr p st st' ps :
  graph_wf g → bounded_inv g me mr st.1 st.2 →
  bounded_body g md me mr p st = Continue st' ps →
  bounded_inv g me mr st'.1 st'.2 ∧ size st'.1 = size st.1 + length ps.
Proof.
  intros Hwf Hinv. destruct p as [n d], st as [V ns]. unfold bounded_body. simpl in *.
  repeat case_decide; [intros [= <- <-]; simpl; split; [done|lia]|done|].
  destruct (bounded_fold g me mr n d (relationships_of g n) ((V, []), ns)) as [Hf Hlen];
    [intros r; by apply relationships_of_true|done|].
  intros [= <- <-]. split; [done|]. simpl in *. lia.
Qed.

Lemma bounded_size g me mr V ns :
  bounded_inv g me mr V ns → (size V ≤ size (entities g))%nat.
Proof.
  intros [_ _ -> Hsub _]. rewrite size_dom. by apply map_subseteq_size.
Qed.
End queries.

(** ** Top-k selection *)

Lemma recency_order_le a b :
  cmp_le recency_order a b
  ↔ (last_mentioned b < last_mentioned a)%Z
    ∨ last_mentioned a = last_mentioned b ∧ String.le (ed_name a) (ed_name b).
Proof.
  rewrite <-str_cmp_le. unfold recency_order, cmp_le, then_with.
  destruct (Z.compare_spec (last_mentioned b) (last_mentioned a)); split;
    intuition (congruence || lia).
Qed.

#[global] Instance recency_order_preorder : TotalPreorder recency_order.
Proof.
  split.
  - intros a b. rewrite !recency_order_le.
    destruct (total String.le (ed_name a) (ed_name b));
      destruct (Z.lt_total (last_mentioned a) (last_mentioned b)) as [|[|]]; auto.
  - intros a b c. rewrite !recency_order_le.
    intros [?|[-> ?]] [?|[? ?]]; [left; lia|left; lia|left; lia|right].
    split; [done|]. by transitivity (ed_name b).
Qed.

Lemma top_k_by_spec `{SelectNthLaws} {A} (cmp : A → A → comparison) `{!TotalPreorder cmp}
    (items : list A) limit :
  let top := top_k_by items limit cmp in
  length top = limit `min` length items
  ∧ StronglySorted (cmp_le cmp) top
  ∧ ∃ rest, top ++ rest ≡ₚ items ∧ ∀ x y, x ∈ top → y ∈ rest → cmp_le cmp x y.
Proof.
  unfold top_k_by. destruct (Nat.eqb_spec limit 0) as [->|Hl]; simpl.
  { split_and!; [done|constructor|]. exists items. split; [done|].
    intros x y Hx. by apply not_elem_of_nil in Hx. }
  destruct (Nat.ltb_spec limit (length items)) as [Hlt|Hge].
  - set (sel := select_nth_unstable_by cmp (limit - 1) items).
    assert (sel ≡ₚ items) as Hperm by (apply select_nth_perm; lia).
    assert (length sel = length items) as Hlen by by rewrite Hperm.
    split_and!.
    + rewrite sort_by_perm, length_take. lia.
    + by apply sort_by_sorted.
    + exists (drop limit sel). split.
      * by rewrite sort_by_perm, take_drop.
      * intros x y. rewrite sort_by_perm.
        intros (i & [Hx Hi]%lookup_take_Some)%list_elem_of_lookup
          (j & Hy)%list_elem_of_lookup.
        rewrite lookup_drop in Hy.
        apply (select_nth_split cmp (limit - 1) items i (limit + j)); (done || lia).
  - split_and!.
    + rewrite sort_by_perm. lia.
    + by apply sort_by_sorted.
    + exists []. rewrite app_nil_r. split; [apply sort_by_perm|].
      intros x y _ Hy. by apply not_elem_of_nil in Hy.
Qed.

(** ** Theorems *)

Section theorems.
Context `{U : Unicode} `{P : Petgraph} `{L : !PetgraphLaws} `{O : MapOrder}.
Implicit Types (g : SimpleEntityGraph).

(** [find_related_entities] on a known entity lists exactly the names it
    has a relation with in either direction, each once, in string order. *)
Theorem find_related_exact g n :
  graph_wf g → is_Some (entities g !! n) →
  (∀ m, m ∈ find_related_entities g n ↔ related g n m)
  ∧ NoDup (find_related_entities g n)
  ∧ StronglySorted String.le (find_related_entities g n).
Proof.
  intros Hwf Hn. split; [intros m; by apply elem_of_related|].
  unfold find_related_entities. case_match; [|split; constructor].
  split; [apply btree_set_NoDup|apply btree_set_sorted].
Qed.

(** [trace_entity_relationships] terminates, and the entities named in
    the trace, with the start, are exactly those reachable from the start in
    at most [max_depth] relations (in either direction); every entry tells a
    stored relation in its stored direction. *)
Theorem trace_reaches g start max_depth :
  graph_wf g → is_Some (entities g !! start) →
  ∃ tr, trace_entity_relationships g start max_depth = Some tr
    ∧ (∀ n, (n = start ∨ ∃ t, t ∈ tr ∧ entry_mentions n t)
            ↔ within (find_related_entities g) start max_depth n)
    ∧ ∀ t, t ∈ tr → entry_true g t.
Proof.
  intros Hwf Hs. pose proof (wf_index _ Hwf) as Hidx.
  destruct (proj1 (wf_dom _ Hwf _) Hs) as [i Hi]. unfold trace_entity_relationships.
  rewrite Hi. apply (wf_e2n _ Hidx) in Hi. pose proof (lookup_lt_Some _ _ _ Hi) as Hlt.
  pose proof (λ p st, trace_body_bfs g max_depth p st Hidx) as Hbfs.
  destruct (traversal_runs _ g max_depth i [] Hbfs Hlt) as (st & Hst & Hreach).
  rewrite Hst. exists st.2. split; [done|].
  assert (trace_inv g start st.1 st.2) as [H1 H2 H3].
  { apply (traversal_inv _ g max_depth (trace_inv g start) i []
             st Hbfs); [|done| |done].
    - intros p s s' ps. by apply trace_body_inv.
    - split.
      + intros j n ->%elem_of_singleton Hj. left. congruence.
      + intros t n Ht. by apply not_elem_of_nil in Ht.
      + intros t Ht. by apply not_elem_of_nil in Ht. }
  split; [|done]. intros n. rewrite (within_names g i start max_depth Hwf Hi).
  setoid_rewrite <-Hreach. split.
  - intros [->|(t & Ht & Hn)]; [|by eapply H2].
    exists i. split; [apply Hreach; constructor|done].
  - intros (j & Hj & Hw). by apply (H1 j).
Qed.

(** C6: [get_entity_network] terminates, and its entities are exactly those
    reachable from the center in at most [max_depth] relations, with their
    stored data; its relations are stored ones, between its entities, and
    no two share endpoints and type. *)
Theorem network_reaches g center max_depth :
  graph_wf g → is_Some (entities g !! center) →
  ∃ nw, get_entity_network g center max_depth = Some nw
    ∧ (∀ n e, nw_entities nw !! n = Some e
              ↔ entities g !! n = Some e
                ∧ within (find_related_entities g) center max_depth n)
    ∧ (∀ r, r ∈ nw_relationships nw →
            (∃ x, x ∈ relationships g ∧ to_relationship x = r)
            ∧ is_Some (nw_entities nw !! from_entity r)
            ∧ is_Some (nw_entities nw !! to_entity r))
    ∧ NoDup (er_key <$> nw_relationships nw).
Proof.
  intros Hwf Hs. pose proof (wf_index _ Hwf) as Hidx.
  destruct (proj1 (wf_dom _ Hwf _) Hs) as [i Hi]. destruct Hs as [e He].
  unfold get_entity_network. rewrite Hi, He.
  apply (wf_e2n _ Hidx) in Hi. pose proof (lookup_lt_Some _ _ _ Hi) as Hlt.
  set (ns := mkNetworkState {[center := e]} [] []).
  pose proof (λ p st (_ : p.1 < node_count (graph g)), network_body_bfs g max_depth p st)
    as Hbfs.
  destruct (traversal_runs _ g max_depth i ns Hbfs Hlt) as (st & Hst & Hreach).
  rewrite Hst. simpl. eexists. split; [done|]. simpl.
  assert (network_inv g st.1 st.2) as [H1 [H2 _ H4]].
  { apply (traversal_inv _ g max_depth (network_inv g) i ns st Hbfs); [|done| |done].
    - intros p s s' ps _ _. by apply network_body_inv.
    - split; [|split; simpl; [|done|constructor]].
      + intros n x. unfold ns. simpl. rewrite lookup_singleton_Some.
        setoid_rewrite elem_of_singleton. split.
        * intros [<- <-]. eauto.
        * intros [Hx (j & -> & Hj)]. assert (n = center) as -> by congruence.
          split; congruence.
      + intros r Hr. by apply not_elem_of_nil in Hr. }
  split_and!; [|done|done]. intros n x.
  rewrite H1, (within_names g i center max_depth Hwf Hi). by setoid_rewrite Hreach.
Qed.

(** [get_entity_network_bounded] terminates and never exceeds its
    limits; what it keeps is stored data and distinct stored relations
    between the entities kept. *)
Theorem bounded_network_honours_limits g center max_depth max_entities max_relationships :
  graph_wf g → is_Some (entities g !! center) →
  ∃ nw, get_entity_network_bounded g center max_depth max_entities max_relationships = Some nw
    ∧ (size (nw_entities nw) ≤ max_entities)%nat
    ∧ (length (nw_relationships nw) ≤ max_relationships)%nat
    ∧ nw_entities nw ⊆ entities g
    ∧ (∀ r, r ∈ nw_relationships nw →
            (∃ x, x ∈ relationships g ∧ to_relationship x = r)
            ∧ is_Some (nw_entities nw !! from_entity r)
            ∧ is_Some (nw_entities nw !! to_entity r))
    ∧ NoDup (er_key <$> nw_relationships nw).
Proof.
  intros Hwf Hs. destruct (proj1 (wf_dom _ Hwf _) Hs) as [i Hi]. destruct Hs as [e He].
  unfold get_entity_network_bounded. rewrite He, Hi.
  case_decide as Hz.
  { eexists. split; [done|]. simpl. rewrite map_size_empty.
    split_and!; try lia; [apply map_empty_subseteq| |constructor].
    intros r Hr. by apply not_elem_of_nil in Hr. }
  set (ns := mkNetworkState {[center := e]} [] []).
  assert (bounded_inv g max_entities max_relationships {[center]} ns) as Hinit.
  { split; simpl.
    - rewrite map_size_singleton. destruct max_entities; [exfalso; tauto|lia].
    - lia.
    - by rewrite dom_singleton_L.
    - by apply map_singleton_subseteq_l.
    - split; simpl; [|done|constructor]. intros r Hr. by apply not_elem_of_nil in Hr. }
  set (Inv := λ (_ : list (string * nat)) (st : gset string * network_state),
                bounded_inv g max_entities max_relationships st.1 st.2).
  destruct (while_pop_terminates (bounded_body g max_depth max_entities max_relationships)
              Inv (λ st, entity_count g - size st.1)) with (fuel := entity_count g)
    (q := [(center, 0)]) (s := ({[center]} : gset string, ns)) as [st Hst].
  { intros p q st st' ps HI Hb.
    destruct (bounded_body_inv _ _ _ _ _ _ _ _ Hwf HI Hb) as [HI' Hsize].
    split; [|done]. pose proof (bounded_size _ _ _ _ _ HI'). unfold entity_count. lia. }
  { done. }
  { cbn [length fst]. rewrite size_singleton. pose proof (bounded_size _ _ _ _ _ Hinit) as Hle.
    rewrite size_singleton in Hle. unfold entity_count. lia. }
  rewrite Hst. simpl. eexists. split; [done|]. simpl.
  assert (bounded_inv g max_entities max_relationships st.1 st.2) as [H1 H2 _ H4 [H5 _ H6]].
  { eapply (while_pop_inv _ Inv (λ st, Inv [] st)); [| | | |exact Hst].
    - done.
    - intros p q s s' ps HI Hb. by eapply bounded_body_inv.
    - intros [n d] q s s' HI. unfold bounded_body. repeat case_decide; [done| |done].
      by intros [= <-].
    - exact Hinit. }
  done.
Qed.

(** [get_recently_mentioned_entities] returns [min limit n] entities,
    sorted newest first with ties by name, and no entity left out comes
    before one returned. *)
Theorem recently_mentioned_top `{S : SelectNth} `{!SelectNthLaws} g limit :
  let top := get_recently_mentioned_entities g limit in
  length top = (limit `min` entity_count g)%nat
  ∧ StronglySorted (cmp_le recency_order) top
  ∧ ∃ rest, (top ++ rest)%list ≡ₚ btree_values (entities g)
            ∧ ∀ x y, x ∈ top → y ∈ rest → cmp_le recency_order x y.
Proof.
  destruct (top_k_by_spec recency_order (btree_values (entities g)) limit)
    as (Hlen & Hsort & Hrest). split; [|done].
  unfold get_recently_mentioned_entities. rewrite Hlen. unfold entity_count, btree_values.
  by rewrite length_fmap, btree_iter_perm, length_map_to_list.
Qed.
End theorems.

(** ** Instances *)

#[local] Existing Instances ascii_unicode list_graph demo_libm list_graph_laws key_order
  sorting_select sorting_select_laws.

Lemma find_related_exact_witness :
  NoDup (find_related_entities demo "API")
  ∧ find_related_entities demo "API" = ["API"; "Auth Service"; "Database"].
Proof.
  split; [|vm_compute; reflexivity].
  exact (proj1 (proj2 (find_related_exact demo "API" demo_wf (proj1 demo_known)))).
Defined.

Lemma trace_reaches_witness :
  ∃ tr, trace_entity_relationships demo "API" 1 = Some tr ∧ ∀ t, t ∈ tr → entry_true demo t.
Proof.
  destruct (trace_reaches demo "API" 1 demo_wf (proj1 demo_known)) as (tr & Htr & _ & Htrue).
  exists tr. split; [exact Htr|exact Htrue].
Defined.

Lemma network_reaches_witness :
  ∃ nw, get_entity_network demo "API" 2 = Some nw ∧ NoDup (er_key <$> nw_relationships nw).
Proof.
  destruct (network_reaches demo "API" 2 demo_wf (proj1 demo_known)) as (nw & Hnw & _ & _ & Hnd).
  exists nw. split; [exact Hnw|exact Hnd].
Defined.

Lemma bounded_network_honours_limits_witness :
  ∃ nw, get_entity_network_bounded demo "API" 2 2 1 = Some nw
        ∧ (size (nw_entities nw) ≤ 2)%nat ∧ length (nw_relationships nw) = 1.
Proof.
  destruct (bounded_network_honours_limits demo "API" 2 2 1 demo_wf (proj1 demo_known))
    as (nw & Hnw & Hsize & _).
  exists nw. split; [exact Hnw|]. split; [exact Hsize|].
  vm_compute in Hnw. injection Hnw as <-. reflexivity.
Defined.

Lemma recently_mentioned_top_witness :
  length (get_recently_mentioned_entities demo 2) = 2.
Proof. exact (proj1 (recently_mentioned_top demo 2)). Defined.
