(* ===== verification/ContextAssembly.v ===== *)
(** * Context assembly

    [memory/context_assembly.rs]: the entities a query names, their
    neighbourhood in the entity graph, what depends on them, and the records
    packed into a token budget; the text handed to a model.  The query entry
    points that add cards and conversation excerpts are in [AssemblyScope].

    Token counts and lengths are [nat]; timestamps nanoseconds. *)

From S2P Require Import Prelude RustStd UuidText Collections F32 Types Petgraph EntityGraph EntityQueries.

Local Open Scope string_scope.

(** ** Data *)

Inductive ContextSource :=
  | SemanticMatch
  | GraphTraversal (via_entity : string)
  | RecentUpdate
  | Conversation.

#[global] Instance context_source_eq_dec : EqDecision ContextSource.
Proof. solve_decision. Defined.

Record ContextItem := mkContextItem {
  ci_text : string;
  ci_score : f32;
  ci_source : ContextSource;
  ci_entities : list string;
  token_estimate : nat;
  entry_id : string;
}.

Inductive EntityRelevance :=
  | DirectMention
  | GraphNeighbor (via relation : string).

#[global] Instance entity_relevance_eq_dec : EqDecision EntityRelevance.
Proof. solve_decision. Defined.

Record EntityContext := mkEntityContext {
  ec_name : string;
  relevance : EntityRelevance;
  ec_relationships : list EntityRelationship;
}.

Record ImpactEntry := mkImpactEntry {
  ie_entity : string;
  depends_on : string;
  ie_relation_type : RelationType;
  ie_context : string;
}.

#[global] Instance impact_entry_eq_dec : EqDecision ImpactEntry.
Proof. solve_decision. Defined.

(** [core/card.rs]. *)
Inductive CardScope :=
  | CardWorkspace (id : Uuid)
  | CardUser.

Record Card := mkCard {
  card_scope : CardScope;
  card_version : N;
  card_text : string;
  card_updated_at : DateTime;
  card_author : option string;
}.

Record AssembledContext := mkAssembledContext {
  items : list ContextItem;
  entity_context : list EntityContext;
  impact : list ImpactEntry;
  total_tokens : nat;
  cards : list Card;
}.

(** ** Strings *)

Definition starts_with (s prefix : string) : bool :=
  bool_decide (take (str_len prefix) (str_bytes s) = str_bytes prefix).

(** [str::eq_ignore_ascii_case]. *)
Definition eq_ignore_ascii_case (a b : string) : bool :=
  bool_decide (ascii_lower <$> str_bytes a = ascii_lower <$> str_bytes b).

Definition div_ceil (a b : nat) : nat := ((a + (b - 1)) / b)%nat.

(** Rough token estimate: one for every four bytes begun. *)
Definition estimate_tokens (text : string) : nat := div_ceil (str_len text) 4.

(** [Iterator::sum]. *)
Fixpoint sum_list (ns : list nat) : nat :=
  match ns with [] => 0 | n :: ns => (n + sum_list ns)%nat end.

Definition newline : string := str_of_bytes [10%N].

(** ** The summary sections *)

Definition relation_line (rel : EntityRelationship) : string :=
  "  " +:+ from_entity rel +:+ " --[" +:+ RelationType_debug (er_relation_type rel)
  +:+ "]--> " +:+ to_entity rel.

(** The deduplicated relationship lines of the entity context, if any. *)
Definition entity_section (entity_context : list EntityContext) : option string :=
  let graph_lines := relation_line <$> (entity_context ≫= ec_relationships) in
  match graph_lines with
  | [] => None
  | _ =>
    Some ("Entity relationships:" +:+ newline
          +:+ String.concat newline (dedup (sort_by str_cmp graph_lines)))
  end.

Definition impact_line (i : ImpactEntry) : string :=
  "  " +:+ ie_entity i +:+ " depends on " +:+ depends_on i +:+ " ("
  +:+ RelationType_debug (ie_relation_type i) +:+ ")".

(** The dash of the heading is U+2014, three bytes in UTF-8. *)
Definition impact_heading : string :=
  "Impact analysis " +:+ str_of_chars [8212%N]
  +:+ " these entities depend on what you're working with:" +:+ newline.

Definition impact_section (impact : list ImpactEntry) : option string :=
  match impact with
  | [] => None
  | _ => Some (impact_heading +:+ String.concat newline (impact_line <$> impact))
  end.

Definition opt_list {A} (o : option A) : list A :=
  match o with Some x => [x] | None => [] end.

Definition graph_section_tokens (entity_context : list EntityContext)
    (impact : list ImpactEntry) : nat :=
  sum_list (estimate_tokens
    <$> (opt_list (entity_section entity_context) ++ opt_list (impact_section impact))%list).

(** ** Entities of the query *)

Section assembly.
Context `{U : Unicode} `{A : Alphanumeric} `{C : Uppercase} `{I : UuidText} `{P : Petgraph} `{O : MapOrder}.
Implicit Types (g : SimpleEntityGraph).

Definition query_tokens_of (query_lower : string) : list string :=
  filter (λ t, 3 <= str_len t)%nat
    (str_of_chars <$> split_chars (λ c, negb (is_alphanumeric c) && negb (N.eqb c 95))
                        (str_chars query_lower)).

Definition is_token_separator (c : N) : bool :=
  existsb (N.eqb c) [95; 45; 47; 32; 46]%N.

(** The loop body of [split_entity_tokens]: the tokens so far and the
    current one. *)
Definition split_step (st : list (list N) * list N) (c : N) : list (list N) * list N :=
  let '(tokens, current) := st in
  if is_token_separator c then
    match current with
    | [] => (tokens, [])
    | _ => ((tokens ++ [current])%list, [])
    end
  else if is_uppercase c && negb (bool_decide (current = []))
  then ((tokens ++ [current])%list, [ascii_lower c])
  else (tokens, (current ++ [ascii_lower c])%list).

Definition split_entity_tokens (name : string) : list string :=
  let '(tokens, current) := foldl split_step ([], []) (str_chars name) in
  str_of_chars <$> match current with [] => tokens | _ => (tokens ++ [current])%list end.

(** Equal, or one a prefix of the other. *)
Definition token_matches (et qt : string) : bool :=
  let '(shorter, longer) :=
    if (str_len et <=? str_len qt)%nat then (et, qt) else (qt, et) in
  (3 <=? str_len shorter)%nat && starts_with longer shorter.

Definition match_threshold (n : nat) : nat :=
  if (n <=? 2)%nat then n else Nat.max 1 (div_ceil (n * 2) 5).

(** The loop body of [find_query_entities]: name, score, exact match. *)
Definition match_entity (query_lower : string) (query_tokens : list string)
    (name : string) : option (string * nat * bool) :=
  let name_lower := str_to_lowercase name in
  if (str_len name_lower <? 2)%nat then None
  else if str_contains query_lower name_lower
  then Some (name, (str_len name_lower * 10)%nat, true)
  else
    let entity_tokens := split_entity_tokens name_lower in
    let matched :=
      length (retain (λ et, negb (str_len et <? 3)%nat && existsb (token_matches et) query_tokens)
                entity_tokens) in
    if bool_decide (entity_tokens = []) || (matched =? 0)%nat then None
    else if (match_threshold (length entity_tokens) <=? matched)%nat
    then Some (name, (matched * 5 + str_len name_lower)%nat, false)
    else None.

Definition bool_cmp (a b : bool) : comparison :=
  match a, b with true, false => Gt | false, true => Lt | _, _ => Eq end.

(** Exact matches first, then the higher score. *)
Definition found_order (a b : string * nat * bool) : comparison :=
  then_with (bool_cmp b.2 a.2) (Nat.compare b.1.2 a.1.2).

Definition find_query_entities (query : string) g : list string :=
  let query_lower := str_to_lowercase query in
  (λ f, f.1.1) <$>
    sort_by found_order
      (omap (λ e, match_entity query_lower (query_tokens_of query_lower) (ed_name e))
            (btree_values (entities g))).

(** ** Their neighbourhood *)

Definition get_entity_relationships (entity : string) g : list EntityRelationship :=
  to_relationship <$> relationships_of g entity.

Definition get_relationship_description (from to : string) g : string :=
  match relation_between g from to with
  | rel :: _ =>
    if String.eqb (rr_from rel) from then RelationType_debug (rr_relation_type rel)
    else RelationType_debug (rr_relation_type rel) +:+ " (reverse)"
  | [] => "RelatedTo"
  end.

(** [seen] and [result] of [build_entity_context]. *)
Definition context_state : Type := gset string * list EntityContext.

Definition mention_directly g (st : context_state) (entity : string) : context_state :=
  if decide (entity ∈ st.1) then st
  else ({[entity]} ∪ st.1,
        (st.2 ++ [mkEntityContext entity DirectMention (get_entity_relationships entity g)])%list).

Definition add_neighbor g (entity : string) (st : context_state) (neighbor : string)
    : context_state :=
  if decide (neighbor ∈ st.1) then st
  else ({[neighbor]} ∪ st.1,
        (st.2 ++ [mkEntityContext neighbor
                    (GraphNeighbor entity (get_relationship_description entity neighbor g))
                    (get_entity_relationships neighbor g)])%list).

Definition current_entities (depth : nat) (result : list EntityContext) : list string :=
  ec_name <$> retain (λ ec, if (depth =? 0)%nat then bool_decide (relevance ec = DirectMention)
                            else true) result.

Definition expand_context g (st : context_state) (depth : nat) : context_state :=
  foldl (λ st entity, foldl (add_neighbor g entity) st (find_related_entities g entity))
    st (current_entities depth st.2).

Definition build_entity_context (query_entities : list string) g (max_depth : nat)
    : list EntityContext :=
  (foldl (expand_context g) (foldl (mention_directly g) (∅, []) query_entities)
     (seq 0 max_depth)).2.

(** ** Impact analysis *)

Definition dependency_types : list RelationType := [DependsOn; RequiredBy; Implements].

(** What one relation of a query entity adds. *)
Definition impact_of (query_entities : list string) (rel : RelationRef) : list ImpactEntry :=
  if String.eqb (rr_from rel) (rr_to rel) then []
  else
    ((if decide (rr_relation_type rel ∈ dependency_types ∧ rr_to rel ∈ query_entities)
      then [mkImpactEntry (rr_from rel) (rr_to rel) (rr_relation_type rel) (rr_context rel)]
      else [])
     ++ (if decide (rr_relation_type rel = RequiredBy ∧ rr_from rel ∈ query_entities)
         then [mkImpactEntry (rr_to rel) (rr_from rel) (rr_relation_type rel) (rr_context rel)]
         else []))%list.

(** [retain(|i| seen.insert((entity, depends_on)))]. *)
Definition dedup_impact (impacts : list ImpactEntry) : list ImpactEntry :=
  (foldl (λ (st : gset (string * string) * list ImpactEntry) i,
     if decide ((ie_entity i, depends_on i) ∈ st.1) then st
     else ({[(ie_entity i, depends_on i)]} ∪ st.1, (st.2 ++ [i])%list)) (∅, []) impacts).2.

Definition analyze_impact (query_entities : list string) g : list ImpactEntry :=
  dedup_impact
    (query_entities ≫= λ q, relationships_of g q ≫= impact_of query_entities).

Definition entity_summary_tokens (query : string) g : nat :=
  let query_entities := find_query_entities query g in
  graph_section_tokens (build_entity_context query_entities g 1)
    (analyze_impact query_entities g).

(** ** Scores *)

(** The binary32 values of the literals. *)
Definition f32_ratio (a b : N) : f32 := f32_div (f32_of_N a) (f32_of_N b).
Definition f32_0_2 : f32 := Eval vm_compute in f32_ratio 2 10.
Definition f32_0_3 : f32 := Eval vm_compute in f32_ratio 3 10.
Definition f32_24 : f32 := Eval vm_compute in f32_of_N 24.

(** [f32::min]. *)
Definition f32_min (x y : f32) : f32 :=
  if f32_is_nan x then y else if f32_is_nan y then x
  else if f32_lt y x then y else x.

(** [TimeDelta::num_hours], rounding towards zero. *)
Definition num_hours (d : Z) : Z := Z.quot d 3600000000000.

Definition recency_score (now timestamp : DateTime) : f32 :=
  let age_hours := f32_of_N (Z.to_N (Z.max (num_hours (now - timestamp)) 0)) in
  f32_div f32_one (f32_add f32_one (f32_div age_hours f32_24)).

Definition relevance_boost (r : EntityRelevance) : f32 :=
  match r with DirectMention => f32_0_4 | GraphNeighbor _ _ => f32_0_2 end.

(** The entities of the context whose name occurs in the text. *)
Definition matched_in (text_lower : string) (entity_context : list EntityContext)
    : list EntityContext :=
  retain (λ ec, str_contains text_lower (str_to_lowercase (ec_name ec))) entity_context.

Definition item_source (query_entities matched_entities : list string) : ContextSource :=
  match matched_entities with
  | [] => RecentUpdate
  | via :: _ =>
    if existsb (λ qe, existsb (λ me, eq_ignore_ascii_case me qe) matched_entities) query_entities
    then SemanticMatch else GraphTraversal via
  end.

Definition update_text (update : ContextUpdate) : string :=
  uc_title (cu_content update) +:+ ": " +:+ uc_description (cu_content update).

(** Step 4: one scored item per update. *)
Definition score_update (now : DateTime) (query_entities : list string)
    (entity_context : list EntityContext) (update : ContextUpdate) : ContextItem :=
  let text := update_text update in
  let matched := matched_in (str_to_lowercase text) entity_context in
  let entity_boost :=
    foldl (λ b ec, f32_add b (relevance_boost (relevance ec))) f32_zero matched in
  let importance_boost := if user_marked_important update then f32_0_2 else f32_zero in
  let score :=
    f32_min (f32_add (f32_add (f32_mul (recency_score now (cu_timestamp update)) f32_0_3)
                        entity_boost) importance_boost) f32_one in
  let matched_entities := ec_name <$> matched in
  mkContextItem text score (item_source query_entities matched_entities) matched_entities
    (estimate_tokens text) (Uuid_to_string (cu_id update)).

(** [b.score.partial_cmp(&a.score).unwrap_or(Equal)]. *)
Definition item_order (a b : ContextItem) : comparison :=
  match SpecFloat.SFcompare (ci_score b) (ci_score a) with Some c => c | None => Eq end.

(** ** Packing *)

(** Items that fit what is left of the budget, in their order; the tokens
    they take. *)
Fixpoint pack (budget used : nat) (xs : list ContextItem) : list ContextItem * nat :=
  match xs with
  | [] => ([], used)
  | x :: xs =>
    if (budget <? used + token_estimate x)%nat then pack budget used xs
    else let '(selected, used) := pack budget (used + token_estimate x) xs in
         (x :: selected, used)
  end.

Definition assemble_context (now : DateTime) (query : string) g
    (updates : list ContextUpdate) (token_budget : nat) : AssembledContext :=
  let query_entities := find_query_entities query g in
  let entity_context := build_entity_context query_entities g 1 in
  let impact := analyze_impact query_entities g in
  let scored_items :=
    sort_by item_order (score_update now query_entities entity_context <$> updates) in
  let entity_summary_tokens := graph_section_tokens entity_context impact in
  let content_budget := (token_budget - entity_summary_tokens)%nat in
  let '(selected, used_tokens) := pack content_budget 0 scored_items in
  mkAssembledContext selected entity_context impact
    (used_tokens + entity_summary_tokens)%nat [].

(** ** Boosting search results *)

Definition f32_0_15 : f32 := Eval vm_compute in f32_ratio 15 100.
Definition f32_0_08 : f32 := Eval vm_compute in f32_ratio 8 100.
Definition f32_0_25 : f32 := Eval vm_compute in f32_ratio 25 100.

(** The last relevance wins among names equal after lowercasing. *)
Definition relevant_entities (entity_context : list EntityContext) : gmap string f32 :=
  foldl (λ m ec, <[str_to_lowercase (ec_name ec) :=
                     match relevance ec with
                     | DirectMention => f32_0_15 | GraphNeighbor _ _ => f32_0_08
                     end]> m) ∅ entity_context.

Definition boost_result (relevant : gmap string f32) (r : string * f32) : string * f32 :=
  let text_lower := str_to_lowercase r.1 in
  let total_boost :=
    foldl (λ b kv, if str_contains text_lower kv.1 then f32_add b kv.2 else b) f32_zero
      (iter_order relevant) in
  (r.1, f32_min (f32_add r.2 (f32_min total_boost f32_0_25)) f32_one).

Definition boost_by_graph (results : list (string * f32))
    (entity_context : list EntityContext) : list (string * f32) :=
  boost_result (relevant_entities entity_context) <$> results.

(** ** Cards and excerpts *)

Definition card_has_text (c : Card) : bool :=
  negb (bool_decide (str_trim (card_text c) = "")).

Definition card_tokens (cards : list Card) : nat :=
  sum_list ((λ c, estimate_tokens (card_text c) + 8)%nat <$> retain card_has_text cards).

Definition add_cards (ctx : AssembledContext) (new_cards : list Card) : AssembledContext :=
  let kept := retain card_has_text new_cards in
  mkAssembledContext (items ctx) (entity_context ctx) (impact ctx)
    (total_tokens ctx + card_tokens kept)%nat kept.

Definition add_excerpt (token_budget : nat) (ctx : AssembledContext) (item : ContextItem)
    : AssembledContext :=
  if (token_budget <? total_tokens ctx + token_estimate item)%nat then ctx
  else mkAssembledContext (items ctx ++ [item])%list (entity_context ctx) (impact ctx)
         (total_tokens ctx + token_estimate item)%nat (cards ctx).

Definition add_excerpts (ctx : AssembledContext) (excerpts : list ContextItem)
    (token_budget : nat) : AssembledContext :=
  foldl (add_excerpt token_budget) ctx excerpts.

Definition excerpt (text : string) (score : f32) (id : string) : ContextItem :=
  mkContextItem text score Conversation [] (estimate_tokens text) id.

(** ** The text for a model *)

Definition card_part (c : Card) : string :=
  match card_scope c with CardUser => "User card" | CardWorkspace _ => "Project card" end
  +:+ ":" +:+ newline +:+ str_trim (card_text c).

Definition is_excerpt (item : ContextItem) : bool := bool_decide (ci_source item = Conversation).

Definition records_part (records : list ContextItem) : list string :=
  match records with
  | [] => []
  | _ => ["Relevant context:" +:+ newline
          +:+ String.concat (newline +:+ "---" +:+ newline) (ci_text <$> records)]
  end.

Definition excerpts_part (excerpts : list ContextItem) : list string :=
  match excerpts with
  | [] => []
  | _ => ["Conversation excerpts:" +:+ newline
          +:+ String.concat newline (ci_text <$> excerpts)]
  end.

Definition format_for_llm (ctx : AssembledContext) : string :=
  String.concat (newline +:+ newline)
    ((card_part <$> cards ctx)
     ++ opt_list (entity_section (entity_context ctx))
     ++ opt_list (impact_section (impact ctx))
     ++ records_part (retain (λ i, negb (is_excerpt i)) (items ctx))
     ++ excerpts_part (retain is_excerpt (items ctx)))%list.
End assembly.
