(* ===== verification/ContextAssemblyThms.v ===== *)
(** * Context assembly: theorems

    The neighbourhood is bounded reachability, the impact analysis is exact,
    records come in order of their score and none that would fit is left
    out, and the tokens and bytes an assembly takes are bounded. *)

From S2P Require Import Prelude RustStd UuidText Bfs Collections F32 FloatOrder Types Petgraph.
From S2P Require Import EntityGraph EntityGraphWf EntityGraphSpec EntityGraphThms EntityQueries.
From S2P Require Import EntityQueriesThms ContextAssembly.

Local Open Scope string_scope.

(** ** Packing *)

Lemma pack_tokens budget used xs :
  (pack budget used xs).2 = (used + sum_list (token_estimate <$> (pack budget used xs).1))%nat.
Proof.
  revert used. induction xs as [|x xs IH]; intros used; simpl; [lia|].
  case_match; [apply IH|]. specialize (IH (used + token_estimate x)%nat).
  destruct (pack _ _ _) as [sel u]. csimpl in *. lia.
Qed.

Lemma pack_bound budget used xs : (used ≤ budget → (pack budget used xs).2 ≤ budget)%nat.
Proof.
  revert used. induction xs as [|x xs IH]; intros used Hu; simpl; [lia|].
  destruct (Nat.ltb_spec budget (used + token_estimate x)); [by apply IH|].
  specialize (IH (used + token_estimate x)%nat).
  destruct (pack _ _ _) as [sel u]. csimpl in *. lia.
Qed.

Lemma pack_mono budget used xs : (used ≤ (pack budget used xs).2)%nat.
Proof. rewrite pack_tokens. lia. Qed.

Lemma pack_sublist budget used xs : sublist (pack budget used xs).1 xs.
Proof.
  revert used. induction xs as [|x xs IH]; intros used; simpl; [constructor|].
  case_match; [by constructor|]. specialize (IH (used + token_estimate x)%nat).
  destruct (pack _ _ _) as [sel u]. csimpl in *. by constructor.
Qed.

(** What is left out does not fit next to what was taken. *)
Lemma pack_maximal budget used xs x :
  x ∈ xs → x ∈ (pack budget used xs).1 ∨ (budget < (pack budget used xs).2 + token_estimate x)%nat.
Proof.
  revert used. induction xs as [|y xs IH]; intros used; [by intros ?%not_elem_of_nil|].
  simpl. destruct (Nat.ltb_spec budget (used + token_estimate y)) as [Hlt|Hge].
  - intros [->|Hx]%elem_of_cons; [right|by apply IH].
    pose proof (pack_mono budget used xs). lia.
  - specialize (IH (used + token_estimate y)%nat).
    destruct (pack _ _ _) as [sel u]. csimpl in *.
    intros [->|Hx]%elem_of_cons; [left; by left|].
    destruct (IH Hx); [left; by right|by right].
Qed.

(** Everything fits when the sum does. *)
Lemma pack_all budget used xs :
  (used + sum_list (token_estimate <$> xs) ≤ budget)%nat → (pack budget used xs).1 = xs.
Proof.
  revert used. induction xs as [|x xs IH]; intros used Hs; csimpl in *; [done|].
  destruct (Nat.ltb_spec budget (used + token_estimate x)); [lia|].
  specialize (IH (used + token_estimate x)%nat).
  destruct (pack _ _ _) as [sel u]. csimpl in *. rewrite IH by lia. done.
Qed.

(** ** The impact analysis *)

Definition impact_key (i : ImpactEntry) : string * string := (ie_entity i, depends_on i).

Lemma dedup_impact_fold (seen : gset (string * string)) acc xs :
  (∀ k, k ∈ seen ↔ k ∈ impact_key <$> acc) → NoDup (impact_key <$> acc) →
  let r := (foldl (λ (st : gset (string * string) * list ImpactEntry) i,
     if decide ((ie_entity i, depends_on i) ∈ st.1) then st
     else ({[(ie_entity i, depends_on i)]} ∪ st.1, (st.2 ++ [i])%list)) (seen, acc) xs).2 in
  NoDup (impact_key <$> r)
  ∧ (∀ k, k ∈ impact_key <$> r ↔ k ∈ impact_key <$> acc ∨ k ∈ impact_key <$> xs)
  ∧ (∀ i, i ∈ r → i ∈ acc ∨ i ∈ xs).
Proof.
  revert seen acc. induction xs as [|x xs IH]; intros seen acc Hseen Hnd.
  { split_and!; [done| |tauto]. intros k. simpl. rewrite elem_of_nil. tauto. }
  cbn [foldl fst snd]. case_decide as Hx.
  - destruct (IH seen acc Hseen Hnd) as (H1 & H2 & H3). split_and!; [done| |].
    + intros k. rewrite H2, fmap_cons, elem_of_cons. apply Hseen in Hx.
      fold (impact_key x) in Hx. split; [tauto|]. intros [?|[->|?]]; tauto.
    + intros i Hi. rewrite elem_of_cons. destruct (H3 i Hi); tauto.
  - rewrite Hseen in Hx. fold (impact_key x) in *.
    destruct (IH ({[impact_key x]} ∪ seen) (acc ++ [x])%list) as (H1 & H2 & H3).
    + intros k. rewrite fmap_app, elem_of_app, elem_of_union, elem_of_singleton, Hseen.
      simpl. rewrite list_elem_of_singleton. tauto.
    + rewrite fmap_app. apply NoDup_app. split_and!; [done| |simpl; apply NoDup_singleton].
      intros k Hk ->%list_elem_of_singleton. done.
    + split_and!; [done| |].
      * intros k. rewrite H2, fmap_app, elem_of_app. csimpl.
        rewrite !elem_of_cons, elem_of_nil. tauto.
      * intros i Hi. rewrite elem_of_cons. destruct (H3 i Hi) as [Hacc|]; [|tauto].
        apply elem_of_app in Hacc as [| ->%list_elem_of_singleton]; tauto.
Qed.

Lemma dedup_impact_spec xs :
  NoDup (impact_key <$> dedup_impact xs)
  ∧ (∀ k, k ∈ impact_key <$> dedup_impact xs ↔ k ∈ impact_key <$> xs)
  ∧ (∀ i, i ∈ dedup_impact xs → i ∈ xs).
Proof.
  destruct (dedup_impact_fold ∅ [] xs) as (H1 & H2 & H3).
  { intros k. by rewrite elem_of_empty, elem_of_nil. }
  { apply NoDup_nil_2. }
  unfold dedup_impact. split_and!; [done| |].
  - intros k. rewrite H2. simpl. rewrite elem_of_nil. tauto.
  - intros i Hi. destruct (H3 i Hi) as [Hn|]; [by apply not_elem_of_nil in Hn|done].
Qed.

Section impact.
Context `{U : Unicode} `{P : Petgraph} `{L : !PetgraphLaws}.
Implicit Types (g : SimpleEntityGraph).

Lemma elem_of_relationships_of g n r :
  index_wf g → r ∈ relationships_of g n ↔ r ∈ relationships g ∧ (rr_from r = n ∨ rr_to r = n).
Proof.
  intros Hwf. rewrite (relationships_of_perm g n Hwf), list_elem_of_filter.
  unfold rel_touches. tauto.
Qed.

(** The relation [r] makes the analysis report that [a] depends on [q]. *)
Definition impacts (r : RelationRef) (a q : string) : Prop :=
  rr_from r ≠ rr_to r
  ∧ (rr_from r = a ∧ rr_to r = q ∧ rr_relation_type r ∈ dependency_types
     ∨ rr_from r = q ∧ rr_to r = a ∧ rr_relation_type r = RequiredBy).

Lemma elem_of_impact_of qs r i :
  i ∈ impact_of qs r
  ↔ impacts r (ie_entity i) (depends_on i) ∧ depends_on i ∈ qs
    ∧ ie_relation_type i = rr_relation_type r ∧ ie_context i = rr_context r.
Proof.
  unfold impact_of, impacts. destruct (String.eqb_spec (rr_from r) (rr_to r)) as [Heq|Hne].
  { rewrite elem_of_nil. tauto. }
  rewrite elem_of_app. split.
  - intros [Hi|Hi]; case_decide as Hd; try by apply not_elem_of_nil in Hi.
    all: apply list_elem_of_singleton in Hi as ->; simpl; destruct Hd as [? ?]; tauto.
  - destruct i as [a q ty c]; simpl. intros ((_ & [(<- & <- & Hty)|(<- & <- & Hty)]) & Hq & -> & ->).
    + left. rewrite decide_True by done. by left.
    + right. rewrite decide_True by done. by left.
Qed.

Lemma elem_of_impact_pairs qs g a q :
  index_wf g →
  (a, q) ∈ impact_key <$> (qs ≫= λ q, relationships_of g q ≫= impact_of qs)
  ↔ q ∈ qs ∧ ∃ r, r ∈ relationships g ∧ impacts r a q.
Proof.
  intros Hwf. rewrite list_elem_of_fmap. split.
  - intros (i & [= -> ->] & Hi). apply list_elem_of_bind in Hi as (q' & Hi & Hq').
    apply list_elem_of_bind in Hi as (r & Hi & Hr).
    apply elem_of_relationships_of in Hr as [Hr _]; [|done].
    apply elem_of_impact_of in Hi as (Hi & Hq & _). eauto.
  - intros (Hq & r & Hr & Hi). exists (mkImpactEntry a q (rr_relation_type r) (rr_context r)).
    split; [done|]. apply list_elem_of_bind. exists q. split; [|done].
    apply list_elem_of_bind. exists r. split; [by apply elem_of_impact_of|].
    apply elem_of_relationships_of; [done|]. split; [done|].
    unfold impacts in Hi. destruct Hi as (_ & [(? & ? & _)|(? & ? & _)]); tauto.
Qed.

(** [analyze_impact] is exact.  It reports the pair (entity, depends
    on) exactly once, exactly when the latter is a query entity and some
    stored relation joins two different entities in one of the shapes it
    looks for; the type and context reported are those of such a relation. *)
Theorem impact_exact g query_entities :
  graph_wf g →
  NoDup (impact_key <$> analyze_impact query_entities g)
  ∧ (∀ a q, (a, q) ∈ impact_key <$> analyze_impact query_entities g
            ↔ q ∈ query_entities ∧ ∃ r, r ∈ relationships g ∧ impacts r a q)
  ∧ ∀ i, i ∈ analyze_impact query_entities g →
      ∃ r, r ∈ relationships g ∧ impacts r (ie_entity i) (depends_on i)
        ∧ ie_relation_type i = rr_relation_type r ∧ ie_context i = rr_context r.
Proof.
  intros Hwf. pose proof (wf_index _ Hwf) as Hidx. unfold analyze_impact.
  destruct (dedup_impact_spec (query_entities ≫= λ q, relationships_of g q ≫=
    impact_of query_entities)) as (Hnd & Hkeys & Hsub).
  split_and!; [done| |].
  - intros a q. by rewrite Hkeys, elem_of_impact_pairs.
  - intros i Hi%Hsub. apply list_elem_of_bind in Hi as (q & Hi & _).
    apply list_elem_of_bind in Hi as (r & Hi & Hr). exists r.
    apply elem_of_relationships_of in Hr as [Hr _]; [|done].
    apply elem_of_impact_of in Hi. tauto.
Qed.

(** A relation "A is required by B" is reported in both directions when
    both are named: that B depends on A, and, against its meaning, that A
    depends on B. *)
Theorem required_by_reported_backwards g query_entities r :
  graph_wf g → r ∈ relationships g → rr_relation_type r = RequiredBy →
  rr_from r ≠ rr_to r → rr_to r ∈ query_entities →
  (rr_from r, rr_to r) ∈ impact_key <$> analyze_impact query_entities g
  ∧ (rr_from r ∈ query_entities →
     (rr_to r, rr_from r) ∈ impact_key <$> analyze_impact query_entities g).
Proof.
  intros Hwf Hr Hty Hne Hq. pose proof (wf_index _ Hwf) as Hidx. unfold analyze_impact.
  destruct (dedup_impact_spec (query_entities ≫= λ q, relationships_of g q ≫=
    impact_of query_entities)) as (_ & Hkeys & _).
  rewrite !Hkeys, !elem_of_impact_pairs by done. unfold impacts. split.
  - split; [done|]. exists r. split; [done|]. split; [done|]. left. split_and!; [done..|].
    rewrite Hty. right. by left.
  - intros Hq'. split; [done|]. exists r. split; [done|]. split; [done|]. by right.
Qed.
End impact.

(** ** The neighbourhood *)

Lemma within_S {A} `{Countable A} (nbrs : A → list A) q d n :
  within nbrs q (S d) n ↔ within nbrs q d n ∨ ∃ m, within nbrs q d m ∧ n ∈ nbrs m.
Proof.
  split.
  - inversion_clear 1; [left; constructor|right; eauto].
  - intros [Hw|(m & Hw & Hn)]; [by eapply within_mono; [done|lia]|by econstructor].
Qed.

Section neighbourhood.
Context `{U : Unicode} `{P : Petgraph} `{O : MapOrder}.
Implicit Types (g : SimpleEntityGraph) (st : context_state).

(** What an entry of the context says. *)
Definition entry_says g (qs : list string) (ec : EntityContext) : Prop :=
  ec_relationships ec = to_relationship <$> relationships_of g (ec_name ec)
  ∧ match relevance ec with
    | DirectMention => ec_name ec ∈ qs
    | GraphNeighbor via relation =>
      (ec_name ec ∉ qs) ∧ (ec_name ec ∈ find_related_entities g via)
      ∧ relation = get_relationship_description via (ec_name ec) g
    end.

Record context_inv g (qs : list string) st : Prop := {
  ci_seen n : n ∈ st.1 ↔ n ∈ ec_name <$> st.2;
  ci_nodup : NoDup (ec_name <$> st.2);
  ci_says : Forall (entry_says g qs) st.2;
}.

Lemma context_inv_push g qs st ec :
  context_inv g qs st → ec_name ec ∉ st.1 → entry_says g qs ec →
  context_inv g qs ({[ec_name ec]} ∪ st.1, (st.2 ++ [ec])%list).
Proof.
  intros [Hseen Hnd Hsays] Hnew Hec. split; simpl.
  - intros n. rewrite fmap_app, elem_of_app, elem_of_union, elem_of_singleton, Hseen.
    simpl. rewrite list_elem_of_singleton. tauto.
  - rewrite fmap_app. apply NoDup_app. split_and!; [done| |simpl; apply NoDup_singleton].
    intros n Hn ->%list_elem_of_singleton. by apply Hnew, Hseen.
  - apply Forall_app. by split; [|constructor].
Qed.

Lemma mention_fold g qs ns st :
  context_inv g qs st → (∀ n, n ∈ ns → n ∈ qs) →
  Forall (λ ec, relevance ec = DirectMention) st.2 →
  let st' := foldl (mention_directly g) st ns in
  context_inv g qs st' ∧ Forall (λ ec, relevance ec = DirectMention) st'.2
  ∧ ∀ n, n ∈ st'.1 ↔ n ∈ st.1 ∨ n ∈ ns.
Proof.
  revert st. induction ns as [|n ns IH]; intros st Hinv Hns Hdir; cbn [foldl].
  { split_and!; [done..|]. intros n. rewrite elem_of_nil. tauto. }
  unfold mention_directly at 2 4 6. case_decide as Hn.
  - destruct (IH st Hinv) as (H1 & H2 & H3); [intros; apply Hns; by right|done|].
    split_and!; [done..|]. intros m. rewrite H3, elem_of_cons.
    split; [tauto|]. intros [?|[->|?]]; tauto.
  - set (ec := mkEntityContext n DirectMention (get_entity_relationships n g)).
    destruct (IH ({[n]} ∪ st.1, (st.2 ++ [ec])%list)) as (H1 & H2 & H3).
    + apply (context_inv_push g qs st ec); [done..|]. split; [done|]. apply Hns. by left.
    + intros; apply Hns; by right.
    + apply Forall_app. by split; [|constructor].
    + split_and!; [done..|]. intros m. rewrite H3. simpl.
      rewrite elem_of_union, elem_of_singleton, elem_of_cons. tauto.
Qed.

Lemma neighbor_fold g qs e ns st :
  context_inv g qs st → (∀ n, n ∈ qs → n ∈ st.1) →
  (∀ n, n ∈ ns → n ∈ find_related_entities g e) →
  let st' := foldl (add_neighbor g e) st ns in
  context_inv g qs st' ∧ ∀ n, n ∈ st'.1 ↔ n ∈ st.1 ∨ n ∈ ns.
Proof.
  revert st. induction ns as [|n ns IH]; intros st Hinv Hqs Hns; cbn [foldl].
  { split; [done|]. intros n. rewrite elem_of_nil. tauto. }
  unfold add_neighbor at 2 4. case_decide as Hn.
  - destruct (IH st Hinv) as (H1 & H2); [done|intros; apply Hns; by right|].
    split; [done|]. intros m. rewrite H2, elem_of_cons.
    split; [tauto|]. intros [?|[->|?]]; tauto.
  - set (ec := mkEntityContext n _ _).
    destruct (IH ({[n]} ∪ st.1, (st.2 ++ [ec])%list)) as (H1 & H2).
    + apply (context_inv_push g qs st ec); [done..|]. split; [done|]. simpl.
      split_and!; [by intros ?%Hqs|apply Hns; by left|done].
    + intros m Hm. apply elem_of_union_r. by apply Hqs.
    + intros; apply Hns; by right.
    + split; [done|]. intros m. rewrite H2. simpl.
      rewrite elem_of_union, elem_of_singleton, elem_of_cons. tauto.
Qed.

Lemma expand_fold g qs es st :
  context_inv g qs st → (∀ n, n ∈ qs → n ∈ st.1) →
  let st' := foldl (λ st e, foldl (add_neighbor g e) st (find_related_entities g e)) st es in
  context_inv g qs st'
  ∧ ∀ n, n ∈ st'.1 ↔ n ∈ st.1 ∨ ∃ e, e ∈ es ∧ n ∈ find_related_entities g e.
Proof.
  revert st. induction es as [|e es IH]; intros st Hinv Hqs; cbn [foldl].
  { split; [done|]. intros n. setoid_rewrite elem_of_nil. naive_solver. }
  destruct (neighbor_fold g qs e (find_related_entities g e) st) as [H1 H2]; [done..|].
  destruct (IH (foldl (add_neighbor g e) st (find_related_entities g e)) H1) as [H3 H4].
  { intros n Hn. apply H2. left. by apply Hqs. }
  split; [done|]. intros n. rewrite H4, H2. setoid_rewrite elem_of_cons. naive_solver.
Qed.

(** All entries are expanded: at depth 0 all of them are mentions. *)
Lemma current_entities_all depth result :
  (depth = 0%nat → Forall (λ ec, relevance ec = DirectMention) result) →
  current_entities depth result = ec_name <$> result.
Proof.
  intros Hdir. unfold current_entities, retain. f_equal. apply filter_keep_all.
  intros ec Hec. destruct depth as [|depth]; [|done]. apply bool_decide_eq_true.
  specialize (Hdir eq_refl). rewrite Forall_forall in Hdir. by apply Hdir.
Qed.

Lemma build_inv g qs d :
  let st := foldl (expand_context g) (foldl (mention_directly g) (∅, []) qs) (seq 0 d) in
  context_inv g qs st
  ∧ (d = 0%nat → Forall (λ ec, relevance ec = DirectMention) st.2)
  ∧ ∀ n, n ∈ st.1 ↔ ∃ q, q ∈ qs ∧ within (find_related_entities g) q d n.
Proof.
  induction d as [|d IH].
  - destruct (mention_fold g qs qs (∅, [])) as (H1 & H2 & H3); [|done|constructor|].
    { split; [intros n; simpl; by rewrite elem_of_empty, elem_of_nil|apply NoDup_nil_2|constructor]. }
    split_and!; [done..|]. intros n. simpl. rewrite H3. simpl. split.
    + intros [[]%elem_of_empty|Hn]. exists n. split; [done|constructor].
    + intros (q & Hq & Hw). right. inversion Hw; by subst.
  - destruct IH as (Hinv & Hdir & Hseen). rewrite seq_S, Nat.add_0_l, foldl_app. cbn [foldl].
    set (st := foldl _ _ (seq 0 d)) in *.
    assert (expand_context g st d
      = foldl (λ st e, foldl (add_neighbor g e) st (find_related_entities g e)) st
          (ec_name <$> st.2)) as ->.
    { unfold expand_context. by rewrite current_entities_all. }
    destruct (expand_fold g qs (ec_name <$> st.2) st Hinv) as [H1 H2].
    { intros n Hn. apply Hseen. exists n. split; [done|constructor]. }
    split_and!; [done|lia|]. intros n. rewrite H2.
    setoid_rewrite <-(ci_seen _ _ _ Hinv). setoid_rewrite Hseen.
    setoid_rewrite within_S. naive_solver.
Qed.

(** [build_entity_context] lists exactly the entities within
    [max_depth] relations of an entity of the query, each once; each entry
    carries the relations of its entity and says truly whether the query
    named it or through which related entity it was reached. *)
Theorem entity_context_exact g query_entities max_depth :
  let ctx := build_entity_context query_entities g max_depth in
  NoDup (ec_name <$> ctx)
  ∧ (∀ n, n ∈ ec_name <$> ctx
          ↔ ∃ q, q ∈ query_entities ∧ within (find_related_entities g) q max_depth n)
  ∧ ∀ ec, ec ∈ ctx → entry_says g query_entities ec.
Proof.
  destruct (build_inv g query_entities max_depth) as ([Hseen Hnd Hsays] & _ & Hw).
  split_and!; [done| |].
  - intros n. unfold build_entity_context. by rewrite <-Hseen.
  - intros ec Hec. rewrite Forall_forall in Hsays. by apply Hsays.
Qed.
End neighbourhood.

(** ** Scores *)

Lemma f32_nan_nonneg x : nonneg x → f32_is_nan x = false.
Proof. by destruct x. Qed.

Lemma f32_of_N_nonneg n : nonneg (f32_of_N n).
Proof. apply binary_normalize_nonneg. lia. Qed.

Lemma f32_le_rank x y : nonneg x → nonneg y → f32_le x y = true ↔ cmp_le rank_cmp (rank x) (rank y).
Proof.
  intros Hx Hy. unfold f32_le, cmp_le. rewrite SFcompare_rank by done.
  by destruct (rank_cmp _ _).
Qed.

Lemma f32_lt_rank x y : nonneg x → nonneg y → f32_lt x y = false → cmp_le rank_cmp (rank y) (rank x).
Proof.
  intros Hx Hy. unfold f32_lt. rewrite SFcompare_rank by done. intros Hlt.
  destruct (cmp_le_total (rank x) (rank y)) as [Hle|]; [|done].
  destruct (rank_cmp (rank x) (rank y)) eqn:Hc; [|done|by destruct Hle].
  revert Hc. unfold cmp_le, rank_cmp, then_with.
  rewrite (Z.compare_antisym (rank x).1.1), (Z.compare_antisym (rank x).1.2),
    (Z.compare_antisym (rank x).2).
  by destruct ((rank x).1.1 ?= _)%Z, ((rank x).1.2 ?= _)%Z, ((rank x).2 ?= _)%Z.
Qed.

Lemma f32_min_spec x y :
  nonneg x → nonneg y →
  nonneg (f32_min x y) ∧ f32_le (f32_min x y) x = true ∧ f32_le (f32_min x y) y = true.
Proof.
  intros Hx Hy. unfold f32_min. rewrite !f32_nan_nonneg by done.
  destruct (f32_lt y x) eqn:Hlt; (split; [done|]).
  - split; [|by apply f32_le_rank; [..|destruct (cmp_le_total (rank y) (rank y))]].
    revert Hlt. unfold f32_lt, f32_le. by destruct (SpecFloat.SFcompare y x) as [[]|].
  - split; [by apply f32_le_rank; [..|destruct (cmp_le_total (rank x) (rank x))]|].
    apply f32_le_rank; [done..|]. by apply f32_lt_rank.
Qed.

Section scores.
Context `{U : Unicode} `{I : UuidText}.

Lemma recency_score_nonneg now t : nonneg (recency_score now t).
Proof.
  apply SFdiv_nonneg; [done| |by left]. apply SFadd_nonneg; [done|].
  apply SFdiv_nonneg; [apply f32_of_N_nonneg|done|by right].
Qed.

Lemma entity_boost_nonneg (ecs : list EntityContext) b :
  nonneg b → nonneg (foldl (λ b ec, f32_add b (relevance_boost (relevance ec))) b ecs).
Proof.
  apply foldl_inv. intros b' ec _ Hb. apply SFadd_nonneg; [done|]. by destruct (relevance ec).
Qed.

(** Whatever the clocks say, a score is a number between 0 and 1. *)
Lemma score_range now qs ecs u :
  nonneg (ci_score (score_update now qs ecs u))
  ∧ f32_le (ci_score (score_update now qs ecs u)) f32_one = true.
Proof.
  unfold score_update. cbv zeta. cbn [ci_score].
  destruct (f32_min_spec (f32_add (f32_add (f32_mul (recency_score now (cu_timestamp u)) f32_0_3)
    (foldl (λ b ec, f32_add b (relevance_boost (relevance ec))) f32_zero
       (matched_in (str_to_lowercase (update_text u)) ecs)))
    (if user_marked_important u then f32_0_2 else f32_zero)) f32_one) as (H1 & _ & H2).
  - apply SFadd_nonneg; [apply SFadd_nonneg|by case_match].
    + apply SFmul_nonneg; [apply recency_score_nonneg|done].
    + by apply entity_boost_nonneg.
  - done.
  - done.
Qed.

(** The comparator of the sort is a total preorder on such scores. *)
Definition score_rank_order (a b : ContextItem) : comparison :=
  rank_cmp (rank (ci_score b)) (rank (ci_score a)).

#[global] Instance score_rank_preorder : TotalPreorder score_rank_order.
Proof.
  exact (pulled_preorder (λ x y, rank_cmp y x) (λ i, rank (ci_score i))).
Qed.

Lemma scores_sorted (xs : list ContextItem) :
  Forall (λ i, nonneg (ci_score i)) xs →
  StronglySorted (λ a b, f32_le (ci_score b) (ci_score a) = true) (sort_by item_order xs).
Proof.
  intros Hxs.
  rewrite (sort_by_agree item_order score_rank_order (λ i, nonneg (ci_score i)))
    by (done || (intros a b Ha Hb; unfold item_order; by rewrite SFcompare_rank)).
  pose proof (sort_by_perm score_rank_order xs) as Hp.
  pose proof (sort_by_sorted score_rank_order xs) as Hs. rewrite <-Hp in Hxs. clear Hp.
  induction Hs as [|x l Hs IH Hx]; [constructor|]. apply Forall_cons in Hxs as [Hn Hl].
  constructor; [by apply IH|]. rewrite Forall_forall in *. intros y Hy.
  apply f32_le_rank; [by apply Hl|done|by apply Hx].
Qed.
End scores.

(** ** Entities of the query *)

Lemma found_order_le a b :
  cmp_le found_order a b
  ↔ (a.2 = true ∧ b.2 = false) ∨ (a.2 = b.2 ∧ (b.1.2 ≤ a.1.2)%nat).
Proof.
  unfold cmp_le, found_order, then_with, bool_cmp.
  destruct (Nat.compare_spec b.1.2 a.1.2), a.2, b.2; split; intros Hab;
    try done; try (by left); try (right; split; [done|lia]); try lia;
    try (exfalso; destruct Hab as [[? ?]|[? ?]]; done || lia).
Qed.

#[global] Instance found_order_preorder : TotalPreorder found_order.
Proof.
  split.
  - intros a b. rewrite !found_order_le. destruct a.2, b.2; intuition lia.
  - intros a b c. rewrite !found_order_le. destruct a.2, b.2, c.2; intuition (congruence || lia).
Qed.

Section query_entities.
Context `{U : Unicode} `{A : Alphanumeric} `{C : Uppercase} `{P : Petgraph}.
Implicit Types (g : SimpleEntityGraph).

(** The query contains the name, ignoring case. *)
Definition mentions (query name : string) : Prop :=
  (2 ≤ str_len (str_to_lowercase name))%nat
  ∧ str_contains (str_to_lowercase query) (str_to_lowercase name) = true.

Lemma match_entity_name ql toks n f : match_entity ql toks n = Some f → f.1.1 = n.
Proof.
  unfold match_entity. intros Hm. repeat case_match; simplify_eq; done.
Qed.

Lemma match_entity_exact query toks n :
  (∃ f, match_entity (str_to_lowercase query) toks n = Some f ∧ f.2 = true) ↔ mentions query n.
Proof.
  unfold match_entity, mentions.
  destruct (Nat.ltb_spec (str_len (str_to_lowercase n)) 2) as [Hlt|Hge].
  { split; [by intros (f & ? & _)|intros [? _]; lia]. }
  destruct (str_contains _ _).
  { split; [done|]. intros _. by eexists. }
  split; [|by intros [_ ?]]. intros (f & Hf & Ht). exfalso.
  repeat case_match; simplify_eq.
Qed.

Lemma match_entity_score query toks n f :
  match_entity (str_to_lowercase query) toks n = Some f → f.2 = true →
  f.1.2 = (str_len (str_to_lowercase n) * 10)%nat.
Proof.
  unfold match_entity. intros Hm Ht. repeat case_match; simplify_eq; done.
Qed.

(** Candidates and result of [find_query_entities]. *)
Lemma elem_of_found query g n :
  n ∈ find_query_entities query g
  ↔ ∃ e f, e ∈ btree_values (entities g) ∧ n = f.1.1
      ∧ match_entity (str_to_lowercase query) (query_tokens_of (str_to_lowercase query))
          (ed_name e) = Some f.
Proof.
  unfold find_query_entities. cbv zeta. rewrite list_elem_of_fmap.
  setoid_rewrite sort_by_perm. setoid_rewrite list_elem_of_omap. naive_solver.
Qed.

Lemma sorted_exact (l : list (string * nat * bool)) :
  StronglySorted (cmp_le found_order) l →
  (∀ f, f ∈ l → f.2 = true → f.1.2 = (str_len (str_to_lowercase f.1.1) * 10)%nat) →
  StronglySorted (λ a b, str_len (str_to_lowercase b) ≤ str_len (str_to_lowercase a))%nat
    ((λ f, f.1.1) <$> filter (λ f, f.2 = true) l).
Proof.
  intros Hs Hsc. induction Hs as [|x l Hs IH Hx]; [constructor|].
  rewrite filter_cons. case_decide as Hq.
  - csimpl. constructor; [apply IH; intros; apply Hsc; [by right|done]|].
    apply Forall_fmap, Forall_forall. intros y [Hy Hin]%list_elem_of_filter. simpl.
    rewrite Forall_forall in Hx. specialize (Hx y Hin). apply found_order_le in Hx.
    pose proof (Hsc x (list_elem_of_here _ _) Hq) as E1.
    pose proof (Hsc y (list_elem_of_further _ _ _ Hin) Hy) as E2.
    destruct Hx as [[_ ?]|[_ Hle]]; [congruence|]. lia.
  - apply IH. intros; apply Hsc; [by right|done].
Qed.

(** [find_query_entities] returns entities of the graph only, and first
    all those whose name occurs in the query, the longest names first; the
    matches by word parts follow. *)
Theorem query_entities_exact_first query g :
  graph_wf g →
  (∀ n, n ∈ find_query_entities query g → is_Some (entities g !! n))
  ∧ ∃ exact partial, find_query_entities query g = (exact ++ partial)%list
    ∧ (∀ n, n ∈ exact ↔ is_Some (entities g !! n) ∧ mentions query n)
    ∧ (∀ n, n ∈ partial → ¬ mentions query n)
    ∧ StronglySorted (λ a b, str_len (str_to_lowercase b) ≤ str_len (str_to_lowercase a))%nat exact.
Proof.
  intros Hwf. split.
  { intros n (e & f & He & -> & Hf)%elem_of_found. apply elem_of_btree_values in He as [k Hk].
    rewrite (match_entity_name _ _ _ _ Hf), (wf_name _ Hwf _ _ Hk). by eexists. }
  unfold find_query_entities. set (toks := query_tokens_of _). cbv zeta.
  set (cands := omap _ _).
  assert (∀ f, f ∈ sort_by found_order cands ↔ ∃ e, entities g !! f.1.1 = Some e
            ∧ match_entity (str_to_lowercase query) toks f.1.1 = Some f) as Helem.
  { intros f. rewrite sort_by_perm. unfold cands. rewrite list_elem_of_omap. split.
    - intros (e & [k Hk]%elem_of_btree_values & Hf). exists e.
      pose proof (wf_name _ Hwf _ _ Hk) as Hn. pose proof (match_entity_name _ _ _ _ Hf) as Hf'.
      rewrite Hf', Hn. split; [done|]. by rewrite <-Hn.
    - intros (e & He & Hf). exists e. rewrite (wf_name _ Hwf _ _ He). split; [|done].
      apply elem_of_btree_values. by eexists. }
  pose proof (sort_by_sorted found_order cands) as Hs.
  pose proof (sorted_filter_split _ (λ f, f.2 = true) _ Hs) as Hsplit.
  rewrite Hsplit by (intros x y; rewrite found_order_le; naive_solver).
  rewrite fmap_app. eexists _, _. split; [done|]. split_and!.
  - intros n. rewrite list_elem_of_fmap. setoid_rewrite list_elem_of_filter.
    setoid_rewrite Helem. rewrite <-(match_entity_exact query toks n). split.
    + intros (f & -> & Ht & e & He & Hf). split; [by eexists|by exists f].
    + intros ([e He] & f & Hf & Ht). pose proof (match_entity_name _ _ _ _ Hf) as <-.
      exists f. split; [done|]. split; [done|]. by exists e.
  - intros n (f & -> & [Hnt (e & _ & Hf)%Helem]%list_elem_of_filter)%list_elem_of_fmap.
    rewrite <-(match_entity_exact query toks). intros (f' & Hf' & Ht). congruence.
  - apply sorted_exact; [done|]. intros f (e & _ & Hf)%Helem Ht. by eapply match_entity_score.
Qed.
End query_entities.

(** ** The records of an assembly *)

Section records.
Context `{U : Unicode} `{A : Alphanumeric} `{C : Uppercase} `{I : UuidText} `{P : Petgraph} `{O : MapOrder}.
Implicit Types (g : SimpleEntityGraph).

Definition item_tokens (xs : list ContextItem) : nat := sum_list (token_estimate <$> xs).

(** The scored items before packing. *)
Definition scored (now : DateTime) (query : string) g (updates : list ContextUpdate)
    : list ContextItem :=
  let qs := find_query_entities query g in
  score_update now qs (build_entity_context qs g 1) <$> updates.

Lemma assemble_context_pack now query g updates budget :
  let ctx := assemble_context now query g updates budget in
  let packed := pack (budget - entity_summary_tokens query g) 0
                  (sort_by item_order (scored now query g updates)) in
  items ctx = packed.1
  ∧ total_tokens ctx = (packed.2 + entity_summary_tokens query g)%nat
  ∧ cards ctx = []
  ∧ entity_context ctx = build_entity_context (find_query_entities query g) g 1
  ∧ impact ctx = analyze_impact (find_query_entities query g) g.
Proof.
  unfold assemble_context, entity_summary_tokens, scored. cbv zeta.
  by destruct (pack _ _ _) as [sel used].
Qed.

(** The records of an assembly: every update is scored between 0 and 1,
    the records chosen come best first, their tokens stay within what the
    budget leaves beside the entity summary, the total adds up, and no
    record left out would still fit. *)
Theorem records_packed now query g updates budget :
  let ctx := assemble_context now query g updates budget in
  let room := (budget - entity_summary_tokens query g)%nat in
  (∀ u, nonneg (ci_score (score_update now (find_query_entities query g) (entity_context ctx) u)))
  ∧ (∀ i, i ∈ items ctx → i ∈ scored now query g updates)
  ∧ StronglySorted (λ a b, f32_le (ci_score b) (ci_score a) = true) (items ctx)
  ∧ (item_tokens (items ctx) ≤ room)%nat
  ∧ total_tokens ctx = (item_tokens (items ctx) + entity_summary_tokens query g)%nat
  ∧ ∀ i, i ∈ scored now query g updates →
      i ∈ items ctx ∨ (room < item_tokens (items ctx) + token_estimate i)%nat.
Proof.
  destruct (assemble_context_pack now query g updates budget) as (Hi & Ht & _).
  cbv zeta. rewrite Ht. unfold item_tokens. rewrite Hi.
  set (room := (budget - _)%nat). set (xs := sort_by _ _).
  pose proof (pack_tokens room 0 xs) as Htok. pose proof (pack_bound room 0 xs) as Hb.
  split_and!.
  - intros u. apply score_range.
  - intros i Hin. unfold xs in Hin. apply (sublist_subseteq _ _ (pack_sublist _ _ _)) in Hin.
    by rewrite sort_by_perm in Hin.
  - eapply StronglySorted_sublist; [apply pack_sublist|]. apply scores_sorted.
    apply Forall_fmap, Forall_forall. intros u _. apply score_range.
  - lia.
  - lia.
  - intros i Hin. rewrite <-(sort_by_perm item_order) in Hin. fold xs in Hin.
    destruct (pack_maximal room 0 xs i Hin) as [?|Hm]; [by left|right]. lia.
Qed.
End records.

(** ** Instances *)

#[local] Existing Instances ascii_unicode list_graph list_graph_laws key_order ascii_alnum
  ascii_upper hex_uuid.

Lemma impact_exact_witness :
  NoDup (impact_key <$> analyze_impact ["API"; "Database"] demo)
  ∧ impact_key <$> analyze_impact ["API"; "Database"] demo
    = [("Auth Service", "API"); ("API", "Database"); ("Auth Service", "Database")].
Proof.
  split; [exact (proj1 (impact_exact demo ["API"; "Database"] demo_wf))|].
  vm_compute. reflexivity.
Defined.

(** The graph says that the API is required by the auth service. *)
Lemma required_by_reported_backwards_witness :
  ("API", "Auth Service") ∈ impact_key <$> analyze_impact ["Auth Service"] demo.
Proof.
  refine (proj1 (required_by_reported_backwards demo ["Auth Service"]
    (mkRelationRef "API" "Auth Service" RequiredBy "why") demo_wf _ eq_refl _ _)).
  - apply (list_elem_of_lookup_2 _ 1). vm_compute. reflexivity.
  - discriminate.
  - left.
Defined.

Lemma query_entities_exact_first_witness :
  (∃ exact partial,
     find_query_entities "how does the api use the database?" demo = (exact ++ partial)%list
     ∧ ∀ n, n ∈ partial → ¬ mentions "how does the api use the database?" n)
  ∧ find_query_entities "how does the api use the database?" demo = ["Database"; "API"].
Proof.
  split; [|vm_compute; reflexivity].
  destruct (query_entities_exact_first "how does the api use the database?" demo demo_wf)
    as (_ & exact & partial & Heq & _ & Hp & _).
  exists exact, partial. split; [exact Heq|exact Hp].
Defined.

(** Names are lowercased before they are split, so the words of a camel-case
    name are not found. *)
Example camel_case_not_split :
  (split_entity_tokens "ChatRepositoryImpl",
   split_entity_tokens (str_to_lowercase "ChatRepositoryImpl"))
  = (["chat"; "repository"; "impl"], ["chatrepositoryimpl"]).
Proof. vm_compute. reflexivity. Qed.

(** Three words need two matches. *)
Example three_words_threshold : match_threshold 3 = 2.
Proof. reflexivity. Qed.
