(* ===== verification/GraphSerde.v ===== *)
(** * Serialized graphs

    [core/.../graph/entity_graph.rs]: the two accepted formats of an edge, the
    [petgraph_serde] module, which stores the graph by entity names in sorted
    order, and the deserializer of [SimpleEntityGraph], which rebuilds the
    node maps and the alias index.

    serde's data model is the type [Value] of self-describing formats; the
    derived deserializer of [RelationType] is the parameter [de_relation],
    known to read back the variant names it writes. *)

From S2P Require Import Prelude RustStd Collections F32 Types Petgraph EntityGraph.
From S2P Require Import EntityGraphWf EntityGraphInv EntityGraphSpec EntityGraphThms.

Local Open Scope string_scope.
Local Open Scope pcx_scope.

(** ** Edges *)

#[local] Set Warnings "-register-all".
Inductive Value :=
| VString (s : string)
| VMap (fields : list (string * Value))
| VOther.

Definition de_string (v : Value) : result string string :=
  match v with VString s => Ok s | _ => Err "invalid type" end.

Class DeriveRelation := { de_relation : Value → result RelationType string }.
Class DeriveRelationLaws `{DeriveRelation} : Prop := {
  de_relation_variant t : de_relation (VString (RelationType_debug t)) = Ok t;
}.

Definition EdgeData_new (ty : RelationType) (context : string) : EdgeData :=
  mkEdgeData ty context.
Definition EdgeData_from_relation_type (ty : RelationType) : EdgeData := mkEdgeData ty "".

(** Derived [Serialize]: a map in field order. *)
Definition EdgeData_serialize (d : EdgeData) : Value :=
  VMap [("relation_type", VString (RelationType_debug (relation_type d)));
        ("context", VString (context d))].

Section edge.
Context `{DeriveRelation}.

(** [visit_map]: a repeated field overwrites, an unknown one is skipped. *)
Fixpoint visit_fields (fields : list (string * Value)) (ty : option RelationType)
    (context : option string) : result EdgeData string :=
  match fields with
  | [] =>
    match ty with
    | None => Err "missing field relation_type"
    | Some ty => Ok (mkEdgeData ty (default "" context))
    end
  | (key, v) :: fields =>
    if String.eqb key "relation_type" then
      try t <- de_relation v; visit_fields fields (Some t) context
    else if String.eqb key "context" then
      try c <- de_string v; visit_fields fields ty (Some c)
    else visit_fields fields ty context
  end.

Definition visit_str (value : string) : result EdgeData string :=
  match RelationType_from_str value with
  | Ok ty => Ok (EdgeData_from_relation_type ty)
  | Err _ => Err ("unknown variant " +:+ value)
  end.

Definition EdgeData_deserialize (v : Value) : result EdgeData string :=
  match v with
  | VMap fields => visit_fields fields None None
  | VString s => visit_str s
  | VOther => Err "invalid type"
  end.
End edge.

(** ** Graphs *)

Record SerializableGraphData := mkSerializableGraphData {
  sg_nodes : list string;
  sg_edges : list (string * string * Value);
}.

Definition edge_order (a b : string * string * EdgeData) : comparison :=
  then_with (str_cmp a.1.1 b.1.1)
    (then_with (str_cmp a.1.2 b.1.2)
       (RelationType_cmp (relation_type a.2) (relation_type b.2))).

(** Derived [Deserialize] of the three stored fields. *)
Record SimpleEntityGraphData := mkGraphData {
  gd_entities : gmap string EntityData;
  gd_entity_mentions : gmap string (list Uuid);
  gd_graph : SerializableGraphData;
}.

Section graph.
Context `{U : Unicode} `{P : Petgraph} `{D : DeriveRelation}.

Definition serialize_edge (e : string * string * EdgeData) : string * string * Value :=
  (e.1, EdgeData_serialize e.2).

Definition graph_serialize (gr : DiGraph) : SerializableGraphData :=
  let nodes := sort_by str_cmp (node_weights gr) in
  let edges := omap (λ e, from ← node_weight gr (source e);
                          to ← node_weight gr (target e);
                          Some (from, to, edge_weight e)) (edge_references gr) in
  mkSerializableGraphData nodes (serialize_edge <$> sort_by edge_order edges).

(** [(name, index)] pairs collected into a map: the last index wins. *)
Definition index_of_names (nodes : list string) : gmap string nat :=
  foldi (λ idx name m, <[name := idx]> m) 0 nodes ∅.

Definition add_named_edge (entity_to_node : gmap string nat) (gr : DiGraph)
    (e : string * string * EdgeData) : DiGraph :=
  match entity_to_node !! e.1.1, entity_to_node !! e.1.2 with
  | Some from_node, Some to_node => add_edge gr from_node to_node e.2
  | _, _ => gr
  end.

(** The edges of [SerializableGraphData::deserialize], up to the first error. *)
Fixpoint deserialize_edges (edges : list (string * string * Value))
    : result (list (string * string * EdgeData)) string :=
  match edges with
  | [] => Ok []
  | (names, v) :: edges =>
    try d <- EdgeData_deserialize v; try rest <- deserialize_edges edges; Ok ((names, d) :: rest)%list
  end.

Definition graph_of_names (nodes : list string) (edges : list (string * string * EdgeData)) : DiGraph :=
  let gr := foldl (λ gr n, (add_node gr n).1) graph_new nodes in
  foldl (add_named_edge (index_of_names nodes)) gr edges.

Definition graph_deserialize (data : SerializableGraphData) : result DiGraph string :=
  try edges <- deserialize_edges (sg_edges data); Ok (graph_of_names (sg_nodes data) edges).

Definition SimpleEntityGraph_serialize (g : SimpleEntityGraph) : SimpleEntityGraphData :=
  mkGraphData (entities g) (entity_mentions g) (graph_serialize (graph g)).

(** The graph before its aliases are indexed. *)
Definition unindexed (data : SimpleEntityGraphData) (gr : DiGraph) : SimpleEntityGraph :=
  let names := node_weights gr in
  mkGraph _ (gd_entities data) (gd_entity_mentions data) gr
    (foldi (λ i n m, <[n := i]> m) 0 names ∅)
    (foldi (λ i n m, <[i := n]> m) 0 names ∅) ∅.

(** [None]: [rebuild_alias_index] panicked. *)
Definition SimpleEntityGraph_deserialize (now : nat → nat → DateTime) (data : SimpleEntityGraphData)
    : option (result SimpleEntityGraph string) :=
  match graph_deserialize (gd_graph data) with
  | Err e => Some (Err e)
  | Ok gr => g ← rebuild_alias_index now (unindexed data gr); Some (Ok g)
  end.
End graph.

(** ** Round trips *)

Section theorems.
Context `{U : Unicode} `{P : Petgraph} `{L : !PetgraphLaws} `{DL : DeriveRelationLaws}.
Implicit Types (g : SimpleEntityGraph).

Lemma foldi_index_names (nodes : list string) n i :
  NoDup nodes → index_of_names nodes !! n = Some i ↔ nodes !! i = Some n.
Proof.
  unfold index_of_names. induction nodes as [|x nodes IH] using rev_ind; intros Hnd; simpl.
  - by rewrite lookup_empty.
  - apply NoDup_app in Hnd as (Hnd & Hx & _). rewrite foldi_app. simpl.
    rewrite lookup_insert. case_decide as Hn; [subst x|].
    + split; [intros [= <-]; by rewrite list_lookup_middle|].
      intros Hi. destruct (decide (i < length nodes)) as [Hlt|Hge].
      * rewrite lookup_app_l in Hi by done. exfalso. apply (Hx n); [|by left].
        by eapply list_elem_of_lookup_2.
      * apply lookup_lt_Some in Hi. rewrite length_app in Hi. simpl in Hi. f_equal. lia.
    + rewrite IH by done. destruct (decide (i < length nodes)) as [Hlt|Hge].
      * by rewrite lookup_app_l.
      * rewrite lookup_app_r, (lookup_ge_None_2 nodes) by lia.
        split; [done|]. intros Hi%list_lookup_singleton_Some. naive_solver.
Qed.

Lemma foldi_index_nodes (nodes : list string) n i :
  (foldi (λ i n m, <[i := n]> m) 0 nodes ∅ : gmap nat string) !! i = Some n
  ↔ nodes !! i = Some n.
Proof.
  induction nodes as [|x nodes IH] using rev_ind; simpl.
  - by rewrite lookup_empty.
  - rewrite foldi_app. simpl. rewrite lookup_insert. case_decide as Hi.
    + subst i. by rewrite list_lookup_middle.
    + rewrite IH. destruct (decide (i < length nodes)) as [Hlt|Hge].
      * by rewrite lookup_app_l.
      * rewrite lookup_app_r, (lookup_ge_None_2 nodes) by lia.
        split; [done|]. intros Hx%list_lookup_singleton_Some. lia.
Qed.

Lemma add_nodes (gr : DiGraph) ns :
  let gr' := foldl (λ gr n, (add_node gr n).1) gr ns in
  node_weights gr' = (node_weights gr ++ ns)%list
  ∧ graph_triples gr' = graph_triples gr.
Proof.
  revert gr. induction ns as [|n ns IH]; intros gr; simpl; [by rewrite app_nil_r|].
  destruct (IH (add_node gr n).1) as [-> ->]. rewrite add_node_nodes.
  split; [by rewrite <-app_assoc|]. unfold graph_triples. by rewrite add_node_edges.
Qed.

(** Edges between known names. *)
Definition edge_indices (m : gmap string nat) (e : string * string * EdgeData)
    : option (nat * nat * EdgeData) :=
  a ← m !! e.1.1; b ← m !! e.1.2; Some (a, b, e.2).

Lemma add_named_edges (m : gmap string nat) es gr :
  (∀ n i, m !! n = Some i → i < node_count gr) →
  let gr' := foldl (add_named_edge m) gr es in
  node_weights gr' = node_weights gr
  ∧ graph_triples gr' ≡ₚ (omap (edge_indices m) es ++ graph_triples gr)%list.
Proof.
  revert gr. induction es as [|e es IH]; intros gr Hm; [done|]. csimpl.
  unfold add_named_edge at 2 4, edge_indices at 1.
  destruct (m !! e.1.1) as [a|] eqn:Ha; csimpl; [|by apply IH].
  destruct (m !! e.1.2) as [b|] eqn:Hb; csimpl; [|by apply IH].
  pose proof (Hm _ _ Ha) as Hlta. pose proof (Hm _ _ Hb) as Hltb.
  destruct (IH (add_edge gr a b e.2)) as [Hn Ht].
  { intros n i Hi. unfold node_count. rewrite add_edge_nodes by done. by eapply Hm. }
  simpl in Hn, Ht. rewrite Hn, Ht, add_edge_nodes, add_edge_edges by done.
  split; [done|]. by rewrite <-Permutation_middle.
Qed.

Lemma graph_of_names_spec nodes es :
  NoDup nodes →
  node_weights (graph_of_names nodes es) = nodes
  ∧ graph_triples (graph_of_names nodes es) ≡ₚ omap (edge_indices (index_of_names nodes)) es.
Proof.
  intros Hnd. unfold graph_of_names.
  destruct (add_nodes graph_new nodes) as [Hn Ht].
  rewrite new_nodes in Hn. simpl in Hn, Ht.
  destruct (add_named_edges (index_of_names nodes) es
    (foldl (λ gr n, (add_node gr n).1) graph_new nodes)) as [Hn' Ht'].
  { intros n i Hi%foldi_index_names; [|done]. unfold node_count. rewrite Hn.
    by eapply lookup_lt_Some. }
  simpl in Hn', Ht'. rewrite Hn', Ht', Ht. split; [done|].
  unfold graph_triples. by rewrite new_edges, app_nil_r.
Qed.

Definition named_triple (e : string * string * EdgeData) : RelationRef :=
  mkRelationRef e.1.1 e.1.2 (relation_type e.2) (context e.2).

Definition named_triples (gr : DiGraph) : list (string * string * EdgeData) :=
  omap (λ e, from ← node_weight gr (source e); to ← node_weight gr (target e);
             Some (from, to, edge_weight e)) (edge_references gr).

Lemma relationships_triples g : relationships g = named_triple <$> named_triples (graph g).
Proof.
  unfold relationships, named_triples. induction (edge_references (graph g)) as [|e es IH];
    [done|]. csimpl. rewrite IH. unfold relation_ref.
  destruct (node_weight (graph g) (source e)); simpl; [|done].
  by destruct (node_weight (graph g) (target e)).
Qed.

Lemma named_triples_ends gr e :
  e ∈ named_triples gr → e.1.1 ∈ node_weights gr ∧ e.1.2 ∈ node_weights gr.
Proof.
  intros (x & _ & Hx)%list_elem_of_omap. unfold node_weight in Hx.
  destruct (node_weights gr !! source x) as [n|] eqn:Hn; [|done].
  destruct (node_weights gr !! target x) as [m|] eqn:Hm; [|done].
  simpl in Hx. injection Hx as <-. split; by eapply list_elem_of_lookup_2.
Qed.

(** Storing names and looking them up again gives the same relations. *)
Lemma edge_indices_named (gr' : DiGraph) (nodes : list string)
    (es : list (string * string * EdgeData)) :
  NoDup nodes → node_weights gr' = nodes →
  (∀ e, e ∈ es → e.1.1 ∈ nodes ∧ e.1.2 ∈ nodes) →
  omap (triple_ref gr') (omap (edge_indices (index_of_names nodes)) es) = named_triple <$> es.
Proof.
  intros Hnd Hn. induction es as [|e es IH]; intros Hes; [done|]. csimpl.
  destruct (Hes e) as [[i Hi]%list_elem_of_lookup [j Hj]%list_elem_of_lookup]; [by left|].
  unfold edge_indices at 1.
  rewrite (proj2 (foldi_index_names nodes _ _ Hnd) Hi). simpl.
  rewrite (proj2 (foldi_index_names nodes _ _ Hnd) Hj). csimpl.
  unfold triple_ref at 1, node_weight. rewrite Hn. simpl. rewrite Hi, Hj. simpl.
  rewrite IH; [done|]. intros x Hx. apply Hes. by right.
Qed.

Lemma node_weights_NoDup g : index_wf g → NoDup (node_weights (graph g)).
Proof.
  intros Hidx. apply NoDup_alt. intros i j n Hi Hj. by eapply node_weight_unique.
Qed.

(** An edge read back from what it was stored as. *)
Lemma edge_stored (d : EdgeData) : EdgeData_deserialize (EdgeData_serialize d) = Ok d.
Proof. simpl. rewrite de_relation_variant. simpl. by destruct d. Qed.

Lemma edges_stored es : deserialize_edges (serialize_edge <$> es) = Ok es.
Proof.
  induction es as [|[names d] es IH]; [done|]. rewrite fmap_cons. cbn [serialize_edge deserialize_edges fst snd].
  rewrite edge_stored. cbn [result_bind]. by rewrite IH.
Qed.

Lemma stored_graph g :
  index_wf g →
  ∃ gr', graph_deserialize (graph_serialize (graph g)) = Ok gr'
    ∧ node_weights gr' = sort_by str_cmp (node_weights (graph g))
    ∧ named_edges gr' ≡ₚ relationships g.
Proof.
  intros Hidx. pose proof (node_weights_NoDup g Hidx) as Hnd.
  unfold graph_deserialize, graph_serialize. cbn [sg_nodes sg_edges]. rewrite edges_stored. cbn [result_bind].
  eexists. split; [done|]. set (nodes := sort_by str_cmp (node_weights (graph g))).
  assert (NoDup nodes) as Hnd' by (unfold nodes; by rewrite sort_by_perm).
  destruct (graph_of_names_spec nodes (sort_by edge_order (named_triples (graph g))) Hnd') as [Hn Ht].
  split; [exact Hn|]. unfold named_edges. etrans; [apply omap_Permutation, Ht|].
  rewrite (edge_indices_named _ nodes); [|done|exact Hn|].
  - rewrite relationships_triples. apply fmap_Permutation. apply sort_by_perm.
  - intros e. unfold nodes. rewrite !sort_by_perm. apply named_triples_ends.
Qed.

(** What [SimpleEntityGraph_deserialize] needs to succeed. *)
Record graph_data_ok (data : SimpleEntityGraphData) (gr : DiGraph) : Prop := {
  ok_nodes : NoDup (node_weights gr);
  ok_edges : NoDup (edge_key <$> graph_triples gr);
  ok_names n e : gd_entities data !! n = Some e → ed_name e = n;
  ok_dom n : is_Some (gd_entities data !! n) ↔ n ∈ node_weights gr;
}.

Lemma unindexed_wf data gr : graph_data_ok data gr → graph_wf (unindexed data gr).
Proof.
  intros [Hnd He Hname Hdom]. split; [split|..]; simpl; try done.
  - intros i n. apply foldi_index_nodes.
  - intros n i. by apply foldi_index_names.
  - intros n. rewrite Hdom. rewrite list_elem_of_lookup. unfold is_Some.
    setoid_rewrite <-(foldi_index_names _ n _ Hnd). done.
Qed.

(** The keys of the relations determine those of the edges. *)
Lemma edge_keys_NoDup gr :
  NoDup (rel_key <$> named_edges gr) → NoDup (edge_key <$> graph_triples gr).
Proof.
  unfold named_edges. pose proof (λ t, triple_ref_is_Some gr t) as Hsome.
  induction (graph_triples gr) as [|t ts IH]; [constructor|]. csimpl.
  destruct (Hsome t) as [r Hr]; [by left|]. rewrite Hr. csimpl.
  intros [Hnot Hnd]%NoDup_cons. apply NoDup_cons. split.
  - intros (t' & Heq & Ht')%list_elem_of_fmap.
    destruct (Hsome t') as [r' Hr']; [by right|]. apply Hnot, list_elem_of_fmap.
    exists r'. split; [|by apply list_elem_of_omap; exists t'].
    apply triple_ref_inv in Hr as (Ha & Hb & Hty & _).
    apply triple_ref_inv in Hr' as (Ha' & Hb' & Hty' & _).
    injection Heq as H1 H2 H3. unfold rel_key. rewrite H1 in Ha. rewrite H2 in Hb. congruence.
  - apply IH; [|done]. intros x Hx. apply Hsome. by right.
Qed.

Lemma serialize_ok g gr' :
  graph_wf g → node_weights gr' = sort_by str_cmp (node_weights (graph g)) → named_edges gr' ≡ₚ relationships g →
  graph_data_ok (SimpleEntityGraph_serialize g) gr'.
Proof.
  intros Hwf Hn Ht. pose proof (wf_index _ Hwf) as Hidx. split; simpl.
  - rewrite Hn, sort_by_perm. by apply node_weights_NoDup.
  - apply edge_keys_NoDup. rewrite Ht. by apply relationships_keys.
  - apply (wf_name _ Hwf).
  - intros n. rewrite Hn, sort_by_perm, (wf_dom _ Hwf), list_elem_of_lookup. unfold is_Some.
    by setoid_rewrite (wf_e2n _ Hidx).
Qed.

(** An edge read back from what it was stored as (the v1.1.0 map) is
    the same edge, and the v1.0.0 form, a bare type name, is that type with
    an empty context. *)
Theorem edge_roundtrip (d : EdgeData) :
  EdgeData_deserialize (EdgeData_serialize d) = Ok d
  ∧ EdgeData_deserialize (VString (RelationType_debug (relation_type d)))
    = Ok (mkEdgeData (relation_type d) "").
Proof.
  split; [apply edge_stored|]. simpl. unfold visit_str. by rewrite RelationType_from_str_debug.
Qed.

(** Storing a graph and reading it back renumbers the nodes in name
    order and keeps exactly the same relations, contexts included. *)
Theorem petgraph_roundtrip g :
  index_wf g →
  ∃ gr', graph_deserialize (graph_serialize (graph g)) = Ok gr'
    ∧ node_weights gr' = sort_by str_cmp (node_weights (graph g))
    ∧ named_edges gr' ≡ₚ relationships g.
Proof. apply stored_graph. Qed.

(** [g'] is [g] as it was stored: it is well-formed, and when no two entities
    of [g] share the key of a name, it has the entities, mentions and
    relations of [g], and every name and alias resolves to its entity. *)
Record same_graph (g g' : SimpleEntityGraph) : Prop := {
  sgr_wf : graph_wf g';
  sgr_entities : names_separate g → entities g' = entities g;
  sgr_mentions : names_separate g → entity_mentions g' = entity_mentions g;
  sgr_relationships : names_separate g → relationships g' ≡ₚ relationships g;
  sgr_resolve n e a : names_separate g → entities g !! n = Some e → a ∈ entity_names e → resolve g' a = Some n;
}.

(** Loading what was saved from a well-formed graph never panics or fails and
    gives that graph. *)
Theorem load_saved_graph now g :
  graph_wf g →
  ∃ g', SimpleEntityGraph_deserialize now (SimpleEntityGraph_serialize g) = Some (Ok g') ∧ same_graph g g'.
Proof.
  intros Hwf. destruct (stored_graph g (wf_index _ Hwf)) as (gr & Hgr & Hn & Ht).
  pose proof (unindexed_wf _ gr (serialize_ok g gr Hwf Hn Ht)) as Hu.
  unfold SimpleEntityGraph_deserialize. cbn [SimpleEntityGraph_serialize gd_graph]. rewrite Hgr.
  destruct (rebuild_alias_index_total now _ Hu) as (g' & Hg' & Hwf').
  change (mkGraphData _ _ _) with (SimpleEntityGraph_serialize g). rewrite Hg'.
  exists g'. split; [done|].
  assert (names_separate g → ∃ index, g' = with_alias_index (λ _, index) (unindexed (SimpleEntityGraph_serialize g) gr)
    ∧ ∀ n e a, entities g !! n = Some e → a ∈ entity_names e → index !! entity_key a = Some n) as Hsep.
  { intros Hsep. destruct (scan_entities_separate _ Hu Hsep) as (index & Hscan & Hindex). exists index.
    unfold rebuild_alias_index in Hg'. rewrite Hscan in Hg'. injection Hg' as <-. split; [done|].
    intros n e a Hn' Ha. apply Hindex. by exists e, a. }
  split; [done|..]; intros *; try (intros Hs; by destruct (Hsep Hs) as (index & -> & _)).
  - intros Hs. destruct (Hsep Hs) as (index & -> & _). by rewrite (relationships_named (with_alias_index _ _)).
  - intros Hs He Ha. destruct (Hsep Hs) as (index & -> & Hindex). unfold resolve. simpl.
    destruct (entities g !! a) as [e'|] eqn:Hea; [|by apply (Hindex n e)].
    f_equal. apply (Hs _ _ (entity_key a)); [|by exists e, a].
    exists e', a. split_and!; [done| |done]. rewrite <-(wf_name _ Hwf _ _ Hea). by left.
Qed.

(** a stored graph with an entity whose name differs from its key, and
    is not itself a key, panics the deserializer instead of failing it: the
    scan of [rebuild_alias_index] indexes the map by the stored name. *)
Theorem load_misnamed_entity_panics now data gr k e :
  graph_deserialize (gd_graph data) = Ok gr →
  gd_entities data !! k = Some e → gd_entities data !! ed_name e = None →
  SimpleEntityGraph_deserialize now data = None.
Proof.
  intros Hgr Hk Hnone. unfold SimpleEntityGraph_deserialize. rewrite Hgr. unfold rebuild_alias_index, scan_entities.
  rewrite (try_fold_None _ _ (first_mentioned e, ed_name e)); [done| |].
  - rewrite sort_by_perm. apply list_elem_of_fmap. exists e. split; [done|].
    apply elem_of_btree_values. by exists k.
  - intros t. unfold scan_entity. simpl. by rewrite Hnone.
Qed.
End theorems.

(** ** Instances *)

#[local] Existing Instances ascii_unicode list_graph demo_libm list_graph_laws.

Definition variant_relation : DeriveRelation :=
  {| de_relation := λ v, match v with VString s => RelationType_from_str s
                                    | _ => Err "invalid type" end |}.
Lemma variant_relation_laws : @DeriveRelationLaws variant_relation.
Proof. split. intros t. apply RelationType_from_str_debug. Qed.

Lemma edge_roundtrip_witness :
  @EdgeData_deserialize variant_relation (EdgeData_serialize (mkEdgeData Solves "fix"))
  = Ok (mkEdgeData Solves "fix").
Proof.
  exact (proj1 (@edge_roundtrip variant_relation variant_relation_laws (mkEdgeData Solves "fix"))).
Defined.

Lemma petgraph_roundtrip_witness :
  ∃ gr, @graph_deserialize _ variant_relation (graph_serialize (graph demo)) = Ok gr
    ∧ node_weights gr = ["API"; "Auth Service"; "Database"].
Proof.
  destruct (petgraph_roundtrip (DL := variant_relation_laws) demo (wf_index _ demo_wf)) as (gr & Hgr & Hn & _).
  exists gr. split; [exact Hgr|]. etransitivity; [exact Hn|]. vm_compute. reflexivity.
Defined.

Lemma demo_names_separate : names_separate demo.
Proof. apply (bool_decide_unpack (names_separate demo)). vm_compute. exact I. Qed.

Lemma load_saved_graph_witness :
  ∃ g', @SimpleEntityGraph_deserialize _ _ variant_relation demo_now (SimpleEntityGraph_serialize demo) = Some (Ok g')
        ∧ entities g' = entities demo ∧ relationships g' ≡ₚ relationships demo.
Proof.
  destruct (load_saved_graph (DL := variant_relation_laws) demo_now demo demo_wf) as (g' & Hg' & Hs).
  exists g'. split; [exact Hg'|].
  exact (conj (sgr_entities _ _ Hs demo_names_separate) (sgr_relationships _ _ Hs demo_names_separate)).
Defined.

Lemma load_misnamed_entity_panics_witness :
  @SimpleEntityGraph_deserialize _ _ variant_relation demo_now
    (mkGraphData {["a" := new_entity "b" Concept 0%Z ""]} ∅ (mkSerializableGraphData [] []))
  = None.
Proof.
  apply (load_misnamed_entity_panics demo_now _ graph_new "a" (new_entity "b" Concept 0%Z ""));
    reflexivity.
Defined.
