(* ===== verification/HotContext.v ===== *)
(** * The hot tier

    [core/.../session/session_components.rs]: the recent updates, in a
    concurrent map from sequential [u64] ids, with the oldest id evicted when
    a push exceeds the capacity; the lock-free [EntityGraph] of the same file;
    and the session metadata.  [Arc<ContextUpdate>] is the update itself. *)

From stdpp Require Import gmap.
From S2P Require Import Prelude RustStd Collections F32 Types.

Record HotContext := mkHotContext {
  updates : gmap N ContextUpdate;
  next_id : N;
  max_size : nat;
}.

Definition HotContext_new (max : nat) : HotContext := mkHotContext ∅ 0 max.

(** Deep copy with its own map and counter. *)
Definition HotContext_clone (h : HotContext) : HotContext :=
  mkHotContext (updates h) (next_id h) (max_size h).

Definition push (update : ContextUpdate) (h : HotContext) : HotContext :=
  let id := next_id h in
  let ups := <[id := update]> (updates h) in
  mkHotContext
    (if decide (N.of_nat (max_size h) ≤ id)%N
     then delete (id - N.of_nat (max_size h))%N ups else ups)
    (u64_add id 1) (max_size h).

(** [a..b], ascending. *)
Definition range (a b : N) : list N := (λ i, a + N.of_nat i)%N <$> seq 0 (N.to_nat (b - a)).

Definition id_range (h : HotContext) : list N :=
  range (next_id h - N.of_nat (max_size h)) (next_id h).

Definition get_recent_arcs (n : nat) (h : HotContext) : list ContextUpdate :=
  let effective_n := n `min` max_size h in
  omap (λ id, updates h !! id)
    (rev (range (next_id h - N.of_nat effective_n) (next_id h))).

Definition get_recent (n : nat) (h : HotContext) : list ContextUpdate := get_recent_arcs n h.

Definition snapshot_arcs (h : HotContext) : list ContextUpdate :=
  omap (λ id, updates h !! id) (id_range h).

Definition get_all (h : HotContext) : list ContextUpdate :=
  omap (λ id, updates h !! id) (id_range h).

(** [for_each], as a fold over the state its callback keeps. *)
Definition for_each {S} (f : S → ContextUpdate → S) (s : S) (h : HotContext) : S :=
  foldl (λ s id, match updates h !! id with Some u => f s u | None => s end) s (id_range h).

Definition hot_any `{MapOrder} (pred : ContextUpdate → bool) (h : HotContext) : bool :=
  existsb (λ kv, pred kv.2) (iter_order (updates h)).

Definition hot_find (pred : ContextUpdate → bool) (h : HotContext) : option ContextUpdate :=
  head (omap (λ id, u ← updates h !! id; if pred u then Some u else None) (id_range h)).

Definition contains_id `{MapOrder} (entry_id : Uuid) (h : HotContext) : bool :=
  hot_any (λ u, N.eqb (cu_id u) entry_id) h.

Definition hot_len (h : HotContext) : nat := size (updates h).
Definition hot_is_empty (h : HotContext) : bool := Nat.eqb (hot_len h) 0.

Definition hot_clear (h : HotContext) : HotContext := mkHotContext ∅ 0 (max_size h).

Definition remove_by_id `{MapOrder} (entry_id : Uuid) (h : HotContext) : HotContext * bool :=
  match find_first (λ kv, N.eqb (cu_id kv.2) entry_id) (iter_order (updates h)) with
  | Some (key, _) =>
    (mkHotContext (delete key (updates h)) (next_id h) (max_size h),
     bool_decide (is_Some (updates h !! key)))
  | None => (h, false)
  end.

Definition back_arc (h : HotContext) : option ContextUpdate :=
  if N.eqb (next_id h) 0 then None else updates h !! (next_id h - 1)%N.

Definition back (h : HotContext) : option ContextUpdate := back_arc h.
Definition snapshot (h : HotContext) : list ContextUpdate := get_all h.
Definition to_deque (h : HotContext) : list ContextUpdate := get_all h.

Definition from_updates (us : list ContextUpdate) (max : nat) : HotContext :=
  foldl (λ h u, push u h) (HotContext_new max) us.

Definition from_deque (deque : list ContextUpdate) (max : nat) : HotContext :=
  from_updates deque max.

(** ** The lock-free entity graph *)

Module LockFree.
(** Atomic [u64]/[usize] cells; [importance_score] holds [1.0f32]'s bits. *)
Record EntityNode := mkEntityNode {
  en_entity_type : EntityType;
  en_mention_count : N;
  en_first_mentioned : N;
  en_last_mentioned : N;
  en_importance_score : f32;
  en_description : option string;
}.

Record EntityGraph := mkEntityGraph {
  eg_entities : gmap string EntityNode;
  eg_relationships : gmap N EntityRelationship;
  eg_next_rel_id : N;
}.

Definition new : EntityGraph := mkEntityGraph ∅ ∅ 0.

(** [timestamp.timestamp() as u64]: whole seconds, wrapping. *)
Definition timestamp_secs (t : DateTime) : N :=
  Z.to_N ((t / 1000000000) mod 18446744073709551616)%Z.

(** What a further mention changes in a node. *)
Definition bump (t : DateTime) (n : EntityNode) : EntityNode :=
  mkEntityNode (en_entity_type n) (u64_add (en_mention_count n) 1) (en_first_mentioned n)
    (timestamp_secs t) (en_importance_score n) (en_description n).

Definition add_or_update_entity (name : string) (ty : EntityType) (timestamp : DateTime)
    (description : string) (g : EntityGraph) : EntityGraph :=
  let node := match eg_entities g !! name with
              | Some n => bump timestamp n
              | None => mkEntityNode ty 1 (timestamp_secs timestamp)
                          (timestamp_secs timestamp) f32_one
                          (if String.eqb description "" then None else Some description)
              end in
  mkEntityGraph (<[name := node]> (eg_entities g)) (eg_relationships g) (eg_next_rel_id g).

Definition mention_entity (name : string) (timestamp : DateTime) (g : EntityGraph)
    : EntityGraph :=
  mkEntityGraph (alter (bump timestamp) name (eg_entities g)) (eg_relationships g)
    (eg_next_rel_id g).

Definition add_relationship (r : EntityRelationship) (g : EntityGraph) : EntityGraph :=
  mkEntityGraph (eg_entities g) (<[eg_next_rel_id g := r]> (eg_relationships g))
    (u64_add (eg_next_rel_id g) 1).

Definition get_entity (name : string) (g : EntityGraph) : option EntityNode :=
  eg_entities g !! name.

Definition get_all_entities `{MapOrder} (g : EntityGraph) : list (string * EntityType * N) :=
  (λ kv, (kv.1, en_entity_type kv.2, en_mention_count kv.2)) <$> iter_order (eg_entities g).

Definition get_relationships `{MapOrder} (g : EntityGraph) : list EntityRelationship :=
  snd <$> iter_order (eg_relationships g).

Definition entity_count (g : EntityGraph) : nat := size (eg_entities g).
Definition relationship_count (g : EntityGraph) : nat := size (eg_relationships g).
Definition clear (g : EntityGraph) : EntityGraph := mkEntityGraph ∅ ∅ 0.
End LockFree.

(** ** Lemmas *)

Lemma elem_of_range a b x : x ∈ range a b ↔ (a ≤ x < b)%N.
Proof.
  unfold range. rewrite list_elem_of_fmap. split.
  - intros (i & -> & Hi%elem_of_seq). lia.
  - intros Hx. exists (N.to_nat (x - a)). rewrite elem_of_seq. lia.
Qed.

Lemma range_NoDup a b : NoDup (range a b).
Proof. unfold range. apply NoDup_fmap_2; [intros i j; lia|apply NoDup_seq]. Qed.

Lemma range_snoc a b : (a ≤ b)%N → range a (b + 1) = range a b ++ [b].
Proof.
  intros Hab. unfold range. replace (N.to_nat (b + 1 - a)) with (S (N.to_nat (b - a))) by lia.
  rewrite seq_S, fmap_app. simpl. do 2 f_equal. lia.
Qed.

Lemma range_cons a b : (a < b)%N → range a b = a :: range (a + 1) b.
Proof.
  intros Hab. unfold range. replace (N.to_nat (b - a)) with (S (N.to_nat (b - (a + 1)))) by lia.
  rewrite <-cons_seq, fmap_cons, <-fmap_S_seq, <-list_fmap_compose.
  f_equal; [lia|]. apply list_fmap_ext. intros i x _. simpl. lia.
Qed.

Lemma range_app a b c : (a ≤ b)%N → (b ≤ c)%N → range a c = range a b ++ range b c.
Proof.
  intros Hab Hbc. replace c with (b + N.of_nat (N.to_nat (c - b)))%N by lia.
  induction (N.to_nat (c - b)) as [|k IH].
  - replace (b + N.of_nat 0)%N with b by lia. unfold range at 3.
    rewrite N.sub_diag. simpl. by rewrite app_nil_r.
  - replace (b + N.of_nat (S k))%N with (b + N.of_nat k + 1)%N by lia.
    rewrite !range_snoc, IH, app_assoc by lia. done.
Qed.

(** Only ids of the retained window are stored. *)
Record hot_wf (h : HotContext) : Prop := {
  hw_window k : is_Some (updates h !! k) →
                (next_id h - N.of_nat (max_size h) ≤ k < next_id h)%N;
}.

Lemma new_hot_wf max : hot_wf (HotContext_new max).
Proof. split. intros k [u Hu]. simpl in Hu. by rewrite lookup_empty in Hu. Qed.

Lemma push_next_id u h :
  (next_id h + 1 < u64_mod)%N → next_id (push u h) = (next_id h + 1)%N.
Proof. intros Hlt. simpl. unfold u64_add. by apply N.mod_small. Qed.

Lemma push_lookup u h k :
  hot_wf h → (next_id h + 1 < u64_mod)%N →
  updates (push u h) !! k
  = if decide (next_id h + 1 - N.of_nat (max_size h) ≤ k)%N
    then if decide (k = next_id h) then Some u else updates h !! k
    else None.
Proof.
  intros [Hw] Hlt. simpl. pose proof (Hw k) as Hk.
  destruct (updates h !! k) eqn:Hl; [specialize (Hk (ex_intro _ _ eq_refl))|clear Hk];
    case_decide; rewrite ?lookup_delete, ?lookup_insert, ?Hl;
    repeat case_decide; try done; try lia.
Qed.

Lemma push_hot_wf u h : hot_wf h → (next_id h + 1 < u64_mod)%N → hot_wf (push u h).
Proof.
  intros Hwf Hlt. split. intros k. rewrite push_lookup, push_next_id by done. simpl.
  pose proof (hw_window _ Hwf k). repeat case_decide; subst.
  - intros _. lia.
  - intros Hk. specialize (H Hk). lia.
  - by intros [??].
Qed.

Lemma delete_hot_wf h k :
  hot_wf h → hot_wf (mkHotContext (delete k (updates h)) (next_id h) (max_size h)).
Proof. intros [Hw]. split. simpl. intros j [_ Hj]%lookup_delete_is_Some. by apply Hw. Qed.

(** Everything stored is visited. *)
Lemma elem_of_snapshot h u :
  hot_wf h → u ∈ snapshot_arcs h ↔ ∃ k, updates h !! k = Some u.
Proof.
  intros [Hw]. unfold snapshot_arcs, id_range. rewrite list_elem_of_omap. split.
  - intros (k & _ & Hk). by exists k.
  - intros [k Hk]. exists k. split; [|done]. apply elem_of_range. apply Hw. by exists u.
Qed.

(** ** The hot tier: theorems

    The id-indexed map is a bounded queue: a push appends and drops the one
    element that leaves the window, and building from a list keeps its tail. *)

(** The stored updates with their ids, oldest first. *)
Definition entries (h : HotContext) : list (N * ContextUpdate) :=
  omap (λ id, (λ u, (id, u)) <$> updates h !! id) (id_range h).

Lemma entries_snapshot h : snapshot_arcs h = (entries h).*2.
Proof.
  unfold snapshot_arcs, entries. induction (id_range h) as [|k ks IH]; [done|].
  csimpl. destruct (updates h !! k); csimpl; by rewrite IH.
Qed.

Lemma omap_filter_ids {A} (f : N → option A) (p : N → Prop) `{!∀ x, Decision (p x)} (l : list N) :
  omap (λ k, (λ u, (k, u)) <$> (if decide (p k) then f k else None)) l
  = filter (λ e, p e.1) (omap (λ k, (λ u, (k, u)) <$> f k) l).
Proof.
  induction l as [|k l IH]; [done|]. csimpl. rewrite IH.
  case_decide; destruct (f k); csimpl; try done.
  - by rewrite filter_cons_True.
  - by rewrite filter_cons_False.
Qed.

(** Widening the window over ids that are not stored adds nothing. *)
Lemma entries_from h a :
  hot_wf h → (a ≤ next_id h - N.of_nat (max_size h))%N →
  entries h = omap (λ id, (λ u, (id, u)) <$> updates h !! id) (range a (next_id h)).
Proof.
  intros [Hw] Ha. unfold entries, id_range.
  rewrite (range_app a (next_id h - N.of_nat (max_size h))) by lia.
  rewrite omap_app. rewrite <-(app_nil_l (omap _ _)) at 1. f_equal.
  assert (∀ k, k ∈ range a (next_id h - N.of_nat (max_size h)) → updates h !! k = None) as Hnone.
  { intros k Hk%elem_of_range. apply eq_None_not_Some. intros Hs%Hw. lia. }
  induction (range a _) as [|k ks IH]; [done|]. csimpl.
  rewrite Hnone by (by left). csimpl. apply IH. intros j Hj. apply Hnone. by right.
Qed.

Lemma push_entries u h :
  hot_wf h → (next_id h + 1 < u64_mod)%N →
  entries (push u h)
  = filter (λ e, next_id h + 1 - N.of_nat (max_size h) ≤ e.1)%N
      (entries h ++ [(next_id h, u)]).
Proof.
  intros Hwf Hlt. set (lo := (next_id h - N.of_nat (max_size h))%N).
  rewrite (entries_from (push u h) lo); [|by apply push_hot_wf|].
  2: { rewrite push_next_id by done. simpl. unfold lo. lia. }
  rewrite push_next_id by done.
  etransitivity; [apply list_omap_ext, Forall_Forall2_diag, Forall_forall|].
  { intros k _. rewrite (push_lookup u h k Hwf Hlt). reflexivity. }
  rewrite (omap_filter_ids (λ k, if decide (k = next_id h) then Some u else updates h !! k)
             (λ k, next_id h + 1 - N.of_nat (max_size h) ≤ k)%N).
  f_equal. rewrite range_snoc by (unfold lo; lia). rewrite omap_app. f_equal.
  - unfold entries, id_range. fold lo.
    assert (∀ k, k ∈ range lo (next_id h) → k ≠ next_id h) as Hne
      by (intros k Hk%elem_of_range; lia).
    induction (range lo (next_id h)) as [|k ks IH]; [done|]. csimpl.
    rewrite decide_False by (apply Hne; by left).
    rewrite IH; [done|]. intros j Hj. apply Hne. by right.
  - csimpl. by rewrite decide_True.
Qed.

(** [from_updates] numbers the updates from 0. *)
Lemma from_updates_lookup us max :
  (N.of_nat (length us) < u64_mod)%N →
  let h := from_updates us max in
  hot_wf h ∧ next_id h = N.of_nat (length us) ∧ max_size h = max
  ∧ ∀ k, updates h !! k = if decide (N.of_nat (length us - max) ≤ k)%N
                          then us !! N.to_nat k else None.
Proof.
  induction us as [|u us IH] using rev_ind; intros Hlen.
  { simpl. split_and!; [apply new_hot_wf|done|done|]. intros k.
    rewrite lookup_empty. by case_decide; rewrite ?lookup_nil. }
  rewrite length_app in *. simpl in Hlen. destruct IH as (Hwf & Hid & Hmax & Hk); [lia|].
  unfold from_updates. rewrite foldl_app. cbn [foldl]. fold (from_updates us max).
  set (h := from_updates us max) in *. simpl length.
  assert (next_id h + 1 < u64_mod)%N as Hlt by lia.
  split_and!; [by apply push_hot_wf|rewrite push_next_id by done; lia|done|].
  intros k. rewrite push_lookup, Hid, Hmax, Hk by done.
  destruct (decide (N.of_nat (length us) + 1 - N.of_nat max ≤ k)%N);
    [rewrite (decide_True (P := (N.of_nat (length us + 1 - max) ≤ k)%N)) by lia
    |by rewrite decide_False by lia].
  case_decide as Heq.
  - subst k. by rewrite Nat2N.id, list_lookup_middle.
  - destruct (decide (N.to_nat k < length us)) as [Hl|Hg].
    + rewrite lookup_app_l by done. by rewrite decide_True by lia.
    + rewrite !lookup_ge_None_2; [by case_decide| |lia]. rewrite length_app. simpl. lia.
Qed.

Lemma omap_lookup_range {A} (us : list A) a :
  a ≤ length us →
  omap (λ k, us !! N.to_nat k) (range (N.of_nat a) (N.of_nat (length us))) = drop a us.
Proof.
  intros Ha. remember (length us - a) as n eqn:Hn. revert a Ha Hn.
  induction n as [|n IH]; intros a Ha Hn.
  - rewrite drop_ge by lia. unfold range.
    by replace (N.to_nat (N.of_nat (length us) - N.of_nat a)) with 0 by lia.
  - rewrite range_cons by lia. csimpl. rewrite Nat2N.id.
    destruct (lookup_lt_is_Some_2 us a) as [x Hx]; [lia|]. rewrite Hx. csimpl.
    rewrite (drop_S us x a Hx). f_equal.
    replace (N.of_nat a + 1)%N with (N.of_nat (S a)) by lia. apply IH; lia.
Qed.

Section theorems.
Context `{O : MapOrder} `{OL : !MapOrderLaws}.

Lemma from_updates_last us max :
  (N.of_nat (length us) < u64_mod)%N →
  snapshot_arcs (from_updates us max) = drop (length us - max) us.
Proof.
  intros Hlen. destruct (from_updates_lookup us max Hlen) as (_ & Hid & Hmax & Hk).
  unfold snapshot_arcs, id_range. rewrite Hid, Hmax.
  replace (N.of_nat (length us) - N.of_nat max)%N with (N.of_nat (length us - max)) by lia.
  rewrite <-(omap_lookup_range us (length us - max)) by lia.
  apply list_omap_ext, Forall_Forall2_diag, Forall_forall. intros k Hk'%elem_of_range.
  by rewrite Hk, decide_True by lia.
Qed.

(** One push, evictions included, is a step of a bounded queue: the
    entries after it are the old ones and the new one, less those whose id
    fell out of the last [max_size] ids. *)
Theorem push_is_bounded_queue u h :
  hot_wf h → (next_id h + 1 < u64_mod)%N →
  hot_wf (push u h)
  ∧ entries (push u h)
    = filter (λ e, next_id h + 1 - N.of_nat (max_size h) ≤ e.1)%N
        (entries h ++ [(next_id h, u)]).
Proof. intros Hwf Hlt. split; [by apply push_hot_wf|by apply push_entries]. Qed.

(** loading a hot tier from stored updates keeps exactly the newest
    [max] of them in order, and [get_recent n] reads them newest first. *)
Theorem from_updates_keeps_newest us max n :
  (N.of_nat (length us) < u64_mod)%N →
  snapshot_arcs (from_updates us max) = drop (length us - max) us
  ∧ get_recent n (from_updates us max) = rev (drop (length us - n `min` max) us).
Proof.
  intros Hlen. split; [by apply from_updates_last|].
  destruct (from_updates_lookup us max Hlen) as (_ & Hid & Hmax & Hk).
  unfold get_recent, get_recent_arcs. rewrite Hid, Hmax.
  replace (N.of_nat (length us) - N.of_nat (n `min` max))%N
    with (N.of_nat (length us - n `min` max)) by lia.
  rewrite <-(omap_lookup_range us (length us - n `min` max)) by lia.
  assert (∀ {A B} (f : A → option B) l, omap f (rev l) = rev (omap f l)) as Hrev.
  { intros A B f l. induction l as [|x l IH]; [done|]. csimpl.
    rewrite omap_app, IH. csimpl. destruct (f x); simpl; [done|by rewrite app_nil_r]. }
  rewrite Hrev. f_equal. apply list_omap_ext, Forall_Forall2_diag, Forall_forall.
  intros k Hk'%elem_of_range. by rewrite Hk, decide_True by lia.
Qed.

Lemma contains_id_spec e h :
  contains_id e h = true ↔ ∃ k u, updates h !! k = Some u ∧ cu_id u = e.
Proof.
  unfold contains_id, hot_any. rewrite existsb_exists. split.
  - intros ([k u] & Hin%list_elem_of_In & Heq%N.eqb_eq). exists k, u.
    by rewrite elem_of_iter_order in Hin.
  - intros (k & u & Hk & <-). exists (k, u). split; [|apply N.eqb_refl].
    apply list_elem_of_In. by apply elem_of_iter_order.
Qed.

(** [remove_by_id] reports whether the id was retained; it removes
    exactly one entry, which has that id, and keeps the ids of the others. *)
Theorem remove_by_id_exact e h :
  hot_wf h →
  let '(h', removed) := remove_by_id e h in
  hot_wf h' ∧ removed = contains_id e h
  ∧ (removed = false → h' = h)
  ∧ (removed = true → ∃ k u, updates h !! k = Some u ∧ cu_id u = e
                             ∧ updates h' = delete k (updates h) ∧ hot_len h = S (hot_len h')).
Proof.
  intros Hwf. unfold remove_by_id.
  destruct (find_first _ _) as [[k u]|] eqn:Hf.
  - apply find_first_Some in Hf as [Hin Heq%N.eqb_eq]. apply elem_of_iter_order in Hin.
    simpl in Heq. split_and!.
    + by apply delete_hot_wf.
    + rewrite bool_decide_eq_true_2 by (by exists u). symmetry. apply contains_id_spec.
      by exists k, u.
    + by rewrite bool_decide_eq_true_2 by (by exists u).
    + intros _. exists k, u. split_and!; [done..|]. unfold hot_len. simpl.
    rewrite map_size_delete_Some by (by exists u).
      assert (size (updates h) ≠ 0); [|lia].
      intros Hz%map_size_empty_inv. by rewrite Hz, lookup_empty in Hin.
  - split_and!; [done| |done|done].
    destruct (contains_id e h) eqn:Hc; [|done].
    apply contains_id_spec in Hc as (k & u & Hk & Hu).
    rewrite find_first_None in Hf. apply elem_of_iter_order in Hk.
    apply Hf in Hk. simpl in Hk. by rewrite Hu, N.eqb_refl in Hk.
Qed.
End theorems.

(** ** Instances *)

Definition demo_update (id : Uuid) : ContextUpdate :=
  mkContextUpdate id (Z.of_N id) DecisionMade
    (mkUpdateContent "title" "description" [] [] []) None None false ["Parser"%string] [] [] []
    None [] UpdateMeta_default.

Definition demo_hot : HotContext := from_updates (demo_update <$> [1; 2; 3]%N) 2.

Lemma demo_hot_wf : hot_wf demo_hot ∧ (next_id demo_hot + 1 < u64_mod)%N.
Proof.
  destruct (from_updates_lookup (demo_update <$> [1; 2; 3]%N) 2) as (Hw & Hid & _);
    [reflexivity|].
  split; [exact Hw|]. unfold demo_hot. rewrite Hid. reflexivity.
Qed.

#[local] Existing Instances key_order key_order_laws.

Lemma push_is_bounded_queue_witness :
  hot_wf (push (demo_update 4) demo_hot)
  ∧ (entries (push (demo_update 4) demo_hot)).*1 = [2; 3]%N.
Proof.
  destruct demo_hot_wf as [Hw Hlt].
  destruct (push_is_bounded_queue (demo_update 4) demo_hot Hw Hlt) as [Hw' He].
  split; [exact Hw'|]. rewrite He. vm_compute. reflexivity.
Defined.

Lemma from_updates_keeps_newest_witness :
  snapshot_arcs demo_hot = demo_update <$> [2; 3]%N
  ∧ get_recent 1 demo_hot = [demo_update 3].
Proof. exact (from_updates_keeps_newest (demo_update <$> [1; 2; 3]%N) 2 1 eq_refl). Defined.

Lemma remove_by_id_exact_witness :
  (remove_by_id 3 demo_hot).2 = true ∧ hot_len (remove_by_id 3 demo_hot).1 = 1.
Proof.
  destruct demo_hot_wf as [Hw _]. pose proof (remove_by_id_exact 3 demo_hot Hw) as H.
  destruct (remove_by_id 3 demo_hot) as [h r] eqn:Hr. vm_compute in Hr.
  injection Hr as <- <-. split; reflexivity.
Defined.
