(* ===== verification/Session.v ===== *)
(** * Sessions

    [core/.../session/active_session.rs]: a session's tiers, structured state,
    code references, change history and entity graph, and every operation
    that changes them.

    [Arc] copy-on-write is a value here.  [Utc::now()] and [Uuid::new_v4()]
    are the streams of an [Env], read at fixed indices.  A method that can
    fail is an [op]: the session it leaves and a result.  [timeout] is
    tokio's; the futures it wraps in this file never suspend. *)

From S2P Require Import Prelude RustStd Collections F32 Types Petgraph EntityGraph GraphSerde HotContext.
From stdpp Require Import gmap.

Local Open Scope string_scope.

(** ** Data *)

Record CompressedUpdate := mkCompressedUpdate {
  zu_update : ContextUpdate;
  compression_ratio : f32;
  compressed_at : DateTime;
}.

Record StructuredSummary := mkStructuredSummary {
  summary_id : Uuid;
  ss_created_at : DateTime;
  context_snapshot : StructuredContext;
  referenced_updates : list Uuid;
  summary_quality : f32;
}.

(** The session's own [CodeReference], field for field that of an update. *)
Record SessionCodeReference := mkSessionCodeReference {
  sc_file_path : string;
  sc_start_line : N;
  sc_end_line : N;
  sc_code_snippet : string;
  sc_commit_hash : option string;
  sc_branch : option string;
  sc_change_description : string;
}.

Record ChangeRecord := mkChangeRecord {
  cr_id : Uuid;
  cr_timestamp : DateTime;
  change_type : string;
  cr_description : string;
  related_update_id : option Uuid;
}.

Record UserPreferences := mkUserPreferences {
  auto_save_enabled : bool;
  context_retention_days : N;
  max_hot_context_size : nat;
  auto_summary_threshold : nat;
  important_keywords : list string;
}.

Record SessionMetadata := mkSessionMetadata {
  md_id : Uuid;
  md_name : option string;
  md_description : option string;
  md_created_at : DateTime;
  md_user_preferences : UserPreferences;
}.

Definition SessionMetadata_new (now : DateTime) (id : Uuid) (name description : option string)
    (prefs : UserPreferences) : SessionMetadata :=
  mkSessionMetadata id name description now prefs.

Definition SessionMetadata_with_created_at (id : Uuid) (name description : option string)
    (prefs : UserPreferences) (created_at : DateTime) : SessionMetadata :=
  mkSessionMetadata id name description created_at prefs.

Record ActiveSession `{Petgraph} := mkActiveSession {
  metadata : SessionMetadata;
  last_updated : DateTime;
  hot_context : HotContext;
  warm_context : list CompressedUpdate;
  cold_context : list StructuredSummary;
  current_state : StructuredContext;
  incremental_updates : list ContextUpdate;
  code_references : gmap string (list SessionCodeReference);
  change_history : list ChangeRecord;
  entity_graph : SimpleEntityGraph;
  vectorized_update_ids : gset Uuid;
}.

Section setters.
Context `{Petgraph}.
Implicit Types (s : ActiveSession).
Definition with_metadata m t s := mkActiveSession _ m t (hot_context s) (warm_context s)
  (cold_context s) (current_state s) (incremental_updates s) (code_references s)
  (change_history s) (entity_graph s) (vectorized_update_ids s).
Definition with_last_updated t s := with_metadata (metadata s) t s.
Definition with_hot h s := mkActiveSession _ (metadata s) (last_updated s) h (warm_context s)
  (cold_context s) (current_state s) (incremental_updates s) (code_references s)
  (change_history s) (entity_graph s) (vectorized_update_ids s).
Definition with_warm w s := mkActiveSession _ (metadata s) (last_updated s) (hot_context s) w
  (cold_context s) (current_state s) (incremental_updates s) (code_references s)
  (change_history s) (entity_graph s) (vectorized_update_ids s).
Definition with_cold c s := mkActiveSession _ (metadata s) (last_updated s) (hot_context s)
  (warm_context s) c (current_state s) (incremental_updates s) (code_references s)
  (change_history s) (entity_graph s) (vectorized_update_ids s).
Definition with_state c s := mkActiveSession _ (metadata s) (last_updated s) (hot_context s)
  (warm_context s) (cold_context s) c (incremental_updates s) (code_references s)
  (change_history s) (entity_graph s) (vectorized_update_ids s).
Definition with_updates u s := mkActiveSession _ (metadata s) (last_updated s)
  (hot_context s) (warm_context s) (cold_context s) (current_state s) u (code_references s)
  (change_history s) (entity_graph s) (vectorized_update_ids s).
Definition with_code c s := mkActiveSession _ (metadata s) (last_updated s) (hot_context s)
  (warm_context s) (cold_context s) (current_state s) (incremental_updates s) c
  (change_history s) (entity_graph s) (vectorized_update_ids s).
Definition with_history h s := mkActiveSession _ (metadata s) (last_updated s)
  (hot_context s) (warm_context s) (cold_context s) (current_state s)
  (incremental_updates s) (code_references s) h (entity_graph s) (vectorized_update_ids s).
Definition with_entity_graph g s := mkActiveSession _ (metadata s) (last_updated s)
  (hot_context s) (warm_context s) (cold_context s) (current_state s)
  (incremental_updates s) (code_references s) (change_history s) g (vectorized_update_ids s).
End setters.

(** Clock and id source. *)
Record Env := mkEnv { clock : nat → DateTime; fresh_id : nat → Uuid }.

(** [tokio::time::timeout]: [None] when the deadline passed first. *)
Class Tokio := { timeout : ∀ {A}, N → A → option A }.

(** The output of a future that made its deadline is its own. *)
Class TokioOutput `{Tokio} : Prop := {
  timeout_output {A} secs (a b : A) : timeout secs a = Some b → b = a;
}.

(** As tokio documents, a future that does not yield completes without the
    deadline being consulted. *)
Class TokioLaws `{Tokio} : Prop := {
  timeout_ready {A} secs (a : A) : timeout secs a = Some a;
}.

(** ** Tiers *)

Definition MAX_COLD_SUMMARIES : nat := 100.
Definition MAX_DESCRIPTION_BYTES : nat := 64 * 1024.

Definition compact (s : StructuredSummary) : StructuredSummary :=
  let refs := referenced_updates s in
  mkStructuredSummary (summary_id s) (ss_created_at s) StructuredContext_new
    (if decide (2 < length refs)
     then match refs !! 0, refs !! (length refs - 1) with
          | Some first, Some last => [first; last]
          | _, _ => refs
          end
     else refs)
    (summary_quality s).

(** [if v.len() > n { v.drain(..v.len() - n) }]. *)
Definition keep_last {A} (n : nat) (v : list A) : list A :=
  if decide (n < length v) then drop (length v - n) v else v.

Definition compact_cold_context (cold : list StructuredSummary) : list StructuredSummary :=
  compact <$> keep_last MAX_COLD_SUMMARIES cold.

(** [by_id]: pairs collected into a map, the last one of an id wins. *)
Definition by_id (us : list ContextUpdate) : gmap N ContextUpdate :=
  foldl (λ m u, <[cu_id u := u]> m) ∅ us.

Definition hot_context_sharing (hot incremental : list ContextUpdate) (max_size : nat)
    : HotContext :=
  let tail_len := length incremental `min` (length hot `max` max_size) in
  let ids := by_id (drop (length incremental - tail_len) incremental) in
  from_updates ((λ u, default u (ids !! cu_id u)) <$> hot) max_size.

(** The largest character boundary at or below [e]. *)
Fixpoint floor_char_boundary (s : string) (e : nat) : nat :=
  match e with
  | O => O
  | S e' => if is_char_boundary s e then e else floor_char_boundary s e'
  end.

Definition truncate_safe (s : string) (max_bytes : nat) : string :=
  if decide (str_len s ≤ max_bytes)%nat then s
  else str_truncate (floor_char_boundary s max_bytes) s.

(** Cut an over-long description and title before the update is recorded. *)
Definition limit_content (c : UpdateContent) : UpdateContent :=
  let description :=
    if decide (MAX_DESCRIPTION_BYTES < str_len (uc_description c))
    then truncate_safe (uc_description c) MAX_DESCRIPTION_BYTES +:+ "... (truncated)"
    else uc_description c in
  let title :=
    if decide (200 < str_len (uc_title c))
    then truncate_safe (uc_title c) 190 +:+ "..."
    else uc_title c in
  mkUpdateContent title description (uc_details c) (uc_examples c) (uc_implications c).

Definition with_content (c : UpdateContent) (u : ContextUpdate) : ContextUpdate :=
  mkContextUpdate (cu_id u) (cu_timestamp u) (cu_update_type u) c (related_code u)
    (parent_update u) (user_marked_important u) (creates_entities u) (creates_relationships u)
    (references_entities u) (typed_entities u) (cu_author u) (derived_from u) (cu_meta u).

Definition limit_update (u : ContextUpdate) : ContextUpdate :=
  with_content (limit_content (cu_content u)) u.

(** ** Structured state *)

(** The prefix of the flow item each update type adds. *)
Definition flow_prefix (t : UpdateType) : string :=
  match t with
  | QuestionAnswered => "Q&A: "
  | ProblemSolved => "Problem Solved: "
  | CodeChanged => "Code Change: "
  | DecisionMade => "Decision Made: "
  | ConceptDefined => "Concept Defined: "
  | RequirementAdded => "Requirement Added: "
  end.

Definition flow_item (u : ContextUpdate) : FlowItem :=
  mkFlowItem (flow_prefix (cu_update_type u) +:+ uc_title (cu_content u)) (cu_timestamp u)
    [cu_id u] (Some (uc_description (cu_content u))).

Definition update_context_state (u : ContextUpdate) (c : StructuredContext)
    : StructuredContext :=
  let content := cu_content u in
  let ts := cu_timestamp u in
  let flow := (conversation_flow c ++ [flow_item u])%list in
  match cu_update_type u with
  | QuestionAnswered =>
    mkStructuredContext (key_decisions c)
      (open_questions c ++ [mkQuestionItem (uc_title content) (uc_description content)
                              Answered ts ts])%list
      (key_concepts c) (technical_specifications c) flow
  | ProblemSolved | CodeChanged =>
    mkStructuredContext (key_decisions c) (open_questions c) (key_concepts c)
      (technical_specifications c) flow
  | DecisionMade =>
    mkStructuredContext
      (key_decisions c ++ [mkDecisionItem (uc_title content) (uc_description content)
                             (uc_details content) f32_one ts])%list
      (open_questions c) (key_concepts c) (technical_specifications c) flow
  | ConceptDefined =>
    mkStructuredContext (key_decisions c) (open_questions c)
      (key_concepts c ++ [mkConceptItem (uc_title content) (uc_description content)
                            (uc_examples content) (uc_details content) ts])%list
      (technical_specifications c) flow
  | RequirementAdded =>
    mkStructuredContext (key_decisions c) (open_questions c) (key_concepts c)
      (technical_specifications c ++ [mkSpecItem (uc_title content) (uc_description content)
                                        (uc_details content) (uc_implications content) ts])%list
      flow
  end.

(** The item [update_current_state] wrote for an update: same title and
    timestamp. *)
Definition item_position (u : ContextUpdate) (c : StructuredContext) : option nat :=
  let title := uc_title (cu_content u) in
  let ts := cu_timestamp u in
  match cu_update_type u with
  | QuestionAnswered =>
    position (λ q, String.eqb (question q) title && Z.eqb (qi_timestamp q) ts) (open_questions c)
  | DecisionMade =>
    position (λ d, String.eqb (di_description d) title && Z.eqb (di_timestamp d) ts)
      (key_decisions c)
  | ConceptDefined =>
    position (λ k, String.eqb (ci_name k) title && Z.eqb (ci_timestamp k) ts) (key_concepts c)
  | RequirementAdded =>
    position (λ r, String.eqb (si_title r) title && Z.eqb (si_timestamp r) ts)
      (technical_specifications c)
  | ProblemSolved | CodeChanged => None
  end.

Definition remove_item (t : UpdateType) (pos : nat) (c : StructuredContext)
    : StructuredContext :=
  match t with
  | QuestionAnswered =>
    mkStructuredContext (key_decisions c) (vec_remove pos (open_questions c)) (key_concepts c)
      (technical_specifications c) (conversation_flow c)
  | DecisionMade =>
    mkStructuredContext (vec_remove pos (key_decisions c)) (open_questions c) (key_concepts c)
      (technical_specifications c) (conversation_flow c)
  | ConceptDefined =>
    mkStructuredContext (key_decisions c) (open_questions c) (vec_remove pos (key_concepts c))
      (technical_specifications c) (conversation_flow c)
  | RequirementAdded =>
    mkStructuredContext (key_decisions c) (open_questions c) (key_concepts c)
      (vec_remove pos (technical_specifications c)) (conversation_flow c)
  | ProblemSolved | CodeChanged => c
  end.

(** Forget [id] in every flow item and drop the items left without one. *)
Definition unlink_flow (id : Uuid) (flow : list FlowItem) : list FlowItem :=
  retain (λ f, negb (Nat.eqb (length (related_updates f)) 0))
    ((λ f, mkFlowItem (step_description f) (fi_timestamp f)
             (retain (λ u, negb (N.eqb u id)) (related_updates f)) (outcome f)) <$> flow).

Definition remove_derived_context (u : ContextUpdate) (c : StructuredContext)
    : StructuredContext :=
  let id := cu_id u in
  let flow_hit := existsb (λ f, existsb (N.eqb id) (related_updates f)) (conversation_flow c) in
  let item_pos := item_position u c in
  let c := if flow_hit then with_flow (unlink_flow id) c else c in
  match item_pos with
  | Some pos => remove_item (cu_update_type u) pos c
  | None => c
  end.

(** ** Code references *)

Definition session_code_reference (c : CodeReference) : SessionCodeReference :=
  mkSessionCodeReference (file_path c) (start_line c) (end_line c) (code_snippet c)
    (commit_hash c) (branch c) (change_description c).

(** [entry(path).or_default().push(code_ref)]. *)
Definition push_code_reference (c : SessionCodeReference)
    (m : gmap string (list SessionCodeReference)) : gmap string (list SessionCodeReference) :=
  <[sc_file_path c := (default [] (m !! sc_file_path c) ++ [c])%list]> m.

Definition code_matches (c : CodeReference) (r : SessionCodeReference) : bool :=
  N.eqb (sc_start_line r) (start_line c) && N.eqb (sc_end_line r) (end_line c)
  && String.eqb (sc_code_snippet r) (code_snippet c)
  && String.eqb (sc_change_description r) (change_description c)
  && bool_decide (sc_commit_hash r = commit_hash c) && bool_decide (sc_branch r = branch c).

Definition remove_code_entry (c : CodeReference)
    (m : gmap string (list SessionCodeReference)) : gmap string (list SessionCodeReference) :=
  match m !! file_path c with
  | None => m
  | Some refs =>
    match position (code_matches c) refs with
    | None => m
    | Some pos =>
      match vec_remove pos refs with
      | [] => delete (file_path c) m
      | refs => <[file_path c := refs]> m
      end
    end
  end.

Section Session.
Context `{U : Unicode} `{P : Petgraph} `{O : MapOrder}.
Implicit Types (s : ActiveSession).

(** ** Construction *)

Definition default_preferences : UserPreferences := mkUserPreferences true 30 50 100 [].

Definition ActiveSession_new (e : Env) (id : Uuid) (name description : option string)
    : ActiveSession :=
  mkActiveSession _ (SessionMetadata_new (clock e 0) id name description default_preferences)
    (clock e 1) (HotContext_new 50) [] [] StructuredContext_new [] ∅ []
    SimpleEntityGraph_new ∅.

Definition relink_entity_mentions s : ActiveSession :=
  with_entity_graph (relink_mentions (incremental_updates s) (entity_graph s)) s.

Definition from_components (id : Uuid) (name description : option string)
    (created_at updated : DateTime) (prefs : UserPreferences)
    (hot_vec : list ContextUpdate) (warm : list CompressedUpdate)
    (cold : list StructuredSummary) (state : StructuredContext)
    (incremental : list ContextUpdate) (code : gmap string (list SessionCodeReference))
    (history : list ChangeRecord) (g : SimpleEntityGraph) (vectorized : list Uuid)
    : ActiveSession :=
  relink_entity_mentions
    (mkActiveSession _ (SessionMetadata_with_created_at id name description prefs created_at)
       updated (hot_context_sharing hot_vec incremental (max_hot_context_size prefs))
       warm (compact_cold_context cold) state incremental code history g
       (list_to_set vectorized)).

(** The wire form: what [ActiveSessionView] writes and [Deserialize] reads. *)
Record ActiveSessionData := mkActiveSessionData {
  sd_metadata : SessionMetadata;
  sd_last_updated : DateTime;
  sd_hot_context : list ContextUpdate;
  sd_warm_context : list CompressedUpdate;
  sd_cold_context : list StructuredSummary;
  sd_current_state : StructuredContext;
  sd_incremental_updates : list ContextUpdate;
  sd_code_references : gmap string (list SessionCodeReference);
  sd_change_history : list ChangeRecord;
  sd_entity_graph : SimpleEntityGraphData;
  sd_vectorized_update_ids : list Uuid;
}.

(** [include_incremental_updates] is off for backends that store updates
    as rows.  A [DashSet] is written in its iteration order. *)
Definition view (set_order : gset Uuid → list Uuid) (include_incremental_updates : bool) s
    : ActiveSessionData :=
  mkActiveSessionData (metadata s) (last_updated s) (snapshot_arcs (hot_context s))
    (warm_context s) (cold_context s) (current_state s)
    (if include_incremental_updates then incremental_updates s else [])
    (code_references s) (change_history s) (SimpleEntityGraph_serialize (entity_graph s))
    (set_order (vectorized_update_ids s)).

(** The graph is read by its own [Deserialize]: [None] when that panicked. *)
Definition session_of_data `{DeriveRelation} (now : nat → nat → DateTime) (d : ActiveSessionData)
    : option (result ActiveSession string) :=
  read ← SimpleEntityGraph_deserialize now (sd_entity_graph d);
  Some match read with
       | Err e => Err e
       | Ok g =>
         Ok (mkActiveSession _ (sd_metadata d) (sd_last_updated d)
              (hot_context_sharing (sd_hot_context d) (sd_incremental_updates d)
                 (max_hot_context_size (md_user_preferences (sd_metadata d))))
              (sd_warm_context d) (compact_cold_context (sd_cold_context d)) (sd_current_state d)
              (sd_incremental_updates d) (sd_code_references d) (sd_change_history d)
              g (list_to_set (sd_vectorized_update_ids d)))
       end.

Definition set_incremental_updates (us : list ContextUpdate) s := with_updates us s.
Definition set_change_history (h : list ChangeRecord) s := with_history h s.

(** ** Pending vectorisation *)

Definition is_vectorization_pending (entry_id : Uuid) s : bool :=
  if decide (entry_id ∈ vectorized_update_ids s) then false
  else contains_id entry_id (hot_context s)
       || existsb (λ u, N.eqb (cu_id u) entry_id) (rev (incremental_updates s)).

Definition pending_vectorization_count s : nat :=
  let pending : gset N :=
    list_to_set (filter (λ id, id ∉ vectorized_update_ids s)
                   (cu_id <$> incremental_updates s)) in
  for_each (λ n u, if decide ((cu_id u ∉ pending) ∧ (cu_id u ∉ vectorized_update_ids s))
                   then S n else n)
    (size pending) (hot_context s).

(** ** Recording an update *)

(** A fallible method on [&mut self]. *)
Definition op : Type := ActiveSession → ActiveSession * result unit string.

Definition then_op (a b : op) : op := λ s,
  match a s with
  | (s, Ok _) => b s
  | (s, Err e) => (s, Err e)
  end.

Definition lift (f : ActiveSession → ActiveSession) : op := λ s, (f s, Ok tt).

(** [match timeout(secs, fut).await]: past the deadline the future is
    dropped and [elapsed] decides. *)
Definition with_timeout `{Tokio} (secs : N) (f : ActiveSession → ActiveSession)
    (elapsed : result unit string) : op := λ s,
  match timeout secs (f s) with
  | Some s => (s, Ok tt)
  | None => (s, elapsed)
  end.

Definition update_current_state (u : ContextUpdate) s : ActiveSession :=
  with_state (update_context_state u (current_state s)) s.

Definition update_entity_graph (now : nat → DateTime) (u : ContextUpdate) s : ActiveSession :=
  with_entity_graph (apply_update now u (entity_graph s)) s.

Definition add_code_reference (c : SessionCodeReference) s : ActiveSession :=
  with_code (push_code_reference c (code_references s)) s.

Definition change_record (id : Uuid) (u : ContextUpdate) : ChangeRecord :=
  mkChangeRecord id (cu_timestamp u) (UpdateType_debug (cu_update_type u))
    (uc_description (cu_content u)) (Some (cu_id u)).

Definition record_change (e : Env) (u : ContextUpdate) s : ActiveSession :=
  with_history (change_history s ++ [change_record (fresh_id e 0) u])%list s.

Definition should_create_summary s : bool :=
  let threshold := auto_summary_threshold (md_user_preferences (metadata s)) in
  let len := length (incremental_updates s) in
  Nat.ltb 0 threshold && Nat.ltb 0 len && Nat.eqb (len `mod` threshold) 0.

Definition summary_range (window : list ContextUpdate) : list Uuid :=
  match head window, last window with
  | Some first, Some last =>
    if decide (cu_id first ≠ cu_id last) then [cu_id first; cu_id last] else [cu_id first]
  | Some only, None => [cu_id only]
  | None, _ => []
  end.

Definition create_periodic_summary (e : Env) s : ActiveSession :=
  let threshold := auto_summary_threshold (md_user_preferences (metadata s)) in
  let us := incremental_updates s in
  let window := drop (length us - threshold) us in
  let summary := mkStructuredSummary (fresh_id e 1) (clock e 0) StructuredContext_new
                   (summary_range window) f32_one in
  with_cold (keep_last MAX_COLD_SUMMARIES ((cold_context s ++ [summary])%list)) s.

Definition maintain_context (e : Env) s : ActiveSession :=
  if should_create_summary s then create_periodic_summary e s else s.

(** Publish to the hot tier and the canonical list. *)
Definition publish (e : Env) (u : ContextUpdate) s : ActiveSession :=
  let s := with_last_updated (clock e 1) s in
  let s := with_hot (push u (hot_context s)) s in
  with_updates (incremental_updates s ++ [u])%list s.

Definition add_code_op `{Tokio} (u : ContextUpdate) : op :=
  match related_code u with
  | Some c => with_timeout 2 (add_code_reference (session_code_reference c)) (Ok tt)
  | None => lift id
  end.

Definition finish_update (e : Env) (u : ContextUpdate) : op :=
  lift (λ s, publish e u (maintain_context e (record_change e u s))).

Definition add_incremental_update `{Tokio} (e : Env) (update : ContextUpdate) : op :=
  let u := limit_update update in
  then_op (with_timeout 3 (update_current_state u) (Err "Current state update timeout"))
    (then_op (with_timeout 5 (update_entity_graph (λ i, clock e (2 + i)) u)
                (Err "Entity graph update timeout"))
       (then_op (add_code_op u) (finish_update e u))).

Definition add_incremental_update_fast `{Tokio} (e : Env) (update : ContextUpdate) : op :=
  let u := limit_update update in
  then_op (with_timeout 3 (update_current_state u) (Err "Current state update timeout"))
    (then_op (add_code_op u) (finish_update e u)).

Definition apply_entity_graph_update `{Tokio} (e : Env) (u : ContextUpdate) : op :=
  with_timeout 5 (update_entity_graph (clock e) u) (Ok tt).

(** The update [add_context_update] builds from a bare description. *)
Definition described_update (e : Env) (description : string) : ContextUpdate :=
  mkContextUpdate (fresh_id e 2) (clock e 2) ConceptDefined
    (mkUpdateContent "Incremental Update" description [] [] []) None None false [] [] [] []
    None [] UpdateMeta_default.

(** [parsed]: what serde made of the caller's metadata, if it gave any. *)
Definition add_context_update `{Tokio} (e : Env) (description : string)
    (parsed : option (result ContextUpdate string)) s
    : ActiveSession * result ContextUpdate string :=
  match match parsed with
        | None => Ok (described_update e description)
        | Some (Ok u) => Ok u
        | Some (Err m) => Err ("Invalid ContextUpdate metadata: " +:+ m)
        end with
  | Err m => (s, Err m)
  | Ok u =>
    match add_incremental_update_fast e u s with
    | (s, Ok _) => (s, Ok u)
    | (s, Err m) => (s, Err ("Failed to add update: " +:+ m))
    end
  end.

(** ** Removing updates *)

Definition find_update (entry_id : Uuid) s : option ContextUpdate :=
  let is_entry u := N.eqb (cu_id u) entry_id in
  match find_first is_entry (incremental_updates s) with
  | Some u => Some u
  | None =>
    match hot_find is_entry (hot_context s) with
    | Some u => Some u
    | None => zu_update <$> find_first (λ c, is_entry (zu_update c)) (warm_context s)
    end
  end.

Definition remove_derived_state (u : ContextUpdate) s : ActiveSession :=
  with_state (remove_derived_context u (current_state s)) s.

Definition remove_code_reference (c : CodeReference) s : ActiveSession :=
  with_code (remove_code_entry c (code_references s)) s.

(** Drop the id from every mention list, and the lists left empty. *)
Definition forget_mentions (entry_id : Uuid) (g : SimpleEntityGraph) : SimpleEntityGraph :=
  with_mentions (λ m, filter (λ kv, kv.2 ≠ [])
                        (retain (λ i, negb (N.eqb i entry_id)) <$> m)) g.

Definition mentions_id (entry_id : Uuid) (g : SimpleEntityGraph) : bool :=
  existsb (λ ids, existsb (N.eqb entry_id) ids) (btree_values (entity_mentions g)).

Definition remove_update_by_id (entry_id : Uuid) s : ActiveSession * bool :=
  match find_update entry_id s with
  | None => (s, false)
  | Some removed =>
    let s := if contains_id entry_id (hot_context s)
             then with_hot (remove_by_id entry_id (hot_context s)).1 s else s in
    let s := with_warm (retain (λ c, negb (N.eqb (cu_id (zu_update c)) entry_id))
                          (warm_context s)) s in
    let s := with_updates (retain (λ u, negb (N.eqb (cu_id u) entry_id))
                             (incremental_updates s)) s in
    let s := with_history (retain (λ c, negb (bool_decide
                             (related_update_id c = Some entry_id))) (change_history s)) s in
    let s := remove_derived_state removed s in
    let s := match related_code removed with
             | Some c => remove_code_reference c s
             | None => s
             end in
    let s := if mentions_id entry_id (entity_graph s)
             then with_entity_graph (forget_mentions entry_id (entity_graph s)) s else s in
    (s, true)
  end.

Definition references_file (file : string) (u : ContextUpdate) : bool :=
  match related_code u with
  | Some c => String.eqb (file_path c) file
  | None => false
  end.

Definition remove_updates_for_file (file : string) s : ActiveSession * nat :=
  let before := length (incremental_updates s) in
  let s := with_updates (retain (λ u, negb (references_file file u))
                           (incremental_updates s)) s in
  let removed := before - length (incremental_updates s) in
  (if decide (0 < removed) then with_code (delete file (code_references s)) s else s, removed).

(** ** Other operations *)

(** [now]: the clock, by updates and merges in order. *)
Definition rebuild_entity_graph_sync (now : nat → nat → DateTime) s : ActiveSession :=
  let merges := explicit_aliases (entity_graph s) in
  let us := incremental_updates s in
  let g := foldi (λ i u g, apply_update (now i) u g) 0 us SimpleEntityGraph_new in
  let g := foldi (λ i m g, (merge_entities (now (length us + i)) m.1 m.2 g).1) 0 merges g in
  with_entity_graph g s.

Definition rebuild_entity_graph_from_updates (now : nat → nat → DateTime) s
    : ActiveSession * (nat * nat) :=
  let s' := rebuild_entity_graph_sync now s in
  (s', (entity_count (entity_graph s), entity_count (entity_graph s'))).

Definition retire (at_ : DateTime) (u : ContextUpdate) : ContextUpdate :=
  mkContextUpdate (cu_id u) (cu_timestamp u) (cu_update_type u) (cu_content u)
    (related_code u) (parent_update u) (user_marked_important u) (creates_entities u)
    (creates_relationships u) (references_entities u) (typed_entities u) (cu_author u)
    (derived_from u)
    (mkUpdateMeta (valid_from (cu_meta u)) (supersedes (cu_meta u))
       (um_confidence (cu_meta u)) (Some at_)).

Definition retire_update (entry_id : Uuid) (at_ : DateTime) s
    : ActiveSession * option ContextUpdate :=
  match position (λ u, N.eqb (cu_id u) entry_id) (incremental_updates s) with
  | None => (s, None)
  | Some pos =>
    match incremental_updates s !! pos with
    | None => (s, None)
    | Some u =>
      if decide (is_Some (retired_at (cu_meta u))) then (s, None)
      else
        let changed := retire at_ u in
        let s := with_updates (<[pos := changed]> (incremental_updates s)) s in
        let s := if contains_id entry_id (hot_context s)
                 then with_hot
                   (from_updates
                      ((λ u, if N.eqb (cu_id u) entry_id then changed else u)
                         <$> snapshot_arcs (hot_context s))
                      (max_hot_context_size (md_user_preferences (metadata s)))) s
                 else s in
        let s := with_warm
                   ((λ c, if N.eqb (cu_id (zu_update c)) entry_id
                          then mkCompressedUpdate changed (compression_ratio c)
                                 (compressed_at c)
                          else c) <$> warm_context s) s in
        (s, Some changed)
    end
  end.

Definition rename (e : Env) (name description : option string) s : ActiveSession :=
  let m := metadata s in
  with_metadata (SessionMetadata_with_created_at (md_id m) name description
                   (md_user_preferences m) (md_created_at m)) (clock e 0) s.

Definition set_name (e : Env) (name : option string) s : ActiveSession :=
  rename e name (md_description (metadata s)) s.

Definition set_description (e : Env) (description : option string) s : ActiveSession :=
  rename e (md_name (metadata s)) description s.

Definition update_metadata (e : Env) (name description : option string) s : ActiveSession :=
  rename e (match name with Some _ => name | None => md_name (metadata s) end)
    (match description with Some _ => description | None => md_description (metadata s) end) s.

Definition get_metadata s : option string * option string :=
  (md_name (metadata s), md_description (metadata s)).

Definition context_summary s : string :=
  match get_recent_arcs 10 (hot_context s) with
  | [] => "No context available"
  | us => String.concat (String (Ascii.ascii_of_nat 10) "")
            ((λ u, "- " +:+ uc_description (cu_content u)) <$> us)
  end.
End Session.
