(* ===== verification/SessionThms.v ===== *)
(** * Sessions: theorems

    Cutting long text never splits a character; recording an update appends
    it everywhere or, on an error, publishes nothing; removing it again
    restores the session; retiring, pending counts and the stored form. *)

From S2P Require Import Prelude RustStd Collections F32 Types Petgraph EntityGraph.
From S2P Require Import EntityGraphWf EntityGraphInv EntityGraphThms HotContext.
From S2P Require Import Session.
From stdpp Require Import gmap.

(** ** Cutting text *)

Section truncate.
Implicit Types (cs : list N).

(** Byte offset of the [k]-th character. *)
Definition char_offset cs (k : nat) : nat := length (take k cs ≫= utf8_encode).

Lemma take_bind_offset cs k :
  take (char_offset cs k) (cs ≫= utf8_encode) = take k cs ≫= utf8_encode.
Proof.
  unfold char_offset. rewrite <-(take_drop k cs) at 2. rewrite bind_app.
  by rewrite take_app_length.
Qed.

Lemma str_truncate_offset cs k :
  Forall is_scalar cs →
  str_truncate (char_offset cs k) (str_of_chars cs) = str_of_chars (take k cs).
Proof.
  intros Hcs. apply (inj str_bytes). rewrite str_truncate_bytes.
  rewrite !str_bytes_of_chars by (try apply Forall_take; done). apply take_bind_offset.
Qed.

(** A byte inside a character is a continuation byte. *)
Lemma boundary_offset cs i :
  Forall is_scalar cs →
  is_char_boundary (str_of_chars cs) i = true ↔ ∃ k, k ≤ length cs ∧ i = char_offset cs k.
Proof.
  intros Hcs. unfold is_char_boundary, str_len. rewrite str_bytes_of_chars by done.
  destruct (Nat.eqb_spec i 0) as [->|Hi].
  { split; [|done]. intros _. exists 0. split; [lia|done]. }
  revert i Hi. induction Hcs as [|c cs Hc Hcs IH]; intros i Hi.
  { destruct i as [|i]; [done|]. simpl. split; [done|].
    intros (k & _ & Heq). unfold char_offset in Heq. by rewrite take_nil in Heq. }
  destruct (utf8_encode_shape c Hc) as (b & r & Henc & Hb & Hr & _).
  rewrite bind_cons. destruct (decide (i < length (utf8_encode c))) as [Hlt|Hge].
  - rewrite lookup_app_l by done. destruct i as [|i]; [done|].
    rewrite Henc in *. simpl. destruct (r !! i) as [x|] eqn:Hx.
    2: { apply lookup_ge_None in Hx. simpl in Hlt. lia. }
    assert (is_continuation x = true) as -> by (eapply Forall_lookup_1 in Hr; eauto).
    split; [done|]. intros ([|k] & Hk & Heq); [done|exfalso].
    unfold char_offset in Heq. simpl in Heq. rewrite Henc, length_app in Heq. simpl in *. lia.
  - assert (i - length (utf8_encode c) = 0 ∨ i - length (utf8_encode c) ≠ 0) as [Hz|Hz] by lia.
    + assert (i = length (utf8_encode c)) as -> by lia.
      rewrite lookup_app_r, Nat.sub_diag by lia. split.
      * intros _. exists 1. split; [simpl; lia|]. unfold char_offset. simpl.
        by rewrite app_nil_r.
      * intros _. destruct cs as [|c' cs]; simpl.
        { rewrite app_nil_r. by rewrite Nat.eqb_refl. }
        apply Forall_cons_1 in Hcs as [Hc' _].
        destruct (utf8_encode_shape c' Hc') as (b' & r' & -> & Hb' & _). simpl.
        by rewrite Hb'.
    + rewrite lookup_app_r, length_app by lia.
      specialize (IH _ Hz).
      replace (i =? length (utf8_encode c) + length (cs ≫= utf8_encode))
        with (i - length (utf8_encode c) =? length (cs ≫= utf8_encode)).
      2: { apply eq_true_iff_eq. rewrite !Nat.eqb_eq. lia. }
      etransitivity; [exact IH|]. split.
      * intros (k & Hk & Heq). exists (S k). split; [simpl; lia|].
        unfold char_offset in *. cbn [take]. rewrite bind_cons, length_app. lia.
      * intros ([|k] & Hk & Heq); [unfold char_offset in Heq; simpl in Heq; lia|].
        exists k. split; [simpl in Hk; lia|]. unfold char_offset in *.
        cbn [take] in Heq. rewrite bind_cons, length_app in Heq. lia.
Qed.

Lemma floor_char_boundary_spec s e :
  let f := floor_char_boundary s e in
  f ≤ e ∧ is_char_boundary s f = true
  ∧ ∀ i, is_char_boundary s i = true → i ≤ e → i ≤ f.
Proof.
  induction e as [|e IH]; simpl.
  - split_and!; [lia|done|lia].
  - destruct (is_char_boundary s (S e)) eqn:Hb.
    + split_and!; [lia|done|lia].
    + destruct IH as (Hle & Hf & Hmax). split_and!; [lia|done|].
      intros i Hi Hie. destruct (decide (i = S e)) as [->|]; [congruence|].
      apply Hmax; [done|lia].
Qed.

Lemma truncate_safe_chars cs max :
  Forall is_scalar cs →
  ∃ k, truncate_safe (str_of_chars cs) max = str_of_chars (take k cs)
       ∧ (char_offset cs k ≤ max)%nat
       ∧ ∀ j, j ≤ length cs → (char_offset cs j ≤ max)%nat →
              (char_offset cs j ≤ char_offset cs k)%nat.
Proof.
  intros Hcs. unfold truncate_safe. case_decide as Hlen.
  - exists (length cs). rewrite firstn_all. split_and!; [done| |].
    + unfold char_offset. rewrite firstn_all. unfold str_len in Hlen.
      by rewrite str_bytes_of_chars in Hlen.
    + intros j Hj _. unfold char_offset.
      rewrite firstn_all. rewrite <-(take_drop j cs) at 2. rewrite bind_app, length_app. lia.
  - destruct (floor_char_boundary_spec (str_of_chars cs) max) as (Hle & Hb & Hmax).
    apply boundary_offset in Hb as (k & Hk & Heq); [|done].
    exists k. rewrite Heq in *. split_and!; [by apply str_truncate_offset|done|].
    intros j Hj Hjm. apply Hmax; [|done]. apply boundary_offset; [done|by exists j].
Qed.
End truncate.

(** ** Recording *)

Section session.
Context `{U : Unicode} `{P : Petgraph} `{O : MapOrder}.
Implicit Types (s : ActiveSession).

Lemma add_fast_ok `{T : Tokio} `{!TokioLaws} e u s :
  add_incremental_update_fast e u s
  = (let v := limit_update u in
     let s := update_current_state v s in
     let s := match related_code v with
              | Some c => add_code_reference (session_code_reference c) s
              | None => s
              end in
     publish e v (maintain_context e (record_change e v s)), Ok tt).
Proof.
  unfold add_incremental_update_fast, then_op, with_timeout, add_code_op, finish_update, lift.
  rewrite timeout_ready. destruct (related_code _); [|done].
  unfold with_timeout. by rewrite timeout_ready.
Qed.

Lemma add_ok `{T : Tokio} `{!TokioLaws} e u s :
  add_incremental_update e u s
  = (let v := limit_update u in
     let s := update_entity_graph (λ i, clock e (2 + i)) v (update_current_state v s) in
     let s := match related_code v with
              | Some c => add_code_reference (session_code_reference c) s
              | None => s
              end in
     publish e v (maintain_context e (record_change e v s)), Ok tt).
Proof.
  unfold add_incremental_update, then_op, with_timeout, add_code_op, finish_update, lift.
  rewrite !timeout_ready. destruct (related_code _); [|done].
  unfold with_timeout. by rewrite timeout_ready.
Qed.

(** [maintain_context] touches the cold tier only. *)
Lemma maintain_context_eq e s : ∃ c, maintain_context e s = with_cold c s.
Proof.
  unfold maintain_context. case_match; [by eexists|]. exists (cold_context s). by destruct s.
Qed.

Lemma add_fast_state `{T : Tokio} `{!TokioLaws} e u s :
  current_state (add_incremental_update_fast e u s).1
  = update_context_state (limit_update u) (current_state s).
Proof.
  rewrite add_fast_ok. cbv zeta. edestruct maintain_context_eq as [c ->].
  by destruct (related_code (limit_update u)).
Qed.

Lemma flow_grows u c :
  conversation_flow (update_context_state u c) = conversation_flow c ++ [flow_item u].
Proof. unfold update_context_state. by case_match. Qed.

(** ** Removing what was added *)

(** Nothing in the session mentions the update yet. *)
Record unknown_update (v : ContextUpdate) s : Prop := {
  un_updates u : u ∈ incremental_updates s → cu_id u ≠ cu_id v;
  un_hot k u : updates (hot_context s) !! k = Some u → cu_id u ≠ cu_id v;
  un_warm c : c ∈ warm_context s → cu_id (zu_update c) ≠ cu_id v;
  un_history c : c ∈ change_history s → related_update_id c ≠ Some (cu_id v);
  un_flow f : f ∈ conversation_flow (current_state s) →
              related_updates f ≠ [] ∧ cu_id v ∉ related_updates f;
  un_item : item_position v (current_state s) = None;
  un_code c : related_code v = Some c →
              match code_references s !! file_path c with
              | Some refs => refs ≠ [] ∧ position (code_matches c) refs = None
              | None => True
              end;
  un_graph : mentions_id (cu_id v) (entity_graph s) = false;
}.

Lemma retain_all_in {A} (p : A → bool) (l : list A) :
  (∀ x, x ∈ l → p x = true) → retain p l = l.
Proof. apply filter_keep_all. Qed.

Lemma retain_snoc_drop {A} (p : A → bool) (l : list A) y :
  (∀ x, x ∈ l → p x = true) → p y = false → retain p (l ++ [y]) = l.
Proof.
  intros Hl Hy. unfold retain. rewrite filter_app, filter_keep_all by done.
  rewrite filter_cons_False by congruence. by rewrite app_nil_r.
Qed.

Lemma position_snoc {A} (p : A → bool) (l : list A) y :
  position p l = None → p y = true → position p (l ++ [y]) = Some (length l).
Proof.
  intros Hl Hy. induction l as [|x l IH]; simpl in *; [by rewrite Hy|].
  destruct (p x); [done|]. rewrite IH; [done|]. by destruct (position p l).
Qed.

Lemma vec_remove_snoc {A} (l : list A) y : vec_remove (length l) (l ++ [y]) = l.
Proof. unfold vec_remove. by rewrite delete_middle, app_nil_r. Qed.

Lemma find_first_snoc {A} (p : A → bool) (l : list A) y :
  (∀ x, x ∈ l → p x = false) → p y = true → find_first p (l ++ [y]) = Some y.
Proof.
  intros Hl Hy. induction l as [|x l IH]; simpl; [by rewrite Hy|].
  rewrite Hl by (by left). apply IH. intros z Hz. apply Hl. by right.
Qed.

Lemma unlink_flow_id id flow :
  (∀ f, f ∈ flow → related_updates f ≠ [] ∧ id ∉ related_updates f) →
  unlink_flow id flow = flow.
Proof.
  unfold unlink_flow. induction flow as [|f flow IH]; intros Hf; [done|]. csimpl.
  destruct (Hf f) as [Hne Hid]; [by left|].
  rewrite (retain_all_in _ (related_updates f)).
  2: { intros x Hx. apply negb_true_iff, N.eqb_neq. by intros ->. }
  unfold retain in *. rewrite filter_cons_True; simpl.
  2: { by destruct (related_updates f). }
  rewrite IH by (intros g Hg; apply Hf; by right). by destruct f.
Qed.

Lemma unlink_flow_snoc id flow v :
  (∀ f, f ∈ flow → related_updates f ≠ [] ∧ id ∉ related_updates f) → cu_id v = id →
  unlink_flow id (flow ++ [flow_item v]) = flow.
Proof.
  intros Hf <-. unfold unlink_flow. rewrite fmap_app. unfold retain at 1.
  rewrite filter_app. change (filter _ ?l) with (retain (λ f, negb (Nat.eqb (length
    (related_updates f)) 0)) l) at 1. fold (unlink_flow (cu_id v) flow).
  rewrite unlink_flow_id by done. csimpl. unfold retain.
  rewrite (filter_cons_False _ (cu_id v)) by (rewrite N.eqb_refl; done). simpl.
  by rewrite filter_cons_False, app_nil_r.
Qed.

(** Undoing the structured state of one update. *)
Lemma remove_derived_inverse v c :
  (∀ f, f ∈ conversation_flow c → related_updates f ≠ [] ∧ cu_id v ∉ related_updates f) →
  item_position v c = None →
  remove_derived_context v (update_context_state v c) = c.
Proof.
  intros Hflow Hitem. unfold remove_derived_context.
  pose proof (flow_grows v c) as Hcf.
  rewrite Hcf, existsb_app. simpl. rewrite N.eqb_refl, !orb_true_r.
  assert (with_flow (unlink_flow (cu_id v)) (update_context_state v c)
          = with_flow (λ _, conversation_flow c) (update_context_state v c)) as ->.
  { unfold with_flow. rewrite Hcf, unlink_flow_snoc by done. done. }
  unfold update_context_state, item_position, with_flow, remove_item in *.
  destruct c as [ds qs cs ss fl]. simpl in *.
  destruct (cu_update_type v); simpl; try done;
    (rewrite position_snoc by (done || by rewrite String.eqb_refl, Z.eqb_refl)); simpl;
    by rewrite vec_remove_snoc.
Qed.

Lemma code_matches_self c : code_matches c (session_code_reference c) = true.
Proof.
  unfold code_matches. simpl. by rewrite !N.eqb_refl, !String.eqb_refl, !bool_decide_true.
Qed.

Lemma remove_code_inverse c (m : gmap string (list SessionCodeReference)) :
  match m !! file_path c with
  | Some refs => refs ≠ [] ∧ position (code_matches c) refs = None
  | None => True
  end →
  remove_code_entry c (push_code_reference (session_code_reference c) m) = m.
Proof.
  intros Hc. unfold remove_code_entry, push_code_reference. simpl.
  rewrite lookup_insert_eq. destruct (m !! file_path c) as [refs|] eqn:Hm; simpl.
  - destruct Hc as [Hne Hpos]. rewrite position_snoc by (done || apply code_matches_self).
    rewrite vec_remove_snoc. destruct refs as [|r refs]; [done|].
    by rewrite insert_insert_eq, insert_id.
  - rewrite code_matches_self. simpl. by rewrite delete_insert_id.
Qed.
End session.

Section removal.
Context `{U : Unicode} `{P : Petgraph} `{O : MapOrder}.
Implicit Types (s : ActiveSession).

Lemma remove_update_fields id v s :
  find_update id s = Some v →
  let '(s', removed) := remove_update_by_id id s in
  removed = true
  ∧ incremental_updates s' = retain (λ u, negb (N.eqb (cu_id u) id)) (incremental_updates s)
  ∧ warm_context s' = retain (λ c, negb (N.eqb (cu_id (zu_update c)) id)) (warm_context s)
  ∧ change_history s' = retain (λ c, negb (bool_decide (related_update_id c = Some id)))
                          (change_history s)
  ∧ current_state s' = remove_derived_context v (current_state s)
  ∧ code_references s' = match related_code v with
                         | Some c => remove_code_entry c (code_references s)
                         | None => code_references s
                         end
  ∧ entity_graph s' = (if mentions_id id (entity_graph s)
                       then forget_mentions id (entity_graph s) else entity_graph s)
  ∧ hot_context s' = (if contains_id id (hot_context s)
                      then (remove_by_id id (hot_context s)).1 else hot_context s)
  ∧ cold_context s' = cold_context s ∧ metadata s' = metadata s
  ∧ vectorized_update_ids s' = vectorized_update_ids s ∧ last_updated s' = last_updated s.
Proof.
  intros Hf. unfold remove_update_by_id. rewrite Hf.
  destruct (contains_id id (hot_context s)), (related_code v); simpl;
    destruct (mentions_id id (entity_graph s)); by split_and!.
Qed.

(** A hot tier that took an update and lost it again: what was there stays,
    except that a full one has dropped its oldest entry. *)
Definition hot_restored (h h' : HotContext) : Prop :=
  max_size h' = max_size h ∧ next_id h' = (next_id h + 1)%N
  ∧ ∀ k, updates h' !! k = if decide (next_id h + 1 - N.of_nat (max_size h) ≤ k)%N then updates h !! k else None.

Lemma remove_pushed `{!MapOrderLaws} v h :
  hot_wf h → (next_id h + 1 < u64_mod)%N → (∀ k x, updates h !! k = Some x → cu_id x ≠ cu_id v) →
  hot_restored h (if contains_id (cu_id v) (push v h) then (remove_by_id (cu_id v) (push v h)).1 else push v h).
Proof.
  intros Hwf Hlt Hnone. pose proof (push_next_id v h Hlt) as Hnext.
  assert (updates h !! next_id h = None) as Hnew.
  { apply eq_None_not_Some. intros Hs. pose proof (hw_window h Hwf _ Hs). lia. }
  pose proof (remove_by_id_exact (cu_id v) (push v h) (push_hot_wf v h Hwf Hlt)) as Hrem.
  assert (max_size (remove_by_id (cu_id v) (push v h)).1 = max_size h
          ∧ next_id (remove_by_id (cu_id v) (push v h)).1 = next_id (push v h)) as [Hmax Hid].
  { unfold remove_by_id. by destruct (find_first _ _) as [[??]|]. }
  destruct (remove_by_id _ _) as [h' removed]. cbn [fst] in *. destruct Hrem as (_ & Hremoved & _ & Hgone).
  destruct (contains_id _ _) eqn:Hc.
  - destruct (Hgone Hremoved) as (k & x & Hk & Hx & Hupd & _). split_and!; [done|by rewrite Hid|].
    assert (k = next_id h) as ->.
    { rewrite push_lookup in Hk by done. repeat case_decide; try done; by destruct (Hnone _ _ Hk). }
    intros j. rewrite Hupd. destruct (decide (j = next_id h)) as [->|Hne].
    + rewrite lookup_delete_eq, Hnew. by case_decide.
    + rewrite lookup_delete_ne, push_lookup by done. by rewrite (decide_False (P := j = next_id h)) by done.
  - split_and!; [done|exact Hnext|]. intros j. rewrite push_lookup by done. repeat case_decide; try done.
    subst j. exfalso. apply not_true_iff_false in Hc. apply Hc, contains_id_spec. exists (next_id h), v.
    by rewrite push_lookup, decide_True, decide_True by done.
Qed.

(** [g'] is [g] with every mention of [id] gone: all else in it is as it was. *)
Definition unmentioned (id : Uuid) (g g' : SimpleEntityGraph) : Prop :=
  with_mentions (λ _, ∅) g' = with_mentions (λ _, ∅) g
  ∧ ∀ name i, i ∈ default [] (entity_mentions g' !! name) ↔ i ≠ id ∧ i ∈ default [] (entity_mentions g !! name).

Lemma forget_unmentioned id g :
  unmentioned id g (if mentions_id id g then forget_mentions id g else g).
Proof.
  destruct (mentions_id id g) eqn:Hm; (split; [done|]); intros name i.
  - cbn [forget_mentions with_mentions entity_mentions]. rewrite map_lookup_filter, lookup_fmap.
    destruct (entity_mentions g !! name) as [ids|]; [|set_solver].
    cbn [fmap option_fmap option_map mbind option_bind].
    assert (∀ x, x ∈ retain (λ i, negb (N.eqb i id)) ids ↔ x ≠ id ∧ x ∈ ids) as Hretain.
    { intros x. unfold retain. by rewrite list_elem_of_filter, negb_true_iff, N.eqb_neq. }
    rewrite <-Hretain. case_guard as Hne; cbn; [done|]. cbn in Hne.
    destruct (retain _ ids); [done|by destruct Hne].
  - split; [|by intros [_ ?]]. intros Hi. split; [|done]. intros ->.
    apply not_true_iff_false in Hm. apply Hm. unfold mentions_id.
    destruct (entity_mentions g !! name) as [ids|] eqn:Hids; [|by apply not_elem_of_nil in Hi].
    apply existsb_exists. exists ids. split; [apply list_elem_of_In, elem_of_btree_values; by exists name|].
    apply existsb_exists. exists id. split; [by apply list_elem_of_In|apply N.eqb_refl].
Qed.
(** Recording with the graph [g]: what both ways of adding do. *)
Definition recorded (e : Env) (v : ContextUpdate) (g : SimpleEntityGraph) s : ActiveSession :=
  let s := with_entity_graph g (update_current_state v s) in
  let s := match related_code v with
           | Some c => add_code_reference (session_code_reference c) s
           | None => s
           end in
  publish e v (maintain_context e (record_change e v s)).

(** [r] is [s] after [v] was recorded with the graph [g] and removed. *)
Record forgotten (e : Env) (v : ContextUpdate) (g : SimpleEntityGraph) s (r : ActiveSession * bool) : Prop := {
  fg_removed : r.2 = true;
  fg_updates : incremental_updates r.1 = incremental_updates s;
  fg_warm : warm_context r.1 = warm_context s;
  fg_history : change_history r.1 = change_history s;
  fg_state : current_state r.1 = current_state s;
  fg_code : code_references r.1 = code_references s;
  fg_metadata : metadata r.1 = metadata s;
  fg_vectorized : vectorized_update_ids r.1 = vectorized_update_ids s;
  fg_graph : unmentioned (cu_id v) g (entity_graph r.1);
  fg_untouched : mentions_id (cu_id v) g = false → entity_graph r.1 = g;
  fg_hot : hot_wf (hot_context s) → (next_id (hot_context s) + 1 < u64_mod)%N →
           hot_restored (hot_context s) (hot_context r.1);
  fg_cold : cold_context r.1 = cold_context (maintain_context e s);
  fg_updated : last_updated r.1 = clock e 1;
}.

Lemma forget_recorded `{!MapOrderLaws} e v g s :
  unknown_update v s → forgotten e v g s (remove_update_by_id (cu_id v) (recorded e v g s)).
Proof.
  intros Hun. unfold recorded. cbv zeta. set (s1 := match related_code v with Some c => _ | None => _ end).
  assert (s1 = with_code (match related_code v with
                          | Some c => push_code_reference (session_code_reference c) (code_references s)
                          | None => code_references s
                          end) (with_entity_graph g (update_current_state v s))) as Hs1.
  { unfold s1. by destruct (related_code v). }
  assert (cold_context (maintain_context e (record_change e v s1)) = cold_context (maintain_context e s)) as Hcold.
  { rewrite Hs1. unfold maintain_context, should_create_summary. cbn. by destruct (_ && _ && _)%bool. }
  destruct (maintain_context_eq e (record_change e v s1)) as [c Hc]. rewrite Hc in *. clear Hc.
  set (s2 := publish e v _).
  assert (find_update (cu_id v) s2 = Some v) as Hfind.
  { unfold find_update, s2, publish. simpl. rewrite Hs1. simpl.
    rewrite find_first_snoc; [done| |apply N.eqb_refl].
    intros x Hx. apply N.eqb_neq. by apply (un_updates _ _ Hun). }
  pose proof (remove_update_fields _ _ _ Hfind) as Hfields.
  destruct (remove_update_by_id (cu_id v) s2) as [s' removed].
  destruct Hfields as (Hr & Hu & Hw & Hh & Hst & Hco & Hg & Hhot & Hrest).
  destruct Hrest as (Hcd & Hmd & Hvec & Hlu).
  unfold s2, publish in *. rewrite Hs1 in *. simpl in *. split; cbn [fst snd]; [done|..].
  - rewrite Hu. apply retain_snoc_drop; [|by rewrite N.eqb_refl].
    intros x Hx. apply negb_true_iff, N.eqb_neq. by apply (un_updates _ _ Hun).
  - rewrite Hw. apply retain_all_in.
    intros x Hx. apply negb_true_iff, N.eqb_neq. by apply (un_warm _ _ Hun).
  - rewrite Hh. apply retain_snoc_drop; [|simpl; by rewrite bool_decide_true].
    intros x Hx. apply negb_true_iff, bool_decide_eq_false. by apply (un_history _ _ Hun).
  - rewrite Hst. apply remove_derived_inverse; [apply (un_flow _ _ Hun)|apply (un_item _ _ Hun)].
  - rewrite Hco. pose proof (un_code _ _ Hun) as Hcode.
    destruct (related_code v) as [cr|]; [|done]. by apply remove_code_inverse, Hcode.
  - done.
  - done.
  - rewrite Hg. apply forget_unmentioned.
  - intros Hm. by rewrite Hg, Hm.
  - intros Hwf Hlt. rewrite Hhot. apply remove_pushed; [done|exact Hlt|apply (un_hot _ _ Hun)].
  - by rewrite Hcd.
  - done.
Qed.
End removal.

(** ** Theorems *)

(** Cutting at a character boundary loses less than one character. *)
Section text.
(** [truncate_safe] cuts valid UTF-8 at a character boundary: the
    result is a whole prefix of the characters, at most [max] bytes long,
    and no longer such prefix fits. *)
Theorem truncate_safe_longest_prefix (cs : list N) max :
  Forall is_scalar cs →
  ∃ k, truncate_safe (str_of_chars cs) max = str_of_chars (take k cs)
       ∧ char_offset cs k ≤ max
       ∧ ∀ j, j ≤ length cs → char_offset cs j ≤ max → char_offset cs j ≤ char_offset cs k.
Proof. apply truncate_safe_chars. Qed.

(** a recorded description is longer than [MAX_DESCRIPTION_BYTES] (the
    "largest update description kept") whenever it was cut, because the
    15-byte marker is added after the cut; the excess is 12 to 15 bytes. *)
Theorem cut_description_exceeds_maximum c cs :
  uc_description c = str_of_chars cs → Forall is_scalar cs →
  MAX_DESCRIPTION_BYTES < str_len (uc_description c) →
  MAX_DESCRIPTION_BYTES + 12 ≤ str_len (uc_description (limit_content c))
    ≤ MAX_DESCRIPTION_BYTES + 15.
Proof.
  unfold limit_content. cbn [uc_description]. generalize MAX_DESCRIPTION_BYTES as M.
  intros M Hd Hcs Hlen. rewrite decide_True by done. rewrite Hd in *.
  destruct (truncate_safe_chars cs M Hcs) as (k & -> & Hle & Hmax).
  unfold str_len in *. rewrite str_bytes_app, length_app.
  rewrite !str_bytes_of_chars in * by (try apply Forall_take; done).
  fold (char_offset cs k).
  replace (length (str_bytes "... (truncated)")) with 15 by reflexivity.
  enough (M < char_offset cs k + 4) by lia.
  destruct (lookup_lt_is_Some_2 cs k) as [x Hx].
  { destruct (decide (k < length cs)); [done|exfalso].
    unfold char_offset in Hle. rewrite take_ge in Hle by lia. lia. }
  assert (char_offset cs (S k) ≤ char_offset cs k + 4) as Hstep.
  { unfold char_offset. rewrite (take_S_r _ _ _ Hx), bind_app, length_app.
    cbn [mbind list_bind]. rewrite app_nil_r.
    destruct (utf8_encode_shape x) as (b & r & -> & _ & _ & Hr);
      [by eapply Forall_lookup_1|]. simpl. lia. }
  assert (char_offset cs k < char_offset cs (S k)) as Hinc.
  { unfold char_offset. rewrite (take_S_r _ _ _ Hx), bind_app, length_app.
    cbn [mbind list_bind]. rewrite app_nil_r.
    destruct (utf8_encode_shape x) as (b & r & -> & _);
      [by eapply Forall_lookup_1|]. simpl. lia. }
  destruct (decide (char_offset cs (S k) ≤ M)) as [Hc|]; [|lia].
  apply lookup_lt_Some in Hx. pose proof (Hmax (S k) ltac:(lia) Hc). lia.
Qed.
End text.

Section theorems.
Context `{U : Unicode} `{P : Petgraph} `{O : MapOrder} `{OL : !MapOrderLaws}.
Implicit Types (s : ActiveSession).

(** recording an update never fails (its steps do not suspend, so no
    timeout fires), and appends the cut update to the canonical list and to
    the hot tier, a change record, one flow item and, if it has code, one
    code reference; names, preferences, the warm tier and the vectorised
    ids stay. *)
Theorem add_update_records `{T : Tokio} `{!TokioLaws} e u s :
  let v := limit_update u in
  let '(s', r) := add_incremental_update e u s in
  r = Ok tt
  ∧ incremental_updates s' = incremental_updates s ++ [v]
  ∧ hot_context s' = push v (hot_context s)
  ∧ change_history s' = change_history s ++ [change_record (fresh_id e 0) v]
  ∧ current_state s' = update_context_state v (current_state s)
  ∧ conversation_flow (current_state s') = conversation_flow (current_state s) ++ [flow_item v]
  ∧ entity_graph s' = apply_update (λ i, clock e (2 + i)) v (entity_graph s)
  ∧ code_references s' = match related_code v with
                         | Some c => push_code_reference (session_code_reference c)
                                       (code_references s)
                         | None => code_references s
                         end
  ∧ metadata s' = metadata s ∧ warm_context s' = warm_context s
  ∧ vectorized_update_ids s' = vectorized_update_ids s ∧ last_updated s' = clock e 1.
Proof.
  intros v. rewrite add_ok. cbv zeta. fold v.
  edestruct maintain_context_eq as [c ->].
  pose proof (flow_grows v (current_state s)).
  by destruct (related_code v); split_and!.
Qed.

(** when a timeout does fail [add_incremental_update], the update is
    published nowhere: only the structured state may differ from before the
    call; the canonical list, the tiers, the history, the code references,
    the graph and the metadata do not. *)
Theorem add_update_error_publishes_nothing `{T : Tokio} `{!TokioOutput} e u s s' m :
  add_incremental_update e u s = (s', Err m) → ∃ c, s' = with_state c s.
Proof.
  unfold add_incremental_update, then_op, with_timeout.
  destruct (timeout 3 _) as [s1|] eqn:H1.
  2: { intros [= <- _]. exists (current_state s). by destruct s. }
  apply timeout_output in H1 as ->. destruct (timeout 5 _) as [s2|] eqn:H2.
  2: { intros [= <- _]. by eexists. }
  unfold add_code_op, finish_update, with_timeout, lift. by repeat case_match.
Qed.

(** C4: removing an update right after recording it, by either way, leaves
    nothing of it, for an update the session did not know: the canonical list,
    the warm tier, the history, the structured state, the code references, the
    metadata and the vectorised ids are the ones before, and so is the graph
    when recording did not touch it; else the graph is the one recording made,
    without the mentions of the update.  What recording did for good stays: the
    time, the periodic summary of the cold tier, and the oldest entry that a
    full hot tier dropped. *)
Theorem remove_undoes_add `{T : Tokio} `{!TokioLaws} e u s :
  let v := limit_update u in
  unknown_update v s →
  forgotten e v (entity_graph s) s (remove_update_by_id (cu_id v) (add_incremental_update_fast e u s).1)
  ∧ forgotten e v (apply_update (λ i, clock e (2 + i)) v (entity_graph s)) s
      (remove_update_by_id (cu_id v) (add_incremental_update e u s).1)
  ∧ entity_graph (remove_update_by_id (cu_id v) (add_incremental_update_fast e u s).1).1 = entity_graph s.
Proof.
  intros v Hun. rewrite add_fast_ok, add_ok. fold v. cbv zeta. cbn [fst]. clearbody v.
  pose proof (forget_recorded e v (entity_graph s) s Hun) as Hfast.
  pose proof (forget_recorded e v (apply_update (λ i, clock e (2 + i)) v (entity_graph s)) s Hun) as Hfull.
  assert (recorded e v (entity_graph s) s
          = publish e v (maintain_context e (record_change e v
              match related_code v with
              | Some c => add_code_reference (session_code_reference c) (update_current_state v s)
              | None => update_current_state v s
              end))) as Hrec by by destruct s.
  rewrite Hrec in Hfast. split_and!; [exact Hfast|exact Hfull|].
  apply (fg_untouched _ _ _ _ _ Hfast), (un_graph _ _ Hun).
Qed.
End theorems.

(** ** Instances *)

#[local] Existing Instances ascii_unicode list_graph demo_libm list_graph_laws key_order
  key_order_laws.

Definition instant : Tokio := {| timeout := λ A _ a, Some a |}.
Lemma instant_laws : @TokioLaws instant.
Proof. by split. Qed.
(** A runtime whose five-second deadline always passes. *)
Definition slow : Tokio := {| timeout := λ A secs a, if N.eqb secs 5 then None else Some a |}.
Lemma slow_output : @TokioOutput slow.
Proof. split. simpl. intros A secs a b. case_match; by intros [= ->]. Qed.

Definition demo_env : Env := mkEnv Z.of_nat (λ i, N.of_nat (100 + i)).
Definition demo_session : ActiveSession := ActiveSession_new demo_env 7 (Some "s"%string) None.

Lemma truncate_safe_longest_prefix_witness :
  ∃ k, truncate_safe (str_of_chars [97; 8364; 98]%N) 3
       = str_of_chars (take k [97; 8364; 98]%N)
       ∧ char_offset [97; 8364; 98]%N k ≤ 3.
Proof.
  destruct (truncate_safe_longest_prefix [97; 8364; 98]%N 3) as (k & Hk & Hle & _).
  { repeat constructor. }
  exists k. split; [exact Hk|exact Hle].
Defined.

(** A description of [n] bytes. *)
Definition long_content (n : nat) : UpdateContent :=
  mkUpdateContent "t" (str_of_chars (replicate n 97%N)) [] [] [].

Lemma long_chars n : Forall is_scalar (replicate n 97%N).
Proof. apply Forall_replicate. reflexivity. Qed.

Lemma long_content_description n :
  uc_description (long_content n) = str_of_chars (replicate n 97%N).
Proof. reflexivity. Qed.

Lemma long_content_length n : str_len (uc_description (long_content n)) = n.
Proof.
  rewrite long_content_description. unfold str_len.
  rewrite str_bytes_of_chars by apply long_chars. rewrite <-(length_replicate n 97%N) at 2.
  f_equal. induction n as [|n IH]; [done|]. cbn [replicate]. by rewrite bind_cons, IH.
Qed.

Lemma cut_description_exceeds_maximum_witness :
  MAX_DESCRIPTION_BYTES + 12
  ≤ str_len (uc_description (limit_content (long_content (S MAX_DESCRIPTION_BYTES)))).
Proof.
  refine (proj1 (cut_description_exceeds_maximum (long_content (S MAX_DESCRIPTION_BYTES)) _
    (long_content_description (S MAX_DESCRIPTION_BYTES)) (long_chars _) _)).
  rewrite long_content_length. exact (Nat.lt_succ_diag_r _).
Defined.

Lemma add_update_records_witness :
  (@add_incremental_update _ _ instant demo_env (demo_update 1) demo_session).2 = Ok tt.
Proof.
  pose proof (@add_update_records _ _ instant instant_laws demo_env (demo_update 1)
    demo_session) as H.
  destruct (@add_incremental_update _ _ instant demo_env (demo_update 1) demo_session).
  exact (proj1 H).
Defined.

Lemma add_update_error_publishes_nothing_witness :
  ∃ c, (@add_incremental_update _ _ slow demo_env (demo_update 1) demo_session).1
       = with_state c demo_session.
Proof.
  apply (@add_update_error_publishes_nothing _ _ slow slow_output demo_env (demo_update 1)
    demo_session _ "Entity graph update timeout"%string).
  reflexivity.
Defined.

Lemma demo_unknown : unknown_update (limit_update (demo_update 1)) demo_session.
Proof.
  split; try reflexivity; simpl; intros *; rewrite ?elem_of_nil; try done.
Qed.

Lemma remove_undoes_add_witness :
  let r := remove_update_by_id 1 (@add_incremental_update _ _ instant demo_env (demo_update 1) demo_session).1 in
  r.2 = true ∧ incremental_updates r.1 = [] ∧ hot_restored (hot_context demo_session) (hot_context r.1)
  ∧ ∀ name, 1%N ∉ default [] (entity_mentions (entity_graph r.1) !! name).
Proof.
  pose proof (@remove_undoes_add _ _ _ key_order_laws instant instant_laws demo_env
    (demo_update 1) demo_session demo_unknown) as (_ & H & _).
  change (cu_id (limit_update (demo_update 1))) with 1%N in H. split_and!.
  - exact (fg_removed _ _ _ _ _ H).
  - exact (fg_updates _ _ _ _ _ H).
  - apply (fg_hot _ _ _ _ _ H); [apply new_hot_wf|reflexivity].
  - intros name Hin. apply (fg_graph _ _ _ _ _ H) in Hin as [Hne _]. by apply Hne.
Defined.
