(* ===== verification/SessionInv.v ===== *)
(** * Sessions: invariant, retiring, stored form

    What every session built by the public operations satisfies, and the
    theorems about retiring updates, pending vectorisation, the stored form
    and the sizes of a session's parts. *)

From S2P Require Import Prelude RustStd Collections F32 Types Petgraph EntityGraph.
From S2P Require Import EntityGraphWf EntityGraphInv EntityGraphSpec EntityGraphThms GraphSerde HotContext.
From S2P Require Import Session SessionThms.
From stdpp Require Import gmap.

(** ** The public operations *)

Inductive session_op :=
| SAdd (u : ContextUpdate)
| SAddFast (u : ContextUpdate)
| SApplyGraph (u : ContextUpdate)
| SRemove (id : Uuid)
| SRemoveFile (file : string)
| SRetire (id : Uuid) (at_ : DateTime)
| SRebuildGraph
| SRelink
| SUpdateMetadata (name description : option string)
| SSetUpdates (us : list ContextUpdate)
| SSetHistory (h : list ChangeRecord).

Section run.
Context `{U : Unicode} `{P : Petgraph} `{O : MapOrder} `{T : Tokio}.

Definition run_session_op (e : Env) (o : session_op) (s : ActiveSession) : ActiveSession :=
  match o with
  | SAdd u => (add_incremental_update e u s).1
  | SAddFast u => (add_incremental_update_fast e u s).1
  | SApplyGraph u => (apply_entity_graph_update e u s).1
  | SRemove id => (remove_update_by_id id s).1
  | SRemoveFile f => (remove_updates_for_file f s).1
  | SRetire id t => (retire_update id t s).1
  | SRebuildGraph => rebuild_entity_graph_sync (λ i j, clock e (i + j)) s
  | SRelink => relink_entity_mentions s
  | SUpdateMetadata n d => update_metadata e n d s
  | SSetUpdates us => set_incremental_updates us s
  | SSetHistory h => set_change_history h s
  end.

(** [env i]: what the clock and id source give the [i]-th call. *)
Definition run_session (env : nat → Env) (i : nat) (ops : list session_op)
    (s : ActiveSession) : ActiveSession :=
  foldi (λ i o s, run_session_op (env i) o s) i ops s.
End run.

Section invariant.
Context `{U : Unicode} `{P : Petgraph} `{L : !PetgraphLaws} `{O : MapOrder}
  `{OL : !MapOrderLaws} `{T : Tokio} `{TL : !TokioLaws}.
Implicit Types (s : ActiveSession).

(** A compact summary: no snapshot, at most two ids. *)
Definition summary_compact (x : StructuredSummary) : Prop :=
  context_snapshot x = StructuredContext_new ∧ length (referenced_updates x) ≤ 2.

Record session_wf (n : N) s : Prop := {
  sw_hot : hot_wf (hot_context s);
  sw_next : (next_id (hot_context s) ≤ n)%N;
  sw_graph : graph_wf (entity_graph s);
  sw_cold : length (cold_context s) ≤ MAX_COLD_SUMMARIES;
  sw_compact : Forall summary_compact (cold_context s);
}.

Lemma keep_last_length {A} n (v : list A) : length (keep_last n v) ≤ n.
Proof. unfold keep_last. case_decide; [rewrite length_drop|]; lia. Qed.

Lemma Forall_keep_last {A} (Q : A → Prop) n v : Forall Q v → Forall Q (keep_last n v).
Proof. unfold keep_last. case_decide; [apply Forall_drop|done]. Qed.

Lemma compact_summary x : summary_compact (compact x).
Proof.
  split; [done|]. simpl. case_decide as Hlen; [|lia].
  destruct (lookup_lt_is_Some_2 (referenced_updates x) 0) as [a ->]; [lia|].
  destruct (lookup_lt_is_Some_2 (referenced_updates x) (length (referenced_updates x) - 1))
    as [b ->]; [lia|]. simpl. lia.
Qed.

Lemma compact_cold_wf cold :
  length (compact_cold_context cold) ≤ MAX_COLD_SUMMARIES
  ∧ Forall summary_compact (compact_cold_context cold).
Proof.
  unfold compact_cold_context. rewrite length_fmap. split; [apply keep_last_length|].
  apply Forall_fmap, Forall_forall. intros x _. apply compact_summary.
Qed.

Lemma summary_range_length w : length (summary_range w) ≤ 2.
Proof. unfold summary_range. repeat case_match; simpl; lia. Qed.

Lemma maintain_context_cold e s :
  length (cold_context s) ≤ MAX_COLD_SUMMARIES → Forall summary_compact (cold_context s) →
  length (cold_context (maintain_context e s)) ≤ MAX_COLD_SUMMARIES
  ∧ Forall summary_compact (cold_context (maintain_context e s)).
Proof.
  intros Hlen Hc. unfold maintain_context. case_match; [|done].
  unfold create_periodic_summary. cbn [cold_context with_cold].
  split; [apply keep_last_length|].
  apply Forall_keep_last, Forall_app. split; [done|]. constructor; [|done].
  split; [done|]. apply summary_range_length.
Qed.

(** Same tiers and graph. *)
Lemma session_wf_frame n s s' :
  hot_context s' = hot_context s → entity_graph s' = entity_graph s →
  cold_context s' = cold_context s → session_wf n s → session_wf n s'.
Proof. intros Hh Hg Hc [H1 H2 H3 H4 H5]. by split; rewrite ?Hh, ?Hg, ?Hc. Qed.

Ltac session_frame := match goal with
  | H : session_wf ?n ?s |- session_wf ?n ?s' => apply (session_wf_frame n s s'); done end.

Lemma session_wf_weaken n n' s : session_wf n s → (n ≤ n')%N → session_wf n' s.
Proof. intros [H1 H2 H3 H4 H5] Hn. split; try done. lia. Qed.

(** Publishing after the maintenance step. *)
Lemma publish_wf n e v s :
  (n + 1 < u64_mod)%N → session_wf n s →
  session_wf (n + 1) (publish e v (maintain_context e (record_change e v s))).
Proof.
  intros Hn [H1 H2 H3 H4 H5].
  destruct (maintain_context_cold e (record_change e v s) H4 H5) as [Hc1 Hc2].
  destruct (maintain_context_eq e (record_change e v s)) as [c Hc]. rewrite Hc in *.
  split; simpl; try done.
  - apply push_hot_wf; [done|lia].
  - unfold u64_add. rewrite N.mod_small by lia. lia.
Qed.

Lemma add_code_wf n c s :
  session_wf n s →
  session_wf n (match c with
                | Some c => add_code_reference (session_code_reference c) s
                | None => s
                end).
Proof. intros Hs. destruct c; [|done]. session_frame. Qed.

Lemma snapshot_length h : (N.of_nat (length (snapshot_arcs h)) ≤ next_id h)%N.
Proof.
  assert (length (snapshot_arcs h) ≤ length (id_range h)).
  { unfold snapshot_arcs. induction (id_range h) as [|k ks IH]; [done|]. csimpl.
    destruct (updates h !! k); simpl; lia. }
  unfold id_range, range in *. rewrite length_fmap, length_seq in *. lia.
Qed.

Lemma remove_by_id_wf n id h :
  hot_wf h → (next_id h ≤ n)%N →
  hot_wf (remove_by_id id h).1 ∧ (next_id (remove_by_id id h).1 ≤ n)%N.
Proof.
  intros Hwf Hn. unfold remove_by_id. repeat case_match; simpl; [|done].
  split; [by apply delete_hot_wf|done].
Qed.

Lemma rebuild_graph_wf now s : graph_wf (entity_graph (rebuild_entity_graph_sync now s)).
Proof.
  unfold rebuild_entity_graph_sync. cbn [entity_graph with_entity_graph].
  apply foldi_inv; [auto with pcx|]. apply foldi_inv; auto with pcx.
Qed.

Lemma retire_update_wf n id t s :
  (n < u64_mod)%N → session_wf n s → session_wf n (retire_update id t s).1.
Proof.
  intros Hn Hwf. pose proof Hwf as [H1 H2 H3 H4 H5].
  unfold retire_update. destruct (position _ _) as [pos|]; [|done].
  destruct (incremental_updates s !! pos) as [u|]; [|done]. case_decide; [done|].
  destruct (contains_id _ _); [|session_frame].
  set (l := _ <$> snapshot_arcs _). simpl.
  assert (N.of_nat (length l) ≤ next_id (hot_context s))%N as Hlen.
  { unfold l. rewrite length_fmap. apply snapshot_length. }
  destruct (from_updates_lookup l (max_hot_context_size (md_user_preferences (metadata s))))
    as (Hw & Hid & _); [lia|]. split; simpl; try done. rewrite Hid. lia.
Qed.

Lemma run_session_op_wf n e o s :
  (n + 1 < u64_mod)%N → session_wf n s → session_wf (n + 1) (run_session_op e o s).
Proof.
  intros Hn Hwf. destruct o; simpl. 3-11: apply (session_wf_weaken n); [|lia].
  - rewrite add_ok. apply publish_wf; [done|]. apply add_code_wf.
    destruct Hwf. split; try done. simpl. auto with pcx.
  - rewrite add_fast_ok. apply publish_wf; [done|]. apply add_code_wf.
    session_frame.
  - unfold apply_entity_graph_update, with_timeout. rewrite timeout_ready.
    destruct Hwf. split; try done. simpl. auto with pcx.
  - destruct (find_update id s) as [v|] eqn:Hf.
    2: { unfold remove_update_by_id. by rewrite Hf. }
    pose proof (remove_update_fields id v s Hf) as Hfields.
    destruct (remove_update_by_id id s) as [s' r]. simpl in *.
    destruct Hfields as (_ & _ & _ & _ & _ & _ & Hg & Hh & Hcold & _). destruct Hwf as [H1 H2 H3 H4 H5].
    destruct (remove_by_id_wf n id _ H1 H2).
    split; rewrite ?Hcold; try done; rewrite ?Hg, ?Hh; repeat case_match; try done.
    all: by apply with_mentions_wf.
  - unfold remove_updates_for_file. case_decide; session_frame.
  - by apply retire_update_wf; [lia|].
  - destruct Hwf as [H1 H2 H3 H4 H5]. split; try done. apply rebuild_graph_wf.
  - destruct Hwf as [H1 H2 H3 H4 H5]. split; try done. simpl. auto with pcx.
  - session_frame.
  - session_frame.
  - session_frame.
Qed.

Lemma new_session_wf e id n d : session_wf 0 (ActiveSession_new e id n d).
Proof. split; simpl; try done; [apply new_hot_wf|apply new_wf|lia]. Qed.

Lemma run_session_wf env ops i n s :
  (n + N.of_nat (length ops) < u64_mod)%N → session_wf n s →
  session_wf (n + N.of_nat (length ops)) (run_session env i ops s).
Proof.
  revert i n s. unfold run_session. induction ops as [|o ops IH]; intros i n s Hn Hs; simpl in *.
  - by rewrite N.add_0_r.
  - replace (n + N.of_nat (S (length ops)))%N
      with ((n + 1) + N.of_nat (length ops))%N by lia.
    apply IH; [lia|]. apply run_session_op_wf; [lia|done].
Qed.
End invariant.

(** ** Lemmas for the theorems *)

Section lemmas.
Context `{U : Unicode} `{P : Petgraph} `{O : MapOrder} `{OL : !MapOrderLaws}.
Implicit Types (s : ActiveSession).

Lemma for_each_snapshot {S} (f : S → ContextUpdate → S) x h :
  for_each f x h = foldl f x (snapshot_arcs h).
Proof.
  unfold for_each, snapshot_arcs. revert x. induction (id_range h) as [|k ks IH]; intros x;
    [done|]. csimpl. destruct (updates h !! k); csimpl; apply IH.
Qed.

Lemma foldl_count {A} (Q : A → Prop) `{!∀ x, Decision (Q x)} n (l : list A) :
  foldl (λ n x, if decide (Q x) then S n else n) n l = n + length (filter Q l).
Proof.
  revert n. induction l as [|x l IH]; intros n; simpl; [lia|].
  rewrite IH, filter_cons. case_decide; simpl; lia.
Qed.

Lemma by_id_Some us k v : by_id us !! k = Some v → v ∈ us ∧ cu_id v = k.
Proof.
  unfold by_id. induction us as [|u us IH] using rev_ind; simpl; [by rewrite lookup_empty|].
  rewrite foldl_app. simpl. rewrite lookup_insert_Some, elem_of_app.
  intros [[<- <-]|[_ Hv]]; [split; [right; by left|done]|].
  destruct (IH Hv). auto.
Qed.

Lemma hot_sharing_values hot incr max :
  (∀ u v, u ∈ hot → v ∈ incr → cu_id u = cu_id v → u = v) →
  hot_context_sharing hot incr max = from_updates hot max.
Proof.
  intros Hsame. unfold hot_context_sharing. f_equal.
  rewrite <-(list_fmap_id hot) at 2. apply list_fmap_ext. intros i u Hu. simpl.
  destruct (by_id _ !! cu_id u) as [v|] eqn:Hv; [|done].
  apply by_id_Some in Hv as [Hv Hid]. symmetry. apply Hsame.
  - by eapply list_elem_of_lookup_2.
  - apply list_elem_of_lookup in Hv as [j Hj]. rewrite lookup_drop in Hj.
    by eapply list_elem_of_lookup_2.
  - done.
Qed.

Lemma compact_id x : summary_compact x → compact x = x.
Proof.
  intros [Hs Hr]. unfold compact. rewrite decide_False by lia. rewrite <-Hs. by destruct x.
Qed.

Lemma compact_cold_id cold :
  length cold ≤ MAX_COLD_SUMMARIES → Forall summary_compact cold →
  compact_cold_context cold = cold.
Proof.
  intros Hlen Hc. unfold compact_cold_context, keep_last. rewrite decide_False by lia.
  rewrite <-(list_fmap_id cold) at 2. apply list_fmap_ext. intros i x Hx.
  apply compact_id. by eapply Forall_lookup_1.
Qed.

(** The state a successful [retire_update] leaves. *)
Lemma retire_update_Some id t s s' ch :
  retire_update id t s = (s', Some ch) →
  ∃ pos u, position (λ u, N.eqb (cu_id u) id) (incremental_updates s) = Some pos
    ∧ incremental_updates s !! pos = Some u ∧ cu_id u = id ∧ retired_at (cu_meta u) = None
    ∧ ch = retire t u
    ∧ incremental_updates s' = <[pos := ch]> (incremental_updates s)
    ∧ hot_context s'
      = (if contains_id id (hot_context s)
         then from_updates ((λ u, if N.eqb (cu_id u) id then ch else u)
                              <$> snapshot_arcs (hot_context s))
                (max_hot_context_size (md_user_preferences (metadata s)))
         else hot_context s)
    ∧ warm_context s' = (λ c, if N.eqb (cu_id (zu_update c)) id
                              then mkCompressedUpdate ch (compression_ratio c) (compressed_at c)
                              else c) <$> warm_context s.
Proof.
  unfold retire_update. destruct (position _ _) as [pos|] eqn:Hpos; [|done].
  destruct (incremental_updates s !! pos) as [u|] eqn:Hu; [|done].
  case_decide as Hr; [done|]. intros [= <- <-]. exists pos, u.
  destruct (position_Some _ _ _ Hpos) as (x & Hx & Hid%N.eqb_eq & _).
  assert (x = u) as -> by congruence.
  assert (retired_at (cu_meta u) = None) by (by apply eq_None_not_Some).
  by destruct (contains_id id (hot_context s)); split_and!.
Qed.

Lemma position_insert {A} (p : A → bool) v i x :
  position p v = Some i → p x = true → position p (<[i := x]> v) = Some i.
Proof.
  revert i. induction v as [|y v IH]; intros i; simpl; [done|].
  destruct (p y) eqn:Hy.
  - intros [= <-] Hx. simpl. by rewrite Hx.
  - intros (j & Hj & ->)%fmap_Some Hx. simpl. rewrite Hy. by rewrite (IH _ Hj Hx).
Qed.
End lemmas.

(** ** Theorems *)

Section theorems.
Context `{U : Unicode} `{P : Petgraph} `{L : !PetgraphLaws} `{O : MapOrder}
  `{OL : !MapOrderLaws} `{T : Tokio} `{TL : !TokioLaws} `{DL : DeriveRelationLaws}.
Implicit Types (s : ActiveSession).

(** C3: whatever a new session goes through, its hot tier holds only ids of
    its window, its graph is well-formed, and the cold tier holds at most
    [MAX_COLD_SUMMARIES] summaries, all compact (no snapshot, at most two
    ids); fewer than [2^64] calls keep the id counter from wrapping. *)
Theorem session_invariant env e id name description ops :
  (N.of_nat (length ops) < u64_mod)%N →
  session_wf (N.of_nat (length ops))
    (run_session env 0 ops (ActiveSession_new e id name description)).
Proof.
  intros Hn. apply (run_session_wf env ops 0 0); [lia|apply new_session_wf].
Qed.

(** [retire_update] marks the first update with the id, keeps the order
    and ids of the canonical list, leaves no other version of it in the hot
    and warm tiers, and a second call finds it already retired and changes
    nothing. *)
Theorem retire_update_once n id t t' s s' ch :
  session_wf n s → (n < u64_mod)%N → retire_update id t s = (s', Some ch) →
  cu_id ch = id ∧ retired_at (cu_meta ch) = Some t
  ∧ cu_id <$> incremental_updates s' = cu_id <$> incremental_updates s
  ∧ ch ∈ incremental_updates s'
  ∧ (∀ u, u ∈ snapshot_arcs (hot_context s') → cu_id u = id → u = ch)
  ∧ (∀ c, c ∈ warm_context s' → cu_id (zu_update c) = id → zu_update c = ch)
  ∧ retire_update id t' s' = (s', None).
Proof.
  intros Hwf Hn Hret. destruct (retire_update_Some _ _ _ _ _ Hret)
    as (pos & u & Hpos & Hu & Hid & Hr & -> & Hinc & Hhot & Hwarm).
  pose proof (lookup_lt_Some _ _ _ Hu) as Hlt. split_and!.
  - done.
  - done.
  - rewrite Hinc, list_fmap_insert. apply list_insert_id.
    by rewrite list_lookup_fmap, Hu.
  - rewrite Hinc. by eapply list_elem_of_lookup_2, list_lookup_insert_eq.
  - intros v. rewrite Hhot. destruct (contains_id id (hot_context s)) eqn:Hc.
    + rewrite from_updates_last.
      2: { rewrite length_fmap. pose proof (snapshot_length (hot_context s)).
           pose proof (sw_next _ _ Hwf). lia. }
      intros Hv Hvid. apply list_elem_of_lookup in Hv as [j Hj]. rewrite lookup_drop in Hj.
      apply list_elem_of_lookup_2, list_elem_of_fmap in Hj as (w & -> & _).
      destruct (N.eqb_spec (cu_id w) id); [done|]. by destruct (N.eqb_spec (cu_id w) id).
    + intros (k & Hk)%(elem_of_snapshot _ _ (sw_hot _ _ Hwf)) Hvid. exfalso.
      assert (contains_id id (hot_context s) = true); [|congruence].
      apply contains_id_spec. by exists k, v.
  - intros c. rewrite Hwarm. intros (w & -> & _)%list_elem_of_fmap.
    destruct (N.eqb_spec (cu_id (zu_update w)) id); [done|]. intros Hw. simpl in Hw. done.
  - unfold retire_update. rewrite Hinc, (position_insert _ _ _ _ Hpos); [|by apply N.eqb_eq].
    rewrite list_lookup_insert_eq by done. by rewrite decide_True by by eexists.
Qed.

(** [pending_vectorization_count] is the number of distinct ids in the
    canonical list or the hot tier that are not vectorised. *)
Theorem pending_count_distinct s :
  NoDup (cu_id <$> snapshot_arcs (hot_context s)) →
  pending_vectorization_count s
  = size ((list_to_set (cu_id <$> incremental_updates s)
           ∪ list_to_set (cu_id <$> snapshot_arcs (hot_context s)))
            ∖ vectorized_update_ids s).
Proof.
  intros Hnd. unfold pending_vectorization_count.
  set (V := vectorized_update_ids s). set (l := snapshot_arcs (hot_context s)) in *.
  set (pend := list_to_set (filter _ _)). rewrite for_each_snapshot. fold l.
  rewrite (foldl_count (λ u, (cu_id u ∉ pend) ∧ (cu_id u ∉ V))).
  set (extra := filter _ l).
  assert (NoDup (cu_id <$> extra)) as Hnde by by apply NoDup_fmap_filter.
  rewrite <-(length_fmap cu_id extra), <-(size_list_to_set (C := gset N)) by done.
  rewrite <-size_union.
  2: { intros x Hx. rewrite elem_of_list_to_set, list_elem_of_fmap.
       intros (u & -> & [[Hu _] _]%list_elem_of_filter). done. }
  f_equal. apply leibniz_equiv. intros x.
  assert (x ∈ pend ↔ (x ∉ V) ∧ x ∈ cu_id <$> incremental_updates s) as Hpend.
  { unfold pend. by rewrite elem_of_list_to_set, list_elem_of_filter. }
  rewrite elem_of_difference, !elem_of_union, Hpend, !elem_of_list_to_set.
  assert (x ∈ cu_id <$> extra ↔ ((x ∉ pend) ∧ (x ∉ V)) ∧ x ∈ cu_id <$> l) as ->.
  { unfold extra. rewrite !list_elem_of_fmap. setoid_rewrite list_elem_of_filter. naive_solver. }
  rewrite Hpend. destruct (decide (x ∈ V)), (decide (x ∈ cu_id <$> incremental_updates s));
    tauto.
Qed.

(** What [s'] is, when it was read from a stored form of [s] that holds the
    updates [us]: every component is equal, but for the hot tier, rebuilt to
    show the same updates in the same order, and the graph, rebuilt to be the
    same one. *)
Record restored (us : list ContextUpdate) s s' : Prop := {
  rst_same : s' = with_updates us (with_hot (hot_context s') (with_entity_graph (entity_graph s') s));
  rst_hot : snapshot_arcs (hot_context s') = snapshot_arcs (hot_context s);
  rst_graph : same_graph (entity_graph s) (entity_graph s');
}.

(** Reading back a stored form, with or without its updates. *)
Lemma stored_form now n set_order (b : bool) s :
  session_wf n s → (n < u64_mod)%N →
  (∀ X, set_order X ≡ₚ elements X) →
  (∀ u v, u ∈ snapshot_arcs (hot_context s) → v ∈ (if b then incremental_updates s else []) →
          cu_id u = cu_id v → u = v) →
  length (snapshot_arcs (hot_context s))
    ≤ max_hot_context_size (md_user_preferences (metadata s)) →
  ∃ s', session_of_data now (view set_order b s) = Some (Ok s')
    ∧ restored (if b then incremental_updates s else []) s s'.
Proof.
  intros [Hw Hnx Hg Hcold Hcomp] Hn Hord Hsame Hlen.
  destruct (load_saved_graph now (entity_graph s) Hg) as (g & Hload & Hgraph).
  unfold session_of_data. cbn [view sd_entity_graph]. rewrite Hload. cbn [mbind option_bind].
  eexists. split; [reflexivity|]. split; [| |exact Hgraph].
  - unfold view, with_hot, with_updates, with_entity_graph. simpl.
    rewrite compact_cold_id by done.
    replace (list_to_set (set_order (vectorized_update_ids s)) : gset N)
      with (vectorized_update_ids s); [done|].
    apply leibniz_equiv. intros x. by rewrite elem_of_list_to_set, Hord, elem_of_elements.
  - simpl. rewrite hot_sharing_values by done.
    rewrite from_updates_last.
    + by rewrite (proj2 (Nat.sub_0_le _ _) Hlen).
    + pose proof (snapshot_length (hot_context s)). lia.
Qed.

(** C7: a stored session reads back as itself, without a panic or an error:
    every component is equal, but for the hot tier, rebuilt from its list with
    the shared updates to show the same updates in the same order, and the
    graph, rebuilt from names: it is well-formed and, when no two entities
    share the key of a name, has the same entities, mentions and relations,
    each name and alias resolving to its entity. *)
Theorem stored_session_roundtrip now n set_order s :
  session_wf n s → (n < u64_mod)%N →
  (∀ X, set_order X ≡ₚ elements X) →
  (∀ u v, u ∈ snapshot_arcs (hot_context s) → v ∈ incremental_updates s →
          cu_id u = cu_id v → u = v) →
  length (snapshot_arcs (hot_context s))
    ≤ max_hot_context_size (md_user_preferences (metadata s)) →
  ∃ s', session_of_data now (view set_order true s) = Some (Ok s')
    ∧ s' = with_hot (hot_context s') (with_entity_graph (entity_graph s') s)
    ∧ snapshot_arcs (hot_context s') = snapshot_arcs (hot_context s)
    ∧ same_graph (entity_graph s) (entity_graph s').
Proof.
  intros Hw Hn Hord Hsame Hlen.
  destruct (stored_form now n set_order true s Hw Hn Hord Hsame Hlen) as (s' & Hs' & [Heq Hhot Hg]).
  exists s'. split_and!; [done| |done..]. rewrite Heq at 1. by destruct s.
Qed.

(** recording updates adds one item each to the conversation flow and
    never drops one, so [MAX_FLOW_ITEMS] does not bound it: [add_flow_item],
    which enforces the limit, is not what [update_current_state] calls. *)
Theorem flow_exceeds_limit env e id name description us :
  let s := run_session env 0 (SAddFast <$> us) (ActiveSession_new e id name description) in
  length (conversation_flow (current_state s)) = length us.
Proof.
  simpl. unfold run_session.
  assert (∀ i s, length (conversation_flow (current_state
            (foldi (λ i o s, run_session_op (env i) o s) i (SAddFast <$> us) s)))
          = length (conversation_flow (current_state s)) + length us) as Hall; [|by rewrite Hall].
  induction us as [|u us IH]; intros i s; simpl; [lia|].
  rewrite IH, add_fast_state, flow_grows, length_app. simpl. lia.
Qed.
End theorems.

(** ** Instances *)

#[local] Existing Instances ascii_unicode list_graph demo_libm list_graph_laws key_order
  key_order_laws instant instant_laws.

Definition demo_run : ActiveSession :=
  run_session (λ _, demo_env) 0 (SAddFast <$> (demo_update <$> [1; 2; 3]%N)) demo_session.

Lemma demo_run_wf : session_wf 3 demo_run.
Proof.
  change 3%N with (0 + N.of_nat (length (SAddFast <$> (demo_update <$> [1; 2; 3]%N))))%N.
  apply run_session_wf; [reflexivity|]. apply new_session_wf.
Qed.

Lemma session_invariant_witness :
  session_wf 2 (run_session (λ _, demo_env) 0 [SAdd (demo_update 1); SRemove 1] demo_session).
Proof.
  exact (session_invariant (λ _, demo_env) demo_env 7 (Some "s"%string) None
    [SAdd (demo_update 1); SRemove 1] eq_refl).
Defined.

Lemma retire_update_once_witness :
  retire_update 2 9 (retire_update 2 8 demo_run).1 = ((retire_update 2 8 demo_run).1, None).
Proof.
  destruct (retire_update 2 8 demo_run) as [s' [ch|]] eqn:Hr.
  - cbn [fst]. apply (retire_update_once 3 2 8 9 demo_run s' ch demo_run_wf); [reflexivity|].
    exact Hr.
  - vm_compute in Hr. discriminate Hr.
Defined.

Lemma pending_count_distinct_witness : pending_vectorization_count demo_run = 3.
Proof.
  rewrite pending_count_distinct; [vm_compute; reflexivity|].
  assert (cu_id <$> snapshot_arcs (hot_context demo_run) = [1; 2; 3]%N) as -> by reflexivity.
  apply (bool_decide_unpack (NoDup [1; 2; 3]%N)). vm_compute. exact I.
Defined.

(** A session whose updates are in its graph. *)
Definition graph_run : ActiveSession :=
  run_session (λ _, demo_env) 0 (SAdd <$> (demo_update <$> [1; 2; 3]%N)) demo_session.

Lemma graph_run_wf : session_wf 3 graph_run.
Proof.
  change 3%N with (0 + N.of_nat (length (SAdd <$> (demo_update <$> [1; 2; 3]%N))))%N.
  apply run_session_wf; [reflexivity|]. apply new_session_wf.
Qed.

Lemma stored_session_roundtrip_witness :
  ∃ s, session_of_data (H := variant_relation) demo_now (view elements true graph_run) = Some (Ok s)
    ∧ snapshot_arcs (hot_context s) = snapshot_arcs (hot_context graph_run)
    ∧ entity_mentions (entity_graph s) !! "Parser"%string = Some [1; 2; 3]%N.
Proof.
  destruct (stored_session_roundtrip (DL := variant_relation_laws) demo_now 3 elements graph_run graph_run_wf)
    as (s & Hs & _ & Hhot & Hg).
  - reflexivity.
  - done.
  - intros u v Hu Hv.
    assert (∀ x, x ∈ incremental_updates graph_run → x = demo_update (cu_id x)) as Hx.
    { intros x Hx. change (x ∈ demo_update <$> [1; 2; 3]%N) in Hx.
      by apply list_elem_of_fmap in Hx as (i & -> & _). }
    assert (snapshot_arcs (hot_context graph_run) = incremental_updates graph_run) as Heq
      by (vm_compute; reflexivity).
    rewrite Heq in Hu. intros Hid. rewrite (Hx u Hu), (Hx v Hv), Hid. reflexivity.
  - vm_compute. lia.
  - exists s. split; [exact Hs|]. split; [exact Hhot|].
    rewrite (sgr_mentions _ _ Hg); [vm_compute; reflexivity|].
    apply (bool_decide_unpack (names_separate (entity_graph graph_run))). vm_compute. exact I.
Defined.

Lemma flow_exceeds_limit_witness :
  MAX_FLOW_ITEMS
  < length (conversation_flow (current_state
      (run_session (λ _, demo_env) 0 (SAddFast <$> replicate 501 (demo_update 1)) demo_session))).
Proof.
  pose proof (flow_exceeds_limit (λ _, demo_env) demo_env 7 (Some "s"%string) None
    (replicate 501 (demo_update 1))) as H.
  cbv zeta in H. change (ActiveSession_new demo_env 7 (Some "s"%string) None)
    with demo_session in H.
  rewrite H, length_replicate. unfold MAX_FLOW_ITEMS. lia.
Defined.
