(* ===== verification/CircuitBreaker.v ===== *)
(** * The circuit breaker

    [memory/.../memory_system/circuit_breaker.rs]: the sequential behaviour of
    each method, the gate [add_incremental_update] puts in front of a write,
    and a step relation for concurrent callers, one atomic access per step
    (every access is [Relaxed], and each cell is read-modify-written
    atomically).  [now] is the wall clock in seconds. *)

From S2P Require Import Prelude.

Local Open Scope N_scope.

Record CircuitBreaker := mkCircuitBreaker {
  cb_is_open : bool;
  failure_count : N;
  last_failure_timestamp : N;
  success_count : N;
  last_success_timestamp : N;
  failure_threshold : N;
  timeout_seconds : N;
}.

Definition CircuitBreaker_new (threshold timeout : N) : CircuitBreaker :=
  mkCircuitBreaker false 0 0 0 0 threshold timeout.

Definition set_open b c := mkCircuitBreaker b (failure_count c) (last_failure_timestamp c)
  (success_count c) (last_success_timestamp c) (failure_threshold c) (timeout_seconds c).
Definition set_failures n c := mkCircuitBreaker (cb_is_open c) n (last_failure_timestamp c)
  (success_count c) (last_success_timestamp c) (failure_threshold c) (timeout_seconds c).
Definition stamp_failure t c := mkCircuitBreaker (cb_is_open c) (failure_count c) t
  (success_count c) (last_success_timestamp c) (failure_threshold c) (timeout_seconds c).
Definition count_success c := mkCircuitBreaker (cb_is_open c) (failure_count c)
  (last_failure_timestamp c) (u64_add (success_count c) 1) (last_success_timestamp c)
  (failure_threshold c) (timeout_seconds c).
Definition stamp_success t c := mkCircuitBreaker (cb_is_open c) (failure_count c)
  (last_failure_timestamp c) (success_count c) t (failure_threshold c) (timeout_seconds c).

(** ** Sequential methods *)

Definition is_open (now : N) (c : CircuitBreaker) : CircuitBreaker * bool :=
  if negb (cb_is_open c) then (c, false)
  else if timeout_seconds c <? now - last_failure_timestamp c
  then (set_failures 0 (set_open false c), false)
  else (c, true).

Definition record_failure (now : N) (c : CircuitBreaker) : CircuitBreaker :=
  let failures := u64_add (failure_count c) 1 in
  let c := stamp_failure now (set_failures failures c) in
  if failure_threshold c <=? failures then set_open true c else c.

Definition record_success (now : N) (c : CircuitBreaker) : CircuitBreaker :=
  let c := stamp_success now (count_success c) in
  if 0 <? failure_count c then set_failures (u64_sub (failure_count c) 1) c else c.

Record CircuitBreakerStats := mkStats {
  st_is_open : bool;
  st_failure_count : N;
  st_success_count : N;
  st_last_failure_timestamp : N;
  st_last_success_timestamp : N;
}.

Definition get_stats (c : CircuitBreaker) : CircuitBreakerStats :=
  mkStats (cb_is_open c) (failure_count c) (success_count c) (last_failure_timestamp c)
    (last_success_timestamp c).

(** The gate in [add_incremental_update]: [None] when the request was
    rejected; [ok] is what the guarded call returned, at time [later]. *)
Definition guarded (now later : N) (ok : bool) (c : CircuitBreaker)
    : CircuitBreaker * option bool :=
  match is_open now c with
  | (c, true) => (c, None)
  | (c, false) => (if ok then record_success later c else record_failure later c, Some ok)
  end.

(** ** Concurrent callers *)

(** What a caller still has to do, with the values it has read. *)
Inductive task :=
| SuccessStart (now : N)
| SuccessCounted (now : N)
| SuccessStamped
| SuccessLoaded (current_failures : N)
| FailureStart (now : N)
| FailureAdded (now failures : N)
| FailureStamped (failures : N)
| Finished.

(** One atomic access of a caller. *)
Definition task_step (t : task) (c : CircuitBreaker) : CircuitBreaker * task :=
  match t with
  | SuccessStart now => (count_success c, SuccessCounted now)
  | SuccessCounted now => (stamp_success now c, SuccessStamped)
  | SuccessStamped => (c, SuccessLoaded (failure_count c))
  | SuccessLoaded n =>
    (if 0 <? n then set_failures (u64_sub (failure_count c) 1) c else c, Finished)
  | FailureStart now =>
    (set_failures (u64_add (failure_count c) 1) c,
     FailureAdded now (u64_add (failure_count c) 1))
  | FailureAdded now failures => (stamp_failure now c, FailureStamped failures)
  | FailureStamped failures =>
    (if failure_threshold c <=? failures then set_open true c else c, Finished)
  | Finished => (c, Finished)
  end.

#[global] Instance task_eq_dec : EqDecision task.
Proof. solve_decision. Defined.

(** Any caller may move next. *)
Inductive step : CircuitBreaker * list task → CircuitBreaker * list task → Prop :=
| step_at i t c ts c' t' :
    ts !! i = Some t → t ≠ Finished → task_step t c = (c', t') →
    step (c, ts) (c', <[i := t']> ts).

(** The callers move in the order of a schedule. *)
Fixpoint run_schedule (schedule : list nat) (st : CircuitBreaker * list task)
    : CircuitBreaker * list task :=
  match schedule with
  | [] => st
  | i :: schedule =>
    match st.2 !! i with
    | Some t => let '(c, t) := task_step t st.1 in run_schedule schedule (c, <[i := t]> st.2)
    | None => run_schedule schedule st
    end
  end.

(** ** Lemmas *)

(** Alone, a caller's steps are the method. *)
Lemma success_steps now c :
  let '(c1, t1) := task_step (SuccessStart now) c in
  let '(c2, t2) := task_step t1 c1 in
  let '(c3, t3) := task_step t2 c2 in
  task_step t3 c3 = (record_success now c, Finished).
Proof. reflexivity. Qed.

Lemma failure_steps now c :
  let '(c1, t1) := task_step (FailureStart now) c in
  let '(c2, t2) := task_step t1 c1 in
  task_step t2 c2 = (record_failure now c, Finished).
Proof. reflexivity. Qed.

Lemma run_schedule_steps schedule st : rtc step st (run_schedule schedule st).
Proof.
  revert st. induction schedule as [|i schedule IH]; intros [c ts]; simpl; [done|].
  destruct (ts !! i) as [t|] eqn:Ht; [|apply IH].
  destruct (task_step t c) as [c' t'] eqn:Hs.
  assert (rtc step (c, ts) (c', <[i := t']> ts)) as Hone.
  { destruct (decide (t = Finished)) as [->|Hne].
    - injection Hs as <- <-. by rewrite list_insert_id.
    - by eapply rtc_once, step_at. }
  etransitivity; [exact Hone|apply IH].
Qed.

(** Outcomes with their times, in sequence. *)
Definition record (e : N * bool) (c : CircuitBreaker) : CircuitBreaker :=
  if e.2 then record_success e.1 c else record_failure e.1 c.

(** The documented count: up on failure, down on success, not below zero. *)
Definition level_step (n : N) (ok : bool) : N := if ok then n - 1 else n + 1.

Definition level (oks : list bool) : N := foldl level_step 0 oks.

(** Some failure brought the level to the threshold. *)
Fixpoint reaches (threshold n : N) (oks : list bool) : bool :=
  match oks with
  | [] => false
  | ok :: oks =>
    let n := level_step n ok in
    (negb ok && (threshold <=? n)) || reaches threshold n oks
  end.

Lemma u64_sub_one n : 0 < n → n < u64_mod → u64_sub n 1 = n - 1.
Proof.
  intros H0 Hn. unfold u64_sub. rewrite (N.mod_small 1) by reflexivity.
  replace (n + u64_mod - 1) with (n - 1 + 1 * u64_mod) by lia.
  rewrite N.Div0.mod_add. apply N.mod_small. lia.
Qed.

Lemma record_level e c :
  failure_count c + 1 < u64_mod →
  failure_count (record e c) = level_step (failure_count c) e.2
  ∧ cb_is_open (record e c)
    = cb_is_open c || (negb e.2 && (failure_threshold c <=? level_step (failure_count c) e.2))
  ∧ failure_threshold (record e c) = failure_threshold c.
Proof.
  intros Hlt. destruct e as [now ok]. unfold record, level_step. destruct ok; simpl.
  - unfold record_success. simpl. destruct (N.ltb_spec 0 (failure_count c)); simpl.
    + rewrite u64_sub_one, orb_false_r by lia. done.
    + rewrite orb_false_r. split_and!; [lia|done|done].
  - unfold record_failure, u64_add. rewrite N.mod_small by done. simpl.
    destruct (failure_threshold c <=? failure_count c + 1); simpl;
      by rewrite ?orb_true_r, ?orb_false_r.
Qed.

Lemma records_level es c :
  failure_count c + N.of_nat (length es) < u64_mod →
  let c' := foldl (λ c e, record e c) c es in
  failure_count c' = foldl level_step (failure_count c) es.*2
  ∧ cb_is_open c' = cb_is_open c || reaches (failure_threshold c) (failure_count c) es.*2.
Proof.
  revert c. induction es as [|e es IH]; intros c Hlt; simpl in *.
  { by rewrite orb_false_r. }
  destruct (record_level e c) as (Hf & Ho & Ht); [lia|].
  destruct (IH (record e c)) as [IHf IHo].
  { rewrite Hf. unfold level_step. destruct e.2; lia. }
  simpl in IHf, IHo. rewrite IHf, IHo, Hf, Ho, Ht. split; [done|]. by rewrite orb_assoc.
Qed.

(** ** Theorems *)

(** recorded one after the other, successes and failures move the failure
    count up and down without going below zero, and the breaker opens exactly
    when a failure brings that count to the threshold. *)
Theorem opens_at_threshold threshold timeout (events : list (N * bool)) :
  N.of_nat (length events) < u64_mod →
  let c := foldl (λ c e, record e c) (CircuitBreaker_new threshold timeout) events in
  failure_count c = level events.*2 ∧ cb_is_open c = reaches threshold 0 events.*2.
Proof. intros Hlt. by destruct (records_level events (CircuitBreaker_new threshold timeout)). Qed.

(** while open, the breaker rejects every request up to [timeout_seconds]
    after the last failure and a rejection changes nothing; the first request
    after that closes it, resets the count and goes through. *)
Theorem open_rejects_until_timeout c now later ok :
  cb_is_open c = true →
  (now ≤ last_failure_timestamp c + timeout_seconds c → guarded now later ok c = (c, None))
  ∧ (last_failure_timestamp c + timeout_seconds c < now →
     let '(c', r) := guarded now later ok c in
     r = Some ok ∧ failure_count c' = (if ok then 0 else 1)
     ∧ (ok = true ∨ 1 < failure_threshold c → cb_is_open c' = false)).
Proof.
  intros Ho. unfold guarded, is_open. rewrite Ho. simpl.
  destruct (N.ltb_spec (timeout_seconds c) (now - last_failure_timestamp c)); split; intros Hn;
    try lia; [|done].
  destruct ok; simpl.
  - done.
  - unfold record_failure. simpl. change (u64_add 0 1) with 1.
    destruct (N.leb_spec (failure_threshold c) 1); simpl; split_and!; try done.
    intros [?|?]; [done|lia].
Qed.

(** [record_success] loads the count and subtracts in two steps, so
    concurrent successes can push it below zero: from a closed breaker with
    one failure, three of them leave [2^64 - 2], and then a single failure
    opens the breaker, whatever its threshold. *)
Theorem concurrent_success_underflow threshold timeout :
  2 ≤ threshold → threshold < u64_mod →
  ∃ c,
    let c0 := record_failure 0 (CircuitBreaker_new threshold timeout) in
    cb_is_open c0 = false
    ∧ rtc step (c0, [SuccessStart 1; SuccessStart 1; SuccessStart 1])
        (c, [Finished; Finished; Finished])
    ∧ failure_count c = u64_mod - 2
    ∧ cb_is_open (record_failure 2 c) = true.
Proof.
  intros H2 Hlt.
  exists (mkCircuitBreaker false (u64_mod - 2) 0 3 1 threshold timeout). cbv zeta.
  assert (record_failure 0 (CircuitBreaker_new threshold timeout)
          = mkCircuitBreaker false 1 0 0 0 threshold timeout) as ->.
  { unfold record_failure. simpl. change (u64_add 0 1) with 1.
    destruct (N.leb_spec threshold 1); [lia|done]. }
  split_and!; [done| |reflexivity|].
  { apply (run_schedule_steps [0; 1; 2; 0; 1; 2; 0; 1; 2; 0; 1; 2]%nat). }
  unfold record_failure. cbn -[u64_add u64_sub].
  replace (u64_add _ 1) with (u64_mod - 1) by reflexivity.
  by destruct (N.leb_spec threshold (u64_mod - 1)); [|lia].
Qed.

(** ** Instances *)

Lemma opens_at_threshold_witness :
  cb_is_open (foldl (λ c e, record e c) (CircuitBreaker_new 2 60)
                [(1, false); (2, true); (3, false); (4, false)]) = true.
Proof.
  exact (proj2 (opens_at_threshold 2 60 [(1, false); (2, true); (3, false); (4, false)] eq_refl)).
Defined.

Lemma open_rejects_until_timeout_witness :
  let c := record_failure 5 (CircuitBreaker_new 1 60) in
  guarded 65 65 true c = (c, None).
Proof.
  exact (proj1 (open_rejects_until_timeout (record_failure 5 (CircuitBreaker_new 1 60))
    65 65 true eq_refl) ltac:(vm_compute; discriminate)).
Defined.

Lemma concurrent_success_underflow_witness :
  ∃ c,
    let c0 := record_failure 0 (CircuitBreaker_new 5 60) in
    cb_is_open c0 = false
    ∧ rtc step (c0, [SuccessStart 1; SuccessStart 1; SuccessStart 1])
        (c, [Finished; Finished; Finished])
    ∧ failure_count c = u64_mod - 2
    ∧ cb_is_open (record_failure 2 c) = true.
Proof.
  exact (concurrent_success_underflow 5 60 ltac:(vm_compute; discriminate)
    ltac:(vm_compute; reflexivity)).
Defined.
