(* ===== verification/Workspace.v ===== *)
(** * Workspaces

    [core/.../workspace/mod.rs]: workspaces by id, an index by name, and a
    counter.  The [Arc]s handed out share the session map of the stored
    workspace, so adding a session through one changes the stored workspace.
    [uuid_display] is the [Display] of the uuid crate. *)

From S2P Require Import Prelude RustStd Collections F32 Types.
From stdpp Require Import gmap.

Local Open Scope string_scope.

Inductive SessionRole := Primary | Related | Dependency | Shared.

Record WorkspaceMetadata := mkWorkspaceMetadata {
  project_type : option string;
  tags : list string;
  root_paths : list string;
  custom_data : gmap string string;
}.

Definition WorkspaceMetadata_default : WorkspaceMetadata := mkWorkspaceMetadata None [] [] ∅.

Record Workspace := mkWorkspace {
  ws_id : Uuid;
  ws_name : string;
  ws_description : string;
  ws_created_at : DateTime;
  session_ids : gmap N SessionRole;
  ws_metadata : WorkspaceMetadata;
}.

Definition Workspace_new (now : DateTime) (id : Uuid) (name description : string) : Workspace :=
  mkWorkspace id name description now ∅ WorkspaceMetadata_default.

Definition with_sessions (f : gmap N SessionRole → gmap N SessionRole) (w : Workspace) :=
  mkWorkspace (ws_id w) (ws_name w) (ws_description w) (ws_created_at w) (f (session_ids w))
    (ws_metadata w).

Definition add_session (session_id : Uuid) (role : SessionRole) (w : Workspace) : Workspace :=
  with_sessions (<[session_id := role]>) w.

Definition remove_session (session_id : Uuid) (w : Workspace)
    : Workspace * option SessionRole :=
  (with_sessions (delete session_id) w, session_ids w !! session_id).

Definition get_session_role (session_id : Uuid) (w : Workspace) : option SessionRole :=
  session_ids w !! session_id.

Definition get_all_sessions `{MapOrder} (w : Workspace) : list (N * SessionRole) :=
  iter_order (session_ids w).

Definition update_workspace_metadata (f : WorkspaceMetadata → WorkspaceMetadata)
    (w : Workspace) : Workspace :=
  mkWorkspace (ws_id w) (ws_name w) (ws_description w) (ws_created_at w) (session_ids w)
    (f (ws_metadata w)).

Record WorkspaceManager := mkWorkspaceManager {
  workspaces : gmap N Workspace;
  name_index : gmap string N;
  total_workspaces : N;
}.

Definition WorkspaceManager_new : WorkspaceManager := mkWorkspaceManager ∅ ∅ 0.

(** Store a workspace under its id and name and count it. *)
Definition register (id : Uuid) (name : string) (w : Workspace) (m : WorkspaceManager)
    : WorkspaceManager :=
  mkWorkspaceManager (<[id := w]> (workspaces m)) (<[name := id]> (name_index m))
    (u64_add (total_workspaces m) 1).

(** [id]: the fresh [Uuid::new_v4()]. *)
Definition create_workspace (now : DateTime) (id : Uuid) (name description : string)
    (m : WorkspaceManager) : WorkspaceManager * Uuid :=
  (register id name (Workspace_new now id name description) m, id).

Definition restore_workspace (now : DateTime) (id : Uuid) (name description : string)
    (sessions : list (Uuid * SessionRole)) (m : WorkspaceManager) : WorkspaceManager :=
  let w := foldl (λ w s, add_session s.1 s.2 w) (Workspace_new now id name description)
             sessions in
  register id name w m.

Definition get_workspace (id : Uuid) (m : WorkspaceManager) : option Workspace :=
  workspaces m !! id.

Definition get_workspace_by_name (name : string) (m : WorkspaceManager) : option Workspace :=
  id ← name_index m !! name; get_workspace id m.

Definition list_workspaces `{MapOrder} (m : WorkspaceManager) : list Workspace :=
  snd <$> iter_order (workspaces m).

Definition delete_workspace (id : Uuid) (m : WorkspaceManager)
    : WorkspaceManager * option Workspace :=
  match workspaces m !! id with
  | Some w =>
    (mkWorkspaceManager (delete id (workspaces m)) (delete (ws_name w) (name_index m))
       (u64_sub (total_workspaces m) 1), Some w)
  | None => (m, None)
  end.

Section errors.
Context (uuid_display : Uuid → string).

Definition workspace_not_found (id : Uuid) : string :=
  "Workspace " +:+ uuid_display id +:+ " not found".

Definition add_session_to_workspace (workspace_id session_id : Uuid) (role : SessionRole)
    (m : WorkspaceManager) : WorkspaceManager * result unit string :=
  match get_workspace workspace_id m with
  | None => (m, Err (workspace_not_found workspace_id))
  | Some w =>
    (mkWorkspaceManager (<[workspace_id := add_session session_id role w]> (workspaces m))
       (name_index m) (total_workspaces m), Ok tt)
  end.

Definition remove_session_from_workspace (workspace_id session_id : Uuid)
    (m : WorkspaceManager) : WorkspaceManager * result (option SessionRole) string :=
  match get_workspace workspace_id m with
  | None => (m, Err (workspace_not_found workspace_id))
  | Some w =>
    let '(w, removed) := remove_session session_id w in
    (mkWorkspaceManager (<[workspace_id := w]> (workspaces m)) (name_index m)
       (total_workspaces m),
     match removed with
     | Some role => Ok (Some role)
     | None => Err ("Session " +:+ uuid_display session_id +:+ " not in workspace")
     end)
  end.
End errors.

(** ** Consistency *)

(** The name index and the counter agree with the stored workspaces. *)
Record manager_wf (m : WorkspaceManager) : Prop := {
  mw_stored i w : workspaces m !! i = Some w → ws_id w = i ∧ name_index m !! ws_name w = Some i;
  mw_index n i : name_index m !! n = Some i → ∃ w, workspaces m !! i = Some w ∧ ws_name w = n;
  mw_total : total_workspaces m = N.of_nat (size (workspaces m));
  mw_bound : (total_workspaces m < u64_mod)%N;
}.

Inductive workspace_op :=
| WCreate (now : DateTime) (id : Uuid) (name description : string)
| WRestore (now : DateTime) (id : Uuid) (name description : string)
    (sessions : list (Uuid * SessionRole))
| WDelete (id : Uuid)
| WAddSession (workspace_id session_id : Uuid) (role : SessionRole)
| WRemoveSession (workspace_id session_id : Uuid).

Definition run_workspace_op (show : Uuid → string) (o : workspace_op) (m : WorkspaceManager)
    : WorkspaceManager :=
  match o with
  | WCreate now id n d => (create_workspace now id n d m).1
  | WRestore now id n d ss => restore_workspace now id n d ss m
  | WDelete id => (delete_workspace id m).1
  | WAddSession w s r => (add_session_to_workspace show w s r m).1
  | WRemoveSession w s => (remove_session_from_workspace show w s m).1
  end.

(** An operation that brings a workspace in brings a new id and a new name. *)
Definition brings_new (o : workspace_op) (m : WorkspaceManager) : Prop :=
  match o with
  | WCreate _ id n _ | WRestore _ id n _ _ =>
    workspaces m !! id = None ∧ name_index m !! n = None
    ∧ (total_workspaces m + 1 < u64_mod)%N
  | _ => True
  end.

Lemma register_wf id n w m :
  ws_id w = id → ws_name w = n → workspaces m !! id = None → name_index m !! n = None →
  (total_workspaces m + 1 < u64_mod)%N → manager_wf m → manager_wf (register id n w m).
Proof.
  intros Hid Hn Hfresh Hname Hlt [Hs Hi Ht Hb]. split; simpl.
  - intros i x. rewrite lookup_insert_Some. intros [[<- <-]|[Hne Hx]].
    + rewrite Hn. split; [done|apply lookup_insert_eq].
    + destruct (Hs _ _ Hx) as [Hxi Hxn]. split; [done|].
      rewrite lookup_insert_ne; [done|congruence].
  - intros x i. rewrite lookup_insert_Some. intros [[<- <-]|[Hne Hx]].
    + exists w. by rewrite lookup_insert_eq.
    + destruct (Hi _ _ Hx) as (y & Hy & Hyn). exists y.
      rewrite lookup_insert_ne; [done|congruence].
  - rewrite map_size_insert_None by done. unfold u64_add. rewrite N.mod_small by done.
    rewrite Ht. lia.
  - unfold u64_add. by rewrite N.mod_small.
Qed.

(** Changing the sessions of a stored workspace. *)
Lemma replace_sessions_wf id w f m :
  workspaces m !! id = Some w → manager_wf m →
  manager_wf (mkWorkspaceManager (<[id := with_sessions f w]> (workspaces m)) (name_index m)
                (total_workspaces m)).
Proof.
  intros Hw [Hs Hi Ht Hb]. split; simpl; [| | |done].
  - intros i x. rewrite lookup_insert_Some. intros [[<- <-]|[_ Hx]]; [destruct (Hs _ _ Hw); done|by apply Hs].
  - intros n i Hn. destruct (Hi _ _ Hn) as (y & Hy & Hyn). rewrite lookup_insert.
    case_decide as Hd; [|by exists y]. subst i. eexists. split; [done|]. simpl. congruence.
  - rewrite map_size_insert_Some by by eexists. done.
Qed.

Lemma sessions_name_id ss w :
  ws_id (foldl (λ w s, add_session s.1 s.2 w) w ss) = ws_id w
  ∧ ws_name (foldl (λ w s, add_session s.1 s.2 w) w ss) = ws_name w.
Proof.
  apply (foldl_inv _ (λ x, ws_id x = ws_id w ∧ ws_name x = ws_name w)); [|done].
  by intros x s _ [<- <-].
Qed.

Lemma total_decrement id m :
  manager_wf m → is_Some (workspaces m !! id) →
  u64_sub (total_workspaces m) 1 = N.of_nat (pred (size (workspaces m))).
Proof.
  intros [_ _ Ht Hb] [w Hw]. assert (size (workspaces m) ≠ 0) as Hne.
  { intros Hz%map_size_empty_inv. by rewrite Hz, lookup_empty in Hw. }
  unfold u64_sub. rewrite (N.mod_small 1) by done.
  replace (total_workspaces m + u64_mod - 1)%N
    with (N.of_nat (pred (size (workspaces m))) + 1 * u64_mod)%N by lia.
  rewrite N.Div0.mod_add. apply N.mod_small. lia.
Qed.

Lemma delete_workspace_wf id m : manager_wf m → manager_wf (delete_workspace id m).1.
Proof.
  intros Hwf. pose proof Hwf as [Hs Hi Ht Hb]. unfold delete_workspace.
  destruct (workspaces m !! id) as [w|] eqn:Hw; [|done].
  destruct (Hs _ _ Hw) as [Hwi Hwn]. split; simpl.
  - intros i x [Hne Hx]%lookup_delete_Some. destruct (Hs _ _ Hx) as [Hxi Hxn]. split; [done|].
    rewrite lookup_delete_ne; [done|]. intros Heq. rewrite Heq in Hwn. congruence.
  - intros n i [Hne Hn]%lookup_delete_Some. destruct (Hi _ _ Hn) as (y & Hy & Hyn). exists y.
    split; [|done]. apply lookup_delete_Some. split; [congruence|done].
  - rewrite (total_decrement id) by (done || by eexists).
    by rewrite map_size_delete_Some by (by eexists).
  - rewrite (total_decrement id) by (done || by eexists). lia.
Qed.

Lemma run_workspace_op_wf show o m :
  manager_wf m → brings_new o m → manager_wf (run_workspace_op show o m).
Proof.
  intros Hwf Hnew. destruct o; simpl in *.
  - destruct Hnew as (? & ? & ?). by apply register_wf.
  - destruct Hnew as (? & ? & ?).
    destruct (sessions_name_id sessions (Workspace_new now id name description)).
    by apply register_wf.
  - by apply delete_workspace_wf.
  - unfold add_session_to_workspace, get_workspace. case_match eqn:Hw; [|done].
    by apply replace_sessions_wf.
  - unfold remove_session_from_workspace, get_workspace. case_match eqn:Hw; [|done].
    by apply replace_sessions_wf.
Qed.

(** Operations in sequence, each bringing in new ids and names only. *)
Inductive workspace_run (show : Uuid → string)
  : list workspace_op → WorkspaceManager → WorkspaceManager → Prop :=
| run_nil m : workspace_run show [] m m
| run_cons o os m m' :
    brings_new o m → workspace_run show os (run_workspace_op show o m) m' →
    workspace_run show (o :: os) m m'.

Lemma workspace_run_wf show os m m' :
  workspace_run show os m m' → manager_wf m → manager_wf m'.
Proof.
  induction 1 as [|o os m m' Hnew _ IH]; intros Hwf; [done|].
  by apply IH, run_workspace_op_wf.
Qed.

Lemma new_manager_wf : manager_wf WorkspaceManager_new.
Proof. split; simpl; try done; intros *; by rewrite lookup_empty. Qed.

(** ** Theorems *)

(** as long as every workspace brought in has a new id and an unused name,
    the name index points exactly at the stored workspaces, the counter is
    their number, and looking one up by its name finds it. *)
Theorem workspace_manager_consistent show os m :
  workspace_run show os WorkspaceManager_new m →
  manager_wf m
  ∧ ∀ id w, workspaces m !! id = Some w → get_workspace_by_name (ws_name w) m = Some w.
Proof.
  intros Hrun. assert (manager_wf m) as Hwf.
  { eapply workspace_run_wf; [exact Hrun|apply new_manager_wf]. }
  split; [done|]. intros id w Hw. unfold get_workspace_by_name.
  destruct (mw_stored _ Hwf _ _ Hw) as [_ ->]. done.
Qed.

(** [create_workspace] accepts a name that is taken; deleting the older of
    two namesakes then removes the index entry of the newer one, which is
    still stored but no longer found by its name. *)
Theorem delete_hides_namesake now i j name d d' m :
  i ≠ j →
  let m1 := (create_workspace now i name d m).1 in
  let m2 := (create_workspace now j name d' m1).1 in
  let m3 := (delete_workspace i m2).1 in
  get_workspace j m3 = Some (Workspace_new now j name d')
  ∧ get_workspace_by_name name m2 = Some (Workspace_new now j name d')
  ∧ get_workspace_by_name name m3 = None.
Proof.
  intros Hne m1 m2 m3.
  assert (workspaces m2 !! i = Some (Workspace_new now i name d)) as Hi.
  { simpl. by rewrite lookup_insert_ne, lookup_insert_eq by done. }
  assert (m3 = mkWorkspaceManager (delete i (workspaces m2)) (delete name (name_index m2))
                 (u64_sub (total_workspaces m2) 1)) as ->.
  { unfold m3, delete_workspace. by rewrite Hi. }
  unfold get_workspace_by_name, get_workspace. simpl.
  rewrite lookup_delete_ne, !lookup_insert_eq, lookup_delete_eq by done. simpl.
  by rewrite lookup_insert_eq.
Qed.

(** [restore_workspace] counts a workspace that is already stored again, so
    the total no longer is the number of workspaces. *)
Theorem restore_counts_twice now id name d ss m w :
  manager_wf m → workspaces m !! id = Some w → (total_workspaces m + 1 < u64_mod)%N →
  let m' := restore_workspace now id name d ss m in
  total_workspaces m' = (N.of_nat (size (workspaces m')) + 1)%N.
Proof.
  intros Hwf Hw Hlt. simpl. rewrite map_size_insert_Some by by eexists.
  unfold u64_add. rewrite N.mod_small by done. by rewrite (mw_total _ Hwf).
Qed.

(** ** Instances *)

Definition demo_manager : WorkspaceManager := (create_workspace 0 1 "api" "" WorkspaceManager_new).1.

Lemma demo_manager_run show :
  workspace_run show [WCreate 0 1 "api" ""] WorkspaceManager_new demo_manager.
Proof.
  apply run_cons; [|apply run_nil]. simpl. by rewrite !lookup_empty.
Qed.

Lemma workspace_manager_consistent_witness :
  get_workspace_by_name "api" demo_manager = Some (Workspace_new 0 1 "api" "").
Proof.
  exact (proj2 (workspace_manager_consistent (λ _, "") _ _ (demo_manager_run (λ _, "")))
    1%N (Workspace_new 0 1 "api" "") eq_refl).
Defined.

Lemma delete_hides_namesake_witness :
  get_workspace_by_name "api"
    (delete_workspace 1 (create_workspace 0 2 "api" "" demo_manager).1).1 = None.
Proof.
  exact (proj2 (proj2 (delete_hides_namesake 0 1 2 "api" "" "" WorkspaceManager_new
    ltac:(discriminate)))).
Defined.

Lemma restore_counts_twice_witness :
  total_workspaces (restore_workspace 0 1 "api" "" [] demo_manager) = 2%N.
Proof.
  rewrite (restore_counts_twice 0 1 "api" "" [] demo_manager (Workspace_new 0 1 "api" "")).
  - reflexivity.
  - exact (workspace_run_wf (λ _, "") _ _ _ (demo_manager_run (λ _, "")) new_manager_wf).
  - reflexivity.
  - reflexivity.
Defined.
