(* ===== verification/QueryCache.v ===== *)
(** * The query cache

    [memory/src/query_cache.rs]: search results by the hash of their
    parameters, with expiry, eviction and invalidation by session, and the
    counters.  The cache reads two texts of a [SemanticSearchResult], so the
    result type is a parameter [R] with those projections; the two
    [size_of]s are the compiler's.  [now] is [Instant::now()] in
    nanoseconds; [cq_arc] is the identity of an entry's allocation, the
    number of the insert that made it. *)

From S2P Require Import Prelude RustStd Collections F32 Types.
From stdpp Require Import gmap.

Definition EXPIRY_SWEEP_INTERVAL : N := 64.

Record QueryCacheConfig := mkQueryCacheConfig {
  max_cache_size : nat;
  ttl_minutes : Z;
}.

Inductive CacheScope :=
| GlobalScope
| SessionScope (id : Uuid)
| SessionsScope (ids : list Uuid).

Definition covers (session_id : Uuid) (s : CacheScope) : bool :=
  match s with
  | GlobalScope => true
  | SessionScope id => N.eqb id session_id
  | SessionsScope ids => existsb (N.eqb session_id) ids
  end.

Record QueryCacheStats := mkQueryCacheStats {
  total_queries : N;
  cache_hits : N;
  cache_misses : N;
  expired_removed : N;
  evicted_entries : N;
  current_cache_size : nat;
  estimated_memory_bytes : nat;
}.

Definition QueryCacheStats_new : QueryCacheStats := mkQueryCacheStats 0 0 0 0 0 0 0.

Section QueryCache.
Context {R : Type} (content_id text_content : R → string).
Context (size_of_result size_of_entry : nat).

Record CachedQuery := mkCachedQuery {
  query_text : string;
  cq_results : list R;
  scope : CacheScope;
  params_hash : N;
  cached_at : N;
  access_count : N;
  estimated_bytes : nat;
  cq_arc : N;
}.

(** Text, results and the fixed overhead. *)
Definition estimate_entry_bytes (text : string) (results : list R) : nat :=
  str_len text
  + sum_list ((λ r, size_of_result + str_len (content_id r) + str_len (text_content r))
                <$> results)
  + size_of_entry.

Definition CachedQuery_new (now arc : N) (text : string) (results : list R) (hash : N)
    (s : CacheScope) : CachedQuery :=
  mkCachedQuery text results s hash now 0 (estimate_entry_bytes text results) arc.

(** [ttl] in seconds is [ttl_minutes.max(0) as u64 * 60]. *)
Definition is_expired (now : N) (ttl : Z) (e : CachedQuery) : bool :=
  (((Z.to_N (Z.max ttl 0) * 60) `mod` u64_mod * 1000000000) <=? now - cached_at e)%N.

Definition mark_accessed (e : CachedQuery) : CachedQuery :=
  mkCachedQuery (query_text e) (cq_results e) (scope e) (params_hash e) (cached_at e)
    (u64_add (access_count e) 1) (estimated_bytes e) (cq_arc e).

Definition efficiency_score `{Libm} (now : N) (e : CachedQuery) : f32 :=
  let hours := f32_of_N (N.max ((now - cached_at e) / 1000000000 / 3600) 1) in
  let recency_factor := f32_div f32_one (f32_add f32_one (f32_div hours (f32_of_N 24))) in
  let frequency_factor := f32_max (f32_ln (f32_of_N (access_count e))) f32_one in
  f32_mul recency_factor frequency_factor.

Record QueryCache := mkQueryCache {
  cache : gmap N CachedQuery;
  config : QueryCacheConfig;
  stats : QueryCacheStats;
  inserts : N;
}.

Definition QueryCache_new (c : QueryCacheConfig) : QueryCache :=
  mkQueryCache ∅ c QueryCacheStats_new 0.

Definition with_cache m (c : QueryCache) := mkQueryCache m (config c) (stats c) (inserts c).
Definition with_stats f (c : QueryCache) :=
  mkQueryCache (cache c) (config c) (f (stats c)) (inserts c).

(** ** Counters *)

Definition count_query s := mkQueryCacheStats (u64_add (total_queries s) 1) (cache_hits s)
  (cache_misses s) (expired_removed s) (evicted_entries s) (current_cache_size s)
  (estimated_memory_bytes s).
Definition count_hit (hit : bool) s := mkQueryCacheStats (total_queries s)
  (if hit then u64_add (cache_hits s) 1 else cache_hits s)
  (if hit then cache_misses s else u64_add (cache_misses s) 1)
  (expired_removed s) (evicted_entries s) (current_cache_size s) (estimated_memory_bytes s).
Definition count_expired n s := mkQueryCacheStats (total_queries s) (cache_hits s)
  (cache_misses s) (u64_add (expired_removed s) n) (evicted_entries s) (current_cache_size s)
  (estimated_memory_bytes s).
Definition count_evicted n s := mkQueryCacheStats (total_queries s) (cache_hits s)
  (cache_misses s) (expired_removed s) (u64_add (evicted_entries s) n) (current_cache_size s)
  (estimated_memory_bytes s).
Definition set_bytes f s := mkQueryCacheStats (total_queries s) (cache_hits s)
  (cache_misses s) (expired_removed s) (evicted_entries s) (current_cache_size s)
  (f (estimated_memory_bytes s)).
Definition set_size n s := mkQueryCacheStats (total_queries s) (cache_hits s)
  (cache_misses s) (expired_removed s) (evicted_entries s) n (estimated_memory_bytes s).

(** Saturating. *)
Definition sub_bytes (bytes : nat) (c : QueryCache) : QueryCache :=
  with_stats (set_bytes (λ b, b - bytes)) c.

Definition sync_size (c : QueryCache) : QueryCache :=
  with_stats (set_size (size (cache c))) c.

(** ** Removal *)

Definition remove_if_same (hash : N) (entry : CachedQuery) (expired : bool)
    (c : QueryCache) : QueryCache :=
  match cache c !! hash with
  | Some v =>
    if N.eqb (cq_arc v) (cq_arc entry) then
      let c := sub_bytes (estimated_bytes v) (with_cache (delete hash (cache c)) c) in
      let c := if expired then with_stats (count_expired 1) c else c in
      sync_size c
    else c
  | None => c
  end.

Definition total_bytes (m : gmap N CachedQuery) : nat :=
  map_fold (λ _ e n, estimated_bytes e + n) 0 m.

Definition remove_where (p : CachedQuery → bool) (c : QueryCache) : QueryCache * nat :=
  let gone := filter (λ kv, p kv.2 = true) (cache c) in
  let c := with_cache (filter (λ kv, p kv.2 ≠ true) (cache c)) c in
  if decide (0 < size gone)
  then (sync_size (sub_bytes (total_bytes gone) c), size gone)
  else (c, size gone).

Definition cleanup_expired (now : N) (c : QueryCache) : QueryCache :=
  let '(c, removed) := remove_where (is_expired now (ttl_minutes (config c))) c in
  if decide (0 < removed) then with_stats (count_expired (N.of_nat removed)) c else c.

(** One evicted entry, if it is still the same. *)
Definition evict_one (st : QueryCache * nat) (kv : N * CachedQuery) : QueryCache * nat :=
  let '(c, evicted) := st in
  match cache c !! kv.1 with
  | Some v =>
    if N.eqb (cq_arc v) (cq_arc kv.2)
    then (sub_bytes (estimated_bytes v) (with_cache (delete kv.1 (cache c)) c), S evicted)
    else st
  | None => st
  end.

Definition score_order `{Libm} (now : N) (a b : N * CachedQuery) : comparison :=
  f32_total_cmp (efficiency_score now a.2) (efficiency_score now b.2).

Definition evict_least_efficient `{MapOrder} `{SelectNth} `{Libm} (now : N)
    (c : QueryCache) : QueryCache :=
  let batch := (max_cache_size (config c) / 10) `max` 1 in
  let scored := iter_order (cache c) in
  let scored := if Nat.ltb batch (length scored)
                then take batch (select_nth_unstable_by (score_order now) (batch - 1) scored)
                else scored in
  let '(c, evicted) := foldl evict_one (c, 0) scored in
  if decide (0 < evicted)
  then sync_size (with_stats (count_evicted (N.of_nat evicted)) c) else c.

(** ** Operations *)

Definition get (now hash : N) (text : string) (c : QueryCache)
    : QueryCache * option (list R) :=
  let c := with_stats count_query c in
  let '(c, hit) :=
    match cache c !! hash with
    | Some entry =>
      if is_expired now (ttl_minutes (config c)) entry
      then (remove_if_same hash entry true c, None)
      else if String.eqb (query_text entry) text
      then (with_cache (<[hash := mark_accessed entry]> (cache c)) c, Some (cq_results entry))
      else (c, None)
    | None => (c, None)
    end in
  (with_stats (count_hit (bool_decide (is_Some hit))) c, hit).

Definition insert_entry (hash : N) (entry : CachedQuery) (c : QueryCache) : QueryCache :=
  let old := cache c !! hash in
  let c := with_cache (<[hash := entry]> (cache c)) c in
  let c := match old with Some old => sub_bytes (estimated_bytes old) c | None => c end in
  sync_size (with_stats (set_bytes (λ b, b + estimated_bytes entry)) c).

Definition insert `{MapOrder} `{SelectNth} `{Libm} (now : N) (text : string)
    (results : list R) (hash : N) (s : CacheScope) (c : QueryCache) : QueryCache :=
  let n := u64_add (inserts c) 1 in
  let c := mkQueryCache (cache c) (config c) (stats c) n in
  let c := if N.eqb (n `mod` EXPIRY_SWEEP_INTERVAL) 0 then cleanup_expired now c else c in
  let cap := max_cache_size (config c) `max` 1 in
  let c := if decide (cap ≤ size (cache c) ∧ cache c !! hash = None)
           then
             let c := cleanup_expired now c in
             if decide (cap ≤ size (cache c)) then evict_least_efficient now c else c
           else c in
  insert_entry hash (CachedQuery_new now n text results hash s) c.

Definition clear (c : QueryCache) : QueryCache :=
  with_stats (λ s, set_bytes (λ _, 0) (set_size 0 s)) (with_cache ∅ c).

Definition invalidate_session (session_id : Uuid) (c : QueryCache) : QueryCache :=
  (remove_where (λ e, covers session_id (scope e)) c).1.

Definition len (c : QueryCache) : nat := size (cache c).
Definition is_empty (c : QueryCache) : bool := Nat.eqb (len c) 0.
End QueryCache.

Arguments CachedQuery _ : clear implicits.
Arguments QueryCache _ : clear implicits.
