(* ===== verification/QueryCacheThms.v ===== *)
(** * The query cache: theorems

    The byte and size counters are exact and the capacity is never exceeded;
    the cache always holds a part of what an unbounded cache without expiry
    would hold, so a hit is the last insert under its key that no
    invalidation has covered. *)

From S2P Require Import Prelude RustStd Collections F32 Types QueryCache.
From stdpp Require Import gmap.

Section lemmas.
Context {R : Type} {content_id text_content : R → string} {size_of_result size_of_entry : nat}.
Implicit Types (c : QueryCache R) (m : gmap N (CachedQuery R)).

(** ** Bytes *)

Lemma total_bytes_insert m k e :
  m !! k = None → total_bytes (<[k := e]> m) = estimated_bytes e + total_bytes m.
Proof.
  intros Hk. unfold total_bytes.
  apply (map_fold_insert_L (λ _ e n, estimated_bytes e + n) 0 k e m); [|done].
  intros. lia.
Qed.

Lemma total_bytes_delete m k e :
  m !! k = Some e → total_bytes m = estimated_bytes e + total_bytes (delete k m).
Proof.
  intros Hk. rewrite <-(insert_delete_id m k e Hk) at 1.
  apply total_bytes_insert, lookup_delete_eq.
Qed.

Lemma total_bytes_filter (p : CachedQuery R → bool) m :
  total_bytes m = total_bytes (filter (λ kv, p kv.2 = true) m)
                  + total_bytes (filter (λ kv, p kv.2 ≠ true) m).
Proof.
  induction m as [|k e m Hk IH] using map_ind; [done|].
  assert (∀ (Q : N * CachedQuery R → Prop) `{!∀ x, Decision (Q x)},
            filter Q m !! k = None) as Hf.
  { intros Q HQ. apply map_lookup_filter_None. by left. }
  rewrite total_bytes_insert, IH by done. destruct (p e) eqn:Hp.
  - rewrite map_filter_insert_True, map_filter_insert_not' by (simpl; congruence || done).
    rewrite total_bytes_insert by apply Hf. lia.
  - rewrite map_filter_insert_not', map_filter_insert_True by (simpl; congruence || done).
    rewrite total_bytes_insert by apply Hf. lia.
Qed.

(** ** Removal *)

(** The counters describe the map. *)
Record accounted c : Prop := {
  ac_bytes : estimated_memory_bytes (stats c) = total_bytes (cache c);
  ac_size : current_cache_size (stats c) = size (cache c);
}.

(** A step that only removes entries and keeps the counters exact. *)
Record shrinks c c' : Prop := {
  sh_cache : cache c' ⊆ cache c;
  sh_config : config c' = config c;
  sh_account : accounted c → accounted c';
}.

Lemma shrinks_refl c : shrinks c c.
Proof. by split. Qed.

Lemma shrinks_trans c1 c2 c3 : shrinks c1 c2 → shrinks c2 c3 → shrinks c1 c3.
Proof. intros [? H1 ?] [? H2 ?]. split; [by etransitivity|by rewrite H2|auto]. Qed.

Lemma remove_where_shrinks p c : shrinks c (remove_where p c).1.
Proof.
  unfold remove_where. pose proof (total_bytes_filter p (cache c)) as Hb.
  case_decide as Hd; simpl; split; simpl; try done; try apply map_filter_subseteq.
  - intros [H1 H2]. split; simpl; [|done]. rewrite H1, Hb. lia.
  - intros [H1 H2].
    assert (filter (λ kv, p kv.2 = true) (cache c) = ∅) as Hz.
    { apply map_size_empty_inv. lia. }
    assert (filter (λ kv, p kv.2 ≠ true) (cache c) = cache c) as Hall.
    { apply map_filter_id. intros k e Hk Hp.
      assert (filter (λ kv, p kv.2 = true) (cache c) !! k = Some e) as Hin
        by by apply map_lookup_filter_Some.
      by rewrite Hz, lookup_empty in Hin. }
    by split; simpl; rewrite Hall.
Qed.

Lemma with_stats_shrinks f c :
  estimated_memory_bytes (f (stats c)) = estimated_memory_bytes (stats c) →
  current_cache_size (f (stats c)) = current_cache_size (stats c) →
  shrinks c (with_stats f c).
Proof. intros H1 H2. split; [done|done|]. intros [? ?]. split; simpl; congruence. Qed.

Lemma cleanup_expired_shrinks now c : shrinks c (cleanup_expired now c).
Proof.
  unfold cleanup_expired. pose proof (remove_where_shrinks
    (is_expired now (ttl_minutes (config c))) c) as Hs.
  destruct (remove_where _ c) as [c' n]. simpl in Hs. case_decide; [|done].
  eapply shrinks_trans; [exact Hs|]. by apply with_stats_shrinks.
Qed.

Lemma remove_if_same_shrinks hash e b c : shrinks c (remove_if_same hash e b c).
Proof.
  unfold remove_if_same. destruct (cache c !! hash) as [v|] eqn:Hv; [|apply shrinks_refl].
  case_match; [|apply shrinks_refl].
  pose proof (total_bytes_delete _ _ _ Hv) as Hb.
  destruct b; split; simpl; try done; try apply delete_subseteq;
    intros [H1 H2]; split; simpl; try done; lia.
Qed.

(** ** Eviction *)

Section evict.
Context `{O : MapOrder} `{OL : !MapOrderLaws} `{S : SelectNth} `{SL : !SelectNthLaws}
  `{M : Libm}.

Lemma evict_fold l c n :
  NoDup l.*1 → (∀ kv, kv ∈ l → cache c !! kv.1 = Some kv.2) →
  estimated_memory_bytes (stats c) = total_bytes (cache c) →
  let '(c', n') := foldl evict_one (c, n) l in
  cache c' ⊆ cache c ∧ config c' = config c
  ∧ estimated_memory_bytes (stats c') = total_bytes (cache c')
  ∧ n' = n + length l ∧ size (cache c') + length l = size (cache c)
  ∧ (l = [] → c' = c).
Proof.
  revert c n. induction l as [|[k v] l IH]; intros c n Hnd Hl Hb; simpl.
  { split_and!; (done || lia). }
  apply NoDup_cons in Hnd as [Hk Hnd].
  pose proof (Hl (k, v) (list_elem_of_here _ _)) as Hkv. simpl in Hkv.
  rewrite Hkv, N.eqb_refl. pose proof (total_bytes_delete _ _ _ Hkv) as Hd.
  set (c1 := sub_bytes _ _).
  specialize (IH c1 (Datatypes.S n) Hnd).
  destruct (foldl evict_one (c1, Datatypes.S n) l) as [c' n'].
  destruct IH as (Hsub & Hcfg & Hb' & Hn & Hsz & _).
  { intros [k' v'] Hin. simpl. rewrite lookup_delete_ne.
    - apply (Hl (k', v')). by right.
    - intros <-. apply Hk. apply list_elem_of_fmap. by exists (k, v'). }
  { simpl. lia. }
  split_and!; [|done|done|lia| |done].
  - etransitivity; [exact Hsub|]. apply delete_subseteq.
  - simpl in Hsz. rewrite map_size_delete_Some in Hsz by by eexists.
    assert (size (cache c) ≠ 0).
    { intros Hz%map_size_empty_inv. by rewrite Hz, lookup_empty in Hkv. } lia.
Qed.

(** Without exact bytes only the map part is claimed. *)
Lemma evict_fold_sub l c n :
  let '(c', n') := foldl evict_one (c, n) l in cache c' ⊆ cache c ∧ config c' = config c.
Proof.
  revert c n. induction l as [|kv l IH]; intros c n; cbn [foldl]; [done|].
  destruct (evict_one (c, n) kv) as [c1 n1] eqn:He. unfold evict_one in He.
  specialize (IH c1 n1). destruct (foldl evict_one (c1, n1) l) as [c' n'].
  destruct IH as [H1 H2]. repeat case_match; simplify_eq; try done. split; [|done].
  etransitivity; [exact H1|]. apply delete_subseteq.
Qed.

Lemma scored_ok now c (batch : nat) :
  1 ≤ batch →
  let scored := iter_order (cache c) in
  let l := if Nat.ltb batch (length scored)
           then take batch (select_nth_unstable_by (score_order now) (batch - 1) scored)
           else scored in
  NoDup l.*1 ∧ (∀ kv, kv ∈ l → cache c !! kv.1 = Some kv.2)
  ∧ length l = batch `min` size (cache c).
Proof.
  intros Hbatch scored l.
  assert (length scored = size (cache c)) as Hlen.
  { unfold scored. by rewrite iter_order_perm, length_map_to_list. }
  assert (∃ r, l ++ r ≡ₚ map_to_list (cache c)) as [r Hr].
  { unfold l. destruct (Nat.ltb_spec batch (length scored)).
    - eexists. rewrite take_drop, select_nth_perm by lia. apply iter_order_perm.
    - exists []. rewrite app_nil_r. apply iter_order_perm. }
  split_and!.
  - pose proof (NoDup_fst_map_to_list (cache c)) as Hnd. rewrite <-Hr, fmap_app in Hnd.
    by apply NoDup_app in Hnd as [? _].
  - intros [k v] Hin. simpl. apply elem_of_map_to_list. rewrite <-Hr. apply elem_of_app.
    by left.
  - unfold l. destruct (Nat.ltb_spec batch (length scored)).
    + rewrite length_take, select_nth_perm by lia. lia.
    + lia.
Qed.

Lemma evict_shrinks now c :
  shrinks c (evict_least_efficient now c)
  ∧ (accounted c → cache c ≠ ∅ →
     size (cache (evict_least_efficient now c)) < size (cache c)).
Proof.
  unfold evict_least_efficient.
  set (batch := (max_cache_size (config c) / 10) `max` 1).
  destruct (scored_ok now c batch) as (Hnd & Hl & Hlen); [unfold batch; lia|].
  set (l := if Nat.ltb _ _ then _ else _) in *.
  pose proof (evict_fold_sub l c 0) as Hmap.
  pose proof (λ Hb, evict_fold l c 0 Hnd Hl Hb) as Hfold.
  destruct (foldl evict_one (c, 0) l) as [c' n'] eqn:Hc'.
  destruct Hmap as [Hsub Hcfg]. split.
  - case_decide as Hn; split; simpl; try done.
    + intros [H1 H2]. destruct (Hfold H1) as (_ & _ & Hb & _). by split.
    + intros [H1 H2]. destruct (Hfold H1) as (_ & _ & Hb & Hn' & _ & Hnil).
      destruct l; [|simpl in Hn'; lia]. rewrite Hnil by done. by split.
  - intros [H1 H2] Hne. destruct (Hfold H1) as (_ & _ & _ & Hn' & Hsz & _).
    assert (size (cache c) ≠ 0) as Hz by by intros Hz%map_size_empty_inv.
    case_decide; simpl; [|]; unfold batch in *; lia.
Qed.

(** ** Inserting *)

Definition capacity c : nat := max_cache_size (config c) `max` 1.

Lemma insert_entry_accounted hash e c :
  accounted c → accounted (insert_entry hash e c).
Proof.
  intros [H1 H2]. unfold insert_entry.
  destruct (cache c !! hash) as [old|] eqn:Ho; split; simpl; try done.
  - rewrite H1, (total_bytes_delete _ _ _ Ho), <-insert_delete_eq.
    rewrite total_bytes_insert by apply lookup_delete_eq. lia.
  - rewrite H1, total_bytes_insert by done. lia.
Qed.

(** The room [insert] makes. *)
Lemma insert_prepared now text results hash s c :
  accounted c → size (cache c) ≤ capacity c →
  ∃ c1 n, QueryCache.insert content_id text_content size_of_result size_of_entry
            now text results hash s c
          = insert_entry hash
              (CachedQuery_new content_id text_content size_of_result size_of_entry
                 now n text results hash s) c1
          ∧ accounted c1 ∧ cache c1 ⊆ cache c ∧ config c1 = config c
          ∧ (cache c1 !! hash = None → size (cache c1) < capacity c)
          ∧ size (cache c1) ≤ capacity c.
Proof.
  intros Hacc Hcap. unfold QueryCache.insert. cbv zeta.
  set (n := u64_add (inserts c) 1).
  set (c0 := mkQueryCache (cache c) (config c) (stats c) n).
  set (ca := if N.eqb _ _ then cleanup_expired now c0 else c0).
  assert (shrinks c0 ca) as Hca.
  { unfold ca. case_match; [apply cleanup_expired_shrinks|apply shrinks_refl]. }
  assert (accounted c0) as Hacc0 by (destruct Hacc; by split).
  destruct Hca as [Hsub Hcfg Ha]. specialize (Ha Hacc0). simpl in Hsub, Hcfg.
  pose proof (map_subseteq_size _ _ Hsub) as Hsize.
  change (max_cache_size (config c0) `max` 1) with (capacity c).
  rewrite Hcfg. fold (capacity c).
  case_decide as Hd.
  - destruct Hd as [Hfull Hnone]. set (cb := cleanup_expired now ca).
    pose proof (cleanup_expired_shrinks now ca) as [Hsubb Hcfgb Hb].
    specialize (Hb Ha). fold cb in Hsubb, Hcfgb, Hb.
    pose proof (map_subseteq_size _ _ Hsubb) as Hsizeb.
    case_decide as Hd2.
    + destruct (evict_shrinks now cb) as [[Hsube Hcfge He] Hlt]. specialize (He Hb).
      assert (size (cache (evict_least_efficient now cb)) < size (cache cb)) as Hl.
      { apply Hlt; [done|]. intros Hz. rewrite Hz, map_size_empty in Hd2.
        unfold capacity in Hd2. lia. }
      eexists _, _. split; [reflexivity|]. split_and!; [done| |congruence|lia|lia].
      etransitivity; [exact Hsube|]. by etransitivity.
    + eexists _, _. split; [reflexivity|]. split_and!; [done| |congruence|lia|lia].
      by etransitivity.
  - eexists _, _. split; [reflexivity|]. split_and!; [done|done|done| |lia].
    intros Hnone. destruct (decide (capacity c ≤ size (cache ca))); [tauto|lia].
Qed.

Lemma insert_entry_size hash e c :
  size (cache (insert_entry hash e c))
  = if decide (is_Some (cache c !! hash)) then size (cache c) else Datatypes.S (size (cache c)).
Proof.
  unfold insert_entry. destruct (cache c !! hash) as [old|] eqn:Ho; simpl;
    by rewrite map_size_insert, Ho.
Qed.
End evict.

(** ** Runs *)

(** One call on the cache, with the clock reading it took. *)
Inductive cache_event :=
| EvGet (now hash : N) (text : string)
| EvInsert (now : N) (text : string) (results : list R) (hash : N) (s : CacheScope)
| EvInvalidate (session_id : Uuid)
| EvClear.

Section runs.
Context `{O : MapOrder} `{OL : !MapOrderLaws} `{SN : SelectNth} `{SL : !SelectNthLaws}
  `{M : Libm}.

Definition cache_step c (ev : cache_event) : QueryCache R :=
  match ev with
  | EvGet now hash text => (get now hash text c).1
  | EvInsert now text results hash s =>
      QueryCache.insert content_id text_content size_of_result size_of_entry
        now text results hash s c
  | EvInvalidate id => invalidate_session id c
  | EvClear => clear c
  end.

Definition run_cache (cfg : QueryCacheConfig) (evs : list cache_event) : QueryCache R :=
  foldl cache_step (QueryCache_new cfg) evs.

Record bounded_cache cfg c : Prop := {
  bc_account : accounted c;
  bc_config : config c = cfg;
  bc_size : size (cache c) ≤ max_cache_size cfg `max` 1;
}.

Lemma shrinks_bounded cfg c c' : shrinks c c' → bounded_cache cfg c → bounded_cache cfg c'.
Proof.
  intros [Hsub Hcfg Ha] [H1 H2 H3]. split; [auto|congruence|].
  apply map_subseteq_size in Hsub. lia.
Qed.

(** An update of one entry that keeps its size. *)
Lemma touch_bounded cfg c hash e f :
  cache c !! hash = Some e → estimated_bytes (f e) = estimated_bytes e →
  bounded_cache cfg c → bounded_cache cfg (with_cache (<[hash := f e]> (cache c)) c).
Proof.
  intros He Hf [[H1 H2] H3 H4].
  assert (size (<[hash := f e]> (cache c)) = size (cache c)) as Hs.
  { apply map_size_insert_Some. by eexists. }
  split; [split; simpl|done|by simpl; rewrite Hs]; [|congruence].
  rewrite H1, (total_bytes_delete _ _ _ He), <-insert_delete_eq.
  rewrite total_bytes_insert by apply lookup_delete_eq. lia.
Qed.

Lemma get_bounded cfg c now hash text :
  bounded_cache cfg c → bounded_cache cfg (get now hash text c).1.
Proof.
  intros Hc. unfold get. set (c0 := with_stats count_query c).
  assert (bounded_cache cfg c0) as H0.
  { eapply shrinks_bounded; [|exact Hc]. by apply with_stats_shrinks. }
  assert (∀ hit c, bounded_cache cfg c → bounded_cache cfg (with_stats (count_hit hit) c))
    as Hhit.
  { intros hit c1. apply shrinks_bounded. by apply with_stats_shrinks. }
  destruct (cache c0 !! hash) as [e|] eqn:He; [|by apply Hhit].
  destruct (is_expired _ _ _); [|destruct (String.eqb _ _)]; apply Hhit;
    [|by apply touch_bounded|done].
  eapply shrinks_bounded; [apply remove_if_same_shrinks|done].
Qed.

Lemma cache_step_bounded cfg c ev : bounded_cache cfg c → bounded_cache cfg (cache_step c ev).
Proof.
  intros Hc. destruct ev as [now hash text|now text results hash s|id|]; simpl.
  - by apply get_bounded.
  - destruct Hc as [H1 H2 H3]. subst cfg.
    destruct (insert_prepared now text results hash s c) as
      (c1 & n & -> & Hacc & _ & Hcfg & Hroom & Hsz); [done|done|].
    split; [by apply insert_entry_accounted| |].
    + unfold insert_entry. by destruct (cache c1 !! hash).
    + rewrite insert_entry_size. unfold capacity in *. case_decide as Hd; [done|].
      apply Nat.le_succ_l, Hroom. by apply eq_None_not_Some.
  - eapply shrinks_bounded; [apply remove_where_shrinks|done].
  - destruct Hc as [[] ? ?]. split; [by split|done|apply le_0_n].
Qed.

(** whatever lookups, inserts, invalidations and clears happened, the
    byte and size counters of the cache are exactly those of its entries
    and its size never exceeds the configured maximum (taken as at least
    one). *)
Theorem query_cache_invariant cfg evs :
  let c := run_cache cfg evs in
  estimated_memory_bytes (stats c) = total_bytes (cache c)
  ∧ current_cache_size (stats c) = len c ∧ len c ≤ max_cache_size cfg `max` 1.
Proof.
  assert (bounded_cache cfg (run_cache cfg evs)) as [[H1 H2] _ H3]; [|done].
  unfold run_cache. induction evs as [|ev evs IH] using rev_ind.
  - split; [by split|done|apply le_0_n].
  - rewrite foldl_app. by apply cache_step_bounded.
Qed.

(** ** What a hit returns *)

(** A write to [id] can change results of scope [s]. *)
Definition in_scope (id : Uuid) (s : CacheScope) : Prop :=
  match s with
  | GlobalScope => True
  | SessionScope i => i = id
  | SessionsScope ids => id ∈ ids
  end.

#[global] Instance in_scope_dec id s : Decision (in_scope id s).
Proof. destruct s; unfold in_scope; apply _. Defined.

Lemma covers_spec id s : covers id s = bool_decide (in_scope id s).
Proof.
  destruct s as [|i|ids]; simpl; [done| |].
  - destruct (N.eqb_spec i id); [by rewrite bool_decide_true|by rewrite bool_decide_false].
  - apply eq_true_iff_eq. rewrite existsb_exists, bool_decide_eq_true.
    setoid_rewrite <-list_elem_of_In. split; [intros (x & ? & ->%N.eqb_eq); done|].
    intros ?. exists id. by rewrite N.eqb_refl.
Qed.

(** [ev] leaves the results cached under [hash] with scope [s] current. *)
Definition keeps_current (hash : N) (s : CacheScope) (ev : cache_event) : bool :=
  match ev with
  | EvGet _ _ _ => true
  | EvInsert _ _ _ h _ => negb (N.eqb h hash)
  | EvInvalidate id => bool_decide (¬ in_scope id s)
  | EvClear => false
  end.

(** The last insert under [hash] in [evs], not invalidated since. *)
Definition current_insert (evs : list cache_event) hash (at_ : N) text results s : Prop :=
  ∃ before after, evs = before ++ EvInsert at_ text results hash s :: after
                  ∧ forallb (keeps_current hash s) after = true.

Definition same_entry (e e' : CachedQuery R) : Prop :=
  query_text e' = query_text e ∧ cq_results e' = cq_results e ∧ scope e' = scope e
  ∧ cached_at e' = cached_at e.

Definition justified evs c : Prop :=
  ∀ hash e, cache c !! hash = Some e →
    current_insert evs hash (cached_at e) (query_text e) (cq_results e) (scope e).

Lemma current_insert_snoc evs ev hash at_ text results s :
  current_insert evs hash at_ text results s → keeps_current hash s ev = true →
  current_insert (evs ++ [ev]) hash at_ text results s.
Proof.
  intros (before & after & -> & Hk) Hev. exists before, (after ++ [ev]).
  rewrite <-app_assoc. split; [done|]. by rewrite forallb_app, Hk; simpl; rewrite Hev.
Qed.

Lemma get_entries c now hash text k e' :
  cache (get now hash text c).1 !! k = Some e' →
  ∃ e, cache c !! k = Some e ∧ same_entry e e'.
Proof.
  unfold get. set (c0 := with_stats count_query c).
  change (cache c) with (cache c0). clearbody c0. intros Hk.
  assert (∀ e, same_entry e e) as Hrefl by done.
  destruct (cache c0 !! hash) as [e|] eqn:He; [|by eauto].
  destruct (is_expired _ _ _); [|destruct (String.eqb _ _)]; simpl in Hk; [|..|by eauto].
  - exists e'. split; [|done].
    exact (lookup_weaken _ _ _ _ Hk (sh_cache _ _ (remove_if_same_shrinks hash e true c0))).
  - apply lookup_insert_Some in Hk as [[<- <-]|[_ ?]]; [by exists e|by eauto].
Qed.

Lemma insert_entries c now text results hash s k e' :
  accounted c → size (cache c) ≤ capacity c →
  cache (cache_step c (EvInsert now text results hash s)) !! k = Some e' →
  (k = hash ∧ query_text e' = text ∧ cq_results e' = results ∧ scope e' = s
   ∧ cached_at e' = now)
  ∨ (k ≠ hash ∧ cache c !! k = Some e').
Proof.
  intros Hacc Hsz. cbn [cache_step].
  destruct (insert_prepared now text results hash s c) as
    (c1 & n & -> & _ & Hsub & _); [done|done|].
  assert (∀ e, cache (insert_entry hash e c1) = <[hash := e]> (cache c1)) as ->.
  { intros e. unfold insert_entry. by destruct (cache c1 !! hash). }
  intros [[<- <-]|[Hne Hk]]%lookup_insert_Some; [by left|right].
  split; [done|]. by eapply lookup_weaken.
Qed.

Lemma invalidate_entries c id k e :
  cache (invalidate_session id c) !! k = Some e →
  cache c !! k = Some e ∧ covers id (scope e) = false.
Proof.
  unfold invalidate_session, remove_where. intros Hk.
  assert (filter (λ kv, covers id (scope kv.2) ≠ true) (cache c) !! k = Some e) as Hf.
  { by case_decide. }
  apply map_lookup_filter_Some in Hf as [? Hf]. split; [done|].
  by apply not_true_is_false.
Qed.

Lemma justified_step cfg evs c ev :
  bounded_cache cfg c → justified evs c → justified (evs ++ [ev]) (cache_step c ev).
Proof.
  intros [Hacc Hcfg Hsz] Hj k e' Hk. destruct ev as [now hash text|now text results hash s|id|].
  - apply get_entries in Hk as (e & He & H1 & H2 & H3 & H4). rewrite H1, H2, H3, H4.
    apply current_insert_snoc; [by apply Hj|done].
  - subst cfg.
    apply insert_entries in Hk as [(-> & -> & -> & -> & ->)|[Hne Hk]]; [|..|done|done].
    + by exists evs, [].
    + apply current_insert_snoc; [by apply Hj|]. simpl.
      by apply negb_true_iff, N.eqb_neq.
  - apply invalidate_entries in Hk as [Hk Hcov].
    apply current_insert_snoc; [by apply Hj|]. simpl.
    rewrite covers_spec, bool_decide_eq_false in Hcov. by apply bool_decide_eq_true.
  - change ((∅ : gmap N (CachedQuery R)) !! k = Some e') in Hk. by rewrite lookup_empty in Hk.
Qed.

Lemma run_justified cfg evs :
  bounded_cache cfg (run_cache cfg evs) ∧ justified evs (run_cache cfg evs).
Proof.
  unfold run_cache. induction evs as [|ev evs [IHb IHj]] using rev_ind.
  - split; [split; [by split|done|apply le_0_n]|]. intros k e Hk.
    change ((∅ : gmap N (CachedQuery R)) !! k = Some e) in Hk. by rewrite lookup_empty in Hk.
  - rewrite foldl_app. simpl. split; [by apply cache_step_bounded|by eapply justified_step].
Qed.

(** C8: a hit is never stale.  After any run, the results a lookup
    returns are those of the last insert under that hash, made for that
    very query text, younger than the time to live, and since which
    neither the cache was cleared nor any session its scope covers was
    written. *)
Theorem hit_is_last_valid_insert cfg evs now hash text results :
  (get now hash text (run_cache cfg evs)).2 = Some results →
  ∃ at_ s, current_insert evs hash at_ text results s
           ∧ (now - at_ < (Z.to_N (Z.max (ttl_minutes cfg) 0) * 60) `mod` u64_mod
                          * 1000000000)%N.
Proof.
  destruct (run_justified cfg evs) as [[_ Hcfg _] Hj].
  set (c := run_cache cfg evs) in *. unfold get. simpl. rewrite Hcfg.
  destruct (cache c !! hash) as [e|] eqn:He; [|done].
  destruct (is_expired _ _ _) eqn:Hx; [done|].
  destruct (String.eqb_spec (query_text e) text) as [<-|]; [|done].
  simpl. intros [= <-]. exists (cached_at e), (scope e). split; [by apply Hj|].
  by apply N.leb_gt in Hx.
Qed.

(** what is inserted is found.  After any run, an insert followed by
    a lookup of the same hash and text within the time to live is a hit
    with exactly the inserted results, whatever had to be evicted, and it
    stays one through writes to sessions outside its scope. *)
Theorem insert_then_get_hits cfg evs at_ now text results hash s ids :
  Forall (λ id, ¬ in_scope id s) ids →
  (now - at_ < (Z.to_N (Z.max (ttl_minutes cfg) 0) * 60) `mod` u64_mod * 1000000000)%N →
  (get now hash text
     (run_cache cfg (evs ++ EvInsert at_ text results hash s :: (EvInvalidate <$> ids)))).2
  = Some results.
Proof.
  intros Hids Hnow. unfold run_cache. rewrite foldl_app. cbn [foldl].
  destruct (run_justified cfg evs) as [[Hacc Hcfg Hsz] _]. unfold run_cache in *.
  set (c := foldl cache_step _ evs) in *. clearbody c. subst cfg.
  assert (∃ e, cache (cache_step c (EvInsert at_ text results hash s)) !! hash = Some e
               ∧ query_text e = text ∧ cq_results e = results ∧ scope e = s
               ∧ cached_at e = at_) as (e & He & Htext & Hres & Hs & Hat).
  { cbn [cache_step]. destruct (insert_prepared at_ text results hash s c) as
      (c1 & n & -> & _); [done|done|].
    exists (CachedQuery_new content_id text_content size_of_result size_of_entry
              at_ n text results hash s). split; [|done]. unfold insert_entry.
    destruct (cache c1 !! hash); simpl; apply lookup_insert_eq. }
  assert (bounded_cache (config c) (cache_step c (EvInsert at_ text results hash s)))
    as Hb by by apply cache_step_bounded.
  set (c' := cache_step c _) in *. clearbody c'. clear Hacc Hsz.
  revert c' He Hb. induction Hids as [|id ids Hid Hids IH]; intros c' He Hb; simpl.
  - destruct Hb as [_ Hcfg _]. unfold get. simpl. rewrite He, Hcfg.
    unfold is_expired. rewrite Hat. apply N.leb_gt in Hnow as ->.
    rewrite Htext, String.eqb_refl. simpl. by rewrite Hres.
  - apply IH.
    + unfold invalidate_session, remove_where.
      assert (filter (λ kv, covers id (scope kv.2) ≠ true) (cache c') !! hash = Some e).
      { apply map_lookup_filter_Some. split; [done|]. simpl.
        by rewrite Hs, covers_spec, bool_decide_eq_true. }
      by case_decide.
    + by apply (cache_step_bounded _ _ (EvInvalidate id)).
Qed.
End runs.
End lemmas.

(** ** Witnesses *)

Definition demo_cfg : QueryCacheConfig := mkQueryCacheConfig 1 30.

Definition demo_evs : list (@cache_event string) :=
  [EvInsert 5 "q1" ["a"] 11 (SessionScope 1); EvInsert 7 "q2" ["b"; "c"] 12 (SessionScope 2);
   EvInvalidate 1; EvGet 8 12 "q2"].

#[local] Existing Instances key_order key_order_laws sorting_select sorting_select_laws demo_libm.

Definition demo_run evs : QueryCache string := run_cache (content_id := id) (text_content := id)
  (size_of_result := 8) (size_of_entry := 96) demo_cfg evs.

(* A capacity of one: the second insert evicts the first. *)
Example demo_run_evicts :
  let c := demo_run demo_evs in
  len c = 1 ∧ evicted_entries (stats c) = 1%N ∧ cache_hits (stats c) = 1%N
  ∧ estimated_memory_bytes (stats c) = 118.
Proof. vm_compute. split_and!; reflexivity. Qed.

Lemma query_cache_invariant_witness :
  (let c := demo_run demo_evs in
   estimated_memory_bytes (stats c) = total_bytes (cache c)
   ∧ current_cache_size (stats c) = len c ∧ len c ≤ max_cache_size demo_cfg `max` 1)%nat.
Proof. exact (query_cache_invariant demo_cfg demo_evs). Defined.

Lemma hit_is_last_valid_insert_witness :
  ∃ at_ s, current_insert demo_evs 12 at_ "q2" ["b"; "c"] s
           ∧ (9 - at_ < (Z.to_N (Z.max 30 0) * 60) `mod` u64_mod * 1000000000)%N.
Proof.
  apply (hit_is_last_valid_insert (content_id := id) (text_content := id)
    (size_of_result := 8) (size_of_entry := 96) demo_cfg demo_evs 9 12 "q2").
  vm_compute. reflexivity.
Defined.

Lemma insert_then_get_hits_witness :
  (get 10 13 "q3" (demo_run (demo_evs ++ EvInsert 9 "q3" ["d"] 13 (SessionScope 3)
     :: (EvInvalidate <$> [1; 2]%N)))).2 = Some ["d"].
Proof.
  apply (insert_then_get_hits demo_cfg demo_evs); [|vm_compute; reflexivity].
  repeat constructor; discriminate.
Defined.
