(* ===== verification/JsonPath.v ===== *)
(** * JSONPath selection

    [memory/src/jsonpath.rs]: the parser and executor of the [select]
    parameter.  The parser walks the bytes of the expression; here it carries
    the position together with the bytes left at that position.  A JSON value
    is [serde_json::Value], whose objects are B-tree maps: association lists
    in key order.  Its number type is a parameter [Num]. *)

From S2P Require Import Prelude RustStd Collections.
From stdpp Require Import gmap.

Local Open Scope pcx_scope.
#[local] Set Warnings "-register-all".

(** ** Data *)

Inductive PathSegment :=
| Field (name : string)
| Index (idx : Z)
| Slice (start end_ : option Z)
| Wildcard
| Union (indices : list Z).

Definition JsonPath := list PathSegment.

Record ParseError := mkParseError {
  byte_offset : nat;
  message : string;
}.

Inductive Json (Num : Type) :=
| JNull
| JBool (b : bool)
| JNumber (n : Num)
| JString (s : string)
| JArray (arr : list (Json Num))
| JObject (map : list (string * Json Num)).
Arguments JNull {Num}.
Arguments JBool {Num} b.
Arguments JNumber {Num} n.
Arguments JString {Num} s.
Arguments JArray {Num} arr.
Arguments JObject {Num} map.

(** ** Parser *)

(** A position and the bytes from there on. *)
Definition cursor : Type := nat * list N.

Definition is_field_char (b : N) : bool :=
  ((48 <=? b) && (b <=? 57) || (65 <=? b) && (b <=? 90) || (97 <=? b) && (b <=? 122)
   || (b =? 95))%N.

(** [while pos < len && p(bytes[pos]) { pos += 1 }]. *)
Fixpoint span (p : N → bool) (bs : list N) : list N * list N :=
  match bs with
  | [] => ([], [])
  | b :: r => if p b then let '(a, c) := span p r in (b :: a, c) else ([], bs)
  end.

(** Everything up to the [']'] that closes the bracket. *)
Fixpoint bracket_content (depth : nat) (bs : list N) : list N * list N :=
  match bs with
  | [] => ([], [])
  | b :: r =>
    if (b =? 93)%N && Nat.eqb depth 1 then ([], bs)
    else
      let depth := if (b =? 93)%N then depth - 1
                   else if (b =? 91)%N then depth + 1 else depth in
      let '(a, c) := bracket_content depth r in (b :: a, c)
  end.

Definition read_bracket_content (c : cursor) : string * cursor :=
  let '(raw, rest) := bracket_content 1 c.2 in
  (str_trim (str_of_bytes raw), (c.1 + length raw, rest)).

Definition expect_byte (c : cursor) (expected : N) (context : string)
    : result cursor ParseError :=
  let error := mkParseError c.1
    ("expected '" +:+ str_of_chars [expected] +:+ "' after '" +:+ context +:+ "'") in
  match c.2 with
  | b :: rest => if (b =? expected)%N then Ok (c.1 + 1, rest) else Err error
  | [] => Err error
  end.

Definition parse_int (offset : nat) (s : string) : result Z ParseError :=
  match parse_isize s with
  | Some z => Ok z
  | None => Err (mkParseError offset ("expected integer, got '" +:+ s +:+ "'"))
  end.

Fixpoint parse_ints (offset : nat) (parts : list string) : result (list Z) ParseError :=
  match parts with
  | [] => Ok []
  | p :: parts =>
    try z <- parse_int offset (str_trim p);
    try zs <- parse_ints offset parts;
    Ok (z :: zs)
  end.

(** A bound of a slice: nothing, or an integer. *)
Definition parse_bound (offset : nat) (part : string) : result (option Z) ParseError :=
  if String.eqb (str_trim part) "" then Ok None
  else try z <- parse_int offset (str_trim part); Ok (Some z).

Definition split_on (sep : N) (s : string) : list string :=
  str_of_bytes <$> bytes_split sep (str_bytes s).

Definition parse_bracket_content (offset : nat) (content : string)
    : result PathSegment ParseError :=
  let content := str_trim content in
  if bytes_end_with (str_bytes "()") (str_bytes content)
  then Err (mkParseError offset ("function calls (" +:+ content +:+ ") are not allowed"))
  else if bytes_contain 58 (str_bytes content)
  then match split_on 58 content with
       | [a; b] =>
         try start <- parse_bound offset a;
         try end_ <- parse_bound offset b;
         Ok (Slice start end_)
       | _ => Err (mkParseError offset "slice step [a:b:c] is not allowed")
       end
  else if bytes_contain 44 (str_bytes content)
  then try indices <- parse_ints offset (split_on 44 content); Ok (Union indices)
  else try idx <- parse_int offset content; Ok (Index idx).

(** [pos < len && bytes[pos] == b]. *)
Definition next_is (b : N) (c : cursor) : bool := bool_decide (head c.2 = Some b).

(** [pos += 1]. *)
Definition advance (c : cursor) : cursor := (c.1 + 1, tail c.2).

(** The arm for ['.'], after it. *)
Definition parse_dot (c : cursor) : result (PathSegment * cursor) ParseError :=
  if next_is 46 c then Err (mkParseError (c.1 - 1) "recursive descent (..) is not allowed")
  else if next_is 42 c then Ok (Wildcard, advance c)
  else
    let '(name, rest) := span is_field_char c.2 in
    let c' := (c.1 + length name, rest) in
    if Nat.eqb (length name) 0 then Err (mkParseError c.1 "expected field name after '.'")
    else if next_is 40 c'
    then Err (mkParseError c.1
                ("function calls (" +:+ str_of_bytes name +:+ "()) are not allowed"))
    else Ok (Field (str_of_bytes name), c').

(** The arm for ['['], after it. *)
Definition parse_bracket (c : cursor) : result (PathSegment * cursor) ParseError :=
  if next_is 63 c
  then Err (mkParseError (c.1 - 1) "filter expressions [?(...)] are not allowed")
  else if next_is 42 c
  then try c' <- expect_byte (advance c) 93 "*"; Ok (Wildcard, c')
  else
    let '(content, c') := read_bracket_content c in
    try c'' <- expect_byte c' 93 content;
    try segment <- parse_bracket_content c.1 content;
    Ok (segment, c'').

(** One turn of the loop, on the byte [b] at [pos]. *)
Definition parse_segment (pos : nat) (b : N) (rest : list N)
    : result (PathSegment * cursor) ParseError :=
  if (b =? 46)%N then parse_dot (pos + 1, rest)
  else if (b =? 91)%N then parse_bracket (pos + 1, rest)
  else Err (mkParseError pos
              ("unexpected character '" +:+ str_of_chars [b] +:+ "'; expected '.' or '['")).

(** [None]: out of fuel. *)
Fixpoint parse_loop (fuel : nat) (c : cursor) (segments : list PathSegment)
    : option (result JsonPath ParseError) :=
  match c.2 with
  | [] => Some (Ok segments)
  | b :: rest =>
    match fuel with
    | O => None
    | S fuel =>
      match parse_segment c.1 b rest with
      | Ok (segment, c) => parse_loop fuel c (segments ++ [segment])
      | Err e => Some (Err e)
      end
    end
  end.

Definition parse (input : string) : option (result JsonPath ParseError) :=
  let c := (0, str_bytes input) in
  if next_is 36 c then parse_loop (length (str_bytes input)) (advance c) []
  else Some (Err (mkParseError 0 "JSONPath must start with '$'")).

(** ** Executor *)

Section execute.
Context {Num : Type}.
Implicit Types (v : Json Num).

(** [Value::get] with a string. *)
Definition json_get (name : string) v : option (Json Num) :=
  match v with
  | JObject fields => snd <$> find_first (λ kv, String.eqb kv.1 name) fields
  | _ => None
  end.

Definition index_value v (idx : Z) : option (Json Num) :=
  match v with
  | JArray arr =>
    if (0 <=? idx)%Z then arr !! Z.to_nat idx
    else
      let from_end := Z.abs_nat idx in
      if from_end <=? length arr then arr !! (length arr - from_end) else None
  | _ => None
  end.

(** [&arr[s..e]]; [None]: the range is out of bounds, a panic. *)
Definition subslice {A} (s e : nat) (arr : list A) : option (list A) :=
  if decide (s ≤ e ∧ e ≤ length arr) then Some (take (e - s) (drop s arr)) else None.

Definition slice_value v (start end_ : option Z) : option (list (Json Num)) :=
  match v with
  | JArray arr =>
    let len := Z.of_nat (length arr) in
    let s := default 0%Z start in
    let s := Z.to_nat (if (s <? 0)%Z then Z.max (len + s) 0 else s) in
    let e := default len end_ in
    let e := Z.to_nat (if (e <? 0)%Z then Z.max (len + e) 0 else Z.min e len) in
    if e <=? s then Some [] else subslice s e arr
  | _ => Some []
  end.

(** What one segment selects below one value. *)
Definition segment_values (segment : PathSegment) v : option (list (Json Num)) :=
  match segment with
  | Field name => Some (option_list (json_get name v))
  | Index idx => Some (option_list (index_value v idx))
  | Slice start end_ => slice_value v start end_
  | Wildcard =>
    Some match v with
         | JArray arr => arr
         | JObject fields => fields.*2
         | _ => []
         end
  | Union indices =>
    Some (foldl (λ next idx, next ++ option_list (index_value v idx)) [] indices)
  end.

Definition execute_segment (current : list (Json Num)) (segment : PathSegment)
    : option (list (Json Num)) :=
  try_fold (λ next v, (next ++.) <$> segment_values segment v) [] current.

Definition collapse (current : list (Json Num)) : Json Num :=
  match current with
  | [] => JNull
  | [single] => single
  | many => JArray many
  end.

(** [None]: a panic. *)
Definition execute (path : JsonPath) (root : Json Num) : option (Json Num) :=
  collapse <$> try_fold execute_segment [root] path.

(** [serde_json::Map::insert]. *)
Fixpoint json_insert (key : string) v (fields : list (string * Json Num))
    : list (string * Json Num) :=
  match fields with
  | [] => [(key, v)]
  | (k, w) :: fields' =>
    match str_cmp key k with
    | Lt => (key, v) :: fields
    | Eq => (key, v) :: fields'
    | Gt => (k, w) :: json_insert key v fields'
    end
  end.

(** Parse and run one expression; [None]: no result (never, see
    [JsonPathThms]). *)
Definition select_one (response_json : Json Num) (expr : string)
    : option (result (Json Num) ParseError) :=
  parsed ← parse expr;
  match parsed with
  | Ok path => Ok <$> execute path response_json
  | Err e => Some (Err e)
  end.

(** The loop over the select map, in the order of its iterator. *)
Fixpoint select_entries (response_json : Json Num) (entries : list (string * string))
    (acc : list (string * Json Num)) : option (result (Json Num) ParseError) :=
  match entries with
  | [] => Some (Ok (JObject acc))
  | (key, expr) :: entries =>
    selected ← select_one response_json expr;
    match selected with
    | Ok v => select_entries response_json entries (json_insert key v acc)
    | Err e => Some (Err e)
    end
  end.

Definition apply_select `{MapOrder} (response_json : Json Num) (select_string : option string)
    (select_map : option (gmap string string)) : option (result (Json Num) ParseError) :=
  match select_string, select_map with
  | Some expr, _ => select_one response_json expr
  | None, Some m => select_entries response_json (iter_order m) []
  | None, None => Some (Ok response_json)
  end.
End execute.
