(* ===== verification/JsonPathThms.v ===== *)
(** * JSONPath selection: theorems

    The parser returns on every input, accepts exactly the documented
    segments (it inverts the canonical text of a path, and what it accepts
    contains none of the forbidden constructs), and the executor never panics
    and computes the values the path denotes. *)

From stdpp Require Import gmap.
From S2P Require Import Prelude RustStd Collections StrLemmas JsonPath.

Local Open Scope pcx_scope.

(** ** Cursors *)

Lemma span_split p bs :
  let '(a, c) := span p bs in
  bs = a ++ c ∧ Forall (λ b, p b = true) a.
Proof.
  induction bs as [|b r IH]; simpl; [done|]. destruct (p b) eqn:Hp; [|done].
  destruct (span p r) as [a c]. destruct IH as [-> Ha]. split; [done|by constructor].
Qed.

Lemma span_stop p a c :
  Forall (λ b, p b = true) a → (∀ b, head c = Some b → p b = false) → span p (a ++ c) = (a, c).
Proof.
  intros Ha Hc. induction Ha as [|b a Hb _ IH]; simpl.
  - destruct c as [|b c]; [done|]. simpl. by rewrite Hc.
  - by rewrite Hb, IH.
Qed.

Lemma bracket_content_split d bs :
  let '(a, c) := bracket_content d bs in bs = a ++ c.
Proof.
  revert d. induction bs as [|b r IH]; intros d; simpl; [done|].
  destruct ((b =? 93)%N && Nat.eqb d 1); [done|].
  set (d' := if (b =? 93)%N then _ else _). specialize (IH d').
  destruct (bracket_content d' r) as [a c]. by subst.
Qed.

Lemma bracket_content_flat bs rest :
  Forall (λ b, b ≠ 91%N ∧ b ≠ 93%N) bs →
  bracket_content 1 (bs ++ 93%N :: rest) = (bs, 93%N :: rest).
Proof.
  induction 1 as [|b bs [H1 H2] _ IH]; [done|]. simpl.
  rewrite (proj2 (N.eqb_neq b 93)), (proj2 (N.eqb_neq b 91)) by done. simpl. by rewrite IH.
Qed.

Lemma next_is_true b c : next_is b c = true → c.2 = b :: tail c.2.
Proof.
  unfold next_is. intros H%bool_decide_eq_true. destruct (c.2); simplify_eq/=; done.
Qed.

Lemma expect_byte_Ok c b ctx c' :
  expect_byte c b ctx = Ok c' → c.2 = b :: c'.2.
Proof.
  unfold expect_byte. destruct (c.2) as [|x r]; [done|].
  destruct (N.eqb_spec x b) as [->|]; [|done]. by intros [= <-].
Qed.

(** What a successful turn of the loop consumed. *)
Lemma parse_dot_Ok c seg c' :
  parse_dot c = Ok (seg, c') →
  ∃ t, c.2 = t ++ c'.2 ∧ t ≠ []
       ∧ (seg = Wildcard ∧ t = [42%N]
          ∨ seg = Field (str_of_bytes t) ∧ Forall (λ b, is_field_char b = true) t).
Proof.
  unfold parse_dot. destruct (next_is 46 c); [done|].
  destruct (next_is 42 c) eqn:Hstar.
  { intros [= <- <-]. exists [42%N]. simpl. apply next_is_true in Hstar.
    split_and!; [done|done|by left]. }
  pose proof (span_split is_field_char c.2) as Hspan.
  destruct (span is_field_char c.2) as [name rest]. destruct Hspan as [Heq Hname].
  destruct (Nat.eqb_spec (length name) 0); [done|]. destruct (next_is 40 _); [done|].
  intros [= <- <-]. exists name. split_and!; [done|by intros ->|by right].
Qed.

Lemma parse_bracket_Ok c seg c' :
  parse_bracket c = Ok (seg, c') →
  ∃ t, c.2 = t ++ 93%N :: c'.2
       ∧ (seg = Wildcard ∧ t = [42%N]
          ∨ parse_bracket_content c.1 (str_trim (str_of_bytes t)) = Ok seg).
Proof.
  unfold parse_bracket. destruct (next_is 63 c); [done|].
  destruct (next_is 42 c) eqn:Hstar.
  { apply next_is_true in Hstar. destruct (expect_byte _ _ _) as [c''|] eqn:He; [|discriminate].
    simpl. intros [= <- <-]. apply expect_byte_Ok in He. simpl in He.
    exists [42%N]. rewrite Hstar, He. split; [done|by left]. }
  unfold read_bracket_content. pose proof (bracket_content_split 1 c.2) as Hsplit.
  destruct (bracket_content 1 c.2) as [raw rest].
  destruct (expect_byte _ _ _) as [c''|] eqn:He; [|discriminate]. cbn [result_bind].
  destruct (parse_bracket_content _ _) as [s|] eqn:Hp; [|discriminate]. cbn [result_bind].
  intros [= <- <-]. apply expect_byte_Ok in He. simpl in He. subst rest.
  exists raw. split; [done|by right].
Qed.

Lemma parse_segment_shorter pos b rest seg c' :
  parse_segment pos b rest = Ok (seg, c') → length c'.2 ≤ length rest.
Proof.
  unfold parse_segment. destruct (b =? 46)%N; [|destruct (b =? 91)%N; [|done]].
  - intros (t & Ht & _)%parse_dot_Ok. simpl in Ht. rewrite Ht, length_app. lia.
  - intros (t & Ht & _)%parse_bracket_Ok. simpl in Ht. rewrite Ht, length_app. simpl. lia.
Qed.

Lemma parse_loop_total fuel c segs :
  length c.2 ≤ fuel → ∃ r, parse_loop fuel c segs = Some r.
Proof.
  revert c segs. induction fuel as [|fuel IH]; intros c segs Hlen; simpl.
  - destruct (c.2); [by eexists|simpl in Hlen; lia].
  - destruct (c.2) as [|b rest]; [by eexists|]. simpl in Hlen.
    destruct (parse_segment c.1 b rest) as [[seg c']|e] eqn:Hs; [|by eexists].
    apply IH. apply parse_segment_shorter in Hs. lia.
Qed.

Lemma parse_total s : ∃ r, parse s = Some r.
Proof.
  unfold parse. destruct (next_is 36 _) eqn:H; [|by eexists].
  apply parse_loop_total. apply next_is_true in H. simpl in *. rewrite H. simpl. lia.
Qed.

(** ** What the parser accepts *)

Definition in_isize (z : Z) : Prop := (isize_min ≤ z ≤ isize_max)%Z.

Definition segment_wf (seg : PathSegment) : Prop :=
  match seg with
  | Field name => name ≠ "" ∧ Forall (λ b, is_field_char b = true) (str_bytes name)
  | Index idx => in_isize idx
  | Slice start end_ => from_option in_isize True start ∧ from_option in_isize True end_
  | Wildcard => True
  | Union indices => 2 ≤ length indices ∧ Forall in_isize indices
  end.

(** Not part of a forbidden construct: no parenthesis, no filter, no dot. *)
Definition plain (b : N) : Prop := (b ≠ 40 ∧ b ≠ 63 ∧ b ≠ 46)%N.

Lemma number_plain bs : Forall number_byte bs → Forall plain bs.
Proof.
  intros H. eapply Forall_impl; [exact H|]. intros b Hb%number_byte_range. unfold plain. lia.
Qed.

Lemma whitespace_plain c b : is_whitespace c = true → b ∈ utf8_encode c → plain b.
Proof.
  intros Hw Hb. unfold plain.
  assert (c ≤ 32 ∨ 128 ≤ c)%N as Hc.
  { unfold is_whitespace in Hw. rewrite !orb_true_iff, !andb_true_iff, !N.eqb_eq, !N.leb_le in Hw.
    lia. }
  assert (is_scalar c) as Hs.
  { unfold is_whitespace in Hw. rewrite !orb_true_iff, !andb_true_iff, !N.eqb_eq, !N.leb_le in Hw.
    unfold is_scalar. lia. }
  destruct Hc as [Hc|Hc].
  - rewrite utf8_encode_ascii in Hb by lia. apply list_elem_of_singleton in Hb. lia.
  - pose proof (utf8_encode_high c b Hs Hc Hb). lia.
Qed.

Lemma trim_plain s :
  utf8_valid s → Forall plain (str_bytes (str_trim s)) → Forall plain (str_bytes s).
Proof. intros Hs. apply str_trim_bytes; [done|]. apply whitespace_plain. Qed.

Lemma parse_int_Ok offset s z :
  parse_int offset s = Ok z → Forall plain (str_bytes s) ∧ in_isize z.
Proof.
  unfold parse_int, parse_isize. destruct (parse_isize_bytes _) as [z'|] eqn:H; [|done].
  intros [= <-]. apply parse_isize_bytes_ok in H as [Hb Hz]. split; [by apply number_plain|done].
Qed.

Lemma parse_bound_Ok offset s o :
  utf8_valid s → parse_bound offset s = Ok o →
  Forall plain (str_bytes s) ∧ from_option in_isize True o.
Proof.
  intros Hs. unfold parse_bound. destruct (String.eqb_spec (str_trim s) "") as [He|].
  - intros [= <-]. split; [|done]. apply trim_plain; [done|]. rewrite He. constructor.
  - destruct (parse_int _ _) as [z|] eqn:Hz; [|done]. intros [= <-].
    apply parse_int_Ok in Hz as [? ?]. split; [by apply trim_plain|done].
Qed.

Lemma parse_ints_Ok offset parts zs :
  Forall utf8_valid parts → parse_ints offset parts = Ok zs →
  Forall (λ s, Forall plain (str_bytes s)) parts ∧ Forall in_isize zs
  ∧ length zs = length parts.
Proof.
  intros Hv. revert zs. induction Hv as [|p parts Hp _ IH]; intros zs; simpl.
  { by intros [= <-]. }
  destruct (parse_int offset (str_trim p)) as [z|] eqn:Hz; [|done]. simpl.
  destruct (parse_ints offset parts) as [zs'|]; [|done]. simpl. intros [= <-].
  destruct (IH zs' eq_refl) as (H1 & H2 & H3). apply parse_int_Ok in Hz as [Hb Hz].
  split_and!; [constructor; [by apply trim_plain|done]|by constructor|simpl; lia].
Qed.

Lemma split_on_parts sep s :
  (sep < 128)%N → utf8_valid s → plain sep →
  Forall utf8_valid (split_on sep s)
  ∧ (Forall (λ p, Forall plain (str_bytes p)) (split_on sep s) → Forall plain (str_bytes s)).
Proof.
  intros Hsep Hs Hp.
  pose proof (bytes_split_utf8 sep _ Hsep (proj2 (utf8_valid_bytes s) Hs)) as Hparts.
  unfold split_on. rewrite !Forall_fmap. split.
  - eapply Forall_impl; [exact Hparts|]. intros bs. apply utf8_bytes_valid.
  - intros Hall. apply (bytes_split_Forall _ sep); [done|].
    eapply Forall_impl; [apply Forall_and; split; [exact Hparts|exact Hall]|].
    intros bs [Hbs Hb]. simpl in Hb. by rewrite str_bytes_of_bytes in Hb by by apply utf8_bytes_ok.
Qed.

Lemma split_on_length sep s :
  bytes_contain sep (str_bytes s) = true → 2 ≤ length (split_on sep s).
Proof.
  intros H%bytes_contain_true. unfold split_on. rewrite length_fmap.
  apply list_elem_of_split_l in H as (a & r & -> & Ha).
  rewrite bytes_split_sep by (apply Forall_forall; by intros b Hb ->).
  simpl. pose proof (bytes_split_ne sep r). destruct (bytes_split sep r); simpl; [done|lia].
Qed.

Lemma parse_bracket_content_Ok offset s seg :
  utf8_valid s → parse_bracket_content offset s = Ok seg →
  Forall plain (str_bytes s) ∧ segment_wf seg.
Proof.
  intros Hs. unfold parse_bracket_content. pose proof (str_trim_valid s Hs) as Ht.
  pose proof (trim_plain s Hs) as Hplain. clear Hs.
  set (content := str_trim s) in *. clearbody content.
  destruct (bytes_end_with _ _); [done|].
  destruct (bytes_contain 58 _).
  { destruct (split_on_parts 58 content) as [Hv Hall]; [done|done|done|].
    destruct (split_on 58 content) as [|a [|b [|? ?]]]; try done.
    apply Forall_cons in Hv as [Ha [Hb _]%Forall_cons].
    destruct (parse_bound offset a) as [o1|] eqn:H1; [|done]. simpl.
    destruct (parse_bound offset b) as [o2|] eqn:H2; [|done]. intros [= <-].
    apply parse_bound_Ok in H1 as [? ?]; [|done]. apply parse_bound_Ok in H2 as [? ?]; [|done].
    split; [|done]. apply Hplain, Hall. by repeat constructor. }
  destruct (bytes_contain 44 _) eqn:Hcomma.
  { destruct (split_on_parts 44 content) as [Hv Hall]; [done|done|done|].
    apply split_on_length in Hcomma.
    destruct (parse_ints _ _) as [zs|] eqn:Hzs; [|done]. intros [= <-].
    apply parse_ints_Ok in Hzs as (? & ? & Hlen); [|done].
    split; [by apply Hplain, Hall|]. split; [lia|done]. }
  destruct (parse_int offset content) as [z|] eqn:Hz; [|done]. intros [= <-].
  apply parse_int_Ok in Hz as [? ?]. auto.
Qed.

(** The bytes of one segment: a dot or a bracket, then plain bytes. *)
Definition segment_bytes (t : list N) : Prop :=
  ∃ r, (t = 91%N :: r ∨ t = 46%N :: r ∧ r ≠ []) ∧ Forall plain r.

Lemma field_plain t : Forall (λ b, is_field_char b = true) t → Forall plain t.
Proof.
  intros H. eapply Forall_impl; [exact H|]. unfold is_field_char, plain. intros b Hb.
  rewrite !orb_true_iff, !andb_true_iff, N.eqb_eq, !N.leb_le in Hb. lia.
Qed.

Lemma field_ascii t : Forall (λ b, is_field_char b = true) t → Forall (λ b, b < 128)%N t.
Proof.
  intros H. eapply Forall_impl; [exact H|]. unfold is_field_char. intros b Hb.
  rewrite !orb_true_iff, !andb_true_iff, N.eqb_eq, !N.leb_le in Hb. lia.
Qed.

Lemma utf8_after t rest :
  Forall (λ b, b < 128)%N t → utf8_bytes (t ++ rest) → utf8_bytes rest.
Proof.
  induction 1 as [|b t Hb _ IH]; [done|]. intros H. apply IH.
  by apply (utf8_cut [] b) in H as [_ ?].
Qed.

Lemma parse_segment_Ok pos b rest seg c' :
  utf8_bytes (b :: rest) → parse_segment pos b rest = Ok (seg, c') →
  utf8_bytes c'.2 ∧ segment_wf seg ∧ ∃ t, b :: rest = t ++ c'.2 ∧ segment_bytes t.
Proof.
  intros Hv. unfold parse_segment.
  destruct (N.eqb_spec b 46) as [->|]; [|destruct (N.eqb_spec b 91) as [->|]; [|discriminate]];
    (apply (utf8_cut [] _) in Hv as [_ Hv]; [|done]).
  - intros (t & Ht & Hne & Hseg)%parse_dot_Ok. simpl in Ht. subst rest.
    assert (Forall plain t ∧ Forall (λ b, b < 128)%N t ∧ segment_wf seg) as (Hp & Ha & Hwf).
    { destruct Hseg as [[-> ->]|[-> Hf]].
      - split_and!; [by repeat constructor|by repeat constructor|done].
      - pose proof (field_ascii _ Hf) as Ha. split_and!; [by apply field_plain|done|].
        assert (str_bytes (str_of_bytes t) = t) as Hb
          by by apply str_bytes_of_bytes, ascii_bytes_ok.
        split; [|by rewrite Hb]. intros He. rewrite He in Hb. by apply Hne. }
    split_and!; [by eapply utf8_after|done|].
    exists (46%N :: t). split; [done|]. exists t. split; [by right|done].
  - intros (t & Ht & Hseg)%parse_bracket_Ok. simpl in Ht. subst rest.
    destruct (utf8_cut _ _ _ Hv) as [Hvt Hvr]; [done|].
    assert (Forall plain t ∧ segment_wf seg) as [Hp Hwf].
    { destruct Hseg as [[-> ->]|Hseg]; [by repeat constructor|].
      pose proof (utf8_bytes_valid _ Hvt) as Hs.
      apply parse_bracket_content_Ok in Hseg as [Hp Hwf]; [|by apply str_trim_valid].
      split; [|done]. apply trim_plain in Hp; [|done].
      by rewrite str_bytes_of_bytes in Hp by by apply utf8_bytes_ok. }
    split_and!; [done|done|]. exists (91%N :: t ++ [93%N]). split.
    { simpl. by rewrite <-app_assoc. }
    exists (t ++ [93%N]). split; [by left|]. apply Forall_app. split; [done|].
    by repeat constructor.
Qed.

Lemma parse_loop_Ok fuel c segs p :
  utf8_bytes c.2 → Forall segment_wf segs → parse_loop fuel c segs = Some (Ok p) →
  Forall segment_wf p ∧ ∃ ts, c.2 = concat ts ∧ Forall segment_bytes ts.
Proof.
  revert c segs. induction fuel as [|fuel IH]; intros c segs Hv Hsegs; cbn [parse_loop];
    destruct (c.2) as [|b rest] eqn:Hc; try (intros [= <-]; split; [done|by exists []]); [done|].
  destruct (parse_segment c.1 b rest) as [[seg c']|e] eqn:Hs; [|done].
  apply parse_segment_Ok in Hs as (Hv' & Hwf & t & Ht & Hb); [|done]. intros Hp.
  apply IH in Hp as [Hp (ts & Hts & Hall)]; [|done|by apply Forall_app; auto].
  split; [done|]. exists (t :: ts). simpl. rewrite <-Hts. split; [done|by constructor].
Qed.

(** ** Forbidden constructs *)

Lemma infix_plain x y ys l r :
  x ∉ l → bytes_infix (x :: y :: ys) (l ++ r) = bytes_infix (x :: y :: ys) r.
Proof.
  intros Hl. induction l as [|b l IH]; [done|].
  rewrite not_elem_of_cons in Hl. destruct Hl as [Hb Hl]. cbn [app bytes_infix].
  rewrite bool_decide_eq_false_2; [simpl; by apply IH|]. simpl. congruence.
Qed.

Lemma infix_one x l : x ∉ l → bytes_infix [x] l = false.
Proof.
  induction l as [|b l IH]; [done|]. rewrite not_elem_of_cons. intros [Hb Hl].
  cbn [bytes_infix]. rewrite bool_decide_eq_false_2; [simpl; by apply IH|]. simpl. congruence.
Qed.

Lemma segments_no_descent ts :
  Forall segment_bytes ts → bytes_infix [46; 46]%N (concat ts) = false.
Proof.
  induction 1 as [|t ts (r & Ht & Hr) _ IH]; [done|]. cbn [concat].
  assert (46%N ∉ r) as Hnot.
  { intros Hin. rewrite Forall_forall in Hr. by destruct (Hr _ Hin) as (_ & _ & ?). }
  destruct Ht as [->|[-> Hne]].
  - rewrite infix_plain; [done|]. rewrite not_elem_of_cons. done.
  - destruct r as [|c r]; [done|]. rewrite not_elem_of_cons in Hnot. destruct Hnot as [Hc Hr'].
    change ((46%N :: c :: r) ++ concat ts) with (46%N :: (c :: r) ++ concat ts).
    cbn [bytes_infix]. rewrite bool_decide_eq_false_2 by (simpl; congruence).
    rewrite orb_false_l, infix_plain; [done|]. by rewrite not_elem_of_cons.
Qed.

Lemma segments_without x ts :
  (x = 40 ∨ x = 63)%N → Forall segment_bytes ts → x ∉ concat ts.
Proof.
  intros Hx. induction 1 as [|t ts (r & Ht & Hr) _ IH]; [set_solver|]. cbn [concat].
  assert (x ∉ r) as Hnot.
  { intros Hin. rewrite Forall_forall in Hr. destruct (Hr _ Hin) as (? & ? & _). lia. }
  rewrite not_elem_of_app. split; [|done].
  destruct Ht as [->|[-> _]]; rewrite not_elem_of_cons; (split; [lia|done]).
Qed.

(** ** Canonical text *)

Fixpoint join (sep : N) (parts : list (list N)) : list N :=
  match parts with
  | [] => []
  | [p] => p
  | p :: ps => p ++ sep :: join sep ps
  end.

Definition content_bytes (seg : PathSegment) : list N :=
  match seg with
  | Field name => str_bytes name
  | Index idx => decimal_Z idx
  | Slice start end_ => from_option decimal_Z [] start ++ 58%N :: from_option decimal_Z [] end_
  | Wildcard => [42%N]
  | Union indices => join 44 (decimal_Z <$> indices)
  end.

Definition print_segment (seg : PathSegment) : list N :=
  match seg with
  | Field _ => 46%N :: content_bytes seg
  | _ => 91%N :: content_bytes seg ++ [93%N]
  end.

(** [$.name[1][2:3][*][4,5]...] *)
Definition print_path (p : JsonPath) : string :=
  str_of_bytes (36%N :: concat (print_segment <$> p)).

(** The bytes between brackets in canonical text. *)
Definition index_byte (b : N) : Prop := number_byte b ∨ b = 58%N ∨ b = 44%N.

Lemma index_byte_range b : index_byte b → (43 ≤ b ≤ 58)%N.
Proof. intros [[? _]%number_byte_range|[->| ->]]; lia. Qed.

Lemma index_byte_solid bs : Forall index_byte bs → Forall solid bs.
Proof.
  intros H. eapply Forall_impl; [exact H|]. intros b Hb%index_byte_range. split; [lia|].
  destruct (is_whitespace b) eqn:Hw; [|done]. unfold is_whitespace in Hw.
  rewrite !orb_true_iff, !andb_true_iff, !N.eqb_eq, !N.leb_le in Hw. lia.
Qed.

Lemma decimal_number z : Forall number_byte (decimal_Z z) ∧ decimal_Z z ≠ [].
Proof.
  destruct (decimal_N_spec (Z.abs_N z)) as (Hne & Hds & _).
  assert (Forall number_byte (decimal_N (Z.abs_N z))) as Hn.
  { eapply Forall_impl; [exact Hds|]. intros b Hb. by left. }
  unfold decimal_Z. destruct (z <? 0)%Z; [|done].
  split; [|done]. constructor; [right; by left|done].
Qed.

Lemma numbers_index bs : Forall number_byte bs → Forall index_byte bs.
Proof. intros H. eapply Forall_impl; [exact H|]. intros b Hb. by left. Qed.

Lemma bytes_of_index bs : Forall index_byte bs → str_bytes (str_of_bytes bs) = bs.
Proof. intros H. by apply str_bytes_of_bytes, ascii_bytes_ok, solid_ascii, index_byte_solid. Qed.

Lemma trim_index bs : Forall index_byte bs → str_trim (str_of_bytes bs) = str_of_bytes bs.
Proof. intros H. by apply str_trim_solid, index_byte_solid. Qed.

Lemma parse_int_decimal offset z :
  in_isize z → parse_int offset (str_trim (str_of_bytes (decimal_Z z))) = Ok z.
Proof.
  intros Hz. destruct (decimal_number z) as [Hn%numbers_index _].
  rewrite trim_index by done. unfold parse_int, parse_isize.
  by rewrite bytes_of_index, parse_decimal_Z.
Qed.

Lemma parse_bound_decimal offset o :
  from_option in_isize True o →
  parse_bound offset (str_of_bytes (from_option decimal_Z [] o)) = Ok o.
Proof.
  unfold parse_bound. destruct o as [z|]; simpl from_option; [|done]. intros Hz.
  rewrite parse_int_decimal by done.
  destruct (decimal_number z) as [Hn%numbers_index Hne]. rewrite trim_index by done.
  destruct (String.eqb_spec (str_of_bytes (decimal_Z z)) "") as [He|]; [|done].
  apply (f_equal str_bytes) in He. by rewrite bytes_of_index in He.
Qed.

Lemma parse_ints_decimal offset zs :
  Forall in_isize zs → parse_ints offset (str_of_bytes <$> (decimal_Z <$> zs)) = Ok zs.
Proof.
  induction 1 as [|z zs Hz _ IH]; [done|]. csimpl. rewrite parse_int_decimal by done.
  cbn [result_bind]. csimpl in IH. by rewrite IH.
Qed.

Lemma split_join sep parts :
  parts ≠ [] → Forall (Forall (λ b, b ≠ sep)) parts → bytes_split sep (join sep parts) = parts.
Proof.
  intros Hne Hparts. induction Hparts as [|p ps Hp Hps IH]; [done|].
  destruct ps as [|q ps]; [by apply bytes_split_one|].
  change (join sep (p :: q :: ps)) with (p ++ sep :: join sep (q :: ps)).
  by rewrite bytes_split_sep, IH.
Qed.

Lemma join_Forall (Q : N → Prop) sep parts :
  Q sep → Forall (Forall Q) parts → Forall Q (join sep parts).
Proof.
  intros Hsep. induction 1 as [|p ps Hp Hps IH]; [constructor|].
  destruct ps as [|q ps]; [done|].
  change (join sep (p :: q :: ps)) with (p ++ sep :: join sep (q :: ps)).
  apply Forall_app. split; [done|by constructor].
Qed.

Lemma decimal_avoids sep z :
  (sep < 43 ∨ sep = 44 ∨ 57 < sep)%N → Forall (λ b, b ≠ sep) (decimal_Z z).
Proof.
  intros Hsep. eapply Forall_impl; [apply decimal_number|].
  intros b Hb%number_byte_range. lia.
Qed.

Lemma decimals_avoid sep zs :
  (sep < 43 ∨ sep = 44 ∨ 57 < sep)%N → Forall (Forall (λ b, b ≠ sep)) (decimal_Z <$> zs).
Proof. intros Hsep. apply Forall_fmap, Forall_true. intros z. by apply decimal_avoids. Qed.

Lemma bytes_contain_false b bs : Forall (λ x, x ≠ b) bs → bytes_contain b bs = false.
Proof.
  intros H. apply not_true_is_false. rewrite bytes_contain_true. intros Hin.
  rewrite Forall_forall in H. by apply (H b).
Qed.

Lemma no_call bs : Forall index_byte bs → bytes_end_with (str_bytes "()") bs = false.
Proof.
  intros H. apply bool_decide_eq_false_2. intros He.
  assert (40%N ∈ bs) as Hin.
  { rewrite <-(take_drop (length bs - length (str_bytes "()")) bs), elem_of_app. right.
    rewrite He. left. }
  rewrite Forall_forall in H. apply H, index_byte_range in Hin. lia.
Qed.

Lemma content_index seg :
  match seg with Field _ | Wildcard => False | _ => True end →
  Forall index_byte (content_bytes seg).
Proof.
  pose proof (λ z, numbers_index _ (proj1 (decimal_number z))) as Hd.
  destruct seg as [name|idx|start end_| |indices]; try done; intros _; simpl.
  - apply Hd.
  - apply Forall_app. split; [by destruct start; simpl|].
    constructor; [right; by left|by destruct end_; simpl].
  - apply join_Forall; [right; by right|]. apply Forall_fmap, Forall_true. done.
Qed.

Lemma parse_content_print offset seg :
  match seg with Field _ | Wildcard => False | _ => True end → segment_wf seg →
  parse_bracket_content offset (str_trim (str_of_bytes (content_bytes seg))) = Ok seg.
Proof.
  intros Hkind Hwf. pose proof (content_index seg Hkind) as Hi.
  unfold parse_bracket_content, split_on. rewrite !trim_index, bytes_of_index, no_call by done.
  destruct seg as [name|idx|start end_| |indices]; try done; cbn [content_bytes] in *.
  - rewrite !bytes_contain_false by (apply decimal_avoids; lia).
    rewrite <-(trim_index (decimal_Z idx)) by done. by rewrite parse_int_decimal.
  - rewrite (proj2 (bytes_contain_true _ _)) by set_solver.
    destruct Hwf as [Ha Hb].
    assert (∀ o : option Z, Forall (λ b, b ≠ 58%N) (from_option decimal_Z [] o)) as Ho.
    { intros [z|]; simpl; [|constructor].
      apply decimal_avoids. lia. }
    rewrite bytes_split_sep, bytes_split_one by apply Ho. csimpl.
    by rewrite !parse_bound_decimal.
  - destruct Hwf as [Hlen Hwf].
    rewrite bytes_contain_false by (apply join_Forall; [done|apply decimals_avoid; lia]).
    rewrite split_join, parse_ints_decimal; [|done| |apply decimals_avoid; lia].
    2: { destruct indices; [simpl in Hlen; lia|done]. }
    destruct indices as [|z1 [|z2 zs]]; simpl in Hlen; [lia|lia|].
    rewrite (proj2 (bytes_contain_true _ _)); [done|]. csimpl. set_solver.
Qed.

Lemma next_is_false b c : (∀ x, head c.2 = Some x → x ≠ b) → next_is b c = false.
Proof. intros H. apply bool_decide_eq_false_2. intros Hh. by apply (H b). Qed.

Lemma parse_bracket_print pos seg rest :
  match seg with Field _ | Wildcard => False | _ => True end → segment_wf seg →
  ∃ pos', parse_bracket (pos, content_bytes seg ++ 93%N :: rest) = Ok (seg, (pos', rest)).
Proof.
  intros Hkind Hwf. pose proof (content_index seg Hkind) as Hi.
  assert (∀ x, head (content_bytes seg ++ 93%N :: rest) = Some x → x ≠ 63%N ∧ x ≠ 42%N) as Hh.
  { intros x. destruct (content_bytes seg) as [|b bs]; simpl; [by intros [= <-]|].
    intros [= <-]. apply Forall_cons in Hi as [Hb%index_byte_range _]. lia. }
  unfold parse_bracket, read_bracket_content.
  rewrite !next_is_false by (intros x Hx; by apply Hh in Hx as [? ?]). cbn [fst snd].
  rewrite bracket_content_flat.
  - unfold expect_byte. cbn [fst snd]. rewrite N.eqb_refl. cbn [result_bind].
    rewrite parse_content_print by done. by eexists.
  - eapply Forall_impl; [exact Hi|]. intros b Hb%index_byte_range. lia.
Qed.

(** What may follow a segment. *)
Definition segment_start (rest : list N) : Prop :=
  ∀ b, head rest = Some b → b = 46%N ∨ b = 91%N.

Lemma parse_dot_print pos name rest :
  segment_wf (Field name) → segment_start rest →
  ∃ pos', parse_dot (pos, str_bytes name ++ rest) = Ok (Field name, (pos', rest)).
Proof.
  intros [Hne Hf] Hrest. unfold parse_dot. cbn [snd fst].
  assert (str_bytes name ≠ []) as Hb.
  { intros He. apply Hne. by rewrite <-(str_of_bytes_bytes name), He. }
  assert (∀ x, head (str_bytes name ++ rest) = Some x → is_field_char x = true) as Hh.
  { intros x. destruct (str_bytes name); [done|]. simpl. intros [= <-].
    by apply Forall_cons in Hf as [? _]. }
  rewrite !next_is_false by (intros x Hx ->; by apply Hh in Hx).
  rewrite span_stop; [|done|].
  - destruct (Nat.eqb_spec (length (str_bytes name)) 0) as [He|].
    { by apply length_zero_iff_nil in He. }
    rewrite next_is_false by (intros x Hx ->; by apply Hrest in Hx as [|]).
    rewrite str_of_bytes_bytes. by eexists.
  - intros b Hb'. by apply Hrest in Hb' as [->| ->].
Qed.

Lemma parse_segment_print pos seg rest :
  segment_wf seg → segment_start rest →
  ∃ b bs pos', print_segment seg = b :: bs
               ∧ parse_segment pos b (bs ++ rest) = Ok (seg, (pos', rest)).
Proof.
  intros Hwf Hrest. unfold parse_segment.
  destruct seg as [name|idx|start end_| |indices]; cbn [print_segment].
  1: { destruct (parse_dot_print (pos + 1) name rest Hwf Hrest) as [pos' Hp].
       by exists 46%N, (str_bytes name), pos'. }
  3: { by eexists _, _, _. }
  all: match goal with |- context [print_segment ?s] => idtac | |- context [content_bytes ?s] =>
         destruct (parse_bracket_print (pos + 1) s rest I Hwf) as [pos' Hp];
         exists 91%N, (content_bytes s ++ [93%N]), pos' end.
  all: (split; [done|]); rewrite <-app_assoc; exact Hp.
Qed.

Lemma print_start p : segment_start (concat (print_segment <$> p)).
Proof.
  intros b. destruct p as [|seg p]; [done|].
  destruct seg; csimpl; intros [= <-]; auto.
Qed.

Lemma parse_loop_print fuel pos p segs :
  Forall segment_wf p → length (concat (print_segment <$> p)) ≤ fuel →
  parse_loop fuel (pos, concat (print_segment <$> p)) segs = Some (Ok (segs ++ p)).
Proof.
  intros Hp. revert fuel pos segs. induction Hp as [|seg p Hseg Hp IH]; intros fuel pos segs Hf.
  { rewrite app_nil_r. by destruct fuel. }
  csimpl in *. pose proof (print_start p) as Hstart.
  destruct (parse_segment_print pos seg _ Hseg Hstart) as (b & bs & pos' & Hb & Hparse).
  rewrite Hb in *. simpl in Hf. destruct fuel as [|fuel]; [lia|].
  cbn [app parse_loop fst snd]. rewrite Hparse. rewrite IH by (rewrite length_app in Hf; lia).
  by rewrite <-app_assoc.
Qed.

Lemma print_bytes p :
  Forall segment_wf p → Forall (λ b, b < 128)%N (concat (print_segment <$> p)).
Proof.
  induction 1 as [|seg p Hseg _ IH]; csimpl; [constructor|]. apply Forall_app. split; [|done].
  destruct seg as [name|idx|start end_| |indices]; cbn [print_segment].
  1: { constructor; [done|]. by apply field_ascii, Hseg. }
  3: { by repeat constructor. }
  all: constructor; [done|]; apply Forall_app; (split; [|by repeat constructor]).
  all: by apply solid_ascii, index_byte_solid, content_index.
Qed.

(** ** The executor *)

Section execute.
Context {Num : Type}.
Implicit Types (v : Json Num) (arr : list (Json Num)).

(** A bound of a slice, clamped into the array. *)
Definition clamp_index (len : nat) (z : Z) : nat :=
  Z.to_nat (Z.max 0 (Z.min (Z.of_nat len) (if (z <? 0)%Z then Z.of_nat len + z else z))).

Lemma slice_value_array arr start end_ :
  let lo := clamp_index (length arr) (default 0%Z start) in
  let hi := clamp_index (length arr) (default (Z.of_nat (length arr)) end_) in
  slice_value (JArray arr) start end_ = Some (take (hi - lo) (drop lo arr)).
Proof.
  cbv zeta. unfold slice_value, subslice. set (n := length arr).
  generalize (default 0%Z start) (default (Z.of_nat n) end_). intros a b.
  set (s := Z.to_nat (if (a <? 0)%Z then _ else a)).
  set (e := Z.to_nat (if (b <? 0)%Z then _ else Z.min b _)).
  assert (clamp_index n a = s `min` n) as ->.
  { unfold clamp_index, s. destruct (Z.ltb_spec a 0); lia. }
  assert (clamp_index n b = e) as ->.
  { unfold clamp_index, e. destruct (Z.ltb_spec b 0); lia. }
  assert (e ≤ n) as He. { unfold e. destruct (Z.ltb_spec b 0); lia. }
  destruct (Nat.leb_spec e s).
  - by replace (e - s `min` n) with 0 by lia.
  - rewrite decide_True by lia. by replace (s `min` n) with s by lia.
Qed.

(** [z] counted from the front or, when negative, from the end. *)
Definition nth_wrapped arr (z : Z) : option (Json Num) :=
  let len := Z.of_nat (length arr) in
  if decide (- len ≤ z < len)%Z then arr !! Z.to_nat (z mod len) else None.

Lemma index_value_array arr z : index_value (JArray arr) z = nth_wrapped arr z.
Proof.
  unfold index_value, nth_wrapped. set (n := length arr).
  destruct (Z.leb_spec 0 z).
  - case_decide as Hd; [by rewrite Z.mod_small by lia|]. apply lookup_ge_None. lia.
  - destruct (Nat.leb_spec (Z.abs_nat z) n).
    + rewrite decide_True by lia. f_equal.
      rewrite <-(Z.mod_unique_pos z (Z.of_nat n) (-1) (Z.of_nat n + z)); lia.
    + by rewrite decide_False by lia.
Qed.

(** What a segment denotes below one value. *)
Definition children (seg : PathSegment) v : list (Json Num) :=
  match seg, v with
  | Field name, _ => option_list (json_get name v)
  | Index z, JArray arr => option_list (nth_wrapped arr z)
  | Slice start end_, JArray arr =>
    let lo := clamp_index (length arr) (default 0%Z start) in
    let hi := clamp_index (length arr) (default (Z.of_nat (length arr)) end_) in
    take (hi - lo) (drop lo arr)
  | Wildcard, JArray arr => arr
  | Wildcard, JObject fields => fields.*2
  | Union zs, JArray arr => zs ≫= λ z, option_list (nth_wrapped arr z)
  | _, _ => []
  end.

(** The values at the end of a path, depth first. *)
Fixpoint denote (p : JsonPath) v : list (Json Num) :=
  match p with
  | [] => [v]
  | seg :: p => children seg v ≫= denote p
  end.

Lemma foldl_append {A B} (f : A → list B) l acc :
  foldl (λ next x, next ++ f x) acc l = acc ++ (l ≫= f).
Proof.
  revert acc. induction l as [|x l IH]; intros acc; csimpl; [by rewrite app_nil_r|].
  by rewrite IH, <-app_assoc.
Qed.

Lemma bind_none {A B} (l : list A) : (l ≫= λ _, []) = ([] : list B).
Proof. by induction l. Qed.

Lemma segment_values_children seg v : segment_values seg v = Some (children seg v).
Proof.
  destruct seg as [name|idx|start end_| |indices]; cbn [segment_values children].
  - done.
  - destruct v; try done. by rewrite index_value_array.
  - destruct v; try done. apply slice_value_array.
  - by destruct v.
  - rewrite foldl_append. cbn [app].
    destruct v; try (simpl; by rewrite bind_none). apply (f_equal Some).
    apply list_bind_ext; [|done]. intros z. by rewrite index_value_array.
Qed.

Lemma execute_segment_children current seg :
  execute_segment current seg = Some (current ≫= children seg).
Proof.
  unfold execute_segment.
  assert (∀ acc, try_fold (λ next v, (next ++.) <$> segment_values seg v) acc current
                 = Some (acc ++ (current ≫= children seg))) as H; [|apply H].
  induction current as [|v vs IH]; intros acc; csimpl; [by rewrite app_nil_r|].
  rewrite segment_values_children. csimpl. by rewrite IH, <-app_assoc.
Qed.

Lemma bind_assoc {A B C} (f : A → list B) (g : B → list C) l :
  (l ≫= f) ≫= g = l ≫= λ x, f x ≫= g.
Proof. induction l as [|x l IH]; csimpl; [done|]. by rewrite bind_app, IH. Qed.

Lemma execute_eq p root : execute p root = Some (collapse (denote p root)).
Proof.
  unfold execute.
  assert (∀ current, try_fold execute_segment current p = Some (current ≫= denote p)) as H.
  { induction p as [|seg p IH]; intros current; cbn [try_fold].
    - apply (f_equal Some). induction current as [|v vs IH]; [done|].
      change (v :: vs = [v] ++ (vs ≫= denote [])). by rewrite <-IH.
    - rewrite execute_segment_children. csimpl. by rewrite IH, bind_assoc. }
  rewrite H. csimpl. by rewrite app_nil_r.
Qed.

Lemma select_one_total v expr : ∃ r, select_one v expr = Some r.
Proof.
  unfold select_one. destruct (parse_total expr) as [[p|e] ->]; simpl; [|by eexists].
  rewrite execute_eq. by eexists.
Qed.

(** ** Selection by a map *)

Lemma json_get_insert k key v fields :
  json_get k (JObject (json_insert key v fields))
  = if decide (k = key) then Some v else json_get k (JObject fields).
Proof.
  cbn [json_get].
  induction fields as [|[k' w] fields IH]; cbn [json_insert].
  - csimpl. destruct (String.eqb_spec key k); by case_decide; simplify_eq/=.
  - unfold str_cmp. destruct (String.compare key k') eqn:Hc; csimpl.
    + apply String.compare_eq_iff in Hc as ->.
      destruct (String.eqb_spec k' k); by case_decide; simplify_eq/=.
    + destruct (String.eqb_spec key k); by case_decide; simplify_eq/=.
    + destruct (String.eqb_spec k' k) as [->|]; [|done].
      case_decide; [subst|done].
      pose proof (String.compare_antisym key key) as Ha. by rewrite Hc in Ha.
Qed.

Lemma select_entries_spec response entries acc :
  NoDup entries.*1 →
  (∃ fields, select_entries response entries acc = Some (Ok (JObject fields))
     ∧ ∀ k v, json_get k (JObject fields) = Some v
              ↔ (∃ expr, (k, expr) ∈ entries ∧ select_one response expr = Some (Ok v))
                ∨ (k ∉ entries.*1) ∧ json_get k (JObject acc) = Some v)
  ∨ (∃ e k expr, select_entries response entries acc = Some (Err e)
                 ∧ (k, expr) ∈ entries ∧ select_one response expr = Some (Err e)).
Proof.
  revert acc. induction entries as [|[k expr] entries IH]; intros acc Hnd.
  { left. exists acc. split; [done|]. intros k v. csimpl.
    split; [intros H; right; split; [apply not_elem_of_nil|done]|].
    intros [(? & []%not_elem_of_nil & _)|[_ H]]. done. }
  cbn [select_entries]. csimpl in Hnd. apply NoDup_cons in Hnd as [Hk Hnd].
  destruct (select_one_total response expr) as [[v|e] Hsel]; rewrite Hsel; cbn [mbind option_bind].
  - destruct (IH (json_insert k v acc) Hnd) as [(fields & -> & Hf)|(e & k' & x & -> & Hin & He)].
    + left. exists fields. split; [done|]. intros k' v'. rewrite Hf, json_get_insert. csimpl.
      rewrite not_elem_of_cons. setoid_rewrite elem_of_cons.
      split.
      * intros [(x & Hx & Hv)|[Hnot Hv]]; [left; exists x; auto|].
        case_decide as Hd; [|by right]. simplify_eq. left. exists expr. auto.
      * intros [(x & [Heq|Hx] & Hv)|[[Hne Hnot] Hv]].
        -- injection Heq as -> ->. right. split; [done|]. rewrite decide_True by done. congruence.
        -- left. by exists x.
        -- right. split; [done|]. by rewrite decide_False.
    + right. exists e, k', x. split_and!; [done|by right|done].
  - right. exists e, k, expr. split_and!; [done|by left|done].
Qed.
End execute.

(** ** Theorems *)

(** the parser returns on every input, and what it accepts is a
    well-formed path (names non-empty and alphanumeric, indices that fit
    [isize], unions of at least two) written without any forbidden construct:
    no recursive descent, no filter, no function call. *)
Theorem parse_rejects_forbidden s :
  utf8_valid s →
  ∃ r, parse s = Some r
       ∧ ∀ p, r = Ok p →
              Forall segment_wf p ∧ str_contains s ".." = false
              ∧ str_contains s "?" = false ∧ str_contains s "(" = false.
Proof.
  intros Hs. destruct (parse_total s) as [r Hr]. exists r. split; [done|]. intros p ->.
  unfold parse in Hr. destruct (next_is 36 _) eqn:H36; [|done].
  apply next_is_true in H36. cbn [snd] in H36.
  apply utf8_valid_bytes in Hs. rewrite H36 in Hs. apply (utf8_cut []) in Hs as [_ Hs]; [|done].
  apply parse_loop_Ok in Hr as (Hwf & ts & Hts & Hall); [|done|constructor].
  split; [done|]. unfold str_contains. rewrite H36. cbn [advance snd] in Hts. rewrite Hts.
  split_and!.
  - change (36%N :: concat ts) with ([36%N] ++ concat ts).
    change (str_bytes "..") with [46; 46]%N. rewrite infix_plain by set_solver.
    by apply segments_no_descent.
  - apply infix_one. rewrite not_elem_of_cons. split; [done|]. apply segments_without; auto.
  - apply infix_one. rewrite not_elem_of_cons. split; [done|]. apply segments_without; auto.
Qed.

(** C10: the parser inverts the canonical text: every well-formed path is
    accepted in the form [$.name[1][2:3][*][4,5]] and read back as itself. *)
Theorem parse_print_roundtrip p :
  Forall segment_wf p → parse (print_path p) = Some (Ok p).
Proof.
  intros Hp. pose proof (print_bytes p Hp) as Ha. unfold parse, print_path.
  rewrite str_bytes_of_bytes by (apply ascii_bytes_ok; by constructor).
  assert (∀ bs, next_is 36 (0, 36%N :: bs) = true) as H36.
  { intros bs. by apply bool_decide_eq_true_2. }
  cbv zeta. rewrite H36. apply (parse_loop_print _ 1 p []); [done|]. simpl. lia.
Qed.

(** C11: executing a path never panics (no slice is out of range) and gives
    the values the path denotes, depth first in document order: [null] for
    none, the value for one, an array for more. *)
Theorem execute_denotes {Num} (p : JsonPath) (root : Json Num) :
  execute p root = Some (collapse (denote p root)).
Proof. apply execute_eq. Qed.

(** selecting by a map gives an object with exactly the keys of the map,
    each with what its expression selects on its own, whatever order the map
    is iterated in; if it fails, it is with the error of one of the
    expressions. *)
Theorem select_map_per_key {Num} `{MapOrder} `{!MapOrderLaws} (response : Json Num) m :
  (∃ fields, apply_select response None (Some m) = Some (Ok (JObject fields))
     ∧ ∀ k v, json_get k (JObject fields) = Some v
              ↔ ∃ expr, m !! k = Some expr
                        ∧ apply_select response (Some expr) None = Some (Ok v))
  ∨ (∃ e k expr, apply_select response None (Some m) = Some (Err e)
                 ∧ m !! k = Some expr
                 ∧ apply_select response (Some expr) None = Some (Err e)).
Proof.
  cbn [apply_select].
  assert (NoDup (iter_order m).*1) as Hnd.
  { rewrite iter_order_perm. apply NoDup_fst_map_to_list. }
  destruct (select_entries_spec response (iter_order m) [] Hnd)
    as [(fields & -> & Hf)|(e & k & expr & -> & Hin & He)].
  - left. exists fields. split; [done|]. intros k v. rewrite Hf.
    setoid_rewrite elem_of_iter_order. split; [|by left]. by intros [|[_ ?]].
  - right. exists e, k, expr. by apply elem_of_iter_order in Hin.
Qed.

(** ** Instances *)

#[local] Existing Instances key_order key_order_laws.

Definition demo_json : Json N :=
  JObject [("items", JArray [JNumber 1%N; JNumber 2%N; JNumber 3%N]); ("text", JString "t")].

Example parse_ex :
  parse "$.items[-2:].tags[0, 3].*"
  = Some (Ok [Field "items"; Slice (Some (-2)%Z) None; Field "tags"; Union [0; 3]%Z; Wildcard]).
Proof. vm_compute. reflexivity. Qed.

Example parse_descent_ex :
  parse "$..name" = Some (Err (mkParseError 1 "recursive descent (..) is not allowed")).
Proof. vm_compute. reflexivity. Qed.

Example execute_ex :
  execute [Field "items"; Slice (Some (-2)%Z) None]
    (JObject [("items", JArray [JNumber 1; JNumber 2; JNumber 3])])
  = Some (JArray [JNumber 2; JNumber 3]).
Proof. vm_compute. reflexivity. Qed.

Lemma parse_rejects_forbidden_witness :
  ∃ r, parse "$.items[0:2]" = Some r
       ∧ ∀ p, r = Ok p →
              Forall segment_wf p ∧ str_contains "$.items[0:2]" ".." = false
              ∧ str_contains "$.items[0:2]" "?" = false
              ∧ str_contains "$.items[0:2]" "(" = false.
Proof.
  apply (parse_rejects_forbidden "$.items[0:2]"). exists (str_bytes "$.items[0:2]").
  split; [repeat constructor|vm_compute; reflexivity].
Defined.

Lemma parse_print_roundtrip_witness :
  parse "$.items[-1][:3][*][0,7]"
  = Some (Ok [Field "items"; Index (-1)%Z; Slice None (Some 3%Z); Wildcard; Union [0; 7]%Z]).
Proof.
  apply (parse_print_roundtrip
    [Field "items"; Index (-1)%Z; Slice None (Some 3%Z); Wildcard; Union [0; 7]%Z]).
  repeat constructor; discriminate.
Defined.

Lemma select_map_per_key_witness :
  ∃ v, apply_select demo_json None (Some {["last" := "$.items[-1]"; "text" := "$.text"]})
       = Some (Ok v).
Proof.
  destruct (select_map_per_key demo_json {["last" := "$.items[-1]"; "text" := "$.text"]})
    as [(fields & H & _)|(e & k & expr & H & _)].
  - eexists. exact H.
  - exfalso. revert H. vm_compute. discriminate.
Defined.
