(* ===== verification/Persister.v ===== *)
(** * The session persister

    [memory/src/memory_system/persister.rs], for one session id (every map of
    the persister is keyed by it, so sessions do not interact).  Threads are
    tasks that take turns; one step of a task is one access to the shared
    maps, one lock operation, or the start or end of a storage call.
    [standing] is taken as one step, and so are the three effects at the end
    of a write, which no other task orders itself by.

    A handle ([Arc<ArcSwap<ActiveSession>>]) is a number, its current content
    a version number; [alive] are the handles with a strong reference, so
    [Weak::upgrade] is membership.  A slot ([Arc<Slot>]) is its address in
    [slot_heap], a waiter the number of its channel.  The outcome of a storage
    call is the argument [outcome] of the step that ends it. *)

From stdpp Require Import gmap.
From S2P Require Import Prelude RustStd Collections F32 Types.

Definition SESSION_DELETED : string := "session was deleted".
Definition HANDLE_SUPERSEDED : string := "session handle was superseded by a newer load".

(** ** Data *)

Record Pending := mkPending {
  source : option N;
  p_updates : list ContextUpdate;
  p_removed : list Uuid;
  waiters : list N;
}.

Definition Pending_default : Pending := mkPending None [] [] [].

Definition Pending_is_empty (p : Pending) : bool :=
  match p with mkPending None [] [] [] => true | _ => false end.

Record Slot := mkSlot {
  locked : bool;
  pending : Pending;
  last_result : result unit string;
}.

Definition Slot_default : Slot := mkSlot false Pending_default (Ok tt).

Record Lineage := mkLineage {
  members : list (N * N);
  next_generation : N;
  deleted_below : N;
}.

Definition Lineage_default : Lineage := mkLineage [] 0 0.

Inductive Standing := Current | Superseded (newest : option N) | Deleted.

(** Finished storage calls; [retired]: the handles the deletion retired. *)
Inductive sink_event :=
| SinkWrite (handle version : N) (updates : list ContextUpdate) (removed : list Uuid)
    (outcome : result unit string)
| SinkDelete (retired : gset N) (outcome : result unit string).

Record SessionPersister := mkPersister {
  slots : option nat;
  slot_heap : list Slot;
  tombstones : option (list N);
  lineages : option Lineage;
  failed : option N;
  alive : gset N;
  contents : gmap N N;
  asked : list N;
  answers : list (N * result unit string);
  sink_log : list sink_event;
}.

Definition SessionPersister_new : SessionPersister :=
  mkPersister None [] None None None ∅ ∅ [] [] [].

Definition with_slots x σ := mkPersister x (slot_heap σ) (tombstones σ) (lineages σ) (failed σ)
  (alive σ) (contents σ) (asked σ) (answers σ) (sink_log σ).
Definition with_heap x σ := mkPersister (slots σ) x (tombstones σ) (lineages σ) (failed σ)
  (alive σ) (contents σ) (asked σ) (answers σ) (sink_log σ).
Definition with_tombstones x σ := mkPersister (slots σ) (slot_heap σ) x (lineages σ) (failed σ)
  (alive σ) (contents σ) (asked σ) (answers σ) (sink_log σ).
Definition with_lineages x σ := mkPersister (slots σ) (slot_heap σ) (tombstones σ) x (failed σ)
  (alive σ) (contents σ) (asked σ) (answers σ) (sink_log σ).
Definition with_failed x σ := mkPersister (slots σ) (slot_heap σ) (tombstones σ) (lineages σ) x
  (alive σ) (contents σ) (asked σ) (answers σ) (sink_log σ).
Definition with_handles x y σ := mkPersister (slots σ) (slot_heap σ) (tombstones σ) (lineages σ)
  (failed σ) x y (asked σ) (answers σ) (sink_log σ).
Definition with_asked x σ := mkPersister (slots σ) (slot_heap σ) (tombstones σ) (lineages σ)
  (failed σ) (alive σ) (contents σ) x (answers σ) (sink_log σ).
Definition log_event x σ := mkPersister (slots σ) (slot_heap σ) (tombstones σ) (lineages σ)
  (failed σ) (alive σ) (contents σ) (asked σ) (answers σ) (sink_log σ ++ [x]).

(** [waiter.send(result.clone())] to each. *)
Definition answer (ws : list N) (r : result unit string) σ :=
  mkPersister (slots σ) (slot_heap σ) (tombstones σ) (lineages σ) (failed σ) (alive σ)
    (contents σ) (asked σ) (answers σ ++ ((λ w, (w, r)) <$> ws)) (sink_log σ).

(** ** Slots *)

Definition slot_at (s : nat) σ : Slot := default Slot_default (slot_heap σ !! s).
Definition alter_slot (f : Slot → Slot) (s : nat) σ := with_heap (alter f s (slot_heap σ)) σ.
Definition set_locked (b : bool) (l : Slot) := mkSlot b (pending l) (last_result l).
Definition set_pending (p : Pending) (l : Slot) := mkSlot (locked l) p (last_result l).
Definition set_last_result (r : result unit string) (l : Slot) := mkSlot (locked l) (pending l) r.

(** A removal cancels a queued row of the same update. *)
Definition merge_pending (work p : Pending) : Pending :=
  let updates := p_updates p ++ p_updates work in
  mkPending
    (match source work with Some h => Some h | None => source p end)
    (match p_removed work with
     | [] => updates
     | _ => retain (λ u, negb (bool_decide (cu_id u ∈ p_removed work))) updates
     end)
    (p_removed p ++ p_removed work) (waiters p ++ waiters work).

(** ** Handles *)

Definition prune (live : gset N) (l : Lineage) : Lineage :=
  mkLineage (retain (λ m, bool_decide (m.1 ∈ live)) (members l)) (next_generation l)
    (deleted_below l).

Definition generation_of (h : N) (l : Lineage) : option N :=
  snd <$> find_first (λ m, N.eqb m.1 h) (members l).

(** [max_by_key] keeps the last of equal keys. *)
Definition newest_alive (live : gset N) (l : Lineage) : option (N * N) :=
  foldl (λ best m, if bool_decide (m.1 ∈ live)
                   then match best with
                        | Some b => if (m.2 <? b.2)%N then best else Some m
                        | None => Some m
                        end
                   else best) None (members l).

Definition register (h : N) σ : SessionPersister :=
  let l := prune (alive σ) (default Lineage_default (lineages σ)) in
  with_lineages (Some (mkLineage (members l ++ [(h, next_generation l)])
                         (next_generation l + 1) (deleted_below l))) σ.

(** Dead tombstones are swept on the way, and an empty list removed. *)
Definition sweep_tombstones σ : SessionPersister :=
  match tombstones σ with
  | None => σ
  | Some dead =>
    match retain (λ h, bool_decide (h ∈ alive σ)) dead with
    | [] => with_tombstones None σ
    | dead => with_tombstones (Some dead) σ
    end
  end.

Definition is_tombstoned (h : N) σ : bool :=
  match tombstones (sweep_tombstones σ) with
  | None => false
  | Some dead => existsb (N.eqb h) dead
  end.

Definition tombstone (h : N) σ : SessionPersister :=
  let dead := retain (λ x, bool_decide (x ∈ alive σ)) (default [] (tombstones σ)) in
  with_tombstones (Some (if existsb (N.eqb h) dead then dead else dead ++ [h])) σ.

Definition standing (h : N) σ : Standing :=
  if is_tombstoned h σ then Deleted
  else match lineages σ with
  | None => Current
  | Some l =>
    match generation_of h l with
    | None => Current
    | Some g =>
      if (g <? deleted_below l)%N then Deleted
      else if (g + 1 =? next_generation l)%N then Current
      else Superseded match newest_alive (alive σ) l with
                      | Some (n, g') => if (g <? g')%N then Some n else None
                      | None => None
                      end
    end
  end.

Definition is_deleted (h : N) σ : bool :=
  match standing h σ with Deleted => true | _ => false end.

(** ** Tasks *)

Inductive Task :=
| EnqueueStart (h : N) (updates : list ContextUpdate) (removed : list Uuid) (waiter : option N)
| EnqueueQueue (work : Pending)
| WriterLock (s : nat)
| WriterTake (s : nat)
| WriterTaken (s : nat) (batch : Pending)
| WriterJudge (s : nat) (batch : Pending) (registered : bool)
| Writing (s : nat) (h version : N) (batch : Pending)
| WriterUnlock (s : nat)
| WriterCheck (s : nat)
| WriterRecheck (s : nat)
| DeleteStart (live : option N)
| DeleteMark
| DeleteFailed (retired : gset N)
| DeleteFind (retired : gset N)
| DeleteBare (retired : gset N)
| DeleteLock (retired : gset N) (s : nat)
| Deleting (retired : gset N) (s : nat)
| DeleteUnregister (s : nat)
| DeleteTake (s : nat)
| DeleteJudge (s : nat) (leftover : Pending)
| DeleteQueue (s : nat) (leftover : Pending)
| DeleteUnlock (s : nat)
| ExclusiveFind
| ExclusiveLock (s : nat)
| ExclusiveHeld (s : nat).

(** [queue]: the merge and a new slot's registration are under the entry
    lock. *)
Definition queue (work : Pending) σ : SessionPersister * list Task :=
  match slots σ with
  | Some s => (alter_slot (λ l, set_pending (merge_pending work (pending l)) l) s σ, [])
  | None =>
    let s := length (slot_heap σ) in
    let slot := mkSlot false (merge_pending work Pending_default) (Ok tt) in
    (with_slots (Some s) (with_heap (slot_heap σ ++ [slot]) σ), [WriterLock s])
  end.

(** Waiting for the mutex: no step while it is held. *)
Definition lock (s : nat) (then_ : Task) σ : option (SessionPersister * list Task) :=
  if locked (slot_at s σ) then None else Some (alter_slot (set_locked true) s σ, [then_]).

Definition unlock (s : nat) σ : SessionPersister := alter_slot (set_locked false) s σ.

(** The mark of a deletion: every handle registered so far is below it. *)
Definition mark_deleted σ : SessionPersister :=
  let l := prune (alive σ) (default Lineage_default (lineages σ)) in
  with_lineages (Some (mkLineage (members l) (next_generation l) (next_generation l))) σ.

(** [write_batch] up to the storage call: what to write, or the outcome. *)
Definition judge (s : nat) (batch : Pending) (registered : bool) σ
    : N + result unit string :=
  match source batch with
  | None => if registered then inr (last_result (slot_at s σ)) else inr (Err SESSION_DELETED)
  | Some h =>
    if registered
    then match standing h σ with
         | Current => inl h
         | Superseded (Some newest) => inl newest
         | Superseded None => inr (Err HANDLE_SUPERSEDED)
         | Deleted => inr (Err SESSION_DELETED)
         end
    else inr (Err SESSION_DELETED)
  end.

Definition version_of (h : N) σ : N := default 0%N (contents σ !! h).

(** The end of a write: [failed], [last_result], the waiters. *)
Definition finish_write (s : nat) (h version : N) (batch : Pending)
    (outcome : result unit string) σ : SessionPersister :=
  let σ := log_event (SinkWrite h version (p_updates batch) (p_removed batch) outcome) σ in
  let σ := with_failed (if is_ok outcome then None else Some h) σ in
  answer (waiters batch) outcome (alter_slot (set_last_result outcome) s σ).

(** The handles a deletion has retired once it set its mark. *)
Definition retired_handles σ : gset N :=
  filter (λ h, is_deleted h σ = true) (alive σ).

(** [enqueue] up to the queueing. *)
Definition enqueue (h : N) (us : list ContextUpdate) (rm : list Uuid) (w : option N) σ
    : option (SessionPersister * list Task) :=
  let ws := option_list w in
  let swept := sweep_tombstones σ in
  match standing h σ with
  | Current => Some (swept, [EnqueueQueue (mkPending (Some h) us rm ws)])
  | Superseded (Some newest) =>
    Some (swept, [EnqueueQueue (mkPending (Some newest) us rm ws)])
  | Superseded None => Some (answer ws (Err HANDLE_SUPERSEDED) swept, [])
  | Deleted => Some (answer ws (Err SESSION_DELETED) swept, [])
  end.

(** One step of a task: the new state and what is left of the task, with the
    tasks it spawned.  [None]: the task has to wait. *)
Definition task_step (outcome : result unit string) (t : Task) σ
    : option (SessionPersister * list Task) :=
  match t with
  | EnqueueStart h us rm w => enqueue h us rm w σ
  | EnqueueQueue work => Some (queue work σ)
  | WriterLock s => lock s (WriterTake s) σ
  | WriterTake s =>
    Some (alter_slot (set_pending Pending_default) s σ,
          [WriterTaken s (pending (slot_at s σ))])
  | WriterTaken s batch => Some (σ, [WriterJudge s batch (bool_decide (slots σ = Some s))])
  | WriterJudge s batch registered =>
    let swept := if registered && bool_decide (is_Some (source batch))
                 then sweep_tombstones σ else σ in
    match judge s batch registered σ with
    | inl h => Some (swept, [Writing s h (version_of h σ) batch])
    | inr r => Some (answer (waiters batch) r swept, [WriterUnlock s])
    end
  | Writing s h version batch => Some (finish_write s h version batch outcome σ, [WriterUnlock s])
  | WriterUnlock s => Some (unlock s σ, [WriterCheck s])
  | WriterCheck s =>
    if bool_decide (slots σ = Some s) && Pending_is_empty (pending (slot_at s σ))
    then Some (with_slots None σ, []) else Some (σ, [WriterRecheck s])
  | WriterRecheck s =>
    if negb (bool_decide (slots σ = Some s)) && Pending_is_empty (pending (slot_at s σ))
    then Some (σ, []) else Some (σ, [WriterLock s])
  | DeleteStart live =>
    Some (match live with Some h => tombstone h σ | None => σ end, [DeleteMark])
  | DeleteMark =>
    let σ := mark_deleted σ in Some (σ, [DeleteFailed (retired_handles σ)])
  | DeleteFailed R => Some (with_failed None σ, [DeleteFind R])
  | DeleteFind R =>
    Some (σ, [match slots σ with Some s => DeleteLock R s | None => DeleteBare R end])
  | DeleteBare R => Some (log_event (SinkDelete R outcome) σ, [])
  | DeleteLock R s => lock s (Deleting R s) σ
  | Deleting R s => Some (log_event (SinkDelete R outcome) σ, [DeleteUnregister s])
  | DeleteUnregister s =>
    Some (if bool_decide (slots σ = Some s) then with_slots None σ else σ, [DeleteTake s])
  | DeleteTake s =>
    Some (alter_slot (set_pending Pending_default) s σ,
          [DeleteJudge s (pending (slot_at s σ))])
  | DeleteJudge s leftover =>
    match source leftover with
    | Some h =>
      let swept := sweep_tombstones σ in
      if is_deleted h σ
      then Some (answer (waiters leftover) (Err SESSION_DELETED) swept, [DeleteUnlock s])
      else Some (swept, [DeleteQueue s leftover])
    | None => Some (answer (waiters leftover) (Err SESSION_DELETED) σ, [DeleteUnlock s])
    end
  | DeleteQueue s leftover =>
    let '(σ, spawned) := queue leftover σ in Some (σ, DeleteUnlock s :: spawned)
  | DeleteUnlock s => Some (unlock s σ, [])
  | ExclusiveFind =>
    Some (σ, match slots σ with Some s => [ExclusiveLock s] | None => [] end)
  | ExclusiveLock s => lock s (ExclusiveHeld s) σ
  | ExclusiveHeld s => Some (unlock s σ, [])
  end.

(** ** The rest of the program *)

(** The handle a task keeps alive. *)
Definition task_handle (t : Task) : option N :=
  match t with
  | EnqueueStart h _ _ _ | Writing _ h _ _ => Some h
  | EnqueueQueue p | WriterTaken _ p | WriterJudge _ p _ | DeleteJudge _ p | DeleteQueue _ p =>
    source p
  | DeleteStart live => live
  | _ => None
  end.

(** [h] is held by a queued request or a running task. *)
Definition held (h : N) σ (ts : list Task) : Prop :=
  Some h ∈ (source ∘ pending <$> slot_heap σ) ∨ Some h ∈ (task_handle <$> ts).

#[global] Instance held_dec h σ ts : base.Decision (held h σ ts).
Proof. unfold held. apply _. Defined.

(** What callers do: load (and register) or build a handle, store a new
    version in it, release it, and call the persister. *)
Inductive event :=
| EvLoad (h : N)
| EvNew (h : N)
| EvStore (h : N)
| EvDrop (h : N)
| EvEnqueue (h : N) (updates : list ContextUpdate) (removed : list Uuid) (waiter : option N)
| EvDelete (live : option N)
| EvExclusive
| EvWaitQueued (waiter : N)
| EvRetryFailed (waiter : N).

(** The live handle of the last failed write. *)
Definition failed_handle σ : option N :=
  h ← failed σ; if bool_decide (h ∈ alive σ) then Some h else None.

(** The state after the event and the tasks it starts; [None]: it cannot
    happen.  [EvRetryFailed] is the retry in [flush_all] and [wait_idle]. *)
Definition event_step (ev : event) σ (ts : list Task) : option (SessionPersister * list Task) :=
  match ev with
  | EvLoad h | EvNew h =>
    if decide (contents σ !! h = None)
    then
      let σ := with_handles ({[h]} ∪ alive σ) (<[h := 0%N]> (contents σ)) σ in
      Some (match ev with EvLoad _ => register h σ | _ => σ end, [])
    else None
  | EvStore h =>
    if decide (h ∈ alive σ)
    then Some (with_handles (alive σ) (<[h := (version_of h σ + 1)%N]> (contents σ)) σ, [])
    else None
  | EvDrop h =>
    if decide (held h σ ts) then None
    else Some (with_handles (alive σ ∖ {[h]}) (contents σ) σ, [])
  | EvEnqueue h us rm w =>
    if decide (h ∈ alive σ)
    then Some (with_asked (asked σ ++ option_list w) σ, [EnqueueStart h us rm w]) else None
  | EvDelete live =>
    match live with
    | Some h => if decide (h ∈ alive σ) then Some (σ, [DeleteStart live]) else None
    | None => Some (σ, [DeleteStart live])
    end
  | EvExclusive => Some (σ, [ExclusiveFind])
  | EvWaitQueued w =>
    match slots σ with
    | Some s =>
      Some (with_asked (asked σ ++ [w])
              (alter_slot (λ l, set_pending
                 (merge_pending (mkPending None [] [] [w]) (pending l)) l) s σ), [])
    | None => Some (σ, [])
    end
  | EvRetryFailed w =>
    match failed σ, failed_handle σ with
    | Some _, Some h => Some (with_asked (asked σ ++ [w]) σ, [EnqueueStart h [] [] (Some w)])
    | Some _, None => Some (with_failed None σ, [])
    | None, _ => Some (σ, [])
    end
  end.

Definition has_unflushed σ : bool :=
  bool_decide (is_Some (slots σ)) || bool_decide (is_Some (failed σ)).

(** One of the tasks takes its turn. *)
Inductive move : SessionPersister * list Task → SessionPersister * list Task → Prop :=
| move_task outcome σ ts t rest σ' new :
    ts ≡ₚ t :: rest → task_step outcome t σ = Some (σ', new) → move (σ, ts) (σ', new ++ rest).

(** Any task, or the rest of the program, moves next. *)
Inductive step : SessionPersister * list Task → SessionPersister * list Task → Prop :=
| step_task c c' : move c c' → step c c'
| step_event ev σ ts σ' new :
    event_step ev σ ts = Some (σ', new) → step (σ, ts) (σ', new ++ ts).

Definition reachable (c : SessionPersister * list Task) : Prop :=
  rtc step (SessionPersister_new, []) c.

(** ** Schedules

    A schedule names the calls and whose turn it is (by its place in the list
    of tasks). *)

Inductive choice := Do (ev : event) | Turn (i : nat) (outcome : result unit string).

Definition play_one (x : choice) (c : SessionPersister * list Task)
    : option (SessionPersister * list Task) :=
  match x with
  | Do ev => '(σ', new) ← event_step ev c.1 c.2; Some (σ', new ++ c.2)
  | Turn i outcome =>
    t ← c.2 !! i; '(σ', new) ← task_step outcome t c.1; Some (σ', new ++ base.delete i c.2)
  end.

Definition play (xs : list choice) (c : SessionPersister * list Task)
    : option (SessionPersister * list Task) := try_fold (λ c x, play_one x c) c xs.

Definition is_turn (x : choice) : bool := match x with Turn _ _ => true | Do _ => false end.

Lemma play_one_move x c c' : is_turn x = true → play_one x c = Some c' → move c c'.
Proof.
  destruct c as [σ ts], x as [ev|i outcome]; simpl; intros Hx H; [done|].
  destruct (ts !! i) as [t|] eqn:Ht; simplify_eq/=.
  destruct (task_step outcome t σ) as [[σ' new]|] eqn:Hs; simplify_eq/=.
  apply (move_task outcome _ _ t); [|done]. by apply delete_Permutation.
Qed.

Lemma play_one_step x c c' : play_one x c = Some c' → step c c'.
Proof.
  destruct c as [σ ts], x as [ev|i outcome]; simpl; intros H.
  - destruct (event_step ev σ ts) as [[σ' new]|] eqn:He; simplify_eq/=. by apply step_event with ev.
  - by apply step_task, (play_one_move (Turn i outcome)).
Qed.

Lemma play_nsteps xs c c' :
  forallb is_turn xs = true → play xs c = Some c' → nsteps move (length xs) c c'.
Proof.
  unfold play. revert c. induction xs as [|x xs IH]; intros c Hx H; simpl in *;
    [by simplify_eq; constructor|].
  apply andb_true_iff in Hx as [Hx Hxs]. destruct (play_one x c) as [c1|] eqn:Hc; simplify_eq/=.
  econstructor; [by eapply play_one_move|by apply IH].
Qed.

Lemma play_reachable xs c : play xs (SessionPersister_new, []) = Some c → reachable c.
Proof.
  unfold reachable, play. generalize (SessionPersister_new, @nil Task).
  induction xs as [|x xs IH]; intros c0 H; simpl in H; [by simplify_eq|].
  destruct (play_one x c0) as [c1|] eqn:Hc; simplify_eq/=.
  eapply rtc_l; [by eapply play_one_step|by apply IH].
Qed.
