(* ===== verification/PersisterInv.v ===== *)
(** * The session persister: invariants

    Who holds which lock and which slot is registered ([slots_inv]), which
    handles live and which are retired ([handles_inv]), what runs beside a
    write ([writes_inv]), and where every waiter is ([waiters_inv]).  Each is
    kept by every step of every task and event. *)

From stdpp Require Import gmap.
From S2P Require Import Prelude RustStd Collections F32 Types Persister.

(** The branches of a task's step. *)
Ltac unfold_step H := cbn [task_step] in H; unfold enqueue in H.

(** ** Counting tasks *)

Definition count (P : Task → bool) (ts : list Task) : nat := length (filter (λ t, P t = true) ts).

Lemma count_cons P t ts : count P (t :: ts) = Nat.b2n (P t) + count P ts.
Proof. unfold count. rewrite filter_cons. by destruct (P t); case_decide. Qed.

Lemma count_app P ts us : count P (ts ++ us) = count P ts + count P us.
Proof. unfold count. by rewrite filter_app, length_app. Qed.

#[global] Instance count_perm P : Proper ((≡ₚ) ==> (=)) (count P).
Proof. intros ts us H. unfold count. by rewrite H. Qed.

Lemma count_elem P t ts : t ∈ ts → P t = true → 1 ≤ count P ts.
Proof.
  intros Hin Ht. apply list_elem_of_split in Hin as (a & b & ->).
  rewrite count_app, count_cons, Ht. simpl. lia.
Qed.

Lemma count_zero P ts : count P ts = 0 ↔ ∀ t, t ∈ ts → P t = false.
Proof.
  split.
  - intros Hc t Hin. destruct (P t) eqn:Ht; [|done]. pose proof (count_elem P t ts Hin Ht). lia.
  - intros H. induction ts as [|t ts IH]; [done|]. rewrite count_cons, H by by left.
    apply IH. intros u Hu. apply H. by right.
Qed.

Lemma count_mono P Q ts :
  (∀ t, t ∈ ts → P t = true → Q t = true) → count P ts ≤ count Q ts.
Proof.
  induction ts as [|t ts IH]; intros H; [done|]. rewrite !count_cons.
  pose proof (IH (λ u Hu, H u ltac:(by right))). pose proof (H t ltac:(by left)) as Ht.
  destruct (P t); simpl; [rewrite Ht by done; simpl|]; lia.
Qed.

(** ** Roles *)

(** The slot whose lock the task holds. *)
Definition holds (s : nat) (t : Task) : bool :=
  match t with
  | WriterTake s' | WriterTaken s' _ | WriterJudge s' _ _ | Writing s' _ _ _ | WriterUnlock s'
  | Deleting _ s' | DeleteUnregister s' | DeleteTake s' | DeleteJudge s' _ | DeleteQueue s' _
  | DeleteUnlock s' | ExclusiveHeld s' => Nat.eqb s s'
  | _ => false
  end.

Definition writer_of (s : nat) (t : Task) : bool :=
  match t with
  | WriterLock s' | WriterTake s' | WriterTaken s' _ | WriterJudge s' _ _ | Writing s' _ _ _
  | WriterUnlock s' | WriterCheck s' | WriterRecheck s' => Nat.eqb s s'
  | _ => false
  end.

Definition task_slot (t : Task) : option nat :=
  match t with
  | WriterLock s | WriterTake s | WriterTaken s _ | WriterJudge s _ _ | Writing s _ _ _
  | WriterUnlock s | WriterCheck s | WriterRecheck s
  | DeleteLock _ s | Deleting _ s | DeleteUnregister s | DeleteTake s | DeleteJudge s _
  | DeleteQueue s _ | DeleteUnlock s | ExclusiveLock s | ExclusiveHeld s => Some s
  | _ => None
  end.

(** The slot a writer found registered. *)
Definition registered_in (t : Task) : option nat :=
  match t with
  | WriterJudge s _ true | Writing s _ _ _ => Some s
  | _ => None
  end.

Lemma registered_roles t s :
  registered_in t = Some s → holds s t = true ∧ writer_of s t = true.
Proof.
  destruct t as [| | | | |? ? []| | | | | | | | | | | | | | | | | | |]; try done; simpl;
    intros [= ->]; by rewrite Nat.eqb_refl.
Qed.

(** ** Slots after the operations *)

Lemma sweep_slots σ : slots (sweep_tombstones σ) = slots σ.
Proof. unfold sweep_tombstones. by repeat case_match. Qed.
Lemma sweep_heap σ : slot_heap (sweep_tombstones σ) = slot_heap σ.
Proof. unfold sweep_tombstones. by repeat case_match. Qed.

Lemma slot_at_alter f s s' σ :
  s < length (slot_heap σ) →
  slot_at s' (alter_slot f s σ) = if decide (s = s') then f (slot_at s σ) else slot_at s' σ.
Proof.
  intros Hs. unfold slot_at, alter_slot. simpl. case_decide as Hd.
  - subst s'. rewrite list_lookup_alter_eq. by destruct (lookup_lt_is_Some_2 _ _ Hs) as [x ->].
  - by rewrite list_lookup_alter_ne.
Qed.

Lemma alter_heap_length f s σ : length (slot_heap (alter_slot f s σ)) = length (slot_heap σ).
Proof. apply length_alter. Qed.

(** ** Locks and registration *)

Record slots_inv σ ts : Prop := {
  si_locks s : count (holds s) ts = Nat.b2n (locked (slot_at s σ));
  si_writers s : count (writer_of s) ts ≤ Nat.b2n (bool_decide (s < length (slot_heap σ)));
  si_registered s : slots σ = Some s → count (writer_of s) ts = 1;
  si_range t s : t ∈ ts → task_slot t = Some s → s < length (slot_heap σ);
  si_found t s : t ∈ ts → registered_in t = Some s → slots σ = Some s;
}.

#[global] Instance slots_inv_perm σ : Proper ((≡ₚ) ==> iff) (slots_inv σ).
Proof.
  assert (∀ ts us, ts ≡ₚ us → slots_inv σ ts → slots_inv σ us) as Hp.
  { intros ts us H [H1 H2 H3 H4 H5]. split; intros *; rewrite <-H; eauto. }
  intros ts us H. split; by apply Hp.
Qed.

Lemma registered_range σ ts s : slots_inv σ ts → slots σ = Some s → s < length (slot_heap σ).
Proof.
  intros Hi Hs. pose proof (si_writers _ _ Hi s). rewrite (si_registered _ _ Hi s Hs) in *.
  destruct (bool_decide_reflect (s < length (slot_heap σ))); [done|simpl in *; lia].
Qed.

(** A step that moves no lock and no registration. *)
Lemma slots_frame σ σ' old new rest :
  slots_inv σ (old ++ rest) →
  slots σ' = slots σ → length (slot_heap σ') = length (slot_heap σ) →
  (∀ s, locked (slot_at s σ') = locked (slot_at s σ)) →
  (∀ s, count (holds s) new = count (holds s) old) →
  (∀ s, count (writer_of s) new = count (writer_of s) old) →
  (∀ t s, t ∈ new → task_slot t = Some s →
          slots σ = Some s ∨ ∃ t', t' ∈ old ∧ task_slot t' = Some s) →
  (∀ t s, t ∈ new → registered_in t = Some s →
          slots σ = Some s ∨ ∃ t', t' ∈ old ∧ registered_in t' = Some s) →
  slots_inv σ' (new ++ rest).
Proof.
  intros Hi Hs Hl Hlock Hh Hw Hr Hf.
  pose proof (λ s, registered_range _ _ s Hi) as Hreg.
  destruct Hi as [H1 H2 H3 H4 H5].
  split; intros *; rewrite ?Hs, ?Hl, ?Hlock, ?count_app, ?Hh, ?Hw, <-?count_app; auto.
  - intros [Hin|Hin]%elem_of_app Ht; [|apply (H4 t); [set_solver|done]].
    destruct (Hr t s Hin Ht) as [?|(t' & Hin' & Ht')]; [auto|].
    apply (H4 t'); [set_solver|done].
  - intros [Hin|Hin]%elem_of_app Ht; [|apply (H5 t); [set_solver|done]].
    destruct (Hf t s Hin Ht) as [?|(t' & Hin' & Ht')]; [auto|].
    apply (H5 t'); [set_solver|done].
Qed.

(** Taking the lock of [s]. *)
Lemma slots_lock σ t t' s rest :
  slots_inv σ (t :: rest) → locked (slot_at s σ) = false →
  task_slot t = Some s → task_slot t' = Some s → registered_in t' = None →
  (∀ s', holds s' t = false) → (∀ s', holds s' t' = Nat.eqb s' s) →
  (∀ s', writer_of s' t' = writer_of s' t) →
  slots_inv (alter_slot (set_locked true) s σ) (t' :: rest).
Proof.
  intros Hi Hl Ht Ht' Hf Hh Hh' Hw.
  pose proof (si_range _ _ Hi t s ltac:(by left) Ht) as Hs. destruct Hi as [H1 H2 H3 H4 H5].
  split; intros *; rewrite ?slot_at_alter, ?alter_heap_length by done.
  - specialize (H1 s0). rewrite count_cons, Hh in H1. rewrite count_cons, Hh'.
    case_decide as Hd; simpl in *.
    + subst s0. rewrite Nat.eqb_refl. rewrite Hl in H1. simpl in *. lia.
    + rewrite (proj2 (Nat.eqb_neq s0 s)) by done. simpl in *. lia.
  - specialize (H2 s0). rewrite count_cons in *. by rewrite Hw.
  - intros Hr. specialize (H3 s0 Hr). rewrite count_cons in *. by rewrite Hw.
  - intros [->|Hin]%elem_of_cons Hslot; [by simplify_eq|]. apply (H4 t0); [by right|done].
  - intros [->|Hin]%elem_of_cons Hreg; [congruence|]. apply (H5 t0); [by right|done].
Qed.

(** Releasing it. *)
Lemma slots_unlock σ t new s rest :
  slots_inv σ (t :: rest) →
  (∀ s', holds s' t = Nat.eqb s' s) → task_slot t = Some s →
  (∀ s', count (holds s') new = 0) →
  (∀ s', count (writer_of s') new = count (writer_of s') [t]) →
  (∀ t' s', t' ∈ new → task_slot t' = Some s' → s' = s) →
  (∀ t' s', t' ∈ new → registered_in t' = Some s' → False) →
  slots_inv (unlock s σ) (new ++ rest).
Proof.
  intros Hi Hh Ht Hn Hw Hr Hf. unfold unlock.
  pose proof (si_range _ _ Hi t s ltac:(by left) Ht) as Hs. destruct Hi as [H1 H2 H3 H4 H5].
  split; intros *; rewrite ?slot_at_alter, ?alter_heap_length by done.
  - specialize (H1 s0). rewrite count_cons, Hh in H1. rewrite count_app, Hn.
    case_decide as Hd; simpl in *.
    + subst s0. rewrite Nat.eqb_refl in H1. destruct (locked (slot_at s σ)); simpl in *; lia.
    + rewrite (proj2 (Nat.eqb_neq s0 s)) in H1 by done. simpl in *. lia.
  - specialize (H2 s0). rewrite count_app, Hw. by rewrite <-count_app.
  - intros Hreg. specialize (H3 s0 Hreg). rewrite count_app, Hw. by rewrite <-count_app.
  - intros [Hin|Hin]%elem_of_app Hslot; [by rewrite (Hr _ _ Hin Hslot)|].
    apply (H4 t0); [by right|done].
  - intros [Hin|Hin]%elem_of_app Hreg; [by destruct (Hf _ _ Hin Hreg)|].
    apply (H5 t0); [by right|done].
Qed.

(** Unregistering a slot none of whose writers relies on its registration. *)
Lemma slots_unregister σ ts s :
  slots_inv σ ts → slots σ = Some s → (∀ t, t ∈ ts → registered_in t ≠ Some s) →
  slots_inv (with_slots None σ) ts.
Proof.
  intros [H1 H2 H3 H4 H5] Hs Hno. split; simpl; try done.
  intros t s' Hin Hreg. pose proof (H5 t s' Hin Hreg). simplify_eq. by destruct (Hno t Hin).
Qed.

(** Queueing: into the registered slot, or into a new one with its writer. *)
Lemma slots_queue work σ ts σ' new :
  slots_inv σ ts → queue work σ = (σ', new) → slots_inv σ' (new ++ ts).
Proof.
  intros Hi. unfold queue. destruct (slots σ) as [s|] eqn:Hs; intros [= <- <-].
  - pose proof (registered_range _ _ _ Hi Hs) as Hr.
    apply (slots_frame σ _ [] []); simpl; try done; [apply length_alter| |set_solver|set_solver].
    intros s'. rewrite slot_at_alter by done. by case_decide; subst.
  - destruct Hi as [H1 H2 H3 H4 H5].
    assert (∀ s, locked (default Slot_default ((slot_heap σ ++
              [mkSlot false (merge_pending work Pending_default) (Ok tt)]) !! s))
            = locked (slot_at s σ)) as Hl.
    { intros s. unfold slot_at. destruct (decide (s < length (slot_heap σ))).
      - by rewrite lookup_app_l.
      - rewrite lookup_app_r, (lookup_ge_None_2 (slot_heap σ)) by lia.
        by destruct (s - length (slot_heap σ)) as [|[|?]]. }
    assert (∀ s, count (writer_of s) (WriterLock (length (slot_heap σ)) :: ts)
                 ≤ Nat.b2n (bool_decide (s < length (slot_heap σ) + 1))) as Hw.
    { intros s. specialize (H2 s). rewrite count_cons. simpl.
      destruct (Nat.eqb_spec s (length (slot_heap σ)));
        destruct (bool_decide_reflect (s < length (slot_heap σ)));
        destruct (bool_decide_reflect (s < length (slot_heap σ) + 1)); simpl in *; lia. }
    split; simpl; intros *; unfold slot_at; simpl; rewrite ?Hl, ?length_app; [|apply Hw|..].
    + rewrite count_cons. simpl. apply H1.
    + intros [= Heq]. specialize (Hw s). revert Hw. rewrite !count_cons. subst s. simpl.
      rewrite Nat.eqb_refl. rewrite bool_decide_eq_true_2 by lia. simpl. lia.
    + intros [->|Hin]%elem_of_cons Hslot; [simpl in Hslot; simplify_eq; simpl; lia|].
      pose proof (H4 t s Hin Hslot). lia.
    + intros [->|Hin]%elem_of_cons Hreg; [done|]. pose proof (H5 t s Hin Hreg). congruence.
Qed.

Lemma slot_at_sweep s σ : slot_at s (sweep_tombstones σ) = slot_at s σ.
Proof. unfold slot_at. by rewrite sweep_heap. Qed.

(** A writer of an unregistered slot ends. *)
Lemma slots_retire σ t s rest :
  slots_inv σ (t :: rest) → slots σ ≠ Some s → (∀ s', holds s' t = false) →
  (∀ s', writer_of s' t = Nat.eqb s' s) → slots_inv σ rest.
Proof.
  intros [H1 H2 H3 H4 H5] Hs Hh Hw. split; intros *.
  - rewrite <-H1, count_cons. by rewrite Hh.
  - rewrite <-H2, count_cons. lia.
  - intros Hreg. rewrite <-(H3 _ Hreg), count_cons, Hw.
    by rewrite (proj2 (Nat.eqb_neq _ _)) by congruence.
  - intros Hin. apply H4. by right.
  - intros Hin. apply H5. by right.
Qed.

(** Closes the side conditions of [slots_frame] for concrete tasks. *)
Ltac frame_side :=
  first
    [ by intros *; rewrite !count_cons
    | intros * [->|[]%not_elem_of_nil]%elem_of_cons; cbn [task_slot registered_in]; intros Heq;
      try discriminate; (by left) || (right; eexists; split; [left|exact Heq]) || congruence
    | by intros * []%not_elem_of_nil
    | apply alter_heap_length
    | by intros *; cbn; rewrite ?sweep_slots, ?sweep_heap, ?length_alter
    | by intros *; unfold slot_at; cbn; rewrite ?sweep_heap
    | idtac ].

Ltac frame_by old :=
  match goal with
  | H : slots_inv ?σ _ |- _ => apply (slots_frame σ _ old); try done; frame_side
  end.

Lemma slots_judge s batch registered σ σ' new rest :
  slots_inv σ (WriterJudge s batch registered :: rest) →
  task_step (Ok tt) (WriterJudge s batch registered) σ = Some (σ', new) →
  slots_inv σ' (new ++ rest).
Proof.
  intros Hi Hstep. unfold_step Hstep.
  set (swept := if registered && bool_decide (is_Some (source batch)) then _ else _) in Hstep.
  assert (slots swept = slots σ ∧ slot_heap swept = slot_heap σ) as [Hsw Hhe].
  { unfold swept. destruct (registered && _); by rewrite ?sweep_slots, ?sweep_heap. }
  assert (registered = true → slots σ = Some s) as Hreg.
  { intros ->. by apply (si_found _ _ Hi (WriterJudge s batch true)); [left|]. }
  destruct (judge s batch registered σ) as [h|r] eqn:Hj; injection Hstep as <- <-;
    apply (slots_frame σ _ [WriterJudge s batch registered]); try done;
    rewrite ?Hsw, ?Hhe; try done; try frame_side; try (by unfold slot_at; simpl; rewrite Hhe).
  intros t' s' [->|[]%not_elem_of_nil]%elem_of_cons. simpl. intros [= <-]. left. apply Hreg.
  unfold judge in Hj. by destruct registered, (source batch).
Qed.

Lemma slots_check s σ rest :
  slots_inv σ (WriterCheck s :: rest) → slots σ = Some s → slots_inv (with_slots None σ) rest.
Proof.
  intros Hi Hs. assert (count (writer_of s) rest = 0) as Hz.
  { pose proof (si_registered _ _ Hi s Hs) as H. rewrite count_cons in H. simpl in H.
    rewrite Nat.eqb_refl in H. simpl in H. lia. }
  apply (slots_retire _ (WriterCheck s) s); [|done..].
  apply (slots_unregister _ _ s); [done..|].
  intros t [->|Hin]%elem_of_cons Hreg; [done|].
  apply registered_roles in Hreg as [_ Hw]. by rewrite (proj1 (count_zero _ _) Hz t Hin) in Hw.
Qed.

Lemma slots_delete_unregister s σ rest :
  slots_inv σ (DeleteUnregister s :: rest) → slots σ = Some s →
  slots_inv (with_slots None σ) (DeleteUnregister s :: rest).
Proof.
  intros Hi Hs. apply (slots_unregister _ _ s); [done..|].
  intros t [->|Hin]%elem_of_cons Hreg; [done|].
  apply registered_roles in Hreg as [Hh _]. pose proof (count_elem _ _ _ Hin Hh).
  pose proof (si_locks _ _ Hi s) as Hl. rewrite count_cons in Hl. simpl in Hl.
  rewrite Nat.eqb_refl in Hl. destruct (locked _); simpl in Hl; lia.
Qed.

Lemma slots_delete_queue s leftover σ σ' new rest :
  slots_inv σ (DeleteQueue s leftover :: rest) → queue leftover σ = (σ', new) →
  slots_inv σ' ((DeleteUnlock s :: new) ++ rest).
Proof.
  intros Hi Hq. simpl. rewrite Permutation_middle.
  apply (slots_queue leftover σ); [|done].
  change (DeleteUnlock s :: rest) with ([DeleteUnlock s] ++ rest). frame_by [DeleteQueue s leftover].
Qed.

Lemma slots_task outcome t σ σ' new rest :
  slots_inv σ (t :: rest) → task_step outcome t σ = Some (σ', new) →
  slots_inv σ' (new ++ rest).
Proof.
  intros Hi Hstep.
  pose proof (λ s Hs, si_range _ _ Hi t s ltac:(by left) Hs) as Hr.
  assert (∀ f s s', task_slot t = Some s → (∀ l, locked (f l) = locked l) →
            locked (slot_at s' (alter_slot f s σ)) = locked (slot_at s' σ)) as Hkeep.
  { intros f s s' Hs Hf. rewrite slot_at_alter by by apply Hr. by case_decide; subst. }
  destruct t; unfold_step Hstep;
    try (unfold lock in Hstep; case_match eqn:Hl; [done|]);
    try (injection Hstep as <- <-).
  - destruct (standing h σ) as [|[]|]; injection Hstep as <- <-;
      frame_by [EnqueueStart h updates removed waiter].
  - injection Hstep as Hq. destruct (queue work σ) as [σq nq] eqn:Hqueue. simplify_eq.
    apply (slots_queue work σ); [|done].
    apply (slots_frame σ _ [EnqueueQueue work] []); try done; frame_side.
  - by apply (slots_lock σ (WriterLock s)).
  - frame_by [WriterTake s]. intros s'. by apply Hkeep.
  - frame_by [WriterTaken s batch].
    intros t' s' [->|[]%not_elem_of_nil]%elem_of_cons. simpl.
    case_bool_decide; [|done]. intros [= <-]. by left.
  - by apply (slots_judge s batch registered σ).
  - frame_by [Writing s h version batch].
    intros s'. exact (Hkeep (set_last_result outcome) s s' eq_refl (λ l, eq_refl)).
  - apply (slots_unlock σ (WriterUnlock s)); try done; frame_side.
  - destruct (bool_decide_reflect (slots σ = Some s)) as [Hs|Hs]; cbn [andb] in Hstep;
      [destruct (Pending_is_empty _)|]; injection Hstep as <- <-;
      [by apply slots_check with s|frame_by [WriterCheck s]..].
  - destruct (bool_decide_reflect (slots σ = Some s)) as [Hs|Hs]; cbn [negb andb] in Hstep;
      [|destruct (Pending_is_empty _)]; injection Hstep as <- <-;
      [frame_by [WriterRecheck s]| |frame_by [WriterRecheck s]].
    by apply (slots_retire σ (WriterRecheck s) s).
  - destruct live; [frame_by [DeleteStart (Some n)]|frame_by [DeleteStart None]].
  - frame_by [DeleteMark].
  - frame_by [DeleteFailed retired].
  - destruct (slots σ) eqn:Hs; frame_by [DeleteFind retired].
    intros t' s' [->|[]%not_elem_of_nil]%elem_of_cons. simpl. intros [= <-]. by left.
  - frame_by [DeleteBare retired].
  - by apply (slots_lock σ (DeleteLock retired s)).
  - frame_by [Deleting retired s].
  - case_bool_decide as Hs; [|frame_by [DeleteUnregister s]].
    apply (slots_delete_unregister _ _ _ Hi) in Hs.
    apply (slots_frame (with_slots None σ) _ [DeleteUnregister s]); try done; frame_side.
  - frame_by [DeleteTake s]. intros s'. by apply Hkeep.
  - destruct (source leftover) as [h|]; [destruct (is_deleted h σ)|]; injection Hstep as <- <-;
      frame_by [DeleteJudge s leftover].
  - destruct (queue leftover σ) as [σq nq] eqn:Hq. simplify_eq.
    by apply (slots_delete_queue s leftover σ).
  - apply (slots_unlock σ (DeleteUnlock s)); try done; frame_side.
  - destruct (slots σ) eqn:Hs; frame_by [ExclusiveFind].
    intros t' s' [->|[]%not_elem_of_nil]%elem_of_cons. simpl. intros [= <-]. by left.
  - by apply (slots_lock σ (ExclusiveLock s)).
  - apply (slots_unlock σ (ExclusiveHeld s)); try done; frame_side.
Qed.

Lemma slots_event ev σ ts σ' new :
  slots_inv σ ts → event_step ev σ ts = Some (σ', new) → slots_inv σ' (new ++ ts).
Proof.
  intros Hi Hstep. destruct ev; cbn [event_step] in Hstep.
  7: { injection Hstep as <- <-. frame_by (@nil Task). }
  7: { destruct (slots σ) as [s|] eqn:Hs; injection Hstep as <- <-; [|done].
       pose proof (registered_range _ _ _ Hi Hs) as Hr.
       apply (slots_frame σ _ [] []); try done; frame_side. intros s'.
       pose proof (slot_at_alter (λ l, set_pending
         (merge_pending (mkPending None [] [] [waiter]) (pending l)) l) s s' σ Hr) as He.
       unfold slot_at in *. cbn in *. rewrite He. by case_decide; subst. }
  all: repeat case_match; simplify_eq; frame_by (@nil Task).
Qed.

(** ** Invariants of the reachable states *)

(** An invariant of [step] that may rest on one already shown. *)
Lemma reachable_ind (I J : SessionPersister → list Task → Prop) :
  (∀ σ ts, reachable (σ, ts) → I σ ts) →
  Proper ((=) ==> (≡ₚ) ==> iff) J → J SessionPersister_new [] →
  (∀ outcome t σ rest σ' new, I σ (t :: rest) → J σ (t :: rest) →
     I σ' (new ++ rest) → task_step outcome t σ = Some (σ', new) → J σ' (new ++ rest)) →
  (∀ ev σ ts σ' new, I σ ts → J σ ts → I σ' (new ++ ts) →
     event_step ev σ ts = Some (σ', new) → J σ' (new ++ ts)) →
  Proper ((=) ==> (≡ₚ) ==> iff) I →
  ∀ σ ts, reachable (σ, ts) → J σ ts.
Proof.
  intros HI HJp HJ0 Ht He HIp σ ts Hr. change (J (σ, ts).1 (σ, ts).2).
  revert Hr. generalize (σ, ts). clear σ ts.
  apply (rtc_ind_r (λ c, J c.1 c.2)); [done|]. intros c c' Hr Hs IH.
  pose proof (HI c'.1 c'.2) as HI'. pose proof (HI c.1 c.2) as HIc.
  rewrite <-!surjective_pairing in *.
  specialize (HI' (rtc_r _ _ _ Hr Hs)). specialize (HIc Hr).
  destruct Hs as [c c' [outcome σ ts t rest σ' new Hp Hstep]|ev σ ts σ' new Hstep]; simpl in *.
  - rewrite Hp in IH, HIc. eauto.
  - eauto.
Qed.

Lemma slots_reachable σ ts : reachable (σ, ts) → slots_inv σ ts.
Proof.
  apply (reachable_ind (λ _ _, True)); try done.
  - intros ? σ' -> ts1 ts2 H. by apply slots_inv_perm.
  - split; intros *; simpl; try done; by intros []%not_elem_of_nil.
  - intros. by eapply slots_task.
  - intros. by eapply slots_event.
Qed.
