(* ===== verification/PersisterWaiters.v ===== *)
(** * The session persister: waiters

    Where the requests are ([waiters_inv]: each one asked for is answered,
    queued in a slot or carried by a task, exactly once) and which slots can
    hold requests ([pendings_inv]). *)

From stdpp Require Import gmap.
From S2P Require Import Prelude RustStd Collections F32 Types Persister PersisterInv.

(** ** Occurrences *)

Definition occ (w : N) (ws : list N) : nat := count_occ N.eq_dec ws w.
#[global] Arguments occ : simpl never.

Lemma occ_app w xs ys : occ w (xs ++ ys) = occ w xs + occ w ys.
Proof. apply count_occ_app. Qed.

Lemma occ_nil w : occ w [] = 0.
Proof. done. Qed.

Definition task_waiters (t : Task) : list N :=
  match t with
  | EnqueueStart _ _ _ w => option_list w
  | EnqueueQueue p | WriterTaken _ p | WriterJudge _ p _ | Writing _ _ _ p
  | DeleteJudge _ p | DeleteQueue _ p => waiters p
  | _ => []
  end.

Definition slots_waiters σ : list N := slot_heap σ ≫= waiters ∘ pending.
Definition answered σ : list N := (answers σ).*1.

Definition waiters_inv σ (ts : list Task) : Prop :=
  ∀ w, occ w (asked σ)
       = occ w (answered σ) + occ w (slots_waiters σ) + occ w (ts ≫= task_waiters).

#[global] Instance waiters_inv_perm : Proper ((=) ==> (≡ₚ) ==> iff) waiters_inv.
Proof.
  intros σ ? <- ts us H. unfold waiters_inv, occ.
  split; intros Hw w; rewrite Hw; f_equal; apply Permutation_count_occ; by rewrite H.
Qed.

Lemma slots_waiters_alter f s σ w :
  s < length (slot_heap σ) →
  occ w (slots_waiters (alter_slot f s σ)) + occ w (waiters (pending (slot_at s σ)))
  = occ w (slots_waiters σ) + occ w (waiters (pending (f (slot_at s σ)))).
Proof.
  intros Hs. unfold slots_waiters, slot_at, alter_slot. cbn [slot_heap with_heap].
  destruct (lookup_lt_is_Some_2 _ _ Hs) as [l Hl]. rewrite Hl. cbn [default].
  rewrite <-(take_drop_middle _ _ _ Hl) at 1 2.
  assert (s = length (take s (slot_heap σ)) + 0) as Hlen by (rewrite length_take_le; lia).
  rewrite Hlen at 1. rewrite alter_app_r. simpl.
  rewrite !bind_app, !occ_app. simpl. rewrite !occ_app. lia.
Qed.

Lemma answer_occ w ws r σ : occ w (answered (answer ws r σ)) = occ w (answered σ) + occ w ws.
Proof.
  unfold answered, answer. simpl. rewrite fmap_app, occ_app. f_equal.
  rewrite <-list_fmap_compose. by rewrite list_fmap_id.
Qed.

Lemma sweep_answers σ : answers (sweep_tombstones σ) = answers σ ∧ asked (sweep_tombstones σ) = asked σ.
Proof. unfold sweep_tombstones. by repeat case_match. Qed.

Lemma answered_sweep σ : answered (sweep_tombstones σ) = answered σ.
Proof. unfold answered. by destruct (sweep_answers σ) as [-> _]. Qed.
Lemma slots_waiters_sweep σ : slots_waiters (sweep_tombstones σ) = slots_waiters σ.
Proof. unfold slots_waiters. by rewrite sweep_heap. Qed.

(** Queueing moves the waiters of the work into a slot. *)
Lemma queue_waiters work σ ts σ' new w :
  slots_inv σ ts → queue work σ = (σ', new) →
  asked σ' = asked σ ∧ answered σ' = answered σ ∧ new ≫= task_waiters = [] ∧
  occ w (slots_waiters σ') = occ w (slots_waiters σ) + occ w (waiters work).
Proof.
  intros Hi. unfold queue. destruct (slots σ) as [s|] eqn:Hs; intros [= <- <-].
  - split_and!; [done..|]. pose proof (registered_range _ _ _ Hi Hs) as Hr.
    pose proof (slots_waiters_alter
      (λ l, set_pending (merge_pending work (pending l)) l) s σ w Hr) as H.
    simpl in H. rewrite occ_app in H. lia.
  - split_and!; [done..|]. unfold slots_waiters. simpl.
    rewrite bind_app, occ_app. simpl. by rewrite app_nil_r.
Qed.

(** ** A step keeps the requests *)

Definition kept (t : Task) σ σ' (new : list Task) : Prop :=
  ∀ w, occ w (asked σ') + occ w (answered σ) + occ w (slots_waiters σ) + occ w (task_waiters t)
       = occ w (asked σ) + occ w (answered σ') + occ w (slots_waiters σ')
         + occ w (new ≫= task_waiters).

(** Reduces [kept] to the lists of the old state. *)
Ltac kept_side :=
  intros w; unfold slots_waiters, answered; cbn;
  rewrite ?(proj1 (sweep_answers _)), ?(proj2 (sweep_answers _)), ?sweep_heap, ?app_nil_r,
    ?fmap_app, ?occ_app, <-?list_fmap_compose, ?list_fmap_id, ?occ_nil; try lia.

Ltac kept_alter f s :=
  kept_side;
  match goal with
  | Ha : (∀ f s w, _ → occ w (slots_waiters (alter_slot f s _)) + _ = _), w : N |- _ =>
    specialize (Ha f s w eq_refl); unfold slots_waiters in Ha; cbn in Ha; cbn;
    rewrite ?occ_nil in Ha; lia
  end.

Lemma kept_task outcome t σ σ' new rest :
  slots_inv σ (t :: rest) → task_step outcome t σ = Some (σ', new) → kept t σ σ' new.
Proof.
  intros Hi Hstep.
  pose proof (λ f s w Hs, slots_waiters_alter f s σ w (si_range _ _ Hi t s ltac:(by left) Hs))
    as Ha.
  destruct t; unfold_step Hstep;
    try (unfold lock in Hstep; case_match eqn:Hl; [done|]);
    try (injection Hstep as <- <-).
  - destruct (standing h σ) as [|[]|]; injection Hstep as <- <-; kept_side.
  - injection Hstep as Hq. intros w.
    destruct (queue_waiters work σ (EnqueueQueue work :: rest) σ' new w Hi Hq)
      as (-> & -> & -> & ->). simpl. rewrite occ_nil. lia.
  - kept_alter (set_locked true) s.
  - kept_alter (set_pending Pending_default) s.
  - kept_side.
  - destruct (judge s batch registered σ); injection Hstep as <- <-;
      destruct (registered && _); kept_side.
  - kept_alter (set_last_result outcome) s.
  - kept_alter (set_locked false) s.
  - case_match; injection Hstep as <- <-; kept_side.
  - case_match; injection Hstep as <- <-; kept_side.
  - destruct live; kept_side.
  - kept_side.
  - kept_side.
  - destruct (slots σ); kept_side.
  - kept_side.
  - kept_alter (set_locked true) s.
  - kept_side.
  - case_bool_decide; kept_side.
  - kept_alter (set_pending Pending_default) s.
  - destruct (source leftover) as [h|]; [destruct (is_deleted h σ)|]; injection Hstep as <- <-;
      kept_side.
  - destruct (queue leftover σ) as [σq nq] eqn:Hq. injection Hstep as <- <-. intros w.
    destruct (queue_waiters _ _ _ _ _ w Hi Hq) as (-> & -> & Hn & ->).
    change ((DeleteUnlock s :: nq) ≫= task_waiters) with (nq ≫= task_waiters).
    rewrite Hn, occ_nil. simpl. lia.
  - kept_alter (set_locked false) s.
  - destruct (slots σ); kept_side.
  - kept_alter (set_locked true) s.
  - kept_alter (set_locked false) s.
Qed.

Lemma kept_event ev σ ts σ' new w :
  slots_inv σ ts → event_step ev σ ts = Some (σ', new) →
  occ w (asked σ') + occ w (answered σ) + occ w (slots_waiters σ)
  = occ w (asked σ) + occ w (answered σ') + occ w (slots_waiters σ')
    + occ w (new ≫= task_waiters).
Proof.
  intros Hi Hstep. destruct ev; cbn [event_step] in Hstep.
  8: { destruct (slots σ) as [s|] eqn:Hs; injection Hstep as <- <-;
         [|by rewrite occ_nil; lia].
       pose proof (slots_waiters_alter (λ l, set_pending
         (merge_pending (mkPending None [] [] [waiter]) (pending l)) l) s σ w
         (registered_range _ _ _ Hi Hs)) as Ha.
       unfold slots_waiters, answered in *. cbn in *. rewrite !occ_app, ?occ_nil in *. lia. }
  all: repeat case_match; simplify_eq; unfold slots_waiters, answered; cbn;
    rewrite ?occ_app, ?occ_nil, ?app_nil_r; try lia.
Qed.

Lemma waiters_reachable σ ts : reachable (σ, ts) → waiters_inv σ ts.
Proof.
  apply (reachable_ind slots_inv).
  - apply slots_reachable.
  - apply _.
  - intros w. done.
  - intros outcome t τ rest τ' new Hs Hw _ Hstep w.
    pose proof (kept_task _ _ _ _ _ rest Hs Hstep w) as H. specialize (Hw w).
    rewrite bind_app, occ_app. cbn [mbind list_bind] in Hw. rewrite occ_app in Hw.
    unfold mbind in *. lia.
  - intros ev τ us τ' new Hs Hw _ Hstep w.
    pose proof (kept_event _ _ _ _ _ w Hs Hstep) as H. specialize (Hw w).
    rewrite bind_app, occ_app. lia.
  - intros τ ? <- us vs H. by apply slots_inv_perm.
Qed.

(** ** Which slots hold requests *)

Definition has_work (s : nat) σ : bool := negb (Pending_is_empty (pending (slot_at s σ))).

Lemma merge_is_empty work p :
  Pending_is_empty (merge_pending work p) = Pending_is_empty work && Pending_is_empty p.
Proof.
  destruct work as [[h|] wu wr ww], p as [[h'|] pu pr pw]; unfold merge_pending; simpl; try done;
    destruct wr, wu, ww, pu, pr, pw; simpl; try done; by case_match.
Qed.
#[global] Arguments merge_pending : simpl never.

Record pendings_inv σ (ts : list Task) : Prop := {
  pi_slot s : has_work s σ = true → slots σ = Some s ∨ DeleteTake s ∈ ts;
  pi_take s : DeleteTake s ∈ ts → slots σ ≠ Some s;
  pi_recheck s : WriterRecheck s ∈ ts → slots σ = Some s → has_work s σ = true;
}.

#[global] Instance pendings_inv_perm : Proper ((=) ==> (≡ₚ) ==> iff) pendings_inv.
Proof.
  assert (∀ σ ts us, ts ≡ₚ us → pendings_inv σ ts → pendings_inv σ us) as Hp.
  { intros σ ts us H [H1 H2 H3]. split; intros *; rewrite <-H; auto. }
  intros σ ? <- ts us H. split; by apply Hp.
Qed.

(** The tasks [pendings_inv] speaks of. *)
Definition watched (t : Task) : bool :=
  match t with DeleteTake _ | WriterRecheck _ => true | _ => false end.

(** A step that leaves the registration and the pending work alone, and may
    end a recheck. *)
Lemma pendings_frame σ σ' t new rest :
  pendings_inv σ (t :: rest) → (∀ s, t ≠ DeleteTake s) →
  slots σ' = slots σ → (∀ s, pending (slot_at s σ') = pending (slot_at s σ)) →
  (∀ u, u ∈ new → watched u = false) →
  pendings_inv σ' (new ++ rest).
Proof.
  intros [H1 H2 H3] Ht Hs Hp Hn.
  assert (∀ u, watched u = true → u ∈ new ++ rest → u ∈ t :: rest) as Hin.
  { intros u Hu [Hu'|Hu']%elem_of_app; [|by right]. apply Hn in Hu'. congruence. }
  split; intros s; unfold has_work in *; rewrite ?Hs, ?Hp.
  - intros [?|Hd]%H1; [by left|right]. apply elem_of_cons in Hd as [Hd|Hd]; [|set_solver].
    by destruct (Ht s).
  - intros Hu. by apply H2, Hin.
  - intros Hu. by apply H3, Hin.
Qed.

Lemma has_work_alter f s s' σ :
  s < length (slot_heap σ) →
  has_work s' (alter_slot f s σ)
  = if decide (s = s') then negb (Pending_is_empty (pending (f (slot_at s σ)))) else has_work s' σ.
Proof. intros Hs. unfold has_work. rewrite slot_at_alter by done. by case_decide. Qed.

(** The work of a slot being taken by its writer. *)
Lemma pendings_writer_take s σ rest :
  slots_inv σ (WriterTake s :: rest) → pendings_inv σ (WriterTake s :: rest) → ∀ p,
  pendings_inv (alter_slot (set_pending Pending_default) s σ) (WriterTaken s p :: rest).
Proof.
  intros Hi [H1 H2 H3] p.
  pose proof (si_range _ _ Hi (WriterTake s) s ltac:(by left) eq_refl) as Hs.
  split; intros s'; rewrite ?has_work_alter by done; simpl.
  - case_decide; [done|]. intros [?|Hin]%H1; [by left|right]. set_solver.
  - intros Hin. apply H2. set_solver.
  - intros Hin Hreg. case_decide as Hd; [|apply H3; [set_solver|done]].
    subst s'. pose proof (si_writers _ _ Hi s) as Hw.
    apply elem_of_cons in Hin as [?|Hin]; [done|].
    pose proof (count_elem (writer_of s) _ _ Hin (Nat.eqb_refl s)).
    rewrite count_cons in Hw. simpl in Hw. rewrite Nat.eqb_refl in Hw.
    destruct (bool_decide _); simpl in Hw; lia.
Qed.

(** Or by a deletion, which has unregistered the slot. *)
Lemma pendings_delete_take s σ rest :
  slots_inv σ (DeleteTake s :: rest) → pendings_inv σ (DeleteTake s :: rest) → ∀ p,
  pendings_inv (alter_slot (set_pending Pending_default) s σ) (DeleteJudge s p :: rest).
Proof.
  intros Hi [H1 H2 H3] p.
  pose proof (si_range _ _ Hi (DeleteTake s) s ltac:(by left) eq_refl) as Hs.
  split; intros s'; rewrite ?has_work_alter by done; simpl.
  - case_decide; [done|]. intros [?|Hin]%H1; [by left|right]. set_solver.
  - intros Hin. apply H2. set_solver.
  - intros Hin Hreg. case_decide as Hd; [|apply H3; [set_solver|done]].
    subst s'. destruct (H2 s); [by left|done].
Qed.

Lemma pendings_unregister σ s ts :
  pendings_inv σ ts → slots σ = Some s → has_work s σ = false →
  pendings_inv (with_slots None σ) ts.
Proof.
  intros [H1 H2 H3] Hs Hw. split; simpl; try done. intros s' Hw'.
  change (has_work s' σ = true) in Hw'. destruct (H1 s' Hw'); [|by right]. congruence.
Qed.

Lemma pendings_queue work σ ts σ' new :
  slots_inv σ ts → pendings_inv σ ts → Pending_is_empty work = false →
  queue work σ = (σ', new) → pendings_inv σ' (new ++ ts).
Proof.
  intros Hi Hp Hw. unfold queue. destruct (slots σ) as [s|] eqn:Hs; intros [= <- <-].
  - pose proof (registered_range _ _ _ Hi Hs) as Hr. destruct Hp as [H1 H2 H3].
    split; intros s'; rewrite ?has_work_alter by done;
      cbn [pending set_pending]; rewrite ?merge_is_empty, ?Hw; cbn [andb negb].
    + case_decide; [by subst; left|apply H1].
    + apply H2.
    + intros Hin Hreg. case_decide; [done|by apply H3].
  - destruct Hp as [H1 H2 H3].
    assert (∀ s, has_work s (with_slots (Some (length (slot_heap σ))) (with_heap (slot_heap σ ++
              [mkSlot false (merge_pending work Pending_default) (Ok tt)]) σ))
            = has_work s σ || bool_decide (s = length (slot_heap σ))) as Hl.
    { intros s. unfold has_work, slot_at. simpl.
      destruct (decide (s < length (slot_heap σ))) as [?|Hge].
      - rewrite lookup_app_l by done. rewrite bool_decide_eq_false_2 by lia.
        by rewrite orb_false_r.
      - rewrite lookup_app_r, (lookup_ge_None_2 (slot_heap σ)) by lia. simpl.
        case_bool_decide as Hd.
        + subst. rewrite Nat.sub_diag. cbn [lookup list_lookup default id pending].
          by rewrite merge_is_empty, Hw.
        + by destruct (s - length (slot_heap σ)) as [|[|?]] eqn:?; [lia| |]. }
    assert (∀ u, watched u = true → u ∈ [WriterLock (length (slot_heap σ))] ++ ts → u ∈ ts) as Hin.
    { intros u Hu [->%list_elem_of_singleton|Hu']%elem_of_app; done. }
    split; intros s; rewrite ?Hl; simpl.
    + rewrite orb_true_iff, bool_decide_eq_true. intros [[?|Hd]%H1| ->]; [congruence| |by left].
      right. by right.
    + intros Ht Heq. apply Hin in Ht; [|done].
      pose proof (si_range _ _ Hi _ s Ht eq_refl). simplify_eq. lia.
    + intros Ht Heq. apply Hin in Ht; [|done].
      pose proof (si_range _ _ Hi _ s Ht eq_refl). simplify_eq. lia.
Qed.

(** What tasks queue is never empty. *)
Definition queues (t : Task) : bool :=
  match t with
  | EnqueueQueue p | DeleteQueue _ p => Pending_is_empty p
  | _ => false
  end.

Definition queues_inv (_ : SessionPersister) (ts : list Task) : Prop :=
  ∀ t, t ∈ ts → queues t = false.

#[global] Instance queues_inv_perm : Proper ((=) ==> (≡ₚ) ==> iff) queues_inv.
Proof. intros σ ? <- ts us H. unfold queues_inv. by setoid_rewrite H. Qed.

Lemma queues_task outcome t σ σ' new u :
  task_step outcome t σ = Some (σ', new) → u ∈ new → queues u = false.
Proof.
  intros Hstep Hu. destruct t; unfold_step Hstep; unfold lock in Hstep;
    try (unfold queue in Hstep);
    repeat case_match; simplify_eq;
    repeat (apply elem_of_cons in Hu as [->|Hu]); try by apply not_elem_of_nil in Hu.
  all: try done.
  unfold queues. destruct leftover; simpl in *; by simplify_eq.
Qed.

Lemma queues_event ev σ ts σ' new u :
  event_step ev σ ts = Some (σ', new) → u ∈ new → queues u = false.
Proof.
  intros Hstep Hu. destruct ev; cbn [event_step] in Hstep; repeat case_match; simplify_eq;
    repeat (apply elem_of_cons in Hu as [->|Hu]); by try apply not_elem_of_nil in Hu.
Qed.

Ltac pend_frame :=
  match goal with
  | H : pendings_inv ?σ (?t :: _) |- _ =>
    apply (pendings_frame σ _ t); try done;
      try (by intros u [->|[]%not_elem_of_nil]%elem_of_cons);
      try (by intros u []%not_elem_of_nil);
      try (by intros; cbn; rewrite ?sweep_slots);
      try (by intros; unfold slot_at; cbn; rewrite ?sweep_heap)
  end.

Lemma pendings_enqueue work σ σ' new rest :
  slots_inv σ (EnqueueQueue work :: rest) → pendings_inv σ (EnqueueQueue work :: rest) →
  Pending_is_empty work = false → queue work σ = (σ', new) → pendings_inv σ' (new ++ rest).
Proof.
  intros Hi Hp Hw Hq. apply (pendings_queue work σ); try done.
  - change rest with ([] ++ rest). frame_by [EnqueueQueue work].
  - change rest with ([] ++ rest). pend_frame.
Qed.

Lemma pendings_delete_queue s leftover σ σ' new rest :
  slots_inv σ (DeleteQueue s leftover :: rest) → pendings_inv σ (DeleteQueue s leftover :: rest) →
  Pending_is_empty leftover = false → queue leftover σ = (σ', new) →
  pendings_inv σ' ((DeleteUnlock s :: new) ++ rest).
Proof.
  intros Hi Hp Hw Hq. simpl. rewrite Permutation_middle.
  apply (pendings_queue leftover σ); try done;
    change (DeleteUnlock s :: rest) with ([DeleteUnlock s] ++ rest).
  - frame_by [DeleteQueue s leftover].
  - pend_frame.
Qed.

Lemma pendings_recheck s σ rest :
  pendings_inv σ (WriterCheck s :: rest) → (slots σ = Some s → has_work s σ = true) →
  pendings_inv σ (WriterRecheck s :: rest).
Proof.
  intros [H1 H2 H3] Hw. split; intros s'.
  - intros [?|Hin]%H1; [by left|right; set_solver].
  - intros Hin. apply H2. set_solver.
  - intros [[= ->]|Hin]%elem_of_cons; [done|]. apply H3. by right.
Qed.

Lemma pendings_delete_unregister s σ rest :
  pendings_inv σ (DeleteUnregister s :: rest) →
  pendings_inv (if bool_decide (slots σ = Some s) then with_slots None σ else σ)
    (DeleteTake s :: rest).
Proof.
  intros [H1 H2 H3]. case_bool_decide as Hs; split; intros s'; simpl; try done.
  - intros [Hd|Hin]%H1; [|right; set_solver]. right. simplify_eq. by left.
  - intros [?|Hin]%H1; [by left|right; set_solver].
  - intros [[= ->]|Hin]%elem_of_cons; [done|]. apply H2. by right.
  - intros Hin. apply H3. set_solver.
Qed.

Lemma pendings_task outcome t σ σ' new rest :
  slots_inv σ (t :: rest) → queues t = false → pendings_inv σ (t :: rest) →
  task_step outcome t σ = Some (σ', new) → pendings_inv σ' (new ++ rest).
Proof.
  intros Hi Hq Hp Hstep.
  assert (∀ f s s', task_slot t = Some s → (∀ l, pending (f l) = pending l) →
            pending (slot_at s' (alter_slot f s σ)) = pending (slot_at s' σ)) as Hkeep.
  { intros f s s' Hs Hf. rewrite slot_at_alter by by eapply si_range; [|left|].
    by case_decide; subst. }
  destruct t; unfold_step Hstep;
    try (unfold lock in Hstep; case_match eqn:Hl; [done|]);
    try (injection Hstep as <- <-).
  - destruct (standing h σ) as [|[]|]; injection Hstep as <- <-; pend_frame.
  - injection Hstep as Hqu. destruct (queue work σ) as [σq nq] eqn:Hqueue. simplify_eq.
    by apply (pendings_enqueue work σ).
  - pend_frame. intros s'. by apply Hkeep.
  - by apply pendings_writer_take.
  - pend_frame.
  - destruct (judge s batch registered σ); injection Hstep as <- <-;
      destruct (registered && _); pend_frame.
  - pend_frame. intros s'. exact (Hkeep (set_last_result outcome) s s' eq_refl (λ l, eq_refl)).
  - pend_frame. intros s'. by apply Hkeep.
  - destruct (bool_decide_reflect (slots σ = Some s)) as [Hs|Hs]; cbn [andb] in Hstep;
      [destruct (Pending_is_empty _) eqn:He|]; injection Hstep as <- <-.
    + apply (pendings_unregister _ s rest); [|done|unfold has_work; by rewrite He].
      change rest with ([] ++ rest). pend_frame.
    + apply pendings_recheck; [done|]. intros _. unfold has_work. by rewrite He.
    + by apply pendings_recheck.
  - case_match; injection Hstep as <- <-; pend_frame.
  - destruct live; pend_frame.
  - pend_frame.
  - pend_frame.
  - destruct (slots σ) eqn:?; pend_frame.
  - pend_frame.
  - pend_frame. intros s'. by apply Hkeep.
  - pend_frame.
  - by apply pendings_delete_unregister.
  - by apply pendings_delete_take.
  - destruct (source leftover) as [h|]; [destruct (is_deleted h σ)|]; injection Hstep as <- <-;
      pend_frame.
  - destruct (queue leftover σ) as [σq nq] eqn:Hqueue. simplify_eq.
    by apply (pendings_delete_queue s leftover σ).
  - pend_frame. intros s'. by apply Hkeep.
  - destruct (slots σ) eqn:?; pend_frame.
  - pend_frame. intros s'. by apply Hkeep.
  - pend_frame. intros s'. by apply Hkeep.
Qed.

Lemma pendings_event ev σ ts σ' new :
  slots_inv σ ts → pendings_inv σ ts → event_step ev σ ts = Some (σ', new) →
  pendings_inv σ' (new ++ ts).
Proof.
  intros Hi Hp Hstep.
  assert (∀ σ', slots σ' = slots σ → slot_heap σ' = slot_heap σ → ∀ new,
            (∀ u, u ∈ new → watched u = false) → pendings_inv σ' (new ++ ts)) as Hframe.
  { intros σ1 Hs Hh new1 Hn. change (new1 ++ ts) with (new1 ++ ([] ++ ts)).
    apply (pendings_frame σ _ ExclusiveFind); try done.
    - destruct Hp as [H1 H2 H3]. split; intros s; [intros [?|?]%H1; [by left|right; by right]|..].
      + intros [?|?]%elem_of_cons; [done|by apply H2].
      + intros [?|?]%elem_of_cons; [done|by apply H3].
    - intros s. unfold slot_at. by rewrite Hh. }
  destruct ev; cbn [event_step] in Hstep.
  8: { destruct (slots σ) as [s|] eqn:Hs; injection Hstep as <- <-; [|exact Hp].
       set (work := mkPending None [] [] [waiter]).
       destruct (queue work σ) as [σq nq] eqn:Hq.
       pose proof (pendings_queue work σ ts σq nq Hi Hp eq_refl Hq) as H.
       unfold queue in Hq. rewrite Hs in Hq. injection Hq as <- <-.
       by destruct H as [H1 H2 H3]; split. }
  all: repeat case_match; simplify_eq; apply Hframe; try done;
    by intros u; rewrite ?list_elem_of_singleton, ?elem_of_nil; try intros ->.
Qed.

Lemma queues_reachable σ ts : reachable (σ, ts) → queues_inv σ ts.
Proof.
  apply (reachable_ind (λ _ _, True)); try done.
  - apply _.
  - by intros t ?%not_elem_of_nil.
  - intros outcome t τ rest τ' new _ Hq _ Hstep u [Hu|Hu]%elem_of_app.
    + by eapply queues_task.
    + apply Hq. by right.
  - intros ev τ us τ' new _ Hq _ Hstep u [Hu|Hu]%elem_of_app; [by eapply queues_event|auto].
Qed.

Lemma pendings_reachable σ ts : reachable (σ, ts) → pendings_inv σ ts.
Proof.
  apply (reachable_ind (λ σ ts, slots_inv σ ts ∧ queues_inv σ ts)).
  - intros τ us H. split; [by apply slots_reachable|by apply queues_reachable].
  - apply _.
  - split; intros s; simpl; [|by intros ?%not_elem_of_nil..].
    by intros.
  - intros outcome t τ rest τ' new [Hs Hq] Hp _ Hstep.
    apply (pendings_task outcome t τ); try done. apply Hq. by left.
  - intros ev τ us τ' new [Hs _] Hp _ Hstep. by apply (pendings_event ev τ).
  - intros τ ? <- us vs H. by rewrite H.
Qed.
