(* ===== verification/PersisterDrain.v ===== *)
(** * The session persister: running to the end

    The measure that every step of a task uses up ([remaining]), the task
    that can always move ([some_task_moves]), and what both give: without new
    calls the persister stops, with every request answered. *)

From stdpp Require Import gmap list_numbers.
From S2P Require Import Prelude RustStd Collections F32 Types.
From S2P Require Import Persister PersisterInv PersisterWaiters.

(** ** Sums *)

Lemma sum_list_with_mono {A} (f g : A → nat) xs :
  (∀ x, x ∈ xs → f x ≤ g x) → sum_list_with f xs ≤ sum_list_with g xs.
Proof.
  induction xs as [|x xs IH]; intros H; simpl; [done|].
  pose proof (H x ltac:(by left)). pose proof (IH (λ y Hy, H y ltac:(by right))). lia.
Qed.

(** Only the term of [x] may have grown. *)
Lemma sum_list_with_but (f g : nat → nat) x n :
  x < n → (∀ y, y ≠ x → f y ≤ g y) →
  sum_list_with f (seq 0 n) + g x ≤ sum_list_with g (seq 0 n) + f x.
Proof.
  intros Hx H. replace n with (x + S (n - x - 1)) by lia.
  rewrite seq_app, !sum_list_with_app. simpl.
  pose proof (sum_list_with_mono f g (seq 0 x)) as H1.
  pose proof (sum_list_with_mono f g (seq (S x) (n - x - 1))) as H2.
  assert (∀ y, y ∈ seq 0 x → f y ≤ g y) as Ha by (intros y [? ?]%elem_of_seq; apply H; lia).
  assert (∀ y, y ∈ seq (S x) (n - x - 1) → f y ≤ g y) as Hb
    by (intros y [? ?]%elem_of_seq; apply H; lia).
  specialize (H1 Ha). specialize (H2 Hb). lia.
Qed.

(** ** The work that is left

    Each task has a weight that its steps use up; work pending in a slot
    weighs as much as a round of a writer, unless a writer is about to take
    it. *)

Definition task_weight (t : Task) : nat :=
  match t with
  | EnqueueStart _ _ _ _ => 10 | EnqueueQueue _ => 9
  | WriterLock _ => 8 | WriterTake _ => 7 | WriterTaken _ _ => 6 | WriterJudge _ _ _ => 5
  | Writing _ _ _ _ => 4 | WriterUnlock _ => 3 | WriterCheck _ => 2 | WriterRecheck _ => 1
  | DeleteStart _ => 19 | DeleteMark => 18 | DeleteFailed _ => 17 | DeleteFind _ => 16
  | DeleteBare _ => 15 | DeleteLock _ _ => 15 | Deleting _ _ => 14 | DeleteUnregister _ => 13
  | DeleteTake _ => 12 | DeleteJudge _ _ => 11 | DeleteQueue _ _ => 10 | DeleteUnlock _ => 1
  | ExclusiveFind => 3 | ExclusiveLock _ => 2 | ExclusiveHeld _ => 1
  end.

Definition claims (s : nat) (t : Task) : bool :=
  match t with WriterLock s' | WriterTake s' => Nat.eqb s s' | _ => false end.

Definition unclaimed σ ts (s : nat) : nat :=
  if has_work s σ && (count (claims s) ts =? 0) then 8 else 0.

Definition slots_work σ ts : nat := sum_list_with (unclaimed σ ts) (seq 0 (length (slot_heap σ))).

Definition remaining σ (ts : list Task) : nat := sum_list_with task_weight ts + slots_work σ ts.

#[global] Instance remaining_perm : Proper ((=) ==> (≡ₚ) ==> (=)) remaining.
Proof.
  intros σ ? <- ts us H. unfold remaining, slots_work. f_equal; [by rewrite H|].
  unfold unclaimed. apply Nat.le_antisymm; apply sum_list_with_mono; intros s _; by rewrite H.
Qed.

Lemma slots_work_mono σ σ' ts ts' :
  length (slot_heap σ') = length (slot_heap σ) →
  (∀ s, unclaimed σ' ts' s ≤ unclaimed σ ts s) → slots_work σ' ts' ≤ slots_work σ ts.
Proof. intros Hl H. unfold slots_work. rewrite Hl. by apply sum_list_with_mono. Qed.

Lemma unclaimed_bound σ ts s : unclaimed σ ts s ≤ 8.
Proof. unfold unclaimed. case_match; lia. Qed.

(** A step of a task that only uses up weight. *)
Lemma remaining_frame σ σ' t new rest :
  length (slot_heap σ') = length (slot_heap σ) →
  (∀ s, has_work s σ' = true → has_work s σ = true) →
  (∀ s, has_work s σ' = true → count (claims s) new = count (claims s) [t]) →
  sum_list_with task_weight new < task_weight t →
  remaining σ' (new ++ rest) < remaining σ (t :: rest).
Proof.
  intros Hl Hw Hc Hlt. unfold remaining. rewrite sum_list_with_app. simpl.
  enough (slots_work σ' (new ++ rest) ≤ slots_work σ (t :: rest)) by lia.
  apply slots_work_mono; [done|]. intros s. unfold unclaimed.
  destruct (has_work s σ') eqn:Hs; [|simpl; lia]. rewrite (Hw s Hs). simpl.
  change (t :: rest) with ([t] ++ rest). by rewrite !count_app, (Hc s Hs).
Qed.

(** Queueing adds one round at most. *)
Lemma remaining_queue work σ ts σ' new :
  slots_inv σ ts → queue work σ = (σ', new) → remaining σ' (new ++ ts) ≤ remaining σ ts + 8.
Proof.
  intros Hi. unfold queue. destruct (slots σ) as [s|] eqn:Hs; intros [= <- <-]; unfold remaining.
  - pose proof (registered_range _ _ _ Hi Hs) as Hr. simpl. unfold slots_work.
    rewrite alter_heap_length.
    set (σ' := alter_slot _ s σ).
    pose proof (sum_list_with_but (unclaimed σ' ts) (unclaimed σ ts) s _ Hr) as H.
    pose proof (unclaimed_bound σ' ts s). enough (∀ y, y ≠ s → unclaimed σ' ts y ≤ unclaimed σ ts y).
    { specialize (H H1). lia. }
    intros y Hy. unfold unclaimed, σ'. rewrite has_work_alter by done. by rewrite decide_False.
  - simpl. unfold slots_work. simpl. rewrite length_app, seq_app, sum_list_with_app. simpl.
    set (σ' := with_slots _ _).
    assert (unclaimed σ' (WriterLock (length (slot_heap σ)) :: ts) (length (slot_heap σ)) = 0) as ->.
    { unfold unclaimed. rewrite count_cons. simpl. rewrite Nat.eqb_refl. simpl.
      by rewrite andb_false_r. }
    enough (sum_list_with (unclaimed σ' (WriterLock (length (slot_heap σ)) :: ts))
              (seq 0 (length (slot_heap σ)))
            ≤ sum_list_with (unclaimed σ ts) (seq 0 (length (slot_heap σ)))) by lia.
    apply sum_list_with_mono. intros s [_ Hs']%elem_of_seq. unfold unclaimed.
    rewrite count_cons. simpl. rewrite (proj2 (Nat.eqb_neq s (length (slot_heap σ)))) by lia.
    unfold has_work, slot_at, σ'. simpl. by rewrite lookup_app_l by lia.
Qed.

(** A writer that starts another round takes the pending work on itself. *)
Lemma remaining_round s σ rest :
  slots_inv σ (WriterRecheck s :: rest) → has_work s σ = true →
  remaining σ (WriterLock s :: rest) < remaining σ (WriterRecheck s :: rest).
Proof.
  intros Hi Hw. unfold remaining, slots_work. simpl.
  pose proof (si_range _ _ Hi (WriterRecheck s) s ltac:(by left) eq_refl) as Hs.
  pose proof (sum_list_with_but (unclaimed σ (WriterLock s :: rest))
    (unclaimed σ (WriterRecheck s :: rest)) s _ Hs) as H.
  assert (count (claims s) rest = 0) as Hc.
  { pose proof (si_writers _ _ Hi s) as Hwr. rewrite count_cons in Hwr. simpl in Hwr.
    rewrite Nat.eqb_refl in Hwr. apply count_zero. intros t Hin.
    assert (count (writer_of s) rest = 0) as Hz by (destruct (bool_decide _); simpl in Hwr; lia).
    pose proof (proj1 (count_zero _ _) Hz t Hin). by destruct t. }
  assert (unclaimed σ (WriterRecheck s :: rest) s = 8) as H8.
  { unfold unclaimed. by rewrite Hw, count_cons, Hc. }
  assert (unclaimed σ (WriterLock s :: rest) s = 0) as H0.
  { unfold unclaimed. rewrite count_cons. simpl. rewrite Nat.eqb_refl. simpl.
    by rewrite andb_false_r. }
  rewrite H8, H0 in H. enough (∀ y, y ≠ s → unclaimed σ (WriterLock s :: rest) y
    ≤ unclaimed σ (WriterRecheck s :: rest) y) as Hy by (specialize (H Hy); lia).
  intros y Hy. unfold unclaimed. rewrite !count_cons. simpl.
  by rewrite (proj2 (Nat.eqb_neq y s)).
Qed.

Ltac drain_frame :=
  match goal with
  | |- remaining _ (_ ++ ?rest) < remaining ?σ (?t :: ?rest) =>
    apply (remaining_frame σ _ t); try done; try (simpl; lia);
      try (by intros; cbn; rewrite ?sweep_heap, ?length_alter);
      try (by intros; rewrite !count_cons);
      try (by intros s' ; unfold has_work, slot_at; cbn; rewrite ?sweep_heap)
  end.

Lemma remaining_task outcome t σ σ' new rest :
  slots_inv σ (t :: rest) → pendings_inv σ (t :: rest) →
  task_step outcome t σ = Some (σ', new) → remaining σ' (new ++ rest) < remaining σ (t :: rest).
Proof.
  intros Hi Hp Hstep.
  assert (∀ f s s', task_slot t = Some s →
            (∀ l, pending (f l) = pending l ∨ pending (f l) = Pending_default) →
            has_work s' (alter_slot f s σ) = true → has_work s' σ = true) as Hkeep.
  { intros f s s' Hs Hf. rewrite has_work_alter by by eapply si_range; [|left|].
    case_decide; [|done]. subst s'. unfold has_work. by destruct (Hf (slot_at s σ)) as [->| ->]. }
  destruct t; unfold_step Hstep;
    try (unfold lock in Hstep; case_match eqn:Hl; [done|]);
    try (injection Hstep as <- <-).
  - destruct (standing h σ) as [|[]|]; injection Hstep as <- <-; drain_frame.
  - injection Hstep as Hqu.
    assert (slots_inv σ rest) as Hi' by (change rest with ([] ++ rest); frame_by [EnqueueQueue work]).
    pose proof (remaining_queue work σ rest σ' new Hi' Hqu). unfold remaining in *. simpl.
    assert (slots_work σ (EnqueueQueue work :: rest) = slots_work σ rest) as -> by done. lia.
  - drain_frame. intros s'. apply Hkeep; [done|]. by left.
  - drain_frame.
    + intros s'. apply Hkeep; [done|]. by right.
    + intros s' Hw. rewrite has_work_alter in Hw by by eapply si_range; [|left|].
      case_decide; [done|]. rewrite !count_cons. simpl.
      by rewrite (proj2 (Nat.eqb_neq s' s)).
  - drain_frame.
  - destruct (judge s batch registered σ); injection Hstep as <- <-;
      destruct (registered && _); drain_frame.
  - drain_frame. intros s'. apply (Hkeep (set_last_result outcome)); [done|]. by left.
  - drain_frame. intros s'. apply Hkeep; [done|]. by left.
  - case_match; injection Hstep as <- <-; drain_frame.
  - destruct (bool_decide_reflect (slots σ = Some s)) as [Hs|Hs]; cbn [negb andb] in Hstep.
    + injection Hstep as <- <-. apply remaining_round; [done|].
      by apply (pi_recheck _ _ Hp s); [left|].
    + destruct (Pending_is_empty _) eqn:He; injection Hstep as <- <-; [drain_frame|].
      apply remaining_round; [done|]. unfold has_work. by rewrite He.
  - destruct live; drain_frame.
  - drain_frame.
  - drain_frame.
  - destruct (slots σ); drain_frame.
  - drain_frame.
  - drain_frame. intros s'. apply Hkeep; [done|]. by left.
  - drain_frame.
  - case_bool_decide; drain_frame.
  - drain_frame. intros s'. apply Hkeep; [done|]. by right.
  - destruct (source leftover) as [h|]; [destruct (is_deleted h σ)|]; injection Hstep as <- <-;
      drain_frame.
  - destruct (queue leftover σ) as [σq nq] eqn:Hqu. injection Hstep as <- <-.
    assert (slots_inv σ (DeleteUnlock s :: rest)) as Hi'.
    { change (DeleteUnlock s :: rest) with ([DeleteUnlock s] ++ rest).
      frame_by [DeleteQueue s leftover]. }
    pose proof (remaining_queue leftover σ _ _ _ Hi' Hqu) as H.
    rewrite <-Permutation_middle in H. unfold remaining in *. simpl in *.
    change (slots_work σ (DeleteUnlock s :: rest)) with (slots_work σ rest) in H.
    change (slots_work σ (DeleteQueue s leftover :: rest)) with (slots_work σ rest). lia.
  - drain_frame. intros s'. apply Hkeep; [done|]. by left.
  - destruct (slots σ); drain_frame.
  - drain_frame. intros s'. apply Hkeep; [done|]. by left.
  - drain_frame. intros s'. apply Hkeep; [done|]. by left.
Qed.

Lemma move_reachable c c' : reachable c → rtc move c c' → reachable c'.
Proof.
  intros Hr Hm. unfold reachable in *. transitivity c; [done|].
  apply (rtc_subrel move step); [|done]. intros x y. apply step_task.
Qed.

Lemma move_remaining c c' :
  reachable c → move c c' → remaining c'.1 c'.2 < remaining c.1 c.2.
Proof.
  intros Hr Hm. destruct Hm as [outcome σ ts t rest σ' new Hp Hstep]. simpl.
  pose proof (slots_reachable _ _ Hr) as Hi. pose proof (pendings_reachable _ _ Hr) as Hpe.
  rewrite Hp in *. by eapply remaining_task.
Qed.

(** ** A task that can move *)

(** The slot whose lock the task waits for. *)
Definition awaits (t : Task) : option nat :=
  match t with WriterLock s | DeleteLock _ s | ExclusiveLock s => Some s | _ => None end.

Lemma task_moves outcome t σ :
  (∀ s, awaits t = Some s → locked (slot_at s σ) = false) → is_Some (task_step outcome t σ).
Proof.
  intros H. destruct t; cbn [task_step]; unfold enqueue; try by repeat case_match.
  all: unfold lock; by rewrite (H s eq_refl).
Qed.

Lemma holder_moves outcome s t σ : holds s t = true → is_Some (task_step outcome t σ).
Proof. intros H. apply task_moves. by destruct t. Qed.

Lemma some_task_moves σ ts :
  slots_inv σ ts → ts ≠ [] → ∃ t, t ∈ ts ∧ ∀ outcome, is_Some (task_step outcome t σ).
Proof.
  intros Hi Hne. destruct ts as [|t ts]; [done|].
  destruct (awaits t) as [s|] eqn:Ha.
  2: { exists t. split; [by left|]. intros. apply task_moves. by rewrite Ha. }
  destruct (locked (slot_at s σ)) eqn:Hl.
  2: { exists t. split; [by left|]. intros. apply task_moves. rewrite Ha. by intros ? [= <-]. }
  pose proof (si_locks _ _ Hi s) as Hc. rewrite Hl in Hc.
  destruct (filter (λ u, holds s u = true) (t :: ts)) as [|u us] eqn:Hf.
  { unfold count in Hc. by rewrite Hf in Hc. }
  assert (u ∈ filter (λ u, holds s u = true) (t :: ts)) as Hu by (rewrite Hf; by left).
  apply list_elem_of_filter in Hu as [Hh Hin]. exists u. split; [done|].
  intros. by eapply holder_moves.
Qed.

Lemma bind_nil {A B} (f : A → list B) xs : (∀ x, x ∈ xs → f x = []) → xs ≫= f = [].
Proof.
  induction xs as [|x xs IH]; intros H; simpl; [done|].
  rewrite (H x) by by left. apply IH. intros y Hy. apply H. by right.
Qed.

(** When no task is left, nothing is registered and every request answered. *)
Lemma quiet σ :
  reachable (σ, []) →
  slots σ = None ∧ (∀ s, Pending_is_empty (pending (slot_at s σ)) = true) ∧
  (∀ s, locked (slot_at s σ) = false) ∧ answered σ ≡ₚ asked σ.
Proof.
  intros Hr. pose proof (slots_reachable _ _ Hr) as Hi.
  pose proof (pendings_reachable _ _ Hr) as Hp.
  assert (slots σ = None) as Hs.
  { destruct (slots σ) as [s|] eqn:Hs; [|done]. by pose proof (si_registered _ _ Hi s Hs). }
  assert (∀ s, Pending_is_empty (pending (slot_at s σ)) = true) as He.
  { intros s. destruct (has_work s σ) eqn:Hw; [|by apply negb_false_iff in Hw].
    destruct (pi_slot _ _ Hp s Hw) as [?|?%not_elem_of_nil]; [congruence|done]. }
  split_and!; [done|done| |].
  - intros s. pose proof (si_locks _ _ Hi s) as Hl. by destruct (locked _).
  - apply (Permutation_count_occ N.eq_dec). intros w.
    pose proof (waiters_reachable _ _ Hr w) as Hw. rewrite occ_nil in Hw. unfold occ in Hw.
    rewrite Hw. enough (slots_waiters σ = []) as -> by (simpl; lia).
    unfold slots_waiters. apply bind_nil. intros l Hl.
    apply list_elem_of_lookup in Hl as [s Hl]. specialize (He s).
    unfold slot_at in He. rewrite Hl in He. simpl in *. by destruct (pending l) as [[] [] [] []].
Qed.

Lemma no_move σ c : ¬ move (σ, []) c.
Proof. intros Hm. inversion Hm as [? ? ? t rest ? ? Hp]; subst. by apply Permutation_nil_cons in Hp. Qed.

Lemma asked_move c c' : move c c' → asked c'.1 = asked c.1.
Proof.
  intros [outcome σ ts t rest σ' new _ Hstep]. simpl.
  destruct t; unfold_step Hstep; unfold lock, queue in Hstep;
    repeat case_match; simplify_eq; rewrite ?(proj2 (sweep_answers _)); try done;
    simpl; by rewrite ?(proj2 (sweep_answers _)).
Qed.

(** ** The properties *)

(** The persister runs to its end: from any reachable state, however its
    tasks take turns and whatever the storage answers, the tasks (the writers
    with their recheck loop, the deletions, the holders of the exclusive
    lock) take at most [remaining] steps while no new call comes in. *)
Theorem persister_terminates σ ts n c :
  reachable (σ, ts) → nsteps move n (σ, ts) c → n ≤ remaining σ ts.
Proof.
  change (remaining σ ts) with (remaining (σ, ts).1 (σ, ts).2). generalize (σ, ts).
  induction n as [|n IH]; intros c0 Hr Hn; [lia|]. inversion_clear Hn as [|? ? c1 ? Hm Hn'].
  pose proof (move_remaining _ _ Hr Hm).
  assert (reachable c1) as Hr' by (eapply move_reachable; [done|by apply rtc_once]).
  specialize (IH _ Hr' Hn'). lia.
Qed.

(** C16: No request is lost and none is answered twice: the tasks never block
    each other for good, and once they cannot move any more no task is left,
    no slot is registered or locked, nothing is pending, and the waiters
    answered are exactly those that asked. *)
Theorem persister_drains σ ts :
  reachable (σ, ts) → ∀ σ' ts', rtc move (σ, ts) (σ', ts') →
  (∃ c, move (σ', ts') c) ∨
  ts' = [] ∧ slots σ' = None ∧ (∀ s, Pending_is_empty (pending (slot_at s σ')) = true) ∧
  (∀ s, locked (slot_at s σ') = false) ∧ (answers σ').*1 ≡ₚ asked σ.
Proof.
  intros Hr σ' ts' Hm. assert (reachable (σ', ts')) as Hr' by by eapply move_reachable.
  assert (asked σ' = asked σ) as <-.
  { revert Hm. change (asked σ) with (asked (σ, ts).1). change (asked σ') with (asked (σ', ts').1).
    clear. generalize (σ, ts) (σ', ts'). induction 1 as [|c c' c'' H _ IH]; [done|].
    by rewrite IH, (asked_move c c'). }
  destruct (decide (ts' = [])) as [->|Hne]; [right; split; [done|by apply quiet]|left].
  destruct (some_task_moves _ _ (slots_reachable _ _ Hr') Hne) as (t & Hin & Ht).
  apply elem_of_Permutation in Hin as [rest Hp]. destruct (Ht (Ok tt)) as [[σ1 new] Hs].
  exists (σ1, new ++ rest). by eapply move_task.
Qed.
