(* ===== verification/PersisterThms.v ===== *)
(** * The session persister: what reaches the storage

    Which handles live ([handles_inv]), which ones a deletion has retired
    ([retired_inv]) and what a write in flight excludes ([writes_inv]), and
    with them the order of the storage calls: a retired handle is never
    written after its deletion, and the versions of a handle never go back. *)

From stdpp Require Import gmap.
From S2P Require Import Prelude RustStd Collections F32 Types Persister PersisterInv PersisterWaiters PersisterDrain.

(** ** Handles *)

Definition handle_ok (live : gset N) (o : option N) : Prop :=
  match o with Some h => h ∈ live | None => True end.

Definition slots_ok (live : gset N) σ : Prop :=
  Forall (λ l, handle_ok live (source (pending l))) (slot_heap σ).

Definition lineage_ok (known : gmap N N) (l : Lineage) : Prop :=
  NoDup (members l).*1 ∧ Forall (λ m, is_Some (known !! m.1) ∧ (m.2 < next_generation l)%N) (members l) ∧
  (deleted_below l ≤ next_generation l)%N.

Record handles_inv σ (ts : list Task) : Prop := {
  hi_slots : slots_ok (alive σ) σ;
  hi_tasks : Forall (λ t, handle_ok (alive σ) (task_handle t)) ts;
  hi_known h : h ∈ alive σ → is_Some (contents σ !! h);
  hi_lineage l : lineages σ = Some l → lineage_ok (contents σ) l;
}.

#[global] Instance handles_inv_perm : Proper ((=) ==> (≡ₚ) ==> iff) handles_inv.
Proof.
  assert (∀ σ ts us, ts ≡ₚ us → handles_inv σ ts → handles_inv σ us) as Hp.
  { intros σ ts us H [H1 H2 H3 H4]. split; rewrite <-?H; auto. }
  intros σ ? <- ts us H. split; by apply Hp.
Qed.

Lemma newest_alive_spec live l n g :
  newest_alive live l = Some (n, g) → n ∈ live ∧ (n, g) ∈ members l.
Proof.
  unfold newest_alive.
  apply (foldl_inv _ (λ best, best = Some (n, g) → n ∈ live ∧ (n, g) ∈ members l)); [|done].
  intros [b|] m Hm IH; simpl; repeat case_match; intros [= ->] || auto; simplify_eq; auto;
    case_bool_decide; try done; auto.
Qed.

Lemma generation_of_spec l h g :
  NoDup (members l).*1 → (h, g) ∈ members l → generation_of h l = Some g.
Proof.
  unfold generation_of. induction (members l) as [|[h' g'] ms IH]; intros Hnd Hin; [by apply not_elem_of_nil in Hin|].
  simpl in *. apply NoDup_cons in Hnd as [Hn Hnd].
  apply elem_of_cons in Hin as [[= -> ->]|Hin]; [by rewrite N.eqb_refl|].
  destruct (N.eqb_spec h' h) as [->|_]; [|by apply IH].
  destruct Hn. apply list_elem_of_fmap. by exists (h, g).
Qed.

Lemma generation_of_elem l h g : generation_of h l = Some g → (h, g) ∈ members l.
Proof.
  unfold generation_of. induction (members l) as [|[h' g'] ms IH]; simpl; [done|].
  destruct (N.eqb_spec h' h) as [->|_]; simpl; [intros [= ->]; by left|right; by apply IH].
Qed.

Lemma lineage_ok_prune known live l : lineage_ok known l → lineage_ok known (prune live l).
Proof.
  intros (Hnd & Hm & Hd). split_and!; simpl; [| |done].
  - eapply sublist_NoDup; [exact Hnd|]. apply fmap_sublist, sublist_filter.
  - apply Forall_forall. intros m [Hin _]%elem_of_retain. by apply (proj1 (Forall_forall _ _) Hm).
Qed.

Lemma lineage_ok_mono known known' l :
  (∀ h, is_Some (known !! h) → is_Some (known' !! h)) → lineage_ok known l → lineage_ok known' l.
Proof.
  intros H (Hnd & Hm & Hd). split_and!; [done| |done].
  eapply Forall_impl; [exact Hm|]. intros m [? ?]. auto.
Qed.

Lemma lineage_ok_default known : lineage_ok known Lineage_default.
Proof. split_and!; simpl; [constructor..|lia]. Qed.

Lemma generation_of_prune live l h :
  h ∈ live → generation_of h (prune live l) = generation_of h l.
Proof.
  intros Hh. unfold generation_of, prune. simpl.
  induction (members l) as [|m ms IH]; simpl; [done|]. unfold retain in *. rewrite filter_cons.
  case_decide as Hd; simpl; destruct (N.eqb_spec m.1 h) as [<-|]; simpl; auto.
  by rewrite bool_decide_eq_true_2 in Hd.
Qed.

(** A deletion is over with the handle: it is below the mark of the last one,
    or was never registered and has a tombstone. *)
Definition buried (h : N) σ : bool := bool_decide (h ∈ default [] (tombstones σ)).

Definition gone (h : N) σ : bool :=
  match lineages σ with
  | Some l => match generation_of h l with
              | Some g => (g <? deleted_below l)%N
              | None => buried h σ
              end
  | None => buried h σ
  end.

Lemma is_tombstoned_buried h σ : h ∈ alive σ → is_tombstoned h σ = buried h σ.
Proof.
  intros Hh. unfold is_tombstoned, sweep_tombstones, buried.
  destruct (tombstones σ) as [dead|] eqn:Hd; simpl; [|by rewrite Hd].
  assert (∀ x, x ∈ retain (λ h, bool_decide (h ∈ alive σ)) dead ↔ x ∈ dead ∧ x ∈ alive σ) as Hr.
  { intros x. by rewrite elem_of_retain, bool_decide_eq_true. }
  destruct (retain _ dead) as [|d ds] eqn:He; simpl.
  - symmetry. apply bool_decide_eq_false. intros Hin.
    by apply (not_elem_of_nil h), Hr.
  - apply eq_bool_prop_intro. rewrite !Is_true_true, bool_decide_eq_true.
    change ((h =? d)%N || existsb (N.eqb h) ds) with (existsb (N.eqb h) (d :: ds)).
    rewrite existsb_exists. setoid_rewrite N.eqb_eq. setoid_rewrite <-list_elem_of_In.
    transitivity (h ∈ d :: ds); [|rewrite Hr; tauto].
    split; [by intros (x & ? & ->)|eauto].
Qed.

(** [standing] of a live handle, by what a deletion did to it. *)
Lemma gone_deleted h σ : h ∈ alive σ → gone h σ = true → is_deleted h σ = true.
Proof.
  intros Hh. unfold gone, is_deleted, standing. rewrite is_tombstoned_buried by done.
  destruct (buried h σ); [done|]. destruct (lineages σ) as [l|]; [|done].
  destruct (generation_of h l) as [g|]; [|done]. by intros ->.
Qed.

(** What [judge] lets through was not retired. *)
Lemma judge_alive s batch registered σ h :
  handle_ok (alive σ) (source batch) →
  (∀ l, lineages σ = Some l → lineage_ok (contents σ) l) →
  judge s batch registered σ = inl h → h ∈ alive σ ∧ gone h σ = false.
Proof.
  intros Hs Hl. unfold judge. destruct (source batch) as [h0|] eqn:Hsrc; [|by destruct registered].
  destruct registered; [|done]. unfold standing at 1. rewrite is_tombstoned_buried by done.
  destruct (buried h0 σ) eqn:Hb; [done|].
  destruct (lineages σ) as [l|] eqn:Hli;
    [|by intros [= <-]; unfold gone; rewrite Hli].
  destruct (generation_of h0 l) as [g|] eqn:Hg;
    [|by intros [= <-]; unfold gone; rewrite Hli, Hg].
  destruct (N.ltb_spec g (deleted_below l)) as [|Hge]; [done|].
  destruct (g + 1 =? _)%N.
  { intros [= <-]. unfold gone. rewrite Hli, Hg. split; [done|by apply N.ltb_ge]. }
  destruct (newest_alive (alive σ) l) as [[n g']|] eqn:Hn; [|done].
  destruct (N.ltb_spec g g'); [|done]. intros [= <-].
  apply newest_alive_spec in Hn as [Hin Hm]. split; [done|].
  unfold gone. rewrite Hli, (generation_of_spec l n g'); [apply N.ltb_ge; lia| |done].
  apply (Hl l eq_refl).
Qed.

(** ** What a task's step does to the handles *)

Lemma sweep_fields σ :
  alive (sweep_tombstones σ) = alive σ ∧ contents (sweep_tombstones σ) = contents σ ∧
  lineages (sweep_tombstones σ) = lineages σ ∧ sink_log (sweep_tombstones σ) = sink_log σ.
Proof. unfold sweep_tombstones. by repeat case_match. Qed.

Lemma task_handles_kept outcome t σ σ' new :
  task_step outcome t σ = Some (σ', new) → alive σ' = alive σ ∧ contents σ' = contents σ.
Proof.
  destruct (sweep_fields σ) as (Ha & Hc & _ & _).
  destruct t; intros Hstep; unfold_step Hstep; unfold lock, queue in Hstep;
    repeat case_match; simplify_eq; simpl; by rewrite ?Ha, ?Hc.
Qed.

(** Tasks change the lineage and the tombstones in four ways. *)
Inductive burial σ : SessionPersister → Prop :=
| burial_none σ' : lineages σ' = lineages σ → tombstones σ' = tombstones σ → burial σ σ'
| burial_sweep σ' : lineages σ' = lineages σ →
    tombstones σ' = tombstones (sweep_tombstones σ) → burial σ σ'
| burial_tombstone h : burial σ (tombstone h σ)
| burial_mark : burial σ (mark_deleted σ).

Lemma task_burial outcome t σ σ' new :
  task_step outcome t σ = Some (σ', new) → burial σ σ'.
Proof.
  destruct (sweep_fields σ) as (_ & _ & Hl & _).
  destruct t; intros Hstep; unfold_step Hstep; unfold lock, queue in Hstep;
    repeat case_match; simplify_eq;
    first [by apply burial_none|by apply burial_sweep|apply burial_tombstone|apply burial_mark].
Qed.

Lemma burial_lineage σ σ' l :
  burial σ σ' → (∀ l, lineages σ = Some l → lineage_ok (contents σ) l) →
  lineages σ' = Some l → lineage_ok (contents σ) l.
Proof.
  intros [σ1 Hl _|σ1 Hl _|h|] H; rewrite ?Hl; try by apply H.
  simpl. intros [= <-]. set (l0 := default Lineage_default (lineages σ)).
  assert (lineage_ok (contents σ) l0) as Hok.
  { unfold l0. destruct (lineages σ) as [l|]; [by apply H|apply lineage_ok_default]. }
  destruct (lineage_ok_prune _ (alive σ) _ Hok) as (Hnd & Hm & _). by split_and!.
Qed.

Lemma buried_kept σ σ' h :
  h ∈ alive σ → burial σ σ' → buried h σ = true → buried h σ' = true.
Proof.
  unfold buried. intros Hh Hb. rewrite !bool_decide_eq_true.
  destruct Hb as [σ1 _ ->|σ1 _ ->|h'|]; [done| | |done]; intros Hin.
  - unfold sweep_tombstones. destruct (tombstones σ) as [dead|] eqn:Hd; [|by rewrite Hd].
    simpl in Hin. assert (h ∈ retain (λ h, bool_decide (h ∈ alive σ)) dead) as Hr
      by (apply elem_of_retain; by rewrite bool_decide_eq_true).
    by destruct (retain _ dead).
  - assert (h ∈ retain (λ h, bool_decide (h ∈ alive σ)) (default [] (tombstones σ))) as Hr
      by (apply elem_of_retain; by rewrite bool_decide_eq_true).
    unfold tombstone. simpl. case_match; [done|]. apply elem_of_app. by left.
Qed.

Lemma gone_kept σ σ' h :
  h ∈ alive σ → burial σ σ' → (∀ l, lineages σ = Some l → lineage_ok (contents σ) l) →
  gone h σ = true → gone h σ' = true.
Proof.
  intros Hh Hb Hok. pose proof (buried_kept _ _ _ Hh Hb) as Hbu. unfold gone.
  destruct Hb as [σ1 -> _|σ1 -> _|h'|].
  1,2,3: simpl; destruct (lineages σ) as [l|]; [destruct (generation_of h l)|]; auto.
  simpl. destruct (lineages σ) as [l|] eqn:Hl; [|auto]. intros Hg. cbn [default id].
  match goal with |- context [generation_of h ?l'] =>
    change (generation_of h l') with (generation_of h (prune (alive σ) l)) end.
  rewrite generation_of_prune by done. destruct (generation_of h l) as [g|] eqn:Hgen; [|auto].
  simpl. apply N.ltb_lt. apply generation_of_elem in Hgen.
  destruct (Hok l eq_refl) as (_ & Hm & _). by apply (proj1 (Forall_forall _ _) Hm) in Hgen as [_ ?].
Qed.

Lemma merge_source_ok live work p :
  handle_ok live (source work) → handle_ok live (source p) →
  handle_ok live (source (merge_pending work p)).
Proof. unfold merge_pending. simpl. by destruct (source work). Qed.

Section slots.
Context (σ : SessionPersister) (live : gset N).

Lemma slot_at_ok s : slots_ok live σ → handle_ok live (source (pending (slot_at s σ))).
Proof.
  intros H. unfold slot_at. destruct (slot_heap σ !! s) as [l|] eqn:Hl; [|done].
  by apply (Forall_lookup_1 _ _ _ _ H Hl).
Qed.

Lemma alter_slots_ok f s :
  slots_ok live σ → (∀ l, handle_ok live (source (pending l)) → handle_ok live (source (pending (f l)))) →
  slots_ok live (alter_slot f s σ).
Proof. intros H Hf. unfold alter_slot. simpl. apply Forall_alter; [done|]. auto. Qed.

Lemma queue_slots_ok work :
  slots_ok live σ → handle_ok live (source work) → slots_ok live (queue work σ).1.
Proof.
  intros H Hw. unfold queue. destruct (slots σ) as [s|]; simpl.
  - apply (alter_slots_ok _ _ H). intros l Hl. by apply merge_source_ok.
  - apply Forall_app. split; [done|]. apply Forall_singleton. by apply merge_source_ok.
Qed.
End slots.

Lemma handles_slots outcome t σ σ' new :
  slots_ok (alive σ) σ →
  handle_ok (alive σ) (task_handle t) → task_step outcome t σ = Some (σ', new) →
  slots_ok (alive σ) σ'.
Proof.
  intros Hs Ht Hstep. destruct t; unfold_step Hstep;
    try (unfold lock in Hstep; case_match; [done|]); try (injection Hstep as <- <-);
    try (apply (alter_slots_ok σ); [done|]; by intros l).
  2: { injection Hstep as Hq. pose proof (queue_slots_ok σ _ work Hs Ht) as H. by rewrite Hq in H. }
  all: repeat case_match; simplify_eq; unfold slots_ok; simpl; rewrite ?sweep_heap; try done.
  pose proof (queue_slots_ok σ _ leftover Hs Ht) as Hok.
  match goal with Hq : queue _ _ = _ |- _ => by rewrite Hq in Hok end.
Qed.

Lemma handles_tasks outcome t σ σ' new rest :
  handles_inv σ (t :: rest) → task_step outcome t σ = Some (σ', new) →
  Forall (λ u, handle_ok (alive σ) (task_handle u)) new.
Proof.
  intros [Hs Ht%Forall_cons_1 _ Hl] Hstep. destruct Ht as [Ht _].
  pose proof (λ s, slot_at_ok σ _ s Hs) as Hslot.
  destruct t; unfold_step Hstep.
  1: { revert Hstep. unfold standing.
       repeat case_match; intros; simplify_eq; repeat constructor; simpl; try done.
       by match goal with H : newest_alive _ _ = Some _ |- _ => apply newest_alive_spec in H as [? _] end. }
  5: { destruct (judge s batch registered σ) as [h|r] eqn:Hj; injection Hstep as <- <-;
         repeat constructor. by eapply judge_alive. }
  all: unfold lock, queue in Hstep; repeat case_match; simplify_eq;
    repeat constructor; try done; try apply Hslot; simpl in *; by simplify_option_eq.
Qed.

Lemma handles_task outcome t σ σ' new rest :
  handles_inv σ (t :: rest) → task_step outcome t σ = Some (σ', new) →
  handles_inv σ' (new ++ rest).
Proof.
  intros Hi Hstep. destruct (task_handles_kept _ _ _ _ _ Hstep) as [Ha Hc].
  pose proof (handles_tasks _ _ _ _ _ _ Hi Hstep) as Hn.
  destruct Hi as [Hs Ht%Forall_cons_1 Hk Hl]. destruct Ht as [Ht Hr].
  split; rewrite ?Ha, ?Hc.
  - by eapply handles_slots.
  - by apply Forall_app.
  - done.
  - intros l. eapply burial_lineage; [by eapply task_burial|done].
Qed.

Lemma handle_ok_mono live live' o : live ⊆ live' → handle_ok live o → handle_ok live' o.
Proof. destruct o; simpl; [set_solver|done]. Qed.

(** More handles live, and are known. *)
Lemma handles_more σ σ' ts :
  handles_inv σ ts → slot_heap σ' = slot_heap σ → alive σ ⊆ alive σ' →
  (∀ h, h ∈ alive σ' → is_Some (contents σ' !! h)) →
  (∀ l, lineages σ' = Some l → lineage_ok (contents σ') l) → handles_inv σ' ts.
Proof.
  intros [Hs Ht _ _] Hh Ha Hk Hl. split; [| |done..].
  - unfold slots_ok in *. rewrite Hh. eapply Forall_impl; [exact Hs|].
    intros l. by apply handle_ok_mono.
  - eapply Forall_impl; [exact Ht|]. intros t. by apply handle_ok_mono.
Qed.

Lemma register_lineage h σ l :
  (∀ l, lineages σ = Some l → lineage_ok (contents σ) l) → contents σ !! h = None →
  lineages (register h (with_handles ({[h]} ∪ alive σ) (<[h := 0%N]> (contents σ)) σ)) = Some l →
  lineage_ok (<[h := 0%N]> (contents σ)) l.
Proof.
  intros Hl Hh. unfold register. simpl. intros [= <-].
  set (l0 := default Lineage_default (lineages σ)). set (live := {[h]} ∪ alive σ).
  assert (lineage_ok (contents σ) l0) as Hok.
  { unfold l0. destruct (lineages σ) as [l|]; [by apply Hl|apply lineage_ok_default]. }
  apply (lineage_ok_prune _ live) in Hok.
  pose proof Hok as (Hnd & Hm & Hd). simpl in Hd. split_and!; simpl.
  - rewrite fmap_app. apply NoDup_app. split_and!; [done| |simpl; apply NoDup_singleton].
    intros x [m [-> Hin]]%list_elem_of_fmap. simpl. intros Hx%list_elem_of_singleton.
    apply (proj1 (Forall_forall _ _) Hm) in Hin as [[? Hin] _]. congruence.
  - apply Forall_app. split.
    + eapply Forall_impl; [exact Hm|]. intros m [? ?]. simpl in *.
      split; [|lia]. destruct (decide (h = m.1)) as [->|]; [by simplify_map_eq|].
      by rewrite lookup_insert_ne.
    + apply Forall_singleton. simpl. split; [by simplify_map_eq|lia].
  - lia.
Qed.

Lemma known_insert h v (known : gmap N N) x :
  is_Some (known !! x) → is_Some (<[h := v]> known !! x).
Proof. intros Hx. destruct (decide (h = x)) as [->|]; [by simplify_map_eq|by rewrite lookup_insert_ne]. Qed.

Lemma handles_new h σ ts σ' :
  handles_inv σ ts → contents σ !! h = None →
  let σ1 := with_handles ({[h]} ∪ alive σ) (<[h := 0%N]> (contents σ)) σ in
  σ' = σ1 ∨ σ' = register h σ1 → handles_inv σ' ts.
Proof.
  intros Hi Hh σ1 Hσ'. pose proof (hi_known _ _ Hi) as Hk. pose proof (hi_lineage _ _ Hi) as Hl.
  assert (∀ x, x ∈ {[h]} ∪ alive σ → is_Some (<[h := 0%N]> (contents σ) !! x)) as Hk'.
  { intros x [->%elem_of_singleton|Hx]%elem_of_union; [by simplify_map_eq|].
    by apply known_insert, Hk. }
  destruct Hσ' as [-> | ->]; apply (handles_more σ); try done; simpl; try set_solver.
  - intros l Hl'. apply (lineage_ok_mono (contents σ)); [|by apply Hl].
    intros x. by apply known_insert.
  - intros l. by apply register_lineage.
Qed.

Lemma handles_drop h σ ts :
  handles_inv σ ts → ¬ held h σ ts →
  handles_inv (with_handles (alive σ ∖ {[h]}) (contents σ) σ) ts.
Proof.
  intros [Hs Ht Hk Hl] Hh. unfold slots_ok in *.
  assert (∀ o, o ≠ Some h → handle_ok (alive σ) o → handle_ok (alive σ ∖ {[h]}) o) as Hok.
  { intros [x|] Hx; simpl; [|done]. set_solver. }
  split; simpl; [| |by intros x [? _]%elem_of_difference; apply Hk|done].
  - apply Forall_forall. intros l Hin. apply Hok; [|by apply (proj1 (Forall_forall _ _) Hs)].
    intros Hx. apply Hh. left. apply list_elem_of_fmap. by exists l.
  - apply Forall_forall. intros t Hin. apply Hok; [|by apply (proj1 (Forall_forall _ _) Ht)].
    intros Hx. apply Hh. right. apply list_elem_of_fmap. by exists t.
Qed.

Lemma handles_event ev σ ts σ' new :
  handles_inv σ ts → event_step ev σ ts = Some (σ', new) → handles_inv σ' (new ++ ts).
Proof.
  intros Hi Hstep.
  assert (∀ t, handle_ok (alive σ) (task_handle t) → handles_inv σ (t :: ts)) as Hcons.
  { intros t Ht. destruct Hi as [Hs Hts Hk Hl]. split; [done|by constructor|done..]. }
  destruct ev; cbn [event_step] in Hstep; repeat case_match; simplify_eq; simpl; try done.
  - apply (handles_new h σ); [done..|by right].
  - apply (handles_new h σ); [done..|by left].
  - pose proof (hi_known _ _ Hi) as Hk. pose proof (hi_lineage _ _ Hi) as Hl.
    apply (handles_more σ); try done; simpl; [by intros x Hx; apply known_insert, Hk|].
    intros l Hl'. apply (lineage_ok_mono (contents σ)); [|by apply Hl].
    intros x. by apply known_insert.
  - by apply handles_drop.
  - by destruct (Hcons (EnqueueStart h updates removed waiter)).
  - by apply (Hcons (DeleteStart (Some _))).
  - by apply (Hcons (DeleteStart None)).
  - by apply (Hcons ExclusiveFind).
  - destruct Hi as [Hs Ht Hk Hl]. split; try done. simpl.
    by apply (alter_slots_ok σ).
  - destruct (Hcons (EnqueueStart n0 [] [] (Some waiter))); [|by split].
    unfold failed_handle in *. by simplify_option_eq.
  - by destruct Hi; split.
Qed.

Lemma handles_reachable σ ts : reachable (σ, ts) → handles_inv σ ts.
Proof.
  apply (reachable_ind (λ _ _, True)); try done.
  - apply _.
  - split; try done; by constructor.
  - intros. by eapply handles_task.
  - intros. by eapply handles_event.
Qed.

(** ** Retired handles *)

(** The handles the deletion of a task retired. *)
Definition task_retired (t : Task) : option (gset N) :=
  match t with
  | DeleteFailed R | DeleteFind R | DeleteBare R | DeleteLock R _ | Deleting R _ => Some R
  | _ => None
  end.

Definition event_retired (e : sink_event) : option (gset N) :=
  match e with SinkDelete R _ => Some R | SinkWrite _ _ _ _ _ => None end.

(** Known, and gone if it still lives. *)
Definition retired_ok σ (o : option (gset N)) : Prop :=
  match o with
  | Some R => ∀ h, h ∈ R → is_Some (contents σ !! h) ∧ (h ∈ alive σ → gone h σ = true)
  | None => True
  end.

Definition retired_inv σ (ts : list Task) : Prop :=
  Forall (λ t, retired_ok σ (task_retired t)) ts ∧
  Forall (λ e, retired_ok σ (event_retired e)) (sink_log σ).

#[global] Instance retired_inv_perm : Proper ((=) ==> (≡ₚ) ==> iff) retired_inv.
Proof. intros σ ? <- ts us H. unfold retired_inv. by rewrite H. Qed.

Lemma retired_mono σ σ' ts :
  (∀ h, is_Some (contents σ !! h) → is_Some (contents σ' !! h)) →
  (∀ h, is_Some (contents σ !! h) → h ∈ alive σ' → h ∈ alive σ ∧ (gone h σ = true → gone h σ' = true)) →
  sink_log σ' = sink_log σ → retired_inv σ ts → retired_inv σ' ts.
Proof.
  intros Hc Hg Hlog [Ht Hs].
  assert (∀ o, retired_ok σ o → retired_ok σ' o) as Ho.
  { intros [R|]; [|done]. intros H h Hh. destruct (H h Hh) as [Hk Ha]. split; [auto|].
    intros Ha'. destruct (Hg h Hk Ha'). auto. }
  split; rewrite ?Hlog; eapply Forall_impl; eauto.
Qed.

(** Right after the mark every live handle that counts as deleted is gone. *)
Lemma marked_gone h σ :
  (∀ l, lineages σ = Some l → lineage_ok (contents σ) l) →
  h ∈ retired_handles (mark_deleted σ) → gone h (mark_deleted σ) = true.
Proof.
  intros Hl. unfold retired_handles. rewrite elem_of_filter. intros [Hd Ha]. revert Hd.
  unfold is_deleted, standing. rewrite is_tombstoned_buried by done. unfold gone.
  set (σ' := mark_deleted σ) in *.
  destruct (lineages σ') as [l|] eqn:Hl'; [|done].
  assert (lineage_ok (contents σ) l ∧ deleted_below l = next_generation l) as [(_ & Hm & _) Hb].
  { split; [|by unfold σ', mark_deleted in Hl'; simpl in Hl'; simplify_eq].
    apply (burial_lineage σ σ'); [apply burial_mark|done..]. }
  destruct (generation_of h l) as [g|] eqn:Hg; [|by destruct (buried h σ')].
  intros _. rewrite Hb. apply N.ltb_lt. apply generation_of_elem in Hg.
  by apply (proj1 (Forall_forall _ _) Hm) in Hg as [_ ?].
Qed.

Lemma task_log outcome t σ σ' new :
  task_step outcome t σ = Some (σ', new) →
  sink_log σ' = sink_log σ ++ match t with
    | Writing _ h v b => [SinkWrite h v (p_updates b) (p_removed b) outcome]
    | DeleteBare R | Deleting R _ => [SinkDelete R outcome]
    | _ => []
    end.
Proof.
  destruct (sweep_fields σ) as (_ & _ & _ & Hs).
  destruct t; intros Hstep; unfold_step Hstep; unfold lock, queue in Hstep;
    repeat case_match; simplify_eq; simpl; by rewrite ?Hs, ?app_nil_r.
Qed.

Lemma retired_task outcome t σ σ' new rest :
  handles_inv σ (t :: rest) → retired_inv σ (t :: rest) →
  task_step outcome t σ = Some (σ', new) → retired_inv σ' (new ++ rest).
Proof.
  intros Hi Hr Hstep. pose proof (task_log _ _ _ _ _ Hstep) as Hlog.
  destruct (task_handles_kept _ _ _ _ _ Hstep) as [Ha Hc].
  pose proof (task_burial _ _ _ _ _ Hstep) as Hb.
  pose proof (hi_lineage _ _ Hi) as Hl.
  assert (∀ o, retired_ok σ o → retired_ok σ' o) as Ho.
  { intros [R|]; [|done]. intros H h Hh. destruct (H h Hh) as [Hk Ha']. rewrite Hc, Ha.
    split; [done|]. intros Hh'. by apply (gone_kept σ); auto. }
  destruct Hr as [Hts Hs]. apply Forall_cons in Hts as [Ht Hts].
  assert (Forall (λ u, retired_ok σ' (task_retired u)) new) as Hn.
  { destruct t; unfold_step Hstep; unfold lock, queue in Hstep; repeat case_match;
      simplify_eq; rewrite ?Forall_cons, ?Forall_nil; split_and?; try done;
      try (apply (Ho _ Ht)).
    intros h Hh. split; [|intros _; by apply marked_gone].
    unfold retired_handles in Hh. apply elem_of_filter in Hh as [_ Hh]. by apply (hi_known _ _ Hi). }
  split.
  - apply Forall_app. split; [done|]. eapply Forall_impl; [exact Hts|]. simpl. auto.
  - rewrite Hlog. apply Forall_app. split; [eapply Forall_impl; [exact Hs|]; simpl; auto|].
    destruct t; rewrite ?Forall_cons, ?Forall_nil; split_and?; try done; apply (Ho _ Ht).
Qed.

Lemma gone_register h h0 σ :
  h0 ∈ alive σ → h0 ≠ h → gone h0 (register h σ) = gone h0 σ.
Proof.
  intros Ha Hne. unfold gone, register. simpl.
  set (l := default Lineage_default (lineages σ)).
  assert (generation_of h0 (mkLineage (members (prune (alive σ) l) ++ [(h, next_generation l)])
    (next_generation l + 1) (deleted_below l)) = generation_of h0 l) as Hg.
  { rewrite <-(generation_of_prune (alive σ) l h0 Ha). unfold generation_of. simpl. f_equal.
    induction (retain _ (members l)) as [|m ms IH]; simpl; [|by case_match].
    by rewrite (proj2 (N.eqb_neq h h0)). }
  unfold prune in Hg. simpl in Hg. rewrite Hg. unfold l. by destruct (lineages σ).
Qed.

Lemma retired_event ev σ ts σ' new :
  retired_inv σ ts → event_step ev σ ts = Some (σ', new) → retired_inv σ' (new ++ ts).
Proof.
  intros Hr Hstep.
  assert (∀ t, task_retired t = None → retired_inv σ' ts → retired_inv σ' (t :: ts)) as Hcons.
  { intros t Ht [H1 H2]. split; [|done]. apply Forall_cons. by rewrite Ht. }
  destruct ev; cbn [event_step] in Hstep; repeat case_match; simplify_eq; simpl;
    try apply Hcons; try done;
    match type of Hr with retired_inv ?τ _ => apply (retired_mono τ) end; simpl; try done.
  - intros x. by apply known_insert.
  - intros x Hx Hin. assert (x ≠ h) by (intros ->; destruct Hx; congruence).
    split; [set_solver|]. intros Hg. by rewrite gone_register by (simpl; set_solver).
  - intros x. by apply known_insert.
  - intros x Hx Hin. assert (x ≠ h) by (intros ->; destruct Hx; congruence).
    split; [set_solver|done].
  - intros x. by apply known_insert.
  - intros x _ [? _]%elem_of_difference. by split.
Qed.

Lemma retired_reachable σ ts : reachable (σ, ts) → retired_inv σ ts.
Proof.
  apply (reachable_ind handles_inv).
  - apply handles_reachable.
  - apply _.
  - split; by constructor.
  - intros. by eapply retired_task.
  - intros. by eapply retired_event.
  - apply _.
Qed.

(** ** Writes in flight *)

(** The deletion has not reached the storage and must wait for slot [s]. *)
Definition early (s : nat) (t : Task) : bool :=
  match t with
  | DeleteFailed _ | DeleteFind _ => true
  | DeleteLock _ s' => Nat.eqb s s'
  | _ => false
  end.

(** The order two storage calls may have. *)
Definition before (e1 e2 : sink_event) : Prop :=
  match e1, e2 with
  | SinkDelete R _, SinkWrite h _ _ _ _ => h ∉ R
  | SinkWrite h v _ _ _, SinkWrite h' v' _ _ _ => h = h' → (v ≤ v')%N
  | _, SinkDelete _ _ => True
  end.

Record writes_inv σ (ts : list Task) : Prop := {
  wi_before s h v b e : Writing s h v b ∈ ts → e ∈ sink_log σ →
    before e (SinkWrite h v (p_updates b) (p_removed b) (Ok tt));
  wi_beside s h v b t R : Writing s h v b ∈ ts → t ∈ ts → task_retired t = Some R → h ∈ R →
    early s t = true;
  wi_version s h v b : Writing s h v b ∈ ts → (v ≤ version_of h σ)%N;
  wi_logged h v us rm o : SinkWrite h v us rm o ∈ sink_log σ → (v ≤ version_of h σ)%N;
  wi_sorted : StronglySorted before (sink_log σ);
}.

#[global] Instance writes_inv_perm : Proper ((=) ==> (≡ₚ) ==> iff) writes_inv.
Proof.
  assert (∀ σ ts us, ts ≡ₚ us → writes_inv σ ts → writes_inv σ us) as Hp.
  { intros σ ts us H [H1 H2 H3 H4 H5]. split; intros *; rewrite <-?H; eauto. }
  intros σ ? <- ts us H. split; by apply Hp.
Qed.

(** A write in flight holds the lock of the registered slot. *)
Lemma writing_slot s h v b σ ts :
  slots_inv σ ts → Writing s h v b ∈ ts → slots σ = Some s ∧ locked (slot_at s σ) = true.
Proof.
  intros Hi Hin. split; [by apply (si_found _ _ Hi _ s Hin)|].
  pose proof (si_locks _ _ Hi s) as Hl.
  pose proof (count_elem (holds s) _ _ Hin (Nat.eqb_refl s)).
  destruct (locked _); simpl in Hl; [done|lia].
Qed.

(** Nothing else holds it. *)
Lemma writing_alone s h v b t σ rest :
  slots_inv σ (t :: rest) → Writing s h v b ∈ rest → holds s t = false.
Proof.
  intros Hi Hin. destruct (holds s t) eqn:Ht; [|done].
  pose proof (si_locks _ _ Hi s) as Hl. rewrite count_cons, Ht in Hl.
  pose proof (count_elem (holds s) _ _ Hin (Nat.eqb_refl s)).
  destruct (locked _); simpl in Hl; lia.
Qed.

Definition is_writing (t : Task) : bool := match t with Writing _ _ _ _ => true | _ => false end.

(** A step that starts no write and logs nothing. *)
Lemma writes_frame σ σ' t new rest :
  writes_inv σ (t :: rest) → contents σ' = contents σ → sink_log σ' = sink_log σ →
  (∀ u, u ∈ new → is_writing u = false) →
  (∀ u R s h v b, u ∈ new → task_retired u = Some R → Writing s h v b ∈ rest → h ∈ R →
     early s u = true) →
  writes_inv σ' (new ++ rest).
Proof.
  intros [H1 H2 H3 H4 H5] Hc Hl Hn Hr.
  assert (∀ s h v b, Writing s h v b ∈ new ++ rest → Writing s h v b ∈ rest) as Hw.
  { intros s h v b [Hin|Hin]%elem_of_app; [by apply Hn in Hin|done]. }
  unfold version_of in *. split; rewrite ?Hl; unfold version_of; rewrite ?Hc; try done.
  - intros s h v b e Hin%Hw. apply (H1 s h v b). by right.
  - intros s h v b u R Hin%Hw [Hu|Hu]%elem_of_app HR Hh; [by eapply Hr|].
    eapply H2; [by right|by right|done..].
  - intros s h v b Hin%Hw. apply (H3 s h v b). by right.
Qed.

(** A write that starts. *)
Lemma writes_start s h b σ σ' t rest :
  writes_inv σ (t :: rest) → contents σ' = contents σ → sink_log σ' = sink_log σ →
  retired_inv σ (t :: rest) → h ∈ alive σ → gone h σ = false →
  writes_inv σ' (Writing s h (version_of h σ) b :: rest).
Proof.
  intros [H1 H2 H3 H4 H5] Hc Hl [Ht%Forall_cons_1 Hs] Ha Hg. destruct Ht as [_ Ht].
  assert (∀ o R, retired_ok σ o → o = Some R → h ∉ R) as Hno.
  { intros ? R Hok -> Hin. destruct (Hok h Hin) as [_ Hgo]. rewrite Hgo in Hg; done. }
  split; rewrite ?Hl; unfold version_of; rewrite ?Hc.
  - intros s' h' v b' e [[= -> -> -> ->]|Hin]%elem_of_cons He; [|by eapply H1; [right|]].
    destruct e as [h0 v0 us rm o|R o]; simpl.
    + intros ->. by apply (H4 _ _ _ _ _ He).
    + by apply (Hno _ _ (proj1 (Forall_forall _ _) Hs _ He)).
  - intros s' h' v b' u R [[= -> -> -> ->]|Hin]%elem_of_cons [->|Hu]%elem_of_cons HR Hh; try done.
    + by destruct (Hno _ _ (proj1 (Forall_forall _ _) Ht _ Hu) HR).
    + by eapply H2; [right|right|..].
  - intros s' h' v b' [[= -> -> -> ->]|Hin]%elem_of_cons; [done|]. eapply H3. by right.
  - done.
  - done.
Qed.

(** A storage call that ends. *)
Lemma writes_log σ σ' t e new rest :
  writes_inv σ (t :: rest) → contents σ' = contents σ → sink_log σ' = sink_log σ ++ [e] →
  (∀ s h v b, Writing s h v b ∈ rest →
     before e (SinkWrite h v (p_updates b) (p_removed b) (Ok tt))) →
  (∀ e', e' ∈ sink_log σ → before e' e) →
  (∀ h v us rm o, e = SinkWrite h v us rm o → (v ≤ version_of h σ)%N) →
  (∀ u, u ∈ new → is_writing u = false ∧ task_retired u = None) →
  writes_inv σ' (new ++ rest).
Proof.
  intros [H1 H2 H3 H4 H5] Hc Hl Hw He Hv Hn.
  assert (∀ s h v b, Writing s h v b ∈ new ++ rest → Writing s h v b ∈ rest) as Hin'.
  { intros s h v b [Hin|Hin]%elem_of_app; [by apply Hn in Hin as [? _]|done]. }
  split; rewrite ?Hl; unfold version_of; rewrite ?Hc.
  - intros s h v b e' Hin%Hin' [He'| ->%list_elem_of_singleton]%elem_of_app; [|by eapply Hw].
    by eapply H1; [right|].
  - intros s h v b u R Hin%Hin' [Hu|Hu]%elem_of_app HR Hh.
    + apply Hn in Hu as [_ Hu]. congruence.
    + by eapply H2; [right|right|..].
  - intros s h v b Hin%Hin'. eapply H3. by right.
  - intros h v us rm o [Hin|Hin%list_elem_of_singleton]%elem_of_app; [by eapply H4|].
    by eapply Hv.
  - apply StronglySorted_app. split_and!; [|done|repeat constructor].
    intros e1 e2 Hin ->%list_elem_of_singleton. by apply He.
Qed.

Lemma writes_write s h v b outcome σ σ' rest :
  slots_inv σ (Writing s h v b :: rest) → writes_inv σ (Writing s h v b :: rest) →
  contents σ' = contents σ →
  sink_log σ' = sink_log σ ++ [SinkWrite h v (p_updates b) (p_removed b) outcome] →
  writes_inv σ' (WriterUnlock s :: rest).
Proof.
  intros Hi Hw Hc Hl.
  apply (writes_log σ _ (Writing s h v b) _ [WriterUnlock s]) with (1 := Hw) (2 := Hc) (3 := Hl).
  - intros s' h' v' b' Hin. pose proof (writing_alone _ _ _ _ _ _ _ Hi Hin) as Hh.
    simpl in Hh. destruct (writing_slot s h v b σ _ Hi) as [Hs _]; [by left|].
    destruct (writing_slot s' h' v' b' σ _ Hi) as [Hs' _]; [by right|].
    simplify_eq. by rewrite Nat.eqb_refl in Hh.
  - intros e' He'. pose proof (wi_before _ _ Hw s h v b e' ltac:(by left) He') as H.
    by destruct e'.
  - intros * [= <- <- <- <- <-]. apply (wi_version _ _ Hw s h v b). by left.
  - by intros u ->%list_elem_of_singleton.
Qed.

Lemma writes_delete R outcome σ σ' t new rest :
  writes_inv σ (t :: rest) → task_retired t = Some R → (∀ s, early s t = false) →
  contents σ' = contents σ → sink_log σ' = sink_log σ ++ [SinkDelete R outcome] →
  (∀ u, u ∈ new → is_writing u = false ∧ task_retired u = None) →
  writes_inv σ' (new ++ rest).
Proof.
  intros Hw Ht He Hc Hl Hn.
  apply (writes_log σ _ t _ new) with (1 := Hw) (2 := Hc) (3 := Hl); try done.
  - intros s h v b Hin. simpl. intros Hh.
    pose proof (wi_beside _ _ Hw s h v b t R ltac:(by right) ltac:(by left) Ht Hh) as H.
    by rewrite He in H.
  - by intros [] _.
Qed.

Ltac writes_frame_by :=
  match goal with
  | H : writes_inv ?σ (?t :: _) |- _ =>
    apply (writes_frame σ _ t); try done;
      try (by intros u [->|[]%not_elem_of_nil]%elem_of_cons);
      try (by intros u []%not_elem_of_nil);
      try (by intros u R s0 h0 v0 b0 [->|[]%not_elem_of_nil]%elem_of_cons);
      try (by intros u R s0 h0 v0 b0 []%not_elem_of_nil)
  end.

Lemma writes_task outcome t σ σ' new rest :
  slots_inv σ (t :: rest) → handles_inv σ (t :: rest) → retired_inv σ (t :: rest) →
  writes_inv σ (t :: rest) → task_step outcome t σ = Some (σ', new) →
  writes_inv σ' (new ++ rest).
Proof.
  intros Hi Hh Hr Hw Hstep.
  pose proof (task_log _ _ _ _ _ Hstep) as Hlog.
  destruct (task_handles_kept _ _ _ _ _ Hstep) as [_ Hc].
  destruct t; unfold_step Hstep; cbv iota in Hlog; rewrite ?app_nil_r in Hlog;
    try (unfold lock in Hstep; case_match eqn:Hl; [done|]);
    try (injection Hstep as ? <-).
  - destruct (standing h σ) as [|[]|]; injection Hstep as ? <-; writes_frame_by.
  - injection Hstep as Hq. unfold queue in Hq. case_match; injection Hq as ? <-; writes_frame_by.
  - writes_frame_by.
  - writes_frame_by.
  - writes_frame_by.
  - destruct (judge s batch registered σ) as [h|r] eqn:Hj; injection Hstep as ? <-;
      [|writes_frame_by].
    apply (judge_alive s batch registered σ) in Hj as [Ha Hg]; [|exact (Forall_inv (hi_tasks _ _ Hh))|].
    2: { by apply (hi_lineage _ _ Hh). }
    by apply (writes_start s h batch σ _ _ rest Hw).
  - by eapply writes_write.
  - writes_frame_by.
  - case_match; injection Hstep as ? <-; writes_frame_by.
  - case_match; injection Hstep as ? <-; writes_frame_by.
  - writes_frame_by.
  - writes_frame_by.
  - writes_frame_by.
  - destruct (slots σ) as [s'|] eqn:Hs'; writes_frame_by;
      intros u R s h v b [->|[]%not_elem_of_nil]%elem_of_cons HR Hin _;
      (destruct (writing_slot s h v b σ _ Hi) as [Hs _]; [by right|]); simplify_eq.
    by apply Nat.eqb_eq.
  - apply (writes_delete retired outcome σ _ (DeleteBare retired) []); try done.
    by intros u []%not_elem_of_nil.
  - writes_frame_by. intros u R s' h v b [->|[]%not_elem_of_nil]%elem_of_cons [= <-] Hin Hh'.
    pose proof (wi_beside _ _ Hw s' h v b _ retired ltac:(by right) ltac:(by left) eq_refl Hh') as He.
    simpl in He. apply Nat.eqb_eq in He as ->.
    destruct (writing_slot s h v b σ _ Hi) as [_ Hlo]; [by right|]. congruence.
  - apply (writes_delete retired outcome σ _ (Deleting retired s) [_]); try done.
    by intros u ->%list_elem_of_singleton.
  - writes_frame_by.
  - writes_frame_by.
  - destruct (source leftover); [case_match|]; injection Hstep as ? <-; writes_frame_by.
  - destruct (queue leftover σ) as [σq nq] eqn:Hq. injection Hstep as ? <-.
    unfold queue in Hq. case_match; injection Hq as ? <-; writes_frame_by.
    + by intros u [->|[->|[]%not_elem_of_nil]%elem_of_cons]%elem_of_cons.
    + by intros u R s' h v b [->|[->|[]%not_elem_of_nil]%elem_of_cons]%elem_of_cons.
  - writes_frame_by.
  - destruct (slots σ); writes_frame_by.
  - writes_frame_by.
  - writes_frame_by.
Qed.

Lemma writes_event ev σ ts σ' new :
  writes_inv σ ts → event_step ev σ ts = Some (σ', new) → writes_inv σ' (new ++ ts).
Proof.
  intros Hw Hstep.
  assert (sink_log σ' = sink_log σ) as Hlog
    by (destruct ev; cbn [event_step] in Hstep; by repeat case_match; simplify_eq).
  assert (∀ h, (version_of h σ ≤ version_of h σ')%N) as Hv.
  { intros h'. destruct ev; cbn [event_step] in Hstep; repeat case_match; simplify_eq; try done;
      unfold version_of; simpl.
    all: destruct (decide (h = h')) as [->|]; [|by rewrite lookup_insert_ne].
    all: rewrite lookup_insert_eq; simpl; destruct (contents _ !! h') eqn:?; simpl; try done; lia. }
  assert (∀ u, u ∈ new → is_writing u = false ∧ task_retired u = None) as Hn.
  { intros u Hu. destruct ev; cbn [event_step] in Hstep; repeat case_match; simplify_eq;
      repeat (apply elem_of_cons in Hu as [->|Hu]); try done; by apply not_elem_of_nil in Hu. }
  destruct Hw as [H1 H2 H3 H4 H5].
  assert (∀ s h v b, Writing s h v b ∈ new ++ ts → Writing s h v b ∈ ts) as Hin'.
  { intros s h v b [Hin|Hin]%elem_of_app; [by apply Hn in Hin as [? _]|done]. }
  split; rewrite ?Hlog; try done.
  - intros s h v b e Hin%Hin'. by eapply H1.
  - intros s h v b u R Hin%Hin' [Hu|Hu]%elem_of_app HR; [|by eapply H2].
    apply Hn in Hu as [_ Hu]. congruence.
  - intros s h v b Hin%Hin'. etransitivity; [by eapply H3|done].
  - intros h v us rm o Hin. etransitivity; [by eapply H4|done].
Qed.

Lemma writes_reachable σ ts : reachable (σ, ts) → writes_inv σ ts.
Proof.
  apply (reachable_ind (λ σ ts, slots_inv σ ts ∧ handles_inv σ ts ∧ retired_inv σ ts)).
  - intros τ us H. split_and!; [by apply slots_reachable|by apply handles_reachable|].
    by apply retired_reachable.
  - apply _.
  - split; simpl; try (by intros * ?%not_elem_of_nil). constructor.
  - intros outcome t τ rest τ' new (? & ? & ?) ? _ ?. by eapply writes_task.
  - intros ev τ us τ' new _ ? _ ?. by eapply writes_event.
  - intros τ ? <- us vs H. by rewrite H.
Qed.

(** ** The properties *)

(** C15: A deleted session stays deleted: once the storage call of a deletion
    has ended, no write of a handle that the deletion had retired ends after
    it, whether it succeeds or fails; whatever the tasks and the callers do
    in between, including the re-creation of the session. *)
Theorem deleted_never_written σ ts l1 R o l2 h v us rm o' :
  reachable (σ, ts) → sink_log σ = l1 ++ SinkDelete R o :: l2 →
  SinkWrite h v us rm o' ∈ l2 → h ∉ R.
Proof.
  intros Hr Hl Hin. pose proof (wi_sorted _ _ (writes_reachable _ _ Hr)) as Hs.
  rewrite Hl in Hs. apply StronglySorted_app in Hs as (_ & _ & Hs).
  apply StronglySorted_inv in Hs as [_ Hs].
  exact (proj1 (Forall_forall _ _) Hs _ Hin).
Qed.

(** Writes of a session never race and never go back: at most one write
    is in flight, it holds the lock of the session's registered slot, and the
    versions of a handle reach the storage in the order they were stored. *)
Theorem writes_ordered σ ts :
  reachable (σ, ts) →
  count is_writing ts ≤ 1 ∧
  (∀ s h v b, Writing s h v b ∈ ts → slots σ = Some s ∧ locked (slot_at s σ) = true) ∧
  (∀ l1 h v us rm o l2 v' us' rm' o',
     sink_log σ = l1 ++ SinkWrite h v us rm o :: l2 → SinkWrite h v' us' rm' o' ∈ l2 →
     (v ≤ v')%N).
Proof.
  intros Hr. pose proof (slots_reachable _ _ Hr) as Hi. split_and!.
  - destruct (slots σ) as [s|] eqn:Hs.
    + transitivity (count (holds s) ts).
      2: { rewrite (si_locks _ _ Hi s). destruct (locked _); simpl; lia. }
      apply count_mono. intros t Hin Ht. destruct t; try done.
      destruct (writing_slot _ _ _ _ _ _ Hi Hin) as [Hs' _]. simplify_eq. apply Nat.eqb_refl.
    + enough (count is_writing ts = 0) as -> by lia. apply count_zero. intros t Hin.
      destruct t; try done. destruct (writing_slot _ _ _ _ _ _ Hi Hin) as [Hs' _]. congruence.
  - intros s h v b. by apply writing_slot.
  - intros l1 h v us rm o l2 v' us' rm' o' Hl Hin.
    pose proof (wi_sorted _ _ (writes_reachable _ _ Hr)) as Hs. rewrite Hl in Hs.
    apply StronglySorted_app in Hs as (_ & _ & Hs). apply StronglySorted_inv in Hs as [_ Hs].
    by apply (proj1 (Forall_forall _ _) Hs _ Hin).
Qed.

(** ** The session persister: schedules

    Concrete runs: the witnesses of the theorems, and two schedules in which
    the code does not do what its comments promise. *)

(** [n] turns of the first task, the storage answering well. *)
Definition turns (n : nat) : list choice := replicate n (Turn 0 (Ok tt)).

Definition played (xs : list choice) : SessionPersister * list Task :=
  default (SessionPersister_new, []) (play xs (SessionPersister_new, [])).

(** Load a handle, store a version in it and request its persist. *)
Definition persist (h w : N) : list choice :=
  [Do (EvLoad h); Do (EvStore h); Do (EvEnqueue h [] [] (Some w))].

(** Up to the running write. *)
Definition write_begins : list choice := persist 0 7 ++ turns 6.

Definition writing_task : Task := Writing 0 0 1 (mkPending (Some 0%N) [] [] [7%N]).

Example writing_ex : (played write_begins).2 = [writing_task].
Proof. vm_compute. reflexivity. Qed.

(** A deletion of the session, and a write of the re-created one. *)
Definition delete_then_write : list choice :=
  persist 0 7 ++ turns 9 ++ [Do (EvDelete None)] ++ turns 5 ++ persist 1 8 ++ turns 9.

Definition log_of (xs : list choice) : list (option (N * N)) :=
  (λ e, match e with SinkWrite h v _ _ _ => Some (h, v) | SinkDelete _ _ => None end)
    <$> sink_log (played xs).1.

Example delete_then_write_ex : log_of delete_then_write = [Some (0, 1); None; Some (1, 1)]%N.
Proof. vm_compute. reflexivity. Qed.

(** ** Deviations *)

Definition bare_delete : list choice :=
  [Do (EvDelete None)] ++ turns 4 ++ persist 1 8 ++ turns 6.

(** A deletion that finds no slot locks nothing: its storage call runs
    beside the write of a session loaded again, and erases it after the write
    was acknowledged although its handle was not retired. *)
Theorem delete_overlaps_write :
  ∃ σ R b σ', reachable (σ, [Writing 0 1 1 b; DeleteBare R]) ∧ waiters b = [8%N] ∧ (1%N ∉ R) ∧
  reachable (σ', []) ∧ answers σ' = [(8%N, Ok tt)] ∧
  sink_log σ' = [SinkWrite 1 1 [] [] (Ok tt); SinkDelete R (Ok tt)].
Proof.
  exists (played bare_delete).1, ∅, (mkPending (Some 1%N) [] [] [8%N]),
    (played (bare_delete ++ turns 4)).1.
  split_and!; try (by vm_compute).
  - apply (play_reachable bare_delete). by vm_compute.
  - apply (play_reachable (bare_delete ++ turns 4)). by vm_compute.
Qed.

(** While a deletion hands the request of a re-created session over to a new
    slot, the session does not count as unflushed although it is queued. *)
Definition handover : list choice :=
  persist 0 7 ++ turns 6 ++ [Do (EvDelete None)] ++ turns 4 ++ persist 1 8 ++ turns 2 ++
  [Turn 1 (Ok tt); Turn 0 (Ok tt); Turn 1 (Ok tt)] ++ turns 4.

Theorem unflushed_misses_handover :
  ∃ σ s b, reachable (σ, [DeleteQueue s b; WriterCheck s]) ∧ source b = Some 1%N ∧
  is_deleted 1 σ = false ∧ waiters b = [8%N] ∧ has_unflushed σ = false.
Proof.
  exists (played handover).1, 0, (mkPending (Some 1%N) [] [] [8%N]).
  split_and!; try (by vm_compute). apply (play_reachable handover). by vm_compute.
Qed.

(** ** Witnesses *)

Lemma persister_terminates_witness :
  nsteps move 3 ((played write_begins).1, [writing_task]) (played (write_begins ++ turns 3)) ∧
  3 ≤ remaining (played write_begins).1 [writing_task].
Proof.
  assert (nsteps move 3 ((played write_begins).1, [writing_task])
            (played (write_begins ++ turns 3))) as Hn
    by (apply (play_nsteps (turns 3)); by vm_compute).
  split; [exact Hn|]. refine (persister_terminates _ _ 3 _ _ Hn).
  apply (play_reachable write_begins). by vm_compute.
Defined.

Lemma persister_drains_witness :
  reachable ((played write_begins).1, [writing_task]) ∧ (answers (played (write_begins ++ turns 3)).1).*1 ≡ₚ [7%N].
Proof.
  assert (reachable ((played write_begins).1, [writing_task])) as Hr
    by (apply (play_reachable write_begins); by vm_compute).
  split; [exact Hr|].
  destruct (persister_drains (played write_begins).1 [writing_task] Hr (played (write_begins ++ turns 3)).1 [])
    as [[c Hc]|(_ & _ & _ & _ & H)].
  - apply rtc_nsteps_2 with 3. apply (play_nsteps (turns 3)); by vm_compute.
  - by apply no_move in Hc.
  - exact H.
Defined.

Lemma deleted_never_written_witness :
  ∃ l1 R o l2, sink_log (played delete_then_write).1 = l1 ++ SinkDelete R o :: l2 ∧
  SinkWrite 1 1 [] [] (Ok tt) ∈ l2 ∧ (0%N ∈ R) ∧ 1%N ∉ R.
Proof.
  assert (reachable ((played delete_then_write).1, (played delete_then_write).2)) as Hr
    by (apply (play_reachable delete_then_write); by vm_compute).
  exists [SinkWrite 0 1 [] [] (Ok tt)], {[0%N]}, (Ok tt), [SinkWrite 1 1 [] [] (Ok tt)].
  split_and!; [by vm_compute|by left|set_solver|].
  apply (deleted_never_written _ _ [SinkWrite 0 1 [] [] (Ok tt)] {[0%N]} (Ok tt)
    [SinkWrite 1 1 [] [] (Ok tt)] 1 1 [] [] (Ok tt) Hr); [by vm_compute|by left].
Defined.

Lemma writes_ordered_witness :
  writing_task ∈ (played write_begins).2 ∧ locked (slot_at 0 (played write_begins).1) = true.
Proof.
  assert (reachable ((played write_begins).1, (played write_begins).2)) as Hr
    by (apply (play_reachable write_begins); by vm_compute).
  assert (writing_task ∈ (played write_begins).2) as Hin by (vm_compute; by left).
  split; [exact Hin|].
  destruct (writes_ordered _ _ Hr) as (_ & H & _). by destruct (H 0 0%N 1%N _ Hin) as [_ ?].
Defined.
