(* ===== verification/LruCache.v ===== *)
(** * The LRU cache

    [core/core/cache.rs]: a bounded map that evicts, from a rotating sample of
    its entries, the one with the highest priority score; its counters, and
    the manager that aggregates caches of any key and value type through the
    trait [CacheProvider].  [now] is the Unix time in seconds.  Atomic
    counters wrap around; [try_send] on the event channel drops events when
    1000 are queued. *)

From stdpp Require Import gmap.
From S2P Require Import Prelude RustStd Collections F32.

Definition EVICTION_SAMPLE : nat := 20.
Definition EVICTION_EVENTS : nat := 1000.
Definition CAPACITY_ZERO : string := "Cache capacity must be greater than 0".

Record CacheStats := mkCacheStats {
  st_name : string;
  st_current_size : N;
  st_capacity : N;
  st_utilization : f64;
  st_total_requests : N;
  st_hits : N;
  st_misses : N;
  st_evictions : N;
  st_hit_rate : f64;
  st_miss_rate : f64;
  st_avg_lookup_time_ns : N;
  st_created_at : N;
  st_uptime_seconds : N;
}.

(** ** Entries *)

Record CacheEntry (V : Type) := mkCacheEntry {
  value : V;
  access_count : N;
  last_accessed : N;
  ce_created_at : N;
}.
Arguments mkCacheEntry {V} _ _ _ _.
Arguments value {V} _.
Arguments access_count {V} _.
Arguments last_accessed {V} _.
Arguments ce_created_at {V} _.

Definition new_with_logical_time {V} (v : V) (t : N) : CacheEntry V := mkCacheEntry v 1 t t.

Definition touch {V} (t : N) (e : CacheEntry V) : CacheEntry V :=
  mkCacheEntry (value e) (u64_add (access_count e) 1) t (ce_created_at e).

Definition priority_score {V} (t : N) (e : CacheEntry V) : N :=
  u64_add (t - last_accessed e)
    (if (0 <? access_count e)%N then 1000 / access_count e else 1000).

Inductive EvictionEvent (K : Type) :=
| Evicted (key : K) (timestamp : N).
Arguments Evicted {K} _ _.

Section Cache.
Context {K V : Type} `{Countable K} `{MapOrder}.

(** ** The cache *)

Record Cache := mkCache {
  data : gmap K (CacheEntry V);
  capacity : N;
  current_size : N;
  global_access_counter : N;
  hits : N;
  misses : N;
  evictions : N;
  eviction_cursor : N;
  name : string;
  created_at : N;
  eviction_events : list (EvictionEvent K);
}.

Definition Cache_new (now cap : N) (nm : string) : result Cache string :=
  if (cap =? 0)%N then Err CAPACITY_ZERO
  else Ok (mkCache ∅ cap 0 0 0 0 0 0 nm now []).

Definition set_data m sz c := mkCache m (capacity c) sz (global_access_counter c) (hits c)
  (misses c) (evictions c) (eviction_cursor c) (name c) (created_at c) (eviction_events c).
Definition set_clock t c := mkCache (data c) (capacity c) (current_size c) t (hits c)
  (misses c) (evictions c) (eviction_cursor c) (name c) (created_at c) (eviction_events c).
Definition set_cursor i c := mkCache (data c) (capacity c) (current_size c)
  (global_access_counter c) (hits c) (misses c) (evictions c) i (name c) (created_at c)
  (eviction_events c).
Definition set_counters h m e c := mkCache (data c) (capacity c) (current_size c)
  (global_access_counter c) h m e (eviction_cursor c) (name c) (created_at c)
  (eviction_events c).
Definition set_capacity cap c := mkCache (data c) cap (current_size c)
  (global_access_counter c) (hits c) (misses c) (evictions c) (eviction_cursor c) (name c)
  (created_at c) (eviction_events c).
Definition set_events evs c := mkCache (data c) (capacity c) (current_size c)
  (global_access_counter c) (hits c) (misses c) (evictions c) (eviction_cursor c) (name c)
  (created_at c) evs.

Definition contains_key (k : K) (c : Cache) : bool := bool_decide (is_Some (data c !! k)).

Definition get (k : K) (c : Cache) : Cache * option V :=
  match data c !! k with
  | Some e =>
    let t := u64_add (global_access_counter c) 1 in
    let c := set_clock t (set_data (<[k := touch t e]> (data c)) (current_size c) c) in
    (set_counters (u64_add (hits c) 1) (misses c) (evictions c) c, Some (value e))
  | None => (set_counters (hits c) (u64_add (misses c) 1) (evictions c) c, None)
  end.

(** ** Eviction *)

(** The window of [n] elements that begins at [start] and wraps around. *)
Definition window {A} (start n : nat) (xs : list A) : list A :=
  let sampled := take n (drop start xs) in
  sampled ++ take (n - length sampled) xs.

(** The first entry of the highest priority, but [exclude]. *)
Definition consider (exclude : option K) (t : N) (best : option K * N) (kv : K * CacheEntry V)
    : option K * N :=
  if bool_decide (exclude = Some kv.1) then best
  else
    let priority := priority_score t kv.2 in
    if bool_decide (best.1 = None) || (best.2 <? priority)%N then (Some kv.1, priority) else best.

Definition eviction_candidate (exclude : option K) (t : N) (sample : list (K * CacheEntry V))
    : option K := (foldl (consider exclude t) (None, 0%N) sample).1.

Definition remove_entry (k : K) (c : Cache) : Cache * option V :=
  match data c !! k with
  | Some e => (set_data (delete k (data c)) (u64_sub (current_size c) 1) c, Some (value e))
  | None => (c, None)
  end.

Definition try_send (ev : EvictionEvent K) (c : Cache) : Cache :=
  if Nat.ltb (length (eviction_events c)) EVICTION_EVENTS
  then set_events (eviction_events c ++ [ev]) c else c.

Definition try_evict_excluding (now : N) (exclude : option K) (c : Cache) : Cache :=
  if (current_size c <? capacity c)%N then c
  else
    let len := size (data c) in
    if Nat.eqb len 0 then c
    else
      let sample_size := EVICTION_SAMPLE `min` len in
      let start := N.to_nat (eviction_cursor c `mod` N.of_nat len) in
      let c := set_cursor (u64_add (eviction_cursor c) (N.of_nat sample_size)) c in
      match eviction_candidate exclude (global_access_counter c)
              (window start sample_size (iter_order (data c))) with
      | Some k =>
        match remove_entry k c with
        | (c, Some _) =>
          let c := set_counters (hits c) (misses c) (u64_add (evictions c) 1) c in
          try_send (Evicted k now) c
        | (c, None) => c
        end
      | None => c
      end.

(** ** Operations *)

Definition put (now : N) (k : K) (v : V) (c : Cache) : Cache * option V :=
  let t := u64_add (global_access_counter c) 1 in
  let c := set_clock t c in
  let c := if (capacity c <=? current_size c)%N && negb (contains_key k c)
           then try_evict_excluding now (Some k) c else c in
  let old := value <$> data c !! k in
  let size := match old with Some _ => current_size c | None => u64_add (current_size c) 1 end in
  (set_data (<[k := new_with_logical_time v t]> (data c)) size c, old).

Definition remove (k : K) (c : Cache) : Cache * option V := remove_entry k c.

Definition clear (c : Cache) : Cache := set_data ∅ 0 c.

Definition len (c : Cache) : N := current_size c.
Definition is_empty (c : Cache) : bool := (current_size c =? 0)%N.

Definition reset_metrics (c : Cache) : Cache := set_counters 0 0 0 c.

Definition resize (now new_capacity : N) (c : Cache) : Cache * result unit string :=
  if (new_capacity =? 0)%N then (c, Err CAPACITY_ZERO)
  else
    let c := set_capacity new_capacity c in
    let needed := N.to_nat (current_size c - new_capacity) in
    (Nat.iter needed (try_evict_excluding now None) c, Ok tt).

Definition keys (c : Cache) : list K := (iter_order (data c)).*1.
Definition values (c : Cache) : list V := (λ kv, value kv.2) <$> iter_order (data c).

Definition for_each {S} (f : K → V → S → S) (c : Cache) (s : S) : S :=
  foldl (λ s kv, f kv.1 (value kv.2) s) s (iter_order (data c)).

Definition drain_eviction_events (c : Cache) : Cache * list (EvictionEvent K) :=
  (set_events [] c, eviction_events c).

(** ** Statistics *)

Definition ratio (n d : N) : f64 :=
  if (0 <? d)%N then f64_div (f64_of_N n) (f64_of_N d) else f64_zero.

Definition get_stats (now : N) (c : Cache) : CacheStats :=
  let total := u64_add (hits c) (misses c) in
  let hit_rate := ratio (hits c) total in
  mkCacheStats (name c) (current_size c) (capacity c) (ratio (current_size c) (capacity c)) total
    (hits c) (misses c) (evictions c) hit_rate (f64_sub f64_one hit_rate) 0 (created_at c)
    (now - created_at c).
End Cache.

Arguments Cache K V {_ _}.

Definition stats_issues (s : CacheStats) : bool :=
  if f64_lt (st_hit_rate s) (f64_tenths 3) && (100 <? st_total_requests s)%N then true
  else if (1000000 <? st_avg_lookup_time_ns s)%N then true
  else f64_lt (f64_tenths 5) (ratio (st_evictions s) (st_total_requests s)).

Definition has_performance_issues `{Countable K} {V} (now : N) (c : Cache K V) : bool :=
  stats_issues (get_stats now c).

(** ** The cache manager *)

(** [dyn CacheProvider]: the clock is an argument of what reads it. *)
Class CacheProvider (T : Type) := {
  cp_get_stats : N → T → CacheStats;
  cp_reset_metrics : T → T;
  cp_has_performance_issues : N → T → bool;
}.

Definition cache_provider `{Countable K} {V} : CacheProvider (Cache K V) := {|
  cp_get_stats := get_stats;
  cp_reset_metrics := reset_metrics;
  cp_has_performance_issues := has_performance_issues;
|}.
#[global] Existing Instance cache_provider.

Record DynCache := mkDynCache {
  dc_type : Type;
  dc_provider : CacheProvider dc_type;
  dc_cache : dc_type;
}.
#[global] Existing Instance dc_provider.

Record CacheManager := mkCacheManager {
  caches : gmap string DynCache;
  total_requests : N;
  total_hits : N;
  total_misses : N;
  total_evictions : N;
}.

Definition CacheManager_new : CacheManager := mkCacheManager ∅ 0 0 0 0.

Record CacheManagerSummary := mkCacheManagerSummary {
  cache_count : nat;
  sum_requests : N;
  sum_hits : N;
  sum_evictions : N;
  average_hit_rate : f64;
  problematic_caches : list string;
  individual_stats : list CacheStats;
}.

Section manager.
Context `{MapOrder}.

Definition register_cache `{Countable K} {V} (nm : string) (c : Cache K V) (cm : CacheManager)
    : CacheManager :=
  mkCacheManager (<[nm := mkDynCache (Cache K V) _ c]> (caches cm)) (total_requests cm)
    (total_hits cm) (total_misses cm) (total_evictions cm).

Definition dyn_stats (now : N) (d : DynCache) : CacheStats := cp_get_stats now (dc_cache d).
Definition dyn_issues (now : N) (d : DynCache) : bool :=
  cp_has_performance_issues now (dc_cache d).
Definition dyn_reset (d : DynCache) : DynCache :=
  mkDynCache (dc_type d) (dc_provider d) (cp_reset_metrics (dc_cache d)).

Definition get_all_stats (now : N) (cm : CacheManager) : list CacheStats :=
  (λ kv, dyn_stats now kv.2) <$> iter_order (caches cm).

Definition has_any_performance_issues (now : N) (cm : CacheManager) : bool :=
  existsb (λ kv, dyn_issues now kv.2) (iter_order (caches cm)).

Definition reset_all_metrics (cm : CacheManager) : CacheManager :=
  mkCacheManager (dyn_reset <$> caches cm) 0 0 0 0.

Definition sum_u64 (ns : list N) : N := foldl u64_add 0%N ns.

Definition get_summary (now : N) (cm : CacheManager) : CacheManagerSummary :=
  let stats := get_all_stats now cm in
  let requests := sum_u64 (st_total_requests <$> stats) in
  let found := sum_u64 (st_hits <$> stats) in
  mkCacheManagerSummary (length stats) requests found (sum_u64 (st_evictions <$> stats))
    (ratio found requests)
    ((filter (λ kv, dyn_issues now kv.2 = true) (iter_order (caches cm))).*1) stats.
End manager.
