(* ===== verification/LruCacheThms.v ===== *)
(** * The LRU cache: theorems

    The cache refines a bounded map that may lose an entry when it is full
    ([spec_step]); what an eviction picks, and that its rotating window
    reaches every entry. *)

From stdpp Require Import gmap.
From S2P Require Import Prelude RustStd Collections F32 LruCache.

Lemma u64_add_small a b : (a + b < u64_mod → u64_add a b = a + b)%N.
Proof. intros H. unfold u64_add. by apply N.mod_small. Qed.

Lemma u64_sub_small a b : (b ≤ a → a < u64_mod → u64_sub a b = a - b)%N.
Proof.
  intros Hb Ha. unfold u64_sub. rewrite (N.mod_small b) by lia.
  replace (a + u64_mod - b)%N with (a - b + 1 * u64_mod)%N by lia.
  rewrite N.Div0.mod_add. apply N.mod_small. lia.
Qed.

(** ** Calls and their specification *)

Inductive cache_op (K V : Type) :=
| OpGet (k : K)
| OpPut (now : N) (k : K) (v : V)
| OpRemove (k : K)
| OpClear
| OpResize (now new_capacity : N)
| OpReset
| OpDrain.
Arguments OpGet {K V} _.
Arguments OpPut {K V} _ _ _.
Arguments OpRemove {K V} _.
Arguments OpClear {K V}.
Arguments OpResize {K V} _ _.
Arguments OpReset {K V}.
Arguments OpDrain {K V}.

Inductive reply (V : Type) := Value (v : option V) | Done (r : result unit string).
Arguments Value {V} _.
Arguments Done {V} _.

Definition apply_op `{Countable K} {V} `{MapOrder} (op : cache_op K V) (c : Cache K V)
    : Cache K V * reply V :=
  match op with
  | OpGet k => let '(c, v) := get k c in (c, Value v)
  | OpPut now k v => let '(c, v) := put now k v c in (c, Value v)
  | OpRemove k => let '(c, v) := remove k c in (c, Value v)
  | OpClear => (clear c, Done (Ok tt))
  | OpResize now n => let '(c, r) := resize now n c in (c, Done r)
  | OpReset => (reset_metrics c, Done (Ok tt))
  | OpDrain => ((drain_eviction_events c).1, Done (Ok tt))
  end.

(** A bounded map: only a new key in a full one costs an entry, and only
    shrinking it costs others. *)
Inductive spec_step `{Countable K} {V}
    : gmap K V * N → cache_op K V → reply V → gmap K V * N → Prop :=
| spec_get m cap k : spec_step (m, cap) (OpGet k) (Value (m !! k)) (m, cap)
| spec_put m cap now k v :
    is_Some (m !! k) ∨ (N.of_nat (size m) < cap)%N →
    spec_step (m, cap) (OpPut now k v) (Value (m !! k)) (<[k := v]> m, cap)
| spec_put_full m cap now k v victim :
    m !! k = None → N.of_nat (size m) = cap → is_Some (m !! victim) →
    spec_step (m, cap) (OpPut now k v) (Value None) (<[k := v]> (delete victim m), cap)
| spec_remove m cap k : spec_step (m, cap) (OpRemove k) (Value (m !! k)) (delete k m, cap)
| spec_clear m cap : spec_step (m, cap) OpClear (Done (Ok tt)) (∅, cap)
| spec_resize_zero m cap now :
    spec_step (m, cap) (OpResize now 0) (Done (Err CAPACITY_ZERO)) (m, cap)
| spec_resize m m' cap now n :
    n ≠ 0%N → m' ⊆ m → N.of_nat (size m') = N.min (N.of_nat (size m)) n →
    spec_step (m, cap) (OpResize now n) (Done (Ok tt)) (m', n)
| spec_reset m cap : spec_step (m, cap) OpReset (Done (Ok tt)) (m, cap)
| spec_drain m cap : spec_step (m, cap) OpDrain (Done (Ok tt)) (m, cap).

(** A capacity is a [usize]. *)
Definition op_ok {K V} (op : cache_op K V) : Prop :=
  match op with OpResize _ n => (n < u64_mod)%N | _ => True end.

(** ** Windows *)

Lemma window_lookup {A} start n (xs : list A) i :
  n ≤ length xs → start < length xs → i < n →
  window start n xs !! i = xs !! ((start + i) `mod` length xs).
Proof.
  intros Hn Hs Hi. unfold window.
  assert (length (take n (drop start xs)) = n `min` (length xs - start)) as Hl
    by (by rewrite length_take, length_drop).
  destruct (decide (start + i < length xs)) as [Hlt|Hge].
  - rewrite lookup_app_l by lia. rewrite lookup_take_lt by done.
    by rewrite lookup_drop, Nat.mod_small.
  - rewrite lookup_app_r by lia. rewrite Hl, lookup_take_lt by lia.
    f_equal. replace (start + i) with (start + i - length xs + 1 * length xs) at 1 by lia.
    rewrite Nat.Div0.mod_add, Nat.mod_small by lia. lia.
Qed.

Lemma window_elem {A} start n (xs : list A) x :
  n ≤ length xs → start < length xs → x ∈ window start n xs →  x ∈ xs.
Proof.
  intros _ _. unfold window. intros [Hx|Hx]%elem_of_app.
  - apply elem_of_take in Hx as (i & Hx & _). rewrite lookup_drop in Hx. by eapply list_elem_of_lookup_2.
  - apply elem_of_take in Hx as (i & Hx & _). by eapply list_elem_of_lookup_2.
Qed.

(** ** What an eviction picks *)

Section evict.
Context {K V : Type} `{Countable K}.
Implicit Types (sample : list (K * CacheEntry V)) (k : K).

(** [k] is a best choice among the entries of [sample] but [exclude]. *)
Definition best_of (exclude : option K) (t : N) sample (best : option K * N) : Prop :=
  match best.1 with
  | None => ∀ kv, kv ∈ sample → exclude = Some kv.1
  | Some k => exclude ≠ Some k ∧ (∃ e, (k, e) ∈ sample ∧ priority_score t e = best.2) ∧
              ∀ kv, kv ∈ sample → exclude ≠ Some kv.1 → (priority_score t kv.2 ≤ best.2)%N
  end.

Lemma consider_best exclude t sample best kv :
  best_of exclude t sample best → best_of exclude t (sample ++ [kv]) (consider exclude t best kv).
Proof.
  intros Hb. unfold consider. case_bool_decide as He.
  { unfold best_of in *. destruct best.1.
    - destruct Hb as (H1 & (e & He' & Hp) & H2). split_and!; [done| |].
      + exists e. split; [set_solver|done].
      + intros kv' [Hin| ->%list_elem_of_singleton]%elem_of_app Hne; [by apply H2|done].
    - intros kv' [Hin| ->%list_elem_of_singleton]%elem_of_app; auto. }
  destruct kv as [k e]. simpl in *. destruct best as [[k'|] p']; simpl.
  - destruct (N.ltb_spec p' (priority_score t e)); unfold best_of in *; simpl in *.
    + split_and!; [done|exists e; set_solver|].
      intros kv' [Hin| ->%list_elem_of_singleton]%elem_of_app Hne; [|done].
      destruct Hb as (_ & _ & Hb). specialize (Hb _ Hin Hne). lia.
    + destruct Hb as (H1 & (e' & He' & Hp) & H2). split_and!; [done|exists e'; set_solver|].
      intros kv' [Hin| ->%list_elem_of_singleton]%elem_of_app Hne; [by apply H2|done].
  - unfold best_of in *; simpl in *. split_and!; [done|exists e; set_solver|].
    intros kv' [Hin| ->%list_elem_of_singleton]%elem_of_app Hne; [|done].
    by destruct Hne; apply Hb.
Qed.

Lemma candidate_best exclude t sample :
  best_of exclude t sample (foldl (consider exclude t) (None, 0%N) sample).
Proof.
  induction sample as [|kv sample IH] using rev_ind; [by intros kv ?%not_elem_of_nil|].
  rewrite foldl_snoc. by apply consider_best.
Qed.
End evict.

(** ** Invariant *)

Section cache.
Context {K V : Type} `{Countable K} `{MapOrderLaws}.
Implicit Types (c : Cache K V) (k : K) (v : V).

(** The size counter is the number of entries. *)
Definition counted c : Prop :=
  current_size c = N.of_nat (size (data c)) ∧ (current_size c < u64_mod)%N.

Record cache_wf c : Prop := {
  cw_counted : counted c;
  cw_bound : (current_size c ≤ capacity c)%N;
  cw_capacity : (0 < capacity c < u64_mod)%N;
  cw_events : length (eviction_events c) ≤ EVICTION_EVENTS;
}.

Definition entries_of c : list (K * CacheEntry V) := iter_order (data c).

(** The sample the next eviction looks at. *)
Definition next_sample c : list (K * CacheEntry V) :=
  let n := size (data c) in
  window (N.to_nat (eviction_cursor c `mod` N.of_nat n)) (EVICTION_SAMPLE `min` n) (entries_of c).

Lemma length_entries c : length (entries_of c) = size (data c).
Proof. unfold entries_of. by rewrite iter_order_perm, length_map_to_list. Qed.

Lemma cursor_lt (i : N) n : n ≠ 0 → N.to_nat (i `mod` N.of_nat n) < n.
Proof. intros Hn. pose proof (N.mod_lt i (N.of_nat n)). lia. Qed.

Lemma sample_elem c k e : (k, e) ∈ next_sample c → data c !! k = Some e.
Proof.
  unfold next_sample. destruct (decide (size (data c) = 0)) as [Hz|Hz].
  { rewrite Hz. unfold window. simpl. by intros ?%not_elem_of_nil. }
  intros Hin. apply window_elem in Hin.
  - by apply elem_of_iter_order.
  - rewrite length_entries. lia.
  - rewrite length_entries. by apply cursor_lt.
Qed.

Lemma sample_nonempty c : size (data c) ≠ 0 → ∃ k e, (k, e) ∈ next_sample c.
Proof.
  intros Hz. destruct (next_sample c !! 0) as [[k e]|] eqn:Hl.
  { exists k, e. by eapply list_elem_of_lookup_2. }
  unfold next_sample in Hl. pose proof (cursor_lt (eviction_cursor c) _ Hz) as Hc.
  rewrite window_lookup in Hl; rewrite ?length_entries; unfold EVICTION_SAMPLE; try lia.
  rewrite length_entries, Nat.add_0_r, Nat.mod_small in Hl by done.
  apply lookup_ge_None in Hl. rewrite length_entries in Hl. lia.
Qed.

(** What an eviction does to a cache that is full. *)
Record evicted (exclude : option K) c c' (victim : K) (e : CacheEntry V) : Prop := {
  ev_found : data c !! victim = Some e;
  ev_not_excluded : exclude ≠ Some victim;
  ev_data : data c' = delete victim (data c);
  ev_sampled : (victim, e) ∈ next_sample c;
  ev_best k' e' : (k', e') ∈ next_sample c → exclude ≠ Some k' →
    (priority_score (global_access_counter c) e' ≤ priority_score (global_access_counter c) e)%N;
  ev_counted : counted c';
  ev_size : current_size c' = (current_size c - 1)%N;
  ev_capacity : capacity c' = capacity c;
  ev_cursor : eviction_cursor c'
              = u64_add (eviction_cursor c) (N.of_nat (EVICTION_SAMPLE `min` size (data c)));
  ev_events : length (eviction_events c) ≤ EVICTION_EVENTS →
              length (eviction_events c') ≤ EVICTION_EVENTS;
  ev_clock : global_access_counter c' = global_access_counter c;
}.

Lemma try_evict_full now exclude c :
  counted c → (capacity c ≤ current_size c)%N → (0 < current_size c)%N →
  (∀ k, exclude = Some k → data c !! k = None) →
  ∃ victim e, evicted exclude c (try_evict_excluding now exclude c) victim e.
Proof.
  intros Hc Hfull Hpos Hex. pose proof Hc as [Hcs Hlt]. unfold try_evict_excluding.
  rewrite (proj2 (N.ltb_ge _ _)) by done.
  assert (size (data c) ≠ 0) as Hz by lia. rewrite (proj2 (Nat.eqb_neq _ _)) by done.
  fold (entries_of c). fold (next_sample c). unfold eviction_candidate.
  set (c1 := set_cursor _ c). change (global_access_counter c1) with (global_access_counter c).
  pose proof (candidate_best exclude (global_access_counter c) (next_sample c)) as Hb.
  destruct (foldl _ _ (next_sample c)) as [[victim|] p] eqn:Hf; unfold best_of in Hb; simpl in Hb.
  2: { destruct (sample_nonempty c Hz) as (k & e & Hin). specialize (Hb _ Hin). simpl in Hb.
       apply sample_elem in Hin. by rewrite (Hex k Hb) in Hin. }
  destruct Hb as (Hne & (e & Hin & Hp) & Hmax). exists victim, e.
  pose proof (sample_elem _ _ _ Hin) as He. cbn [fst]. unfold remove_entry.
  change (data c1) with (data c). rewrite He.
  assert (size (delete victim (data c)) = size (data c) - 1) as Hsz
    by (rewrite map_size_delete_Some; [lia|by eexists]).
  assert (u64_sub (current_size c) 1 = (current_size c - 1)%N) as Hsub
    by (apply u64_sub_small; lia).
  unfold try_send. destruct (Nat.ltb_spec (length (eviction_events c)) EVICTION_EVENTS) as [Hev|Hev];
    simpl; rewrite (proj2 (Nat.ltb_lt _ _) Hev) || rewrite (proj2 (Nat.ltb_ge _ _) Hev);
    split; simpl; try done; rewrite ?Hsub; try done.
  all: try (split; simpl; rewrite ?Hsz, ?Hsub; lia).
  all: try (intros k' e' Hin' Hne'; rewrite Hp; by apply (Hmax (k', e'))).
  intros _. rewrite length_app. simpl. lia.
Qed.

(** ** Refinement *)

(** What a caller sees of the cache. *)
Definition abs c : gmap K V * N := (value <$> data c, capacity c).

Lemma get_refines k c :
  cache_wf c → cache_wf (get k c).1 ∧ abs (get k c).1 = abs c ∧ (get k c).2 = (abs c).1 !! k.
Proof.
  intros [[Hc Hlt] Hb Hcap Hev]. unfold get, abs. simpl. rewrite lookup_fmap.
  destruct (data c !! k) as [e|] eqn:He; simpl; [|by split_and!; [split|..]].
  split_and!; [|f_equal|done].
  - split; simpl; try done. split; simpl; [|done].
    by rewrite Hc, map_size_insert_Some by by eexists.
  - rewrite fmap_insert. apply insert_id. by rewrite lookup_fmap, He.
Qed.

Lemma remove_refines k c :
  cache_wf c → cache_wf (remove k c).1 ∧ abs (remove k c).1 = (delete k (abs c).1, capacity c) ∧
  (remove k c).2 = (abs c).1 !! k.
Proof.
  intros [[Hc Hlt] Hb Hcap Hev]. unfold remove, remove_entry, abs. simpl. rewrite lookup_fmap.
  destruct (data c !! k) as [e|] eqn:He; simpl.
  - assert (size (delete k (data c)) = size (data c) - 1) as Hsz
      by (rewrite map_size_delete_Some; [lia|by eexists]).
    assert (size (data c) ≠ 0) as Hz
      by (intros Hz%map_size_empty_inv; by rewrite Hz, lookup_empty in He).
    assert (u64_sub (current_size c) 1 = (current_size c - 1)%N) as Hsub
      by (apply u64_sub_small; lia).
    split_and!; [|by rewrite fmap_delete|done].
    split; simpl; rewrite ?Hsub; [split; simpl; rewrite ?Hsub, ?Hsz; lia|lia|done..].
  - split_and!; [by split| |done]. by rewrite delete_id by by rewrite lookup_fmap, He.
Qed.

(** The insertion at the end of [put]. *)
Lemma insert_wf k v t c :
  counted c → (data c !! k = None → (current_size c < capacity c)%N) →
  (current_size c ≤ capacity c)%N → (0 < capacity c < u64_mod)%N →
  length (eviction_events c) ≤ EVICTION_EVENTS →
  cache_wf (set_data (<[k := new_with_logical_time v t]> (data c))
    match value <$> data c !! k with
    | Some _ => current_size c | None => u64_add (current_size c) 1 end c).
Proof.
  intros [Hc Hlt] Hroom Hb Hcap Hev.
  destruct (data c !! k) as [e|] eqn:He; simpl.
  - split; simpl; try done. split; simpl; [|done].
    by rewrite Hc, map_size_insert_Some by by eexists.
  - specialize (Hroom eq_refl). rewrite u64_add_small by lia.
    split; simpl; try done; [|lia]. split; simpl; [|lia].
    rewrite map_size_insert_None by done. lia.
Qed.

Lemma put_refines now k v c :
  cache_wf c →
  cache_wf (put now k v c).1 ∧
  spec_step (abs c) (OpPut now k v) (Value (put now k v c).2) (abs (put now k v c).1).
Proof.
  intros [Hco Hb Hcap Hev]. pose proof Hco as [Hc Hlt]. unfold put.
  set (t := u64_add _ 1). set (c1 := set_clock t c).
  change (current_size c1) with (current_size c). change (capacity c1) with (capacity c).
  change (contains_key k c1) with (contains_key k c).
  unfold contains_key. case_bool_decide as Hk; simpl.
  { rewrite andb_false_r. split.
    - apply (insert_wf k v t c1); try done. intros Hn. destruct Hk as [e He].
      change (data c !! k = None) in Hn. congruence.
    - unfold abs. simpl. rewrite fmap_insert, <-lookup_fmap.
      apply spec_put. left. by rewrite lookup_fmap, fmap_is_Some. }
  apply eq_None_not_Some in Hk. rewrite andb_true_r.
  destruct (N.leb_spec (capacity c) (current_size c)) as [Hfull|Hroom].
  2: { split; [by apply (insert_wf k v t c1)|]. unfold abs. simpl.
       rewrite fmap_insert, <-lookup_fmap. apply spec_put. right.
       rewrite map_size_fmap. lia. }
  destruct (try_evict_full now (Some k) c1) as (victim & e & He); try done; simpl; [lia| |].
  { by intros ? [= <-]. }
  set (c2 := try_evict_excluding now (Some k) c1) in *.
  destruct He as [Hf Hne Hd _ _ Hco2 Hs Hcap2 _ Hev2 _]. simpl in *.
  assert (data c2 !! k = None) as Hk2 by by rewrite Hd, lookup_delete_None; right.
  split.
  - apply (insert_wf k v t c2); rewrite ?Hs, ?Hcap2; try done; [lia|lia|auto].
  - unfold abs. simpl. rewrite Hk2, Hcap2, Hd, fmap_insert, fmap_delete.
    apply spec_put_full.
    + by rewrite lookup_fmap, Hk.
    + rewrite map_size_fmap. lia.
    + rewrite lookup_fmap, Hf. by eexists.
Qed.

(** A loop of [n] evictions of a cache that is too large. *)
Lemma iter_evict now n c :
  counted c → (N.of_nat n + capacity c ≤ current_size c)%N → (0 < capacity c)%N →
  length (eviction_events c) ≤ EVICTION_EVENTS →
  let c' := Nat.iter n (try_evict_excluding now None) c in
  counted c' ∧ current_size c' = (current_size c - N.of_nat n)%N ∧ capacity c' = capacity c ∧
  data c' ⊆ data c ∧ length (eviction_events c') ≤ EVICTION_EVENTS.
Proof.
  intros Hc. induction n as [|n IH]; intros Hn Hcap Hev; simpl; [split_and!; try done; lia|].
  destruct IH as (Hc' & Hs' & Hcap' & Hd' & Hev'); [lia|done|done|].
  set (c' := Nat.iter n _ c) in *.
  destruct (try_evict_full now None c') as (victim & e & He); try done; [lia|lia|].
  destruct He as [_ _ Hd _ _ Hco Hs Hcap2 _ Hev2 _]. rewrite Hs, Hcap2, Hd.
  split_and!; [done|lia|done| |auto]. etrans; [apply delete_subseteq|done].
Qed.

Lemma resize_refines now n c :
  cache_wf c → (n < u64_mod)%N →
  cache_wf (resize now n c).1 ∧
  spec_step (abs c) (OpResize now n) (Done (resize now n c).2) (abs (resize now n c).1).
Proof.
  intros Hwf Hn. unfold resize. destruct (N.eqb_spec n 0) as [->|Hz].
  { split; [done|]. apply spec_resize_zero. }
  pose proof Hwf as [Hco Hb Hcap Hev]. simpl.
  set (c1 := set_capacity n c). set (needed := N.to_nat (current_size c - n)).
  destruct (decide (current_size c ≤ n)%N) as [Hle|Hgt].
  { replace needed with 0 by (unfold needed; lia). simpl. split; [by split; simpl; try done; lia|].
    unfold abs. simpl. apply spec_resize; [done|done|].
    rewrite !map_size_fmap. destruct Hco as [Hc _]. lia. }
  destruct (iter_evict now needed c1) as (Hc' & Hs' & Hcap' & Hd' & Hev'); try done.
  - unfold needed. simpl. lia.
  - simpl. lia.
  - set (c' := Nat.iter needed _ c1) in *. simpl in *. split.
    + split; rewrite ?Hcap'; try done; unfold needed in *; lia.
    + unfold abs. rewrite Hcap'. apply spec_resize; [done|by apply map_fmap_mono|].
      rewrite !map_size_fmap. destruct Hco as [Hc _], Hc' as [Hc' _]. unfold needed in *. lia.
Qed.

Lemma op_refines op c :
  cache_wf c → op_ok op →
  cache_wf (apply_op op c).1 ∧ spec_step (abs c) op (apply_op op c).2 (abs (apply_op op c).1).
Proof.
  intros Hwf Hop. destruct op as [k|now k v|k| |now n| |]; cbn [apply_op].
  - pose proof (get_refines k c Hwf) as (Hw & Ha & Hr). destruct (get k c) as [c' v]. simpl in *.
    rewrite Ha, Hr. split; [done|apply spec_get].
  - pose proof (put_refines now k v c Hwf). by destruct (put now k v c).
  - pose proof (remove_refines k c Hwf) as (Hw & Ha & Hr). destruct (remove k c) as [c' v].
    simpl in *. rewrite Ha, Hr. split; [done|apply spec_remove].
  - split; simpl; [|unfold abs; simpl; rewrite fmap_empty; apply spec_clear].
    destruct Hwf as [[Hc Hlt] Hb Hcap Hev].
    split; simpl; try done; lia.
  - pose proof (resize_refines now n c Hwf Hop). by destruct (resize now n c).
  - split; [|apply spec_reset]. by destruct Hwf as [Hc ???]; split; [exact Hc|..].
  - split; [|apply spec_drain]. destruct Hwf as [Hc ???]. split; [exact Hc|done..|apply Nat.le_0_l].
Qed.

(** A run: the calls, their replies and the state they leave. *)
Fixpoint run_ops (ops : list (cache_op K V)) (c : Cache K V) : list (reply V) * Cache K V :=
  match ops with
  | [] => ([], c)
  | op :: ops =>
    let '(c, r) := apply_op op c in let '(rs, c) := run_ops ops c in (r :: rs, c)
  end.

Inductive spec_run : gmap K V * N → list (cache_op K V) → list (reply V) → gmap K V * N → Prop :=
| spec_nil s : spec_run s [] [] s
| spec_cons s s1 s2 op ops r rs :
    spec_step s op r s1 → spec_run s1 ops rs s2 → spec_run s (op :: ops) (r :: rs) s2.

Lemma run_refines ops c :
  cache_wf c → Forall op_ok ops →
  cache_wf (run_ops ops c).2 ∧ spec_run (abs c) ops (run_ops ops c).1 (abs (run_ops ops c).2).
Proof.
  revert c. induction ops as [|op ops IH]; intros c Hwf Hops; simpl; [split; [done|constructor]|].
  apply Forall_cons in Hops as [Hop Hops].
  destruct (op_refines op c Hwf Hop) as [Hwf' Hs].
  destruct (apply_op op c) as [c1 r]. simpl in *.
  destruct (IH c1 Hwf' Hops) as [Hwf2 Hr]. destruct (run_ops ops c1) as [rs c2]. simpl in *.
  split; [done|]. by econstructor.
Qed.

Lemma cache_new_wf now cap nm c :
  Cache_new now cap nm = Ok c → (cap < u64_mod)%N → cache_wf c ∧ abs c = (∅, cap).
Proof.
  unfold Cache_new. destruct (N.eqb_spec cap 0); [done|]. intros [= <-] Hcap.
  split; [|by unfold abs; simpl; rewrite fmap_empty].
  split; simpl; try done; lia.
Qed.

(** ** The properties *)

(** C9: Whatever calls are made on a new cache, it behaves as a bounded map:
    every lookup, replacement and removal answers with exactly what the map
    holds; replacing a key or inserting below capacity loses nothing,
    inserting a new key into a full cache loses exactly one other entry, and
    shrinking loses exactly the surplus.  The size counter is the number of
    entries, never exceeds the capacity and never wraps around, and at most
    1000 eviction events are queued. *)
Theorem cache_refines_map now cap nm c ops :
  Cache_new now cap nm = Ok c → (cap < u64_mod)%N → Forall op_ok ops →
  let '(replies, c') := run_ops ops c in
  spec_run (∅, cap) ops replies (abs c') ∧
  current_size c' = N.of_nat (size (data c')) ∧ (current_size c' ≤ capacity c')%N ∧
  length (eviction_events c') ≤ EVICTION_EVENTS.
Proof.
  intros Hnew Hcap Hops. destruct (cache_new_wf _ _ _ _ Hnew Hcap) as [Hwf Ha].
  destruct (run_refines ops c Hwf Hops) as [Hwf' Hr]. rewrite Ha in Hr.
  destruct (run_ops ops c) as [rs c']. simpl in *.
  destruct Hwf' as [[Hc _] Hb _ Hev]. by split_and!.
Qed.

(** Inserting a new key into a full cache evicts exactly one entry: one
    whose priority score (ticks since the last access plus 1000 divided by
    the number of accesses) is largest among the sampled window, never the
    new key; the cursor then moves on by the size of the window. *)
Theorem put_evicts_coldest now k v c :
  cache_wf c → data c !! k = None → current_size c = capacity c →
  let t := u64_add (global_access_counter c) 1 in
  ∃ victim e,
    victim ≠ k ∧ (victim, e) ∈ next_sample c ∧
    (∀ k' e', (k', e') ∈ next_sample c → (priority_score t e' ≤ priority_score t e)%N) ∧
    data (put now k v c).1 = <[k := new_with_logical_time v t]> (delete victim (data c)) ∧
    eviction_cursor (put now k v c).1
    = u64_add (eviction_cursor c) (N.of_nat (EVICTION_SAMPLE `min` size (data c))).
Proof.
  intros [Hco Hb Hcap Hev] Hk Hfull t. unfold put. fold t. set (c1 := set_clock t c).
  destruct (try_evict_full now (Some k) c1) as (victim & e & He);
    [done|simpl; lia|simpl; lia|by intros ? [= <-]|].
  change (contains_key k c1) with (contains_key k c). unfold contains_key.
  rewrite Hk, bool_decide_eq_false_2 by (by intros [??]).
  change (current_size c1) with (current_size c). change (capacity c1) with (capacity c).
  rewrite (proj2 (N.leb_le _ _)) by lia. cbn [andb negb].
  set (c2 := try_evict_excluding now (Some k) c1) in *.
  destruct He as [Hf Hne Hd Hin Hbest _ _ _ Hcur _ _].
  exists victim, e. split_and!; [congruence|exact Hin| | |].
  - intros k' e' Hin'. apply (Hbest k'); [exact Hin'|]. intros [= <-].
    apply (sample_elem c1) in Hin'. change (data c !! k = Some e') in Hin'. congruence.
  - simpl. by rewrite Hd.
  - exact Hcur.
Qed.
End cache.

(** Successive windows of the eviction cursor reach every entry: among the
    next [ceil (len / sample)] evictions of a map of [len] entries in a fixed
    order, one looks at any given entry, as long as the cursor does not wrap
    around. *)
Theorem windows_reach_every_entry {A} (entries : list A) (cursor : N) x :
  let len := length entries in let n := EVICTION_SAMPLE `min` len in
  x ∈ entries →
  ∃ i, (i ≤ len / n) ∧
    x ∈ window (N.to_nat ((cursor + N.of_nat (i * n)) `mod` N.of_nat len)) n entries.
Proof.
  intros len n Hx. apply list_elem_of_lookup in Hx as [j Hj].
  pose proof (lookup_lt_Some _ _ _ Hj) as Hlen. fold len in Hlen.
  assert (0 < n) as Hn by (unfold n, EVICTION_SAMPLE; lia).
  set (cur := N.to_nat cursor). set (s := cur `mod` len).
  set (d := (j + len - s) `mod` len).
  assert (s < len) as Hs by (apply Nat.mod_upper_bound; lia).
  assert (d < len) as Hd by (apply Nat.mod_upper_bound; lia).
  exists (d / n). split; [apply Nat.Div0.div_le_mono; lia|].
  apply (list_elem_of_lookup_2 _ (d `mod` n)).
  assert (N.to_nat ((cursor + N.of_nat (d / n * n)) `mod` N.of_nat len)
          = (cur + d / n * n) `mod` len) as ->
    by (rewrite N2Nat.inj_mod, N2Nat.inj_add, !Nat2N.id; done).
  rewrite window_lookup; fold len; [|lia|apply Nat.mod_upper_bound; lia..].
  rewrite <-Hj. f_equal. rewrite Nat.Div0.add_mod_idemp_l.
  replace (cur + d / n * n + d `mod` n) with (cur + d)
    by (rewrite (Nat.div_mod d n) at 1; lia).
  rewrite <-Nat.Div0.add_mod_idemp_l. fold s. unfold d. rewrite Nat.Div0.add_mod_idemp_r.
  replace (s + (j + len - s)) with (j + 1 * len) by lia.
  rewrite Nat.Div0.mod_add. by apply Nat.mod_small.
Qed.

(** ** Witnesses *)

#[local] Existing Instance key_order.
#[local] Existing Instance key_order_laws.

Definition demo_cache : Cache N string := mkCache ∅ 2 0 0 0 0 0 0 "demo" 100 [].

Definition demo_ops : list (cache_op N string) :=
  [OpPut 7 1%N "a"; OpPut 7 2%N "b"; OpGet 1%N; OpPut 7 1%N "A"; OpPut 7 3%N "c"; OpGet 1%N;
   OpResize 8 1; OpResize 8 0].

Lemma cache_refines_map_witness :
  (run_ops demo_ops demo_cache).1
  = [Value None; Value None; Value (Some "a"); Value (Some "a"); Value None; Value (Some "A");
     Done (Ok tt); Done (Err CAPACITY_ZERO)] ∧
  (current_size (run_ops demo_ops demo_cache).2 ≤ capacity (run_ops demo_ops demo_cache).2)%N.
Proof.
  split; [vm_compute; reflexivity|].
  pose proof (cache_refines_map 100 2 "demo" demo_cache demo_ops eq_refl eq_refl) as H.
  destruct (run_ops demo_ops demo_cache) as [rs c'].
  destruct H as (_ & _ & H & _); [|exact H]. by repeat constructor.
Defined.

Definition full_cache : Cache N string :=
  (run_ops [OpPut 7 1%N "a"; OpPut 7 2%N "b"; OpGet 1%N] demo_cache).2.

Lemma put_evicts_coldest_witness :
  ∃ victim e, victim ≠ 3%N ∧ (victim, e) ∈ next_sample full_cache.
Proof.
  destruct (put_evicts_coldest 9 3%N "c" full_cache) as (victim & e & Hne & Hin & _).
  - split; [by split|by vm_compute|by vm_compute|vm_compute; lia].
  - reflexivity.
  - reflexivity.
  - exists victim, e. by split.
Defined.

Lemma windows_reach_every_entry_witness :
  ∃ i, i ≤ 2 ∧
    7 ∈ window (N.to_nat ((30 + N.of_nat (i * 20)) `mod` 45)) 20 (seq 0 45).
Proof.
  destruct (windows_reach_every_entry (seq 0 45) 30 7) as (i & Hi & Hin).
  - apply elem_of_seq. lia.
  - exists i. split; [exact Hi|exact Hin].
Defined.
