(* ===== verification/Temporal.v ===== *)
(** * Validity intervals

    [core/graph/temporal.rs]: when each record held, derived from the records
    in time order.  An index out of range is a panic, [None];
    the theorems below show there is none. *)

From stdpp Require Import gmap strings.
From S2P Require Import Prelude RustStd Collections F32 Types Petgraph EntityGraph.

Definition RESTATE_TITLE_OVERLAP : f32 := f32_half.
Definition DUPLICATE_OVERLAP : f32 := f32_0_8.

Inductive EndReason := Superseded | Contradicted | Restated | Duplicate | Forgotten.

#[global] Instance end_reason_eq_dec : EqDecision EndReason.
Proof. solve_decision. Defined.

Record Validity := mkValidity {
  v_valid_from : DateTime;
  v_valid_to : option DateTime;
  v_ended_by : option Uuid;
  v_reason : option EndReason;
}.

Definition holds_at (t : DateTime) (v : Validity) : bool :=
  (v_valid_from v <=? t)%Z
  && match v_valid_to v with None => true | Some e => (t <? e)%Z end.

Definition is_current (v : Validity) : bool := bool_decide (v_valid_to v = None).

Definition update_valid_from (u : ContextUpdate) : DateTime :=
  default (cu_timestamp u) (valid_from (cu_meta u)).

Definition restatable (kind : UpdateType) : bool :=
  match kind with DecisionMade | RequirementAdded | ConceptDefined => true | _ => false end.

(** ** Words *)

Definition words `{Unicode} `{Alphanumeric} (text : string) : gset string :=
  list_to_set ((λ w, str_to_lowercase (str_of_chars w))
    <$> filter (λ w, 3 ≤ length w) (split_chars (λ c, negb (is_alphanumeric c)) (str_chars text))).

Definition overlap (a b : gset string) : f32 :=
  let union := size (a ∪ b) in
  if Nat.eqb union 0 then f32_zero
  else f32_div (f32_of_N (N.of_nat (size (a ∩ b)))) (f32_of_N (N.of_nat union)).

Section validity.
Context `{Unicode} `{Alphanumeric} `{Petgraph}.

Definition canonical (g : SimpleEntityGraph) (n : string) : string :=
  entity_key (default n (resolve g n)).

Definition subject (g : SimpleEntityGraph) (u : ContextUpdate) : list string :=
  dedup (sort_by str_cmp (canonical g <$> mentioned_names u)).

Definition pair_key (g : SimpleEntityGraph) (a b : string) : string * string :=
  let a := canonical g a in
  let b := canonical g b in
  if bool_decide (String.le a b) then (a, b) else (b, a).

Definition relation_key g (r : EntityRelationship) : string * string :=
  pair_key g (from_entity r) (to_entity r).

(** ** The scan *)

Record scan := mkScan {
  out : gmap Uuid Validity;
  by_subject : gmap (string * list string) (list nat);
  by_pair : gmap (string * string) (list (Uuid * RelationType));
}.

Definition open_validity (u : ContextUpdate) : Validity :=
  mkValidity (update_valid_from u) None None None.

(** The closure [end]: the first reason ends a record. *)
Definition end_record (old : Uuid) (by_ : ContextUpdate) (reason : EndReason)
    (o : gmap Uuid Validity) : gmap Uuid Validity :=
  match o !! old with
  | Some v =>
    if is_current v && negb (N.eqb old (cu_id by_))
    then <[old := mkValidity (v_valid_from v) (Some (Z.max (update_valid_from by_) (v_valid_from v)))
                    (Some (cu_id by_)) (Some reason)]> o
    else o
  | None => o
  end.

Definition scan_supersedes (u : ContextUpdate) (s : scan) : scan :=
  mkScan (foldl (λ o old, end_record old u Superseded o) (out s) (supersedes (cu_meta u)))
    (by_subject s) (by_pair s).

Definition scan_relation g (u : ContextUpdate) (s : scan) (rel : EntityRelationship) : scan :=
  let key := relation_key g rel in
  let asserted := default [] (by_pair s !! key) in
  let ended := if bool_decide (er_relation_type rel = ConflictsWith)
               then (filter (λ a, a.2 ≠ ConflictsWith) asserted).*1 else [] in
  mkScan (foldl (λ o old, end_record old u Contradicted o) (out s) ended) (by_subject s)
    (<[key := asserted ++ [(cu_id u, er_relation_type rel)]]> (by_pair s)).

Definition full_text (u : ContextUpdate) : string :=
  uc_title (cu_content u) +:+ " " +:+ uc_description (cu_content u).

Definition title_words (u : ContextUpdate) : gset string := words (uc_title (cu_content u)).

Definition restate_reason (update older : ContextUpdate) : EndReason :=
  if f32_le DUPLICATE_OVERLAP (overlap (words (full_text update)) (words (full_text older)))
  then Duplicate else Restated.

(** One older record of the same kind and subject. *)
Definition scan_older (ordered : list ContextUpdate) (titles : list (gset string)) (i : nat)
    (u : ContextUpdate) (o : gmap Uuid Validity) (j : nat) : option (gmap Uuid Validity) :=
  older ← ordered !! j;
  v ← o !! cu_id older;
  if negb (is_current v) then Some o
  else
    ti ← titles !! i;
    tj ← titles !! j;
    if f32_lt (overlap ti tj) RESTATE_TITLE_OVERLAP then Some o
    else Some (end_record (cu_id older) u (restate_reason u older) o).

Definition scan_subject g (ordered : list ContextUpdate) (titles : list (gset string)) (i : nat)
    (u : ContextUpdate) (s : scan) : option scan :=
  let subj := subject g u in
  if restatable (cu_update_type u) && negb (bool_decide (subj = []))
  then
    let key := (UpdateType_as_str (cu_update_type u), subj) in
    let slot := default [] (by_subject s !! key) in
    o ← try_fold (scan_older ordered titles i u) (out s) slot;
    Some (mkScan o (<[key := slot ++ [i]]> (by_subject s)) (by_pair s))
  else Some s.

Definition scan_update g ordered titles (s : scan) (iu : nat * ContextUpdate) : option scan :=
  let '(i, u) := iu in
  let s := scan_supersedes u s in
  let s := foldl (scan_relation g u) s (creates_relationships u) in
  scan_subject g ordered titles i u s.

(** ** Retired records *)

Definition forget (o : gmap Uuid Validity) (u : ContextUpdate) : gmap Uuid Validity :=
  match retired_at (cu_meta u), o !! cu_id u with
  | Some at_, Some v =>
    if match v_valid_to v with None => true | Some e => (at_ <? e)%Z end
    then <[cu_id u := mkValidity (v_valid_from v) (Some (Z.max at_ (v_valid_from v))) None
                        (Some Forgotten)]> o
    else o
  | _, _ => o
  end.

(** [sort_by_key(|u| (u.timestamp, u.id))]. *)
Definition time_order (a b : ContextUpdate) : comparison :=
  then_with (Z.compare (cu_timestamp a) (cu_timestamp b)) (N.compare (cu_id a) (cu_id b)).

Definition validity (updates : list ContextUpdate) (g : SimpleEntityGraph)
    : option (gmap Uuid Validity) :=
  let ordered := sort_by time_order updates in
  let open := foldl (λ o u, <[cu_id u := open_validity u]> o) ∅ ordered in
  let titles := title_words <$> ordered in
  s ← try_fold (scan_update g ordered titles) (mkScan open ∅ ∅) (imap pair ordered);
  Some (foldl forget (out s) ordered).
End validity.

(** ** Validity intervals: theorems

    [validity] keeps indexes by subject and by entity pair and closes records
    as it goes; [reference_validity] says, record by record and without any
    index, which record ends which. *)

#[global] Instance UpdateType_as_str_inj : Inj (=) (=) UpdateType_as_str.
Proof. by intros [] []. Qed.

Section reference.
Context `{Unicode} `{Alphanumeric} `{Petgraph} (g : SimpleEntityGraph).

(** ** The reference *)

Definition keys_of (P : RelationType → bool) (u : ContextUpdate) : list (string * string) :=
  relation_key g <$> filter (λ r, P (er_relation_type r) = true) (creates_relationships u).

Definition is_conflict (r : RelationType) : bool := bool_decide (r = ConflictsWith).

(** [newer] says that two entities conflict which [older] related otherwise. *)
Definition contradicts (newer older : ContextUpdate) : bool :=
  existsb (λ k, bool_decide (k ∈ keys_of (λ r, negb (is_conflict r)) older))
    (keys_of is_conflict newer).

(** What a record of a restatable kind is about. *)
Definition fact_key (u : ContextUpdate) : option (string * list string) :=
  if restatable (cu_update_type u) && negb (bool_decide (subject g u = []))
  then Some (UpdateType_as_str (cu_update_type u), subject g u) else None.

Definition similar_titles (a b : ContextUpdate) : bool :=
  negb (f32_lt (overlap (title_words a) (title_words b)) RESTATE_TITLE_OVERLAP).

Definition restates (newer older : ContextUpdate) : option EndReason :=
  if bool_decide (fact_key newer ≠ None ∧ fact_key older = fact_key newer)
     && similar_titles newer older
  then Some (restate_reason newer older) else None.

(** Why the [j]-th record [uj] would end the [i]-th record [ui]. *)
Definition end_reason (j i : nat) (uj ui : ContextUpdate) : option EndReason :=
  if bool_decide (cu_id ui ∈ supersedes (cu_meta uj)) then Some Superseded
  else if Nat.ltb i j then
    if contradicts uj ui then Some Contradicted else restates uj ui
  else None.

Definition ended (by_ : ContextUpdate) (r : EndReason) (v : Validity) : Validity :=
  mkValidity (v_valid_from v) (Some (Z.max (update_valid_from by_) (v_valid_from v)))
    (Some (cu_id by_)) (Some r).

(** The first other record with a reason ends it. *)
Definition close (i : nat) (ui : ContextUpdate) (v : Validity) (ju : nat * ContextUpdate)
    : Validity :=
  if is_current v && negb (N.eqb (cu_id ui) (cu_id ju.2))
  then match end_reason ju.1 i ju.2 ui with Some r => ended ju.2 r v | None => v end
  else v.

(** A retirement ends it if it comes first. *)
Definition retire_interval (u : ContextUpdate) (v : Validity) : Validity :=
  match retired_at (cu_meta u) with
  | Some at_ =>
    if match v_valid_to v with None => true | Some e => (at_ <? e)%Z end
    then mkValidity (v_valid_from v) (Some (Z.max at_ (v_valid_from v))) None (Some Forgotten)
    else v
  | None => v
  end.

Definition reference_validity (ordered : list ContextUpdate) (i : nat) (u : ContextUpdate)
    : Validity :=
  retire_interval u (foldl (close i u) (open_validity u) (imap pair ordered)).

(** ** Ending one record *)

Definition end_if (b : bool) (x : Uuid) (by_ : ContextUpdate) (r : EndReason) (v : Validity)
    : Validity :=
  if b && is_current v && negb (N.eqb x (cu_id by_)) then ended by_ r v else v.

Lemma end_if_false x u r v : end_if false x u r v = v.
Proof. done. Qed.

Lemma end_if_self b u r v : end_if b (cu_id u) u r v = v.
Proof. unfold end_if. by rewrite N.eqb_refl, andb_false_r. Qed.

Lemma end_if_off b x u r v :
  is_current v && negb (N.eqb x (cu_id u)) = false → end_if b x u r v = v.
Proof. intros Hv. unfold end_if. by rewrite <-andb_assoc, Hv, andb_false_r. Qed.

Lemma end_if_on b x u r v :
  is_current v && negb (N.eqb x (cu_id u)) = true →
  end_if b x u r v = if b then ended u r v else v.
Proof. intros Hv. unfold end_if. rewrite <-andb_assoc, Hv. by destruct b. Qed.

Lemma end_if_ended b x u r u' r' v : end_if b x u r (ended u' r' v) = ended u' r' v.
Proof. by apply end_if_off. Qed.

Lemma end_if_or b1 b2 x u r v : end_if b2 x u r (end_if b1 x u r v) = end_if (b1 || b2) x u r v.
Proof.
  unfold end_if. destruct b1, b2, (is_current v) eqn:Hc, (N.eqb x (cu_id u)); simpl; by rewrite ?Hc.
Qed.

Lemma end_record_lookup old u r (o : gmap Uuid Validity) x :
  end_record old u r o !! x = end_if (N.eqb old x) x u r <$> o !! x.
Proof.
  unfold end_record, end_if. destruct (N.eqb_spec old x) as [->|Hne].
  - destruct (o !! x) as [v|] eqn:Hv; [|by rewrite Hv]. simpl.
    destruct (is_current v && negb (N.eqb x (cu_id u))); [by simplify_map_eq|done].
  - assert (∀ o' : gmap Uuid Validity, (λ v : Validity, v) <$> o' !! x = o' !! x) as Hid
      by (intros o'; by destruct (o' !! x)).
    rewrite Hid. destruct (o !! old); [|done]. case_match; [by rewrite lookup_insert_ne|done].
Qed.

Lemma end_records_lookup olds u r (o : gmap Uuid Validity) x :
  foldl (λ o old, end_record old u r o) o olds !! x
  = end_if (bool_decide (x ∈ olds)) x u r <$> o !! x.
Proof.
  revert o. induction olds as [|old olds IH]; intros o; simpl.
  - by destruct (o !! x).
  - rewrite IH, end_record_lookup. destruct (o !! x) as [v|]; simpl; [|done]. f_equal.
    rewrite end_if_or. f_equal. apply eq_bool_prop_intro.
    rewrite !Is_true_true, orb_true_iff, N.eqb_eq, !bool_decide_eq_true, elem_of_cons. naive_solver.
Qed.

(** The three phases of a record's turn are one [close]. *)
Lemma close_phases i n u ui v b3 r3 :
  (if Nat.ltb i n then restates u ui else None) = (if b3 : bool then Some r3 else None) →
  end_if b3 (cu_id ui) u r3
    (end_if (Nat.ltb i n && contradicts u ui) (cu_id ui) u Contradicted
      (end_if (bool_decide (cu_id ui ∈ supersedes (cu_meta u))) (cu_id ui) u Superseded v))
  = close i ui v (n, u).
Proof.
  intros H3. unfold close, end_reason. simpl.
  destruct (is_current v && negb (N.eqb (cu_id ui) (cu_id u))) eqn:Hv;
    [|by rewrite !(end_if_off _ _ _ _ v)].
  rewrite (end_if_on _ _ _ _ v) by done. destruct (bool_decide _); [by rewrite !end_if_ended|].
  rewrite (end_if_on _ _ _ _ v) by done.
  destruct (Nat.ltb i n); simpl; [destruct (contradicts u ui); [by rewrite end_if_ended|]|];
    rewrite end_if_on by done; rewrite ?H3; [by destruct b3|].
  by destruct b3.
Qed.

(** ** The relations of a record *)

Definition asserted_at (s : scan) (k : string * string) : list (Uuid * RelationType) :=
  default [] (by_pair s !! k).

(** The records that asserted a relation other than a conflict. *)
Definition holders (s : scan) (k : string * string) : list Uuid :=
  (filter (λ a, a.2 ≠ ConflictsWith) (asserted_at s k)).*1.

Lemma asserted_relation u s rel k :
  asserted_at (scan_relation g u s rel) k
  = asserted_at s k ++ if bool_decide (relation_key g rel = k) then [(cu_id u, er_relation_type rel)]
                       else [].
Proof.
  unfold asserted_at, scan_relation. simpl. case_bool_decide as Hk.
  - subst k. by rewrite lookup_insert_eq.
  - by rewrite lookup_insert_ne, app_nil_r.
Qed.

Lemma asserted_relations u rels s k :
  asserted_at (foldl (scan_relation g u) s rels) k
  = asserted_at s k ++ ((λ r, (cu_id u, er_relation_type r)) <$> filter (λ r, relation_key g r = k) rels).
Proof.
  revert s. induction rels as [|r rels IH]; intros s; simpl; [by rewrite app_nil_r|].
  rewrite IH, asserted_relation, <-app_assoc. f_equal. rewrite filter_cons.
  case_bool_decide; case_decide; done.
Qed.

Lemma holders_relation u s rel k x :
  x ≠ cu_id u → x ∈ holders (scan_relation g u s rel) k ↔ x ∈ holders s k.
Proof.
  intros Hx. unfold holders. rewrite asserted_relation, filter_app, fmap_app, elem_of_app.
  split; [intros [?|Hin]; [done|]|by left].
  apply list_elem_of_fmap in Hin as (a & -> & [_ Hin]%list_elem_of_filter).
  case_bool_decide; [|by apply not_elem_of_nil in Hin].
  apply list_elem_of_singleton in Hin as ->. done.
Qed.

Definition conflicted (u : ContextUpdate) (s : scan) (x : Uuid) (rels : list EntityRelationship)
    : bool :=
  existsb (λ r, is_conflict (er_relation_type r) && bool_decide (x ∈ holders s (relation_key g r))) rels.

Lemma relations_out u rels s x :
  out (foldl (scan_relation g u) s rels) !! x
  = end_if (conflicted u s x rels) x u Contradicted <$> out s !! x.
Proof.
  destruct (decide (x = cu_id u)) as [->|Hx].
  { assert (∀ b (v : option Validity), end_if b (cu_id u) u Contradicted <$> v = v) as Hid
      by (intros b [v|]; simpl; [by rewrite end_if_self|done]).
    rewrite Hid. revert s. induction rels as [|r rels IH]; intros s; simpl; [done|].
    rewrite IH. unfold scan_relation. simpl. by rewrite end_records_lookup, Hid. }
  revert s. induction rels as [|r rels IH]; intros s; simpl.
  { by destruct (out s !! x). }
  rewrite IH. unfold scan_relation at 2. simpl. rewrite end_records_lookup.
  destruct (out s !! x) as [v|]; simpl; [|done]. f_equal. rewrite end_if_or. f_equal.
  fold (asserted_at s (relation_key g r)). f_equal.
  - unfold is_conflict.
    by destruct (bool_decide (er_relation_type r = ConflictsWith)).
  - unfold conflicted. clear IH. induction rels as [|r' rels IH]; simpl; [done|].
    rewrite IH. f_equal. f_equal. apply bool_decide_ext. by apply holders_relation.
Qed.

Lemma relations_subject u rels s : by_subject (foldl (scan_relation g u) s rels) = by_subject s.
Proof. revert s. induction rels as [|r rels IH]; intros s; simpl; [done|]. by rewrite IH. Qed.

(** ** The scan, record by record *)

Section scan.
Context (ordered : list ContextUpdate) (Hids : NoDup (cu_id <$> ordered)).

Lemma position_unique i j ui uj :
  ordered !! i = Some ui → ordered !! j = Some uj → cu_id ui = cu_id uj → i = j.
Proof.
  intros Hi Hj He. eapply NoDup_lookup; [exact Hids| |].
  - by rewrite list_lookup_fmap, Hi.
  - by rewrite list_lookup_fmap, Hj, He.
Qed.

Lemma older_fold n u slot o :
  ordered !! n = Some u → (∀ j, j ∈ slot → j < length ordered) →
  (∀ j uj, ordered !! j = Some uj → is_Some (o !! cu_id uj)) →
  ∃ o', try_fold (scan_older ordered (title_words <$> ordered) n u) o slot = Some o' ∧
    (∀ j uj, ordered !! j = Some uj →
       o' !! cu_id uj = end_if (bool_decide (j ∈ slot) && similar_titles u uj) (cu_id uj) u
                          (restate_reason u uj) <$> o !! cu_id uj) ∧
    (∀ x, is_Some (o' !! x) → is_Some (o !! x)).
Proof.
  intros Hn. revert o. induction slot as [|j slot IH]; intros o Hslot Hall; simpl.
  { exists o. split_and!; [done| |done]. intros j uj _. by destruct (o !! cu_id uj). }
  destruct (lookup_lt_is_Some_2 ordered j) as [uj Hj]; [apply Hslot; by left|].
  set (o1 := if similar_titles u uj then end_record (cu_id uj) u (restate_reason u uj) o else o).
  assert (scan_older ordered (title_words <$> ordered) n u o j = Some o1) as Hstep.
  { unfold scan_older. rewrite Hj. simpl. destruct (Hall j uj Hj) as [v Hv]. rewrite Hv. simpl.
    rewrite !list_lookup_fmap, Hn, Hj. simpl. unfold o1, similar_titles.
    destruct (is_current v) eqn:Hc; simpl; [by destruct (f32_lt _ _)|].
    unfold end_record. rewrite Hv, Hc. by destruct (f32_lt _ _). }
  assert (∀ x, o1 !! x = end_if (N.eqb (cu_id uj) x && similar_titles u uj) x u
                           (restate_reason u uj) <$> o !! x) as Ho1.
  { intros x. unfold o1. destruct (similar_titles u uj); rewrite ?andb_true_r, ?andb_false_r.
    - apply end_record_lookup.
    - by destruct (o !! x). }
  rewrite Hstep. simpl.
  destruct (IH o1) as (o' & Ho' & Hl & Hd).
  { intros j' Hin. apply Hslot. by right. }
  { intros j' uj' Hj'. rewrite Ho1, fmap_is_Some. by apply (Hall j'). }
  exists o'. split_and!; [done| |].
  - intros i ui Hi. rewrite (Hl i ui Hi), Ho1. destruct (o !! cu_id ui) as [v|]; simpl; [|done].
    f_equal. destruct (N.eqb_spec (cu_id uj) (cu_id ui)) as [He|Hne]; simpl.
    + assert (j = i) as -> by by apply (position_unique _ _ uj ui).
      assert (uj = ui) as -> by congruence. rewrite end_if_or. f_equal.
      rewrite (bool_decide_eq_true_2 (i ∈ i :: slot)) by by left. simpl.
      destruct (similar_titles u ui); simpl; [done|apply andb_false_r].
    + rewrite end_if_false. f_equal. f_equal. apply bool_decide_ext.
      rewrite elem_of_cons. split; [by right|]. intros [->|?]; [congruence|done].
  - intros x Hx. apply Hd in Hx. by rewrite Ho1, fmap_is_Some in Hx.
Qed.

Record scan_inv (n : nat) (s : scan) : Prop := {
  sc_out i u : ordered !! i = Some u →
    out s !! cu_id u = Some (foldl (close i u) (open_validity u) (take n (imap pair ordered)));
  sc_dom x : is_Some (out s !! x) → x ∈ cu_id <$> ordered;
  sc_pair k : asserted_at s k
    = take n ordered ≫= λ u, (λ r, (cu_id u, er_relation_type r))
        <$> filter (λ r, relation_key g r = k) (creates_relationships u);
  sc_subject key j : j ∈ default [] (by_subject s !! key) ↔
    j < n ∧ ∃ u, ordered !! j = Some u ∧ fact_key u = Some key;
}.

Lemma holders_spec n s k i ui :
  scan_inv n s → ordered !! i = Some ui →
  cu_id ui ∈ holders s k ↔ i < n ∧ k ∈ keys_of (λ r, negb (is_conflict r)) ui.
Proof.
  intros Hs Hi. unfold holders, keys_of. rewrite (sc_pair _ _ Hs k).
  rewrite !list_elem_of_fmap. setoid_rewrite list_elem_of_filter.
  setoid_rewrite list_elem_of_bind. setoid_rewrite list_elem_of_fmap.
  setoid_rewrite list_elem_of_filter. unfold is_conflict. split.
  - intros (a & Ha & Hne & uj & (r & -> & Hk & Hr) & Hin). simpl in *.
    apply list_elem_of_lookup in Hin as [j Hin].
    apply lookup_take_Some in Hin as [Hj Hlt].
    assert (i = j) as -> by by apply (position_unique _ _ ui uj).
    assert (ui = uj) as -> by congruence. split; [done|]. exists r.
    by rewrite negb_true_iff, bool_decide_eq_false.
  - intros (Hlt & r & -> & Hne & Hr). rewrite negb_true_iff, bool_decide_eq_false in Hne.
    exists (cu_id ui, er_relation_type r). split_and!; [done|done|]. exists ui.
    split; [by exists r|]. apply (list_elem_of_lookup_2 _ i). by rewrite lookup_take_lt.
Qed.

Lemma conflicted_spec n s u i ui :
  scan_inv n s → ordered !! i = Some ui →
  conflicted u s (cu_id ui) (creates_relationships u) = Nat.ltb i n && contradicts u ui.
Proof.
  intros Hs Hi. apply eq_bool_prop_intro. rewrite !Is_true_true, andb_true_iff, Nat.ltb_lt.
  unfold conflicted, contradicts. rewrite !existsb_exists.
  setoid_rewrite andb_true_iff. setoid_rewrite bool_decide_eq_true.
  setoid_rewrite (holders_spec n s _ i ui Hs Hi). setoid_rewrite <-list_elem_of_In.
  unfold keys_of at 2. setoid_rewrite list_elem_of_fmap. setoid_rewrite list_elem_of_filter.
  split.
  - intros (r & Hr & Hc & Hlt & Hk). split; [done|]. exists (relation_key g r).
    split; [|exact Hk]. exists r. by rewrite Hc.
  - intros (Hlt & k & (r & -> & Hc & Hr) & Hk). exists r.
    apply bool_decide_eq_true in Hc. done.
Qed.

(** A slot holds the earlier records about the same. *)
Lemma restates_slot n s u key i ui :
  scan_inv n s → fact_key u = Some key → ordered !! i = Some ui →
  (if Nat.ltb i n then restates u ui else None)
  = if bool_decide (i ∈ default [] (by_subject s !! key)) && similar_titles u ui
    then Some (restate_reason u ui) else None.
Proof.
  intros Hs Hf Hi. unfold restates. rewrite Hf.
  assert (bool_decide (i ∈ default [] (by_subject s !! key))
          = Nat.ltb i n && bool_decide (Some key ≠ None ∧ fact_key ui = Some key)) as ->.
  { apply eq_bool_prop_intro.
    rewrite Is_true_true, Is_true_true, andb_true_iff, Nat.ltb_lt, !bool_decide_eq_true.
    rewrite (sc_subject _ _ Hs). split.
    - intros (? & u' & Hu' & ?). split_and!; [done|done|congruence].
    - intros (? & _ & ?). split; [done|]. by exists ui. }
  by destruct (Nat.ltb i n).
Qed.

Lemma subject_insert n s u key key' j :
  scan_inv n s → fact_key u = Some key → ordered !! n = Some u →
  j ∈ default [] (<[key := default [] (by_subject s !! key) ++ [n]]> (by_subject s) !! key')
  ↔ j < S n ∧ ∃ u, ordered !! j = Some u ∧ fact_key u = Some key'.
Proof.
  intros Hs Hf Hn. destruct (decide (key = key')) as [->|Hne].
  - rewrite lookup_insert_eq. simpl. rewrite elem_of_app, list_elem_of_singleton, (sc_subject _ _ Hs).
    split.
    + intros [(? & ?)| ->]; [split; [lia|done]|]. split; [lia|by exists u].
    + intros (Hj & uj & Hu & Hkey). destruct (decide (j = n)) as [->|]; [by right|left].
      split; [lia|by exists uj].
  - rewrite lookup_insert_ne, (sc_subject _ _ Hs) by done. split.
    + intros (? & ?). split; [lia|done].
    + intros (Hj & uj & Hu & Hkey). split; [|by exists uj].
      assert (j ≠ n) by congruence. lia.
Qed.

Lemma scan_step n s u :
  ordered !! n = Some u → scan_inv n s →
  ∃ s', scan_update g ordered (title_words <$> ordered) s (n, u) = Some s' ∧ scan_inv (S n) s'.
Proof.
  intros Hn Hs. unfold scan_update. set (s1 := scan_supersedes u s).
  set (s2 := foldl (scan_relation g u) s1 (creates_relationships u)).
  assert (∀ x, out s2 !! x = (λ v, end_if (conflicted u s x (creates_relationships u)) x u Contradicted
      (end_if (bool_decide (x ∈ supersedes (cu_meta u))) x u Superseded v)) <$> out s !! x) as Ho2.
  { intros x. unfold s2. rewrite relations_out. unfold s1 at 2. simpl.
    rewrite end_records_lookup. by destruct (out s !! x). }
  assert (by_subject s2 = by_subject s) as Hsub2 by apply (relations_subject u _ s1).
  assert (∀ k, asserted_at s2 k = take (S n) ordered ≫= λ u, (λ r, (cu_id u, er_relation_type r))
        <$> filter (λ r, relation_key g r = k) (creates_relationships u)) as Hpair2.
  { intros k. unfold s2. rewrite asserted_relations, (take_S_r _ _ _ Hn), bind_app.
    change (asserted_at s1 k) with (asserted_at s k). rewrite (sc_pair _ _ Hs k). simpl.
    by rewrite app_nil_r. }
  assert (take (S n) (imap pair ordered) = take n (imap pair ordered) ++ [(n, u)]) as Htake
    by (apply take_S_r; by rewrite list_lookup_imap, Hn).
  (* What is left of the invariant once the third phase is known *)
  assert (∀ s' (b3 : nat → ContextUpdate → bool) (r3 : ContextUpdate → EndReason),
    (∀ i ui, ordered !! i = Some ui →
       out s' !! cu_id ui = end_if (b3 i ui) (cu_id ui) u (r3 ui) <$> out s2 !! cu_id ui) →
    (∀ i ui, ordered !! i = Some ui →
       (if Nat.ltb i n then restates u ui else None) = if b3 i ui then Some (r3 ui) else None) →
    ∀ i ui, ordered !! i = Some ui → out s' !! cu_id ui
      = Some (foldl (close i ui) (open_validity ui) (take (S n) (imap pair ordered)))) as Hclose.
  { intros s' b3 r3 Hl Hr i ui Hi. rewrite (Hl i ui Hi), Ho2, (sc_out _ _ Hs i ui Hi). simpl.
    rewrite Htake, foldl_snoc. f_equal. rewrite (conflicted_spec n s u i ui Hs Hi).
    apply close_phases. by apply Hr. }
  unfold scan_subject. destruct (fact_key u) as [key|] eqn:Hf; pose proof Hf as Hk;
    unfold fact_key in Hk;
    destruct (restatable (cu_update_type u) && negb (bool_decide (subject g u = []))) eqn:Hc;
    try done.
  - injection Hk as Hk. rewrite Hk.
    destruct (older_fold n u (default [] (by_subject s2 !! key)) (out s2) Hn)
      as (o' & -> & Hl & Hd).
    + intros j. rewrite Hsub2, (sc_subject _ _ Hs). intros (_ & uj & Hj & _). by eapply lookup_lt_Some.
    + intros j uj Hj. by rewrite Ho2, fmap_is_Some, (sc_out _ _ Hs j uj Hj).
    + eexists. split; [reflexivity|]. rewrite Hsub2 in *. split; [|..|exact Hpair2|].
      * eapply Hclose; [exact Hl|]. intros i ui Hi. by apply (restates_slot n s u key).
      * intros x Hx. apply Hd in Hx. rewrite Ho2, fmap_is_Some in Hx. by apply (sc_dom _ _ Hs).
      * intros key' j. simpl. by apply (subject_insert n s u).
  - eexists. split; [reflexivity|]. split; [|..|exact Hpair2|].
    + apply (Hclose s2 (λ _ _, false) (λ _, Restated)).
      * intros i ui _. by destruct (out s2 !! cu_id ui).
      * intros i ui _. unfold restates. rewrite Hf. by destruct (Nat.ltb i n).
    + intros x Hx. rewrite Ho2, fmap_is_Some in Hx. by apply (sc_dom _ _ Hs).
    + intros key' j. rewrite Hsub2, (sc_subject _ _ Hs). split.
      * intros (? & ?). split; [lia|done].
      * intros (Hj & uj & Hu & Hkey). split; [|by exists uj].
        assert (j ≠ n) by congruence. lia.
Qed.

Lemma opens_lookup us (o : gmap Uuid Validity) i u :
  NoDup (cu_id <$> us) → us !! i = Some u →
  foldl (λ o u, <[cu_id u := open_validity u]> o) o us !! cu_id u = Some (open_validity u).
Proof.
  revert i. induction us as [|u' us IH] using rev_ind; intros i Hnd Hu; [done|].
  rewrite foldl_snoc. rewrite fmap_app in Hnd. apply NoDup_app in Hnd as (Hnd & Hdis & _).
  apply lookup_app_Some in Hu as [Hu|[_ Hu]].
  - rewrite lookup_insert_ne; [by apply (IH i)|]. intros He.
    apply (Hdis (cu_id u)).
    + apply list_elem_of_fmap. exists u. split; [done|by eapply list_elem_of_lookup_2].
    + simpl. rewrite He. by left.
  - apply list_lookup_singleton_Some in Hu as [_ ->]. by rewrite lookup_insert_eq.
Qed.

Lemma opens_dom us (o : gmap Uuid Validity) x :
  is_Some (foldl (λ o u, <[cu_id u := open_validity u]> o) o us !! x) →
  is_Some (o !! x) ∨ x ∈ cu_id <$> us.
Proof.
  induction us as [|u us IH] using rev_ind; simpl; [by left|]. rewrite foldl_snoc, fmap_app.
  rewrite elem_of_app.
  destruct (decide (cu_id u = x)) as [<-|Hne]; [right; right; by left|].
  rewrite lookup_insert_ne by done. intros Hx. destruct (IH Hx); [by left|right; by left].
Qed.

Lemma scan_start :
  scan_inv 0 (mkScan (foldl (λ o u, <[cu_id u := open_validity u]> o) ∅ ordered) ∅ ∅).
Proof.
  split; simpl.
  - intros i u Hu. by apply (opens_lookup _ _ i).
  - intros x [Hx|Hx]%opens_dom; [|done]. rewrite lookup_empty in Hx. by destruct Hx.
  - intros k. unfold asserted_at. simpl. by rewrite lookup_empty.
  - intros key j. rewrite lookup_empty. simpl. split; [by intros ?%not_elem_of_nil|lia].
Qed.

Lemma try_fold_snoc {A S} (f : S → A → option S) s xs x :
  try_fold f s (xs ++ [x]) = s' ← try_fold f s xs; f s' x.
Proof.
  revert s. induction xs as [|y xs IH]; intros s; simpl; [by destruct (f s x)|].
  destruct (f s y) as [s'|]; simpl; [apply IH|done].
Qed.

Lemma scan_all n s0 :
  scan_inv 0 s0 → n ≤ length ordered →
  ∃ s, try_fold (scan_update g ordered (title_words <$> ordered)) s0
         (take n (imap pair ordered)) = Some s ∧ scan_inv n s.
Proof.
  intros H0' . induction n as [|n IH]; intros Hn; [by exists s0|].
  destruct IH as (s & Hf & Hs); [lia|].
  destruct (lookup_lt_is_Some_2 ordered n) as [u Hu]; [lia|].
  rewrite (take_S_r _ _ (n, u)) by by rewrite list_lookup_imap, Hu.
  rewrite try_fold_snoc, Hf. simpl. by apply scan_step.
Qed.

Lemma forget_lookup u (o : gmap Uuid Validity) x :
  forget o u !! x = (if N.eqb (cu_id u) x then retire_interval u else id) <$> o !! x.
Proof.
  unfold forget, retire_interval. destruct (N.eqb_spec (cu_id u) x) as [->|Hne].
  - destruct (retired_at (cu_meta u)) as [t|]; [|by destruct (o !! x)].
    destruct (o !! x) as [v|] eqn:Hv; [|done]. simpl.
    destruct (match v_valid_to v with None => true | Some e => (t <? e)%Z end);
      [by rewrite lookup_insert_eq|done].
  - assert (id <$> o !! x = o !! x) as -> by by destruct (o !! x).
    destruct (retired_at (cu_meta u)), (o !! cu_id u); try done.
    case_match; [by rewrite lookup_insert_ne|done].
Qed.

Lemma forgets_lookup us (o : gmap Uuid Validity) i u :
  NoDup (cu_id <$> us) → us !! i = Some u →
  foldl forget o us !! cu_id u = retire_interval u <$> o !! cu_id u.
Proof.
  assert (∀ us x, x ∉ cu_id <$> us → ∀ o : gmap Uuid Validity, foldl forget o us !! x = o !! x) as Hout.
  { clear. induction us as [|u us IH]; intros x Hx o; simpl; [done|]. simpl in Hx.
    rewrite not_elem_of_cons in Hx. destruct Hx as [Hne Hx]. rewrite IH by done.
    rewrite forget_lookup. rewrite (proj2 (N.eqb_neq _ _)) by congruence. by destruct (o !! x). }
  revert i o. induction us as [|u' us IH]; intros i o Hnd Hu; [done|]. simpl in *.
  apply NoDup_cons in Hnd as [Hn Hnd]. destruct i as [|i]; simpl in Hu.
  - injection Hu as ->. rewrite Hout by done. by rewrite forget_lookup, N.eqb_refl.
  - rewrite (IH i) by done. rewrite forget_lookup.
    rewrite (proj2 (N.eqb_neq _ _)); [by destruct (o !! cu_id u)|]. intros He. apply Hn. rewrite He.
    apply list_elem_of_fmap. exists u. split; [done|by eapply list_elem_of_lookup_2].
Qed.

Lemma forgets_dom us (o : gmap Uuid Validity) x :
  is_Some (foldl forget o us !! x) ↔ is_Some (o !! x).
Proof.
  revert o. induction us as [|u us IH]; intros o; simpl; [done|].
  by rewrite IH, forget_lookup, fmap_is_Some.
Qed.

(** The scan of the ordered records, and the retirements. *)
Lemma validity_ordered :
  ∃ s, try_fold (scan_update g ordered (title_words <$> ordered))
         (mkScan (foldl (λ o u, <[cu_id u := open_validity u]> o) ∅ ordered) ∅ ∅)
         (imap pair ordered) = Some s ∧
    (∀ x, is_Some (foldl forget (out s) ordered !! x) ↔ x ∈ cu_id <$> ordered) ∧
    ∀ i u, ordered !! i = Some u →
      foldl forget (out s) ordered !! cu_id u = Some (reference_validity ordered i u).
Proof.
  destruct (scan_all (length ordered) _ scan_start (le_n _)) as (s & Hf & Hs).
  rewrite take_ge in Hf by by rewrite length_imap. exists s. split_and!; [exact Hf| |].
  - intros x. rewrite forgets_dom. split; [apply (sc_dom _ _ Hs)|].
    intros (u & -> & Hu)%list_elem_of_fmap. apply list_elem_of_lookup in Hu as [i Hu].
    by rewrite (sc_out _ _ Hs i u Hu).
  - intros i u Hu. rewrite (forgets_lookup _ _ i) by done. rewrite (sc_out _ _ Hs i u Hu). simpl.
    by rewrite take_ge by by rewrite length_imap.
Qed.
End scan.
End reference.

(** ** The order of the records *)

#[global] Instance time_order_preorder : TotalPreorder time_order.
Proof.
  assert (∀ a b, cmp_le time_order a b ↔
    (cu_timestamp a < cu_timestamp b)%Z ∨
    cu_timestamp a = cu_timestamp b ∧ (cu_id a ≤ cu_id b)%N) as Hle.
  { intros a b. unfold cmp_le, time_order, then_with.
    destruct (Z.compare_spec (cu_timestamp a) (cu_timestamp b)) as [He|Hl|Hg].
    - rewrite N.compare_le_iff. lia.
    - split; [lia|done].
    - split; [done|lia]. }
  split.
  - intros a b. rewrite !Hle. lia.
  - intros a b c. rewrite !Hle. lia.
Qed.

Lemma time_order_antisym a b :
  cmp_le time_order a b → cmp_le time_order b a → cu_id a = cu_id b.
Proof.
  unfold cmp_le, time_order, then_with.
  destruct (Z.compare_spec (cu_timestamp a) (cu_timestamp b));
    destruct (Z.compare_spec (cu_timestamp b) (cu_timestamp a)); try lia; try done.
  destruct (N.compare_spec (cu_id a) (cu_id b)); destruct (N.compare_spec (cu_id b) (cu_id a));
    try lia; done.
Qed.

Lemma elem_ids_unique us a b :
  NoDup (cu_id <$> us) → a ∈ us → b ∈ us → cu_id a = cu_id b → a = b.
Proof.
  intros Hnd [i Ha]%list_elem_of_lookup [j Hb]%list_elem_of_lookup He.
  assert (i = j) as -> by by apply (position_unique us Hnd i j a b). congruence.
Qed.

(** Records with distinct ids sort in one way. *)
Lemma sort_time_perm us us' :
  NoDup (cu_id <$> us) → us ≡ₚ us' → sort_by time_order us = sort_by time_order us'.
Proof.
  intros Hnd Hp. apply (StronglySorted_unique_strong (cmp_le time_order)).
  - intros a b Ha Hb Hab Hba. rewrite sort_by_perm in Ha. rewrite sort_by_perm, <-Hp in Hb.
    eapply elem_ids_unique; eauto. by apply time_order_antisym.
  - apply sort_by_sorted. apply _.
  - apply sort_by_sorted. apply _.
  - by rewrite !sort_by_perm.
Qed.

(** ** The properties *)

Section properties.
Context `{Unicode} `{Alphanumeric} `{Petgraph} (g : SimpleEntityGraph).

Lemma sorted_ids us : NoDup (cu_id <$> us) → NoDup (cu_id <$> sort_by time_order us).
Proof. by rewrite sort_by_perm. Qed.

Lemma validity_computes updates :
  NoDup (cu_id <$> updates) →
  ∃ intervals, validity updates g = Some intervals ∧
    (∀ x, is_Some (intervals !! x) ↔ x ∈ cu_id <$> updates) ∧
    ∀ i u, sort_by time_order updates !! i = Some u →
      intervals !! cu_id u = Some (reference_validity g (sort_by time_order updates) i u).
Proof.
  intros Hnd. unfold validity.
  destruct (validity_ordered g _ (sorted_ids _ Hnd)) as (s & -> & Hd & Hl). simpl.
  eexists. split_and!; [reflexivity| |done]. intros x. by rewrite Hd, sort_by_perm.
Qed.

(** C12: On records with distinct ids [validity] does not panic, gives every
    record and nothing else an interval, and that interval is the one of the
    index-free reference: the first other record in time order that names it
    as superseded, contradicts a relation it asserted, or restates its fact
    ends it (in this order of preference), unless it was retired before. *)
Theorem validity_reference updates :
  NoDup (cu_id <$> updates) →
  ∃ intervals, validity updates g = Some intervals ∧
    (∀ x, is_Some (intervals !! x) ↔ x ∈ cu_id <$> updates) ∧
    ∀ i u, sort_by time_order updates !! i = Some u →
      intervals !! cu_id u = Some (reference_validity g (sort_by time_order updates) i u).
Proof. apply validity_computes. Qed.

(** The order in which the records are given does not matter. *)
Theorem validity_order_irrelevant updates updates' :
  NoDup (cu_id <$> updates) → updates ≡ₚ updates' → validity updates g = validity updates' g.
Proof. intros Hnd Hp. unfold validity. by rewrite (sort_time_perm _ _ Hnd Hp). Qed.

(** [ub] may end [u] for this reason; restatements and contradictions come
    after what they end. *)
Definition justified (ub u : ContextUpdate) (r : EndReason) : Prop :=
  match r with
  | Superseded => cu_id u ∈ supersedes (cu_meta ub)
  | Contradicted => contradicts g ub u = true ∧ cmp_le time_order u ub
  | Restated | Duplicate => restates g ub u = Some r ∧ cmp_le time_order u ub
  | Forgotten => False
  end.

(** The interval of [u]: open, ended by another record when that starts to
    hold, or by the retirement of [u]; in no case before its own start. *)
Definition interval_ok (updates : list ContextUpdate) (u : ContextUpdate) (v : Validity) : Prop :=
  v_valid_from v = update_valid_from u ∧
  match v_valid_to v, v_ended_by v, v_reason v with
  | None, None, None => True
  | Some e, Some b, Some r =>
    ∃ ub, ub ∈ updates ∧ cu_id ub = b ∧ b ≠ cu_id u ∧ justified ub u r
      ∧ e = Z.max (update_valid_from ub) (update_valid_from u)
  | Some e, None, Some Forgotten =>
    ∃ t, retired_at (cu_meta u) = Some t ∧ e = Z.max t (update_valid_from u)
  | _, _, _ => False
  end.

Lemma end_reason_justified j i uj ui r :
  end_reason g j i uj ui = Some r → (i < j → cmp_le time_order ui uj) → justified uj ui r.
Proof.
  unfold end_reason. case_bool_decide as Hs; [by intros [= <-]|].
  destruct (Nat.ltb_spec i j); [|done]. intros Hr Hle. specialize (Hle ltac:(done)).
  destruct (contradicts g uj ui) eqn:Hc; [by injection Hr as <-|].
  pose proof Hr as Hr'. unfold restates, restate_reason in Hr'. repeat case_match; simplify_eq; by split.
Qed.

Lemma close_ok updates i u v ju :
  ju.2 ∈ updates → (i < ju.1 → cmp_le time_order u ju.2) →
  interval_ok updates u v → interval_ok updates u (close g i u v ju).
Proof.
  intros Hin Hle Hv. unfold close.
  destruct (is_current v && negb (N.eqb (cu_id u) (cu_id ju.2))) eqn:Hc; [|done].
  apply andb_true_iff in Hc as [_ Hne%negb_true_iff%N.eqb_neq].
  destruct (end_reason g ju.1 i ju.2 u) as [r|] eqn:Hr; [|done].
  destruct Hv as [Hf _]. split; [done|]. simpl. exists ju.2. rewrite Hf.
  split_and!; [done..|congruence|by eapply end_reason_justified|done].
Qed.

Lemma retire_ok updates u v : interval_ok updates u v → interval_ok updates u (retire_interval u v).
Proof.
  intros Hv. unfold retire_interval. destruct (retired_at (cu_meta u)) as [t|] eqn:Ht; [|done].
  destruct (match v_valid_to v with None => true | Some e => (t <? e)%Z end); [|done].
  destruct Hv as [Hf _]. split; [done|]. simpl. exists t. by rewrite Hf.
Qed.

Lemma retire_retired u v t :
  retired_at (cu_meta u) = Some t →
  ∃ e, v_valid_to (retire_interval u v) = Some e
    ∧ (v_reason (retire_interval u v) = Some Forgotten ∨ (e ≤ t)%Z).
Proof.
  intros Ht. unfold retire_interval. rewrite Ht. destruct (v_valid_to v) as [e|] eqn:He; [|by eexists; split; [|left]].
  destruct (Z.ltb_spec t e); [by eexists; split; [|left]|]. exists e. split; [done|by right].
Qed.

(** C13: Every interval starts where its record says.  It ends, if it does,
    either by another record that has a reason to end it, at the start of that
    record, or, forgotten, without an ender and at the retirement; in both
    cases not before its own start; and it does not contain its end.  A
    retired record has ended: forgotten, or ended by another record no later
    than its retirement. *)
Theorem validity_intervals updates intervals u :
  NoDup (cu_id <$> updates) → validity updates g = Some intervals → u ∈ updates →
  ∃ v, intervals !! cu_id u = Some v ∧ interval_ok updates u v ∧
    (∀ e, v_valid_to v = Some e → holds_at e v = false) ∧
    (∀ t, retired_at (cu_meta u) = Some t →
       ∃ e, v_valid_to v = Some e ∧ (v_reason v = Some Forgotten ∨ (e ≤ t)%Z)).
Proof.
  intros Hnd Hval Hu. destruct (validity_computes updates Hnd) as (o & Ho & _ & Hl).
  rewrite Hval in Ho. injection Ho as <-.
  rewrite <-(sort_by_perm time_order) in Hu. apply list_elem_of_lookup in Hu as [i Hu].
  rewrite (Hl i u Hu). eexists. split; [reflexivity|]. unfold reference_validity.
  set (v := foldl _ _ _).
  assert (interval_ok updates u v) as Hok.
  { apply (foldl_inv _ (interval_ok updates u)).
    - intros v' [j uj] Hin Hv'. apply list_elem_of_lookup in Hin as [k Hin]. rewrite list_lookup_imap in Hin.
      destruct (sort_by time_order updates !! k) as [uk|] eqn:Hk; simplify_eq/=. apply close_ok; [..|done]; simpl.
      + rewrite <-(sort_by_perm time_order). by eapply list_elem_of_lookup_2.
      + intros Hlt. unshelve eapply (StronglySorted_lookup _ _ i j _ _ (sort_by_sorted time_order updates));
          [intros x; by destruct (total (cmp_le time_order) x x)|lia|done..].
    - by split. }
  split_and!; [by apply retire_ok| |].
  - intros e He. unfold holds_at. rewrite He, Z.ltb_irrefl. by rewrite andb_false_r.
  - intros t Ht. by apply retire_retired.
Qed.
End properties.

(** ** Witnesses *)

#[local] Existing Instances ascii_unicode list_graph.

#[local] Existing Instance ascii_alnum.

Definition fact (id : Uuid) (title : string) (sup : list Uuid) (retired : option DateTime)
    : ContextUpdate :=
  mkContextUpdate id (Z.of_N id * 10) DecisionMade (mkUpdateContent title "" [] [] []) None None
    false ["search mode"%string] [] [] [] None [] (mkUpdateMeta None sup None retired).

Definition demo_records : list ContextUpdate :=
  [fact 3 "Default search mode is fast" [] None; fact 1 "Default search mode is local" [] None;
   fact 4 "Reranker" [9%N] (Some 45%Z); fact 2 "Storage moved" [] None;
   fact 5 "Other thing" [2%N] None].

Definition demo_intervals : gmap Uuid Validity :=
  default ∅ (validity demo_records SimpleEntityGraph_new).

Example demo_intervals_ex :
  (λ x, demo_intervals !! x) <$> [1; 2; 3; 4]%N
  = [Some (mkValidity 10 (Some 30) (Some 3%N) (Some Restated));
     Some (mkValidity 20 (Some 50) (Some 5%N) (Some Superseded));
     Some (mkValidity 30 None None None);
     Some (mkValidity 40 (Some 45) None (Some Forgotten))]%Z.
Proof. vm_compute. reflexivity. Qed.

Lemma demo_ids : NoDup (cu_id <$> demo_records).
Proof. by apply (bool_decide_unpack _). Qed.

Lemma validity_reference_witness :
  demo_intervals !! 2%N
  = Some (reference_validity SimpleEntityGraph_new (sort_by time_order demo_records) 1
            (fact 2 "Storage moved" [] None)).
Proof.
  destruct (validity_reference SimpleEntityGraph_new demo_records demo_ids) as (o & Ho & _ & H).
  unfold demo_intervals. rewrite Ho. apply (H 1 (fact 2 "Storage moved" [] None)). vm_compute. reflexivity.
Defined.

Lemma validity_order_irrelevant_witness :
  validity demo_records SimpleEntityGraph_new = validity (reverse demo_records) SimpleEntityGraph_new.
Proof.
  apply (validity_order_irrelevant SimpleEntityGraph_new demo_records (reverse demo_records)).
  - exact demo_ids.
  - symmetry. apply reverse_Permutation.
Defined.

Lemma validity_intervals_witness :
  ∃ v e, demo_intervals !! 4%N = Some v ∧ v_valid_to v = Some e ∧ (v_reason v = Some Forgotten ∨ (e ≤ 45)%Z).
Proof.
  destruct (validity_intervals SimpleEntityGraph_new demo_records demo_intervals
    (fact 4 "Reranker" [9%N] (Some 45%Z)) demo_ids) as (v & Hv & _ & _ & Ht).
  - vm_compute. reflexivity.
  - apply list_elem_of_In. simpl. tauto.
  - destruct (Ht 45%Z eq_refl) as (e & He & Hle). exists v, e. split_and!; [exact Hv|exact He|exact Hle].
Defined.
