(* ===== verification/SearchResults.v ===== *)
(** * Search results and the message stream

    What a search returns and how the memory system completes it:
    [core/core/message.rs] (raw conversation turns), the result type of
    [memory/content_vectorizer/types.rs], the completion of record hits
    ([memory/memory_system/neighbours.rs]) and of message hits
    ([memory/memory_system/messages.rs]), and the excerpts a context assembly
    takes from them.

    A [None] of the completion functions is a panic.  The storage
    ([load_messages]), the search itself and chrono's date format are
    arguments. *)

From stdpp Require Import gmap.
From S2P Require Import Prelude RustStd UuidText Collections F32 Types Petgraph EntityGraph.
From S2P Require Import EntityQueries HotContext Session Temporal ContextAssembly.

Local Open Scope string_scope.

(** ** Messages *)

Definition CONTENT_ID_PREFIX : string := "message:".

Definition content_id (seq : N) : string := CONTENT_ID_PREFIX +:+ Z_to_string (Z.of_N seq).

(** [str::strip_prefix], on bytes. *)
Definition strip_prefix (prefix s : string) : option (list N) :=
  if starts_with s prefix then Some (drop (str_len prefix) (str_bytes s)) else None.

(** [str::parse::<u64>]: an optional plus sign, at least one digit, in range. *)
Definition parse_u64 (bs : list N) : option N :=
  let ds := match bs with b :: r => if N.eqb b 43 then r else bs | [] => [] end in
  match ds with
  | [] => None
  | _ =>
    v ← digits_value 0 ds;
    if (Z.to_N v <? u64_mod)%N then Some (Z.to_N v) else None
  end.

(** 35 is [#]: chunks of a long message add [#n]. *)
Definition seq_of_content_id (s : string) : option N :=
  rest ← strip_prefix CONTENT_ID_PREFIX s;
  part ← head (bytes_split 35 rest);
  parse_u64 part.

Inductive MessageRole := RoleUser | RoleAssistant.

Definition MessageRole_as_str (r : MessageRole) : string :=
  match r with RoleUser => "user" | RoleAssistant => "assistant" end.

Definition MessageRole_parse (s : string) : option MessageRole :=
  if String.eqb s "user" then Some RoleUser
  else if String.eqb s "assistant" then Some RoleAssistant else None.

Record NewMessage := mkNewMessage {
  nm_turn_id : string;
  nm_role : MessageRole;
  nm_author : option string;
  nm_source_session : option string;
  nm_timestamp : DateTime;
  nm_text : string;
  nm_tools : list string;
  nm_files : list string;
}.

Record Message := mkMessage {
  msg_session_id : Uuid;
  msg_seq : N;
  msg_turn_id : string;
  msg_role : MessageRole;
  msg_author : option string;
  msg_source_session : option string;
  msg_timestamp : DateTime;
  msg_text : string;
  msg_tools : list string;
  msg_files : list string;
}.

Definition into_message (new : NewMessage) (session_id : Uuid) (seq : N) : Message :=
  mkMessage session_id seq (nm_turn_id new) (nm_role new) (nm_author new)
    (nm_source_session new) (nm_timestamp new) (nm_text new) (nm_tools new) (nm_files new).

(** ** Results *)

Inductive ContentType :=
  | UpdateContentType | EntityDescription | UserMessage | DecisionPoint | CodeSnippet
  | ProblemSolution | SessionMetadataType | MessageType.

#[global] Instance content_type_eq_dec : EqDecision ContentType.
Proof. solve_decision. Defined.

(** The binary32 values of the literals 0.9, 0.7, 0.3 and the like. *)
Definition tenths (n : N) : f32 := f32_ratio n 10.

Definition importance_weight (t : ContentType) : f32 :=
  match t with
  | DecisionPoint => f32_one
  | ProblemSolution => tenths 9
  | UserMessage => tenths 8
  | UpdateContentType => tenths 7
  | CodeSnippet => tenths 6
  | EntityDescription => f32_half
  | MessageType => tenths 4
  | SessionMetadataType => tenths 3
  end.

Record Signals := mkSignals {
  vector_rank : option nat;
  vector_similarity : option f32;
  bm25_rank : option nat;
  graph_rank : option nat;
  fused : option f32;
  rerank : option f32;
}.

Record SemanticSearchResult := mkSearchResult {
  sr_content_id : string;
  sr_session_id : Uuid;
  sr_content_type : ContentType;
  text_content : string;
  similarity_score : f32;
  sr_importance_score : f32;
  sr_timestamp : DateTime;
  combined_score : f32;
  neighbour_of : option string;
  sr_author : option string;
  sr_derived_from : list string;
  sr_validity : option Validity;
  sr_confidence : option f32;
  signals : option Signals;
}.

Definition with_text (text : string) (r : SemanticSearchResult) : SemanticSearchResult :=
  mkSearchResult (sr_content_id r) (sr_session_id r) (sr_content_type r) text
    (similarity_score r) (sr_importance_score r) (sr_timestamp r) (combined_score r)
    (neighbour_of r) (sr_author r) (sr_derived_from r) (sr_validity r) (sr_confidence r)
    (signals r).

Definition with_derived_from (ids : list string) (r : SemanticSearchResult)
    : SemanticSearchResult :=
  mkSearchResult (sr_content_id r) (sr_session_id r) (sr_content_type r) (text_content r)
    (similarity_score r) (sr_importance_score r) (sr_timestamp r) (combined_score r)
    (neighbour_of r) (sr_author r) ids (sr_validity r) (sr_confidence r) (signals r).

(** Score, validity and confidence replaced. *)
Definition with_trust (score : f32) (v : option Validity) (c : option f32)
    (r : SemanticSearchResult) : SemanticSearchResult :=
  mkSearchResult (sr_content_id r) (sr_session_id r) (sr_content_type r) (text_content r)
    (similarity_score r) (sr_importance_score r) (sr_timestamp r) score (neighbour_of r)
    (sr_author r) (sr_derived_from r) v c (signals r).

Definition similarity_quality (r : SemanticSearchResult) : string :=
  let ge n := f32_le (f32_ratio n 100) (similarity_score r) in
  if ge 85%N then "Excellent" else if ge 70%N then "Very Good" else if ge 55%N then "Good"
  else if ge 40%N then "Moderate" else if ge 30%N then "Fair" else "Weak".

Definition meets_quality (threshold : string) (r : SemanticSearchResult) : bool :=
  let min_score :=
    if String.eqb threshold "excellent" then f32_ratio 85 100
    else if String.eqb threshold "very_good" then f32_ratio 70 100
    else if String.eqb threshold "good" then f32_ratio 55 100
    else if String.eqb threshold "moderate" then f32_ratio 40 100
    else if String.eqb threshold "fair" then f32_ratio 30 100
    else f32_zero in
  f32_le min_score (similarity_score r).

Definition result_key (r : SemanticSearchResult) : Uuid * string :=
  (sr_session_id r, sr_content_id r).

(** The map from (session, content id) to the position of the hit: the last
    one wins.  Its positions are in range ([index_by_Some]). *)
Definition hit_index (hits : list SemanticSearchResult) : gmap (N * string) nat :=
  index_by result_key hits.

Definition hit_at (hits : list SemanticSearchResult) (key : Uuid * string)
    : option SemanticSearchResult :=
  i ← hit_index hits !! key; hits !! i.

(** [seen] and [out] of the two completion functions. *)
Definition completion : Type := gset (N * string) * list SemanticSearchResult.

(** [if seen.insert(key) { out.push(r) }]. *)
Definition push_new (key : Uuid * string) (r : SemanticSearchResult) (st : completion)
    : completion :=
  if decide (key ∈ st.1) then st else ({[key]} ∪ st.1, (st.2 ++ [r])%list).

(** ** Completing message hits *)

Definition message_text (m : Message) : string :=
  MessageRole_as_str (msg_role m) +:+ ": " +:+ msg_text m.

Definition message_neighbour (m : Message) (hit : SemanticSearchResult)
    : SemanticSearchResult :=
  mkSearchResult (content_id (msg_seq m)) (msg_session_id m) MessageType (message_text m)
    f32_zero (importance_weight MessageType) (msg_timestamp m) (combined_score hit)
    (Some (sr_content_id hit)) (msg_author m) [] None None None.

Definition seq_of (r : SemanticSearchResult) : option N :=
  if decide (sr_content_type r = MessageType) then seq_of_content_id (sr_content_id r) else None.

(** [u64::saturating_add]. *)
Definition u64_saturating_add (a b : N) : N := N.min (a + b) (u64_mod - 1).

Section messages.
Context {E : Type} (load_messages : Uuid → N → N → result (list Message) E) (radius : N).

(** A turn of the window around [hit]. *)
Definition complete_turn (results : list SemanticSearchResult) (hit : SemanticSearchResult)
    (st : completion) (turn : Message) : completion :=
  let key := (sr_session_id hit, content_id (msg_seq turn)) in
  let item := default (message_neighbour turn hit) (hit_at results key) in
  push_new key (with_text (message_text turn) item) st.

Definition load_window (hit : SemanticSearchResult) (seq : N) : list Message :=
  match load_messages (sr_session_id hit) (seq - radius)
          (u64_saturating_add seq (u64_add radius 1)) with
  | Ok turns => turns
  | Err _ => []
  end.

Definition complete_message (results : list SemanticSearchResult) (st : completion)
    (hit : SemanticSearchResult) : completion :=
  match seq_of hit with
  | None => push_new (result_key hit) hit st
  | Some seq =>
    let turns := load_window hit seq in
    let st := if existsb (λ t, N.eqb (msg_seq t) seq) turns then st
              else push_new (result_key hit) hit st in
    foldl (complete_turn results hit) st turns
  end.

Definition complete_message_results (results : list SemanticSearchResult)
    : list SemanticSearchResult :=
  if existsb (λ r, bool_decide (is_Some (seq_of r))) results
  then (foldl (complete_message results) (∅, []) results).2
  else results.
End messages.

(** ** Excerpts *)

Section excerpts.
Context `{I : UuidText} (format_date : DateTime → string).

(** [(session_id, seq)], [u64::MAX] where the id names no position. *)
Definition turn_order (a b : SemanticSearchResult) : comparison :=
  let seq r := default (u64_mod - 1)%N (seq_of_content_id (sr_content_id r)) in
  then_with (N.compare (sr_session_id a) (sr_session_id b)) (N.compare (seq a) (seq b)).

Definition turn_excerpt (r : SemanticSearchResult) : ContextItem :=
  excerpt ("[" +:+ format_date (sr_timestamp r) +:+ "] " +:+ text_content r)
    (f32_clamp (combined_score r) f32_zero f32_one)
    (Uuid_to_string (sr_session_id r) +:+ "/" +:+ sr_content_id r).

(** [search] is the semantic search over one or several sessions. *)
Definition conversation_excerpts {E}
    (search : list Uuid → string → result (list SemanticSearchResult) E)
    (sessions : list Uuid) (query : string) : result (list ContextItem) E :=
  match sessions with
  | [] => Ok []
  | _ =>
    match search sessions query with
    | Err e => Err e
    | Ok results =>
      Ok (turn_excerpt <$>
            sort_by turn_order (filter (λ r, sr_content_type r = MessageType) results))
    end
  end.
End excerpts.

(** ** Completing record hits *)

Definition determine_content_type (u : ContextUpdate) : ContentType :=
  match cu_update_type u with
  | QuestionAnswered => UserMessage
  | ProblemSolved => ProblemSolution
  | CodeChanged => CodeSnippet
  | DecisionMade => DecisionPoint
  | ConceptDefined | RequirementAdded => UpdateContentType
  end.

(** [&s[..s.len().min(50)]] inside [tracing::debug!], evaluated only when the
    level is enabled: it panics off a character boundary. *)
Definition debug_slice_ok (s : string) : bool := is_char_boundary s (Nat.min (str_len s) 50).

Definition extract_text_from_update (debug : bool) (u : ContextUpdate) : option string :=
  let c := cu_content u in
  if debug && negb (debug_slice_ok (uc_title c) && debug_slice_ok (uc_description c)) then None
  else Some (String.concat " "
    ([uc_title c; uc_description c] ++ uc_details c ++ uc_examples c ++ uc_implications c
     ++ match related_code u with
        | Some code => [code_snippet code; file_path code]
        | None => []
        end)%list).

Definition ENDED_FACTOR : f32 := f32_half.

Section records.
Context `{U : Unicode} `{A : Alphanumeric} `{I : UuidText} `{P : Petgraph}.
Context (debug : bool) (sessions : gmap N ActiveSession) (radius : nat).

(** [ValidityCache::of], without the cache. *)
Definition validity_of (s : ActiveSession) : option (gmap Uuid Validity) :=
  validity (incremental_updates s) (entity_graph s).

(** [ValidityCache::ended]. *)
Definition ended_validity (s : ActiveSession) (id : Uuid) : option (option Validity) :=
  vs ← validity_of s;
  Some (v ← vs !! id; if is_current v then None else Some v).

Definition ended_explicitly (v : Validity) : bool :=
  match v_reason v with
  | Some (Superseded | Contradicted | Forgotten) => true
  | _ => false
  end.

(** [0.5 + 0.5 * c.clamp(0.0, 1.0)]. *)
Definition confidence_factor (c : f32) : f32 :=
  f32_add f32_half (f32_mul f32_half (f32_clamp c f32_zero f32_one)).

(** The loop body of [weigh_by_validity]: whether a score changed, the hits
    so far. *)
Definition weigh_hit (st : bool * list SemanticSearchResult) (hit : SemanticSearchResult)
    : option (bool * list SemanticSearchResult) :=
  let keep := Some (st.1, (st.2 ++ [hit])%list) in
  match sessions !! sr_session_id hit, Uuid_parse (sr_content_id hit) with
  | Some session, Some id =>
    match find_first (λ u, N.eqb (cu_id u) id) (incremental_updates session) with
    | None => keep
    | Some update =>
      let confidence := um_confidence (cu_meta update) in
      let score := match confidence with
                   | Some c => f32_mul (combined_score hit) (confidence_factor c)
                   | None => combined_score hit
                   end in
      v ← ended_validity session id;
      let lowered := match v with Some v => ended_explicitly v | None => false end in
      let score := if lowered then f32_mul score ENDED_FACTOR else score in
      Some (st.1 || bool_decide (is_Some confidence) || lowered,
            (st.2 ++ [with_trust score v confidence hit])%list)
    end
  | _, _ => keep
  end.

Definition weigh_by_validity (hits : list SemanticSearchResult)
    : option (list SemanticSearchResult) :=
  st ← try_fold weigh_hit (false, []) hits;
  Some (if st.1 : bool
        then sort_by (λ a b, f32_total_cmp (combined_score b) (combined_score a)) st.2
        else st.2).

Definition with_full_text (hit : SemanticSearchResult) (u : ContextUpdate)
    : option SemanticSearchResult :=
  let hit := with_derived_from (derived_from u) hit in
  full ← extract_text_from_update debug u;
  Some (if (str_len (text_content hit) <? str_len full)%nat then with_text full hit else hit).

Definition neighbour (u : ContextUpdate) (hit : SemanticSearchResult)
    : option SemanticSearchResult :=
  let content_type := determine_content_type u in
  text ← extract_text_from_update debug u;
  Some (mkSearchResult (Uuid_to_string (cu_id u)) (sr_session_id hit) content_type text
          f32_zero (importance_weight content_type) (cu_timestamp u) (combined_score hit)
          (Some (sr_content_id hit)) (cu_author u) (derived_from u) None None None).

(** Update id to position: the last one wins. *)
Definition positions (us : list ContextUpdate) : gmap N nat :=
  index_by cu_id us.

Definition locate (hit : SemanticSearchResult) : option (ActiveSession * nat) :=
  session ← sessions !! sr_session_id hit;
  id ← Uuid_parse (sr_content_id hit);
  pos ← positions (incremental_updates session) !! id;
  Some (session, pos).

(** [&updates[pos.saturating_sub(radius)..=(pos + radius).min(len - 1)]]. *)
Definition window (us : list ContextUpdate) (pos : nat) : list ContextUpdate :=
  let last := Nat.min (pos + radius) (length us - 1) in
  take (last + 1 - (pos - radius)) (drop (pos - radius) us).

Definition complete_update (hits : list SemanticSearchResult) (session : ActiveSession)
    (hit : SemanticSearchResult) (st : completion) (u : ContextUpdate) : option completion :=
  let key := (sr_session_id hit, Uuid_to_string (cu_id u)) in
  if decide (key ∈ st.1) then Some st
  else
    item ← match hit_at hits key with
           | Some h => with_full_text h u
           | None =>
             n ← neighbour u hit;
             v ← ended_validity session (cu_id u);
             Some (with_trust (combined_score n) v (um_confidence (cu_meta u)) n)
           end;
    Some (push_new key item st).

Definition complete_hit (hits : list SemanticSearchResult) (st : completion)
    (hit : SemanticSearchResult) : option completion :=
  match locate hit with
  | None => Some (push_new (result_key hit) hit st)
  | Some (session, pos) =>
    try_fold (complete_update hits session hit) st (window (incremental_updates session) pos)
  end.

Definition complete_results (hits : list SemanticSearchResult)
    : option (list SemanticSearchResult) :=
  hits ← weigh_by_validity hits;
  st ← try_fold (complete_hit hits) (∅, []) hits;
  Some st.2.
End records.
