(* ===== verification/RetrievalGraph.v ===== *)
(** * The retrieval graph

    [core/graph/retrieval_graph.rs]: records joined to the terms of their
    text and to their entities, entities to each other by relations, and
    personalised PageRank from a query.  The Snowball stemmer is a parameter;
    [HashSet]s iterate through [MapOrder]; indexing out of range is a panic,
    [None]. *)

From stdpp Require Import gmap.
From S2P Require Import Prelude RustStd Collections StrLemmas F32 FloatOrder FloatRound Similarity Types Petgraph ContextAssembly SearchResults GraphAnalytics.

Local Open Scope string_scope.
Local Open Scope list_scope.

Definition MAX_DF_SHARE : f32 := f32_div (f32_of_N 5) (f32_of_N 100).
Definition RANK_DAMPING : f32 := f32_half.
Definition ITERATIONS : nat := 30.

(** [Stemmer::create(Algorithm::English)]. *)
Class Stemmer := { stem : string → string }.

(** Iteration over a [HashSet]. *)
Definition set_iter `{MapOrder} {K} `{Countable K} (X : gset K) : list K :=
  (iter_order (set_to_map (λ x, (x, tt)) X : gmap K ())).*1.

(** ** Terms *)

Section terms.
Context `{U : Unicode} `{A : Alphanumeric} `{C : Uppercase} `{ST : Stemmer}.

Definition trim_quotes (w : list N) : list N :=
  reverse (skip_while (N.eqb 39) (reverse (skip_while (N.eqb 39) w))).

Definition text_words (text : string) : list (list N) :=
  filter (λ w, w ≠ [])
    (trim_quotes <$> split_chars (λ c, negb (is_alphanumeric c || N.eqb c 39)) (str_chars text)).

Definition starts_uppercase (w : list N) : bool := match w with c :: _ => is_uppercase c | [] => false end.

(** [s.chars().count() > 2]. *)
Definition long_enough (s : string) : bool := (2 <? length (str_chars s))%nat.

(** One turn of the loop over the words and a final [None]: the capitalised
    run so far and the terms. *)
Definition run_step (st : list string * gset string) (w : option (list N)) : list string * gset string :=
  match w with
  | Some w =>
    if starts_uppercase w then (st.1 ++ [str_of_chars w], st.2)
    else
      if bool_decide (st.1 = []) then st
      else
        let name := str_to_lowercase (String.concat " " st.1) in
        ([], if long_enough name then {[name]} ∪ st.2 else st.2)
  | None =>
    if bool_decide (st.1 = []) then st
    else
      let name := str_to_lowercase (String.concat " " st.1) in
      ([], if long_enough name then {[name]} ∪ st.2 else st.2)
  end.

Definition word_term (out : gset string) (w : list N) : gset string :=
  let lower := str_to_lowercase (str_of_chars w) in
  if long_enough lower then {[stem lower]} ∪ out else out.

Definition terms (text : string) : gset string :=
  let ws := text_words text in
  foldl word_term (foldl run_step ([], ∅) ((Some <$> ws) ++ [None])).2 ws.
End terms.

(** ** Stored keys *)

Definition TERMS_KEY : string := "terms".
Definition ENTITIES_KEY : string := "entities".

Definition join_keys (keys : list string) : string :=
  String.concat newline (dedup (sort_by str_cmp (filter (λ k, k ≠ "") keys))).

Definition split_keys (joined : string) : list string :=
  filter (λ k, k ≠ "") (str_of_bytes <$> bytes_split 10 (str_bytes joined)).

(** ** The graph *)

Record GraphRecord (R : Type) := mkGraphRecord {
  gr_id : R;
  gr_terms : gset string;
  gr_entities : list string;
}.
Arguments mkGraphRecord {R} _ _ _.
Arguments gr_id {R} _.
Arguments gr_terms {R} _.
Arguments gr_entities {R} _.

Record RetrievalGraph (R : Type) := mkRetrievalGraph {
  rg_records : list R;
  rg_nodes : gmap string nat;
  rg_edges : list (list (nat * f32));
  rg_strength : list f32;
  rg_df : list f32;
}.
Arguments mkRetrievalGraph {R} _ _ _ _ _.
Arguments rg_records {R} _.
Arguments rg_nodes {R} _.
Arguments rg_edges {R} _.
Arguments rg_strength {R} _.
Arguments rg_df {R} _.

Section graph.
Context `{U : Unicode} `{A : Alphanumeric} `{C : Uppercase} `{ST : Stemmer} `{MO : MapOrder} {R : Type}.

Definition entity_key (name : string) : string := "entity:" +:+ str_to_lowercase name.

Definition record_keys (record : GraphRecord R) : gset string :=
  list_to_set (entity_key <$> gr_entities record) ∪ gr_terms record.

Definition count_key (count : gmap string nat) (k : string) : gmap string nat :=
  <[k := S (default 0%nat (count !! k))]> count.

Definition key_counts (keys_per_record : list (gset string)) : gmap string nat :=
  foldl (λ count keys, foldl count_key count (set_iter keys)) ∅ keys_per_record.

Definition max_df (n : nat) : nat :=
  N.to_nat (f32_to_uint (u64_mod - 1) (f32_mul MAX_DF_SHARE (f32_of_N (N.of_nat n)))) `max` 2.

Definition kept_keys (n : nat) (count : gmap string nat) : list string :=
  sort_by str_cmp (filter (λ kc, kc.2 ≤ max_df n)%nat (iter_order count)).*1.

Definition strength_of (neighbours : list (nat * f32)) : f32 := f32_sum neighbours.*2.

(** The edges of one record. *)
Definition join_record (nodes : gmap string nat) (edges : list (list (nat * f32))) (rk : nat * gset string)
    : option (list (list (nat * f32))) :=
  try_fold (λ edges k, match nodes !! k with Some node => push_pair edges (rk.1, node, f32_one) | None => Some edges end)
    edges (set_iter rk.2).

Definition join_relation (nodes : gmap string nat) (edges : list (list (nat * f32))) (rel : EntityRelationship)
    : option (list (list (nat * f32))) :=
  match nodes !! entity_key (from_entity rel), nodes !! entity_key (to_entity rel) with
  | Some a, Some b =>
    if (a =? b)%nat then Some edges else push_pair edges (a, b, weight (er_relation_type rel))
  | _, _ => Some edges
  end.

Definition build (records : list (GraphRecord R)) (relations : list EntityRelationship) : option (RetrievalGraph R) :=
  let keys_per_record := record_keys <$> records in
  let n := length records in
  let count := key_counts keys_per_record in
  let kept := kept_keys n count in
  let nodes : gmap string nat := list_to_map (zip kept (seq n (length kept))) in
  edges ← try_fold (join_record nodes) (replicate (n + size nodes)%nat []) (imap pair keys_per_record);
  edges ← try_fold (join_relation nodes) edges relations;
  Some (mkRetrievalGraph (gr_id <$> records) nodes edges (strength_of <$> edges)
          ((λ k, f32_of_N (N.of_nat (default 0%nat (count !! k)))) <$> kept)).

(** ** Ranking *)

(** An entity node whose name the query contains. *)
Definition entity_seed (lower : string) (kn : string * nat) : option nat :=
  name ← strip_prefix "entity:" kn.1;
  if negb (bool_decide (name = [])) && bytes_infix name (str_bytes lower) then Some kn.2 else None.

Definition seed_nodes (query : string) (g : RetrievalGraph R) : list nat :=
  omap (λ t, rg_nodes g !! t) (set_iter (terms query))
  ++ omap (entity_seed (str_to_lowercase query)) (iter_order (rg_nodes g)).

(** [seed[node] = 1.0 / self.df[node - n]]. *)
Definition set_seed (g : RetrievalGraph R) (seed : list f32) (node : nat) : option (list f32) :=
  if (node <? length (rg_records g))%nat then None
  else
    d ← rg_df g !! (node - length (rg_records g))%nat;
    _ ← seed !! node;
    Some (<[node := f32_div f32_one d]> seed).

Definition rank_spread (next : list f32) (node : f32 * f32 * list (nat * f32)) : option (list f32) :=
  let '(strength, rank, neighbours) := node in
  if bool_decide (neighbours = []) then Some next
  else
    let share := f32_div (f32_mul RANK_DAMPING rank) strength in
    try_fold (λ next mw, x ← next !! mw.1; Some (<[mw.1 := f32_add x (f32_mul share mw.2)]> next)) next neighbours.

Fixpoint rank_loop (g : RetrievalGraph R) (seed : list f32) (iterations : nat) (rank : list f32) : option (list f32) :=
  match iterations with
  | O => Some rank
  | S iterations =>
    let next := (λ s, f32_mul (f32_sub f32_one RANK_DAMPING) s) <$> seed in
    next ← try_fold rank_spread next (zip (zip (rg_strength g) rank) (rg_edges g));
    rank_loop g seed iterations next
  end.

Definition rank (query : string) (limit : nat) (g : RetrievalGraph R) : option (list R) :=
  let n := length (rg_records g) in
  seed ← try_fold (set_seed g) (replicate (length (rg_edges g)) f32_zero) (seed_nodes query g);
  let total := f32_sum seed in
  if f32_is_zero total then Some []
  else
    let seed := (λ s, f32_div s total) <$> seed in
    rank ← rank_loop g seed ITERATIONS seed;
    let order := filter (λ ir, f32_lt f32_zero ir.2 = true) (imap pair (take n rank)) in
    let order := take limit (sort_by (λ a b, f32_total_cmp b.2 a.2) order) in
    mapM (λ ir, rg_records g !! ir.1) order.
End graph.

(** ** Numbers *)

(** Above zero, not a NaN, and no finer than a subnormal. *)
Definition above_zero (x : f32) : Prop :=
  nonneg x ∧ f32_is_zero x = false ∧ match x with SpecFloat.S754_finite _ _ e => (-149 <= e)%Z | _ => True end.

Lemma normalize_above_zero p e :
  (-149 <= e)%Z → above_zero (SpecFloat.binary_normalize 24 128 (Z.pos p) e false).
Proof.
  intros He. split; [apply binary_normalize_nonneg; lia|].
  unfold SpecFloat.binary_normalize, SpecFloat.binary_round, SpecFloat.shl_align.
  assert (-149 <= SpecFloat.fexp 24 128 (Z.pos (SpecFloat.digits2_pos p) + e))%Z by (unfold SpecFloat.fexp, SpecFloat.emin; lia).
  assert (∀ m e, (1 <= m)%Z → (-149 <= e)%Z →
    f32_is_zero (SpecFloat.binary_round_aux 24 128 false m e SpecFloat.loc_Exact) = false) as Hr.
  { intros m e' Hm He'. pose proof (round_aux_nonzero false m e') as Hz.
    destruct (SpecFloat.binary_round_aux _ _ _ _ _ _) as [z| | |]; [|done..]. by destruct (Hz z). }
  destruct (SpecFloat.fexp 24 128 (Z.pos (SpecFloat.digits2_pos p) + e) - e)%Z;
    (split; [apply Hr; lia|apply round_aux_fine]).
Qed.

Lemma add_above_zero x y : above_zero x → above_zero y → above_zero (f32_add x y).
Proof.
  intros (Hx & Hzx & Hfx) (Hy & Hzy & Hfy).
  destruct x as [[]|[]| |[] m1 e1], y as [[]|[]| |[] m2 e2]; try done.
  unfold f32_add. cbn [SpecFloat.SFadd SpecFloat.cond_Zopp]. apply normalize_above_zero. lia.
Qed.

Lemma neg_zero_add x : nonneg x → f32_add f32_neg_zero x = x.
Proof. by destruct x as [[]|[]| |[] m e]. Qed.

Lemma sum_above_zero xs : xs ≠ [] → Forall above_zero xs → above_zero (f32_sum xs).
Proof.
  intros Hne Hxs. destruct Hxs as [|x xs Hx Hxs]; [done|]. unfold f32_sum. cbn [foldl].
  rewrite neg_zero_add by apply Hx. clear Hne. revert x Hx. induction Hxs as [|y ys Hy _ IH]; intros x Hx; [done|].
  cbn [foldl]. apply IH. by apply add_above_zero.
Qed.

Lemma sum_nonneg xs : Forall nonneg xs → xs = [] ∨ nonneg (f32_sum xs).
Proof.
  intros [|x ys Hx Hys]; [by left|right]. unfold f32_sum. cbn [foldl]. rewrite neg_zero_add by done.
  revert x Hx. induction Hys as [|y ys Hy _ IH]; intros x Hx; [done|]. cbn [foldl]. apply IH. by apply SFadd_nonneg.
Qed.

Lemma zero_add x y : f32_is_zero x = true → f32_is_zero y = true → f32_is_zero (f32_add x y) = true.
Proof. destruct x as [[]| | |], y as [[]| | |]; done. Qed.

Lemma zero_div x y : f32_is_zero x = true → nonneg y → f32_is_zero y = false → f32_is_zero (f32_div x y) = true.
Proof. destruct x as [[]| | |], y as [[]|[]| |[]]; done. Qed.

Lemma zero_mul c x : positive_finite c → f32_is_zero x = true → f32_is_zero (f32_mul c x) = true ∧ f32_is_zero (f32_mul x c) = true.
Proof. destruct c as [| | |[] m e]; try done. destruct x as [[]| | |]; done. Qed.

Lemma damping_positive : positive_finite RANK_DAMPING ∧ positive_finite (f32_sub f32_one RANK_DAMPING).
Proof. by vm_compute. Qed.

Lemma weights_positive t : positive_finite (weight t) ∧ above_zero (weight t).
Proof. destruct t; by vm_compute. Qed.

(** ** Walks stay where the query reaches *)

Section walk.
Context {R : Type} (g : RetrievalGraph R).

Record edges_ok : Prop := {
  eo_wf : adj_wf (rg_edges g);
  eo_weights i nb j w : rg_edges g !! i = Some nb → (j, w) ∈ nb → positive_finite w ∧ above_zero w;
  eo_strength : rg_strength g = strength_of <$> rg_edges g;
}.

(** Connected by edges to one of [starts]. *)
Definition reached (starts : list nat) (i : nat) : Prop := ∃ s, s ∈ starts ∧ rtsc (adj_edge (rg_edges g)) s i.

Definition quiet (starts : list nat) (rank : list f32) : Prop :=
  ∀ i x, rank !! i = Some x → f32_is_zero x = true ∨ reached starts i.

Lemma rank_spread_ok starts next i st r nb :
  edges_ok → length next = length (rg_edges g) → quiet starts next → rg_edges g !! i = Some nb →
  rg_strength g !! i = Some st → f32_is_zero r = true ∨ reached starts i →
  ∃ next', rank_spread next (st, r, nb) = Some next' ∧ length next' = length next ∧ quiet starts next'.
Proof.
  intros [Hwf Hw Hst] Hlen Hq Hnb Hsti Hr. unfold rank_spread. case_bool_decide as Hne; [by exists next|].
  set (share := f32_div (f32_mul RANK_DAMPING r) st).
  assert (f32_is_zero share = true ∨ reached starts i) as Hshare.
  { destruct Hr as [Hr|Hr]; [left|by right]. apply zero_div.
    - by apply (zero_mul _ _ (proj1 damping_positive)).
    - rewrite Hst, list_lookup_fmap, Hnb in Hsti. injection Hsti as <-. apply sum_above_zero.
      + by destruct nb.
      + apply Forall_fmap, Forall_forall. intros [j w] Hj. by apply (Hw i nb j w).
    - rewrite Hst, list_lookup_fmap, Hnb in Hsti. injection Hsti as <-. apply sum_above_zero.
      + by destruct nb.
      + apply Forall_fmap, Forall_forall. intros [j w] Hj. by apply (Hw i nb j w). }
  destruct (try_fold_total (λ next mw, x ← next !! mw.1; Some (<[mw.1 := f32_add x (f32_mul share mw.2)]> next))
    (λ next', length next' = length next ∧ quiet starts next') nb) with (s := next) as (next' & Heq & Hl' & Hq'); [|done|by exists next'].
  intros s [m w] Hm [Hl Hqs]. simpl. assert (adj_edge (rg_edges g) i m) as Him by by exists nb, w.
  destruct (lookup_lt_is_Some_2 s m) as [x Hx]; [rewrite Hl, Hlen; by eapply Hwf|]. rewrite Hx. simpl.
  eexists. split; [done|]. split; [by rewrite length_insert|].
  intros k y [(<- & <- & _)|[_ Hy]]%list_lookup_insert_Some; [|by eapply Hqs].
  destruct Hshare as [Hz|(s0 & Hs0 & Hpath)].
  - destruct (Hqs m x Hx) as [Hzx|?]; [left|by right]. apply zero_add; [done|].
    apply zero_mul; [|done]. by apply (Hw i nb m w).
  - right. exists s0. split; [done|]. eapply rtc_r; [exact Hpath|by left].
Qed.

Lemma rank_loop_ok starts seed iterations rank :
  edges_ok → length seed = length (rg_edges g) → length rank = length (rg_edges g) →
  quiet starts seed → quiet starts rank →
  ∃ rank', rank_loop g seed iterations rank = Some rank' ∧ length rank' = length (rg_edges g) ∧ quiet starts rank'.
Proof.
  intros Hok Hls. revert rank. induction iterations as [|k IH]; intros rank Hlr Hqs Hqr; [by exists rank|]. cbn [rank_loop].
  destruct (try_fold_total rank_spread (λ next, length next = length (rg_edges g) ∧ quiet starts next)
    (zip (zip (rg_strength g) rank) (rg_edges g)))
    with (s := (λ s, f32_mul (f32_sub f32_one RANK_DAMPING) s) <$> seed) as (next & -> & Hln & Hqn).
  - intros next [[st r] nb] Hin [Hl Hq]. apply list_elem_of_lookup in Hin as [i Hi].
    apply lookup_zip_Some in Hi as [Hi Hnb]. apply lookup_zip_Some in Hi as [Hst Hr]. simpl in *.
    destruct (rank_spread_ok starts next i st r nb) as (next' & ? & ? & ?); try done; [by eapply Hqr|].
    exists next'. split_and!; [done|congruence|done].
  - split; [by rewrite length_fmap|]. intros i x Hx. apply list_lookup_fmap_Some in Hx as (y & -> & Hy).
    destruct (Hqs i y Hy) as [Hz|?]; [left|by right]. by apply (zero_mul _ _ (proj2 damping_positive)).
  - by apply IH.
Qed.
End walk.

Section theorems.
Context `{U : Unicode} `{A : Alphanumeric} `{C : Uppercase} `{ST : Stemmer} `{MO : MapOrder} {MOL : MapOrderLaws} {R : Type}.
Implicit Types (g : RetrievalGraph R).

Record nodes_ok g : Prop := {
  no_range k i : rg_nodes g !! k = Some i → (length (rg_records g) ≤ i < length (rg_edges g))%nat;
  no_df k i : rg_nodes g !! k = Some i → ∃ d : f32, rg_df g !! (i - length (rg_records g))%nat = Some d ∧ nonneg d;
  no_records : (length (rg_records g) ≤ length (rg_edges g))%nat;
}.

Lemma mapM_fst {X Y Z} (f : X → option Z) (es : list (X * Y)) : mapM (λ e, f e.1) es = mapM f es.*1.
Proof. induction es as [|[x y] es IH]; [done|]. change (f x ≫= (λ y, mapM (λ e, f e.1) es ≫= λ k, Some (y :: k)) = f x ≫= (λ y, mapM f es.*1 ≫= λ k, Some (y :: k))). by rewrite IH. Qed.

Lemma elem_of_set_iter {K} `{Countable K} (X : gset K) x : x ∈ set_iter X ↔ x ∈ X.
Proof.
  unfold set_iter. rewrite list_elem_of_fmap. split.
  - intros ([y []] & -> & Hy%elem_of_iter_order). apply lookup_set_to_map in Hy as (z & Hz & [= <-]); [done|].
    by intros ? ? ? ? [= <-].
  - intros Hx. exists (x, ()). split; [done|]. apply elem_of_iter_order, lookup_set_to_map; [by intros ? ? ? ? [= <-]|].
    by exists x.
Qed.

(** A key by which a query enters the graph. *)
Definition query_key (query k : string) : Prop :=
  k ∈ terms query ∨ ∃ name, strip_prefix "entity:" k = Some name ∧ name ≠ []
                            ∧ bytes_infix name (str_bytes (str_to_lowercase query)) = true.

Lemma elem_of_seed_nodes query g i :
  i ∈ seed_nodes query g ↔ ∃ k, query_key query k ∧ rg_nodes g !! k = Some i.
Proof.
  unfold seed_nodes, query_key. rewrite elem_of_app, !list_elem_of_omap. setoid_rewrite elem_of_set_iter. split.
  - intros [(k & Hk & Hi)|([k j] & Hk%elem_of_iter_order & Hi)]; [by exists k; auto|].
    unfold entity_seed in Hi. cbn [fst snd] in Hi. destruct (strip_prefix "entity:" k) as [name|] eqn:Hname; [|done].
    cbn [mbind option_bind] in Hi. destruct (negb _ && _) eqn:Hc; [|done]. injection Hi as <-.
    apply andb_true_iff in Hc as [Hne Hin]. apply negb_true_iff, bool_decide_eq_false in Hne.
    exists k. split; [right; by exists name|done].
  - intros (k & [Hk|(name & Hname & Hne & Hin)] & Hi); [left; by exists k|]. right. exists (k, i).
    split; [by apply elem_of_iter_order|]. unfold entity_seed. cbn [fst snd]. rewrite Hname. cbn [mbind option_bind].
    by rewrite bool_decide_eq_false_2, Hin.
Qed.

Lemma seeds_ok query g :
  nodes_ok g →
  ∃ seed, try_fold (set_seed g) (replicate (length (rg_edges g)) f32_zero) (seed_nodes query g) = Some seed
    ∧ length seed = length (rg_edges g) ∧ quiet g (seed_nodes query g) seed ∧ Forall nonneg seed.
Proof.
  intros [Hrange Hdf _].
  destruct (try_fold_total (set_seed g) (λ seed, length seed = length (rg_edges g)
    ∧ quiet g (seed_nodes query g) seed ∧ Forall nonneg seed) (seed_nodes query g))
    with (s := replicate (length (rg_edges g)) f32_zero) as (seed & Heq & Hseed); [| |by exists seed].
  - intros seed i Hi (Hl & Hq & Hn). pose proof Hi as (k & _ & Hk)%elem_of_seed_nodes.
    destruct (Hrange k i Hk) as [Hge Hlt]. destruct (Hdf k i Hk) as (d & Hd & Hnd). unfold set_seed.
    destruct (Nat.ltb_spec i (length (rg_records g))) as [?|_]; [lia|]. rewrite Hd. cbn [mbind option_bind].
    destruct (lookup_lt_is_Some_2 seed i) as [x Hx]; [by rewrite Hl|]. rewrite Hx. cbn [mbind option_bind].
    eexists. split; [done|]. split_and!.
    + by rewrite length_insert.
    + intros j y [(<- & <- & _)|[_ Hy]]%list_lookup_insert_Some; [|by eapply Hq]. right. exists i. split; [done|constructor].
    + apply Forall_insert; [done|]. by apply SFdiv_nonneg; [..|left].
  - split_and!.
    + apply length_replicate.
    + intros i x [-> _]%lookup_replicate. by left.
    + by apply Forall_replicate.
Qed.

(** Ranking ends without a panic and finds records in reach of the query. *)
Lemma rank_spec query limit g :
  edges_ok g → nodes_ok g →
  ∃ out ps, rank query limit g = Some out ∧ NoDup ps ∧ (length ps ≤ limit)%nat
    ∧ mapM (λ p, rg_records g !! p) ps = Some out ∧ ∀ p, p ∈ ps → reached g (seed_nodes query g) p.
Proof.
  intros He Hno. unfold rank. destruct (seeds_ok query g Hno) as (seed & -> & Hl & Hq & Hn). cbn [mbind option_bind].
  destruct (f32_is_zero (f32_sum seed)) eqn:Hz.
  { exists [], []. split_and!; [done|constructor|simpl; lia|done|]. by intros p ?%elem_of_nil. }
  assert (nonneg (f32_sum seed)) as Hsum by by destruct (sum_nonneg seed Hn) as [->|].
  set (seeds := (λ s, f32_div s (f32_sum seed)) <$> seed).
  assert (quiet g (seed_nodes query g) seeds) as Hqs.
  { intros i x Hx. apply list_lookup_fmap_Some in Hx as (y & -> & Hy). destruct (Hq i y Hy) as [Hzy|?]; [left|by right].
    by apply zero_div. }
  destruct (rank_loop_ok g (seed_nodes query g) seeds ITERATIONS seeds He) as (r & -> & Hlr & Hqr);
    [by unfold seeds; rewrite length_fmap..|done|done|].
  cbn [mbind option_bind]. set (n := length (rg_records g)).
  set (entries := filter (λ ir : nat * f32, f32_lt f32_zero ir.2 = true) (imap pair (take n r))).
  set (order := take limit (sort_by _ entries)).
  assert (∀ ir, ir ∈ order → (ir.1 < n)%nat ∧ r !! ir.1 = Some ir.2 ∧ f32_lt f32_zero ir.2 = true) as Hord.
  { intros [i x] Hin%subseteq_take. rewrite sort_by_perm in Hin. apply list_elem_of_filter in Hin as [Hpos Hin].
    apply elem_of_lookup_imap in Hin as (j & y & [= -> ->] & [Hj Hlt]%lookup_take_Some). by split_and!. }
  assert (NoDup order.*1) as Hnd.
  { eapply sublist_NoDup; [|apply fmap_sublist, sublist_take]. rewrite sort_by_perm.
    eapply sublist_NoDup; [|apply fmap_sublist, sublist_filter].
    assert ((imap pair (take n r)).*1 = seq 0 (length (take n r))) as ->; [|apply NoDup_seq].
    apply list_eq. intros i. rewrite list_lookup_fmap, list_lookup_imap.
    destruct (take n r !! i) as [x|] eqn:Hi; simpl; symmetry.
    - apply lookup_seq. apply lookup_lt_Some in Hi. lia.
    - apply lookup_seq_ge. by apply lookup_ge_None. }
  assert (∃ out, mapM (λ p, rg_records g !! p) order.*1 = Some out) as [out Hout].
  { apply mapM_is_Some, Forall_forall. intros p ([i x] & -> & Hi)%list_elem_of_fmap.
    apply lookup_lt_is_Some. by apply (Hord _ Hi). }
  exists out, order.*1. split_and!; [|done| |done|].
  - rewrite <-Hout. apply (mapM_fst (λ p, rg_records g !! p)).
  - rewrite length_fmap. unfold order. rewrite length_take. lia.
  - intros p ([i x] & -> & Hi)%list_elem_of_fmap. destruct (Hord _ Hi) as (_ & Hx & Hpos). simpl in *.
    destruct (Hqr i x Hx) as [Hzx|?]; [|done]. exfalso. by destruct x as [[]| | |].
Qed.

(** ** What building joins *)

(** The things the graph joins: records by position, terms and entities by
    their keys. *)
Inductive item := Rec (p : nat) | Key (k : string).

(** A key on at least one record, and on few enough. *)
Definition kept_key (records : list (GraphRecord R)) (k : string) : Prop :=
  (1 ≤ length (filter (λ r, k ∈ record_keys r) records) ≤ max_df (length records))%nat.

Inductive joins (records : list (GraphRecord R)) (relations : list EntityRelationship) : item → item → Prop :=
  | joins_record p r k : records !! p = Some r → k ∈ record_keys r → kept_key records k → joins records relations (Rec p) (Key k)
  | joins_relation rel : rel ∈ relations → kept_key records (entity_key (from_entity rel)) →
      kept_key records (entity_key (to_entity rel)) →
      joins records relations (Key (entity_key (from_entity rel))) (Key (entity_key (to_entity rel))).

Lemma NoDup_set_iter {K} `{Countable K} (X : gset K) : NoDup (set_iter X).
Proof. unfold set_iter. rewrite iter_order_perm. apply NoDup_fst_map_to_list. Qed.

Lemma count_key_list ks m k :
  NoDup ks →
  default 0%nat (foldl count_key m ks !! k) = (default 0%nat (m !! k) + if bool_decide (k ∈ ks) then 1 else 0)%nat.
Proof.
  intros Hnd. revert m. induction Hnd as [|k' ks Hk' _ IH]; intros m; simpl; [lia|]. rewrite IH. unfold count_key.
  destruct (decide (k = k')) as [->|Hne].
  - rewrite lookup_insert_eq, bool_decide_eq_false_2, bool_decide_eq_true_2 by set_solver. simpl. lia.
  - rewrite lookup_insert_ne by done. f_equal. erewrite bool_decide_ext; [done|]. set_solver.
Qed.

Lemma key_counts_spec (ks : list (gset string)) k :
  default 0%nat (key_counts ks !! k) = length (filter (λ X, k ∈ X) ks).
Proof.
  unfold key_counts. assert (∀ m, default 0%nat (foldl (λ count keys, foldl count_key count (set_iter keys)) m ks !! k)
    = (default 0%nat (m !! k) + length (filter (λ X, k ∈ X) ks))%nat) as Hgen.
  { induction ks as [|X ks IH]; intros m; simpl; [lia|]. rewrite IH, count_key_list by apply NoDup_set_iter.
    rewrite filter_cons. destruct (decide (k ∈ X)) as [Hk|Hk].
    - rewrite bool_decide_eq_true_2 by by apply elem_of_set_iter. simpl. lia.
    - rewrite bool_decide_eq_false_2 by by rewrite elem_of_set_iter. lia. }
  by rewrite Hgen, lookup_empty.
Qed.

Lemma key_counts_positive (ks : list (gset string)) k c : key_counts ks !! k = Some c → (1 ≤ c)%nat.
Proof.
  revert k c. unfold key_counts.
  assert (∀ xs (m : gmap string nat), (∀ k c, m !! k = Some c → (1 ≤ c)%nat) →
    ∀ k c, foldl count_key m xs !! k = Some c → (1 ≤ c)%nat) as Hlist.
  { induction xs as [|x xs IH]; intros m Hm; [done|]. apply IH. unfold count_key.
    intros k c [(_ & <-)|[_ Hk]]%lookup_insert_Some; [lia|by eapply Hm]. }
  assert (∀ m : gmap string nat, (∀ k c, m !! k = Some c → (1 ≤ c)%nat) →
    ∀ k c, foldl (λ count keys, foldl count_key count (set_iter keys)) m ks !! k = Some c → (1 ≤ c)%nat) as Hgen.
  { induction ks as [|X ks IH]; intros m Hm; [done|]. by apply IH, Hlist. }
  apply Hgen. intros k c Hk. by rewrite lookup_empty in Hk.
Qed.

Lemma filter_fmap_length {X Y} (f : X → Y) (P : Y → Prop) `{!∀ y, base.Decision (P y)} xs :
  length (filter P (f <$> xs)) = length (filter (λ x, P (f x)) xs).
Proof. induction xs as [|x xs IH]; [done|]. csimpl. rewrite !filter_cons. case_decide; simpl; by rewrite IH. Qed.

Lemma elem_of_kept_keys (records : list (GraphRecord R)) k :
  k ∈ kept_keys (length records) (key_counts (record_keys <$> records)) → kept_key records k.
Proof.
  unfold kept_keys, kept_key. rewrite sort_by_perm, list_elem_of_fmap. intros ([k' c] & -> & [Hc Hin]%list_elem_of_filter).
  apply elem_of_iter_order in Hin. simpl in *. pose proof (key_counts_spec (record_keys <$> records) k') as Hn.
  pose proof (key_counts_positive _ _ _ Hin). rewrite Hin, filter_fmap_length in Hn. simpl in Hn. rewrite <-Hn. lia.
Qed.

(** Nodes in range, edges as [Q] says, weights fit for a walk. *)
Definition pairs_inv (Q : nat → nat → Prop) (n : nat) (edges : list (list (nat * f32))) : Prop :=
  length edges = n ∧ ∀ i nb j w, edges !! i = Some nb → (j, w) ∈ nb →
    (j < n)%nat ∧ Q i j ∧ positive_finite w ∧ above_zero w.

Lemma push_pair_inv (Q : nat → nat → Prop) n edges a b (w : f32) :
  pairs_inv Q n edges → (a < n)%nat → (b < n)%nat → Q a b → Q b a → positive_finite w ∧ above_zero w →
  ∃ edges', push_pair edges (a, b, w) = Some edges' ∧ pairs_inv Q n edges'.
Proof.
  intros [Hl Hinv] Ha Hb Hab Hba [Hp Hz]. unfold push_pair.
  destruct (push_at_spec a (b, w) edges) as (e1 & -> & Hl1 & H1); [lia|]. simpl.
  destruct (push_at_spec b (a, w) e1) as (e2 & -> & Hl2 & H2); [lia|]. exists e2. split; [done|]. split; [lia|].
  intros i nb j w' Hnb Hj. destruct (H2 i nb _ Hnb Hj) as [[-> [= -> ->]]|(nb1 & Hnb1 & Hj1)]; [by split_and!|].
  destruct (H1 i nb1 _ Hnb1 Hj1) as [[-> [= -> ->]]|(nb0 & Hnb0 & Hj0)]; [by split_and!|]. by eapply Hinv.
Qed.

(** The thing at a node. *)
Definition item_at (n : nat) (kept : list string) (i : nat) (x : item) : Prop :=
  match x with Rec p => p = i ∧ (i < n)%nat | Key k => (n ≤ i)%nat ∧ kept !! (i - n)%nat = Some k end.

Lemma item_at_inj n kept i x y : item_at n kept i x → item_at n kept i y → x = y.
Proof. destruct x, y; simpl; intros [] []; simplify_eq; [done|lia|lia|done]. Qed.

Lemma one_fit : positive_finite f32_one ∧ above_zero f32_one.
Proof. by vm_compute. Qed.

(** A built graph: its records, its nodes and its edges. *)
Record built (records : list (GraphRecord R)) (relations : list EntityRelationship) (kept : list string) g : Prop := {
  bu_records : rg_records g = gr_id <$> records;
  bu_nodes k i : rg_nodes g !! k = Some i → kept_key records k ∧ item_at (length records) kept i (Key k);
  bu_edges i j : adj_edge (rg_edges g) i j → ∃ x y, item_at (length records) kept i x ∧ item_at (length records) kept j y
                   ∧ sc (joins records relations) x y;
}.

Lemma build_spec records relations :
  ∃ g kept, build records relations = Some g ∧ edges_ok g ∧ nodes_ok g ∧ built records relations kept g.
Proof.
  unfold build. set (ks := record_keys <$> records). set (n := length records).
  set (kept := kept_keys n (key_counts ks)). set (nodes := list_to_map (zip kept (seq n (length kept))) : gmap string nat).
  assert (∀ k i, nodes !! k = Some i → (n ≤ i)%nat ∧ kept !! (i - n)%nat = Some k) as Hnodes by apply zip_index_from.
  assert (∀ k i, nodes !! k = Some i → kept_key records k) as Hkept.
  { intros k i [_ Hk%list_elem_of_lookup_2]%Hnodes. by apply elem_of_kept_keys. }
  assert (NoDup kept) as Hnd.
  { unfold kept, kept_keys. rewrite sort_by_perm. eapply sublist_NoDup; [|apply fmap_sublist, sublist_filter].
    rewrite iter_order_perm. apply NoDup_fst_map_to_list. }
  assert (size nodes = length kept) as Hsize.
  { unfold nodes. rewrite map_size_list_to_map; [rewrite length_zip, length_seq; lia|]. by rewrite fst_zip by by rewrite length_seq. }
  assert (∀ k i, nodes !! k = Some i → (i < n + size nodes)%nat) as Hlt.
  { intros k i [Hge Hk%lookup_lt_Some]%Hnodes. lia. }
  set (Q := λ i j, ∃ x y, item_at n kept i x ∧ item_at n kept j y ∧ sc (joins records relations) x y).
  destruct (try_fold_total (join_record nodes) (pairs_inv Q (n + size nodes)) (imap pair ks))
    with (s := replicate (n + size nodes) ([] : list (nat * f32))) as (e1 & -> & H1).
  { intros edges [r X] Hin Hinv. apply elem_of_lookup_imap in Hin as (r' & X' & [= <- <-] & Hr).
    apply list_lookup_fmap_Some in Hr as (record & -> & Hr). unfold join_record. cbn [fst snd].
    apply (try_fold_total _ (pairs_inv Q (n + size nodes))); [|done]. intros e k Hk He.
    destruct (nodes !! k) as [node|] eqn:Hnode; [|by eexists]. apply elem_of_set_iter in Hk.
    pose proof (lookup_lt_Some _ _ _ Hr) as Hrn.
    assert (joins records relations (Rec r) (Key k)) as Hj by (apply (joins_record _ _ r record k); eauto).
    apply push_pair_inv; [done|unfold n; lia|by eapply Hlt| | |apply one_fit].
    - exists (Rec r), (Key k). split_and!; [by split|by apply Hnodes|by left].
    - exists (Key k), (Rec r). split_and!; [by apply Hnodes|by split|by right]. }
  { split; [apply length_replicate|]. intros i nb j w [-> _]%lookup_replicate []%not_elem_of_nil. }
  cbn [mbind option_bind].
  destruct (try_fold_total (join_relation nodes) (pairs_inv Q (n + size nodes)) relations) with (s := e1) as (e2 & -> & He2); [|done|].
  { intros e rel Hrel He. unfold join_relation. destruct (nodes !! entity_key (from_entity rel)) as [a|] eqn:Ha; [|by eexists].
    destruct (nodes !! entity_key (to_entity rel)) as [b|] eqn:Hb; [|by eexists]. case_match; [by eexists|].
    assert (joins records relations (Key (entity_key (from_entity rel))) (Key (entity_key (to_entity rel)))) as Hj
      by (apply joins_relation; eauto).
    apply push_pair_inv; [done|by eapply Hlt|by eapply Hlt| | |apply weights_positive].
    - exists (Key (entity_key (from_entity rel))), (Key (entity_key (to_entity rel))). split_and!; [by apply Hnodes..|by left].
    - exists (Key (entity_key (to_entity rel))), (Key (entity_key (from_entity rel))). split_and!; [by apply Hnodes..|by right]. }
  cbn [mbind option_bind]. destruct He2 as [Hlen He2]. eexists _, kept. split; [done|]. split_and!; split; simpl.
  - intros i j (nb & w & Hnb & Hj). rewrite Hlen. by eapply He2.
  - intros i nb j w Hnb Hj. by eapply He2.
  - done.
  - intros k i Hi. rewrite length_fmap, Hlen. split; [by apply Hnodes in Hi as []|by eapply Hlt].
  - intros k i [_ Hk]%Hnodes. rewrite length_fmap. fold n. rewrite list_lookup_fmap, Hk. simpl.
    eexists. split; [done|]. apply binary_normalize_nonneg. lia.
  - rewrite length_fmap, Hlen. unfold n. lia.
  - done.
  - intros k i Hi. split; [by eapply Hkept|by apply Hnodes].
  - intros i j (nb & w & Hnb & Hj). by eapply He2.
Qed.
Lemma reached_joined (P : string → Prop) records relations kept g starts p :
  built records relations kept g → reached g starts p → (p < length records)%nat →
  (∀ i, i ∈ starts → ∃ k, P k ∧ item_at (length records) kept i (Key k)) →
  ∃ k, P k ∧ rtsc (joins records relations) (Key k) (Rec p).
Proof.
  intros [_ _ Hedges] (i & Hi & Hpath) Hp Hstarts. destruct (Hstarts i Hi) as (k & HP & Hk). exists k. split; [done|].
  assert (item_at (length records) kept p (Rec p)) as Hend by done.
  revert Hend. generalize (Rec p) as z. clear Hp. revert p Hpath. apply (rtc_ind_r (R := sc (adj_edge (rg_edges g)))
    (λ p, ∀ z, item_at (length records) kept p z → rtsc (joins records relations) (Key k) z)); [intros z Hz|intros j p _ Hij IH z Hz].
  - rewrite (item_at_inj _ _ _ _ _ Hz Hk). constructor.
  - assert (∃ x y, item_at (length records) kept j x ∧ item_at (length records) kept p y ∧ sc (joins records relations) x y)
      as (x & y & Hx & Hy & Hxy).
    { destruct Hij as [Hij|Hij]; apply Hedges in Hij as (x & y & Hx & Hy & Hxy); [by exists x, y|].
      exists y, x. split_and!; [done..|]. destruct Hxy; [by right|by left]. }
    rewrite (item_at_inj _ _ _ _ _ Hz Hy). eapply rtc_r; [by apply IH|done].
Qed.

(** C35: a search through the retrieval graph is sound.  Building the graph
    of any records and relations and ranking them for any query end without
    a panic; the ranking has at most [limit] records, no record twice, and
    each is connected to a term or an entity of the query by keys that the
    records carry and relations that are asserted, through keys on few
    enough records only. *)
Theorem retrieval_rank_sound records relations query limit :
  ∃ g out ps, build records relations = Some g ∧ rank query limit g = Some out
    ∧ mapM (λ p, gr_id <$> records !! p) ps = Some out ∧ NoDup ps ∧ (length ps ≤ limit)%nat
    ∧ ∀ p, p ∈ ps → ∃ k, query_key query k ∧ kept_key records k ∧ rtsc (joins records relations) (Key k) (Rec p).
Proof.
  destruct (build_spec records relations) as (g & kept & Hb & He & Hn & Hbuilt).
  destruct (rank_spec query limit g He Hn) as (out & ps & Hr & Hnd & Hlen & Hout & Hreach).
  exists g, out, ps. pose proof (bu_records _ _ _ _ Hbuilt) as Hrec.
  assert (∀ p, rg_records g !! p = gr_id <$> records !! p) as Hlook by (intros p; rewrite Hrec; apply list_lookup_fmap).
  split_and!; [done|done| |done|done|].
  - rewrite <-Hout. apply mapM_ext. intros p. by rewrite Hlook.
  - intros p Hp. pose proof Hp as [m Hm]%list_elem_of_lookup.
    destruct (Forall2_lookup_l _ _ _ _ _ (mapM_Some_1 _ _ _ Hout) Hm) as (id & _ & Hid). rewrite Hlook in Hid.
    assert (p < length records)%nat as Hlt by (apply lookup_lt_is_Some; destruct (records !! p); [by eexists|done]).
    destruct (reached_joined (λ k, query_key query k ∧ kept_key records k) _ _ _ _ _ _ Hbuilt (Hreach p Hp) Hlt)
      as (k & [] & ?); [|by exists k].
    intros i (k & Hq & Hk)%elem_of_seed_nodes. exists k. destruct (bu_nodes _ _ _ _ Hbuilt k i Hk). by split_and!.
Qed.
End theorems.

(** ** Stored keys come back *)

(** [split_keys] gives back what [join_keys] stored, sorted and without
    repetitions and empty keys, when no key has a line break. *)
Lemma split_join_keys ks :
  Forall (λ k, 10%N ∉ str_bytes k) ks →
  split_keys (join_keys ks) = dedup (sort_by str_cmp (filter (λ k, k ≠ "") ks)).
Proof.
  intros Hks. unfold split_keys, join_keys. set (xs := dedup _).
  assert (∀ k, k ∈ xs → (10%N ∉ str_bytes k) ∧ k ≠ "") as Hxs.
  { intros k Hk. apply sort_dedup_spec in Hk as [Hne Hk]%list_elem_of_filter. split; [|done].
    rewrite Forall_forall in Hks. by apply Hks. }
  clearbody xs. clear Hks.
  assert (∀ x, x ∈ xs → Forall (λ b, b ≠ 10%N) (str_bytes x)) as Hsep.
  { intros x Hx. apply Forall_forall. intros b Hb ->. by apply (proj1 (Hxs x Hx)). }
  destruct xs as [|x xs]; [done|].
  assert (str_of_bytes <$> bytes_split 10 (str_bytes (String.concat newline (x :: xs))) = x :: xs) as ->.
  { clear Hxs. revert x Hsep. induction xs as [|y xs IH]; intros x Hsep.
    - simpl. rewrite bytes_split_one by (apply Hsep; by left). csimpl. by rewrite str_of_bytes_bytes.
    - change (String.concat newline (x :: y :: xs)) with (x +:+ (newline +:+ String.concat newline (y :: xs))).
      rewrite !str_bytes_app. change (str_bytes newline) with [10%N]. cbn [app].
      rewrite bytes_split_sep by (apply Hsep; by left). csimpl. rewrite str_of_bytes_bytes. f_equal. apply IH.
      intros z Hz. apply Hsep. by right. }
  apply filter_keep_all. intros k Hk. by apply Hxs.
Qed.

(** A key with a line break comes back as two. *)
Lemma join_keys_line_break : split_keys (join_keys [("a" +:+ newline +:+ "b")]) = ["a"; "b"].
Proof. reflexivity. Qed.

(** ** An instance *)

#[local] Existing Instances ascii_unicode ascii_alnum ascii_upper key_order key_order_laws.

Definition same_stem : Stemmer := {| stem := id |}.
#[local] Existing Instance same_stem.

Definition demo_records : list (GraphRecord nat) :=
  [mkGraphRecord 10%nat (terms "Caroline adopted a puppy called Biscuit") ["SurrealDB"];
   mkGraphRecord 11%nat (terms "Biscuit chewed the sofa yesterday") [];
   mkGraphRecord 12%nat (terms "Melanie painted over ten lakes") [];
   mkGraphRecord 13%nat (terms "index rebuild blocks startup") ["HNSW index"]].

Definition demo_relations : list EntityRelationship := [mkEntityRelationship "HNSW index" "SurrealDB" DependsOn ""].

Lemma retrieval_rank_sound_witness :
  (build demo_records demo_relations ≫= rank "Is Caroline here?" 10) = Some [10; 11; 13]%nat
  ∧ ∃ g out ps, build demo_records demo_relations = Some g ∧ rank "Is Caroline here?" 10 g = Some out
    ∧ mapM (λ p, gr_id <$> demo_records !! p) ps = Some out ∧ NoDup ps ∧ (length ps ≤ 10)%nat
    ∧ ∀ p, p ∈ ps → ∃ k, query_key "Is Caroline here?" k ∧ kept_key demo_records k
        ∧ rtsc (joins demo_records demo_relations) (Key k) (Rec p).
Proof. split; [by vm_compute|apply (retrieval_rank_sound demo_records demo_relations "Is Caroline here?" 10)]. Defined.
