(* ===== verification/SearchResultsThms.v ===== *)
(** * Search results: theorems

    Message ids read back; completing hits never fails, repeats no record,
    keeps every hit and adds exactly the neighbours. *)

From stdpp Require Import gmap.
From S2P Require Import Prelude RustStd StrLemmas UuidText Collections F32 FloatOrder Types.
From S2P Require Import Petgraph EntityGraph HotContext Session Temporal.
From S2P Require Import ContextAssembly SearchResults.

Local Open Scope string_scope.

(** ** Message ids *)

Lemma starts_with_app p s : starts_with (p +:+ s) p = true.
Proof.
  unfold starts_with. apply bool_decide_eq_true. unfold str_len.
  by rewrite str_bytes_app, take_app_length.
Qed.

Lemma strip_prefix_app p s : strip_prefix p (p +:+ s) = Some (str_bytes s).
Proof.
  unfold strip_prefix. rewrite starts_with_app. unfold str_len.
  by rewrite str_bytes_app, drop_app_length.
Qed.

Lemma decimal_bytes n :
  str_bytes (Z_to_string (Z.of_N n)) = decimal_N n.
Proof.
  unfold Z_to_string. destruct (decimal_N_spec n) as (_ & Hds & _).
  assert (decimal_Z (Z.of_N n) = decimal_N n) as ->.
  { unfold decimal_Z. destruct (Z.ltb_spec (Z.of_N n) 0); [lia|]. f_equal. lia. }
  apply str_bytes_of_bytes. eapply Forall_impl; [exact Hds|].
  intros d Hd%is_digit_range. unfold byte_ok. lia.
Qed.

Lemma parse_u64_decimal n : (n < u64_mod)%N → parse_u64 (decimal_N n) = Some n.
Proof.
  intros Hn. destruct (decimal_N_spec n) as (Hne & Hds & Hval). unfold parse_u64.
  destruct (decimal_N n) as [|d ds]; [done|].
  apply Forall_cons in Hds as [Hd _]. apply is_digit_range in Hd.
  destruct (N.eqb_spec d 43); [lia|]. rewrite Hval. simpl. rewrite N2Z.id.
  by rewrite (proj2 (N.ltb_lt _ _) Hn).
Qed.

Lemma decimal_no_hash n : Forall (λ b, b ≠ 35%N) (decimal_N n).
Proof.
  destruct (decimal_N_spec n) as (_ & Hds & _). eapply Forall_impl; [exact Hds|].
  intros d Hd%is_digit_range. lia.
Qed.

(** The position of a message reads back from its content id, and from
    the id of any chunk of it ([#] and a suffix). *)
Theorem message_id_roundtrip seq chunk :
  (seq < u64_mod)%N →
  seq_of_content_id (content_id seq) = Some seq
  ∧ seq_of_content_id (content_id seq +:+ "#" +:+ chunk) = Some seq.
Proof.
  intros Hseq. unfold seq_of_content_id, content_id. split.
  - rewrite strip_prefix_app. simpl. rewrite decimal_bytes, bytes_split_one by apply decimal_no_hash.
    simpl. by apply parse_u64_decimal.
  - assert ((CONTENT_ID_PREFIX +:+ Z_to_string (Z.of_N seq)) +:+ "#" +:+ chunk
      = CONTENT_ID_PREFIX +:+ (Z_to_string (Z.of_N seq) +:+ "#" +:+ chunk)) as ->.
    { apply (inj str_bytes). rewrite !str_bytes_app. by rewrite <-app_assoc. }
    rewrite strip_prefix_app. cbn [mbind option_bind]. rewrite !str_bytes_app, decimal_bytes.
    change (str_bytes "#") with [35%N]. cbn [app].
    rewrite bytes_split_sep by apply decimal_no_hash. simpl. by apply parse_u64_decimal.
Qed.

(** ** Completion *)

Record completion_ok (st : completion) : Prop := {
  co_seen k : k ∈ st.1 ↔ k ∈ result_key <$> st.2;
  co_nodup : NoDup (result_key <$> st.2);
}.

Lemma push_new_ok k r st :
  result_key r = k → completion_ok st →
  completion_ok (push_new k r st) ∧ (∀ k', k' ∈ (push_new k r st).1 ↔ k' = k ∨ k' ∈ st.1).
Proof.
  intros Hk [Hseen Hnd]. unfold push_new. case_decide as Hin.
  { split; [done|]. intros k'. split; [tauto|]. by intros [->|?]. }
  split; simpl; [|intros k'; by rewrite elem_of_union, elem_of_singleton].
  split; simpl.
  - intros k'. rewrite fmap_app, elem_of_app, elem_of_union, elem_of_singleton, Hseen.
    simpl. rewrite list_elem_of_singleton, Hk. tauto.
  - rewrite fmap_app. apply NoDup_app. split_and!; [done| |simpl; apply NoDup_singleton].
    intros k' Hk' ->%list_elem_of_singleton. rewrite Hk in *. by apply Hin, Hseen.
Qed.

(** A result pushed under its own key is either there already, or new. *)
Lemma elem_push_new k r st x : x ∈ (push_new k r st).2 → x ∈ st.2 ∨ x = r.
Proof.
  unfold push_new. case_decide; simpl; [tauto|].
  rewrite elem_of_app, list_elem_of_singleton. tauto.
Qed.

Lemma completion_empty : completion_ok (∅, []).
Proof. split; simpl; [intros k; by rewrite elem_of_empty, elem_of_nil|apply NoDup_nil_2]. Qed.

(** [hit_at] finds a hit by its key. *)
Lemma hit_at_Some hits k h : hit_at hits k = Some h → h ∈ hits ∧ result_key h = k.
Proof.
  unfold hit_at. intros (i & (h' & Hh & Hk)%index_by_Some & Hi)%bind_Some.
  rewrite Hh in Hi. injection Hi as ->. split; [by eapply list_elem_of_lookup_2|done].
Qed.

Lemma hit_at_None hits k : hit_at hits k = None → k ∉ result_key <$> hits.
Proof.
  unfold hit_at, hit_index. intros Hn Hk. apply (index_by_is_Some result_key) in Hk as [i Hi].
  rewrite Hi in Hn. simpl in Hn. apply index_by_Some in Hi as (x & Hx & _). congruence.
Qed.

Lemma with_text_key text r : result_key (with_text text r) = result_key r.
Proof. done. Qed.

Lemma with_text_same r : with_text (text_content r) r = r.
Proof. by destruct r. Qed.

Section messages.
Context {E : Type} (load_messages : Uuid → N → N → result (list Message) E) (radius : N).
Context (results : list SemanticSearchResult).

(** Storage returns messages of the session asked for. *)
Hypothesis Hload : ∀ s a b turns t,
  load_messages s a b = Ok turns → t ∈ turns → msg_session_id t = s.
(** The search names a message by its position. *)
Hypothesis Hcanon : ∀ hit seq,
  hit ∈ results → seq_of hit = Some seq → sr_content_id hit = content_id seq.

(** Where an item of the completed results comes from. *)
Definition message_item (r : SemanticSearchResult) : Prop :=
  (∃ h text, h ∈ results ∧ r = with_text text h)
  ∨ ∃ hit t, hit ∈ results ∧ r = message_neighbour t hit
      ∧ result_key r ∉ result_key <$> results.

Definition turn_key (hit : SemanticSearchResult) (t : Message) : Uuid * string :=
  (sr_session_id hit, content_id (msg_seq t)).

Lemma complete_turn_ok hit t st :
  hit ∈ results → msg_session_id t = sr_session_id hit →
  completion_ok st → Forall message_item st.2 →
  let st' := complete_turn results hit st t in
  completion_ok st' ∧ Forall message_item st'.2
  ∧ ∀ k, k ∈ st'.1 ↔ k = turn_key hit t ∨ k ∈ st.1.
Proof.
  intros Hhit Hs Hok Hall. unfold complete_turn. fold (turn_key hit t).
  set (r := with_text (message_text t) _).
  assert (result_key r = turn_key hit t ∧ message_item r) as [Hk Hr].
  { unfold r. rewrite with_text_key. destruct (hit_at results (turn_key hit t)) as [h|] eqn:Hh; simpl.
    - apply hit_at_Some in Hh as [Hin Hk]. split; [done|]. left. by exists h, (message_text t).
    - assert (result_key (message_neighbour t hit) = turn_key hit t) as Hk
        by (unfold result_key, turn_key; simpl; by rewrite Hs).
      split; [done|]. right. exists hit, t. split_and!; [done|done|].
      rewrite with_text_key, Hk. by apply hit_at_None. }
  destruct (push_new_ok _ r st Hk Hok) as [H1 H2]. split_and!; [done| |done].
  apply Forall_forall. intros x [Hx| ->]%elem_push_new; [|done].
  rewrite Forall_forall in Hall. by apply Hall.
Qed.

Lemma complete_turns_ok hit ts st :
  hit ∈ results → (∀ t, t ∈ ts → msg_session_id t = sr_session_id hit) →
  completion_ok st → Forall message_item st.2 →
  let st' := foldl (complete_turn results hit) st ts in
  completion_ok st' ∧ Forall message_item st'.2
  ∧ ∀ k, k ∈ st'.1 ↔ k ∈ st.1 ∨ ∃ t, t ∈ ts ∧ k = turn_key hit t.
Proof.
  intros Hhit. revert st. induction ts as [|t ts IH]; intros st Hs Hok Hall; cbn [foldl].
  { split_and!; [done..|]. intros k. setoid_rewrite elem_of_nil. naive_solver. }
  destruct (complete_turn_ok hit t st) as (H1 & H2 & H3); [done|apply Hs; by left|done..|].
  destruct (IH (complete_turn results hit st t)) as (H4 & H5 & H6);
    [intros; apply Hs; by right|done..|].
  split_and!; [done..|]. intros k. rewrite H6, H3. setoid_rewrite elem_of_cons. naive_solver.
Qed.

(** The keys a hit stands for: its own and its window's. *)
Definition message_keys (hit : SemanticSearchResult) (k : Uuid * string) : Prop :=
  k = result_key hit
  ∨ ∃ seq t, seq_of hit = Some seq ∧ t ∈ load_window load_messages radius hit seq
             ∧ k = turn_key hit t.

Lemma push_hit_ok hit st :
  hit ∈ results → completion_ok st → Forall message_item st.2 →
  let st' := push_new (result_key hit) hit st in
  completion_ok st' ∧ Forall message_item st'.2 ∧ ∀ k, k ∈ st'.1 ↔ k = result_key hit ∨ k ∈ st.1.
Proof.
  intros Hhit Hok Hall. destruct (push_new_ok (result_key hit) hit st eq_refl Hok) as [H1 H2].
  split_and!; [done| |done]. apply Forall_forall. intros x [Hx| ->]%elem_push_new.
  - rewrite Forall_forall in Hall. by apply Hall.
  - left. exists hit, (text_content hit). by rewrite with_text_same.
Qed.

Lemma complete_message_ok hit st :
  hit ∈ results → completion_ok st → Forall message_item st.2 →
  let st' := complete_message load_messages radius results st hit in
  completion_ok st' ∧ Forall message_item st'.2
  ∧ ∀ k, k ∈ st'.1 ↔ k ∈ st.1 ∨ message_keys hit k.
Proof.
  intros Hhit Hok Hall. unfold complete_message, message_keys.
  destruct (push_hit_ok hit st Hhit Hok Hall) as (P1 & P2 & P3).
  destruct (seq_of hit) as [seq|] eqn:Hseq.
  2: { split_and!; [done..|]. intros k. rewrite P3. naive_solver. }
  set (turns := load_window load_messages radius hit seq).
  assert (∀ t, t ∈ turns → msg_session_id t = sr_session_id hit) as Hs.
  { intros t. unfold turns, load_window. case_match eqn:Hl; [by eapply Hload|].
    by intros ?%not_elem_of_nil. }
  destruct (existsb _ turns) eqn:Hown.
  - destruct (complete_turns_ok hit turns st) as (H1 & H2 & H3); [done..|].
    split_and!; [done..|]. intros k. rewrite H3. apply existsb_exists in Hown as (t & Ht & Heq).
    apply list_elem_of_In in Ht. apply N.eqb_eq in Heq.
    assert (turn_key hit t = result_key hit) as Hkey.
    { unfold turn_key, result_key. by rewrite Heq, (Hcanon hit seq). }
    split; [naive_solver|]. intros [?|[->|(seq' & t' & [= <-] & Ht' & ->)]];
      [by left|right; exists t; by rewrite Hkey|right; by exists t'].
  - destruct (complete_turns_ok hit turns _ Hhit Hs P1 P2) as (H1 & H2 & H3).
    split_and!; [done..|]. intros k. rewrite H3, P3. naive_solver.
Qed.

Lemma complete_messages_ok hits st :
  (∀ h, h ∈ hits → h ∈ results) → completion_ok st → Forall message_item st.2 →
  let st' := foldl (complete_message load_messages radius results) st hits in
  completion_ok st' ∧ Forall message_item st'.2
  ∧ ∀ k, k ∈ st'.1 ↔ k ∈ st.1 ∨ ∃ hit, hit ∈ hits ∧ message_keys hit k.
Proof.
  revert st. induction hits as [|hit hits IH]; intros st Hin Hok Hall; cbn [foldl].
  { split_and!; [done..|]. intros k. setoid_rewrite elem_of_nil. naive_solver. }
  destruct (complete_message_ok hit st) as (H1 & H2 & H3); [apply Hin; by left|done..|].
  destruct (IH (complete_message load_messages radius results st hit)) as (H4 & H5 & H6);
    [intros; apply Hin; by right|done..|].
  split_and!; [done..|]. intros k. rewrite H6, H3. setoid_rewrite elem_of_cons. naive_solver.
Qed.

(** Completing message hits (when there is one) repeats no record,
    returns every hit, with its own scores, and beside the hits exactly the
    turns storage has in the window around a message hit, scored as
    neighbours; a stream that cannot be read loses no hit. *)
Theorem message_results_completed :
  (∃ r, r ∈ results ∧ is_Some (seq_of r)) →
  let out := complete_message_results load_messages radius results in
  NoDup (result_key <$> out)
  ∧ (∀ k, k ∈ result_key <$> out ↔ ∃ hit, hit ∈ results ∧ message_keys hit k)
  ∧ Forall message_item out.
Proof.
  intros (r & Hr & Hseq). unfold complete_message_results.
  destruct (existsb _ results) eqn:Hex.
  - destruct (complete_messages_ok results (∅, [])) as ([Hseen Hnd] & Hall & Hk);
      [done|apply completion_empty|constructor|].
    split_and!; [done| |done]. intros k. rewrite <-Hseen, Hk. simpl. rewrite elem_of_empty.
    naive_solver.
  - apply not_true_iff_false in Hex. destruct Hex. apply existsb_exists. exists r.
    split; [by apply list_elem_of_In|by apply bool_decide_eq_true].
Qed.
End messages.

(** ** Record hits *)

(** The parts that follow a failure-free [try_fold]. *)
Lemma try_fold_spec {X S} (f : S → X → option S) (Q : list X → S → Prop) xs s :
  Q [] s →
  (∀ done x s, x ∈ xs → Q done s → ∃ s', f s x = Some s' ∧ Q (done ++ [x])%list s') →
  ∃ s', try_fold f s xs = Some s' ∧ Q xs s'.
Proof.
  intros H0 Hstep.
  assert (∀ ys done s, (∀ x, x ∈ ys → x ∈ xs) → Q done s →
            ∃ s', try_fold f s ys = Some s' ∧ Q (done ++ ys)%list s') as Hgen.
  { induction ys as [|y ys IH]; intros done s' Hys HQ; simpl.
    - exists s'. by rewrite app_nil_r.
    - destruct (Hstep done y s') as (s2 & -> & HQ2); [apply Hys; by left|done|]. simpl.
      destruct (IH (done ++ [y])%list s2) as (s3 & Hs3 & HQ3); [intros; apply Hys; by right|done|].
      exists s3. by rewrite <-app_assoc in HQ3. }
  by apply (Hgen xs []).
Qed.

Lemma record_window_elem radius us pos u :
  (pos < length us)%nat →
  u ∈ window radius us pos ↔ ∃ i, us !! i = Some u ∧ (pos - radius ≤ i ≤ pos + radius)%nat.
Proof.
  intros Hpos. unfold window. set (last := Nat.min (pos + radius) (length us - 1)).
  rewrite list_elem_of_lookup. split.
  - intros (i & Hi). apply lookup_take_Some in Hi as [Hi Hlt]. rewrite lookup_drop in Hi.
    exists (pos - radius + i). split; [done|]. lia.
  - intros (i & Hi & Hlo & Hhi). pose proof (lookup_lt_Some _ _ _ Hi).
    exists (i - (pos - radius)). apply lookup_take_Some. rewrite lookup_drop.
    replace (pos - radius + (i - (pos - radius))) with i by lia. split; [done|]. lia.
Qed.

Section records.
Context `{U : Unicode} `{A : Alphanumeric} `{I : UuidText} `{P : Petgraph}.
Context (sessions : gmap N ActiveSession) (radius : nat).

Hypothesis Hids : ∀ sid s, sessions !! sid = Some s → NoDup (cu_id <$> incremental_updates s).

Lemma ended_total sid s id : sessions !! sid = Some s → is_Some (ended_validity s id).
Proof.
  intros Hs. unfold ended_validity, validity_of.
  destruct (validity_computes (entity_graph s) _ (Hids sid s Hs)) as (vs & -> & _).
  by eexists.
Qed.

(** Weighing changes the trust of hits, not which they are. *)
Lemma weigh_keys hits :
  ∃ hits', weigh_by_validity sessions hits = Some hits'
    ∧ result_key <$> hits' ≡ₚ result_key <$> hits.
Proof.
  unfold weigh_by_validity.
  destruct (try_fold_spec (weigh_hit sessions)
    (λ seen (st : bool * list SemanticSearchResult), result_key <$> st.2 = result_key <$> seen)
    hits (false, [])) as ([changed out] & -> & Hout); [done| |].
  - intros seen x st _ Hst.
    assert (∀ b r, result_key r = result_key x →
      result_key <$> (b : bool, (st.2 ++ [r])%list).2 = result_key <$> (seen ++ [x])%list) as Hpush.
    { intros b r Hr. simpl. rewrite !fmap_app, Hst. by csimpl; rewrite Hr. }
    unfold weigh_hit. destruct (sessions !! sr_session_id x) as [s|] eqn:Hs;
      [|eexists; split; [reflexivity|by apply Hpush]].
    destruct (Uuid_parse (sr_content_id x)) as [id|]; [|eexists; split; [reflexivity|by apply Hpush]].
    destruct (find_first _ _) as [u|]; [|eexists; split; [reflexivity|by apply Hpush]].
    destruct (ended_total _ s id Hs) as [v ->]. simpl.
    eexists. split; [reflexivity|]. by apply Hpush.
  - simpl in *. eexists. split; [reflexivity|].
    destruct changed; [rewrite sort_by_perm|]; by rewrite Hout.
Qed.

(** The keys a record hit stands for. *)
Definition record_keys (hit : SemanticSearchResult) (k : Uuid * string) : Prop :=
  k = result_key hit
  ∨ ∃ s pos u, locate sessions hit = Some (s, pos)
      ∧ u ∈ window radius (incremental_updates s) pos
      ∧ k = (sr_session_id hit, Uuid_to_string (cu_id u)).

(** The search names a record by the text of its id. *)
Definition canonical_id (hit : SemanticSearchResult) : Prop :=
  ∀ id, Uuid_parse (sr_content_id hit) = Some id → sr_content_id hit = Uuid_to_string id.

Lemma locate_spec hit s pos :
  locate sessions hit = Some (s, pos) →
  sessions !! sr_session_id hit = Some s
  ∧ ∃ u, incremental_updates s !! pos = Some u
         ∧ Uuid_parse (sr_content_id hit) = Some (cu_id u).
Proof.
  unfold locate. intros (s' & Hs & (id & Hid & (p & Hp & [= -> ->])%bind_Some)%bind_Some)%bind_Some.
  split; [done|]. apply index_by_Some in Hp as (u & Hu & Hk). exists u. by rewrite Hk.
Qed.

Lemma extract_quiet u : is_Some (extract_text_from_update false u).
Proof. by eexists. Qed.

Lemma complete_update_ok hits s hit u st :
  sessions !! sr_session_id hit = Some s → completion_ok st →
  ∃ st', complete_update false hits s hit st u = Some st' ∧ completion_ok st'
    ∧ ∀ k, k ∈ st'.1 ↔ k = (sr_session_id hit, Uuid_to_string (cu_id u)) ∨ k ∈ st.1.
Proof.
  intros Hs Hok. unfold complete_update. set (key := (sr_session_id hit, Uuid_to_string (cu_id u))).
  case_decide as Hin.
  { exists st. split_and!; [done|done|]. intros k. split; [tauto|]. by intros [->|?]. }
  destruct (extract_quiet u) as [text Htext].
  assert (∀ r, result_key r = key → ∃ st', Some (push_new key r st) = Some st'
    ∧ completion_ok st' ∧ ∀ k, k ∈ st'.1 ↔ k = key ∨ k ∈ st.1) as Hpush.
  { intros r Hr. eexists. split; [reflexivity|]. by apply push_new_ok. }
  destruct (hit_at hits key) as [h|] eqn:Hh.
  - apply hit_at_Some in Hh as [_ Hk]. unfold with_full_text. rewrite Htext. simpl.
    apply Hpush. by case_match.
  - unfold neighbour. rewrite Htext. simpl. destruct (ended_total _ s (cu_id u) Hs) as [v ->].
    simpl. by apply Hpush.
Qed.

Lemma complete_hit_ok hits hit st :
  canonical_id hit → completion_ok st →
  ∃ st', complete_hit false sessions radius hits st hit = Some st' ∧ completion_ok st'
    ∧ ∀ k, k ∈ st'.1 ↔ k ∈ st.1 ∨ record_keys hit k.
Proof.
  intros Hcanon Hok. unfold complete_hit, record_keys.
  destruct (locate sessions hit) as [[s pos]|] eqn:Hloc.
  2: { destruct (push_new_ok (result_key hit) hit st eq_refl Hok) as [H1 H2].
       eexists. split_and!; [reflexivity|done|]. intros k. rewrite H2. naive_solver. }
  destruct (locate_spec _ _ _ Hloc) as (Hs & u0 & Hu0 & Hparse).
  destruct (try_fold_spec (complete_update false hits s hit)
    (λ seen st', completion_ok st' ∧ ∀ k, k ∈ st'.1 ↔ k ∈ st.1 ∨
       ∃ u, u ∈ seen ∧ k = (sr_session_id hit, Uuid_to_string (cu_id u)))
    (window radius (incremental_updates s) pos) st) as (st' & -> & Hok' & Hk').
  - split; [done|]. intros k. setoid_rewrite elem_of_nil. naive_solver.
  - intros seen u st1 _ [Hok1 Hk1].
    destruct (complete_update_ok hits s hit u st1 Hs Hok1) as (st2 & -> & Hok2 & Hk2).
    eexists. split_and!; [reflexivity|done|]. intros k. rewrite Hk2, Hk1.
    setoid_rewrite elem_of_app. setoid_rewrite list_elem_of_singleton. naive_solver.
  - eexists. split_and!; [reflexivity|done|]. intros k. rewrite Hk'.
    assert (result_key hit = (sr_session_id hit, Uuid_to_string (cu_id u0))) as Hkey.
    { unfold result_key. f_equal. by apply Hcanon. }
    assert (u0 ∈ window radius (incremental_updates s) pos) as Hin.
    { apply record_window_elem; [by eapply lookup_lt_Some|]. exists pos. split; [done|lia]. }
    split; [naive_solver|]. intros [?|[->|(s' & p' & u & [= <- <-] & Hu & ->)]];
      [by left|right; by exists u0|right; by exists u].
Qed.

Lemma record_keys_key hit hit' k :
  result_key hit = result_key hit' → record_keys hit k ↔ record_keys hit' k.
Proof.
  intros Hk. unfold record_keys, locate. injection Hk as Hs Hc. unfold result_key.
  by rewrite Hs, Hc.
Qed.

(** Completing record hits never fails (with the debug log off),
    repeats no record, returns every hit, and beside the hits exactly the
    records within [radius] positions of a located hit in its session. *)
Theorem record_results_completed hits :
  Forall canonical_id hits →
  ∃ out, complete_results false sessions radius hits = Some out
    ∧ NoDup (result_key <$> out)
    ∧ ∀ k, k ∈ result_key <$> out ↔ ∃ hit, hit ∈ hits ∧ record_keys hit k.
Proof.
  intros Hcanon. unfold complete_results.
  destruct (weigh_keys hits) as (hits' & -> & Hkeys). simpl.
  assert (∀ h', h' ∈ hits' → ∃ h, result_key h' = result_key h ∧ h ∈ hits) as Hfrom.
  { intros h' Hh'. apply list_elem_of_fmap. rewrite <-Hkeys. by apply list_elem_of_fmap_2. }
  assert (∀ h, h ∈ hits → ∃ h', result_key h = result_key h' ∧ h' ∈ hits') as Hto.
  { intros h Hh. apply list_elem_of_fmap. rewrite Hkeys. by apply list_elem_of_fmap_2. }
  destruct (try_fold_spec (complete_hit false sessions radius hits')
    (λ seen st, completion_ok st ∧ ∀ k, k ∈ st.1 ↔ ∃ hit, hit ∈ seen ∧ record_keys hit k)
    hits' (∅, [])) as (st & -> & [Hseen Hnd] & Hk).
  - split; [apply completion_empty|]. intros k. simpl. rewrite elem_of_empty.
    setoid_rewrite elem_of_nil. naive_solver.
  - intros seen h' st Hh' [Hok Hk].
    assert (canonical_id h') as Hc.
    { destruct (Hfrom h' Hh') as (h & [= _ Heq] & Hh). rewrite Forall_forall in Hcanon.
      unfold canonical_id. rewrite Heq. by apply Hcanon. }
    destruct (complete_hit_ok hits' h' st Hc Hok) as (st' & -> & Hok' & Hk').
    eexists. split_and!; [reflexivity|done|]. intros k. rewrite Hk', Hk.
    setoid_rewrite elem_of_app. setoid_rewrite list_elem_of_singleton. naive_solver.
  - simpl. eexists. split_and!; [reflexivity|done|]. intros k. rewrite <-Hseen, Hk. split.
    + intros (h' & Hh' & Hkk). destruct (Hfrom h' Hh') as (h & Heq & Hh).
      exists h. split; [done|]. by apply (record_keys_key h' h).
    + intros (h & Hh & Hkk). destruct (Hto h Hh) as (h' & Heq & Hh').
      exists h'. split; [done|]. by apply (record_keys_key h h').
Qed.
End records.

(** Reading the text of an update fails exactly when the debug log is on
    and byte 50 of its title or description is inside a character. *)
Theorem text_extraction_needs_boundary debug u :
  extract_text_from_update debug u = None
  ↔ debug = true ∧ (is_char_boundary (uc_title (cu_content u))
                      (Nat.min (str_len (uc_title (cu_content u))) 50) = false
                    ∨ is_char_boundary (uc_description (cu_content u))
                        (Nat.min (str_len (uc_description (cu_content u))) 50) = false).
Proof.
  unfold extract_text_from_update, debug_slice_ok.
  destruct debug; simpl; [|split; [done|by intros [? _]]].
  destruct (is_char_boundary (uc_title _) _), (is_char_boundary (uc_description _) _); simpl;
    split; intros; intuition congruence.
Qed.

(** ** Instances *)

#[local] Existing Instances ascii_unicode ascii_alnum list_graph hex_uuid.

Lemma message_id_roundtrip_witness :
  seq_of_content_id (content_id 7) = Some 7%N ∧ seq_of_content_id "message:7#2" = Some 7%N.
Proof. exact (message_id_roundtrip 7 "2" eq_refl). Defined.

Definition demo_message (seq : N) : Message :=
  mkMessage 1 seq "t" RoleUser None None 0 "text" [] [].
Definition demo_load (s : Uuid) (a b : N) : result (list Message) unit :=
  Ok (filter (λ m, msg_session_id m = s ∧ a <= msg_seq m < b)%N
        (demo_message <$> [0; 1; 2; 3; 4]%N)).
Definition demo_hit (id : string) (t : ContentType) : SemanticSearchResult :=
  mkSearchResult id 1 t "chunk" f32_half f32_half 0 f32_half None None [] None None None.

Lemma message_results_completed_witness :
  NoDup (result_key <$> complete_message_results demo_load 1
           [demo_hit "message:2" MessageType; demo_hit "x" DecisionPoint;
            demo_hit "message:3" MessageType])
  ∧ sr_content_id <$> complete_message_results demo_load 1
      [demo_hit "message:2" MessageType; demo_hit "x" DecisionPoint;
       demo_hit "message:3" MessageType]
    = ["message:1"; "message:2"; "message:3"; "x"; "message:4"].
Proof.
  split; [|vm_compute; reflexivity].
  refine (proj1 (message_results_completed demo_load 1 _ _ _ _)).
  - intros s a b turns t Hl Ht. unfold demo_load in Hl. injection Hl as <-.
    apply list_elem_of_filter in Ht. exact (proj1 (proj1 Ht)).
  - intros hit seq Hhit Hseq.
    repeat (apply elem_of_cons in Hhit as [->|Hhit];
      [vm_compute in Hseq; first [discriminate Hseq|injection Hseq as <-; vm_compute; reflexivity]|]).
    by apply not_elem_of_nil in Hhit.
  - exists (demo_hit "message:2" MessageType). split; [left|vm_compute; eexists; reflexivity].
Defined.

Definition demo_sessions : gmap N ActiveSession :=
  {[1%N := with_updates demo_records
             (ActiveSession_new (mkEnv Z.of_nat N.of_nat) 1 None None)]}.

Lemma demo_sessions_ids sid s :
  demo_sessions !! sid = Some s → NoDup (cu_id <$> incremental_updates s).
Proof. unfold demo_sessions. intros [_ <-]%lookup_singleton_Some. apply demo_ids. Qed.

Lemma record_results_completed_witness :
  ∃ out, complete_results false demo_sessions 1 [demo_hit (Uuid_to_string 1%N) DecisionPoint]
         = Some out
    ∧ NoDup (result_key <$> out)
    ∧ sr_content_id <$> out = [Uuid_to_string 3%N; Uuid_to_string 1%N; Uuid_to_string 4%N].
Proof.
  destruct (record_results_completed demo_sessions 1 demo_sessions_ids
    [demo_hit (Uuid_to_string 1%N) DecisionPoint]) as (out & Hout & Hnd & _).
  - constructor; [|constructor]. intros id Hid. vm_compute in Hid. injection Hid as <-.
    vm_compute. reflexivity.
  - exists out. split; [exact Hout|]. split; [exact Hnd|].
    vm_compute in Hout. injection Hout as <-. reflexivity.
Defined.

(** With the debug log on, a title whose 25th character straddles byte 50. *)
Example debug_log_panics :
  extract_text_from_update true
    (fact 1 (str_of_bytes (97%N :: concat (replicate 30 [195; 169]%N))) [] None) = None.
Proof. vm_compute. reflexivity. Qed.
