(* ===== verification/GraphCache.v ===== *)
(** * Caches keyed by the identity of [Arc]s

    Two caches of the program compute a value from shared immutable data and
    keep it for as long as the data is the same allocation:
    [WorkspaceGraphCache::merged] ([daemon/daemon/assembly_scope.rs], the
    merged graph of a workspace) and [ValidityCache::of]
    ([memory/memory_system/neighbours.rs], the validity of a session's
    records).  Both compare addresses, and rely on the cache entry keeping
    its sources alive: an address in use is not given out again, and
    [Arc::make_mut] copies a shared allocation instead of changing it.

    The model has the heap with its addresses, the handles that own an
    allocation, the cache, and calls in flight, whose steps interleave. *)

From stdpp Require Import gmap.
From S2P Require Import Prelude Collections.

Section cache.
(** [K]: keys of the cache; [T]: tags of the sources (session ids); [V]:
    source data; [W]: the value. *)
Context {K T V W : Type} `{Countable K} `{EqDecision T}.
Context (tag_order : T → T → comparison).
(** [built vs w]: computing from the sources [vs] may give [w] (it may read
    the clock). *)
Context (built : list (T * V) → W → Prop).

Abbreviation addr := nat (only parsing).

(** [CachedMerge], [CachedValidity]. *)
Record entry := mkEntry {
  sources : list (T * addr);
  value : W;
}.

(** Each pair of tag and address equal, and as many. *)
Definition same_sources (a b : list (T * addr)) : bool :=
  Nat.eqb (length a) (length b)
  && forallb (λ p, bool_decide (p.1.1 = p.2.1) && bool_decide (p.1.2 = p.2.2)) (zip a b).

Definition lookup_entry (cache : gmap K entry) (k : K) (srcs : list (T * addr)) : option W :=
  hit ← cache !! k;
  if same_sources (sources hit) srcs then Some (value hit) else None.

(** [sources.sort_unstable_by_key(|(id, _)| *id)]. *)
Definition sort_sources {X} (srcs : list (T * X)) : list (T * X) :=
  sort_by (λ p q, tag_order p.1 q.1) srcs.

(** A call: collecting the [Arc]s of its sources one by one, past a miss, or
    done.  The data each source had when it was collected is recorded beside
    its address, for the statement of the theorem only. *)
Inductive call :=
  | Collecting (k : K) (srcs : list (T * (addr * V)))
  | Missed (k : K) (srcs : list (T * (addr * V)))
  | Returned (srcs : list (T * (addr * V))) (w : W).

Definition addresses (srcs : list (T * (addr * V))) : list (T * addr) :=
  (λ p, (p.1, p.2.1)) <$> srcs.
Definition contents (srcs : list (T * (addr * V))) : list (T * V) :=
  (λ p, (p.1, p.2.2)) <$> srcs.

(** The [Arc]s a call holds: moved into the cache or dropped when it returns. *)
Definition held_by_call (c : call) : list (T * (addr * V)) :=
  match c with Collecting _ srcs | Missed _ srcs => srcs | Returned _ _ => [] end.

Record world := mkWorld {
  heap : gmap addr V;
  handles : gmap nat addr;
  cache : gmap K entry;
  calls : gmap nat call;
}.

Definition on_heap (f : gmap addr V → gmap addr V) (w : world) : world :=
  mkWorld (f (heap w)) (handles w) (cache w) (calls w).
Definition on_handles (f : gmap nat addr → gmap nat addr) (w : world) : world :=
  mkWorld (heap w) (f (handles w)) (cache w) (calls w).
Definition on_cache (f : gmap K entry → gmap K entry) (w : world) : world :=
  mkWorld (heap w) (handles w) (f (cache w)) (calls w).
Definition with_call (i : nat) (c : call) (w : world) : world :=
  mkWorld (heap w) (handles w) (cache w) (<[i := c]> (calls w)).

(** Who else than a handle keeps [a] alive. *)
Definition held_by_cache (w : world) (a : addr) : Prop :=
  ∃ k e, cache w !! k = Some e ∧ a ∈ (sources e).*2.
Definition held_by_calls (w : world) (a : addr) : Prop :=
  ∃ i c, calls w !! i = Some c ∧ a ∈ (addresses (held_by_call c)).*2.
Definition referenced (w : world) (a : addr) : Prop :=
  (∃ h, handles w !! h = Some a) ∨ held_by_cache w a ∨ held_by_calls w a.
(** Reference count one: [h] alone. *)
Definition unique_holder (w : world) (h : nat) (a : addr) : Prop :=
  (∀ h', handles w !! h' = Some a → h' = h) ∧ ¬ held_by_cache w a ∧ ¬ held_by_calls w a.

Inductive step : world → world → Prop :=
(** [Arc::new], [Arc::clone], [drop]. *)
| step_new w h a v :
    heap w !! a = None → step w (on_handles <[h := a]> (on_heap <[a := v]> w))
| step_clone w h h' a :
    handles w !! h = Some a → step w (on_handles <[h' := a]> w)
| step_drop w h : step w (on_handles (delete h) w)
(** An allocation nobody holds is freed; its address may be used again. *)
| step_free w a : ¬ referenced w a → step w (on_heap (delete a) w)
(** [Arc::make_mut] and a change of the data. *)
| step_mutate w h a v f :
    handles w !! h = Some a → heap w !! a = Some v → unique_holder w h a →
    step w (on_heap <[a := f v]> w)
| step_copy w h a v a' f :
    handles w !! h = Some a → heap w !! a = Some v → ¬ unique_holder w h a →
    heap w !! a' = None →
    step w (on_handles <[h := a']> (on_heap <[a' := f v]> w))
(** A call for the key [k]. *)
| step_begin w i k : calls w !! i = None → step w (with_call i (Collecting k []) w)
| step_collect w i k srcs t h a v :
    calls w !! i = Some (Collecting k srcs) → handles w !! h = Some a → heap w !! a = Some v →
    step w (with_call i (Collecting k (srcs ++ [(t, (a, v))])) w)
| step_hit w i k srcs x :
    calls w !! i = Some (Collecting k srcs) →
    lookup_entry (cache w) k (addresses (sort_sources srcs)) = Some x →
    step w (with_call i (Returned (sort_sources srcs) x) w)
| step_miss w i k srcs :
    calls w !! i = Some (Collecting k srcs) →
    lookup_entry (cache w) k (addresses (sort_sources srcs)) = None →
    step w (with_call i (Missed k (sort_sources srcs)) w)
(** The value is computed from what the addresses hold now, and stored. *)
| step_insert w i k srcs vs x :
    calls w !! i = Some (Missed k srcs) →
    mapM (λ p, v ← heap w !! p.2; Some (p.1, v)) (addresses srcs) = Some vs →
    built vs x →
    step w (with_call i (Returned srcs x)
              (on_cache <[k := mkEntry (addresses srcs) x]> w))
(** [ValidityCache::remove]. *)
| step_remove w k : step w (on_cache (delete k) w).

Definition initial : world := mkWorld ∅ ∅ ∅ ∅.

(** ** The invariant *)

(** What the addresses of a list of sources hold. *)
Definition resolves (hp : gmap addr V) (srcs : list (T * addr)) (vs : list (T * V)) : Prop :=
  Forall2 (λ p q, p.1 = q.1 ∧ hp !! p.2 = Some q.2) srcs vs.

(** The sources a call holds still have the data it saw. *)
Definition collected (hp : gmap addr V) (srcs : list (T * (addr * V))) : Prop :=
  Forall (λ p, hp !! p.2.1 = Some p.2.2) srcs.

Record cache_inv (w : world) : Prop := {
  inv_handles h a : handles w !! h = Some a → is_Some (heap w !! a);
  inv_cache k e : cache w !! k = Some e →
    ∃ vs, resolves (heap w) (sources e) vs ∧ built vs (value e);
  inv_calls i c : calls w !! i = Some c → collected (heap w) (held_by_call c);
  inv_returned i srcs x : calls w !! i = Some (Returned srcs x) → built (contents srcs) x;
}.

Lemma resolves_unique hp srcs vs vs' : resolves hp srcs vs → resolves hp srcs vs' → vs = vs'.
Proof.
  intros Hv. revert vs'. induction Hv as [|p q ps qs [Ht Hq] _ IH]; intros vs' Hv'.
  - by inversion Hv'.
  - inversion Hv' as [|? q' ? qs' [Ht' Hq'] Hqs]; subst. f_equal; [|by apply IH].
    destruct q, q'; simpl in *; congruence.
Qed.

(** The addresses a list of sources names keep their data. *)
Lemma resolves_frame hp hp' srcs vs :
  (∀ a, a ∈ srcs.*2 → hp' !! a = hp !! a) → resolves hp srcs vs → resolves hp' srcs vs.
Proof.
  intros Hsame Hv. induction Hv as [|p q ps qs [Ht Hq] _ IH]; [constructor|].
  constructor.
  - split; [done|]. rewrite Hsame; [done|]. by left.
  - apply IH. intros a Ha. apply Hsame. by right.
Qed.

Lemma resolves_alive hp srcs vs a : resolves hp srcs vs → a ∈ srcs.*2 → is_Some (hp !! a).
Proof.
  induction 1 as [|p q ps qs [_ Hq] _ IH]; csimpl; [by intros ?%not_elem_of_nil|].
  intros [->|Ha]%elem_of_cons; [by rewrite Hq|by apply IH].
Qed.

Lemma collected_resolves hp srcs :
  collected hp srcs ↔ resolves hp (addresses srcs) (contents srcs).
Proof.
  unfold collected, resolves, addresses, contents. rewrite Forall2_fmap. split.
  - induction 1; by constructor.
  - induction srcs as [|p srcs IH]; [constructor|]. inversion 1; subst.
    constructor; [naive_solver|by apply IH].
Qed.

Lemma resolves_mapM hp srcs vs :
  mapM (λ p, v ← hp !! p.2; Some (p.1, v)) srcs = Some vs → resolves hp srcs vs.
Proof.
  rewrite mapM_Some. induction 1 as [|p q ps qs Hq _ IH]; constructor; [|done].
  apply bind_Some in Hq as (v & Hv & [= <-]). done.
Qed.

Lemma held_alive w a : cache_inv w → referenced w a → is_Some (heap w !! a).
Proof.
  intros Hinv [[h Hh]|[(k & e & He & Ha)|(i & c & Hc & Ha)]].
  - by eapply inv_handles.
  - destruct (inv_cache _ Hinv _ _ He) as (vs & Hv & _). by eapply resolves_alive.
  - eapply resolves_alive; [|done]. apply collected_resolves. by eapply inv_calls.
Qed.

Lemma same_sources_eq a b : same_sources a b = true → a = b.
Proof.
  unfold same_sources. revert b. induction a as [|[t x] a IH]; intros [|[t' x'] b]; simpl; try done.
  rewrite !andb_true_iff, !bool_decide_eq_true. simpl. intros (Hlen & (-> & ->) & Hb).
  f_equal. apply IH. by rewrite Hlen, Hb.
Qed.

(** A change of the heap that leaves what cache and calls hold. *)
Lemma heap_frame w f :
  (∀ a, held_by_cache w a ∨ held_by_calls w a → f (heap w) !! a = heap w !! a) →
  (∀ h a, handles w !! h = Some a → is_Some (f (heap w) !! a)) →
  cache_inv w → cache_inv (on_heap f w).
Proof.
  intros Hsame Hh [H1 H2 H3 H4]. split; simpl; [done| | |done].
  - intros k e He. destruct (H2 k e He) as (vs & Hv & Hb). exists vs. split; [|done].
    eapply resolves_frame; [|done]. intros a Ha. apply Hsame. left. by exists k, e.
  - intros i c Hc. apply collected_resolves. eapply resolves_frame.
    + intros a Ha. apply Hsame. right. by exists i, c.
    + apply collected_resolves. by eapply H3.
Qed.

(** A new allocation takes an address nobody holds. *)
Lemma alloc_inv w a v :
  heap w !! a = None → cache_inv w → cache_inv (on_heap <[a := v]> w).
Proof.
  intros Ha Hinv. apply heap_frame; [| |done].
  - intros b Hb. rewrite lookup_insert_ne; [done|]. intros <-.
    destruct (held_alive w a Hinv); [by right|congruence].
  - intros h b Hb. destruct (decide (a = b)) as [->|]; [by rewrite lookup_insert_eq|].
    rewrite lookup_insert_ne by done. by eapply inv_handles.
Qed.

Lemma handle_inv w h a :
  is_Some (heap w !! a) → cache_inv w → cache_inv (on_handles <[h := a]> w).
Proof.
  intros Ha [H1 H2 H3 H4]. split; simpl; [|done..].
  intros h' b. rewrite lookup_insert_Some. intros [[_ <-]|[_ Hb]]; [done|by eapply H1].
Qed.

Lemma call_inv w i c :
  collected (heap w) (held_by_call c) →
  (∀ srcs x, c = Returned srcs x → built (contents srcs) x) →
  cache_inv w → cache_inv (with_call i c w).
Proof.
  intros Hr Hb [H1 H2 H3 H4]. split; simpl; [done|done| |].
  - intros j d. rewrite lookup_insert_Some. intros [[_ <-]|[_ Hd]]; [done|by eapply H3].
  - intros j srcs x. rewrite lookup_insert_Some. intros [[_ Heq]|[_ Hd]]; [by apply Hb|by eapply H4].
Qed.

(** Every step keeps the invariant. *)
Lemma collected_sorted hp srcs : collected hp srcs → collected hp (sort_sources srcs).
Proof. unfold collected, sort_sources. by rewrite sort_by_perm. Qed.

Lemma free_inv w a : ¬ referenced w a → cache_inv w → cache_inv (on_heap (delete a) w).
Proof.
  intros Hfree Hinv. apply heap_frame; [| |done].
  - intros b Hb. rewrite lookup_delete_ne; [done|]. intros <-. apply Hfree. by right.
  - intros h b Hb. rewrite lookup_delete_ne; [by eapply inv_handles|].
    intros <-. apply Hfree. left. by exists h.
Qed.

Lemma mutate_inv w h a v :
  unique_holder w h a → is_Some (heap w !! a) → cache_inv w → cache_inv (on_heap <[a := v]> w).
Proof.
  intros (_ & Hc & Hl) Ha Hinv. apply heap_frame; [| |done].
  - intros b Hb. rewrite lookup_insert_ne; [done|]. intros <-. by destruct Hb.
  - intros h' b Hb. destruct (decide (a = b)) as [->|]; [by rewrite lookup_insert_eq|].
    rewrite lookup_insert_ne by done. by eapply inv_handles.
Qed.

(** A hit: the entry's sources are the call's, so the data are too. *)
Lemma hit_inv w i k srcs x :
  calls w !! i = Some (Collecting k srcs) →
  lookup_entry (cache w) k (addresses (sort_sources srcs)) = Some x →
  cache_inv w → built (contents (sort_sources srcs)) x.
Proof.
  intros Hc Hhit Hinv. unfold lookup_entry in Hhit.
  apply bind_Some in Hhit as (e & He & Hs). destruct (same_sources _ _) eqn:Hsame; [|done].
  injection Hs as <-. apply same_sources_eq in Hsame.
  destruct (inv_cache _ Hinv _ _ He) as (vs & Hv & Hb). rewrite Hsame in Hv.
  pose proof (collected_sorted _ _ (inv_calls _ Hinv _ _ Hc)) as Hcol.
  apply collected_resolves in Hcol. simpl in Hcol. by rewrite (resolves_unique _ _ _ _ Hcol Hv).
Qed.

Lemma insert_inv w i k srcs vs x :
  calls w !! i = Some (Missed k srcs) →
  mapM (λ p, v ← heap w !! p.2; Some (p.1, v)) (addresses srcs) = Some vs → built vs x →
  cache_inv w → cache_inv (with_call i (Returned srcs x)
                             (on_cache <[k := mkEntry (addresses srcs) x]> w)).
Proof.
  intros Hc Hm Hb Hinv. apply resolves_mapM in Hm.
  pose proof (inv_calls _ Hinv _ _ Hc) as Hcol. apply collected_resolves in Hcol.
  apply call_inv; [constructor| |].
  - intros ? ? [= <- <-]. simpl in Hcol. by rewrite (resolves_unique _ _ _ _ Hcol Hm).
  - destruct Hinv as [H1 H2 H3 H4]. split; simpl; [done| |done|done].
    intros k' e. rewrite lookup_insert_Some. intros [[_ <-]|[_ He]]; [by exists vs|by eapply H2].
Qed.

Lemma step_inv w w' : step w w' → cache_inv w → cache_inv w'.
Proof.
  intros Hstep Hinv. destruct Hstep as
    [w h a v Ha|w h h' a Ha|w h|w a Hfree|w h a v f Hh Ha Hu|w h a v a' f Hh Ha _ Ha'
    |w i k Hi|w i k srcs t h a v Hi Hh Ha|w i k srcs x Hi Hl|w i k srcs Hi Hl
    |w i k srcs vs x Hi Hm Hb|w k].
  - apply handle_inv; [simpl; by rewrite lookup_insert_eq|by apply alloc_inv].
  - apply handle_inv; [by eapply inv_handles|done].
  - destruct Hinv as [H1 H2 H3 H4]. split; simpl; [|done..].
    intros h' b [_ Hb]%lookup_delete_Some. by eapply H1.
  - by apply free_inv.
  - eapply mutate_inv; [done|by rewrite Ha|done].
  - apply handle_inv; [simpl; by rewrite lookup_insert_eq|by apply alloc_inv].
  - apply call_inv; [constructor|done|done].
  - apply call_inv; [|done|done]. apply Forall_app. split; [by eapply (inv_calls _ Hinv _ _ Hi)|].
    by constructor.
  - apply call_inv; [constructor| |done]. intros ? ? [= <- <-]. by eapply hit_inv.
  - apply call_inv; [|done|done]. apply collected_sorted. by eapply (inv_calls _ Hinv _ _ Hi).
  - by eapply insert_inv.
  - destruct Hinv as [H1 H2 H3 H4]. split; simpl; [done| |done|done].
    intros k' e [_ He]%lookup_delete_Some. by eapply H2.
Qed.

(** However calls, changes of the shared data, deallocations and reuses
    of addresses interleave, a call returns what computing from the data it
    collected gives, whether it hit the cache or not. *)
Lemma cache_transparent w i srcs x :
  rtc step initial w → calls w !! i = Some (Returned srcs x) → built (contents srcs) x.
Proof.
  intros Hrun Hret. assert (cache_inv w) as Hinv; [|by eapply inv_returned].
  clear Hret. revert w Hrun. apply rtc_ind_r.
  - by split; simpl; intros *; rewrite lookup_empty.
  - intros w w' _ Hstep Hinv. by eapply step_inv.
Qed.
End cache.
