(* ===== verification/AssemblyScope.v ===== *)
(** * Scope of a context assembly

    [daemon/daemon/assembly_scope.rs] ([daemon] is [post-cortex-daemon/src]):
    which updates, cards, excerpts and graph an assembly reads, and how they
    share the token budget.  The merged graphs of workspaces are cached by
    the identity of [Arc]s ([GraphCache]); here [graph_scope] merges afresh,
    which the theorems below show to be the same.

    The storage ([get_card]), the session manager ([get_session]) and the
    search for excerpts are arguments. *)

From stdpp Require Import gmap.
From S2P Require Import Prelude RustStd Collections StrLemmas UuidText F32 FloatOrder Types VectorTypes Petgraph EntityGraph EntityGraphWf EntityGraphThms EntityQueries ContextAssembly ContextAssemblyThms HotContext Session Workspace Temporal SearchResults GraphCache.

Local Open Scope string_scope.

Inductive ScopeError :=
  | Missing
  | NotFound (what : string).

Definition ScopeError_to_string (e : ScopeError) : string :=
  match e with
  | Missing => "either a session id or a workspace id is required"
  | NotFound what => what +:+ " not found"
  end.

(** [excerpt_tokens + item.token_estimate <= excerpt_budget], running. *)
Fixpoint fitting (budget used : nat) (xs : list ContextItem) : list ContextItem * nat :=
  match xs with
  | [] => ([], used)
  | x :: xs =>
    if (used + token_estimate x <=? budget)%nat
    then let '(kept, used) := fitting budget (used + token_estimate x) xs in (x :: kept, used)
    else fitting budget used xs
  end.

Section scope.
Context `{U : Unicode} `{A : Alphanumeric} `{C : Uppercase} `{I : UuidText} `{P : Petgraph}
  `{O : MapOrder}.
Implicit Types (g : SimpleEntityGraph) (s : ActiveSession).

Definition session_updates s (out : list ContextUpdate) : list ContextUpdate :=
  (out ++ get_all (hot_context s) ++ (zu_update <$> warm_context s))%list.

Definition workspaces_of (m : WorkspaceManager) (session_id : Uuid) : list Uuid :=
  ws_id <$> retain (λ ws, existsb (λ p, N.eqb p.1 session_id) (get_all_sessions ws))
              (list_workspaces m).

Definition card_scopes (workspaces : list Uuid) : list CardScope :=
  CardUser :: (CardWorkspace <$> workspaces).

Definition read_cards {E} (get_card : CardScope → result (option Card) E)
    (workspaces : list Uuid) : list Card :=
  omap (λ scope, match get_card scope with Ok card => card | Err _ => None end)
    (card_scopes workspaces).

(** The excerpts, none when the search fails. *)
Definition assembly_excerpts {E} (format_date : DateTime → string)
    (search : list Uuid → string → result (list SemanticSearchResult) E)
    (sessions : list Uuid) (query : string) : list ContextItem :=
  match conversation_excerpts format_date search sessions query with
  | Ok excerpts => excerpts
  | Err _ => []
  end.

(** [None] is an underflow of [token_budget - excerpt_tokens]. *)
Definition assemble {E F} (get_card : CardScope → result (option Card) E)
    (format_date : DateTime → string)
    (search : list Uuid → string → result (list SemanticSearchResult) F)
    (now : DateTime) (query : string) g (updates : list ContextUpdate)
    (sessions workspaces : list Uuid) (token_budget : nat) (corpus : Corpus)
    : option AssembledContext :=
  let cards := read_cards get_card workspaces in
  let token_budget := (token_budget - card_tokens cards)%nat in
  let excerpts :=
    match corpus with
    | CorpusRecords => []
    | _ => assembly_excerpts format_date search sessions query
    end in
  let '(updates, excerpt_budget) :=
    match corpus with
    | CorpusMessages => ([], token_budget)
    | _ => (updates, ((token_budget - entity_summary_tokens query g) / 2)%nat)
    end in
  let '(excerpts, excerpt_tokens) := fitting excerpt_budget 0 excerpts in
  if (token_budget <? excerpt_tokens)%nat then None
  else
    let ctx := assemble_context now query g updates (token_budget - excerpt_tokens) in
    let ctx := add_excerpts ctx excerpts token_budget in
    Some (add_cards ctx cards).

(** The graph of several sessions, in their order: [now i j] is the [j]-th
    clock reading of the [i]-th merge. *)
Definition merge_in_order (now : nat → nat → DateTime)
    (sources : list (Uuid * SimpleEntityGraph)) : SimpleEntityGraph :=
  foldi (λ i p g, merge_from (now i) p.2 g) 0 sources SimpleEntityGraph_new.

Definition merge_sources (now : nat → nat → DateTime)
    (sources : list (Uuid * SimpleEntityGraph)) : SimpleEntityGraph :=
  merge_in_order now (sort_sources N.compare sources).

(** What [WorkspaceGraphCache::merged] computes on a miss, and what
    [ValidityCache::of] does (from a session's records and graph). *)
Definition merge_built (sources : list (Uuid * SimpleEntityGraph)) (merged : SimpleEntityGraph)
    : Prop :=
  ∃ now, merged = merge_in_order now sources.

Definition validity_built
    (sources : list (bool * (list ContextUpdate + SimpleEntityGraph)))
    (v : gmap Uuid Validity) : Prop :=
  ∃ us g, sources = [(false, inl us); (true, inr g)] ∧ validity us g = Some v.

Definition workspace_cache_step :=
  @step N N SimpleEntityGraph SimpleEntityGraph _ _ _ N.compare merge_built.
Definition validity_cache_step :=
  @step N bool (list ContextUpdate + SimpleEntityGraph) (gmap Uuid Validity) _ _ _
    bool_cmp validity_built.

(** The sessions of a scope and the graph its views read. *)
Definition graph_scope (now : nat → nat → DateTime) (m : WorkspaceManager)
    (get_session : Uuid → option ActiveSession) (session workspace : option Uuid)
    : result (list ActiveSession * SimpleEntityGraph) ScopeError :=
  match workspace with
  | Some id =>
    match get_workspace id m with
    | None => Err (NotFound ("workspace " +:+ Uuid_to_string id))
    | Some ws =>
      let members :=
        omap (λ p, s ← get_session p.1; Some (p.1, s)) (get_all_sessions ws) in
      Ok (snd <$> members,
          merge_sources now ((λ p, (p.1, entity_graph p.2)) <$> members))
    end
  | None =>
    match session with
    | None => Err Missing
    | Some id =>
      match get_session id with
      | None => Err (NotFound ("session " +:+ Uuid_to_string id))
      | Some s => Ok ([s], entity_graph s)
      end
    end
  end.
End scope.

(** ** Assembly scope: theorems

    An assembly never underflows, spends at most what the cards and the
    entity summary leave of the budget, and its text stays within the bytes
    its token count stands for, up to headings and separators. *)

(** ** Lengths *)

Lemma estimate_tokens_len s : (str_len s ≤ 4 * estimate_tokens s)%nat.
Proof.
  unfold estimate_tokens, div_ceil. change (4 - 1)%nat with 3%nat.
  pose proof (Nat.div_mod (str_len s + 3) 4 ltac:(lia)).
  pose proof (Nat.mod_upper_bound (str_len s + 3) 4 ltac:(lia)). lia.
Qed.

Definition sum_len (xs : list string) : nat := sum_list (str_len <$> xs).

Lemma concat_len sep xs :
  (str_len (String.concat sep xs) ≤ sum_len xs + str_len sep * (length xs - 1))%nat.
Proof.
  unfold sum_len. induction xs as [|x xs IH]; [unfold str_len; simpl; lia|]. destruct xs as [|y ys].
  - csimpl. simpl. lia.
  - change (String.concat sep (x :: y :: ys)) with (x +:+ sep +:+ String.concat sep (y :: ys)).
    rewrite !str_len_app. csimpl in *. lia.
Qed.

Lemma sum_list_app xs ys : sum_list (xs ++ ys) = (sum_list xs + sum_list ys)%nat.
Proof. induction xs as [|x xs IH]; csimpl; lia. Qed.

Lemma sum_len_app xs ys : sum_len (xs ++ ys) = (sum_len xs + sum_len ys)%nat.
Proof. unfold sum_len. by rewrite fmap_app, sum_list_app. Qed.

Lemma sum_len_one s : sum_len [s] = str_len s.
Proof. unfold sum_len. csimpl. lia. Qed.

(** What a list of strings weighs when each weighs at most [k] and [c]
    times a measure. *)
Lemma sum_len_bound {A} (f : A → string) (m : A → nat) c k xs :
  (∀ x, x ∈ xs → str_len (f x) ≤ c * m x + k)%nat →
  (sum_len (f <$> xs) ≤ c * sum_list (m <$> xs) + k * length xs)%nat.
Proof.
  unfold sum_len. induction xs as [|x xs IH]; intros Hx; csimpl; [lia|].
  pose proof (Hx x (list_elem_of_here _ _)).
  specialize (IH (λ y Hy, Hx y (list_elem_of_further _ _ _ Hy))). lia.
Qed.

Lemma str_trim_len s : utf8_valid s → (str_len (str_trim s) ≤ str_len s)%nat.
Proof.
  intros Hs. destruct (str_trim_split s Hs) as (w1 & cs & w2 & -> & -> & Hcs & _).
  pose proof Hcs as Hall. rewrite !Forall_app in Hall. destruct Hall as (_ & H2 & _).
  unfold str_len. rewrite !str_bytes_of_chars by done. rewrite !bind_app, !length_app. lia.
Qed.

(** ** The text *)

Section text.
Context `{U : Unicode}.

Lemma card_part_len c :
  utf8_valid (card_text c) →
  (str_len (card_part c) + 2 ≤ 4 * (estimate_tokens (card_text c) + 8))%nat.
Proof.
  intros Hc. unfold card_part. rewrite !str_len_app.
  pose proof (str_trim_len _ Hc). pose proof (estimate_tokens_len (card_text c)).
  assert (str_len newline = 1%nat) as -> by done. assert (str_len ":" = 1%nat) as -> by done.
  destruct (card_scope c); unfold str_len at 1; simpl length; lia.
Qed.

Lemma opt_list_len (o : option string) :
  (sum_len (opt_list o) + 2 * length (opt_list o)
   ≤ 4 * sum_list (estimate_tokens <$> opt_list o) + 2)%nat.
Proof.
  unfold sum_len. destruct o as [s|]; csimpl; [|lia]. pose proof (estimate_tokens_len s). lia.
Qed.

(** Items whose estimate is that of their text. *)
Definition estimated (i : ContextItem) : Prop := token_estimate i = estimate_tokens (ci_text i).

Lemma items_len sep (xs : list ContextItem) :
  Forall estimated xs →
  (str_len (String.concat sep (ci_text <$> xs)) ≤ 4 * item_tokens xs + str_len sep * length xs)%nat.
Proof.
  intros Hxs. pose proof (concat_len sep (ci_text <$> xs)) as Hc. rewrite length_fmap in Hc.
  pose proof (sum_len_bound ci_text token_estimate 4 0 xs) as Hs. unfold item_tokens.
  assert (sum_len (ci_text <$> xs) ≤ 4 * sum_list (token_estimate <$> xs))%nat.
  { rewrite Hs; [lia|]. intros x Hx. rewrite Forall_forall in Hxs. rewrite (Hxs x Hx).
    pose proof (estimate_tokens_len (ci_text x)). lia. }
  nia.
Qed.

Lemma records_part_len xs :
  Forall estimated xs →
  (sum_len (records_part xs) + 2 * length (records_part xs)
   ≤ 4 * item_tokens xs + 5 * length xs + 20)%nat.
Proof.
  intros Hxs. pose proof (items_len (newline +:+ "---" +:+ newline) xs Hxs) as Hi.
  destruct xs as [|x xs]; [cbv -[Nat.mul item_tokens]; lia|]. unfold records_part.
  rewrite sum_len_one, !str_len_app in *. assert (str_len newline = 1%nat) as Hn by done. rewrite Hn in *.
  assert (str_len "---" = 3%nat) as H3 by done. rewrite H3 in *.
  assert (str_len "Relevant context:" = 17%nat) as -> by done.
  simpl length in *. lia.
Qed.

Lemma excerpts_part_len xs :
  Forall estimated xs →
  (sum_len (excerpts_part xs) + 2 * length (excerpts_part xs)
   ≤ 4 * item_tokens xs + length xs + 25)%nat.
Proof.
  intros Hxs. pose proof (items_len newline xs Hxs) as Hi.
  destruct xs as [|x xs]; [cbv -[Nat.mul item_tokens]; lia|]. unfold excerpts_part.
  rewrite sum_len_one, !str_len_app in *. assert (str_len newline = 1%nat) as Hn by done. rewrite Hn in *.
  assert (str_len "Conversation excerpts:" = 22%nat) as -> by done.
  simpl length in *. lia.
Qed.

Lemma retain_partition (p : ContextItem → bool) xs :
  (item_tokens (retain (λ i, negb (p i)) xs) + item_tokens (retain p xs) = item_tokens xs)%nat
  ∧ (length (retain (λ i, negb (p i)) xs) + length (retain p xs) = length xs)%nat.
Proof.
  unfold item_tokens, retain. induction xs as [|x xs [IH1 IH2]]; [done|].
  rewrite !filter_cons. destruct (p x); cbn [negb]; repeat case_decide; try done; csimpl; split; lia.
Qed.

Lemma retain_Forall (Q : ContextItem → Prop) p xs : Forall Q xs → Forall Q (retain p xs).
Proof.
  rewrite !Forall_forall. intros Hq x [Hx _]%elem_of_retain. by apply Hq.
Qed.

Lemma cards_len cs :
  Forall (λ c, utf8_valid (card_text c)) cs → Forall (λ c, card_has_text c = true) cs →
  (sum_len (card_part <$> cs) + 2 * length (card_part <$> cs) ≤ 4 * card_tokens cs)%nat.
Proof.
  intros Hv Ht. unfold card_tokens, sum_len.
  replace (retain card_has_text cs) with cs by (symmetry; by apply filter_Forall_id).
  induction cs as [|c cs IH]; csimpl; [lia|].
  apply Forall_cons in Hv as [Hc Hv], Ht as [_ Ht]. specialize (IH Hv Ht).
  pose proof (card_part_len c Hc). lia.
Qed.

(** The bytes of an assembled context whose tokens add up. *)
Lemma format_len ctx :
  Forall (λ c, utf8_valid (card_text c)) (cards ctx) →
  Forall (λ c, card_has_text c = true) (cards ctx) →
  Forall estimated (items ctx) →
  (str_len (format_for_llm ctx)
   ≤ 4 * (card_tokens (cards ctx) + graph_section_tokens (entity_context ctx) (impact ctx)
          + item_tokens (items ctx))
     + 5 * length (items ctx) + 49)%nat.
Proof.
  intros Hv Ht Hi. unfold format_for_llm.
  match goal with |- (str_len (String.concat ?sep ?parts) ≤ _)%nat =>
    pose proof (concat_len sep parts) as Hc end.
  assert (str_len (newline +:+ newline) = 2%nat) as H2 by done. rewrite H2 in Hc.
  unfold graph_section_tokens. rewrite fmap_app, sum_list_app.
  rewrite !sum_len_app, !length_app in Hc.
  destruct (retain_partition is_excerpt (items ctx)) as [Hpt Hpl].
  pose proof (cards_len _ Hv Ht).
  pose proof (opt_list_len (entity_section (entity_context ctx))).
  pose proof (opt_list_len (impact_section (impact ctx))).
  pose proof (records_part_len _ (retain_Forall _ (λ i, negb (is_excerpt i)) _ Hi)).
  pose proof (excerpts_part_len _ (retain_Forall _ is_excerpt _ Hi)). lia.
Qed.
End text.

(** ** Adding excerpts and cards *)

Lemma fitting_pack budget used xs : fitting budget used xs = pack budget used xs.
Proof.
  revert used. induction xs as [|x xs IH]; intros used; simpl; [done|].
  destruct (Nat.leb_spec (used + token_estimate x) budget),
    (Nat.ltb_spec budget (used + token_estimate x)); try lia; by rewrite !IH.
Qed.

Lemma add_excerpts_pack ctx xs budget :
  add_excerpts ctx xs budget
  = mkAssembledContext (items ctx ++ (pack budget (total_tokens ctx) xs).1)%list
      (entity_context ctx) (impact ctx) (pack budget (total_tokens ctx) xs).2 (cards ctx).
Proof.
  unfold add_excerpts. revert ctx. induction xs as [|x xs IH]; intros ctx; simpl.
  - rewrite app_nil_r. by destruct ctx.
  - rewrite IH. unfold add_excerpt.
    destruct (Nat.ltb_spec budget (total_tokens ctx + token_estimate x)); [done|].
    simpl. destruct (pack budget (total_tokens ctx + token_estimate x) xs) as [sel u].
    by rewrite <-app_assoc.
Qed.

Lemma pack_full budget used xs : (budget < used)%nat → pack budget used xs = ([], used).
Proof.
  intros Hu. induction xs as [|x xs IH]; simpl; [done|].
  by destruct (Nat.ltb_spec budget (used + token_estimate x)); [|lia].
Qed.

Lemma item_tokens_app xs ys : item_tokens (xs ++ ys) = (item_tokens xs + item_tokens ys)%nat.
Proof. unfold item_tokens. by rewrite fmap_app, sum_list_app. Qed.

Lemma card_tokens_retain cs : card_tokens (retain card_has_text cs) = card_tokens cs.
Proof.
  unfold card_tokens. do 2 f_equal. apply filter_Forall_id, Forall_forall.
  by intros c [_ Hc]%elem_of_retain.
Qed.

Section scope.
Context `{U : Unicode} `{A : Alphanumeric} `{C : Uppercase} `{I : UuidText} `{P : Petgraph}
  `{O : MapOrder}.
Context {E F : Type} (get_card : CardScope → result (option Card) E)
  (format_date : DateTime → string)
  (search : list Uuid → string → result (list SemanticSearchResult) F).
Implicit Types (g : SimpleEntityGraph).

Lemma conversation_excerpts_estimated sessions query :
  Forall estimated (assembly_excerpts format_date search sessions query).
Proof.
  unfold assembly_excerpts, conversation_excerpts. repeat case_match; simplify_eq; [constructor..| |];
    try constructor; apply Forall_fmap, Forall_forall; by intros r _.
Qed.

Lemma pack_Forall (Q : ContextItem → Prop) budget used xs :
  Forall Q xs → Forall Q (pack budget used xs).1.
Proof.
  rewrite !Forall_forall. intros Hq x Hx. apply Hq.
  by apply (sublist_subseteq _ _ (pack_sublist budget used xs)).
Qed.

(** What every assembly satisfies, whatever the corpus. *)
Record within_budget query g (cs : list Card) (budget : nat) (ctx : AssembledContext) : Prop := {
  wb_cards : cards ctx = retain card_has_text cs;
  wb_context : entity_context ctx = build_entity_context (find_query_entities query g) g 1;
  wb_impact : impact ctx = analyze_impact (find_query_entities query g) g;
  wb_total : total_tokens ctx
    = (card_tokens cs + entity_summary_tokens query g + item_tokens (items ctx))%nat;
  wb_room : (item_tokens (items ctx)
    ≤ budget - card_tokens cs - entity_summary_tokens query g)%nat;
  wb_estimated : Forall estimated (items ctx);
}.

(** Records in what is left beside the excerpts, then the excerpts, then
    the cards. *)
Lemma compose_within now query g updates cs budget excerpts used :
  (used ≤ budget - card_tokens cs)%nat → Forall estimated excerpts →
  within_budget query g cs budget
    (add_cards (add_excerpts
       (assemble_context now query g updates (budget - card_tokens cs - used)) excerpts
       (budget - card_tokens cs)) cs).
Proof.
  intros Hu Hex. set (B := (budget - card_tokens cs)%nat) in *.
  destruct (assemble_context_pack now query g updates (B - used)) as (Hi & Ht & Hc & Hec & Him).
  set (ctx := assemble_context now query g updates (B - used)) in *.
  rewrite add_excerpts_pack. set (S := entity_summary_tokens query g) in *.
  set (xs := sort_by item_order (scored now query g updates)) in *.
  pose proof (pack_tokens (B - used - S) 0 xs) as Htok.
  pose proof (pack_bound (B - used - S) 0 xs) as Hb.
  pose proof (pack_tokens B (total_tokens ctx) excerpts) as Htok2.
  pose proof (pack_bound B (total_tokens ctx) excerpts) as Hb2.
  pose proof (pack_full B (total_tokens ctx) excerpts) as Hfull.
  rewrite <-Hi in *. fold (item_tokens (items ctx)) in *.
  set (ex := pack B (total_tokens ctx) excerpts) in *. fold (item_tokens ex.1) in Htok2.
  split; simpl; [done|done|done|..].
  - rewrite card_tokens_retain, item_tokens_app. lia.
  - rewrite item_tokens_app. destruct (decide (total_tokens ctx ≤ B)%nat); [lia|].
    rewrite Hfull by lia. unfold item_tokens at 2. simpl. lia.
  - apply Forall_app. split; [|by apply pack_Forall]. rewrite Hi. apply pack_Forall.
    unfold xs. rewrite sort_by_perm. apply Forall_fmap, Forall_forall. by intros u _.
Qed.

Lemma assemble_within now query g updates sessions workspaces budget corpus :
  let cs := read_cards get_card workspaces in
  ∃ ctx, assemble get_card format_date search now query g updates sessions workspaces budget
           corpus = Some ctx ∧ within_budget query g cs budget ctx.
Proof.
  unfold assemble. cbv zeta. set (cs := read_cards get_card workspaces).
  set (B := (budget - card_tokens cs)%nat).
  set (ex := match corpus with CorpusRecords => [] | _ => _ end).
  assert (Forall estimated ex) as Hex.
  { unfold ex. destruct corpus; [constructor|apply conversation_excerpts_estimated..]. }
  destruct (match corpus with CorpusMessages => ([], B) | _ => _ end) as [us eb] eqn:Hus.
  assert (eb ≤ B)%nat as Heb.
  { assert (∀ n, (n / 2 ≤ n)%nat) as Hhalf by (intros n; apply Nat.Div0.div_le_upper_bound; lia).
    pose proof (Hhalf (B - entity_summary_tokens query g)%nat) as Hh.
    destruct corpus; injection Hus as _ Heb; rewrite <-Heb; [|done|];
      (etrans; [exact Hh|]; lia). }
  rewrite fitting_pack. pose proof (pack_bound eb 0 ex ltac:(lia)) as Hused.
  pose proof (pack_Forall estimated eb 0 ex Hex) as Hkept.
  destruct (pack eb 0 ex) as [kept used]. simpl in *.
  destruct (Nat.ltb_spec B used); [lia|]. eexists. split; [done|]. by apply compose_within.
Qed.

(** C14: An assembly always succeeds (the subtraction of the excerpts' share
    cannot underflow), its total is the sum of what the cards, the entity
    summary and the items take, the items stay within what the others leave,
    and so the total exceeds the budget only when cards and summary alone
    do. *)
Theorem assemble_within_budget now query g updates sessions workspaces budget corpus :
  let fixed := (card_tokens (read_cards get_card workspaces) + entity_summary_tokens query g)%nat in
  ∃ ctx, assemble get_card format_date search now query g updates sessions workspaces budget
           corpus = Some ctx
    ∧ total_tokens ctx = (fixed + item_tokens (items ctx))%nat
    ∧ (item_tokens (items ctx) ≤ budget - fixed)%nat
    ∧ (total_tokens ctx ≤ Nat.max budget fixed)%nat.
Proof.
  destruct (assemble_within now query g updates sessions workspaces budget corpus)
    as (ctx & Hctx & [_ _ _ Ht Hr _]).
  exists ctx. cbv zeta. split_and!; [done|lia|lia|lia].
Qed.

(** The text of an assembly takes at most four bytes per token of its
    total, beside 49 bytes of headings and separators and five per item. *)
Theorem assembled_text_bounded now query g updates sessions workspaces budget corpus ctx :
  (∀ scope c, get_card scope = Ok (Some c) → utf8_valid (card_text c)) →
  assemble get_card format_date search now query g updates sessions workspaces budget corpus
  = Some ctx →
  (str_len (format_for_llm ctx) ≤ 4 * total_tokens ctx + 5 * length (items ctx) + 49)%nat.
Proof.
  intros Hv Hctx.
  destruct (assemble_within now query g updates sessions workspaces budget corpus)
    as (ctx' & Hctx' & [Hc Hec Him Ht _ He]).
  rewrite Hctx in Hctx'. injection Hctx' as <-.
  assert (card_tokens (cards ctx) = card_tokens (read_cards get_card workspaces)) as Hct
    by (by rewrite Hc, card_tokens_retain).
  assert (graph_section_tokens (entity_context ctx) (impact ctx) = entity_summary_tokens query g)
    as Hs by (by rewrite Hec, Him).
  rewrite Ht, <-Hct, <-Hs. apply format_len; [| |done].
  - rewrite Hc. apply Forall_forall. intros c [Hin _]%elem_of_retain.
    apply list_elem_of_omap in Hin as (scope & _ & Hcard). apply (Hv scope).
    destruct (get_card scope) as [[?|]|]; congruence.
  - rewrite Hc. apply Forall_forall. by intros c [_ Hin]%elem_of_retain.
Qed.
End scope.

(** ** The caches *)

Section caches.
Context `{U : Unicode} `{A : Alphanumeric} `{P : Petgraph}.

(** The graph of a workspace and the validity of a session's records
    are those of the data the call collected, whether they come from the
    cache or not: no interleaving of calls with changes of the sessions
    makes a stale entry look current. *)
Theorem cached_values_current :
  (∀ w i srcs merged,
     rtc workspace_cache_step initial w → calls w !! i = Some (Returned srcs merged) →
     ∃ now, merged = merge_in_order now (contents srcs))
  ∧ (∀ w i srcs v,
     rtc validity_cache_step initial w → calls w !! i = Some (Returned srcs v) →
     ∃ us g, contents srcs = [(false, inl us); (true, inr g)] ∧ validity us g = Some v).
Proof.
  split; intros w i srcs x Hrun Hret.
  - exact (cache_transparent N.compare merge_built w i srcs x Hrun Hret).
  - exact (cache_transparent bool_cmp validity_built w i srcs x Hrun Hret).
Qed.
End caches.

(** ** Instances *)

#[local] Existing Instances ascii_unicode list_graph key_order ascii_alnum ascii_upper hex_uuid.

Definition no_card (scope : CardScope) : result (option Card) unit := Ok None.
Definition no_turns (sessions : list Uuid) (query : string)
    : result (list SemanticSearchResult) unit := Ok [].

Lemma assembled_text_bounded_witness :
  ∃ ctx, assemble no_card (λ _, "") no_turns 0%Z "database" SimpleEntityGraph_new [] [] [] 100
           CorpusAll = Some ctx
    ∧ (str_len (format_for_llm ctx) ≤ 4 * total_tokens ctx + 5 * length (items ctx) + 49)%nat.
Proof.
  destruct (assemble_within no_card (λ _, "") no_turns 0%Z "database" SimpleEntityGraph_new
    [] [] [] 100 CorpusAll) as (ctx & Hctx & _).
  exists ctx. split; [exact Hctx|].
  refine (assembled_text_bounded no_card (λ _, "") no_turns _ _ _ _ _ _ _ _ ctx _ Hctx).
  intros scope c Hc. discriminate Hc.
Defined.

(** One session's graph, merged after a miss. *)
Definition cache_run : @world N N SimpleEntityGraph SimpleEntityGraph numbers.N.eq_dec N_countable :=
  with_call 0 (Returned [(7%N, (0, SimpleEntityGraph_new))]
                 (merge_in_order demo_now [(7%N, SimpleEntityGraph_new)]))
    (on_cache <[1%N := mkEntry [(7%N, 0)]
                           (merge_in_order demo_now [(7%N, SimpleEntityGraph_new)])]>
    (with_call 0 (Missed 1%N [(7%N, (0, SimpleEntityGraph_new))])
    (with_call 0 (Collecting 1%N [(7%N, (0, SimpleEntityGraph_new))])
    (with_call 0 (Collecting 1%N [])
    (on_handles <[0 := 0]> (on_heap <[0 := SimpleEntityGraph_new]> initial)))))).

Lemma cache_run_reached : rtc workspace_cache_step initial cache_run.
Proof.
  eapply rtc_l; [apply (step_new _ _ _ 0 0 SimpleEntityGraph_new); reflexivity|].
  eapply rtc_l; [apply (step_begin _ _ _ 0 1%N); reflexivity|].
  eapply rtc_l; [apply (step_collect _ _ _ 0 1%N [] 7%N 0 0 SimpleEntityGraph_new); reflexivity|].
  eapply rtc_l; [apply (step_miss _ _ _ 0 1%N [(7%N, (0, SimpleEntityGraph_new))]); reflexivity|].
  eapply rtc_l; [|constructor].
  apply (step_insert _ _ _ 0 1%N [(7%N, (0, SimpleEntityGraph_new))]
           [(7%N, SimpleEntityGraph_new)]); [reflexivity|reflexivity|by exists demo_now].
Qed.

Lemma cached_values_current_witness :
  ∃ now, merge_in_order demo_now [(7%N, SimpleEntityGraph_new)]
         = merge_in_order now (contents [(7%N, (0, SimpleEntityGraph_new))]).
Proof.
  apply (proj1 cached_values_current cache_run 0); [exact cache_run_reached|reflexivity].
Defined.
