(* ===== verification/RecordCodecs.v ===== *)
(** * Records as codes

    Every record type the storage writes is countable.  The codecs of the
    storage are classes with laws; these instances give codecs that satisfy
    them, to evaluate with. *)

From stdpp Require Import gmap.
From S2P Require Import Prelude RustStd F32 Types Session.

Local Open Scope string_scope.

#[global] Instance f32_countable : Countable f32.
Proof.
  refine (inj_countable'
    (λ x, match x with
          | SpecFloat.S754_zero s => inl (inl s)
          | SpecFloat.S754_infinity s => inl (inr s)
          | SpecFloat.S754_nan => inr None
          | SpecFloat.S754_finite s m e => inr (Some (s, m, e))
          end)
    (λ c, match c with
          | inl (inl s) => SpecFloat.S754_zero s
          | inl (inr s) => SpecFloat.S754_infinity s
          | inr None => SpecFloat.S754_nan
          | inr (Some (s, m, e)) => SpecFloat.S754_finite s m e
          end) _).
  by intros [].
Defined.

#[global] Instance UpdateType_countable : Countable UpdateType.
Proof.
  refine (inj_countable'
    (λ x, match x with QuestionAnswered => 0 | ProblemSolved => 1 | CodeChanged => 2 | DecisionMade => 3 | ConceptDefined => 4 | RequirementAdded => 5 end)%N
    (λ n, match n with 0 => QuestionAnswered | 1 => ProblemSolved | 2 => CodeChanged | 3 => DecisionMade | 4 => ConceptDefined | _ => RequirementAdded end)%N _).
  by intros [].
Defined.

#[global] Instance EntityType_countable : Countable EntityType.
Proof.
  refine (inj_countable'
    (λ x, match x with Technology => 0 | Concept => 1 | Problem => 2 | Solution => 3 | Decision_ => 4 | CodeComponent => 5 end)%N
    (λ n, match n with 0 => Technology | 1 => Concept | 2 => Problem | 3 => Solution | 4 => Decision_ | _ => CodeComponent end)%N _).
  by intros [].
Defined.

#[global] Instance RelationType_countable : Countable RelationType.
Proof.
  refine (inj_countable'
    (λ x, match x with RequiredBy => 0 | LeadsTo => 1 | RelatedTo => 2 | ConflictsWith => 3 | DependsOn => 4 | Implements => 5 | CausedBy => 6 | Solves => 7 end)%N
    (λ n, match n with 0 => RequiredBy | 1 => LeadsTo | 2 => RelatedTo | 3 => ConflictsWith | 4 => DependsOn | 5 => Implements | 6 => CausedBy | _ => Solves end)%N _).
  by intros [].
Defined.

#[global] Instance QuestionStatus_countable : Countable QuestionStatus.
Proof.
  refine (inj_countable'
    (λ x, match x with Open => 0 | InProgress => 1 | Answered => 2 | Deferred => 3 end)%N
    (λ n, match n with 0 => Open | 1 => InProgress | 2 => Answered | _ => Deferred end)%N _).
  by intros [].
Defined.

#[global] Instance TypedEntity_countable : Countable TypedEntity.
Proof.
  refine (inj_countable'
    (λ r, (te_name r, te_entity_type r))
    (λ '(a, b), mkTypedEntity a b) _).
  by intros [].
Defined.

#[global] Instance UpdateMeta_countable : Countable UpdateMeta.
Proof.
  refine (inj_countable'
    (λ r, (valid_from r, supersedes r, um_confidence r, retired_at r))
    (λ '(a, b, c, d), mkUpdateMeta a b c d) _).
  by intros [].
Defined.

#[global] Instance UpdateContent_countable : Countable UpdateContent.
Proof.
  refine (inj_countable'
    (λ r, (uc_title r, uc_description r, uc_details r, uc_examples r, uc_implications r))
    (λ '(a, b, c, d, e), mkUpdateContent a b c d e) _).
  by intros [].
Defined.

#[global] Instance CodeReference_countable : Countable CodeReference.
Proof.
  refine (inj_countable'
    (λ r, (file_path r, start_line r, end_line r, code_snippet r, commit_hash r, branch r,
       change_description r))
    (λ '(a, b, c, d, e, f, g), mkCodeReference a b c d e f g) _).
  by intros [].
Defined.

#[global] Instance EntityRelationship_countable : Countable EntityRelationship.
Proof.
  refine (inj_countable'
    (λ r, (from_entity r, to_entity r, er_relation_type r, er_context r))
    (λ '(a, b, c, d), mkEntityRelationship a b c d) _).
  by intros [].
Defined.

#[global] Instance ContextUpdate_countable : Countable ContextUpdate.
Proof.
  refine (inj_countable'
    (λ r, (cu_id r, cu_timestamp r, cu_update_type r, cu_content r, related_code r,
       parent_update r, user_marked_important r, creates_entities r,
       creates_relationships r, references_entities r, typed_entities r, cu_author r,
       derived_from r, cu_meta r))
    (λ '(a, b, c, d, e, f, g, h, i, j, k, l, m, n), mkContextUpdate a b c d e f g h i j k l m n) _).
  by intros [].
Defined.

#[global] Instance EntityData_eq_dec : EqDecision EntityData.
Proof. solve_decision. Defined.

#[global] Instance EntityData_countable : Countable EntityData.
Proof.
  refine (inj_countable'
    (λ r, (ed_name r, ed_entity_type r, first_mentioned r, last_mentioned r, mention_count
       r, importance_score r, ed_description r, aliases r))
    (λ '(a, b, c, d, e, f, g, h), mkEntityData a b c d e f g h) _).
  by intros [].
Defined.

#[global] Instance DecisionItem_eq_dec : EqDecision DecisionItem.
Proof. solve_decision. Defined.

#[global] Instance DecisionItem_countable : Countable DecisionItem.
Proof.
  refine (inj_countable'
    (λ r, (di_description r, di_context r, alternatives r, di_confidence r, di_timestamp r))
    (λ '(a, b, c, d, e), mkDecisionItem a b c d e) _).
  by intros [].
Defined.

#[global] Instance QuestionItem_eq_dec : EqDecision QuestionItem.
Proof. solve_decision. Defined.

#[global] Instance QuestionItem_countable : Countable QuestionItem.
Proof.
  refine (inj_countable'
    (λ r, (question r, qi_context r, qi_status r, qi_timestamp r, qi_last_updated r))
    (λ '(a, b, c, d, e), mkQuestionItem a b c d e) _).
  by intros [].
Defined.

#[global] Instance ConceptItem_eq_dec : EqDecision ConceptItem.
Proof. solve_decision. Defined.

#[global] Instance ConceptItem_countable : Countable ConceptItem.
Proof.
  refine (inj_countable'
    (λ r, (ci_name r, definition r, ci_examples r, related_concepts r, ci_timestamp r))
    (λ '(a, b, c, d, e), mkConceptItem a b c d e) _).
  by intros [].
Defined.

#[global] Instance SpecItem_eq_dec : EqDecision SpecItem.
Proof. solve_decision. Defined.

#[global] Instance SpecItem_countable : Countable SpecItem.
Proof.
  refine (inj_countable'
    (λ r, (si_title r, si_description r, requirements r, constraints r, si_timestamp r))
    (λ '(a, b, c, d, e), mkSpecItem a b c d e) _).
  by intros [].
Defined.

#[global] Instance FlowItem_eq_dec : EqDecision FlowItem.
Proof. solve_decision. Defined.

#[global] Instance FlowItem_countable : Countable FlowItem.
Proof.
  refine (inj_countable'
    (λ r, (step_description r, fi_timestamp r, related_updates r, outcome r))
    (λ '(a, b, c, d), mkFlowItem a b c d) _).
  by intros [].
Defined.

#[global] Instance StructuredContext_eq_dec : EqDecision StructuredContext.
Proof. solve_decision. Defined.

#[global] Instance StructuredContext_countable : Countable StructuredContext.
Proof.
  refine (inj_countable'
    (λ r, (key_decisions r, open_questions r, key_concepts r, technical_specifications r,
       conversation_flow r))
    (λ '(a, b, c, d, e), mkStructuredContext a b c d e) _).
  by intros [].
Defined.

#[global] Instance SessionCodeReference_eq_dec : EqDecision SessionCodeReference.
Proof. solve_decision. Defined.

#[global] Instance SessionCodeReference_countable : Countable SessionCodeReference.
Proof.
  refine (inj_countable'
    (λ r, (sc_file_path r, sc_start_line r, sc_end_line r, sc_code_snippet r,
       sc_commit_hash r, sc_branch r, sc_change_description r))
    (λ '(a, b, c, d, e, f, g), mkSessionCodeReference a b c d e f g) _).
  by intros [].
Defined.

#[global] Instance ChangeRecord_eq_dec : EqDecision ChangeRecord.
Proof. solve_decision. Defined.

#[global] Instance ChangeRecord_countable : Countable ChangeRecord.
Proof.
  refine (inj_countable'
    (λ r, (cr_id r, cr_timestamp r, change_type r, cr_description r, related_update_id r))
    (λ '(a, b, c, d, e), mkChangeRecord a b c d e) _).
  by intros [].
Defined.
