(* ===== verification/GraphViews.v ===== *)
(** * Views over the knowledge graph

    [memory/graph_views.rs]: what a user interface or an agent is shown of a
    scope, that is, of the sessions it covers and their graph.  Indexing a
    missing key is a panic, [None]; [index] is the struct [Index], built once
    per view. *)

From stdpp Require Import gmap.
From S2P Require Import Prelude RustStd Collections F32 Types Petgraph EntityGraph GraphAnalytics ContextAssembly HotContext Session Temporal SearchResults RetrievalGraph RecordCodecs.

Local Open Scope string_scope.
Local Open Scope list_scope.
Local Open Scope pcx_scope.

Definition DESCRIPTION_CHARS : nat := 400.
Definition STALE_AFTER_DAYS : Z := 90.

(** [Duration::days], in nanoseconds. *)
Definition days (n : Z) : Z := n * 86400000000000.

(** [Iterator::min] and [Iterator::max]. *)
Definition min_time (ts : list DateTime) : option DateTime :=
  foldl (λ m t, Some (match m with Some m => Z.min m t | None => t end)) None ts.
Definition max_time (ts : list DateTime) : option DateTime :=
  foldl (λ m t, Some (match m with Some m => Z.max m t | None => t end)) None ts.

Record GraphScope `{Petgraph} := mkGraphScope {
  sessions : list ActiveSession;
  gs_graph : SimpleEntityGraph;
}.

Record GraphNode := mkGraphNode {
  gn_name : string;
  gn_entity_type : string;
  gn_aliases : list string;
  gn_description : option string;
  gn_importance : f32;
  gn_mention_count : N;
  gn_records : nat;
  gn_first_seen : DateTime;
  gn_last_seen : DateTime;
  gn_community : option nat;
}.

Record GraphEdge := mkGraphEdge {
  ge_from : string;
  ge_to : string;
  ge_relation_type : string;
  ge_context : string;
  ge_weight : f32;
  ge_valid_from : option DateTime;
  ge_valid_to : option DateTime;
  ge_records : list Uuid;
}.

Record RecordView := mkRecordView {
  rv_id : Uuid;
  rv_session_id : Uuid;
  rv_interaction_type : string;
  rv_title : string;
  rv_description : string;
  rv_author : option string;
  rv_timestamp : DateTime;
  rv_confidence : option f32;
  rv_derived_from : list string;
  rv_file : option string;
  rv_validity : Validity;
}.

Record GraphView := mkGraphView {
  gv_nodes : list GraphNode;
  gv_edges : list GraphEdge;
  gv_total_nodes : nat;
  gv_total_edges : nat;
  gv_at : option DateTime;
}.

Record EntityView := mkEntityView {
  ev_entity : GraphNode;
  ev_relations : list GraphEdge;
  ev_records : list RecordView;
  ev_decisions : list RecordView;
  ev_total_records : nat;
}.

Record ImpactItem := mkImpactItem {
  ii_entity : string;
  ii_entity_type : option string;
  ii_via : string;
  ii_relation_type : string;
  ii_context : string;
  ii_depth : nat;
}.

Record ImpactView := mkImpactView {
  iv_entity : string;
  iv_dependents : list ImpactItem;
  iv_risks : list RecordView;
}.

Inductive TimelineEventKind := Recorded | Ended | RelationAdded | RelationEnded.

Record TimelineEvent := mkTimelineEvent {
  te_at : DateTime;
  te_kind : TimelineEventKind;
  te_record : Uuid;
  te_session_id : Uuid;
  te_title : string;
  te_interaction_type : string;
  te_relation : option (string * string * string);
  te_reason : option EndReason;
}.

Record TimelineView := mkTimelineView {
  tl_events : list TimelineEvent;
  tl_total : nat;
}.

Record TopicView := mkTopicView {
  tv_id : nat;
  tv_size : nat;
  tv_central : list GraphNode;
  tv_key_decisions : list RecordView;
  tv_records : nat;
  tv_first : option DateTime;
  tv_last : option DateTime;
}.

Record TopicsView := mkTopicsView {
  tp_topics : list TopicView;
  tp_unclustered : N;
}.

Record LineageStep := mkLineageStep {
  ls_record : RecordView;
  ls_relation : option (string * string * string);
}.

Record LineageView := mkLineageView {
  lv_entity : string;
  lv_chain : list string;
  lv_steps : list LineageStep;
}.

Record FileView := mkFileView {
  fv_path : string;
  fv_records : list RecordView;
  fv_problems : list RecordView;
  fv_decisions : list RecordView;
  fv_entities : list GraphNode;
  fv_dependents : list ImpactItem;
}.

Record AliasCandidate := mkAliasCandidate {
  ac_name : string;
  ac_of : string;
  shared_records : nat;
}.

Record RadarView := mkRadarView {
  ra_unsolved_problems : list GraphNode;
  ra_decisions_without_rationale : list RecordView;
  ra_open_questions : list string;
  ra_stale_entities : list GraphNode;
  ra_alias_candidates : list AliasCandidate;
}.

(** (from, to, relation). *)
Abbreviation edge_key := (string * string * RelationType)%type (only parsing).

Record Index `{Petgraph} := mkIndex {
  ix_graph : SimpleEntityGraph;
  ix_records : gmap Uuid (Uuid * ContextUpdate);
  ix_validity : gmap Uuid Validity;
  ix_edge_records : gmap (string * string * RelationType) (list Uuid);
  ix_importance : gmap string f32;
  ix_communities : gmap string nat;
}.

(** ** Orders *)

Definition kind_order (kind : TimelineEventKind) : nat :=
  match kind with Ended => 0 | RelationEnded => 1 | Recorded => 2 | RelationAdded => 3 end.

(** [sort_by_importance]: the most important first, by name among equals. *)
Definition importance_cmp (a b : GraphNode) : comparison :=
  then_with (f32_total_cmp (gn_importance b) (gn_importance a)) (str_cmp (gn_name a) (gn_name b)).
Definition sort_by_importance (nodes : list GraphNode) : list GraphNode := sort_by importance_cmp nodes.

Definition edge_cmp (a b : GraphEdge) : comparison :=
  then_with (str_cmp (ge_from a) (ge_from b))
    (then_with (str_cmp (ge_to a) (ge_to b)) (str_cmp (ge_relation_type a) (ge_relation_type b))).
Definition sort_edges (edges : list GraphEdge) : list GraphEdge := sort_by edge_cmp edges.

Definition event_cmp (a b : TimelineEvent) : comparison :=
  then_with (Z.compare (te_at a) (te_at b))
    (then_with (Nat.compare (kind_order (te_kind a)) (kind_order (te_kind b))) (N.compare (te_record a) (te_record b))).

(** Newest first. *)
Definition newest_cmp (a b : RecordView) : comparison := Z.compare (rv_timestamp b) (rv_timestamp a).
Definition current_cmp (a b : RecordView) : comparison :=
  bool_cmp (negb (is_current (rv_validity a))) (negb (is_current (rv_validity b))).
Definition file_cmp (a b : RecordView) : comparison :=
  then_with (newest_cmp a b) (N.compare (rv_id a) (rv_id b)).
Definition step_cmp (a b : LineageStep) : comparison :=
  then_with (Z.compare (rv_timestamp (ls_record a)) (rv_timestamp (ls_record b)))
    (N.compare (rv_id (ls_record a)) (rv_id (ls_record b))).
Definition decision_cmp (a b : nat * RecordView) : comparison :=
  then_with (Nat.compare b.1 a.1) (newest_cmp a.2 b.2).
Definition candidate_cmp (a b : AliasCandidate) : comparison :=
  then_with (Nat.compare (shared_records b) (shared_records a))
    (then_with (str_cmp (ac_name a) (ac_name b)) (str_cmp (ac_of a) (ac_of b))).

(** [Vec::drain(..len - limit)]: the last [limit]. *)
Definition last_of {A} (limit : nat) (xs : list A) : list A :=
  if (limit <? length xs)%nat then drop (length xs - limit) xs else xs.

(** ** Paths *)

Definition path_components (path : string) : list string :=
  filter (λ c, c ≠ "" ∧ c ≠ ".")
    (str_of_chars <$> split_chars (λ c, N.eqb c 47 || N.eqb c 92) (str_chars path)).

Definition same_path (a b : list string) : bool :=
  let '(short, long) := if (length a <=? length b)%nat then (a, b) else (b, a) in
  negb (bool_decide (short = []))
  && bool_decide (drop (length long - length short) long = short)
  && ((1 <? length short)%nat || (length a =? length b)%nat).

Definition GENERIC_STEMS : list string :=
  ["main"; "index"; "init"; "__init__"; "test"; "tests"; "utils"; "types"; "README"].

Fixpoint take_while {A} (p : A → bool) (xs : list A) : list A :=
  match xs with x :: xs => if p x then x :: take_while p xs else [] | [] => [] end.

(** [rsplit_once('.')], what comes before. *)
Definition before_last_dot (s : string) : option string :=
  match skip_while (λ b, negb (N.eqb 46 b)) (reverse (str_bytes s)) with
  | [] => None
  | _ :: rest => Some (str_of_bytes (reverse rest))
  end.

Definition file_stem (file_name : string) : string := default file_name (before_last_dot file_name).

Section views.
Context `{U : Unicode} `{A : Alphanumeric} `{P : Petgraph} `{LM : Libm64} `{MO : MapOrder}.
Implicit Types (sc : GraphScope) (ix : Index) (g : SimpleEntityGraph).

(** ** The index *)

Definition resolve_or g (n : string) : string := default n (resolve g n).

Definition relation_triple g (rel : EntityRelationship) : edge_key :=
  (resolve_or g (from_entity rel), resolve_or g (to_entity rel), er_relation_type rel).

Definition add_edge_record g (u : ContextUpdate) (m : gmap edge_key (list Uuid)) (rel : EntityRelationship)
    : gmap edge_key (list Uuid) :=
  let ids := default [] (m !! relation_triple g rel) in
  <[relation_triple g rel := if decide (last ids = Some (cu_id u)) then ids else ids ++ [cu_id u]]> m.

Definition scope_records sc : gmap Uuid (Uuid * ContextUpdate) :=
  foldl (λ m s, foldl (λ m u, <[cu_id u := (md_id (metadata s), u)]> m) m (incremental_updates s)) ∅ (sessions sc).

Definition map_updates (records : gmap Uuid (Uuid * ContextUpdate)) : list ContextUpdate := (iter_order records).*2.*2.

Definition index sc : option Index :=
  let g := gs_graph sc in
  let records := scope_records sc in
  validity ← validity (map_updates records) g;
  let ordered := sort_by time_order (map_updates records) in
  let edge_records := foldl (λ m u, foldl (add_edge_record g u) m (creates_relationships u)) ∅ ordered in
  importance ← importance g;
  communities ← communities g;
  Some (mkIndex _ g records validity edge_records importance communities).

(** [Index::entity]: by name or alias, or else by a name that differs in
    case. *)
Definition find_entity g (name : string) : option EntityData :=
  n ← match resolve g name with
      | Some n => Some n
      | None => find_first (λ k, String.eqb (str_to_lowercase k) (str_to_lowercase name)) (btree_keys (entities g))
      end;
  entities g !! n.

Definition mentions_of g (name : string) : list Uuid := default [] (entity_mentions g !! name).

Definition in_records ix (id : Uuid) : bool := bool_decide (is_Some (ix_records ix !! id)).

Definition ix_node ix (e : EntityData) : GraphNode :=
  mkGraphNode (ed_name e) (EntityType_as_str (ed_entity_type e)) (aliases e) (ed_description e)
    (default f32_zero (ix_importance ix !! ed_name e)) (mention_count e)
    (length (retain (λ id, in_records ix id) (mentions_of (ix_graph ix) (ed_name e))))
    (first_mentioned e) (last_mentioned e) (ix_communities ix !! ed_name e).

Definition edge_validity ix (ids : list Uuid) : option DateTime * option DateTime :=
  let intervals := omap (λ id, ix_validity ix !! id) ids in
  (min_time (v_valid_from <$> intervals),
   if existsb is_current intervals then None else max_time (omap v_valid_to intervals)).

Definition ix_edge ix (from to : string) (rel : RelationType) (context : string) : GraphEdge :=
  let records := default [] (ix_edge_records ix !! (from, to, rel)) in
  let '(valid_from, valid_to) := edge_validity ix records in
  mkGraphEdge from to (RelationType_as_str rel) context (weight rel) valid_from valid_to records.

Definition edge_of ix (r : RelationRef) : GraphEdge :=
  ix_edge ix (rr_from r) (rr_to r) (rr_relation_type r) (rr_context r).

Definition relations_of ix (name : string) : list GraphEdge :=
  sort_edges (edge_of ix <$> relationships_of (ix_graph ix) name).

Definition ELLIPSIS : string := str_of_bytes [226; 128; 166]%N.

Definition cut_description (d : string) : string :=
  let cut := str_of_chars (take DESCRIPTION_CHARS (str_chars d)) in
  if (str_len cut <? str_len d)%nat then cut +:+ ELLIPSIS else cut.

Definition ix_record ix (id : Uuid) : option RecordView :=
  '(session_id, update) ← ix_records ix !! id;
  v ← ix_validity ix !! id;
  Some (mkRecordView id session_id (UpdateType_as_str (cu_update_type update)) (uc_title (cu_content update))
          (cut_description (uc_description (cu_content update))) (cu_author update) (cu_timestamp update)
          (um_confidence (cu_meta update)) (derived_from update) (file_path <$> related_code update) v).

Definition mentioning ix (name : string) : list RecordView := omap (ix_record ix) (mentions_of (ix_graph ix) name).

Definition of_kinds (kinds : list UpdateType) (r : RecordView) : bool :=
  bool_decide (rv_interaction_type r ∈ UpdateType_as_str <$> kinds).

(** ** The graph and one entity *)

Definition shown_at (at_ : option DateTime) (t : DateTime) : bool :=
  match at_ with None => true | Some a => (t <=? a)%Z end.

Definition edge_at (at_ : option DateTime) (e : GraphEdge) : bool :=
  match at_, ge_valid_from e with Some t, Some from => negb (t <? from)%Z | _, _ => true end.

Definition graph_view sc (limit : nat) (at_ : option DateTime) : option GraphView :=
  ix ← index sc;
  let g := ix_graph ix in
  let nodes := ix_node ix <$> retain (λ e, shown_at at_ (first_mentioned e)) (btree_values (entities g)) in
  let shown := take limit (sort_by_importance nodes) in
  let names : gset string := list_to_set (gn_name <$> shown) in
  let edges := retain (λ e, edge_at at_ e) (edge_of ix <$> relationships g) in
  let shown_edges := filter (λ e, ge_from e ∈ names ∧ ge_to e ∈ names) edges in
  Some (mkGraphView shown (sort_edges shown_edges) (length nodes) (length edges) at_).

Definition entity_view sc (name : string) (limit : nat) : option (option EntityView) :=
  ix ← index sc;
  Some (
    entity ← find_entity (ix_graph ix) name;
    let records := sort_by newest_cmp (mentioning ix (ed_name entity)) in
    let decisions := sort_by current_cmp (retain (λ r, of_kinds [DecisionMade] r) records) in
    Some (mkEntityView (ix_node ix entity) (relations_of ix (ed_name entity)) (take limit records)
            (take limit decisions) (length records))).

(** ** Impact *)

(** What one hop adds: the entities found first, and everything seen. *)
Definition hop_entry g (hop : nat) (st : gset string * list string * list ImpactItem) (i : ImpactEntry)
    : gset string * list string * list ImpactItem :=
  let '(seen, next, dependents) := st in
  if decide (ie_entity i ∈ seen) then st
  else
    ({[ie_entity i]} ∪ seen, next ++ [ie_entity i],
     dependents ++ [mkImpactItem (ie_entity i) ((λ e, EntityType_as_str (ed_entity_type e)) <$> entities g !! ie_entity i)
                      (depends_on i) (RelationType_as_str (ie_relation_type i)) (ie_context i) hop]).

Definition one_hop g (hop : nat) (frontier : list string) (seen : gset string) (dependents : list ImpactItem)
    : gset string * list string * list ImpactItem :=
  foldl (hop_entry g hop) (seen, [], dependents) (analyze_impact frontier g).

Fixpoint impact_hops g (hops_left hop : nat) (frontier : list string) (seen : gset string) (dependents : list ImpactItem)
    : list ImpactItem :=
  match hops_left with
  | O => dependents
  | S hops_left =>
    let '(seen, next, dependents) := one_hop g hop frontier seen dependents in
    if bool_decide (next = []) then dependents
    else impact_hops g hops_left (S hop) (sort_by str_cmp next) seen dependents
  end.

Definition risky : list UpdateType := [DecisionMade; RequirementAdded; ProblemSolved].

Definition add_risk (st : gset Uuid * list RecordView) (r : RecordView) : gset Uuid * list RecordView :=
  if is_current (rv_validity r) && of_kinds risky r && negb (bool_decide (rv_id r ∈ st.1))
  then ({[rv_id r]} ∪ st.1, st.2 ++ [r]) else st.

Definition impact_view sc (name : string) (depth limit : nat) : option (option ImpactView) :=
  ix ← index sc;
  Some (
    entity ← ed_name <$> find_entity (ix_graph ix) name;
    let dependents := impact_hops (ix_graph ix) (depth `max` 1) 1 [entity] {[entity]} [] in
    let risks := (foldl (λ st n, foldl add_risk st (mentioning ix n)) (∅, []) (entity :: (ii_entity <$> dependents))).2 in
    Some (mkImpactView entity dependents (take limit (sort_by newest_cmp risks)))).

(** ** The timeline *)

Definition record_event (id : Uuid) (su : Uuid * ContextUpdate) (at_ : DateTime) (kind : TimelineEventKind)
    (relation : option (string * string * string)) (reason : option EndReason) : TimelineEvent :=
  mkTimelineEvent at_ kind id su.1 (uc_title (cu_content su.2)) (UpdateType_as_str (cu_update_type su.2)) relation reason.

Definition record_events ix (isu : Uuid * (Uuid * ContextUpdate)) : option (list TimelineEvent) :=
  let '(id, su) := isu in
  v ← ix_validity ix !! id;
  Some (record_event id su (cu_timestamp su.2) Recorded None None
        :: match v_valid_to v with
           | Some end_ => [record_event id su end_ Ended None (v_reason v)]
           | None => []
           end).

Definition relation_events ix (kids : edge_key * list Uuid) : option (list TimelineEvent) :=
  let '((from, to, rel), ids) := kids in
  let relation := Some (from, to, RelationType_as_str rel) in
  let '(start, end_) := edge_validity ix ids in
  first ← ids !! 0%nat;
  su ← ix_records ix !! first;
  let added := match start with
               | Some start => [record_event first su start RelationAdded relation None]
               | None => []
               end in
  match end_ with
  | None => Some added
  | Some end_ =>
    let last := default first (last ids) in
    su ← ix_records ix !! last;
    v ← ix_validity ix !! last;
    Some (added ++ [record_event last su end_ RelationEnded relation (v_reason v)])
  end.

Definition in_window (from to : option DateTime) (e : TimelineEvent) : bool :=
  match from with None => true | Some f => (f <=? te_at e)%Z end
  && match to with None => true | Some t => (te_at e <=? t)%Z end.

Definition timeline sc (from to : option DateTime) (limit : nat) : option TimelineView :=
  ix ← index sc;
  records ← mapM (record_events ix) (iter_order (ix_records ix));
  relations ← mapM (relation_events ix) (iter_order (ix_edge_records ix));
  let events := sort_by event_cmp (retain (in_window from to) (concat records ++ concat relations)) in
  Some (mkTimelineView (last_of limit events) (length events)).

(** ** Topics *)

Definition topic_members (communities : gmap string nat) : gmap nat (list string) :=
  foldl (λ m nc, <[nc.2 := default [] (m !! nc.2) ++ [nc.1]]> m) ∅ (btree_iter communities).

(** The records that mention the topic, with how many members each names. *)
Definition count_mention ix (hits : gmap Uuid nat) (id : Uuid) : gmap Uuid nat :=
  if in_records ix id then <[id := S (default 0%nat (hits !! id))]> hits else hits.

Definition topic_hits ix (names : list string) : gmap Uuid nat :=
  foldl (λ hits n, foldl (count_mention ix) hits (mentions_of (ix_graph ix) n)) ∅ names.

Definition topic_view ix (per_topic : nat) (topic : nat * list string) : option TopicView :=
  let '(id, names) := topic in
  let central := ix_node ix <$> omap (λ n, entities (ix_graph ix) !! n) names in
  let hits := topic_hits ix names in
  times ← mapM (λ hn, (λ su, cu_timestamp su.2) <$> ix_records ix !! hn.1) (iter_order hits);
  let decisions := omap (λ hn, r ← ix_record ix hn.1;
                               if of_kinds [DecisionMade] r && is_current (rv_validity r) then Some (hn.2, r) else None)
                     (iter_order hits) in
  Some (mkTopicView id (length names) (take per_topic (sort_by_importance central))
          (take per_topic (sort_by decision_cmp decisions)).*2 (size hits) (min_time times) (max_time times)).

(** The subtraction wraps if it underflows. *)
Definition topics_view sc (limit per_topic : nat) : option TopicsView :=
  ix ← index sc;
  topics ← mapM (topic_view ix per_topic) (take limit (map_iter Nat.compare (topic_members (ix_communities ix))));
  Some (mkTopicsView topics
          (u64_sub (N.of_nat (size (entities (ix_graph ix)))) (N.of_nat (size (ix_communities ix))))).

(** ** Lineage *)

Definition causal : list RelationType := [CausedBy; LeadsTo; Solves].

Record CausalChain := mkCausalChain {
  ln_chain : list string;
  ln_seen : gset string;
  ln_edges : gset edge_key;
}.

Definition visit_causal (current : string) (hops : nat) (st : CausalChain * list (string * nat)) (rel : RelationRef)
    : CausalChain * list (string * nat) :=
  let '(l, pushed) := st in
  if decide (rr_relation_type rel ∈ causal) then
    let edges := {[(rr_from rel, rr_to rel, rr_relation_type rel)]} ∪ ln_edges l in
    let other := if String.eqb (rr_from rel) current then rr_to rel else rr_from rel in
    if decide (other ∈ ln_seen l) then (mkCausalChain (ln_chain l) (ln_seen l) edges, pushed)
    else (mkCausalChain (ln_chain l ++ [other]) ({[other]} ∪ ln_seen l) edges, pushed ++ [(other, (hops + 1)%nat)])
  else st.

Definition lineage_body g (depth : nat) (p : string * nat) (l : CausalChain) : flow (string * nat) CausalChain :=
  if (depth `max` 1 <=? p.2)%nat then Continue l []
  else let '(l, pushed) := foldl (visit_causal p.1 p.2) (l, []) (relationships_of g p.1) in Continue l pushed.

(** Enough turns: one per entity named by a relation, and the first. *)
Definition lineage_fuel g : nat := S (2 * length (relationships g)).

Definition lineage_search g (entity : string) (depth : nat) : option CausalChain :=
  while_pop (lineage_body g depth) (lineage_fuel g) [(entity, 0%nat)] (mkCausalChain [entity] {[entity]} ∅).

Definition add_step (st : gset Uuid * list LineageStep) (s : Uuid * option LineageStep) : gset Uuid * list LineageStep :=
  if decide (s.1 ∈ st.1) then st
  else ({[s.1]} ∪ st.1, st.2 ++ match s.2 with Some step => [step] | None => [] end).

Definition triple_cmp (a b : edge_key) : comparison :=
  then_with (str_cmp a.1.1 b.1.1) (then_with (str_cmp a.1.2 b.1.2) (RelationType_cmp a.2 b.2)).

(** The records that assert a causal edge. *)
Definition edge_steps ix (key : edge_key) : list (Uuid * option LineageStep) :=
  (λ id, (id, (λ r, mkLineageStep r (Some (key.1.1, key.1.2, RelationType_as_str key.2))) <$> ix_record ix id))
    <$> default [] (ix_edge_records ix !! key).

Definition lineage_view sc (name : string) (depth : nat) : option (option LineageView) :=
  ix ← index sc;
  match find_entity (ix_graph ix) name with
  | None => Some None
  | Some e =>
    let entity := ed_name e in
    l ← lineage_search (ix_graph ix) entity depth;
    let causes := sort_by triple_cmp (elements (ln_edges l)) ≫= edge_steps ix in
    let mentions := (λ r, (rv_id r, Some (mkLineageStep r None)))
                      <$> retain (of_kinds [ProblemSolved; DecisionMade]) (mentioning ix entity) in
    let steps := (foldl add_step (∅, []) (causes ++ mentions)).2 in
    Some (Some (mkLineageView entity (ln_chain l) (sort_by step_cmp steps)))
  end.

(** ** Files *)

(** Whether the entity's name or an alias names the file. *)
Definition names_file (wanted : list string) (e : EntityData) : bool :=
  let file_name := default "" (last wanted) in
  let stem := file_stem file_name in
  let stem_ok := (4 <=? length (str_chars stem))%nat && negb (bool_decide (stem ∈ GENERIC_STEMS)) in
  existsb (λ n, same_path (path_components n) wanted
                || (negb (String.eqb file_name "") && String.eqb n file_name)
                || (stem_ok && String.eqb (entity_key n) (entity_key stem)))
    (ed_name e :: aliases e).

Definition in_file (wanted : list string) (u : ContextUpdate) : bool :=
  match related_code u with Some c => same_path (path_components (file_path c)) wanted | None => false end.

Fixpoint file_hops g (hops_left hop : nat) (frontier : list string) (seen : gset string) (dependents : list ImpactItem)
    : list ImpactItem :=
  match hops_left with
  | O => dependents
  | S hops_left =>
    if bool_decide (frontier = []) then dependents
    else
      let '(seen, next, dependents) := one_hop g hop frontier seen dependents in
      file_hops g hops_left (S hop) (sort_by str_cmp next) seen dependents
  end.

Definition of_kind (records : list RecordView) (limit : nat) (kinds : list UpdateType) (current_only : bool)
    : list RecordView :=
  take limit (sort_by current_cmp
    (retain (λ r, negb current_only || is_current (rv_validity r)) (retain (of_kinds kinds) records))).

Definition file_view sc (path : string) (depth limit : nat) : option FileView :=
  ix ← index sc;
  let g := ix_graph ix in
  let wanted := path_components path in
  let entities := sort_by (λ a b, str_cmp (ed_name a) (ed_name b)) (retain (names_file wanted) (btree_values (entities g))) in
  let ids : gset Uuid :=
    list_to_set (cu_id <$> retain (in_file wanted) (map_updates (ix_records ix)))
    ∪ list_to_set (entities ≫= λ e, mentions_of g (ed_name e)) in
  let records := sort_by file_cmp (omap (ix_record ix) (set_iter ids)) in
  let names := ed_name <$> entities in
  Some (mkFileView path (take limit records) (of_kind records limit [ProblemSolved] false)
          (of_kind records limit [DecisionMade; RequirementAdded] true) (ix_node ix <$> entities)
          (file_hops g depth 1 names (list_to_set names) [])).

(** ** Radar *)

Definition solved g (name : string) : bool :=
  existsb (λ r, bool_decide (rr_relation_type r = Solves) && String.eqb (rr_to r) name) (relationships_of g name).

Definition without_rationale (u : ContextUpdate) : bool :=
  bool_decide (cu_update_type u = DecisionMade) && String.eqb (str_trim (uc_description (cu_content u))) ""
  && bool_decide (uc_details (cu_content u) = []).

Definition alias_candidate g (name other : string) : AliasCandidate :=
  let mine : gset Uuid := list_to_set (mentions_of g name) in
  mkAliasCandidate name other (length (filter (λ id, id ∈ mine) (mentions_of g other))).

(** Keys sharing the prefix follow the shorter one in sorted order. *)
Fixpoint prefix_pairs g (keyed : list (string * string)) : list AliasCandidate :=
  match keyed with
  | [] => []
  | (short, name) :: rest =>
    (if (length (str_chars short) <? 4)%nat then []
     else (λ ko, alias_candidate g name ko.2)
            <$> retain (λ ko, negb (String.eqb ko.1 short)) (take_while (λ ko, starts_with ko.1 short) rest))
    ++ prefix_pairs g rest
  end.

Definition keyed_cmp (a b : string * string) : comparison := then_with (str_cmp a.1 b.1) (str_cmp a.2 b.2).

Definition keyed_names g : list (string * string) :=
  sort_by keyed_cmp ((λ n, (entity_key n, n)) <$> btree_keys (entities g)).

Definition alias_candidates g (limit : nat) : list AliasCandidate :=
  take limit (sort_by candidate_cmp (prefix_pairs g (keyed_names g))).

Definition radar_view sc (now : DateTime) (limit : nat) : option RadarView :=
  ix ← index sc;
  let g := ix_graph ix in
  let nodes p := take limit (sort_by_importance (ix_node ix <$> retain p (btree_values (entities g)))) in
  let decisions := retain (λ r, is_current (rv_validity r))
                     (omap (λ u, ix_record ix (cu_id u)) (retain without_rationale (map_updates (ix_records ix)))) in
  let questions := question <$> retain (λ q, bool_decide (qi_status q = Open))
                                  (sessions sc ≫= λ s, open_questions (current_state s)) in
  let cutoff := (now - days STALE_AFTER_DAYS)%Z in
  Some (mkRadarView
    (nodes (λ e, bool_decide (ed_entity_type e = Problem) && negb (solved g (ed_name e))))
    (take limit (sort_by newest_cmp decisions)) (take limit questions)
    (nodes (λ e, (last_mentioned e <? cutoff)%Z)) (alias_candidates g limit)).
End views.

(** ** Requests *)

Definition DEFAULT_LIMIT : nat := 100.
Definition MAX_LIMIT : nat := 5000.

(** chrono's parsers: RFC 3339, and a date alone at midnight UTC. *)
Class Chrono := {
  parse_from_rfc3339 : string → option DateTime;
  parse_ymd_midnight : string → option DateTime;
}.

Definition parse_time `{Chrono} (v : string) : option DateTime :=
  match parse_from_rfc3339 v with Some t => Some t | None => parse_ymd_midnight v end.

Inductive ViewRequest :=
| VGraph (limit : nat) (at_ : option DateTime)
| VEntity (name : string) (limit : nat)
| VImpact (name : string) (depth limit : nat)
| VTimeline (from to : option DateTime) (limit : nat)
| VTopics (limit per_topic : nat)
| VLineage (name : string) (depth : nat)
| VRadar (limit : nat)
| VFile (path : string) (depth limit : nat).

Definition VIEW_NAMES : list string := ["graph"; "entity"; "impact"; "timeline"; "topics"; "lineage"; "radar"; "file"].

Section requests.
Context `{CH : Chrono}.

Definition get_param (params : gmap string string) (k : string) : option string :=
  v ← str_trim <$> params !! k;
  if String.eqb v "" then None else Some v.

(** [clamp(1, max)]. *)
Definition clamp_from_one (max : nat) (n : N) : nat := Nat.max 1 (N.to_nat (N.min n (N.of_nat max))).

Definition number_param (params : gmap string string) (k : string) (dflt max : nat) : result nat string :=
  match get_param params k with
  | None => Ok dflt
  | Some v =>
    match parse_u64 (str_bytes v) with
    | Some n => Ok (clamp_from_one max n)
    | None => Err (k +:+ (" must be a positive integer, got '" +:+ (v +:+ "'")))
    end
  end.

Definition time_param (params : gmap string string) (k : string) : result (option DateTime) string :=
  match get_param params k with
  | None => Ok None
  | Some v =>
    match parse_time v with
    | Some t => Ok (Some t)
    | None => Err (k +:+ (": not a date or RFC 3339 time: '" +:+ (v +:+ "'")))
    end
  end.

Definition name_param (params : gmap string string) (view : string) : result string string :=
  match get_param params "entity" with
  | Some v => Ok v
  | None =>
    match get_param params "entity_name" with
    | Some v => Ok v
    | None => Err ("view '" +:+ (view +:+ "' needs an 'entity' parameter"))
    end
  end.

Definition parse_request (view : string) (params : gmap string string) : result ViewRequest string :=
  try limit <- number_param params "limit" DEFAULT_LIMIT MAX_LIMIT;
  if String.eqb view "graph" then
    try at_ <- time_param params "at"; Ok (VGraph limit at_)
  else if String.eqb view "entity" then
    try name <- name_param params view; Ok (VEntity name limit)
  else if String.eqb view "impact" then
    try name <- name_param params view;
    try depth <- number_param params "depth" 3 10;
    Ok (VImpact name depth limit)
  else if String.eqb view "timeline" then
    try from <- time_param params "from";
    try to <- time_param params "to";
    Ok (VTimeline from to limit)
  else if String.eqb view "topics" then
    try per_topic <- number_param params "per_topic" 5 50; Ok (VTopics limit per_topic)
  else if String.eqb view "lineage" then
    try name <- name_param params view;
    try depth <- number_param params "depth" 3 10;
    Ok (VLineage name depth)
  else if String.eqb view "radar" then Ok (VRadar limit)
  else if String.eqb view "file" then
    try path <- match get_param params "path" with
                | Some p => Ok p
                | None => Err "view 'file' needs a 'path' parameter"
                end;
    try depth <- number_param params "depth" 2 10;
    try limit <- number_param params "limit" 20 MAX_LIMIT;
    Ok (VFile path depth limit)
  else Err ("unknown view '" +:+ (view +:+ ("'; expected one of " +:+ String.concat ", " VIEW_NAMES))).
End requests.

(** ** Rendering

    The JSON of a view is its fields; the error names the entity that is not
    in the scope. *)

Inductive ViewError := EntityNotFound (name : string).

Inductive View :=
| ViewGraph (v : GraphView)
| ViewEntity (v : EntityView)
| ViewImpact (v : ImpactView)
| ViewTimeline (v : TimelineView)
| ViewTopics (v : TopicsView)
| ViewLineage (v : LineageView)
| ViewRadar (v : RadarView)
| ViewFile (v : FileView).

Definition found (name : string) (v : option View) : result View ViewError :=
  match v with Some v => Ok v | None => Err (EntityNotFound name) end.

Definition render `{Unicode} `{Alphanumeric} `{Petgraph} `{Libm64} `{MapOrder} (now : DateTime) (sc : GraphScope)
    (request : ViewRequest) : option (result View ViewError) :=
  match request with
  | VGraph limit at_ => v ← graph_view sc limit at_; Some (Ok (ViewGraph v))
  | VEntity name limit => v ← entity_view sc name limit; Some (found name (ViewEntity <$> v))
  | VImpact name depth limit => v ← impact_view sc name depth limit; Some (found name (ViewImpact <$> v))
  | VTimeline from to limit => v ← timeline sc from to limit; Some (Ok (ViewTimeline v))
  | VTopics limit per_topic => v ← topics_view sc limit per_topic; Some (Ok (ViewTopics v))
  | VLineage name depth => v ← lineage_view sc name depth; Some (found name (ViewLineage <$> v))
  | VRadar limit => v ← radar_view sc now limit; Some (Ok (ViewRadar v))
  | VFile path depth limit => v ← file_view sc path depth limit; Some (Ok (ViewFile v))
  end.
