(* ===== verification/GraphViewsThms.v ===== *)
(** * Views over the knowledge graph: theorems

    [index] covers the records of the scope; the timeline is exact; impact
    analysis and lineage are bounded reachability; alias candidates by one
    scan of the sorted keys are all pairs; no view panics. *)

From stdpp Require Import gmap.
From S2P Require Import Prelude RustStd Bfs Collections StrLemmas F32 FloatOrder Types Petgraph EntityGraph GraphAnalytics EntityGraphWf EntityGraphInv EntityGraphSpec EntityGraphThms EntityQueriesThms ContextAssembly ContextAssemblyThms HotContext Session SessionThms Temporal LruCacheThms SearchResults RetrievalGraph RecordCodecs GraphViews.

Local Open Scope string_scope.
Local Open Scope list_scope.

(** ** The index *)

Section index.
Context `{U : Unicode} `{A : Alphanumeric} `{P : Petgraph} `{LM : Libm64} `{MO : MapOrder} {MOL : MapOrderLaws}.
Implicit Types (sc : GraphScope) (ix : Index) (g : SimpleEntityGraph).

Lemma scope_records_id sc id su : scope_records sc !! id = Some su → cu_id su.2 = id.
Proof.
  revert id su. unfold scope_records.
  apply (foldl_inv _ (λ m : gmap Uuid (Uuid * ContextUpdate), ∀ id su, m !! id = Some su → cu_id su.2 = id)).
  - intros m s _ Hm. apply (foldl_inv _ (λ m : gmap Uuid (Uuid * ContextUpdate), ∀ id su, m !! id = Some su → cu_id su.2 = id)); [|done].
    clear m Hm. intros m u _ Hm id su [[<- <-]|[_ Hid]]%lookup_insert_Some; [done|by apply Hm].
  - intros id su Hid. by rewrite lookup_empty in Hid.
Qed.

Lemma map_updates_ids (records : gmap Uuid (Uuid * ContextUpdate)) :
  (∀ id su, records !! id = Some su → cu_id su.2 = id) → cu_id <$> map_updates records = (iter_order records).*1.
Proof.
  intros Hids. unfold map_updates. rewrite <-!list_fmap_compose. apply list_fmap_ext. intros i [id su] Hi. simpl.
  apply Hids, elem_of_iter_order. by apply list_elem_of_lookup_2 in Hi.
Qed.

Lemma elem_of_map_updates (records : gmap Uuid (Uuid * ContextUpdate)) u :
  (∀ id su, records !! id = Some su → cu_id su.2 = id) →
  u ∈ map_updates records ↔ snd <$> records !! cu_id u = Some u.
Proof.
  intros Hids. unfold map_updates. rewrite list_elem_of_fmap. setoid_rewrite list_elem_of_fmap. split.
  - intros (su & -> & ([id su'] & -> & Hin%elem_of_iter_order)). simpl in *. by rewrite (Hids _ _ Hin), Hin.
  - intros (su & Hsu & ->)%fmap_Some. exists su. split; [done|]. exists (cu_id su.2, su). split; [done|].
    by apply elem_of_iter_order.
Qed.

Lemma NoDup_map_updates (records : gmap Uuid (Uuid * ContextUpdate)) :
  (∀ id su, records !! id = Some su → cu_id su.2 = id) → NoDup (cu_id <$> map_updates records).
Proof. intros Hids. rewrite map_updates_ids by done. rewrite iter_order_perm. apply NoDup_fst_map_to_list. Qed.

(** The records of the scope in time order, and those that assert a
    relation. *)
Definition ordered_records sc : list ContextUpdate := sort_by time_order (map_updates (scope_records sc)).

Definition asserts g (key : edge_key) (u : ContextUpdate) : bool :=
  bool_decide (key ∈ relation_triple g <$> creates_relationships u).

Definition asserting g (us : list ContextUpdate) (key : edge_key) : list Uuid := cu_id <$> retain (asserts g key) us.

Lemma add_edge_records_spec g (u : ContextUpdate) (rels : list EntityRelationship) (m : gmap (string * string * RelationType) (list Uuid)) (key : edge_key) :
  (∀ (key : edge_key) (ids : list Uuid), m !! key = Some ids → last ids ≠ Some (cu_id u)) →
  foldl (add_edge_record g u) m rels !! key
  = if decide (key ∈ relation_triple g <$> rels) then Some (default [] (m !! key) ++ [cu_id u]) else m !! key.
Proof.
  intros Hlast. induction rels as [|rel rels IH] using rev_ind; [done|].
  rewrite foldl_snoc, fmap_app. simpl. unfold add_edge_record at 1. set (k := relation_triple g rel) in *.
  destruct (decide (key = k)) as [->|Hne].
  - rewrite lookup_insert_eq, (decide_True (P := k ∈ _ ++ [k])) by (apply elem_of_app; right; by left). rewrite IH. case_decide as Hk.
    + simpl. by rewrite last_snoc, decide_True.
    + rewrite decide_False; [done|]. destruct (m !! k) as [ids|] eqn:Hids; [by eapply Hlast|done].
  - rewrite lookup_insert_ne by done. rewrite IH. apply decide_ext. rewrite elem_of_app, list_elem_of_singleton. naive_solver.
Qed.

Lemma asserting_snoc g us u key :
  asserting g (us ++ [u]) key = asserting g us key ++ (if asserts g key u then [cu_id u] else []).
Proof.
  unfold asserting, retain. rewrite filter_app, fmap_app. f_equal. rewrite filter_cons, filter_nil.
  destruct (asserts g key u); [by rewrite decide_True|by rewrite decide_False].
Qed.

Lemma asserting_ids g us key id : id ∈ asserting g us key → id ∈ cu_id <$> us.
Proof. unfold asserting. rewrite !list_elem_of_fmap. intros (u & -> & [Hu _]%elem_of_retain). by exists u. Qed.

Lemma edge_records_spec g (us : list ContextUpdate) (key : edge_key) :
  NoDup (cu_id <$> us) →
  foldl (λ m u, foldl (add_edge_record g u) m (creates_relationships u)) ∅ us !! key
  = if decide (asserting g us key = []) then None else Some (asserting g us key).
Proof.
  revert key. induction us as [|u us IH] using rev_ind; intros key Hnd; [apply lookup_empty|].
  rewrite fmap_app in Hnd. apply NoDup_app in Hnd as (Hnd & Hu & _). rewrite foldl_snoc. simpl.
  rewrite add_edge_records_spec.
  - rewrite IH, asserting_snoc by done. destruct (asserts g key u) eqn:Hk; unfold asserts in Hk.
    + apply bool_decide_eq_true in Hk. rewrite decide_True, (decide_False (P := _ ++ _ = [])) by (try done; by intros [_ ?]%app_nil).
      by case_decide as Hn; [rewrite Hn|].
    + apply bool_decide_eq_false in Hk. by rewrite decide_False, app_nil_r.
  - intros k ids Hids Hlast. rewrite IH in Hids by done. case_decide; [done|]. injection Hids as <-.
    apply last_Some_elem_of, asserting_ids in Hlast. apply (Hu _ Hlast). by left.
Qed.

Record index_ok sc ix : Prop := {
  io_graph : ix_graph ix = gs_graph sc;
  io_records : ix_records ix = scope_records sc;
  io_validity : validity (map_updates (scope_records sc)) (gs_graph sc) = Some (ix_validity ix);
  io_valid id : is_Some (ix_validity ix !! id) ↔ is_Some (scope_records sc !! id);
  io_edges key : ix_edge_records ix !! key
    = if decide (asserting (gs_graph sc) (ordered_records sc) key = []) then None
      else Some (asserting (gs_graph sc) (ordered_records sc) key);
  io_communities a c : ix_communities ix !! a = Some c → is_Some (entities (gs_graph sc) !! a);
}.

Lemma ordered_ids sc : NoDup (cu_id <$> ordered_records sc).
Proof. unfold ordered_records. rewrite sort_by_perm. apply NoDup_map_updates, scope_records_id. Qed.

Lemma elem_of_ordered sc u : u ∈ ordered_records sc ↔ snd <$> scope_records sc !! cu_id u = Some u.
Proof. unfold ordered_records. rewrite sort_by_perm. apply elem_of_map_updates, scope_records_id. Qed.

Lemma elem_of_record_ids sc id : id ∈ cu_id <$> map_updates (scope_records sc) ↔ is_Some (scope_records sc !! id).
Proof.
  rewrite map_updates_ids by apply scope_records_id. rewrite list_elem_of_fmap. split.
  - intros ([id' su] & -> & Hin%elem_of_iter_order). by exists su.
  - intros [su Hsu]. exists (id, su). split; [done|by apply elem_of_iter_order].
Qed.

Lemma index_spec sc : ∃ ix, index sc = Some ix ∧ index_ok sc ix.
Proof.
  unfold index. destruct (validity_computes (gs_graph sc) (map_updates (scope_records sc))) as (V & HV & HVd & _).
  { apply NoDup_map_updates, scope_records_id. }
  destruct (importance_total (gs_graph sc)) as (imp & Himp & _).
  destruct (communities_spec (gs_graph sc)) as (com & Hcom & Hlabels).
  rewrite HV. cbn [mbind option_bind]. rewrite Himp. cbn [mbind option_bind]. rewrite Hcom. cbn [mbind option_bind].
  eexists. split; [done|]. split; cbn [ix_graph ix_records ix_validity ix_edge_records ix_communities]; try done.
  - intros id. by rewrite HVd, elem_of_record_ids.
  - intros key. apply edge_records_spec, ordered_ids.
  - intros a c Ha. by eapply (cl_entities _ _ Hlabels).
Qed.
End index.

(** ** Orders *)

(** [a.cmp(b).then_with(..)]: the first comparator must say the opposite of
    swapped arguments. *)
Lemma lexicographic_preorder {A} (c1 c2 : A → A → comparison) :
  TotalPreorder c1 → TotalPreorder c2 → (∀ a b, c1 b a = CompOpp (c1 a b)) → TotalPreorder (λ a b, then_with (c1 a b) (c2 a b)).
Proof.
  intros H1 H2 Hopp. split.
  - intros a b. unfold cmp_le, then_with. rewrite (Hopp a b).
    destruct (c1 a b); simpl; [apply (cmp_le_total (cmp := c2))|by left|by right].
  - intros a b c. pose proof (cmp_le_trans (cmp := c1) a b c) as Hac. pose proof (cmp_le_trans (cmp := c1) c a b) as Hcb.
    pose proof (cmp_le_trans (cmp := c1) b c a) as Hba. pose proof (cmp_le_trans (cmp := c2) a b c).
    unfold cmp_le, then_with in *. rewrite (Hopp a b), (Hopp b c), (Hopp a c) in *.
    destruct (c1 a b), (c1 b c), (c1 a c); simpl in *; try done; intuition congruence.
Qed.

#[global] Instance N_compare_preorder : TotalPreorder N.compare.
Proof. split; intros x y; [|intros z]; unfold cmp_le; rewrite !N.compare_le_iff; lia. Qed.
#[global] Instance nat_compare_preorder : TotalPreorder Nat.compare.
Proof. split; intros x y; [|intros z]; unfold cmp_le; rewrite !Nat.compare_le_iff; lia. Qed.

Lemma str_cmp_opp a b : str_cmp b a = CompOpp (str_cmp a b).
Proof. apply String.compare_antisym. Qed.

#[global] Instance event_cmp_preorder : TotalPreorder event_cmp.
Proof.
  apply (lexicographic_preorder (λ a b, Z.compare (te_at a) (te_at b)));
    [apply _| |intros a b; apply Z.compare_antisym].
  apply (lexicographic_preorder (λ a b, Nat.compare (kind_order (te_kind a)) (kind_order (te_kind b))));
    [exact (pulled_preorder Nat.compare (λ e, kind_order (te_kind e)))|exact (pulled_preorder N.compare te_record)|].
  intros a b. apply Nat.compare_antisym.
Qed.

#[global] Instance candidate_cmp_preorder : TotalPreorder candidate_cmp.
Proof.
  apply (lexicographic_preorder (λ a b, Nat.compare (shared_records b) (shared_records a)));
    [exact (pulled_preorder (λ x y, Nat.compare y x) shared_records)| |intros a b; apply Nat.compare_antisym].
  apply (lexicographic_preorder (λ a b, str_cmp (ac_name a) (ac_name b)));
    [exact (pulled_preorder str_cmp ac_name)|exact (pulled_preorder str_cmp ac_of)|intros a b; apply str_cmp_opp].
Qed.

#[global] Instance keyed_cmp_preorder : TotalPreorder keyed_cmp.
Proof.
  apply (lexicographic_preorder (λ a b : string * string, str_cmp a.1 b.1));
    [exact (pulled_preorder str_cmp fst)|exact (pulled_preorder str_cmp snd)|intros a b; apply str_cmp_opp].
Qed.

#[global] Instance step_cmp_preorder : TotalPreorder step_cmp.
Proof.
  apply (lexicographic_preorder (λ a b, Z.compare (rv_timestamp (ls_record a)) (rv_timestamp (ls_record b))));
    [apply _|exact (pulled_preorder N.compare (λ s, rv_id (ls_record s)))|intros a b; apply Z.compare_antisym].
Qed.

(** ** Extrema *)

Lemma min_time_spec ts m : min_time ts = Some m ↔ m ∈ ts ∧ ∀ t, t ∈ ts → (m ≤ t)%Z.
Proof.
  revert m. unfold min_time. induction ts as [|t ts IH] using rev_ind; intros m.
  - split; [done|]. by intros [?%elem_of_nil _].
  - rewrite foldl_snoc. destruct (foldl _ None ts) as [m'|] eqn:Hm'.
    + destruct (IH m') as [[Hin Hle] _]; [done|]. split.
      * intros [= <-]. split.
        { apply elem_of_app. destruct (Z.min_spec m' t) as [[_ ->]|[_ ->]]; [by left|right; by left]. }
        intros t' [Ht'%Hle| ->%list_elem_of_singleton]%elem_of_app; lia.
      * intros [[Hm| ->%list_elem_of_singleton]%elem_of_app Hall]; f_equal.
        { pose proof (Hle m Hm). pose proof (Hall m' ltac:(apply elem_of_app; by left)).
          pose proof (Hall t ltac:(apply elem_of_app; right; by left)). lia. }
        pose proof (Hall m' ltac:(apply elem_of_app; by left)). lia.
    + assert (ts = []) as ->.
      { destruct ts as [|t' ts] using rev_ind; [done|]. rewrite foldl_snoc in Hm'. done. }
      simpl. split; [intros [= <-]; split; [by left|by intros t' ->%list_elem_of_singleton]|].
      by intros [->%list_elem_of_singleton _].
Qed.

Lemma max_min ts : max_time ts = Z.opp <$> min_time (Z.opp <$> ts).
Proof.
  unfold max_time, min_time. induction ts as [|t ts IH] using rev_ind; [done|].
  rewrite fmap_app, !foldl_app, IH. simpl. destruct (foldl _ None (Z.opp <$> ts)) as [m|]; simpl; f_equal; lia.
Qed.

Lemma max_time_spec ts m : max_time ts = Some m ↔ m ∈ ts ∧ ∀ t, t ∈ ts → (t ≤ m)%Z.
Proof.
  rewrite max_min, fmap_Some. setoid_rewrite min_time_spec. setoid_rewrite list_elem_of_fmap. split.
  - intros (m' & [(t & -> & Ht) Hle] & ->). rewrite Z.opp_involutive. split; [done|]. intros t' Ht'.
    pose proof (Hle (- t')%Z ltac:(eauto)). lia.
  - intros [Hm Hle]. exists (- m)%Z. split; [|lia]. split; [eauto|]. intros t (t' & -> & Ht'). pose proof (Hle t' Ht'). lia.
Qed.

Lemma min_time_Some ts : ts ≠ [] → is_Some (min_time ts).
Proof. unfold min_time. destruct ts as [|t ts _] using rev_ind; [done|]. rewrite foldl_snoc. done. Qed.

Lemma max_time_Some ts : ts ≠ [] → is_Some (max_time ts).
Proof. intros Hts. rewrite max_min. apply fmap_is_Some, min_time_Some. by destruct ts. Qed.

Lemma last_of_drop {A} limit (xs : list A) : last_of limit xs = drop (length xs - limit) xs.
Proof.
  unfold last_of. destruct (Nat.ltb_spec limit (length xs)); [done|]. by replace (length xs - limit)%nat with 0%nat by lia.
Qed.

(** ** What happened *)

Section timeline.
Context `{U : Unicode} `{A : Alphanumeric} `{P : Petgraph} `{LM : Libm64} `{MO : MapOrder} {MOL : MapOrderLaws}.
Implicit Types (sc : GraphScope) (ix : Index) (g : SimpleEntityGraph).

(** The first start and the last end of the intervals of [ids]. *)
Definition first_start (V : gmap Uuid Validity) (ids : list Uuid) (s : DateTime) : Prop :=
  (∃ id v, id ∈ ids ∧ V !! id = Some v ∧ v_valid_from v = s)
  ∧ ∀ id v, id ∈ ids → V !! id = Some v → (s ≤ v_valid_from v)%Z.

Definition last_end (V : gmap Uuid Validity) (ids : list Uuid) (e : DateTime) : Prop :=
  (∃ id v, id ∈ ids ∧ V !! id = Some v ∧ v_valid_to v = Some e)
  ∧ ∀ id v, id ∈ ids → V !! id = Some v → ∃ e', v_valid_to v = Some e' ∧ (e' ≤ e)%Z.

Lemma edge_validity_spec ix ids :
  ids ≠ [] → (∀ id, id ∈ ids → is_Some (ix_validity ix !! id)) →
  (∃ s, (edge_validity ix ids).1 = Some s) ∧ (∀ s, (edge_validity ix ids).1 = Some s ↔ first_start (ix_validity ix) ids s)
  ∧ ∀ e, (edge_validity ix ids).2 = Some e ↔ last_end (ix_validity ix) ids e.
Proof.
  intros Hne Hall. set (vs := omap (λ id, ix_validity ix !! id) ids).
  assert (∀ v, v ∈ vs ↔ ∃ id, id ∈ ids ∧ ix_validity ix !! id = Some v) as Hvs by (intros v; apply list_elem_of_omap).
  assert (vs ≠ []) as Hvne.
  { destruct ids as [|id ids]; [done|]. destruct (Hall id) as [v Hv]; [by left|]. unfold vs. simpl. by rewrite Hv. }
  unfold edge_validity. fold vs. simpl. split_and!.
  - apply min_time_Some. by destruct vs.
  - intros s. rewrite min_time_spec, list_elem_of_fmap. unfold first_start. setoid_rewrite list_elem_of_fmap. setoid_rewrite Hvs.
    split.
    + intros [(v & -> & id & Hid & Hv) Hle]. split; [by exists id, v|]. intros id' v' Hid' Hv'. apply Hle. eauto.
    + intros [(id & v & Hid & Hv & <-) Hle]. split; [by eauto|]. intros t (v' & -> & id' & Hid' & Hv'). by eapply Hle.
  - intros e. unfold last_end. destruct (existsb is_current vs) eqn:Hcur.
    + split; [done|]. intros [_ Hle]. apply existsb_exists in Hcur as (v & Hv & Hc). apply list_elem_of_In, Hvs in Hv as (id & Hid & Hv).
      destruct (Hle id v Hid Hv) as (e' & He' & _). unfold is_current in Hc. apply bool_decide_eq_true in Hc. congruence.
    + assert (∀ v, v ∈ vs → is_Some (v_valid_to v)) as Hto.
      { intros v Hv. destruct (v_valid_to v) eqn:Hvt; [done|]. apply not_true_iff_false in Hcur. destruct Hcur.
        apply existsb_exists. exists v. split; [by apply list_elem_of_In|]. by apply bool_decide_eq_true. }
      rewrite max_time_spec. setoid_rewrite list_elem_of_omap. setoid_rewrite Hvs. split.
      * intros [(v & (id & Hid & Hv) & He) Hle]. split; [by exists id, v|]. intros id' v' Hid' Hv'.
        destruct (Hto v') as [e' He']; [apply Hvs; eauto|]. exists e'. split; [done|]. apply Hle. eauto.
      * intros [(id & v & Hid & Hv & He) Hle]. split; [by eauto|]. intros t (v' & (id' & Hid' & Hv') & Ht).
        destruct (Hle id' v' Hid' Hv') as (e' & He' & Hlt). rewrite Ht in He'. by injection He' as <-.
Qed.

Inductive record_happened sc (V : gmap Uuid Validity) (id : Uuid) : TimelineEvent → Prop :=
  | happened_recorded su :
      scope_records sc !! id = Some su →
      record_happened sc V id (record_event id su (cu_timestamp su.2) Recorded None None)
  | happened_ended su v e :
      scope_records sc !! id = Some su → V !! id = Some v → v_valid_to v = Some e →
      record_happened sc V id (record_event id su e Ended None (v_reason v)).

(** A relation begins with the first record that asserts it and ends when
    all of them have ended. *)
Inductive relation_happened sc (V : gmap Uuid Validity) (key : edge_key) : TimelineEvent → Prop :=
  | happened_added first su s :
      head (asserting (gs_graph sc) (ordered_records sc) key) = Some first → scope_records sc !! first = Some su →
      first_start V (asserting (gs_graph sc) (ordered_records sc) key) s →
      relation_happened sc V key
        (record_event first su s RelationAdded (Some (key.1.1, key.1.2, RelationType_as_str key.2)) None)
  | happened_over last_ su v e :
      last (asserting (gs_graph sc) (ordered_records sc) key) = Some last_ → scope_records sc !! last_ = Some su →
      V !! last_ = Some v → last_end V (asserting (gs_graph sc) (ordered_records sc) key) e →
      relation_happened sc V key
        (record_event last_ su e RelationEnded (Some (key.1.1, key.1.2, RelationType_as_str key.2)) (v_reason v)).

Lemma record_events_spec sc ix id su :
  index_ok sc ix → scope_records sc !! id = Some su →
  ∃ es, record_events ix (id, su) = Some es ∧ NoDup es ∧ ∀ e, e ∈ es ↔ record_happened sc (ix_validity ix) id e.
Proof.
  intros Hok Hsu. unfold record_events. destruct (proj2 (io_valid _ _ Hok id)) as [v Hv]; [by eauto|].
  rewrite Hv. cbn [mbind option_bind]. eexists. split; [done|]. split.
  - destruct (v_valid_to v); [|apply NoDup_singleton]. apply NoDup_cons. split; [by intros [=]%list_elem_of_singleton|apply NoDup_singleton].
  - intros e. rewrite elem_of_cons. split.
    + intros [->|He]; [by constructor|]. destruct (v_valid_to v) as [t|] eqn:Ht; [|by apply not_elem_of_nil in He].
      apply list_elem_of_singleton in He as ->. by econstructor.
    + intros [su' Hsu'|su' v' t Hsu' Hv' Ht]; simplify_eq; [by left|]. right. rewrite Ht. by left.
Qed.

Lemma asserting_known sc key id :
  id ∈ asserting (gs_graph sc) (ordered_records sc) key → is_Some (scope_records sc !! id).
Proof. intros Hid%asserting_ids. apply elem_of_record_ids. unfold ordered_records in Hid. by rewrite sort_by_perm in Hid. Qed.

Lemma relation_events_spec sc ix key ids :
  index_ok sc ix → ids = asserting (gs_graph sc) (ordered_records sc) key → ids ≠ [] →
  ∃ es, relation_events ix (key, ids) = Some es ∧ NoDup es ∧ ∀ e, e ∈ es ↔ relation_happened sc (ix_validity ix) key e.
Proof.
  intros Hok Hids Hne. destruct key as [[from to] rel]. unfold relation_events.
  assert (∀ id, id ∈ ids → is_Some (scope_records sc !! id)) as Hknown by (intros id; rewrite Hids; apply asserting_known).
  destruct (edge_validity_spec ix ids Hne) as ((s & Hs) & Hstart & Hend).
  { intros id Hid. by apply (io_valid _ _ Hok), Hknown. }
  destruct (edge_validity ix ids) as [start end_]. simpl in Hs, Hstart, Hend. subst start.
  destruct ids as [|first ids]; [done|]. cbn [lookup list_lookup mbind option_bind].
  destruct (Hknown first) as [su Hsu]; [by left|]. rewrite (io_records _ _ Hok), Hsu. cbn [mbind option_bind].
  destruct (last_is_Some (first :: ids)) as [_ Hl]. destruct Hl as [last_ Hlast]; [done|]. 
  destruct (Hknown last_) as [su' Hsu']; [by apply last_Some_elem_of|].
  destruct (proj2 (io_valid _ _ Hok last_)) as [v Hv]; [by eauto|].
  set (added := record_event first su s RelationAdded _ None).
  exists (added :: match end_ with Some e => [record_event last_ su' e RelationEnded (Some (from, to, RelationType_as_str rel)) (v_reason v)]
                   | None => [] end). split; [destruct end_; [|done]; cbn [default]; rewrite Hlast; cbn [default from_option id]; by rewrite Hsu', Hv|]. split.
  - destruct end_; [|apply NoDup_singleton]. apply NoDup_cons. split; [by intros [=]%list_elem_of_singleton|apply NoDup_singleton].
  - intros e. rewrite elem_of_cons. split.
    + intros [->|He].
      * apply (happened_added sc _ (from, to, rel)); [by rewrite <-Hids|done|rewrite <-Hids; by apply Hstart].
      * destruct end_ as [t|]; [|by apply not_elem_of_nil in He]. apply list_elem_of_singleton in He as ->.
        apply (happened_over sc _ (from, to, rel)); [by rewrite <-Hids|done|done|rewrite <-Hids; by apply Hend].
    + intros [first' su1 s' Hf Hsu1 Hs'|last' su1 v' e' Hl Hsu1 Hv' He']; rewrite <-Hids in *.
      * left. simpl in Hf. apply Hstart in Hs'. simplify_eq. done.
      * right. apply Hend in He'. simplify_eq. simpl. by left.
Qed.
(** What a loop collects from elements that have nothing in common. *)
Lemma mapM_concat {X Y} (f : X → option (list Y)) (Q : X → Y → Prop) xs :
  (∀ x, x ∈ xs → ∃ ys, f x = Some ys ∧ NoDup ys ∧ ∀ y, y ∈ ys ↔ Q x y) → NoDup xs →
  (∀ x x' y, Q x y → Q x' y → x = x') →
  ∃ yss, mapM f xs = Some yss ∧ NoDup (concat yss) ∧ ∀ y, y ∈ concat yss ↔ ∃ x, x ∈ xs ∧ Q x y.
Proof.
  intros Hf Hnd Hinj. induction Hnd as [|x xs Hx Hnd IH].
  { exists []. split_and!; [done|constructor|]. intros y. split; [by intros ?%elem_of_nil|by intros (x & ?%elem_of_nil & _)]. }
  destruct IH as (yss & Heq & Hndy & Hin); [intros y Hy; apply Hf; by right|].
  destruct (Hf x) as (ys & Hys & Hndx & Hinx); [by left|]. exists (ys :: yss). split_and!.
  - change (f x ≫= (λ y, mapM f xs ≫= λ k, Some (y :: k)) = Some (ys :: yss)). by rewrite Hys; simpl; rewrite Heq.
  - simpl. apply NoDup_app. split_and!; [done| |done]. intros y Hy (x' & Hx' & Hq)%Hin. apply Hinx in Hy.
    by rewrite (Hinj x x' y Hy Hq) in Hx.
  - intros y. simpl. rewrite elem_of_app, Hinx, Hin. setoid_rewrite elem_of_cons. split.
    + intros [Hq|(x' & Hx' & Hq)]; eauto.
    + intros (x' & [->|Hx'] & Hq); eauto.
Qed.

Lemma record_happened_kind sc V id e :
  record_happened sc V id e → te_record e = id ∧ te_relation e = None.
Proof. by intros []. Qed.

Lemma RelationType_as_str_eq a b : RelationType_as_str a = RelationType_as_str b → a = b.
Proof. by destruct a, b. Qed.

Lemma relation_happened_kind sc V (key : edge_key) e :
  relation_happened sc V key e → te_relation e = Some (key.1.1, key.1.2, RelationType_as_str key.2).
Proof. by intros []. Qed.

Lemma timeline_spec sc from to limit :
  ∃ V all out,
    validity (map_updates (scope_records sc)) (gs_graph sc) = Some V ∧ timeline sc from to limit = Some out
    ∧ NoDup all ∧ StronglySorted (cmp_le event_cmp) all
    ∧ (∀ e, e ∈ all ↔ in_window from to e = true
         ∧ ((∃ id, record_happened sc V id e) ∨ ∃ key, relation_happened sc V key e))
    ∧ tl_total out = length all ∧ tl_events out = drop (length all - limit) all.
Proof.
  unfold timeline. destruct (index_spec sc) as (ix & -> & Hok). cbn [mbind option_bind].
  destruct (mapM_concat (record_events ix) (λ isu e, scope_records sc !! isu.1 = Some isu.2 ∧ record_happened sc (ix_validity ix) isu.1 e)
    (iter_order (ix_records ix))) as (recs & Hrecs & Hndr & Hinr).
  { intros [id su] Hin%elem_of_iter_order. rewrite (io_records _ _ Hok) in Hin.
    destruct (record_events_spec sc ix id su Hok Hin) as (es & ? & ? & Hes). exists es. split_and!; [done..|].
    intros e. rewrite Hes. simpl. tauto. }
  { rewrite iter_order_perm. apply NoDup_map_to_list. }
  { intros [id su] [id' su'] e [H1 [Hk _]%record_happened_kind] [H2 [Hk' _]%record_happened_kind]. simpl in *. congruence. }
  destruct (mapM_concat (relation_events ix)
    (λ kids e, ix_edge_records ix !! kids.1 = Some kids.2 ∧ relation_happened sc (ix_validity ix) kids.1 e)
    (iter_order (ix_edge_records ix))) as (rels & Hrels & Hndl & Hinl).
  { intros [key ids] Hin%elem_of_iter_order. pose proof Hin as Hids. rewrite (io_edges _ _ Hok) in Hids. case_decide as Hne; [done|].
    injection Hids as Hids. destruct (relation_events_spec sc ix key ids Hok) as (es & ? & ? & Hes); [done|by rewrite <-Hids|].
    exists es. split_and!; [done..|]. intros e. rewrite Hes. simpl. tauto. }
  { rewrite iter_order_perm. apply NoDup_map_to_list. }
  { intros [[[f t] r] ids] [[[f' t'] r'] ids'] e [H1 Hk%relation_happened_kind] [H2 Hk'%relation_happened_kind]. simpl in *.
    rewrite Hk in Hk'. injection Hk' as -> -> ->%RelationType_as_str_eq. congruence. }
  rewrite Hrecs. cbn [mbind option_bind]. rewrite Hrels. cbn [mbind option_bind].
  set (all := sort_by event_cmp _). exists (ix_validity ix), all. eexists. split; [apply Hok|]. split; [done|].
  split_and!; [| | |done|apply last_of_drop].
  - unfold all. rewrite sort_by_perm. apply NoDup_filter, NoDup_app. split_and!; [done| |done].
    intros e ([id su] & _ & _ & [_ Hr]%record_happened_kind)%Hinr ([key ids] & _ & _ & Hk%relation_happened_kind)%Hinl. congruence.
  - apply sort_by_sorted. apply _.
  - intros e. unfold all. rewrite sort_by_perm, elem_of_retain, elem_of_app, Hinr, Hinl. split.
    + intros [[([id su] & _ & _ & He)|([key ids] & _ & _ & He)] Hw]; eauto.
    + intros [Hw [[id He]|[key He]]]; split; try done.
      * left. assert (∃ su, scope_records sc !! id = Some su) as [su Hsu] by (destruct He; eauto). exists (id, su).
        split; [|done]. apply elem_of_iter_order. by rewrite (io_records _ _ Hok).
      * right. assert (∃ ids, ix_edge_records ix !! key = Some ids) as [ids Hids].
        { rewrite (io_edges _ _ Hok). case_decide as Hn; [|by eexists]. by destruct He as [????|?????]; rewrite Hn in *. }
        exists (key, ids). split; [|done]. by apply elem_of_iter_order.
Qed.

(** C29: The timeline is exact.  [all] are the events that happened in the
    window, once each and in time order: every record of the scope is
    recorded when it was written and ended when its validity ended; every
    relation is added at the first start of the records that assert it, and
    ended, once all of them have, at the last end.  The view counts them all
    and shows the latest [limit]; it never panics. *)
Theorem timeline_exact sc from to limit :
  ∃ V all out,
    validity (map_updates (scope_records sc)) (gs_graph sc) = Some V ∧ timeline sc from to limit = Some out
    ∧ NoDup all ∧ StronglySorted (cmp_le event_cmp) all
    ∧ (∀ e, e ∈ all ↔ in_window from to e = true
         ∧ ((∃ id, record_happened sc V id e) ∨ ∃ key, relation_happened sc V key e))
    ∧ tl_total out = length all ∧ tl_events out = drop (length all - limit) all.
Proof. apply timeline_spec. Qed.
End timeline.

(** ** Prefixes in sorted order *)

Lemma ascii_compare_refl c : Ascii.compare c c = Eq.
Proof. apply N.compare_refl. Qed.

Lemma starts_with_cons c s d p : starts_with (String c s) (String d p) = true ↔ c = d ∧ starts_with s p = true.
Proof.
  unfold starts_with. rewrite !bool_decide_eq_true. change (str_len (String d p)) with (S (str_len p)).
  change (str_bytes (String c s)) with (Ascii.N_of_ascii c :: str_bytes s).
  change (str_bytes (String d p)) with (Ascii.N_of_ascii d :: str_bytes p). cbn [take]. split.
  - intros [= Hc Hs]. split; [|done]. by rewrite <-(Ascii.ascii_N_embedding c), Hc, Ascii.ascii_N_embedding.
  - intros [-> Hs]. by rewrite Hs.
Qed.

(** What lies between a text and one of its extensions extends it too. *)
Lemma prefix_between x y z :
  cmp_le str_cmp x y → cmp_le str_cmp y z → starts_with z x = true → starts_with y x = true.
Proof.
  revert y z. induction x as [|c x IH]; intros y z Hxy Hyz Hzx; [by apply bool_decide_eq_true|].
  destruct z as [|d z]; [by apply bool_decide_eq_true in Hzx|]. apply starts_with_cons in Hzx as [-> Hzx].
  destruct y as [|e y]; [done|]. unfold cmp_le, str_cmp in *. simpl in Hxy, Hyz.
  destruct (Ascii.compare c e) eqn:Hce; [|rewrite Ascii.compare_antisym, Hce in Hyz; done|done].
  apply Ascii.compare_eq_iff in Hce as ->. rewrite ascii_compare_refl in Hyz.
  apply starts_with_cons. split; [done|]. by eapply IH.
Qed.

Lemma prefix_le x z : starts_with z x = true → cmp_le str_cmp x z.
Proof.
  revert z. induction x as [|c x IH]; intros z Hzx; [by destruct z|].
  destruct z as [|d z]; [by apply bool_decide_eq_true in Hzx|]. apply starts_with_cons in Hzx as [-> Hzx].
  unfold cmp_le, str_cmp in *. simpl. rewrite ascii_compare_refl. by apply IH.
Qed.

Lemma elem_of_take_while {A} (R : relation A) (p : A → bool) xs :
  StronglySorted R xs → (∀ y z, y ∈ xs → z ∈ xs → R y z → p z = true → p y = true) →
  ∀ y, y ∈ take_while p xs ↔ y ∈ xs ∧ p y = true.
Proof.
  intros Hs Hp y. induction Hs as [|x xs Hs IH Hx]; cbn [take_while]; [by rewrite elem_of_nil; tauto|].
  rewrite Forall_forall in Hx. destruct (p x) eqn:Hpx.
  - rewrite !elem_of_cons, IH; [naive_solver|]. intros y' z Hy Hz. apply Hp; by right.
  - rewrite elem_of_nil, elem_of_cons. split; [done|]. intros [[->|Hy] Hpy]; [congruence|].
    enough (p x = true) by congruence. by apply (Hp x y); [left|right|apply Hx|].
Qed.

Lemma sublist_take_while {A} (p : A → bool) xs : sublist (take_while p xs) xs.
Proof.
  induction xs as [|x xs IH]; [done|]. cbn [take_while]. destruct (p x); [by apply sublist_skip|apply sublist_nil_l].
Qed.

Section aliases.
Context `{U : Unicode} `{P : Petgraph}.
Implicit Types (g : SimpleEntityGraph).

(** The key of the first is a proper prefix, of four characters or more, of
    the key of the second. *)
Definition shortens (a b : string * string) : Prop :=
  (4 ≤ length (str_chars a.1))%nat ∧ starts_with b.1 a.1 = true ∧ b.1 ≠ a.1.

Lemma keyed_le (a b : string * string) : cmp_le keyed_cmp a b → cmp_le str_cmp a.1 b.1.
Proof. unfold cmp_le, keyed_cmp, then_with. by destruct (str_cmp a.1 b.1). Qed.

Lemma elem_of_prefix_pairs g keyed c :
  StronglySorted (cmp_le keyed_cmp) keyed →
  c ∈ prefix_pairs g keyed ↔ ∃ a b, a ∈ keyed ∧ b ∈ keyed ∧ shortens a b ∧ c = alias_candidate g a.2 b.2.
Proof.
  induction 1 as [|[short name] rest Hs IH Hx]; [cbn [prefix_pairs]; split; [by intros ?%elem_of_nil|by intros (a & b & ?%elem_of_nil & _)]|].
  rewrite Forall_forall in Hx. cbn [prefix_pairs]. rewrite elem_of_app, IH. clear IH.
  assert (∀ b, b ∈ take_while (λ ko, starts_with ko.1 short) rest ↔ b ∈ rest ∧ starts_with b.1 short = true) as Htw.
  { apply (elem_of_take_while (cmp_le keyed_cmp)); [done|]. intros y z Hy Hz Hyz. apply prefix_between; [|by apply keyed_le].
    by apply (keyed_le (short, name)), Hx. }
  split.
  - intros [Hc|(a & b & Ha & Hb & Hab & ->)]; [|exists a, b; split_and!; [by right|by right|done|done]].
    destruct (Nat.ltb_spec (length (str_chars short)) 4) as [|Hlen]; [by apply not_elem_of_nil in Hc|].
    apply list_elem_of_fmap in Hc as (b & -> & [[Hb Hp]%Htw Hne]%elem_of_retain). exists (short, name), b.
    apply negb_true_iff, String.eqb_neq in Hne. split_and!; [by left|by right|by split_and!|done].
  - intros (a & b & [->|Ha]%elem_of_cons & [->|Hb]%elem_of_cons & (Hlen & Hp & Hne) & ->); simpl in *; [done| | |].
    + left. destruct (Nat.ltb_spec (length (str_chars short)) 4); [lia|]. apply list_elem_of_fmap. exists b. split; [done|].
      apply elem_of_retain. split; [by apply Htw|]. by apply negb_true_iff, String.eqb_neq.
    + exfalso. apply Hne. pose proof (prefix_le _ _ Hp) as H1. pose proof (keyed_le (short, name) a (Hx a Ha)) as H2. simpl in H2.
      rewrite str_cmp_le in H1, H2. by apply (anti_symm String.le).
    + right. exists a, b. by split_and!.
Qed.

Lemma NoDup_prefix_pairs g keyed :
  NoDup keyed.*2 → NoDup ((λ c, (ac_name c, ac_of c)) <$> prefix_pairs g keyed)
  ∧ ∀ c, c ∈ prefix_pairs g keyed → ac_name c ∈ keyed.*2.
Proof.
  induction keyed as [|[short name] rest IH]; [split; [constructor|by intros c ?%elem_of_nil]|].
  rewrite fmap_cons, NoDup_cons. intros [Hname Hnd]. simpl in Hname. destruct (IH Hnd) as [IHd IHn]. clear IH. cbn [prefix_pairs].
  set (found := retain _ (take_while _ rest)).
  assert (sublist found rest) as Hsub by (etrans; [apply sublist_filter|apply sublist_take_while]).
  assert (∀ c, c ∈ (if (length (str_chars short) <? 4)%nat then [] else (λ ko, alias_candidate g name ko.2) <$> found) →
               ac_name c = name) as Hhead.
  { intros c Hc. destruct (_ <? 4)%nat; [by apply not_elem_of_nil in Hc|]. by apply list_elem_of_fmap in Hc as (ko & -> & _). }
  split.
  - rewrite fmap_app. apply NoDup_app. split_and!; [| |done].
    + destruct (_ <? 4)%nat; [constructor|].
      assert (NoDup found.*2) as Hf by (eapply sublist_NoDup; [exact Hnd|by apply fmap_sublist]).
      assert ((λ c, (ac_name c, ac_of c)) <$> ((λ ko : string * string, alias_candidate g name ko.2) <$> found) = pair name <$> found.*2) as ->
        by (by rewrite <-!list_fmap_compose).
      by apply NoDup_fmap_2; [intros x y [=]|].
    + intros p (c & -> & Hc)%list_elem_of_fmap (c' & Heq & Hc')%list_elem_of_fmap. injection Heq as Hn _.
      apply Hname. rewrite <-(Hhead c Hc), Hn. by apply IHn.
  - intros c [Hc|Hc]%elem_of_app; [rewrite (Hhead c Hc); by left|right; by apply IHn].
Qed.

Lemma elem_of_keyed_names g a : a ∈ keyed_names g ↔ a.1 = entity_key a.2 ∧ is_Some (entities g !! a.2).
Proof.
  unfold keyed_names, btree_keys. rewrite sort_by_perm, list_elem_of_fmap. setoid_rewrite list_elem_of_fmap. split.
  - intros (n & -> & ([k e] & -> & He%elem_of_btree_iter)). by split; [|exists e].
  - destruct a as [k n]. simpl. intros [-> [e He]]. exists n. split; [done|]. exists (n, e). split; [done|]. by apply elem_of_btree_iter.
Qed.

(** C31: The one scan of the sorted keys finds every alias candidate: all pairs
    of entities such that the key of one is a proper prefix, at least four
    characters long, of the key of the other, each pair once with the number
    of mentions they share; the view lists the first [limit] by shared
    records and names. *)
Theorem alias_candidates_exact g limit :
  ∃ all, alias_candidates g limit = take limit all ∧ NoDup all ∧ StronglySorted (cmp_le candidate_cmp) all
    ∧ ∀ c, c ∈ all ↔ ∃ a b, is_Some (entities g !! a) ∧ is_Some (entities g !! b)
        ∧ shortens (entity_key a, a) (entity_key b, b) ∧ c = alias_candidate g a b.
Proof.
  exists (sort_by candidate_cmp (prefix_pairs g (keyed_names g))). split_and!; [done| | |].
  - rewrite sort_by_perm. eapply (NoDup_fmap_1 (λ c, (ac_name c, ac_of c))). apply NoDup_prefix_pairs.
    unfold keyed_names. rewrite sort_by_perm, <-list_fmap_compose. simpl. rewrite list_fmap_id. apply btree_iter_keys_NoDup.
  - apply sort_by_sorted. apply _.
  - intros c. rewrite sort_by_perm, elem_of_prefix_pairs by (apply sort_by_sorted; apply _).
    setoid_rewrite elem_of_keyed_names. split.
    + intros ([ka a] & [kb b] & [Hka Ha] & [Hkb Hb] & Hab & ->). simpl in *. subst. by exists a, b.
    + intros (a & b & Ha & Hb & Hab & ->). by exists (entity_key a, a), (entity_key b, b).
Qed.
End aliases.

(** ** Impact analysis, hop by hop *)

Section impact.
Context `{U : Unicode} `{P : Petgraph} `{L : !PetgraphLaws} (g : SimpleEntityGraph) (Hwf : graph_wf g).

(** What depends on [q] directly. *)
Definition direct_dependents (q : string) : list string := ie_entity <$> analyze_impact [q] g.

Lemma elem_of_direct_dependents q a : a ∈ direct_dependents q ↔ ∃ r, r ∈ relationships g ∧ impacts r a q.
Proof.
  destruct (impact_exact g [q] Hwf) as (_ & Hpairs & _). unfold direct_dependents. rewrite list_elem_of_fmap. split.
  - intros (i & -> & Hi). assert ((ie_entity i, depends_on i) ∈ impact_key <$> analyze_impact [q] g) as Hp
      by (apply list_elem_of_fmap; by exists i).
    apply Hpairs in Hp as [Hq Hr]. apply list_elem_of_singleton in Hq. by rewrite <-Hq.
  - intros Hr. assert ((a, q) ∈ impact_key <$> analyze_impact [q] g) as Hp by (apply Hpairs; split; [by left|done]).
    apply list_elem_of_fmap in Hp as (i & Hi & Hin). exists i. split; [by injection Hi|done].
Qed.

Lemma elem_of_frontier_impact frontier a :
  a ∈ ie_entity <$> analyze_impact frontier g ↔ ∃ q, q ∈ frontier ∧ a ∈ direct_dependents q.
Proof.
  destruct (impact_exact g frontier Hwf) as (_ & Hpairs & _). rewrite list_elem_of_fmap. setoid_rewrite elem_of_direct_dependents. split.
  - intros (i & -> & Hi). exists (depends_on i). apply Hpairs, list_elem_of_fmap. by exists i.
  - intros (q & Hq & Hr). assert ((a, q) ∈ impact_key <$> analyze_impact frontier g) as Hp by (by apply Hpairs).
    apply list_elem_of_fmap in Hp as (i & Hi & Hin). exists i. split; [by injection Hi|done].
Qed.

Lemma sorted_constant {X} (f : X → nat) c xs : (∀ x, x ∈ xs → f x = c) → StronglySorted (λ x y, f x ≤ f y)%nat xs.
Proof.
  induction xs as [|x xs IH]; intros Hc; constructor; [apply IH; intros y Hy; apply Hc; by right|].
  apply Forall_forall. intros y Hy. rewrite (Hc x), (Hc y); [done|by right|by left].
Qed.

(** An item for an entry found at a hop. *)
Definition item_of (hop : nat) (i : ImpactEntry) (item : ImpactItem) : Prop :=
  ii_entity item = ie_entity i ∧ ii_via item = depends_on i ∧ ii_relation_type item = RelationType_as_str (ie_relation_type i)
  ∧ ii_context item = ie_context i ∧ ii_depth item = hop.

Lemma hop_entries_spec hop imps seen next deps :
  ∃ new items, foldl (hop_entry g hop) (seen, next, deps) imps = (list_to_set new ∪ seen, next ++ new, deps ++ items)
    ∧ NoDup new ∧ ii_entity <$> items = new ∧ (∀ a, a ∈ new ↔ a ∈ ie_entity <$> imps ∧ a ∉ seen)
    ∧ ∀ item, item ∈ items → ∃ i, i ∈ imps ∧ item_of hop i item.
Proof.
  revert seen next deps. induction imps as [|i imps IH]; intros seen next deps.
  { exists [], []. split_and!; [|constructor|done| |by intros item ?%elem_of_nil].
    - simpl. rewrite !app_nil_r. f_equal. f_equal. set_solver.
    - intros a. rewrite elem_of_nil. simpl. rewrite elem_of_nil. tauto. }
  cbn [foldl]. unfold hop_entry at 2. destruct (decide (ie_entity i ∈ seen)) as [Hin|Hin].
  - destruct (IH seen next deps) as (new & items & -> & Hnd & Hit & Hnew & Hitems). exists new, items. split_and!; [done..| |].
    + intros a. rewrite Hnew. csimpl. rewrite elem_of_cons. split; [tauto|]. intros [[->|?] ?]; tauto.
    + intros item (i' & ? & ?)%Hitems. exists i'. split; [by right|done].
  - destruct (IH ({[ie_entity i]} ∪ seen) (next ++ [ie_entity i])
      (deps ++ [mkImpactItem (ie_entity i) ((λ e, EntityType_as_str (ed_entity_type e)) <$> entities g !! ie_entity i)
                  (depends_on i) (RelationType_as_str (ie_relation_type i)) (ie_context i) hop]))
      as (new & items & -> & Hnd & Hit & Hnew & Hitems).
    exists (ie_entity i :: new). eexists (_ :: items). split_and!.
    + f_equal; [f_equal|]; [set_solver|by rewrite <-app_assoc|by rewrite <-app_assoc].
    + constructor; [|done]. rewrite Hnew. set_solver.
    + csimpl. by rewrite Hit.
    + intros a. csimpl. rewrite !elem_of_cons, Hnew, not_elem_of_union, not_elem_of_singleton.
      destruct (decide (a = ie_entity i)) as [->|]; tauto.
    + intros item [->|Hitem]%elem_of_cons; [exists i; split; [by left|by split_and!]|].
      destruct (Hitems item Hitem) as (i' & ? & ?). exists i'. split; [by right|done].
Qed.

Context (starts : list string).

(** Within [k] hops of a start. *)
Definition near (k : nat) (a : string) : Prop := ∃ s, s ∈ starts ∧ within direct_dependents s k a.

Lemma near_0 a : near 0 a ↔ a ∈ starts.
Proof. split; [intros (s & Hs & Hw); inversion Hw; by subst|]. intros Ha. exists a. split; [done|constructor]. Qed.

Lemma near_S k a : near (S k) a ↔ near k a ∨ ∃ q, near k q ∧ a ∈ direct_dependents q.
Proof.
  unfold near. setoid_rewrite within_S. split.
  - intros (s & Hs & [Hw|(q & Hw & Ha)]); [left|right]; eauto.
  - intros [(s & Hs & Hw)|(q & (s & Hs & Hw) & Ha)]; exists s; eauto.
Qed.

Lemma near_mono k k' a : near k a → (k ≤ k')%nat → near k' a.
Proof. intros (s & Hs & Hw) Hle. exists s. split; [done|]. by eapply within_mono. Qed.

Lemma near_stable k : (∀ a, near (S k) a → near k a) → ∀ n a, near (k + n) a → near k a.
Proof.
  intros Hk n. induction n as [|n IH]; intros a Ha; [by rewrite Nat.add_0_r in Ha|].
  rewrite Nat.add_succ_r in Ha. apply near_S in Ha as [Ha|(q & Hq & Ha)]; [by apply IH|].
  apply Hk, near_S. right. exists q. split; [by apply IH|done].
Qed.

(** The dependents within [n] hops, nearest first, each once, with an entity
    one hop closer that it depends on and the relation that says so. *)
Record dependents_ok (n : nat) (items : list ImpactItem) : Prop := {
  dp_once : NoDup (ii_entity <$> items);
  dp_exact a : a ∈ ii_entity <$> items ↔ near n a ∧ a ∉ starts;
  dp_item i : i ∈ items →
    ∃ k, ii_depth i = S k ∧ near (S k) (ii_entity i) ∧ ¬ near k (ii_entity i) ∧ near k (ii_via i)
      ∧ ∃ r, r ∈ relationships g ∧ impacts r (ii_entity i) (ii_via i)
          ∧ ii_relation_type i = RelationType_as_str (rr_relation_type r) ∧ ii_context i = rr_context r;
  dp_sorted : StronglySorted (λ i j, ii_depth i ≤ ii_depth j)%nat items;
  dp_depth i : i ∈ items → (ii_depth i ≤ n)%nat;
}.

Record hops_inv (h : nat) (frontier : list string) (seen : gset string) (items : list ImpactItem) : Prop := {
  hi_seen a : a ∈ seen ↔ near h a;
  hi_frontier a : a ∈ frontier → near h a;
  hi_next q a : near h q → a ∈ direct_dependents q → q ∈ frontier ∨ near h a;
  hi_items : dependents_ok h items;
}.

Lemma one_hop_spec h frontier seen items :
  hops_inv h frontier seen items →
  ∃ seen' next items', one_hop g (S h) frontier seen items = (seen', next, items')
    ∧ (∀ a, a ∈ next ↔ near (S h) a ∧ ¬ near h a) ∧ hops_inv (S h) next seen' items' ∧ (next = [] → items' = items).
Proof.
  intros [Hseen Hfr Hnext [Honce Hexact Hitem Hsort Hdepth]]. unfold one_hop.
  destruct (hop_entries_spec (S h) (analyze_impact frontier g) seen [] items) as (new & its & -> & Hnd & Hits & Hnew & Hits').
  assert (∀ a, a ∈ new ↔ near (S h) a ∧ ¬ near h a) as Hnew'.
  { intros a. rewrite Hnew, elem_of_frontier_impact, Hseen, near_S. split.
    - intros [(q & Hq & Ha) Hn]. split; [|done]. right. exists q. split; [by apply Hfr|done].
    - intros [[?|(q & Hq & Ha)] Hn]; [done|]. split; [|done]. destruct (Hnext q a Hq Ha); [by exists q|done]. }
  exists (list_to_set new ∪ seen), new, (items ++ its). split_and!; [done|done| |].
  2: { intros ->. apply fmap_nil_inv in Hits as ->. by rewrite app_nil_r. }
  assert (∀ a, near (S h) a ↔ a ∈ new ∨ near h a) as Hor.
  { intros a. rewrite Hnew'. split; [|intros [[? _]|?]; [done|by eapply near_mono; [done|lia]]].
    intros Ha. destruct (decide (a ∈ seen)) as [Hs|Hs]; rewrite Hseen in Hs; tauto. }
  split.
  - intros a. rewrite elem_of_union, elem_of_list_to_set, Hseen, Hor. done.
  - intros a Ha. apply Hor. by left.
  - intros q a Hq Ha. apply Hor in Hq as [Hq|Hq]; [by left|]. right. apply near_S. right. by exists q.
  - split.
    + rewrite fmap_app, Hits. apply NoDup_app. split_and!; [done| |done]. intros a Ha Ha'. apply Hexact in Ha as [Ha _].
      apply Hnew' in Ha' as [_ Hn]. done.
    + intros a. rewrite fmap_app, elem_of_app, Hits, Hexact, Hor. split; [|tauto]. intros [?|Ha]; [tauto|].
      split; [by left|]. intros Hs%near_0. apply Hnew' in Ha as [_ Hn]. apply Hn. eapply near_mono; [done|lia].
    + intros i [Hi|Hi]%elem_of_app; [by apply Hitem|]. assert (ii_entity i ∈ new) as Hin by (rewrite <-Hits; apply list_elem_of_fmap; by exists i).
      apply Hnew' in Hin as [H1 H2]. destruct (Hits' i Hi) as (e & He & (Ee & Ev & Er & Ec & Ed)). exists h. split_and!; [done..| |].
      * rewrite Ev. destruct (impact_exact g frontier Hwf) as (_ & Hp & _). apply Hfr.
        apply (Hp (ie_entity e)). apply list_elem_of_fmap. by exists e.
      * destruct (impact_exact g frontier Hwf) as (_ & _ & Hr). destruct (Hr e He) as (r & ? & ? & Ht & Hc).
        exists r. rewrite Ee, Ev, Er, Ec, Ht, Hc. by split_and!.
    + assert (∀ i, i ∈ its → ii_depth i = S h) as Hd by (intros i Hi; destruct (Hits' i Hi) as (e & _ & (_ & _ & _ & _ & ->)); done).
      apply StronglySorted_app_2; [|done|by eapply sorted_constant]. intros i j Hi Hj. rewrite (Hd j Hj). pose proof (Hdepth i Hi). lia.
    + intros i [Hi|Hi]%elem_of_app; [pose proof (Hdepth i Hi); lia|]. destruct (Hits' i Hi) as (e & He & (_ & _ & _ & _ & ->)). lia.
Qed.

(** With nothing new in a hop, the analysis is complete. *)
Lemma dependents_stable h items n :
  dependents_ok h items → (∀ a, near (S h) a → near h a) → dependents_ok (h + n) items.
Proof.
  intros [Honce Hexact Hitem Hsort Hdepth] Hst. split; [done| |done|done|].
  - intros a. rewrite Hexact. split; intros [Ha Hn]; (split; [|done]); [eapply near_mono; [done|lia]|by eapply near_stable].
  - intros i Hi. pose proof (Hdepth i Hi). lia.
Qed.

Lemma hops_inv_sorted h next seen items : hops_inv h next seen items → hops_inv h (sort_by str_cmp next) seen items.
Proof.
  intros [Hs Hf Hn Hi]. split; [done| | |done].
  - intros a. rewrite sort_by_perm. apply Hf.
  - intros q a. rewrite sort_by_perm. apply Hn.
Qed.

Lemma impact_hops_spec n h frontier seen items :
  hops_inv h frontier seen items → dependents_ok (h + n) (impact_hops g n (S h) frontier seen items).
Proof.
  revert h frontier seen items. induction n as [|n IH]; intros h frontier seen items Hinv; cbn [impact_hops].
  { rewrite Nat.add_0_r. apply Hinv. }
  destruct (one_hop_spec h frontier seen items Hinv) as (seen' & next & items' & -> & Hnext & Hinv' & Hsame).
  rewrite Nat.add_succ_r. case_bool_decide as Hnil.
  - rewrite (Hsame Hnil). rewrite <-Nat.add_succ_r. apply dependents_stable; [apply Hinv|]. intros a Ha.
    destruct (decide (a ∈ seen)) as [Hs|Hs]; rewrite (hi_seen _ _ _ _ Hinv) in Hs; [done|].
    destruct (not_elem_of_nil a). rewrite <-Hnil. by apply Hnext.
  - apply (IH (S h)). by apply hops_inv_sorted.
Qed.

Lemma file_hops_spec n h frontier seen items :
  hops_inv h frontier seen items → dependents_ok (h + n) (file_hops g n (S h) frontier seen items).
Proof.
  revert h frontier seen items. induction n as [|n IH]; intros h frontier seen items Hinv; cbn [file_hops].
  { rewrite Nat.add_0_r. apply Hinv. }
  case_bool_decide as Hnil.
  - subst frontier. apply dependents_stable; [apply Hinv|]. intros a [?|(q & Hq & Ha)]%near_S; [done|].
    destruct (hi_next _ _ _ _ Hinv q a Hq Ha) as [[]%not_elem_of_nil|]; done.
  - destruct (one_hop_spec h frontier seen items Hinv) as (seen' & next & items' & -> & Hnext & Hinv' & Hsame).
    rewrite Nat.add_succ_r. apply (IH (S h)). by apply hops_inv_sorted.
Qed.

Lemma hops_start : hops_inv 0 starts (list_to_set starts) [].
Proof.
  split.
  - intros a. by rewrite elem_of_list_to_set, near_0.
  - intros a. by rewrite near_0.
  - intros q a. rewrite near_0. by left.
  - split; [constructor| |by intros i ?%elem_of_nil|constructor|by intros i ?%elem_of_nil].
    intros a. rewrite near_0, elem_of_nil. tauto.
Qed.
End impact.

(** ** Dependence, hop by hop *)

(** What the relation [r] says: [a] depends on [q]. *)
Definition depends (r : RelationRef) (a q : string) : Prop :=
  a ≠ q
  ∧ ((rr_relation_type r = DependsOn ∨ rr_relation_type r = Implements) ∧ rr_from r = a ∧ rr_to r = q
     ∨ rr_relation_type r = RequiredBy ∧ rr_from r = q ∧ rr_to r = a).

(** What the analysis takes it to say: "required by" is read both ways. *)
Definition followed (r : RelationRef) (a q : string) : Prop :=
  depends r a q ∨ rr_relation_type r = RequiredBy ∧ depends r q a.

Section listing.
Context `{U : Unicode} `{P : Petgraph}.

(** Reached from [start] in at most [k] steps. *)
Inductive hops (R : RelationRef → string → string → Prop) (g : SimpleEntityGraph) (start : string) : nat → string → Prop :=
| hops_here k : hops R g start k start
| hops_step k r a q : hops R g start k q → r ∈ relationships g → R r a q → hops R g start (S k) a.

(** The entities within [n] hops, nearest first, each once, with an entity one
    hop closer and the relation to it. *)
Record listing (R : RelationRef → string → string → Prop) (g : SimpleEntityGraph) (start : string) (n : nat)
    (items : list ImpactItem) : Prop := {
  li_once : NoDup (ii_entity <$> items);
  li_exact a : a ∈ ii_entity <$> items ↔ hops R g start n a ∧ a ≠ start;
  li_item i : i ∈ items →
    ∃ k, ii_depth i = S k ∧ hops R g start (S k) (ii_entity i) ∧ ¬ hops R g start k (ii_entity i) ∧ hops R g start k (ii_via i)
      ∧ ∃ r, r ∈ relationships g ∧ R r (ii_entity i) (ii_via i)
          ∧ ii_relation_type i = RelationType_as_str (rr_relation_type r) ∧ ii_context i = rr_context r;
  li_sorted : StronglySorted (λ i j, ii_depth i ≤ ii_depth j)%nat items;
  li_depth i : i ∈ items → (ii_depth i ≤ n)%nat;
}.

Lemma hops_mono R g start k k' a : hops R g start k a → (k ≤ k')%nat → hops R g start k' a.
Proof.
  intros Hh. revert k'. induction Hh as [|k r a q _ IH Hr HR]; intros k' Hle; [constructor|].
  destruct k' as [|k']; [lia|]. eapply hops_step; [apply IH; lia|done..].
Qed.

Lemma hops_weaken (R R' : RelationRef → string → string → Prop) g start k a :
  (∀ r a q, r ∈ relationships g → R r a q → R' r a q) → hops R g start k a → hops R' g start k a.
Proof. intros HR. induction 1; [constructor|]. eapply hops_step; eauto. Qed.

Lemma hops_ext (R R' : RelationRef → string → string → Prop) g start k a :
  (∀ r a q, r ∈ relationships g → R r a q ↔ R' r a q) → hops R g start k a ↔ hops R' g start k a.
Proof. intros HR. split; apply hops_weaken; intros r x y Hr; by apply HR. Qed.

Lemma listing_ext (R R' : RelationRef → string → string → Prop) g start n items :
  (∀ r a q, r ∈ relationships g → R r a q ↔ R' r a q) → listing R g start n items → listing R' g start n items.
Proof.
  intros HR [Ho He Hi Hs Hd]. pose proof (λ k a, hops_ext R R' g start k a HR) as Hh. split; [done| | |done|done].
  - intros a. by rewrite He, Hh.
  - intros i (k & Hk & H1 & H2 & H3 & r & Hr & HRr & Hrest)%Hi. exists k. rewrite <-!Hh. split_and!; [done..|].
    exists r. split; [done|]. by rewrite <-HR.
Qed.

Lemma followed_impacts r a q : impacts r a q ↔ followed r a q.
Proof.
  assert (∀ t, t ∈ dependency_types ↔ t = DependsOn ∨ t = RequiredBy ∨ t = Implements) as Hty.
  { intros t. unfold dependency_types. rewrite !elem_of_cons, elem_of_nil. tauto. }
  unfold impacts, followed, depends. rewrite Hty. split.
  - intros [Hne [(<- & <- & [Ht|[Ht|Ht]])|(<- & <- & Ht)]].
    + left. split; [done|]. left. by split; [left|].
    + right. split; [done|]. split; [done|]. right. by split.
    + left. split; [done|]. left. by split; [right|].
    + left. split; [done|]. right. by split.
  - intros [(Hne & [([Ht|Ht] & H1 & H2)|(Ht & H1 & H2)])|(Ht & Hne & [([Ht'|Ht'] & _)|(_ & H1 & H2)])].
    + subst a q. split; [done|]. left. split_and!; [done..|by left].
    + subst a q. split; [done|]. left. split_and!; [done..|by right; right].
    + subst a q. split; [by apply not_eq_sym|]. by right.
    + rewrite Ht in Ht'. done.
    + rewrite Ht in Ht'. done.
    + subst a q. split; [by apply not_eq_sym|]. left. split_and!; [done..|by right; left].
Qed.

Lemma followed_depends r a q : rr_relation_type r ≠ RequiredBy → followed r a q ↔ depends r a q.
Proof. unfold followed. tauto. Qed.

Context `{L : !PetgraphLaws} (g : SimpleEntityGraph) (Hwf : graph_wf g).

Lemma near_hops start k a : near g [start] k a ↔ hops followed g start k a.
Proof.
  unfold near. split.
  - intros (s & ->%list_elem_of_singleton & Hw). induction Hw as [|k x y _ IH Hy]; [constructor|].
    apply (elem_of_direct_dependents g Hwf) in Hy as (r & Hr & Hi%followed_impacts). by eapply hops_step.
  - intros Hh. exists start. split; [by left|]. induction Hh as [|k r a q _ IH Hr HR]; [constructor|].
    apply within_step with q; [done|]. apply (elem_of_direct_dependents g Hwf). exists r. by rewrite followed_impacts.
Qed.

Lemma dependents_listing start n items : dependents_ok g [start] n items → listing followed g start n items.
Proof.
  intros [Ho He Hi Hs Hd]. split; [done| | |done|done].
  - intros a. by rewrite He, near_hops, list_elem_of_singleton.
  - intros i (k & Hk & H1 & H2 & H3 & r & Hr & HR & Hrest)%Hi. exists k. rewrite <-!near_hops. split_and!; [done..|].
    exists r. by rewrite <-followed_impacts.
Qed.

(** Every dependent is listed, no later than its distance. *)
Lemma listing_covers start n items k a :
  listing followed g start n items → (k ≤ n)%nat → hops depends g start k a → a ≠ start →
  ∃ i, i ∈ items ∧ ii_entity i = a ∧ (ii_depth i ≤ k)%nat.
Proof.
  intros [_ He Hi _ _] Hk Hh Hne. assert (hops followed g start k a) as Hf.
  { eapply hops_weaken; [|exact Hh]. intros r x y _ ?. by left. }
  assert (a ∈ ii_entity <$> items) as (i & -> & Hin)%list_elem_of_fmap.
  { apply He. split; [by eapply hops_mono|done]. }
  exists i. split_and!; [done..|]. destruct (Hi i Hin) as (k' & -> & _ & Hno & _).
  destruct (decide (k ≤ k')%nat) as [Hle|]; [|lia]. destruct Hno. by eapply hops_mono.
Qed.
End listing.


(** ** Records shown *)

Section records.
Context `{U : Unicode} `{A : Alphanumeric} `{P : Petgraph} `{LM : Libm64} `{MO : MapOrder} {MOL : MapOrderLaws}.
Implicit Types (sc : GraphScope) (ix : Index) (g : SimpleEntityGraph).

Lemma ix_record_spec sc ix id :
  index_ok sc ix →
  match ix_record ix id with
  | Some r => rv_id r = id ∧ is_Some (scope_records sc !! id)
  | None => scope_records sc !! id = None
  end.
Proof.
  intros Hok. unfold ix_record. rewrite (io_records _ _ Hok). destruct (scope_records sc !! id) as [[sid u]|] eqn:Hu; [|done].
  cbn [mbind option_bind]. destruct (proj2 (io_valid _ _ Hok id)) as [v ->]; [by rewrite Hu|]. done.
Qed.

Lemma ix_record_id sc ix id r : index_ok sc ix → ix_record ix id = Some r → rv_id r = id.
Proof. intros Hok Hr. pose proof (ix_record_spec sc ix id Hok) as Hs. rewrite Hr in Hs. apply Hs. Qed.

(** A record of the scope that mentions the entity. *)
Lemma elem_of_mentioning ix name r :
  r ∈ mentioning ix name ↔ ∃ id, id ∈ mentions_of (ix_graph ix) name ∧ ix_record ix id = Some r.
Proof. apply list_elem_of_omap. Qed.

Lemma mentioning_same sc ix n n' r r' :
  index_ok sc ix → r ∈ mentioning ix n → r' ∈ mentioning ix n' → rv_id r = rv_id r' → r = r'.
Proof.
  intros Hok (id & _ & Hr)%elem_of_mentioning (id' & _ & Hr')%elem_of_mentioning Heq.
  rewrite (ix_record_id sc ix _ _ Hok Hr), (ix_record_id sc ix _ _ Hok Hr') in Heq. congruence.
Qed.

Definition is_risk (r : RecordView) : bool := is_current (rv_validity r) && of_kinds risky r.

Lemma add_risk_fold rs seen out :
  (∀ r r', r ∈ out ++ rs → r' ∈ out ++ rs → rv_id r = rv_id r' → r = r') →
  (∀ id, id ∈ seen ↔ id ∈ rv_id <$> out) → NoDup (rv_id <$> out) →
  NoDup (rv_id <$> (foldl add_risk (seen, out) rs).2)
  ∧ ∀ r, r ∈ (foldl add_risk (seen, out) rs).2 ↔ r ∈ out ∨ r ∈ rs ∧ is_risk r = true.
Proof.
  revert seen out. induction rs as [|r rs IH]; intros seen out Hinj Hseen Hnd.
  { simpl. split; [done|]. intros r. rewrite elem_of_nil. tauto. }
  cbn [foldl]. unfold add_risk at 2 4. fold (is_risk r). cbn [fst snd].
  assert (∀ x y, x ∈ out ++ rs → y ∈ out ++ rs → rv_id x = rv_id y → x = y) as Hinj'.
  { intros x y Hx Hy. apply Hinj; apply elem_of_app; rewrite elem_of_cons; [apply elem_of_app in Hx|apply elem_of_app in Hy]; tauto. }
  destruct (is_risk r) eqn:Hrisk; simpl.
  - case_bool_decide as Hin; simpl.
    + destruct (IH seen out Hinj' Hseen Hnd) as [Hnd' Hel]. split; [done|]. intros x. rewrite Hel, elem_of_cons. split; [tauto|].
      intros [?|[[->|?] ?]]; [tauto| |tauto]. left. apply Hseen, list_elem_of_fmap in Hin as (r' & Heq & Hr').
      by rewrite (Hinj r r' ltac:(set_solver) ltac:(set_solver) Heq).
    + destruct (IH ({[rv_id r]} ∪ seen) (out ++ [r])) as [Hnd' Hel].
      * intros x y. rewrite <-app_assoc. apply Hinj.
      * intros id. rewrite elem_of_union, elem_of_singleton, fmap_app, elem_of_app, Hseen. csimpl. rewrite list_elem_of_singleton. tauto.
      * rewrite fmap_app. apply NoDup_app. split_and!; [done| |apply NoDup_singleton].
        intros id Hid ->%list_elem_of_singleton. by apply Hin, Hseen.
      * split; [done|]. intros x. rewrite Hel, elem_of_app, list_elem_of_singleton, elem_of_cons.
        split; [intros [[?| ->]|[??]]|intros [?|[[->|?] ?]]]; tauto.
  - destruct (IH seen out Hinj' Hseen Hnd) as [Hnd' Hel]. split; [done|]. intros x. rewrite Hel, elem_of_cons.
    split; [tauto|]. intros [?|[[->|?] ?]]; [tauto|congruence|tauto].
Qed.

Lemma add_risks ix names st :
  foldl (λ st n, foldl add_risk st (mentioning ix n)) st names = foldl add_risk st (names ≫= mentioning ix).
Proof. revert st. induction names as [|n names IH]; intros st; [done|]. simpl. by rewrite foldl_app. Qed.

Lemma impact_view_spec `{!PetgraphLaws} sc name depth limit :
  graph_wf (gs_graph sc) →
  ∃ ix, index sc = Some ix ∧
  match find_entity (gs_graph sc) name with
  | None => impact_view sc name depth limit = Some None
  | Some e =>
    ∃ v risks, impact_view sc name depth limit = Some (Some v) ∧ iv_entity v = ed_name e
      ∧ dependents_ok (gs_graph sc) [ed_name e] (depth `max` 1) (iv_dependents v)
      ∧ iv_risks v = take limit risks ∧ NoDup (rv_id <$> risks) ∧ StronglySorted (cmp_le newest_cmp) risks
      ∧ ∀ r, r ∈ risks ↔ is_risk r = true
          ∧ ∃ n, (n = ed_name e ∨ n ∈ ii_entity <$> iv_dependents v) ∧ r ∈ mentioning ix n
  end.
Proof.
  intros Hwf. unfold impact_view. destruct (index_spec sc) as (ix & -> & Hok). exists ix. split; [done|]. cbn [mbind option_bind].
  rewrite (io_graph _ _ Hok). destruct (find_entity (gs_graph sc) name) as [e|]; [|done]. cbn [fmap option_fmap option_map mbind option_bind].
  set (deps := impact_hops _ _ _ _ _ _). rewrite add_risks.
  destruct (add_risk_fold ((ed_name e :: (ii_entity <$> deps)) ≫= mentioning ix) ∅ []) as [Hnd Hel].
  { intros r r' (n & Hr & _)%list_elem_of_bind (n' & Hr' & _)%list_elem_of_bind. by eapply mentioning_same. }
  { intros id. by rewrite elem_of_empty, elem_of_nil. }
  { constructor. }
  eexists _, _. split; [done|]. cbn [iv_entity iv_dependents iv_risks]. split; [done|]. split_and!.
  - apply (impact_hops_spec (gs_graph sc) Hwf [ed_name e] (depth `max` 1) 0 [ed_name e] {[ed_name e]} []).
    pose proof (hops_start (gs_graph sc) [ed_name e]) as Hs. simpl in Hs. by rewrite union_empty_r_L in Hs.
  - done.
  - by rewrite sort_by_perm.
  - apply sort_by_sorted. apply _.
  - intros r. rewrite sort_by_perm, Hel, elem_of_nil, list_elem_of_bind. setoid_rewrite elem_of_cons. naive_solver.
Qed.

(** C30: Impact analysis is exact.  Of an entity of the scope the view lists
    each once, nearest first and no further than [depth] hops, the entities
    that depend on it: those that depend on or implement it or are what it is
    required by, and so on.  Every dependent is listed, at its distance or
    nearer.  Without relations "required by" the list is exactly the
    dependents, each at its distance with the relation to an entity one hop
    closer; with them it is exact for what the code follows, which is those
    relations in both directions.  The risks are the latest [limit] of the
    current decisions, requirements and problems that mention the entity or a
    listed one, each once.  It never panics, and reports an unknown entity. *)
Theorem impact_view_exact `{!PetgraphLaws} sc name depth limit :
  graph_wf (gs_graph sc) →
  ∃ ix, index sc = Some ix ∧
  match find_entity (gs_graph sc) name with
  | None => impact_view sc name depth limit = Some None
  | Some e =>
    ∃ v risks, impact_view sc name depth limit = Some (Some v) ∧ iv_entity v = ed_name e
      ∧ (∀ k a, (k ≤ depth `max` 1)%nat → hops depends (gs_graph sc) (ed_name e) k a → a ≠ ed_name e →
           ∃ i, i ∈ iv_dependents v ∧ ii_entity i = a ∧ (ii_depth i ≤ k)%nat)
      ∧ ((∀ r, r ∈ relationships (gs_graph sc) → rr_relation_type r ≠ RequiredBy) →
         listing depends (gs_graph sc) (ed_name e) (depth `max` 1) (iv_dependents v))
      ∧ listing followed (gs_graph sc) (ed_name e) (depth `max` 1) (iv_dependents v)
      ∧ iv_risks v = take limit risks ∧ NoDup (rv_id <$> risks) ∧ StronglySorted (cmp_le newest_cmp) risks
      ∧ ∀ r, r ∈ risks ↔ is_risk r = true
          ∧ ∃ n, (n = ed_name e ∨ n ∈ ii_entity <$> iv_dependents v) ∧ r ∈ mentioning ix n
  end.
Proof.
  intros Hwf. destruct (impact_view_spec sc name depth limit Hwf) as (ix & Hix & Hview). exists ix. split; [done|].
  destruct (find_entity _ _) as [e|]; [|done]. destruct Hview as (v & risks & Hv & He & Hdeps & Hr1 & Hr2 & Hr3 & Hr4).
  pose proof (dependents_listing _ Hwf _ _ _ Hdeps) as Hlist. exists v, risks. split_and!; [done|done| | |done..].
  - intros k a Hk Hh Hne. by apply (listing_covers (gs_graph sc) (ed_name e) (depth `max` 1)).
  - intros Hno. eapply listing_ext; [|exact Hlist]. intros r a q Hr. apply followed_depends. by apply Hno.
Qed.
End records.

(** ** Lineage *)

Section chain.
Context `{U : Unicode} `{P : Petgraph} `{L : !PetgraphLaws} (g : SimpleEntityGraph) (Hwf : graph_wf g).

(** The other end of a causal relation. *)
Definition causal_other (x : string) (r : RelationRef) : option string :=
  if decide (rr_relation_type r ∈ causal) then Some (if String.eqb (rr_from r) x then rr_to r else rr_from r) else None.
Definition causal_neighbours (x : string) : list string := omap (causal_other x) (relationships_of g x).

Lemma visit_causal_bfs x hops rels l pushed :
  let st := foldl (visit_causal x hops) (l, pushed) rels in
  (ln_seen st.1, st.2) = foldl (bfs_visit hops) (ln_seen l, pushed) (omap (causal_other x) rels).
Proof.
  revert l pushed. induction rels as [|r rels IH]; intros l pushed; [done|]. cbn [foldl omap list_omap].
  cbv zeta. assert (∃ l', visit_causal x hops (l, pushed) r = (l', match causal_other x r with
      | Some o => if decide (o ∈ ln_seen l) then pushed else pushed ++ [(o, (hops + 1)%nat)] | None => pushed end)
    ∧ ln_seen l' = match causal_other x r with
      | Some o => if decide (o ∈ ln_seen l) then ln_seen l else {[o]} ∪ ln_seen l | None => ln_seen l end) as (l' & -> & Hl').
  { unfold visit_causal, causal_other. case_decide; [case_decide|]; by eexists. }
  rewrite (IH l'), Hl'. destruct (causal_other x r) as [o|]; [|done]. cbn [foldl]. f_equal. unfold bfs_visit. simpl. by case_decide.
Qed.

Lemma lineage_body_bfs depth p l :
  bfs_body causal_neighbours (depth `max` 1) p (ln_seen l) = flow_map ln_seen (lineage_body g depth p l).
Proof.
  unfold bfs_body, lineage_body. destruct (Nat.leb_spec (depth `max` 1) p.2); [by rewrite decide_True|].
  rewrite decide_False by lia. pose proof (visit_causal_bfs p.1 p.2 (relationships_of g p.1) l []) as Heq. simpl in Heq.
  unfold causal_neighbours. rewrite <-Heq. by destruct (foldl _ _ _) as [l' pushed].
Qed.

Lemma lineage_search_bfs entity depth :
  bfs causal_neighbours (depth `max` 1) (lineage_fuel g) entity = ln_seen <$> lineage_search g entity depth.
Proof.
  pose proof (while_pop_map (lineage_body g depth) (bfs_body causal_neighbours (depth `max` 1)) ln_seen (λ _, True)) as Hmap.
  unfold bfs, lineage_search. rewrite <-(Hmap); [done| |done].
  intros p l _. split; [apply lineage_body_bfs|done].
Qed.

Lemma causal_neighbour_related x y :
  y ∈ causal_neighbours x → ∃ r, r ∈ relationships g ∧ (y = rr_from r ∨ y = rr_to r).
Proof.
  intros (r & Hr & Hy)%list_elem_of_omap. apply elem_of_relationships_of in Hr as [Hr _]; [|apply Hwf]. exists r. split; [done|].
  unfold causal_other in Hy. case_decide; [|done]. injection Hy as <-. destruct (String.eqb _ _); auto.
Qed.

Lemma lineage_search_total entity depth : is_Some (lineage_search g entity depth).
Proof.
  set (names := entity :: (relationships g ≫= λ r, [rr_from r; rr_to r])).
  assert (is_Some (bfs causal_neighbours (depth `max` 1) (lineage_fuel g) entity)) as Hb.
  { apply (bfs_terminates causal_neighbours (depth `max` 1) (list_to_set names)).
    - apply elem_of_list_to_set. by left.
    - intros x y _ (r & Hr & Hy)%causal_neighbour_related. apply elem_of_list_to_set. right. apply list_elem_of_bind.
      exists r. split; [|done]. destruct Hy as [->| ->]; [by left|right; by left].
    - etrans; [apply size_list_to_set_le|]. unfold names, lineage_fuel. simpl. apply le_n_S.
      enough (∀ rs : list RelationRef, length (rs ≫= λ r, [rr_from r; rr_to r]) = (2 * length rs)%nat) as -> by done.
      intros rs. induction rs as [|r rs IH]; [done|]. rewrite bind_cons, length_app, IH. simpl. lia. }
  rewrite lineage_search_bfs in Hb. by apply fmap_is_Some in Hb.
Qed.

(** The chain lists what was seen, once, and the edges join it. *)
Record chain_ok (entity : string) (q : list (string * nat)) (l : CausalChain) : Prop := {
  ch_head : head (ln_chain l) = Some entity;
  ch_seen a : a ∈ ln_chain l ↔ a ∈ ln_seen l;
  ch_once : NoDup (ln_chain l);
  ch_queue p : p ∈ q → p.1 ∈ ln_seen l;
  ch_edges k : k ∈ ln_edges l → k.1.1 ∈ ln_seen l ∧ k.1.2 ∈ ln_seen l ∧ k.2 ∈ causal
    ∧ ∃ r, r ∈ relationships g ∧ rr_from r = k.1.1 ∧ rr_to r = k.1.2 ∧ rr_relation_type r = k.2;
}.

Lemma visit_causal_ok entity x hops rels q l pushed :
  x ∈ ln_seen l → (∀ r, r ∈ rels → r ∈ relationships g ∧ (rr_from r = x ∨ rr_to r = x)) → chain_ok entity (q ++ pushed) l →
  let st := foldl (visit_causal x hops) (l, pushed) rels in chain_ok entity (q ++ st.2) st.1.
Proof.
  revert l pushed. induction rels as [|r rels IH]; intros l pushed Hx Hrels Hok; [done|]. cbn [foldl]. cbv zeta.
  destruct (Hrels r) as [Hr Hends]; [by left|]. 
  destruct (decide (rr_relation_type r ∈ causal)) as [Hc|Hc].
  2: { assert (visit_causal x hops (l, pushed) r = (l, pushed)) as -> by (unfold visit_causal; by rewrite decide_False).
       apply IH; [done|intros r' ?; apply Hrels; by right|done]. }
  set (other := if String.eqb (rr_from r) x then rr_to r else rr_from r).
  assert ((rr_from r = x ∧ rr_to r = other) ∨ (rr_to r = x ∧ rr_from r = other)) as Hother.
  { unfold other. destruct (String.eqb_spec (rr_from r) x); [by left|]. right. tauto. }
  assert (visit_causal x hops (l, pushed) r = if decide (other ∈ ln_seen l)
    then (mkCausalChain (ln_chain l) (ln_seen l) ({[(rr_from r, rr_to r, rr_relation_type r)]} ∪ ln_edges l), pushed)
    else (mkCausalChain (ln_chain l ++ [other]) ({[other]} ∪ ln_seen l)
            ({[(rr_from r, rr_to r, rr_relation_type r)]} ∪ ln_edges l), pushed ++ [(other, (hops + 1)%nat)])) as ->
    by (unfold visit_causal; by rewrite decide_True).
  destruct Hok as [Hh Hs Ho Hq He]. destruct (decide (other ∈ ln_seen l)) as [Hin|Hin]; (apply IH; [simpl; set_solver|intros r' ?; apply Hrels; by right|]); split; simpl; try done.
  - intros k [->%elem_of_singleton|Hk]%elem_of_union; [|by apply He]. simpl.
    split_and!; [destruct Hother as [[-> _]|[_ ->]]; done|destruct Hother as [[_ ->]|[-> _]]; done|done|by exists r].
  - destruct (ln_chain l); [done|by injection Hh as ->].
  - intros a. rewrite elem_of_app, list_elem_of_singleton, elem_of_union, elem_of_singleton, Hs. tauto.
  - apply NoDup_app. split_and!; [done| |apply NoDup_singleton]. intros a Ha ->%list_elem_of_singleton. by apply Hin, Hs.
  - intros p. rewrite app_assoc, elem_of_app, list_elem_of_singleton. intros [Hp| ->]; [apply elem_of_union; right; by apply Hq|simpl; set_solver].
  - intros k [->%elem_of_singleton|Hk]%elem_of_union; simpl.
    + split_and!; [destruct Hother as [[-> _]|[_ ->]]; set_solver|destruct Hother as [[_ ->]|[-> _]]; set_solver|done|by exists r].
    + destruct (He k Hk) as (? & ? & ? & ?). split_and!; [set_solver|set_solver|done|done].
Qed.

Lemma lineage_search_spec entity depth :
  ∃ l, lineage_search g entity depth = Some l ∧ chain_ok entity [] l
    ∧ ∀ a, a ∈ ln_chain l ↔ within causal_neighbours entity (depth `max` 1) a.
Proof.
  destruct (lineage_search_total entity depth) as [l Hl]. exists l. split; [done|].
  assert (chain_ok entity [] l) as Hok.
  { apply (while_pop_inv (lineage_body g depth) (chain_ok entity) (chain_ok entity [])) in Hl; [done|done| | |].
    - intros [x hops] q s s' ps Hs Hb. unfold lineage_body in Hb. cbn [fst snd] in Hb. destruct (_ <=? _)%nat.
      + injection Hb as <- <-. rewrite app_nil_r. destruct Hs as [? ? ? Hq ?]. split; try done. intros p Hp. apply Hq. by right.
      + pose proof (visit_causal_ok entity x hops (relationships_of g x) q s []) as Hv. simpl in Hv.
        destruct (foldl _ _ _) as [s2 ps2]. injection Hb as <- <-. apply Hv.
        * destruct Hs as [_ _ _ Hq _]. apply (Hq (x, hops)). by left.
        * intros r Hr. apply elem_of_relationships_of in Hr; [done|apply Hwf].
        * rewrite app_nil_r. destruct Hs as [? ? ? Hq ?]. split; try done. intros p Hp. apply Hq. by right.
    - intros [x hops] q s s' _ Hb. unfold lineage_body in Hb. by repeat case_match.
    - split; simpl; [done| |apply NoDup_singleton| |].
      + intros a. by rewrite list_elem_of_singleton, elem_of_singleton.
      + intros p ->%list_elem_of_singleton. by apply elem_of_singleton.
      + intros k Hk. by apply elem_of_empty in Hk. }
  split; [done|]. intros a. rewrite (ch_seen _ _ _ Hok). apply (bfs_visited _ _ (lineage_fuel g)).
  by rewrite lineage_search_bfs, Hl.
Qed.
End chain.

Section lineage.
Context `{U : Unicode} `{A : Alphanumeric} `{P : Petgraph} `{L : !PetgraphLaws} `{LM : Libm64} `{MO : MapOrder} {MOL : MapOrderLaws}.
Implicit Types (sc : GraphScope) (ix : Index) (g : SimpleEntityGraph).

Definition step_id (s : LineageStep) : Uuid := rv_id (ls_record s).

Lemma add_step_fold xs seen out :
  (∀ x, x ∈ xs → ∃ s, x.2 = Some s ∧ step_id s = x.1) →
  (∀ id, id ∈ seen ↔ id ∈ step_id <$> out) → NoDup (step_id <$> out) →
  NoDup (step_id <$> (foldl add_step (seen, out) xs).2)
  ∧ (∀ s, s ∈ (foldl add_step (seen, out) xs).2 → s ∈ out ∨ ∃ id, (id, Some s) ∈ xs)
  ∧ ∀ id, id ∈ step_id <$> (foldl add_step (seen, out) xs).2 ↔ id ∈ step_id <$> out ∨ id ∈ xs.*1.
Proof.
  revert seen out. induction xs as [|[id o] xs IH]; intros seen out Hxs Hseen Hnd.
  { simpl. split_and!; [done|by left|]. intros id. rewrite elem_of_nil. tauto. }
  destruct (Hxs (id, o)) as (s & Ho & Hid); [by left|]. simpl in Ho, Hid. subst o.
  assert (∀ x, x ∈ xs → ∃ s, x.2 = Some s ∧ step_id s = x.1) as Hxs' by (intros x Hx; apply Hxs; by right).
  rewrite fmap_cons. cbn [foldl fst]. destruct (decide (id ∈ seen)) as [Hin|Hin].
  - assert (add_step (seen, out) (id, Some s) = (seen, out)) as -> by (unfold add_step; simpl; by rewrite decide_True).
    destruct (IH seen out Hxs' Hseen Hnd) as (H1 & H2 & H3). split_and!; [done| |].
    + intros s' [?|(id' & ?)]%H2; [by left|right]. exists id'. by right.
    + intros id'. rewrite H3, elem_of_cons. apply Hseen in Hin. split; [tauto|]. intros [?|[->|?]]; tauto.
  - assert (add_step (seen, out) (id, Some s) = ({[id]} ∪ seen, out ++ [s])) as -> by (unfold add_step; simpl; by rewrite decide_False).
    destruct (IH ({[id]} ∪ seen) (out ++ [s]) Hxs') as (H1 & H2 & H3).
    + intros id'. rewrite elem_of_union, elem_of_singleton, fmap_app, elem_of_app, Hseen. csimpl. rewrite list_elem_of_singleton, Hid. tauto.
    + rewrite fmap_app. apply NoDup_app. split_and!; [done| |apply NoDup_singleton].
      intros id' Hid' ->%list_elem_of_singleton. rewrite Hid in Hid'. by apply Hin, Hseen.
    + split_and!; [done| |].
      * intros s' [[?| ->%list_elem_of_singleton]%elem_of_app|(id' & ?)]%H2; [by left|right; exists id; by left|right; exists id'; by right].
      * intros id'. rewrite H3, fmap_app, elem_of_app, elem_of_cons. csimpl. rewrite list_elem_of_singleton, Hid. tauto.
Qed.

(** How a record joined the lineage: it asserts a causal relation of the
    chain, or it is a problem or a decision that mentions the entity. *)
Definition joins_lineage sc ix (entity : string) (chain : list string) (s : LineageStep) : Prop :=
  match ls_relation s with
  | Some (from, to, name) =>
    ∃ rel, rel ∈ causal ∧ name = RelationType_as_str rel ∧ from ∈ chain ∧ to ∈ chain
      ∧ (∃ r, r ∈ relationships (gs_graph sc) ∧ rr_from r = from ∧ rr_to r = to ∧ rr_relation_type r = rel)
      ∧ step_id s ∈ asserting (gs_graph sc) (ordered_records sc) (from, to, rel)
  | None => ls_record s ∈ mentioning ix entity ∧ of_kinds [ProblemSolved; DecisionMade] (ls_record s) = true
  end.

Lemma edge_steps_spec sc ix entity l key x :
  index_ok sc ix → chain_ok (gs_graph sc) entity [] l → key ∈ ln_edges l → x ∈ edge_steps ix key →
  ∃ s, x.2 = Some s ∧ step_id s = x.1 ∧ ix_record ix (step_id s) = Some (ls_record s) ∧ joins_lineage sc ix entity (ln_chain l) s.
Proof.
  intros Hok Hch Hkey Hx. apply list_elem_of_fmap in Hx as (id & -> & Hid). rewrite (io_edges _ _ Hok) in Hid.
  case_decide as Hne; [by apply not_elem_of_nil in Hid|]. cbn [default from_option] in Hid. cbn [fst snd].
  pose proof (ix_record_spec sc ix id Hok) as Hr. destruct (asserting_known sc key id Hid) as [su Hsu].
  destruct (ix_record ix id) as [r|] eqn:Hrec; [|congruence]. destruct Hr as [Hrid _]. eexists. split; [done|].
  unfold step_id, joins_lineage. cbn [ls_record ls_relation]. split_and!; [done|by rewrite Hrid|].
  destruct key as [[from to] rel]. destruct (ch_edges _ _ _ _ Hch _ Hkey) as (Hf & Ht & Hc & Hrel). simpl in *.
  exists rel. unfold step_id. simpl. rewrite Hrid. split_and!; [done|done|by apply (ch_seen _ _ _ _ Hch)|by apply (ch_seen _ _ _ _ Hch)|done|done].
Qed.

(** Lineage.  The chain of an entity is exactly the entities within
    [depth] causal relations of it, either way, each once; the steps are
    records of the scope in time order, each once and each joined by a
    causal relation of the chain that it asserts or by being a problem or
    decision that mentions the entity, and all of the latter are there. *)
Theorem lineage_view_exact sc name depth :
  graph_wf (gs_graph sc) →
  ∃ ix, index sc = Some ix ∧
  match find_entity (gs_graph sc) name with
  | None => lineage_view sc name depth = Some None
  | Some e =>
    ∃ v, lineage_view sc name depth = Some (Some v) ∧ lv_entity v = ed_name e
      ∧ head (lv_chain v) = Some (ed_name e) ∧ NoDup (lv_chain v)
      ∧ (∀ a, a ∈ lv_chain v ↔ within (causal_neighbours (gs_graph sc)) (ed_name e) (depth `max` 1) a)
      ∧ StronglySorted (cmp_le step_cmp) (lv_steps v) ∧ NoDup (step_id <$> lv_steps v)
      ∧ (∀ s, s ∈ lv_steps v → ix_record ix (step_id s) = Some (ls_record s) ∧ joins_lineage sc ix (ed_name e) (lv_chain v) s)
      ∧ ∀ r, r ∈ mentioning ix (ed_name e) → of_kinds [ProblemSolved; DecisionMade] r = true → r ∈ ls_record <$> lv_steps v
  end.
Proof.
  intros Hwf. unfold lineage_view. destruct (index_spec sc) as (ix & -> & Hok). exists ix. split; [done|]. cbn [mbind option_bind].
  rewrite (io_graph _ _ Hok). destruct (find_entity (gs_graph sc) name) as [e|]; [|done].
  destruct (lineage_search_spec (gs_graph sc) Hwf (ed_name e) depth) as (l & -> & Hch & Hchain). cbn [mbind option_bind].
  set (causes := sort_by triple_cmp (elements (ln_edges l)) ≫= edge_steps ix).
  set (mentions := (λ r, (rv_id r, Some (mkLineageStep r None))) <$> retain _ (mentioning ix (ed_name e))).
  assert (∀ x, x ∈ causes ++ mentions → ∃ s, x.2 = Some s ∧ step_id s = x.1 ∧ ix_record ix (step_id s) = Some (ls_record s)
    ∧ joins_lineage sc ix (ed_name e) (ln_chain l) s) as Hall.
  { intros x [Hx|Hx]%elem_of_app.
    - apply list_elem_of_bind in Hx as (key & Hx & Hkey). rewrite sort_by_perm, elem_of_elements in Hkey. by eapply edge_steps_spec.
    - apply list_elem_of_fmap in Hx as (r & -> & [Hr Hk]%elem_of_retain). exists (mkLineageStep r None). split_and!; [done..| |by split].
      apply elem_of_mentioning in Hr as (id & _ & Hr). unfold step_id. simpl. by rewrite (ix_record_id sc ix id r Hok Hr). }
  destruct (add_step_fold (causes ++ mentions) ∅ []) as (Hnd & Hin & Hids).
  { intros x (s & ? & ? & _)%Hall. by exists s. }
  { intros id. by rewrite elem_of_empty, elem_of_nil. }
  { constructor. }
  eexists. split; [done|]. cbn [lv_entity lv_chain lv_steps].
  assert (∀ s, s ∈ (foldl add_step (∅, []) (causes ++ mentions)).2 → ix_record ix (step_id s) = Some (ls_record s)
    ∧ joins_lineage sc ix (ed_name e) (ln_chain l) s) as Hsteps.
  { intros s [[]%not_elem_of_nil|(id & Hs)]%Hin. destruct (Hall _ Hs) as (s' & Heq & _ & ? & ?). injection Heq as <-. done. }
  split_and!; [done|apply Hch|apply Hch|done|apply sort_by_sorted; apply _|by rewrite sort_by_perm| |].
  - intros s. rewrite sort_by_perm. apply Hsteps.
  - intros r Hr Hk. rewrite sort_by_perm. assert (rv_id r ∈ step_id <$> (foldl add_step (∅, []) (causes ++ mentions)).2) as Hid.
    { apply Hids. right. apply list_elem_of_fmap. exists (rv_id r, Some (mkLineageStep r None)). split; [done|].
      apply elem_of_app. right. apply list_elem_of_fmap. exists r. split; [done|]. by apply elem_of_retain. }
    apply list_elem_of_fmap in Hid as (s & Heq & Hs). apply list_elem_of_fmap. exists s. split; [|done].
    destruct (Hsteps s Hs) as [Hrec _]. rewrite <-Heq in Hrec. apply elem_of_mentioning in Hr as (id & _ & Hr).
    rewrite (ix_record_id sc ix id r Hok Hr) in Hrec. congruence.
Qed.
End lineage.

(** ** Every request is answered *)

Definition request_entity (request : ViewRequest) : option string :=
  match request with VEntity n _ | VImpact n _ _ | VLineage n _ => Some n | _ => None end.

(** The view that was asked for, with lists no longer than their limits. *)
Definition answers_request (request : ViewRequest) (v : View) : Prop :=
  match request, v with
  | VGraph limit _, ViewGraph v => (length (gv_nodes v) ≤ limit)%nat
  | VEntity _ limit, ViewEntity v => (length (ev_records v) ≤ limit ∧ length (ev_decisions v) ≤ limit)%nat
  | VImpact _ _ limit, ViewImpact v => (length (iv_risks v) ≤ limit)%nat
  | VTimeline _ _ limit, ViewTimeline v => (length (tl_events v) ≤ limit)%nat
  | VTopics limit per_topic, ViewTopics v =>
    (length (tp_topics v) ≤ limit)%nat
    ∧ ∀ t, t ∈ tp_topics v → (length (tv_central t) ≤ per_topic ∧ length (tv_key_decisions t) ≤ per_topic)%nat
  | VLineage _ _, ViewLineage _ => True
  | VRadar limit, ViewRadar v =>
    (length (ra_unsolved_problems v) ≤ limit ∧ length (ra_decisions_without_rationale v) ≤ limit
     ∧ length (ra_open_questions v) ≤ limit ∧ length (ra_stale_entities v) ≤ limit ∧ length (ra_alias_candidates v) ≤ limit)%nat
  | VFile _ _ limit, ViewFile v =>
    (length (fv_records v) ≤ limit ∧ length (fv_problems v) ≤ limit ∧ length (fv_decisions v) ≤ limit)%nat
  | _, _ => False
  end.

Lemma length_take_le {A} n (xs : list A) : (length (take n xs) ≤ n)%nat.
Proof. rewrite length_take. lia. Qed.

Section requests.
Context `{U : Unicode} `{A : Alphanumeric} `{P : Petgraph} `{LM : Libm64} `{MO : MapOrder} {MOL : MapOrderLaws}.
Implicit Types (sc : GraphScope) (ix : Index) (g : SimpleEntityGraph).

Lemma topic_hits_known ix names id n : topic_hits ix names !! id = Some n → in_records ix id = true.
Proof.
  revert id n. unfold topic_hits. apply (foldl_inv _ (λ m : gmap Uuid nat, ∀ id n, m !! id = Some n → in_records ix id = true)).
  - intros m name _ Hm. apply (foldl_inv _ (λ m : gmap Uuid nat, ∀ id n, m !! id = Some n → in_records ix id = true)); [|done].
    clear m Hm. intros m id _ Hm id' n. unfold count_mention. destruct (in_records ix id) eqn:Hid; [|apply Hm].
    intros [[<- _]|[_ Hn]]%lookup_insert_Some; [done|by eapply Hm].
  - intros id n Hn. by rewrite lookup_empty in Hn.
Qed.

Lemma topic_view_total ix per_topic topic :
  ∃ t, topic_view ix per_topic topic = Some t ∧ tv_id t = topic.1 ∧ tv_size t = length topic.2
    ∧ (length (tv_central t) ≤ per_topic ∧ length (tv_key_decisions t) ≤ per_topic)%nat.
Proof.
  destruct topic as [id names]. unfold topic_view.
  assert (is_Some (mapM (λ hn : Uuid * nat, (λ su, cu_timestamp su.2) <$> ix_records ix !! hn.1) (iter_order (topic_hits ix names)))) as [times ->].
  { apply mapM_is_Some, Forall_forall. intros [i n] Hin%elem_of_iter_order%topic_hits_known. simpl. apply fmap_is_Some.
    by apply bool_decide_eq_true in Hin. }
  cbn [mbind option_bind]. eexists. split; [done|]. simpl. rewrite length_fmap. split_and!; [done|done|apply length_take_le..].
Qed.

Lemma topics_view_total sc limit per_topic :
  ∃ v, topics_view sc limit per_topic = Some v ∧ answers_request (VTopics limit per_topic) (ViewTopics v).
Proof.
  unfold topics_view. destruct (index_spec sc) as (ix & -> & Hok). cbn [mbind option_bind].
  set (topics := take limit _).
  assert (∃ ts, mapM (topic_view ix per_topic) topics = Some ts) as [ts Hts].
  { apply mapM_is_Some, Forall_forall. intros t _. destruct (topic_view_total ix per_topic t) as (v & Hv & _). by exists v. }
  rewrite Hts. cbn [mbind option_bind]. eexists. split; [done|]. simpl. split.
  - rewrite <-(length_mapM _ _ _ Hts). apply length_take_le.
  - intros t Ht. apply mapM_Some_1 in Hts. apply list_elem_of_lookup in Ht as [i Hi].
    destruct (Forall2_lookup_r _ _ _ _ _ Hts Hi) as (topic & _ & Heq).
    destruct (topic_view_total ix per_topic topic) as (t' & Ht' & _ & _ & Hlen). congruence.
Qed.

(** Entities outside every topic: the subtraction does not wrap. *)
Lemma unclustered_exact sc limit per_topic v ix :
  index sc = Some ix → topics_view sc limit per_topic = Some v → (N.of_nat (size (entities (gs_graph sc))) < u64_mod)%N →
  (tp_unclustered v + N.of_nat (size (ix_communities ix)) = N.of_nat (size (entities (gs_graph sc))))%N.
Proof.
  intros Hix. unfold topics_view. rewrite Hix. cbn [mbind option_bind]. destruct (mapM _ _) as [ts|]; [|done].
  cbn [mbind option_bind]. intros [= <-] Hlt. destruct (index_spec sc) as (ix' & Hix' & Hok). rewrite Hix in Hix'. injection Hix' as <-.
  simpl. rewrite (io_graph _ _ Hok).
  assert (size (ix_communities ix) ≤ size (entities (gs_graph sc)))%nat as Hle.
  { rewrite <-!size_dom. apply subseteq_size. intros a [c Ha]%elem_of_dom. by apply elem_of_dom, (io_communities _ _ Hok a c). }
  rewrite u64_sub_small by lia. lia.
Qed.
Lemma last_of_length {X} limit (xs : list X) : (length (last_of limit xs) ≤ limit)%nat.
Proof. rewrite last_of_drop, length_drop. lia. Qed.

Lemma of_kind_length records limit kinds current_only : (length (of_kind records limit kinds current_only) ≤ limit)%nat.
Proof. apply length_take_le. Qed.

(** Views that only read the index. *)
Lemma plain_views_total sc :
  ∃ ix, index sc = Some ix
    ∧ (∀ limit at_, ∃ v, graph_view sc limit at_ = Some v ∧ answers_request (VGraph limit at_) (ViewGraph v))
    ∧ (∀ name limit, ∃ v, entity_view sc name limit = Some v ∧ (v = None ↔ find_entity (gs_graph sc) name = None)
         ∧ ∀ v', v = Some v' → answers_request (VEntity name limit) (ViewEntity v'))
    ∧ (∀ now limit, ∃ v, radar_view sc now limit = Some v ∧ answers_request (VRadar limit) (ViewRadar v))
    ∧ ∀ path depth limit, ∃ v, file_view sc path depth limit = Some v ∧ answers_request (VFile path depth limit) (ViewFile v).
Proof.
  destruct (index_spec sc) as (ix & Hix & Hok). exists ix. split; [done|].
  unfold graph_view, entity_view, radar_view, file_view. rewrite Hix. cbn [mbind option_bind]. split_and!.
  - intros limit at_. eexists. split; [done|]. apply length_take_le.
  - intros name limit. rewrite (io_graph _ _ Hok). eexists. split; [done|].
    destruct (find_entity (gs_graph sc) name) as [e|]; cbn [mbind option_bind]; [|by split].
    split; [done|]. intros v' [= <-]. split; apply length_take_le.
  - intros now limit. eexists. split; [done|]. split_and!; apply length_take_le.
  - intros path depth limit. eexists. split; [done|]. split_and!; apply length_take_le.
Qed.

(** C32: Every request is answered: rendering never panics, gives the view that
    was asked for with its lists within the limits of the request, and fails
    exactly when the entity it names is not in the scope. *)
Theorem render_answers `{!PetgraphLaws} now sc request :
  graph_wf (gs_graph sc) →
  ∃ res, render now sc request = Some res ∧
  match res with
  | Ok v => answers_request request v ∧ ∀ name, request_entity request = Some name → is_Some (find_entity (gs_graph sc) name)
  | Err (EntityNotFound name) => request_entity request = Some name ∧ find_entity (gs_graph sc) name = None
  end.
Proof.
  intros Hwf. destruct (plain_views_total sc) as (ix & Hix & Hgraph & Hentity & Hradar & Hfile). destruct request; cbn [render].
  - destruct (Hgraph limit at_) as (v & -> & ?). by eexists.
  - destruct (Hentity name limit) as (v & -> & Hnone & Hv). eexists. split; [done|]. destruct v as [v|]; simpl.
    + split; [by apply Hv|]. intros n [= <-]. destruct (find_entity _ _) as [e|]; [by eexists|]. by discriminate (proj2 Hnone eq_refl).
    + by split; [|apply Hnone].
  - destruct (impact_view_spec sc name depth limit Hwf) as (ix' & _ & Hv).
    destruct (find_entity (gs_graph sc) name) as [e|] eqn:He; [|rewrite Hv; by eexists].
    destruct Hv as (v & risks & -> & _ & _ & Hrisks & _). eexists. split; [done|]. simpl. rewrite Hrisks.
    split; [apply length_take_le|]. intros n [= <-]. by rewrite He.
  - destruct (timeline_spec sc from to limit) as (V & all & v & _ & -> & _ & _ & _ & _ & Hev). eexists. split; [done|]. simpl.
    rewrite Hev, length_drop. split; [lia|done].
  - destruct (topics_view_total sc limit per_topic) as (v & -> & Hv). by eexists.
  - destruct (lineage_view_exact sc name depth Hwf) as (ix' & _ & Hv).
    destruct (find_entity (gs_graph sc) name) as [e|] eqn:He; [|rewrite Hv; by eexists].
    destruct Hv as (v & -> & _). eexists. split; [done|]. split; [done|]. intros n [= <-]. by rewrite He.
  - destruct (Hradar now limit) as (v & -> & ?). by eexists.
  - destruct (Hfile path depth limit) as (v & -> & ?). by eexists.
Qed.
End requests.

(** ** Parsing requests *)

Definition from_one (n max : nat) : Prop := (1 ≤ n ≤ max)%nat.

Definition request_bounded (request : ViewRequest) : Prop :=
  match request with
  | VGraph limit _ | VTimeline _ _ limit | VRadar limit => from_one limit MAX_LIMIT
  | VEntity name limit => name ≠ "" ∧ from_one limit MAX_LIMIT
  | VImpact name depth limit => name ≠ "" ∧ from_one depth 10 ∧ from_one limit MAX_LIMIT
  | VTopics limit per_topic => from_one limit MAX_LIMIT ∧ from_one per_topic 50
  | VLineage name depth => name ≠ "" ∧ from_one depth 10
  | VFile path depth limit => path ≠ "" ∧ from_one depth 10 ∧ from_one limit MAX_LIMIT
  end.

Definition view_name (request : ViewRequest) : string :=
  match request with
  | VGraph _ _ => "graph" | VEntity _ _ => "entity" | VImpact _ _ _ => "impact" | VTimeline _ _ _ => "timeline"
  | VTopics _ _ => "topics" | VLineage _ _ => "lineage" | VRadar _ => "radar" | VFile _ _ _ => "file"
  end.

Section parse.
Context `{CH : Chrono}.

Lemma result_bind_ok {X Y E} (r : result X E) (f : X → result Y E) y :
  result_bind r f = Ok y → ∃ x, r = Ok x ∧ f x = Ok y.
Proof. destruct r as [x|]; [by exists x|done]. Qed.

Lemma get_param_nonempty params k v : get_param params k = Some v → v ≠ "".
Proof.
  unfold get_param. destruct (params !! k) as [s|]; [|done]. simpl. destruct (String.eqb_spec (str_trim s) ""); [done|]. by intros [= <-].
Qed.

Lemma number_param_bounds params k dflt max n :
  from_one dflt max → number_param params k dflt max = Ok n → from_one n max.
Proof.
  intros Hd. unfold number_param. destruct (get_param params k) as [v|]; [|by intros [= <-]].
  destruct (parse_u64 (str_bytes v)) as [m|]; [|done]. intros [= <-]. unfold from_one, clamp_from_one in *. lia.
Qed.

Lemma name_param_nonempty params view n : name_param params view = Ok n → n ≠ "".
Proof.
  unfold name_param. destruct (get_param params "entity") as [v|] eqn:Hv; [intros [= <-]; by eapply get_param_nonempty|].
  destruct (get_param params "entity_name") as [v|] eqn:Hv'; [|done]. intros [= <-]. by eapply get_param_nonempty.
Qed.

(** C33: What the parser accepts is a request for the view named, with a limit
    between 1 and 5000, a depth of at most 10, at most 50 items per topic,
    whatever numbers were sent, and no empty entity name or path; other views
    are refused. *)
Theorem parse_request_bounded view params request :
  parse_request view params = Ok request → view_name request = view ∧ view ∈ VIEW_NAMES ∧ request_bounded request.
Proof.
  intros Hp. enough (view_name request = view ∧ request_bounded request) as [Hv Hb].
  { split_and!; [done| |done]. rewrite <-Hv. destruct request; apply (bool_decide_unpack _); by vm_compute. }
  assert (∀ k dflt max n, (1 <=? dflt)%nat && (dflt <=? max)%nat = true → number_param params k dflt max = Ok n → from_one n max) as Hnum.
  { intros k dflt max n [H1%Nat.leb_le H2%Nat.leb_le]%andb_true_iff. by apply number_param_bounds. }
  unfold parse_request in Hp. apply result_bind_ok in Hp as (limit & Hlimit%Hnum & Hp); [|done]. revert Hp.
  repeat match goal with |- context [String.eqb view ?w] => destruct (String.eqb_spec view w) as [->|_] end; intros Hp; try discriminate Hp.
  - apply result_bind_ok in Hp as (t & _ & [= <-]). done.
  - apply result_bind_ok in Hp as (n & Hn%name_param_nonempty & [= <-]). done.
  - apply result_bind_ok in Hp as (n & Hn%name_param_nonempty & Hp). apply result_bind_ok in Hp as (d & Hd%Hnum & [= <-]); [simpl; by split_and!|done].
  - apply result_bind_ok in Hp as (t & _ & Hp). apply result_bind_ok in Hp as (t' & _ & [= <-]). done.
  - apply result_bind_ok in Hp as (t & Ht%Hnum & [= <-]); [simpl; by split_and!|done].
  - apply result_bind_ok in Hp as (n & Hn%name_param_nonempty & Hp). apply result_bind_ok in Hp as (d & Hd%Hnum & [= <-]); [simpl; by split_and!|done].
  - by injection Hp as <-.
  - apply result_bind_ok in Hp as (p & Hpath & Hp). apply result_bind_ok in Hp as (d & Hd%Hnum & Hp); [|done].
    apply result_bind_ok in Hp as (l & Hl%Hnum & [= <-]); [|done]. simpl. split_and!; [done| |done..].
    destruct (get_param params "path") as [v|] eqn:Hv; [|done]. injection Hpath as <-. by eapply get_param_nonempty.
Qed.
End parse.

(** ** Instances *)

#[local] Existing Instances ascii_unicode ascii_alnum list_graph list_graph_laws key_order key_order_laws demo_libm64.

Definition demo_scope : GraphScope :=
  mkGraphScope _ [with_updates Temporal.demo_records demo_session] demo.

Lemma timeline_exact_witness :
  ∃ all out, timeline demo_scope None None 2 = Some out ∧ tl_total out = length all
    ∧ tl_events out = drop (length all - 2) all ∧ length all = 8%nat.
Proof.
  destruct (timeline_exact demo_scope None None 2) as (V & all & out & _ & Hout & _ & _ & _ & Htotal & Hevents).
  exists all, out. split; [exact Hout|]. split; [exact Htotal|]. split; [exact Hevents|].
  rewrite <-Htotal. vm_compute in Hout. injection Hout as <-. reflexivity.
Defined.

#[local] Existing Instance demo_libm.

(** "Shop" depends on "Auth", which implements "Login". *)
Definition impact_ops : list EntityGraphInv.graph_op :=
  [EntityGraphInv.OpAddRelationship (demo_relation "Auth" "Login" Implements); EntityGraphInv.OpAddRelationship (demo_relation "Shop" "Auth" DependsOn)].
Definition impact_graph : SimpleEntityGraph :=
  default SimpleEntityGraph_new (EntityGraphInv.run_ops demo_now 0 impact_ops SimpleEntityGraph_new).
Definition impact_scope : GraphScope := mkGraphScope _ [] impact_graph.

Lemma impact_graph_wf : graph_wf impact_graph.
Proof.
  unfold impact_graph.
  destruct (EntityGraphInv.run_ops_wf demo_now impact_ops 0 SimpleEntityGraph_new new_wf) as (g & -> & Hg). exact Hg.
Qed.

Lemma impact_view_exact_witness :
  ∃ v, impact_view impact_scope "Login" 3 5 = Some (Some v) ∧ listing depends impact_graph "Login" 3 (iv_dependents v)
    ∧ (λ i, (ii_entity i, ii_depth i)) <$> iv_dependents v = [("Auth", 1); ("Shop", 2)]%nat.
Proof.
  destruct (impact_view_exact impact_scope "Login" 3 5 impact_graph_wf) as (ix & _ & H). vm_compute (find_entity _ _) in H.
  destruct H as (v & risks & Hv & _ & _ & Hd & _). exists v. split; [exact Hv|]. split.
  - apply Hd. apply Forall_forall, (bool_decide_unpack (Forall (λ r, rr_relation_type r ≠ RequiredBy) (relationships impact_graph))).
    vm_compute. exact I.
  - vm_compute in Hv. injection Hv as <-. reflexivity.
Defined.

Lemma render_answers_witness :
  find_entity demo "Nobody" = None ∧ render 0 demo_scope (VEntity "Nobody" 3) = Some (Err (EntityNotFound "Nobody"))
  ∧ ∃ v, render 0 demo_scope (VTopics 3 2) = Some (Ok v) ∧ answers_request (VTopics 3 2) v.
Proof.
  split; [vm_compute; reflexivity|]. split; [vm_compute; reflexivity|].
  destruct (render_answers 0 demo_scope (VTopics 3 2) demo_wf) as ([v|[n]] & Hr & Hv).
  - exists v. split; [exact Hr|exact (proj1 Hv)].
  - destruct Hv as [Hv _]. discriminate Hv.
Defined.

Definition no_chrono : Chrono := {| parse_from_rfc3339 := λ _, None; parse_ymd_midnight := λ _, None |}.
#[local] Existing Instance no_chrono.

Lemma parse_request_bounded_witness :
  parse_request "impact" {[ "entity" := "API"; "depth" := " 99 "; "limit" := "0" ]} = Ok (VImpact "API" 10 1)
  ∧ request_bounded (VImpact "API" 10 1).
Proof.
  assert (parse_request "impact" {[ "entity" := "API"; "depth" := " 99 "; "limit" := "0" ]} = Ok (VImpact "API" 10 1)) as Hp
    by (vm_compute; reflexivity).
  split; [exact Hp|]. exact (proj2 (proj2 (parse_request_bounded _ _ _ Hp))).
Defined.
