(* ===== verification/RequestValidation.v ===== *)
(** * Checking requests

    [daemon/daemon/validate.rs], [coerce.rs] and [host_allowlist.rs]
    ([daemon] is [post-cortex-daemon/src]): what a tool call may carry, how
    loosely typed arguments are repaired, and which [Host] headers are let
    in.  JSON numbers and text (serde_json), authorities (http), IP addresses
    and the display of floats are parameters. *)

From stdpp Require Import gmap.
From S2P Require Import Prelude RustStd Collections StrLemmas UuidText F32 Types JsonPath ContextAssembly SearchResults SearchResultsThms JsonPathThms.

Local Open Scope string_scope.
Local Open Scope list_scope.
Local Open Scope pcx_scope.

(** [serde_json::Number], [to_string] of a number and of a value. *)
Class JsonText (Num : Type) := {
  num_of_u64 : N → Num;
  num_as_u64 : Num → option N;
  num_to_string : Num → string;
  json_to_string : Json Num → result string string;
}.

(** [f32]'s [Display]. *)
Class FloatText := { f32_to_string : f32 → string }.

Section requests.
Context `{U : Unicode} `{UT : UuidText} {Num : Type} `{JT : JsonText Num} `{FT : FloatText}.
Abbreviation Value := (Json Num).

(** ** Errors *)

Record CoercionError := mkCoercionError {
  ce_message : string;
  ce_parameter_path : option string;
  ce_expected_type : option string;
  ce_received_value : option Value;
  ce_hint : option string;
}.

(** [CoercionError::new] with the display of its source error. *)
Definition CoercionError_new (message source : string) (received : option Value) : CoercionError :=
  mkCoercionError (message +:+ (": " +:+ source)) None None received None.
Definition with_parameter_path (path : string) (e : CoercionError) : CoercionError :=
  mkCoercionError (ce_message e) (Some path) (ce_expected_type e) (ce_received_value e) (ce_hint e).
Definition with_expected_type (type_desc : string) (e : CoercionError) : CoercionError :=
  mkCoercionError (ce_message e) (ce_parameter_path e) (Some type_desc) (ce_received_value e) (ce_hint e).
Definition with_hint (hint : string) (e : CoercionError) : CoercionError :=
  mkCoercionError (ce_message e) (ce_parameter_path e) (ce_expected_type e) (ce_received_value e) (Some hint).

(** The chain every check ends in. *)
Definition rejection (message source : string) (received : Value) (path expected hint : string) : CoercionError :=
  with_hint hint (with_expected_type expected (with_parameter_path path (CoercionError_new message source (Some received)))).

Definition CoercionError_display (e : CoercionError) : string :=
  ce_message e
  +:+ ((match ce_parameter_path e with Some path => " (parameter: " +:+ (path +:+ ")") | None => "" end)
       +:+ match ce_hint e with Some hint => newline +:+ ("Hint: " +:+ hint) | None => "" end).

(** ** Ids and choices *)

Definition quoted (before value after : string) : string := before +:+ (value +:+ after).

Definition uuid_format : string :=
  "UUID format: xxxxxxxx-xxxx-xxxx-xxxx-xxxxxxxxxxxx (36 chars with hyphens)".

Definition validate_session_id (session_id : string) : result Uuid CoercionError :=
  match Uuid_parse session_id with
  | Some id => Ok id
  | None =>
    Err (rejection (quoted "Invalid UUID format: '" session_id "'") "Invalid UUID" (JString session_id) "session_id" uuid_format
           "Create a session first using the 'session' tool with action='create', or search for existing sessions using 'semantic_search'")
  end.

Definition validate_workspace_id (workspace_id : string) : result Uuid CoercionError :=
  match Uuid_parse workspace_id with
  | Some id => Ok id
  | None =>
    Err (rejection (quoted "Invalid workspace ID format: '" workspace_id "'") "Invalid UUID" (JString workspace_id) "workspace_id" uuid_format
           "Use the 'manage_workspace' tool with action='list' to see available workspaces, or create one with action='create'")
  end.

(** [VALID.contains(&value.to_lowercase())], or an error that lists them. *)
Definition one_of (valid : list string) (value what source path hint : string) : result () CoercionError :=
  if bool_decide (str_to_lowercase value ∈ valid) then Ok ()
  else
    Err (rejection (quoted what value "'") source (JString value) path ("one of: " +:+ String.concat ", " valid) hint).

Definition VALID_INTERACTION_TYPES : list string :=
  ["qa"; "decision_made"; "problem_solved"; "code_change"; "requirement_added"; "concept_defined"].

Definition validate_interaction_type (interaction_type : string) : result () CoercionError :=
  one_of VALID_INTERACTION_TYPES interaction_type "Invalid interaction_type: '" "Invalid type" "interaction_type"
    "Use exact lowercase term with underscores. Valid types: qa, decision_made, problem_solved, code_change, requirement_added, concept_defined".

Definition validate_scope (scope : string) : result () CoercionError :=
  one_of ["session"; "workspace"; "global"] scope "Invalid scope: '" "Invalid scope" "scope"
    "Valid scopes: 'session' (requires scope_id), 'workspace' (requires scope_id), 'global' (default, no scope_id needed)".

Definition validate_session_action (action : string) : result () CoercionError :=
  one_of ["create"; "list"; "load"; "search"; "update_metadata"; "delete"] action "Invalid action: '" "Invalid action" "action"
    "Valid actions: create (name, description), list, load (session_id), search (query), update_metadata (session_id + name/description), delete (session_id)".

Definition validate_workspace_action (action : string) : result () CoercionError :=
  one_of ["create"; "list"; "get"; "delete"; "add_session"; "remove_session"; "get_card"; "update_card"] action
    "Invalid action: '" "Invalid action" "action"
    "Valid actions: create (with name/description), list, get (workspace_id), delete (workspace_id), add_session (workspace_id, session_id, role), remove_session (workspace_id, session_id)".

Definition validate_session_role (role : string) : result () CoercionError :=
  one_of ["primary"; "related"; "dependency"; "shared"] role "Invalid role: '" "Invalid role" "role"
    "Valid session roles: primary (main session), related (related context), dependency (required context), shared (shared context)".

(** ** Numbers *)

Definition f32_is_infinite (x : f32) : bool :=
  match x with SpecFloat.S754_infinity _ => true | _ => false end.

Definition MIN_RECENCY_BIAS : f32 := f32_zero.
Definition MAX_RECENCY_BIAS : f32 := f32_of_N 10.

Definition validate_recency_bias (recency_bias : option f32) : result (option f32) CoercionError :=
  match recency_bias with
  | None => Ok None
  | Some value =>
    if f32_is_nan value || f32_is_infinite value then
      Err (rejection "Invalid recency_bias value" "NaN or Infinity not allowed" (JString (f32_to_string value)) "recency_bias"
             "finite f32 between 0.0 and 10.0"
             "Use a finite value between 0.0 (disabled) and 10.0 (aggressive decay). Recommended: 0.0-1.0 for most use cases.")
    else if negb (f32_le MIN_RECENCY_BIAS value && f32_le value MAX_RECENCY_BIAS) then
      Err (rejection "recency_bias out of range" "Value must be between 0.0 and 10.0" (JString (f32_to_string value)) "recency_bias"
             "f32 in range [0.0, 10.0]"
             ("Use recency_bias between " +:+ (f32_to_string MIN_RECENCY_BIAS +:+ (" and "
                +:+ (f32_to_string MAX_RECENCY_BIAS +:+ ", or omit for default (0.0 = disabled)")))))
    else Ok (Some value)
  end.

Definition N_text (n : N) : string := Z_to_string (Z.of_N n).

Definition validate_limits (limit : option N) (dflt max : N) : result N CoercionError :=
  let value := default dflt limit in
  let expected := "number between 1 and " +:+ N_text max in
  let hint := "Use limit between 1 and " +:+ (N_text max +:+ (", or omit for default (" +:+ (N_text dflt +:+ ")"))) in
  if (max <? value)%N then
    Err (rejection ("Limit " +:+ (N_text value +:+ (" exceeds maximum of " +:+ N_text max))) "Limit too large"
           (JNumber (num_of_u64 value)) "limit" expected hint)
  else if (value =? 0)%N then
    Err (rejection "Limit must be at least 1" "Limit too small" (JNumber (num_of_u64 value)) "limit" expected hint)
  else Ok value.

(** ** Code references *)

Definition dquote : string := str_of_bytes [34%N].
Definition in_dquotes (s : string) : string := dquote +:+ (s +:+ dquote).

Definition invalid_reference (parameter_path why : string) (received : Value) : CoercionError :=
  rejection ("Invalid code_reference: " +:+ why) "invalid code_reference" received parameter_path
    (in_dquotes "path[:line[-end]]" +:+ (" string or {" +:+ (in_dquotes "file" +:+ (": ..., " +:+ (in_dquotes "line"
       +:+ (": ..., " +:+ (in_dquotes "function" +:+ ": ...} object")))))))
    ("Examples: " +:+ (in_dquotes "src/main.rs:42" +:+ (" or {" +:+ (in_dquotes "file" +:+ (": " +:+ (in_dquotes "src/main.rs"
       +:+ (", " +:+ (in_dquotes "line" +:+ ": 42}")))))))).

Definition reference (path : string) (start end_ : N) : CodeReference :=
  mkCodeReference path start (N.max end_ start) "" None None "".

(** [str::parse::<u32>]. *)
Definition parse_u32 (bs : list N) : option N :=
  n ← parse_u64 bs; if (n <? u32_mod)%N then Some n else None.

(** [str::rsplit_once] and [splitn(2, _)] at an ASCII byte. *)
Definition rsplit_once (sep : N) (s : string) : option (string * string) :=
  match span (λ b, negb (N.eqb sep b)) (reverse (str_bytes s)) with
  | (_, []) => None
  | (after, _ :: before) => Some (str_of_bytes (reverse before), str_of_bytes (reverse after))
  end.
Definition split_two (sep : N) (bs : list N) : list N * option (list N) :=
  match span (λ b, negb (N.eqb sep b)) bs with
  | (before, []) => (before, None)
  | (before, _ :: after) => (before, Some after)
  end.

Definition line_byte (b : N) : bool := is_digit b || N.eqb b 45.

(** A trailing [:N] or [:N-M] is a line specification, any other colon part
    of the path. *)
Definition split_lines (s : string) : string * option string :=
  match rsplit_once 58 s with
  | Some (p, spec) =>
    if negb (String.eqb p "") && negb (String.eqb spec "") && forallb line_byte (str_bytes spec) then (p, Some spec)
    else (s, None)
  | None => (s, None)
  end.

Definition parse_lines (spec : string) : option (N * N) :=
  let '(first, rest) := split_two 45 (str_bytes spec) in
  start ← parse_u32 first;
  end_ ← match rest with Some p => parse_u32 p | None => Some start end;
  Some (start, end_).

Definition string_reference (parameter_path : string) (v : Value) (s : string) : result (option CodeReference) CoercionError :=
  let '(path, lines) := split_lines (str_trim s) in
  if String.eqb path "" then Err (invalid_reference parameter_path "empty file path" v)
  else
    match lines with
    | None => Ok (Some (reference path 0 0))
    | Some spec =>
      match parse_lines spec with
      | Some (start, end_) => Ok (Some (reference path start end_))
      | None => Err (invalid_reference parameter_path "malformed line range" v)
      end
    end.

Definition as_str (v : Value) : option string := match v with JString s => Some s | _ => None end.
Definition str_field (v : Value) (k : string) : option string := json_get k v ≫= as_str.

Definition line_field (parameter_path : string) (v : Value) (k : string) : result (option N) CoercionError :=
  match json_get k v with
  | None | Some JNull => Ok None
  | Some n =>
    match (match n with JNumber n => num_as_u64 n | _ => None end) with
    | Some n =>
      if (n <? u32_mod)%N then Ok (Some n)
      else Err (invalid_reference parameter_path (quoted "'" k "' must be a non-negative integer") v)
    | None => Err (invalid_reference parameter_path (quoted "'" k "' must be a non-negative integer") v)
    end
  end.

Definition option_or {A} (a b : option A) : option A := match a with Some _ => a | None => b end.

Definition object_path (v : Value) : option string :=
  p ← option_or (str_field v "file_path") (str_field v "file");
  if String.eqb (str_trim p) "" then None else Some p.

Definition object_description (v : Value) : string :=
  default ""
    (option_or (str_field v "change_description")
       (option_or (str_field v "description") ((λ f, "in " +:+ f) <$> str_field v "function"))).

Definition object_reference (parameter_path : string) (v : Value) : result (option CodeReference) CoercionError :=
  match object_path v with
  | None => Err (invalid_reference parameter_path "missing 'file' (or 'file_path')" v)
  | Some path =>
    try start_line <- line_field parameter_path v "start_line";
    try line <- line_field parameter_path v "line";
    let start := default 0%N (option_or start_line line) in
    try end_line <- line_field parameter_path v "end_line";
    let r := reference path start (default start end_line) in
    Ok (Some (mkCodeReference path (Types.start_line r) (Types.end_line r) (default "" (str_field v "code_snippet"))
                (str_field v "commit_hash") (str_field v "branch") (object_description v)))
  end.

Definition validate_code_reference (value : option Value) (parameter_path : string) : result (option CodeReference) CoercionError :=
  match value with
  | None | Some JNull => Ok None
  | Some v =>
    match v with
    | JString s => string_reference parameter_path v s
    | JObject _ => object_reference parameter_path v
    | _ => Err (invalid_reference parameter_path "expected a string or an object" v)
    end
  end.

(** ** Coercion *)

Definition bool_to_string (b : bool) : string := if b then "true" else "false".

Definition coerce_scalar_to_string (v : Value) : Value :=
  match v with
  | JNumber n => JString (num_to_string n)
  | JBool b => JString (bool_to_string b)
  | _ => v
  end.

Definition coerce_to_string (v : Value) : result Value CoercionError :=
  match v with
  | JNumber _ | JBool _ => Ok (coerce_scalar_to_string v)
  | JObject _ | JArray _ =>
    match json_to_string v with
    | Ok json => Ok (JString json)
    | Err e => Err (CoercionError_new "Failed to serialize nested value to JSON string" e (Some v))
    end
  | JString _ | JNull => Ok v
  end.

(** A loop over the values of a map or the items of an array, up to the first
    error. *)
Fixpoint try_each {A} (f : A → result A CoercionError) (xs : list A) : result (list A) CoercionError :=
  match xs with
  | [] => Ok []
  | x :: xs => try y <- f x; try ys <- try_each f xs; Ok (y :: ys)
  end.

Definition coerce_value (f : Value → result Value CoercionError) (field : string * Value) : result (string * Value) CoercionError :=
  try v <- f field.2; Ok (field.1, v).

Definition coerce_string_map (v : Value) : result Value CoercionError :=
  match v with
  | JObject map => try map <- try_each (coerce_value coerce_to_string) map; Ok (JObject map)
  | _ => Ok v
  end.

(** The [content] of an update, if it has one. *)
Definition coerce_content (field : string * Value) : result (string * Value) CoercionError :=
  if String.eqb field.1 "content" then coerce_value coerce_string_map field else Ok field.
Definition coerce_update (item : Value) : result Value CoercionError :=
  match item with
  | JObject map => try map <- try_each coerce_content map; Ok (JObject map)
  | _ => Ok item
  end.

Definition ends_with (s suffix : string) : bool := bytes_end_with (str_bytes suffix) (str_bytes s).

Definition coerce_field (key : string) (v : Value) : result Value CoercionError :=
  if String.eqb key "content" || String.eqb key "parameters" then coerce_string_map v
  else if String.eqb key "updates" then
    match v with
    | JArray items => try items <- try_each coerce_update items; Ok (JArray items)
    | _ => Ok v
    end
  else if ends_with key "_id" then Ok (coerce_scalar_to_string v)
  else Ok v.

Definition apply_coercions (value : Value) : result Value CoercionError :=
  match value with
  | JObject obj => try obj <- try_each (λ field, coerce_value (coerce_field field.1) field) obj; Ok (JObject obj)
  | _ => Ok value
  end.

Definition coerce_and_validate {T} (deserialize : Value → result T string) (value : Value) : result T CoercionError :=
  match deserialize value with
  | Ok r => Ok r
  | Err _ =>
    try coerced <- apply_coercions value;
    match deserialize coerced with
    | Ok r => Ok r
    | Err e => Err (CoercionError_new "Failed to deserialize parameter(s)" e None)
    end
  end.

(** ** What an error tells the caller *)

Definition uuid_suggestions (received : option Value) : list string :=
  ["Ensure the session_id is a valid 36-character UUID (e.g., '60c598e2-d602-4e07-a328-c458006d48c7')";
   "Create a new session using the 'session' tool with action='create' to get a valid UUID"]
  ++ match received with
     | Some (JString s) =>
       if Nat.eqb (str_len s) 36 then []
       else ["Your session_id '" +:+ (s +:+ ("' has " +:+ (N_text (N.of_nat (str_len s))
               +:+ " characters, but UUIDs require exactly 36 characters with hyphens.")))]
     | _ => []
     end.

Definition type_suggestions (parameter_path : option string) (received : option Value) : list string :=
  match parameter_path with Some path => [quoted "Parameter '" path "' has an incorrect type"] | None => [] end
  ++ match received with
     | Some (JNumber n) => [quoted "Convert the number " (num_to_string n) " to a string"]
     | Some (JBool b) =>
       ["Convert the boolean " +:+ (bool_to_string b +:+ quoted " to a string ('" (bool_to_string b) "')")]
     | _ => []
     end.

Definition when (b : bool) (suggestions : list string) : list string := if b then suggestions else [].

Definition generate_recovery_suggestions (error_message : string) (parameter_path : option string) (received_value : option Value)
    : list string :=
  let says := str_contains error_message in
  let suggestions :=
    when (says "UUID" || says "36-character") (uuid_suggestions received_value)
    ++ when (says "interaction_type" || says "Unknown interaction type")
         ["Valid interaction_type values are: " +:+ String.concat ", " VALID_INTERACTION_TYPES;
          "Use lowercase with underscores, not CamelCase or spaces";
          "Examples: ✅ 'decision_made' ❌ 'DecisionMade' ❌ 'made decision'"]
    ++ when (says "content" && says "required")
         ["For single update mode, provide both 'interaction_type' and 'content' parameters";
          "For bulk updates, use 'updates' array instead";
          "Content must be an object with key-value pairs"]
    ++ when (says "invalid type" || says "expected") (type_suggestions parameter_path received_value)
    ++ when (says "required" || says "missing")
         ["Check that all required parameters are included in your request";
          "Review the tool schema to see which parameters are required vs optional"]
    ++ when (says "Session not found" || says "session does not exist")
         ["Create a new session using the 'session' tool with action='create'";
          "Or use semantic_search to find existing sessions"]
    ++ when (says "updates" && (says "array" || says "expected length"))
         ["When using bulk mode, 'updates' must be an array of update objects";
          "Each update in the array must have 'interaction_type' and 'content' fields"] in
  if bool_decide (suggestions = []) then
    ["Review the error message and check your parameter types and values";
     "Use dry_run=true to validate your request without making changes";
     "Check the tool documentation for the correct parameter format"]
  else suggestions.

(** The object of an error, its keys in the order of the map. *)
Definition error_details (e : CoercionError) : Value :=
  let suggestions := generate_recovery_suggestions (ce_message e) (ce_parameter_path e) (ce_received_value e) in
  let set (name : string) (v : option Value) (fields : list (string * Value)) : list (string * Value) :=
    match v with Some v => json_insert name v fields | None => fields end in
  JObject
    (set "suggestions" (if bool_decide (suggestions = []) then None else Some (JArray (JString <$> suggestions)))
      (set "hint" (JString <$> ce_hint e)
        (set "receivedValue" (ce_received_value e)
          (set "expectedType" (JString <$> ce_expected_type e)
            (set "parameter" (JString <$> ce_parameter_path e)
              (set "message" (Some (JString (ce_message e))) [])))))).

(** The message of the error [invalid_params] of the protocol. *)
Definition to_mcp_error (e : CoercionError) : string :=
  match json_to_string (error_details e) with Ok text => text | Err _ => "" end.
End requests.

(** ** Hosts let in *)

(** [http::uri::Authority] (host and port of a text that parses as one), the
    IP addresses of the standard library and a string's [Debug] form. *)
Class HostText := {
  Authority_parse : string → option (string * option N);
  Ipv6Addr_parse : string → bool;
  IpAddr_unspecified : string → option bool;
  str_debug : string → string;
}.

Section hosts.
Context `{HT : HostText}.

Definition to_ascii_lowercase (s : string) : string := str_of_bytes (ascii_lower <$> str_bytes s).

(** [trim_start_matches] and [trim_end_matches] of ASCII characters. *)
Definition trim_start_bytes (p : N → bool) (s : string) : string := str_of_bytes (skip_while p (str_bytes s)).
Definition trim_end_bytes (p : N → bool) (s : string) : string :=
  str_of_bytes (reverse (skip_while p (reverse (str_bytes s)))).

(** 91 and 93 are the brackets. *)
Definition normalize_host (host : string) : string :=
  let bracket b := (N.eqb b 91 || N.eqb b 93)%bool in
  to_ascii_lowercase (trim_end_bytes bracket (trim_start_bytes bracket host)).

Definition LOOPBACK_HOSTS : list string := ["localhost"; "127.0.0.1"; "::1"].
Definition ALLOW_ANY_HOST : string := "*".
Definition PUBLIC_PATHS : list string := ["/health"].

Inductive HostPolicy :=
| AnyHost
| Only (entries : list string).

Definition specific_bind_host (host : string) : option string :=
  let trimmed := trim_end_bytes (N.eqb 93) (trim_start_bytes (N.eqb 91) (str_trim host)) in
  match IpAddr_unspecified trimmed with
  | Some true => None
  | _ => if String.eqb trimmed "" then None else Some trimmed
  end.

(** ['/'], ['@'], [' '] and ['*']. *)
Definition entry_byte (b : N) : bool := negb (N.eqb b 47 || N.eqb b 64 || N.eqb b 32 || N.eqb b 42).

Definition parse_entry (entry : string) : option (string * option N) :=
  let entry := str_trim entry in
  if String.eqb entry "" || negb (forallb entry_byte (str_bytes entry)) then None
  else
    match Authority_parse entry with
    | Some (host, port) => Some (normalize_host host, port)
    | None => if Ipv6Addr_parse entry then Some (to_ascii_lowercase entry, None) else None
    end.

(** The loop over [allowed_hosts]: [Ok None] is an early [Any]. *)
Fixpoint config_entries (allowed_hosts : list string) (entries : list string) : result (option (list string)) string :=
  match allowed_hosts with
  | [] => Ok (Some entries)
  | raw :: allowed_hosts =>
    let entry := str_trim raw in
    if String.eqb entry ALLOW_ANY_HOST then Ok None
    else
      match parse_entry entry with
      | None => Err ("invalid allowed_hosts entry " +:+ (str_debug raw +:+ (": expected host, host:port or " +:+ in_dquotes "*")))
      | Some _ => config_entries allowed_hosts (entries ++ [entry])
      end
  end.

(** [retain] of the entries not seen before, whatever their case. *)
Fixpoint retain_new (seen : list string) (entries : list string) : list string :=
  match entries with
  | [] => []
  | e :: entries =>
    if bool_decide (to_ascii_lowercase e ∈ seen) then retain_new seen entries
    else e :: retain_new (to_ascii_lowercase e :: seen) entries
  end.

Definition default_entries (host : string) : list string := LOOPBACK_HOSTS ++ option_list (specific_bind_host host).

(** [host] and [allowed_hosts] are the fields of [DaemonConfig]. *)
Definition from_config (host : string) (allowed_hosts : list string) : result HostPolicy string :=
  try entries <- config_entries allowed_hosts (default_entries host);
  match entries with
  | None => Ok AnyHost
  | Some entries => Ok (Only (retain_new [] entries))
  end.

Definition host_matches (host : string) (port : option N) (entry : string * option N) : bool :=
  bool_decide (entry.1 = host)
  && match entry.2 with None => true | Some p => bool_decide (port = Some p) end.

Definition allows (policy : HostPolicy) (host_header : string) : bool :=
  match policy with
  | AnyHost => true
  | Only entries =>
    match Authority_parse (str_trim host_header) with
    | None => false
    | Some (host, port) => existsb (host_matches (normalize_host host) port) (omap parse_entry entries)
    end
  end.

(** What the middleware does with a request: its path, its [Host] header (with
    the outcome of [to_str]) and the authority of its URI. *)
Inductive Verdict := Forward | Respond (status : N) (body : string).

Definition require_allowed_host (policy : HostPolicy) (path : string) (host_header : option (option string))
    (uri_authority : option string) : Verdict :=
  if bool_decide (path ∈ PUBLIC_PATHS) then Forward
  else
    match option_or (mjoin host_header) uri_authority with
    | Some host => if allows policy host then Forward else Respond 403 "Forbidden: Host header is not allowed"
    | None => Respond 400 "Bad Request: missing Host header"
    end.
End hosts.

(** ** The host policy is exact *)

Class HostTextLaws `{HostText} : Prop := {
  Authority_case a b :
    to_ascii_lowercase a = to_ascii_lowercase b →
    option_map (λ hp, (to_ascii_lowercase hp.1, hp.2)) (Authority_parse a)
    = option_map (λ hp, (to_ascii_lowercase hp.1, hp.2)) (Authority_parse b);
  Ipv6_case a b : to_ascii_lowercase a = to_ascii_lowercase b → Ipv6Addr_parse a = Ipv6Addr_parse b;
}.

Lemma ascii_lower_ok b : byte_ok b → byte_ok (ascii_lower b).
Proof. unfold byte_ok, ascii_lower. destruct (N.leb_spec 65 b), (N.leb_spec b 90); simpl; lia. Qed.

Lemma str_bytes_lower s : str_bytes (to_ascii_lowercase s) = ascii_lower <$> str_bytes s.
Proof.
  apply str_bytes_of_bytes, Forall_fmap. eapply Forall_impl; [apply str_bytes_ok|].
  intros b. apply ascii_lower_ok.
Qed.

Lemma lower_bytes a b :
  to_ascii_lowercase a = to_ascii_lowercase b ↔ ascii_lower <$> str_bytes a = ascii_lower <$> str_bytes b.
Proof. rewrite <-!str_bytes_lower. split; [by intros ->|]. by intros ?%(inj str_bytes). Qed.

Lemma skip_while_fmap (p : N → bool) (f : N → N) cs :
  (∀ c, p (f c) = p c) → skip_while p (f <$> cs) = f <$> skip_while p cs.
Proof. intros Hp. induction cs as [|c cs IH]; csimpl; [done|]. rewrite Hp. by destruct (p c). Qed.

Lemma forallb_fmap (p : N → bool) (f : N → N) cs :
  (∀ c, p (f c) = p c) → forallb p (f <$> cs) = forallb p cs.
Proof. intros Hp. induction cs as [|c cs IH]; csimpl; [done|]. by rewrite Hp, IH. Qed.

Lemma ascii_lower_range c :
  (65 ≤ c ≤ 90 ∧ ascii_lower c = c + 32 ∨ (c < 65 ∨ 90 < c) ∧ ascii_lower c = c)%N.
Proof. unfold ascii_lower. destruct (N.leb_spec 65 c), (N.leb_spec c 90); simpl; lia. Qed.

Ltac lower_case c :=
  destruct (ascii_lower_range c) as [[? ->]|[_ ->]]; [|done];
  apply eq_true_iff_eq; rewrite ?negb_true_iff, ?orb_true_iff, ?orb_false_iff, ?andb_true_iff, ?N.eqb_eq, ?N.eqb_neq, ?N.leb_le; lia.

Lemma is_whitespace_lower c : is_whitespace (ascii_lower c) = is_whitespace c.
Proof. unfold is_whitespace. lower_case c. Qed.

Lemma entry_byte_lower c : entry_byte (ascii_lower c) = entry_byte c.
Proof. unfold entry_byte. lower_case c. Qed.

Lemma bracket_lower c : (N.eqb (ascii_lower c) 91 || N.eqb (ascii_lower c) 93)%bool = (N.eqb c 91 || N.eqb c 93)%bool.
Proof. lower_case c. Qed.

Lemma lower_encode cs :
  Forall is_scalar cs → ascii_lower <$> (cs ≫= utf8_encode) = (ascii_lower <$> cs) ≫= utf8_encode.
Proof.
  induction 1 as [|c cs Hc _ IH]; csimpl; [done|]. rewrite fmap_app, IH. f_equal.
  destruct (N.lt_ge_cases c 128) as [Hlt|Hge].
  - destruct (ascii_lower_range c) as [[? Heq]|[? Heq]]; rewrite !utf8_encode_ascii by (rewrite ?Heq; lia); done.
  - assert (ascii_lower c = c) as -> by (destruct (ascii_lower_range c); lia).
    rewrite <-(list_fmap_id (utf8_encode c)) at 2. apply list_fmap_ext. intros i b Hb.
    apply list_elem_of_lookup_2, utf8_encode_high in Hb; [|done..]. simpl.
    destruct (ascii_lower_range b); lia.
Qed.

Lemma lower_scalar cs : Forall is_scalar cs → Forall is_scalar (ascii_lower <$> cs).
Proof.
  intros Hcs. apply Forall_fmap. eapply Forall_impl; [exact Hcs|]. unfold is_scalar.
  intros c ?. simpl. destruct (ascii_lower_range c); lia.
Qed.

Lemma lower_chars cs :
  Forall is_scalar cs → to_ascii_lowercase (str_of_chars cs) = str_of_chars (ascii_lower <$> cs).
Proof.
  intros Hcs. unfold to_ascii_lowercase, str_of_chars.
  rewrite str_bytes_of_bytes by by apply utf8_bytes_ok; exists cs.
  by rewrite lower_encode.
Qed.

Lemma lower_trim s : utf8_valid s → to_ascii_lowercase (str_trim s) = str_trim (to_ascii_lowercase s).
Proof.
  intros Hs. pose proof (str_trim_valid s Hs) as Ht. destruct Hs as (cs & Hcs & ->). rewrite lower_chars by done.
  unfold str_trim in *. rewrite !str_chars_of_chars in * by (done || by apply lower_scalar).
  rewrite lower_chars.
  - by rewrite (skip_while_fmap _ _ cs), <-fmap_reverse, skip_while_fmap, fmap_reverse by apply is_whitespace_lower.
  - apply Forall_reverse. destruct (skip_while_split is_whitespace (reverse (skip_while is_whitespace cs))) as (w2 & H2 & _).
    destruct (skip_while_split is_whitespace cs) as (w1 & H1 & _).
    rewrite H1 in Hcs. apply Forall_app in Hcs as [_ Hcs]. apply Forall_reverse in Hcs. rewrite H2 in Hcs.
    by apply Forall_app in Hcs as [_ Hcs].
Qed.

Lemma trim_start_lower (p : N → bool) s :
  (∀ c, p (ascii_lower c) = p c) →
  to_ascii_lowercase (trim_start_bytes p s) = trim_start_bytes p (to_ascii_lowercase s).
Proof.
  intros Hp. unfold trim_start_bytes. rewrite str_bytes_lower, skip_while_fmap by done.
  unfold to_ascii_lowercase at 1. rewrite str_bytes_of_bytes; [done|].
  destruct (skip_while_split p (str_bytes s)) as (w & Hw & _). pose proof (str_bytes_ok s) as Hok.
  rewrite Hw in Hok. by apply Forall_app in Hok as [_ Hok].
Qed.

Lemma trim_end_lower (p : N → bool) s :
  (∀ c, p (ascii_lower c) = p c) →
  to_ascii_lowercase (trim_end_bytes p s) = trim_end_bytes p (to_ascii_lowercase s).
Proof.
  intros Hp. unfold trim_end_bytes. rewrite str_bytes_lower, <-fmap_reverse, skip_while_fmap, <-fmap_reverse by done.
  unfold to_ascii_lowercase at 1. rewrite str_bytes_of_bytes; [done|]. apply Forall_reverse.
  destruct (skip_while_split p (reverse (str_bytes s))) as (w & Hw & _).
  pose proof (str_bytes_ok s) as Hok. apply Forall_reverse in Hok. rewrite Hw in Hok. by apply Forall_app in Hok as [_ Hok].
Qed.

Lemma lower_idempotent s : to_ascii_lowercase (to_ascii_lowercase s) = to_ascii_lowercase s.
Proof.
  apply lower_bytes. rewrite str_bytes_lower, <-list_fmap_compose. apply list_fmap_ext. intros i c _. simpl.
  destruct (ascii_lower_range c) as [[? ->]|[? Heq]]; [|by rewrite Heq].
  destruct (ascii_lower_range (c + 32)%N); lia.
Qed.

Lemma normalize_lower a b :
  to_ascii_lowercase a = to_ascii_lowercase b → normalize_host a = normalize_host b.
Proof.
  intros Hab. unfold normalize_host.
  by rewrite !trim_end_lower, !trim_start_lower, Hab by apply bracket_lower.
Qed.

(** Entries that differ in case only are the same entry. *)
Lemma parse_entry_case `{HostTextLaws} a b :
  utf8_valid a → utf8_valid b → to_ascii_lowercase a = to_ascii_lowercase b → parse_entry a = parse_entry b.
Proof.
  intros Ha Hb Hab. unfold parse_entry.
  assert (to_ascii_lowercase (str_trim a) = to_ascii_lowercase (str_trim b)) as Ht by by rewrite !lower_trim, Hab.
  revert Ht. generalize (str_trim a) (str_trim b). clear a b Ha Hb Hab. intros a b Hab.
  pose proof (proj1 (lower_bytes a b) Hab) as Hbytes.
  assert (String.eqb a "" = String.eqb b "") as ->.
  { apply eq_true_iff_eq. rewrite !String.eqb_eq. split; intros ->; [destruct b|destruct a]; done. }
  assert (forallb entry_byte (str_bytes a) = forallb entry_byte (str_bytes b)) as ->.
  { by rewrite <-(forallb_fmap _ ascii_lower (str_bytes a)), Hbytes, forallb_fmap by apply entry_byte_lower. }
  destruct (String.eqb b "" || _); [done|]. pose proof (Authority_case a b Hab) as Hauth.
  rewrite (Ipv6_case a b Hab), Hab.
  destruct (Authority_parse a) as [[h p]|], (Authority_parse b) as [[h' p']|]; simplify_eq/=; [|done].
  by erewrite normalize_lower.
Qed.

Lemma retain_new_sub seen es e : e ∈ retain_new seen es → e ∈ es.
Proof.
  revert seen. induction es as [|x es IH]; intros seen; simpl; [done|].
  case_bool_decide; rewrite ?elem_of_cons; naive_solver.
Qed.

Lemma retain_new_cover seen es e :
  e ∈ es → to_ascii_lowercase e ∈ seen ∨ ∃ e', e' ∈ retain_new seen es ∧ to_ascii_lowercase e' = to_ascii_lowercase e.
Proof.
  revert seen. induction es as [|x es IH]; intros seen; [by intros ?%elem_of_nil|].
  intros [->|Hin]%elem_of_cons; simpl; case_bool_decide as Hx; [by left| | |].
  - right. exists x. split; [by left|done].
  - by apply IH.
  - destruct (IH (to_ascii_lowercase x :: seen) Hin) as [[->|?]%elem_of_cons|(e' & ? & ?)]; [|by left|].
    + right. exists x. split; [by left|done].
    + right. exists e'. split; [by right|done].
Qed.

(** An entry before any [*] that is neither [*] nor a host. *)
Definition malformed `{HostText} (allowed_hosts : list string) : Prop :=
  ∃ before raw after, allowed_hosts = before ++ raw :: after ∧ (ALLOW_ANY_HOST ∉ (str_trim <$> before))
    ∧ str_trim raw ≠ ALLOW_ANY_HOST ∧ parse_entry (str_trim raw) = None.

Lemma malformed_cons `{HostText} raw allowed :
  malformed (raw :: allowed)
  ↔ str_trim raw ≠ ALLOW_ANY_HOST ∧ (parse_entry (str_trim raw) = None ∨ malformed allowed).
Proof.
  split.
  - intros ([|x before] & r & after & Heq & Hb & Hr & Hn); simplify_eq/=; [by split; [|left]|].
    apply not_elem_of_cons in Hb as [Hx Hb]. split; [congruence|]. right. by exists before, r, after.
  - intros (Hx & [Hn|(before & r & after & -> & Hb & Hr & Hn)]).
    + exists [], raw, allowed. split_and!; [done|apply not_elem_of_nil|done..].
    + exists (raw :: before), r, after. split_and!; [done| |done..]. cbn [fmap list_fmap].
      apply not_elem_of_cons. by split; [apply not_eq_sym|].
Qed.

Lemma config_entries_spec `{HostText} allowed entries :
  match config_entries allowed entries with
  | Ok (Some es) => es = entries ++ (str_trim <$> allowed) ∧ (ALLOW_ANY_HOST ∉ (str_trim <$> allowed)) ∧ ¬ malformed allowed
  | Ok None => ALLOW_ANY_HOST ∈ (str_trim <$> allowed) ∧ ¬ malformed allowed
  | Err _ => malformed allowed
  end.
Proof.
  revert entries. induction allowed as [|raw allowed IH]; intros entries; cbn [config_entries fmap list_fmap].
  { split_and!; [by rewrite app_nil_r|by apply not_elem_of_nil|]. by intros (before & r & after & Heq & _); destruct before. }
  destruct (String.eqb_spec (str_trim raw) ALLOW_ANY_HOST) as [Heq|Hne].
  { rewrite malformed_cons, Heq. split; [by left|]. by intros [? _]. }
  destruct (parse_entry (str_trim raw)) as [pe|] eqn:Hp.
  2: { apply malformed_cons. rewrite Hp. split; [done|by left]. }
  specialize (IH (entries ++ [str_trim raw])). pose proof (malformed_cons raw allowed) as Hcons. rewrite Hp in Hcons.
  destruct (config_entries _ _) as [[es|]|].
  - destruct IH as (-> & Hany & Hall). split_and!; [by rewrite <-app_assoc| |naive_solver].
    by apply not_elem_of_cons; split; [apply not_eq_sym|].
  - destruct IH as [? ?]. split; [by right|naive_solver].
  - apply Hcons. by split; [|right].
Qed.

Lemma trim_start_valid (c : N) s : (c < 128)%N → utf8_valid s → utf8_valid (trim_start_bytes (N.eqb c) s).
Proof.
  intros Hc Hs%utf8_valid_bytes. apply utf8_bytes_valid. induction (str_bytes s) as [|b bs IH]; simpl; [done|].
  destruct (N.eqb_spec c b) as [->|]; [|done]. apply IH. by destruct (utf8_cut [] b bs).
Qed.

Lemma trim_end_valid (c : N) s : (c < 128)%N → utf8_valid s → utf8_valid (trim_end_bytes (N.eqb c) s).
Proof.
  intros Hc Hs%utf8_valid_bytes. apply utf8_bytes_valid. induction (str_bytes s) as [|b bs IH] using rev_ind; simpl; [done|].
  rewrite reverse_snoc. simpl. destruct (N.eqb_spec c b) as [->|]; [|by rewrite reverse_cons, reverse_involutive].
  apply IH. by destruct (utf8_cut bs b []).
Qed.

Lemma bind_host_valid `{HostText} host e : utf8_valid host → specific_bind_host host = Some e → utf8_valid e.
Proof.
  intros Hv. unfold specific_bind_host.
  assert (utf8_valid (trim_end_bytes (N.eqb 93) (trim_start_bytes (N.eqb 91) (str_trim host)))) as Ht
    by by apply trim_end_valid, trim_start_valid, str_trim_valid.
  revert Ht. generalize (trim_end_bytes (N.eqb 93) (trim_start_bytes (N.eqb 91) (str_trim host))). intros t Ht.
  destruct (IpAddr_unspecified t) as [[]|]; [done| |]; destruct (String.eqb t ""); by intros [= <-].
Qed.

(** ** What the configuration lets in *)

Section host_spec.
Context `{HTL : HostTextLaws}.

(** A default, the bind host or a configured entry. *)
Definition listed (host : string) (allowed_hosts : list string) (e : string) : Prop :=
  e ∈ LOOPBACK_HOSTS ∨ specific_bind_host host = Some e ∨ e ∈ (str_trim <$> allowed_hosts).

(** A [Host] value whose host is that of a listed entry, whose port is the
    entry's if it names one. *)
Definition names_listed (host : string) (allowed_hosts : list string) (header : string) : Prop :=
  ∃ h port e entry_port,
    Authority_parse (str_trim header) = Some (h, port) ∧ listed host allowed_hosts e
    ∧ parse_entry e = Some (normalize_host h, entry_port) ∧ (entry_port = None ∨ port = entry_port).

Lemma listed_valid host allowed e :
  utf8_valid host → Forall utf8_valid allowed → listed host allowed e → utf8_valid e.
Proof.
  intros Hv Hall [He|[He|He]].
  - unfold LOOPBACK_HOSTS in He. apply utf8_valid_bytes. exists (str_bytes e).
    repeat (apply elem_of_cons in He as [->|He]; [by split; [repeat constructor|vm_compute]|]). by apply elem_of_nil in He.
  - by eapply bind_host_valid.
  - apply list_elem_of_fmap in He as (raw & -> & Hraw). rewrite Forall_forall in Hall. by apply str_trim_valid, Hall.
Qed.

Lemma allows_listed host allowed header :
  utf8_valid host → Forall utf8_valid allowed →
  allows (Only (retain_new [] (default_entries host ++ (str_trim <$> allowed)))) header = true
  ↔ names_listed host allowed header.
Proof.
  intros Hv Hall. set (es := default_entries host ++ (str_trim <$> allowed)).
  assert (∀ e, e ∈ es ↔ listed host allowed e) as Hes.
  { intros e. unfold es, default_entries, listed. rewrite !elem_of_app.
    destruct (specific_bind_host host); simpl; rewrite ?list_elem_of_singleton, ?elem_of_nil; naive_solver. }
  unfold allows, names_listed. destruct (Authority_parse (str_trim header)) as [[h port]|]; [|naive_solver].
  rewrite existsb_exists. setoid_rewrite <-list_elem_of_In. setoid_rewrite list_elem_of_omap. unfold host_matches.
  split.
  - intros ([ah ap] & (e & He & Hp) & Hm). apply andb_true_iff in Hm as [Hh%bool_decide_eq_true Hm]. simpl in Hh, Hm. subst ah.
    exists h, port, e, ap. split_and!; [done| |done|].
    + by eapply Hes, retain_new_sub.
    + destruct ap; [|by left]. apply bool_decide_eq_true in Hm. by right.
  - intros (h' & port' & e & ap & Heq & He & Hp & Hm). simplify_eq.
    destruct (retain_new_cover [] es e) as [[]%elem_of_nil|(e' & He' & Hl)]; [by apply Hes|].
    exists (normalize_host h', ap). split.
    + exists e'. split; [done|]. rewrite <-Hp. apply parse_entry_case; [..|done]; eapply listed_valid; try done.
      by eapply Hes, retain_new_sub.
    + simpl. rewrite bool_decide_eq_true_2 by done. simpl. destruct ap; [|done]. apply bool_decide_eq_true_2. naive_solver.
Qed.

End host_spec.

(** ** Code references round trip *)

Class JsonTextLaws `{JsonText Num} : Prop := {
  num_round_trip n : (n < u64_mod)%N → num_as_u64 (num_of_u64 n) = Some n;
}.

Lemma span_sep (sep : N) a r :
  Forall (λ b, b ≠ sep) a → span (λ b, negb (N.eqb sep b)) (a ++ sep :: r) = (a, sep :: r).
Proof.
  intros Ha. apply span_stop.
  - eapply Forall_impl; [exact Ha|]. intros b Hb. apply negb_true_iff, N.eqb_neq. congruence.
  - intros b [= <-]. by rewrite N.eqb_refl.
Qed.

Lemma span_all (sep : N) a : Forall (λ b, b ≠ sep) a → span (λ b, negb (N.eqb sep b)) a = (a, []).
Proof.
  intros Ha. rewrite <-(app_nil_r a) at 1. apply span_stop; [|done].
  eapply Forall_impl; [exact Ha|]. intros b Hb. apply negb_true_iff, N.eqb_neq. congruence.
Qed.

Lemma rsplit_once_app (sep : N) p spec :
  (sep < 256)%N → Forall (λ b, b ≠ sep) (str_bytes spec) →
  rsplit_once sep (p +:+ (str_of_bytes [sep] +:+ spec)) = Some (p, spec).
Proof.
  intros Hsep Hs. unfold rsplit_once. rewrite !str_bytes_app, (str_bytes_of_bytes [sep]) by by repeat constructor.
  rewrite app_assoc, reverse_app, reverse_snoc.
  rewrite span_sep by by apply Forall_reverse. by rewrite !reverse_involutive, !str_of_bytes_bytes.
Qed.

Lemma digits_not (b : N) ds : (b < 48 ∨ 57 < b)%N → Forall (λ d, is_digit d = true) ds → Forall (λ d, d ≠ b) ds.
Proof. intros Hb Hds. eapply Forall_impl; [exact Hds|]. intros d ?%is_digit_range. lia. Qed.

Lemma parse_u32_decimal n : (n < u32_mod)%N → parse_u32 (decimal_N n) = Some n.
Proof.
  intros Hn. unfold parse_u32. rewrite parse_u64_decimal by (unfold u32_mod, u64_mod in *; lia). simpl.
  by rewrite (proj2 (N.ltb_lt _ _) Hn).
Qed.

Lemma N_text_digits n : Forall (λ d, is_digit d = true) (str_bytes (N_text n)) ∧ N_text n ≠ "".
Proof.
  destruct (decimal_N_spec n) as (Hne & Hds & _). unfold N_text. split.
  - by rewrite decimal_bytes.
  - intros Heq%(f_equal str_bytes). by rewrite decimal_bytes in Heq.
Qed.

(** [N] or [N-M], as the tools write them. *)
Definition lines_text (start : N) (end_ : option N) : string :=
  N_text start +:+ match end_ with Some e => "-" +:+ N_text e | None => "" end.

Lemma parse_lines_text start end_ :
  (start < u32_mod)%N → (∀ e, end_ = Some e → (e < u32_mod)%N) →
  parse_lines (lines_text start end_) = Some (start, default start end_).
Proof.
  intros Hs He. unfold parse_lines, lines_text, split_two. rewrite !str_bytes_app. unfold N_text.
  rewrite decimal_bytes. destruct (decimal_N_spec start) as (_ & Hds & _).
  apply (digits_not 45) in Hds; [|lia]. destruct end_ as [e|].
  - rewrite str_bytes_app, decimal_bytes. change (str_bytes "-") with [45%N]. cbn [app].
    rewrite span_sep by done. rewrite !parse_u32_decimal by auto. done.
  - change (str_bytes "") with (@nil N). rewrite app_nil_r, span_all by done. by rewrite parse_u32_decimal.
Qed.

Lemma lines_text_bytes start end_ : Forall (λ b, line_byte b = true) (str_bytes (lines_text start end_)) ∧ lines_text start end_ ≠ "".
Proof.
  destruct (N_text_digits start) as [Hs Hne]. unfold lines_text. split.
  - rewrite str_bytes_app. apply Forall_app. split.
    + eapply Forall_impl; [exact Hs|]. intros b Hb. unfold line_byte. by rewrite Hb.
    + destruct end_ as [e|]; [|constructor]. rewrite str_bytes_app. apply Forall_app. split; [by repeat constructor|].
      destruct (N_text_digits e) as [He _]. eapply Forall_impl; [exact He|]. intros b Hb. unfold line_byte. by rewrite Hb.
  - by destruct (N_text start).
Qed.

Lemma line_byte_range b : line_byte b = true → (45 ≤ b ≤ 57)%N ∧ solid b.
Proof.
  unfold line_byte, solid. rewrite orb_true_iff, is_digit_range, N.eqb_eq. intros Hb.
  assert (45 ≤ b ≤ 57)%N as Hr by lia. split_and!; [lia..|]. unfold is_whitespace.
  rewrite !orb_false_iff, !andb_false_iff, !N.eqb_neq, !N.leb_gt. lia.
Qed.

Lemma length_skip_while (p : N → bool) cs : (length (skip_while p cs) ≤ length cs)%nat.
Proof. induction cs as [|c cs IH]; simpl; [done|]. destruct (p c); simpl; lia. Qed.

Lemma trimmed_head c cs :
  Forall is_scalar (c :: cs) → str_trim (str_of_chars (c :: cs)) = str_of_chars (c :: cs) → is_whitespace c = false.
Proof.
  intros Hcs Heq. unfold str_trim in Heq. rewrite str_chars_of_chars in Heq by done.
  destruct (is_whitespace c) eqn:Hc; [exfalso|done]. cbn [skip_while] in Heq. rewrite Hc in Heq.
  set (m := skip_while is_whitespace cs) in *. set (k := skip_while is_whitespace (reverse m)) in *.
  assert (reverse k = c :: cs) as Hk.
  { rewrite <-(str_chars_of_chars (c :: cs)), <-Heq by done. symmetry. apply str_chars_of_chars, Forall_reverse.
    destruct (skip_while_split is_whitespace (reverse m)) as (w2 & H2 & _). destruct (skip_while_split is_whitespace cs) as (w1 & H1 & _).
    apply Forall_cons in Hcs as [_ Hcs]. rewrite H1 in Hcs. apply Forall_app in Hcs as [_ Hm%Forall_reverse].
    fold m in Hm. rewrite H2 in Hm. by apply Forall_app in Hm as [_ Hm]. }
  apply (f_equal length) in Hk. rewrite length_reverse in Hk. simpl in Hk.
  pose proof (length_skip_while is_whitespace (reverse m)) as Hl. pose proof (length_skip_while is_whitespace cs) as Hl'.
  rewrite length_reverse in Hl. subst k m. lia.
Qed.

(** Text that starts like a trimmed one and ends in solid characters is
    trimmed. *)
Lemma str_trim_suffix path tail :
  utf8_valid path → str_trim path = path → path ≠ "" → tail ≠ "" → Forall solid (str_bytes tail) →
  str_trim (path +:+ tail) = path +:+ tail.
Proof.
  intros (cs & Hcs & ->) Htrim Hne Htail Hsolid. destruct cs as [|c cs]; [done|].
  pose proof (trimmed_head c cs Hcs Htrim) as Hc. set (ts := str_bytes tail) in *.
  assert (Forall (λ b, b < 128)%N ts) as Hascii by by apply solid_ascii.
  assert (str_of_chars (c :: cs) +:+ tail = str_of_chars ((c :: cs) ++ ts)) as Heq.
  { apply (inj str_bytes). rewrite str_bytes_app. rewrite !str_bytes_of_chars.
    - rewrite bind_app. by rewrite (utf8_encode_all_ascii ts).
    - apply Forall_app. split; [done|]. eapply Forall_impl; [exact Hascii|]. unfold is_scalar. intros b ?. lia.
    - done. }
  rewrite Heq. unfold str_trim. rewrite str_chars_of_chars.
  2:{ apply Forall_app. split; [done|]. eapply Forall_impl; [exact Hascii|]. unfold is_scalar. intros b ?. lia. }
  cbn [app skip_while]. rewrite Hc. change (c :: cs ++ ts) with ((c :: cs) ++ ts). rewrite reverse_app.
  destruct (reverse ts) as [|t rts] eqn:Hts.
  { apply (f_equal reverse) in Hts. rewrite reverse_involutive in Hts. simpl in Hts.
    exfalso. apply Htail. by apply (inj str_bytes). }
  assert (is_whitespace t = false) as Ht.
  { apply Forall_reverse in Hsolid. rewrite Hts in Hsolid. by apply Forall_cons in Hsolid as [[_ ?] _]. }
  cbn [app skip_while]. rewrite Ht. f_equal.
  change (t :: rts ++ reverse (c :: cs)) with ((t :: rts) ++ reverse (c :: cs)).
  by rewrite <-Hts, <-reverse_app, reverse_involutive.
Qed.

Section references.
Context `{U : Unicode} {Num : Type} `{JL : JsonTextLaws Num}.

(** A reference as serde writes it, its keys in the order of the map. *)
Definition reference_json (r : CodeReference) : Json Num :=
  let text (s : option string) : Json Num := match s with Some s => JString s | None => JNull end in
  JObject
    [("branch", text (branch r)); ("change_description", JString (change_description r));
     ("code_snippet", JString (code_snippet r)); ("commit_hash", text (commit_hash r));
     ("end_line", JNumber (num_of_u64 (end_line r))); ("file_path", JString (file_path r));
     ("start_line", JNumber (num_of_u64 (start_line r)))].

Lemma line_field_number parameter_path v k n :
  (n < u32_mod)%N → json_get k v = Some (JNumber (num_of_u64 n)) → line_field parameter_path v k = Ok (Some n).
Proof.
  intros Hn Hk. unfold line_field. rewrite Hk, num_round_trip by (unfold u32_mod, u64_mod in *; lia).
  by rewrite (proj2 (N.ltb_lt _ _) Hn).
Qed.

Lemma line_field_bound parameter_path (v : Json Num) k n : line_field parameter_path v k = Ok (Some n) → (n < u32_mod)%N.
Proof.
  unfold line_field. destruct (json_get k v) as [w|]; [|done].
  destruct w; simpl; try done. destruct (num_as_u64 _) as [m|]; [|done]. by destruct (N.ltb_spec m u32_mod); intros [= <-].
Qed.

Lemma parse_u32_bound bs n : parse_u32 bs = Some n → (n < u32_mod)%N.
Proof. unfold parse_u32. destruct (parse_u64 bs) as [m|]; [|done]. simpl. by destruct (N.ltb_spec m u32_mod); intros [= <-]. Qed.

Lemma parse_lines_bound spec start end_ : parse_lines spec = Some (start, end_) → (start < u32_mod ∧ end_ < u32_mod)%N.
Proof.
  unfold parse_lines. destruct (split_two 45 (str_bytes spec)) as [first rest].
  destruct (parse_u32 first) as [s|] eqn:Hs; [|done]. apply parse_u32_bound in Hs. destruct rest as [p|]; simpl; [|by intros [= <- <-]].
  destruct (parse_u32 p) as [e|] eqn:He; [|done]. apply parse_u32_bound in He. by intros [= <- <-].
Qed.

(** What an accepted reference satisfies. *)
Definition well_placed (r : CodeReference) : Prop :=
  file_path r ≠ "" ∧ (start_line r ≤ end_line r < u32_mod)%N.

Lemma reference_placed path start end_ :
  path ≠ "" → (start < u32_mod)%N → (end_ < u32_mod)%N → well_placed (reference path start end_).
Proof. intros Hp Hs He. split; [done|]. simpl. lia. Qed.

Lemma string_reference_placed parameter_path (v : Json Num) s r :
  string_reference parameter_path v s = Ok (Some r) → well_placed r.
Proof.
  unfold string_reference. destruct (split_lines (str_trim s)) as [path lines]. destruct (String.eqb_spec path ""); [done|].
  destruct lines as [spec|]; [|by intros [= <-]; apply reference_placed].
  destruct (parse_lines spec) as [[a b]|] eqn:Hp; [|done]. apply parse_lines_bound in Hp as [? ?].
  intros [= <-]. by apply reference_placed.
Qed.

Lemma object_reference_placed parameter_path (v : Json Num) r :
  object_reference parameter_path v = Ok (Some r) → well_placed r.
Proof.
  unfold object_reference. destruct (object_path v) as [path|] eqn:Hp; [|done].
  assert (path ≠ "") as Hne.
  { unfold object_path in Hp. destruct (option_or _ _) as [p|]; [|done]. cbn [mbind option_bind] in Hp.
    destruct (String.eqb_spec (str_trim p) "") as [|Hn]; [done|]. intros ->. by simplify_eq. }
  destruct (line_field parameter_path v "start_line") as [a|] eqn:Ha; [|done]. cbn [result_bind].
  destruct (line_field parameter_path v "line") as [b|] eqn:Hb; [|done]. cbn [result_bind].
  destruct (line_field parameter_path v "end_line") as [c|] eqn:Hc; [|done]. cbn [result_bind].
  intros [= <-].
  assert (∀ o k, line_field parameter_path v k = Ok o → (default 0 o < u32_mod)%N) as Hbound.
  { intros [o|] k Hk; [by eapply line_field_bound|done]. }
  assert (default 0 (option_or a b) < u32_mod)%N as Hstart.
  { destruct a; simpl; [by apply (Hbound _ _ Ha)|by apply (Hbound _ _ Hb)]. }
  apply (reference_placed path (default 0%N (option_or a b)) (default (default 0%N (option_or a b)) c)); [done..|].
  destruct c; [by apply (Hbound _ _ Hc)|done].
Qed.

Lemma validate_none value parameter_path :
  validate_code_reference value parameter_path = Ok None ↔ value = None ∨ value = Some (@JNull Num).
Proof.
  split; [|by intros [-> | ->]]. unfold validate_code_reference. destruct value as [v|]; [|by left].
  destruct v; try done; [by right|unfold string_reference|unfold object_reference].
  - destruct (split_lines _) as [path lines]. repeat case_match; done.
  - destruct (object_path _); [|done]. repeat (destruct (line_field _ _ _); [|done]; cbn [result_bind]). done.
Qed.

Lemma read_reference_json r parameter_path :
  well_placed r → str_trim (file_path r) ≠ "" →
  validate_code_reference (Some (reference_json r)) parameter_path = Ok (Some r).
Proof.
  intros (_ & Hr) Hp. destruct r as [path start end_ snippet commit br desc].
  cbn [file_path start_line end_line] in *. unfold validate_code_reference, reference_json at 1.
  change (JObject _) with (reference_json (mkCodeReference path start end_ snippet commit br desc)).
  set (v := reference_json _). unfold object_reference, object_path.
  assert (str_field v "file_path" = Some path) as -> by done. cbn [option_or mbind option_bind].
  destruct (String.eqb_spec (str_trim path) ""); [done|].
  rewrite (line_field_number _ v "start_line" start) by (done || lia). cbn [result_bind].
  assert (line_field parameter_path v "line" = Ok None) as -> by done. cbn [result_bind].
  rewrite (line_field_number _ v "end_line" end_) by (done || lia). cbn [result_bind option_or default].
  assert (str_field v "code_snippet" = Some snippet) as -> by done.
  assert (str_field v "commit_hash" = commit) as -> by by destruct commit.
  assert (str_field v "branch" = br) as -> by by destruct br.
  assert (object_description v = desc) as -> by done.
  simpl. by rewrite N.max_l by lia.
Qed.

(** A trailing colon, digits and hyphens after some path. *)
Definition line_spec (text path spec : string) : Prop :=
  text = path +:+ (":" +:+ spec) ∧ path ≠ "" ∧ spec ≠ "" ∧ Forall (λ b, is_digit b = true ∨ b = 45%N) (str_bytes spec).

(** The decimal numeral of a 32-bit number, leading zeros allowed. *)
Definition numeral (bs : list N) (n : N) : Prop :=
  bs ≠ [] ∧ digits_value 0 bs = Some (Z.of_N n) ∧ (n < u32_mod)%N.

(** [N] denotes the line [N], [N-M] the lines from [N] to [M]. *)
Definition denotes (spec : string) (start end_ : N) : Prop :=
  (numeral (str_bytes spec) start ∧ end_ = start)
  ∨ ∃ a b, str_bytes spec = a ++ 45%N :: b ∧ numeral a start ∧ numeral b end_.

Lemma line_spec_bytes text path spec : line_spec text path spec → Forall (λ b, line_byte b = true) (str_bytes spec).
Proof.
  intros (_ & _ & _ & Hb). eapply Forall_impl; [exact Hb|]. intros b. unfold line_byte.
  rewrite orb_true_iff, N.eqb_eq. done.
Qed.

Lemma rsplit_once_inv (sep : N) s p spec :
  (sep < 256)%N → rsplit_once sep s = Some (p, spec) → s = p +:+ (str_of_bytes [sep] +:+ spec).
Proof.
  intros Hsep. unfold rsplit_once. pose proof (span_split (λ b, negb (N.eqb sep b)) (reverse (str_bytes s))) as Hspan.
  destruct (span _ _) as [after [|x before]] eqn:Hs; [done|]. destruct Hspan as [Heq _].
  assert (x = sep) as ->.
  { clear Heq. revert after Hs. induction (reverse (str_bytes s)) as [|b bs IH]; intros after; simpl; [done|].
    destruct (N.eqb_spec sep b) as [->|]; simpl; [by intros [= _ ->]|]. destruct (span _ bs) as [a c].
    intros [= <- ->]. by eapply IH. }
  intros [= <- <-]. apply (f_equal reverse) in Heq. rewrite reverse_involutive, reverse_app, reverse_cons in Heq.
  pose proof (str_bytes_ok s) as Hok. rewrite Heq, !Forall_app in Hok. destruct Hok as ((Hb & _) & Ha).
  apply (inj str_bytes). rewrite !str_bytes_app, !str_bytes_of_bytes by (done || by repeat constructor).
  by rewrite Heq, <-app_assoc.
Qed.

(** [split_lines] finds the line specification, if there is one. *)
Lemma split_lines_spec text path spec : line_spec text path spec → split_lines text = (path, Some spec).
Proof.
  intros Hl. pose proof (line_spec_bytes _ _ _ Hl) as Hb. destruct Hl as (-> & Hp & Hs & _).
  unfold split_lines. change ":" with (str_of_bytes [58%N]). rewrite rsplit_once_app; [|done|].
  - destruct (String.eqb_spec path ""); [done|]. destruct (String.eqb_spec spec ""); [done|]. simpl.
    assert (forallb line_byte (str_bytes spec) = true) as ->; [|done].
    apply forallb_forall. intros b Hin%list_elem_of_In. rewrite Forall_forall in Hb. by apply Hb.
  - eapply Forall_impl; [exact Hb|]. intros b [? _]%line_byte_range. lia.
Qed.

Lemma split_lines_plain text : (∀ path spec, ¬ line_spec text path spec) → split_lines text = (text, None).
Proof.
  intros Hno. unfold split_lines. destruct (rsplit_once 58 text) as [[p spec]|] eqn:Hr; [|done].
  apply rsplit_once_inv in Hr; [|done]. destruct (_ && _) eqn:Hb; [|done]. exfalso.
  rewrite !andb_true_iff, !negb_true_iff, !String.eqb_neq, forallb_forall in Hb. destruct Hb as ((Hp & Hs) & Hall).
  apply (Hno p spec). split_and!; [exact Hr|done..|]. apply Forall_forall. intros b Hin%list_elem_of_In%Hall.
  unfold line_byte in Hin. by rewrite orb_true_iff, N.eqb_eq in Hin.
Qed.

Lemma text_line_spec path start end_ :
  utf8_valid path → str_trim path = path → path ≠ "" →
  line_spec (str_trim (path +:+ (":" +:+ lines_text start end_))) path (lines_text start end_).
Proof.
  intros Hv Ht Hne. destruct (lines_text_bytes start end_) as [Hb Hl]. set (spec := lines_text start end_) in *.
  rewrite str_trim_suffix; [|done..|].
  - split_and!; [done..|]. eapply Forall_impl; [exact Hb|]. intros b. unfold line_byte. by rewrite orb_true_iff, N.eqb_eq.
  - rewrite str_bytes_app. apply Forall_app. split; [by repeat constructor|].
    eapply Forall_impl; [exact Hb|]. by intros b [_ ?]%line_byte_range.
Qed.

Lemma read_lines path start end_ parameter_path :
  utf8_valid path → str_trim path = path → path ≠ "" →
  (start < u32_mod)%N → (∀ e, end_ = Some e → (e < u32_mod)%N) →
  validate_code_reference (Some (@JString Num (path +:+ (":" +:+ lines_text start end_)))) parameter_path
  = Ok (Some (reference path start (default start end_))).
Proof.
  intros Hv Ht Hne Hs He. unfold validate_code_reference, string_reference.
  rewrite (split_lines_spec _ _ _ (text_line_spec path start end_ Hv Ht Hne)). destruct (String.eqb_spec path ""); [done|]. by rewrite parse_lines_text.
Qed.

Lemma digits_value_nonneg ds acc v : (0 ≤ acc)%Z → digits_value acc ds = Some v → (0 ≤ v)%Z.
Proof.
  revert acc. induction ds as [|d ds IH]; intros acc Hacc; simpl; [by intros [= <-]|].
  destruct (is_digit d); [|done]. apply IH. lia.
Qed.

Lemma parse_u32_numeral bs n : Forall (λ b, line_byte b = true) bs → parse_u32 bs = Some n ↔ numeral bs n.
Proof.
  intros Hb. unfold parse_u32, parse_u64, numeral. destruct bs as [|b bs]; [naive_solver|].
  assert (N.eqb b 43 = false) as ->.
  { apply Forall_cons in Hb as [[? _]%line_byte_range _]. apply N.eqb_neq. lia. }
  destruct (digits_value 0 (b :: bs)) as [v|] eqn:Hv; cbn [mbind option_bind]; [|naive_solver].
  pose proof (digits_value_nonneg _ _ _ ltac:(done) Hv) as Hpos.
  assert (u32_mod < u64_mod)%N by done.
  destruct (N.ltb_spec (Z.to_N v) u64_mod); simpl; [destruct (N.ltb_spec (Z.to_N v) u32_mod)|].
  - split; [intros [= <-]; split_and!; [done|f_equal; lia|done]|].
    intros (_ & [= ->] & _). f_equal. lia.
  - split; [done|]. intros (_ & [= ->] & ?). lia.
  - split; [done|]. intros (_ & [= ->] & ?). lia.
Qed.

Lemma digits_value_Forall ds acc v : digits_value acc ds = Some v → Forall (λ d, is_digit d = true) ds.
Proof.
  revert acc. induction ds as [|d ds IH]; intros acc; simpl; [constructor|].
  destruct (is_digit d) eqn:Hd; [|done]. intros Hv. constructor; [done|by eapply IH].
Qed.

Lemma numeral_no_hyphen bs n : numeral bs n → Forall (λ b, b ≠ 45%N) bs.
Proof. intros (_ & Hv%digits_value_Forall & _). by apply (digits_not 45); [lia|]. Qed.

Lemma parse_lines_denotes spec start end_ :
  Forall (λ b, line_byte b = true) (str_bytes spec) → parse_lines spec = Some (start, end_) ↔ denotes spec start end_.
Proof.
  unfold parse_lines, denotes, split_two. generalize (str_bytes spec) as bs. intros bs Hb.
  destruct (decide (45%N ∈ bs)) as [(a & b & -> & Ha)%list_elem_of_split_l|Hno].
  - rewrite span_sep by (apply Forall_forall; by intros x Hx ->). apply Forall_app in Hb as [Hba [_ Hbb]%Forall_cons].
    split.
    + destruct (parse_u32 a) as [n|] eqn:Hn; [|done]. destruct (parse_u32 b) as [m|] eqn:Hm; [|done]. intros [= <- <-].
      right. exists a, b. split_and!; [done|by apply parse_u32_numeral..].
    + intros [[Hn%numeral_no_hyphen _]|(a' & b' & Heq & Hn & Hm)].
      { apply Forall_app in Hn as [_ [? _]%Forall_cons]. done. }
      assert (a' = a ∧ b' = b) as [-> ->].
      { pose proof (numeral_no_hyphen _ _ Hn) as Hna.
        pose proof (span_sep 45 a b ltac:(apply Forall_forall; by intros x Hx ->)) as H1.
        pose proof (span_sep 45 a' b' Hna) as H2. rewrite Heq, H2 in H1. by simplify_eq. }
      apply parse_u32_numeral in Hn as ->; [|done]. apply parse_u32_numeral in Hm as ->; done.
  - assert (Forall (λ b, b ≠ 45%N) bs) as Hall by (apply Forall_forall; by intros x Hx ->).
    rewrite span_all by done. split.
    + destruct (parse_u32 bs) as [n|] eqn:Hn; [|done]. intros [= <- <-]. left. split; [by apply parse_u32_numeral|done].
    + intros [[Hn ->]|(a & b & -> & _)].
      * by apply parse_u32_numeral in Hn as ->.
      * apply Forall_app in Hall as [_ [? _]%Forall_cons]. done.
Qed.

(** What a text is read as: its line specification decides, anything else is a
    path. *)
Lemma read_text text parameter_path :
  let outcome := validate_code_reference (Some (@JString Num text)) parameter_path in
  (∀ path spec, line_spec (str_trim text) path spec →
     (∀ start end_, denotes spec start end_ → outcome = Ok (Some (reference path start end_)))
     ∧ ((∀ start end_, ¬ denotes spec start end_) → ∃ e, outcome = Err e))
  ∧ ((∀ path spec, ¬ line_spec (str_trim text) path spec) → str_trim text ≠ "" →
     outcome = Ok (Some (reference (str_trim text) 0 0)))
  ∧ (str_trim text = "" → ∃ e, outcome = Err e).
Proof.
  unfold validate_code_reference, string_reference. cbv zeta. split_and!.
  - intros path spec Hl. rewrite (split_lines_spec _ _ _ Hl). pose proof (line_spec_bytes _ _ _ Hl) as Hb.
    destruct Hl as (_ & Hp & _). destruct (String.eqb_spec path ""); [done|]. split.
    + intros start end_ Hd. by apply parse_lines_denotes in Hd as ->.
    + intros Hno. destruct (parse_lines spec) as [[a b]|] eqn:Hd; [|by eexists].
      apply parse_lines_denotes in Hd; [|done]. by destruct (Hno a b).
  - intros Hno Hne. rewrite split_lines_plain by done. by destruct (String.eqb_spec (str_trim text) "").
  - intros ->. by eexists.
Qed.

(** C39: a code reference that is accepted has a path and a line range
    [start ≤ end] within 32 bits, and only an absent value or [null] is read
    as no reference.  The object serde writes for a reference is read back as
    it.  A text is trimmed; digits and hyphens after its last colon are a line
    specification, which gives its lines or, being neither [N] nor [N-M], is
    refused; any other text but the empty one is a path, colons included; so [path:N] and
    [path:N-M], written out, are read back. *)
Theorem code_reference_roundtrip parameter_path :
  (∀ value r, validate_code_reference value parameter_path = Ok (Some r) → well_placed r)
  ∧ (∀ value, validate_code_reference value parameter_path = Ok None ↔ value = None ∨ value = Some JNull)
  ∧ (∀ r, well_placed r → str_trim (file_path r) ≠ "" →
       validate_code_reference (Some (reference_json r)) parameter_path = Ok (Some r))
  ∧ (∀ path start end_, utf8_valid path → str_trim path = path → path ≠ "" →
       (start < u32_mod)%N → (∀ e, end_ = Some e → (e < u32_mod)%N) →
       validate_code_reference (Some (JString (path +:+ (":" +:+ lines_text start end_)))) parameter_path
       = Ok (Some (reference path start (default start end_))))
  ∧ (∀ text,
       let outcome := validate_code_reference (Some (JString text)) parameter_path in
       (∀ path spec, line_spec (str_trim text) path spec →
          (∀ start end_, denotes spec start end_ → outcome = Ok (Some (reference path start end_)))
          ∧ ((∀ start end_, ¬ denotes spec start end_) → ∃ e, outcome = Err e))
       ∧ ((∀ path spec, ¬ line_spec (str_trim text) path spec) → str_trim text ≠ "" →
          outcome = Ok (Some (reference (str_trim text) 0 0)))
       ∧ (str_trim text = "" → ∃ e, outcome = Err e)).
Proof.
  split_and!.
  - intros value r. unfold validate_code_reference. destruct value as [v|]; [|done].
    destruct v; try done; [apply string_reference_placed|apply object_reference_placed].
  - intros value. apply validate_none.
  - intros r. apply read_reference_json.
  - intros path start end_. apply read_lines.
  - intros text. apply read_text.
Qed.
End references.

(** ** Coercion is narrow and settles *)

Section coercion.
Context {Num : Type} `{JT : JsonText Num}.
Implicit Types v : Json Num.

Definition stable {A} (f : A → result A (@CoercionError Num)) : Prop := ∀ x y, f x = Ok y → f y = Ok y.

Lemma try_each_stable {A} (f : A → result A (@CoercionError Num)) : stable f → stable (try_each f).
Proof.
  intros Hf xs. induction xs as [|x xs IH]; intros ys; [by intros [= <-]|]. simpl.
  destruct (f x) as [y|] eqn:Hy; [|done]. destruct (try_each f xs) as [zs|] eqn:Hz; [|done]. intros [= <-].
  simpl. by rewrite (Hf x y), (IH zs).
Qed.

Lemma coerce_value_stable (f : Json Num → result (Json Num) CoercionError) : stable f → stable (coerce_value f).
Proof.
  intros Hf [k v] [k' v']. unfold coerce_value. simpl. destruct (f v) as [w|] eqn:Hw; [|done].
  intros [= <- <-]. simpl. by rewrite (Hf v w).
Qed.

Lemma coerce_to_string_text v v' : coerce_to_string v = Ok v' → v' = JNull ∨ ∃ s, v' = JString s.
Proof. destruct v; simpl; try destruct (json_to_string _); intros [= <-]; eauto. Qed.

Lemma coerce_to_string_stable : stable coerce_to_string.
Proof. intros v v' Hv. by destruct (coerce_to_string_text v v' Hv) as [->|[s ->]]. Qed.

Lemma coerce_string_map_stable : stable coerce_string_map.
Proof.
  intros v v'. destruct v as [| | | | |map]; try by intros [= <-]. simpl.
  destruct (try_each _ map) as [map'|] eqn:Hm; [|done]. intros [= <-]. simpl.
  by rewrite (try_each_stable _ (coerce_value_stable _ coerce_to_string_stable) _ _ Hm).
Qed.

Lemma coerce_content_stable : stable coerce_content.
Proof.
  intros [k v] [k' v']. unfold coerce_content. simpl. destruct (String.eqb_spec k "content") as [->|Hk].
  - intros Hv. assert (k' = "content") as ->.
    { unfold coerce_value in Hv. simpl in Hv. destruct (coerce_string_map v); simplify_eq/=. done. }
    apply (coerce_value_stable _ coerce_string_map_stable _ _ Hv).
  - intros [= <- <-]. by destruct (String.eqb_spec k "content").
Qed.

Lemma coerce_update_stable : stable coerce_update.
Proof.
  intros v v'. destruct v as [| | | | |map]; try by intros [= <-]. simpl.
  destruct (try_each _ map) as [map'|] eqn:Hm; [|done]. intros [= <-]. simpl.
  by rewrite (try_each_stable _ coerce_content_stable _ _ Hm).
Qed.

Lemma coerce_field_stable k : stable (coerce_field k).
Proof.
  intros v v'. unfold coerce_field. destruct (String.eqb k "content" || String.eqb k "parameters"); [apply coerce_string_map_stable|].
  destruct (String.eqb k "updates").
  - destruct v as [| | | |items|]; try by intros [= <-]. destruct (try_each _ items) as [items'|] eqn:Hi; [|done]. intros [= <-]. simpl.
    by rewrite (try_each_stable _ coerce_update_stable _ _ Hi).
  - destruct (ends_with k "_id"); intros [= <-]; [by destruct v|done].
Qed.

Lemma apply_coercions_stable : stable apply_coercions.
Proof.
  intros v v'. destruct v as [| | | | |obj]; try by intros [= <-]. simpl.
  destruct (try_each _ obj) as [obj'|] eqn:Ho; [|done]. intros [= <-]. simpl.
  erewrite try_each_stable; [done| |exact Ho].
  intros [k w] [k' w'] Hw. assert (k' = k) as ->.
  { unfold coerce_value in Hw. simpl in Hw. destruct (coerce_field k w); simplify_eq/=. done. }
  exact (coerce_value_stable _ (coerce_field_stable k) _ _ Hw).
Qed.

(** Every field of the coerced object is the coerced field. *)
Lemma apply_coercions_get v v' k :
  apply_coercions v = Ok v' →
  match json_get k v with
  | Some w => ∃ w', coerce_field k w = Ok w' ∧ json_get k v' = Some w'
  | None => json_get k v' = None
  end.
Proof.
  destruct v as [| | | | |obj]; try by intros [= <-]. simpl.
  destruct (try_each _ obj) as [obj'|] eqn:Ho; [|done]. intros [= <-]. simpl.
  revert obj' Ho. induction obj as [|[k' w] obj IH]; intros obj'; [by intros [= <-]|]. simpl. unfold coerce_value at 1. simpl.
  destruct (coerce_field k' w) as [w'|] eqn:Hw; [|done]. simpl. destruct (try_each _ obj) as [rest|]; [|done]. intros [= <-].
  simpl. destruct (String.eqb_spec k' k) as [->|]; [by exists w'|by apply IH].
Qed.

(** The fields the coercion may rewrite. *)
Definition coerced_key (k : string) : bool :=
  String.eqb k "content" || String.eqb k "parameters" || String.eqb k "updates" || ends_with k "_id".

Definition is_scalar_json (v : Json Num) : bool := match v with JNumber _ | JBool _ => true | _ => false end.

(** [w] is what [v] reads as: text and null themselves, a scalar its text, a
    nested value its JSON. *)
Inductive reads_as : Json Num → Json Num → Prop :=
| reads_null : reads_as JNull JNull
| reads_string s : reads_as (JString s) (JString s)
| reads_number n : reads_as (JNumber n) (JString (num_to_string n))
| reads_bool b : reads_as (JBool b) (JString (if b then "true" else "false"))
| reads_array xs json : json_to_string (JArray xs) = Ok json → reads_as (JArray xs) (JString json)
| reads_object fs json : json_to_string (JObject fs) = Ok json → reads_as (JObject fs) (JString json).

Definition field_reads_as (f f' : string * Json Num) : Prop := f'.1 = f.1 ∧ reads_as f.2 f'.2.

Lemma coerce_to_string_reads v w : coerce_to_string v = Ok w → reads_as v w.
Proof.
  destruct v as [|b|n|s|xs|fs]; cbn [coerce_to_string coerce_scalar_to_string].
  - intros [= <-]. constructor.
  - intros [= <-]. destruct b; constructor.
  - intros [= <-]. constructor.
  - intros [= <-]. constructor.
  - destruct (json_to_string (JArray xs)) eqn:Hj; [|done]. intros [= <-]. by constructor.
  - destruct (json_to_string (JObject fs)) eqn:Hj; [|done]. intros [= <-]. by constructor.
Qed.

Lemma try_each_Forall2 {A} (R : A → A → Prop) (f : A → result A (@CoercionError Num)) xs ys :
  (∀ x y, f x = Ok y → R x y) → try_each f xs = Ok ys → Forall2 R xs ys.
Proof.
  intros Hf. revert ys. induction xs as [|x xs IH]; intros ys; simpl; [by intros [= <-]|].
  destruct (f x) as [y|] eqn:Hx; [|done]. simpl. destruct (try_each f xs) as [zs|]; [|done]. intros [= <-].
  constructor; [by apply Hf|by apply IH].
Qed.

Lemma coerce_string_map_reads map w :
  coerce_string_map (JObject map) = Ok w → ∃ map', w = JObject map' ∧ Forall2 field_reads_as map map'.
Proof.
  cbn [coerce_string_map]. destruct (try_each _ map) as [map'|] eqn:Hm; [|done]. intros [= <-]. exists map'. split; [done|].
  eapply try_each_Forall2; [|exact Hm]. intros [k v] [k' w]. unfold coerce_value. cbn [fst snd].
  destruct (coerce_to_string v) as [x|] eqn:Hx; [|done]. intros [= <- <-]. split; [done|by apply coerce_to_string_reads].
Qed.

(** An item of a batch: the fields of its [content] are read as text. *)
Definition item_reads_as (item item' : Json Num) : Prop :=
  ∀ fields, item = JObject fields →
    ∃ fields', item' = JObject fields'
    ∧ Forall2 (λ f f', f'.1 = f.1 ∧ (f.1 ≠ "content" → f'.2 = f.2)
               ∧ (f.1 = "content" → ∀ map, f.2 = JObject map →
                  ∃ map', f'.2 = JObject map' ∧ Forall2 field_reads_as map map')) fields fields'.

Lemma coerce_update_reads item item' : coerce_update item = Ok item' → item_reads_as item item'.
Proof.
  intros Hi fields ->. cbn [coerce_update] in Hi. destruct (try_each _ fields) as [fields'|] eqn:Hf; [|done].
  injection Hi as <-. exists fields'. split; [done|]. eapply try_each_Forall2; [|exact Hf].
  intros [k v] [k' w]. unfold coerce_content, coerce_value. cbn [fst snd].
  destruct (String.eqb_spec k "content") as [->|Hk].
  - destruct (coerce_string_map v) as [x|] eqn:Hx; [|done]. intros [= <- <-]. split_and!; [done|done|].
    intros _ map ->. by apply coerce_string_map_reads.
  - intros [= <- <-]. by split_and!.
Qed.

Lemma coerce_field_id k w :
  ends_with k "_id" = true → coerce_field k w = Ok (coerce_scalar_to_string w).
Proof.
  intros Hk. unfold coerce_field. rewrite Hk. destruct (String.eqb_spec k "content") as [->|]; [by vm_compute in Hk|].
  destruct (String.eqb_spec k "parameters") as [->|]; [by vm_compute in Hk|].
  by destruct (String.eqb_spec k "updates") as [->|]; [vm_compute in Hk|].
Qed.


(** The number a limit stands for is accepted exactly between one and the
    maximum; a recency bias exactly between its bounds. *)
Theorem parameters_exact `{FT : FloatText} (limit : option N) (dflt max n : N) (bias accepted : option f32) :
  (validate_limits limit dflt max = Ok n ↔ n = default dflt limit ∧ 1 ≤ n ≤ max)%N
  ∧ (validate_recency_bias (Num := Num) bias = Ok accepted
     ↔ accepted = bias ∧ ∀ x, bias = Some x → f32_le MIN_RECENCY_BIAS x = true ∧ f32_le x MAX_RECENCY_BIAS = true).
Proof.
  split.
  - unfold validate_limits. set (value := default dflt limit).
    destruct (N.ltb_spec max value); [split; [done|lia]|]. destruct (N.eqb_spec value 0); [split; [done|lia]|].
    split; [by intros [= <-]; lia|by intros [-> _]].
  - destruct bias as [x|]; simpl; [|naive_solver].
    destruct (f32_le MIN_RECENCY_BIAS x) eqn:Hlo, (f32_le x MAX_RECENCY_BIAS) eqn:Hhi; simpl.
    2-4: destruct (f32_is_nan x || f32_is_infinite x); (split; [done|intros [_ Hx]; destruct (Hx x eq_refl); congruence]).
    assert (f32_is_nan x || f32_is_infinite x = false) as ->.
    { destruct x as [| [] | |]; [done|by vm_compute in Hlo|by vm_compute in Hhi|by vm_compute in Hlo|done]. }
    split; [by intros [= <-]; split; [|intros y [= <-]]|by intros [-> _]].
Qed.
End coercion.

(** ** Concrete requests *)

(** Numbers that are naturals, and authorities without brackets: the host up to
    a colon, then a decimal port. *)
#[local] Instance demo_json : JsonText N := {|
  num_of_u64 := id; num_as_u64 := Some; num_to_string := N_text; json_to_string := λ _, Ok "{}";
|}.

Lemma demo_json_laws : JsonTextLaws (Num := N).
Proof. by split. Qed.

Definition demo_authority (s : string) : option (string * option N) :=
  match split_two 58 (str_bytes (to_ascii_lowercase s)) with
  | ([], _) => None
  | (host, None) => Some (str_of_bytes host, None)
  | (host, Some port) => n ← parse_u64 port; Some (str_of_bytes host, Some n)
  end.

#[local] Instance demo_hosts : HostText := {|
  Authority_parse := demo_authority;
  Ipv6Addr_parse := λ s, String.eqb (to_ascii_lowercase s) "::1";
  IpAddr_unspecified := λ s, if String.eqb s "0.0.0.0" then Some true else None;
  str_debug := in_dquotes;
|}.

#[local] Instance demo_host_laws : HostTextLaws (H := demo_hosts).
Proof. split; intros a b Hab; simpl; [unfold demo_authority|]; by rewrite Hab. Qed.

Definition demo_allowed : list string := ["My-Mac.ts.net"; " pc.example:3737 "].
Definition demo_policy : HostPolicy :=
  Only ["localhost"; "127.0.0.1"; "::1"; "My-Mac.ts.net"; "pc.example:3737"].

Example demo_from_config : from_config "0.0.0.0" demo_allowed = Ok demo_policy.
Proof. by vm_compute. Qed.

Example demo_allows :
  allows demo_policy <$> ["my-mac.TS.net:9999"; "PC.example:3737"; "pc.example:80"; "evil.example"; "LOCALHOST:1"]
  = [true; true; false; false; true].
Proof. by vm_compute. Qed.

Lemma demo_valid : utf8_valid "0.0.0.0" ∧ Forall utf8_valid demo_allowed.
Proof.
  assert (∀ s, Forall (λ b, (b < 128)%N) (str_bytes s) → utf8_valid s) as Hv.
  { intros s Hs. apply utf8_valid_bytes. exists (str_bytes s). split.
    - eapply Forall_impl; [exact Hs|]. unfold is_scalar. intros b ?. lia.
    - by rewrite utf8_encode_all_ascii. }
  split; [|unfold demo_allowed; repeat constructor]; apply Hv; by repeat constructor.
Qed.


Lemma code_reference_roundtrip_witness :
  validate_code_reference (Num := N) (Some (JString "C:\x.rs:10-20")) "code_reference"
  = Ok (Some (reference "C:\x.rs" 10 20))
  ∧ validate_code_reference (Num := N) (Some (reference_json (reference "a.rs" 3 1))) "code_reference"
    = Ok (Some (reference "a.rs" 3 3)).
Proof.
  pose proof (@code_reference_roundtrip N demo_json demo_json_laws "code_reference") as (_ & _ & Hjson & Htext & _).
  split.
  - apply (Htext "C:\x.rs" 10%N (Some 20%N)); [|by vm_compute|done|done|by intros e [= <-]].
    apply utf8_valid_bytes. exists (str_bytes "C:\x.rs"). by split; [repeat constructor|vm_compute].
  - apply Hjson; [by split; [done|vm_compute]|by vm_compute].
Defined.

(** The forms of the tool's documentation. *)
Example code_reference_forms :
  validate_code_reference (Num := N) (Some (JObject [("file", JString "src/main.rs"); ("function", JString "process_data"); ("line", JNumber 42%N)])) ""
  = Ok (Some (mkCodeReference "src/main.rs" 42 42 "" None None "in process_data"))
  ∧ validate_code_reference (Num := N) (Some (JString "C:\x\y.rs")) "" = Ok (Some (reference "C:\x\y.rs" 0 0))
  ∧ (∃ e, validate_code_reference (Num := N) (Some (JString "a.rs:5-")) "" = Err e)
  ∧ (∃ e, validate_code_reference (Num := N) (Some (JObject [("line", JNumber 3%N)])) "" = Err e).
Proof. split_and!; [by vm_compute..|by eexists; vm_compute|by eexists; vm_compute]. Qed.

Example coercion_demo :
  apply_coercions (JObject [("content", JObject [("n", JNumber 42%N); ("ok", JBool true)]); ("limit", JNumber 5%N); ("session_id", JNumber 7%N)])
  = Ok (JObject [("content", JObject [("n", JString "42"); ("ok", JString "true")]); ("limit", JNumber 5%N); ("session_id", JString "7")]).
Proof. by vm_compute. Qed.

Definition loose_arguments : Json N :=
  JObject [("session_id", JNumber 7%N); ("limit", JNumber 5%N);
           ("updates", JArray [JObject [("content", JObject [("n", JNumber 42%N); ("ok", JBool true)]); ("n", JNumber 1%N)]])].


Example suggestions_demo :
  generate_recovery_suggestions (Num := N) "Session not found" None None
  = ["Create a new session using the 'session' tool with action='create'"; "Or use semantic_search to find existing sessions"].
Proof. by vm_compute. Qed.

(** The example of [generate_recovery_suggestions]'s documentation, which
    announces other suggestions. *)
Example suggestions_documented :
  generate_recovery_suggestions (Num := N) "invalid type: string 'abc', expected u32" None None
  = ["Review the error message and check your parameter types and values";
     "Use dry_run=true to validate your request without making changes";
     "Check the tool documentation for the correct parameter format"].
Proof. by vm_compute. Qed.
