(* ===== verification/Rocks.v ===== *)
(** * The key-value store under the RocksDB backend

    RocksDB is a library the source only calls: [RocksDB] is the class of its
    calls (point reads, atomic write batches, ordered iteration) and
    [RocksDBLaws] their documented behaviour, on a database without I/O
    faults ([healthy]), as operations on a map ordered by byte-wise keys.  A
    write that fails leaves the contents alone.  Iteration is promised for
    total-order seeks only, because the database is opened with a prefix
    extractor.  [mem_db] is an instance to evaluate with.

    Keys and values are byte strings ([string], one [ascii] per byte).  The
    rest of the file models [core.rs] of
    [post-cortex-storage/src/rocksdb_storage] and the key text: [bincode] is
    the class of the codec. *)

From stdpp Require Import gmap.
From S2P Require Import Prelude RustStd StrLemmas UuidText Collections Types.

Local Open Scope string_scope.
Local Open Scope pcx.

Abbreviation bytes := string (only parsing).

(** [anyhow::Error], as its message. *)
Abbreviation Error := string (only parsing).

(** ** The interface *)

Inductive batch_op :=
  | BatchPut (key value : bytes)
  | BatchDelete (key : bytes).

Abbreviation WriteBatch := (list batch_op) (only parsing).

Inductive Direction := Forward | Reverse.

Inductive IteratorMode :=
  | IterStart
  | IterFrom (key : bytes) (dir : Direction).

Record ReadOptions := mkReadOptions {
  total_order_seek : bool;
  iterate_lower_bound : option bytes;
  iterate_upper_bound : option bytes;
}.

Definition default_options : ReadOptions := mkReadOptions false None None.

Definition set_total_order_seek (b : bool) (o : ReadOptions) : ReadOptions :=
  mkReadOptions b (iterate_lower_bound o) (iterate_upper_bound o).
Definition set_iterate_lower_bound (k : bytes) (o : ReadOptions) : ReadOptions :=
  mkReadOptions (total_order_seek o) (Some k) (iterate_upper_bound o).
Definition set_iterate_upper_bound (k : bytes) (o : ReadOptions) : ReadOptions :=
  mkReadOptions (total_order_seek o) (iterate_lower_bound o) (Some k).

Class RocksDB := {
  DB : Type;
  db_get : DB → bytes → result (option bytes) Error;
  db_write : DB → WriteBatch → DB * result unit Error;
  db_iterator : DB → IteratorMode → ReadOptions → list (result (bytes * bytes) Error);
}.

(** [DB::multi_get] is a [get] per key. *)
Definition multi_get `{RocksDB} (d : DB) (keys : list bytes)
    : list (result (option bytes) Error) :=
  db_get d <$> keys.

(** [DB::put] and [DB::delete] are batches of one operation. *)
Definition db_put `{RocksDB} (d : DB) (key value : bytes) : DB * result unit Error :=
  db_write d [BatchPut key value].
Definition db_delete `{RocksDB} (d : DB) (key : bytes) : DB * result unit Error :=
  db_write d [BatchDelete key].

(** ** Its behaviour *)

Abbreviation table := (gmap string string) (only parsing).

Definition apply_op (m : table) (op : batch_op) : table :=
  match op with
  | BatchPut k v => <[k := v]> m
  | BatchDelete k => base.delete k m
  end.

Definition apply_batch (b : WriteBatch) (m : table) : table := foldl apply_op m b.

Definition in_bounds (o : ReadOptions) (k : bytes) : bool :=
  match iterate_lower_bound o with Some l => bool_decide (String.le l k) | None => true end
  && match iterate_upper_bound o with Some u => bool_decide (¬ String.le u k) | None => true end.

Definition iteration (m : table) (mode : IteratorMode) (o : ReadOptions)
    : list (bytes * bytes) :=
  let es := filter (λ e, in_bounds o e.1 = true) (btree_iter m) in
  match mode with
  | IterStart => es
  | IterFrom k Forward => filter (λ e, String.le k e.1) es
  | IterFrom k Reverse => reverse (filter (λ e, String.le e.1 k) es)
  end.

Class RocksDBLaws `{RocksDB} := {
  contents : DB → table;
  healthy : DB → Prop;
  db_get_ok d k : healthy d → db_get d k = Ok (contents d !! k);
  db_write_ok d b : healthy d →
    ∃ d', db_write d b = (d', Ok tt) ∧ healthy d' ∧ contents d' = apply_batch b (contents d);
  db_write_err d d' b e : db_write d b = (d', Err e) → contents d' = contents d;
  db_iterator_ok d mode o : healthy d → total_order_seek o = true →
    db_iterator d mode o = Ok <$> iteration (contents d) mode o;
}.

(** An in-memory database. *)
Definition mem_db : RocksDB := {|
  DB := table;
  db_get := λ m k, Ok (m !! k);
  db_write := λ m b, (apply_batch b m, Ok tt);
  db_iterator := λ m mode o, Ok <$> iteration m mode o;
|}.

Definition mem_db_laws : @RocksDBLaws mem_db.
Proof.
  refine {| contents := (λ m : @DB mem_db, m); healthy := λ _, True |}.
  - done.
  - intros d b _. by eexists.
  - by intros.
  - done.
Defined.

(** ** The codec

    [bincode] with the derived [Serialize] of the record types: what
    [encode_to_vec] writes reads back, with the number of bytes read. *)
Class Bincode (T : Type) := {
  encode_to_vec : T → result bytes Error;
  decode_from_slice : bytes → result (T * nat) Error;
}.

Class BincodeLaws T `{Bincode T} : Prop := {
  bincode_roundtrip (x : T) :
    ∃ bs, encode_to_vec x = Ok bs ∧ decode_from_slice bs = Ok (x, str_len bs);
}.

(** The bytes of a value that encodes. *)
Definition encoded `{Bincode T} (x : T) : bytes :=
  match encode_to_vec x with Ok bs => bs | Err _ => "" end.

Lemma encode_ok `{BincodeLaws T} (x : T) : encode_to_vec x = Ok (encoded x).
Proof. unfold encoded. by destruct (bincode_roundtrip x) as (bs & -> & _). Qed.

Lemma decode_encoded `{BincodeLaws T} (x : T) :
  decode_from_slice (encoded x) = Ok (x, str_len (encoded x)).
Proof. unfold encoded. by destruct (bincode_roundtrip x) as (bs & -> & ->). Qed.

#[global] Instance encoded_inj `{BincodeLaws T} : Inj (=) (=) (encoded (T:=T)).
Proof.
  intros x y Hxy. pose proof (decode_encoded x) as Hx. rewrite Hxy, decode_encoded in Hx.
  congruence.
Qed.

(** An instance for every countable type: the bits of its code. *)
Fixpoint bits_of (p : positive) : list N :=
  match p with
  | xH => []
  | xO p => 48%N :: bits_of p
  | xI p => 49%N :: bits_of p
  end.

Fixpoint of_bits (bs : list N) : option positive :=
  match bs with
  | [] => Some xH
  | b :: bs =>
    p ← of_bits bs;
    if (b =? 48)%N then Some (xO p) else if (b =? 49)%N then Some (xI p) else None
  end.

Lemma of_bits_of p : of_bits (bits_of p) = Some p.
Proof. induction p as [p IH|p IH|]; simpl; by rewrite ?IH. Qed.

Lemma bits_of_ok p : Forall byte_ok (bits_of p).
Proof. induction p; simpl; constructor; done. Qed.

Definition countable_bincode `{Countable T} : Bincode T := {|
  encode_to_vec := λ x, Ok (str_of_bytes (bits_of (encode x)));
  decode_from_slice := λ bs,
    match of_bits (str_bytes bs) ≫= decode with
    | Some x => Ok (x, str_len bs)
    | None => Err "malformed"
    end;
|}.

Lemma countable_bincode_laws `{Countable T} : @BincodeLaws T countable_bincode.
Proof.
  split. intros x. eexists. split; [done|]. simpl.
  rewrite str_bytes_of_bytes by apply bits_of_ok. rewrite of_bits_of. simpl.
  by rewrite decode_encode.
Qed.

(** ** [core.rs] *)

Definition SESSION_LOCK_STRIPES : N := 64.

(** [SessionLocks::lock]: the index of the stripe of a session. *)
Definition lock_stripe (session_id : Uuid) : N := (session_id `mod` SESSION_LOCK_STRIPES)%N.

(** The loop of [prefix_upper_bound], over the bytes from the last one. *)
Fixpoint pop_bound (rev : list N) : option (list N) :=
  match rev with
  | [] => None
  | last :: rest => if (last <? 255)%N then Some (reverse (last + 1 :: rest)%N) else pop_bound rest
  end.

Definition prefix_upper_bound (prefix : bytes) : option bytes :=
  str_of_bytes <$> pop_bound (reverse (str_bytes prefix)).

Definition prefix_read_opts (prefix : bytes) : ReadOptions :=
  let opts := set_total_order_seek true default_options in
  match prefix_upper_bound prefix with
  | Some upper => set_iterate_upper_bound upper opts
  | None => opts
  end.

Definition scan_prefix `{RocksDB} (d : DB) (prefix : bytes)
    : list (result (bytes * bytes) Error) :=
  db_iterator d (IterFrom prefix Forward) (prefix_read_opts prefix).

(** [for item in scan { let x = item?; .. }]. *)
Fixpoint try_items {A} (items : list (result A Error)) : result (list A) Error :=
  match items with
  | [] => Ok []
  | item :: items => try x <- item; try xs <- try_items items; Ok (x :: xs)
  end.

Definition keys_with_prefix `{RocksDB} (d : DB) (prefix : bytes) : result (list bytes) Error :=
  try items <- try_items (scan_prefix d prefix); Ok (items.*1).

(** ** Text of keys *)

(** The digits of [n], padded with zeros on the left to [w] bytes. *)
Definition pad_zeros (w : nat) (n : N) : string :=
  let ds := decimal_N n in
  str_of_bytes (replicate (w - length ds) 48%N ++ ds)%list.

(** [u64::to_be_bytes] and [from_be_bytes]. *)
Fixpoint be_digits (k : nat) (n : N) : list N :=
  match k with
  | O => []
  | S k => (be_digits k (n / 256)%N ++ [(n `mod` 256)%N])%list
  end.

Definition to_be_bytes (n : N) : bytes := str_of_bytes (be_digits 8 n).

Definition be_value (bs : list N) : N := foldl (λ acc b, acc * 256 + b)%N 0%N bs.

(** [try_into::<[u8; 8]>] and [u64::from_be_bytes]. *)
Definition from_be_bytes (bs : bytes) : option N :=
  if Nat.eqb (str_len bs) 8 then Some (be_value (str_bytes bs)) else None.

(** ** [String::from_utf8_lossy]

    A sequence that is not UTF-8 becomes U+FFFD, as far as it could have been
    the beginning of a character. *)
Definition replacement : list N := [239; 191; 189]%N.

(** The second byte a lead byte of three or four allows. *)
Definition second_byte_ok (lead b : N) : bool :=
  (if (lead =? 224)%N then (160 <=? b) && (b <? 192)
   else if (lead =? 237)%N then (128 <=? b) && (b <? 160)
   else if (lead =? 240)%N then (144 <=? b) && (b <? 192)
   else if (lead =? 244)%N then (128 <=? b) && (b <? 144)
   else is_continuation b)%N.

(** The length of the sequence a byte can begin, 1 if none. *)
Definition lead_width (b : N) : N :=
  (if (194 <=? b) && (b <? 224) then 2 else if (224 <=? b) && (b <? 240) then 3
   else if (240 <=? b) && (b <? 245) then 4 else 1)%N.

Fixpoint utf8_lossy (bs : list N) : list N :=
  match bs with
  | [] => []
  | b :: r =>
    if (b <? 128)%N then b :: utf8_lossy r
    else
      let width := lead_width b in
      match r with
      | [] => replacement
      | b1 :: r1 =>
        if (width =? 1) then replacement ++ utf8_lossy r
        else if (width =? 2) then
          if is_continuation b1 then b :: b1 :: utf8_lossy r1 else replacement ++ utf8_lossy r
        else if negb (second_byte_ok b b1) then replacement ++ utf8_lossy r
        else match r1 with
        | [] => replacement
        | b2 :: r2 =>
          if negb (is_continuation b2) then replacement ++ utf8_lossy r1
          else if (width =? 3) then b :: b1 :: b2 :: utf8_lossy r2
          else match r2 with
          | [] => replacement
          | b3 :: r3 =>
            if is_continuation b3 then b :: b1 :: b2 :: b3 :: utf8_lossy r3
            else replacement ++ utf8_lossy r2
          end
        end
      end
  end%N%list.

Definition from_utf8_lossy (bs : bytes) : string := str_of_bytes (utf8_lossy (str_bytes bs)).

(** What every Rust string is: decoding it loses nothing. *)
Definition well_formed (s : string) : Prop := from_utf8_lossy s = s.

Example from_utf8_lossy_ex :
  (str_bytes (from_utf8_lossy (str_of_bytes [97; 195; 169; 98]%N)),
   str_bytes (from_utf8_lossy (str_of_bytes [97; 195; 98; 255]%N)))
  = ([97; 195; 169; 98], [97; 239; 191; 189; 98; 239; 191; 189])%N.
Proof. vm_compute. reflexivity. Qed.
