(* ===== verification/RocksThms.v ===== *)
(** * Facts about the key-value store

    The byte order of keys ([bytes_le]), the bound that ends a prefix scan and
    what a scan returns, fixed-width numbers in keys, write batches, and
    [db_is], a database without faults and its contents, in whose terms the
    components of the backend are specified. *)

From stdpp Require Import gmap.
From S2P Require Import Prelude RustStd Collections StrLemmas UuidText Types ContextAssembly Rocks.

Local Open Scope string_scope.
Local Open Scope list_scope.
Local Open Scope pcx.

(** ** The order of keys *)

Fixpoint bytes_le (a b : list N) : Prop :=
  match a, b with
  | [], _ => True
  | _ :: _, [] => False
  | x :: a, y :: b => (x < y)%N ∨ (x = y ∧ bytes_le a b)
  end.

Lemma str_bytes_cons c s : str_bytes (String c s) = Ascii.N_of_ascii c :: str_bytes s.
Proof. done. Qed.

Lemma str_le_bytes s t : String.le s t ↔ bytes_le (str_bytes s) (str_bytes t).
Proof.
  revert t. induction s as [|a s IH]; intros [|b t]; [done..|].
  rewrite !str_bytes_cons. cbn [bytes_le]. rewrite <-IH. unfold String.le, String.leb. simpl.
  unfold Ascii.compare. destruct (N.compare_spec (Ascii.N_of_ascii a) (Ascii.N_of_ascii b)).
  - split; [tauto|]. intros [?|[_ ?]]; [lia|done].
  - split; [intros _; by left|done].
  - split; [done|]. intros [?|[? _]]; lia.
Qed.

Lemma bytes_le_app_l p a b : bytes_le (p ++ a) (p ++ b) ↔ bytes_le a b.
Proof.
  induction p as [|x p IH]; simpl; [done|]. rewrite IH. split; [|by right].
  intros [?|[_ ?]]; [lia|done].
Qed.

Lemma bytes_le_prefix p r : bytes_le p (p ++ r).
Proof. pose proof (bytes_le_app_l p [] r) as H. rewrite app_nil_r in H. by apply H. Qed.

(** Splitting at a common length. *)
Lemma bytes_le_split p q a b :
  length p = length q → bytes_le (p ++ a) (q ++ b) ↔ (bytes_le p q ∧ p ≠ q) ∨ (p = q ∧ bytes_le a b).
Proof.
  revert q. induction p as [|x p IH]; intros [|y q] Hlen; [simpl; naive_solver|done..|].
  simpl in Hlen. injection Hlen as Hlen. cbn [bytes_le app]. rewrite (IH q Hlen).
  destruct (N.lt_trichotomy x y) as [Hlt|[->|Hgt]].
  - split; [|by left]. intros _. left. split; [by left|]. intros [= -> _]. lia.
  - split.
    + intros [?|[_ [[Hle Hne]|[-> Hle]]]]; [lia| |by right]. left. split; [by right|congruence].
    + intros [[[?|[_ Hle]] Hne]|[Heq Hle]]; [lia| |].
      * right. split; [done|]. left. split; [done|congruence].
      * injection Heq as ->. right. split; [done|by right].
  - split; [intros [?|[-> _]]; lia|]. intros [[[?|[-> _]] _]|[[= -> _] _]]; lia.
Qed.

(** What lies between two extensions of [p] is one. *)
Lemma bytes_le_between p a b k :
  bytes_le (p ++ a) k → ¬ bytes_le (p ++ b) k → p `prefix_of` k.
Proof.
  revert k. induction p as [|x p IH]; intros [|y k] Hle Hlt; simpl in *; [apply prefix_nil..|done|].
  destruct Hle as [?|[-> Hle]]; [destruct Hlt; by left|].
  apply prefix_cons, IH; [done|]. intros ?. apply Hlt. by right.
Qed.

Lemma bytes_le_within p b k : bytes_le p k → bytes_le k (p ++ b) → p `prefix_of` k.
Proof.
  revert k. induction p as [|x p IH]; intros [|y k] Hle Hge; simpl in *; [apply prefix_nil..|done|].
  destruct Hle as [?|[-> Hle]], Hge as [?|[? Hge]]; [lia..|]. by apply prefix_cons, IH.
Qed.

Definition has_prefix (p k : bytes) : Prop := ∃ r, k = p +:+ r.

#[global] Instance has_prefix_dec p k : base.Decision (has_prefix p k).
Proof.
  destruct (decide (str_bytes p `prefix_of` str_bytes k)) as [Hp|Hp]; [left|right].
  - destruct Hp as [r Hr]. exists (str_of_bytes r). apply (inj str_bytes).
    rewrite str_bytes_app, str_bytes_of_bytes; [done|].
    pose proof (str_bytes_ok k) as Hok. rewrite Hr in Hok. by apply Forall_app in Hok as [_ ?].
  - intros [r ->]. apply Hp. rewrite str_bytes_app. by exists (str_bytes r).
Defined.

Lemma has_prefix_bytes p k : has_prefix p k ↔ str_bytes p `prefix_of` str_bytes k.
Proof.
  split.
  - intros [r ->]. rewrite str_bytes_app. by exists (str_bytes r).
  - intros [r Hr]. exists (str_of_bytes r). apply (inj str_bytes).
    rewrite str_bytes_app, str_bytes_of_bytes; [done|].
    pose proof (str_bytes_ok k) as Hok. rewrite Hr in Hok. by apply Forall_app in Hok as [_ ?].
Qed.

(** ** The bound of a prefix *)

Lemma pop_bound_spec rev :
  Forall byte_ok rev →
  match pop_bound rev with
  | Some u => ∃ q c n, reverse rev = q ++ c :: replicate n 255%N ∧ (c < 255)%N ∧ u = q ++ [(c + 1)%N]
  | None => reverse rev = replicate (length rev) 255%N
  end.
Proof.
  induction rev as [|last rest IH]; intros Hok; cbn [pop_bound]; [done|].
  apply Forall_cons in Hok as [Hlast Hok]. specialize (IH Hok).
  destruct (N.ltb_spec last 255).
  - exists (reverse rest), last, 0%nat. by rewrite !reverse_cons.
  - assert (last = 255)%N as -> by (unfold byte_ok in Hlast; lia).
    assert (∀ n, replicate n 255%N ++ [255%N] = replicate (S n) 255%N) as Hrep.
    { intros n. by rewrite <-replicate_cons_app. }
    rewrite reverse_cons. destruct (pop_bound rest) as [u|].
    + destruct IH as (q & c & n & -> & Hc & ->). exists q, c, (S n).
      split_and!; [|done..]. by rewrite <-app_assoc, <-app_comm_cons, Hrep.
    + by rewrite IH, Hrep.
Qed.

(** Bytes at least [n] times 255 begin with them. *)
Lemma bytes_le_all_ones n k :
  Forall byte_ok k → bytes_le (replicate n 255%N) k → replicate n 255%N `prefix_of` k.
Proof.
  revert k. induction n as [|n IH]; intros [|b k] Hok Hle; [apply prefix_nil..|done|].
  apply Forall_cons in Hok as [Hb Hok]. unfold byte_ok in Hb. cbn [bytes_le replicate] in *.
  destruct Hle as [?|[<- Hle]]; [lia|]. by apply prefix_cons, IH.
Qed.

(** Between [q c FF..] and [q (c+1)] lie the extensions of the former. *)
Lemma bytes_between q c n ks :
  Forall byte_ok ks →
  bytes_le (q ++ c :: replicate n 255%N) ks ∧ ¬ bytes_le (q ++ [(c + 1)%N]) ks
  ↔ q ++ c :: replicate n 255%N `prefix_of` ks.
Proof.
  revert ks. induction q as [|x q IH]; intros [|b ks] Hk; simpl;
    [by split; [intros [[] _]|intros [? [=]]]| |by split; [intros [[] _]|intros [? [=]]]|];
    apply Forall_cons in Hk as [Hb Hk].
  - split.
    + intros [[?|[<- Hle]] Hno]; [destruct Hno|by apply prefix_cons, bytes_le_all_ones].
      assert (c + 1 < b ∨ c + 1 = b)%N as [?|?] by lia; [by left|right; by destruct ks].
    + intros [r [= -> ->]]. split; [right; split; [done|apply bytes_le_prefix]|].
      intros [?|[? _]]; lia.
  - specialize (IH ks Hk). split.
    + intros [[?|[<- Hle]] Hno]; [destruct Hno; by left|]. apply prefix_cons, IH.
      split; [done|]. intros ?. apply Hno. by right.
    + intros [r [= -> Hr]]. destruct IH as [_ IH].
      destruct IH as [Hle Hno]; [by exists r|]. split; [by right|].
      intros [?|[_ ?]]; [lia|done].
Qed.

Definition below (bound : option bytes) (k : bytes) : Prop :=
  match bound with Some u => ¬ String.le u k | None => True end.

(** The keys from [prefix] up to its bound are those that begin with it. *)
Lemma upper_bound_prefix (prefix k : bytes) :
  String.le prefix k ∧ below (prefix_upper_bound prefix) k ↔ has_prefix prefix k.
Proof.
  rewrite has_prefix_bytes, str_le_bytes. unfold prefix_upper_bound.
  pose proof (str_bytes_ok prefix) as Hok. pose proof (str_bytes_ok k) as Hk.
  pose proof (pop_bound_spec _ (proj2 (Forall_reverse _ _) Hok)) as Hspec.
  rewrite reverse_involutive in Hspec. destruct (pop_bound _) as [u|]; simpl.
  - destruct Hspec as (q & c & n & Hp & Hc & ->). rewrite Hp in *.
    rewrite <-bytes_between by done. rewrite str_le_bytes, str_bytes_of_bytes; [done|].
    apply Forall_app in Hok as [Hq _]. apply Forall_app. split; [done|].
    repeat constructor. unfold byte_ok. lia.
  - rewrite Hspec. split; [intros [Hle _]; by apply bytes_le_all_ones|].
    intros [r ->]. split; [apply bytes_le_prefix|done].
Qed.

(** ** Scans *)

(** The pairs whose key begins with [prefix], in key order. *)
Definition under_prefix (prefix : bytes) (m : table) : list (bytes * bytes) :=
  filter (λ e, has_prefix prefix e.1) (btree_iter m).

Lemma try_items_ok {A} (xs : list A) : try_items (Ok <$> xs) = Ok xs.
Proof. induction xs as [|x xs IH]; csimpl; [done|]. by rewrite IH. Qed.

Lemma iteration_prefix (m : table) prefix :
  iteration m (IterFrom prefix Forward) (prefix_read_opts prefix) = under_prefix prefix m.
Proof.
  unfold iteration, under_prefix. rewrite list_filter_filter.
  apply list_filter_iff. intros [k v]. simpl. rewrite <-upper_bound_prefix.
  unfold in_bounds, prefix_read_opts. destruct (prefix_upper_bound prefix); simpl.
  - rewrite bool_decide_eq_true. tauto.
  - tauto.
Qed.

Lemma elem_of_under_prefix prefix (m : table) k v :
  (k, v) ∈ under_prefix prefix m ↔ has_prefix prefix k ∧ m !! k = Some v.
Proof. unfold under_prefix. by rewrite list_elem_of_filter, elem_of_btree_iter. Qed.

Lemma under_prefix_sorted prefix (m : table) : StronglySorted key_le (under_prefix prefix m).
Proof. apply StronglySorted_filter, btree_iter_sorted. Qed.

Lemma under_prefix_keys_NoDup prefix (m : table) : NoDup (under_prefix prefix m).*1.
Proof. apply NoDup_fmap_filter, btree_iter_keys_NoDup. Qed.

(** ** Batches *)

Lemma apply_batch_app b1 b2 (m : table) :
  apply_batch (b1 ++ b2) m = apply_batch b2 (apply_batch b1 m).
Proof. apply foldl_app. Qed.

Definition op_key (op : batch_op) : bytes :=
  match op with BatchPut k _ => k | BatchDelete k => k end.

Lemma apply_batch_other b (m : table) k :
  k ∉ op_key <$> b → apply_batch b m !! k = m !! k.
Proof.
  revert m. induction b as [|op b IH]; intros m; csimpl; [done|].
  rewrite not_elem_of_cons. intros [Hne Hk]. rewrite IH by done.
  destruct op; simpl in *; [by apply lookup_insert_ne|by apply lookup_delete_ne].
Qed.

(** A batch does the same to a key wherever it had the same value. *)
Lemma apply_batch_agree b (m m' : table) k :
  m !! k = m' !! k → apply_batch b m !! k = apply_batch b m' !! k.
Proof.
  revert m m'. induction b as [|op b IH]; intros m m' Hk; csimpl; [done|]. apply IH.
  destruct op as [k' v|k']; simpl; destruct (decide (k = k')) as [->|Hne].
  - by rewrite !lookup_insert_eq.
  - by rewrite !lookup_insert_ne.
  - by rewrite !lookup_delete_eq.
  - by rewrite !lookup_delete_ne.
Qed.

Lemma apply_deletes (ks : list bytes) (m : table) k :
  apply_batch (BatchDelete <$> ks) m !! k = if decide (k ∈ ks) then None else m !! k.
Proof.
  revert m. induction ks as [|k' ks IH]; intros m; csimpl.
  - destruct (decide (k ∈ [])) as [Hk|]; [by apply elem_of_nil in Hk|done].
  - rewrite IH. destruct (decide (k ∈ ks)) as [Hk|Hk].
    + destruct (decide (k ∈ k' :: ks)) as [|[]]; [done|by right].
    + destruct (decide (k = k')) as [->|Hne].
      * rewrite lookup_delete_eq. destruct (decide (k' ∈ k' :: ks)) as [|[]]; [done|by left].
      * rewrite lookup_delete_ne by done.
        destruct (decide (k ∈ k' :: ks)) as [[->|?]%elem_of_cons|]; done.
Qed.

Lemma apply_puts (kvs : list (bytes * bytes)) (m : table) :
  NoDup kvs.*1 → apply_batch (uncurry BatchPut <$> kvs) m = list_to_map kvs ∪ m.
Proof.
  revert m. induction kvs as [|[k v] kvs IH]; intros m Hnd; csimpl in *.
  - by rewrite (left_id_L ∅ (∪)).
  - apply NoDup_cons in Hnd as [Hk Hnd]. rewrite IH by done.
    rewrite <-insert_union_l. apply not_elem_of_list_to_map_1 in Hk.
    by rewrite insert_union_r.
Qed.

(** The contents after a batch of puts: what was put, else what was there. *)
Lemma lookup_apply_puts (kvs : list (bytes * bytes)) (m : table) k :
  NoDup kvs.*1 →
  (∀ v, (k, v) ∈ kvs → apply_batch (uncurry BatchPut <$> kvs) m !! k = Some v)
  ∧ (k ∉ kvs.*1 → apply_batch (uncurry BatchPut <$> kvs) m !! k = m !! k).
Proof.
  intros Hnd. rewrite apply_puts by done. split.
  - intros v Hkv. by apply lookup_union_Some_l, elem_of_list_to_map_1.
  - intros Hk. by rewrite lookup_union_r by by apply not_elem_of_list_to_map_1.
Qed.

(** A scan is the sorted list with the same pairs. *)
Lemma sorted_pairs_unique {A} (l1 l2 : list (string * A)) :
  StronglySorted key_le l1 → StronglySorted key_le l2 → NoDup l1.*1 → NoDup l2.*1 →
  (∀ e, e ∈ l1 ↔ e ∈ l2) → l1 = l2.
Proof.
  intros Hs1 Hs2 Hn1 Hn2 Hiff.
  eapply (StronglySorted_unique_strong key_le); [|done|done|].
  - intros [k1 v1] [k2 v2] H1 H2%Hiff Hle Hge. unfold key_le in *. simpl in *.
    assert (k1 = k2) as -> by by apply (anti_symm String.le).
    f_equal. apply elem_of_list_to_map in H1, H2; [congruence|done..].
  - apply NoDup_Permutation; [by eapply NoDup_fmap_1..|done].
Qed.

(** ** Families of keys *)

(** The text up to the first colon names the kind of record. *)
Fixpoint family (k : string) : string :=
  match k with
  | "" => ""
  | String c k => if (Ascii.N_of_ascii c =? 58)%N then "" else String c (family k)
  end.

(** [m] and [m'] agree except on the families [fs]. *)
Definition only_in (fs : list string) (m m' : table) : Prop :=
  ∀ k, family k ∉ fs → m' !! k = m !! k.

(** Different families are different keys. *)
Lemma only_in_other fs gs m m' k :
  only_in fs m m' → family k ∈ gs → Forall (λ g, g ∉ fs) gs → m' !! k = m !! k.
Proof. intros Hm Hk Hfs. apply Hm. rewrite Forall_forall in Hfs. by apply Hfs. Qed.

(** Closed facts about lists of families. *)
Ltac solve_families := refine (bool_decide_unpack _ _); vm_compute; exact I.

Lemma only_in_mono fs gs m m' : fs ⊆ gs → only_in fs m m' → only_in gs m m'.
Proof. intros Hsub Hm k Hk. apply Hm. intros Hk'. by apply Hk, Hsub. Qed.

Lemma only_in_refl fs m : only_in fs m m.
Proof. done. Qed.

Lemma only_in_trans fs m1 m2 m3 : only_in fs m1 m2 → only_in fs m2 m3 → only_in fs m1 m3.
Proof. intros H12 H23 k Hk. by rewrite H23, H12. Qed.

Lemma only_in_batch fs b m :
  Forall (λ op, family (op_key op) ∈ fs) b → only_in fs m (apply_batch b m).
Proof.
  intros Hb k Hk. apply apply_batch_other. intros (op & -> & Hop)%list_elem_of_fmap.
  rewrite Forall_forall in Hb. by apply Hk, Hb.
Qed.

(** ** A database without faults *)

Section with_db.
Context `{RocksDBLaws}.

Definition db_is (d : DB) (m : table) : Prop := healthy d ∧ contents d = m.

Lemma db_is_get d m k : db_is d m → db_get d k = Ok (m !! k).
Proof. intros [Hd <-]. by apply db_get_ok. Qed.

Lemma db_is_multi_get d m ks : db_is d m → multi_get d ks = (λ k, Ok (m !! k)) <$> ks.
Proof. intros Hd. apply list_fmap_ext. intros _ k _. by apply db_is_get. Qed.

Lemma db_is_write d m b :
  db_is d m → ∃ d', db_write d b = (d', Ok tt) ∧ db_is d' (apply_batch b m).
Proof.
  intros [Hd <-]. destruct (db_write_ok d b Hd) as (d' & Hw & Hd' & Hc).
  by exists d'.
Qed.

Lemma db_is_scan d m prefix :
  db_is d m → scan_prefix d prefix = Ok <$> under_prefix prefix m.
Proof.
  intros [Hd <-]. unfold scan_prefix. rewrite db_iterator_ok, iteration_prefix; [done..|].
  unfold prefix_read_opts. by destruct (prefix_upper_bound prefix).
Qed.

Lemma db_is_keys d m prefix :
  db_is d m → keys_with_prefix d prefix = Ok (under_prefix prefix m).*1.
Proof.
  intros Hd. unfold keys_with_prefix. by rewrite (db_is_scan d m), try_items_ok.
Qed.
End with_db.

(** A prefix scan returns the pairs whose key begins with the prefix, all
    of them and no others, in key order: the bound of the scan is right also
    for prefixes that end in the byte 0xFF or consist of it. *)
Theorem scan_prefix_exact `{RocksDBLaws} d m prefix :
  db_is d m →
  ∃ es, scan_prefix d prefix = Ok <$> es ∧ StronglySorted key_le es ∧ NoDup es.*1
    ∧ ∀ k v, (k, v) ∈ es ↔ has_prefix prefix k ∧ m !! k = Some v.
Proof.
  intros Hd. exists (under_prefix prefix m).
  split_and!; [by apply db_is_scan|apply under_prefix_sorted|apply under_prefix_keys_NoDup|].
  apply elem_of_under_prefix.
Qed.

Definition empty_db : @DB mem_db := (∅ : gmap string string).

Lemma mem_db_is (m : table) : @db_is mem_db mem_db_laws m m.
Proof. done. Qed.

Definition demo_table : table :=
  list_to_map [("a", "1"); ("ab", "2"); ("b", "3"); ("a" +:+ str_of_bytes [255%N], "4")].

Lemma scan_prefix_exact_witness :
  ∃ es, @scan_prefix mem_db demo_table ("a" +:+ str_of_bytes [255%N]) = Ok <$> es
    ∧ StronglySorted key_le es ∧ NoDup es.*1
    ∧ ∀ k v, (k, v) ∈ es ↔ has_prefix ("a" +:+ str_of_bytes [255%N]) k ∧ demo_table !! k = Some v.
Proof. apply (@scan_prefix_exact mem_db mem_db_laws), mem_db_is. Defined.

(** The unit test of [core.rs]. *)
Example prefix_upper_bound_ex :
  (prefix_upper_bound "session:", prefix_upper_bound ("a" +:+ str_of_bytes [255%N]),
   prefix_upper_bound (str_of_bytes [255; 255]%N), prefix_upper_bound "")
  = (Some "session;", Some "b", None, None).
Proof. vm_compute. reflexivity. Qed.

(** ** Numbers in keys *)

Lemma digits_order a b ds es v w :
  length ds = length es → digits_value a ds = Some v → digits_value b es = Some w →
  (v ≤ w)%Z ↔ (a < b)%Z ∨ (a = b ∧ bytes_le ds es).
Proof.
  revert a b es. induction ds as [|d ds IH]; intros a b [|e es] Hlen Hv Hw; simpl in *;
    [by simplify_eq; split; [intros; destruct (Z.eq_dec v w); [by right|left]|intros [|[-> _]]]; lia
    |done..|].
  injection Hlen as Hlen.
  destruct (is_digit d) eqn:Hd; [apply is_digit_range in Hd|done].
  destruct (is_digit e) eqn:He; [apply is_digit_range in He|done].
  rewrite (IH _ _ _ Hlen Hv Hw). split.
  - intros [Hlt|[Heq Hle]].
    + destruct (Z.lt_trichotomy a b) as [?|[->|?]]; [by left| |lia]. right. split; [done|left; lia].
    + destruct (Z.lt_trichotomy a b) as [?|[->|?]]; [by left| |lia].
      right. split; [done|]. right. split; [lia|done].
  - intros [Hlt|[-> [?|[-> Hle]]]]; [left; lia..|by right].
Qed.

Lemma decimal_digits_length fuel n acc w :
  (n < 10 ^ N.of_nat w)%N → (0 < w)%nat →
  (length (decimal_digits fuel n acc) ≤ w + length acc)%nat.
Proof.
  revert n acc w. induction fuel as [|fuel IH]; intros n acc w Hn Hw; cbn [decimal_digits]; [lia|].
  destruct (N.ltb_spec n 10); [simpl; lia|].
  destruct w as [|[|w]]; [lia|simpl in Hn; lia|].
  rewrite (IH _ _ (S w)); [simpl; lia| |lia].
  rewrite Nat2N.inj_succ, N.pow_succ_r' in Hn. apply N.Div0.div_lt_upper_bound. lia.
Qed.

(** The bytes [pad_zeros] writes. *)
Definition padded (w : nat) (n : N) : list N :=
  replicate (w - length (decimal_N n)) 48%N ++ decimal_N n.

Lemma padded_spec w n :
  (n < 10 ^ N.of_nat w)%N → (0 < w)%nat →
  str_bytes (pad_zeros w n) = padded w n ∧ length (padded w n) = w
  ∧ digits_value 0 (padded w n) = Some (Z.of_N n).
Proof.
  intros Hn Hw. destruct (decimal_N_spec n) as (_ & Hd & Hv).
  pose proof (decimal_digits_length (S (N.to_nat (N.size n))) n [] w Hn Hw) as Hlen.
  fold (decimal_N n) in Hlen. simpl in Hlen. unfold padded, pad_zeros. split_and!.
  - apply str_bytes_of_bytes. apply Forall_app. split; [by apply Forall_replicate|].
    eapply Forall_impl; [exact Hd|]. intros d Hdd%is_digit_range. unfold byte_ok. lia.
  - rewrite length_app, length_replicate. lia.
  - rewrite digits_value_app.
    assert (∀ k, digits_value 0 (replicate k 48%N) = Some 0%Z) as ->; [|done].
    intros k. by induction k.
Qed.

Lemma pad_zeros_len w n :
  (n < 10 ^ N.of_nat w)%N → (0 < w)%nat → str_len (pad_zeros w n) = w.
Proof. intros Hn Hw. destruct (padded_spec w n Hn Hw) as (Hb & Hl & _). unfold str_len. congruence. Qed.

(** Padded numbers are ordered like the numbers, and determine them. *)
Lemma pad_zeros_le w a b :
  (a < 10 ^ N.of_nat w)%N → (b < 10 ^ N.of_nat w)%N → (0 < w)%nat →
  String.le (pad_zeros w a) (pad_zeros w b) ↔ (a ≤ b)%N.
Proof.
  intros Ha Hb Hw. rewrite str_le_bytes.
  destruct (padded_spec w a Ha Hw) as (-> & Hla & Hva).
  destruct (padded_spec w b Hb Hw) as (-> & Hlb & Hvb).
  rewrite N2Z.inj_le, (digits_order 0 0 _ _ _ _ (eq_trans Hla (eq_sym Hlb)) Hva Hvb).
  split; [by right|]. by intros [?|[_ ?]].
Qed.

Lemma pad_zeros_inj w a b :
  (a < 10 ^ N.of_nat w)%N → (b < 10 ^ N.of_nat w)%N → (0 < w)%nat →
  pad_zeros w a = pad_zeros w b → a = b.
Proof.
  intros Ha Hb Hw Heq. pose proof (pad_zeros_le w a b Ha Hb Hw) as Hab.
  pose proof (pad_zeros_le w b a Hb Ha Hw) as Hba. rewrite Heq in Hab, Hba.
  assert (a ≤ b)%N by by apply Hab. assert (b ≤ a)%N by by apply Hba. lia.
Qed.

(** Digits come before the byte 0xFF. *)
Lemma pad_zeros_below w n :
  (n < 10 ^ N.of_nat w)%N → (0 < w)%nat → String.le (pad_zeros w n) (str_of_bytes [255%N]).
Proof.
  intros Hn Hw. rewrite str_le_bytes, str_bytes_of_bytes by by repeat constructor.
  destruct (padded_spec w n Hn Hw) as (-> & Hlen & Hv%digits_value_digits).
  destruct (padded w n) as [|d ds]; [done|]. apply Forall_cons in Hv as [Hd%is_digit_range _].
  left. lia.
Qed.

Lemma u64_fits_20 n : (n < u64_mod)%N → (n < 10 ^ N.of_nat 20)%N.
Proof. intros Hn. eapply N.lt_trans; [exact Hn|]. by vm_compute. Qed.

Lemma be_digits_spec k n :
  length (be_digits k n) = k ∧ Forall byte_ok (be_digits k n)
  ∧ be_value (be_digits k n) = (n `mod` 256 ^ N.of_nat k)%N.
Proof.
  revert n. induction k as [|k IH]; intros n; cbn [be_digits].
  - split_and!; [done..|]. by rewrite N.mod_1_r.
  - destruct (IH (n / 256)%N) as (Hl & Hok & Hv). split_and!.
    + rewrite length_app, Hl. simpl. lia.
    + apply Forall_app. split; [done|]. repeat constructor. unfold byte_ok. by apply N.mod_lt.
    + unfold be_value in *. rewrite foldl_app, Hv. cbn [foldl].
      rewrite Nat2N.inj_succ, N.pow_succ_r', N.Div0.mod_mul_r. lia.
Qed.

Lemma from_to_be_bytes n : (n < u64_mod)%N → from_be_bytes (to_be_bytes n) = Some n.
Proof.
  intros Hn. unfold from_be_bytes, to_be_bytes, str_len.
  destruct (be_digits_spec 8 n) as (Hl & Hok & Hv). rewrite str_bytes_of_bytes by done.
  rewrite Hl, Hv. simpl. f_equal. by apply N.mod_small.
Qed.

Lemma to_be_bytes_inj a b :
  (a < u64_mod)%N → (b < u64_mod)%N → to_be_bytes a = to_be_bytes b → a = b.
Proof. intros Ha Hb Heq%(f_equal from_be_bytes). rewrite !from_to_be_bytes in Heq by done. congruence. Qed.

(** ** Lossy decoding *)

(** One step keeps the bytes it consumes, or replaces high ones. *)
Lemma utf8_lossy_step b bs :
  ∃ pre w r, b :: bs = pre ++ r ∧ (length r ≤ length bs)%nat ∧ utf8_lossy (b :: bs) = w ++ utf8_lossy r
    ∧ (w = pre ∨ (w = replacement ∧ Forall (λ x, 128 ≤ x)%N pre)).
Proof.
  assert (∀ c, is_continuation c = true → 128 ≤ c)%N as Hcont.
  { intros c. unfold is_continuation. rewrite andb_true_iff, N.leb_le. lia. }
  assert (∀ c, second_byte_ok b c = true → 128 ≤ c)%N as Hsecond.
  { intros c. unfold second_byte_ok, is_continuation.
    repeat case_match; rewrite andb_true_iff, N.leb_le; lia. }
  cbn [utf8_lossy]. destruct (N.ltb_spec b 128) as [Hb|Hb].
  { exists [b], [b], bs. split_and!; [done|lia|done|by left]. }
  generalize (lead_width b). intros width.
  destruct bs as [|b1 r1].
  { exists [b], replacement, []. split_and!; [done|simpl; lia|done|right; split; [done|by constructor]]. }
  assert (∃ pre w r, b :: b1 :: r1 = pre ++ r ∧ (length r ≤ length (b1 :: r1))%nat
    ∧ replacement ++ utf8_lossy (b1 :: r1) = w ++ utf8_lossy r
    ∧ (w = pre ∨ (w = replacement ∧ Forall (λ x, 128 ≤ x)%N pre))) as Hone.
  { exists [b], replacement, (b1 :: r1). split_and!; [done..|right; split; [done|by constructor]]. }
  destruct (width =? 1)%N; [done|]. destruct (width =? 2)%N.
  { destruct (is_continuation b1); [|done].
    exists [b; b1], [b; b1], r1. split_and!; [done|simpl; lia|done|by left]. }
  destruct (second_byte_ok b b1) eqn:H1; cbn [negb]; [|done]. apply Hsecond in H1.
  destruct r1 as [|b2 r2].
  { exists [b; b1], replacement, [].
    split_and!; [done|simpl; lia|done|right; split; [done|by repeat constructor]]. }
  destruct (is_continuation b2) eqn:H2; cbn [negb].
  2: { exists [b; b1], replacement, (b2 :: r2).
       split_and!; [done|simpl; lia|done|right; split; [done|by repeat constructor]]. }
  destruct (width =? 3)%N.
  { exists [b; b1; b2], [b; b1; b2], r2. split_and!; [done|simpl; lia|done|by left]. }
  apply Hcont in H2. destruct r2 as [|b3 r3].
  { exists [b; b1; b2], replacement, [].
    split_and!; [done|simpl; lia|done|right; split; [done|by repeat constructor]]. }
  destruct (is_continuation b3).
  { exists [b; b1; b2; b3], [b; b1; b2; b3], r3. split_and!; [done|simpl; lia|done|by left]. }
  exists [b; b1; b2], replacement, (b3 :: r3).
  split_and!; [done|simpl; lia|done|right; split; [done|by repeat constructor]].
Qed.

(** Lossy decoding yields bytes, and ASCII bytes survive it. *)
Lemma utf8_lossy_bytes bs :
  Forall byte_ok bs →
  Forall byte_ok (utf8_lossy bs) ∧ ∀ b, (b < 128)%N → b ∈ bs → b ∈ utf8_lossy bs.
Proof.
  assert (Forall byte_ok replacement) as Hrep by by repeat constructor.
  remember (length bs) as n eqn:Hn. assert (length bs ≤ n)%nat as Hle by lia. clear Hn.
  revert bs Hle. induction n as [|n IH]; intros [|x bs] Hle Hok; simpl in Hle;
    [split; [done|by intros b _ ?%elem_of_nil]|lia|split; [done|by intros b _ ?%elem_of_nil]|].
  destruct (utf8_lossy_step x bs) as (pre & w & r & Hsplit & Hr & -> & Hw).
  rewrite Hsplit in *. apply Forall_app in Hok as [Hpre Hokr].
  destruct (IH r) as [IH1 IH2]; [lia|done|]. split.
  - apply Forall_app. split; [|done]. by destruct Hw as [-> | [-> _]].
  - intros b Hb [Hin|Hin]%elem_of_app; apply elem_of_app; [left|right; by apply IH2].
    destruct Hw as [-> | [_ Hhigh]]; [done|].
    rewrite Forall_forall in Hhigh. specialize (Hhigh b Hin). lia.
Qed.

Lemma str_bytes_lossy s : str_bytes (from_utf8_lossy s) = utf8_lossy (str_bytes s).
Proof. apply str_bytes_of_bytes, utf8_lossy_bytes, str_bytes_ok. Qed.

(** ASCII text at the beginning survives. *)
Lemma utf8_lossy_ascii p bs :
  Forall (λ b, b < 128)%N p → utf8_lossy (p ++ bs) = p ++ utf8_lossy bs.
Proof.
  induction 1 as [|b p Hb Hp IH]; [done|]. cbn [app utf8_lossy].
  rewrite (proj2 (N.ltb_lt _ _)) by done. by rewrite IH.
Qed.

Definition ascii (s : string) : Prop := Forall (λ b, b < 128)%N (str_bytes s).

Lemma ascii_app p q : ascii p → ascii q → ascii (p +:+ q).
Proof. unfold ascii. rewrite str_bytes_app. by apply Forall_app_2. Qed.

Lemma lossy_ascii_app p r : ascii p → from_utf8_lossy (p +:+ r) = p +:+ from_utf8_lossy r.
Proof.
  intros Hp. apply (inj str_bytes). rewrite str_bytes_app, !str_bytes_lossy, str_bytes_app.
  by apply utf8_lossy_ascii.
Qed.

Lemma starts_with_prefix k p : starts_with k p = true ↔ has_prefix p k.
Proof.
  unfold starts_with, str_len. rewrite bool_decide_eq_true, has_prefix_bytes. split.
  - intros Heq. rewrite <-Heq. apply prefix_take.
  - intros [r ->]. apply take_app_length.
Qed.

(** The test of the scan loops never stops them. *)
Lemma lossy_starts_with k p : ascii p → has_prefix p k → starts_with (from_utf8_lossy k) p = true.
Proof.
  intros Hp [r ->]. rewrite lossy_ascii_app by done. apply starts_with_prefix. by eexists.
Qed.

(** ** Texts that share a length *)

Lemma str_app_inj (a b s t : string) :
  str_len a = str_len b → a +:+ s = b +:+ t → a = b ∧ s = t.
Proof.
  intros Hlen Heq%(f_equal str_bytes). rewrite !str_bytes_app in Heq.
  apply app_inj_1 in Heq as [?%(inj str_bytes) ?%(inj str_bytes)]; done.
Qed.

Lemma str_app_inj_r (p s t : string) : p +:+ s = p +:+ t → s = t.
Proof. apply (inj (String.append p)). Qed.

Lemma str_app_assoc (a b c : string) : (a +:+ b) +:+ c = a +:+ b +:+ c.
Proof. apply (inj str_bytes). by rewrite !str_bytes_app, app_assoc. Qed.

Lemma str_app_nil_r (a : string) : a +:+ "" = a.
Proof. apply (inj str_bytes). rewrite str_bytes_app. apply app_nil_r. Qed.

Lemma has_prefix_app (p s r : string) : has_prefix (p +:+ s) (p +:+ r) ↔ has_prefix s r.
Proof.
  split.
  - intros [x Hx]. rewrite str_app_assoc in Hx. apply str_app_inj_r in Hx. by exists x.
  - intros [x ->]. exists x. by rewrite str_app_assoc.
Qed.

Lemma str_le_app (p a b : string) : String.le (p +:+ a) (p +:+ b) ↔ String.le a b.
Proof. by rewrite !str_le_bytes, !str_bytes_app, bytes_le_app_l. Qed.

(** What follows the prefix of a key. *)
Definition after (prefix k : bytes) : string :=
  str_of_bytes (drop (str_len prefix) (str_bytes k)).

Lemma after_app prefix r : after prefix (prefix +:+ r) = r.
Proof.
  unfold after, str_len. by rewrite str_bytes_app, drop_app_length, str_of_bytes_bytes.
Qed.

(** ** A map of records in the key-value store

    Most families of records are a map: a record per key, under a key text
    made from it.  [stored_map] relates the database to that map; the
    components are specified with it, one instance per family. *)

(** If every element is an image, the list is the image of a list. *)
Lemma Forall_image {A B} (f : B → A) (P : B → Prop) (l : list A) :
  (∀ x, x ∈ l → ∃ y, x = f y ∧ P y) → ∃ l', l = f <$> l' ∧ Forall P l'.
Proof.
  induction l as [|x l IH]; intros Hl; [by exists []|].
  destruct (Hl x) as (y & -> & Hy); [by left|].
  destruct IH as (l' & -> & Hl'); [intros z Hz; apply Hl; by right|].
  exists (y :: l'). split; [done|by constructor].
Qed.

Lemma StronglySorted_fmap_inv {A B} (R : relation A) (f : B → A) (l : list B) :
  StronglySorted R (f <$> l) → StronglySorted (λ x y, R (f x) (f y)) l.
Proof.
  induction l as [|x l IH]; csimpl; intros Hsorted; [constructor|].
  apply StronglySorted_inv in Hsorted as [Hs Hx].
  constructor; [by apply IH|]. rewrite Forall_fmap in Hx. exact Hx.
Qed.

Lemma StronglySorted_weaken {A} (R R' : relation A) (l : list A) :
  (∀ x y, R x y → R' x y) → StronglySorted R l → StronglySorted R' l.
Proof.
  intros HR. induction 1 as [|x l Hs IH Hx]; constructor; [done|]. by eapply Forall_impl; [|apply HR].
Qed.

Section stored_map.
Context `{Countable K} {V : Type}.
Context (prefix : string) (key : K → bytes) (enc : V → bytes) (valid : K → Prop).

(** How the text of a key is made. *)
Record key_codec : Prop := {
  kc_prefix k : valid k → has_prefix prefix (key k);
  kc_inj k k' : valid k → valid k' → key k = key k' → k = k';
}.

Record stored_map (m : table) (M : gmap K V) : Prop := {
  sm_lookup k : valid k → m !! key k = enc <$> M !! k;
  sm_valid k x : M !! k = Some x → valid k;
  sm_only b v : has_prefix prefix b → m !! b = Some v → ∃ k, valid k ∧ b = key k;
}.

(** Only the keys under the prefix matter. *)
Lemma stored_local m m' M :
  (∀ b, has_prefix prefix b → m' !! b = m !! b) → key_codec → stored_map m M → stored_map m' M.
Proof.
  intros Hm Hc [Hl Hv Ho]. split; [|done|].
  - intros k Hk. rewrite Hm; [by apply Hl|by apply kc_prefix].
  - intros b v Hb. rewrite Hm by done. by apply Ho.
Qed.

Lemma stored_none m :
  (∀ b, has_prefix prefix b → m !! b = None) → key_codec → stored_map m ∅.
Proof.
  intros Hm Hc. split.
  - intros k Hk. rewrite Hm by by apply kc_prefix. by rewrite lookup_empty.
  - intros k x. by rewrite lookup_empty.
  - intros b v Hb. by rewrite Hm.
Qed.

Lemma stored_put m M k x :
  key_codec → stored_map m M → valid k → stored_map (<[key k := enc x]> m) (<[k := x]> M).
Proof.
  intros Hc [Hl Hv Ho] Hk. split.
  - intros k' Hk'. destruct (decide (k' = k)) as [->|Hne]; [by rewrite !lookup_insert_eq|].
    rewrite !lookup_insert_ne; [by apply Hl|done|]. by intros Heq%kc_inj.
  - intros k' x' [[<- _]|[_ Hx]]%lookup_insert_Some; [done|by eapply Hv].
  - intros b v Hb [[<- _]|[_ Hx]]%lookup_insert_Some; [by exists k|by eapply Ho].
Qed.

Lemma stored_delete m M k :
  key_codec → stored_map m M → valid k → stored_map (base.delete (key k) m) (base.delete k M).
Proof.
  intros Hc [Hl Hv Ho] Hk. split.
  - intros k' Hk'. destruct (decide (k' = k)) as [->|Hne]; [by rewrite !lookup_delete_eq|].
    rewrite !lookup_delete_ne; [by apply Hl|done|]. by intros Heq%kc_inj.
  - intros k' x' [_ Hx]%lookup_delete_Some. by eapply Hv.
  - intros b v Hb [_ Hx]%lookup_delete_Some. by eapply Ho.
Qed.

(** A scan lists records of the map, each once, by key text. *)
Lemma stored_scan m M q :
  key_codec → stored_map m M → has_prefix prefix q →
  ∃ l, under_prefix q m = (λ e, (key e.1, enc e.2)) <$> l ∧ NoDup l.*1
    ∧ (∀ k x, (k, x) ∈ l ↔ M !! k = Some x ∧ has_prefix q (key k))
    ∧ StronglySorted (λ e e', String.le (key e.1) (key e'.1)) l.
Proof.
  intros Hc Hm Hq.
  destruct (Forall_image (λ e, (key e.1, enc e.2)) (λ e, M !! e.1 = Some e.2 ∧ valid e.1)
    (under_prefix q m)) as (l & Heq & Hl).
  { intros [b v] [Hb Hv]%elem_of_under_prefix.
    destruct (sm_only _ _ Hm b v) as (k & Hk & ->); [|done|].
    { destruct Hq as [q' ->], Hb as [r ->]. rewrite str_app_assoc. by eexists. }
    rewrite (sm_lookup _ _ Hm) in Hv by done. apply fmap_Some in Hv as (x & Hx & ->).
    by exists (k, x). }
  rewrite Forall_forall in Hl. exists l. split_and!; [done|..].
  - pose proof (under_prefix_keys_NoDup q m) as Hnd. rewrite Heq, <-list_fmap_compose in Hnd.
    change (NoDup ((key ∘ fst) <$> l)) in Hnd. rewrite list_fmap_compose in Hnd.
    by eapply NoDup_fmap_1.
  - intros k x. split.
    + intros Hin. split; [by apply (Hl (k, x))|].
      assert ((key k, enc x) ∈ under_prefix q m) as [? _]%elem_of_under_prefix; [|done].
      rewrite Heq. apply list_elem_of_fmap. by exists (k, x).
    + intros [Hx Hk]. pose proof (sm_valid _ _ Hm _ _ Hx) as Hv.
      assert ((key k, enc x) ∈ under_prefix q m) as Hin.
      { apply elem_of_under_prefix. split; [done|]. by rewrite (sm_lookup _ _ Hm), Hx. }
      rewrite Heq in Hin. apply list_elem_of_fmap in Hin as ([k' x'] & [= Hkey _] & Hin).
      destruct (Hl _ Hin) as [Hx' Hv']. simpl in Hx', Hv'. apply kc_inj in Hkey as <-; [|done..].
      by rewrite Hx in Hx'; injection Hx' as <-.
  - pose proof (under_prefix_sorted q m) as Hs. rewrite Heq in Hs.
    by apply StronglySorted_fmap_inv in Hs.
Qed.

(** Deleting what a scan found removes the records under the prefix. *)
Lemma stored_delete_keys m M ks (P : K → Prop) {P_dec : ∀ k, base.Decision (P k)} :
  key_codec → stored_map m M →
  (∀ k, is_Some (M !! k) → key k ∈ ks ↔ P k) →
  stored_map (apply_batch (BatchDelete <$> ks) m) (filter (λ e, ¬ P e.1) M).
Proof.
  intros Hc [Hl Hv Ho] HP. split.
  - intros k Hk. rewrite apply_deletes.
    destruct (M !! k) as [x|] eqn:Hx.
    + specialize (HP k (ltac:(by eexists))). destruct (decide (key k ∈ ks)) as [Hin|Hni].
      * rewrite (proj2 (map_lookup_filter_None _ _ _)); [done|]. right. intros y _ Hno. by apply Hno, HP.
      * rewrite (proj2 (map_lookup_filter_Some _ _ k x)); [by rewrite Hl, Hx by done|].
        split; [done|]. simpl. by intros ?%HP.
    + rewrite (proj2 (map_lookup_filter_None _ _ _)) by by left.
      rewrite Hl, Hx by done. by destruct (decide _).
  - intros k x [Hx _]%map_lookup_filter_Some. by eapply Hv.
  - intros b v Hb. rewrite apply_deletes. destruct (decide _); [done|]. by apply Ho.
Qed.

Lemma stored_delete_prefix m M q :
  key_codec → stored_map m M →
  stored_map (apply_batch (BatchDelete <$> (under_prefix q m).*1) m)
    (filter (λ e, ¬ has_prefix q (key e.1)) M).
Proof.
  intros Hc Hm. apply (stored_delete_keys m M _ (λ k, has_prefix q (key k)) (P_dec:=λ k, has_prefix_dec q (key k)));
    [done..|].
  intros k [x Hx]. rewrite list_elem_of_fmap. split.
  - by intros ([b v] & -> & [? _]%elem_of_under_prefix).
  - intros Hk. exists (key k, enc x). split; [done|]. apply elem_of_under_prefix. split; [done|].
    rewrite (sm_lookup _ _ Hm), Hx; [done|]. by eapply sm_valid.
Qed.
End stored_map.
