(* ===== verification/RocksMessages.v ===== *)
(** * The raw message stream in RocksDB

    [messages.rs] of [post-cortex-storage/src/rocksdb_storage]: per session a
    row per message, an index from turn ids to positions (appends are
    idempotent on it) and the next position, which outlives the rows.

    The blocking tasks run as soon as they are spawned; the session lock is
    held by the caller of [append], so a call is one step. *)

From stdpp Require Import gmap.
From S2P Require Import Prelude RustStd Collections StrLemmas UuidText Types SearchResults Rocks RocksThms.

Local Open Scope string_scope.
Local Open Scope list_scope.
Local Open Scope pcx.

Definition MESSAGE_PREFIX : string := "message:".

Section messages.
Context `{R : RocksDB} `{I : UuidText} `{B : Bincode Message}.

Definition message_key (session_id : Uuid) (seq : N) : bytes :=
  "message:" +:+ Uuid_to_string session_id +:+ ":" +:+ pad_zeros 20 seq.

Definition message_turn_key (session_id : Uuid) (turn_id : string) : bytes :=
  "message_turn:" +:+ Uuid_to_string session_id +:+ ":" +:+ turn_id.

Definition message_next_key (session_id : Uuid) : bytes :=
  "message_next:" +:+ Uuid_to_string session_id.

Definition encode_message (message : Message) : result bytes Error :=
  match encode_to_vec message with
  | Ok bs => Ok bs
  | Err e => Err ("Failed to serialize message: " +:+ e)
  end.

Definition decode_message (bs : bytes) : result Message Error :=
  match decode_from_slice bs with
  | Ok (m, _) => Ok m
  | Err e => Err ("Failed to deserialize message: " +:+ e)
  end.

Definition decode_seq (bs : bytes) : result N Error :=
  match from_be_bytes bs with
  | Some n => Ok n
  | None => Err ("Malformed message seq (" +:+ Z_to_string (Z.of_nat (str_len bs)) +:+ " bytes)")
  end.

(** The loop of [append]: the next position, the turns seen, the batch and
    the messages appended so far. *)
Fixpoint append_loop (d : DB) (session_id : Uuid) (messages : list NewMessage) (next : N)
    (seen : gset string) (batch : WriteBatch) (appended : list Message)
    : result (N * WriteBatch * list Message) Error :=
  match messages with
  | [] => Ok (next, batch, appended)
  | new :: messages =>
    let turn_key := message_turn_key session_id (nm_turn_id new) in
    if decide (nm_turn_id new ∈ seen)
    then append_loop d session_id messages next seen batch appended
    else
      let seen := {[ nm_turn_id new ]} ∪ seen in
      try stored <- db_get d turn_key;
      match stored with
      | Some _ => append_loop d session_id messages next seen batch appended
      | None =>
        let message := into_message new session_id next in
        try row <- encode_message message;
        append_loop d session_id messages (u64_add next 1) seen
          (batch ++ [BatchPut (message_key session_id next) row;
                     BatchPut turn_key (to_be_bytes next)])%list
          (appended ++ [message])%list
      end
  end.

Definition append_batch (d : DB) (session_id : Uuid) (messages : list NewMessage)
    : result (N * WriteBatch * list Message) Error :=
  try stored <- db_get d (message_next_key session_id);
  try next <- match stored with Some bs => decode_seq bs | None => Ok 0%N end;
  append_loop d session_id messages next ∅ [] [].

Definition append (d : DB) (session_id : Uuid) (messages : list NewMessage)
    : DB * result (list Message) Error :=
  match append_batch d session_id messages with
  | Err e => (d, Err e)
  | Ok (_, _, []) => (d, Ok [])
  | Ok (next, batch, appended) =>
    match db_write d (batch ++ [BatchPut (message_next_key session_id) (to_be_bytes next)])%list with
    | (d, Ok _) => (d, Ok appended)
    | (d, Err e) => (d, Err e)
    end
  end.

Definition append_messages (d : DB) (session_id : Uuid) (messages : list NewMessage)
    : DB * result (list Message) Error :=
  match messages with
  | [] => (d, Ok [])
  | _ => append d session_id messages
  end.

Fixpoint decode_rows (items : list (result (bytes * bytes) Error))
    : result (list Message) Error :=
  match items with
  | [] => Ok []
  | item :: items =>
    try (_, value) <- item;
    try message <- decode_message value;
    try messages <- decode_rows items;
    Ok (message :: messages)
  end.

(** [seqs] is the range [first..last]. *)
Definition load_messages (d : DB) (session_id : Uuid) (first last : N)
    : result (list Message) Error :=
  if negb (first <? last)%N then Ok []
  else
    let start := message_key session_id first in
    let opts := set_iterate_upper_bound (message_key session_id last)
                  (set_total_order_seek true default_options) in
    decode_rows (db_iterator d (IterFrom start Forward) opts).

(** The loop of [delete_messages_before]; rows that do not decode are
    skipped. *)
Fixpoint expire_loop (cutoff : DateTime) (items : list (result (bytes * bytes) Error))
    (batch : WriteBatch) (deleted : list (Uuid * N))
    : result (WriteBatch * list (Uuid * N)) Error :=
  match items with
  | [] => Ok (batch, deleted)
  | item :: items =>
    try (key, value) <- item;
    match decode_message value with
    | Err _ => expire_loop cutoff items batch deleted
    | Ok message =>
      if (msg_timestamp message <? cutoff)%Z
      then expire_loop cutoff items
             (batch ++ [BatchDelete key;
                        BatchDelete (message_turn_key (msg_session_id message)
                                                      (msg_turn_id message))])%list
             (deleted ++ [(msg_session_id message, msg_seq message)])%list
      else expire_loop cutoff items batch deleted
    end
  end.

Definition delete_messages_before (d : DB) (cutoff : DateTime)
    : DB * result (list (Uuid * N)) Error :=
  match expire_loop cutoff (scan_prefix d MESSAGE_PREFIX) [] [] with
  | Err e => (d, Err e)
  | Ok (_, []) => (d, Ok [])
  | Ok (batch, deleted) =>
    match db_write d batch with
    | (d, Ok _) => (d, Ok deleted)
    | (d, Err e) => (d, Err e)
    end
  end.
End messages.

(** ** Abstract streams

    A session's stream: the messages by position, and the next position. *)
Record Stream := mkStream {
  rows : gmap N Message;
  next_seq : N;
}.

Definition empty_stream : Stream := mkStream ∅ 0.

Definition turns (s : Stream) : gset string :=
  list_to_set ((λ e, msg_turn_id e.2) <$> map_to_list (rows s)).

(** The first message of every turn not in [known]. *)
Fixpoint new_turns (known : gset string) (messages : list NewMessage) : list NewMessage :=
  match messages with
  | [] => []
  | new :: messages =>
    if decide (nm_turn_id new ∈ known) then new_turns known messages
    else new :: new_turns ({[ nm_turn_id new ]} ∪ known) messages
  end.

Fixpoint place (session_id : Uuid) (next : N) (messages : list NewMessage) : list Message :=
  match messages with
  | [] => []
  | new :: messages => into_message new session_id next :: place session_id (next + 1) messages
  end.

(** What an append adds to the stream [s]. *)
Definition added (session_id : Uuid) (messages : list NewMessage) (s : Stream) : list Message :=
  place session_id (next_seq s) (new_turns (turns s) messages).

Definition by_seq (messages : list Message) : gmap N Message :=
  list_to_map ((λ m, (msg_seq m, m)) <$> messages).

Definition appended_stream (session_id : Uuid) (messages : list NewMessage) (s : Stream) : Stream :=
  let new := added session_id messages s in
  mkStream (by_seq new ∪ rows s) (next_seq s + N.of_nat (length new)).

Definition seq_le (a b : Message) : Prop := (msg_seq a ≤ msg_seq b)%N.
#[global] Instance seq_le_dec : RelDecision seq_le.
Proof. intros a b. unfold seq_le. apply _. Defined.

(** The messages at positions [first..last], in order. *)
Definition stream_range (s : Stream) (first last : N) : list Message :=
  filter (λ m, first ≤ msg_seq m < last)%N
    (merge_sort seq_le (map_to_list (rows s)).*2).

Definition expired_stream (cutoff : DateTime) (s : Stream) : Stream :=
  mkStream (filter (λ e, ¬ (msg_timestamp e.2 < cutoff)%Z) (rows s)) (next_seq s).

Definition with_stream (session_id : Uuid) (s : Stream) (σ : Uuid → Stream) (u : Uuid) : Stream :=
  if decide (u = session_id) then s else σ u.

(** ** The message store implements its streams

    [message_streams] relates the contents of the database to a stream per
    session.  Appending, loading and retention are shown to act on the streams
    as their specification does, whatever else is stored. *)

Definition message_families : list string := ["message"; "message_turn"; "message_next"].

Section store.
Context `{RL : RocksDBLaws} `{IL : UuidTextLaws} `{BL : BincodeLaws Message}.

(** ** Keys *)

Lemma Uuid_text_len u : str_len (Uuid_to_string u) = 36%nat.
Proof. apply Uuid_to_string_len. Qed.

Lemma uuid_key_inj p u v s t :
  (u < uuid_bound)%N → (v < uuid_bound)%N →
  p +:+ Uuid_to_string u +:+ s = p +:+ Uuid_to_string v +:+ t → u = v ∧ s = t.
Proof.
  intros Hu Hv Heq%str_app_inj_r. apply str_app_inj in Heq as [Huv ->].
  - by apply Uuid_to_string_inj in Huv.
  - by rewrite !Uuid_text_len.
Qed.

Lemma message_key_inj u v i j :
  (u < uuid_bound)%N → (v < uuid_bound)%N → (i < u64_mod)%N → (j < u64_mod)%N →
  message_key u i = message_key v j → u = v ∧ i = j.
Proof.
  intros Hu Hv Hi Hj [-> Heq]%uuid_key_inj; [|done..]. split; [done|].
  apply str_app_inj_r in Heq. eapply (pad_zeros_inj 20); [by apply u64_fits_20..|lia|done].
Qed.

Lemma message_turn_key_inj u v s t :
  (u < uuid_bound)%N → (v < uuid_bound)%N →
  message_turn_key u s = message_turn_key v t → u = v ∧ s = t.
Proof. intros Hu Hv [-> Heq]%uuid_key_inj; [|done..]. by apply str_app_inj_r in Heq. Qed.

Lemma message_next_key_inj u v :
  (u < uuid_bound)%N → (v < uuid_bound)%N → message_next_key u = message_next_key v → u = v.
Proof. intros Hu Hv Heq%str_app_inj_r. by apply Uuid_to_string_inj. Qed.

Lemma message_key_le u i j :
  (i < u64_mod)%N → (j < u64_mod)%N →
  String.le (message_key u i) (message_key u j) ↔ (i ≤ j)%N.
Proof.
  intros Hi Hj. unfold message_key. rewrite !str_le_app. apply pad_zeros_le; [by apply u64_fits_20..|lia].
Qed.

(** ** The relation *)

Record stream_ok (session_id : Uuid) (s : Stream) : Prop := {
  ok_rows seq m : rows s !! seq = Some m →
    msg_seq m = seq ∧ msg_session_id m = session_id ∧ (seq < next_seq s)%N;
  ok_turns i j m m' : rows s !! i = Some m → rows s !! j = Some m' →
    msg_turn_id m = msg_turn_id m' → i = j;
  ok_next : (next_seq s < u64_mod)%N;
}.

Record message_streams (m : table) (σ : Uuid → Stream) : Prop := {
  ms_ok u : (u < uuid_bound)%N → stream_ok u (σ u);
  ms_next u : (u < uuid_bound)%N →
    m !! message_next_key u =
      (if (next_seq (σ u) =? 0)%N then None else Some (to_be_bytes (next_seq (σ u))));
  ms_row u seq : (u < uuid_bound)%N → (seq < u64_mod)%N →
    m !! message_key u seq = encoded <$> rows (σ u) !! seq;
  ms_turn u t b : (u < uuid_bound)%N →
    m !! message_turn_key u t = Some b ↔
    ∃ seq msg, rows (σ u) !! seq = Some msg ∧ msg_turn_id msg = t ∧ b = to_be_bytes seq;
  ms_only k v : has_prefix MESSAGE_PREFIX k → m !! k = Some v →
    ∃ u seq, (u < uuid_bound)%N ∧ (seq < u64_mod)%N ∧ k = message_key u seq;
}.

(** The relation is about the keys of its families. *)
Lemma message_streams_local m m' σ :
  (∀ k, family k ∈ message_families → m' !! k = m !! k) →
  message_streams m σ → message_streams m' σ.
Proof.
  intros Hm [Hok Hnext Hrow Hturn Honly].
  assert (∀ k, has_prefix MESSAGE_PREFIX k → family k ∈ message_families) as Hfam.
  { intros k [r ->]. by left. }
  split; [done|..].
  - intros u Hu. rewrite Hm; [by apply Hnext|by do 2 right; left].
  - intros u seq Hu Hseq. rewrite Hm; [by apply Hrow|by left].
  - intros u t b Hu. rewrite Hm; [by apply Hturn|by right; left].
  - intros k v Hk Hv. rewrite Hm in Hv by by apply Hfam. by eapply Honly.
Qed.

Lemma elem_of_turns s t : t ∈ turns s ↔ ∃ seq msg, rows s !! seq = Some msg ∧ msg_turn_id msg = t.
Proof.
  unfold turns. rewrite elem_of_list_to_set, list_elem_of_fmap. split.
  - intros ([seq msg] & -> & Hin%elem_of_map_to_list). by exists seq, msg.
  - intros (seq & msg & Hin & <-). exists (seq, msg). split; [done|by apply elem_of_map_to_list].
Qed.

Lemma turn_stored m σ u t :
  message_streams m σ → (u < uuid_bound)%N → is_Some (m !! message_turn_key u t) ↔ t ∈ turns (σ u).
Proof.
  intros Hm Hu. rewrite elem_of_turns. split.
  - intros [b (seq & msg & Hr & Ht & _)%(ms_turn _ _ Hm)]; [|done]. by exists seq, msg.
  - intros (seq & msg & Hr & Ht). exists (to_be_bytes seq). apply (ms_turn _ _ Hm); [done|].
    by exists seq, msg.
Qed.

(** ** Encoding and decoding *)

Lemma encode_message_ok msg : encode_message msg = Ok (encoded msg).
Proof. unfold encode_message. by rewrite encode_ok. Qed.

Lemma decode_message_ok msg : decode_message (encoded msg) = Ok msg.
Proof. unfold decode_message. by rewrite decode_encoded. Qed.

Lemma decode_seq_ok n : (n < u64_mod)%N → decode_seq (to_be_bytes n) = Ok n.
Proof. intros Hn. unfold decode_seq. by rewrite from_to_be_bytes. Qed.

(** ** Placing messages *)

Lemma length_place u next news : length (place u next news) = length news.
Proof. revert next. induction news as [|n ns IH]; intros next; csimpl; [done|]. by rewrite IH. Qed.

Lemma new_turns_length known news : (length (new_turns known news) ≤ length news)%nat.
Proof.
  revert known. induction news as [|n ns IH]; intros known; simpl; [lia|].
  destruct (decide _); simpl; [specialize (IH known)|specialize (IH ({[nm_turn_id n]} ∪ known))]; lia.
Qed.

Lemma place_spec u next news msg :
  msg ∈ place u next news →
  msg_session_id msg = u ∧ (next ≤ msg_seq msg < next + N.of_nat (length news))%N
  ∧ ∃ n, n ∈ news ∧ msg_turn_id msg = nm_turn_id n.
Proof.
  revert next. induction news as [|n ns IH]; intros next; simpl; [by intros []%elem_of_nil|].
  intros [->|Hin]%elem_of_cons.
  - split_and!; [done|simpl; lia..|]. exists n. split; [by left|done].
  - destruct (IH _ Hin) as (? & ? & n' & ? & ?). split_and!; [done|lia..|].
    exists n'. split; [by right|done].
Qed.

Lemma place_seqs u next news :
  msg_seq <$> place u next news = (λ i, next + N.of_nat i)%N <$> seq 0 (length news).
Proof.
  revert next. induction news as [|n ns IH]; intros next; csimpl; [done|].
  rewrite IH, <-fmap_S_seq, <-list_fmap_compose. f_equal; [simpl; lia|].
  apply list_fmap_ext. intros _ i _. simpl. lia.
Qed.

Lemma place_turns u next news : msg_turn_id <$> place u next news = nm_turn_id <$> news.
Proof. revert next. induction news as [|n ns IH]; intros next; csimpl; [done|]. by rewrite IH. Qed.

Lemma new_turns_spec known news :
  NoDup (nm_turn_id <$> new_turns known news)
  ∧ ∀ n, n ∈ new_turns known news → n ∈ news ∧ nm_turn_id n ∉ known.
Proof.
  revert known. induction news as [|n ns IH]; intros known; simpl.
  - split; [constructor|by intros ? []%elem_of_nil].
  - destruct (decide (nm_turn_id n ∈ known)) as [Hk|Hk].
    + destruct (IH known) as [Hnd Hin]. split; [done|]. intros x Hx. split; [right|]; by apply Hin.
    + destruct (IH ({[nm_turn_id n]} ∪ known)) as [Hnd Hin]. csimpl. split.
      * constructor; [|done]. intros (x & Hx & Hxin)%list_elem_of_fmap.
        apply Hin in Hxin as [_ Hni]. set_solver.
      * intros x [->|Hx]%elem_of_cons; [split; [by left|done]|].
        apply Hin in Hx as [? ?]. split; [by right|set_solver].
Qed.

(** ** Appending *)

(** The pairs the batch of an append writes. *)
Definition row_pairs (msg : Message) : list (bytes * bytes) :=
  [(message_key (msg_session_id msg) (msg_seq msg), encoded msg);
   (message_turn_key (msg_session_id msg) (msg_turn_id msg), to_be_bytes (msg_seq msg))].

Definition append_pairs (u next : N) (msgs : list Message) : list (bytes * bytes) :=
  (msgs ≫= row_pairs) ++ [(message_next_key u, to_be_bytes next)].

Lemma append_loop_spec d m σ u news next seen batch out :
  db_is d m → message_streams m σ → (u < uuid_bound)%N →
  (next + N.of_nat (length news) < u64_mod)%N →
  let msgs := place u next (new_turns (turns (σ u) ∪ seen) news) in
  append_loop d u news next seen batch out
  = Ok ((next + N.of_nat (length msgs))%N, batch ++ (uncurry BatchPut <$> (msgs ≫= row_pairs)), out ++ msgs).
Proof.
  intros Hd Hm Hu. revert next seen batch out.
  induction news as [|n ns IH]; intros next seen batch out Hfit; simpl.
  - by rewrite N.add_0_r, !app_nil_r.
  - simpl in Hfit. set (t := nm_turn_id n).
    destruct (decide (t ∈ seen)) as [Hs|Hs].
    { rewrite decide_True by set_solver. apply IH. lia. }
    rewrite (db_is_get d m) by done. simpl.
    pose proof (turn_stored m σ u t Hm Hu) as Hst.
    destruct (m !! message_turn_key u t) as [b|] eqn:Hb.
    + rewrite decide_True by (apply elem_of_union_l, Hst; by eexists).
      rewrite IH by lia.
      assert (turns (σ u) ∪ ({[t]} ∪ seen) = turns (σ u) ∪ seen) as ->; [|done].
      assert (t ∈ turns (σ u)) by (apply Hst; by eexists). set_solver.
    + assert (t ∉ turns (σ u)) as Hnt.
      { intros Hin. apply Hst in Hin as [? ?]. congruence. }
      rewrite decide_False by set_solver.
      rewrite encode_message_ok. simpl.
      assert (u64_add next 1 = next + 1)%N as ->.
      { unfold u64_add. apply N.mod_small. lia. }
      rewrite IH by lia.
      assert (turns (σ u) ∪ ({[t]} ∪ seen) = {[t]} ∪ (turns (σ u) ∪ seen)) as -> by set_solver.
      csimpl. rewrite <-!app_assoc. simpl. do 3 f_equal. lia.
Qed.

Lemma append_pairs_NoDup u next msgs :
  (u < uuid_bound)%N → NoDup (msg_seq <$> msgs) → NoDup (msg_turn_id <$> msgs) →
  (∀ msg, msg ∈ msgs → msg_session_id msg = u ∧ (msg_seq msg < u64_mod)%N) →
  NoDup (append_pairs u next msgs).*1.
Proof.
  intros Hu Hseq Hturn Hmsgs. unfold append_pairs. rewrite fmap_app. csimpl.
  assert (∀ ms k, k ∈ (ms ≫= row_pairs).*1 →
    ∃ msg, msg ∈ ms ∧ (k = message_key (msg_session_id msg) (msg_seq msg)
                       ∨ k = message_turn_key (msg_session_id msg) (msg_turn_id msg))) as Hkeys.
  { intros ms k ([k' v] & -> & (msg & Hin & Hmsg)%list_elem_of_bind)%list_elem_of_fmap.
    exists msg. split; [done|]. unfold row_pairs in Hin. set_solver. }
  apply NoDup_app. split_and!; [| |by apply NoDup_singleton].
  - induction msgs as [|msg ms IH]; csimpl; [constructor|].
    apply NoDup_cons in Hseq as [Hs1 Hs2], Hturn as [Ht1 Ht2].
    destruct (Hmsgs msg ltac:(by left)) as [Hmu Hmi].
    assert (∀ msg', msg' ∈ ms → msg_session_id msg' = u ∧ (msg_seq msg' < u64_mod)%N) as Hms.
    { intros msg' ?. apply Hmsgs. by right. }
    constructor; [|constructor; [|by apply IH]].
    + rewrite elem_of_cons. intros [Heq|(msg' & Hin & [Heq|Heq])%Hkeys]; [done| |done].
      destruct (Hms _ Hin) as [Hu' Hi']. rewrite Hmu, Hu' in Heq.
      apply message_key_inj in Heq as [_ Heq]; [|done..]. apply Hs1, list_elem_of_fmap.
      by exists msg'.
    + intros (msg' & Hin & [Heq|Heq])%Hkeys; [done|].
      destruct (Hms _ Hin) as [Hu' Hi']. rewrite Hmu, Hu' in Heq.
      apply message_turn_key_inj in Heq as [_ Heq]; [|done..]. apply Ht1, list_elem_of_fmap.
      by exists msg'.
  - intros k (msg & Hin & [-> | ->])%Hkeys; by rewrite list_elem_of_singleton.
Qed.

Lemma elem_of_append_pairs u next msgs k v :
  (k, v) ∈ append_pairs u next msgs ↔
  (∃ msg, msg ∈ msgs ∧ ((k = message_key (msg_session_id msg) (msg_seq msg) ∧ v = encoded msg)
     ∨ (k = message_turn_key (msg_session_id msg) (msg_turn_id msg) ∧ v = to_be_bytes (msg_seq msg))))
  ∨ (k = message_next_key u ∧ v = to_be_bytes next).
Proof.
  unfold append_pairs. rewrite elem_of_app, list_elem_of_bind, list_elem_of_singleton.
  unfold row_pairs. split.
  - intros [(msg & Hin & Hmsg)|[= -> ->]]; [left; exists msg|by right]. split; [done|]. set_solver.
  - intros [(msg & Hin & Hkv)|[-> ->]]; [left; exists msg|by right]. split; [|done]. set_solver.
Qed.

Lemma by_seq_Some msgs i msg :
  NoDup (msg_seq <$> msgs) → by_seq msgs !! i = Some msg ↔ msg ∈ msgs ∧ msg_seq msg = i.
Proof.
  intros Hnd. unfold by_seq. rewrite <-elem_of_list_to_map by by rewrite <-list_fmap_compose.
  rewrite list_elem_of_fmap. split.
  - intros (x & [= -> ->] & Hin). done.
  - intros [Hin <-]. by exists msg.
Qed.

(** What is known of the messages an append adds. *)
Record fresh_msgs (u : N) (s : Stream) (msgs : list Message) : Prop := {
  fm_seqs : NoDup (msg_seq <$> msgs);
  fm_turns : NoDup (msg_turn_id <$> msgs);
  fm_session msg : msg ∈ msgs → msg_session_id msg = u;
  fm_range msg : msg ∈ msgs →
    (next_seq s ≤ msg_seq msg < next_seq s + N.of_nat (length msgs))%N;
  fm_new msg : msg ∈ msgs → msg_turn_id msg ∉ turns s;
  fm_fits : (next_seq s + N.of_nat (length msgs) < u64_mod)%N;
}.

Lemma added_fresh u news s :
  (next_seq s + N.of_nat (length news) < u64_mod)%N → fresh_msgs u s (added u news s).
Proof.
  intros Hfit. unfold added. destruct (new_turns_spec (turns s) news) as [Hnd Hin].
  pose proof (new_turns_length (turns s) news) as Hlen. split.
  - rewrite place_seqs. apply NoDup_fmap_2; [intros ? ? ?; lia|apply NoDup_seq].
  - by rewrite place_turns.
  - intros msg Hmsg. by apply place_spec in Hmsg as [? _].
  - intros msg Hmsg. rewrite length_place. by apply place_spec in Hmsg as (_ & ? & _).
  - intros msg Hmsg. apply place_spec in Hmsg as (_ & _ & n & Hn & ->). by apply Hin.
  - rewrite length_place. lia.
Qed.

Definition extended (msgs : list Message) (s : Stream) : Stream :=
  mkStream (by_seq msgs ∪ rows s) (next_seq s + N.of_nat (length msgs)).

Lemma extended_rows u s msgs i msg :
  stream_ok u s → fresh_msgs u s msgs →
  rows (extended msgs s) !! i = Some msg ↔ (msg ∈ msgs ∧ msg_seq msg = i) ∨ rows s !! i = Some msg.
Proof.
  intros Hs Hf. simpl. rewrite lookup_union_Some.
  - by rewrite by_seq_Some by apply Hf.
  - apply map_disjoint_spec. intros j x y [Hx <-]%by_seq_Some Hy; [|apply Hf].
    apply (fm_range _ _ _ Hf) in Hx. apply (ok_rows _ _ Hs) in Hy. lia.
Qed.

Lemma extended_ok u s msgs : stream_ok u s → fresh_msgs u s msgs → stream_ok u (extended msgs s).
Proof.
  intros Hs Hf. split.
  - intros i msg [[Hin <-]|Hr]%(extended_rows u s msgs i msg Hs Hf).
    + split_and!; [done|by apply (fm_session _ _ _ Hf)|by apply (fm_range _ _ _ Hf)].
    + apply (ok_rows _ _ Hs) in Hr as (? & ? & ?). split_and!; [done..|simpl; lia].
  - intros i j x y Hx Hy Hxy. apply (extended_rows u s msgs _ _ Hs Hf) in Hx, Hy.
    assert (∀ a b i, a ∈ msgs → rows s !! i = Some b → msg_turn_id a ≠ msg_turn_id b) as Hcross.
    { intros a b k Ha Hb Hab. apply (fm_new _ _ _ Hf _ Ha), elem_of_turns. by exists k, b. }
    destruct Hx as [[Hx <-]|Hx], Hy as [[Hy <-]|Hy].
    + apply list_elem_of_lookup in Hx as [a Ha], Hy as [b Hb].
      assert (a = b) as ->; [|congruence].
      eapply NoDup_lookup; [apply (fm_turns _ _ _ Hf)|rewrite list_lookup_fmap, Ha; done|].
      rewrite list_lookup_fmap, Hb. simpl. by f_equal.
    + by destruct (Hcross _ _ _ Hx Hy).
    + by destruct (Hcross _ _ _ Hy Hx).
    + by eapply (ok_turns _ _ Hs).
  - apply (fm_fits _ _ _ Hf).
Qed.

Lemma message_streams_ext m σ σ' :
  (∀ u, σ u = σ' u) → message_streams m σ → message_streams m σ'.
Proof.
  intros Hσ [Hok Hnext Hrow Hturn Honly].
  split; intros *; rewrite <-?Hσ; [apply Hok|apply Hnext|apply Hrow|apply Hturn|apply Honly].
Qed.

(** The batch of an append does to the table what the append does to the
    stream. *)
Section append_effect.
Variables (m : table) (σ : Uuid → Stream) (u : N) (msgs : list Message).
Hypothesis Hm : message_streams m σ.
Hypothesis Hu : (u < uuid_bound)%N.
Hypothesis Hf : fresh_msgs u (σ u) msgs.
Hypothesis Hne : msgs ≠ [].

Let s' := extended msgs (σ u).
Let pairs := append_pairs u (next_seq s') msgs.
Let m' := apply_batch (uncurry BatchPut <$> pairs) m.

Lemma appended_msg msg : msg ∈ msgs → msg_session_id msg = u ∧ (msg_seq msg < u64_mod)%N.
Proof.
  intros Hmsg. pose proof (fm_range _ _ _ Hf _ Hmsg). pose proof (fm_fits _ _ _ Hf).
  split; [by apply (fm_session _ _ _ Hf)|lia].
Qed.

Lemma pairs_NoDup : NoDup pairs.*1.
Proof.
  apply append_pairs_NoDup; [done|apply Hf..|exact appended_msg].
Qed.

Lemma written k v : (k, v) ∈ pairs → m' !! k = Some v.
Proof. apply lookup_apply_puts, pairs_NoDup. Qed.

Lemma unwritten k : (∀ v, (k, v) ∉ pairs) → m' !! k = m !! k.
Proof.
  intros Hk. apply lookup_apply_puts; [apply pairs_NoDup|].
  intros ([k' v] & -> & Hin)%list_elem_of_fmap. by apply (Hk v).
Qed.

Lemma row_unwritten v i :
  (v < uuid_bound)%N → (i < u64_mod)%N → (v = u → ∀ msg, msg ∈ msgs → msg_seq msg ≠ i) →
  m' !! message_key v i = m !! message_key v i.
Proof.
  intros Hv Hi Hno. apply unwritten.
  intros b [(x & Hx & [[Heq _]|[Heq _]])|[Heq _]]%elem_of_append_pairs; [|done..].
  destruct (appended_msg x Hx) as [Hxu Hxi]. rewrite Hxu in Heq.
  apply message_key_inj in Heq as [-> ->]; [|done..]. by eapply Hno.
Qed.

Lemma turn_unwritten v t :
  (v < uuid_bound)%N → (v = u → ∀ msg, msg ∈ msgs → msg_turn_id msg ≠ t) →
  m' !! message_turn_key v t = m !! message_turn_key v t.
Proof.
  intros Hv Hno. apply unwritten.
  intros b [(x & Hx & [[Heq _]|[Heq _]])|[Heq _]]%elem_of_append_pairs; [done| |done].
  destruct (appended_msg x Hx) as [Hxu Hxi]. rewrite Hxu in Heq.
  apply message_turn_key_inj in Heq as [-> ->]; [|done..]. by eapply Hno.
Qed.

Lemma rows_after i msg :
  rows s' !! i = Some msg ↔ (msg ∈ msgs ∧ msg_seq msg = i) ∨ rows (σ u) !! i = Some msg.
Proof. apply (extended_rows u); [by apply (ms_ok _ _ Hm)|done]. Qed.

Lemma append_effect_row i :
  (i < u64_mod)%N → m' !! message_key u i = encoded <$> rows s' !! i.
Proof.
  intros Hi. destruct (rows s' !! i) as [msg|] eqn:Hrow; simpl.
  - apply rows_after in Hrow as [[Hin <-]|Hrow].
    + apply written, elem_of_append_pairs. left. exists msg. split; [done|left].
      by rewrite (fm_session _ _ _ Hf).
    + rewrite row_unwritten; [by rewrite (ms_row _ _ Hm), Hrow|done..|].
      intros _ x Hx <-. apply (fm_range _ _ _ Hf) in Hx.
      apply (ok_rows _ _ (ms_ok _ _ Hm u Hu)) in Hrow. lia.
  - rewrite row_unwritten, (ms_row _ _ Hm); [|done..|].
    + destruct (rows (σ u) !! i) as [x|] eqn:Hx; [|done].
      assert (rows s' !! i = Some x) as Hc by (apply rows_after; by right). congruence.
    + intros _ x Hx Heq.
      assert (rows s' !! i = Some x) as Hc by (apply rows_after; by left). congruence.
Qed.

Lemma append_effect_turn t b :
  m' !! message_turn_key u t = Some b ↔
  ∃ seq msg, rows s' !! seq = Some msg ∧ msg_turn_id msg = t ∧ b = to_be_bytes seq.
Proof.
  destruct (decide (t ∈ msg_turn_id <$> msgs)) as [(x & -> & Hx)%list_elem_of_fmap|Hno].
  - assert (m' !! message_turn_key u (msg_turn_id x) = Some (to_be_bytes (msg_seq x))) as ->.
    { apply written, elem_of_append_pairs. left. exists x. split; [done|right].
      by rewrite (fm_session _ _ _ Hf). }
    assert (rows s' !! msg_seq x = Some x) as Hrow by (apply rows_after; by left).
    split; [intros [= <-]; by exists (msg_seq x), x|].
    intros (i & y & Hy & Ht & ->). do 2 f_equal.
    assert (stream_ok u s') as Hs' by (apply extended_ok; [by apply (ms_ok _ _ Hm)|done]).
    by eapply (ok_turns _ _ Hs').
  - rewrite turn_unwritten, (ms_turn _ _ Hm); [|done..|].
    + split; intros (i & x & Hrow & Ht & ->); exists i, x; (split; [|done]).
      * apply rows_after. by right.
      * apply rows_after in Hrow as [[Hin _]|Hrow]; [|done].
        destruct Hno. apply list_elem_of_fmap. by exists x.
    + intros _ x Hx Heq. apply Hno, list_elem_of_fmap. by exists x.
Qed.

Lemma append_effect : message_streams m' (with_stream u s' σ).
Proof.
  split.
  - intros v Hv. unfold with_stream. destruct (decide (v = u)) as [->|]; [|by apply (ms_ok _ _ Hm)].
    apply extended_ok; [by apply (ms_ok _ _ Hm)|done].
  - intros v Hv. unfold with_stream. destruct (decide (v = u)) as [->|Hne'].
    + assert (next_seq s' ≠ 0)%N as Hnz.
      { unfold s'. simpl. destruct msgs; simpl in *; [done|lia]. }
      apply N.eqb_neq in Hnz as ->. apply written, elem_of_append_pairs. by right.
    + rewrite <-(ms_next _ _ Hm) by done. apply unwritten.
      intros b [(msg & _ & [[Heq _]|[Heq _]])|[Heq _]]%elem_of_append_pairs; [done..|].
      by apply message_next_key_inj in Heq.
  - intros v i Hv Hi. unfold with_stream.
    destruct (decide (v = u)) as [->|Hne']; [by apply append_effect_row|].
    rewrite <-(ms_row _ _ Hm) by done. by apply row_unwritten.
  - intros v t b Hv. unfold with_stream.
    destruct (decide (v = u)) as [->|Hne']; [by apply append_effect_turn|].
    rewrite <-(ms_turn _ _ Hm) by done. by rewrite turn_unwritten.
  - intros k v Hk Hv. destruct (decide (k ∈ pairs.*1)) as [Hin|Hno].
    + apply list_elem_of_fmap in Hin as ([k' b] & -> & Hin).
      apply elem_of_append_pairs in Hin
        as [(msg & Hin & [[-> _]|[-> _]])|[-> _]]; [|by destruct Hk|by destruct Hk].
      destruct (appended_msg msg Hin) as [Hs Hi]. exists u, (msg_seq msg). by rewrite Hs.
    + rewrite unwritten in Hv; [by eapply (ms_only _ _ Hm)|].
      intros b Hin. apply Hno, list_elem_of_fmap. by exists (k, b).
Qed.
End append_effect.

(** ** Ranges *)

Lemma decode_rows_ok (msgs : list Message) (f : Message → bytes) :
  decode_rows (Ok <$> ((λ msg, (f msg, encoded msg)) <$> msgs)) = Ok msgs.
Proof.
  induction msgs as [|msg ms IH]; csimpl; [done|]. by rewrite decode_message_ok, IH.
Qed.

#[local] Instance seq_le_total : Total seq_le.
Proof. intros a b. unfold seq_le. lia. Qed.
#[local] Instance seq_le_trans : Transitive seq_le.
Proof. intros a b c. unfold seq_le. lia. Qed.

Lemma elem_of_stream_range u s first last msg :
  stream_ok u s →
  msg ∈ stream_range s first last ↔
  rows s !! msg_seq msg = Some msg ∧ (first ≤ msg_seq msg < last)%N.
Proof.
  intros Hs. unfold stream_range.
  rewrite list_elem_of_filter, merge_sort_Permutation, list_elem_of_fmap. split.
  - intros (Hr & [i x] & -> & Hin%elem_of_map_to_list). simpl in *.
    apply (ok_rows _ _ Hs) in Hin as Hi. by destruct Hi as [<- _].
  - intros [Hin Hr]. split; [done|]. exists (msg_seq msg, msg).
    split; [done|by apply elem_of_map_to_list].
Qed.

Lemma stream_values_NoDup u s : stream_ok u s → NoDup (msg_seq <$> (map_to_list (rows s)).*2).
Proof.
  intros Hs.
  assert (msg_seq <$> (map_to_list (rows s)).*2 = (map_to_list (rows s)).*1) as ->.
  { rewrite <-list_fmap_compose. apply list_fmap_ext. intros j [i x] Hx%list_elem_of_lookup_2.
    apply elem_of_map_to_list in Hx. by apply (ok_rows _ _ Hs) in Hx as [? _]. }
  apply NoDup_fst_map_to_list.
Qed.

Lemma stream_range_NoDup u s first last :
  stream_ok u s → NoDup (msg_seq <$> stream_range s first last).
Proof.
  intros Hs. apply NoDup_fmap_filter. rewrite merge_sort_Permutation.
  by apply (stream_values_NoDup u).
Qed.

(** The pair that stores a message. *)
Definition row_entry (msg : Message) : bytes * bytes :=
  (message_key (msg_session_id msg) (msg_seq msg), encoded msg).

Lemma entries_sorted u msgs :
  (∀ msg, msg ∈ msgs → msg_session_id msg = u ∧ (msg_seq msg < u64_mod)%N) →
  StronglySorted seq_le msgs → StronglySorted key_le (row_entry <$> msgs).
Proof.
  intros Hin. induction 1 as [|msg ms Hs IH Hle]; csimpl; constructor.
  - apply IH. intros x Hx. apply Hin. by right.
  - rewrite Forall_fmap, Forall_forall in *. intros x Hx. unfold key_le. simpl.
    destruct (Hin msg ltac:(by left)) as [-> Hi], (Hin x ltac:(by right)) as [-> Hj].
    apply message_key_le; [done..|]. by apply Hle.
Qed.

Lemma entries_NoDup msgs :
  (∀ msg, msg ∈ msgs → (msg_session_id msg < uuid_bound)%N ∧ (msg_seq msg < u64_mod)%N) →
  NoDup ((λ msg, (msg_session_id msg, msg_seq msg)) <$> msgs) → NoDup (row_entry <$> msgs).*1.
Proof.
  intros Hin Hnd. rewrite <-list_fmap_compose.
  apply NoDup_fmap_2_strong; [|by eapply NoDup_fmap_1].
  intros x y Hx Hy Heq. simpl in Heq.
  destruct (Hin x Hx), (Hin y Hy). apply message_key_inj in Heq as [Hs Hq]; [|done..].
  apply list_elem_of_lookup in Hx as [i Hi], Hy as [j Hj].
  assert (i = j) as ->; [|congruence].
  eapply NoDup_lookup; [exact Hnd|by rewrite list_lookup_fmap, Hi|].
  rewrite list_lookup_fmap, Hj. simpl. by rewrite Hs, Hq.
Qed.

(** Keys between two rows of a session are rows of it. *)
Lemma between_rows m σ u a b k v :
  message_streams m σ → (u < uuid_bound)%N → (a < u64_mod)%N → (b < u64_mod)%N →
  m !! k = Some v → String.le (message_key u a) k → ¬ String.le (message_key u b) k →
  ∃ msg, k = message_key u (msg_seq msg) ∧ rows (σ u) !! msg_seq msg = Some msg
         ∧ v = encoded msg ∧ (a ≤ msg_seq msg < b)%N.
Proof.
  intros Hm Hu Ha Hb Hk Hle Hlt.
  assert (has_prefix ("message:" +:+ Uuid_to_string u +:+ ":") k) as [r ->].
  { apply has_prefix_bytes. rewrite !str_le_bytes in Hle, Hlt. unfold message_key in *.
    rewrite !str_bytes_app in *. rewrite !app_assoc in Hle, Hlt.
    by eapply bytes_le_between. }
  destruct (ms_only _ _ Hm _ _ ltac:(by eexists) Hk) as (w & i & Hw & Hi & Heq).
  rewrite !str_app_assoc in *. apply uuid_key_inj in Heq as [<- Heq]; [|done..].
  apply str_app_inj_r in Heq as ->. fold (message_key u i) in *.
  rewrite (ms_row _ _ Hm) in Hk by done. apply fmap_Some in Hk as (msg & Hrow & ->).
  destruct (ok_rows _ _ (ms_ok _ _ Hm u Hu) _ _ Hrow) as (<- & _).
  exists msg. split_and!; [done..| |]; apply message_key_le in Hle; try done.
  apply N.lt_nge. intros Hle'. apply Hlt. by apply message_key_le.
Qed.

Lemma range_scan m σ u first last :
  message_streams m σ → (u < uuid_bound)%N → (first < u64_mod)%N → (last < u64_mod)%N →
  iteration m (IterFrom (message_key u first) Forward)
    (set_iterate_upper_bound (message_key u last) (set_total_order_seek true default_options))
  = row_entry <$> stream_range (σ u) first last.
Proof.
  intros Hm Hu Hfirst Hlast. pose proof (ms_ok _ _ Hm u Hu) as Hs.
  assert (∀ msg, msg ∈ stream_range (σ u) first last →
    msg_session_id msg = u ∧ (msg_seq msg < u64_mod)%N) as Hin.
  { intros msg [Hr _]%(elem_of_stream_range u); [|done].
    apply (ok_rows _ _ Hs) in Hr as (_ & -> & Hlt). pose proof (ok_next _ _ Hs). split; [done|lia]. }
  apply sorted_pairs_unique.
  - by do 2 apply StronglySorted_filter; apply btree_iter_sorted.
  - apply (entries_sorted u); [done|]. apply StronglySorted_filter, StronglySorted_merge_sort; apply _.
  - do 2 apply NoDup_fmap_filter. apply btree_iter_keys_NoDup.
  - apply entries_NoDup.
    + intros msg Hmsg. destruct (Hin msg Hmsg) as [-> ?]. done.
    + eapply (NoDup_fmap_1 snd). rewrite <-list_fmap_compose. by apply (stream_range_NoDup u).
  - intros [k v]. unfold iteration. rewrite !list_elem_of_filter, elem_of_btree_iter, list_elem_of_fmap.
    unfold in_bounds. simpl. rewrite bool_decide_eq_true. split.
    + intros (Hle & Hlt & Hk).
      destruct (between_rows m σ u first last k v) as (msg & -> & Hrow & -> & Hr); [done..|].
      exists msg. unfold row_entry. split; [|by apply (elem_of_stream_range u)].
      by apply (ok_rows _ _ Hs) in Hrow as (_ & -> & _).
    + intros (msg & [= -> ->] & Hmsg). destruct (Hin msg Hmsg) as [-> Hi].
      apply (elem_of_stream_range u) in Hmsg as [Hrow Hr]; [|done].
      rewrite !message_key_le by done. split_and!; [lia..|].
      by rewrite (ms_row _ _ Hm), Hrow by done.
Qed.

(** ** Retention *)

Lemma stored_row m σ k v :
  message_streams m σ → has_prefix MESSAGE_PREFIX k → m !! k = Some v →
  ∃ msg, (k, v) = row_entry msg ∧ (msg_session_id msg < uuid_bound)%N
         ∧ rows (σ (msg_session_id msg)) !! msg_seq msg = Some msg.
Proof.
  intros Hm Hp Hk. destruct (ms_only _ _ Hm _ _ Hp Hk) as (u & i & Hu & Hi & ->).
  rewrite (ms_row _ _ Hm) in Hk by done. apply fmap_Some in Hk as (msg & Hrow & ->).
  destruct (ok_rows _ _ (ms_ok _ _ Hm u Hu) _ _ Hrow) as (Hq & Hs & _).
  exists msg. unfold row_entry. by rewrite Hq, Hs.
Qed.

Lemma row_stored m σ msg :
  message_streams m σ → (msg_session_id msg < uuid_bound)%N →
  rows (σ (msg_session_id msg)) !! msg_seq msg = Some msg →
  (msg_seq msg < u64_mod)%N ∧ m !! (row_entry msg).1 = Some (encoded msg).
Proof.
  intros Hm Hu Hrow. pose proof (ms_ok _ _ Hm _ Hu) as Hok.
  destruct (ok_rows _ _ Hok _ _ Hrow) as (_ & _ & Hi). pose proof (ok_next _ _ Hok).
  split; [lia|]. simpl. rewrite (ms_row _ _ Hm), Hrow; [done..|lia].
Qed.

(** A scan of the rows finds every message of every stream, once. *)
Lemma row_scan m σ :
  message_streams m σ →
  ∃ msgs, under_prefix MESSAGE_PREFIX m = row_entry <$> msgs
    ∧ NoDup ((λ msg, (msg_session_id msg, msg_seq msg)) <$> msgs)
    ∧ ∀ msg, msg ∈ msgs ↔ (msg_session_id msg < uuid_bound)%N
                          ∧ rows (σ (msg_session_id msg)) !! msg_seq msg = Some msg.
Proof.
  intros Hm.
  destruct (elements_image row_entry
    (λ msg, (msg_session_id msg < uuid_bound)%N
            ∧ rows (σ (msg_session_id msg)) !! msg_seq msg = Some msg)
    (under_prefix MESSAGE_PREFIX m)) as (msgs & Hmsgs & Hall).
  { intros [k v] [Hp Hk]%elem_of_under_prefix. by apply (stored_row m). }
  rewrite Forall_forall in Hall. exists msgs. split_and!; [done| |].
  - pose proof (under_prefix_keys_NoDup MESSAGE_PREFIX m) as Hnd. rewrite Hmsgs in Hnd.
    apply (NoDup_fmap_1 (λ p, message_key p.1 p.2)).
    rewrite <-list_fmap_compose. by rewrite <-list_fmap_compose in Hnd.
  - intros msg. split; [apply Hall|]. intros [Hu Hrow].
    destruct (row_stored m σ msg Hm Hu Hrow) as [Hi Hk].
    assert (row_entry msg ∈ under_prefix MESSAGE_PREFIX m) as Hin.
    { apply elem_of_under_prefix. split; [by eexists|done]. }
    rewrite Hmsgs in Hin. apply list_elem_of_fmap in Hin as (x & Heq & Hx).
    unfold row_entry in Heq. injection Heq as _ Heq. apply (inj encoded) in Heq as ->. done.
Qed.

Definition old (cutoff : DateTime) (msg : Message) : Prop := (msg_timestamp msg < cutoff)%Z.
#[local] Instance old_dec cutoff msg : base.Decision (old cutoff msg).
Proof. unfold old. apply _. Defined.

(** The keys retention deletes for a message. *)
Definition dead_keys (msg : Message) : list bytes :=
  [message_key (msg_session_id msg) (msg_seq msg);
   message_turn_key (msg_session_id msg) (msg_turn_id msg)].

Lemma expire_loop_spec cutoff msgs batch deleted :
  let dead := filter (old cutoff) msgs in
  expire_loop cutoff (Ok <$> (row_entry <$> msgs)) batch deleted
  = Ok (batch ++ (BatchDelete <$> (dead ≫= dead_keys)),
        deleted ++ ((λ msg, (msg_session_id msg, msg_seq msg)) <$> dead)).
Proof.
  intros dead. subst dead. revert batch deleted.
  induction msgs as [|msg ms IH]; intros batch deleted; csimpl; [by rewrite !app_nil_r|].
  rewrite decode_message_ok, filter_cons.
  destruct (Z.ltb_spec (msg_timestamp msg) cutoff) as [Hlt|Hge].
  - rewrite decide_True, IH by done. csimpl. by rewrite <-!app_assoc.
  - rewrite decide_False, IH by (unfold old; lia). done.
Qed.

Lemma key_dead msgs k :
  k ∈ msgs ≫= dead_keys ↔
  ∃ msg, msg ∈ msgs ∧ (k = message_key (msg_session_id msg) (msg_seq msg)
                       ∨ k = message_turn_key (msg_session_id msg) (msg_turn_id msg)).
Proof.
  rewrite list_elem_of_bind. split.
  - intros (msg & Hk & Hmsg). exists msg. split; [done|].
    apply elem_of_cons in Hk as [?|Hk%list_elem_of_singleton]; [by left|by right].
  - intros (msg & Hmsg & Hk). exists msg. split; [|done].
    unfold dead_keys. rewrite elem_of_cons, list_elem_of_singleton. done.
Qed.

Section expire_effect.
Variables (m : table) (σ : Uuid → Stream) (cutoff : DateTime) (msgs : list Message).
Hypothesis Hm : message_streams m σ.
Hypothesis Hmsgs : ∀ msg, msg ∈ msgs ↔ (msg_session_id msg < uuid_bound)%N
  ∧ rows (σ (msg_session_id msg)) !! msg_seq msg = Some msg.

Let dead := filter (old cutoff) msgs.
Let m' := apply_batch (BatchDelete <$> (dead ≫= dead_keys)) m.

Lemma elem_of_dead msg :
  msg ∈ dead ↔ (msg_session_id msg < uuid_bound)%N ∧ old cutoff msg
    ∧ rows (σ (msg_session_id msg)) !! msg_seq msg = Some msg.
Proof using Hmsgs. unfold dead. rewrite list_elem_of_filter, Hmsgs. tauto. Qed.

Lemma after_deletes k :
  m' !! k = if decide (k ∈ dead ≫= dead_keys) then None else m !! k.
Proof. apply apply_deletes. Qed.

Lemma expired_row u i msg :
  rows (expired_stream cutoff (σ u)) !! i = Some msg ↔
  rows (σ u) !! i = Some msg ∧ ¬ old cutoff msg.
Proof. simpl. by rewrite map_lookup_filter_Some. Qed.

Lemma expire_effect_ok u :
  (u < uuid_bound)%N → stream_ok u (expired_stream cutoff (σ u)).
Proof.
  intros Hu. pose proof (ms_ok _ _ Hm u Hu) as Hs. split.
  - intros i msg [Hrow _]%expired_row. by apply (ok_rows _ _ Hs).
  - intros i j x y [Hx _]%expired_row [Hy _]%expired_row. by eapply (ok_turns _ _ Hs).
  - apply (ok_next _ _ Hs).
Qed.

Lemma expire_effect_row u i :
  (u < uuid_bound)%N → (i < u64_mod)%N →
  m' !! message_key u i = encoded <$> rows (expired_stream cutoff (σ u)) !! i.
Proof.
  intros Hu Hi. rewrite after_deletes. destruct (decide _) as [Hk|Hk].
  - apply key_dead in Hk as (msg & (Hs & Hold & Hrow)%elem_of_dead & [Heq|Heq]); [|done].
    apply message_key_inj in Heq as [-> ->]; [|done..|by apply (row_stored m σ)].
    destruct (rows (expired_stream _ _) !! _) as [x|] eqn:Hx; [|done].
    apply expired_row in Hx as [Hx Hno]. rewrite Hrow in Hx. by simplify_eq.
  - rewrite (ms_row _ _ Hm) by done. f_equal.
    destruct (rows (σ u) !! i) as [x|] eqn:Hx.
    + symmetry. apply expired_row. split; [done|]. intros Hold. apply Hk, key_dead.
      destruct (ok_rows _ _ (ms_ok _ _ Hm u Hu) _ _ Hx) as (<- & <- & _).
      exists x. split; [by apply elem_of_dead|by left].
    + destruct (rows (expired_stream _ _) !! _) as [x|] eqn:Hx'; [|done].
      apply expired_row in Hx' as [? _]. congruence.
Qed.

Lemma expire_effect_turn u t b :
  (u < uuid_bound)%N →
  m' !! message_turn_key u t = Some b ↔
  ∃ seq msg, rows (expired_stream cutoff (σ u)) !! seq = Some msg ∧ msg_turn_id msg = t
             ∧ b = to_be_bytes seq.
Proof.
  intros Hu. pose proof (ms_ok _ _ Hm u Hu) as Hs. rewrite after_deletes.
  destruct (decide _) as [Hk|Hk].
  - split; [done|]. intros (i & x & [Hx Hno]%expired_row & Ht & _).
    apply key_dead in Hk as (msg & (Hms & Hold & Hrow)%elem_of_dead & [Heq|Heq]); [done|].
    apply message_turn_key_inj in Heq as [-> ->]; [|done..].
    assert (i = msg_seq msg) as -> by by eapply (ok_turns _ _ Hs). congruence.
  - rewrite (ms_turn _ _ Hm) by done. split.
    + intros (i & x & Hx & Ht & ->). exists i, x. split; [|done].
      apply expired_row. split; [done|]. intros Hold. apply Hk, key_dead.
      destruct (ok_rows _ _ Hs _ _ Hx) as (<- & <- & _).
      exists x. split; [by apply elem_of_dead|right; by rewrite Ht].
    + intros (i & x & [Hx _]%expired_row & Ht & ->). by exists i, x.
Qed.

Lemma expire_effect : message_streams m' (λ u, expired_stream cutoff (σ u)).
Proof.
  split.
  - exact expire_effect_ok.
  - intros u Hu. rewrite after_deletes, decide_False; [by apply (ms_next _ _ Hm)|].
    by intros (msg & _ & [Heq|Heq])%key_dead.
  - exact expire_effect_row.
  - intros u t b. apply expire_effect_turn.
  - intros k v Hp. rewrite after_deletes. destruct (decide _); [done|]. by apply (ms_only _ _ Hm).
Qed.
End expire_effect.

(** ** The calls *)

Lemma appended_nothing u news s : added u news s = [] → appended_stream u news s = s.
Proof.
  intros Hadd. unfold appended_stream. rewrite Hadd. unfold by_seq. simpl.
  rewrite (left_id_L ∅ (∪)), N.add_0_r. by destruct s.
Qed.

Lemma with_same_stream u σ v : with_stream u (σ u) σ v = σ v.
Proof. unfold with_stream. by destruct (decide (v = u)) as [->|]. Qed.

Lemma append_pairs_families u next msgs :
  Forall (λ op, family (op_key op) ∈ message_families)
    (uncurry BatchPut <$> append_pairs u next msgs).
Proof.
  apply Forall_fmap, Forall_forall. intros [k v] Hin%elem_of_append_pairs. simpl.
  destruct Hin as [(msg & _ & [[-> _]|[-> _]])|[-> _]]; [by left|by right; left|by do 2 right; left].
Qed.

Lemma stored_next m σ u :
  message_streams m σ → (u < uuid_bound)%N →
  match m !! message_next_key u with Some bs => decode_seq bs | None => Ok 0%N end
  = Ok (next_seq (σ u)).
Proof.
  intros Hm Hu. rewrite (ms_next _ _ Hm) by done. pose proof (ok_next _ _ (ms_ok _ _ Hm u Hu)).
  destruct (N.eqb_spec (next_seq (σ u)) 0) as [->|]; [done|]. by apply decode_seq_ok.
Qed.

(** Appending to a database acts on the stream of the session alone. *)
Lemma append_spec d m σ u news :
  db_is d m → message_streams m σ → (u < uuid_bound)%N →
  (next_seq (σ u) + N.of_nat (length news) < u64_mod)%N →
  ∃ d' m', append d u news = (d', Ok (added u news (σ u))) ∧ db_is d' m'
    ∧ message_streams m' (with_stream u (appended_stream u news (σ u)) σ)
    ∧ only_in message_families m m'.
Proof.
  intros Hd Hm Hu Hfit. pose proof (added_fresh u news (σ u) Hfit) as Hf.
  unfold append, append_batch. rewrite (db_is_get d m) by done. simpl.
  rewrite (stored_next m σ) by done. simpl.
  rewrite (append_loop_spec d m σ) by done. rewrite (right_id_L ∅ (∪)).
  fold (added u news (σ u)). simpl app.
  destruct (decide (added u news (σ u) = [])) as [Hadd|Hadd].
  - rewrite appended_nothing, Hadd by done. exists d, m. split_and!; [done|done| |done].
    eapply message_streams_ext; [|exact Hm]. intros v. by rewrite with_same_stream.
  - pose proof (append_effect m σ u _ Hm Hu Hf Hadd) as Heff. unfold append_pairs in Heff.
    rewrite fmap_app in Heff. csimpl in Heff.
    edestruct (db_is_write d m) as (d' & Hw & Hd'); [done|].
    exists d'. eexists. split; [|split; [exact Hd'|split; [exact Heff|]]].
    + destruct (added u news (σ u)) as [|msg msgs]; [done|]. by rewrite Hw.
    + apply only_in_batch.
      pose proof (append_pairs_families u (next_seq (extended (added u news (σ u)) (σ u)))
                    (added u news (σ u))) as Hfam.
      unfold append_pairs in Hfam. by rewrite fmap_app in Hfam.
Qed.

Lemma append_messages_spec d m σ u news :
  db_is d m → message_streams m σ → (u < uuid_bound)%N →
  (next_seq (σ u) + N.of_nat (length news) < u64_mod)%N →
  ∃ d' m', append_messages d u news = (d', Ok (added u news (σ u))) ∧ db_is d' m'
    ∧ message_streams m' (with_stream u (appended_stream u news (σ u)) σ)
    ∧ only_in message_families m m'.
Proof.
  intros Hd Hm Hu Hfit. destruct news as [|n news]; [|by apply append_spec].
  exists d, m. rewrite appended_nothing by done. split_and!; [done|done| |done].
  eapply message_streams_ext; [|exact Hm]. intros v. by rewrite with_same_stream.
Qed.

Lemma delete_before_spec d m σ cutoff :
  db_is d m → message_streams m σ →
  ∃ d' m' deleted, delete_messages_before d cutoff = (d', Ok deleted) ∧ db_is d' m'
    ∧ message_streams m' (λ u, expired_stream cutoff (σ u))
    ∧ only_in message_families m m' ∧ NoDup deleted
    ∧ ∀ u i, (u, i) ∈ deleted ↔ (u < uuid_bound)%N
        ∧ ∃ msg, rows (σ u) !! i = Some msg ∧ (msg_timestamp msg < cutoff)%Z.
Proof.
  intros Hd Hm. destruct (row_scan m σ Hm) as (msgs & Hscan & Hnd & Hmsgs).
  pose proof (expire_effect m σ cutoff msgs Hm Hmsgs) as Heff.
  unfold delete_messages_before. rewrite (db_is_scan d m), Hscan, expire_loop_spec by done.
  simpl app. set (dead := filter (old cutoff) msgs) in *.
  set (deleted := (λ msg, (msg_session_id msg, msg_seq msg)) <$> dead).
  assert (∃ d', db_is d' (apply_batch (BatchDelete <$> (dead ≫= dead_keys)) m) ∧
    (match deleted with
     | [] => (d, Ok [])
     | _ => match db_write d (BatchDelete <$> (dead ≫= dead_keys)) with
            | (d, Ok _) => (d, Ok deleted) | (d, Err e) => (d, Err e) end
     end) = (d', Ok deleted)) as (d' & Hd' & Hrun).
  { destruct (db_is_write d m (BatchDelete <$> (dead ≫= dead_keys)) Hd) as (d' & Hw & Hd').
    unfold deleted. destruct dead; [by exists d|]. exists d'. by rewrite Hw. }
  exists d', (apply_batch (BatchDelete <$> (dead ≫= dead_keys)) m), deleted.
  split_and!; [exact Hrun|exact Hd'|exact Heff| | |].
  - apply only_in_batch, Forall_fmap, Forall_forall. intros k Hk%key_dead. simpl.
    destruct Hk as (msg & _ & [-> | ->]); [by left|by right; left].
  - by apply NoDup_fmap_filter.
  - intros u i. unfold deleted. rewrite list_elem_of_fmap. split.
    + intros (msg & [= -> ->] & (Hu & Hold & Hrow)%(elem_of_dead σ)); [|done].
      split; [done|]. by exists msg.
    + intros (Hu & msg & Hrow & Hold).
      destruct (ok_rows _ _ (ms_ok _ _ Hm u Hu) _ _ Hrow) as (<- & <- & _).
      exists msg. split; [done|]. by apply (elem_of_dead σ).
Qed.

(** ** Runs *)

Inductive message_op :=
  | AppendMessages (session_id : Uuid) (messages : list NewMessage)
  | DeleteMessagesBefore (cutoff : DateTime).

(** A call, with the messages it stores. *)
Definition run_op (d : DB) (op : message_op) : DB * result (list Message) Error :=
  match op with
  | AppendMessages u news => append_messages d u news
  | DeleteMessagesBefore cutoff =>
    match delete_messages_before d cutoff with
    | (d, Ok _) => (d, Ok [])
    | (d, Err e) => (d, Err e)
    end
  end.

(** Calls one after the other, up to the first error. *)
Fixpoint run_ops (d : DB) (ops : list message_op) : DB * result (list Message) Error :=
  match ops with
  | [] => (d, Ok [])
  | op :: ops =>
    match run_op d op with
    | (d, Err e) => (d, Err e)
    | (d, Ok new) => let '(d, r) := run_ops d ops in (d, try later <- r; Ok (new ++ later))
    end
  end.

Definition op_size (op : message_op) : nat :=
  match op with AppendMessages _ news => length news | DeleteMessagesBefore _ => 0 end.
Definition op_session (op : message_op) : N :=
  match op with AppendMessages u _ => u | DeleteMessagesBefore _ => 0%N end.

(** The positions of [msgs] are [next], [next + 1], ... *)
Definition numbered (next : N) (msgs : list Message) : Prop :=
  msg_seq <$> msgs = (λ i, next + N.of_nat i)%N <$> seq 0 (length msgs).

Lemma numbered_app next ms ms' :
  numbered next ms → numbered (next + N.of_nat (length ms)) ms' → numbered next (ms ++ ms').
Proof.
  unfold numbered. intros H1' H2'. rewrite fmap_app, length_app, seq_app, fmap_app, H1', H2'.
  f_equal. rewrite <-(Nat.add_0_r (0 + length ms)), <-fmap_add_seq, <-list_fmap_compose.
  apply list_fmap_ext. intros _ i _. simpl. lia.
Qed.

Lemma run_op_spec d m σ op :
  db_is d m → message_streams m σ → (op_session op < uuid_bound)%N →
  (∀ u, next_seq (σ u) + N.of_nat (op_size op) < u64_mod)%N →
  ∃ d' m' σ' new, run_op d op = (d', Ok new) ∧ db_is d' m' ∧ message_streams m' σ'
    ∧ (length new ≤ op_size op)%nat
    ∧ ∀ u, let mine := filter (λ msg, msg_session_id msg = u) new in
        numbered (next_seq (σ u)) mine ∧ next_seq (σ' u) = (next_seq (σ u) + N.of_nat (length mine))%N.
Proof.
  intros Hd Hm Hu Hfit. destruct op as [u news|cutoff]; simpl in *.
  - destruct (append_messages_spec d m σ u news) as (d' & m' & Hrun & Hd' & Hm' & _); try done.
    exists d', m', (with_stream u (appended_stream u news (σ u)) σ), (added u news (σ u)).
    split_and!; [done..| |].
    + unfold added. rewrite length_place. apply new_turns_length.
    + intros v. unfold with_stream, appended_stream. destruct (decide (v = u)) as [->|Hne].
      * rewrite filter_Forall_id; simpl.
        -- split; [|done]. unfold numbered, added. by rewrite place_seqs, length_place.
        -- apply Forall_forall. intros msg Hmsg. by apply place_spec in Hmsg as [? _].
      * assert (filter (λ msg, msg_session_id msg = v) (added u news (σ u)) = []) as ->.
        { apply filter_drop_all. intros msg Hmsg.
          apply place_spec in Hmsg as [? _]. congruence. }
        split; [done|simpl; lia].
  - destruct (delete_before_spec d m σ cutoff Hd Hm) as (d' & m' & del & -> & Hd' & Hm' & _).
    exists d', m', (λ u, expired_stream cutoff (σ u)), []. split_and!; [done..|].
    intros v. split; [done|simpl; lia].
Qed.

(** Positions are handed out in order and never twice: whatever mixture
    of appends and retention runs on a store without faults, every call
    succeeds, and the messages a session stored over the whole run have the
    consecutive positions from the next one of its stream on, also where
    retention emptied the stream in between. *)
Theorem positions_never_reused d m σ ops :
  db_is d m → message_streams m σ → Forall (λ op, op_session op < uuid_bound)%N ops →
  (∀ u, next_seq (σ u) + N.of_nat (sum_list (op_size <$> ops)) < u64_mod)%N →
  ∃ d' out, run_ops d ops = (d', Ok out)
    ∧ ∀ u, numbered (next_seq (σ u)) (filter (λ msg, msg_session_id msg = u) out).
Proof.
  intros Hd Hm Hops. revert d m σ Hd Hm. induction Hops as [|op ops Hop Hops IH]; intros d m σ Hd Hm Hfit.
  - exists d, []. done.
  - csimpl in Hfit.
    destruct (run_op_spec d m σ op Hd Hm Hop) as (d1 & m1 & σ1 & new & Hrun & Hd1 & Hm1 & Hlen & Hnew).
    { intros u. specialize (Hfit u). lia. }
    destruct (IH d1 m1 σ1 Hd1 Hm1) as (d2 & out & Hrun2 & Hout).
    { intros u. destruct (Hnew u) as [_ ->]. specialize (Hfit u).
      pose proof (length_filter (λ msg, msg_session_id msg = u) new). lia. }
    exists d2, (new ++ out). simpl. rewrite Hrun, Hrun2. split; [done|]. intros u.
    rewrite filter_app. destruct (Hnew u) as [Hn Hnext]. apply numbered_app; [done|].
    rewrite <-Hnext. apply Hout.
Qed.

(** An append that fails, whatever the fault, stores nothing. *)
Lemma append_atomic d d' u news e :
  append_messages d u news = (d', Err e) → contents d' = contents d.
Proof.
  assert (append d u news = (d', Err e) → contents d' = contents d) as Happ.
  { unfold append. destruct (append_batch d u news) as [[[next batch] [|msg msgs]]|e'];
      [intros [=]| |by intros [= <- _]].
    destruct (db_write d _) as [d1 [[]|e1]] eqn:Hw; [done|]. intros [= <- _].
    by eapply db_write_err. }
  by destruct news.
Qed.

(** C17: Appending messages to a session's stream does what the stream's
    specification says, and nothing else: the first message of every turn the
    stream does not hold is stored at the next position, repeated turns are
    skipped, the stored messages are returned, every other stream and every
    record of another family is left alone.  The batch is written at once: an
    append that fails on any database, whatever the fault, has stored
    nothing of it. *)
Theorem append_refines d m σ u news :
  db_is d m → message_streams m σ → (u < uuid_bound)%N →
  (next_seq (σ u) + N.of_nat (length news) < u64_mod)%N →
  ∃ d' m', append_messages d u news = (d', Ok (added u news (σ u))) ∧ db_is d' m'
    ∧ message_streams m' (with_stream u (appended_stream u news (σ u)) σ)
    ∧ only_in message_families m m'
    ∧ ∀ faulty after e, append_messages faulty u news = (after, Err e) → contents after = contents faulty.
Proof.
  intros Hd Hm Hu Hn. destruct (append_messages_spec d m σ u news Hd Hm Hu Hn) as (d' & m' & Hrun & Hd' & Hm' & Hf).
  exists d', m'. split_and!; [done..|]. intros faulty after e. apply append_atomic.
Qed.

(** Loading a range of positions returns the messages of the session at
    these positions, in order: neither the rows of another session nor those
    past the end of the range, however the keys are spelled. *)
Theorem load_messages_exact d m σ u first last :
  db_is d m → message_streams m σ → (u < uuid_bound)%N → (first < u64_mod)%N → (last < u64_mod)%N →
  load_messages d u first last = Ok (stream_range (σ u) first last).
Proof.
  intros Hd Hm Hu Hfirst Hlast. unfold load_messages. destruct (N.ltb_spec first last); simpl.
  - destruct Hd as [Hd <-]. rewrite db_iterator_ok, (range_scan _ σ) by done.
    apply decode_rows_ok.
  - f_equal. symmetry. apply filter_drop_all. intros msg _. lia.
Qed.

(** Retention deletes exactly the messages older than the cutoff, from
    every stream, reports each once, and forgets their turns; the next
    positions stay. *)
Theorem retention_exact d m σ cutoff :
  db_is d m → message_streams m σ →
  ∃ d' m' deleted, delete_messages_before d cutoff = (d', Ok deleted) ∧ db_is d' m'
    ∧ message_streams m' (λ u, expired_stream cutoff (σ u))
    ∧ only_in message_families m m' ∧ NoDup deleted
    ∧ ∀ u i, (u, i) ∈ deleted ↔ (u < uuid_bound)%N
        ∧ ∃ msg, rows (σ u) !! i = Some msg ∧ (msg_timestamp msg < cutoff)%Z.
Proof. apply delete_before_spec. Qed.

(** A database without records of the families holds empty streams. *)
Lemma no_messages m :
  (∀ k, family k ∈ message_families → m !! k = None) → message_streams m (λ _, empty_stream).
Proof.
  intros Hm. split.
  - intros u _. by split.
  - intros u _. apply Hm. by do 2 right; left.
  - intros u seq _ _. apply Hm. by left.
  - intros u t b _. rewrite Hm by by right; left. split; [done|]. by intros (i & x & Hx & _).
  - intros k v [r ->]. rewrite Hm by by left. done.
Qed.
End store.

(** ** Instances *)

#[global] Instance MessageRole_eq_dec : EqDecision MessageRole.
Proof. solve_decision. Defined.
#[global] Instance Message_eq_dec : EqDecision Message.
Proof. solve_decision. Defined.

#[global] Program Instance MessageRole_countable : Countable MessageRole := {|
  encode r := encode (match r with RoleUser => true | RoleAssistant => false end);
  decode p := (λ b : bool, if b then RoleUser else RoleAssistant) <$> decode p;
|}.
Next Obligation. by intros []. Qed.

#[global] Instance Message_countable : Countable Message.
Proof.
  refine (inj_countable'
    (λ m, (msg_session_id m, msg_seq m, msg_turn_id m, msg_role m, msg_author m,
           msg_source_session m, msg_timestamp m, msg_text m, msg_tools m, msg_files m))
    (λ '(a, b, c, d, e, f, g, h, i, j), mkMessage a b c d e f g h i j) _).
  by intros [].
Defined.

Definition message_codec : Bincode Message := countable_bincode.

Definition turn (id text : string) (timestamp : Z) : NewMessage :=
  mkNewMessage id RoleUser None None timestamp text [] [].

Definition demo_turns : list NewMessage :=
  [turn "t1" "hello" 10; turn "t2" "there" 20; turn "t1" "again" 30].

#[local] Existing Instances mem_db mem_db_laws hex_uuid hex_uuid_laws message_codec.
#[local] Instance message_codec_laws : BincodeLaws Message := countable_bincode_laws.

Lemma append_refines_witness :
  ∃ d' m', append_messages empty_db 7 demo_turns
           = (d', Ok [into_message (turn "t1" "hello" 10) 7 0; into_message (turn "t2" "there" 20) 7 1])
    ∧ db_is d' m'
    ∧ message_streams m' (with_stream 7 (appended_stream 7 demo_turns empty_stream) (λ _, empty_stream))
    ∧ only_in message_families ∅ m'.
Proof.
  destruct (append_refines empty_db ∅ (λ _, empty_stream) 7 demo_turns) as (d' & m' & Hrun & Hd & Hm & Hf & _);
    [apply mem_db_is|by apply no_messages|by vm_compute..|].
  by exists d', m'.
Defined.

Lemma load_messages_exact_witness :
  ∃ d, append_messages empty_db 7 demo_turns = (d, Ok (added 7 demo_turns empty_stream))
    ∧ load_messages d 7 1 5 = Ok [into_message (turn "t2" "there" 20) 7 1].
Proof.
  destruct (append_messages_spec empty_db ∅ (λ _, empty_stream) 7 demo_turns)
    as (d & m & Hrun & Hd & Hm & _); [apply mem_db_is|by apply no_messages|by vm_compute..|].
  exists d. split; [exact Hrun|].
  rewrite (load_messages_exact d m _ 7 1 5 Hd Hm ltac:(by vm_compute) ltac:(by vm_compute) ltac:(by vm_compute)).
  vm_compute. reflexivity.
Defined.

Lemma retention_exact_witness :
  ∃ d d' m' deleted, append_messages empty_db 7 demo_turns = (d, Ok (added 7 demo_turns empty_stream))
    ∧ delete_messages_before d 15 = (d', Ok deleted) ∧ db_is d' m' ∧ (7%N, 0%N) ∈ deleted.
Proof.
  destruct (append_messages_spec empty_db ∅ (λ _, empty_stream) 7 demo_turns)
    as (d & m & Hrun & Hd & Hm & _); [apply mem_db_is|by apply no_messages|by vm_compute..|].
  destruct (retention_exact d m _ 15 Hd Hm) as (d' & m' & deleted & Hdel & Hd' & _ & _ & _ & Hin).
  exists d, d', m', deleted. split_and!; [exact Hrun|exact Hdel|exact Hd'|].
  apply Hin. split; [by vm_compute|]. eexists. split; [by vm_compute|by vm_compute].
Defined.

Lemma positions_never_reused_witness :
  ∃ d' out, run_ops empty_db [AppendMessages 7 demo_turns; DeleteMessagesBefore 100; AppendMessages 7 demo_turns]
            = (d', Ok out)
    ∧ ∀ u, numbered 0 (filter (λ msg, msg_session_id msg = u) out).
Proof.
  apply (positions_never_reused empty_db ∅ (λ _, empty_stream));
    [apply mem_db_is|by apply no_messages|by repeat constructor|by intros; vm_compute].
Defined.

(** The second append stores the turns again, at the positions 2 and 3. *)
Example run_ops_ex :
  (msg_seq <$> match (run_ops empty_db
     [AppendMessages 7 demo_turns; DeleteMessagesBefore 100; AppendMessages 7 demo_turns]).2 with
     | Ok out => out | Err _ => [] end) = [0; 1; 2; 3]%N.
Proof. vm_compute. reflexivity. Qed.
