(* ===== verification/RocksCards.v ===== *)
(** * Project and user cards in RocksDB

    [cards.rs] of [post-cortex-storage/src/rocksdb_storage] over [CardScope]
    of [core/core/card.rs]: every write of a card is a new version, accepted
    if the writer knew the latest one.  A write holds the lock of the scope,
    so a call is one step.  The second half shows that the store implements a
    list of versions per scope. *)

From stdpp Require Import gmap.
From S2P Require Import Prelude RustStd StrLemmas UuidText Collections Types ContextAssembly.
From S2P Require Import SearchResults Rocks RocksThms RocksMessages.

Local Open Scope string_scope.
Local Open Scope list_scope.
Local Open Scope pcx.

Inductive CardWrite :=
  | Written (card : Card)
  | Conflict (latest : option Card).

Section cards.
Context `{R : RocksDB} `{I : UuidText} `{B : Bincode Card}.

(** [CardScope::key]. *)
Definition scope_key (scope : CardScope) : string :=
  match scope with
  | CardWorkspace id => "workspace:" +:+ Uuid_to_string id
  | CardUser => "user"
  end.

(** [CardScope::from_key]. *)
Definition scope_from_key (key : string) : option CardScope :=
  if String.eqb key "user" then Some CardUser
  else
    id ← strip_prefix "workspace:" key;
    CardWorkspace <$> Uuid_parse (str_of_bytes id).

Definition card_prefix (scope : CardScope) : bytes := "card:" +:+ scope_key scope +:+ ":".

Definition card_key (scope : CardScope) (version : N) : bytes :=
  "card:" +:+ scope_key scope +:+ ":" +:+ pad_zeros 20 version.

Definition card_head_key (scope : CardScope) : bytes := "card_head:" +:+ scope_key scope.

(** The nil id for the user card. *)
Definition lock_id (scope : CardScope) : Uuid :=
  match scope with CardWorkspace id => id | CardUser => 0%N end.

Definition encode_card (card : Card) : result bytes Error :=
  match encode_to_vec card with
  | Ok bs => Ok bs
  | Err e => Err ("Failed to serialize card: " +:+ e)
  end.

Definition decode_card (bs : bytes) : result Card Error :=
  match decode_from_slice bs with
  | Ok (c, _) => Ok c
  | Err e => Err ("Failed to deserialize card: " +:+ e)
  end.

Definition card_head (d : DB) (scope : CardScope) : result N Error :=
  try stored <- db_get d (card_head_key scope);
  match stored with
  | Some bs =>
    match from_be_bytes bs with
    | Some n => Ok n
    | None => Err ("Malformed card head (" +:+ Z_to_string (Z.of_nat (str_len bs)) +:+ " bytes)")
    end
  | None => Ok 0%N
  end.

Definition load_card (d : DB) (scope : CardScope) (version : N) : result (option Card) Error :=
  if (version =? 0)%N then Ok None
  else
    try stored <- db_get d (card_key scope version);
    match stored with
    | Some bs => try card <- decode_card bs; Ok (Some card)
    | None => Ok None
    end.

(** The deletions [delete_card_in] adds to [batch]. *)
Definition delete_card_in (d : DB) (batch : WriteBatch) (scope : CardScope)
    : result WriteBatch Error :=
  let batch := batch ++ [BatchDelete (card_head_key scope)] in
  try keys <- keys_with_prefix d (card_prefix scope);
  Ok (batch ++ (BatchDelete <$> keys)).

Definition get_card (d : DB) (scope : CardScope) : result (option Card) Error :=
  try version <- card_head d scope; load_card d scope version.

(** [now] is the clock's reading. *)
Definition put_card (d : DB) (now : DateTime) (scope : CardScope) (text : string)
    (author : option string) (expected_version : N) : DB * result CardWrite Error :=
  match card_head d scope with
  | Err e => (d, Err e)
  | Ok latest =>
    if negb (latest =? expected_version)%N
    then (d, try card <- load_card d scope latest; Ok (Conflict card))
    else
      let card := mkCard scope (u64_add latest 1) text now author in
      match encode_card card with
      | Err e => (d, Err e)
      | Ok row =>
        match db_write d [BatchPut (card_key scope (card_version card)) row;
                          BatchPut (card_head_key scope) (to_be_bytes (card_version card))] with
        | (d, Ok _) => (d, Ok (Written card))
        | (d, Err e) => (d, Err e)
        end
      end
  end.

Fixpoint history_loop (prefix : bytes) (limit : nat)
    (items : list (result (bytes * bytes) Error)) (cards : list Card)
    : result (list Card) Error :=
  match items with
  | [] => Ok cards
  | item :: items =>
    if (limit <=? length cards)%nat then Ok cards
    else
      try (key, value) <- item;
      if starts_with key prefix
      then try card <- decode_card value; history_loop prefix limit items (cards ++ [card])
      else Ok cards
  end.

Definition card_history (d : DB) (scope : CardScope) (limit : nat) : result (list Card) Error :=
  let prefix := card_prefix scope in
  let opts := set_iterate_lower_bound prefix (set_total_order_seek true default_options) in
  let upper := prefix +:+ str_of_bytes [255%N] in
  history_loop prefix limit (db_iterator d (IterFrom upper Reverse) opts) [].
End cards.

(** ** Abstract cards: the versions of each scope, oldest first *)

Abbreviation card_log := (CardScope → list Card) (only parsing).

#[global] Instance CardScope_eq_dec : EqDecision CardScope.
Proof. solve_decision. Defined.

Definition with_log (scope : CardScope) (log : list Card) (L : card_log) (s : CardScope) : list Card :=
  if decide (s = scope) then log else L s.

(** A write the log accepts or refuses. *)
Definition log_put (now : DateTime) (scope : CardScope) (text : string) (author : option string)
    (expected : N) (log : list Card) : list Card * CardWrite :=
  let n := N.of_nat (length log) in
  if (n =? expected)%N
  then let card := mkCard scope (n + 1) text now author in (log ++ [card], Written card)
  else (log, Conflict (last log)).

Definition valid_scope (scope : CardScope) : Prop :=
  match scope with CardWorkspace id => (id < uuid_bound)%N | CardUser => True end.

Definition card_families : list string := ["card"; "card_head"].

Section store.
Context `{RL : RocksDBLaws} `{IL : UuidTextLaws} `{BL : BincodeLaws Card}.

Record card_logs (m : table) (L : card_log) : Prop := {
  cl_fits s : valid_scope s → (N.of_nat (length (L s)) < u64_mod)%N;
  cl_head s : valid_scope s →
    m !! card_head_key s =
      (if (length (L s) =? 0)%nat then None else Some (to_be_bytes (N.of_nat (length (L s)))));
  cl_card s v : valid_scope s → (v < u64_mod)%N →
    m !! card_key s v =
      (if (v =? 0)%N then None else encoded <$> L s !! (N.to_nat (v - 1)));
  cl_only k v : has_prefix "card:" k → m !! k = Some v →
    ∃ s n, valid_scope s ∧ (n < u64_mod)%N ∧ k = card_key s n;
}.

(** ** Keys *)

Lemma scope_key_inj s s' : valid_scope s → valid_scope s' → scope_key s = scope_key s' → s = s'.
Proof.
  destruct s as [u|], s' as [v|]; simpl; intros Hu Hv Heq; try done.
  apply str_app_inj_r in Heq. by apply Uuid_to_string_inj in Heq as ->.
Qed.

Lemma scope_rest_inj s s' a b :
  valid_scope s → valid_scope s' →
  scope_key s +:+ ":" +:+ a = scope_key s' +:+ ":" +:+ b → s = s' ∧ a = b.
Proof.
  intros Hs Hs' Heq. destruct s as [u|], s' as [v|]; try done; unfold scope_key in Heq.
  - rewrite !str_app_assoc in Heq. apply uuid_key_inj in Heq as [-> Heq]; [|done..].
    by apply str_app_inj_r in Heq as ->.
  - by do 2 apply str_app_inj_r in Heq as Heq; subst b.
Qed.

Lemma card_key_inj s s' i j :
  valid_scope s → valid_scope s' → (i < u64_mod)%N → (j < u64_mod)%N →
  card_key s i = card_key s' j → s = s' ∧ i = j.
Proof.
  intros Hs Hs' Hi Hj Heq%str_app_inj_r. apply scope_rest_inj in Heq as [-> Heq]; [|done..].
  split; [done|]. eapply (pad_zeros_inj 20); [by apply u64_fits_20..|lia|done].
Qed.

Lemma card_head_key_inj s s' :
  valid_scope s → valid_scope s' → card_head_key s = card_head_key s' → s = s'.
Proof. intros Hs Hs' Heq%str_app_inj_r. by apply scope_key_inj. Qed.

Lemma card_key_le s i j :
  (i < u64_mod)%N → (j < u64_mod)%N → String.le (card_key s i) (card_key s j) ↔ (i ≤ j)%N.
Proof.
  intros Hi Hj. unfold card_key. rewrite !str_le_app. apply pad_zeros_le; [by apply u64_fits_20..|lia].
Qed.

Lemma card_key_prefix s i : card_key s i = card_prefix s +:+ pad_zeros 20 i.
Proof. unfold card_key, card_prefix. by rewrite !str_app_assoc. Qed.

Lemma card_logs_ext m L L' : (∀ s, L s = L' s) → card_logs m L → card_logs m L'.
Proof.
  intros HL [Hf Hh Hc Ho].
  split; intros *; rewrite <-?HL; [apply Hf|apply Hh|apply Hc|apply Ho].
Qed.

Lemma with_same_log s L s' : with_log s (L s) L s' = L s'.
Proof. unfold with_log. by destruct (decide (s' = s)) as [->|]. Qed.

(** ** Reads *)

Lemma decode_card_ok card : decode_card (encoded card) = Ok card.
Proof. unfold decode_card. by rewrite decode_encoded. Qed.

Lemma card_head_ok d m L s :
  db_is d m → card_logs m L → valid_scope s → card_head d s = Ok (N.of_nat (length (L s))).
Proof.
  intros Hd Hm Hs. unfold card_head. rewrite (db_is_get d m), (cl_head _ _ Hm) by done. simpl.
  destruct (Nat.eqb_spec (length (L s)) 0) as [->|]; [done|].
  rewrite from_to_be_bytes; [done|by apply (cl_fits _ _ Hm)].
Qed.

Lemma load_last d m L s :
  db_is d m → card_logs m L → valid_scope s →
  load_card d s (N.of_nat (length (L s))) = Ok (last (L s)).
Proof.
  intros Hd Hm Hs. unfold load_card. rewrite (db_is_get d m) by done. simpl.
  pose proof (cl_fits _ _ Hm s Hs). rewrite (cl_card _ _ Hm) by done.
  destruct (N.eqb_spec (N.of_nat (length (L s))) 0) as [Hz|Hz].
  - by destruct (L s).
  - rewrite last_lookup. replace (N.to_nat (N.of_nat (length (L s)) - 1)) with (pred (length (L s))) by lia.
    destruct (L s !! pred (length (L s))) eqn:Hl; simpl; [by rewrite decode_card_ok|].
    apply lookup_ge_None in Hl. lia.
Qed.

(** ** Writes *)

Lemma put_effect m L s card :
  card_logs m L → valid_scope s → (N.of_nat (length (L s)) + 1 < u64_mod)%N →
  let n := (N.of_nat (length (L s)) + 1)%N in
  card_logs
    (apply_batch [BatchPut (card_key s n) (encoded card); BatchPut (card_head_key s) (to_be_bytes n)] m)
    (with_log s (L s ++ [card]) L).
Proof.
  intros Hm Hs Hfit n. cbn [apply_batch foldl apply_op]. split.
  - intros s' Hs'. unfold with_log. destruct (decide (s' = s)); [|by apply (cl_fits _ _ Hm)].
    rewrite length_app. simpl. lia.
  - intros s' Hs'. unfold with_log. destruct (decide (s' = s)) as [->|Hne].
    + rewrite lookup_insert_eq, length_app. simpl. rewrite (proj2 (Nat.eqb_neq _ _)) by lia.
      do 2 f_equal. unfold n. lia.
    + rewrite lookup_insert_ne by (intros Heq%card_head_key_inj; congruence).
      rewrite lookup_insert_ne by done. by apply (cl_head _ _ Hm).
  - intros s' v Hs' Hv. rewrite lookup_insert_ne by done. unfold with_log.
    destruct (decide (card_key s n = card_key s' v)) as [Heq|Hne].
    + rewrite Heq, lookup_insert_eq. apply card_key_inj in Heq as [<- <-]; [|done..].
      rewrite decide_True by done. rewrite (proj2 (N.eqb_neq _ _)) by (unfold n; lia).
      replace (N.to_nat (n - 1)) with (length (L s)) by (unfold n; lia).
      by rewrite list_lookup_middle.
    + rewrite lookup_insert_ne, (cl_card _ _ Hm) by done.
      destruct (decide (s' = s)) as [->|]; [|done].
      destruct (N.eqb_spec v 0) as [|Hz]; [done|]. f_equal.
      assert (v ≠ n) by congruence.
      destruct (decide (N.to_nat (v - 1) < length (L s))%nat); [by rewrite lookup_app_l|].
      rewrite !lookup_ge_None_2; [done| |lia]. rewrite length_app. simpl. unfold n in *. lia.
  - intros k v Hk Hv. destruct (decide (k = card_head_key s)) as [->|Hne1]; [by destruct Hk|].
    rewrite lookup_insert_ne in Hv by done.
    destruct (decide (k = card_key s n)) as [->|Hne2]; [by exists s, n|].
    rewrite lookup_insert_ne in Hv by done. by eapply (cl_only _ _ Hm).
Qed.

Lemma log_put_eq now s text author expected log :
  log_put now s text author expected log =
    (if (N.of_nat (length log) =? expected)%N
     then (log ++ [mkCard s (N.of_nat (length log) + 1) text now author],
           Written (mkCard s (N.of_nat (length log) + 1) text now author))
     else (log, Conflict (last log))).
Proof. done. Qed.

Lemma put_card_spec d m L now s text author expected :
  db_is d m → card_logs m L → valid_scope s → (N.of_nat (length (L s)) + 1 < u64_mod)%N →
  let '(log, w) := log_put now s text author expected (L s) in
  ∃ d' m', put_card d now s text author expected = (d', Ok w) ∧ db_is d' m'
    ∧ card_logs m' (with_log s log L) ∧ only_in card_families m m'.
Proof.
  intros Hd Hm Hs Hfit. rewrite log_put_eq. unfold put_card. rewrite (card_head_ok d m L) by done.
  destruct (N.eqb_spec (N.of_nat (length (L s))) expected) as [<-|Hne]; simpl.
  - assert (u64_add (N.of_nat (length (L s))) 1 = N.of_nat (length (L s)) + 1)%N as ->.
    { unfold u64_add. by apply N.mod_small. }
    unfold encode_card. rewrite encode_ok. simpl.
    edestruct (db_is_write d m) as (d' & -> & Hd'); [done|].
    exists d'. eexists. split_and!; [done|exact Hd'|by apply put_effect|].
    apply only_in_batch. repeat constructor; by (left || (right; left)).
  - exists d, m. rewrite (load_last d m L) by done. split_and!; [done..| |done].
    eapply card_logs_ext; [|exact Hm]. intros s'. by rewrite with_same_log.
Qed.

(** Writing a card does what the log of its versions says: the write is
    accepted exactly if the expected version is the latest one (0: no card),
    and then the text becomes the next version; otherwise nothing is written
    and the writer gets the latest version.  Other scopes and other records
    are left alone. *)
Theorem put_card_refines d m L now s text author expected :
  db_is d m → card_logs m L → valid_scope s → (N.of_nat (length (L s)) + 1 < u64_mod)%N →
  let '(log, w) := log_put now s text author expected (L s) in
  ∃ d' m', put_card d now s text author expected = (d', Ok w) ∧ db_is d' m'
    ∧ card_logs m' (with_log s log L) ∧ only_in card_families m m'.
Proof. apply put_card_spec. Qed.

(** ** History *)

(** The pairs that store a log whose first version is [n]. *)
Fixpoint log_entries (s : CardScope) (n : N) (log : list Card) : list (bytes * bytes) :=
  match log with
  | [] => []
  | c :: log => (card_key s n, encoded c) :: log_entries s (n + 1) log
  end.

Lemma elem_of_log_entries s n log k v :
  (k, v) ∈ log_entries s n log ↔
  ∃ i c, log !! i = Some c ∧ k = card_key s (n + N.of_nat i) ∧ v = encoded c.
Proof.
  revert n. induction log as [|c log IH]; intros n; simpl.
  - split; [by intros ?%elem_of_nil|by intros (i & c & ? & _)].
  - rewrite elem_of_cons, IH. split.
    + intros [[= -> ->]|(i & c' & Hi & -> & ->)].
      * exists 0%nat, c. by rewrite N.add_0_r.
      * exists (S i), c'. split_and!; [done| |done]. f_equal. lia.
    + intros ([|i] & c' & Hi & -> & ->); simpl in Hi.
      * left. injection Hi as ->. by rewrite N.add_0_r.
      * right. exists i, c'. split_and!; [done| |done]. f_equal. lia.
Qed.

Lemma log_entries_keys s n log :
  (n + N.of_nat (length log) ≤ u64_mod)%N →
  StronglySorted key_le (log_entries s n log) ∧ NoDup (log_entries s n log).*1.
Proof.
  intros Hfit. revert n Hfit. induction log as [|c log IH]; intros n Hfit; csimpl in *.
  - split; [constructor|apply NoDup_nil_2].
  - destruct (IH (n + 1)%N ltac:(lia)) as [Hs Hnd].
    assert (∀ k v, (k, v) ∈ log_entries s (n + 1) log →
      ∃ j, (n < j < u64_mod)%N ∧ k = card_key s j) as Hlater.
    { intros k v (i & x & Hi%lookup_lt_Some & -> & _)%elem_of_log_entries.
      eexists. split; [|done]. lia. }
    split.
    + constructor; [done|]. apply Forall_forall. intros [k v] (j & Hj & ->)%Hlater.
      apply card_key_le; lia.
    + apply NoDup_cons. split; [|done]. intros ([k v] & Heq & Hin)%list_elem_of_fmap.
      apply Hlater in Hin as (j & Hj & ->). simpl in Heq.
      pose proof (proj1 (card_key_le s j n ltac:(lia) ltac:(lia))) as Hle. rewrite Heq in Hle.
      assert (j ≤ n)%N by (by apply Hle). lia.
Qed.

Lemma in_card_range m L s k v :
  card_logs m L → valid_scope s →
  String.le (card_prefix s) k ∧ String.le k (card_prefix s +:+ str_of_bytes [255%N]) ∧ m !! k = Some v
  ↔ (k, v) ∈ log_entries s 1 (L s).
Proof.
  intros Hm Hs. pose proof (cl_fits _ _ Hm s Hs) as Hfit. rewrite elem_of_log_entries. split.
  - intros (Hle & Hge & Hk).
    assert (has_prefix (card_prefix s) k) as [r ->].
    { apply has_prefix_bytes. rewrite !str_le_bytes, str_bytes_app in *.
      by eapply bytes_le_within. }
    destruct (cl_only _ _ Hm (card_prefix s +:+ r) v ltac:(by eexists) Hk) as (s' & n & Hs' & Hn & Heq).
    assert (s = s') as <-.
    { unfold card_prefix, card_key in Heq. rewrite !str_app_assoc in Heq.
      apply str_app_inj_r in Heq. by apply scope_rest_inj in Heq as [-> _]. }
    rewrite Heq, (cl_card _ _ Hm) in Hk by done.
    destruct (N.eqb_spec n 0) as [|Hz]; [done|]. apply fmap_Some in Hk as (c & Hc & ->).
    exists (N.to_nat (n - 1)), c. split_and!; [done| |done]. rewrite Heq. f_equal. lia.
  - intros (i & c & Hi & -> & ->). pose proof (lookup_lt_Some _ _ _ Hi).
    rewrite card_key_prefix, str_le_app. split_and!.
    + apply str_le_bytes. rewrite str_bytes_app. apply bytes_le_prefix.
    + apply pad_zeros_below; [apply u64_fits_20|]; lia.
    + rewrite <-card_key_prefix, (cl_card _ _ Hm) by (done || lia).
      rewrite (proj2 (N.eqb_neq _ _)) by lia. replace (N.to_nat _) with i by lia. by rewrite Hi.
Qed.

Lemma history_scan m L s :
  card_logs m L → valid_scope s →
  iteration m (IterFrom (card_prefix s +:+ str_of_bytes [255%N]) Reverse)
    (set_iterate_lower_bound (card_prefix s) (set_total_order_seek true default_options))
  = reverse (log_entries s 1 (L s)).
Proof.
  intros Hm Hs. pose proof (cl_fits _ _ Hm s Hs) as Hfit.
  destruct (log_entries_keys s 1 (L s)) as [Hsorted Hnd]; [lia|].
  unfold iteration. f_equal. apply sorted_pairs_unique; [|done| |done|].
  - by do 2 apply StronglySorted_filter; apply btree_iter_sorted.
  - do 2 apply NoDup_fmap_filter. apply btree_iter_keys_NoDup.
  - intros [k v]. rewrite !list_elem_of_filter, elem_of_btree_iter, <-(in_card_range m) by done.
    unfold in_bounds. simpl. rewrite andb_true_r, bool_decide_eq_true. tauto.
Qed.

Lemma history_loop_ok s limit es log cards :
  Forall2 (λ e c, has_prefix (card_prefix s) e.1 ∧ e.2 = encoded c) es log →
  history_loop (card_prefix s) limit (Ok <$> es) cards
  = Ok (cards ++ take (limit - length cards) log).
Proof.
  intros Hes. revert cards. induction Hes as [|[k v] c es log [Hk Hv] Hes IH]; intros cards; csimpl.
  - by rewrite take_nil, app_nil_r.
  - destruct (Nat.leb_spec limit (length cards)).
    + replace (limit - length cards)%nat with 0%nat by lia. by rewrite app_nil_r.
    + simpl in Hk, Hv. subst v. rewrite (proj2 (starts_with_prefix k _) Hk), decode_card_ok. simpl. rewrite IH, length_app.
      replace (limit - length cards)%nat with (S (limit - (length cards + 1))) by lia.
      csimpl. by rewrite <-app_assoc.
Qed.

Lemma log_entries_cards s n log :
  Forall2 (λ e c, has_prefix (card_prefix s) e.1 ∧ e.2 = encoded c) (log_entries s n log) log.
Proof.
  revert n. induction log as [|c log IH]; intros n; simpl; constructor; [|done].
  split; [|done]. rewrite card_key_prefix. by eexists.
Qed.

(** The history of a card is its latest [limit] versions, newest first,
    and its first entry is the card a read returns. *)
Theorem card_history_exact d m L s limit :
  db_is d m → card_logs m L → valid_scope s →
  card_history d s limit = Ok (take limit (reverse (L s)))
  ∧ get_card d s = Ok (last (L s)).
Proof.
  intros Hd Hm Hs. split.
  - unfold card_history. destruct Hd as [Hd <-].
    rewrite db_iterator_ok, (history_scan _ L) by done.
    rewrite (history_loop_ok _ _ _ (reverse (L s))); [simpl; by rewrite Nat.sub_0_r|].
    apply Forall2_reverse, log_entries_cards.
  - unfold get_card. rewrite (card_head_ok d m L) by done. simpl. by apply (load_last d m).
Qed.

(** ** Deletion *)

Lemma delete_effect m L s :
  card_logs m L → valid_scope s →
  card_logs
    (apply_batch (BatchDelete (card_head_key s) :: (BatchDelete <$> (under_prefix (card_prefix s) m).*1)) m)
    (with_log s [] L).
Proof.
  intros Hm Hs. change (_ :: _) with (BatchDelete <$> (card_head_key s :: (under_prefix (card_prefix s) m).*1)).
  assert (∀ s' v, valid_scope s' → (v < u64_mod)%N →
    card_key s' v ∈ (under_prefix (card_prefix s) m).*1 ↔ s' = s ∧ is_Some (m !! card_key s v)) as Hkey.
  { intros s' v Hs' Hv. rewrite list_elem_of_fmap. split.
    - intros ([k b] & Heq & [Hp Hb]%elem_of_under_prefix). simpl in Heq. subst k.
      destruct Hp as [r Hr]. unfold card_prefix, card_key in Hr. rewrite !str_app_assoc in Hr.
      apply str_app_inj_r, scope_rest_inj in Hr as [-> _]; [|done..]. split; [done|by eexists].
    - intros [-> [b Hb]]. exists (card_key s v, b). split; [done|].
      apply elem_of_under_prefix. split; [|done]. rewrite card_key_prefix. by eexists. }
  split.
  - intros s' Hs'. unfold with_log. destruct (decide _); [done|by apply (cl_fits _ _ Hm)].
  - intros s' Hs'. rewrite apply_deletes. unfold with_log. destruct (decide (s' = s)) as [->|Hne].
    + rewrite decide_True by by left. done.
    + rewrite decide_False; [by apply (cl_head _ _ Hm)|].
      intros [Heq%card_head_key_inj|Hin]%elem_of_cons; [done..|].
      apply list_elem_of_fmap in Hin as ([k b] & Heq & [[r Hr] _]%elem_of_under_prefix).
      simpl in Heq. by subst k.
  - intros s' v Hs' Hv. rewrite apply_deletes. unfold with_log. destruct (decide (_ ∈ _)) as [Hin|Hni].
    + apply elem_of_cons in Hin as [|[-> _]%Hkey]; [done| |done..].
      rewrite decide_True by done. by destruct (N.eqb v 0).
    + rewrite (cl_card _ _ Hm) by done. destruct (decide (s' = s)) as [->|]; [|done].
      destruct (N.eqb_spec v 0); [done|]. simpl.
      destruct (L s !! N.to_nat (v - 1)) eqn:Hl; [|done]. destruct Hni. right.
      apply Hkey; [done..|]. split; [done|]. rewrite (cl_card _ _ Hm) by done.
      rewrite (proj2 (N.eqb_neq _ _)) by done. by rewrite Hl.
  - intros k v Hk. rewrite apply_deletes. destruct (decide _); [done|]. by apply (cl_only _ _ Hm).
Qed.

(** Deleting the card of a workspace drops its log and keeps the others. *)
Lemma delete_card_spec d m L s batch :
  db_is d m → card_logs m L → valid_scope s →
  ∃ ops, delete_card_in d batch s = Ok (batch ++ ops)
    ∧ Forall (λ op, family (op_key op) ∈ card_families) ops
    ∧ card_logs (apply_batch ops m) (with_log s [] L).
Proof.
  intros Hd Hm Hs. eexists. split_and!.
  - unfold delete_card_in. rewrite (db_is_keys d m) by done. simpl. by rewrite <-app_assoc.
  - csimpl. constructor; [by right; left|]. apply Forall_fmap, Forall_fmap, Forall_forall.
    intros [k v] [[r ->] _]%elem_of_under_prefix. by left.
  - by apply delete_effect.
Qed.

Lemma card_logs_local m m' L :
  (∀ k, family k ∈ card_families → m' !! k = m !! k) → card_logs m L → card_logs m' L.
Proof.
  intros Hm [Hf Hh Hc Ho]. split; [done|..].
  - intros s Hs. rewrite Hm; [by apply Hh|by right; left].
  - intros s v Hs Hv. rewrite Hm; [by apply Hc|by left].
  - intros k v Hk. rewrite Hm; [by apply Ho|]. destruct Hk as [r ->]. by left.
Qed.

Lemma no_cards m : (∀ k, family k ∈ card_families → m !! k = None) → card_logs m (λ _, []).
Proof.
  intros Hm. split.
  - done.
  - intros s _. apply Hm. by right; left.
  - intros s v _ _. rewrite Hm by by left. by destruct (N.eqb v 0).
  - intros k v [r ->]. rewrite Hm by by left. done.
Qed.
End store.

(** ** Instances *)

#[global] Instance CardScope_countable : Countable CardScope.
Proof.
  refine (inj_countable' (λ s, match s with CardWorkspace id => Some id | CardUser => None end)
    (λ o, match o with Some id => CardWorkspace id | None => CardUser end) _).
  by intros [].
Defined.

#[global] Instance Card_eq_dec : EqDecision Card.
Proof. solve_decision. Defined.

#[global] Instance Card_countable : Countable Card.
Proof.
  refine (inj_countable'
    (λ c, (card_scope c, card_version c, card_text c, card_updated_at c, card_author c))
    (λ '(a, b, c, d, e), mkCard a b c d e) _).
  by intros [].
Defined.

Definition card_codec : Bincode Card := countable_bincode.

#[local] Existing Instances mem_db mem_db_laws hex_uuid hex_uuid_laws card_codec.
#[local] Instance card_codec_laws : BincodeLaws Card := countable_bincode_laws.

(** Two writers that both read "no card": one wins, the other is told. *)
Definition demo_put (d : @DB mem_db) (text : string) : @DB mem_db * result CardWrite Error :=
  put_card d 5 (CardWorkspace 7) text None 0.

Lemma put_card_refines_witness :
  ∃ d' m', demo_put empty_db "one" = (d', Ok (Written (mkCard (CardWorkspace 7) 1 "one" 5 None)))
    ∧ db_is d' m'
    ∧ card_logs m' (with_log (CardWorkspace 7) [mkCard (CardWorkspace 7) 1 "one" 5 None] (λ _, []))
    ∧ only_in card_families ∅ m'.
Proof.
  apply (put_card_refines empty_db ∅ (λ _, []) 5 (CardWorkspace 7) "one" None 0);
    [apply mem_db_is|by apply no_cards|by vm_compute..].
Defined.

Example put_card_conflict_ex :
  (demo_put (demo_put empty_db "one").1 "two").2
  = Ok (Conflict (Some (mkCard (CardWorkspace 7) 1 "one" 5 None))).
Proof. vm_compute. reflexivity. Qed.

Lemma card_history_exact_witness :
  ∃ d, demo_put empty_db "one" = (d, Ok (Written (mkCard (CardWorkspace 7) 1 "one" 5 None)))
    ∧ card_history d (CardWorkspace 7) 3 = Ok [mkCard (CardWorkspace 7) 1 "one" 5 None]
    ∧ get_card d (CardWorkspace 7) = Ok (Some (mkCard (CardWorkspace 7) 1 "one" 5 None)).
Proof.
  destruct (put_card_spec empty_db ∅ (λ _, []) 5 (CardWorkspace 7) "one" None 0)
    as (d & m & Hrun & Hd & Hm & _); [apply mem_db_is|by apply no_cards|by vm_compute..|].
  exists d. split; [exact Hrun|].
  exact (card_history_exact d m _ (CardWorkspace 7) 3 Hd Hm ltac:(by vm_compute)).
Defined.
