(* ===== verification/RocksFreshness.v ===== *)
(** * Source freshness in RocksDB

    [freshness.rs] of [post-cortex-storage/src/rocksdb_storage]: which entry
    came from which file, the index by file, the check of a stored hash, and
    the invalidation that follows symbol dependencies.

    The messages are protobuf ([pcx.proto]); [Prost] is the class of the
    encoding.  [register_source] and the invalidations run as one step. *)

From stdpp Require Import gmap.
From S2P Require Import Prelude RustStd Collections Types ContextAssembly Rocks.

Local Open Scope string_scope.
Local Open Scope list_scope.
Local Open Scope pcx.

(** ** Messages *)

Record FunctionScope := mkFunctionScope {
  fs_name : string;
  fs_ast_hash : bytes;
  fs_symbol_type : string;
  fs_imports : list string;
}.

Record BlockScope := mkBlockScope {
  bs_start_line : N;
  bs_end_line : N;
  bs_content_hash : bytes;
}.

Inductive Scope :=
  | ScopeWholeFile (whole : bool)
  | ScopeFunction (f : FunctionScope)
  | ScopeBlock (b : BlockScope).

(** [scope] is an optional message with an optional [oneof]. *)
Record SourceReference := mkSourceReference {
  src_file_path : string;
  src_content_hash : bytes;
  src_captured_at_unix : Z;
  src_entry_id : string;
  src_scope : option (option Scope);
}.

Inductive FreshnessStatus := Fresh | Stale | SourceMissing | Unknown.

Record FreshnessEntry := mkFreshnessEntry {
  fe_entry_id : string;
  fe_file_path : string;
  fe_status : FreshnessStatus;
  fe_stored_hash : bytes;
  fe_current_hash : bytes;
}.

Record SymbolId := mkSymbolId {
  sym_file_path : string;
  sym_symbol_name : string;
  sym_symbol_type : string;
}.

Record CascadeInvalidateReport := mkCascadeReport {
  direct_invalidations : N;
  cascade_invalidations : N;
  invalidated_symbols : list string;
}.

(** [prost::Message]: encoding never fails and decodes back. *)
Class Prost (T : Type) := {
  prost_encode : T → bytes;
  prost_decode : bytes → result T Error;
}.

Class ProstLaws T `{Prost T} : Prop := {
  prost_roundtrip (x : T) : prost_decode (prost_encode x) = Ok x;
}.

(** ** Text *)

(** [str::split("::")]: 58 is the colon. *)
Fixpoint split_colons (bs : list N) : list (list N) :=
  match bs with
  | [] => [[]]
  | b :: r =>
    match r with
    | c :: r' =>
      if ((b =? 58) && (c =? 58))%N then [] :: split_colons r'
      else match split_colons r with w :: ws => (b :: w) :: ws | [] => [[b]] end
    | [] => [[b]]
    end
  end.

(** [key.split("::").last().unwrap_or(&key)]. *)
Definition last_segment (key : string) : string :=
  match last (split_colons (str_bytes key)) with
  | Some w => str_of_bytes w
  | None => key
  end.

(** [key.split_once("::")], the part before. *)
Definition before_colons (key : string) : option string :=
  match split_colons (str_bytes key) with
  | w :: _ :: _ => Some (str_of_bytes w)
  | _ => None
  end.

Section freshness.
Context `{R : RocksDB} `{P : Prost SourceReference}.

Definition SOURCE_REF_PREFIX : bytes := "source_ref:".
Definition SOURCE_INDEX_MARKER : bytes := "index_version:source_by_file".

Definition source_ref_key (entry_id : string) : bytes := "source_ref:" +:+ entry_id.
Definition file_index_prefix (file_path : string) : bytes :=
  "source_by_file:" +:+ file_path +:+ "|".
Definition file_index_key (file_path entry_id : string) : bytes :=
  "source_by_file:" +:+ file_path +:+ "|" +:+ entry_id.

Definition function_name (reference : SourceReference) : option string :=
  match src_scope reference with
  | Some (Some (ScopeFunction f)) => Some (fs_name f)
  | _ => None
  end.

Definition freshness_of (entry_id : string) (reference : option SourceReference)
    (file_hash : bytes) (ast_hash : option bytes) : FreshnessEntry :=
  match reference with
  | None => mkFreshnessEntry entry_id "" Unknown "" file_hash
  | Some reference =>
    let stored_ast :=
      match src_scope reference with
      | Some (Some (ScopeFunction f)) =>
        if String.eqb (fs_ast_hash f) "" then None else Some (fs_ast_hash f)
      | _ => None
      end in
    let is_fresh :=
      match ast_hash, stored_ast with
      | Some client, Some stored => String.eqb stored client
      | _, _ => String.eqb (src_content_hash reference) file_hash
      end in
    mkFreshnessEntry entry_id (src_file_path reference) (if is_fresh then Fresh else Stale)
      (src_content_hash reference) file_hash
  end.

Definition decode_reference (bs : bytes) : result SourceReference Error :=
  match prost_decode bs with
  | Ok r => Ok r
  | Err e => Err ("Failed to deserialize source reference: " +:+ e)
  end.

Definition load_reference (d : DB) (entry_id : string) : result (option SourceReference) Error :=
  try stored <- db_get d (source_ref_key entry_id);
  match stored with
  | Some bs => try r <- decode_reference bs; Ok (Some r)
  | None => Ok None
  end.

(** The entry ids of the index entries, as keys of references. *)
Fixpoint index_ref_keys (prefix : bytes) (items : list (result (bytes * bytes) Error))
    : result (list bytes) Error :=
  match items with
  | [] => Ok []
  | item :: items =>
    try (key, _) <- item;
    let entry_id := from_utf8_lossy (str_of_bytes (drop (str_len prefix) (str_bytes key))) in
    try ref_keys <- index_ref_keys prefix items;
    Ok (source_ref_key entry_id :: ref_keys)
  end.

Fixpoint matching_references (file_path : string) (values : list (result (option bytes) Error))
    : result (list SourceReference) Error :=
  match values with
  | [] => Ok []
  | value :: values =>
    try stored <- value;
    match stored with
    | Some data =>
      match prost_decode data with
      | Ok reference =>
        if String.eqb (src_file_path reference) file_path
        then try rs <- matching_references file_path values; Ok (reference :: rs)
        else matching_references file_path values
      | Err _ => matching_references file_path values
      end
    | None => matching_references file_path values
    end
  end.

Definition references_for_file (d : DB) (file_path : string)
    : result (list SourceReference) Error :=
  let prefix := file_index_prefix file_path in
  try ref_keys <- index_ref_keys prefix (scan_prefix d prefix);
  matching_references file_path (multi_get d ref_keys).

(** The deletions [delete_reference] queues. *)
Definition delete_reference (reference : SourceReference) : WriteBatch :=
  [BatchDelete (source_ref_key (src_entry_id reference));
   BatchDelete (file_index_key (src_file_path reference) (src_entry_id reference))].

Fixpoint index_loop (items : list (result (bytes * bytes) Error)) (batch : WriteBatch)
    : result WriteBatch Error :=
  match items with
  | [] => Ok batch
  | item :: items =>
    try (_, value) <- item;
    match prost_decode value with
    | Ok reference =>
      index_loop items
        (batch ++ [BatchPut (file_index_key (src_file_path reference) (src_entry_id reference)) ""])
    | Err _ => index_loop items batch
    end
  end.

Definition ensure_file_index (d : DB) : DB * result unit Error :=
  match db_get d SOURCE_INDEX_MARKER with
  | Err e => (d, Err e)
  | Ok (Some _) => (d, Ok tt)
  | Ok None =>
    match index_loop (scan_prefix d SOURCE_REF_PREFIX) [] with
    | Err e => (d, Err e)
    | Ok batch => db_write d (batch ++ [BatchPut SOURCE_INDEX_MARKER "1"])
    end
  end.

Definition register_batch (old : option SourceReference) (reference : SourceReference) : WriteBatch :=
  match old with
  | Some old =>
    if String.eqb (src_file_path old) (src_file_path reference) then []
    else [BatchDelete (file_index_key (src_file_path old) (src_entry_id old))]
  | None => []
  end
  ++ [BatchPut (source_ref_key (src_entry_id reference)) (prost_encode reference);
      BatchPut (file_index_key (src_file_path reference) (src_entry_id reference)) ""].

Definition register_source (d : DB) (reference : SourceReference) : DB * result unit Error :=
  match load_reference d (src_entry_id reference) with
  | Err e => (d, Err e)
  | Ok old => db_write d (register_batch old reference)
  end.

Definition invalidate_source (d : DB) (file_path : string) : DB * result N Error :=
  match references_for_file d file_path with
  | Err e => (d, Err e)
  | Ok references =>
    match db_write d (references ≫= delete_reference) with
    | (d, Ok _) => (d, Ok (N.of_nat (length references) `mod` u32_mod)%N)
    | (d, Err e) => (d, Err e)
    end
  end.

Definition get_entries_by_source (d : DB) (file_path : string)
    : result (list SourceReference) Error :=
  references_for_file d file_path.

Definition check_freshness_semantic (d : DB) (entry_id : string) (file_hash : bytes)
    (ast_hash : option bytes) : result FreshnessEntry Error :=
  try reference <- load_reference d entry_id;
  Ok (freshness_of entry_id reference file_hash ast_hash).

Definition check_freshness (d : DB) (entry_id : string) (file_hash : bytes)
    : result FreshnessEntry Error :=
  check_freshness_semantic d entry_id file_hash None.

(** The entries are (entry id, file hash, AST hash); the symbol name is not
    used. *)
Abbreviation check_entry := (string * bytes * option bytes)%type (only parsing).

Definition batch_reference (value : result (option bytes) Error) : option SourceReference :=
  match value with
  | Ok (Some data) => match prost_decode data with Ok r => Some r | Err _ => None end
  | _ => None
  end.

Definition check_freshness_batch (d : DB) (entries : list check_entry) : list FreshnessEntry :=
  let values := multi_get d ((λ e, source_ref_key e.1.1) <$> entries) in
  zip_with (λ e value, freshness_of e.1.1 (batch_reference value) e.1.2 e.2) entries values.

(** The default implementation of the trait ([traits.rs]): one call per
    entry, errors report [Unknown]. *)
Definition check_freshness_each (d : DB) (entries : list check_entry) : list FreshnessEntry :=
  (λ e, match check_freshness_semantic d e.1.1 e.1.2 e.2 with
        | Ok r => r
        | Err _ => mkFreshnessEntry e.1.1 "" Unknown "" e.1.2
        end) <$> entries.

(** ** Symbol dependencies *)

Definition symbol_key (s : SymbolId) : string := sym_file_path s +:+ "::" +:+ sym_symbol_name s.

Definition dependency_batch (from to : SymbolId) : WriteBatch :=
  let from_key := symbol_key from in
  let to_key :=
    if String.eqb (sym_file_path to) "" then "::" +:+ sym_symbol_name to
    else sym_file_path to +:+ "::" +:+ sym_symbol_name to in
  [BatchPut ("symbol_dep:" +:+ from_key +:+ "|" +:+ to_key) (sym_symbol_type to);
   BatchPut ("symbol_rdep:" +:+ to_key +:+ "|" +:+ from_key) (sym_symbol_type from)]
  ++ (if String.eqb (sym_file_path to) "" then []
      else [BatchPut ("symbol_rdep:::" +:+ sym_symbol_name to +:+ "|" +:+ from_key)
                     (sym_symbol_type from)]).

Definition register_symbol_dependencies (d : DB) (from : SymbolId) (to_symbols : list SymbolId)
    : DB * result N Error :=
  match db_write d (to_symbols ≫= dependency_batch from) with
  | (d, Ok _) => (d, Ok (N.of_nat (length to_symbols) `mod` u32_mod)%N)
  | (d, Err e) => (d, Err e)
  end.

(** ** Cascade *)

(** The loop state: visited symbols, dependents in the order found, and the
    error that stopped it. *)
Record cascade := mkCascade {
  visited : gset string;
  dependents : list string;
  failed : option Error;
}.

Definition dependency_prefixes (sym_key : string) : list bytes :=
  ["symbol_rdep:" +:+ sym_key +:+ "|"; "symbol_rdep:::" +:+ last_segment sym_key +:+ "|"].

Definition visit_dependent (depth : nat) (st : gset string * list (string * nat)) (dep_key : string)
    : gset string * list (string * nat) :=
  if decide (dep_key ∈ st.1) then st
  else ({[ dep_key ]} ∪ st.1, st.2 ++ [(dep_key, (depth + 1)%nat)]).

(** One prefix: the visited set and the queue's new entries, or the error. *)
Fixpoint scan_dependents (prefix : bytes) (depth : nat) (items : list (result (bytes * bytes) Error))
    (st : gset string * list (string * nat)) : result (gset string * list (string * nat)) Error :=
  match items with
  | [] => Ok st
  | item :: items =>
    try (key, _) <- item;
    let dep_key := from_utf8_lossy (str_of_bytes (drop (str_len prefix) (str_bytes key))) in
    scan_dependents prefix depth items (visit_dependent depth st dep_key)
  end.

Fixpoint scan_prefixes (d : DB) (prefixes : list bytes) (depth : nat)
    (st : gset string * list (string * nat)) : result (gset string * list (string * nat)) Error :=
  match prefixes with
  | [] => Ok st
  | prefix :: prefixes =>
    try st <- scan_dependents prefix depth (scan_prefix d prefix) st;
    scan_prefixes d prefixes depth st
  end.

Definition cascade_body (d : DB) (max_depth : nat) (p : string * nat) (s : cascade)
    : flow (string * nat) cascade :=
  let '(sym_key, depth) := p in
  let found := if (0 <? depth)%nat then dependents s ++ [sym_key] else dependents s in
  if (max_depth <=? depth)%nat then Continue (mkCascade (visited s) found (failed s)) []
  else
    match scan_prefixes d (dependency_prefixes sym_key) depth (visited s, []) with
    | Ok (seen, pushed) => Continue (mkCascade seen found (failed s)) pushed
    | Err e => Break (mkCascade (visited s) found (Some e))
    end.

Definition cascade_search (d : DB) (max_depth fuel : nat) (changed_key : string) : option cascade :=
  while_pop (cascade_body d max_depth) fuel [(changed_key, 0%nat)]
    (mkCascade {[ changed_key ]} [] None).

(** The second half: what to delete, and the two counters. *)
Fixpoint invalidate_references (changed_key : string) (deps : gset string)
    (references : list SourceReference) (st : N * N * WriteBatch) : N * N * WriteBatch :=
  match references with
  | [] => st
  | reference :: references =>
    let '(direct, cascaded, batch) := st in
    invalidate_references changed_key deps references
      (match function_name reference with
       | None => st
       | Some name =>
         let ref_key := src_file_path reference +:+ "::" +:+ name in
         if String.eqb ref_key changed_key
         then (u32_add direct 1, cascaded, batch ++ delete_reference reference)
         else if decide (ref_key ∈ deps)
         then (direct, u32_add cascaded 1, batch ++ delete_reference reference)
         else st
       end)
  end.

Fixpoint invalidate_files (d : DB) (changed_key : string) (deps : gset string)
    (files : list string) (st : N * N * WriteBatch) : result (N * N * WriteBatch) Error :=
  match files with
  | [] => Ok st
  | file :: files =>
    try references <- references_for_file d file;
    invalidate_files d changed_key deps files
      (invalidate_references changed_key deps references st)
  end.

(** The files of the changed symbol and of its dependents, in order. *)
Definition cascade_files (changed : SymbolId) (deps : list string) : list string :=
  btree_set (sym_file_path changed :: omap before_colons deps).

(** [None]: the fuel ran out, which it does not ([RocksCascade]). *)
Definition cascade_invalidate (fuel : nat) (d : DB) (changed : SymbolId) (max_depth : nat)
    : option (DB * result CascadeInvalidateReport Error) :=
  let changed_key := symbol_key changed in
  s ← cascade_search d max_depth fuel changed_key;
  Some
    match failed s with
    | Some e => (d, Err e)
    | None =>
      let deps := dependents s in
      match invalidate_files d changed_key (list_to_set deps) (cascade_files changed deps)
              (0%N, 0%N, []) with
      | Err e => (d, Err e)
      | Ok (direct, cascaded, batch) =>
        match db_write d batch with
        | (d, Ok _) => (d, Ok (mkCascadeReport direct cascaded deps))
        | (d, Err e) => (d, Err e)
        end
      end
    end.
End freshness.
