(* ===== verification/RocksFreshnessThms.v ===== *)
(** * The freshness store implements a map of references

    [fresh_store] relates the contents of the database to the references by
    entry id.  The index by file is exact as long as entry ids contain no bar;
    the last section shows what happens otherwise. *)

From stdpp Require Import gmap.
From S2P Require Import Prelude RustStd StrLemmas UuidText Collections Types ContextAssembly.
From S2P Require Import Rocks RocksThms RocksFreshness.

Local Open Scope string_scope.
Local Open Scope list_scope.
Local Open Scope pcx.

Definition fresh_families : list string := ["source_ref"; "source_by_file"].

(** ** Separators *)

(** No byte of [s] is a bar. *)
Definition no_bar (s : string) : Prop := (124%N ∉ str_bytes s).

Lemma last_bar_inj (p p' s s' : list N) :
  124%N ∉ s → 124%N ∉ s' → p ++ 124%N :: s = p' ++ 124%N :: s' → p = p' ∧ s = s'.
Proof.
  intros Hs Hs' Heq.
  destruct (app_eq_inv _ _ _ _ Heq) as [(k & Hp & Hk)|(k & Hp & Hk)]; destruct k as [|b k].
  - rewrite app_nil_r in Hp. simplify_eq/=. done.
  - simpl in Hk. injection Hk as <- Hk. destruct Hs'. rewrite Hk. apply elem_of_app. right. by left.
  - rewrite app_nil_r in Hp. simplify_eq/=. done.
  - simpl in Hk. injection Hk as <- Hk. destruct Hs. rewrite Hk. apply elem_of_app. right. by left.
Qed.

Lemma file_index_key_inj p p' s s' :
  no_bar s → no_bar s' → file_index_key p s = file_index_key p' s' → p = p' ∧ s = s'.
Proof.
  intros Hs Hs' Heq%str_app_inj_r%(f_equal str_bytes). rewrite !str_bytes_app in Heq.
  apply last_bar_inj in Heq as [?%(inj str_bytes) ?%(inj str_bytes)]; done.
Qed.

Lemma lossy_bar s : no_bar (from_utf8_lossy s) → no_bar s.
Proof.
  unfold no_bar. rewrite str_bytes_lossy. intros Hno Hin. apply Hno.
  by apply utf8_lossy_bytes; [apply str_bytes_ok|..].
Qed.

Section store.
Context `{RL : RocksDBLaws} `{PL : ProstLaws SourceReference}.

(** Ids the keys can tell apart, as Rust strings. *)
Definition plain_id (id : string) : Prop := no_bar id ∧ well_formed id.

Record fresh_store (m : table) (refs : gmap string SourceReference) : Prop := {
  fr_ref id : m !! source_ref_key id = prost_encode <$> refs !! id;
  fr_id id r : refs !! id = Some r → src_entry_id r = id ∧ plain_id id;
  fr_index path id : no_bar id →
    m !! file_index_key path id = Some "" ↔ ∃ r, refs !! id = Some r ∧ src_file_path r = path;
  fr_only k v : has_prefix "source_by_file:" k → m !! k = Some v →
    v = "" ∧ ∃ path id, no_bar id ∧ k = file_index_key path id;
}.

Lemma fresh_store_local m m' refs :
  (∀ k, family k ∈ fresh_families → m' !! k = m !! k) → fresh_store m refs → fresh_store m' refs.
Proof.
  intros Hm [Href Hid Hindex Honly]. split; [|done|..].
  - intros id. rewrite Hm; [apply Href|by left].
  - intros path id. rewrite Hm; [apply Hindex|by right; left].
  - intros k v Hk. rewrite Hm; [by apply Honly|]. destruct Hk as [r ->]. by right; left.
Qed.

(** The references of a file, by entry id. *)
Definition file_refs (path : string) (refs : gmap string SourceReference) : list SourceReference :=
  filter (λ r, src_file_path r = path) (btree_values refs).

Lemma elem_of_file_refs m refs path r :
  fresh_store m refs →
  r ∈ file_refs path refs ↔ refs !! src_entry_id r = Some r ∧ src_file_path r = path.
Proof.
  intros Hm. unfold file_refs. rewrite list_elem_of_filter, elem_of_btree_values. split.
  - intros [Hp [id Hr]]. by destruct (fr_id _ _ Hm _ _ Hr) as [-> _].
  - intros [Hr Hp]. split; [done|by eexists].
Qed.

Lemma file_refs_ids m refs path :
  fresh_store m refs →
  StronglySorted String.le (src_entry_id <$> file_refs path refs)
  ∧ NoDup (src_entry_id <$> file_refs path refs).
Proof.
  intros Hm.
  assert (src_entry_id <$> btree_values refs = btree_keys refs) as Hkeys.
  { unfold btree_values, btree_keys. rewrite <-list_fmap_compose. apply list_fmap_ext.
    intros i [id r] Hin%list_elem_of_lookup_2%elem_of_btree_iter.
    by destruct (fr_id _ _ Hm _ _ Hin) as [? _]. }
  split.
  - assert (StronglySorted String.le (src_entry_id <$> btree_values refs)) as Hs.
    { rewrite Hkeys. unfold btree_keys. generalize (btree_iter_sorted refs).
      generalize (btree_iter refs). induction 1 as [|e es Hs IH He]; csimpl; constructor; [done|].
      apply Forall_fmap. by eapply Forall_impl. }
    eapply StronglySorted_sublist; [|exact Hs]. apply fmap_sublist, sublist_filter.
  - apply NoDup_fmap_filter. rewrite Hkeys. apply btree_iter_keys_NoDup.
Qed.

(** ** Reading the index *)

Definition index_entry (path : string) (r : SourceReference) : bytes * bytes :=
  (file_index_key path (src_entry_id r), "").

Lemma file_index_split path id : file_index_key path id = file_index_prefix path +:+ id.
Proof. unfold file_index_key, file_index_prefix. by rewrite !str_app_assoc. Qed.

Lemma index_ref_keys_ok prefix es :
  index_ref_keys prefix (Ok <$> es)
  = Ok ((λ e, source_ref_key (from_utf8_lossy (after prefix e.1))) <$> es).
Proof. induction es as [|[k v] es IH]; csimpl; [done|]. by rewrite IH. Qed.

(** The reference a key of the table stands for, if it is of [path]. *)
Definition ref_at (refs : gmap string SourceReference) (path id : string) : option SourceReference :=
  r ← refs !! id; if decide (src_file_path r = path) then Some r else None.

Lemma matching_references_ok m refs path ids :
  fresh_store m refs →
  matching_references path ((λ k, Ok (m !! k)) <$> (source_ref_key <$> ids))
  = Ok (omap (ref_at refs path) ids).
Proof.
  intros Hm. induction ids as [|id ids IH]; [done|]. csimpl. rewrite (fr_ref _ _ Hm).
  unfold ref_at at 1. destruct (refs !! id) as [r|]; simpl; [|done].
  rewrite prost_roundtrip. destruct (String.eqb_spec (src_file_path r) path).
  - rewrite decide_True by done. by rewrite IH.
  - by rewrite decide_False.
Qed.

(** Only the keys without a bar after the prefix lead to a reference. *)
Lemma index_scan m refs path :
  fresh_store m refs →
  filter (λ e, no_bar (after (file_index_prefix path) e.1)) (under_prefix (file_index_prefix path) m)
  = index_entry path <$> file_refs path refs.
Proof.
  intros Hm. destruct (file_refs_ids m refs path Hm) as [Hsorted Hnd].
  apply sorted_pairs_unique.
  - apply StronglySorted_filter, under_prefix_sorted.
  - revert Hsorted. generalize (file_refs path refs). intros rs. induction rs as [|r rs IH]; csimpl.
    + constructor.
    + intros [Hs Hr]%StronglySorted_inv. constructor; [by apply IH|].
      rewrite Forall_fmap in Hr. apply Forall_fmap. eapply Forall_impl; [exact Hr|].
      intros r' Hle. unfold key_le. simpl. by rewrite !file_index_split, str_le_app.
  - apply NoDup_fmap_filter, under_prefix_keys_NoDup.
  - rewrite <-list_fmap_compose. rewrite (list_fmap_compose src_entry_id (file_index_key path)).
    apply NoDup_fmap_2; [|done]. intros x y Heq. rewrite !file_index_split in Heq.
    by apply str_app_inj_r in Heq.
  - intros [k v]. rewrite list_elem_of_filter, elem_of_under_prefix, list_elem_of_fmap. simpl. split.
    + intros (Hno & [rest ->] & Hk). rewrite after_app in Hno.
      destruct (fr_only _ _ Hm (file_index_prefix path +:+ rest) v) as (-> & path' & id & Hid & Heq);
        [by eexists|done|].
      rewrite <-file_index_split in *. apply file_index_key_inj in Heq as [-> ->]; [|done..].
      apply (fr_index _ _ Hm) in Hk as (r & Hr & Hp); [|done].
      destruct (fr_id _ _ Hm _ _ Hr) as [Hid' _]. exists r. unfold index_entry. rewrite Hid'.
      split; [done|]. apply (elem_of_file_refs m); [done|]. by rewrite Hid'.
    + intros (r & [= -> ->] & [Hr Hp]%(elem_of_file_refs m)); [|done].
      destruct (fr_id _ _ Hm _ _ Hr) as [_ [Hno Hwf]].
      rewrite file_index_split, after_app. split_and!; [done|by eexists|].
      rewrite <-file_index_split. apply (fr_index _ _ Hm); [done|by eexists].
Qed.

Lemma omap_Some_id {A} (f : A → option A) (l : list A) :
  (∀ x, x ∈ l → f x = Some x) → omap f l = l.
Proof.
  induction l as [|x l IH]; intros Hl; [done|]. csimpl. rewrite Hl by by left.
  f_equal. apply IH. intros y Hy. apply Hl. by right.
Qed.

(** A lookup by file finds the references of the file, by entry id. *)
Lemma references_for_file_ok d m refs path :
  db_is d m → fresh_store m refs → references_for_file d path = Ok (file_refs path refs).
Proof.
  intros Hd Hm. unfold references_for_file.
  rewrite (db_is_scan d m), index_ref_keys_ok by done. simpl.
  rewrite (db_is_multi_get d m) by done.
  set (prefix := file_index_prefix path). set (es := under_prefix prefix m).
  assert ((λ e : bytes * bytes, source_ref_key (from_utf8_lossy (after prefix e.1))) <$> es
          = source_ref_key <$> ((λ e : bytes * bytes, from_utf8_lossy (after prefix e.1)) <$> es)) as ->
    by by rewrite <-list_fmap_compose.
  rewrite (matching_references_ok m refs) by done. f_equal.
  rewrite omap_fmap_comp.
  rewrite (omap_filter _ (λ e, no_bar (after prefix e.1))).
  - unfold es, prefix. rewrite (index_scan m refs) by done.
    rewrite omap_fmap_comp.
    apply omap_Some_id. intros r [Hr Hp]%(elem_of_file_refs m); [|done]. simpl.
    rewrite file_index_split, after_app. destruct (fr_id _ _ Hm _ _ Hr) as [_ [_ ->]].
    unfold ref_at. rewrite Hr. simpl. by rewrite decide_True.
  - intros [k v] _ Hbar. simpl. unfold ref_at.
    destruct (refs !! from_utf8_lossy (after prefix k)) as [r|] eqn:Hr; [|done].
    destruct Hbar. apply lossy_bar. by apply (fr_id _ _ Hm) in Hr as [_ [? _]].
Qed.

(** ** Registering *)

Lemma source_ref_key_inj id id' : source_ref_key id = source_ref_key id' → id = id'.
Proof. apply str_app_inj_r. Qed.

Lemma decode_reference_ok r : decode_reference (prost_encode r) = Ok r.
Proof. unfold decode_reference. by rewrite prost_roundtrip. Qed.

Lemma load_reference_ok d m refs id :
  db_is d m → fresh_store m refs → load_reference d id = Ok (refs !! id).
Proof.
  intros Hd Hm. unfold load_reference. rewrite (db_is_get d m), (fr_ref _ _ Hm) by done. simpl.
  destruct (refs !! id); simpl; [by rewrite decode_reference_ok|done].
Qed.

(** Registering a reference: the record, the new index entry, and no other
    index entry of the id. *)
Lemma register_lookup m refs r k :
  fresh_store m refs →
  let id := src_entry_id r in
  apply_batch (register_batch (refs !! id) r) m !! k =
    if decide (k = source_ref_key id) then Some (prost_encode r)
    else if decide (k = file_index_key (src_file_path r) id) then Some ""
    else match refs !! id with
         | Some old => if decide (k = file_index_key (src_file_path old) id) then None else m !! k
         | None => m !! k
         end.
Proof.
  intros Hm id. unfold register_batch. rewrite apply_batch_app. cbn [apply_batch foldl apply_op].
  fold id. destruct (decide (k = source_ref_key id)) as [->|Hk1].
  { by rewrite lookup_insert_ne, lookup_insert_eq. }
  destruct (decide (k = file_index_key (src_file_path r) id)) as [->|Hk2].
  { by rewrite lookup_insert_eq. }
  rewrite !lookup_insert_ne by done. destruct (refs !! id) as [old|] eqn:Hold; [|done].
  destruct (fr_id _ _ Hm _ _ Hold) as [-> _].
  destruct (String.eqb_spec (src_file_path old) (src_file_path r)) as [->|Hne]; simpl.
  - by rewrite decide_False.
  - destruct (decide _) as [->|Hk3]; [by rewrite lookup_delete_eq|by rewrite lookup_delete_ne].
Qed.

Lemma register_effect m refs r :
  fresh_store m refs → plain_id (src_entry_id r) →
  fresh_store (apply_batch (register_batch (refs !! src_entry_id r) r) m) (<[src_entry_id r := r]> refs).
Proof.
  intros Hm [Hbar Hwf]. pose proof (λ k, register_lookup m refs r k Hm) as Hlook. simpl in Hlook.
  set (id := src_entry_id r) in *. set (m' := apply_batch _ m) in *. split.
  - intros id'. rewrite Hlook. destruct (decide (source_ref_key id' = source_ref_key id)) as [Heq|Hne].
    + apply source_ref_key_inj in Heq as ->. by rewrite lookup_insert_eq.
    + rewrite lookup_insert_ne by congruence. rewrite decide_False by done.
      destruct (refs !! id); [rewrite decide_False by done|]; apply (fr_ref _ _ Hm).
  - intros id' x. destruct (decide (id' = id)) as [->|Hne].
    + rewrite lookup_insert_eq. intros [= <-]. done.
    + rewrite lookup_insert_ne by done. apply (fr_id _ _ Hm).
  - intros path id' Hbar'. rewrite Hlook. rewrite decide_False by done.
    destruct (decide (id' = id)) as [->|Hne].
    + rewrite lookup_insert_eq. destruct (decide _) as [Heq|Hne].
      * apply file_index_key_inj in Heq as [-> _]; [|done..]. split; [|done]. intros _. by exists r.
      * split; [|by intros (x & [= <-] & <-)]. intros Hin. exfalso.
        assert (m !! file_index_key path id = Some "") as Hm'
          by (destruct (refs !! id); [by destruct (decide _)|done]).
        apply (fr_index _ _ Hm) in Hm' as (old & Hold & Hp); [|done]. rewrite Hold in Hin.
        by rewrite decide_True in Hin by by rewrite Hp.
    + rewrite lookup_insert_ne by done.
      assert (∀ p, file_index_key path id' ≠ file_index_key p id) as Hdiff.
      { intros p Heq. by apply file_index_key_inj in Heq as [_ ?]. }
      rewrite decide_False by apply Hdiff.
      destruct (refs !! id) as [old|]; [rewrite decide_False by apply Hdiff|];
        by apply (fr_index _ _ Hm).
  - intros k v Hk. rewrite Hlook. rewrite decide_False by (intros ->; by destruct Hk).
    destruct (decide _) as [->|_]; [intros [= <-]; split; [done|by do 2 eexists]|].
    destruct (refs !! id); [destruct (decide _); [done|]|]; by apply (fr_only _ _ Hm).
Qed.

(** ** Deleting *)

Definition without (ids : list string) (refs : gmap string SourceReference) : gmap string SourceReference :=
  filter (λ e, e.1 ∉ ids) refs.

Definition reference_keys (r : SourceReference) : list bytes :=
  [source_ref_key (src_entry_id r); file_index_key (src_file_path r) (src_entry_id r)].

Lemma delete_references_batch rs :
  rs ≫= delete_reference = BatchDelete <$> (rs ≫= reference_keys).
Proof. induction rs as [|r rs IH]; [done|]. csimpl. by rewrite IH. Qed.

Lemma elem_of_reference_keys rs k :
  k ∈ rs ≫= reference_keys ↔
  ∃ r, r ∈ rs ∧ (k = source_ref_key (src_entry_id r)
                 ∨ k = file_index_key (src_file_path r) (src_entry_id r)).
Proof.
  rewrite list_elem_of_bind. split.
  - intros (r & Hk & Hr). exists r. split; [done|].
    apply elem_of_cons in Hk as [?|Hk%list_elem_of_singleton]; [by left|by right].
  - intros (r & Hr & Hk). exists r. split; [|done].
    unfold reference_keys. by rewrite elem_of_cons, list_elem_of_singleton.
Qed.

(** Deleting stored references drops them and their index entries. *)
Lemma delete_references_effect m refs rs :
  fresh_store m refs → (∀ r, r ∈ rs → refs !! src_entry_id r = Some r) →
  fresh_store (apply_batch (rs ≫= delete_reference) m) (without (src_entry_id <$> rs) refs).
Proof.
  intros Hm Hrs. rewrite delete_references_batch.
  assert (∀ id x, without (src_entry_id <$> rs) refs !! id = Some x ↔
            refs !! id = Some x ∧ id ∉ src_entry_id <$> rs) as Hwithout.
  { intros id x. unfold without. by rewrite map_lookup_filter_Some. }
  split.
  - intros id. rewrite apply_deletes. destruct (decide _) as [Hin|Hno].
    + apply elem_of_reference_keys in Hin as (r & Hr & [Heq|Heq]); [|done].
      apply source_ref_key_inj in Heq as ->. symmetry. apply fmap_None, map_lookup_filter_None.
      right. intros x _ Hx. apply Hx, list_elem_of_fmap. by exists r.
    + rewrite (fr_ref _ _ Hm). f_equal. destruct (refs !! id) as [x|] eqn:Hx.
      * symmetry. apply Hwithout. split; [done|]. intros (r & -> & Hr)%list_elem_of_fmap.
        apply Hno, elem_of_reference_keys. exists r. split; [done|by left].
      * symmetry. apply map_lookup_filter_None. by left.
  - intros id x [Hx _]%Hwithout. by apply (fr_id _ _ Hm).
  - intros path id Hbar. rewrite apply_deletes. destruct (decide _) as [Hin|Hno].
    + split; [done|]. intros (x & [Hx Hni]%Hwithout & Hp).
      apply elem_of_reference_keys in Hin as (r & Hr & [Heq|Heq]); [done|].
      destruct (fr_id _ _ Hm _ _ (Hrs r Hr)) as [_ [Hbr _]].
      apply file_index_key_inj in Heq as [_ ->]; [|done..].
      destruct Hni. apply list_elem_of_fmap. by exists r.
    + rewrite (fr_index _ _ Hm) by done. split; intros (x & Hx & Hp).
      * exists x. split; [|done]. apply Hwithout. split; [done|].
        intros (r & -> & Hr)%list_elem_of_fmap. rewrite (Hrs r Hr) in Hx. injection Hx as <-.
        apply Hno, elem_of_reference_keys. exists r. split; [done|right]. by rewrite Hp.
      * apply Hwithout in Hx as [Hx _]. by exists x.
  - intros k v Hk. rewrite apply_deletes. destruct (decide _); [done|]. by apply (fr_only _ _ Hm).
Qed.

(** ** Opening an old database *)

(** Records without an index. *)
Record unindexed_store (m : table) (refs : gmap string SourceReference) : Prop := {
  ui_ref id : m !! source_ref_key id = prost_encode <$> refs !! id;
  ui_id id r : refs !! id = Some r → src_entry_id r = id ∧ plain_id id;
  ui_none k : has_prefix "source_by_file:" k → m !! k = None;
}.

Definition record_entry (r : SourceReference) : bytes * bytes :=
  (source_ref_key (src_entry_id r), prost_encode r).

Lemma record_scan m refs :
  unindexed_store m refs →
  ∃ rs, under_prefix SOURCE_REF_PREFIX m = record_entry <$> rs ∧ NoDup (src_entry_id <$> rs)
    ∧ ∀ r, r ∈ rs ↔ refs !! src_entry_id r = Some r.
Proof.
  intros Hm.
  destruct (elements_image record_entry (λ r, refs !! src_entry_id r = Some r)
              (under_prefix SOURCE_REF_PREFIX m)) as (rs & Hrs & Hall).
  { intros [k v] [[id ->] Hk]%elem_of_under_prefix.
    change (SOURCE_REF_PREFIX +:+ id) with (source_ref_key id) in Hk |- *.
    rewrite (ui_ref _ _ Hm) in Hk. apply fmap_Some in Hk as (r & Hr & ->).
    destruct (ui_id _ _ Hm _ _ Hr) as [Hid _]. exists r. unfold record_entry. by rewrite Hid. }
  rewrite Forall_forall in Hall. exists rs. split_and!; [done| |].
  - pose proof (under_prefix_keys_NoDup SOURCE_REF_PREFIX m) as Hnd. rewrite Hrs in Hnd.
    apply (NoDup_fmap_1 source_ref_key). rewrite <-list_fmap_compose.
    by rewrite <-list_fmap_compose in Hnd.
  - intros r. split; [apply Hall|]. intros Hr.
    assert (record_entry r ∈ under_prefix SOURCE_REF_PREFIX m) as Hin.
    { apply elem_of_under_prefix. split; [by eexists|].
      change (m !! source_ref_key (src_entry_id r) = Some (prost_encode r)).
      by rewrite (ui_ref _ _ Hm), Hr. }
    rewrite Hrs in Hin. apply list_elem_of_fmap in Hin as (x & Heq & Hx).
    apply (f_equal fst), source_ref_key_inj in Heq. apply Hall in Hx as Hx'.
    rewrite <-Heq, Hr in Hx'. by simplify_eq.
Qed.

Definition ref_index (r : SourceReference) : bytes * bytes := index_entry (src_file_path r) r.

Lemma index_loop_ok rs batch :
  index_loop (Ok <$> (record_entry <$> rs)) batch = Ok (batch ++ (uncurry BatchPut <$> (ref_index <$> rs))).
Proof.
  revert batch. induction rs as [|r rs IH]; intros batch; csimpl; [by rewrite app_nil_r|].
  rewrite prost_roundtrip, IH, <-app_assoc. done.
Qed.

Lemma index_effect m refs rs :
  unindexed_store m refs → NoDup (src_entry_id <$> rs) →
  (∀ r, r ∈ rs ↔ refs !! src_entry_id r = Some r) →
  let m' := apply_batch (uncurry BatchPut <$> ((ref_index <$> rs) ++ [(SOURCE_INDEX_MARKER, "1")])) m in
  fresh_store m' refs ∧ m' !! SOURCE_INDEX_MARKER = Some "1".
Proof.
  intros Hm Hnd Hrs m'. set (pairs := (ref_index <$> rs) ++ [(SOURCE_INDEX_MARKER, "1")]) in *.
  assert (∀ k v, (k, v) ∈ pairs ↔ (∃ r, r ∈ rs ∧ k = file_index_key (src_file_path r) (src_entry_id r)
                                        ∧ v = "") ∨ (k = SOURCE_INDEX_MARKER ∧ v = "1")) as Hin.
  { intros k v. unfold pairs. rewrite elem_of_app, list_elem_of_fmap, list_elem_of_singleton.
    split.
    - intros [(r & [= -> ->] & Hr)|[= -> ->]]; [left; by exists r|by right].
    - intros [(r & Hr & -> & ->)|[-> ->]]; [left; by exists r|by right]. }
  assert (NoDup pairs.*1) as Hpairs.
  { unfold pairs. rewrite fmap_app, NoDup_app. csimpl. split_and!; [| |by apply NoDup_singleton].
    - rewrite <-list_fmap_compose. apply NoDup_fmap_2_strong; [|by eapply NoDup_fmap_1].
      intros x y Hx%Hrs Hy%Hrs Heq. simpl in Heq.
      destruct (ui_id _ _ Hm _ _ Hx) as [_ [Hbx _]], (ui_id _ _ Hm _ _ Hy) as [_ [Hby _]].
      apply file_index_key_inj in Heq as [_ Heq]; [|done..]. rewrite Heq in Hx. congruence.
    - intros k (e & -> & (r & -> & _)%list_elem_of_fmap)%list_elem_of_fmap. by rewrite list_elem_of_singleton. }
  pose proof (λ k, lookup_apply_puts pairs m k Hpairs) as Hlook. fold m' in Hlook.
  assert (∀ k, (∀ v, (k, v) ∉ pairs) → m' !! k = m !! k) as Hout.
  { intros k Hk. apply Hlook. intros ([k' v] & -> & Hkv)%list_elem_of_fmap. by apply (Hk v). }
  split; [split|by apply Hlook, Hin; right].
  - intros id. rewrite Hout; [apply (ui_ref _ _ Hm)|]. by intros v [(r & _ & ? & _)|[? _]]%Hin.
  - apply (ui_id _ _ Hm).
  - intros path id Hbar. split.
    + intros Hk. destruct (decide (file_index_key path id ∈ pairs.*1)) as [Hp|Hp].
      * apply list_elem_of_fmap in Hp as ([k v] & Heq & [(r & Hr & -> & _)|[-> _]]%Hin); [|done].
        apply Hrs in Hr. destruct (ui_id _ _ Hm _ _ Hr) as [_ [Hbr _]].
        apply file_index_key_inj in Heq as [-> ->]; [|done..]. by exists r.
      * rewrite Hout in Hk; [by rewrite (ui_none _ _ Hm) in Hk by by eexists|].
        intros v Hv. apply Hp, list_elem_of_fmap. by exists (file_index_key path id, v).
    + intros (r & Hr & <-). destruct (ui_id _ _ Hm _ _ Hr) as [<- _]. apply Hlook, Hin. left.
      exists r. by rewrite Hrs.
  - intros k v Hk Hv. destruct (decide (k ∈ pairs.*1)) as [Hp|Hp].
    + apply list_elem_of_fmap in Hp as ([k' v'] & -> & Hkv). apply Hlook in Hkv as Hv'. simpl in *.
      rewrite Hv in Hv'. injection Hv' as <-. apply Hin in Hkv as [(r & Hr & -> & ->)|[-> _]]; [|by destruct Hk].
      split; [done|]. apply Hrs in Hr. destruct (ui_id _ _ Hm _ _ Hr) as [_ [Hbr _]]. by do 2 eexists.
    + rewrite Hout, (ui_none _ _ Hm) in Hv; [done..|].
      intros w Hw. apply Hp, list_elem_of_fmap. by exists (k, w).
Qed.

(** ** Theorems *)

Lemma register_spec d m refs r :
  db_is d m → fresh_store m refs → plain_id (src_entry_id r) →
  ∃ d' m', register_source d r = (d', Ok tt) ∧ db_is d' m'
    ∧ fresh_store m' (<[src_entry_id r := r]> refs) ∧ only_in fresh_families m m'.
Proof.
  intros Hd Hm Hid. unfold register_source. rewrite (load_reference_ok d m refs) by done.
  edestruct (db_is_write d m) as (d' & -> & Hd'); [done|]. exists d'. eexists.
  split_and!; [done|exact Hd'|by apply register_effect|].
  apply only_in_batch. unfold register_batch. apply Forall_app. split.
  - destruct (refs !! src_entry_id r); [|done]. destruct (String.eqb _ _); repeat constructor.
  - repeat constructor; by (left || (right; left)).
Qed.

Lemma deletions_families rs :
  Forall (λ op, family (op_key op) ∈ fresh_families) (rs ≫= delete_reference).
Proof.
  rewrite delete_references_batch. apply Forall_fmap, Forall_forall. intros k Hk. simpl.
  apply elem_of_reference_keys in Hk as (r & _ & [-> | ->]); [by left|by right; left].
Qed.

Lemma without_file m refs path :
  fresh_store m refs →
  without (src_entry_id <$> file_refs path refs) refs = filter (λ e, src_file_path e.2 ≠ path) refs.
Proof.
  intros Hm. apply map_filter_ext. intros id r Hr. simpl.
  destruct (fr_id _ _ Hm _ _ Hr) as [Hid _]. rewrite list_elem_of_fmap. split.
  - intros Hno Hp. apply Hno. exists r. split; [done|]. apply (elem_of_file_refs m); [done|].
    by rewrite Hid.
  - intros Hp (x & -> & [Hx Hpx]%(elem_of_file_refs m)); [|done]. congruence.
Qed.

(** Registering a reference replaces the one of its entry, wherever that
    one pointed: afterwards a lookup by file finds exactly the references
    whose path is that file, by entry id, whether or not the entry moved or
    the path contains the separator of the index. *)
Theorem register_source_refines d m refs r :
  db_is d m → fresh_store m refs → plain_id (src_entry_id r) →
  ∃ d' m', register_source d r = (d', Ok tt) ∧ db_is d' m'
    ∧ fresh_store m' (<[src_entry_id r := r]> refs) ∧ only_in fresh_families m m'
    ∧ ∀ path, get_entries_by_source d' path = Ok (file_refs path (<[src_entry_id r := r]> refs)).
Proof.
  intros Hd Hm Hid. destruct (register_spec d m refs r) as (d' & m' & Hrun & Hd' & Hm' & Hf); [done..|].
  exists d', m'. split_and!; [done..|]. intros path. by apply (references_for_file_ok d' m').
Qed.

(** Invalidating a file removes exactly the references of that file, with
    their index entries, and reports how many there were; references of other
    files stay and are still found. *)
Theorem invalidate_source_exact d m refs path :
  db_is d m → fresh_store m refs →
  ∃ d' m', invalidate_source d path = (d', Ok (N.of_nat (length (file_refs path refs)) `mod` u32_mod)%N)
    ∧ db_is d' m' ∧ fresh_store m' (filter (λ e, src_file_path e.2 ≠ path) refs)
    ∧ only_in fresh_families m m'.
Proof.
  intros Hd Hm. unfold invalidate_source. rewrite (references_for_file_ok d m refs) by done.
  edestruct (db_is_write d m) as (d' & -> & Hd'); [done|]. exists d'. eexists.
  split_and!; [done|exact Hd'| |apply only_in_batch, deletions_families].
  rewrite <-(without_file m) by done. apply delete_references_effect; [done|].
  intros r Hr. by apply (elem_of_file_refs m) in Hr as [? _].
Qed.

(** Opening a database that was written before the index existed builds
    it: every stored reference is found by its file afterwards, and opening
    again changes nothing. *)
Theorem open_builds_index d m refs :
  db_is d m → unindexed_store m refs → m !! SOURCE_INDEX_MARKER = None →
  ∃ d' m', ensure_file_index d = (d', Ok tt) ∧ db_is d' m' ∧ fresh_store m' refs
    ∧ ensure_file_index d' = (d', Ok tt).
Proof.
  intros Hd Hm Hmark. destruct (record_scan m refs Hm) as (rs & Hscan & Hnd & Hrs).
  destruct (index_effect m refs rs Hm Hnd Hrs) as [Hm' Hmark']. rewrite fmap_app in Hm', Hmark'.
  unfold ensure_file_index. rewrite (db_is_get d m), Hmark, (db_is_scan d m), Hscan, index_loop_ok by done.
  destruct (db_is_write d m ((uncurry BatchPut <$> (ref_index <$> rs)) ++ [BatchPut SOURCE_INDEX_MARKER "1"]) Hd)
    as (d' & Hw & Hd').
  simpl app. rewrite Hw. exists d'. eexists. split_and!; [done|exact Hd'|exact Hm'|].
  rewrite (db_is_get d' _ SOURCE_INDEX_MARKER Hd'). csimpl in Hmark'. by rewrite Hmark'.
Qed.

(** Checking a batch of entries gives what the default implementation of
    the trait gives, which checks them one by one: also for entries without a
    reference, records that do not decode and reads that fail. *)
Theorem batch_check_equals_single d entries :
  check_freshness_batch d entries = check_freshness_each d entries.
Proof.
  unfold check_freshness_batch, check_freshness_each, multi_get.
  induction entries as [|e es IH]; [done|]. csimpl. rewrite IH. f_equal.
  unfold check_freshness_semantic, load_reference, batch_reference, decode_reference.
  destruct (db_get d _) as [[bs|]|err]; simpl; [|done..]. by destruct (prost_decode bs).
Qed.

(** The freshness of a stored entry: the AST hashes decide when both sides
    have one for a function, the file hashes otherwise. *)
Lemma check_freshness_stored d m refs id r file_hash ast_hash :
  db_is d m → fresh_store m refs → refs !! id = Some r →
  check_freshness_semantic d id file_hash ast_hash = Ok (freshness_of id (Some r) file_hash ast_hash).
Proof.
  intros Hd Hm Hr. unfold check_freshness_semantic. by rewrite (load_reference_ok d m refs), Hr by done.
Qed.

Lemma no_references m :
  (∀ k, family k ∈ fresh_families → m !! k = None) → fresh_store m ∅.
Proof.
  intros Hm. split.
  - intros id. apply Hm. by left.
  - intros id r. by rewrite lookup_empty.
  - intros path id _. rewrite Hm by by right; left. split; [done|]. intros (r & Hr & _). by rewrite lookup_empty in Hr.
  - intros k v [r ->]. rewrite Hm; [done|]. by right; left.
Qed.
End store.

(** ** Instances *)

#[global] Instance FunctionScope_eq_dec : EqDecision FunctionScope.
Proof. solve_decision. Defined.
#[global] Instance BlockScope_eq_dec : EqDecision BlockScope.
Proof. solve_decision. Defined.
#[global] Instance Scope_eq_dec : EqDecision Scope.
Proof. solve_decision. Defined.
#[global] Instance SourceReference_eq_dec : EqDecision SourceReference.
Proof. solve_decision. Defined.

#[global] Instance FunctionScope_countable : Countable FunctionScope.
Proof.
  refine (inj_countable' (λ f, (fs_name f, fs_ast_hash f, fs_symbol_type f, fs_imports f))
    (λ '(a, b, c, d), mkFunctionScope a b c d) _).
  by intros [].
Defined.
#[global] Instance BlockScope_countable : Countable BlockScope.
Proof.
  refine (inj_countable' (λ b, (bs_start_line b, bs_end_line b, bs_content_hash b))
    (λ '(a, b, c), mkBlockScope a b c) _).
  by intros [].
Defined.
#[global] Instance Scope_countable : Countable Scope.
Proof.
  refine (inj_countable'
    (λ s, match s with ScopeWholeFile b => inl b | ScopeFunction f => inr (inl f) | ScopeBlock b => inr (inr b) end)
    (λ s, match s with inl b => ScopeWholeFile b | inr (inl f) => ScopeFunction f | inr (inr b) => ScopeBlock b end) _).
  by intros [].
Defined.
#[global] Instance SourceReference_countable : Countable SourceReference.
Proof.
  refine (inj_countable'
    (λ r, (src_file_path r, src_content_hash r, src_captured_at_unix r, src_entry_id r, src_scope r))
    (λ '(a, b, c, d, e), mkSourceReference a b c d e) _).
  by intros [].
Defined.

Definition countable_prost `{Countable T} : Prost T := {|
  prost_encode := λ x, str_of_bytes (bits_of (encode x));
  prost_decode := λ bs,
    match of_bits (str_bytes bs) ≫= decode with Some x => Ok x | None => Err "malformed" end;
|}.

Lemma countable_prost_laws `{Countable T} : @ProstLaws T countable_prost.
Proof.
  split. intros x. simpl. rewrite str_bytes_of_bytes by apply bits_of_ok.
  rewrite of_bits_of. simpl. by rewrite decode_encode.
Qed.

Definition source_codec : Prost SourceReference := countable_prost.

#[local] Existing Instances mem_db mem_db_laws source_codec.
#[local] Instance source_codec_laws : ProstLaws SourceReference := countable_prost_laws.

Definition demo_ref (path id : string) : SourceReference :=
  mkSourceReference path "hash" 0 id None.

Lemma register_source_refines_witness :
  ∃ d' m', register_source empty_db (demo_ref "a|b" "e1") = (d', Ok tt) ∧ db_is d' m'
    ∧ fresh_store m' {[ "e1" := demo_ref "a|b" "e1" ]} ∧ only_in fresh_families ∅ m'
    ∧ ∀ path, get_entries_by_source d' path
              = Ok (file_refs path {[ "e1" := demo_ref "a|b" "e1" ]}).
Proof.
  apply (register_source_refines empty_db ∅ ∅ (demo_ref "a|b" "e1"));
    [apply mem_db_is|by apply no_references|].
  split; [|by vm_compute]. unfold no_bar. by apply (bool_decide_unpack (124%N ∉ str_bytes "e1")).
Defined.

Lemma invalidate_source_exact_witness :
  ∃ d d' m', register_source empty_db (demo_ref "a" "e1") = (d, Ok tt)
    ∧ invalidate_source d "a" = (d', Ok 1%N) ∧ db_is d' m' ∧ fresh_store m' ∅.
Proof.
  destruct (register_spec empty_db ∅ ∅ (demo_ref "a" "e1")) as (d & m & Hrun & Hd & Hm & _);
    [apply mem_db_is|by apply no_references| |].
  { split; [|by vm_compute]. unfold no_bar. by apply (bool_decide_unpack (124%N ∉ str_bytes "e1")). }
  destruct (invalidate_source_exact d m _ "a" Hd Hm) as (d' & m' & Hinv & Hd' & Hm' & _).
  exists d, d', m'. split_and!; [exact Hrun|exact Hinv|exact Hd'|].
  assert (filter (λ e : string * SourceReference, src_file_path e.2 ≠ "a")
            (<["e1" := demo_ref "a" "e1"]> (∅ : gmap string SourceReference)) = ∅) as Hempty
    by (vm_compute; reflexivity).
  rewrite <-Hempty. exact Hm'.
Defined.

Definition old_db : @DB mem_db :=
  ({[ source_ref_key "old" := prost_encode (demo_ref "legacy.rs" "old") ]} : gmap string string).

Lemma open_builds_index_witness :
  ∃ d' m', ensure_file_index old_db = (d', Ok tt) ∧ db_is d' m'
    ∧ fresh_store m' {[ "old" := demo_ref "legacy.rs" "old" ]}
    ∧ ensure_file_index d' = (d', Ok tt).
Proof.
  apply (open_builds_index old_db old_db); [apply mem_db_is| |by vm_compute].
  split.
  - intros id. destruct (decide (id = "old")) as [->|Hne].
    + by vm_compute.
    + unfold old_db. rewrite !lookup_singleton_ne; [done|congruence|].
      intros Heq. by apply source_ref_key_inj in Heq.
  - intros id r Hr. apply lookup_singleton_Some in Hr as [<- <-]. split; [done|].
    split; [|by vm_compute]. unfold no_bar. by apply (bool_decide_unpack (124%N ∉ str_bytes "old")).
  - intros k [r ->]. by apply lookup_singleton_ne.
Defined.

(** ** Ids with a bar

    The file ["a"] with the entry ["b|c"] and the file ["a|b"] with the entry
    ["c"] share a key of the index. *)

Definition shared_key_db : @DB mem_db :=
  (register_source (register_source empty_db (demo_ref "a" "b|c")).1 (demo_ref "a|b" "c")).1.

(** Entry ids with the separator of the index break it: both entries are
    found by their files, but after the first file is invalidated the entry
    of the second one, still stored, is not found by its file any more. *)
Theorem bar_in_id_hides_entry :
  get_entries_by_source shared_key_db "a|b" = Ok [demo_ref "a|b" "c"]
  ∧ let d := (invalidate_source shared_key_db "a").1 in
    get_entries_by_source d "a|b" = Ok []
    ∧ load_reference d "c" = Ok (Some (demo_ref "a|b" "c")).
Proof. vm_compute. done. Qed.
