(* ===== verification/RocksCascade.v ===== *)
(** * Cascade invalidation reaches what depends on the symbol

    The search of [cascade_invalidate] over the reverse dependencies stored
    under [symbol_rdep:] ([RocksFreshness]): it ends, its dependents are the
    symbols within [max_depth] reverse dependencies of the changed one, and
    the references of exactly these functions are removed. *)

From stdpp Require Import gmap.
From S2P Require Import Prelude RustStd StrLemmas UuidText Bfs Collections Types ContextAssembly.
From S2P Require Import Rocks RocksThms RocksFreshness RocksFreshnessThms.

Local Open Scope string_scope.
Local Open Scope list_scope.
Local Open Scope pcx.

Section cascade.
Context `{RL : RocksDBLaws} `{PL : ProstLaws SourceReference}.

(** ** The dependency graph of the stored keys *)

Definition deps_under (m : table) (prefix : bytes) : list string :=
  (λ e, from_utf8_lossy (after prefix e.1)) <$> under_prefix prefix m.

(** The symbols recorded as depending on [sym]. *)
Definition rdeps (m : table) (sym : string) : list string :=
  dependency_prefixes sym ≫= deps_under m.

Lemma scan_dependents_ok prefix depth es st :
  scan_dependents prefix depth (Ok <$> es) st
  = Ok (foldl (bfs_visit depth) st ((λ e, from_utf8_lossy (after prefix e.1)) <$> es)).
Proof. revert st. induction es as [|[k v] es IH]; intros st; csimpl; [done|]. apply IH. Qed.

Lemma scan_prefixes_ok d m prefixes depth st :
  db_is d m →
  scan_prefixes d prefixes depth st = Ok (foldl (bfs_visit depth) st (prefixes ≫= deps_under m)).
Proof.
  intros Hd. revert st. induction prefixes as [|p ps IH]; intros st; csimpl; [done|].
  rewrite (db_is_scan d m), scan_dependents_ok by done. simpl. by rewrite IH, foldl_app.
Qed.

Lemma cascade_body_bfs d m max_depth p s :
  db_is d m →
  bfs_body (rdeps m) max_depth p (visited s) = flow_map visited (cascade_body d max_depth p s).
Proof.
  intros Hd. destruct p as [x depth]. unfold bfs_body, cascade_body. simpl fst. simpl snd.
  destruct (decide (max_depth ≤ depth)%nat) as [Hle|Hgt].
  - rewrite (proj2 (Nat.leb_le _ _)) by done. done.
  - rewrite (proj2 (Nat.leb_gt _ _)) by lia. rewrite (scan_prefixes_ok d m) by done.
    fold (rdeps m x). by destruct (foldl _ _ _).
Qed.

(** The search is a breadth-first search. *)
Lemma cascade_search_bfs d m max_depth fuel start :
  db_is d m →
  bfs (rdeps m) max_depth fuel start = visited <$> cascade_search d max_depth fuel start.
Proof.
  intros Hd. unfold bfs, cascade_search.
  pose proof (while_pop_map (cascade_body d max_depth) (bfs_body (rdeps m) max_depth) visited (λ _, True)
    (λ p s _, conj (cascade_body_bfs d m max_depth p s Hd) (λ _ _ _ _ _, I))
    fuel [(start, 0%nat)] (mkCascade {[start]} [] None) (λ _ _, I)) as Hmap.
  exact Hmap.
Qed.

(** ** Termination *)

(** Every symbol the search can meet is the end of a key. *)
Definition key_ends (m : table) : list string :=
  map_to_list m ≫= λ e, (λ n, from_utf8_lossy (str_of_bytes (drop n (str_bytes e.1))))
                          <$> seq 0 (S (str_len e.1)).

Definition cascade_fuel (m : table) : nat := S (length (key_ends m)).

Lemma rdeps_key_ends m x y : y ∈ rdeps m x → y ∈ key_ends m.
Proof.
  unfold rdeps. rewrite list_elem_of_bind. intros (p & Hy & _).
  apply list_elem_of_fmap in Hy as ([k v] & -> & [[r ->] Hk]%elem_of_under_prefix).
  unfold key_ends. rewrite list_elem_of_bind. exists (p +:+ r, v).
  split; [|by apply elem_of_map_to_list]. apply list_elem_of_fmap.
  exists (str_len p). split; [done|]. apply elem_of_seq. cbn [fst]. rewrite str_len_app. lia.
Qed.

Lemma cascade_search_terminates d m max_depth start fuel :
  db_is d m → (cascade_fuel m ≤ fuel)%nat → is_Some (cascade_search d max_depth fuel start).
Proof.
  intros Hd Hfuel. apply (fmap_is_Some visited). rewrite <-(cascade_search_bfs d m) by done.
  apply (bfs_terminates _ _ (list_to_set (start :: key_ends m))).
  - apply elem_of_list_to_set. by left.
  - intros x y _ Hy. apply elem_of_list_to_set. right. by eapply rdeps_key_ends.
  - etrans; [apply size_list_to_set_le|]. done.
Qed.

(** ** The dependents *)

(** The symbols in the queue that were found as dependents. *)
Definition pending (q : list (string * nat)) : list string :=
  (filter (λ p, 0 < p.2)%nat q).*1.

Record cascade_inv (start : string) (q : list (string * nat)) (s : cascade) : Prop := {
  ci_ok : failed s = None;
  ci_nodup : NoDup (dependents s ++ pending q);
  ci_start : start ∉ dependents s ++ pending q;
  ci_visited x : x ∈ visited s ↔ x = start ∨ x ∈ dependents s ++ pending q;
  ci_zero x : (x, 0%nat) ∈ q → x = start;
}.

Lemma pending_app q q' : pending (q ++ q') = pending q ++ pending q'.
Proof. unfold pending. by rewrite filter_app, fmap_app. Qed.

Lemma pending_pushed depth ys : pending ((λ y, (y, (depth + 1)%nat)) <$> ys) = ys.
Proof.
  induction ys as [|y ys IH]; [done|]. unfold pending in *. csimpl.
  rewrite filter_cons_True by (simpl; lia). csimpl. by rewrite IH.
Qed.

Lemma pending_cons x depth q :
  pending ((x, depth) :: q) = (if (0 <? depth)%nat then [x] else []) ++ pending q.
Proof.
  unfold pending. rewrite filter_cons. simpl. destruct (Nat.ltb_spec 0 depth).
  - by rewrite decide_True.
  - by rewrite decide_False by lia.
Qed.

(** Taking a symbol from the queue moves it to the dependents. *)
Lemma cascade_inv_pop start x depth q s :
  cascade_inv start ((x, depth) :: q) s →
  cascade_inv start q (mkCascade (visited s) (if (0 <? depth)%nat then dependents s ++ [x] else dependents s) (failed s)).
Proof.
  intros [Hok Hnd Hst Hv Hz].
  assert ((if (0 <? depth)%nat then dependents s ++ [x] else dependents s) ++ pending q
          = dependents s ++ pending ((x, depth) :: q)) as Heq.
  { rewrite pending_cons. destruct (0 <? depth)%nat; [by rewrite <-app_assoc|done]. }
  split; cbn [dependents visited failed]; rewrite ?Heq; [done..|].
  intros y Hy. apply Hz. by right.
Qed.

Lemma cascade_inv_step d m max_depth start p q s s' ps :
  db_is d m → cascade_inv start (p :: q) s → cascade_body d max_depth p s = Continue s' ps →
  cascade_inv start (q ++ ps) s'.
Proof.
  intros Hd Hinv Hb. destruct p as [x depth]. apply cascade_inv_pop in Hinv as Hpop.
  unfold cascade_body in Hb. destruct (max_depth <=? depth)%nat.
  { injection Hb as <- <-. by rewrite app_nil_r. }
  rewrite (scan_prefixes_ok d m) in Hb by done.
  set (found := if (0 <? depth)%nat then _ else _) in *.
  destruct (bfs_visit_fold (rdeps m) depth (dependency_prefixes x ≫= deps_under m) (visited s) [])
    as (new & Hfold & Hnew & Hin).
  rewrite Hfold in Hb. injection Hb as <- <-. destruct Hpop as [Hok Hnd Hst Hv Hz]. simpl in *.
  assert (∀ y, y ∈ new → (y ∉ (found ++ pending q)) ∧ y ≠ start) as Hfresh.
  { intros y Hy. apply Hin in Hy as [_ Hy]. rewrite Hv in Hy. tauto. }
  split; simpl; rewrite ?pending_app, ?pending_pushed, ?app_assoc; [done|..].
  - apply NoDup_app. split_and!; [done| |done]. intros y Hy Hy'. by apply Hfresh in Hy' as [? _].
  - rewrite elem_of_app. intros [?|Hy]; [done|]. by apply Hfresh in Hy as [_ ?].
  - intros y. rewrite elem_of_union, elem_of_list_to_set, Hv.
    rewrite (elem_of_app (found ++ pending q) new). tauto.
  - intros y [Hy|Hy]%elem_of_app; [by apply Hz|].
    apply list_elem_of_fmap in Hy as (z & [= -> Heq] & _). lia.
Qed.

(** The dependents the search reports are the other symbols within
    [max_depth] reverse dependencies, each once. *)
Lemma cascade_search_spec d m max_depth start fuel :
  db_is d m → (cascade_fuel m ≤ fuel)%nat →
  ∃ s, cascade_search d max_depth fuel start = Some s ∧ failed s = None ∧ NoDup (dependents s)
    ∧ ∀ y, y ∈ dependents s ↔ y ≠ start ∧ within (rdeps m) start max_depth y.
Proof.
  intros Hd Hfuel. destruct (cascade_search_terminates d m max_depth start fuel Hd Hfuel) as [s Hs].
  exists s. split; [done|].
  assert (cascade_inv start [] s) as [Hok Hnd Hst Hv _].
  { unfold cascade_search in Hs.
    eapply (while_pop_inv (cascade_body d max_depth) (cascade_inv start) (cascade_inv start []));
      [done|by eauto using cascade_inv_step| | |exact Hs].
    - intros [x depth] q s1 s2 _ Hb. unfold cascade_body in Hb.
      destruct (max_depth <=? depth)%nat; [done|]. rewrite (scan_prefixes_ok d m) in Hb by done.
      by destruct (foldl _ _ _).
    - split; simpl; [done|constructor|by intros ?%elem_of_nil|..].
      + intros x. rewrite elem_of_singleton, elem_of_nil. tauto.
      + by intros x [= ->]%list_elem_of_singleton. }
  unfold pending in Hnd, Hst, Hv. simpl in Hnd, Hst, Hv. rewrite app_nil_r in Hnd, Hst, Hv.
  split_and!; [done..|]. intros y.
  assert (bfs (rdeps m) max_depth fuel start = Some (visited s)) as Hbfs.
  { by rewrite (cascade_search_bfs d m), Hs. }
  rewrite <-(bfs_visited _ _ _ _ _ _ Hbfs), Hv. split.
  - intros Hy. split; [|by right]. by intros ->.
  - by intros [? [?|?]].
Qed.

(** ** The references removed *)

(** The symbol a reference stands for. *)
Definition reference_symbol (r : SourceReference) : option string :=
  (λ name, src_file_path r +:+ "::" +:+ name) <$> function_name r.

Definition is_direct (changed_key : string) (r : SourceReference) : bool :=
  match reference_symbol r with Some k => String.eqb k changed_key | None => false end.

Definition is_cascaded (changed_key : string) (deps : gset string) (r : SourceReference) : bool :=
  match reference_symbol r with
  | Some k => negb (String.eqb k changed_key) && bool_decide (k ∈ deps)
  | None => false
  end.

Definition is_hit (changed_key : string) (deps : gset string) (r : SourceReference) : bool :=
  is_direct changed_key r || is_cascaded changed_key deps r.

Lemma u32_add_count a n : (u32_add (u32_add a 1) n = u32_add a (1 + n))%N.
Proof. unfold u32_add. rewrite N.Div0.add_mod_idemp_l. f_equal. lia. Qed.

Lemma retain_cons {A} (p : A → bool) x l :
  retain p (x :: l) = if p x then x :: retain p l else retain p l.
Proof.
  unfold retain. rewrite filter_cons. destruct (p x) eqn:Hp.
  - by rewrite decide_True.
  - by rewrite decide_False by congruence.
Qed.

Lemma invalidate_references_cons ck deps r rs a b batch :
  invalidate_references ck deps (r :: rs) (a, b, batch)
  = invalidate_references ck deps rs
      (if is_direct ck r then (u32_add a 1, b, batch ++ delete_reference r)
       else if is_cascaded ck deps r then (a, u32_add b 1, batch ++ delete_reference r)
       else (a, b, batch)).
Proof.
  cbn [invalidate_references]. unfold is_direct, is_cascaded, reference_symbol.
  destruct (function_name r) as [name|]; simpl; [|done].
  destruct (String.eqb _ ck); simpl; [done|].
  destruct (decide (_ ∈ deps)) as [Hin|Hno]; [by rewrite bool_decide_true|by rewrite bool_decide_false].
Qed.

(** What a list of references adds to the counters and the batch. *)
Lemma invalidate_references_spec ck deps rs a b batch :
  (a < u32_mod)%N → (b < u32_mod)%N →
  invalidate_references ck deps rs (a, b, batch)
  = (u32_add a (N.of_nat (length (retain (is_direct ck) rs))),
     u32_add b (N.of_nat (length (retain (is_cascaded ck deps) rs))),
     batch ++ (retain (is_hit ck deps) rs ≫= delete_reference)).
Proof.
  assert (∀ x y, u32_add x y < u32_mod)%N as Hlt by (intros; by apply N.mod_lt).
  assert (∀ x, (x < u32_mod)%N → u32_add x 0 = x) as Hzero.
  { intros x Hx. unfold u32_add. rewrite N.add_0_r. by apply N.mod_small. }
  revert a b batch. induction rs as [|r rs IH]; intros a b batch Ha Hb.
  - unfold retain. simpl. by rewrite !Hzero, app_nil_r.
  - rewrite invalidate_references_cons, !retain_cons. unfold is_hit at 1.
    assert (is_direct ck r = true → is_cascaded ck deps r = false) as Hexcl.
    { unfold is_direct, is_cascaded. destruct (reference_symbol r); [|done]. by intros ->. }
    destruct (is_direct ck r); [|destruct (is_cascaded ck deps r)]; simpl.
    + rewrite Hexcl, IH by done. rewrite u32_add_count, <-app_assoc. do 3 f_equal. lia.
    + rewrite IH by done. rewrite u32_add_count, <-app_assoc. do 3 f_equal. f_equal. lia.
    + by apply IH.
Qed.

Lemma invalidate_references_app ck deps rs rs' st :
  invalidate_references ck deps (rs ++ rs') st
  = invalidate_references ck deps rs' (invalidate_references ck deps rs st).
Proof.
  revert st. induction rs as [|r rs IH]; intros st; [done|].
  simpl. destruct st as [[a b] batch]. apply IH.
Qed.

Lemma invalidate_files_ok d m refs ck deps files st :
  db_is d m → fresh_store m refs →
  invalidate_files d ck deps files st
  = Ok (invalidate_references ck deps (files ≫= λ f, file_refs f refs) st).
Proof.
  intros Hd Hm. revert st. induction files as [|f fs IH]; intros st; [done|].
  csimpl. rewrite (references_for_file_ok d m refs) by done. simpl.
  by rewrite IH, invalidate_references_app.
Qed.

(** The references of the files looked at, each once. *)
Lemma file_refs_NoDup m refs files :
  fresh_store m refs → NoDup files → NoDup (files ≫= λ f, file_refs f refs).
Proof.
  intros Hm Hnd. apply NoDup_bind; [| |done].
  - intros f1 f2 r _ _ [_ <-]%(elem_of_file_refs m) [_ <-]%(elem_of_file_refs m); done.
  - intros f _. destruct (file_refs_ids m refs f Hm) as [_ Hids]. by eapply NoDup_fmap_1.
Qed.

Lemma values_NoDup m refs : fresh_store m refs → NoDup (btree_values refs).
Proof.
  intros Hm. eapply (NoDup_fmap_1 src_entry_id).
  assert (src_entry_id <$> btree_values refs = (btree_iter refs).*1) as ->; [|apply btree_iter_keys_NoDup].
  unfold btree_values. rewrite <-list_fmap_compose. apply list_fmap_ext.
  intros i [id r] Hin%list_elem_of_lookup_2%elem_of_btree_iter.
  by destruct (fr_id _ _ Hm _ _ Hin) as [? _].
Qed.

(** If every hit lies in one of the files, looking at the files is as good as
    looking at everything. *)
Lemma retain_files m refs files (p : SourceReference → bool) :
  fresh_store m refs → NoDup files →
  (∀ r, r ∈ btree_values refs → p r = true → src_file_path r ∈ files) →
  retain p (files ≫= λ f, file_refs f refs) ≡ₚ retain p (btree_values refs).
Proof.
  intros Hm Hnd Hfiles. apply NoDup_Permutation.
  - unfold retain. by apply NoDup_filter, (file_refs_NoDup m).
  - unfold retain. by apply NoDup_filter, (values_NoDup m).
  - intros r. rewrite !elem_of_retain, list_elem_of_bind. split.
    + intros [(f & Hr & _) Hp]. split; [|done]. by apply list_elem_of_filter in Hr as [_ ?].
    + intros [Hr Hp]. split; [|done]. exists (src_file_path r). split; [|by apply Hfiles].
      by apply list_elem_of_filter.
Qed.

(** Paths that can be read back from a symbol key. *)
Definition path_readable (r : SourceReference) : Prop :=
  ∀ k, reference_symbol r = Some k → before_colons k = Some (src_file_path r).

(** The files looked at cover the hits. *)
Lemma hits_in_files changed deps refs r :
  path_readable r → before_colons (symbol_key changed) = Some (sym_file_path changed) →
  r ∈ btree_values refs → is_hit (symbol_key changed) (list_to_set deps) r = true →
  src_file_path r ∈ cascade_files changed deps.
Proof.
  intros Hpath Hchanged _ Hhit. apply elem_of_btree_set.
  unfold is_hit, is_direct, is_cascaded, path_readable in *.
  destruct (reference_symbol r) as [k|]; [|done]. specialize (Hpath k eq_refl).
  destruct (String.eqb_spec k (symbol_key changed)) as [Heq|Hne]; simpl in Hhit.
  - rewrite Heq, Hchanged in Hpath. injection Hpath as <-. by left.
  - apply bool_decide_eq_true, elem_of_list_to_set in Hhit. right.
    apply list_elem_of_omap. by exists k.
Qed.

(** A hit is a reference of a symbol reached. *)
Lemma is_hit_reached m ck max_depth deps r :
  (∀ y, y ∈ deps ↔ y ≠ ck ∧ within (rdeps m) ck max_depth y) →
  is_hit ck (list_to_set deps) r = true ↔
  ∃ k, reference_symbol r = Some k ∧ within (rdeps m) ck max_depth k.
Proof.
  intros Hdeps. unfold is_hit, is_direct, is_cascaded.
  destruct (reference_symbol r) as [k|]; [|by split; [|intros (? & ? & _)]].
  destruct (String.eqb_spec k ck) as [->|Hne]; simpl.
  - split; [|done]. intros _. exists ck. split; [done|constructor].
  - rewrite bool_decide_eq_true, elem_of_list_to_set, Hdeps. split.
    + intros [_ Hw]. by exists k.
    + by intros (? & [= <-] & Hw).
Qed.

Lemma elem_of_values m refs r :
  fresh_store m refs → r ∈ btree_values refs ↔ refs !! src_entry_id r = Some r.
Proof.
  intros Hm. rewrite elem_of_btree_values. split; [|by eexists].
  intros [id Hr]. by destruct (fr_id _ _ Hm _ _ Hr) as [-> _].
Qed.

(** The cascade in terms of the keys the lookup finds. *)
Lemma cascade_by_key d m refs changed max_depth fuel :
  db_is d m → fresh_store m refs → (cascade_fuel m ≤ fuel)%nat →
  (∀ id r, refs !! id = Some r → path_readable r) →
  before_colons (symbol_key changed) = Some (sym_file_path changed) →
  let reached := within (rdeps m) (symbol_key changed) max_depth in
  ∃ d' m' refs' deps,
    cascade_invalidate fuel d changed max_depth = Some (d', Ok (mkCascadeReport
      (N.of_nat (length (retain (is_direct (symbol_key changed)) (btree_values refs))) `mod` u32_mod)%N
      (N.of_nat (length (retain (is_cascaded (symbol_key changed) (list_to_set deps))
                                (btree_values refs))) `mod` u32_mod)%N
      deps))
    ∧ db_is d' m' ∧ fresh_store m' refs' ∧ only_in fresh_families m m'
    ∧ NoDup deps ∧ (∀ y, y ∈ deps ↔ y ≠ symbol_key changed ∧ reached y)
    ∧ ∀ id r, refs' !! id = Some r ↔
        refs !! id = Some r ∧ ¬ ∃ k, reference_symbol r = Some k ∧ reached k.
Proof.
  intros Hd Hm Hfuel Hreadable Hchanged reached. pose proof (hits_in_files changed) as Hfiles.
  set (ck := symbol_key changed) in *.
  destruct (cascade_search_spec d m max_depth ck fuel Hd Hfuel) as (s & Hs & Hok & Hnd & Hdeps).
  set (deps := dependents s) in *. set (files := cascade_files changed deps).
  assert (∀ p, (∀ r, p r = true → is_hit ck (list_to_set deps) r = true) →
    retain p (files ≫= λ f, file_refs f refs) ≡ₚ retain p (btree_values refs)) as Hall.
  { intros p Hp. apply (retain_files m); [done|apply btree_set_NoDup|]. intros r Hr Hpr.
    apply (Hfiles deps refs); [|done..|by apply Hp].
    apply elem_of_btree_values in Hr as [id Hr]. by eapply Hreadable. }
  set (hits := retain (is_hit ck (list_to_set deps)) (files ≫= λ f, file_refs f refs)).
  assert (∀ r, r ∈ hits ↔ refs !! src_entry_id r = Some r
            ∧ ∃ k, reference_symbol r = Some k ∧ reached k) as Hhits.
  { intros r. unfold hits. rewrite (Hall (is_hit ck (list_to_set deps)) (λ r Hr, Hr)).
    by rewrite elem_of_retain, (elem_of_values m), (is_hit_reached m ck max_depth). }
  pose proof (Permutation_length (Hall (is_direct ck) ltac:(intros r Hr; unfold is_hit; by rewrite Hr))) as Hdirect.
  pose proof (Permutation_length (Hall (is_cascaded ck (list_to_set deps))
    ltac:(intros r Hr; unfold is_hit; by rewrite Hr, orb_true_r))) as Hcascaded.
  destruct (db_is_write d m (hits ≫= delete_reference) Hd) as (d' & Hw & Hd').
  exists d', (apply_batch (hits ≫= delete_reference) m), (without (src_entry_id <$> hits) refs), deps.
  split_and!; [|done| |apply only_in_batch, deletions_families|done..|].
  - unfold cascade_invalidate. fold ck. rewrite Hs. cbn [mbind option_bind]. rewrite Hok. fold deps files.
    rewrite (invalidate_files_ok d m refs), invalidate_references_spec by done.
    fold hits. simpl app. rewrite Hw, Hdirect, Hcascaded. unfold u32_add. by rewrite !N.add_0_l.
  - apply delete_references_effect; [done|]. by intros r [? _]%Hhits.
  - intros id r. unfold without. rewrite map_lookup_filter_Some. simpl.
    split; intros [Hr Hno]; (split; [done|]); destruct (fr_id _ _ Hm _ _ Hr) as [Hid _].
    + intros Hk. apply Hno, list_elem_of_fmap. exists r. split; [done|]. apply Hhits. by rewrite Hid.
    + intros (x & Heq & [Hx Hk]%Hhits)%list_elem_of_fmap. rewrite <-Heq, Hr in Hx. by simplify_eq.
Qed.

(** ** Recording dependencies *)

Definition is_put (op : batch_op) : Prop := match op with BatchPut _ _ => True | BatchDelete _ => False end.

Lemma puts_is_Some b (m : table) k :
  Forall is_put b → is_Some (apply_batch b m !! k) ↔ is_Some (m !! k) ∨ k ∈ op_key <$> b.
Proof.
  intros Hb. revert m. induction Hb as [|op b Hop Hb IH]; intros m; csimpl in *.
  - rewrite elem_of_nil. tauto.
  - rewrite IH, elem_of_cons. destruct op as [k' v|]; [|done]. simpl.
    destruct (decide (k = k')) as [->|Hne]; [rewrite lookup_insert_eq; split; [by right; left|by left; eexists]|].
    rewrite lookup_insert_ne by done. naive_solver.
Qed.

Lemma dependency_batch_puts from tos : Forall is_put (tos ≫= dependency_batch from).
Proof.
  apply Forall_forall. intros op (to & Hop & _)%list_elem_of_bind. unfold dependency_batch in Hop.
  destruct (String.eqb (sym_file_path to) "");
    repeat (apply elem_of_cons in Hop as [->|Hop]; [done|]); by apply elem_of_nil in Hop.
Qed.

(** A symbol: its file, empty if unknown, and its name. *)
Abbreviation symbol := (string * string)%type (only parsing).

Definition sym_of (s : SymbolId) : symbol := (sym_file_path s, sym_symbol_name s).
Definition sym_key (x : symbol) : string := x.1 +:+ "::" +:+ x.2.

(** The key falls apart into file and name: neither holds a [::], and no [|]
    could be taken for the separator of the keys. *)
Definition plain_symbol (x : symbol) : Prop :=
  split_colons (str_bytes (sym_key x)) = [str_bytes x.1; str_bytes x.2]
  ∧ no_bar (sym_key x) ∧ well_formed (sym_key x).

Definition rdep_key (to_key from_key : string) : bytes := "symbol_rdep:" +:+ to_key +:+ "|" +:+ from_key.

(** The store holds the dependencies [(from, to)] of [D]. *)
Record dep_store (m : table) (D : gset (symbol * symbol)) : Prop := {
  ds_plain from to : (from, to) ∈ D → plain_symbol from ∧ plain_symbol to;
  ds_keys key : family key = "symbol_rdep" →
    is_Some (m !! key) ↔ ∃ from to, (from, to) ∈ D
      ∧ (key = rdep_key (sym_key to) (sym_key from) ∨ key = rdep_key ("::" +:+ to.2) (sym_key from));
}.

(** Who recorded a dependency on [x], and who recorded one on a symbol of its
    name, in whatever file. *)
Definition recorded_dependents (D : gset (symbol * symbol)) (x : symbol) : list symbol :=
  (filter (λ p, p.2 = x) (elements D)).*1.
Definition dependents_by_name (D : gset (symbol * symbol)) (x : symbol) : list symbol :=
  (filter (λ p, p.2.2 = x.2) (elements D)).*1.

Lemma elem_of_by_name D x y : y ∈ dependents_by_name D x ↔ ∃ to, (y, to) ∈ D ∧ to.2 = x.2.
Proof.
  unfold dependents_by_name. rewrite list_elem_of_fmap. setoid_rewrite list_elem_of_filter.
  setoid_rewrite elem_of_elements. split.
  - intros ([from to] & -> & ? & ?). by exists to.
  - intros (to & Hin & Hn). by exists (y, to).
Qed.

Lemma recorded_by_name D x k y :
  within (recorded_dependents D) x k y → within (dependents_by_name D) x k y.
Proof.
  induction 1 as [|k z y _ IH Hy]; [constructor|]. apply within_step with z; [done|].
  unfold recorded_dependents in Hy. apply list_elem_of_fmap in Hy as ([from to] & -> & [Heq Hin]%list_elem_of_filter).
  simpl in Heq. subst to. apply elem_of_by_name. exists z. split; [|done]. by apply elem_of_elements.
Qed.

Lemma sym_key_inj x y : plain_symbol x → plain_symbol y → sym_key x = sym_key y → x = y.
Proof.
  intros (Hx & _) (Hy & _) Heq. rewrite Heq, Hy in Hx. destruct x, y. simpl in Hx.
  by injection Hx as <-%(inj str_bytes) <-%(inj str_bytes).
Qed.

Lemma plain_name_key x : plain_symbol x → last_segment (sym_key x) = x.2.
Proof. intros (Hx & _). unfold last_segment. rewrite Hx. simpl. apply str_of_bytes_bytes. Qed.

Lemma split_colons_two n : split_colons (58%N :: 58%N :: n) = [] :: split_colons n.
Proof. done. Qed.

Lemma split_colons_parts bs :
  Forall (λ w, split_colons w = [w]) (split_colons bs)
  ∧ ∃ w ws, split_colons bs = w :: ws ∧ (w = [] ∨ head w = head bs).
Proof.
  induction bs as [bs IH] using (induction_ltof1 _ (@length N)). unfold ltof in IH.
  destruct bs as [|b [|c r]].
  - split; [by apply Forall_singleton|]. exists [], []. by split; [|left].
  - split; [by apply Forall_singleton|]. exists [b], []. by split; [|right].
  - simpl. destruct ((b =? 58) && (c =? 58))%N eqn:Hbc.
    + destruct (IH r) as [Hr _]; [simpl; lia|]. split; [by constructor|]. exists [], (split_colons r). by split; [|left].
    + destruct (IH (c :: r)) as [Hr (w & ws & Heq & Hw)]; [simpl; lia|].
      change (match r with [] => [[c]] | _ :: _ => _ end) with (split_colons (c :: r)). rewrite Heq in *.
      apply Forall_cons in Hr as [Hw1 Hws]. split; [|exists (b :: w), ws; by split; [|right]].
      constructor; [|done]. destruct w as [|x w]; [done|]. destruct Hw as [|Hx]; [done|]. simpl in Hx.
      injection Hx as ->. change (split_colons (b :: c :: w)) with
        (if ((b =? 58) && (c =? 58))%N then [] :: split_colons w
         else match split_colons (c :: w) with w :: ws => (b :: w) :: ws | [] => [[b]] end).
      by rewrite Hbc, Hw1.
Qed.

Lemma split_colons_short a b bs : split_colons bs = [a; b] → split_colons b = [b].
Proof.
  intros Heq. destruct (split_colons_parts bs) as [Hparts _]. rewrite Heq in Hparts.
  by apply Forall_cons in Hparts as [_ [? _]%Forall_cons].
Qed.

(** The name after [::] alone is the name. *)
Lemma last_segment_name x : plain_symbol x → last_segment ("::" +:+ x.2) = x.2.
Proof.
  intros (Hx & _). unfold last_segment. rewrite str_bytes_app. change (str_bytes "::") with [58; 58]%N.
  cbn [app]. rewrite split_colons_two, (split_colons_short _ _ _ Hx). simpl. apply str_of_bytes_bytes.
Qed.

(** The reverse dependencies a batch writes. *)
Lemma rdep_ops from tos key :
  family key = "symbol_rdep" →
  key ∈ op_key <$> (tos ≫= dependency_batch from)
  ↔ ∃ to, to ∈ tos ∧ (key = rdep_key (sym_key (sym_of to)) (sym_key (sym_of from))
                     ∨ key = rdep_key ("::" +:+ sym_symbol_name to) (sym_key (sym_of from))).
Proof.
  intros Hkey. rewrite list_elem_of_fmap. setoid_rewrite list_elem_of_bind. unfold dependency_batch. split.
  - intros (op & -> & to & Hop & Hto). exists to. split; [done|]. unfold sym_key, sym_of, rdep_key. simpl.
    apply elem_of_cons in Hop as [->|Hop]; [done|]. apply elem_of_cons in Hop as [->|Hop]; simpl in *.
    + destruct (String.eqb_spec (sym_file_path to) "") as [->|]; by left.
    + destruct (String.eqb_spec (sym_file_path to) ""); [by apply elem_of_nil in Hop|].
      apply list_elem_of_singleton in Hop as ->. by right.
  - intros (to & Hto & Hk). unfold sym_key, sym_of, rdep_key in Hk. simpl in Hk.
    destruct (String.eqb_spec (sym_file_path to) "") as [Hfile|Hfile].
    + exists (BatchPut ("symbol_rdep:" +:+ ("::" +:+ sym_symbol_name to) +:+ "|" +:+ symbol_key from) (sym_symbol_type from)).
      split; [destruct Hk as [->| ->]; [by rewrite Hfile|done]|]. exists to. split; [|done].
      rewrite (proj2 (String.eqb_eq _ _) Hfile). by right; left.
    + destruct Hk as [->| ->].
      * eexists (BatchPut _ (sym_symbol_type from)). split; [reflexivity|]. exists to. split; [|done].
        rewrite (proj2 (String.eqb_neq _ _) Hfile). by right; left.
      * exists (BatchPut ("symbol_rdep:::" +:+ sym_symbol_name to +:+ "|" +:+ symbol_key from) (sym_symbol_type from)).
        split; [done|]. exists to. split; [|done].
        rewrite (proj2 (String.eqb_neq _ _) Hfile). by right; right; left.
Qed.

Lemma no_bar_name x : plain_symbol x → no_bar ("::" +:+ x.2).
Proof.
  intros (_ & Hx & _). unfold no_bar, sym_key in *. rewrite !str_bytes_app in *. set_solver.
Qed.

(** The key up to the separator. *)
Lemma rdep_prefix_inj K K' r r' : no_bar K → no_bar K' → rdep_key K r = rdep_key K' r' → K = K'.
Proof.
  intros HK HK' Heq%(f_equal str_bytes). unfold rdep_key in Heq. rewrite !str_bytes_app in Heq.
  apply (inj (app (str_bytes "symbol_rdep:"))) in Heq. apply (inj str_bytes).
  unfold no_bar in *. revert Heq HK HK'. generalize (str_bytes K) (str_bytes K').
  induction l as [|b l IH]; intros [|b' l'] Heq HK HK'; simplify_eq/=; set_solver.
Qed.

(** What the keys below a prefix of the lookup name. *)
Lemma deps_under_spec m D K F :
  dep_store m D → no_bar K →
  F ∈ deps_under m ("symbol_rdep:" +:+ K +:+ "|")
  ↔ ∃ from to, (from, to) ∈ D ∧ F = sym_key from ∧ (K = sym_key to ∨ K = "::" +:+ to.2).
Proof.
  intros Hm HK. unfold deps_under. rewrite list_elem_of_fmap. split.
  - intros ([key v] & -> & [[r ->] Hv]%elem_of_under_prefix). cbn [fst]. rewrite after_app.
    assert (("symbol_rdep:" +:+ K +:+ "|") +:+ r = rdep_key K r) as Hkey by by unfold rdep_key; rewrite !str_app_assoc.
    rewrite Hkey in Hv.
    destruct (proj1 (ds_keys _ _ Hm (rdep_key K r) eq_refl) (mk_is_Some _ _ Hv)) as (from & to & Hin & Heq).
    destruct (ds_plain _ _ Hm _ _ Hin) as [Hf Ht]. exists from, to. split; [done|].
    assert (rdep_key K r = rdep_key K (sym_key from) → from_utf8_lossy r = sym_key from) as Hr.
    { unfold rdep_key. intros He%(f_equal str_bytes). rewrite !str_bytes_app in He.
      apply (inj (app (str_bytes "symbol_rdep:"))), (inj (app (str_bytes K))), (inj (app (str_bytes "|"))), (inj str_bytes) in He.
      subst r. by destruct Hf as (_ & _ & Hw). }
    destruct Heq as [Heq|Heq].
    + assert (K = sym_key to) as ->; [|split; [by apply Hr|by left]].
      eapply (rdep_prefix_inj K (sym_key to)); [done|by destruct Ht as (_ & ? & _)|exact Heq].
    + assert (K = "::" +:+ to.2) as ->; [|split; [by apply Hr|by right]].
      eapply (rdep_prefix_inj K ("::" +:+ to.2)); [done|by apply no_bar_name|exact Heq].
  - intros (from & to & Hin & -> & HK'). destruct (ds_plain _ _ Hm _ _ Hin) as [Hf Ht].
    assert (is_Some (m !! rdep_key K (sym_key from))) as [v Hv].
    { apply (ds_keys _ _ Hm); [done|]. exists from, to. split; [done|]. by destruct HK' as [->| ->]; [left|right]. }
    exists (rdep_key K (sym_key from), v).
    assert (rdep_key K (sym_key from) = ("symbol_rdep:" +:+ K +:+ "|") +:+ sym_key from) as Hkey
      by by unfold rdep_key; rewrite !str_app_assoc.
    split; [cbn [fst]; rewrite Hkey, after_app; by destruct Hf as (_ & _ & ->)|].
    apply elem_of_under_prefix. split; [rewrite Hkey; by eexists|done].
Qed.

Lemma rdeps_spec m D x F :
  dep_store m D → plain_symbol x →
  F ∈ rdeps m (sym_key x) ↔ ∃ y, y ∈ dependents_by_name D x ∧ F = sym_key y.
Proof.
  intros Hm Hx. unfold rdeps, dependency_prefixes. rewrite plain_name_key by done.
  rewrite list_elem_of_bind. split.
  - intros (p & HF & Hp). setoid_rewrite elem_of_by_name.
    assert (∃ from to, (from, to) ∈ D ∧ F = sym_key from ∧ to.2 = x.2) as (from & to & Hin & -> & Hn);
      [|by exists from; split; [exists to|]].
    apply elem_of_cons in Hp as [->|Hp%list_elem_of_singleton].
    + apply (deps_under_spec m D) in HF as (from & to & Hin & -> & HK); [|done|by destruct Hx as (_ & ? & _)].
      exists from, to. split_and!; [done..|]. destruct (ds_plain _ _ Hm _ _ Hin) as [_ Ht].
      destruct HK as [HK|HK]; [by rewrite (sym_key_inj x to)|].
      transitivity (last_segment (sym_key x)); [|by apply plain_name_key]. rewrite HK. symmetry. by apply last_segment_name.
    + subst p. change ("symbol_rdep:::" +:+ x.2 +:+ "|") with ("symbol_rdep:" +:+ ("::" +:+ x.2) +:+ "|") in HF.
      apply (deps_under_spec m D) in HF as (from & to & Hin & -> & HK); [|done|by apply no_bar_name].
      exists from, to. split_and!; [done..|]. destruct (ds_plain _ _ Hm _ _ Hin) as [_ Ht].
      destruct HK as [HK|HK].
      * transitivity (last_segment (sym_key to)); [symmetry; by apply plain_name_key|]. rewrite <-HK. by apply last_segment_name.
      * apply (f_equal str_bytes) in HK. rewrite !str_bytes_app in HK.
        by apply (inj (app (str_bytes "::"))), (inj str_bytes) in HK.
  - intros (y & (to & Hin & Hn)%elem_of_by_name & ->).
    exists ("symbol_rdep:::" +:+ x.2 +:+ "|"). split; [|by right; left].
    change ("symbol_rdep:::" +:+ x.2 +:+ "|") with ("symbol_rdep:" +:+ ("::" +:+ x.2) +:+ "|").
    apply (deps_under_spec m D); [done|by apply no_bar_name|]. exists y, to. split_and!; [done..|].
    right. by rewrite Hn.
Qed.

Lemma within_plain m D c k y :
  dep_store m D → plain_symbol c → within (dependents_by_name D) c k y → plain_symbol y.
Proof.
  intros Hm Hc. induction 1 as [|k z y _ _ (to & Hin & _)%elem_of_by_name]; [done|].
  by destruct (ds_plain _ _ Hm _ _ Hin).
Qed.

(** The search over keys is one over symbols. *)
Lemma within_rdeps m D c k F :
  dep_store m D → plain_symbol c →
  within (rdeps m) (sym_key c) k F ↔ ∃ y, within (dependents_by_name D) c k y ∧ F = sym_key y.
Proof.
  intros Hm Hc. split.
  - induction 1 as [|k z F _ IH HF].
    + exists c. split; [constructor|done].
    + destruct IH as (x & Hx & ->). apply (rdeps_spec m D) in HF as (y & Hy & ->); [|done|by eapply within_plain].
      exists y. split; [by eapply within_step|done].
  - intros (y & Hw & ->). induction Hw as [|k x y Hx IH Hy]; [constructor|].
    apply within_step with (sym_key x); [done|]. apply (rdeps_spec m D); [done|by eapply within_plain|by exists y].
Qed.

(** Recording dependencies adds them to the set. *)
Lemma register_dependencies_spec d m D from tos :
  db_is d m → dep_store m D → plain_symbol (sym_of from) → Forall (λ to, plain_symbol (sym_of to)) tos →
  ∃ d' m', register_symbol_dependencies d from tos = (d', Ok (N.of_nat (length tos) `mod` u32_mod)%N)
    ∧ db_is d' m' ∧ only_in ["symbol_dep"; "symbol_rdep"] m m'
    ∧ dep_store m' (list_to_set ((λ to, (sym_of from, sym_of to)) <$> tos) ∪ D).
Proof.
  intros Hd Hm Hfrom Htos. unfold register_symbol_dependencies.
  edestruct (db_is_write d m) as (d' & -> & Hd'); [done|]. exists d'. eexists.
  split_and!; [done|exact Hd'| |split].
  - apply only_in_batch, Forall_forall. intros op (to & Hop & _)%list_elem_of_bind.
    unfold dependency_batch in Hop. destruct (String.eqb (sym_file_path to) "");
      repeat (apply elem_of_cons in Hop as [->|Hop]; [by (left || (right; left))|]);
      by apply elem_of_nil in Hop.
  - intros f t. rewrite elem_of_union, elem_of_list_to_set, list_elem_of_fmap.
    intros [(to & [= -> ->] & Hto)|Hin]; [|by eapply ds_plain].
    rewrite Forall_forall in Htos. by split; [|apply Htos].
  - intros key Hkey. rewrite puts_is_Some by apply dependency_batch_puts.
    rewrite (ds_keys _ _ Hm key Hkey), rdep_ops by done.
    setoid_rewrite elem_of_union. setoid_rewrite elem_of_list_to_set. setoid_rewrite list_elem_of_fmap. split.
    + intros [(f & t & Hin & Hk)|(to & Hto & Hk)]; [by exists f, t; split; [right|]|].
      exists (sym_of from), (sym_of to). split; [left; by exists to|exact Hk].
    + intros (f & t & [(to & [= -> ->] & Hto)|Hin] & Hk); [right; by exists to|left; by exists f, t].
Qed.

Lemma no_dependencies m : (∀ k, family k = "symbol_rdep" → m !! k = None) → dep_store m ∅.
Proof.
  intros Hm. split; [by intros f t ?%elem_of_empty|]. intros k Hk. rewrite Hm by done. split; [by intros []|].
  by intros (f & t & []%elem_of_empty & _).
Qed.

(** A reference of the key is one of the function in the file. *)
Lemma reference_of_symbol r y :
  path_readable r → plain_symbol y → reference_symbol r = Some (sym_key y) →
  function_name r = Some y.2 ∧ src_file_path r = y.1.
Proof.
  intros Hpath (Hsplit & _) Hk. specialize (Hpath _ Hk). unfold before_colons in Hpath. rewrite Hsplit in Hpath.
  injection Hpath as Hfile. rewrite str_of_bytes_bytes in Hfile. unfold reference_symbol in Hk.
  destruct (function_name r) as [name|]; [|done]. injection Hk as Hk. split; [|done].
  unfold sym_key in Hk. rewrite Hfile in Hk. by apply str_app_inj_r, (str_app_inj_r "::") in Hk as ->.
Qed.


End cascade.

(** ** Instances *)

#[local] Existing Instances mem_db mem_db_laws source_codec.
#[local] Instance source_laws : ProstLaws SourceReference := countable_prost_laws.

Definition function_ref (path id name : string) : SourceReference :=
  mkSourceReference path "hash" 0 id (Some (Some (ScopeFunction (mkFunctionScope name "ast" "fn" [])))).

Definition core_symbol : SymbolId := mkSymbolId "lib.rs" "core" "fn".
Definition user_symbol : SymbolId := mkSymbolId "app.rs" "user" "fn".

(** [app.rs::user] depends on [lib.rs::core]. *)
Definition cascade_db : @DB mem_db :=
  (register_symbol_dependencies
     (register_source (register_source empty_db (function_ref "app.rs" "u" "user")).1
                      (function_ref "app.rs" "o" "other")).1
     user_symbol [core_symbol]).1.

Definition cascade_refs : gmap string SourceReference :=
  <["o" := function_ref "app.rs" "o" "other"]> (<["u" := function_ref "app.rs" "u" "user"]> ∅).

(** The dependency of [cascade_db]. *)
Definition cascade_deps : gset ((string * string) * (string * string)) :=
  {[ (("app.rs", "user"), ("lib.rs", "core")) ]}.

Lemma demo_plain s : s = user_symbol ∨ s = core_symbol → plain_symbol (sym_of s).
Proof.
  intros [-> | ->]; (split; [by vm_compute|split; [|by vm_compute]]); unfold no_bar;
    apply (bool_decide_unpack (124%N ∉ _)); by vm_compute.
Qed.

Lemma cascade_db_stores : fresh_store cascade_db cascade_refs ∧ dep_store cascade_db cascade_deps.
Proof.
  destruct (register_spec empty_db ∅ ∅ (function_ref "app.rs" "u" "user"))
    as (d1 & m1 & Hr1 & Hd1 & Hm1 & Hf1); [apply mem_db_is|by apply no_references| |].
  { split; [|by vm_compute]. by apply (bool_decide_unpack (124%N ∉ str_bytes "u")). }
  destruct (register_spec d1 m1 _ (function_ref "app.rs" "o" "other") Hd1 Hm1)
    as (d2 & m2 & Hr2 & Hd2 & Hm2 & Hf2).
  { split; [|by vm_compute]. by apply (bool_decide_unpack (124%N ∉ str_bytes "o")). }
  destruct (register_dependencies_spec d2 m2 ∅ user_symbol [core_symbol] Hd2)
    as (d3 & m3 & Hr3 & Hd3 & Hf3 & Hm3).
  { apply no_dependencies. intros k Hk. rewrite Hf2, Hf1; [done|..]; rewrite Hk; by apply (bool_decide_unpack (_ ∉ fresh_families)). }
  { apply demo_plain. by left. }
  { apply Forall_singleton, demo_plain. by right. }
  assert (cascade_db = d3) as ->.
  { unfold cascade_db. rewrite Hr1. cbn [fst]. rewrite Hr2. cbn [fst]. by rewrite Hr3. }
  destruct Hd3 as [_ <-]. split.
  - eapply (fresh_store_local m2); [|exact Hm2].
    intros k Hk. apply Hf3. intros Hno. unfold fresh_families in Hk.
    apply elem_of_cons in Hk as [Hk|Hk%list_elem_of_singleton]; rewrite Hk in Hno;
      apply elem_of_cons in Hno as [Hno|Hno%list_elem_of_singleton]; done.
  - replace cascade_deps with (list_to_set ((λ to, (sym_of user_symbol, sym_of to)) <$> [core_symbol]) ∪ ∅
      : gset ((string * string) * (string * string))); [exact Hm3|].
    unfold cascade_deps. csimpl. by rewrite !union_empty_r_L.
Qed.


Example cascade_ex :
  match cascade_invalidate 200 cascade_db core_symbol 3 with
  | Some (d, Ok r) => (invalidated_symbols r, get_entries_by_source d "app.rs")
  | _ => ([], Ok [])
  end = (["app.rs::user"], Ok [function_ref "app.rs" "o" "other"]).
Proof. vm_compute. reflexivity. Qed.

(** ** Qualified names

    The lookup by name alone uses what follows the last [::] of the key, the
    record of a dependency whose file is unknown the whole name. *)

Definition method_symbol (file : string) : SymbolId := mkSymbolId file "Store::get" "fn".

Definition qualified_db : @DB mem_db :=
  (register_symbol_dependencies empty_db user_symbol [method_symbol ""]).1.

(** A dependency on a qualified name that was recorded without a file is
    never followed: a change of the method invalidates nothing, although the
    same dependency on a plain name is found. *)
Theorem qualified_name_not_followed :
  (snd <$> cascade_invalidate 200 qualified_db (method_symbol "lib.rs") 3)
    = Some (Ok (mkCascadeReport 0 0 []))
  ∧ (snd <$> cascade_invalidate 200
               (register_symbol_dependencies empty_db user_symbol [mkSymbolId "" "get" "fn"]).1
               (mkSymbolId "lib.rs" "get" "fn") 3)
    = Some (Ok (mkCascadeReport 0 0 ["app.rs::user"])).
Proof. split; vm_compute; reflexivity. Qed.

(** A dependency is followed to the symbols of its target's name in every
    file: a change of [lib.rs::core] invalidates what depends on
    [other.rs::core] only. *)
Theorem same_name_followed :
  (snd <$> cascade_invalidate 200
             (register_symbol_dependencies empty_db user_symbol [mkSymbolId "other.rs" "core" "fn"]).1 core_symbol 3)
  = Some (Ok (mkCascadeReport 0 0 ["app.rs::user"])).
Proof. vm_compute. reflexivity. Qed.
