(* ===== verification/RocksWorkspaces.v ===== *)
(** * Workspaces in RocksDB

    [workspaces.rs] and the workspace records of [types.rs] of
    [post-cortex-storage/src/rocksdb_storage]: a record per workspace and one
    per membership of a session.  The memberships are the truth; the list
    stored with a workspace is ignored.  [now] is the clock's reading in
    seconds.  The second half shows that the store implements two maps, and
    what a listing makes of them. *)

From stdpp Require Import gmap.
From S2P Require Import Prelude RustStd StrLemmas UuidText Collections Types ContextAssembly Workspace.
From S2P Require Import Rocks RocksThms RocksMessages RocksCards.

Local Open Scope string_scope.
Local Open Scope list_scope.
Local Open Scope pcx.

Record StoredWorkspace := mkStoredWorkspace {
  sw_id : Uuid;
  sw_name : string;
  sw_description : string;
  sw_sessions : list (Uuid * SessionRole);
  sw_created_at : N;
}.

Record StoredWorkspaceSession := mkStoredWorkspaceSession {
  sws_workspace_id : Uuid;
  sws_session_id : Uuid;
  sws_role : SessionRole;
  sws_added_at : N;
}.

(** [workspace.sessions = sessions]. *)
Definition set_sessions (sessions : list (Uuid * SessionRole)) (w : StoredWorkspace) : StoredWorkspace :=
  mkStoredWorkspace (sw_id w) (sw_name w) (sw_description w) sessions (sw_created_at w).

Section workspaces.
Context `{R : RocksDB} `{I : UuidText} `{O : MapOrder}.
Context `{BW : Bincode StoredWorkspace} `{BS : Bincode StoredWorkspaceSession} `{BC : Bincode Card}.

Definition workspace_key (workspace_id : Uuid) : bytes := "workspace:" +:+ Uuid_to_string workspace_id.

Definition ws_session_prefix (workspace_id : Uuid) : bytes :=
  "ws_session:" +:+ Uuid_to_string workspace_id +:+ ":".

Definition ws_session_key (workspace_id session_id : Uuid) : bytes :=
  "ws_session:" +:+ Uuid_to_string workspace_id +:+ ":" +:+ Uuid_to_string session_id.

(** The first pass of [list_workspaces]. *)
Fixpoint load_workspaces (items : list (result (bytes * bytes) Error))
    (workspaces : gmap Uuid StoredWorkspace) : result (gmap Uuid StoredWorkspace) Error :=
  match items with
  | [] => Ok workspaces
  | item :: items =>
    try (key, value) <- item;
    if negb (starts_with (from_utf8_lossy key) "workspace:") then Ok workspaces
    else
      load_workspaces items
        (match decode_from_slice value with
         | Ok (workspace, _) => <[sw_id workspace := set_sessions [] workspace]> workspaces
         | Err _ => workspaces
         end)
  end.

(** [ws.sessions.push(..)] of the workspace a membership names. *)
Definition add_member (ws_session : StoredWorkspaceSession) (workspaces : gmap Uuid StoredWorkspace)
    : gmap Uuid StoredWorkspace :=
  match workspaces !! sws_workspace_id ws_session with
  | Some ws =>
    <[sws_workspace_id ws_session :=
        set_sessions (sw_sessions ws ++ [(sws_session_id ws_session, sws_role ws_session)]) ws]> workspaces
  | None => workspaces
  end.

(** The second pass. *)
Fixpoint load_memberships (items : list (result (bytes * bytes) Error))
    (workspaces : gmap Uuid StoredWorkspace) : result (gmap Uuid StoredWorkspace) Error :=
  match items with
  | [] => Ok workspaces
  | item :: items =>
    try (key, value) <- item;
    if negb (starts_with (from_utf8_lossy key) "ws_session:") then Ok workspaces
    else
      load_memberships items
        (match decode_from_slice value with
         | Ok (ws_session, _) => add_member ws_session workspaces
         | Err _ => workspaces
         end)
  end.

Definition list_workspaces (d : DB) : result (list StoredWorkspace) Error :=
  try workspaces <- load_workspaces (scan_prefix d "workspace:") ∅;
  try workspaces <- load_memberships (scan_prefix d "ws_session:") workspaces;
  Ok (iter_order workspaces).*2.

Definition save_workspace_metadata (d : DB) (now : N) (workspace_id : Uuid)
    (name description : string) (session_ids : list Uuid) : DB * result unit Error :=
  let workspace_data :=
    mkStoredWorkspace workspace_id name description ((λ id, (id, Primary)) <$> session_ids) now in
  match encode_to_vec workspace_data with
  | Err e => (d, Err ("Failed to serialize workspace: " +:+ e))
  | Ok data => db_put d (workspace_key workspace_id) data
  end.

(** The loop that collects the memberships to delete. *)
Fixpoint member_keys (prefix : bytes) (items : list (result (bytes * bytes) Error))
    : result (list bytes) Error :=
  match items with
  | [] => Ok []
  | item :: items =>
    try (key, _) <- item;
    if negb (starts_with (from_utf8_lossy key) prefix) then Ok []
    else try keys <- member_keys prefix items; Ok (key :: keys)
  end.

(** The record goes first, the memberships and the card in a batch after it. *)
Definition delete_workspace (d : DB) (workspace_id : Uuid) : DB * result unit Error :=
  match db_delete d (workspace_key workspace_id) with
  | (d, Err e) => (d, Err e)
  | (d, Ok _) =>
    let prefix := ws_session_prefix workspace_id in
    match
      try keys <- member_keys prefix (scan_prefix d prefix);
      delete_card_in d (BatchDelete <$> keys) (CardWorkspace workspace_id)
    with
    | Err e => (d, Err e)
    | Ok batch => db_write d batch
    end
  end.

Definition add_session_to_workspace (d : DB) (now : N) (workspace_id session_id : Uuid)
    (role : SessionRole) : DB * result unit Error :=
  match encode_to_vec (mkStoredWorkspaceSession workspace_id session_id role now) with
  | Err e => (d, Err ("Failed to serialize workspace-session: " +:+ e))
  | Ok data => db_put d (ws_session_key workspace_id session_id) data
  end.

Definition remove_session_from_workspace (d : DB) (workspace_id session_id : Uuid)
    : DB * result unit Error :=
  db_delete d (ws_session_key workspace_id session_id).
End workspaces.

(** ** Abstract workspaces

    The workspaces by id and the memberships by workspace and session. *)

Definition workspace_families : list string := ["workspace"; "ws_session"].

Abbreviation memberships := (gmap (Uuid * Uuid) StoredWorkspaceSession) (only parsing).

Definition valid_id (u : Uuid) : Prop := (u < uuid_bound)%N.
Definition valid_pair (p : Uuid * Uuid) : Prop := valid_id p.1 ∧ valid_id p.2.

(** The sessions of a workspace, in the order of their ids' texts. *)
Record members_of `{UuidText} (S : memberships) (u : Uuid) (l : list (Uuid * SessionRole)) : Prop := {
  mo_sorted : StronglySorted (λ a b, String.le (Uuid_to_string a.1) (Uuid_to_string b.1)) l;
  mo_nodup : NoDup l.*1;
  mo_in s r : (s, r) ∈ l ↔ ∃ x, S !! (u, s) = Some x ∧ sws_role x = r;
}.

Section store.
Context `{RL : RocksDBLaws} `{IL : UuidTextLaws} `{OL : MapOrderLaws}.
Context `{WL : BincodeLaws StoredWorkspace} `{SL : BincodeLaws StoredWorkspaceSession}.

Record workspace_tables (m : table) (W : gmap Uuid StoredWorkspace) (S : memberships) : Prop := {
  wt_workspaces : stored_map "workspace:" workspace_key encoded valid_id m W;
  wt_members : stored_map "ws_session:" (uncurry ws_session_key) encoded valid_pair m S;
  wt_id u w : W !! u = Some w → sw_id w = u;
  wt_member_id p x : S !! p = Some x → (sws_workspace_id x, sws_session_id x) = p;
}.

Lemma workspace_codec : key_codec "workspace:" workspace_key valid_id.
Proof.
  split; [by eexists|]. intros u v Hu Hv Heq%str_app_inj_r. by apply Uuid_to_string_inj.
Qed.

Lemma ws_session_codec : key_codec "ws_session:" (uncurry ws_session_key) valid_pair.
Proof.
  split; [by intros []; eexists|]. intros [u s] [v t] [Hu Hs] [Hv Ht] Heq. simpl in *.
  apply uuid_key_inj in Heq as [-> Heq]; [|done..]. apply str_app_inj_r in Heq.
  by apply Uuid_to_string_inj in Heq as ->.
Qed.

Lemma workspace_tables_local m m' W S :
  (∀ k, family k ∈ workspace_families → m' !! k = m !! k) →
  workspace_tables m W S → workspace_tables m' W S.
Proof.
  intros Hm [Hw Hs Hid Hmid]. split; [| |done..].
  - eapply stored_local; [|apply workspace_codec|done]. intros b [r ->]. apply Hm. by left.
  - eapply stored_local; [|apply ws_session_codec|done]. intros b [r ->]. apply Hm. by right; left.
Qed.

Lemma no_workspaces m :
  (∀ k, family k ∈ workspace_families → m !! k = None) → workspace_tables m ∅ ∅.
Proof.
  intros Hm. split; [| |by intros u w; rewrite lookup_empty|by intros p x; rewrite lookup_empty].
  - apply stored_none; [|apply workspace_codec]. intros b [r ->]. apply Hm. by left.
  - apply stored_none; [|apply ws_session_codec]. intros b [r ->]. apply Hm. by right; left.
Qed.

(** ** Listing *)

Lemma load_workspaces_ok (l : list (Uuid * StoredWorkspace)) M :
  load_workspaces (Ok <$> ((λ e, (workspace_key e.1, encoded e.2)) <$> l)) M
  = Ok (foldl (λ M e, <[sw_id e.2 := set_sessions [] e.2]> M) M l).
Proof.
  revert M. induction l as [|[u w] l IH]; intros M; csimpl; [done|].
  by rewrite decode_encoded, IH.
Qed.

Lemma load_memberships_ok (l : list ((Uuid * Uuid) * StoredWorkspaceSession)) M :
  load_memberships (Ok <$> ((λ e, (uncurry ws_session_key e.1, encoded e.2)) <$> l)) M
  = Ok (foldl (λ M e, add_member e.2 M) M l).
Proof.
  revert M. induction l as [|[[u s] x] l IH]; intros M; csimpl; [done|].
  by rewrite decode_encoded, IH.
Qed.

Lemma set_sessions_twice l l' w : set_sessions l (set_sessions l' w) = set_sessions l w.
Proof. done. Qed.

Lemma fold_workspaces (W : gmap Uuid StoredWorkspace) (l : list (Uuid * StoredWorkspace)) :
  NoDup l.*1 → (∀ u w, (u, w) ∈ l ↔ W !! u = Some w) → (∀ u w, W !! u = Some w → sw_id w = u) →
  foldl (λ M e, <[sw_id e.2 := set_sessions [] e.2]> M) ∅ l = set_sessions [] <$> W.
Proof.
  intros Hnd Hin Hid.
  assert (∀ M : gmap Uuid StoredWorkspace, foldl (λ M e, <[sw_id e.2 := set_sessions [] e.2]> M) M l
    = (set_sessions [] <$> (list_to_map l : gmap Uuid StoredWorkspace)) ∪ M) as Hfold.
  { assert (∀ e, e ∈ l → sw_id e.2 = e.1) as Hids.
    { intros [u w] He%Hin. by apply Hid. }
    clear Hin Hid. induction l as [|[u w] l IH]; intros M; csimpl in *.
    - by rewrite fmap_empty, (left_id_L ∅ (∪)).
    - apply NoDup_cons in Hnd as [Hu Hnd]. rewrite IH by (done || (intros e He; apply Hids; by right)).
      assert (sw_id w = u) as -> by (apply (Hids (u, w)); by left). rewrite fmap_insert, <-insert_union_l.
      rewrite insert_union_r; [done|]. rewrite lookup_fmap.
      by apply not_elem_of_list_to_map_1 in Hu as ->. }
  rewrite Hfold, (right_id_L ∅ (∪)). f_equal. apply map_eq. intros u. apply option_eq. intros w.
  by rewrite <-elem_of_list_to_map, Hin.
Qed.

Lemma fold_members (l : list ((Uuid * Uuid) * StoredWorkspaceSession)) (M : gmap Uuid StoredWorkspace) u :
  foldl (λ M e, add_member e.2 M) M l !! u
  = (λ w, set_sessions
       (sw_sessions w ++ ((λ e, (sws_session_id e.2, sws_role e.2))
                            <$> filter (λ e, sws_workspace_id e.2 = u) l)) w) <$> M !! u.
Proof.
  revert M. induction l as [|[p x] l IH]; intros M; csimpl.
  - destruct (M !! u) as [[]|]; simpl; [|done]. by rewrite app_nil_r.
  - rewrite IH, filter_cons. unfold add_member. simpl.
    destruct (decide (sws_workspace_id x = u)) as [->|Hne].
    + destruct (M !! u) as [w|] eqn:Hw; [rewrite lookup_insert_eq|by rewrite Hw].
      csimpl. by rewrite <-app_assoc.
    + destruct (M !! sws_workspace_id x); [by rewrite lookup_insert_ne|done].
Qed.

(** The members of a workspace among the memberships a scan lists. *)
Lemma scanned_members (S : memberships) u (l : list ((Uuid * Uuid) * StoredWorkspaceSession)) :
  (∀ p x, S !! p = Some x → (sws_workspace_id x, sws_session_id x) = p) →
  NoDup l.*1 → (∀ p x, (p, x) ∈ l ↔ S !! p = Some x) →
  StronglySorted (λ e e', String.le (uncurry ws_session_key e.1) (uncurry ws_session_key e'.1)) l →
  members_of S u ((λ e, (sws_session_id e.2, sws_role e.2)) <$> filter (λ e, sws_workspace_id e.2 = u) l).
Proof.
  intros Hid Hnd Hin Hsort.
  assert (∀ e, e ∈ filter (λ e, sws_workspace_id e.2 = u) l → e.1 = (u, sws_session_id e.2)) as Hids.
  { intros [p x] [Hu Hp%Hin]%list_elem_of_filter. simpl in *. by rewrite <-(Hid _ _ Hp), Hu. }
  apply (StronglySorted_filter _ (λ e, sws_workspace_id e.2 = u)) in Hsort.
  apply (NoDup_fmap_filter fst (λ e, sws_workspace_id e.2 = u)) in Hnd.
  assert (∀ e, e ∈ filter (λ e, sws_workspace_id e.2 = u) l ↔ S !! e.1 = Some e.2 ∧ e.1.1 = u) as Hel.
  { intros [p x]. rewrite list_elem_of_filter, Hin. simpl. split.
    - intros [Hu Hp]. split; [done|]. by rewrite <-(Hid _ _ Hp).
    - intros [Hp Hu]. split; [|done]. by rewrite <-(Hid _ _ Hp) in Hu. }
  split.
  - clear Hnd Hel. induction Hsort as [|e es Hs IH He]; csimpl; [constructor|].
    constructor; [apply IH; intros e' ?; apply Hids; by right|].
    apply Forall_fmap, Forall_forall. intros e' He'. simpl.
    rewrite Forall_forall in He. specialize (He _ He').
    rewrite (Hids e), (Hids e') in He by (by left || by right). simpl in He.
    unfold ws_session_key in He. by rewrite !str_le_app in He.
  - rewrite <-list_fmap_compose. apply NoDup_fmap_2_strong; [|by eapply NoDup_fmap_1].
    intros e e' He He' Heq. simpl in Heq. pose proof (Hids _ He) as H1'. pose proof (Hids _ He') as H2'.
    destruct e as [p x], e' as [p' x']. simpl in *. subst. rewrite Heq in *.
    apply Hel in He as [He _], He' as [He' _]. simpl in *. by simplify_eq.
  - intros s r. rewrite list_elem_of_fmap. split.
    + intros ([p x] & [= -> ->] & He). pose proof (Hids _ He) as Hp. simpl in Hp. subst p.
      apply Hel in He as [He _]. by exists x.
    + intros (x & Hx & <-). exists ((u, s), x). pose proof (Hid _ _ Hx) as [= _ Hs]. simpl.
      rewrite Hs. split; [done|]. by apply Hel.
Qed.

(** A listing has every workspace once, with the name, description and
    time of its record and as sessions the memberships stored for it, whatever
    list the record itself holds, in the order of their keys. *)
Theorem list_workspaces_exact d m W S :
  db_is d m → workspace_tables m W S →
  ∃ ws, list_workspaces d = Ok ws ∧ sw_id <$> ws ≡ₚ (map_to_list W).*1
    ∧ ∀ w, w ∈ ws → ∃ stored, W !! sw_id w = Some stored
        ∧ w = set_sessions (sw_sessions w) stored ∧ members_of S (sw_id w) (sw_sessions w).
Proof.
  intros Hd [Hw Hs Hid Hmid].
  destruct (stored_scan _ _ _ _ m W "workspace:" workspace_codec Hw) as (l & Hl & Hnd & Hin & _);
    [by exists ""|].
  destruct (stored_scan _ _ _ _ m S "ws_session:" ws_session_codec Hs) as (l' & Hl' & Hnd' & Hin' & Hsort');
    [by exists ""|].
  unfold list_workspaces. rewrite !(db_is_scan d m), Hl, Hl' by done.
  rewrite load_workspaces_ok. cbn [result_bind]. rewrite load_memberships_ok. cbn [result_bind].
  rewrite (fold_workspaces W);
    [|done|intros u w; rewrite Hin; split; [by intros [? _]|by intros Hu; split; [|by eexists]]|done].
  set (M := foldl _ _ l').
  assert (∀ u, M !! u = (λ w, set_sessions ((λ e, (sws_session_id e.2, sws_role e.2))
             <$> filter (λ e, sws_workspace_id e.2 = u) l') w) <$> W !! u) as HM.
  { intros u. unfold M. rewrite fold_members, lookup_fmap. by destruct (W !! u). }
  clearbody M. exists (iter_order M).*2. split; [done|].
  assert (∀ w, w ∈ (iter_order M).*2 ↔ M !! sw_id w = Some w) as Hws.
  { intros w. rewrite list_elem_of_fmap. split.
    - intros ([u w'] & -> & Hu%elem_of_iter_order). simpl. rewrite <-Hu. f_equal.
      rewrite HM in Hu. apply fmap_Some in Hu as (w0 & Hw0 & ->). simpl. by apply Hid in Hw0.
    - intros Hu. exists (sw_id w, w). split; [done|]. by apply elem_of_iter_order. }
  split.
  - rewrite iter_order_perm, <-list_fmap_compose.
    assert ((sw_id ∘ snd) <$> map_to_list M = (map_to_list M).*1) as ->.
    { apply list_fmap_ext. intros _ [u w] Hu%list_elem_of_lookup_2%elem_of_map_to_list. simpl.
      rewrite HM in Hu. apply fmap_Some in Hu as (w0 & Hw0 & ->). simpl. by apply Hid in Hw0. }
    apply NoDup_Permutation; [apply NoDup_fst_map_to_list..|]. intros u.
    rewrite !list_elem_of_fmap. split; intros ([u' w] & -> & Hu%elem_of_map_to_list); simpl.
    + rewrite HM in Hu. apply fmap_Some in Hu as (w0 & Hw0 & _).
      exists (u', w0). split; [done|]. by apply elem_of_map_to_list.
    + eexists (u', _). split; [done|]. apply elem_of_map_to_list. by rewrite HM, Hu.
  - intros w Hu%Hws. rewrite HM in Hu. apply fmap_Some in Hu as (w0 & Hw0 & Heq).
    pose proof (f_equal sw_sessions Heq) as Hss. simpl in Hss.
    exists w0. split_and!; [done|by rewrite Hss|]. rewrite Hss.
    apply (scanned_members S (sw_id w) l'); [done..| |done].
    intros p x. rewrite Hin'. split; [by intros [? _]|]. intros Hx. split; [done|].
    destruct p. by eexists.
Qed.

(** ** Writes *)

Lemma family_prefix_ne fam p b : family b ≠ fam → (∀ r, family (p +:+ r) = fam) → ¬ has_prefix p b.
Proof. intros Hb Hp [r ->]. by apply Hb. Qed.

(** A write of one record in one family leaves the other family alone. *)
Lemma put_workspace m W S u w :
  workspace_tables m W S → valid_id u → sw_id w = u →
  workspace_tables (<[workspace_key u := encoded w]> m) (<[u := w]> W) S.
Proof.
  intros [Hw Hs Hid Hmid] Hu Hwid. split; [| | |done].
  - by apply stored_put; [apply workspace_codec|..].
  - eapply stored_local; [|apply ws_session_codec|done].
    intros b [r ->]. by rewrite lookup_insert_ne.
  - intros u' w' [[<- <-]|[_ ?]]%lookup_insert_Some; [done|by apply Hid].
Qed.

Lemma put_member m W S u s x :
  workspace_tables m W S → valid_pair (u, s) → (sws_workspace_id x, sws_session_id x) = (u, s) →
  workspace_tables (<[ws_session_key u s := encoded x]> m) W (<[(u, s) := x]> S).
Proof.
  intros [Hw Hs Hid Hmid] Hu Hx. split; [| |done|].
  - eapply stored_local; [|apply workspace_codec|done]. intros b [r ->]. by rewrite lookup_insert_ne.
  - by apply (stored_put _ (uncurry ws_session_key) _ _ m S (u, s)); [apply ws_session_codec|..].
  - intros p x' [[<- <-]|[_ ?]]%lookup_insert_Some; [done|by apply Hmid].
Qed.

Lemma delete_member m W S u s :
  workspace_tables m W S → valid_pair (u, s) →
  workspace_tables (base.delete (ws_session_key u s) m) W (base.delete (u, s) S).
Proof.
  intros [Hw Hs Hid Hmid] Hu. split; [| |done|].
  - eapply stored_local; [|apply workspace_codec|done]. intros b [r ->]. by rewrite lookup_delete_ne.
  - by apply (stored_delete _ (uncurry ws_session_key) _ _ m S (u, s)); [apply ws_session_codec|..].
  - intros p x [_ ?]%lookup_delete_Some. by apply Hmid.
Qed.

Lemma delete_record m W S u :
  workspace_tables m W S → valid_id u →
  workspace_tables (base.delete (workspace_key u) m) (base.delete u W) S.
Proof.
  intros [Hw Hs Hid Hmid] Hu. split; [| | |done].
  - by apply stored_delete; [apply workspace_codec|..].
  - eapply stored_local; [|apply ws_session_codec|done]. intros b [r ->]. by rewrite lookup_delete_ne.
  - intros u' w [_ ?]%lookup_delete_Some. by apply Hid.
Qed.

Lemma ws_session_prefix_key u v s :
  valid_id u → valid_id v → has_prefix (ws_session_prefix u) (ws_session_key v s) ↔ v = u.
Proof.
  intros Hu Hv. unfold ws_session_prefix, ws_session_key. split.
  - intros [r Hr]. rewrite !str_app_assoc in Hr. by apply uuid_key_inj in Hr as [-> _].
  - intros ->. exists (Uuid_to_string s). by rewrite !str_app_assoc.
Qed.

Lemma uuid_ascii u : ascii (Uuid_to_string u).
Proof.
  eapply Forall_impl; [apply Uuid_to_string_bytes|]. intros b. simpl.
  unfold uuid_byte, is_digit. rewrite !orb_true_iff, !andb_true_iff, !N.leb_le, N.eqb_eq. lia.
Qed.

Lemma member_keys_ok m u :
  member_keys (ws_session_prefix u) (Ok <$> under_prefix (ws_session_prefix u) m)
  = Ok (under_prefix (ws_session_prefix u) m).*1.
Proof.
  assert (Forall (λ e : bytes * bytes, has_prefix (ws_session_prefix u) e.1)
            (under_prefix (ws_session_prefix u) m)) as Hall.
  { apply Forall_forall. by intros [k v] [? _]%elem_of_under_prefix. }
  revert Hall. generalize (under_prefix (ws_session_prefix u) m). intros l Hall.
  induction Hall as [|[k v] l Hk Hl IH]; [done|]. csimpl.
  rewrite lossy_starts_with; [simpl; by rewrite IH| |done].
  unfold ws_session_prefix. by repeat apply ascii_app; [repeat constructor|apply uuid_ascii|repeat constructor].
Qed.

(** Deleting the memberships of a workspace. *)
Lemma delete_members m W S u :
  workspace_tables m W S → valid_id u →
  workspace_tables (apply_batch (BatchDelete <$> (under_prefix (ws_session_prefix u) m).*1) m) W
    (filter (λ e, e.1.1 ≠ u) S).
Proof.
  intros [Hw Hs Hid Hmid] Hu. split; [| |done|].
  - eapply stored_local; [|apply workspace_codec|done]. intros b [r ->].
    rewrite apply_deletes, decide_False; [done|].
    intros ([k v] & Heq & [[r' ->] _]%elem_of_under_prefix)%list_elem_of_fmap. done.
  - assert (filter (λ e, e.1.1 ≠ u) S
      = filter (λ e, ¬ has_prefix (ws_session_prefix u) (uncurry ws_session_key e.1)) S) as ->.
    { apply map_filter_ext. intros [v s] x Hx. simpl.
      destruct (sm_valid _ _ _ _ _ _ Hs _ _ Hx) as [Hv _]. by rewrite ws_session_prefix_key. }
    by apply stored_delete_prefix; [apply ws_session_codec|].
  - intros p x [? _]%map_lookup_filter_Some. by apply Hmid.
Qed.

(** ** The operations as a whole *)

Context `{CL : BincodeLaws Card}.

Inductive workspace_op :=
  | SaveWorkspace (now : N) (id : Uuid) (name description : string) (session_ids : list Uuid)
  | DeleteWorkspace (id : Uuid)
  | AddSession (now : N) (id session_id : Uuid) (role : SessionRole)
  | RemoveSession (id session_id : Uuid).

Definition run_workspace_op (d : DB) (op : workspace_op) : DB * result unit Error :=
  match op with
  | SaveWorkspace now id name description ids => save_workspace_metadata d now id name description ids
  | DeleteWorkspace id => delete_workspace d id
  | AddSession now id s r => add_session_to_workspace d now id s r
  | RemoveSession id s => remove_session_from_workspace d id s
  end.

Definition valid_op (op : workspace_op) : Prop :=
  match op with
  | SaveWorkspace _ id _ _ _ | DeleteWorkspace id => valid_id id
  | AddSession _ id s _ | RemoveSession id s => valid_id id ∧ valid_id s
  end.

(** What it does to the workspaces, the memberships and the cards. *)
Definition workspace_step (op : workspace_op) (W : gmap Uuid StoredWorkspace) (S : memberships)
    (L : card_log) : gmap Uuid StoredWorkspace * memberships * card_log :=
  match op with
  | SaveWorkspace now id name description ids =>
    (<[id := mkStoredWorkspace id name description ((λ i, (i, Primary)) <$> ids) now]> W, S, L)
  | DeleteWorkspace id =>
    (base.delete id W, filter (λ e, e.1.1 ≠ id) S, with_log (CardWorkspace id) [] L)
  | AddSession now id s r => (W, <[(id, s) := mkStoredWorkspaceSession id s r now]> S, L)
  | RemoveSession id s => (W, base.delete (id, s) S, L)
  end.

Definition op_families : list string := workspace_families ++ card_families.

Lemma workspace_key_family u : family (workspace_key u) = "workspace".
Proof. done. Qed.
Lemma ws_session_key_family u s : family (ws_session_key u s) = "ws_session".
Proof. done. Qed.

Lemma delete_workspace_spec d m W S L u :
  db_is d m → workspace_tables m W S → card_logs m L → valid_id u →
  ∃ d' m', delete_workspace d u = (d', Ok tt) ∧ db_is d' m'
    ∧ workspace_tables m' (base.delete u W) (filter (λ e, e.1.1 ≠ u) S)
    ∧ card_logs m' (with_log (CardWorkspace u) [] L) ∧ only_in op_families m m'.
Proof.
  intros Hd Hm HL Hu. unfold delete_workspace, db_delete.
  destruct (db_is_write d m [BatchDelete (workspace_key u)] Hd) as (d1 & -> & Hd1).
  set (m1 := apply_batch [BatchDelete (workspace_key u)] m) in *.
  assert (workspace_tables m1 (base.delete u W) S) as Hm1 by by apply delete_record.
  assert (only_in ["workspace"] m m1) as Hf1.
  { apply only_in_batch. by repeat constructor. }
  assert (card_logs m1 L) as HL1.
  { eapply card_logs_local; [|exact HL]. intros k Hk.
    eapply only_in_other; [exact Hf1|exact Hk|solve_families]. }
  rewrite (db_is_scan d1 m1), member_keys_ok by done. cbn [result_bind].
  set (keys := (under_prefix (ws_session_prefix u) m1).*1).
  destruct (delete_card_spec d1 m1 L (CardWorkspace u) (BatchDelete <$> keys) Hd1 HL1 Hu)
    as (ops & -> & Hops & HL').
  destruct (db_is_write d1 m1 ((BatchDelete <$> keys) ++ ops) Hd1) as (d2 & -> & Hd2).
  rewrite apply_batch_app in Hd2. set (m2 := apply_batch (BatchDelete <$> keys) m1) in *.
  assert (only_in ["ws_session"] m1 m2) as Hf2.
  { apply only_in_batch, Forall_fmap, Forall_fmap, Forall_forall.
    intros [k v] [[r ->] _]%elem_of_under_prefix. by left. }
  assert (only_in card_families m2 (apply_batch ops m2)) as Hf3 by by apply only_in_batch.
  exists d2, (apply_batch ops m2). split_and!; [done|done|..].
  - eapply workspace_tables_local; [|by apply delete_members]. intros k Hk.
    eapply only_in_other; [exact Hf3|exact Hk|solve_families].
  - eapply card_logs_local; [|exact HL']. intros k Hk. apply apply_batch_agree.
    eapply only_in_other; [exact Hf2|exact Hk|solve_families].
  - eapply only_in_trans; [eapply only_in_mono; [|exact Hf1]; solve_families|].
    eapply only_in_trans; [eapply only_in_mono; [|exact Hf2]; solve_families|].
    eapply only_in_mono; [|exact Hf3]; solve_families.
Qed.

(** A write of one operation that does not touch cards. *)
Lemma workspace_write_spec d m op L W S :
  db_is d m → card_logs m L → family (op_key op) ∈ workspace_families →
  workspace_tables (apply_batch [op] m) W S →
  ∃ d' m', db_write d [op] = (d', Ok tt) ∧ db_is d' m' ∧ workspace_tables m' W S
    ∧ card_logs m' L ∧ only_in op_families m m'.
Proof.
  intros Hd HL Hop Hm. destruct (db_is_write d m [op] Hd) as (d' & Hw & Hd').
  assert (only_in workspace_families m (apply_batch [op] m)) as Hf.
  { apply only_in_batch. by apply Forall_singleton. }
  exists d', (apply_batch [op] m). split_and!; [done..| |].
  - eapply card_logs_local; [|exact HL]. intros k Hk.
    eapply only_in_other; [exact Hf|exact Hk|solve_families].
  - eapply only_in_mono; [|exact Hf]. solve_families.
Qed.

Lemma workspace_op_spec d m W S L op :
  db_is d m → workspace_tables m W S → card_logs m L → valid_op op →
  let '(W', S', L') := workspace_step op W S L in
  ∃ d' m', run_workspace_op d op = (d', Ok tt) ∧ db_is d' m' ∧ workspace_tables m' W' S'
    ∧ card_logs m' L' ∧ only_in op_families m m'.
Proof.
  intros Hd Hm HL Hop. destruct op as [now u name desc ids|u|now u s r|u s]; simpl in *.
  - unfold save_workspace_metadata. rewrite encode_ok. apply workspace_write_spec; [done..|by left|].
    by apply put_workspace.
  - by apply delete_workspace_spec.
  - unfold add_session_to_workspace. rewrite encode_ok.
    apply workspace_write_spec; [done..|by right; left|]. by apply put_member.
  - apply workspace_write_spec; [done..|by right; left|]. by apply delete_member.
Qed.

(** C22: The workspace store is two maps: saving a workspace writes its record,
    adding and removing a session write and drop one membership, and deleting a
    workspace drops its record, its memberships and its card, and touches no
    other workspace, card or kind of record. *)
Theorem workspace_ops_refine d m W S L op :
  db_is d m → workspace_tables m W S → card_logs m L → valid_op op →
  let '(W', S', L') := workspace_step op W S L in
  ∃ d' m', run_workspace_op d op = (d', Ok tt) ∧ db_is d' m' ∧ workspace_tables m' W' S'
    ∧ card_logs m' L' ∧ only_in op_families m m'.
Proof. apply workspace_op_spec. Qed.
End store.

(** ** Instances *)

#[global] Instance SessionRole_eq_dec : EqDecision SessionRole.
Proof. solve_decision. Defined.

#[global] Instance SessionRole_countable : Countable SessionRole.
Proof.
  refine (inj_countable' (λ r, match r with Primary => 0 | Related => 1 | Dependency => 2 | Shared => 3 end)%N
    (λ n, match n with 0 => Primary | 1 => Related | 2 => Dependency | _ => Shared end)%N _).
  by intros [].
Defined.

#[global] Instance StoredWorkspace_eq_dec : EqDecision StoredWorkspace.
Proof. solve_decision. Defined.

#[global] Instance StoredWorkspace_countable : Countable StoredWorkspace.
Proof.
  refine (inj_countable'
    (λ w, (sw_id w, sw_name w, sw_description w, sw_sessions w, sw_created_at w))
    (λ '(a, b, c, d, e), mkStoredWorkspace a b c d e) _).
  by intros [].
Defined.

#[global] Instance StoredWorkspaceSession_eq_dec : EqDecision StoredWorkspaceSession.
Proof. solve_decision. Defined.

#[global] Instance StoredWorkspaceSession_countable : Countable StoredWorkspaceSession.
Proof.
  refine (inj_countable'
    (λ x, (sws_workspace_id x, sws_session_id x, sws_role x, sws_added_at x))
    (λ '(a, b, c, d), mkStoredWorkspaceSession a b c d) _).
  by intros [].
Defined.

Definition workspace_codec_of : Bincode StoredWorkspace := countable_bincode.
Definition ws_session_codec_of : Bincode StoredWorkspaceSession := countable_bincode.

#[local] Existing Instances mem_db mem_db_laws hex_uuid hex_uuid_laws key_order key_order_laws
  card_codec workspace_codec_of ws_session_codec_of.
#[local] Instance workspace_codec_laws : BincodeLaws StoredWorkspace := countable_bincode_laws.
#[local] Instance ws_session_codec_laws : BincodeLaws StoredWorkspaceSession := countable_bincode_laws.
#[local] Instance ws_card_codec_laws : BincodeLaws Card := countable_bincode_laws.

Definition demo_ops : list workspace_op :=
  [SaveWorkspace 5 7 "api" "the service" [1; 2]%N; SaveWorkspace 6 8 "web" "" [];
   AddSession 9 7 3 Shared; AddSession 9 7 1 Primary; AddSession 9 8 3 Related;
   RemoveSession 7 1; DeleteWorkspace 8].

Definition run_workspace_ops (d : @DB mem_db) (ops : list workspace_op) : @DB mem_db :=
  foldl (λ d op, (run_workspace_op d op).1) d ops.

Example workspace_ops_ex :
  list_workspaces (run_workspace_ops empty_db demo_ops)
  = Ok [mkStoredWorkspace 7 "api" "the service" [(3%N, Shared)] 5].
Proof. vm_compute. reflexivity. Qed.

Lemma workspace_ops_refine_witness :
  ∃ d' m', run_workspace_op empty_db (AddSession 9 7 3 Shared) = (d', Ok tt) ∧ db_is d' m'
    ∧ workspace_tables m' ∅ (<[(7, 3)%N := mkStoredWorkspaceSession 7 3 Shared 9]> ∅)
    ∧ card_logs m' (λ _, []) ∧ only_in op_families ∅ m'.
Proof.
  apply (workspace_ops_refine empty_db ∅ ∅ ∅ (λ _, []) (AddSession 9 7 3 Shared));
    [apply mem_db_is|by apply no_workspaces|by apply no_cards|by vm_compute].
Defined.

Lemma list_workspaces_exact_witness :
  ∃ d ws, run_workspace_op empty_db (SaveWorkspace 5 7 "api" "the service" []) = (d, Ok tt)
    ∧ list_workspaces d = Ok ws ∧ sw_id <$> ws ≡ₚ [7%N]
    ∧ ∀ w, w ∈ ws → sw_name w = "api".
Proof.
  destruct (workspace_op_spec empty_db ∅ ∅ ∅ (λ _, []) (SaveWorkspace 5 7 "api" "the service" []))
    as (d & m & Hrun & Hd & Hm & _);
    [apply mem_db_is|by apply no_workspaces|by apply no_cards|by vm_compute|].
  destruct (list_workspaces_exact d m _ _ Hd Hm) as (ws & Hlist & Hids & Hws).
  exists d, ws. split_and!; [exact Hrun|exact Hlist|by rewrite Hids|].
  intros w (stored & Hst & -> & _)%Hws. by apply lookup_insert_Some in Hst as [[_ <-]|[_ Hst]].
Defined.
