(* ===== verification/RocksLegacy.v ===== *)
(** * Update rows and checkpoints of older versions

    [legacy.rs] and [SessionCheckpoint] of [types.rs].  Bincode writes a struct
    as its fields in order and is not self-describing, so the fields added to
    [ContextUpdate] over time gave four layouts.  Rows end with the update and
    are tried layout by layout; checkpoints name theirs by a marker.  The codec
    of a single field is a parameter ([BincodeField]); structs are built from
    fields here. *)

From stdpp Require Import gmap.
From S2P Require Import Prelude RustStd StrLemmas F32 Types Session ContextAssembly SearchResults.
From S2P Require Import RecordCodecs Rocks RocksThms.

Local Open Scope string_scope.
Local Open Scope list_scope.
Local Open Scope pcx.

(** ** Fields and structs *)

(** A field reads back whatever follows it, and is not read from nothing. *)
Class BincodeField (T : Type) `{Bincode T} : Prop := {
  field_roundtrip (x : T) :
    ∃ bs, encode_to_vec x = Ok bs ∧ ∀ rest, decode_from_slice (bs +:+ rest) = Ok (x, str_len bs);
  field_missing : ∃ e, decode_from_slice "" = Err e;
}.

#[global] Instance bincode_field_laws `{BincodeField T} : BincodeLaws T.
Proof.
  split. intros x. destruct (field_roundtrip x) as (bs & He & Hd). exists bs. split; [done|].
  specialize (Hd ""). by rewrite str_app_nil_r in Hd.
Qed.

Definition skip_bytes (n : nat) (bs : bytes) : bytes := str_of_bytes (drop n (str_bytes bs)).

Lemma skip_bytes_app a b : skip_bytes (str_len a) (a +:+ b) = b.
Proof.
  unfold skip_bytes, str_len. rewrite str_bytes_app, drop_app_length. apply str_of_bytes_bytes.
Qed.

(** Two fields in a row. *)
Definition decode_pair `{Bincode A} `{Bincode B} (bs : bytes) : result (A * B * nat) Error :=
  try (a, n) <- decode_from_slice bs;
  try (b, k) <- decode_from_slice (skip_bytes n bs);
  Ok (a, b, (n + k)%nat).

Definition encode_pair `{Bincode A} `{Bincode B} (a : A) (b : B) : result bytes Error :=
  try x <- encode_to_vec a; try y <- encode_to_vec b; Ok (x +:+ y).

(** ** Layouts of an update *)

Record LegacyContextUpdate := mkLegacyUpdate {
  lu_id : Uuid;
  lu_timestamp : DateTime;
  lu_update_type : UpdateType;
  lu_content : UpdateContent;
  lu_related_code : option CodeReference;
  lu_parent_update : option Uuid;
  lu_user_marked_important : bool;
  lu_creates_entities : list string;
  lu_creates_relationships : list EntityRelationship;
  lu_references_entities : list string;
  lu_typed_entities : list TypedEntity;
}.

Record AuthoredContextUpdate := mkAuthoredUpdate {
  au_update : LegacyContextUpdate;
  au_author : option string;
}.

Record DerivedContextUpdate := mkDerivedUpdate {
  du_update : LegacyContextUpdate;
  du_author : option string;
  du_derived_from : list string;
}.

Definition update_of_legacy (u : LegacyContextUpdate) : ContextUpdate :=
  mkContextUpdate (lu_id u) (lu_timestamp u) (lu_update_type u) (lu_content u) (lu_related_code u)
    (lu_parent_update u) (lu_user_marked_important u) (lu_creates_entities u)
    (lu_creates_relationships u) (lu_references_entities u) (lu_typed_entities u)
    None [] UpdateMeta_default.

(** [Self { author, ..update.into() }]. *)
Definition update_of_authored (u : AuthoredContextUpdate) : ContextUpdate :=
  let l := au_update u in
  mkContextUpdate (lu_id l) (lu_timestamp l) (lu_update_type l) (lu_content l) (lu_related_code l)
    (lu_parent_update l) (lu_user_marked_important l) (lu_creates_entities l)
    (lu_creates_relationships l) (lu_references_entities l) (lu_typed_entities l)
    (au_author u) [] UpdateMeta_default.

Definition update_of_derived (u : DerivedContextUpdate) : ContextUpdate :=
  let l := du_update u in
  mkContextUpdate (lu_id l) (lu_timestamp l) (lu_update_type l) (lu_content l) (lu_related_code l)
    (lu_parent_update l) (lu_user_marked_important l) (lu_creates_entities l)
    (lu_creates_relationships l) (lu_references_entities l) (lu_typed_entities l)
    (du_author u) (du_derived_from u) UpdateMeta_default.

(** The fields before [author], and the update with the others. *)
Definition legacy_of (u : ContextUpdate) : LegacyContextUpdate :=
  mkLegacyUpdate (cu_id u) (cu_timestamp u) (cu_update_type u) (cu_content u) (related_code u)
    (parent_update u) (user_marked_important u) (creates_entities u) (creates_relationships u)
    (references_entities u) (typed_entities u).

Definition current_of (l : LegacyContextUpdate) (author : option string) (derived : list string)
    (meta : UpdateMeta) : ContextUpdate :=
  mkContextUpdate (lu_id l) (lu_timestamp l) (lu_update_type l) (lu_content l) (lu_related_code l)
    (lu_parent_update l) (lu_user_marked_important l) (lu_creates_entities l)
    (lu_creates_relationships l) (lu_references_entities l) (lu_typed_entities l)
    author derived meta.

Section layouts.
Context `{BL : Bincode LegacyContextUpdate} `{BA : Bincode (option string)}.
Context `{BD : Bincode (list string)} `{BM : Bincode UpdateMeta}.

Definition pair_bincode {A B} (HA : Bincode A) (HB : Bincode B) : Bincode (A * B) := {|
  encode_to_vec := λ p, encode_pair p.1 p.2;
  decode_from_slice := decode_pair;
|}.

Definition map_bincode {A B} (f : A → B) (g : B → A) (HA : Bincode A) : Bincode B := {|
  encode_to_vec := λ b, encode_to_vec (g b);
  decode_from_slice := λ bs, try (a, n) <- decode_from_slice bs; Ok (f a, n);
|}.

(** Each layout is the previous one followed by the new field. *)
#[export] Instance authored_bincode : Bincode AuthoredContextUpdate :=
  map_bincode (λ p, mkAuthoredUpdate p.1 p.2) (λ u, (au_update u, au_author u))
    (pair_bincode BL BA).

#[export] Instance derived_bincode : Bincode DerivedContextUpdate :=
  map_bincode (λ p, mkDerivedUpdate p.1.1 p.1.2 p.2) (λ u, (du_update u, du_author u, du_derived_from u))
    (pair_bincode (pair_bincode BL BA) BD).

#[export] Instance update_bincode : Bincode ContextUpdate :=
  map_bincode (λ p, current_of p.1.1.1 p.1.1.2 p.1.2 p.2)
    (λ u, (legacy_of u, cu_author u, derived_from u, cu_meta u))
    (pair_bincode (pair_bincode (pair_bincode BL BA) BD) BM).

(** [bincode_decode]: the value, whatever follows it. *)
Definition bincode_decode {T} `{Bincode T} (bs : bytes) : option T :=
  match decode_from_slice bs with Ok (v, _) => Some v | Err _ => None end.

(** [a.or_else(|| b)]. *)
Definition or_else {A} (a b : option A) : option A :=
  match a with Some x => Some x | None => b end.

Definition decode_update (bs : bytes) : option ContextUpdate :=
  or_else (bincode_decode (T:=ContextUpdate) bs)
    (or_else (update_of_derived <$> bincode_decode bs)
       (or_else (update_of_authored <$> bincode_decode bs)
          (update_of_legacy <$> bincode_decode bs))).
End layouts.

(** ** Checkpoints *)

(** A checkpoint holding updates in the layout [U]; [SessionCheckpoint] is the
    one with current updates. *)
Record LegacySessionCheckpoint (U : Type) := mkCheckpoint {
  cp_id : Uuid;
  cp_session_id : Uuid;
  cp_created_at : DateTime;
  cp_structured_context : StructuredContext;
  cp_recent_updates : list U;
  cp_code_references : gmap string (list SessionCodeReference);
  cp_change_history : list ChangeRecord;
  cp_total_updates : N;
  cp_context_quality_score : f32;
  cp_compression_ratio : f32;
}.
Arguments mkCheckpoint {U}.
Arguments cp_id {U}.
Arguments cp_session_id {U}.
Arguments cp_created_at {U}.
Arguments cp_structured_context {U}.
Arguments cp_recent_updates {U}.
Arguments cp_code_references {U}.
Arguments cp_change_history {U}.
Arguments cp_total_updates {U}.
Arguments cp_context_quality_score {U}.
Arguments cp_compression_ratio {U}.

Definition SessionCheckpoint : Type := LegacySessionCheckpoint ContextUpdate.

Definition checkpoint_of_legacy {U} (f : U → ContextUpdate) (c : LegacySessionCheckpoint U)
    : SessionCheckpoint :=
  mkCheckpoint (cp_id c) (cp_session_id c) (cp_created_at c) (cp_structured_context c)
    (f <$> cp_recent_updates c) (cp_code_references c) (cp_change_history c) (cp_total_updates c)
    (cp_context_quality_score c) (cp_compression_ratio c).

Definition nul : string := str_of_bytes [0%N].
Definition CHECKPOINT_V4 : bytes := "pcx-ckpt-v4" +:+ nul.
Definition CHECKPOINT_V3 : bytes := "pcx-ckpt-v3" +:+ nul.
Definition CHECKPOINT_V2 : bytes := "pcx-ckpt-v2" +:+ nul.

Section checkpoints.
Context `{C4 : Bincode SessionCheckpoint} `{C3 : Bincode (LegacySessionCheckpoint DerivedContextUpdate)}.
Context `{C2 : Bincode (LegacySessionCheckpoint AuthoredContextUpdate)}.
Context `{C1 : Bincode (LegacySessionCheckpoint LegacyContextUpdate)}.

Definition strip_marker (marker bs : bytes) : option bytes := str_of_bytes <$> strip_prefix marker bs.

Definition decode_checkpoint (bs : bytes) : option SessionCheckpoint :=
  match strip_marker CHECKPOINT_V4 bs with
  | Some rest => bincode_decode rest
  | None =>
    match strip_marker CHECKPOINT_V3 bs with
    | Some rest => checkpoint_of_legacy update_of_derived <$> bincode_decode rest
    | None =>
      match strip_marker CHECKPOINT_V2 bs with
      | Some rest => checkpoint_of_legacy update_of_authored <$> bincode_decode rest
      | None => checkpoint_of_legacy update_of_legacy <$> bincode_decode bs
      end
    end
  end.
End checkpoints.

(** ** Structs of fields *)

Section structs.
Context {A B : Type} {HA : Bincode A} {HB : Bincode B}.

Lemma decode_pair_err bs e :
  decode_from_slice (T:=A) bs = Err e → ∃ e', decode_pair (A:=A) (B:=B) bs = Err e'.
Proof. intros Hbs. unfold decode_pair. rewrite Hbs. by eexists. Qed.

Lemma pair_field : BincodeField A → BincodeField B → @BincodeField _ (pair_bincode HA HB).
Proof.
  intros LA LB. split.
  - intros [a b]. destruct (field_roundtrip a) as (x & Hx & Hdx).
    destruct (field_roundtrip b) as (y & Hy & Hdy). exists (x +:+ y). split.
    + simpl. unfold encode_pair. by rewrite Hx; simpl; rewrite Hy.
    + intros rest. simpl. unfold decode_pair. rewrite str_app_assoc, Hdx. simpl.
      rewrite skip_bytes_app, Hdy. simpl. by rewrite str_len_app.
  - destruct (field_missing (T:=A)) as [e He]. by eapply decode_pair_err.
Qed.

(** A struct without its last field does not read as one with it. *)
Lemma pair_short (LA : BincodeField A) (LB : BincodeField B) (a : A) :
  ∃ e, decode_pair (A:=A) (B:=B) (encoded a) = Err e.
Proof.
  unfold decode_pair. rewrite decode_encoded. simpl.
  destruct (field_missing (T:=B)) as [e He]. exists e.
  rewrite <-(str_app_nil_r (encoded a)) at 2. by rewrite skip_bytes_app, He.
Qed.

Lemma map_field (f : A → B) (g : B → A) :
  (∀ b, f (g b) = b) → BincodeField A → @BincodeField _ (map_bincode f g HA).
Proof.
  intros Hfg LA. split.
  - intros b. destruct (field_roundtrip (g b)) as (x & Hx & Hdx). exists x. split; [done|].
    intros rest. simpl. by rewrite Hdx; simpl; rewrite Hfg.
  - destruct (field_missing (T:=A)) as [e He]. exists e. simpl. by rewrite He.
Qed.
End structs.

Section layout_laws.
Context {BL : Bincode LegacyContextUpdate} {BA : Bincode (option string)}.
Context {BD : Bincode (list string)} {BM : Bincode UpdateMeta}.
Context {LL : BincodeField LegacyContextUpdate} {LA : BincodeField (option string)}.
Context {LD : BincodeField (list string)} {LM : BincodeField UpdateMeta}.

Abbreviation authored_pair := (pair_bincode BL BA).
Abbreviation derived_pair := (pair_bincode authored_pair BD).
Abbreviation update_pair := (pair_bincode derived_pair BM).

Lemma authored_pair_laws : @BincodeField _ authored_pair.
Proof. by apply pair_field. Qed.
Lemma derived_pair_laws : @BincodeField _ derived_pair.
Proof. by apply pair_field; [apply authored_pair_laws|]. Qed.

#[export] Instance update_field : BincodeField ContextUpdate.
Proof.
  apply map_field; [by intros []|]. apply pair_field; [apply derived_pair_laws|done].
Qed.
#[export] Instance derived_field : BincodeField DerivedContextUpdate.
Proof. apply map_field; [by intros []|]. apply derived_pair_laws. Qed.
#[export] Instance authored_field : BincodeField AuthoredContextUpdate.
Proof. apply map_field; [by intros []|]. apply authored_pair_laws. Qed.

Lemma bincode_decode_ok {T} `{BincodeLaws T} (x : T) : bincode_decode (encoded x) = Some x.
Proof. unfold bincode_decode. by rewrite decode_encoded. Qed.

Lemma bincode_decode_map {A B} (f : A → B) (g : B → A) (HA : Bincode A) bs e :
  decode_from_slice bs = Err e → @bincode_decode _ (map_bincode f g HA) bs = None.
Proof. intros Hbs. unfold bincode_decode. simpl. by rewrite Hbs. Qed.

(** A row without [meta], [derived_from] or [author] is not read as one with
    it. *)
Lemma derived_row_old d : bincode_decode (T:=ContextUpdate) (encoded (T:=DerivedContextUpdate) d) = None.
Proof.
  destruct (@pair_short _ _ derived_pair BM derived_pair_laws LM (du_update d, du_author d, du_derived_from d))
    as [e He].
  by eapply bincode_decode_map.
Qed.

Lemma authored_row_old a :
  bincode_decode (T:=ContextUpdate) (encoded (T:=AuthoredContextUpdate) a) = None
  ∧ bincode_decode (T:=DerivedContextUpdate) (encoded (T:=AuthoredContextUpdate) a) = None.
Proof.
  destruct (@pair_short _ _ authored_pair BD authored_pair_laws LD (au_update a, au_author a)) as [e He].
  split; [|by eapply bincode_decode_map].
  destruct (@decode_pair_err _ _ derived_pair BM _ _ He) as [e' He']. by eapply bincode_decode_map.
Qed.

Lemma legacy_row_old l :
  bincode_decode (T:=ContextUpdate) (encoded (T:=LegacyContextUpdate) l) = None
  ∧ bincode_decode (T:=DerivedContextUpdate) (encoded (T:=LegacyContextUpdate) l) = None
  ∧ bincode_decode (T:=AuthoredContextUpdate) (encoded (T:=LegacyContextUpdate) l) = None.
Proof.
  destruct (@pair_short _ _ BL BA LL LA l) as [e He].
  destruct (@decode_pair_err _ _ authored_pair BD _ _ He) as [e' He'].
  destruct (@decode_pair_err _ _ derived_pair BM _ _ He') as [e2 He2].
  split_and!; by eapply bincode_decode_map.
Qed.

Lemma decode_update_ok u : decode_update (encoded u) = Some u.
Proof. unfold decode_update. by rewrite bincode_decode_ok. Qed.

(** Rows of every version are read: an update as it is now comes back as
    itself, and a row from before [meta], [derived_from] or [author] is not
    mistaken for a newer one but gives its fields, with the missing ones
    empty. *)
Theorem update_rows_decode u d a l :
  decode_update (encoded u) = Some u
  ∧ decode_update (encoded (T:=DerivedContextUpdate) d) = Some (update_of_derived d)
  ∧ decode_update (encoded (T:=AuthoredContextUpdate) a) = Some (update_of_authored a)
  ∧ decode_update (encoded (T:=LegacyContextUpdate) l) = Some (update_of_legacy l).
Proof.
  split_and!; [apply decode_update_ok|unfold decode_update..].
  - by rewrite derived_row_old, bincode_decode_ok.
  - destruct (authored_row_old a) as [-> ->]. by rewrite bincode_decode_ok.
  - destruct (legacy_row_old l) as (-> & -> & ->). by rewrite bincode_decode_ok.
Qed.
End layout_laws.

Section checkpoint_laws.
Context {C4 : Bincode SessionCheckpoint} {C3 : Bincode (LegacySessionCheckpoint DerivedContextUpdate)}.
Context {C2 : Bincode (LegacySessionCheckpoint AuthoredContextUpdate)}.
Context {C1 : Bincode (LegacySessionCheckpoint LegacyContextUpdate)}.
Context {L4 : BincodeLaws SessionCheckpoint} {L3 : BincodeLaws (LegacySessionCheckpoint DerivedContextUpdate)}.
Context {L2 : BincodeLaws (LegacySessionCheckpoint AuthoredContextUpdate)}.
Context {L1 : BincodeLaws (LegacySessionCheckpoint LegacyContextUpdate)}.

Lemma strip_marker_app p r : strip_marker p (p +:+ r) = Some r.
Proof.
  unfold strip_marker, strip_prefix. rewrite (proj2 (starts_with_prefix _ _)) by by eexists.
  simpl. f_equal. apply skip_bytes_app.
Qed.

Lemma strip_marker_None p k : ¬ has_prefix p k → strip_marker p k = None.
Proof.
  intros Hno. unfold strip_marker, strip_prefix. destruct (starts_with k p) eqn:Hk; [|done].
  by apply starts_with_prefix in Hk.
Qed.

(** A checkpoint is read by the layout its marker names. *)
Lemma checkpoints_decode c c3 c2 c1 :
  ¬ has_prefix "pcx-ckpt-v" (encoded c1) →
  decode_checkpoint (CHECKPOINT_V4 +:+ encoded c) = Some c
  ∧ decode_checkpoint (CHECKPOINT_V3 +:+ encoded c3) = Some (checkpoint_of_legacy update_of_derived c3)
  ∧ decode_checkpoint (CHECKPOINT_V2 +:+ encoded c2) = Some (checkpoint_of_legacy update_of_authored c2)
  ∧ decode_checkpoint (encoded c1) = Some (checkpoint_of_legacy update_of_legacy c1).
Proof.
  intros Hno.
  assert (∀ v, ¬ has_prefix ("pcx-ckpt-v" +:+ v +:+ nul) (encoded c1)) as Hnone.
  { intros v [r Hr]. apply Hno. exists ((v +:+ nul) +:+ r). by rewrite <-str_app_assoc. }
  unfold decode_checkpoint. split_and!.
  - by rewrite strip_marker_app, bincode_decode_ok.
  - rewrite (strip_marker_None CHECKPOINT_V4) by by intros [r [=]].
    by rewrite strip_marker_app, bincode_decode_ok.
  - rewrite (strip_marker_None CHECKPOINT_V4), (strip_marker_None CHECKPOINT_V3) by by intros [r [=]].
    by rewrite strip_marker_app, bincode_decode_ok.
  - rewrite (strip_marker_None CHECKPOINT_V4), (strip_marker_None CHECKPOINT_V3),
      (strip_marker_None CHECKPOINT_V2) by apply Hnone.
    by rewrite bincode_decode_ok.
Qed.
End checkpoint_laws.

(** ** Instances

    A field codec for every countable type: its bits and an end mark. *)

Fixpoint until_mark (bs : list N) : option (list N) :=
  match bs with
  | [] => None
  | b :: bs => if (b =? 35)%N then Some [] else cons b <$> until_mark bs
  end.

Definition marked_bincode `{Countable T} : Bincode T := {|
  encode_to_vec := λ x, Ok (str_of_bytes (bits_of (encode x) ++ [35%N]));
  decode_from_slice := λ bs,
    match until_mark (str_bytes bs) with
    | Some ds =>
      match of_bits ds ≫= decode with
      | Some x => Ok (x, S (length ds))
      | None => Err "malformed"
      end
    | None => Err "unexpected end"
    end;
|}.

Lemma until_mark_bits p rest : until_mark (bits_of p ++ 35%N :: rest) = Some (bits_of p).
Proof. induction p as [p IH|p IH|]; simpl; by rewrite ?IH. Qed.

Lemma marked_field `{Countable T} : @BincodeField T marked_bincode.
Proof.
  split; [|by eexists]. intros x. eexists. split; [done|]. intros rest. simpl.
  assert (Forall byte_ok (bits_of (encode x) ++ [35%N])) as Hok.
  { apply Forall_app. split; [apply bits_of_ok|by repeat constructor]. }
  rewrite str_bytes_app, str_bytes_of_bytes by done.
  rewrite <-app_assoc. simpl. rewrite until_mark_bits, of_bits_of. simpl. rewrite decode_encode.
  unfold str_len. rewrite str_bytes_of_bytes, length_app by done. simpl. do 2 f_equal. lia.
Qed.

#[global] Instance LegacyContextUpdate_eq_dec : EqDecision LegacyContextUpdate.
Proof. solve_decision. Defined.

#[global] Instance LegacyContextUpdate_countable : Countable LegacyContextUpdate.
Proof. by refine (inj_countable' update_of_legacy legacy_of _); intros []. Defined.

Definition legacy_codec : Bincode LegacyContextUpdate := marked_bincode.
Definition author_codec : Bincode (option string) := marked_bincode.
Definition sources_codec : Bincode (list string) := marked_bincode.
Definition meta_codec : Bincode UpdateMeta := marked_bincode.

Lemma legacy_codec_field : @BincodeField _ legacy_codec. Proof. apply marked_field. Qed.
Lemma author_codec_field : @BincodeField _ author_codec. Proof. apply marked_field. Qed.
Lemma sources_codec_field : @BincodeField _ sources_codec. Proof. apply marked_field. Qed.
Lemma meta_codec_field : @BincodeField _ meta_codec. Proof. apply marked_field. Qed.

#[local] Existing Instances legacy_codec author_codec sources_codec meta_codec
  legacy_codec_field author_codec_field sources_codec_field meta_codec_field.

Definition plain_update (id : Uuid) (title : string) : ContextUpdate :=
  mkContextUpdate id 0 DecisionMade (mkUpdateContent title "" [] [] []) None None false [] [] [] []
    (Some "bob") ["message:1"] UpdateMeta_default.

Definition old_update : LegacyContextUpdate := legacy_of (plain_update 4 "decided").

Lemma update_rows_decode_witness :
  decode_update (encoded (plain_update 4 "decided")) = Some (plain_update 4 "decided")
  ∧ decode_update (encoded (mkAuthoredUpdate old_update (Some "alice")))
    = Some (update_of_authored (mkAuthoredUpdate old_update (Some "alice")))
  ∧ decode_update (encoded old_update) = Some (update_of_legacy old_update).
Proof.
  pose proof (update_rows_decode (plain_update 4 "decided") (mkDerivedUpdate old_update None [])
    (mkAuthoredUpdate old_update (Some "alice")) old_update) as (H1 & _ & H3 & H4).
  split_and!; assumption.
Defined.
