(* ===== verification/RocksSessions.v ===== *)
(** * Sessions in RocksDB

    [sessions.rs] of [post-cortex-storage/src/rocksdb_storage] and
    [SessionSummary] of [traits.rs]: the blob of a session without its updates,
    a row per update, the index that lists the updates in session order, and a
    summary for listings.  The lock of a session is held around each write, so
    a call is one step.  JSON ([serde_json] with the derived impls) is the
    class [SessionJson]; the graph in it is read by its own [Deserialize], with
    the clock [now], and [None] is its panic; [set_order] is the iteration order of a [HashSet]. *)

From stdpp Require Import gmap.
From S2P Require Import Prelude RustStd StrLemmas UuidText Collections Types Petgraph EntityGraph GraphSerde Session.
From S2P Require Import ContextAssembly Workspace RecordCodecs Rocks RocksThms RocksMessages.
From S2P Require Import RocksWorkspaces RocksLegacy.

Local Open Scope string_scope.
Local Open Scope list_scope.
Local Open Scope pcx.

Record SessionSummary := mkSessionSummary {
  sy_id : Uuid;
  sy_name : option string;
  sy_description : option string;
  sy_created_at : DateTime;
  sy_last_updated : DateTime;
  sy_update_count : nat;
}.

(** The listing fields of a blob; the embedded updates are only counted. *)
Record BlobHead := mkBlobHead {
  bh_id : Uuid;
  bh_name : option string;
  bh_description : option string;
  bh_created_at : DateTime;
  bh_last_updated : DateTime;
  bh_incremental_updates : option nat;
}.

Class SessionJson := {
  session_to_json : ActiveSessionData → result bytes Error;
  session_from_json : bytes → result ActiveSessionData Error;
  head_from_json : bytes → result BlobHead Error;
  summary_to_json : SessionSummary → result bytes Error;
  summary_from_json : bytes → result SessionSummary Error;
}.

Definition SESSION_PREFIX : string := "session:".
Definition META_PREFIX : string := "session_meta:".

(** [session:] and a hyphenated id. *)
Definition SESSION_KEY_LEN : nat := str_len SESSION_PREFIX + 36.

(** [Uuid::as_bytes] and [from_bytes], one after the other. *)
Definition encode_ids (ids : list Uuid) : bytes := str_of_bytes (ids ≫= be_digits 16).

Fixpoint chunks (fuel : nat) (bs : list N) : list (list N) :=
  match fuel with
  | O => []
  | S fuel => if (16 <=? length bs)%nat then take 16 bs :: chunks fuel (drop 16 bs) else []
  end.

(** A remainder of less than 16 bytes is ignored. *)
Definition decode_ids (bs : bytes) : list Uuid := be_value <$> chunks (str_len bs) (str_bytes bs).

(** The ids listed after [indexed] that are not in [removed], each once. *)
Fixpoint index_filter (removed indexed : gset Uuid) (ids : list Uuid) : list Uuid :=
  match ids with
  | [] => []
  | id :: ids =>
    if decide (id ∈ removed) then index_filter removed indexed ids
    else if decide (id ∈ indexed) then index_filter removed indexed ids
    else id :: index_filter removed ({[ id ]} ∪ indexed) ids
  end.

Section sessions.
Context `{R : RocksDB} `{I : UuidText} `{Un : Unicode} `{P : Petgraph} `{J : !SessionJson} `{D : !DeriveRelation}.
Context {BL : Bincode LegacyContextUpdate} {BA : Bincode (option string)}.
Context {BD : Bincode (list string)} {BM : Bincode UpdateMeta}.
Context (set_order : gset Uuid → list Uuid).
Implicit Types (session : ActiveSession) (updates : list ContextUpdate).

Definition session_id_of session : Uuid := md_id (metadata session).

Definition session_key (session_id : Uuid) : bytes := "session:" +:+ Uuid_to_string session_id.

Definition update_key (session_id update_id : Uuid) : bytes :=
  "session:" +:+ Uuid_to_string session_id +:+ ":update:" +:+ Uuid_to_string update_id.

Definition update_index_key (session_id : Uuid) : bytes :=
  "session_updates:" +:+ Uuid_to_string session_id.

Definition meta_key (session_id : Uuid) : bytes := "session_meta:" +:+ Uuid_to_string session_id.

Definition encode_update (update : ContextUpdate) : result bytes Error :=
  match encode_to_vec update with
  | Ok bs => Ok bs
  | Err e => Err ("Failed to serialize update: " +:+ e)
  end.

Definition session_blob session : result bytes Error :=
  match session_to_json (view set_order false session) with
  | Ok bs => Ok bs
  | Err e => Err ("Failed to serialize session: " +:+ e)
  end.

Definition from_session session : SessionSummary :=
  mkSessionSummary (session_id_of session) (md_name (metadata session))
    (md_description (metadata session)) (md_created_at (metadata session)) (last_updated session)
    (length (incremental_updates session)).

(** ** Saving *)

(** One of the loops that write rows: those of [updates] that [wanted] keeps. *)
Fixpoint put_rows (session_id : Uuid) (wanted : ContextUpdate → bool) updates
    : result WriteBatch Error :=
  match updates with
  | [] => Ok []
  | update :: updates =>
    if wanted update then
      try row <- encode_update update;
      try batch <- put_rows session_id wanted updates;
      Ok (BatchPut (update_key session_id (cu_id update)) row :: batch)
    else put_rows session_id wanted updates
  end.

Definition ids_of updates : gset Uuid := list_to_set (cu_id <$> updates).

(** The batch of a save and the number of rows in it; [old_index] is what is
    stored. *)
Definition persist_batch (old_index : option bytes) session (blob : bytes)
    (explicit : list ContextUpdate) (removed : list Uuid) : result (WriteBatch * nat) Error :=
  let session_id := session_id_of session in
  let index_key := update_index_key session_id in
  let stored_order := default [] (decode_ids <$> old_index) in
  let stored : gset Uuid := list_to_set stored_order in
  let removed : gset Uuid := list_to_set removed in
  let explicit_ids := ids_of explicit in
  let kept u := bool_decide (cu_id u ∉ removed) in
  let unlisted u :=
    bool_decide (cu_id u ∉ stored) && bool_decide (cu_id u ∉ explicit_ids)
    && bool_decide (cu_id u ∉ removed) in
  try rows1 <- put_rows session_id kept explicit;
  try rows2 <- put_rows session_id unlisted (incremental_updates session);
  let deletes := (λ id, BatchDelete (update_key session_id id)) <$> set_order removed in
  let index_ids := index_filter removed ∅
      ((stored_order ++ (cu_id <$> incremental_updates session)) ++ (cu_id <$> explicit)) in
  let index := encode_ids index_ids in
  let put_index := if decide (old_index = Some index) then [] else [BatchPut index_key index] in
  try meta <- summary_to_json (from_session session);
  Ok (rows1 ++ rows2 ++ deletes ++ put_index
      ++ [BatchPut (meta_key session_id) meta; BatchPut (session_key session_id) blob],
      (length rows1 + length rows2)%nat).

Definition persist_session (d : DB) session (blob : bytes) (explicit : list ContextUpdate)
    (removed : list Uuid) : DB * result nat Error :=
  match
    try old_index <- db_get d (update_index_key (session_id_of session));
    persist_batch old_index session blob explicit removed
  with
  | Err e => (d, Err e)
  | Ok (batch, rows) =>
    match db_write d batch with
    | (d, Ok _) => (d, Ok rows)
    | (d, Err e) => (d, Err e)
    end
  end.

Definition persist (d : DB) session updates (removed : list Uuid) : DB * result unit Error :=
  match session_blob session with
  | Err e => (d, Err e)
  | Ok blob =>
    match persist_session d session blob updates removed with
    | (d, Ok _) => (d, Ok tt)
    | (d, Err e) => (d, Err e)
    end
  end.

Definition save_session (d : DB) session : DB * result unit Error := persist d session [] [].

Definition save_session_with_changes (d : DB) session (session_id : Uuid) updates
    (removed : list Uuid) : DB * result unit Error :=
  if (session_id_of session =? session_id)%N then persist d session updates removed
  else (d, Err ("Session id mismatch: blob " +:+ Uuid_to_string (session_id_of session)
                +:+ " vs updates for " +:+ Uuid_to_string session_id)).

Definition save_session_with_updates (d : DB) session (session_id : Uuid) updates
    : DB * result unit Error :=
  if (session_id_of session =? session_id)%N then save_session_with_changes d session session_id updates []
  else (d, Err ("Session id mismatch: blob " +:+ Uuid_to_string (session_id_of session)
                +:+ " vs updates for " +:+ Uuid_to_string session_id)).

(** ** Loading *)

Record LoadedSession := mkLoadedSession {
  loaded : ActiveSession;
  legacy_blob : option bytes;
}.

(** The rows that are there and decode, in the order asked for. *)
Fixpoint decode_update_rows (values : list (result (option bytes) Error))
    : result (list ContextUpdate) Error :=
  match values with
  | [] => Ok []
  | value :: values =>
    try stored <- value;
    try updates <- decode_update_rows values;
    match stored ≫= decode_update with
    | Some update => Ok (update :: updates)
    | None => Ok updates
    end
  end.

Definition load_rows (d : DB) (session_id : Uuid) (ids : list Uuid) : result (list ContextUpdate) Error :=
  decode_update_rows (multi_get d (update_key session_id <$> ids)).

Definition with_rows (d : DB) (session_id : Uuid) (blob : bytes) session
    : result (option LoadedSession) Error :=
  try index <- db_get d (update_index_key session_id);
  match index, incremental_updates session with
  | Some index, [] =>
    try updates <- load_rows d session_id (decode_ids index);
    Ok (Some (mkLoadedSession
                (relink_entity_mentions (set_incremental_updates updates session)) None))
  | _, _ => Ok (Some (mkLoadedSession (relink_entity_mentions session) (Some blob)))
  end.

(** [serde_json::from_slice] of a session; [None]: its graph panicked. *)
Definition session_from_slice (now : nat → nat → DateTime) (blob : bytes)
    : option (result ActiveSession Error) :=
  match session_from_json blob with
  | Err e => Some (Err e)
  | Ok data => session_of_data now data
  end.

Definition read_session (now : nat → nat → DateTime) (d : DB) (session_id : Uuid)
    : option (result (option LoadedSession) Error) :=
  match db_get d (session_key session_id) with
  | Err e => Some (Err e)
  | Ok None => Some (Ok None)
  | Ok (Some blob) =>
    parsed ← session_from_slice now blob;
    Some match parsed with
         | Err e => Err ("Failed to deserialize session: " +:+ e)
         | Ok session => with_rows d session_id blob session
         end
  end.

(** A blob another writer has replaced since is left alone. *)
Definition backfill_legacy (d : DB) session (old_blob : bytes) : DB * result unit Error :=
  let session_id := session_id_of session in
  match
    try blob <- session_blob session;
    try current <- db_get d (session_key session_id);
    if decide (current = Some old_blob)
    then try index <- db_get d (update_index_key session_id); Ok (Some (blob, index))
    else Ok None
  with
  | Err e => (d, Err e)
  | Ok None => (d, Ok tt)
  | Ok (Some (blob, index)) =>
    let embedded := ids_of (incremental_updates session) in
    let removed := filter (λ id, id ∉ embedded) (default [] (decode_ids <$> index)) in
    match persist_session d session blob [] removed with
    | (d, Ok _) => (d, Ok tt)
    | (d, Err e) => (d, Err e)
    end
  end.

Definition SESSION_NOT_FOUND : Error := "Session not found".

(** A failed migration is only logged. *)
Definition load_session (now : nat → nat → DateTime) (d : DB) (session_id : Uuid)
    : option (DB * result ActiveSession Error) :=
  read ← read_session now d session_id;
  Some match read with
       | Err e => (d, Err e)
       | Ok None => (d, Err SESSION_NOT_FOUND)
       | Ok (Some l) =>
         match legacy_blob l with
         | Some blob => ((backfill_legacy d (loaded l) blob).1, Ok (loaded l))
         | None => (d, Ok (loaded l))
         end
       end.

Definition load_session_updates (d : DB) (session_id : Uuid) : result (list ContextUpdate) Error :=
  try index <- db_get d (update_index_key session_id);
  match index with
  | Some index => load_rows d session_id (decode_ids index)
  | None =>
    try items <- try_items (scan_prefix d ("session:" +:+ Uuid_to_string session_id +:+ ":update:"));
    Ok (omap (λ item, decode_update item.2) items)
  end.

Definition session_exists (d : DB) (session_id : Uuid) : result bool Error :=
  try stored <- db_get d (session_key session_id); Ok (bool_decide (is_Some stored)).

(** Rows for [updates]; with an index they are appended to the session. *)
Definition batch_save_updates (d : DB) (session_id : Uuid) updates : DB * result unit Error :=
  match updates with
  | [] => (d, Ok tt)
  | _ =>
    match
      try rows <- put_rows session_id (λ _, true) updates;
      try index <- db_get d (update_index_key session_id);
      match index with
      | None => Ok rows
      | Some index =>
        let ids := decode_ids index in
        let added := index_filter ∅ (list_to_set ids) (cu_id <$> updates) in
        match added with
        | [] => Ok rows
        | _ =>
          let ids := ids ++ added in
          try meta <- db_get d (meta_key session_id);
          try puts <-
            match meta ≫= (λ bs, match summary_from_json bs with Ok s => Some s | Err _ => None end) with
            | Some s =>
              try bs <- summary_to_json (mkSessionSummary (sy_id s) (sy_name s) (sy_description s)
                          (sy_created_at s) (sy_last_updated s) (length ids));
              Ok [BatchPut (meta_key session_id) bs]
            | None => Ok []
            end;
          Ok (rows ++ [BatchPut (update_index_key session_id) (encode_ids ids)] ++ puts)
        end
      end
    with
    | Err e => (d, Err e)
    | Ok batch => db_write d batch
    end
  end.
End sessions.

(** ** Listing and deletion *)

Section listing.
Context `{R : RocksDB} `{I : UuidText} `{J : !SessionJson}.
Context {BS : Bincode StoredWorkspaceSession} {BC : Bincode SessionCheckpoint}.

(** A raw iterator is the list of what is left of it. *)
Abbreviation raw_iterator := (list (result (bytes * bytes) Error)) (only parsing).

Definition seek (d : DB) (key : bytes) : raw_iterator :=
  db_iterator d (IterFrom key Forward) (prefix_read_opts SESSION_PREFIX).

Definition take_bytes (n : nat) (bs : bytes) : bytes := str_of_bytes (take n (str_bytes bs)).

(** [str::from_utf8] of the bytes after the prefix, then [Uuid::parse_str]. *)
Definition session_id_at (key : bytes) : option Uuid :=
  let text := skip_bytes (str_len SESSION_PREFIX) key in
  if decide (well_formed text) then Uuid_parse text else None.

(** [it.key()] ends the loop at the end and at an error, which [it.status()]
    reports.  [None]: the fuel ran out. *)
Fixpoint list_loop (d : DB) (fuel : nat) (it : raw_iterator) (sessions : list Uuid)
    : option (result (list Uuid) Error) :=
  match it with
  | [] => Some (Ok sessions)
  | Err e :: _ => Some (Err e)
  | Ok (key, _) :: rest =>
    match fuel with
    | O => None
    | S fuel =>
      if (str_len key <? SESSION_KEY_LEN)%nat then list_loop d fuel rest sessions
      else
        let sessions :=
          if (str_len key =? SESSION_KEY_LEN)%nat
          then match session_id_at key with Some id => sessions ++ [id] | None => sessions end
          else sessions in
        list_loop d fuel (seek d (take_bytes SESSION_KEY_LEN key +:+ ";")) sessions
    end
  end.

Definition list_session_ids (d : DB) (fuel : nat) : option (result (list Uuid) Error) :=
  list_loop d fuel (seek d SESSION_PREFIX) [].

Definition list_sessions (d : DB) (fuel : nat) : option (result (list Uuid) Error) :=
  list_session_ids d fuel.

(** The summary a blob of an older version gives, stored for next time. *)
Definition summarize_without_meta (d : DB) (session_id : Uuid)
    : DB * result (option SessionSummary) Error :=
  match
    try meta <- db_get d (meta_key session_id);
    match meta ≫= (λ bs, match summary_from_json bs with Ok s => Some s | Err _ => None end) with
    | Some summary => Ok (inl (Some summary))
    | None =>
      try blob <- db_get d (session_key session_id);
      match blob with
      | None => Ok (inl None)
      | Some blob =>
        match head_from_json blob with
        | Err e => Err ("Failed to read session " +:+ Uuid_to_string session_id +:+ " header: " +:+ e)
        | Ok head =>
          let embedded := default 0%nat (bh_incremental_updates head) in
          try update_count <-
            (if (0 <? embedded)%nat then Ok embedded
             else
               try index <- db_get d (update_index_key session_id);
               Ok (match index with Some index => (str_len index / 16)%nat | None => 0%nat end));
          let summary := mkSessionSummary (bh_id head) (bh_name head) (bh_description head)
                           (bh_created_at head) (bh_last_updated head) update_count in
          try bs <- summary_to_json summary;
          Ok (inr (summary, bs))
        end
      end
    end
  with
  | Err e => (d, Err e)
  | Ok (inl s) => (d, Ok s)
  | Ok (inr (summary, bs)) =>
    match db_put d (meta_key session_id) bs with
    | (d, Ok _) => (d, Ok (Some summary))
    | (d, Err e) => (d, Err e)
    end
  end.

(** The stored summaries by session id; others are skipped. *)
Definition meta_records (items : list (bytes * bytes)) : gmap Uuid SessionSummary :=
  foldl (λ metas item, match summary_from_json item.2 with
                       | Ok summary => <[sy_id summary := summary]> metas
                       | Err _ => metas
                       end) ∅ items.

Fixpoint summaries_loop (d : DB) (ids : list Uuid) (metas : gmap Uuid SessionSummary)
    (summaries : list SessionSummary) : DB * list SessionSummary :=
  match ids with
  | [] => (d, summaries)
  | id :: ids =>
    match metas !! id with
    | Some summary => summaries_loop d ids (base.delete id metas) (summaries ++ [summary])
    | None =>
      let '(d, r) := summarize_without_meta d id in
      summaries_loop d ids metas
        (match r with Ok (Some summary) => summaries ++ [summary] | _ => summaries end)
    end
  end.

Definition list_session_summaries (d : DB) (fuel : nat)
    : option (DB * result (list SessionSummary) Error) :=
  match try_items (scan_prefix d META_PREFIX) with
  | Err e => Some (d, Err e)
  | Ok items =>
    r ← list_session_ids d fuel;
    Some
      match r with
      | Err e => (d, Err e)
      | Ok ids =>
        let '(d, summaries) := summaries_loop d ids (meta_records items) [] in (d, Ok summaries)
      end
  end.

(** The prefixes of everything kept under the id of a session. *)
Definition session_prefixes (session_id : Uuid) : list bytes :=
  (λ family, family +:+ Uuid_to_string session_id +:+ ":")
    <$> ["session:"; "message:"; "message_turn:"; "embedding:"; "entity:"; "relationship:"].

Fixpoint keys_under (d : DB) (prefixes : list bytes) : result (list bytes) Error :=
  match prefixes with
  | [] => Ok []
  | prefix :: prefixes =>
    try keys <- keys_with_prefix d prefix;
    try more <- keys_under d prefixes;
    Ok (keys ++ more)
  end.

Fixpoint membership_keys (session_id : Uuid) (items : list (bytes * bytes)) : list bytes :=
  match items with
  | [] => []
  | (key, value) :: items =>
    match decode_from_slice value with
    | Ok (membership, _) =>
      if (sws_session_id membership =? session_id)%N
      then key :: membership_keys session_id items else membership_keys session_id items
    | Err _ => membership_keys session_id items
    end
  end.

Definition delete_session_batch (d : DB) (session_id : Uuid) : result WriteBatch Error :=
  let batch := BatchDelete <$> [session_key session_id; update_index_key session_id;
                                meta_key session_id; message_next_key session_id] in
  try keys <- keys_under d (session_prefixes session_id);
  try items <- try_items (scan_prefix d "ws_session:");
  Ok (batch ++ (BatchDelete <$> keys) ++ (BatchDelete <$> membership_keys session_id items)).

Definition delete_session (d : DB) (session_id : Uuid) : DB * result unit Error :=
  match delete_session_batch d session_id with
  | Err e => (d, Err e)
  | Ok batch => db_write d batch
  end.

Definition clear_session_entities (d : DB) (session_id : Uuid) : DB * result unit Error :=
  match keys_under d ((λ family, family +:+ Uuid_to_string session_id +:+ ":")
                        <$> ["entity:"; "relationship:"]) with
  | Err e => (d, Err e)
  | Ok keys => db_write d (BatchDelete <$> keys)
  end.

(** ** Checkpoints *)

Definition checkpoint_key (id : Uuid) : bytes := "checkpoint:" +:+ Uuid_to_string id.

Definition save_checkpoint (d : DB) (checkpoint : SessionCheckpoint) : DB * result unit Error :=
  match encode_to_vec checkpoint with
  | Err e => (d, Err ("Failed to serialize checkpoint: " +:+ e))
  | Ok bs => db_put d (checkpoint_key (cp_id checkpoint)) (CHECKPOINT_V4 +:+ bs)
  end.

Context {C3 : Bincode (LegacySessionCheckpoint DerivedContextUpdate)}.
Context {C2 : Bincode (LegacySessionCheckpoint AuthoredContextUpdate)}.
Context {C1 : Bincode (LegacySessionCheckpoint LegacyContextUpdate)}.

Definition load_checkpoint (d : DB) (checkpoint_id : Uuid) : result SessionCheckpoint Error :=
  try data <- db_get d (checkpoint_key checkpoint_id);
  match data with
  | Some data =>
    match decode_checkpoint data with
    | Some checkpoint => Ok checkpoint
    | None => Err "Failed to deserialize checkpoint"
    end
  | None => Err "Checkpoint not found"
  end.

Definition list_checkpoints (d : DB) : result (list SessionCheckpoint) Error :=
  try items <- try_items (scan_prefix d "checkpoint:");
  Ok (omap (λ item, decode_checkpoint item.2) items).
End listing.
