(* ===== verification/RocksSessionsThms.v ===== *)
(** * The session store

    [session_tables] relates the database to four maps: the stored form of
    each session, the order of its updates, its summary, and the updates.
    [sessions_ok] is what every save keeps: the parts of a session are there
    together, and every update listed has its row.  Saving is specified as an
    operation on these maps, loading, listing and deleting by what they read. *)

From stdpp Require Import gmap.
From S2P Require Import Prelude RustStd StrLemmas UuidText Collections Types Petgraph EntityGraph GraphSerde Session HotContext SessionInv.
From S2P Require Import ContextAssembly Workspace RecordCodecs Rocks RocksThms.
From S2P Require Import RocksMessages RocksCards RocksWorkspaces RocksLegacy RocksSessions.

Local Open Scope string_scope.
Local Open Scope list_scope.
Local Open Scope pcx.

(** ** The list of ids *)

Lemma decode_encode_ids ids : Forall valid_id ids → decode_ids (encode_ids ids) = ids.
Proof.
  intros Hids. unfold decode_ids, encode_ids.
  assert (Forall byte_ok (ids ≫= be_digits 16)) as Hok.
  { apply Forall_bind, Forall_true. intros id. apply be_digits_spec. }
  unfold str_len. rewrite str_bytes_of_bytes by done. clear Hok.
  assert (∀ fuel, (length (ids ≫= be_digits 16) ≤ fuel)%nat →
    be_value <$> chunks fuel (ids ≫= be_digits 16) = ids) as Hch; [|by apply Hch].
  induction Hids as [|id ids Hid Hids IH]; intros [|fuel] Hfuel; [done..| |].
  - destruct (be_digits_spec 16 id) as (Hl & _). rewrite bind_cons, length_app, Hl in Hfuel. lia.
  - destruct (be_digits_spec 16 id) as (Hl & _ & Hv).
    rewrite bind_cons in *. rewrite length_app, Hl in Hfuel. cbn [chunks].
    rewrite (proj2 (Nat.leb_le _ _)) by (rewrite length_app; lia).
    rewrite take_app_length', drop_app_length', fmap_cons, IH, Hv by (done || lia).
    f_equal. by apply N.mod_small.
Qed.

Lemma index_filter_spec removed indexed ids :
  NoDup (index_filter removed indexed ids)
  ∧ ∀ id, id ∈ index_filter removed indexed ids ↔ id ∈ ids ∧ (id ∉ removed) ∧ (id ∉ indexed).
Proof.
  revert indexed. induction ids as [|x ids IH]; intros indexed; cbn [index_filter].
  - split; [constructor|]. intros id. rewrite elem_of_nil. tauto.
  - destruct (decide (x ∈ removed)) as [Hr|Hr]; [|destruct (decide (x ∈ indexed)) as [Hi|Hi]].
    + destruct (IH indexed) as [Hnd Hin]. split; [done|]. intros id. rewrite Hin, elem_of_cons.
      split; [tauto|]. by intros [[->|?] [? ?]].
    + destruct (IH indexed) as [Hnd Hin]. split; [done|]. intros id. rewrite Hin, elem_of_cons.
      split; [tauto|]. by intros [[->|?] [? ?]].
    + destruct (IH ({[x]} ∪ indexed)) as [Hnd Hin]. split.
      * constructor; [|done]. rewrite Hin. set_solver.
      * intros id. rewrite !elem_of_cons, Hin. destruct (decide (id = x)) as [->|]; set_solver.
Qed.

(** Ids without repeats come through in order. *)
Lemma index_filter_nodup removed indexed ids :
  NoDup ids → (∀ id, id ∈ ids → id ∉ indexed) →
  index_filter removed indexed ids = filter (λ id, id ∉ removed) ids.
Proof.
  intros Hnd. revert indexed. induction Hnd as [|x ids Hx Hnd IH]; intros indexed Hfresh; [done|].
  cbn [index_filter]. rewrite filter_cons. destruct (decide (x ∈ removed)) as [Hr|Hr].
  - rewrite decide_False by tauto. apply IH. intros id Hid. apply Hfresh. by right.
  - rewrite decide_False by (apply Hfresh; by left). rewrite decide_True by done. f_equal.
    apply IH. intros id Hid. rewrite not_elem_of_union, not_elem_of_singleton.
    split; [by intros ->|]. apply Hfresh. by right.
Qed.

(** Ids that are listed already add nothing. *)
Lemma index_filter_known removed indexed ids :
  (∀ id, id ∈ ids → id ∈ indexed) → index_filter removed indexed ids = [].
Proof.
  induction ids as [|x ids IH]; intros Hin; [done|]. cbn [index_filter].
  rewrite (decide_True (P := x ∈ indexed)) by (apply Hin; by left).
  rewrite IH by (intros id Hid; apply Hin; by right). by destruct (decide (x ∈ removed)).
Qed.

Lemma index_filter_app removed indexed ids ids' :
  index_filter removed indexed (ids ++ ids')
  = index_filter removed indexed ids
    ++ index_filter removed (indexed ∪ list_to_set (filter (λ id, id ∉ removed) ids)) ids'.
Proof.
  revert indexed. induction ids as [|x ids IH]; intros indexed; cbn [app index_filter].
  - simpl. f_equal. set_solver.
  - rewrite filter_cons. destruct (decide (x ∈ removed)) as [Hr|Hr].
    + rewrite (decide_False (P := x ∉ removed)) by tauto. apply IH.
    + rewrite (decide_True (P := x ∉ removed)) by done.
      destruct (decide (x ∈ indexed)) as [Hi|Hi]; rewrite IH.
      * f_equal. f_equal. set_solver.
      * simpl. f_equal. f_equal. f_equal. set_solver.
Qed.

(** ** The tables *)

Definition head_of (data : ActiveSessionData) : BlobHead :=
  mkBlobHead (md_id (sd_metadata data)) (md_name (sd_metadata data)) (md_description (sd_metadata data))
    (md_created_at (sd_metadata data)) (sd_last_updated data)
    (Some (length (sd_incremental_updates data))).

(** The derived JSON reads back the wire form it wrote, as far as it can write
    it (it has no NaN). *)
Class SessionJsonLaws `{SessionJson} := {
  storable : ActiveSessionData → Prop;
  json_session data : storable data →
    ∃ bs, session_to_json data = Ok bs ∧ session_from_json bs = Ok data
      ∧ head_from_json bs = Ok (head_of data);
  json_summary s : ∃ bs, summary_to_json s = Ok bs ∧ summary_from_json bs = Ok s;
}.

Definition session_families : list string := ["session"; "session_updates"; "session_meta"].

Definition valid_row (p : Uuid * Uuid) : Prop := valid_id p.1 ∧ valid_id p.2.

Abbreviation update_rows := (gmap (Uuid * Uuid) ContextUpdate) (only parsing).

(** Writing the updates [us] of [u], the last of each id. *)
Definition write_rows (u : Uuid) (us : list ContextUpdate) (W : update_rows) : update_rows :=
  foldl (λ W x, <[(u, cu_id x) := x]> W) W us.

Definition drop_rows (u : Uuid) (ids : list Uuid) (W : update_rows) : update_rows :=
  foldl (λ W id, base.delete (u, id) W) W ids.

(** The update a list holds under an id. *)
Definition find_row (us : list ContextUpdate) (id : Uuid) : option ContextUpdate :=
  last (filter (λ x, cu_id x = id) us).

Lemma find_row_id us id x : find_row us id = Some x → x ∈ us ∧ cu_id x = id.
Proof. intros Hx%last_Some_elem_of. by apply list_elem_of_filter in Hx as [-> ?]. Qed.

Lemma find_row_None us id : find_row us id = None ↔ id ∉ cu_id <$> us.
Proof.
  unfold find_row. rewrite last_None. split.
  - intros Hnil (x & -> & Hx)%list_elem_of_fmap.
    assert (x ∈ filter (λ y, cu_id y = cu_id x) us) as Hin by by apply list_elem_of_filter.
    rewrite Hnil in Hin. by apply elem_of_nil in Hin.
  - intros Hid. apply elem_of_nil_inv. intros x [Hx Hin]%list_elem_of_filter.
    apply Hid, list_elem_of_fmap. by exists x.
Qed.

Lemma lookup_write_rows u us W v id :
  write_rows u us W !! (v, id)
  = if decide (v = u) then match find_row us id with Some x => Some x | None => W !! (v, id) end
    else W !! (v, id).
Proof.
  unfold write_rows, find_row. induction us as [|x us IH] using rev_ind.
  - by destruct (decide (v = u)).
  - rewrite foldl_app, filter_app, filter_cons. simpl.
    destruct (decide (v = u)) as [->|Hne].
    + destruct (decide (cu_id x = id)) as [<-|Hid].
      * by rewrite lookup_insert_eq, filter_nil, last_snoc.
      * rewrite lookup_insert_ne by congruence. by rewrite filter_nil, app_nil_r.
    + rewrite lookup_insert_ne by congruence. done.
Qed.

Lemma lookup_drop_rows u ids W v id :
  drop_rows u ids W !! (v, id) = if decide (v = u ∧ id ∈ ids) then None else W !! (v, id).
Proof.
  unfold drop_rows. revert W. induction ids as [|i ids IH]; intros W; simpl.
  - by rewrite decide_False by (intros [_ []%elem_of_nil]).
  - rewrite IH. destruct (decide (v = u ∧ id ∈ ids)) as [[-> Hin]|Hno].
    + by rewrite decide_True by (split; [done|by right]).
    + destruct (decide ((u, i) = (v, id))) as [[= -> ->]|Hne].
      * rewrite lookup_delete_eq, decide_True; [done|]. split; [done|by left].
      * rewrite lookup_delete_ne by done. rewrite decide_False; [done|].
        intros [-> [->|Hin]%elem_of_cons]; [by apply Hne|by apply Hno].
Qed.

Lemma filter_same_id (P : ContextUpdate → Prop) `{!∀ x, base.Decision (P x)}
    (us : list ContextUpdate) id :
  (∀ x, cu_id x = id → P x) →
  filter (λ x, cu_id x = id ∧ P x) us = filter (λ x, cu_id x = id) us.
Proof. intros HP. apply list_filter_iff. intros x. specialize (HP x). tauto. Qed.

Lemma filter_no_id (P : ContextUpdate → Prop) `{!∀ x, base.Decision (P x)}
    (us : list ContextUpdate) id :
  (∀ x, cu_id x = id → ¬ P x) → filter (λ x, cu_id x = id ∧ P x) us = [].
Proof. intros HP. apply filter_drop_all. intros x _ [Hx Hp]. by apply (HP x). Qed.

Lemma index_filter_app_empty indexed ids ids' :
  index_filter ∅ indexed (ids ++ ids')
  = index_filter ∅ indexed ids ++ index_filter ∅ (indexed ∪ list_to_set ids) ids'.
Proof.
  rewrite index_filter_app. do 4 f_equal. apply filter_keep_all. intros id _. apply not_elem_of_empty.
Qed.

Lemma index_filter_new indexed ids :
  NoDup ids → (∀ id, id ∈ ids → id ∉ indexed) → index_filter ∅ indexed ids = ids.
Proof.
  intros Hnd Hnew. rewrite index_filter_nodup by done. apply filter_keep_all.
  intros id _. apply not_elem_of_empty.
Qed.

Lemma same_id_same (us : list ContextUpdate) x y :
  NoDup (cu_id <$> us) → x ∈ us → y ∈ us → cu_id x = cu_id y → x = y.
Proof.
  intros Hnd [i Hx]%list_elem_of_lookup [j Hy]%list_elem_of_lookup Heq.
  assert (i = j) as ->; [|congruence].
  apply (NoDup_lookup _ i j (cu_id x) Hnd).
  - by rewrite list_lookup_fmap, Hx.
  - rewrite list_lookup_fmap, Hy. simpl. by rewrite Heq.
Qed.

Lemma omap_ids (f : Uuid → option ContextUpdate) (us : list ContextUpdate) :
  (∀ x, x ∈ us → f (cu_id x) = Some x) → omap f (cu_id <$> us) = us.
Proof.
  induction us as [|x us IH]; intros Hf; [done|]. csimpl. rewrite Hf by by left.
  f_equal. apply IH. intros y Hy. apply Hf. by right.
Qed.

(** Listing the ids of a longer list after those of its beginning, then some
    of them again, gives the longer list. *)
Lemma index_filter_prefix old rest again :
  NoDup (old ++ rest) → again ⊆ old ++ rest →
  index_filter ∅ ∅ ((old ++ (old ++ rest)) ++ again) = old ++ rest.
Proof.
  intros Hnd Hsub. pose proof Hnd as (Hold & Hdisj & Hrest)%NoDup_app.
  rewrite !index_filter_app_empty, index_filter_new by set_solver.
  rewrite (index_filter_known _ _ old) by set_solver.
  rewrite index_filter_new by (done || set_solver).
  rewrite index_filter_known; [by rewrite app_nil_r|].
  intros id Hid%Hsub. apply elem_of_app in Hid. set_solver.
Qed.

Section store.
Context `{RL : RocksDBLaws} `{IL : UuidTextLaws} `{Un : Unicode} `{JL : SessionJsonLaws} `{P : Petgraph} `{PL : !PetgraphLaws} `{DL : DeriveRelationLaws}.
Context {BL : Bincode LegacyContextUpdate} {BA : Bincode (option string)}.
Context {BD : Bincode (list string)} {BM : Bincode UpdateMeta}.
Context {LL : BincodeField LegacyContextUpdate} {LA : BincodeField (option string)}.
Context {LD : BincodeField (list string)} {LM : BincodeField UpdateMeta}.

Definition blob_bytes (data : ActiveSessionData) : bytes :=
  match session_to_json data with Ok bs => bs | Err _ => "" end.
Definition summary_bytes (s : SessionSummary) : bytes :=
  match summary_to_json s with Ok bs => bs | Err _ => "" end.

Lemma blob_ok data : storable data →
  session_to_json data = Ok (blob_bytes data) ∧ session_from_json (blob_bytes data) = Ok data
  ∧ head_from_json (blob_bytes data) = Ok (head_of data).
Proof. intros Hs. unfold blob_bytes. by destruct (json_session data Hs) as (bs & -> & -> & ->). Qed.

Lemma summary_ok s :
  summary_to_json s = Ok (summary_bytes s) ∧ summary_from_json (summary_bytes s) = Ok s.
Proof. unfold summary_bytes. by destruct (json_summary s) as (bs & -> & ->). Qed.

Record session_tables (m : table) (B : gmap Uuid ActiveSessionData) (X : gmap Uuid (list Uuid))
    (Y : gmap Uuid SessionSummary) (W : update_rows) : Prop := {
  ss_blob u : valid_id u → m !! session_key u = blob_bytes <$> B !! u;
  ss_blob_ok u data : B !! u = Some data → valid_id u ∧ storable data;
  ss_row u id : valid_id u → valid_id id → m !! update_key u id = encoded <$> W !! (u, id);
  ss_row_ok u id x : W !! (u, id) = Some x → valid_row (u, id) ∧ cu_id x = id;
  ss_only k v : has_prefix "session:" k → m !! k = Some v →
    ∃ u, valid_id u ∧ (k = session_key u ∨ ∃ id, valid_id id ∧ k = update_key u id);
  ss_index : stored_map "session_updates:" update_index_key encode_ids valid_id m X;
  ss_meta : stored_map "session_meta:" meta_key summary_bytes valid_id m Y;
}.

(** *** Keys *)

Lemma session_key_inj u v : valid_id u → valid_id v → session_key u = session_key v → u = v.
Proof. intros Hu Hv Heq%str_app_inj_r. by apply Uuid_to_string_inj. Qed.

Lemma update_key_inj u v i j :
  valid_id u → valid_id v → valid_id i → valid_id j →
  update_key u i = update_key v j → u = v ∧ i = j.
Proof.
  intros Hu Hv Hi Hj [-> Heq]%uuid_key_inj; [|done..]. split; [done|].
  apply str_app_inj_r in Heq. by apply Uuid_to_string_inj.
Qed.

Lemma session_not_update u v i : session_key u ≠ update_key v i.
Proof.
  intros Heq%(f_equal str_len). unfold session_key, update_key in Heq.
  rewrite !str_len_app, !Uuid_text_len in Heq. unfold str_len in Heq. simpl in Heq. lia.
Qed.

Lemma index_codec : key_codec "session_updates:" update_index_key valid_id.
Proof. split; [by eexists|]. intros u v Hu Hv Heq%str_app_inj_r. by apply Uuid_to_string_inj. Qed.

Lemma meta_codec_keys : key_codec "session_meta:" meta_key valid_id.
Proof. split; [by eexists|]. intros u v Hu Hv Heq%str_app_inj_r. by apply Uuid_to_string_inj. Qed.
(** *** One write *)

Lemma put_blob m B X Y W u data :
  session_tables m B X Y W → valid_id u → storable data →
  session_tables (<[session_key u := blob_bytes data]> m) (<[u := data]> B) X Y W.
Proof.
  intros [Hb Hbo Hr Hro Ho Hi Hm] Hu Hs. split; [| | |done| | |].
  - intros v Hv. destruct (decide (v = u)) as [->|Hne]; [by rewrite !lookup_insert_eq|].
    rewrite !lookup_insert_ne; [by apply Hb|done|]. by intros Heq%session_key_inj.
  - intros v x [[<- <-]|[_ Hx]]%lookup_insert_Some; [done|by eapply Hbo].
  - intros v id Hv Hid. rewrite lookup_insert_ne by apply session_not_update. by apply Hr.
  - intros k x Hk [[<- _]|[_ Hx]]%lookup_insert_Some; [exists u; by auto|by eapply Ho].
  - eapply stored_local; [|apply index_codec|done]. intros b [r ->]. by rewrite lookup_insert_ne.
  - eapply stored_local; [|apply meta_codec_keys|done]. intros b [r ->]. by rewrite lookup_insert_ne.
Qed.

Lemma put_row m B X Y W u id x :
  session_tables m B X Y W → valid_id u → valid_id id → cu_id x = id →
  session_tables (<[update_key u id := encoded x]> m) B X Y (<[(u, id) := x]> W).
Proof.
  intros [Hb Hbo Hr Hro Ho Hi Hm] Hu Hid Hx. split; [|done| | | | |].
  - intros v Hv. rewrite lookup_insert_ne; [by apply Hb|]. apply not_eq_sym, session_not_update.
  - intros v j Hv Hj. destruct (decide ((u, id) = (v, j))) as [[= <- <-]|Hne].
    + by rewrite !lookup_insert_eq.
    + rewrite !lookup_insert_ne; [by apply Hr|done|]. intros Heq%update_key_inj; [|done..].
      destruct Heq as [-> ->]. by apply Hne.
  - intros v j y [[[= <- <-] <-]|[_ Hy]]%lookup_insert_Some; [done|by apply Hro].
  - intros k y Hk [[<- _]|[_ Hy]]%lookup_insert_Some; [|by eapply Ho].
    exists u. split; [done|]. right. by exists id.
  - eapply stored_local; [|apply index_codec|done]. intros b [r ->]. by rewrite lookup_insert_ne.
  - eapply stored_local; [|apply meta_codec_keys|done]. intros b [r ->]. by rewrite lookup_insert_ne.
Qed.

Lemma drop_row m B X Y W u id :
  session_tables m B X Y W → valid_id u → valid_id id →
  session_tables (base.delete (update_key u id) m) B X Y (base.delete (u, id) W).
Proof.
  intros [Hb Hbo Hr Hro Ho Hi Hm] Hu Hid. split; [|done| | | | |].
  - intros v Hv. rewrite lookup_delete_ne; [by apply Hb|]. apply not_eq_sym, session_not_update.
  - intros v j Hv Hj. destruct (decide ((u, id) = (v, j))) as [[= <- <-]|Hne].
    + by rewrite !lookup_delete_eq.
    + rewrite !lookup_delete_ne; [by apply Hr|done|]. intros Heq%update_key_inj; [|done..].
      destruct Heq as [-> ->]. by apply Hne.
  - intros v j y [_ Hy]%lookup_delete_Some. by apply Hro.
  - intros k y Hk [_ Hy]%lookup_delete_Some. by eapply Ho.
  - eapply stored_local; [|apply index_codec|done]. intros b [r ->]. by rewrite lookup_delete_ne.
  - eapply stored_local; [|apply meta_codec_keys|done]. intros b [r ->]. by rewrite lookup_delete_ne.
Qed.

(** The other two tables have families of their own. *)
Lemma put_index m B X Y W u ids :
  session_tables m B X Y W → valid_id u →
  session_tables (<[update_index_key u := encode_ids ids]> m) B (<[u := ids]> X) Y W.
Proof.
  intros [Hb Hbo Hr Hro Ho Hi Hm] Hu. split; [|done| |done| | |].
  - intros v Hv. rewrite lookup_insert_ne by done. by apply Hb.
  - intros v id Hv Hid. rewrite lookup_insert_ne by done. by apply Hr.
  - intros k x [r ->]. rewrite lookup_insert_ne by done. apply Ho. by eexists.
  - by apply (stored_put "session_updates:"); [apply index_codec|..].
  - eapply stored_local; [|apply meta_codec_keys|done]. intros b [r ->]. by rewrite lookup_insert_ne.
Qed.

Lemma put_meta m B X Y W u s :
  session_tables m B X Y W → valid_id u →
  session_tables (<[meta_key u := summary_bytes s]> m) B X (<[u := s]> Y) W.
Proof.
  intros [Hb Hbo Hr Hro Ho Hi Hm] Hu. split; [|done| |done| | |].
  - intros v Hv. rewrite lookup_insert_ne by done. by apply Hb.
  - intros v id Hv Hid. rewrite lookup_insert_ne by done. by apply Hr.
  - intros k x [r ->]. rewrite lookup_insert_ne by done. apply Ho. by eexists.
  - eapply stored_local; [|apply index_codec|done]. intros b [r ->]. by rewrite lookup_insert_ne.
  - by apply (stored_put "session_meta:"); [apply meta_codec_keys|..].
Qed.

(** *** A save, write by write *)

Definition row_puts (u : Uuid) (us : list ContextUpdate) : WriteBatch :=
  (λ x, BatchPut (update_key u (cu_id x)) (encoded x)) <$> us.

Lemma row_puts_app u us us' : row_puts u (us ++ us') = row_puts u us ++ row_puts u us'.
Proof. apply fmap_app. Qed.

Lemma put_rows_ok u wanted us :
  put_rows u wanted us = Ok (row_puts u (filter (λ x, wanted x = true) us)).
Proof.
  induction us as [|x us IH]; [done|]. cbn [put_rows]. destruct (wanted x) eqn:Hx.
  - rewrite filter_cons_True by done. unfold encode_update. rewrite encode_ok. simpl. by rewrite IH.
  - rewrite filter_cons_False by congruence. apply IH.
Qed.

Lemma write_rows_effect m B X Y W u us :
  session_tables m B X Y W → valid_id u → Forall (λ x, valid_id (cu_id x)) us →
  session_tables (apply_batch (row_puts u us) m) B X Y (write_rows u us W).
Proof.
  intros Hm Hu Hus. revert m W Hm. induction Hus as [|x us Hx Hus IH]; intros m W Hm; [done|].
  csimpl. apply IH. by apply put_row.
Qed.

Lemma drop_rows_effect m B X Y W u ids :
  session_tables m B X Y W → valid_id u → Forall valid_id ids →
  session_tables (apply_batch ((λ id, BatchDelete (update_key u id)) <$> ids) m) B X Y (drop_rows u ids W).
Proof.
  intros Hm Hu Hids. revert m W Hm. induction Hids as [|id ids Hid Hids IH]; intros m W Hm; [done|].
  csimpl. apply IH. by apply drop_row.
Qed.
(** ** Sessions as the maps above *)

Record Sessions := mkSessions {
  blobs : gmap Uuid ActiveSessionData;
  orders : gmap Uuid (list Uuid);
  summaries : gmap Uuid SessionSummary;
  rows_of : update_rows;
}.

Definition in_store (m : table) (σ : Sessions) : Prop :=
  session_tables m (blobs σ) (orders σ) (summaries σ) (rows_of σ).

Record sessions_ok (σ : Sessions) : Prop := {
  so_blob u : is_Some (blobs σ !! u) ↔ is_Some (orders σ !! u);
  so_summary u : is_Some (blobs σ !! u) ↔ is_Some (summaries σ !! u);
  so_data u data : blobs σ !! u = Some data →
    md_id (sd_metadata data) = u ∧ sd_incremental_updates data = [];
  so_order u ids : orders σ !! u = Some ids →
    NoDup ids ∧ ∀ id, id ∈ ids → is_Some (rows_of σ !! (u, id));
  so_summary_id u s : summaries σ !! u = Some s → sy_id s = u;
}.

Definition order_of (σ : Sessions) (u : Uuid) : list Uuid := default [] (orders σ !! u).

Context (set_order : gset Uuid → list Uuid).
Context {set_order_perm : ∀ X, set_order X ≡ₚ elements X}.

(** The ids a save lists: the ones listed, then the session's, then those of
    the updates passed along. *)
Definition saved_order (old : list Uuid) (session : ActiveSession) (explicit : list ContextUpdate)
    (removed : list Uuid) : list Uuid :=
  index_filter (list_to_set removed) ∅
    ((old ++ (cu_id <$> incremental_updates session)) ++ (cu_id <$> explicit)).

(** The updates a save writes: those passed along, and those of the session
    the store does not list yet. *)
Definition saved_rows (old : list Uuid) (session : ActiveSession) (explicit : list ContextUpdate)
    (removed : list Uuid) : list ContextUpdate :=
  filter (λ x, bool_decide (cu_id x ∉ (list_to_set removed : gset Uuid)) = true) explicit
  ++ filter (λ x, bool_decide (cu_id x ∉ (list_to_set old : gset Uuid)) && bool_decide (cu_id x ∉ ids_of explicit)
                  && bool_decide (cu_id x ∉ (list_to_set removed : gset Uuid)) = true) (incremental_updates session).

Definition save (session : ActiveSession) (explicit : list ContextUpdate) (removed : list Uuid)
    (σ : Sessions) : Sessions :=
  let u := session_id_of session in
  let old := order_of σ u in
  mkSessions (<[u := view set_order false session]> (blobs σ))
    (<[u := saved_order old session explicit removed]> (orders σ))
    (<[u := from_session session]> (summaries σ))
    (drop_rows u removed (write_rows u (saved_rows old session explicit removed) (rows_of σ))).

(** A session, the updates passed along and the removed ids, as they are
    given to a save. *)
Record savable (session : ActiveSession) (explicit : list ContextUpdate) (removed : list Uuid) : Prop := {
  sv_id : valid_id (session_id_of session);
  sv_storable : storable (view set_order false session);
  sv_updates : Forall (λ x, valid_id (cu_id x)) (incremental_updates session);
  sv_explicit : Forall (λ x, valid_id (cu_id x)) explicit;
  sv_removed : Forall valid_id removed;
}.

Lemma order_valid m σ u : in_store m σ → sessions_ok σ → Forall valid_id (order_of σ u).
Proof.
  intros Hm Hok. unfold order_of. destruct (orders σ !! u) as [ids|] eqn:Hids; [|by constructor].
  apply Forall_forall. intros id Hid. destruct (so_order _ Hok _ _ Hids) as [_ Hrows].
  destruct (Hrows id Hid) as [x Hx]. by destruct (ss_row_ok _ _ _ _ _ Hm _ _ _ Hx) as [[_ ?] _].
Qed.

Lemma order_nodup σ u : sessions_ok σ → NoDup (order_of σ u).
Proof.
  intros Hok. unfold order_of. destruct (orders σ !! u) as [ids|] eqn:Hids; [|constructor].
  by destruct (so_order _ Hok _ _ Hids).
Qed.

Lemma saved_order_valid old session explicit removed :
  Forall valid_id old → savable session explicit removed →
  Forall valid_id (saved_order old session explicit removed).
Proof.
  intros Hold [_ _ Hu He _]. apply Forall_forall. intros id Hid.
  apply index_filter_spec in Hid as [Hid _].
  rewrite Forall_forall in Hold. rewrite Forall_forall in Hu. rewrite Forall_forall in He.
  apply elem_of_app in Hid as [[Hid|Hid]%elem_of_app|Hid]; [by apply Hold|..];
    apply list_elem_of_fmap in Hid as (x & -> & Hx); [by apply Hu|by apply He].
Qed.

Lemma elem_of_saved_rows old session explicit removed x :
  x ∈ saved_rows old session explicit removed ↔
    (cu_id x ∉ removed) ∧ (x ∈ explicit ∨ x ∈ incremental_updates session
                         ∧ (cu_id x ∉ old) ∧ (cu_id x ∉ cu_id <$> explicit)).
Proof.
  unfold saved_rows, ids_of. rewrite elem_of_app, !list_elem_of_filter.
  rewrite !andb_true_iff, !bool_decide_eq_true, !elem_of_list_to_set. tauto.
Qed.

Lemma saved_rows_valid old session explicit removed :
  savable session explicit removed →
  Forall (λ x, valid_id (cu_id x)) (saved_rows old session explicit removed).
Proof.
  intros [_ _ Hu He _]. rewrite Forall_forall in Hu. rewrite Forall_forall in He.
  apply Forall_forall. intros x [_ [Hx|[Hx _]]]%elem_of_saved_rows; [by apply He|by apply Hu].
Qed.

(** Saving keeps the parts of every session together. *)
Lemma save_ok session explicit removed σ :
  sessions_ok σ → sessions_ok (save session explicit removed σ).
Proof.
  intros [Hb Hs Hd Ho Hsi]. set (u := session_id_of session).
  split; unfold save; cbn [blobs orders summaries rows_of]; fold u.
  - intros v. rewrite !lookup_insert_is_Some. by rewrite Hb.
  - intros v. rewrite !lookup_insert_is_Some. by rewrite Hs.
  - intros v data [[<- <-]|[_ Hv]]%lookup_insert_Some; [done|by apply Hd].
  - intros v ids [[<- <-]|[Hne Hv]]%lookup_insert_Some.
    + split; [apply index_filter_spec|]. intros id Hid.
      apply index_filter_spec in Hid as (Hid & Hr & _).
      rewrite lookup_drop_rows, decide_False by (intros [_ Hin]; by apply Hr, elem_of_list_to_set).
      rewrite lookup_write_rows, decide_True by done.
      destruct (find_row _ id) eqn:Hf; [done|]. apply find_row_None in Hf.
      unfold order_of in *. destruct (decide (id ∈ default [] (orders σ !! u))) as [Hold|Hnew].
      * destruct (orders σ !! u) as [ids|] eqn:Hids; [|by apply elem_of_nil in Hold].
        by apply (Ho _ _ Hids).
      * destruct Hf. apply list_elem_of_fmap. rewrite elem_of_list_to_set in Hr.
        destruct (decide (id ∈ cu_id <$> explicit)) as [Hex|Hex].
        -- apply list_elem_of_fmap in Hex as (x & -> & Hx). exists x.
           split; [done|]. apply elem_of_saved_rows. by auto.
        -- apply elem_of_app in Hid as [[Hid|Hid]%elem_of_app|Hid]; [done| |done].
           apply list_elem_of_fmap in Hid as (x & -> & Hx). exists x.
           split; [done|]. apply elem_of_saved_rows. by auto.
    + destruct (Ho _ _ Hv) as [Hnd Hrows]. split; [done|]. intros id Hid.
      rewrite lookup_drop_rows, decide_False by naive_solver.
      rewrite lookup_write_rows, decide_False by done. by apply Hrows.
  - intros v s [[<- <-]|[_ Hv]]%lookup_insert_Some; [done|by apply Hsi].
Qed.
Lemma drop_rows_same u ids ids' W : (∀ id, id ∈ ids ↔ id ∈ ids') → drop_rows u ids W = drop_rows u ids' W.
Proof.
  intros Hids. apply map_eq. intros [v id]. rewrite !lookup_drop_rows.
  destruct (decide (v = u ∧ id ∈ ids)) as [[-> Hin]|Hno].
  - by rewrite decide_True by (split; [done|by apply Hids]).
  - rewrite decide_False; [done|]. intros [-> Hin]. apply Hno. split; [done|by apply Hids].
Qed.

Lemma elem_of_set_order ids id : id ∈ set_order (list_to_set ids) ↔ id ∈ ids.
Proof. by rewrite set_order_perm, elem_of_elements, elem_of_list_to_set. Qed.

Lemma stored_index m σ u :
  in_store m σ → Forall valid_id (order_of σ u) → valid_id u →
  m !! update_index_key u = encode_ids <$> orders σ !! u
  ∧ default [] (decode_ids <$> m !! update_index_key u) = order_of σ u.
Proof.
  intros Hm Hv Hu. unfold order_of in *.
  rewrite (sm_lookup _ _ _ _ _ _ (ss_index _ _ _ _ _ Hm)) by done. split; [done|].
  destruct (orders σ !! u); simpl in *; [|done]. by apply decode_encode_ids.
Qed.

(** The batch of a save: rows, deletions, then index, summary and blob. *)
Lemma persist_batch_ok m σ session explicit removed :
  in_store m σ → Forall valid_id (order_of σ (session_id_of session)) →
  savable session explicit removed →
  let u := session_id_of session in
  let order := saved_order (order_of σ u) session explicit removed in
  let rows := saved_rows (order_of σ u) session explicit removed in
  persist_batch set_order (m !! update_index_key u) session (blob_bytes (view set_order false session))
    explicit removed
  = Ok (row_puts u rows
        ++ ((λ id, BatchDelete (update_key u id)) <$> set_order (list_to_set removed))
        ++ (if decide (m !! update_index_key u = Some (encode_ids order)) then []
            else [BatchPut (update_index_key u) (encode_ids order)])
        ++ [BatchPut (meta_key u) (summary_bytes (from_session session));
            BatchPut (session_key u) (blob_bytes (view set_order false session))],
        length rows).
Proof.
  intros Hm Hov Hs u order rows. destruct (stored_index m σ u Hm Hov (sv_id _ _ _ Hs)) as [_ Hold].
  unfold persist_batch. fold u. rewrite Hold, !put_rows_ok. simpl.
  destruct (summary_ok (from_session session)) as [-> _]. simpl.
  fold order. do 2 f_equal.
  - unfold rows, saved_rows. by rewrite row_puts_app, <-(app_assoc (row_puts _ _)).
  - unfold rows, saved_rows, row_puts. by rewrite length_app, !length_fmap.
Qed.

Lemma save_effect m σ session explicit removed :
  in_store m σ → Forall valid_id (order_of σ (session_id_of session)) → savable session explicit removed →
  let u := session_id_of session in
  let order := saved_order (order_of σ u) session explicit removed in
  let rows := saved_rows (order_of σ u) session explicit removed in
  in_store
    (apply_batch (row_puts u rows
        ++ ((λ id, BatchDelete (update_key u id)) <$> set_order (list_to_set removed))
        ++ (if decide (m !! update_index_key u = Some (encode_ids order)) then []
            else [BatchPut (update_index_key u) (encode_ids order)])
        ++ [BatchPut (meta_key u) (summary_bytes (from_session session));
            BatchPut (session_key u) (blob_bytes (view set_order false session))]) m)
    (save session explicit removed σ).
Proof.
  intros Hm Hov Hs u order rows. fold u in Hov. pose proof Hs as [Hu Hst Hup Hex Hre].
  destruct (stored_index m σ u Hm Hov Hu) as [Hidx _].
  pose proof (saved_order_valid _ session explicit removed Hov Hs) as Hvalid.
  fold order in Hvalid. rewrite !apply_batch_app.
  apply (write_rows_effect _ _ _ _ _ u rows) in Hm; [|done|by apply saved_rows_valid].
  apply (drop_rows_effect _ _ _ _ _ u (set_order (list_to_set removed))) in Hm; [|done|].
  2: { apply Forall_forall. intros id. rewrite elem_of_set_order. rewrite Forall_forall in Hre. apply Hre. }
  rewrite (drop_rows_same u _ removed) in Hm by apply elem_of_set_order.
  unfold in_store, save. fold u. cbn [blobs orders summaries rows_of]. fold order rows.
  cbn [apply_batch foldl apply_op]. apply put_blob; [|done..]. apply put_meta; [|done].
  destruct (decide _) as [Heq|_]; [|by apply put_index].
  rewrite Hidx in Heq. apply fmap_Some in Heq as (old & Hold & Heq). simpl.
  unfold order_of in Hov. rewrite Hold in Hov. simpl in Hov.
  rewrite insert_id; [done|]. rewrite Hold. f_equal.
  rewrite <-(decode_encode_ids old), <-(decode_encode_ids order) by done. by rewrite Heq.
Qed.

Lemma row_puts_family u us : Forall (λ op, family (op_key op) ∈ session_families) (row_puts u us).
Proof. apply Forall_fmap, Forall_true. intros x. by left. Qed.

(** A save does what [save] says, in one write. *)
Lemma persist_effect d m σ session explicit removed :
  db_is d m → in_store m σ → Forall valid_id (order_of σ (session_id_of session)) → savable session explicit removed →
  let u := session_id_of session in
  ∃ d' m', persist_session set_order d session (blob_bytes (view set_order false session)) explicit removed
      = (d', Ok (length (saved_rows (order_of σ u) session explicit removed)))
    ∧ persist set_order d session explicit removed = (d', Ok tt)
    ∧ db_is d' m' ∧ in_store m' (save session explicit removed σ) ∧ only_in session_families m m'.
Proof.
  intros Hd Hm Hov Hs u. pose proof (save_effect m σ session explicit removed Hm Hov Hs) as Heff.
  fold u in Heff. unfold persist, session_blob.
  destruct (blob_ok _ (sv_storable _ _ _ Hs)) as [-> _].
  assert (∃ d' m', persist_session set_order d session (blob_bytes (view set_order false session)) explicit removed
      = (d', Ok (length (saved_rows (order_of σ u) session explicit removed)))
    ∧ db_is d' m' ∧ in_store m' (save session explicit removed σ) ∧ only_in session_families m m')
    as (d' & m' & Hrun & Hd' & Hm' & Hf').
  { unfold persist_session. fold u. rewrite (db_is_get d m) by done. simpl.
    pose proof (persist_batch_ok m σ session explicit removed Hm Hov Hs) as Hb. fold u in Hb. rewrite Hb.
    edestruct (db_is_write d m) as (d' & -> & Hd'); [done|]. exists d'. eexists.
    split_and!; [done|exact Hd'|exact Heff|]. apply only_in_batch. repeat apply Forall_app_2.
    - apply row_puts_family.
    - apply Forall_fmap, Forall_true. intros id. by left.
    - destruct (decide _); [constructor|]. apply Forall_singleton. by right; left.
    - apply Forall_cons_2; [by right; right; left|]. apply Forall_singleton. by left. }
  exists d', m'. rewrite Hrun. by split_and!.
Qed.
Lemma persist_spec d m σ session explicit removed :
  db_is d m → in_store m σ → sessions_ok σ → savable session explicit removed →
  let u := session_id_of session in
  ∃ d' m', persist_session set_order d session (blob_bytes (view set_order false session)) explicit removed
      = (d', Ok (length (saved_rows (order_of σ u) session explicit removed)))
    ∧ persist set_order d session explicit removed = (d', Ok tt)
    ∧ db_is d' m' ∧ in_store m' (save session explicit removed σ) ∧ only_in session_families m m'.
Proof. intros Hd Hm Hok. apply persist_effect; [done..|]. by eapply order_valid. Qed.

(** ** Loading *)

(** The updates of a session, in its order. *)
Definition updates_of (σ : Sessions) (u : Uuid) : list ContextUpdate :=
  omap (λ id, rows_of σ !! (u, id)) (order_of σ u).

Lemma load_rows_ok d m B X Y W u ids :
  db_is d m → session_tables m B X Y W → valid_id u → Forall valid_id ids →
  load_rows d u ids = Ok (omap (λ id, W !! (u, id)) ids).
Proof.
  intros Hd Hm Hu Hids. unfold load_rows. rewrite (db_is_multi_get d m) by done.
  induction Hids as [|id ids Hid Hids IH]; [done|]. csimpl in *. rewrite IH. simpl.
  rewrite (ss_row _ _ _ _ _ Hm) by done. destruct (W !! (u, id)) as [x|]; simpl; [|done].
  by rewrite decode_update_ok.
Qed.

(** A load of a stored session whose graph can be read. *)
Lemma session_of_data_updates now data s :
  session_of_data now data = Some (Ok s) →
  incremental_updates s = sd_incremental_updates data ∧ metadata s = sd_metadata data.
Proof.
  unfold session_of_data. destruct (SimpleEntityGraph_deserialize _ _) as [[g|e]|]; [|done..]. by intros [= <-].
Qed.

Lemma read_session_ok now d m σ u data s :
  db_is d m → in_store m σ → sessions_ok σ → valid_id u →
  blobs σ !! u = Some data → session_of_data now data = Some (Ok s) →
  read_session now d u
  = Some (Ok (Some (mkLoadedSession (relink_entity_mentions (set_incremental_updates (updates_of σ u) s)) None))).
Proof.
  intros Hd Hm Hok Hu Hb Hs. unfold read_session, session_from_slice. rewrite (db_is_get d m) by done.
  rewrite (ss_blob _ _ _ _ _ Hm), Hb by done. cbn [fmap option_fmap option_map].
  destruct (ss_blob_ok _ _ _ _ _ Hm _ _ Hb) as [_ Hst]. destruct (blob_ok data Hst) as (_ & -> & _).
  rewrite Hs. cbn [mbind option_bind]. unfold with_rows. rewrite (db_is_get d m) by done.
  destruct (stored_index m σ u Hm (order_valid m σ u Hm Hok) Hu) as [Hidx Hold]. rewrite Hidx.
  destruct (so_data _ Hok _ _ Hb) as [_ Hinc].
  rewrite (proj1 (session_of_data_updates _ _ _ Hs)), Hinc.
  destruct (proj1 (so_blob _ Hok u) (mk_is_Some _ _ Hb)) as [ids Hids].
  rewrite Hidx in Hold. rewrite Hids in *. simpl in *. rewrite Hold.
  by rewrite (load_rows_ok d m _ _ _ (rows_of σ)) by (done || by eapply order_valid).
Qed.

Lemma load_session_ok now d m σ u data s :
  db_is d m → in_store m σ → sessions_ok σ → valid_id u →
  blobs σ !! u = Some data → session_of_data now data = Some (Ok s) →
  load_session set_order now d u
  = Some (d, Ok (relink_entity_mentions (set_incremental_updates (updates_of σ u) s))).
Proof.
  intros Hd Hm Hok Hu Hb Hs. unfold load_session. by rewrite (read_session_ok now d m σ u data s).
Qed.

(** With an index, its rows are read. *)
Lemma load_updates_index d m σ u :
  db_is d m → in_store m σ → Forall valid_id (order_of σ u) → is_Some (orders σ !! u) → valid_id u →
  load_session_updates d u = Ok (updates_of σ u).
Proof.
  intros Hd Hm Hv [ids Hids] Hu. unfold load_session_updates.
  rewrite (db_is_get d m) by done. destruct (stored_index m σ u Hm Hv Hu) as [Hidx Hold].
  rewrite Hidx in *. rewrite Hids in *. simpl in *. rewrite Hold.
  by rewrite (load_rows_ok d m _ _ _ (rows_of σ)) by done.
Qed.

Lemma load_updates_ok d m σ u :
  db_is d m → in_store m σ → sessions_ok σ → is_Some (blobs σ !! u) → valid_id u →
  load_session_updates d u = Ok (updates_of σ u).
Proof.
  intros Hd Hm Hok Hb%so_blob Hu; [|done]. apply (load_updates_index d m); [done..| |done|done].
  by eapply order_valid.
Qed.

Lemma listed_updates_ids m σ u :
  in_store m σ → (∀ id, id ∈ order_of σ u → is_Some (rows_of σ !! (u, id))) →
  cu_id <$> updates_of σ u = order_of σ u.
Proof.
  intros Hm. unfold updates_of. induction (order_of σ u) as [|id ids IH]; intros Hrows; [done|]. csimpl.
  destruct (Hrows id) as [x Hx]; [by left|]. rewrite Hx. csimpl.
  destruct (ss_row_ok _ _ _ _ _ Hm _ _ _ Hx) as [_ ->]. f_equal. apply IH.
  intros id' Hid. apply Hrows. by right.
Qed.

(** Every update listed is found. *)
Lemma updates_of_ids m σ u : in_store m σ → sessions_ok σ → cu_id <$> updates_of σ u = order_of σ u.
Proof.
  intros Hm Hok. apply (listed_updates_ids m); [done|]. intros id. unfold order_of.
  destruct (orders σ !! u) eqn:Ho; [|by intros ?%elem_of_nil].
  by apply (so_order _ Hok _ _ Ho).
Qed.

(** The update a save leaves under an id it lists. *)
Lemma saved_row σ session explicit removed id :
  let u := session_id_of session in
  id ∈ saved_order (order_of σ u) session explicit removed →
  rows_of (save session explicit removed σ) !! (u, id) =
    match find_row explicit id with
    | Some x => Some x
    | None =>
      if decide (id ∈ order_of σ u) then rows_of σ !! (u, id)
      else match find_row (incremental_updates session) id with
           | Some x => Some x | None => rows_of σ !! (u, id)
           end
    end.
Proof.
  intros u (_ & Hr & _)%index_filter_spec. rewrite elem_of_list_to_set in Hr.
  unfold save. cbn [rows_of]. fold u.
  rewrite lookup_drop_rows, decide_False by (by intros [_ ?]).
  rewrite lookup_write_rows, decide_True by done.
  unfold saved_rows, find_row. rewrite filter_app, !list_filter_filter, last_app.
  rewrite (filter_same_id _ explicit id).
  2: { intros x <-. by rewrite bool_decide_eq_true, elem_of_list_to_set. }
  destruct (decide (id ∈ order_of σ u ∨ id ∈ cu_id <$> explicit)) as [Hin|Hno].
  - rewrite filter_no_id.
    2: { intros x <-. rewrite !andb_true_iff, !bool_decide_eq_true. unfold ids_of.
         rewrite !elem_of_list_to_set. tauto. }
    simpl. destruct (last (filter _ explicit)) eqn:Hl; [done|].
    apply find_row_None in Hl. rewrite decide_True by tauto. done.
  - rewrite (filter_same_id _ (incremental_updates session) id).
    2: { intros x <-. rewrite !andb_true_iff, !bool_decide_eq_true. unfold ids_of.
         rewrite !elem_of_list_to_set. tauto. }
    rewrite (decide_False (P := id ∈ order_of σ u)) by tauto.
    assert (last (filter (λ x, cu_id x = id) explicit) = None) as -> by (apply find_row_None; tauto).
    by destruct (last _).
Qed.
(** Saving over an earlier state that lists a prefix of the session's updates,
    as they are now or passed along. *)
Lemma save_prefix σ session explicit :
  let u := session_id_of session in
  let us := incremental_updates session in
  NoDup (cu_id <$> us) → order_of σ u `prefix_of` (cu_id <$> us) → explicit ⊆ us →
  (∀ x, x ∈ us → cu_id x ∈ order_of σ u → x ∈ explicit ∨ rows_of σ !! (u, cu_id x) = Some x) →
  updates_of (save session explicit [] σ) u = us.
Proof.
  intros u us Hnd [rest Hpre] Hex Hrows.
  assert (saved_order (order_of σ u) session explicit [] = cu_id <$> us) as Hord.
  { unfold saved_order. fold us. rewrite Hpre in *. apply index_filter_prefix; [done|].
    intros id (x & -> & Hx%Hex)%list_elem_of_fmap. rewrite <-Hpre. apply list_elem_of_fmap. by exists x. }
  unfold updates_of, order_of at 1. unfold save at 2. cbn [orders]. fold u. rewrite lookup_insert_eq. simpl.
  rewrite Hord. apply omap_ids. intros x Hx. unfold u.
  rewrite (saved_row σ session explicit []); fold u.
  2: { rewrite Hord. apply list_elem_of_fmap. by exists x. }
  destruct (find_row explicit (cu_id x)) as [y|] eqn:Hy.
  - apply find_row_id in Hy as [Hy%Hex Hid]. f_equal. by apply (same_id_same us).
  - apply find_row_None in Hy.
    assert (x ∉ explicit) as Hnx by (intros ?; apply Hy, list_elem_of_fmap; by exists x).
    destruct (decide (cu_id x ∈ order_of σ u)) as [Hin|Hout].
    + by destruct (Hrows x Hx Hin).
    + fold us. destruct (find_row us (cu_id x)) as [y|] eqn:Hz.
      * apply find_row_id in Hz as [Hz Hid]. f_equal. by apply (same_id_same us).
      * apply find_row_None in Hz. destruct Hz. apply list_elem_of_fmap. by exists x.
Qed.

(** What a load lists after a save: the ids listed before, then the new ones,
    each once; and under each id the update passed along, else the one stored
    before, else the session's. *)
Record listed_after (σ : Sessions) (session : ActiveSession) (explicit us : list ContextUpdate) : Prop := {
  la_nodup : NoDup (cu_id <$> us);
  la_prefix : order_of σ (session_id_of session) `prefix_of` (cu_id <$> us);
  la_all id : id ∈ cu_id <$> us ↔
    id ∈ order_of σ (session_id_of session) ∨ id ∈ cu_id <$> incremental_updates session ∨ id ∈ cu_id <$> explicit;
  la_passed x : x ∈ us → cu_id x ∈ cu_id <$> explicit → x ∈ explicit;
  la_stored x : x ∈ us → cu_id x ∉ cu_id <$> explicit → cu_id x ∈ order_of σ (session_id_of session) →
    rows_of σ !! (session_id_of session, cu_id x) = Some x;
  la_new x : x ∈ us → cu_id x ∉ cu_id <$> explicit → cu_id x ∉ order_of σ (session_id_of session) →
    x ∈ incremental_updates session;
}.

Lemma save_lists m σ session explicit :
  in_store m (save session explicit [] σ) → sessions_ok σ →
  listed_after σ session explicit (updates_of (save session explicit [] σ) (session_id_of session)).
Proof.
  intros Hm Hok. set (u := session_id_of session). set (σ' := save session explicit [] σ) in *.
  pose proof (updates_of_ids m σ' u Hm (save_ok session explicit [] σ Hok)) as Hids.
  assert (order_of σ' u = saved_order (order_of σ u) session explicit []) as Hord.
  { unfold order_of, σ', save. cbn [orders]. fold u. by rewrite lookup_insert_eq. }
  destruct (index_filter_spec (list_to_set []) ∅
    ((order_of σ u ++ (cu_id <$> incremental_updates session)) ++ (cu_id <$> explicit))) as [Hnd Hin].
  assert (∀ id, id ∈ order_of σ' u ↔
    id ∈ order_of σ u ∨ id ∈ cu_id <$> incremental_updates session ∨ id ∈ cu_id <$> explicit) as Hall.
  { intros id. rewrite Hord. unfold saved_order. rewrite Hin, !elem_of_app. set_solver. }
  assert (∀ x, x ∈ updates_of σ' u → rows_of σ' !! (u, cu_id x) = Some x ∧ cu_id x ∈ order_of σ' u) as Hrow.
  { intros x (id & Hid & Hx)%list_elem_of_omap.
    destruct (ss_row_ok _ _ _ _ _ Hm _ _ _ Hx) as [_ ->]. done. }
  assert (∀ x, x ∈ updates_of σ' u → rows_of σ' !! (u, cu_id x) =
    match find_row explicit (cu_id x) with
    | Some y => Some y
    | None => if decide (cu_id x ∈ order_of σ u) then rows_of σ !! (u, cu_id x)
              else match find_row (incremental_updates session) (cu_id x) with
                   | Some y => Some y | None => rows_of σ !! (u, cu_id x) end
    end) as Hsaved.
  { intros x Hx. apply (saved_row σ session explicit [] (cu_id x)). fold u. rewrite <-Hord. by apply Hrow. }
  split; rewrite ?Hids; fold u; [| |exact Hall|..].
  - rewrite Hord. exact Hnd.
  - rewrite Hord. unfold saved_order. cbn [list_to_set]. rewrite <-app_assoc, index_filter_app_empty.
    rewrite (index_filter_new ∅ (order_of σ u)); [by eexists|by apply order_nodup|].
    intros id _. apply not_elem_of_empty.
  - intros x Hx Hex. destruct (Hrow x Hx) as [Hxr _]. rewrite (Hsaved x Hx) in Hxr.
    destruct (find_row explicit (cu_id x)) as [y|] eqn:Hy; [|by apply find_row_None in Hy].
    injection Hxr as ->. by apply find_row_id in Hy as [? _].
  - intros x Hx Hex Hin'. destruct (Hrow x Hx) as [Hxr _]. rewrite (Hsaved x Hx) in Hxr.
    rewrite (proj2 (find_row_None _ _) Hex), decide_True in Hxr by done. done.
  - intros x Hx Hex Hout. destruct (Hrow x Hx) as [Hxr Hl]. rewrite (Hsaved x Hx) in Hxr.
    rewrite (proj2 (find_row_None _ _) Hex), decide_False in Hxr by done.
    destruct (find_row (incremental_updates session) (cu_id x)) as [y|] eqn:Hy.
    + injection Hxr as ->. by apply find_row_id in Hy as [? _].
    + apply find_row_None in Hy. apply Hall in Hl. tauto.
Qed.

End store.
