(* ===== verification/RocksSessionsRuns.v ===== *)
(** * Sequences of saves, listing and migration of sessions

    What saves of any snapshots, old or new, keep of a session; the seek loop
    that lists the sessions; and how a session of an older version becomes a
    row-backed one on its first load. *)

From stdpp Require Import gmap.
From S2P Require Import Prelude RustStd StrLemmas UuidText Collections Types Petgraph EntityGraph Session HotContext SessionInv.
From S2P Require Import ContextAssembly Workspace RecordCodecs Rocks RocksThms.
From S2P Require Import RocksMessages RocksCards RocksWorkspaces RocksLegacy RocksSessions RocksSessionsThms.

Local Open Scope string_scope.
Local Open Scope list_scope.
Local Open Scope pcx.

Section runs.
Context `{RL : RocksDBLaws} `{IL : UuidTextLaws} `{Un : Unicode} `{JL : SessionJsonLaws} `{PG : Petgraph} `{PL : !PetgraphLaws}.
Context {BL : Bincode LegacyContextUpdate} {BA : Bincode (option string)}.
Context {BD : Bincode (list string)} {BM : Bincode UpdateMeta}.
Context {LL : BincodeField LegacyContextUpdate} {LA : BincodeField (option string)}.
Context {LD : BincodeField (list string)} {LM : BincodeField UpdateMeta}.
Context (set_order : gset Uuid → list Uuid).
Context {set_order_perm : ∀ X, set_order X ≡ₚ elements X}.

(** ** Updates saved without their session *)

Definition set_count (n : nat) (s : SessionSummary) : SessionSummary :=
  mkSessionSummary (sy_id s) (sy_name s) (sy_description s) (sy_created_at s) (sy_last_updated s) n.

(** The ids the updates add to a list. *)
Definition new_ids (ids : list Uuid) (us : list ContextUpdate) : list Uuid :=
  index_filter ∅ (list_to_set ids) (cu_id <$> us).

Definition batch_save (u : Uuid) (us : list ContextUpdate) (σ : Sessions) : Sessions :=
  match orders σ !! u with
  | Some ids =>
    match new_ids ids us with
    | [] => mkSessions (blobs σ) (orders σ) (summaries σ) (write_rows u us (rows_of σ))
    | new => mkSessions (blobs σ) (<[u := ids ++ new]> (orders σ))
               (alter (set_count (length (ids ++ new))) u (summaries σ)) (write_rows u us (rows_of σ))
    end
  | None => mkSessions (blobs σ) (orders σ) (summaries σ) (write_rows u us (rows_of σ))
  end.

Lemma order_of_batch_save σ u us v :
  order_of (batch_save u us σ) v
  = if decide (v = u) then match orders σ !! u with Some ids => ids ++ new_ids ids us | None => [] end
    else order_of σ v.
Proof.
  unfold batch_save, order_of. destruct (orders σ !! u) as [ids|] eqn:Hids.
  - destruct (new_ids ids us) as [|id new] eqn:Hnew; cbn [orders].
    + destruct (decide (v = u)) as [->|]; [|done]. by rewrite Hids, app_nil_r.
    + destruct (decide (v = u)) as [->|Hne]; [by rewrite lookup_insert_eq|].
      by rewrite lookup_insert_ne.
  - cbn [orders]. destruct (decide (v = u)) as [->|]; [by rewrite Hids|done].
Qed.

Lemma rows_of_batch_save σ u us : rows_of (batch_save u us σ) = write_rows u us (rows_of σ).
Proof. unfold batch_save. by destruct (orders σ !! u); [destruct (new_ids _ _)|]. Qed.

Lemma blobs_batch_save σ u us : blobs (batch_save u us σ) = blobs σ.
Proof. unfold batch_save. by destruct (orders σ !! u); [destruct (new_ids _ _)|]. Qed.

Lemma written_row u us W id : id ∈ cu_id <$> us → is_Some (write_rows u us W !! (u, id)).
Proof.
  intros Hid. rewrite lookup_write_rows, decide_True by done.
  destruct (find_row us id) eqn:Hf; [done|]. by apply find_row_None in Hf.
Qed.

Lemma kept_row u us W v id : is_Some (W !! (v, id)) → is_Some (write_rows u us W !! (v, id)).
Proof.
  intros Hx. rewrite lookup_write_rows. destruct (decide (v = u)); [|done].
  by destruct (find_row us id).
Qed.

Lemma batch_save_ok u us σ : sessions_ok σ → sessions_ok (batch_save u us σ).
Proof.
  intros Hok. pose proof Hok as [Hb Hs Hd Ho Hsi].
  assert (∀ v, is_Some (orders (batch_save u us σ) !! v) ↔ is_Some (orders σ !! v)) as Horders.
  { intros v. unfold batch_save. destruct (orders σ !! u) as [ids|] eqn:Hids; [|done].
    destruct (new_ids ids us); [done|]. cbn [orders]. rewrite lookup_insert_is_Some.
    destruct (decide (u = v)) as [->|]; [rewrite Hids|]; naive_solver. }
  assert (∀ v, summaries (batch_save u us σ) !! v = summaries σ !! v
      ∨ ∃ n, summaries (batch_save u us σ) !! v = set_count n <$> summaries σ !! v) as Hsums.
  { intros v. unfold batch_save. destruct (orders σ !! u) as [ids|]; [|by left].
    destruct (new_ids ids us); [by left|]. cbn [summaries].
    destruct (decide (v = u)) as [->|Hne]; [right; eexists; by rewrite lookup_alter_eq|].
    left. by rewrite lookup_alter_ne. }
  split.
  - intros v. by rewrite blobs_batch_save, Horders.
  - intros v. rewrite blobs_batch_save, Hs.
    destruct (Hsums v) as [->|[n ->]]; [done|]. by rewrite fmap_is_Some.
  - intros v data. rewrite blobs_batch_save. apply Hd.
  - intros v ids Hids. rewrite rows_of_batch_save.
    assert (order_of (batch_save u us σ) v = ids) as Hord by (unfold order_of; by rewrite Hids).
    rewrite order_of_batch_save in Hord. destruct (decide (v = u)) as [->|Hne].
    + destruct (proj1 (Horders u) (mk_is_Some _ _ Hids)) as [old Hold]. rewrite Hold in Hord. subst ids.
      destruct (Ho _ _ Hold) as [Hnd Hrows]. destruct (index_filter_spec ∅ (list_to_set old) (cu_id <$> us))
        as [Hnd' Hin']. split.
      * apply NoDup_app. split_and!; [done| |done]. intros id Hid Hid'.
        apply Hin' in Hid' as (_ & _ & Hno). by apply Hno, elem_of_list_to_set.
      * intros id [Hid|Hid]%elem_of_app; [by apply kept_row, Hrows|].
        apply Hin' in Hid as [Hid _]. by apply written_row.
    + unfold order_of in Hord. destruct (orders σ !! v) as [ids'|] eqn:Hv; simpl in Hord.
      * subst ids'. destruct (Ho _ _ Hv) as [Hnd Hrows]. split; [done|].
        intros id Hid. by apply kept_row, Hrows.
      * subst ids. split; [constructor|]. by intros id ?%elem_of_nil.
  - intros v s Hv. destruct (Hsums v) as [Heq|[n Heq]]; rewrite Heq in Hv; [by eapply Hsi|].
    apply fmap_Some in Hv as (s' & Hs' & ->). simpl. by eapply Hsi.
Qed.
Lemma put_all_rows u us : put_rows u (λ _, true) us = Ok (row_puts u us).
Proof. rewrite put_rows_ok. do 2 f_equal. by apply filter_keep_all. Qed.

(** Rows alone. *)
Lemma batch_rows_effect m σ u us :
  in_store m σ → valid_id u → Forall (λ x, valid_id (cu_id x)) us →
  in_store (apply_batch (row_puts u us) m)
    (mkSessions (blobs σ) (orders σ) (summaries σ) (write_rows u us (rows_of σ))).
Proof. intros Hm Hu Hus. by apply write_rows_effect. Qed.

Lemma summary_stored m σ u ids :
  in_store m σ → sessions_ok σ → valid_id u → orders σ !! u = Some ids →
  ∃ s, summaries σ !! u = Some s ∧ m !! meta_key u = Some (summary_bytes s).
Proof.
  intros Hm Hok Hu Hids.
  destruct (proj1 (so_summary _ Hok u) (proj2 (so_blob _ Hok u) (mk_is_Some _ _ Hids))) as [s Hs].
  exists s. split; [done|]. by rewrite (sm_lookup _ _ _ _ _ _ (ss_meta _ _ _ _ _ Hm)), Hs.
Qed.

(** A batch on the session families. *)
Lemma session_write d m b σ :
  db_is d m → in_store (apply_batch b m) σ → Forall (λ op, family (op_key op) ∈ session_families) b →
  ∃ d' m', db_write d b = (d', Ok tt) ∧ db_is d' m' ∧ in_store m' σ ∧ only_in session_families m m'.
Proof.
  intros Hd Hm Hb. destruct (db_is_write d m b Hd) as (d' & Hw & Hd').
  exists d', (apply_batch b m). split_and!; [done..|by apply only_in_batch].
Qed.

Lemma batch_save_spec d m σ u us :
  db_is d m → in_store m σ → sessions_ok σ → valid_id u → Forall (λ x, valid_id (cu_id x)) us →
  ∃ d' m', batch_save_updates d u us = (d', Ok tt) ∧ db_is d' m' ∧ in_store m' (batch_save u us σ)
    ∧ only_in session_families m m'.
Proof.
  intros Hd Hm Hok Hu Hus. destruct us as [|x us'].
  { exists d, m. split_and!; [done..| |apply only_in_refl].
    unfold batch_save, new_ids. destruct (orders σ !! u); exact Hm. }
  unfold batch_save_updates. set (us := x :: us') in *. rewrite put_all_rows.
  destruct (stored_index m σ u Hm (order_valid m σ u Hm Hok) Hu) as [Hidx Hold]. rewrite (db_is_get d m) by done.
  cbn [result_bind]. rewrite Hidx in *. unfold batch_save, order_of in *.
  pose proof (batch_rows_effect m σ u us Hm Hu Hus) as Hrows.
  destruct (orders σ !! u) as [ids|] eqn:Hids; simpl in Hold; cbn [fmap option_fmap option_map];
    [|apply session_write; [done..|apply row_puts_family]].
  rewrite Hold. fold (new_ids ids us). destruct (new_ids ids us) as [|id new];
    [apply session_write; [done..|apply row_puts_family]|].
  destruct (summary_stored m σ u ids Hm Hok Hu Hids) as (s & Hs & Hmeta).
  rewrite (db_is_get d m), Hmeta by done. cbn [result_bind mbind option_bind].
  destruct (summary_ok s) as [_ ->].
  destruct (summary_ok (set_count (length (ids ++ id :: new)) s)) as [Hcount _].
  unfold set_count in Hcount at 1. rewrite Hcount. cbn [result_bind].
  apply session_write; [done| |].
  - rewrite !apply_batch_app. unfold in_store in *. cbn [blobs orders summaries rows_of] in *.
    assert (alter (set_count (length (ids ++ id :: new))) u (summaries σ)
      = <[u := set_count (length (ids ++ id :: new)) s]> (summaries σ)) as ->.
    { apply map_eq. intros v. destruct (decide (v = u)) as [->|Hne].
      - by rewrite lookup_alter_eq, lookup_insert_eq, Hs.
      - by rewrite lookup_alter_ne, lookup_insert_ne. }
    apply put_meta; [|done]. by apply put_index.
  - apply Forall_app_2; [apply row_puts_family|].
    apply Forall_cons_2; [by right; left|]. apply Forall_singleton. by right; right; left.
Qed.

(** ** Any run of saves *)

Inductive save_op :=
  | SaveSession (session : ActiveSession) (updates : list ContextUpdate) (removed : list Uuid)
  | SaveUpdates (u : Uuid) (updates : list ContextUpdate).

Definition run_save (d : DB) (op : save_op) : DB * result unit Error :=
  match op with
  | SaveSession s us removed => save_session_with_changes set_order d s (session_id_of s) us removed
  | SaveUpdates u us => batch_save_updates d u us
  end.

Definition valid_save (op : save_op) : Prop :=
  match op with
  | SaveSession s us removed => savable set_order s us removed
  | SaveUpdates u us => valid_id u ∧ Forall (λ x, valid_id (cu_id x)) us
  end.

(** The ids of [u] a save was told to remove. *)
Definition dropped (u : Uuid) (op : save_op) : list Uuid :=
  match op with
  | SaveSession s _ removed => if decide (session_id_of s = u) then removed else []
  | SaveUpdates _ _ => []
  end.

Fixpoint run_saves (d : DB) (ops : list save_op) : result DB Error :=
  match ops with
  | [] => Ok d
  | op :: ops => match run_save d op with (d, Ok _) => run_saves d ops | (_, Err e) => Err e end
  end.

Definition save_step (op : save_op) (σ : Sessions) : Sessions :=
  match op with
  | SaveSession s us removed => save set_order s us removed σ
  | SaveUpdates u us => batch_save u us σ
  end.

Lemma run_save_spec d m σ op :
  db_is d m → in_store m σ → sessions_ok σ → valid_save op →
  ∃ d' m', run_save d op = (d', Ok tt) ∧ db_is d' m' ∧ in_store m' (save_step op σ)
    ∧ sessions_ok (save_step op σ) ∧ only_in session_families m m'.
Proof.
  intros Hd Hm Hok Hop. destruct op as [s us removed|u us]; simpl in *.
  - destruct (persist_spec set_order (set_order_perm := set_order_perm) d m σ s us removed Hd Hm Hok Hop)
      as (d' & m' & _ & Hrun & Hd' & Hm' & Hf).
    exists d', m'. unfold save_session_with_changes. rewrite N.eqb_refl, Hrun.
    split_and!; [done..|by apply save_ok|done].
  - destruct Hop as [Hu Hus]. destruct (batch_save_spec d m σ u us Hd Hm Hok Hu Hus)
      as (d' & m' & Hrun & Hd' & Hm' & Hf).
    exists d', m'. split_and!; [done..|by apply batch_save_ok|done].
Qed.

Lemma filter_none_dropped (ids : list Uuid) : filter (λ id, id ∉ ([] : list Uuid)) ids = ids.
Proof. apply filter_keep_all. intros id _. apply not_elem_of_nil. Qed.

(** What a save keeps of the order of a session: the ids it does not remove,
    in their order, before all others. *)
Lemma save_step_order op σ u :
  sessions_ok σ →
  filter (λ id, id ∉ dropped u op) (order_of σ u) `prefix_of` order_of (save_step op σ) u.
Proof.
  intros Hok. destruct op as [s us removed|v us]; simpl.
  - destruct (decide (session_id_of s = u)) as [<-|Hne].
    + unfold order_of at 2, save. cbn [orders]. rewrite lookup_insert_eq. simpl.
      unfold saved_order. rewrite <-app_assoc, index_filter_app.
      rewrite index_filter_nodup by (by apply order_nodup || set_solver).
      assert (filter (λ id, id ∉ (list_to_set removed : gset Uuid)) (order_of σ (session_id_of s))
        = filter (λ id, id ∉ removed) (order_of σ (session_id_of s))) as ->.
      { apply list_filter_iff. intros id. by rewrite elem_of_list_to_set. }
      by eexists.
    + rewrite filter_none_dropped. unfold order_of, save. cbn [orders].
      by rewrite lookup_insert_ne.
  - rewrite filter_none_dropped, order_of_batch_save.
    destruct (decide (u = v)) as [->|]; [|done].
    unfold order_of. destruct (orders σ !! v); simpl; [by eexists|done].
Qed.

Lemma prefix_filter (P : Uuid → Prop) `{!∀ x, base.Decision (P x)} (l l' : list Uuid) :
  l `prefix_of` l' → filter P l `prefix_of` filter P l'.
Proof. intros [r ->]. rewrite filter_app. by eexists. Qed.

(** The maps after a run. *)
Definition saves_step (ops : list save_op) (σ : Sessions) : Sessions :=
  foldl (λ σ op, save_step op σ) σ ops.

Lemma run_saves_spec d m σ ops :
  db_is d m → in_store m σ → sessions_ok σ → Forall valid_save ops →
  ∃ d' m', run_saves d ops = Ok d' ∧ db_is d' m' ∧ in_store m' (saves_step ops σ)
    ∧ sessions_ok (saves_step ops σ).
Proof.
  intros Hd Hm Hok Hops. revert d m σ Hd Hm Hok.
  induction Hops as [|op ops Hop Hops IH]; intros d m σ Hd Hm Hok; [by exists d, m|].
  destruct (run_save_spec d m σ op Hd Hm Hok Hop) as (d1 & m1 & Hr & Hd1 & Hm1 & Hok1 & _).
  destruct (IH d1 m1 _ Hd1 Hm1 Hok1) as (d' & m' & Hrun & ?). exists d', m'. simpl. by rewrite Hr.
Qed.

Lemma saves_step_blob ops σ u : is_Some (blobs σ !! u) → is_Some (blobs (saves_step ops σ) !! u).
Proof.
  revert σ. induction ops as [|op ops IH]; intros σ Hu; [done|]. apply IH.
  destruct op as [s us removed|v us]; simpl.
  - unfold save. cbn [blobs]. rewrite lookup_insert_is_Some'. by right.
  - by rewrite blobs_batch_save.
Qed.

Lemma saves_step_order ops σ u :
  sessions_ok σ →
  filter (λ id, id ∉ ops ≫= dropped u) (order_of σ u) `prefix_of` order_of (saves_step ops σ) u.
Proof.
  revert σ. induction ops as [|op ops IH]; intros σ Hok.
  { simpl. by rewrite filter_none_dropped. }
  assert (sessions_ok (save_step op σ)) as Hok'.
  { destruct op; [by apply save_ok|by apply batch_save_ok]. }
  etrans; [|exact (IH _ Hok')].
  pose proof (prefix_filter (λ id, id ∉ ops ≫= dropped u) _ _ (save_step_order op σ u Hok)) as Hp.
  rewrite list_filter_filter in Hp. etrans; [|exact Hp].
  apply reflexive_eq, list_filter_iff. intros id. csimpl. rewrite not_elem_of_app. tauto.
Qed.

(** ** The list of sessions *)

Lemma seek_ok d m key :
  db_is d m → String.le SESSION_PREFIX key →
  seek d key = Ok <$> filter (λ e, String.le key e.1) (under_prefix SESSION_PREFIX m).
Proof.
  intros [Hd <-] Hkey. unfold seek. rewrite db_iterator_ok by done. f_equal.
  unfold iteration, under_prefix. rewrite !list_filter_filter. apply list_filter_iff.
  intros [k v]. simpl. rewrite <-upper_bound_prefix.
  unfold in_bounds, prefix_read_opts. simpl. rewrite bool_decide_eq_true.
  split; [|tauto]. intros [Hle Hb]. split_and!; [done| |done]. by etrans.
Qed.

Lemma ascii_well_formed s : ascii s → well_formed s.
Proof.
  intros Hs. unfold well_formed. rewrite <-(str_app_nil_r s) at 1.
  rewrite lossy_ascii_app by done. apply str_app_nil_r.
Qed.

Lemma session_key_len u : str_len (session_key u) = SESSION_KEY_LEN.
Proof. unfold session_key. by rewrite str_len_app, Uuid_text_len. Qed.

Lemma update_key_eq u id : update_key u id = session_key u +:+ (":update:" +:+ Uuid_to_string id).
Proof. unfold update_key, session_key. by rewrite !str_app_assoc. Qed.

Lemma take_bytes_app a b : take_bytes (str_len a) (a +:+ b) = a.
Proof. unfold take_bytes, str_len. rewrite str_bytes_app, take_app_length. apply str_of_bytes_bytes. Qed.

Lemma take_session_key u key :
  key = session_key u ∨ (∃ id, key = update_key u id) → take_bytes SESSION_KEY_LEN key = session_key u.
Proof.
  rewrite <-(session_key_len u). intros [->|[id ->]].
  - rewrite <-(str_app_nil_r (session_key u)) at 2. apply take_bytes_app.
  - rewrite update_key_eq. apply take_bytes_app.
Qed.

(** The id a key lists: only a blob has one. *)
Definition listed (e : bytes * bytes) : option Uuid :=
  if (str_len e.1 =? SESSION_KEY_LEN)%nat then session_id_at e.1 else None.

Lemma listed_session u v : valid_id u → listed (session_key u, v) = Some u.
Proof.
  intros Hu. unfold listed, session_id_at. simpl fst. rewrite session_key_len, Nat.eqb_refl.
  unfold session_key. rewrite skip_bytes_app, decide_True by apply ascii_well_formed, uuid_ascii.
  by apply Uuid_parse_to_string.
Qed.

Lemma listed_update u id v : listed (update_key u id, v) = None.
Proof.
  unfold listed. simpl fst. rewrite update_key_eq, str_len_app, session_key_len.
  rewrite (proj2 (Nat.eqb_neq _ _)); [done|]. rewrite str_len_app. change (str_len ":update:") with 8%nat. lia.
Qed.

Lemma session_before_update u id : String.le (session_key u) (update_key u id).
Proof. rewrite update_key_eq. apply str_le_bytes. rewrite str_bytes_app. apply bytes_le_prefix. Qed.

(** What follows [session:{id}] up to the next seek are rows of the same
    session. *)
Lemma before_next_seek u v key :
  valid_id u → valid_id v → (key = session_key v ∨ ∃ id, key = update_key v id) →
  String.le (session_key u) key → ¬ String.le (session_key u +:+ ";") key → v = u.
Proof.
  intros Hu Hv Hkey Hle Hgt.
  assert (has_prefix (session_key u) key) as [r Hr].
  { apply has_prefix_bytes. apply str_le_bytes in Hle.
    apply (bytes_le_within _ (str_bytes ";")); [done|]. rewrite <-str_bytes_app. apply str_le_bytes.
    by destruct (total String.le key (session_key u +:+ ";")). }
  assert (key = session_key v +:+ match decide (key = session_key v) with left _ => "" | right _ => r end) as Hk.
  { destruct (decide (key = session_key v)) as [->|Hne]; [by rewrite str_app_nil_r|].
    destruct Hkey as [?|[id ->]]; [done|]. rewrite update_key_eq in Hr |- *.
    pose proof (str_app_inj (session_key v) (session_key u) _ _ ltac:(by rewrite !session_key_len) Hr) as [_ ->].
    done. }
  rewrite Hk in Hr. apply str_app_inj in Hr as [Heq _]; [|by rewrite !session_key_len].
  by apply session_key_inj in Heq.
Qed.
Lemma omap_none {A B} (f : A → option B) (l : list A) : (∀ x, x ∈ l → f x = None) → omap f l = [].
Proof.
  induction l as [|x l IH]; intros Hf; [done|]. csimpl. rewrite Hf by by left.
  apply IH. intros y Hy. apply Hf. by right.
Qed.

Lemma filter_not_not {A} (P : A → Prop) `{!∀ x, base.Decision (P x)} (l : list A) :
  filter (λ x, ¬ ¬ P x) l = filter P l.
Proof. apply list_filter_iff. intros x. destruct (decide (P x)); tauto. Qed.

Lemma NoDup_omap_keys {A B K} (key : A → K) (f : A → option B) (l : list A) :
  NoDup (key <$> l) →
  (∀ x y b, x ∈ l → y ∈ l → f x = Some b → f y = Some b → key x = key y) → NoDup (omap f l).
Proof.
  induction l as [|x l IH]; intros Hnd Hinj; csimpl in *; [constructor|].
  apply NoDup_cons in Hnd as [Hx Hnd].
  assert (NoDup (omap f l)) as Hl.
  { apply IH; [done|]. intros y z b Hy Hz. apply Hinj; by right. }
  destruct (f x) as [b|] eqn:Hb; [|done]. constructor; [|done].
  intros (y & Hy & Hfy)%list_elem_of_omap. apply Hx, list_elem_of_fmap. exists y.
  split; [|done]. by apply (Hinj x y b); [left|right|..].
Qed.

Lemma str_le_prefix (p r : string) : String.le p (p +:+ r).
Proof. apply str_le_bytes. rewrite str_bytes_app. apply bytes_le_prefix. Qed.

Lemma prefix_before_seek u : String.le SESSION_PREFIX (session_key u +:+ ";").
Proof. unfold session_key. rewrite str_app_assoc. apply str_le_prefix. Qed.

(** Which key a pair of the family has. *)
Definition session_entry (e : bytes * bytes) (u : Uuid) : Prop :=
  valid_id u ∧ (e.1 = session_key u ∨ ∃ id, e.1 = update_key u id).

(** The pairs the next seek skips list no session. *)
Lemma skipped_unlisted e es u :
  StronglySorted key_le (e :: es) → NoDup (e :: es).*1 → session_entry e u →
  (∀ e', e' ∈ es → ∃ u', session_entry e' u') →
  omap listed es = omap listed (filter (λ e', String.le (session_key u +:+ ";") e'.1) es).
Proof.
  intros [Hs He]%StronglySorted_inv Hnd [Hu Hkey] Hall.
  rewrite (sorted_filter_split key_le (λ e', ¬ String.le (session_key u +:+ ";") e'.1) es) at 1;
    [|done|intros x y Hxy Hy Hx; apply Hy; by etrans].
  rewrite omap_app. assert (omap listed (filter (λ e', ¬ String.le (session_key u +:+ ";") e'.1) es) = []) as ->.
  { apply omap_none. intros e' [Hno Hin]%list_elem_of_filter.
    rewrite Forall_forall in He. specialize (He e' Hin). unfold key_le in He.
    assert (String.le (session_key u) e'.1) as Hle.
    { etrans; [|exact He]. destruct Hkey as [->|[id ->]]; [done|apply session_before_update]. }
    destruct (Hall e' Hin) as (u' & Hu' & Hkey').
    assert (u' = u) as -> by (by apply (before_next_seek u u' e'.1)).
    destruct e' as [k' v']. simpl in *. destruct Hkey' as [->|[id ->]]; [|apply listed_update].
    exfalso. apply NoDup_cons in Hnd as [Hnew _]. apply Hnew, list_elem_of_fmap.
    exists (session_key u, v'). split; [|done]. simpl. apply (anti_symm String.le); [done|].
    destruct Hkey as [->|[id ->]]; [done|apply session_before_update]. }
  simpl. f_equal. apply list_filter_iff. intros e'. destruct (decide (String.le (session_key u +:+ ";") e'.1)); tauto.
Qed.

Lemma list_loop_ok d m pre rem fuel acc :
  db_is d m → under_prefix SESSION_PREFIX m = pre ++ rem → (length rem ≤ fuel)%nat →
  (∀ e, e ∈ under_prefix SESSION_PREFIX m → ∃ u, session_entry e u) →
  list_loop d fuel (Ok <$> rem) acc = Some (Ok (acc ++ omap listed rem)).
Proof.
  intros Hd. revert pre rem acc. induction fuel as [|fuel IH]; intros pre rem acc Heq Hlen Hall.
  { destruct rem; [|simpl in Hlen; lia]. simpl. by rewrite app_nil_r. }
  destruct rem as [|[key v] es]; [simpl; by rewrite app_nil_r|]. simpl in Hlen.
  destruct (Hall (key, v)) as [u Hu]; [rewrite Heq; apply elem_of_app; right; by left|].
  pose proof (under_prefix_sorted SESSION_PREFIX m) as Hs.
  pose proof (under_prefix_keys_NoDup SESSION_PREFIX m) as Hnd.
  rewrite Heq in Hs, Hnd. rewrite fmap_app in Hnd.
  pose proof Hs as (Hpre & _ & Hrem)%StronglySorted_app. apply NoDup_app in Hnd as (_ & _ & Hnd).
  set (next := session_key u +:+ ";").
  set (rest := filter (λ e, String.le next e.1) es).
  cbn [fmap list_fmap list_loop]. pose proof Hu as [Hvu Hkey]. simpl in Hkey.
  rewrite (take_session_key u key) by done.
  assert ((SESSION_KEY_LEN ≤ str_len key)%nat) as Hklen.
  { destruct Hkey as [->|[id ->]]; [by rewrite session_key_len|].
    rewrite update_key_eq, str_len_app, session_key_len. lia. }
  rewrite (proj2 (Nat.ltb_ge _ _)) by done. fold next.
  assert (¬ String.le next key) as Hpast.
  { unfold next. destruct Hkey as [->|[id ->]].
    - rewrite <-(str_app_nil_r (session_key u)) at 2.
      rewrite str_le_app, str_le_bytes. by intros [].
    - rewrite update_key_eq, str_le_app, str_le_bytes. by intros [Hlt|[? _]]. }
  rewrite (seek_ok d m) by (done || apply prefix_before_seek).
  rewrite Heq, filter_app, filter_cons_False by done.
  rewrite (filter_drop_all _ pre).
  2: { intros x Hx Hle. apply Hpast. etrans; [exact Hle|]. by apply (Hpre x (key, v) Hx); left. }
  fold rest. simpl app.
  assert (es = filter (λ e, ¬ String.le next e.1) es ++ filter (λ e, ¬ ¬ String.le next e.1) es) as Hsplit.
  { apply (sorted_filter_split key_le); [by apply StronglySorted_inv in Hrem as [? _]|].
    intros x y Hxy Hy Hx. apply Hy. by etrans. }
  rewrite (filter_not_not _ es) in Hsplit. fold rest in Hsplit.
  rewrite (IH (pre ++ (key, v) :: filter (λ e, ¬ String.le next e.1) es)).
  - do 2 f_equal.
    assert (omap listed es = omap listed rest) as Hes.
    { apply skipped_unlisted with (key, v); [done..|]. intros e He. apply Hall. rewrite Heq.
      apply elem_of_app. right. by right. }
    cbn [omap list_omap]. fold (omap (M := list) listed). rewrite Hes. unfold listed at 2. simpl fst.
    destruct (str_len key =? SESSION_KEY_LEN)%nat; [|done].
    destruct (session_id_at key); [by rewrite <-app_assoc|done].
  - rewrite Heq, Hsplit at 1. by rewrite <-app_assoc.
  - apply (f_equal length) in Hsplit. rewrite length_app in Hsplit. lia.
  - done.
Qed.

(** The fuel: a step per key of the family. *)
Definition list_fuel (m : table) : nat := length (under_prefix SESSION_PREFIX m).

Lemma session_entries m σ e :
  in_store m σ → e ∈ under_prefix SESSION_PREFIX m → ∃ u, session_entry e u.
Proof.
  intros Hm He. destruct e as [k v]. apply elem_of_under_prefix in He as [Hk Hv].
  destruct (ss_only _ _ _ _ _ Hm k v Hk Hv) as (u & Hu & [->|(id & _ & ->)]);
    exists u; (split; [done|]); [by left|right; by exists id].
Qed.

Lemma list_sessions_spec d m σ fuel :
  db_is d m → in_store m σ → (list_fuel m ≤ fuel)%nat →
  ∃ ids, list_sessions d fuel = Some (Ok ids) ∧ NoDup ids
    ∧ ∀ u, u ∈ ids ↔ is_Some (blobs σ !! u).
Proof.
  intros Hd Hm Hfuel. exists (omap listed (under_prefix SESSION_PREFIX m)). split.
  - unfold list_sessions, list_session_ids. rewrite (seek_ok d m) by done.
    rewrite (filter_keep_all _ (under_prefix SESSION_PREFIX m)).
    2: { intros [k v] [[r ->] _]%elem_of_under_prefix. apply str_le_prefix. }
    by apply (list_loop_ok d m [] _ fuel []); [..|intros e; apply (session_entries m σ)].
  - assert (∀ k v u, (k, v) ∈ under_prefix SESSION_PREFIX m → listed (k, v) = Some u →
      valid_id u ∧ k = session_key u) as Hlisted.
    { intros k v u Hin Hl. destruct (session_entries m σ _ Hm Hin) as (u' & Hu' & Hkey). simpl in Hkey.
      destruct Hkey as [->|[id ->]]; [|by rewrite listed_update in Hl].
      rewrite listed_session in Hl by done. by injection Hl as <-. }
    split.
    + apply (NoDup_omap_keys fst); [apply under_prefix_keys_NoDup|].
      intros [k v] [k' v'] u Hin Hin' Hl Hl'.
      destruct (Hlisted _ _ _ Hin Hl) as [_ ->], (Hlisted _ _ _ Hin' Hl') as [_ ->]. done.
    + intros u. rewrite list_elem_of_omap. split.
      * intros ([k v] & Hin & Hl). destruct (Hlisted _ _ _ Hin Hl) as [Hu ->].
        apply elem_of_under_prefix in Hin as [_ Hv]. rewrite (ss_blob _ _ _ _ _ Hm) in Hv by done.
        apply fmap_Some in Hv as (data & -> & _). done.
      * intros [data Hdata]. destruct (ss_blob_ok _ _ _ _ _ Hm _ _ Hdata) as [Hu _].
        exists (session_key u, blob_bytes data). split; [|by apply listed_session].
        apply elem_of_under_prefix. split; [by eexists|].
        by rewrite (ss_blob _ _ _ _ _ Hm), Hdata by done.
Qed.

(** Listing the sessions ends after at most a step per key and reports
    exactly the stored sessions, each once, although it seeks over the rows
    of each instead of reading them. *)
Theorem list_sessions_exact d m σ fuel :
  db_is d m → in_store m σ → (list_fuel m ≤ fuel)%nat →
  ∃ ids, list_sessions d fuel = Some (Ok ids) ∧ NoDup ids
    ∧ ∀ u, u ∈ ids ↔ is_Some (blobs σ !! u).
Proof. apply list_sessions_spec. Qed.

(** ** Summaries *)

Lemma meta_fold (l : list (Uuid * SessionSummary)) (acc : gmap Uuid SessionSummary) u :
  NoDup l.*1 → (∀ e, e ∈ l → sy_id e.2 = e.1) →
  foldl (λ (metas : gmap Uuid SessionSummary) (item : bytes * bytes),
           match summary_from_json item.2 with
           | Ok summary => <[sy_id summary := summary]> metas
           | Err _ => metas
           end) acc ((λ e, (meta_key e.1, summary_bytes e.2)) <$> l) !! u
  = match (list_to_map l : gmap Uuid SessionSummary) !! u with Some s => Some s | None => acc !! u end.
Proof.
  revert acc. induction l as [|[v s] l IH]; intros acc Hnd Hid; [done|].
  csimpl in *. apply NoDup_cons in Hnd as [Hv Hnd]. destruct (summary_ok s) as [_ ->].
  rewrite IH by (done || intros e He; apply Hid; by right).
  assert (sy_id s = v) as -> by (apply (Hid (v, s)); by left). simpl. destruct (decide (u = v)) as [->|Hne].
  - rewrite !lookup_insert_eq. by rewrite not_elem_of_list_to_map_1.
  - by rewrite !lookup_insert_ne.
Qed.

Lemma meta_records_ok (l : list (Uuid * SessionSummary)) (M : gmap Uuid SessionSummary) :
  NoDup l.*1 → (∀ u s, (u, s) ∈ l ↔ M !! u = Some s) → (∀ u s, M !! u = Some s → sy_id s = u) →
  meta_records ((λ e, (meta_key e.1, summary_bytes e.2)) <$> l) = M.
Proof.
  intros Hnd Hl Hid.
  apply map_eq. intros u. unfold meta_records. rewrite meta_fold, lookup_empty; [|done|].
  2: { intros [v s] He. simpl. by apply Hid, Hl. }
  destruct (M !! u) as [s|] eqn:Hu.
  - apply Hl in Hu. by rewrite (elem_of_list_to_map_1 l u s).
  - rewrite not_elem_of_list_to_map_1; [done|]. intros ([v s] & -> & Hin)%list_elem_of_fmap.
    apply Hl in Hin. simpl in Hu. congruence.
Qed.

(** A session whose summary is stored costs no read. *)
Lemma summaries_loop_ok (d : DB) ids (M : gmap Uuid SessionSummary) acc :
  NoDup ids → (∀ u, u ∈ ids → is_Some (M !! u)) →
  summaries_loop d ids M acc = (d, acc ++ omap (M !!.) ids).
Proof.
  intros Hnd. revert M acc. induction Hnd as [|u ids Hu Hnd IH]; intros M acc Hin; csimpl.
  { by rewrite app_nil_r. }
  destruct (Hin u) as [s Hs]; [by left|]. rewrite Hs, IH.
  - rewrite <-app_assoc. simpl. do 3 f_equal. apply list_omap_ext, Forall_Forall2_diag, Forall_forall.
    intros v Hv. apply lookup_delete_ne. by intros ->.
  - intros v Hv. rewrite lookup_delete_ne by by intros ->. apply Hin. by right.
Qed.

Lemma list_summaries_spec d m σ fuel :
  db_is d m → in_store m σ → sessions_ok σ → (list_fuel m ≤ fuel)%nat →
  ∃ ids, list_sessions d fuel = Some (Ok ids)
    ∧ list_session_summaries d fuel = Some (d, Ok (omap (summaries σ !!.) ids))
    ∧ (sy_id <$> omap (summaries σ !!.) ids) = ids.
Proof.
  intros Hd Hm Hok Hfuel. destruct (list_sessions_spec d m σ fuel Hd Hm Hfuel) as (ids & Hids & Hnd & Hin).
  exists ids. split; [done|].
  assert (∀ u, u ∈ ids → is_Some (summaries σ !! u)) as Hsum by (intros u ?%Hin; by apply (so_summary _ Hok)).
  unfold list_sessions in Hids.
  destruct (stored_scan "session_meta:" meta_key summary_bytes valid_id m (summaries σ) META_PREFIX)
    as (l & Heq & Hl1 & Hl2 & _); [apply meta_codec_keys|apply (ss_meta _ _ _ _ _ Hm)|by exists ""|].
  split.
  - unfold list_session_summaries. rewrite (db_is_scan d m), try_items_ok, Hids by done.
    cbn [mbind option_bind]. rewrite Heq, (meta_records_ok l (summaries σ)), summaries_loop_ok; [done..| |].
    + intros u s. rewrite Hl2. split; [by intros [? _]|]. intros Hs. split; [done|]. by eexists.
    + apply (so_summary_id _ Hok).
  - clear -Hsum Hok. induction ids as [|u ids IH]; [done|]. csimpl.
    destruct (Hsum u) as [s Hs]; [by left|]. rewrite Hs. csimpl.
    rewrite (so_summary_id _ Hok _ _ Hs). f_equal. apply IH. intros v Hv. apply Hsum. by right.
Qed.

(** Listing the summaries reports one per stored session, the one stored
    last under its id, in the order of the session listing, and reads neither
    blobs nor updates nor writes anything. *)
Theorem list_summaries_exact d m σ fuel :
  db_is d m → in_store m σ → sessions_ok σ → (list_fuel m ≤ fuel)%nat →
  ∃ ids, list_sessions d fuel = Some (Ok ids)
    ∧ list_session_summaries d fuel = Some (d, Ok (omap (summaries σ !!.) ids))
    ∧ (sy_id <$> omap (summaries σ !!.) ids) = ids.
Proof. apply list_summaries_spec. Qed.

(** Saving a snapshot that lacks updates stored since (a copy taken
    before them) keeps these updates, but the summary counts only the
    snapshot's: the listing reports fewer updates than a load returns. *)
Theorem stale_save_undercounts d m σ session fuel :
  db_is d m → in_store m σ → sessions_ok σ → savable set_order session [] [] →
  (∃ id, id ∈ order_of σ (session_id_of session) ∧ (id ∉ cu_id <$> incremental_updates session)) →
  cu_id <$> incremental_updates session ⊆ order_of σ (session_id_of session) →
  NoDup (cu_id <$> incremental_updates session) →
  ∃ d' m' σ' us s, save_session set_order d session = (d', Ok tt) ∧ db_is d' m' ∧ in_store m' σ'
    ∧ load_session_updates d' (session_id_of session) = Ok us
    ∧ summaries σ' !! session_id_of session = Some s
    ∧ ((list_fuel m' ≤ fuel)%nat → ∃ ss, list_session_summaries d' fuel = Some (d', Ok ss) ∧ s ∈ ss)
    ∧ (sy_update_count s < length us)%nat.
Proof.
  intros Hd Hm Hok Hs (id & Hin & Hout) Hsub Hnd. set (u := session_id_of session) in *.
  destruct (persist_spec set_order (set_order_perm := set_order_perm) d m σ session [] [] Hd Hm Hok Hs)
    as (d' & m' & _ & Hrun & Hd' & Hm' & _).
  pose proof (save_ok set_order session [] [] σ Hok) as Hok'. set (σ' := save set_order session [] [] σ) in *.
  assert (is_Some (blobs σ' !! u)) as Hb by (unfold σ', save; cbn [blobs]; fold u; by rewrite lookup_insert_eq).
  assert (summaries σ' !! u = Some (from_session session)) as Hsu.
  { unfold σ', save. cbn [summaries]. fold u. by rewrite lookup_insert_eq. }
  exists d', m', σ', (updates_of σ' u), (from_session session). split_and!; [done..| | | |].
  - apply (load_updates_ok d' m'); [done..|]. apply (sv_id _ _ _ _ Hs).
  - done.
  - intros Hfuel. destruct (list_summaries_spec d' m' σ' fuel Hd' Hm' Hok' Hfuel) as (ids & Hids & Hsums & _).
    eexists. split; [exact Hsums|]. apply list_elem_of_omap. exists u. split; [|done].
    destruct (list_sessions_spec d' m' σ' fuel Hd' Hm' Hfuel) as (ids' & Hids' & _ & Hin').
    assert (ids' = ids) as -> by congruence. by apply Hin'.
  - rewrite <-(length_fmap cu_id (updates_of σ' u)), (updates_of_ids m') by done.
    unfold from_session. cbn [sy_update_count].
    assert (order_of σ' u = order_of σ u) as ->.
    { unfold order_of at 1, σ', save. cbn [orders]. fold u. rewrite lookup_insert_eq. simpl.
      unfold saved_order. cbn [fmap list_fmap]. rewrite app_nil_r, index_filter_app_empty.
      rewrite (index_filter_known _ _ (cu_id <$> _)) by set_solver. rewrite app_nil_r.
      apply index_filter_new; [by apply order_nodup|set_solver]. }
    rewrite <-(length_fmap cu_id (incremental_updates session)).
    apply (submseteq_length (id :: _)). apply NoDup_submseteq; [by constructor|].
    intros x [->|Hx]%elem_of_cons; [done|by apply Hsub].
Qed.
End runs.
