(* ===== verification/RocksMigration.v ===== *)
(** * Sessions of older versions

    [read_session] and [backfill_legacy] of [sessions.rs] on a blob that still
    embeds its updates: the first load returns the embedded list and rewrites
    the session as blob, rows and index; what later loads return. *)

From stdpp Require Import gmap.
From S2P Require Import Prelude RustStd StrLemmas UuidText Collections Types Petgraph EntityGraph GraphSerde Session HotContext SessionInv.
From S2P Require Import ContextAssembly Workspace RecordCodecs Rocks RocksThms.
From S2P Require Import RocksMessages RocksCards RocksWorkspaces RocksLegacy RocksSessions RocksSessionsThms.

Local Open Scope string_scope.
Local Open Scope list_scope.
Local Open Scope pcx.

Section migration.
Context `{RL : RocksDBLaws} `{IL : UuidTextLaws} `{Un : Unicode} `{JL : SessionJsonLaws} `{P : Petgraph} `{DR : DeriveRelation}.
Context {BL : Bincode LegacyContextUpdate} {BA : Bincode (option string)}.
Context {BD : Bincode (list string)} {BM : Bincode UpdateMeta}.
Context {LL : BincodeField LegacyContextUpdate} {LA : BincodeField (option string)}.
Context {LD : BincodeField (list string)} {LM : BincodeField UpdateMeta}.
Context (set_order : gset Uuid → list Uuid).
Context {set_order_perm : ∀ X, set_order X ≡ₚ elements X}.
Context (now : nat → nat → DateTime).

(** A stored session the current version did not write: its blob embeds its
    updates, or it has no index; the blob reads as the session [s]. *)
Record legacy_session (σ : Sessions) (u : Uuid) (data : ActiveSessionData) (s : ActiveSession) : Prop := {
  lg_blob : blobs σ !! u = Some data;
  lg_session : session_of_data now data = Some (Ok s);
  lg_id : md_id (sd_metadata data) = u;
  lg_embedded : orders σ !! u = None ∨ sd_incremental_updates data ≠ [];
  lg_order : Forall valid_id (order_of σ u);
  lg_rows id : id ∈ order_of σ u → is_Some (rows_of σ !! (u, id));
}.

(** What its load returns, and the ids listed that the blob lacks. *)
Definition migrated (s : ActiveSession) : ActiveSession := relink_entity_mentions s.

Definition outdated (σ : Sessions) (u : Uuid) (data : ActiveSessionData) : list Uuid :=
  filter (λ id, id ∉ ids_of (sd_incremental_updates data)) (order_of σ u).

Lemma legacy_fields σ u data s :
  legacy_session σ u data s →
  session_id_of (migrated s) = u ∧ incremental_updates (migrated s) = sd_incremental_updates data.
Proof.
  intros Hl. destruct (session_of_data_updates _ _ _ (lg_session _ _ _ _ Hl)) as [Hus Hmd]. split; [|exact Hus].
  unfold session_id_of. cbn. rewrite Hmd. exact (lg_id _ _ _ _ Hl).
Qed.

Lemma read_legacy d m σ u data s :
  db_is d m → in_store m σ → legacy_session σ u data s →
  read_session now d u = Some (Ok (Some (mkLoadedSession (migrated s) (Some (blob_bytes data))))).
Proof.
  intros Hd Hm [Hb Hses _ Hleg Hord _]. destruct (ss_blob_ok _ _ _ _ _ Hm _ _ Hb) as [Hu Hst].
  unfold read_session, session_from_slice. rewrite (db_is_get d m) by done. rewrite (ss_blob _ _ _ _ _ Hm), Hb by done.
  cbn [fmap option_fmap option_map]. destruct (blob_ok data Hst) as (_ & -> & _).
  rewrite Hses. cbn [mbind option_bind]. unfold with_rows. rewrite (db_is_get d m) by done.
  rewrite (proj1 (session_of_data_updates _ _ _ Hses)).
  destruct (stored_index m σ u Hm Hord Hu) as [-> _].
  destruct Hleg as [->|Hne]; [done|]. simpl in *.
  destruct (encode_ids <$> _) as [|]; [|done]. by destruct (sd_incremental_updates data).
Qed.

Lemma legacy_load_spec d m σ u data s :
  db_is d m → in_store m σ → legacy_session σ u data s →
  savable set_order (migrated s) [] (outdated σ u data) →
  ∃ d' m', load_session set_order now d u = Some (d', Ok (migrated s))
    ∧ db_is d' m' ∧ in_store m' (save set_order (migrated s) [] (outdated σ u data) σ)
    ∧ only_in session_families m m'.
Proof.
  intros Hd Hm Hl Hs. pose proof Hl as [Hb _ Hid _ Hord _].
  destruct (ss_blob_ok _ _ _ _ _ Hm _ _ Hb) as [Hu Hst].
  destruct (stored_index m σ u Hm Hord Hu) as [_ Hold].
  destruct (legacy_fields _ _ _ _ Hl) as [Hsid Hinc].
  unfold load_session. rewrite (read_legacy d m σ u data s) by done. cbn [mbind option_bind legacy_blob loaded].
  unfold backfill_legacy. rewrite Hsid, !(db_is_get d m) by done.
  rewrite (ss_blob _ _ _ _ _ Hm), Hb by done. unfold session_blob.
  destruct (blob_ok _ (sv_storable _ _ _ _ Hs)) as [-> _]. cbn [result_bind fmap option_fmap option_map].
  rewrite decide_True by done. cbn [result_bind]. rewrite Hold.
  destruct (persist_effect set_order (set_order_perm := set_order_perm) d m σ (migrated s) []
    (outdated σ u data)) as (d' & m' & Hrun & _ & Hd' & Hm' & Hf'); [done..| by rewrite Hsid | done |].
  exists d', m'. rewrite Hinc. fold (outdated σ u data). rewrite Hrun. by split_and!.
Qed.

(** The row a migration leaves under an id: the one stored under an id listed
    already, else the embedded update. *)
Definition migrated_row (σ : Sessions) (u : Uuid) (data : ActiveSessionData) (id : Uuid)
    : option ContextUpdate :=
  if decide (id ∈ order_of σ u) then rows_of σ !! (u, id)
  else match find_row (sd_incremental_updates data) id with
       | Some x => Some x
       | None => rows_of σ !! (u, id)
       end.

(** The order a migration leaves. *)
Definition migrated_order (σ : Sessions) (u : Uuid) (data : ActiveSessionData) : list Uuid :=
  index_filter (list_to_set (outdated σ u data)) ∅ ((order_of σ u ++ (cu_id <$> sd_incremental_updates data)) ++ []).

Lemma migrated_saved σ u data s :
  legacy_session σ u data s → saved_order (order_of σ u) (migrated s) [] (outdated σ u data) = migrated_order σ u data.
Proof. intros Hl. unfold saved_order. by rewrite (proj2 (legacy_fields _ _ _ _ Hl)). Qed.

Lemma elem_of_migrated_order σ u data id :
  id ∈ migrated_order σ u data ↔ id ∈ cu_id <$> sd_incremental_updates data.
Proof.
  unfold migrated_order. destruct (index_filter_spec (list_to_set (outdated σ u data)) ∅
    ((order_of σ u ++ (cu_id <$> sd_incremental_updates data)) ++ [])) as [_ ->].
  rewrite elem_of_list_to_set. unfold outdated. rewrite list_elem_of_filter, !elem_of_app.
  unfold ids_of. rewrite elem_of_list_to_set. destruct (decide (id ∈ cu_id <$> sd_incremental_updates data)); [|set_solver].
  split; [done|]. intros _. split_and!; [by left; right|naive_solver|apply not_elem_of_empty].
Qed.

(** A blob that was never migrated keeps its order. *)
Lemma migrated_order_new σ u data :
  order_of σ u = [] → NoDup (cu_id <$> sd_incremental_updates data) →
  migrated_order σ u data = cu_id <$> sd_incremental_updates data.
Proof.
  intros Hnone Hnd. unfold migrated_order, outdated. rewrite Hnone, filter_nil. simpl.
  rewrite app_nil_r. apply index_filter_new; [done|]. intros id _. apply not_elem_of_empty.
Qed.

(** Each row has the id it is listed under. *)
Lemma migrated_ids m σ u data s :
  in_store m σ → legacy_session σ u data s →
  cu_id <$> omap (migrated_row σ u data) (migrated_order σ u data) = migrated_order σ u data.
Proof.
  intros Hm Hl. assert (∀ id, id ∈ migrated_order σ u data →
    ∃ x, migrated_row σ u data id = Some x ∧ cu_id x = id) as Hrow.
  { intros id Hid%elem_of_migrated_order. unfold migrated_row. destruct (decide _) as [Hin|_].
    - destruct (lg_rows _ _ _ _ Hl id Hin) as [x Hx]. exists x. split; [done|].
      by destruct (ss_row_ok _ _ _ _ _ Hm _ _ _ Hx).
    - destruct (find_row _ id) as [x|] eqn:Hx.
      + apply find_row_id in Hx as [_ Hx]. by exists x.
      + by apply find_row_None in Hx. }
  induction (migrated_order σ u data) as [|id ids IH]; [done|]. csimpl.
  destruct (Hrow id) as (x & -> & Hx); [by left|]. csimpl. rewrite Hx. f_equal.
  apply IH. intros id' Hid'. apply Hrow. by right.
Qed.

Lemma migrated_updates d m σ u data s :
  db_is d m → in_store m (save set_order (migrated s) [] (outdated σ u data) σ) →
  legacy_session σ u data s → valid_id u → Forall (λ x, valid_id (cu_id x)) (sd_incremental_updates data) →
  load_session_updates d u = Ok (omap (migrated_row σ u data) (migrated_order σ u data)).
Proof.
  intros Hd Hm Hl Hu Hvalid. pose proof Hl as [Hb _ Hid _ Hord Hrows].
  destruct (legacy_fields _ _ _ _ Hl) as [Hsid Hinc].
  set (σ' := save set_order (migrated s) [] (outdated σ u data) σ) in *.
  assert (orders σ' !! u = Some (migrated_order σ u data)) as Ho.
  { unfold σ', save. rewrite Hsid. cbn [orders]. by rewrite lookup_insert_eq, (migrated_saved _ _ _ _ Hl). }
  assert (order_of σ' u = migrated_order σ u data) as Ho' by (unfold order_of; by rewrite Ho).
  rewrite (load_updates_index d m σ'); [|done..| |by rewrite Ho|done].
  2: { rewrite Ho'. apply Forall_forall. intros id. rewrite elem_of_migrated_order.
       intros (x & -> & Hx)%list_elem_of_fmap. rewrite Forall_forall in Hvalid. by apply Hvalid. }
  unfold updates_of. rewrite Ho'. f_equal. apply list_omap_ext. apply Forall_Forall2_diag, Forall_forall.
  intros id Hin. unfold σ'. rewrite <-Hsid at 1.
  rewrite (saved_row set_order σ (migrated s) [] (outdated σ u data)) by by rewrite Hsid, (migrated_saved _ _ _ _ Hl).
  rewrite Hsid, Hinc. unfold find_row at 1. rewrite filter_nil. simpl. unfold migrated_row.
  by destruct (decide (id ∈ order_of σ u)).
Qed.

(** The first load of a session an older version wrote returns its
    embedded updates and rewrites it as rows.  Later loads list exactly the
    ids embedded: all embedded updates as they are when the session had no
    index, but the stored row, not the embedded update, under each id an index
    already listed. *)
Theorem first_load_migrates d m σ u data s :
  db_is d m → in_store m σ → legacy_session σ u data s →
  savable set_order (migrated s) [] (outdated σ u data) →
  let us := sd_incremental_updates data in
  NoDup (cu_id <$> us) →
  ∃ d' m' later, load_session set_order now d u = Some (d', Ok (relink_entity_mentions s))
    ∧ db_is d' m' ∧ only_in session_families m m'
    ∧ load_session_updates d' u = Ok later ∧ (cu_id <$> later) ≡ₚ (cu_id <$> us)
    ∧ (orders σ !! u = None → later = us)
    ∧ ∀ x, x ∈ us →
        (cu_id x ∉ order_of σ u → x ∈ later)
        ∧ ∀ y, cu_id x ∈ order_of σ u → rows_of σ !! (u, cu_id x) = Some y → y ∈ later.
Proof.
  intros Hd Hm Hl Hs us Hnd. pose proof (ss_blob_ok _ _ _ _ _ Hm _ _ (lg_blob _ _ _ _ Hl)) as [Hu _].
  destruct (legacy_load_spec d m σ u data s Hd Hm Hl Hs) as (d' & m' & Hload & Hd' & Hm' & Hf).
  pose proof (sv_updates _ _ _ _ Hs) as Hvalid. rewrite (proj2 (legacy_fields _ _ _ _ Hl)) in Hvalid.
  pose proof (migrated_updates d' m' σ u data s Hd' Hm' Hl Hu Hvalid) as Hlater.
  exists d', m', (omap (migrated_row σ u data) (migrated_order σ u data)).
  assert (∀ x, x ∈ us → cu_id x ∉ order_of σ u → migrated_row σ u data (cu_id x) = Some x) as Hnew.
  { intros x Hx Hout. unfold migrated_row. rewrite decide_False by done.
    destruct (find_row (sd_incremental_updates data) (cu_id x)) as [y|] eqn:Hy.
    - apply find_row_id in Hy as [Hy Hid]. f_equal. by apply (same_id_same us).
    - apply find_row_None in Hy. destruct Hy. apply list_elem_of_fmap. by exists x. }
  assert (∀ x y, x ∈ us → migrated_row σ u data (cu_id x) = Some y →
    y ∈ omap (migrated_row σ u data) (migrated_order σ u data)) as Hin.
  { intros x y Hx Hy. apply list_elem_of_omap. exists (cu_id x). split; [|done].
    apply elem_of_migrated_order, list_elem_of_fmap. by exists x. }
  split_and!; [done..| | |].
  - etrans; [apply reflexive_eq, (migrated_ids m σ u data s Hm Hl)|].
    apply NoDup_Permutation; [apply index_filter_spec|done|]. apply elem_of_migrated_order.
  - intros Hnone. assert (order_of σ u = []) as Hempty by (unfold order_of; by rewrite Hnone).
    rewrite migrated_order_new by done. apply omap_ids. intros x Hx. apply Hnew; [done|].
    rewrite Hempty. apply not_elem_of_nil.
  - intros x Hx. split; [intros Hout; by apply (Hin x x); auto|].
    intros y Hold Hy. apply (Hin x y); [done|]. unfold migrated_row. by rewrite decide_True.
Qed.
End migration.
