(* ===== verification/RocksDeletion.v ===== *)
(** * Deleting a session

    [delete_session] and [clear_session_entities] of [sessions.rs] across the
    components that keep something under the id of a session: the session
    store, the message streams, the memberships of workspaces, and the
    families of embeddings, entities and relationships. *)

From stdpp Require Import gmap.
From S2P Require Import Prelude RustStd StrLemmas UuidText Collections Types Petgraph EntityGraph Session HotContext SessionInv.
From S2P Require Import ContextAssembly Workspace RecordCodecs Rocks RocksThms.
From S2P Require Import SearchResults RocksMessages RocksCards RocksWorkspaces RocksLegacy RocksSessions RocksSessionsThms.

Local Open Scope string_scope.
Local Open Scope list_scope.
Local Open Scope pcx.

(** The families only deletion and the graph store touch. *)
Definition graph_families : list string := ["embedding"; "entity"; "relationship"].

Definition deletion_families : list string :=
  session_families ++ message_families ++ graph_families ++ ["ws_session"].

(** The session maps without a session. *)
Definition forget_session `{Petgraph} (u : Uuid) (σ : Sessions) : Sessions :=
  mkSessions (base.delete u (blobs σ)) (base.delete u (orders σ)) (base.delete u (summaries σ))
    (filter (λ e, e.1.1 ≠ u) (rows_of σ)).

Section deletion.
Context `{RL : RocksDBLaws} `{IL : UuidTextLaws} `{Un : Unicode} `{JL : SessionJsonLaws} `{PG : Petgraph} `{PL : !PetgraphLaws}.
Context `{ML : BincodeLaws Message} `{WL : BincodeLaws StoredWorkspace}.
Context `{SL : BincodeLaws StoredWorkspaceSession}.
Context {BL : Bincode LegacyContextUpdate} {BA : Bincode (option string)}.
Context {BD : Bincode (list string)} {BM : Bincode UpdateMeta}.

(** The keys a deletion drops. *)
Inductive gone (u : Uuid) (S : memberships) : bytes → Prop :=
  | gone_key k : k ∈ [session_key u; update_index_key u; meta_key u; message_next_key u] → gone u S k
  | gone_under p k : p ∈ session_prefixes u → has_prefix p k → gone u S k
  | gone_member w : is_Some (S !! (w, u)) → gone u S (ws_session_key w u).

Lemma keys_under_ok d m ps :
  db_is d m → ∃ ks, keys_under d ps = Ok ks
    ∧ ∀ k, k ∈ ks ↔ is_Some (m !! k) ∧ ∃ p, p ∈ ps ∧ has_prefix p k.
Proof.
  intros Hd. induction ps as [|p ps (ks & IH & Hks)].
  { exists []. split; [done|]. intros k. rewrite elem_of_nil. split; [done|]. by intros [_ (p & ?%elem_of_nil & _)]. }
  exists ((under_prefix p m).*1 ++ ks). cbn [keys_under]. rewrite (db_is_keys d m) by done.
  cbn [result_bind]. rewrite IH. split; [done|]. intros k. rewrite elem_of_app, Hks, list_elem_of_fmap.
  split.
  - intros [([k' v] & -> & [Hk Hv]%elem_of_under_prefix)|[Hk (q & Hq & Hpre)]].
    + split; [by eexists|]. exists p. split; [by left|done].
    + split; [done|]. exists q. split; [by right|done].
  - intros [[v Hv] (q & [->|Hq]%elem_of_cons & Hpre)].
    + left. exists (k, v). split; [done|]. by apply elem_of_under_prefix.
    + right. split; [by eexists|]. by exists q.
Qed.

Lemma membership_keys_ok u (l : list ((Uuid * Uuid) * StoredWorkspaceSession)) k :
  k ∈ membership_keys u ((λ e, (uncurry ws_session_key e.1, encoded e.2)) <$> l)
  ↔ ∃ p x, (p, x) ∈ l ∧ sws_session_id x = u ∧ k = uncurry ws_session_key p.
Proof.
  induction l as [|[p x] l IH]; csimpl.
  { rewrite elem_of_nil. split; [done|]. by intros (p & x & ?%elem_of_nil & _). }
  rewrite decode_encoded. destruct (N.eqb_spec (sws_session_id x) u) as [Heq|Hne].
  - rewrite elem_of_cons, IH. split.
    + intros [->|(q & y & Hin & Hy & ->)]; [exists p, x|exists q, y]; (split; [by constructor|done]).
    + intros (q & y & [[= -> ->]|Hin]%elem_of_cons & Hy & ->); [by left|right]. by exists q, y.
  - rewrite IH. split.
    + intros (q & y & Hin & Hy & ->). exists q, y. split; [by right|done].
    + intros (q & y & [[= -> ->]|Hin]%elem_of_cons & Hy & ->); [done|]. by exists q, y.
Qed.

(** What a deletion does to the contents. *)
Lemma delete_session_table d m W S u :
  db_is d m → workspace_tables m W S → valid_id u →
  ∃ d' m', delete_session d u = (d', Ok tt) ∧ db_is d' m'
    ∧ (∀ k, gone u S k → m' !! k = None) ∧ ∀ k, ¬ gone u S k → m' !! k = m !! k.
Proof.
  intros Hd Hw Hu. unfold delete_session, delete_session_batch.
  destruct (keys_under_ok d m (session_prefixes u) Hd) as (ks & -> & Hks). cbn [result_bind].
  rewrite (db_is_scan d m), try_items_ok by done. cbn [result_bind].
  destruct (stored_scan "ws_session:" (uncurry ws_session_key) encoded valid_pair m S "ws_session:")
    as (l & -> & _ & Hl & _); [apply ws_session_codec|apply (wt_members _ _ _ Hw)|by exists ""; rewrite str_app_nil_r|].
  set (four := [session_key u; _; _; _]).
  set (members := membership_keys u _). rewrite <-!fmap_app.
  destruct (db_is_write d m (BatchDelete <$> (four ++ ks ++ members)) Hd) as (d' & -> & Hd').
  exists d', (apply_batch (BatchDelete <$> (four ++ ks ++ members)) m). split_and!; [done..| |].
  - intros k Hk. rewrite apply_deletes. destruct (decide (k ∈ _)) as [|Hno]; [done|].
    rewrite !not_elem_of_app in Hno. destruct Hno as (Hfour & Hks' & Hmem).
    destruct Hk as [k Hk|p k Hp Hpre|w [x Hx]]; [done|..].
    + destruct (m !! k) eqn:Hm; [|done]. destruct Hks'. apply Hks. split; [by rewrite Hm|by exists p].
    + destruct Hmem. apply membership_keys_ok. exists (w, u), x. split_and!; [|..|done].
      * apply Hl. split; [done|]. by eexists.
      * by injection (wt_member_id _ _ _ Hw _ _ Hx).
  - intros k Hk. rewrite apply_deletes. destruct (decide (k ∈ _)) as [Hin|]; [|done].
    destruct Hk. apply elem_of_app in Hin as [Hin|[Hin|Hin]%elem_of_app].
    + by apply gone_key.
    + apply Hks in Hin as [_ (p & Hp & Hpre)]. by apply (gone_under _ _ p).
    + apply membership_keys_ok in Hin as ([w v] & x & Hin & Hx & ->). simpl.
      apply Hl in Hin as [Hin _]. injection (wt_member_id _ _ _ Hw _ _ Hin) as <- <-.
      rewrite Hx. apply gone_member. rewrite Hx in Hin. by eexists.
Qed.

(** A deleted key, family by family. *)
Lemma gone_inv u S k : gone u S k →
  (k = session_key u ∨ has_prefix ("session:" +:+ Uuid_to_string u +:+ ":") k)
  ∨ k = update_index_key u ∨ k = meta_key u ∨ k = message_next_key u
  ∨ has_prefix ("message:" +:+ Uuid_to_string u +:+ ":") k
  ∨ has_prefix ("message_turn:" +:+ Uuid_to_string u +:+ ":") k
  ∨ has_prefix ("embedding:" +:+ Uuid_to_string u +:+ ":") k
  ∨ has_prefix ("entity:" +:+ Uuid_to_string u +:+ ":") k
  ∨ has_prefix ("relationship:" +:+ Uuid_to_string u +:+ ":") k
  ∨ ∃ w, is_Some (S !! (w, u)) ∧ k = ws_session_key w u.
Proof.
  intros [k' Hk|p k' Hp Hk|w Hw].
  - repeat (apply elem_of_cons in Hk as [->|Hk]); [tauto..|by apply elem_of_nil in Hk].
  - unfold session_prefixes in Hp. csimpl in Hp.
    repeat (apply elem_of_cons in Hp as [->|Hp]); [tauto..|by apply elem_of_nil in Hp].
  - do 9 right. by exists w.
Qed.

(** The alternatives of other families are contradictory. *)
Ltac gone_cases :=
  let Hg := fresh "Hg" in
  intros Hg%gone_inv;
  repeat match goal with
  | H : _ ∨ _ |- _ => destruct H
  | H : ∃ _, _ |- _ => destruct H
  | H : _ ∧ _ |- _ => destruct H
  end;
  try match goal with
  | H : has_prefix _ _ |- _ => exfalso; destruct H as [? H]; discriminate H
  | H : @eq bytes _ _ |- _ => exfalso; discriminate H
  end.

(** A key text under the prefix of a session is one of that session. *)
Lemma under_session p u v s :
  valid_id u → valid_id v →
  has_prefix (p +:+ Uuid_to_string u +:+ ":") (p +:+ Uuid_to_string v +:+ s) → v = u.
Proof.
  intros Hu Hv [r Hr]. rewrite !str_app_assoc in Hr. by apply uuid_key_inj in Hr as [-> _].
Qed.

Lemma session_key_prefix u v : ¬ has_prefix ("session:" +:+ Uuid_to_string u +:+ ":") (session_key v).
Proof.
  intros [r Hr%(f_equal str_len)]. unfold session_key in Hr.
  rewrite !str_len_app, !Uuid_text_len in Hr. unfold str_len in Hr. simpl in Hr. lia.
Qed.

Lemma session_prefix_in p u :
  p ∈ ["session:"; "message:"; "message_turn:"; "embedding:"; "entity:"; "relationship:"] →
  p +:+ Uuid_to_string u +:+ ":" ∈ session_prefixes u.
Proof. intros Hp. apply list_elem_of_fmap. by exists p. Qed.

Lemma gone_row u S id : gone u S (update_key u id).
Proof.
  apply (gone_under _ _ ("session:" +:+ Uuid_to_string u +:+ ":")); [by apply session_prefix_in; left|].
  exists ("update:" +:+ Uuid_to_string id). unfold update_key. by rewrite !str_app_assoc.
Qed.

(** The parts of the session store. *)
Lemma forget_in_store m m' S σ u :
  (∀ k, gone u S k → m' !! k = None) → (∀ k, ¬ gone u S k → m' !! k = m !! k) →
  in_store m σ → valid_id u → in_store m' (forget_session u σ).
Proof.
  intros Hgone Hsame [Hb Hbo Hr Hro Ho Hi Hmt] Hu. unfold in_store, forget_session.
  split; cbn [blobs orders summaries rows_of].
  - intros v Hv. destruct (decide (v = u)) as [->|Hne].
    + rewrite lookup_delete_eq. apply Hgone, gone_key. by left.
    + rewrite lookup_delete_ne, Hsame; [by apply Hb| |done]. gone_cases.
      * match goal with H : _ = _ |- _ => by apply session_key_inj in H end.
      * by eapply session_key_prefix.
  - intros v data [_ Hv]%lookup_delete_Some. by eapply Hbo.
  - intros v id Hv Hid. destruct (decide (v = u)) as [->|Hne].
    + rewrite (proj2 (map_lookup_filter_None _ _ _)); [apply Hgone, gone_row|].
      right. intros x _ Hx. by apply Hx.
    + rewrite Hsame; [rewrite Hr by done|].
      * f_equal. destruct (rows_of σ !! (v, id)) as [x|] eqn:Hx.
        -- symmetry. by apply map_lookup_filter_Some.
        -- symmetry. apply map_lookup_filter_None. by left.
      * gone_cases.
        -- by eapply session_not_update.
        -- match goal with H : has_prefix _ _ |- _ => by apply under_session in H end.
  - intros v id x [Hx _]%map_lookup_filter_Some. by eapply Hro.
  - intros k v Hk Hv. destruct (decide (m !! k = Some v)) as [Heq|Hne]; [by eapply Ho|].
    assert (¬ ¬ gone u S k) as Hg by (intros Hng; rewrite Hsame in Hv by done; done).
    exfalso. apply Hg. intros Hg'. by rewrite Hgone in Hv.
  - eapply stored_local; [|apply index_codec|apply (stored_delete "session_updates:"); [apply index_codec|done..]].
    intros k Hk. destruct (decide (k = update_index_key u)) as [->|Hne].
    + rewrite lookup_delete_eq. apply Hgone, gone_key. right. by left.
    + rewrite lookup_delete_ne, Hsame; [done| |done]. destruct Hk as [r ->]. by gone_cases.
  - eapply stored_local; [|apply meta_codec_keys|apply (stored_delete "session_meta:"); [apply meta_codec_keys|done..]].
    intros k Hk. destruct (decide (k = meta_key u)) as [->|Hne].
    + rewrite lookup_delete_eq. apply Hgone, gone_key. do 2 right. by left.
    + rewrite lookup_delete_ne, Hsame; [done| |done]. destruct Hk as [r ->]. by gone_cases.
Qed.

(** The stream of the session is empty again. *)
Lemma forget_stream m m' S τ u :
  (∀ k, gone u S k → m' !! k = None) → (∀ k, ¬ gone u S k → m' !! k = m !! k) →
  message_streams m τ → valid_id u → message_streams m' (with_stream u empty_stream τ).
Proof.
  intros Hgone Hsame [Hok Hnext Hrow Hturn Honly] Hu.
  assert (∀ p v s, p ∈ ["message:"; "message_turn:"] → valid_id v →
    gone u S (p +:+ Uuid_to_string v +:+ ":" +:+ s) ↔ v = u) as Hunder.
  { intros p v s Hp Hv. split.
    - repeat (apply elem_of_cons in Hp as [->|Hp]); [..|by apply elem_of_nil in Hp];
        gone_cases; match goal with H : has_prefix _ _ |- _ => by apply under_session in H end.
    - intros ->. apply (gone_under _ _ (p +:+ Uuid_to_string u +:+ ":")).
      + apply session_prefix_in. apply elem_of_cons in Hp as [->|Hp%elem_of_cons]; [set_solver|].
        destruct Hp as [->|?%elem_of_nil]; [set_solver|done].
      + exists s. by rewrite !str_app_assoc. }
  split; unfold with_stream.
  - intros v Hv. destruct (decide (v = u)) as [->|]; [by split|by apply Hok].
  - intros v Hv. destruct (decide (v = u)) as [->|Hne].
    + apply Hgone, gone_key. do 3 right. by left.
    + rewrite Hsame; [by apply Hnext|]. gone_cases.
      match goal with H : _ = _ |- _ => by apply message_next_key_inj in H end.
  - intros v i Hv Hi. pose proof (Hunder "message:" v (pad_zeros 20 i) (ltac:(by left)) Hv) as Hg.
    destruct (decide (v = u)) as [->|Hne]; [by apply Hgone, Hg|].
    rewrite Hsame; [by apply Hrow|]. by intros ?%Hg.
  - intros v t b Hv. pose proof (Hunder "message_turn:" v t (ltac:(by right; left)) Hv) as Hg.
    destruct (decide (v = u)) as [->|Hne].
    + rewrite Hgone by by apply Hg. split; [done|]. by intros (i & x & Hx & _).
    + rewrite Hsame; [by apply Hturn|]. by intros ?%Hg.
  - intros k v Hk Hv. apply (Honly k v); [done|]. rewrite <-Hsame; [done|].
    intros Hg. by rewrite Hgone in Hv.
Qed.

(** Workspaces keep their other members. *)
Lemma forget_memberships m m' W S u :
  (∀ k, gone u S k → m' !! k = None) → (∀ k, ¬ gone u S k → m' !! k = m !! k) →
  workspace_tables m W S → valid_id u → workspace_tables m' W (filter (λ e, e.1.2 ≠ u) S).
Proof.
  intros Hgone Hsame [Hw Hs Hid Hmid] Hu.
  assert (∀ w v, is_Some (S !! (w, v)) → gone u S (ws_session_key w v) ↔ v = u) as Hkey.
  { intros w v [x Hx]. split; [|intros ->; apply gone_member; by eexists]. gone_cases.
    destruct (sm_valid _ _ _ _ _ _ Hs _ _ Hx).
    match goal with H1 : is_Some (S !! _), H2 : _ = _ |- _ =>
      destruct H1 as [y Hy]; destruct (sm_valid _ _ _ _ _ _ Hs _ _ Hy);
      by apply (kc_inj _ _ _ ws_session_codec (w, v) (_, u)) in H2 as [= _ ->] end. }
  split; [| |done|].
  - eapply stored_local; [|apply workspace_codec|done]. intros b [r ->]. apply Hsame. by gone_cases.
  - split.
    + intros [w v] Hv. simpl. destruct (S !! (w, v)) as [x|] eqn:Hx.
      * destruct (decide (v = u)) as [->|Hne].
        -- rewrite (proj2 (map_lookup_filter_None _ _ _)).
           ++ apply Hgone, gone_member. by eexists.
           ++ right. intros y _ Hy. by apply Hy.
        -- rewrite (proj2 (map_lookup_filter_Some _ _ _ x)) by done.
           rewrite Hsame by by rewrite Hkey by by eexists.
           pose proof (sm_lookup _ _ _ _ _ _ Hs (w, v) Hv) as Hl. simpl in Hl. by rewrite Hl, Hx.
      * rewrite (proj2 (map_lookup_filter_None _ _ _)) by by left.
        destruct (m' !! ws_session_key w v) as [b|] eqn:Hb; [|done].
        pose proof (sm_lookup _ _ _ _ _ _ Hs (w, v) Hv) as Hl. simpl in Hl. rewrite Hx in Hl.
        rewrite Hsame, Hl in Hb; [done|]. intros Hg. by rewrite Hgone in Hb.
    + intros p x [Hx _]%map_lookup_filter_Some. by eapply sm_valid.
    + intros b v Hb Hv. eapply (sm_only _ _ _ _ _ _ Hs); [done|]. rewrite <-Hsame; [done|].
      intros Hg. by rewrite Hgone in Hv.
  - intros p x [? _]%map_lookup_filter_Some. by apply Hmid.
Qed.

Lemma forget_ok u σ : sessions_ok σ → sessions_ok (forget_session u σ).
Proof.
  intros [Hb Hs Hd Ho Hsi]. split; unfold forget_session; cbn [blobs orders summaries rows_of].
  - intros v. rewrite !lookup_delete_is_Some. by rewrite Hb.
  - intros v. rewrite !lookup_delete_is_Some. by rewrite Hs.
  - intros v data [_ Hv]%lookup_delete_Some. by apply Hd.
  - intros v ids [Hne Hv]%lookup_delete_Some. destruct (Ho _ _ Hv) as [Hnd Hrows].
    split; [done|]. intros id [x Hx]%Hrows. exists x. by apply map_lookup_filter_Some.
  - intros v s [_ Hv]%lookup_delete_Some. by eapply Hsi.
Qed.

Lemma gone_family u S k : gone u S k → family k ∈ deletion_families.
Proof.
  intros Hg%gone_inv.
  repeat match goal with
  | H : _ ∨ _ |- _ => destruct H
  | H : ∃ _, _ |- _ => destruct H
  | H : _ ∧ _ |- _ => destruct H
  | H : has_prefix _ _ |- _ => destruct H as [? ->]
  end; subst; solve_families.
Qed.

(** The graph and the vectors of a session. *)
Lemma forget_graph (m m' : table) S u p v s :
  (∀ k, gone u S k → m' !! k = None) → (∀ k, ¬ gone u S k → m' !! k = m !! k) →
  valid_id u → valid_id v → p ∈ ["embedding:"; "entity:"; "relationship:"] →
  m' !! (p +:+ Uuid_to_string v +:+ ":" +:+ s)
  = if decide (v = u) then None else m !! (p +:+ Uuid_to_string v +:+ ":" +:+ s).
Proof.
  intros Hgone Hsame Hu Hv Hp. destruct (decide (v = u)) as [->|Hne].
  - apply Hgone, (gone_under _ _ (p +:+ Uuid_to_string u +:+ ":")).
    + apply session_prefix_in. set_solver.
    + exists s. by rewrite !str_app_assoc.
  - apply Hsame. repeat (apply elem_of_cons in Hp as [->|Hp]); [..|by apply elem_of_nil in Hp];
      gone_cases; match goal with H : has_prefix _ _ |- _ => by apply under_session in H end.
Qed.

(** C21: Deleting a session removes everything stored under its id and nothing
    else: its blob, rows, index and summary, its messages, its vectors,
    entities and relations, and its membership in every workspace are gone,
    while all other sessions, streams, workspaces and kinds of record are as
    before. *)
Theorem delete_session_exact d m σ τ W S u :
  db_is d m → in_store m σ → sessions_ok σ → message_streams m τ → workspace_tables m W S → valid_id u →
  ∃ d' m', delete_session d u = (d', Ok tt) ∧ db_is d' m'
    ∧ in_store m' (forget_session u σ) ∧ sessions_ok (forget_session u σ)
    ∧ message_streams m' (with_stream u empty_stream τ)
    ∧ workspace_tables m' W (filter (λ e, e.1.2 ≠ u) S)
    ∧ (∀ p v s, p ∈ ["embedding:"; "entity:"; "relationship:"] → valid_id v →
        m' !! (p +:+ Uuid_to_string v +:+ ":" +:+ s)
        = if decide (v = u) then None else m !! (p +:+ Uuid_to_string v +:+ ":" +:+ s))
    ∧ only_in deletion_families m m'.
Proof.
  intros Hd Hm Hok Hτ HW Hu.
  destruct (delete_session_table d m W S u Hd HW Hu) as (d' & m' & Hrun & Hd' & Hgone & Hsame).
  exists d', m'. split_and!; [done|done|..].
  - by eapply forget_in_store.
  - by apply forget_ok.
  - by eapply forget_stream.
  - by eapply forget_memberships.
  - intros p v s Hp Hv. by eapply forget_graph.
  - intros k Hk. apply Hsame. by intros Hg%gone_family.
Qed.
End deletion.
