(* ===== verification/RocksSessionsDemo.v ===== *)
(** * The session store on a concrete store

    A table-backed database, codecs through [Countable], a JSON of two fixed
    sessions, and the theorems about the session store at these. *)

From stdpp Require Import gmap.
From S2P Require Import Prelude RustStd StrLemmas UuidText F32 Collections Types Petgraph EntityGraph EntityGraphInv EntityGraphSpec EntityGraphThms GraphSerde Session SessionThms HotContext SessionInv.
From S2P Require Import ContextAssembly Workspace SearchResults RecordCodecs Rocks RocksThms.
From S2P Require Import RocksMessages RocksCards RocksWorkspaces RocksLegacy.
From S2P Require Import RocksSessions RocksSessionsThms RocksSessionsRuns RocksMigration RocksDeletion.

Local Open Scope string_scope.
Local Open Scope list_scope.
Local Open Scope pcx.

#[global] Instance SessionSummary_eq_dec : EqDecision SessionSummary.
Proof. solve_decision. Defined.

#[global] Instance SessionSummary_countable : Countable SessionSummary.
Proof.
  refine (inj_countable'
    (λ s, (sy_id s, sy_name s, sy_description s, sy_created_at s, sy_last_updated s, sy_update_count s))
    (λ '(a, b, c, d, e, f), mkSessionSummary a b c d e f) _).
  by intros [].
Defined.

Definition summary_codec : Bincode SessionSummary := countable_bincode.

Section two_sessions.
Context (tag : ActiveSessionData → bool) (a b : ActiveSessionData).

(** A JSON that can write [a] and [b]. *)
Definition two_json : SessionJson := {|
  session_to_json d := Ok (if tag d then "a" else "b");
  session_from_json bs := Ok (if (bs =? "a")%string then a else b);
  head_from_json bs := Ok (head_of (if (bs =? "a")%string then a else b));
  summary_to_json s := @encode_to_vec _ summary_codec s;
  summary_from_json bs := match @decode_from_slice _ summary_codec bs with
                          | Ok (s, _) => Ok s
                          | Err e => Err e
                          end;
|}.

Definition two_json_laws : @SessionJsonLaws two_json.
Proof.
  refine (@Build_SessionJsonLaws two_json (λ d, d = if tag d then a else b) _ _).
  - intros d Hd. exists (if tag d then "a" else "b"). simpl. by destruct (tag d); rewrite Hd.
  - intros s. destruct (countable_bincode_laws (T := SessionSummary)) as [Hr].
    destruct (Hr s) as (bs & Henc & Hdec). exists bs. split; [exact Henc|].
    simpl. change (@decode_from_slice _ countable_bincode bs = Ok (s, str_len bs)) in Hdec.
    unfold summary_codec. simpl in Hdec. by rewrite Hdec.
Defined.
End two_sessions.

Definition no_sessions : Sessions := mkSessions ∅ ∅ ∅ ∅.

Section empty.
Context `{RL : RocksDBLaws} `{IL : UuidTextLaws} `{JL : SessionJsonLaws}.
Context {BL : Bincode LegacyContextUpdate} {BA : Bincode (option string)}.
Context {BD : Bincode (list string)} {BM : Bincode UpdateMeta}.

Lemma no_sessions_ok : sessions_ok no_sessions.
Proof.
  split; simpl.
  - intros u. by rewrite !lookup_empty.
  - intros u. by rewrite !lookup_empty.
  - intros u x. by rewrite lookup_empty.
  - intros u x. by rewrite lookup_empty.
  - intros u x. by rewrite lookup_empty.
Qed.

Lemma no_sessions_stored : in_store ∅ no_sessions.
Proof.
  split; simpl.
  - intros u _. by rewrite !lookup_empty.
  - intros u x. by rewrite lookup_empty.
  - intros u id _ _. by rewrite !lookup_empty.
  - intros u id x. by rewrite lookup_empty.
  - intros k v _. by rewrite lookup_empty.
  - apply stored_none; [|apply index_codec]. intros k _. apply lookup_empty.
  - apply stored_none; [|apply meta_codec_keys]. intros k _. apply lookup_empty.
Qed.
End empty.

(** ** Instances *)

#[local] Existing Instances ascii_unicode list_graph demo_libm list_graph_laws key_order
  key_order_laws instant instant_laws variant_relation variant_relation_laws mem_db mem_db_laws hex_uuid hex_uuid_laws
  legacy_codec author_codec sources_codec meta_codec
  legacy_codec_field author_codec_field sources_codec_field meta_codec_field.

Lemma elements_perm : ∀ X : gset Uuid, elements X ≡ₚ elements X.
Proof. done. Qed.

(** A session with three updates and a copy of it taken after the first two. *)
Definition stale_run : ActiveSession :=
  run_session (λ _, demo_env) 0 (SAddFast <$> (demo_update <$> [1; 2]%N)) demo_session.

Definition rows_json : SessionJson :=
  two_json (λ d, bool_decide (length (sd_change_history d) = 3%nat))
    (view elements false graph_run) (view elements false stale_run).

#[local] Existing Instance rows_json.

#[local] Instance rows_json_laws : SessionJsonLaws := two_json_laws _ _ _.

Lemma demo_updates_valid us : bool_decide (Forall (λ x, cu_id x < uuid_bound)%N us) = true →
  Forall (λ x, valid_id (cu_id x)) us.
Proof. by intros ?%bool_decide_eq_true. Qed.

Lemma demo_savable : savable elements graph_run [] [].
Proof.
  split; [by vm_compute|by vm_compute| | |]; [|by constructor..]. apply demo_updates_valid. by vm_compute.
Qed.

Lemma stale_savable : savable elements stale_run [] [].
Proof.
  split; [by vm_compute|by vm_compute| | |]; [|by constructor..]. apply demo_updates_valid. by vm_compute.
Qed.

(** The store after the stale copy is saved: it lists two of the three
    updates. *)
Definition stale_sessions : Sessions := save elements stale_run [] [] no_sessions.

Lemma stale_store :
  ∃ d m, save_session elements empty_db stale_run = (d, Ok tt) ∧ db_is d m ∧ in_store m stale_sessions
    ∧ sessions_ok stale_sessions.
Proof.
  destruct (persist_spec elements (set_order_perm := elements_perm) empty_db ∅ no_sessions stale_run [] [])
    as (d & m & _ & Hrun & Hd & Hm & _);
    [apply mem_db_is|apply no_sessions_stored|apply no_sessions_ok|apply stale_savable|].
  exists d, m. split_and!; [exact Hrun|exact Hd|exact Hm|]. apply save_ok, no_sessions_ok.
Qed.


Definition demo_saves : list save_op :=
  [SaveSession graph_run [] []; SaveUpdates 7 [demo_update 4]; SaveSession stale_run [] []].

Lemma demo_saves_valid : Forall (valid_save elements) demo_saves.
Proof.
  repeat apply Forall_cons_2; [apply demo_savable| |apply stale_savable|constructor].
  split; [by vm_compute|]. apply demo_updates_valid. by vm_compute.
Qed.

(** What the saves leave. *)
Definition demo_sessions : Sessions := saves_step elements demo_saves no_sessions.

Lemma demo_store :
  ∃ d m, run_saves elements empty_db demo_saves = Ok d ∧ db_is d m ∧ in_store m demo_sessions
    ∧ sessions_ok demo_sessions.
Proof.
  destruct (run_saves_spec elements (set_order_perm := elements_perm) empty_db ∅ no_sessions demo_saves)
    as (d & m & Hall); [apply mem_db_is|apply no_sessions_stored|apply no_sessions_ok|apply demo_saves_valid|].
  by exists d, m.
Qed.

Lemma demo_order : order_of demo_sessions 7 = [1; 2; 3; 4]%N.
Proof. by vm_compute. Qed.

Lemma demo_blob : is_Some (blobs demo_sessions !! 7%N).
Proof. refine (bool_decide_unpack _ _). vm_compute. exact I. Qed.


Lemma list_sessions_exact_witness :
  ∃ d fuel ids, run_saves elements empty_db demo_saves = Ok d
    ∧ list_sessions d fuel = Some (Ok ids) ∧ 7%N ∈ ids.
Proof.
  destruct demo_store as (d & m & Hrun & Hd & Hm & _).
  destruct (list_sessions_exact d m demo_sessions (list_fuel m) Hd Hm) as (ids & Hids & _ & Hin); [done|].
  exists d, (list_fuel m), ids. split_and!; [exact Hrun|exact Hids|]. apply Hin, demo_blob.
Defined.

Lemma list_summaries_exact_witness :
  ∃ d fuel ss, run_saves elements empty_db demo_saves = Ok d
    ∧ list_session_summaries d fuel = Some (d, Ok ss).
Proof.
  destruct demo_store as (d & m & Hrun & Hd & Hm & Hok).
  destruct (list_summaries_exact d m demo_sessions (list_fuel m) Hd Hm Hok) as (ids & _ & Hss & _); [done|].
  exists d, (list_fuel m). eexists. split; [exact Hrun|exact Hss].
Defined.

Lemma stale_save_undercounts_witness :
  ∃ d d' us n, run_saves elements empty_db demo_saves = Ok d
    ∧ save_session elements d stale_run = (d', Ok tt)
    ∧ load_session_updates d' 7 = Ok us ∧ (n < length us)%nat.
Proof.
  destruct demo_store as (d & m & Hrun & Hd & Hm & Hok).
  destruct (stale_save_undercounts elements (set_order_perm := elements_perm) d m demo_sessions stale_run 0
    Hd Hm Hok stale_savable) as (d' & m' & σ' & us & s & Hr & _ & _ & Hus & _ & _ & Hlt).
  - exists 3%N. split.
    + change (3%N ∈ order_of demo_sessions 7). rewrite demo_order.
      apply (bool_decide_unpack (3 ∈ [1; 2; 3; 4])%N). vm_compute. exact I.
    + change (3%N ∉ [1; 2]%N). apply (bool_decide_unpack (3 ∉ [1; 2])%N). vm_compute. exact I.
  - intros id Hid. change (id ∈ order_of demo_sessions 7). rewrite demo_order.
    change (id ∈ [1; 2]%N) in Hid. clear -Hid. rewrite !elem_of_cons in Hid |- *. destruct Hid as [->|[->|?%elem_of_nil]]; [by left|by right; left|done].
  - apply (bool_decide_unpack (NoDup [1; 2]%N)). vm_compute. exact I.
  - exists d, d', us, (sy_update_count s). split_and!; [exact Hrun|exact Hr|exact Hus|exact Hlt].
Defined.

(** *** Deletion *)

#[local] Existing Instances message_codec ws_session_codec_of workspace_codec_of.
#[local] Instance message_laws : BincodeLaws Message := countable_bincode_laws.
#[local] Instance workspace_laws : BincodeLaws StoredWorkspace := countable_bincode_laws.
#[local] Instance membership_laws : BincodeLaws StoredWorkspaceSession := countable_bincode_laws.

Lemma delete_session_exact_witness :
  ∃ d' m', delete_session empty_db 7 = (d', Ok tt) ∧ in_store m' (forget_session 7 no_sessions)
    ∧ only_in deletion_families ∅ m'.
Proof.
  destruct (delete_session_exact empty_db ∅ no_sessions (λ _, empty_stream) ∅ ∅ 7)
    as (d' & m' & Hrun & _ & Hm & _ & _ & _ & _ & Hf).
  - apply mem_db_is.
  - apply no_sessions_stored.
  - apply no_sessions_ok.
  - by apply no_messages.
  - by apply no_workspaces.
  - by vm_compute.
  - exists d', m'. split_and!; [exact Hrun|exact Hm|exact Hf].
Defined.

(** *** Migration *)

Definition legacy_data : ActiveSessionData := view elements true graph_run.

(** The session it reads as. *)
Definition legacy_run : ActiveSession :=
  match session_of_data demo_now legacy_data with Some (Ok s) => s | _ => graph_run end.

Definition legacy_json : SessionJson :=
  two_json (λ d, match sd_incremental_updates d with [] => true | _ => false end)
    (view elements false (migrated legacy_run)) legacy_data.

Definition legacy_json_laws : @SessionJsonLaws legacy_json := two_json_laws _ _ _.

Definition legacy_sessions : Sessions := mkSessions {[7%N := legacy_data]} ∅ ∅ ∅.

Definition legacy_table : table := {[session_key 7 := "b"]}.

Definition legacy_db : @DB mem_db := legacy_table.

Lemma legacy_stored : in_store (JL := legacy_json_laws) legacy_table legacy_sessions.
Proof.
  apply (put_blob (JL := legacy_json_laws) ∅ ∅ ∅ ∅ ∅ 7 legacy_data);
    [apply (no_sessions_stored (JL := legacy_json_laws))|by vm_compute|by vm_compute].
Qed.

Lemma legacy_demo : legacy_session demo_now legacy_sessions 7 legacy_data legacy_run.
Proof.
  split; [done|by vm_compute|by vm_compute|by left|constructor|]. intros id Hid. by apply elem_of_nil in Hid.
Qed.

Lemma legacy_savable : savable (JL := legacy_json_laws) elements (migrated legacy_run) [] [].
Proof.
  split; [by vm_compute|by vm_compute| | |]; [|by constructor..]. apply demo_updates_valid. by vm_compute.
Qed.

Lemma first_load_migrates_witness :
  ∃ d', load_session (J := legacy_json) elements demo_now legacy_db 7 = Some (d', Ok (migrated legacy_run))
    ∧ load_session_updates d' 7 = Ok (demo_update <$> [1; 2; 3]%N).
Proof.
  destruct (first_load_migrates (JL := legacy_json_laws) elements (set_order_perm := elements_perm) demo_now
    legacy_db legacy_table legacy_sessions 7 legacy_data legacy_run (mem_db_is _) legacy_stored legacy_demo)
    as (d' & m' & later & Hload & _ & _ & Hlater & _ & Hall & _).
  - apply legacy_savable.
  - apply (bool_decide_unpack (NoDup [1; 2; 3]%N)). vm_compute. exact I.
  - exists d'. split; [exact Hload|]. by rewrite Hlater, Hall.
Defined.
