(* ===== verification/RocksGraph.v ===== *)
(** * The entity graph in RocksDB

    [graph.rs] of [post-cortex-storage/src/rocksdb_storage] and the stored
    records of [types.rs]: a row per entity and per relation of a session, and
    the queries over the relations of one session. *)

From stdpp Require Import gmap.
From S2P Require Import Prelude RustStd StrLemmas UuidText F32 Collections Bfs PathSearch Types Petgraph EntityGraph EntityQueries.
From S2P Require Import ContextAssembly Rocks RocksThms.

Local Open Scope string_scope.
Local Open Scope list_scope.
Local Open Scope pcx.

Record StoredEntity := mkStoredEntity {
  se_session_id : Uuid;
  se_name : string;
  se_entity_type : string;
  se_first_mentioned : DateTime;
  se_last_mentioned : DateTime;
  se_mention_count : N;
  se_importance_score : f32;
  se_description : option string;
}.

Record StoredRelationship := mkStoredRelationship {
  sr_session_id : Uuid;
  sr_from_entity : string;
  sr_to_entity : string;
  sr_relation_type : string;
  sr_context : string;
}.

Definition EntityType_debug (t : EntityType) : string :=
  match t with
  | Technology => "Technology"
  | Concept => "Concept"
  | Problem => "Problem"
  | Solution => "Solution"
  | Decision_ => "Decision"
  | CodeComponent => "CodeComponent"
  end.

Definition from_entity_data (session_id : Uuid) (entity : EntityData) : StoredEntity :=
  mkStoredEntity session_id (ed_name entity) (EntityType_debug (ed_entity_type entity))
    (first_mentioned entity) (last_mentioned entity) (mention_count entity)
    (importance_score entity) (ed_description entity).

Definition stored_entity_type (s : string) : EntityType :=
  if String.eqb s "Technology" then Technology
  else if String.eqb s "Concept" then Concept
  else if String.eqb s "Problem" then Problem
  else if String.eqb s "Solution" then Solution
  else if String.eqb s "Decision" then Decision_
  else if String.eqb s "CodeComponent" then CodeComponent
  else Concept.

(** Aliases are not stored. *)
Definition to_entity_data (e : StoredEntity) : EntityData :=
  mkEntityData (se_name e) (stored_entity_type (se_entity_type e)) (se_first_mentioned e)
    (se_last_mentioned e) (se_mention_count e) (se_importance_score e) (se_description e) [].

Definition from_relationship (session_id : Uuid) (rel : EntityRelationship) : StoredRelationship :=
  mkStoredRelationship session_id (from_entity rel) (to_entity rel)
    (RelationType_debug (er_relation_type rel)) (er_context rel).

(** [.parse().unwrap_or(RelatedTo)]. *)
Definition stored_relation_type (s : string) : RelationType :=
  match RelationType_from_str s with Ok t => t | Err _ => RelatedTo end.

Definition to_relationship (r : StoredRelationship) : EntityRelationship :=
  mkEntityRelationship (sr_from_entity r) (sr_to_entity r)
    (stored_relation_type (sr_relation_type r)) (sr_context r).

(** ** Queries over loaded relations *)

(** The neighbours of an entity, as both queries collect them. *)
Definition other_end (entity_name : string) (r : StoredRelationship) : option string :=
  if String.eqb (sr_from_entity r) entity_name then Some (sr_to_entity r)
  else if String.eqb (sr_to_entity r) entity_name then Some (sr_from_entity r)
  else None.

(** [related.sort(); related.dedup()]. *)
Definition sorted_names (names : list string) : list string := dedup (sort_by str_cmp names).

(** [entry(name).or_default().push(x)]. *)
Definition push_entry {V} (name : string) (x : V) (adjacency : gmap string (list V))
    : gmap string (list V) :=
  <[name := default [] (adjacency !! name) ++ [x]]> adjacency.

Definition adjacency_of (relationships : list StoredRelationship) : gmap string (list string) :=
  foldl (λ adjacency rel,
    push_entry (sr_to_entity rel) (sr_from_entity rel)
      (push_entry (sr_from_entity rel) (sr_to_entity rel) adjacency)) ∅ relationships.

(** The network's adjacency keeps the relation beside the neighbour. *)
Definition adjacency_with (relationships : list StoredRelationship)
    : gmap string (list (string * StoredRelationship)) :=
  foldl (λ adjacency rel,
    push_entry (sr_to_entity rel) (sr_from_entity rel, rel)
      (push_entry (sr_from_entity rel) (sr_to_entity rel, rel) adjacency)) ∅ relationships.

Definition network_of (center : string) (max_depth : nat) (all_entities : list StoredEntity)
    (all_relationships : list StoredRelationship) : EntityNetwork :=
  let adjacency := adjacency_with all_relationships in
  let visited := level_search (λ entity, fst <$> default [] (adjacency !! entity)) max_depth
                   {[center]} [center] in
  let entities := filter (λ e, se_name e ∈ visited) all_entities in
  let relationships :=
    filter (λ r, sr_from_entity r ∈ visited ∧ sr_to_entity r ∈ visited) all_relationships in
  mkEntityNetwork center
    (foldl (λ m e, <[se_name e := to_entity_data e]> m) ∅ entities)
    (to_relationship <$> relationships).

Section graph.
Context `{R : RocksDB} `{I : UuidText}.
Context {BE : Bincode StoredEntity} {BR : Bincode StoredRelationship}.

Definition entity_key (session_id : Uuid) (entity_name : string) : bytes :=
  "entity:" +:+ Uuid_to_string session_id +:+ ":" +:+ entity_name.

Definition entity_prefix (session_id : Uuid) : bytes := "entity:" +:+ Uuid_to_string session_id +:+ ":".

Definition relationship_key (session_id : Uuid) (from to : string) (relation_type : RelationType) : bytes :=
  "relationship:" +:+ Uuid_to_string session_id +:+ ":" +:+ from +:+ ":" +:+ to +:+ ":"
    +:+ RelationType_debug relation_type.

Definition relationship_prefix (session_id : Uuid) : bytes :=
  "relationship:" +:+ Uuid_to_string session_id +:+ ":".

(** Key and value of a record. *)
Definition entity_row (entity : StoredEntity) : result (bytes * bytes) Error :=
  match encode_to_vec entity with
  | Ok data => Ok (entity_key (se_session_id entity) (se_name entity), data)
  | Err e => Err ("Failed to serialize entity: " +:+ e)
  end.

Definition relationship_row (rel : StoredRelationship) : result (bytes * bytes) Error :=
  match encode_to_vec rel with
  | Ok data =>
    Ok (relationship_key (sr_session_id rel) (sr_from_entity rel) (sr_to_entity rel)
          (stored_relation_type (sr_relation_type rel)), data)
  | Err e => Err ("Failed to serialize relationship: " +:+ e)
  end.

Definition save_entity (d : DB) (entity : StoredEntity) : DB * result unit Error :=
  match entity_row entity with
  | Ok (key, data) => db_put d key data
  | Err e => (d, Err e)
  end.

Definition save_relationship (d : DB) (rel : StoredRelationship) : DB * result unit Error :=
  match relationship_row rel with
  | Ok (key, data) => db_put d key data
  | Err e => (d, Err e)
  end.

Definition load_entity (d : DB) (session_id : Uuid) (name : string) : result (option StoredEntity) Error :=
  try data <- db_get d (entity_key session_id name);
  match data with
  | None => Ok None
  | Some data =>
    match decode_from_slice data with
    | Ok (entity, _) => Ok (Some entity)
    | Err e => Err ("Failed to deserialize entity: " +:+ e)
    end
  end.

(** The loop of both loads: records that do not decode are skipped. *)
Fixpoint load_under {T} `{Bincode T} (prefix : bytes) (items : list (result (bytes * bytes) Error))
    : result (list T) Error :=
  match items with
  | [] => Ok []
  | item :: items =>
    try (key, value) <- item;
    if negb (starts_with (from_utf8_lossy key) prefix) then Ok []
    else
      try loaded <- load_under prefix items;
      match decode_from_slice value with
      | Ok (x, _) => Ok (x :: loaded)
      | Err _ => Ok loaded
      end
  end.

Definition load_session_entities (d : DB) (session_id : Uuid) : result (list StoredEntity) Error :=
  load_under (entity_prefix session_id) (scan_prefix d (entity_prefix session_id)).

Definition load_session_relationships (d : DB) (session_id : Uuid)
    : result (list StoredRelationship) Error :=
  load_under (relationship_prefix session_id) (scan_prefix d (relationship_prefix session_id)).

Definition delete_stored_entity (d : DB) (session_id : Uuid) (name : string) : DB * result unit Error :=
  db_delete d (entity_key session_id name).

(** One of the loops that fill the batch. *)
Fixpoint batch_rows {T} (row : T → result (bytes * bytes) Error) (xs : list T) : result WriteBatch Error :=
  match xs with
  | [] => Ok []
  | x :: xs =>
    try (key, data) <- row x;
    try ops <- batch_rows row xs;
    Ok (BatchPut key data :: ops)
  end.

Definition batch_save_graph_data (d : DB) (entities : list StoredEntity)
    (relationships : list StoredRelationship) : DB * result unit Error :=
  match entities, relationships with
  | [], [] => (d, Ok tt)
  | _, _ =>
    match
      try puts <- batch_rows entity_row entities;
      try rel_puts <- batch_rows relationship_row relationships;
      Ok (puts ++ rel_puts)
    with
    | Ok batch => db_write d batch
    | Err e => (d, Err e)
    end
  end.

(** ** [GraphStorage] *)

Definition upsert_entity (d : DB) (session_id : Uuid) (entity : EntityData) : DB * result unit Error :=
  save_entity d (from_entity_data session_id entity).

Definition get_entity (d : DB) (session_id : Uuid) (name : string) : result (option EntityData) Error :=
  try stored <- load_entity d session_id name; Ok (to_entity_data <$> stored).

Definition list_entities (d : DB) (session_id : Uuid) : result (list EntityData) Error :=
  try stored <- load_session_entities d session_id; Ok (to_entity_data <$> stored).

Definition delete_entity (d : DB) (session_id : Uuid) (name : string) : DB * result unit Error :=
  delete_stored_entity d session_id name.

Definition create_relationship (d : DB) (session_id : Uuid) (relationship : EntityRelationship)
    : DB * result unit Error :=
  save_relationship d (from_relationship session_id relationship).

Definition find_related_entities (d : DB) (session_id : Uuid) (entity_name : string)
    : result (list string) Error :=
  try relationships <- load_session_relationships d session_id;
  Ok (sorted_names (omap (other_end entity_name) relationships)).

Definition find_related_by_type (d : DB) (session_id : Uuid) (entity_name : string)
    (relation_type : RelationType) : result (list string) Error :=
  let type_str := RelationType_debug relation_type in
  try relationships <- load_session_relationships d session_id;
  Ok (sorted_names (omap (other_end entity_name)
                      (filter (λ r, sr_relation_type r = type_str) relationships))).

(** [None]: the fuel ran out. *)
Definition find_shortest_path (d : DB) (fuel : nat) (session_id : Uuid) (from to : string)
    : option (result (option (list string)) Error) :=
  if String.eqb from to then Some (Ok (Some [from]))
  else
    match load_session_relationships d session_id with
    | Err e => Some (Err e)
    | Ok relationships =>
      let adjacency := adjacency_of relationships in
      Ok <$> path_search (λ current, default [] (adjacency !! current)) to fuel from
    end.

Definition graph_network (d : DB) (session_id : Uuid) (center : string) (max_depth : nat)
    : result EntityNetwork Error :=
  try all_entities <- load_session_entities d session_id;
  try all_relationships <- load_session_relationships d session_id;
  Ok (network_of center max_depth all_entities all_relationships).
End graph.
