(* ===== verification/RocksGraphThms.v ===== *)
(** * The entity graph in RocksDB: theorems

    [graph_tables] relates the database to a map of entities by session and
    name and a map of relations by session and key text.  Writes act on these
    maps, the queries answer from them: neighbours, shortest paths and
    networks are exact. *)

From stdpp Require Import gmap.
From S2P Require Import Prelude RustStd StrLemmas UuidText F32 Collections Bfs PathSearch Types Petgraph EntityGraph EntityQueries EntityQueriesThms.
From S2P Require Import ContextAssembly RecordCodecs Rocks RocksThms RocksMessages.
From S2P Require Import RocksCards RocksWorkspaces RocksGraph.

Local Open Scope string_scope.
Local Open Scope list_scope.
Local Open Scope pcx.

Definition stored_graph_families : list string := ["entity"; "relationship"].

(** What follows the session in the key of a relation. *)
Definition rel_text (r : StoredRelationship) : string :=
  sr_from_entity r +:+ ":" +:+ sr_to_entity r +:+ ":"
    +:+ RelationType_debug (stored_relation_type (sr_relation_type r)).

Definition in_session (p : Uuid * string) : Prop := valid_id p.1.

Section store.
Context `{RL : RocksDBLaws} `{IL : UuidTextLaws}.
Context `{EL : BincodeLaws StoredEntity} `{ML : BincodeLaws StoredRelationship}.

Definition rel_key (p : Uuid * string) : bytes :=
  "relationship:" +:+ Uuid_to_string p.1 +:+ ":" +:+ p.2.

Record graph_tables (m : table) (E : gmap (Uuid * string) StoredEntity)
    (M : gmap (Uuid * string) StoredRelationship) : Prop := {
  gt_entities : stored_map "entity:" (uncurry entity_key) encoded in_session m E;
  gt_relations : stored_map "relationship:" rel_key encoded in_session m M;
  gt_name p e : E !! p = Some e → p = (se_session_id e, se_name e);
  gt_text p r : M !! p = Some r → p = (sr_session_id r, rel_text r);
}.

Lemma entity_codec : key_codec "entity:" (uncurry entity_key) in_session.
Proof.
  split; [intros [u n] _; by eexists|]. intros [u n] [v n'] Hu Hv [-> Heq]%uuid_key_inj; [|done..].
  simpl. by apply str_app_inj_r in Heq as ->.
Qed.

Lemma relation_codec : key_codec "relationship:" rel_key in_session.
Proof.
  split; [intros [u n] _; by eexists|]. intros [u n] [v n'] Hu Hv [Huv Heq]%uuid_key_inj; [|done..].
  simpl in *. apply str_app_inj_r in Heq as ->. by rewrite Huv.
Qed.

Lemma relationship_key_text r :
  relationship_key (sr_session_id r) (sr_from_entity r) (sr_to_entity r)
    (stored_relation_type (sr_relation_type r)) = rel_key (sr_session_id r, rel_text r).
Proof. done. Qed.

Lemma graph_tables_local m m' E M :
  (∀ k, family k ∈ stored_graph_families → m' !! k = m !! k) → graph_tables m E M → graph_tables m' E M.
Proof.
  intros Hm [He Hr Hn Ht]. split; [| |done|done].
  - eapply stored_local; [|apply entity_codec|done]. intros b [r ->]. apply Hm. by left.
  - eapply stored_local; [|apply relation_codec|done]. intros b [r ->]. apply Hm. by right; left.
Qed.

Lemma no_graph m : (∀ k, family k ∈ stored_graph_families → m !! k = None) → graph_tables m ∅ ∅.
Proof.
  intros Hm. split.
  - apply stored_none; [|apply entity_codec]. intros b [r ->]. apply Hm. by left.
  - apply stored_none; [|apply relation_codec]. intros b [r ->]. apply Hm. by right; left.
  - intros p e. by rewrite lookup_empty.
  - intros p e. by rewrite lookup_empty.
Qed.

(** ** Writes *)

Definition write_entity (e : StoredEntity) (E : gmap (Uuid * string) StoredEntity) :=
  <[(se_session_id e, se_name e) := e]> E.

Definition write_relation (r : StoredRelationship) (M : gmap (Uuid * string) StoredRelationship) :=
  <[(sr_session_id r, rel_text r) := r]> M.

Lemma put_entity m E M e :
  graph_tables m E M → valid_id (se_session_id e) →
  graph_tables (<[entity_key (se_session_id e) (se_name e) := encoded e]> m) (write_entity e E) M.
Proof.
  intros [He Hr Hn Ht] Hu. split; [| | |done].
  - by apply (stored_put "entity:" (uncurry entity_key) encoded in_session m E (se_session_id e, se_name e));
      [apply entity_codec|..].
  - eapply stored_local; [|apply relation_codec|done]. intros b [r ->]. by rewrite lookup_insert_ne.
  - intros p e'. unfold write_entity. intros [[<- <-]|[_ Hp]]%lookup_insert_Some; [done|by apply Hn].
Qed.

Lemma put_relation m E M r :
  graph_tables m E M → valid_id (sr_session_id r) →
  graph_tables (<[rel_key (sr_session_id r, rel_text r) := encoded r]> m) E (write_relation r M).
Proof.
  intros [He Hr Hn Ht] Hu. split; [| |done|].
  - eapply stored_local; [|apply entity_codec|done]. intros b [s ->]. by rewrite lookup_insert_ne.
  - by apply (stored_put "relationship:"); [apply relation_codec|..].
  - intros p e'. unfold write_relation. intros [[<- <-]|[_ Hp]]%lookup_insert_Some; [done|by apply Ht].
Qed.

Lemma drop_entity m E M u n :
  graph_tables m E M → valid_id u →
  graph_tables (base.delete (entity_key u n) m) (base.delete (u, n) E) M.
Proof.
  intros [He Hr Hn Ht] Hu. split; [| | |done].
  - by apply (stored_delete "entity:" (uncurry entity_key) encoded in_session m E (u, n));
      [apply entity_codec|..].
  - eapply stored_local; [|apply relation_codec|done]. intros b [s ->]. by rewrite lookup_delete_ne.
  - intros p e [_ Hp]%lookup_delete_Some. by apply Hn.
Qed.

Definition entity_puts (es : list StoredEntity) : WriteBatch :=
  (λ e, BatchPut (entity_key (se_session_id e) (se_name e)) (encoded e)) <$> es.
Definition relation_puts (rs : list StoredRelationship) : WriteBatch :=
  (λ r, BatchPut (rel_key (sr_session_id r, rel_text r)) (encoded r)) <$> rs.

Lemma entity_rows_ok es : batch_rows entity_row es = Ok (entity_puts es).
Proof.
  induction es as [|e es IH]; [done|]. cbn [batch_rows]. unfold entity_row at 1.
  rewrite encode_ok. cbn [result_bind]. by rewrite IH.
Qed.

Lemma relation_rows_ok rs : batch_rows relationship_row rs = Ok (relation_puts rs).
Proof.
  induction rs as [|r rs IH]; [done|]. cbn [batch_rows]. unfold relationship_row at 1.
  rewrite encode_ok. cbn [result_bind]. by rewrite IH.
Qed.

Lemma put_entities m E M es :
  graph_tables m E M → Forall (λ e, valid_id (se_session_id e)) es →
  graph_tables (apply_batch (entity_puts es) m) (foldl (flip write_entity) E es) M.
Proof.
  intros Hm Hes. revert m E Hm. induction Hes as [|e es He Hes IH]; intros m E Hm; [done|].
  csimpl. apply IH. by apply put_entity.
Qed.

Lemma put_relations m E M rs :
  graph_tables m E M → Forall (λ r, valid_id (sr_session_id r)) rs →
  graph_tables (apply_batch (relation_puts rs) m) E (foldl (flip write_relation) M rs).
Proof.
  intros Hm Hrs. revert m M Hm. induction Hrs as [|r rs Hr Hrs IH]; intros m M Hm; [done|].
  csimpl. apply IH. by apply put_relation.
Qed.

Lemma graph_write d m E M batch :
  db_is d m → graph_tables (apply_batch batch m) E M →
  Forall (λ op, family (op_key op) ∈ stored_graph_families) batch →
  ∃ d' m', db_write d batch = (d', Ok tt) ∧ db_is d' m' ∧ graph_tables m' E M
    ∧ only_in stored_graph_families m m'.
Proof.
  intros Hd Hm Hb. destruct (db_is_write d m batch Hd) as (d' & -> & Hd').
  exists d', (apply_batch batch m). split_and!; [done..|]. by apply only_in_batch.
Qed.

Lemma puts_families es rs :
  Forall (λ op, family (op_key op) ∈ stored_graph_families) (entity_puts es ++ relation_puts rs).
Proof.
  apply Forall_app_2; apply Forall_fmap, Forall_true; intros x; [by left|by right; left].
Qed.

Inductive graph_op :=
  | UpsertEntity (u : Uuid) (e : EntityData)
  | DeleteEntity (u : Uuid) (name : string)
  | Relate (u : Uuid) (r : EntityRelationship)
  | SaveGraph (es : list StoredEntity) (rs : list StoredRelationship).

Definition run_graph_op (d : DB) (op : graph_op) : DB * result unit Error :=
  match op with
  | UpsertEntity u e => upsert_entity d u e
  | DeleteEntity u name => delete_entity d u name
  | Relate u r => create_relationship d u r
  | SaveGraph es rs => batch_save_graph_data d es rs
  end.

Definition valid_graph_op (op : graph_op) : Prop :=
  match op with
  | UpsertEntity u _ | DeleteEntity u _ | Relate u _ => valid_id u
  | SaveGraph es rs =>
    Forall (λ e, valid_id (se_session_id e)) es ∧ Forall (λ r, valid_id (sr_session_id r)) rs
  end.

(** The maps after an operation. *)
Definition graph_step (op : graph_op) E M :=
  match op with
  | UpsertEntity u e => (write_entity (from_entity_data u e) E, M)
  | DeleteEntity u name => (base.delete (u, name) E, M)
  | Relate u r => (E, write_relation (from_relationship u r) M)
  | SaveGraph es rs => (foldl (flip write_entity) E es, foldl (flip write_relation) M rs)
  end.

Lemma graph_op_spec d m E M op :
  db_is d m → graph_tables m E M → valid_graph_op op →
  ∃ d' m', run_graph_op d op = (d', Ok tt) ∧ db_is d' m'
    ∧ graph_tables m' (graph_step op E M).1 (graph_step op E M).2 ∧ only_in stored_graph_families m m'.
Proof.
  intros Hd Hm Hop. destruct op as [u e|u name|u r|es rs]; simpl in *.
  - unfold upsert_entity, save_entity, entity_row. rewrite encode_ok. apply graph_write; [done| |].
    + by apply (put_entity m E M (from_entity_data u e)).
    + apply Forall_singleton. by left.
  - apply graph_write; [done| |apply Forall_singleton; by left]. by apply drop_entity.
  - unfold create_relationship, save_relationship, relationship_row. rewrite encode_ok.
    apply graph_write; [done| |apply Forall_singleton; by right; left].
    by apply (put_relation m E M (from_relationship u r)).
  - destruct Hop as [Hes Hrs]. unfold batch_save_graph_data.
    rewrite entity_rows_ok, relation_rows_ok. cbn [result_bind].
    assert (∃ d' m', db_write d (entity_puts es ++ relation_puts rs) = (d', Ok tt) ∧ db_is d' m'
      ∧ graph_tables m' (foldl (flip write_entity) E es) (foldl (flip write_relation) M rs)
      ∧ only_in stored_graph_families m m') as Hw.
    { apply graph_write; [done| |apply puts_families]. rewrite apply_batch_app.
      by apply put_relations; [apply put_entities|]. }
    destruct es, rs; [|exact Hw..]. exists d, m. split_and!; [done..|apply only_in_refl].
Qed.

(** ** Loading *)

Lemma load_under_ok {K} `{BincodeLaws T} (p : string) (key : K → bytes) (l : list (K * T)) :
  ascii p → Forall (λ e, has_prefix p (key e.1)) l →
  load_under p (Ok <$> ((λ e, (key e.1, encoded e.2)) <$> l)) = Ok l.*2.
Proof.
  intros Hp Hl. induction Hl as [|[k x] l Hk Hl IH]; [done|]. csimpl.
  rewrite lossy_starts_with by done. simpl. change (load_under p _) with
    (load_under p (Ok <$> ((λ e : K * T, (key e.1, encoded e.2)) <$> l))).
  rewrite IH. simpl. by rewrite decode_encoded.
Qed.

Lemma session_prefix_ascii p u : ascii p → ascii (p +:+ Uuid_to_string u +:+ ":").
Proof. intros Hp. repeat apply ascii_app; [done|apply uuid_ascii|repeat constructor]. Qed.

Lemma under_session_prefix p u v n :
  valid_id u → valid_id v →
  has_prefix (p +:+ Uuid_to_string u +:+ ":") (p +:+ Uuid_to_string v +:+ ":" +:+ n) ↔ v = u.
Proof.
  intros Hu Hv. split.
  - intros [r Hr]. rewrite !str_app_assoc in Hr. by apply uuid_key_inj in Hr as [-> _].
  - intros ->. exists n. by rewrite !str_app_assoc.
Qed.

Lemma load_entities_ok d m E M u :
  db_is d m → graph_tables m E M → valid_id u →
  ∃ es, load_session_entities d u = Ok es
    ∧ (∀ e, e ∈ es ↔ E !! (u, se_name e) = Some e)
    ∧ StronglySorted (λ a b, String.le (se_name a) (se_name b)) es ∧ NoDup (se_name <$> es).
Proof.
  intros Hd [He _ Hn _] Hu.
  destruct (stored_scan "entity:" (uncurry entity_key) encoded in_session m E (entity_prefix u))
    as (l & Heq & Hnd & Hl & Hs); [apply entity_codec|exact He|by eexists|].
  assert (∀ v n e, ((v, n), e) ∈ l ↔ v = u ∧ E !! (u, n) = Some e) as Hin.
  { intros v n e. rewrite Hl. split.
    - intros [Hx Hp]. pose proof (sm_valid _ _ _ _ _ _ He _ _ Hx) as Hv.
      by apply under_session_prefix in Hp as ->.
    - intros [-> Hx]. split; [done|]. by apply under_session_prefix. }
  assert (∀ e, e ∈ l → e.1 = (u, se_name e.2)) as Hkey.
  { intros [[v n] e] Hx. apply Hin in Hx as [-> Hx]. by apply Hn in Hx as [= _ ->]. }
  exists l.*2. split_and!.
  - unfold load_session_entities. rewrite (db_is_scan d m), Heq by done.
    apply load_under_ok; [apply session_prefix_ascii; repeat constructor|].
    apply Forall_forall. intros [p e] Hx. by apply Hl in Hx as [_ Hp].
  - intros e. rewrite list_elem_of_fmap. split.
    + intros ([[v n] e'] & -> & Hx). pose proof (Hkey _ Hx) as [= -> ->]. by apply Hin in Hx as [_ Hx].
    + intros Hx. exists ((u, se_name e), e). split; [done|]. by apply Hin.
  - clear -Hs Hkey. induction l as [|x l IH]; csimpl; [constructor|].
    apply StronglySorted_inv in Hs as [Hs Hx]. constructor; [by apply IH; [|intros e He; apply Hkey; right]|].
    apply Forall_fmap, Forall_forall. intros y Hy. rewrite Forall_forall in Hx. specialize (Hx y Hy).
    rewrite (Hkey x), (Hkey y) in Hx by (by left || by right). simpl in *.
    unfold entity_key in Hx. by rewrite !str_le_app in Hx.
  - rewrite <-list_fmap_compose. clear -Hnd Hkey. assert ((se_name ∘ snd) <$> l = snd ∘ fst <$> l) as ->.
    { apply list_fmap_ext. intros i x Hx%list_elem_of_lookup_2. simpl. by rewrite Hkey. }
    rewrite list_fmap_compose. apply (NoDup_fmap_1 (λ n, (u, n))).
    assert ((λ n, (u, n)) <$> (snd <$> l.*1) = l.*1) as ->; [|done].
    rewrite <-!list_fmap_compose. apply list_fmap_ext. intros i x Hx%list_elem_of_lookup_2. simpl. by rewrite Hkey.
Qed.

Lemma load_relations_ok d m E M u :
  db_is d m → graph_tables m E M → valid_id u →
  ∃ rs, load_session_relationships d u = Ok rs
    ∧ ∀ r, r ∈ rs ↔ M !! (u, rel_text r) = Some r.
Proof.
  intros Hd [_ Hr _ Ht] Hu.
  destruct (stored_scan "relationship:" rel_key encoded in_session m M (relationship_prefix u))
    as (l & Heq & _ & Hl & _); [apply relation_codec|done|by eexists|].
  exists l.*2. split.
  - unfold load_session_relationships. rewrite (db_is_scan d m), Heq by done.
    apply load_under_ok; [apply session_prefix_ascii; repeat constructor|].
    apply Forall_forall. intros [p r] Hx. by apply Hl in Hx as [_ Hp].
  - intros r. rewrite list_elem_of_fmap. split.
    + intros ([[v t] r'] & -> & Hx). apply Hl in Hx as [Hx Hp]. simpl in *.
      pose proof (sm_valid _ _ _ _ _ _ Hr _ _ Hx) as Hv.
      apply (under_session_prefix "relationship:" u v t) in Hp as ->; [|done..]. by pose proof (Ht _ _ Hx) as [= -> ->].
    + intros Hx. exists ((u, rel_text r), r). split; [done|]. apply Hl. split; [done|]. by apply under_session_prefix.
Qed.

(** ** Neighbours *)

(** Two entities with a relation between them, in either direction. *)
Definition relates (rs : list StoredRelationship) (a b : string) : Prop :=
  ∃ r, r ∈ rs ∧ (sr_from_entity r = a ∧ sr_to_entity r = b
                 ∨ sr_to_entity r = a ∧ sr_from_entity r = b).

Lemma elem_of_push_entry {V} name (x : V) adj a y :
  y ∈ default [] (push_entry name x adj !! a)
  ↔ y ∈ default [] (adj !! a) ∨ a = name ∧ y = x.
Proof.
  unfold push_entry. destruct (decide (a = name)) as [->|Hne].
  - rewrite lookup_insert_eq. simpl. rewrite elem_of_app, list_elem_of_singleton. naive_solver.
  - rewrite lookup_insert_ne by done. naive_solver.
Qed.

Lemma elem_of_adjacency {V} (x y : StoredRelationship → V) rs adj a z :
  z ∈ default [] (foldl (λ adjacency rel,
        push_entry (sr_to_entity rel) (y rel) (push_entry (sr_from_entity rel) (x rel) adjacency)) adj rs !! a)
  ↔ z ∈ default [] (adj !! a)
    ∨ ∃ r, r ∈ rs ∧ (sr_from_entity r = a ∧ z = x r ∨ sr_to_entity r = a ∧ z = y r).
Proof.
  revert adj. induction rs as [|r rs IH]; intros adj; cbn [foldl].
  { split; [by left|]. intros [?|(r & ?%elem_of_nil & _)]; done. }
  rewrite IH, !elem_of_push_entry. setoid_rewrite elem_of_cons. naive_solver.
Qed.

Lemma elem_of_neighbours rs a b : b ∈ default [] (adjacency_of rs !! a) ↔ relates rs a b.
Proof.
  unfold adjacency_of. rewrite (elem_of_adjacency sr_to_entity sr_from_entity), lookup_empty.
  simpl. rewrite elem_of_nil. unfold relates. naive_solver.
Qed.

Lemma elem_of_network_neighbours rs a b :
  b ∈ fst <$> default [] (adjacency_with rs !! a) ↔ relates rs a b.
Proof.
  rewrite list_elem_of_fmap. unfold adjacency_with.
  setoid_rewrite (elem_of_adjacency (λ r, (sr_to_entity r, r)) (λ r, (sr_from_entity r, r))).
  rewrite lookup_empty. simpl. setoid_rewrite elem_of_nil. unfold relates. split.
  - intros ([c r] & -> & [[]|(r' & Hr & [[? [= -> ->]]|[? [= -> ->]]])]); exists r'; auto.
  - intros (r & Hr & [[? <-]|[? <-]]).
    + exists (sr_to_entity r, r). split; [done|]. right. exists r. auto.
    + exists (sr_from_entity r, r). split; [done|]. right. exists r. auto.
Qed.

(** The names on relations, and one more. *)
Definition endpoints (rs : list StoredRelationship) (name : string) : gset string :=
  list_to_set (name :: (sr_from_entity <$> rs) ++ (sr_to_entity <$> rs)).

(** The number of names a search can meet. *)
Definition path_fuel (rs : list StoredRelationship) : nat := 1 + length rs + length rs.

Lemma endpoints_size rs name : (size (endpoints rs name) ≤ path_fuel rs)%nat.
Proof.
  etrans; [apply size_list_to_set_le|]. unfold path_fuel. simpl. rewrite length_app, !length_fmap. lia.
Qed.

Lemma relates_endpoints rs name a b : relates rs a b → b ∈ endpoints rs name.
Proof.
  intros (r & Hr & Hab). apply elem_of_list_to_set. right. apply elem_of_app.
  destruct Hab as [[_ <-]|[_ <-]]; [right|left]; apply list_elem_of_fmap; by exists r.
Qed.

(** ** Sorted names *)

Lemma sorted_names_spec names :
  StronglySorted String.le (sorted_names names) ∧ NoDup (sorted_names names)
  ∧ ∀ n, n ∈ sorted_names names ↔ n ∈ names.
Proof. apply sort_dedup_spec. Qed.

Lemma other_end_spec name (r : StoredRelationship) x :
  other_end name r = Some x →
  sr_from_entity r = name ∧ sr_to_entity r = x ∨ sr_to_entity r = name ∧ sr_from_entity r = x.
Proof.
  unfold other_end. destruct (String.eqb_spec (sr_from_entity r) name); [naive_solver|].
  destruct (String.eqb_spec (sr_to_entity r) name); naive_solver.
Qed.

(** A relation of an entity with itself gives itself as neighbour. *)
Lemma other_end_relates rs name x :
  x ∈ omap (other_end name) rs ↔ relates rs name x.
Proof.
  rewrite list_elem_of_omap. split.
  - intros (r & Hr & Hx). exists r. split; [done|]. by apply other_end_spec.
  - intros (r & Hr & Hab). unfold other_end.
    destruct Hab as [[Hf Ht]|[Ht Hf]].
    + exists r. split; [done|]. rewrite Hf, String.eqb_refl. by rewrite Ht.
    + exists r. split; [done|]. destruct (String.eqb_spec (sr_from_entity r) name) as [He|He].
      * by rewrite Ht, <-He, Hf.
      * by rewrite Ht, String.eqb_refl, Hf.
Qed.

(** ** The queries *)

(** A relation between two entities stored for a session. *)
Definition related_in (M : gmap (Uuid * string) StoredRelationship) (u : Uuid) (a b : string) : Prop :=
  ∃ r, M !! (u, rel_text r) = Some r
    ∧ (sr_from_entity r = a ∧ sr_to_entity r = b ∨ sr_to_entity r = a ∧ sr_from_entity r = b).

(** A path along stored relations. *)
Definition relation_path M u (from to : string) (p : list string) : Prop :=
  head p = Some from ∧ last p = Some to
  ∧ ∀ i x y, p !! i = Some x → p !! S i = Some y → related_in M u x y.

Lemma relates_stored M u rs a b :
  (∀ r, r ∈ rs ↔ M !! (u, rel_text r) = Some r) → relates rs a b ↔ related_in M u a b.
Proof. intros Hrs. unfold relates, related_in. by setoid_rewrite Hrs. Qed.

Lemma path_to_relation M u rs (nbrs : string → list string) from to p :
  (∀ r, r ∈ rs ↔ M !! (u, rel_text r) = Some r) → (∀ a b, b ∈ nbrs a ↔ relates rs a b) →
  path_to nbrs from to p ↔ relation_path M u from to p.
Proof.
  intros Hrs Hn. unfold path_to, relation_path, walk. setoid_rewrite Hn.
  by setoid_rewrite (relates_stored M u rs).
Qed.

(** C23: What is written to the stored graph is kept as two maps, entities by
    session and name and relations by session and key text: every write
    changes exactly its entries, a batch applies in order, and no other kind
    of record is touched; an entity read back is the one written without its
    aliases, a relation is the one written. *)
Theorem graph_ops_refine d m E M op :
  db_is d m → graph_tables m E M → valid_graph_op op →
  ∃ d' m', run_graph_op d op = (d', Ok tt) ∧ db_is d' m'
    ∧ graph_tables m' (graph_step op E M).1 (graph_step op E M).2 ∧ only_in stored_graph_families m m'
    ∧ match op with
      | UpsertEntity u e =>
        get_entity d' u (ed_name e)
        = Ok (Some (mkEntityData (ed_name e) (ed_entity_type e) (first_mentioned e) (last_mentioned e)
                      (mention_count e) (importance_score e) (ed_description e) []))
      | DeleteEntity u name => get_entity d' u name = Ok None
      | Relate u r => ∃ rs, load_session_relationships d' u = Ok rs ∧ r ∈ to_relationship <$> rs
      | SaveGraph _ _ => True
      end.
Proof.
  intros Hd Hm Hop. destruct (graph_op_spec d m E M op Hd Hm Hop) as (d' & m' & Hrun & Hd' & Hm' & Hf).
  exists d', m'. split_and!; [done..|]. destruct op as [u e|u name|u r|es rs]; simpl in *; [| | |done].
  - unfold get_entity, load_entity. rewrite (db_is_get d' m') by done.
    pose proof (sm_lookup _ _ _ _ _ _ (gt_entities _ _ _ Hm') (u, ed_name e) Hop) as Hl.
    simpl in Hl. rewrite Hl. unfold write_entity. simpl. rewrite lookup_insert_eq. simpl.
    rewrite decode_encoded. simpl. unfold to_entity_data. simpl. by destruct (ed_entity_type e).
  - unfold get_entity, load_entity. rewrite (db_is_get d' m') by done.
    pose proof (sm_lookup _ _ _ _ _ _ (gt_entities _ _ _ Hm') (u, name) Hop) as Hl.
    simpl in Hl. by rewrite Hl, lookup_delete_eq.
  - destruct (load_relations_ok d' m' _ _ u Hd' Hm' Hop) as (rs & Hrs & Hin). exists rs.
    split; [done|]. apply list_elem_of_fmap. exists (from_relationship u r). split.
    + unfold to_relationship, from_relationship, stored_relation_type. simpl.
      rewrite RelationType_from_str_debug. by destruct r.
    + apply Hin. apply lookup_insert_eq.
Qed.

(** C24: [find_shortest_path] never runs out of work to do: it returns a path
    along stored relations of the session, and one with the fewest relations,
    or reports that there is none. *)
Theorem shortest_path_exact d m E M u from to :
  db_is d m → graph_tables m E M → valid_id u →
  ∃ n, ∀ fuel, (n ≤ fuel)%nat → ∃ r, find_shortest_path d fuel u from to = Some (Ok r)
    ∧ match r with
      | Some p => relation_path M u from to p
          ∧ ∀ p', relation_path M u from to p' → (length p ≤ length p')%nat
      | None => ∀ p, ¬ relation_path M u from to p
      end.
Proof.
  intros Hd Hm Hu. destruct (load_relations_ok d m E M u Hd Hm Hu) as (rs & Hrs & Hin).
  exists (path_fuel rs). intros fuel Hfuel. unfold find_shortest_path.
  destruct (String.eqb_spec from to) as [->|Hne].
  { exists (Some [to]). split; [done|]. split.
    - split_and!; [done..|]. by intros [|i] x y.
    - intros [|x p'] (Hh & _); [done|simpl; lia]. }
  rewrite Hrs. set (nbrs := λ current, default [] (adjacency_of rs !! current)).
  assert (∀ a b, b ∈ nbrs a ↔ relates rs a b) as Hn by (intros; apply elem_of_neighbours).
  destruct (path_search_terminates nbrs to (endpoints rs from) from fuel) as [r Hr].
  - apply elem_of_list_to_set. by left.
  - intros x y _ Hy%Hn. by eapply relates_endpoints.
  - etrans; [apply endpoints_size|done].
  - exists r. rewrite Hr. split; [done|]. apply path_search_sound in Hr; [|done].
    destruct r as [p|].
    + destruct Hr as [Hp Hmin]. split; [by apply (path_to_relation M u rs nbrs)|].
      intros p' Hp'. apply Hmin. by apply (path_to_relation M u rs nbrs).
    + intros p Hp. apply (Hr p). by apply (path_to_relation M u rs nbrs).
Qed.

Lemma lookup_inserted {A B} (name : A → string) (f : A → B) (l : list A) (m0 : gmap string B) n x :
  NoDup (name <$> l) →
  foldl (λ m e, <[name e := f e]> m) m0 l !! n = Some x
  ↔ (∃ e, e ∈ l ∧ name e = n ∧ x = f e) ∨ (n ∉ name <$> l) ∧ m0 !! n = Some x.
Proof.
  revert m0. induction l as [|e l IH]; intros m0 Hnd; csimpl.
  { split; [right; split; [apply not_elem_of_nil|done]|]. by intros [(e & ?%elem_of_nil & _)|[_ ?]]. }
  csimpl in Hnd. apply NoDup_cons in Hnd as [He Hnd]. rewrite (IH _ Hnd). setoid_rewrite elem_of_cons.
  rewrite lookup_insert_Some. split.
  - intros [(e' & Hin & Hx)|[Hn [[<- <-]|[Hne Hx]]]]; [left; by exists e'; auto|left; by exists e; auto|right; naive_solver].
  - intros [(e' & [->|Hin] & <- & ->)|[Hn Hx]]; [right; auto|left; by exists e'|right]. naive_solver.
Qed.

(** The stored network around an entity is exact: it has the stored
    entities within [max_depth] relations of the center and exactly the
    stored relations with both ends there. *)
Theorem network_exact d m E M u center max_depth :
  db_is d m → graph_tables m E M → valid_id u →
  ∃ nw, graph_network d u center max_depth = Ok nw ∧ nw_center nw = center
    ∧ ∃ near : gset string,
      (∀ n, n ∈ near ↔ ∃ p, relation_path M u center n p ∧ (length p ≤ S max_depth)%nat)
      ∧ (∀ n e, nw_entities nw !! n = Some e
           ↔ n ∈ near ∧ ∃ s, E !! (u, n) = Some s ∧ e = to_entity_data s)
      ∧ ∀ rel, rel ∈ nw_relationships nw
           ↔ ∃ r, M !! (u, rel_text r) = Some r ∧ rel = to_relationship r
               ∧ sr_from_entity r ∈ near ∧ sr_to_entity r ∈ near.
Proof.
  intros Hd Hm Hu. destruct (load_entities_ok d m E M u Hd Hm Hu) as (es & Hes & Hein & _ & Hnd).
  destruct (load_relations_ok d m E M u Hd Hm Hu) as (rs & Hrs & Hrin).
  exists (network_of center max_depth es rs). unfold graph_network. rewrite Hes, Hrs. split_and!; [done..|].
  set (nbrs := λ a, fst <$> default [] (adjacency_with rs !! a)).
  exists (level_search nbrs max_depth {[center]} [center]). split_and!.
  - intros n. rewrite level_search_within, within_path. f_equiv. intros p.
    by rewrite (path_to_relation M u rs nbrs) by (done || intros; apply elem_of_network_neighbours).
  - intros n e. unfold network_of. cbn [nw_entities]. fold nbrs.
    rewrite (lookup_inserted se_name to_entity_data), lookup_empty.
    2: { by apply NoDup_fmap_filter. }
    split.
    + intros [(s & [Hs Hin]%list_elem_of_filter & <- & ->)|[_ ?]]; [|done].
      split; [done|]. exists s. split; [by apply Hein|done].
    + intros [Hn (s & Hs & ->)]. pose proof (gt_name _ _ _ Hm _ _ Hs) as [= _ ->]. left. exists s.
      split; [|done]. apply list_elem_of_filter. split; [done|by apply Hein].
  - intros rel. unfold network_of. cbn [nw_relationships]. fold nbrs.
    rewrite list_elem_of_fmap. split.
    + intros (r & -> & [[Hf Ht] Hr%Hrin]%list_elem_of_filter). by exists r.
    + intros (r & Hr & -> & Hf & Ht). exists r. split; [done|].
      apply list_elem_of_filter. split; [done|by apply Hrin].
Qed.

(** The neighbours of an entity are listed in order and once each, from
    either end of a stored relation; by type, those over stored relations of
    that type. *)
Theorem related_exact d m E M u name ty :
  db_is d m → graph_tables m E M → valid_id u →
  ∃ all typed, find_related_entities d u name = Ok all ∧ find_related_by_type d u name ty = Ok typed
    ∧ StronglySorted String.le all ∧ NoDup all ∧ StronglySorted String.le typed ∧ NoDup typed
    ∧ (∀ x, x ∈ all ↔ related_in M u name x)
    ∧ ∀ x, x ∈ typed ↔ ∃ r, M !! (u, rel_text r) = Some r ∧ sr_relation_type r = RelationType_debug ty
        ∧ (sr_from_entity r = name ∧ sr_to_entity r = x ∨ sr_to_entity r = name ∧ sr_from_entity r = x).
Proof.
  intros Hd Hm Hu. destruct (load_relations_ok d m E M u Hd Hm Hu) as (rs & Hrs & Hin).
  unfold find_related_entities, find_related_by_type. rewrite Hrs. cbn [result_bind].
  destruct (sorted_names_spec (omap (other_end name) rs)) as (Hs & Hnd & Hel).
  set (rs' := filter (λ r, sr_relation_type r = RelationType_debug ty) rs).
  destruct (sorted_names_spec (omap (other_end name) rs')) as (Hs' & Hnd' & Hel').
  eexists _, _. split_and!; [done..| |].
  - intros x. rewrite Hel, other_end_relates. by apply relates_stored.
  - intros x. rewrite Hel', other_end_relates. unfold relates, rs'. f_equiv. intros r.
    rewrite list_elem_of_filter, Hin. tauto.
Qed.

(** Names are joined with ':' in the key of a relation, so relations of
    names that contain ':' can share a key: storing the second loses the
    first. *)
Theorem colon_in_name_overwrites d m E M u :
  db_is d m → graph_tables m E M → valid_id u →
  ∃ d1 d2 rs, create_relationship d u (mkEntityRelationship "a:b" "c" DependsOn "first") = (d1, Ok tt)
    ∧ create_relationship d1 u (mkEntityRelationship "a" "b:c" DependsOn "second") = (d2, Ok tt)
    ∧ load_session_relationships d2 u = Ok rs
    ∧ (mkEntityRelationship "a" "b:c" DependsOn "second") ∈ to_relationship <$> rs
    ∧ (mkEntityRelationship "a:b" "c" DependsOn "first") ∉ to_relationship <$> rs.
Proof.
  intros Hd Hm Hu.
  destruct (graph_op_spec d m E M (Relate u (mkEntityRelationship "a:b" "c" DependsOn "first")) Hd Hm Hu)
    as (d1 & m1 & Hr1 & Hd1 & Hm1 & _).
  destruct (graph_op_spec d1 m1 _ _ (Relate u (mkEntityRelationship "a" "b:c" DependsOn "second")) Hd1 Hm1 Hu)
    as (d2 & m2 & Hr2 & Hd2 & Hm2 & _). simpl in *.
  destruct (load_relations_ok d2 m2 _ _ u Hd2 Hm2 Hu) as (rs & Hrs & Hin).
  exists d1, d2, rs. split_and!; [done..| |].
  - apply list_elem_of_fmap. eexists. split; [|apply Hin, lookup_insert_eq]. done.
  - intros (r & Heq & Hr%Hin)%list_elem_of_fmap. unfold to_relationship in Heq.
    injection Heq as Hf Ht Hty Hc. assert (rel_text r = "a:b:c:DependsOn") as Htext.
    { unfold rel_text. by rewrite <-Hf, <-Ht, <-Hty. }
    rewrite Htext in Hr. unfold write_relation in Hr. simpl in Hr.
    change (rel_text _) with "a:b:c:DependsOn" in Hr at 1. rewrite lookup_insert_eq in Hr.
    by injection Hr as <-.
Qed.
End store.

(** ** Instances *)

#[global] Instance StoredEntity_eq_dec : EqDecision StoredEntity.
Proof. solve_decision. Defined.

#[global] Instance StoredEntity_countable : Countable StoredEntity.
Proof.
  refine (inj_countable'
    (λ e, (se_session_id e, se_name e, se_entity_type e, se_first_mentioned e, se_last_mentioned e,
           se_mention_count e, se_importance_score e, se_description e))
    (λ '(a, b, c, d, e, f, g, h), mkStoredEntity a b c d e f g h) _).
  by intros [].
Defined.

#[global] Instance StoredRelationship_eq_dec : EqDecision StoredRelationship.
Proof. solve_decision. Defined.

#[global] Instance StoredRelationship_countable : Countable StoredRelationship.
Proof.
  refine (inj_countable'
    (λ r, (sr_session_id r, sr_from_entity r, sr_to_entity r, sr_relation_type r, sr_context r))
    (λ '(a, b, c, d, e), mkStoredRelationship a b c d e) _).
  by intros [].
Defined.

Definition entity_codec_of : Bincode StoredEntity := countable_bincode.
Definition relationship_codec_of : Bincode StoredRelationship := countable_bincode.

#[local] Existing Instances mem_db mem_db_laws hex_uuid hex_uuid_laws entity_codec_of relationship_codec_of.
#[local] Instance entity_laws : BincodeLaws StoredEntity := countable_bincode_laws.
#[local] Instance relationship_laws : BincodeLaws StoredRelationship := countable_bincode_laws.

Definition demo_relations : list EntityRelationship :=
  [mkEntityRelationship "api" "db" DependsOn ""; mkEntityRelationship "db" "disk" DependsOn "";
   mkEntityRelationship "api" "cache" LeadsTo ""; mkEntityRelationship "cache" "disk" RelatedTo "";
   mkEntityRelationship "cli" "shell" DependsOn ""].

Definition demo_graph_db : @DB mem_db :=
  (batch_save_graph_data empty_db [] (from_relationship 7 <$> demo_relations)).1.

Definition demo_graph_rows : gmap (Uuid * string) StoredRelationship :=
  foldl (flip write_relation) ∅ (from_relationship 7 <$> demo_relations).

Lemma demo_graph_ok : ∃ m, db_is demo_graph_db m ∧ graph_tables m ∅ demo_graph_rows.
Proof.
  destruct (graph_op_spec empty_db ∅ ∅ ∅ (SaveGraph [] (from_relationship 7 <$> demo_relations)))
    as (d & m & Hrun & Hd & Hm & _); [apply mem_db_is|by apply no_graph| |].
  - split; [constructor|]. apply Forall_fmap, Forall_true. intros r. by vm_compute.
  - exists m. split; [|done]. unfold demo_graph_db.
    change (batch_save_graph_data _ _ _) with (run_graph_op empty_db (SaveGraph [] (from_relationship 7 <$> demo_relations))).
    rewrite Hrun. exact Hd.
Qed.

Lemma graph_ops_refine_witness :
  ∃ d' m', run_graph_op empty_db (DeleteEntity 7 "api") = (d', Ok tt) ∧ db_is d' m'
    ∧ get_entity d' 7 "api" = Ok None.
Proof.
  destruct (graph_ops_refine empty_db ∅ ∅ ∅ (DeleteEntity 7 "api"))
    as (d' & m' & Hrun & Hd' & _ & _ & Hget); [apply mem_db_is|by apply no_graph|by vm_compute|].
  exists d', m'. split_and!; [exact Hrun|exact Hd'|exact Hget].
Defined.

Lemma shortest_path_exact_witness :
  ∃ fuel r, find_shortest_path demo_graph_db fuel 7 "api" "disk" = Some (Ok r).
Proof.
  destruct demo_graph_ok as (m & Hd & Hm).
  destruct (shortest_path_exact demo_graph_db m ∅ demo_graph_rows 7 "api" "disk" Hd Hm) as [n Hn];
    [by vm_compute|].
  destruct (Hn n) as (r & Hr & _); [done|]. exists n, r. exact Hr.
Defined.

Lemma network_exact_witness :
  ∃ nw, graph_network demo_graph_db 7 "api" 1 = Ok nw ∧ nw_center nw = "api".
Proof.
  destruct demo_graph_ok as (m & Hd & Hm).
  destruct (network_exact demo_graph_db m ∅ demo_graph_rows 7 "api" 1 Hd Hm) as (nw & Hnw & Hc & _);
    [by vm_compute|].
  exists nw. split; [exact Hnw|exact Hc].
Defined.

Lemma related_exact_witness :
  ∃ all, find_related_entities demo_graph_db 7 "disk" = Ok all ∧ NoDup all.
Proof.
  destruct demo_graph_ok as (m & Hd & Hm).
  destruct (related_exact demo_graph_db m ∅ demo_graph_rows 7 "disk" DependsOn Hd Hm)
    as (all & typed & Hall & _ & _ & Hnd & _); [by vm_compute|].
  exists all. split; [exact Hall|exact Hnd].
Defined.

Lemma colon_in_name_overwrites_witness :
  ∃ d1 d2 rs, create_relationship empty_db 7 (mkEntityRelationship "a:b" "c" DependsOn "first") = (d1, Ok tt)
    ∧ create_relationship d1 7 (mkEntityRelationship "a" "b:c" DependsOn "second") = (d2, Ok tt)
    ∧ load_session_relationships d2 7 = Ok rs
    ∧ (mkEntityRelationship "a:b" "c" DependsOn "first" ∉ to_relationship <$> rs).
Proof.
  destruct (colon_in_name_overwrites empty_db ∅ ∅ ∅ 7) as (d1 & d2 & rs & H1 & H2 & H3 & _ & H5);
    [apply mem_db_is|by apply no_graph|by vm_compute|].
  exists d1, d2, rs. split_and!; [exact H1|exact H2|exact H3|exact H5].
Defined.
