(* ===== verification/RocksVectors.v ===== *)
(** * Embeddings in RocksDB

    [vectors.rs] of [post-cortex-storage/src/rocksdb_storage] and
    [StoredEmbedding] of [types.rs]: a row per session and content id, and
    exact searches that scan them.  [BinaryHeap::with_capacity] allocates for
    any [k]. *)

From stdpp Require Import gmap.
From S2P Require Import Prelude RustStd StrLemmas F32 FloatRound TopK Similarity VectorTypes Collections Types.
From S2P Require Import ContextAssembly Rocks RocksThms.

Local Open Scope string_scope.
Local Open Scope list_scope.
Local Open Scope pcx.

Record StoredEmbedding := mkStoredEmbedding {
  em_content_id : string;
  em_session_id : string;
  em_vector : list f32;
  em_text : string;
  em_content_type : string;
  em_timestamp : DateTime;
  em_metadata : gmap string string;
}.

Definition StoredEmbedding_new (vector : list f32) (metadata : VectorMetadata) : StoredEmbedding :=
  mkStoredEmbedding (vm_id metadata) (vm_source metadata) vector (vm_text metadata)
    (vm_content_type metadata) (vm_timestamp metadata) (vm_metadata metadata).

Definition to_metadata (e : StoredEmbedding) : VectorMetadata :=
  mkVectorMetadata (em_content_id e) (em_text e) (em_session_id e) (em_content_type e)
    (em_timestamp e) (em_metadata e).

Definition EMBEDDING_PREFIX : string := "embedding:".

Definition embedding_key (session_id content_id : string) : bytes :=
  "embedding:" +:+ session_id +:+ ":" +:+ content_id.

Definition session_embeddings (session_id : string) : bytes := "embedding:" +:+ session_id +:+ ":".

(** ** The heap of a search *)

Record Scored := mkScored {
  sc_similarity : f32;
  sc_ordinal : N;
  sc_embedding : StoredEmbedding;
}.

(** [Scored::cmp]. *)
Definition scored_cmp : Scored → Scored → comparison := score_cmp sc_similarity sc_ordinal.

(** [u32::try_from(ordinal).unwrap_or(u32::MAX)]. *)
Definition u32_ordinal (ordinal : nat) : N := N.min (N.of_nat ordinal) (u32_mod - 1).

(** [similarity > worst.similarity]. *)
Definition more_similar (x worst : Scored) : bool := f32_lt (sc_similarity worst) (sc_similarity x).

Definition scored_match (s : Scored) : SearchMatch :=
  mkSearchMatch (sc_ordinal s) (sc_similarity s) (to_metadata (sc_embedding s)).

(** What follows the first ':' (58). *)
Fixpoint after_colon (s : string) : option string :=
  match s with
  | EmptyString => None
  | String c s => if (Ascii.N_of_ascii c =? 58)%N then Some s else after_colon s
  end.

Section vectors.
Context `{R : RocksDB} `{BE : Bincode StoredEmbedding}.
(** [vector_dimension] of the storage. *)
Variable vector_dimension : option nat.

Definition decode_embedding (value : bytes) : option StoredEmbedding :=
  match decode_from_slice value with Ok (e, _) => Some e | Err _ => None end.

Definition put_embedding (batch : WriteBatch) (embedding : StoredEmbedding) : result WriteBatch Error :=
  match encode_to_vec embedding with
  | Ok data =>
    Ok (batch ++ [BatchPut (embedding_key (em_session_id embedding) (em_content_id embedding)) data])
  | Err e => Err ("Failed to serialize embedding: " +:+ e)
  end.

(** The deletions of [delete_by_content_id], and whether there are any. *)
Definition content_deletions (keys : list bytes) (content_id : string) : WriteBatch :=
  BatchDelete <$>
    filter (λ key, bool_decide (after_colon (after EMBEDDING_PREFIX key) = Some content_id)) keys.

Definition delete_by_content_id (d : DB) (content_id : string) : DB * result bool Error :=
  match keys_with_prefix d EMBEDDING_PREFIX with
  | Err e => (d, Err e)
  | Ok keys =>
    let batch := content_deletions keys content_id in
    match db_write d batch with
    | (d, Ok _) => (d, Ok (negb (bool_decide (batch = []))))
    | (d, Err e) => (d, Err e)
    end
  end.

Definition score (query : list f32) (query_norm : f32) (ordinal : nat) (embedding : StoredEmbedding) : Scored :=
  mkScored (cosine_with_norms query (em_vector embedding) query_norm (l2_norm (em_vector embedding)))
    (u32_ordinal ordinal) embedding.

(** The loop of [scan_search]. *)
Fixpoint scan_loop (query : list f32) (query_norm : f32) (k : nat) (admitted : StoredEmbedding → bool)
    (ordinal : nat) (items : list (result (bytes * bytes) Error)) (heap : list Scored)
    : result (list Scored) Error :=
  match items with
  | [] => Ok heap
  | item :: items =>
    try (_, value) <- item;
    let next := scan_loop query query_norm k admitted (S ordinal) items in
    match decode_embedding value with
    | None => next heap
    | Some embedding =>
      if negb (length (em_vector embedding) =? length query)%nat || negb (admitted embedding) then next heap
      else next (heap_offer scored_cmp more_similar k heap (score query query_norm ordinal embedding))
    end
  end.

Definition scan_search (d : DB) (prefix : bytes) (query : list f32) (k : nat)
    (admitted : StoredEmbedding → bool) : result (list SearchMatch) Error :=
  if (k =? 0)%nat then Ok []
  else
    try heap <- scan_loop query (l2_norm query) k admitted 0 (scan_prefix d prefix) [];
    Ok (scored_match <$> heap).

(** ** Rows *)

Definition validate_vector (vector : list f32) : result unit Error :=
  match vector_dimension with
  | Some dim =>
    if (length vector =? dim)%nat then Ok tt
    else Err ("Invalid embedding dimension: expected " +:+ Z_to_string (Z.of_nat dim)
              +:+ ", got " +:+ Z_to_string (Z.of_nat (length vector)))
  | None => if bool_decide (vector = []) then Err "Invalid embedding dimension: empty vector" else Ok tt
  end.

Fixpoint put_embeddings (batch : WriteBatch) (embeddings : list StoredEmbedding) : result WriteBatch Error :=
  match embeddings with
  | [] => Ok batch
  | e :: embeddings => try batch <- put_embedding batch e; put_embeddings batch embeddings
  end.

Definition batch_save_embeddings (d : DB) (embeddings : list StoredEmbedding) : DB * result unit Error :=
  match embeddings with
  | [] => (d, Ok tt)
  | _ =>
    match put_embeddings [] embeddings with
    | Ok batch => db_write d batch
    | Err e => (d, Err e)
    end
  end.

Definition save_embedding (d : DB) (embedding : StoredEmbedding) : DB * result unit Error :=
  batch_save_embeddings d [embedding].

Definition load_embeddings_with_prefix (d : DB) (prefix : bytes) : result (list StoredEmbedding) Error :=
  try items <- try_items (scan_prefix d prefix);
  Ok (omap (λ kv, decode_embedding kv.2) items).

Definition load_session_embeddings (d : DB) (session_id : string) : result (list StoredEmbedding) Error :=
  load_embeddings_with_prefix d (session_embeddings session_id).

Definition load_all_embeddings (d : DB) : result (list StoredEmbedding) Error :=
  load_embeddings_with_prefix d EMBEDDING_PREFIX.

Definition delete_embedding (d : DB) (session_id content_id : string) : DB * result bool Error :=
  let key := embedding_key session_id content_id in
  match db_get d key with
  | Err e => (d, Err e)
  | Ok stored =>
    match db_delete d key with
    | (d, Ok _) => (d, Ok (bool_decide (is_Some stored)))
    | (d, Err e) => (d, Err e)
    end
  end.

(** [unwrap_or(0)] on the number of keys. *)
Definition count_keys (d : DB) (prefix : bytes) : nat :=
  match keys_with_prefix d prefix with Ok keys => length keys | Err _ => 0 end.

Definition count_embeddings (d : DB) (session_id : string) : nat :=
  count_keys d (session_embeddings session_id).

(** ** [VectorStorage] *)

Definition add_vector (d : DB) (vector : list f32) (metadata : VectorMetadata) : DB * result string Error :=
  match validate_vector vector with
  | Err e => (d, Err e)
  | Ok _ =>
    match save_embedding d (StoredEmbedding_new vector metadata) with
    | (d, Ok _) => (d, Ok (vm_id metadata))
    | (d, Err e) => (d, Err e)
    end
  end.

Fixpoint validate_vectors (vectors : list (list f32 * VectorMetadata)) : result unit Error :=
  match vectors with
  | [] => Ok tt
  | v :: vectors => try _ <- validate_vector v.1; validate_vectors vectors
  end.

Definition add_vectors_batch (d : DB) (vectors : list (list f32 * VectorMetadata))
    : DB * result (list string) Error :=
  match validate_vectors vectors with
  | Err e => (d, Err e)
  | Ok _ =>
    match batch_save_embeddings d ((λ v, StoredEmbedding_new v.1 v.2) <$> vectors) with
    | (d, Ok _) => (d, Ok ((λ v, vm_id v.2) <$> vectors))
    | (d, Err e) => (d, Err e)
    end
  end.

Definition search (d : DB) (query : list f32) (k : nat) : result (list SearchMatch) Error :=
  scan_search d EMBEDDING_PREFIX query k (λ _, true).

Definition search_in_session (d : DB) (query : list f32) (k : nat) (session_id : string)
    : result (list SearchMatch) Error :=
  scan_search d (session_embeddings session_id) query k (λ _, true).

Definition search_by_content_type (d : DB) (query : list f32) (k : nat) (content_type : string)
    : result (list SearchMatch) Error :=
  scan_search d EMBEDDING_PREFIX query k (λ e, String.eqb (em_content_type e) content_type).

Definition remove_vector (d : DB) (id : string) : DB * result bool Error := delete_by_content_id d id.

Definition remove_session_vector (d : DB) (session_id content_id : string) : DB * result bool Error :=
  delete_embedding d session_id content_id.

(** [next().is_some()]: a failed item counts. *)
Definition has_session_embeddings (d : DB) (session_id : string) : bool :=
  negb (bool_decide (length (scan_prefix d (session_embeddings session_id)) = 0))%nat.

Definition total_count (d : DB) : nat := count_keys d EMBEDDING_PREFIX.

Definition embedding_vector (e : StoredEmbedding) : list f32 * VectorMetadata := (em_vector e, to_metadata e).

Definition get_session_vectors (d : DB) (session_id : string)
    : result (list (list f32 * VectorMetadata)) Error :=
  try embeddings <- load_session_embeddings d session_id; Ok (embedding_vector <$> embeddings).

Definition get_all_vectors (d : DB) : result (list (list f32 * VectorMetadata)) Error :=
  try embeddings <- load_all_embeddings d; Ok (embedding_vector <$> embeddings).
End vectors.
