(* ===== verification/RocksVectorsThms.v ===== *)
(** * Embeddings in RocksDB: theorems

    [embedding_table] relates the database to a map of embeddings by session
    and content id; session ids have no ':' (they are UUIDs).  Writes and
    removals act on the map, and a search answers with its nearest rows. *)

From stdpp Require Import gmap.
From S2P Require Import Prelude RustStd StrLemmas F32 FloatRound TopK Similarity VectorTypes Collections Types.
From S2P Require Import ContextAssembly RecordCodecs Rocks RocksThms RocksVectors.

Local Open Scope string_scope.
Local Open Scope list_scope.
Local Open Scope pcx.

Definition no_colon (s : string) : Prop := (58%N ∉ str_bytes s).

#[global] Instance no_colon_dec s : base.Decision (no_colon s).
Proof. unfold no_colon. apply _. Defined.

Lemma after_colon_app s r : no_colon s → after_colon (s +:+ ":" +:+ r) = Some r.
Proof.
  unfold no_colon. induction s as [|c s IH]; intros Hs; [done|]. simpl.
  rewrite str_bytes_cons, not_elem_of_cons in Hs. destruct Hs as [Hc Hs].
  destruct (N.eqb_spec (Ascii.N_of_ascii c) 58) as [Heq|_]; [by rewrite Heq in Hc|]. by apply IH.
Qed.

Lemma colon_split s s' r r' :
  no_colon s → no_colon s' → s +:+ ":" +:+ r = s' +:+ ":" +:+ r' → s = s' ∧ r = r'.
Proof.
  intros Hs Hs' Heq. pose proof (f_equal after_colon Heq) as Hr. rewrite !after_colon_app in Hr by done.
  injection Hr as ->. split; [|done]. apply (inj str_bytes). apply (f_equal str_bytes) in Heq.
  rewrite !str_bytes_app in Heq. by apply app_inv_tail in Heq.
Qed.

Definition embedding_id (e : StoredEmbedding) : string * string := (em_session_id e, em_content_id e).

Definition in_plain_session (p : string * string) : Prop := no_colon p.1.

Lemma embedding_codec : key_codec "embedding:" (uncurry embedding_key) in_plain_session.
Proof.
  split; [intros [s c] _; by eexists|]. intros [s c] [s' c'] Hs Hs' Heq. simpl in *.
  apply str_app_inj_r in Heq. by apply colon_split in Heq as [-> ->].
Qed.

Lemma under_embeddings s s' c :
  no_colon s → no_colon s' → has_prefix (session_embeddings s) (embedding_key s' c) ↔ s' = s.
Proof.
  intros Hs Hs'. unfold session_embeddings, embedding_key. split.
  - intros [r Hr]. rewrite !str_app_assoc in Hr. apply str_app_inj_r in Hr. by apply colon_split in Hr as [-> _].
  - intros ->. exists c. by rewrite !str_app_assoc.
Qed.

Section store.
Context `{RL : RocksDBLaws} `{EL : BincodeLaws StoredEmbedding}.
Variable dim : option nat.

Abbreviation vectors := (gmap (string * string) StoredEmbedding) (only parsing).
Implicit Types (E : gmap (string * string) StoredEmbedding) (m : gmap string string).

Record embedding_table m E : Prop := {
  et_rows : stored_map "embedding:" (uncurry embedding_key) encoded in_plain_session m E;
  et_id p e : E !! p = Some e → p = embedding_id e;
}.

Lemma no_embeddings m : (∀ k, family k ∈ ["embedding"] → m !! k = None) → embedding_table m ∅.
Proof.
  intros Hm. split; [|intros p e; by rewrite lookup_empty].
  apply stored_none; [|apply embedding_codec]. intros b [r ->]. apply Hm. by left.
Qed.

(** ** Writes and removals *)

Definition write_embedding E (e : StoredEmbedding) : vectors := <[embedding_id e := e]> E.

Inductive vector_op :=
  | AddVector (vector : list f32) (metadata : VectorMetadata)
  | AddVectors (vectors : list (list f32 * VectorMetadata))
  | SaveEmbeddings (embeddings : list StoredEmbedding)
  | RemoveContent (content_id : string)
  | RemoveOne (session_id content_id : string).

Inductive vector_out := Stored (ids : list string) | Saved | Removed (found : bool).

Definition out {A} (f : A → vector_out) (r : DB * result A Error) : DB * option vector_out :=
  (r.1, match r.2 with Ok x => Some (f x) | Err _ => None end).

Definition run_vector_op (d : DB) (op : vector_op) : DB * option vector_out :=
  match op with
  | AddVector v md => out (λ id, Stored [id]) (add_vector dim d v md)
  | AddVectors vs => out Stored (add_vectors_batch dim d vs)
  | SaveEmbeddings es => out (λ _, Saved) (batch_save_embeddings d es)
  | RemoveContent id => out Removed (remove_vector d id)
  | RemoveOne s c => out Removed (remove_session_vector d s c)
  end.

Definition dimension_ok (v : list f32) : bool :=
  match dim with Some n => (length v =? n)%nat | None => negb (bool_decide (v = [])) end.

Definition embeddings_of (vs : list (list f32 * VectorMetadata)) : list StoredEmbedding :=
  (λ v, StoredEmbedding_new v.1 v.2) <$> vs.

(** The map after an operation, and its result; [None] is an error. *)
Definition vector_step E (op : vector_op) : vectors * option vector_out :=
  match op with
  | AddVector v md =>
    if dimension_ok v then (write_embedding E (StoredEmbedding_new v md), Some (Stored [vm_id md]))
    else (E, None)
  | AddVectors vs =>
    if forallb (dimension_ok ∘ fst) vs
    then (foldl write_embedding E (embeddings_of vs), Some (Stored (vm_id ∘ snd <$> vs)))
    else (E, None)
  | SaveEmbeddings es => (foldl write_embedding E es, Some Saved)
  | RemoveContent id =>
    (filter (λ p, p.1.2 ≠ id) E, Some (Removed (negb (bool_decide (filter (λ p, p.1.2 = id) E = ∅)))))
  | RemoveOne s c => (base.delete (s, c) E, Some (Removed (bool_decide (is_Some (E !! (s, c))))))
  end.

Definition valid_vector_op (op : vector_op) : Prop :=
  match op with
  | AddVector _ md => no_colon (vm_source md)
  | AddVectors vs => Forall (λ v, no_colon (vm_source v.2)) vs
  | SaveEmbeddings es => Forall (λ e, no_colon (em_session_id e)) es
  | RemoveContent _ => True
  | RemoveOne s _ => no_colon s
  end.

Definition row_puts (es : list StoredEmbedding) : WriteBatch :=
  (λ e, BatchPut (embedding_key (em_session_id e) (em_content_id e)) (encoded e)) <$> es.

Lemma put_embeddings_ok es b : put_embeddings b es = Ok (b ++ row_puts es).
Proof.
  revert b. induction es as [|e es IH]; intros b; [by rewrite app_nil_r|]. cbn [put_embeddings].
  unfold put_embedding. rewrite encode_ok. cbn [result_bind]. rewrite IH, <-app_assoc. done.
Qed.

Lemma put_rows_table m E es :
  embedding_table m E → Forall (λ e, no_colon (em_session_id e)) es →
  embedding_table (apply_batch (row_puts es) m) (foldl write_embedding E es).
Proof.
  intros Hm Hes. revert m E Hm. induction Hes as [|e es He Hes IH]; intros m E [Hr Hi]; [done|].
  csimpl. apply IH. split.
  - by apply (stored_put "embedding:" (uncurry embedding_key) encoded in_plain_session m E (embedding_id e));
      [apply embedding_codec|..].
  - intros p e'. unfold write_embedding. intros [[<- <-]|[_ Hp]]%lookup_insert_Some; [done|by apply Hi].
Qed.

Lemma vector_write d m E batch :
  db_is d m → embedding_table (apply_batch batch m) E →
  Forall (λ op, family (op_key op) ∈ ["embedding"]) batch →
  ∃ d' m', db_write d batch = (d', Ok tt) ∧ db_is d' m' ∧ embedding_table m' E ∧ only_in ["embedding"] m m'.
Proof.
  intros Hd Hm Hb. destruct (db_is_write d m batch Hd) as (d' & -> & Hd').
  exists d', (apply_batch batch m). split_and!; [done..|]. by apply only_in_batch.
Qed.

Lemma save_embeddings_spec d m E es :
  db_is d m → embedding_table m E → Forall (λ e, no_colon (em_session_id e)) es →
  ∃ d' m', batch_save_embeddings d es = (d', Ok tt) ∧ db_is d' m'
    ∧ embedding_table m' (foldl write_embedding E es) ∧ only_in ["embedding"] m m'.
Proof.
  intros Hd Hm Hes. destruct es as [|e es].
  { exists d, m. split_and!; [done..|apply only_in_refl]. }
  unfold batch_save_embeddings. rewrite put_embeddings_ok. apply vector_write; [done|by apply put_rows_table|].
  rewrite app_nil_l. unfold row_puts. apply Forall_fmap, Forall_true. intros x. by left.
Qed.

Lemma validate_vector_ok v :
  match validate_vector dim v with Ok _ => dimension_ok v = true | Err _ => dimension_ok v = false end.
Proof. unfold validate_vector, dimension_ok. destruct dim; by repeat case_match. Qed.

Lemma validate_vectors_ok vs :
  match validate_vectors dim vs with
  | Ok _ => forallb (dimension_ok ∘ fst) vs = true
  | Err _ => forallb (dimension_ok ∘ fst) vs = false
  end.
Proof.
  induction vs as [|v vs IH]; [done|]. cbn [validate_vectors forallb]. unfold compose at 1 3.
  pose proof (validate_vector_ok v.1) as Hv. destruct (validate_vector dim v.1); simpl; rewrite Hv; [|done].
  exact IH.
Qed.

Lemma elem_of_content_deletions m E k id :
  embedding_table m E → is_Some (E !! k) →
  uncurry embedding_key k
    ∈ filter (λ key, bool_decide (after_colon (after EMBEDDING_PREFIX key) = Some id)) (under_prefix EMBEDDING_PREFIX m).*1
  ↔ k.2 = id.
Proof.
  intros [Hr _] [e He]. destruct k as [s c]. pose proof (sm_valid _ _ _ _ _ _ Hr _ _ He) as Hs.
  rewrite list_elem_of_filter, bool_decide_spec. simpl.
  assert (after EMBEDDING_PREFIX (embedding_key s c) = s +:+ ":" +:+ c) as -> by apply after_app.
  rewrite after_colon_app by done. split; [by intros [[= ->] _]|]. intros ->. split; [done|].
  apply list_elem_of_fmap. exists (embedding_key s id, encoded e). split; [done|].
  apply elem_of_under_prefix. split; [by eexists|].
  pose proof (sm_lookup _ _ _ _ _ _ Hr (s, id) Hs) as Hl. simpl in Hl. by rewrite Hl, He.
Qed.

Lemma content_deletions_none m E id :
  embedding_table m E →
  content_deletions (under_prefix EMBEDDING_PREFIX m).*1 id = [] ↔ filter (λ p, p.1.2 = id) E = ∅.
Proof.
  intros Hm. unfold content_deletions. split.
  - intros Hnil%fmap_nil_inv. apply map_empty_filter_2. intros k e He Hid. simpl in Hid.
    apply (elem_of_content_deletions m E k id Hm) in Hid; [|by eexists]. rewrite Hnil in Hid.
    by apply elem_of_nil in Hid.
  - intros Hnone. destruct (filter _ (under_prefix EMBEDDING_PREFIX m).*1) as [|b bs] eqn:Hf; [done|].
    assert (b ∈ b :: bs) as Hb by by left. rewrite <-Hf in Hb. exfalso.
    pose proof Hb as [_ ([b' v] & -> & [Hpre Hv]%elem_of_under_prefix)%list_elem_of_fmap]%list_elem_of_filter.
    destruct Hm as [Hr Hi]. destruct (sm_only _ _ _ _ _ _ Hr _ _ Hpre Hv) as (k & Hk & Heq). simpl in *. subst b'.
    pose proof (sm_lookup _ _ _ _ _ _ Hr k Hk) as Hl. rewrite Hv in Hl.
    symmetry in Hl. apply fmap_Some in Hl as (e & He & _).
    apply (elem_of_content_deletions m E k id) in Hb; [|by split|by eexists].
    by apply (map_filter_empty_not_lookup _ _ k e Hnone).
Qed.

Lemma remove_content_spec d m E id :
  db_is d m → embedding_table m E →
  ∃ d' m', remove_vector d id = (d', Ok (negb (bool_decide (filter (λ p, p.1.2 = id) E = ∅))))
    ∧ db_is d' m' ∧ embedding_table m' (filter (λ p, p.1.2 ≠ id) E) ∧ only_in ["embedding"] m m'.
Proof.
  intros Hd Hm. unfold remove_vector, delete_by_content_id. rewrite (db_is_keys d m) by done.
  destruct (vector_write d m (filter (λ p, p.1.2 ≠ id) E)
    (content_deletions (under_prefix EMBEDDING_PREFIX m).*1 id) Hd) as (d' & m' & -> & Hd' & Hm' & Hf).
  - pose proof Hm as [Hr Hi]. split.
    + unfold content_deletions.
      apply (stored_delete_keys "embedding:" (uncurry embedding_key) encoded in_plain_session m E _ (λ k, k.2 = id)
        (P_dec := λ k, decide_rel eq k.2 id)); [apply embedding_codec|done|]. intros k. by apply elem_of_content_deletions.
    + intros p e [Hp _]%map_lookup_filter_Some. by apply Hi.
  - apply Forall_fmap, Forall_forall. intros k [_ ([b v] & -> & [[r ->] _]%elem_of_under_prefix)%list_elem_of_fmap]%list_elem_of_filter.
    by left.
  - exists d', m'. split_and!; [|done..]. do 2 f_equal. f_equal. apply bool_decide_ext.
    by apply content_deletions_none.
Qed.

Lemma vector_op_spec d m E op :
  db_is d m → embedding_table m E → valid_vector_op op →
  ∃ d' m', run_vector_op d op = (d', (vector_step E op).2) ∧ db_is d' m'
    ∧ embedding_table m' (vector_step E op).1 ∧ only_in ["embedding"] m m'.
Proof.
  intros Hd Hm Hop. destruct op as [v md|vs|es|id|s c]; simpl in *.
  - unfold add_vector. pose proof (validate_vector_ok v) as Hv.
    destruct (validate_vector dim v); rewrite Hv; [|exists d, m; split_and!; [done..|apply only_in_refl]].
    destruct (save_embeddings_spec d m E [StoredEmbedding_new v md] Hd Hm) as (d' & m' & Hs & Hd' & Hm' & Hf);
      [by apply Forall_singleton|]. exists d', m'. unfold save_embedding. by rewrite Hs.
  - unfold add_vectors_batch. pose proof (validate_vectors_ok vs) as Hv.
    destruct (validate_vectors dim vs); rewrite Hv; [|exists d, m; split_and!; [done..|apply only_in_refl]].
    destruct (save_embeddings_spec d m E (embeddings_of vs) Hd Hm) as (d' & m' & Hs & Hd' & Hm' & Hf);
      [by apply Forall_fmap|]. exists d', m'. unfold embeddings_of in Hs. by rewrite Hs.
  - destruct (save_embeddings_spec d m E es Hd Hm Hop) as (d' & m' & Hs & Hd' & Hm' & Hf).
    exists d', m'. by rewrite Hs.
  - destruct (remove_content_spec d m E id Hd Hm) as (d' & m' & Hs & Hd' & Hm' & Hf).
    exists d', m'. by rewrite Hs.
  - unfold remove_session_vector, delete_embedding. rewrite (db_is_get d m) by done.
    pose proof Hm as [Hr Hi].
    destruct (vector_write d m (base.delete (s, c) E) [BatchDelete (embedding_key s c)] Hd)
      as (d' & m' & Hw & Hd' & Hm' & Hf).
    + split; [|intros p e [_ Hp]%lookup_delete_Some; by apply Hi].
      by apply (stored_delete "embedding:" (uncurry embedding_key) encoded in_plain_session m E (s, c));
        [apply embedding_codec|..].
    + apply Forall_singleton. by left.
    + exists d', m'. unfold db_delete. rewrite Hw. split_and!; [|done..]. unfold out. simpl. do 3 f_equal.
      apply bool_decide_ext. pose proof (sm_lookup _ _ _ _ _ _ Hr (s, c) Hop) as Hl. simpl in Hl.
      by rewrite Hl, fmap_is_Some.
Qed.

(** ** Reads *)

(** The embeddings whose key begins with [q], in key order. *)
Lemma scan_embeddings m E q :
  embedding_table m E → has_prefix "embedding:" q →
  ∃ es, under_prefix q m = (λ e, (uncurry embedding_key (embedding_id e), encoded e)) <$> es
    ∧ NoDup es
    ∧ (∀ e, e ∈ es ↔ E !! embedding_id e = Some e ∧ has_prefix q (uncurry embedding_key (embedding_id e)))
    ∧ StronglySorted (λ e e', String.le (uncurry embedding_key (embedding_id e)) (uncurry embedding_key (embedding_id e'))) es
    ∧ (length es ≤ size E)%nat.
Proof.
  intros [Hr Hi] Hq.
  destruct (stored_scan "embedding:" (uncurry embedding_key) encoded in_plain_session m E q)
    as (l & Heq & Hnd & Hl & Hs); [apply embedding_codec|done..|].
  assert (∀ e, e ∈ l → e.1 = embedding_id e.2) as Hkey.
  { intros [p e] [Hx _]%Hl. by apply Hi. }
  assert (l = (λ e, (embedding_id e, e)) <$> l.*2) as Hl2.
  { rewrite <-list_fmap_compose. rewrite <-(list_fmap_id l) at 1. apply list_fmap_ext.
    intros i [p e] Hx%list_elem_of_lookup_2. apply Hkey in Hx. simpl in *. by rewrite Hx. }
  exists l.*2. split_and!.
  - rewrite Heq. rewrite Hl2 at 1. by rewrite <-list_fmap_compose.
  - apply (NoDup_fmap_1 (λ e, (embedding_id e, e))). rewrite <-Hl2. by eapply NoDup_fmap_1.
  - intros e. rewrite list_elem_of_fmap. split.
    + intros ([p e'] & -> & Hx). pose proof (Hkey _ Hx) as Hp. simpl in Hp. subst p. by apply Hl in Hx.
    + intros Hx. exists (embedding_id e, e). split; [done|]. by apply Hl.
  - rewrite Hl2 in Hs. by apply StronglySorted_fmap_inv in Hs.
  - assert (length l.*2 = length l.*1) as -> by (by rewrite !length_fmap).
    rewrite <-(size_list_to_set (C := gset (string * string)) l.*1), <-(size_dom (D := gset (string * string)))
      by done. apply subseteq_size.
    intros p ([p' e] & -> & [Hx _]%Hl)%elem_of_list_to_set%list_elem_of_fmap. apply elem_of_dom. by exists e.
Qed.

Lemma decode_embedding_encoded e : decode_embedding (encoded e) = Some e.
Proof. unfold decode_embedding. by rewrite decode_encoded. Qed.

Lemma load_embeddings_ok d m q es (key : StoredEmbedding → bytes) :
  db_is d m → under_prefix q m = (λ e, (key e, encoded e)) <$> es → load_embeddings_with_prefix d q = Ok es.
Proof.
  intros Hd Heq. unfold load_embeddings_with_prefix. rewrite (db_is_scan d m), Heq, try_items_ok by done.
  simpl. f_equal. clear Heq. induction es as [|e es IH]; [done|]. csimpl. rewrite decode_embedding_encoded. by f_equal.
Qed.

Lemma count_keys_ok d m q es (key : StoredEmbedding → bytes) :
  db_is d m → under_prefix q m = (λ e, (key e, encoded e)) <$> es → count_keys d q = length es.
Proof.
  intros Hd Heq. unfold count_keys. rewrite (db_is_keys d m), Heq by done. by rewrite !length_fmap.
Qed.

(** ** Searches *)

(** The candidates of a search among the rows of a scan. *)
Fixpoint candidates (query : list f32) (admitted : StoredEmbedding → bool) (ordinal : nat)
    (es : list StoredEmbedding) : list Scored :=
  match es with
  | [] => []
  | e :: es =>
    let rest := candidates query admitted (S ordinal) es in
    if (length (em_vector e) =? length query)%nat && admitted e
    then score query (l2_norm query) ordinal e :: rest else rest
  end.

Lemma scan_loop_ok query k admitted n es (key : StoredEmbedding → bytes) heap :
  scan_loop query (l2_norm query) k admitted n (Ok <$> ((λ e, (key e, encoded e)) <$> es)) heap
  = Ok (foldl (heap_offer scored_cmp more_similar k) heap (candidates query admitted n es)).
Proof.
  revert n heap. induction es as [|e es IH]; intros n heap; [done|]. csimpl. rewrite decode_embedding_encoded.
  destruct (length (em_vector e) =? length query)%nat; [|apply IH]. destruct (admitted e); apply IH.
Qed.

Lemma elem_of_candidates query admitted n es s :
  s ∈ candidates query admitted n es →
  ∃ i, (n ≤ i < n + length es)%nat ∧ es !! (i - n)%nat = Some (sc_embedding s)
    ∧ s = score query (l2_norm query) i (sc_embedding s).
Proof.
  revert n. induction es as [|e es IH]; intros n Hs; [by apply elem_of_nil in Hs|]. simpl in *.
  assert (s = score query (l2_norm query) n e ∨ s ∈ candidates query admitted (S n) es) as [->|Hin].
  { destruct (_ && _); [by apply elem_of_cons in Hs|by right]. }
  - exists n. split_and!; [lia|lia| |done]. by rewrite Nat.sub_diag.
  - apply IH in Hin as (i & Hi & Hes & Heq). exists i. split_and!; [lia|lia| |done].
    by replace (i - n)%nat with (S (i - S n))%nat by lia.
Qed.

Lemma candidates_embeddings query admitted n es :
  sc_embedding <$> candidates query admitted n es
  = filter (λ e, (length (em_vector e) =? length query)%nat && admitted e) es.
Proof.
  revert n. induction es as [|e es IH]; intros n; [done|]. cbn [candidates].
  rewrite filter_cons. destruct (_ && _); csimpl; by rewrite IH.
Qed.

(** Candidates come in the order of their ordinals. *)
Lemma candidates_sorted query admitted n es :
  (N.of_nat (n + length es) ≤ u32_mod)%N →
  StronglySorted (λ s s', (sc_ordinal s < sc_ordinal s')%N) (candidates query admitted n es).
Proof.
  revert n. induction es as [|e es IH]; intros n Hn; [constructor|]. simpl in Hn.
  assert (StronglySorted (λ s s', (sc_ordinal s < sc_ordinal s')%N) (candidates query admitted (S n) es)) as Hs
    by (apply IH; lia).
  cbn [candidates]. destruct (_ && _); [|done]. constructor; [done|].
  apply Forall_forall. intros s (i & Hi & _ & ->)%elem_of_candidates. simpl. unfold u32_ordinal, u32_mod in *. lia.
Qed.

Lemma StronglySorted_pair {A} (R : relation A) (l : list A) x y :
  StronglySorted R l → x ∈ l → y ∈ l → x = y ∨ R x y ∨ R y x.
Proof.
  induction 1 as [|z l Hs IH Hz]; intros Hx Hy; [by apply elem_of_nil in Hx|].
  rewrite Forall_forall in Hz. apply elem_of_cons in Hx as [->|Hx], Hy as [->|Hy]; auto.
Qed.

(** The similarity of a row to the query. *)
Definition similarity_to (query : list f32) (e : StoredEmbedding) : f32 :=
  cosine_with_norms query (em_vector e) (l2_norm query) (l2_norm (em_vector e)).

Lemma similarity_plain query e :
  similarity_to query e ≠ SpecFloat.S754_nan → similarity_to query e ≠ f32_neg_zero → plain (similarity_to query e).
Proof.
  intros Hn Hz. split; [|done]. unfold similarity_to, cosine_with_norms. case_match; [done|apply div_valid].
Qed.

Inductive vector_query := SearchAll | SearchSession (session_id : string) | SearchType (content_type : string).

Definition run_query (d : DB) (q : vector_query) (query : list f32) (k : nat) : result (list SearchMatch) Error :=
  match q with
  | SearchAll => search d query k
  | SearchSession s => search_in_session d query k s
  | SearchType ct => search_by_content_type d query k ct
  end.

Definition query_prefix (q : vector_query) : bytes :=
  match q with SearchSession s => session_embeddings s | _ => EMBEDDING_PREFIX end.

Definition query_type (q : vector_query) (e : StoredEmbedding) : bool :=
  match q with SearchType ct => String.eqb (em_content_type e) ct | _ => true end.

Lemma run_query_eq d q query k : run_query d q query k = scan_search d (query_prefix q) query k (query_type q).
Proof. by destruct q. Qed.

Definition valid_query (q : vector_query) : Prop :=
  match q with SearchSession s => no_colon s | _ => True end.

(** The stored embeddings a query is about: of its session or type, and of
    its dimension. *)
Definition answers E (q : vector_query) (query : list f32) (e : StoredEmbedding) : Prop :=
  E !! embedding_id e = Some e ∧ length (em_vector e) = length query
  ∧ match q with
    | SearchAll => True
    | SearchSession s => em_session_id e = s
    | SearchType ct => em_content_type e = ct
    end.

(** More similar first; equally similar ones in key order. *)
Definition ranks (query : list f32) (e e' : StoredEmbedding) : Prop :=
  f32_total_cmp (similarity_to query e) (similarity_to query e') = Gt
  ∨ f32_total_cmp (similarity_to query e) (similarity_to query e') = Eq
    ∧ String.le (embedding_key (em_session_id e) (em_content_id e))
                (embedding_key (em_session_id e') (em_content_id e')).

Lemma answers_scan m E q query (e : StoredEmbedding) (es : list StoredEmbedding) :
  embedding_table m E → valid_query q →
  (∀ e, e ∈ es ↔ E !! embedding_id e = Some e ∧ has_prefix (query_prefix q) (uncurry embedding_key (embedding_id e))) →
  e ∈ filter (λ e, (length (em_vector e) =? length query)%nat && query_type q e) es ↔ answers E q query e.
Proof.
  intros [Hr _] Hq Hes. rewrite list_elem_of_filter, Hes, andb_True, Is_true_true, Nat.eqb_eq. unfold answers.
  destruct q as [|s|ct]; simpl.
  - split; [naive_solver|]. intros (? & ? & _). split_and!; [done..|by eexists].
  - split.
    + intros ([Hl _] & He & Hp). pose proof (sm_valid _ _ _ _ _ _ Hr _ _ He) as Hv.
      by apply under_embeddings in Hp.
    + intros (He & Hl & <-). by rewrite under_embeddings.
  - rewrite Is_true_true, String.eqb_eq. split; [naive_solver|]. intros (? & ? & ?). split_and!; [done..|by eexists].
Qed.

Lemma StronglySorted_weaken_in {A} (R R' : relation A) (l : list A) :
  (∀ x y, x ∈ l → y ∈ l → R x y → R' x y) → StronglySorted R l → StronglySorted R' l.
Proof.
  induction l as [|x l IH]; intros HR Hs; [constructor|]. apply StronglySorted_inv in Hs as [Hs Hx].
  constructor.
  - apply IH; [|done]. intros y z Hy Hz. apply HR; by right.
  - rewrite Forall_forall in *. intros y Hy. apply HR; [by left|by right|by apply Hx].
Qed.

Lemma candidates_rank query admitted es a b :
  (N.of_nat (length es) ≤ u32_mod)%N →
  StronglySorted (λ e e', String.le (uncurry embedding_key (embedding_id e)) (uncurry embedding_key (embedding_id e'))) es →
  a ∈ candidates query admitted 0 es → b ∈ candidates query admitted 0 es →
  cmp_le (best_first scored_cmp) a b → ranks query (sc_embedding a) (sc_embedding b).
Proof.
  intros Hn Hs (i & Hi & Hea & ->)%elem_of_candidates (j & Hj & Heb & ->)%elem_of_candidates Hle.
  rewrite Nat.sub_0_r in Hea, Heb. set (ea := sc_embedding a) in *. set (eb := sc_embedding b) in *.
  unfold cmp_le, best_first, scored_cmp, score_cmp in Hle. simpl in *.
  change (cosine_with_norms query (em_vector ?e) (l2_norm query) (l2_norm (em_vector ?e))) with (similarity_to query e) in Hle.
  unfold ranks. unfold f32_total_cmp in *.
  rewrite (Z.compare_antisym (f32_key (similarity_to query eb)) (f32_key (similarity_to query ea))).
  destruct (f32_key (similarity_to query eb) ?= f32_key (similarity_to query ea))%Z; simpl in *; [|by left|done].
  right. split; [done|]. change (u32_ordinal i ≤ u32_ordinal j)%N in Hle. unfold u32_ordinal, u32_mod in *.
  change (String.le (uncurry embedding_key (embedding_id ea)) (uncurry embedding_key (embedding_id eb))).
  unshelve eapply (StronglySorted_lookup _ es i j ea eb Hs); [intros e; reflexivity|lia|done..].
Qed.

(** The heap of a search is the best [k] candidates. *)
Lemma f32_lt_eq x y :
  plain x → plain y → f32_lt x y = match f32_total_cmp y x with Gt => true | _ => false end.
Proof.
  intros Hx Hy. unfold f32_lt. rewrite total_cmp_partial by done. unfold f32_total_cmp.
  rewrite (Z.compare_antisym (f32_key x) (f32_key y)). by destruct (_ ?= _)%Z.
Qed.

Lemma scan_search_spec d m q query k admitted es (key : StoredEmbedding → bytes) :
  db_is d m → under_prefix q m = (λ e, (key e, encoded e)) <$> es → (N.of_nat (length es) ≤ u32_mod)%N →
  (∀ e, e ∈ filter (λ e, (length (em_vector e) =? length query)%nat && admitted e) es → plain (similarity_to query e)) →
  scan_search d q query k admitted
  = Ok (scored_match <$> take k (sort_by (best_first scored_cmp) (candidates query admitted 0 es))).
Proof.
  intros Hd Heq Hn Hp. unfold scan_search. destruct k as [|k]; [done|]. simpl Nat.eqb.
  rewrite (db_is_scan d m), Heq, scan_loop_ok by done. cbn [result_bind]. do 2 f_equal.
  assert (∀ s, s ∈ candidates query admitted 0 es → plain (sc_similarity s)) as Hpl.
  { intros s Hs. assert (sc_similarity s = similarity_to query (sc_embedding s)) as ->.
    { apply elem_of_candidates in Hs as (i & _ & _ & ->). done. }
    apply Hp. rewrite <-(candidates_embeddings query admitted 0). apply list_elem_of_fmap. by exists s. }
  rewrite (heap_offers_spec scored_cmp); [| lia |]; [rewrite (pushed_sort scored_cmp); [done|]|].
  - intros x y Hx Hy Hxy%score_cmp_eq.
    destruct (StronglySorted_pair _ _ x y (candidates_sorted query admitted 0 es Hn) Hx Hy) as [?|[?|?]]; [done|lia..].
  - eapply StronglySorted_weaken_in; [|by apply candidates_sorted]. intros y x Hy Hx Hord.
    unfold more_similar, cmp_gt, scored_cmp, score_cmp. rewrite f32_lt_eq by auto. unfold then_with.
    destruct (f32_total_cmp (sc_similarity x) (sc_similarity y)); [|done..].
    by rewrite (proj2 (N.compare_lt_iff _ _) Hord).
Qed.

(** C36: Searches over the stored embeddings are exact: among the embeddings of
    the query's dimension in the session, of the type, or in the whole store,
    the [k] most similar ones are returned, best first, equally similar ones
    in key order.  No similarity may be NaN or -0.0. *)
Theorem vector_search_exact d m E q query k :
  db_is d m → embedding_table m E → valid_query q → (N.of_nat (size E) ≤ u32_mod)%N →
  (∀ e, answers E q query e →
     similarity_to query e ≠ SpecFloat.S754_nan ∧ similarity_to query e ≠ f32_neg_zero) →
  ∃ ms es, run_query d q query k = Ok ms
    ∧ (λ x, (mt_similarity x, mt_metadata x)) <$> ms
      = take k ((λ e, (similarity_to query e, to_metadata e)) <$> es)
    ∧ NoDup es ∧ (∀ e, e ∈ es ↔ answers E q query e) ∧ StronglySorted (ranks query) es.
Proof.
  intros Hd Hm Hq Hsize Hp.
  destruct (scan_embeddings m E (query_prefix q) Hm) as (es & Heq & Hnd & Hes & Hs & Hlen).
  { destruct q; [by eexists|by eexists|by eexists]. }
  assert (N.of_nat (length es) ≤ u32_mod)%N as Hn by lia.
  set (cs := candidates query (query_type q) 0 es).
  assert (sc_embedding <$> sort_by (best_first scored_cmp) cs
          ≡ₚ filter (λ e, (length (em_vector e) =? length query)%nat && query_type q e) es) as Hperm.
  { rewrite sort_by_perm. unfold cs. by rewrite candidates_embeddings. }
  exists (scored_match <$> take k (sort_by (best_first scored_cmp) cs)),
    (sc_embedding <$> sort_by (best_first scored_cmp) cs). split_and!.
  - rewrite run_query_eq. apply (scan_search_spec d m _ _ _ _ _ (λ e, uncurry embedding_key (embedding_id e)));
      [done..|]. intros e He%(answers_scan m E); [|done..]. apply similarity_plain; by apply Hp.
  - rewrite <-!fmap_take, <-!list_fmap_compose. apply list_fmap_ext.
    intros i s Hi%list_elem_of_lookup_2. apply subseteq_take in Hi. rewrite sort_by_perm in Hi.
    apply elem_of_candidates in Hi as (j & _ & _ & ->). done.
  - rewrite Hperm. by apply NoDup_filter.
  - intros e. rewrite Hperm. by apply (answers_scan m E).
  - pose proof (sort_by_sorted (best_first scored_cmp) cs) as Hr.
    apply (StronglySorted_weaken_in _ (λ a b, ranks query (sc_embedding a) (sc_embedding b))) in Hr.
    + clear -Hr. induction Hr as [|x l Hl IH Hx]; csimpl; constructor; [done|by apply Forall_fmap].
    + intros a b. rewrite !sort_by_perm. by apply candidates_rank.
Qed.

(** What is stored for a session is listed once per content id, in order, and
    counted. *)
Lemma session_vectors_exact d m E s :
  db_is d m → embedding_table m E → no_colon s →
  ∃ es, load_session_embeddings d s = Ok es ∧ get_session_vectors d s = Ok (embedding_vector <$> es)
    ∧ count_embeddings d s = length es ∧ has_session_embeddings d s = negb (bool_decide (es = []))
    ∧ NoDup es ∧ ∀ e, e ∈ es ↔ E !! (s, em_content_id e) = Some e.
Proof.
  intros Hd Hm Hs.
  destruct (scan_embeddings m E (session_embeddings s) Hm) as (es & Heq & Hnd & Hes & _); [by eexists|].
  pose proof (load_embeddings_ok d m _ es _ Hd Heq) as Hload. exists es. split_and!; [done| | | |done|].
  - unfold get_session_vectors, load_session_embeddings. by rewrite Hload.
  - exact (count_keys_ok d m _ es _ Hd Heq).
  - unfold has_session_embeddings. rewrite (db_is_scan d m), Heq by done. f_equal. apply bool_decide_ext.
    rewrite !length_fmap. by destruct es.
  - intros e. rewrite Hes. destruct Hm as [Hr Hi]. split.
    + intros [He Hp]. pose proof (sm_valid _ _ _ _ _ _ Hr _ _ He) as Hv. simpl in Hp.
      apply under_embeddings in Hp; [|done..]. by rewrite <-Hp.
    + intros He. pose proof (Hi _ _ He) as [= ->]. split; [done|]. by apply under_embeddings.
Qed.

(** C37: The embedding store is a map by session and content id: every
    operation answers as the map does and changes exactly its entries, vectors
    of another dimension are refused without effect, and no other kind of
    record is touched. *)
Theorem vector_ops_refine d m E op :
  db_is d m → embedding_table m E → valid_vector_op op →
  ∃ d' m', run_vector_op d op = (d', (vector_step E op).2) ∧ db_is d' m'
    ∧ embedding_table m' (vector_step E op).1 ∧ only_in ["embedding"] m m'.
Proof. apply vector_op_spec. Qed.

(** A heap full of NaN similarities admits nothing more: the first [k]
    candidates stay, however similar the later ones are. *)
Lemma nan_rows_stay d m q query k admitted es (key : StoredEmbedding → bytes) :
  db_is d m → under_prefix q m = (λ e, (key e, encoded e)) <$> es → (N.of_nat (length es) ≤ u32_mod)%N →
  (k ≤ length (candidates query admitted 0 es))%nat →
  Forall (λ s, sc_similarity s = SpecFloat.S754_nan) (take k (candidates query admitted 0 es)) →
  scan_search d q query k admitted = Ok (scored_match <$> take k (candidates query admitted 0 es)).
Proof.
  intros Hd Heq Hn Hk Hnan. unfold scan_search. destruct k as [|k]; [done|]. simpl Nat.eqb.
  rewrite (db_is_scan d m), Heq, scan_loop_ok by done. cbn [result_bind]. do 2 f_equal.
  pose proof (candidates_sorted query admitted 0 es Hn) as Hs.
  set (cs := candidates query admitted 0 es) in *. rewrite <-(take_drop (S k) cs) at 1.
  rewrite foldl_app.
  assert (foldl (heap_offer scored_cmp more_similar (S k)) [] (take (S k) cs) = take (S k) cs) as ->.
  { assert (StronglySorted (λ s s', (sc_ordinal s < sc_ordinal s')%N) (take (S k) cs)) as Hst
      by (by apply (StronglySorted_sublist _ _ cs); [apply sublist_take|]).
    rewrite (heap_offers_spec scored_cmp); [|lia|].
    - rewrite (take_ge (pushed scored_cmp (take (S k) cs))).
      + unfold pushed. destruct (pushed_spec scored_cmp (take (S k) cs) []) as [Hps Hpp]; [constructor|].
        rewrite app_nil_r in Hpp. apply (sorted_perm_eq scored_cmp); [done| |done|].
        * eapply StronglySorted_weaken_in; [|exact Hst]. intros a b Ha Hb Hab.
          rewrite Forall_forall in Hnan. unfold cmp_le, best_first, scored_cmp, score_cmp.
          rewrite !Hnan by done. simpl. apply N.compare_le_iff. simpl in Hab. lia.
        * intros a b. rewrite Hpp. intros Ha Hb Hab%score_cmp_eq.
          destruct (StronglySorted_pair _ _ a b Hst Ha Hb) as [?|[?|?]]; [done|lia..].
      + destruct (pushed_spec scored_cmp (take (S k) cs) []) as [_ Hpp]; [constructor|].
        unfold pushed. rewrite Hpp, app_nil_r, length_take. lia.
    - eapply StronglySorted_weaken_in; [|exact Hst]. intros y x Hy Hx Hord.
      rewrite Forall_forall in Hnan. unfold more_similar, cmp_gt, scored_cmp, score_cmp. rewrite !Hnan by done.
      simpl. by rewrite (proj2 (N.compare_lt_iff _ _) Hord). }
  clear Hs. generalize (drop (S k) cs). intros rest. induction rest as [|x rest IH]; [done|]. csimpl.
  rewrite <-IH at 2. f_equal. unfold heap_offer. rewrite length_take, Nat.min_l, Nat.ltb_irrefl by done.
  unfold heap_peek. destruct (last (take (S k) cs)) as [w|] eqn:Hw; [|done].
  apply last_Some_elem_of in Hw. rewrite Forall_forall in Hnan. unfold more_similar. by rewrite Hnan.
Qed.
End store.

(** ** Instances *)

#[global] Instance StoredEmbedding_eq_dec : EqDecision StoredEmbedding.
Proof. solve_decision. Defined.

#[global] Instance StoredEmbedding_countable : Countable StoredEmbedding.
Proof.
  refine (inj_countable'
    (λ e, (em_content_id e, em_session_id e, em_vector e, em_text e, em_content_type e, em_timestamp e, em_metadata e))
    (λ '(a, b, c, d, e, f, g), mkStoredEmbedding a b c d e f g) _).
  by intros [].
Defined.

Definition embedding_codec_of : Bincode StoredEmbedding := countable_bincode.

#[local] Existing Instances mem_db mem_db_laws embedding_codec_of.
#[local] Instance embedding_laws : BincodeLaws StoredEmbedding := countable_bincode_laws.

(** Three texts of a session and one of another, embedded in the plane. *)
Definition demo_embeddings : list StoredEmbedding :=
  [mkStoredEmbedding "a" "s" [f32_one; f32_zero] "" "Note" 1 ∅;
   mkStoredEmbedding "b" "s" [f32_zero; f32_one] "" "Note" 2 ∅;
   mkStoredEmbedding "c" "s" [f32_one; f32_half] "" "Note" 3 ∅;
   mkStoredEmbedding "a" "t" [f32_one; f32_one] "" "Note" 4 ∅].

Definition demo_vectors_db : @DB mem_db := (batch_save_embeddings empty_db demo_embeddings).1.
Definition demo_vectors : gmap (string * string) StoredEmbedding := foldl write_embedding ∅ demo_embeddings.

Lemma demo_vectors_ok : ∃ m, db_is demo_vectors_db m ∧ embedding_table m demo_vectors.
Proof.
  destruct (save_embeddings_spec empty_db ∅ ∅ demo_embeddings) as (d & m & Hrun & Hd & Hm & _);
    [apply mem_db_is|by apply no_embeddings| |].
  - apply (bool_decide_unpack (Forall (λ e, no_colon (em_session_id e)) demo_embeddings)).
    vm_compute. exact I.
  - exists m. split; [|done]. unfold demo_vectors_db. by rewrite Hrun.
Qed.

Lemma vector_search_exact_witness :
  ∃ ms es, run_query demo_vectors_db (SearchSession "s") [f32_one; f32_zero] 2 = Ok ms
    ∧ (λ x, (mt_similarity x, mt_metadata x)) <$> ms
      = take 2 ((λ e, (similarity_to [f32_one; f32_zero] e, to_metadata e)) <$> es).
Proof.
  destruct demo_vectors_ok as (m & Hd & Hm).
  destruct (vector_search_exact demo_vectors_db m demo_vectors (SearchSession "s") [f32_one; f32_zero] 2 Hd Hm)
    as (ms & es & Hq & Hms & _); [apply (bool_decide_unpack (no_colon "s")); vm_compute; exact I|by vm_compute| |exists ms, es; split; [exact Hq|exact Hms]].
  intros e (He & _). revert He. generalize (embedding_id e). revert e.
  assert (map_Forall (λ _ e, similarity_to [f32_one; f32_zero] e ≠ SpecFloat.S754_nan
                             ∧ similarity_to [f32_one; f32_zero] e ≠ f32_neg_zero) demo_vectors) as H.
  { refine (bool_decide_unpack _ _). vm_compute. exact I. }
  intros e p He. by apply (H p).
Defined.

Lemma vector_ops_refine_witness :
  ∃ d' m', run_vector_op (Some 2) demo_vectors_db (RemoveContent "a") = (d', Some (Removed true)) ∧ db_is d' m'
    ∧ embedding_table m' (filter (λ p, p.1.2 ≠ "a") demo_vectors).
Proof.
  destruct demo_vectors_ok as (m & Hd & Hm).
  destruct (vector_ops_refine (Some 2) demo_vectors_db m demo_vectors (RemoveContent "a") Hd Hm I)
    as (d' & m' & Hrun & Hd' & Hm' & _). exists d', m'. split_and!; [|exact Hd'|exact Hm'].
  rewrite Hrun. f_equal.
Defined.
